(* ===== verification/_CoqProject ===== *)
-Q . S2P
Prelude.v
HashKey.v
Blocks.v
DList.v
PrefixCache.v
ThreadPool.v
KvEvents.v
BlockManager.v
CacheEvents.v
BlockClient.v
CacheView.v
KVState.v
EmbeddingManager.v
Stopping.v
IncrementalDecoder.v
LogprobState.v
Sequence.v
Pool.v
Samples.v
VirtPage.v
PhyPagePool.v
PageAllocator.v
XTensorBlocks.v
XTensorPages.v
Int32Map.v
SuffixTree.v
SuffixSiblings.v
SuffixGroups.v
SuffixCounts.v
SuffixPaths.v
SuffixStores.v
SuffixOps.v
SuffixStep.v
SuffixAppend.v
SuffixMatch.v
Request.v
Scheduler.v
SchedBatch.v
SchedOrder.v
SchedPool.v
Chunked.v
ChunkedOrder.v
SchedSafe.v
ChunkedSafe.v
PoolServes.v
ChunkedServes.v
