(* ===== verification/Prelude.v ===== *)
(** The xLLM serving engine: a verified model of its memory management and of the state
    of a request.

    xLLM serves large language models.  Its scheduler runs sequences of tokens step by
    step; each sequence holds blocks of KV cache.  The blocks are the scarce resource,
    and most of the engine's own logic is about them: handing them out, sharing those
    that hold a common prompt prefix, evicting cached ones, moving them with beam search,
    growing them out of virtual pages that several models share, and telling the
    cluster which prefixes are cached where.  The development models that logic and the
    per-sequence state around it.  Paths below are under [src/xllm/core].

    * Files and the code they model

    - [Prelude]: machine integers at their width ([u32], [u64], [i32]), the program monad
      [prog] (a state, and a normal return, a C++ exception, a failed [CHECK] or undefined
      behaviour), weakest preconditions [wp] (the call returns), [wpe] (it returns or
      throws) and [post] (if it returns), loops and tactics.
    - [HashKey]: the 128-bit keys and the chained block hash ([util/hash_util.h],
      [framework/prefix_cache/prefix_cache.cpp]).
    - [Blocks]: reference-counted block handles ([framework/block/block.*]) over an
      explicit store of counters, generic in the manager (classes [BlockOwner],
      [BlockOwnerLaws]).
    - [DList], [PrefixCache]: the intrusive LRU list and the prefix cache
      ([framework/prefix_cache/prefix_cache.*]).
    - [ThreadPool], [KvEvents]: the pool of worker threads ([util/threadpool.*]) and the
      recorder of cache events on top of it ([prefix_cache_with_upload.*],
      [util/double_buffer.h], [framework/kv_cache/kv_cache_event.h]).
    - [BlockManager], [CacheEvents], [BlockClient], [CacheView]: the block manager
      ([framework/block/block_manager*.{h,cpp}], [concurrent_block_manager_impl.cpp]), what
      its operations report, the protocol of its clients and of the reader of heartbeats.
    - [KVState], [Stopping], [IncrementalDecoder], [LogprobState], [Sequence]: the state of
      one sequence ([framework/request/sequence*.{h,cpp}], [stopping_checker.*],
      [incremental_decoder.*]).
    - [EmbeddingManager], [Pool]: the embedding ids and the managers of all data-parallel
      ranks ([framework/block/embedding_manager.*], [block_manager_pool.*]).
    - [VirtPage], [PhyPagePool], [PageAllocator], [XTensorBlocks], [XTensorPages]: elastic
      memory ([framework/xtensor/virt_page.*], [phy_page_pool.*], [page_allocator.*],
      [xtensor_block_manager_impl.*]).
    - [Samples]: concrete runs that instantiate the theorems.
    - [Int32Map]: the open-addressing hash map with 32-bit keys ([util/int32_map.h]).
    - [SuffixTree], [SuffixOps]: the suffix tree of speculative decoding
      ([util/suffix_tree.*]): nodes, groups and their linked lists in two stores of objects,
      and the operations on the tree.
    - [SuffixSiblings], [SuffixGroups], [SuffixCounts]: the lists of siblings and groups, and
      the change of a count.  [SuffixPaths]: the compressed tree as a property of the data of
      the nodes, with each case of [append] as a function on them.  [SuffixStores],
      [SuffixStep], [SuffixAppend]: the program makes these changes.  [SuffixMatch]: matching
      and drafts.
    - [Request], [Scheduler]: a request with its group of sequences and the priority
      comparators ([framework/request/request.*], [sequences_group.*],
      [priority_comparator.cpp]), and one step of the continuous scheduler
      ([scheduler/continuous_scheduler.*]), with both running queues
      ([decode_priority_queue.h]), over the class [KVCacheManager]
      ([framework/block/kv_cache_manager.h]).
    - [SchedBatch], [SchedOrder]: what a step does to the batch and its budgets, and to the
      queues.
    - [SchedPool]: [Pool] as the manager of the scheduler, a priority queue that satisfies
      its laws, and concrete runs of the scheduler on a pool of blocks.
    - [SchedSafe], [PoolServes]: the contract the scheduler relies on (class
      [KVCacheManagerLaws]) with the safety of a step against it, and the proof that the
      pool without prefix cache keeps the contract for any number of ranks and sequences.
    - [Chunked]: the scheduler with chunked prefill
      ([scheduler/chunked_prefill_scheduler.*]) over the state and operations of
      [Scheduler]; [ChunkedOrder], [ChunkedSafe], [ChunkedServes]: where its requests go, the
      safety of its steps, and its runs on a pool.
    * How the parts interact

    [Pool] calls [BlockManager] and [EmbeddingManager] for a [Sequence] and changes the
    sequence's [KVState]; [BlockManager] calls [PrefixCache], which destroys and copies
    handles of [Blocks], which call the manager back through [BlockOwner]; the cache
    reports to [KvEvents], whose queue is a [ThreadPool].  [XTensorBlocks] is another block
    manager over an interface of the page allocator ([PageSource]) that [XTensorPages]
    discharges for [PageAllocator].  Ownership is one invariant throughout: a list of all live
    handles, with each counter equal to its handles ([world_ok]), refined to vectors of
    blocks per client ([bm_ok s seqs], [kv_world_ok], [holds]).

    [Scheduler] drives the requests through the same operations, behind the class
    [KVCacheManager], of which [Pool] is the instance; its requests are shared objects in a
    store, and its queues hold their addresses.

    * Groups of theorems

    - Safety of memory: no interleaving of the clients' calls reaches undefined behaviour
      or a failed check, no block is handed out twice, the last handle frees the block
      once ([BlockClient], [Blocks], [Pool], [EmbeddingManager], [XTensorBlocks]).
    - Accounting: free, padding and live blocks add up, virtual and physical pages are
      partitioned at every moment of every interleaving ([BlockClient], [PhyPagePool],
      [PageAllocator]).
    - Function: longest shared prefix, LRU order and eviction, slots, scores, stopping,
      streaming output ([BlockClient], [PrefixCache], [KVState], [LogprobState],
      [Stopping], [IncrementalDecoder], [Sequence]).
    - Refinement and equivalence: the pointer list against sequences, the heartbeats
      against the cache's keys, overlapped scheduling against the plain one ([DList],
      [CacheView], [Sequence]).
    - Ordering: the thread pool deals its tasks round robin and keeps those of each
      submitting thread in order, however the atomic steps of its callers interleave
      ([ThreadPool]).
    - Termination and liveness: the destructor of the thread pool drains it; the wait of the
      page allocator, which the model has, is out of reach ([ThreadPool], [PageAllocator]).
    - Scheduling: a batch keeps to its budgets, no request is lost or duplicated but in two
      cases (a beam search whose sequences are all finished, an offline request that is too
      long), the order of arrival is kept among running requests, the comparators are strict
      weak orders, and the cases in which the code departs from this ([SchedBatch],
      [SchedOrder], [Request]).
    - A step never fails: over a manager that keeps [KVCacheManagerLaws], [prepare_batch]
      returns from every state [sched_ok] (online requests without beam search, options under
      which the checks hold), within as many rounds as there are requests; the pool keeps the contract ([SchedSafe],
      [PoolServes]).
    - The hash map refines a finite map and stays compact ([Int32Map]).
    - The suffix tree stays the compressed tree of the suffixes of its sequences, with its
      children in the order of their counts; a context is found exactly where it occurs, with
      the number of its occurrences, and a draft takes the most frequent token each time
      ([SuffixAppend], [SuffixMatch]).
    - Chunked prefill keeps and loses the same requests, its steps are safe for online
      requests of one sequence without speculation, and their batches are exactly accounted
      for; preempting offline requests it loses online ones ([ChunkedSafe],
      [ChunkedOrder]).
    * Modelling choices

    Integers are [Z] with the wrap-around of their C++ type written out where the code
    computes at a width; sizes and indices that only count list elements are [nat].
    Loops over containers recurse on the list; the loop of [alloc_kv_cache_page] takes its
    fuel as an argument, and [alloc_never_waits] shows one round is enough; the two [while] loops
    of a scheduler step take a bound on their rounds.  Unordered
    containers are finite maps and sets, and where their iteration order matters it is a
    parameter.  A call under a mutex is one step; calls that drop the mutex are cut at
    those points ([PageAllocator]), and the lock-free [schedule] at its atomic operations
    ([ThreadPool.client_step]).  Its callers in [KvEvents] submit one after the other, for
    which [schedule] is the whole call.  Parameters with stated laws stand for code that is not
    in the repository: xxHash, the tokenizers (of which it is only asked that the text of
    tokens does not depend on what comes before tokens in front of them that show text up to
    a complete character, [decode_extends]), float arithmetic, the answers of remote
    workers; and [double] in the scheduler, its trained time predictors and
    [std::priority_queue].
    Pointers of the suffix tree are addresses of objects in a store; the loops of a draft have
    a round for each token and each edge, which [speculate_likely] shows is enough.

    * Not modelled

    Tensors, layers, kernels and models (numerical code over torch and vendor libraries);
    engines, workers and the distributed runtime (devices, RPC, etcd); the API servers and
    bindings; the other schedulers (disaggregated, prefill only, zero evict, mixed) and the
    processing of responses; the hierarchical pool with its host tier; the cache of suffix trees
    ([util/suffix_decoding_cache.*]) and the self-check of the tree, whose removal of a
    sequence is modelled without a theorem; the virtual-memory driver calls of
    the xtensor directory; the multi-modal and recommendation paths of a sequence; metrics
    and logging. *)

From stdpp Require Import base gmap list strings.
From Stdlib Require Import ZArith Lia.

(** ** Machine integers *)

Declare Scope xllm_scope.
Delimit Scope xllm_scope with xllm.
Open Scope Z_scope.

(** [uint32_t], [size_t]/[uint64_t] and [int32_t] arithmetic: the value a
    C++ operation of that width leaves in the variable. *)
Definition u32 (z : Z) : Z := z mod 2 ^ 32.
Definition u64 (z : Z) : Z := z mod 2 ^ 64.
Definition i32 (z : Z) : Z := (z + 2 ^ 31) mod 2 ^ 32 - 2 ^ 31.

Lemma u32_id z : 0 ≤ z < 2 ^ 32 → u32 z = z.
Proof. apply Z.mod_small. Qed.
Lemma u64_id z : 0 ≤ z < 2 ^ 64 → u64 z = z.
Proof. apply Z.mod_small. Qed.
Lemma i32_id z : - 2 ^ 31 ≤ z < 2 ^ 31 → i32 z = z.
Proof. intros. unfold i32. rewrite Z.mod_small; lia. Qed.
Lemma u64_range z : 0 ≤ u64 z < 2 ^ 64.
Proof. apply Z.mod_pos_bound; lia. Qed.
Lemma u32_range z : 0 ≤ u32 z < 2 ^ 32.
Proof. apply Z.mod_pos_bound; lia. Qed.

(** ** Programs

    A C++ member function that reads and writes the state [S] is a [prog S A].
    [Done] is a normal return; [Throws] is a C++ exception, which keeps the
    state reached; [Fatal] is a failed [CHECK] or a [LOG(FATAL)], which ends
    the process; [Undef] is undefined behaviour of the language (an index out
    of range, a null dereference). *)
Inductive outcome (S A : Type) : Type :=
  | Done (a : A) (s : S)
  | Throws (msg : string) (s : S)
  | Fatal (msg : string)
  | Undef (msg : string).
Arguments Done {S A} a s.
Arguments Throws {S A} msg s.
Arguments Fatal {S A} msg.
Arguments Undef {S A} msg.

Definition prog (S A : Type) : Type := S → outcome S A.

#[export] Instance prog_ret S : MRet (prog S) := λ A a s, Done a s.
#[export] Instance prog_bind S : MBind (prog S) := λ A B f m s,
  match m s with
  | Done a s' => f a s'
  | Throws e s' => Throws e s'
  | Fatal e => Fatal e
  | Undef e => Undef e
  end.

Section ops.
Context {St : Type}.
Definition get : prog St St := λ s, Done s s.
Definition put (s' : St) : prog St unit := λ _, Done () s'.
Definition modify (f : St → St) : prog St unit := λ s, Done () (f s).
Definition gets {A} (f : St → A) : prog St A := λ s, Done (f s) s.
Definition fatal {A} (e : string) : prog St A := λ _, Fatal e.
Definition undef {A} (e : string) : prog St A := λ _, Undef e.
Definition throw {A} (e : string) : prog St A := λ s, Throws e s.
(** [CHECK(b) << e] *)
Definition check (b : bool) (e : string) : prog St unit :=
  if b then mret () else fatal e.
(** [v[i]] of a [std::vector]: out of range is undefined behaviour *)
Definition at_ {A} (l : list A) (i : nat) : prog St A :=
  match l !! i with Some a => mret a | None => undef "vector index" end.
(** the same for an index computed at machine width *)
Definition atZ {A} (l : list A) (i : Z) : prog St A :=
  if (0 <=? i) && (i <? Z.of_nat (length l)) then at_ l (Z.to_nat i)
  else undef "vector index".
(** a range-based [for] *)
Fixpoint for_each {A} (l : list A) (f : A → prog St unit) : prog St unit :=
  match l with
  | [] => mret ()
  | a :: l => f a ≫= λ _, for_each l f
  end.
(** [std::transform] into a fresh vector, left to right *)
Fixpoint map_each {A B} (l : list A) (f : A → prog St B) : prog St (list B) :=
  match l with
  | [] => mret []
  | a :: l => f a ≫= λ b, map_each l f ≫= λ bs, mret (b :: bs)
  end.
(** a counted [for] loop of [n] iterations collecting its results *)
Fixpoint repeat_each {B} (n : nat) (f : prog St B) : prog St (list B) :=
  match n with
  | O => mret []
  | S n => f ≫= λ b, repeat_each n f ≫= λ bs, mret (b :: bs)
  end.
End ops.

(** Runs [m] on a part of the state. *)
Definition zoom {S T A} (view : S → T) (upd : T → S → S) (m : prog T A) : prog S A :=
  λ s, match m (view s) with
       | Done a t => Done a (upd t s)
       | Throws e t => Throws e (upd t s)
       | Fatal e => Fatal e
       | Undef e => Undef e
       end.

(** ** Weakest preconditions

    [wp m Q s]: from [s], [m] returns normally (no exception, no failed check,
    no undefined behaviour) in a result and state that satisfy [Q]. *)
Definition wp {S A} (m : prog S A) (Q : A → S → Prop) (s : S) : Prop :=
  match m s with Done a s' => Q a s' | _ => False end.

Section wp.
Context {St : Type}.

Lemma wp_ret {A} (a : A) (Q : A → St → Prop) s : Q a s → wp (mret a) Q s.
Proof. done. Qed.
Lemma wp_bind {A B} (m : prog St A) (f : A → prog St B) Q s :
  wp m (λ a s', wp (f a) Q s') s → wp (m ≫= f) Q s.
Proof. unfold wp, mbind, prog_bind. by destruct (m s). Qed.
Lemma wp_bind_inv {A B} (m : prog St A) (f : A → prog St B) Q s :
  wp (m ≫= f) Q s → wp m (λ a s', wp (f a) Q s') s.
Proof. unfold wp, mbind, prog_bind. by destruct (m s). Qed.
Lemma wp_bind_assoc {A B C} (m : prog St A) (f : A → prog St B) (g : B → prog St C) Q s :
  wp ((m ≫= f) ≫= g) Q s → wp (m ≫= λ a, f a ≫= g) Q s.
Proof. unfold wp, mbind, prog_bind. by destruct (m s). Qed.
Lemma wp_mono {A} (m : prog St A) (Q R : A → St → Prop) s :
  wp m Q s → (∀ a s', Q a s' → R a s') → wp m R s.
Proof. unfold wp. destruct (m s); naive_solver. Qed.
Lemma wp_seq {A B} (m : prog St A) (f : A → prog St B) Q R s :
  wp m Q s → (∀ a s', Q a s' → wp (f a) R s') → wp (m ≫= f) R s.
Proof. intros Hm Hf. apply wp_bind. eapply wp_mono; eauto. Qed.
Lemma wp_seq_assoc {A B C} (m : prog St A) (f : A → prog St B) (g : B → prog St C) Q R s :
  wp (m ≫= f) Q s → (∀ b s', Q b s' → wp (g b) R s') → wp (m ≫= λ a, f a ≫= g) R s.
Proof. intros Hm Hg. apply wp_bind_assoc, wp_bind. eapply wp_mono; eauto. Qed.
Lemma wp_get (Q : St → St → Prop) s : Q s s → wp get Q s.
Proof. done. Qed.
Lemma wp_gets {A} (f : St → A) (Q : A → St → Prop) s : Q (f s) s → wp (gets f) Q s.
Proof. done. Qed.
Lemma wp_put t (Q : unit → St → Prop) s : Q () t → wp (put t) Q s.
Proof. done. Qed.
Lemma wp_modify f (Q : unit → St → Prop) s : Q () (f s) → wp (modify f) Q s.
Proof. done. Qed.
Lemma wp_check b e (Q : unit → St → Prop) s : b = true → Q () s → wp (check b e) Q s.
Proof. intros ->. done. Qed.
Lemma wp_at {A} (l : list A) i a (Q : A → St → Prop) s :
  l !! i = Some a → Q a s → wp (at_ l i) Q s.
Proof. unfold at_. intros ->. done. Qed.

Lemma wp_atZ {A} (l : list A) i a (Q : A → St → Prop) s :
  0 ≤ i → l !! Z.to_nat i = Some a → Q a s → wp (atZ l i) Q s.
Proof.
  intros Hi Ha HQ. unfold atZ. pose proof (lookup_lt_Some _ _ _ Ha).
  assert ((0 <=? i) && (i <? Z.of_nat (length l)) = true) as ->.
  { apply andb_true_iff. rewrite Z.leb_le, Z.ltb_lt. lia. }
  by eapply wp_at.
Qed.

Lemma atZ_done {A} (l : list A) i a (s : St) :
  0 ≤ i → l !! Z.to_nat i = Some a → atZ l i s = Done a s.
Proof.
  intros Hi Ha. pose proof (wp_atZ l i a (λ x s', x = a ∧ s' = s) s Hi Ha) as Hwp. unfold wp in Hwp.
  destruct (atZ l i s); naive_solver.
Qed.

(** A loop keeps an invariant on the elements still to visit. *)
Lemma wp_for_each {A} (l : list A) f (I : list A → St → Prop) s :
  I l s →
  (∀ a l' s', I (a :: l') s' → wp (f a) (λ _, I l') s') →
  wp (for_each l f) (λ _, I []) s.
Proof.
  revert s. induction l as [|a l IH]; intros s HI Hf; simpl; [done|].
  eapply wp_seq; [by apply Hf|]. intros [] s' HI'. by apply IH.
Qed.
Lemma wp_map_each {A B} (l : list A) f (I : list A → list B → St → Prop) s :
  I l [] s →
  (∀ a l' bs s', I (a :: l') bs s' → wp (f a) (λ b, I l' (bs ++ [b])) s') →
  wp (map_each l f) (λ bs, I [] bs) s.
Proof.
  intros HI Hf. cut (∀ l bs s, I l bs s → wp (map_each l f) (λ bs', I [] (bs ++ bs')) s).
  { intros H. by apply (H l [] s). }
  clear HI s l. induction l as [|a l IH]; intros bs s HI; simpl.
  { apply wp_ret. by rewrite app_nil_r. }
  eapply wp_seq; [by apply Hf|]. intros b s' HI'. simpl in HI'.
  eapply wp_seq; [by apply IH|]. intros bs' s'' H.
  apply wp_ret. cbv beta in H. by rewrite <-app_assoc in H.
Qed.
Lemma wp_repeat_each {B} n (f : prog St B) (I : nat → list B → St → Prop) s :
  I n [] s →
  (∀ k bs s', I (S k) bs s' → wp f (λ b, I k (bs ++ [b])) s') →
  wp (repeat_each n f) (λ bs, I O bs) s.
Proof.
  intros HI Hf.
  cut (∀ n bs s, I n bs s → wp (repeat_each n f) (λ bs', I O (bs ++ bs')) s).
  { intros H. by apply (H n [] s). }
  clear HI s n. induction n as [|n IH]; intros bs s HI; simpl.
  { apply wp_ret. by rewrite app_nil_r. }
  eapply wp_seq; [by apply Hf|]. intros b s' HI'. simpl in HI'.
  eapply wp_seq; [by apply IH|]. intros bs' s'' H.
  apply wp_ret. cbv beta in H. by rewrite <-app_assoc in H.
Qed.
Lemma wp_zoom {T A} (view : St → T) upd (m : prog T A) Q s :
  wp m (λ a t, Q a (upd t s)) (view s) → wp (zoom view upd m) Q s.
Proof. unfold wp, zoom. by destruct (m (view s)). Qed.
Lemma wp_zoom_inv {T A} (view : St → T) upd (m : prog T A) Q s :
  wp (zoom view upd m) Q s → wp m (λ a t, Q a (upd t s)) (view s).
Proof. unfold wp, zoom. by destruct (m (view s)). Qed.
End wp.

(** ** Postconditions without termination

    [post m Q s]: if [m] returns normally from [s], then in a result and state that
    satisfy [Q].  Used for facts that hold of any state, next to a [wp]. *)
Definition post {S A} (m : prog S A) (Q : A → S → Prop) (s : S) : Prop :=
  match m s with Done a s' => Q a s' | _ => True end.

Section post.
Context {St : Type}.
Lemma post_ret {A} (a : A) (Q : A → St → Prop) s : Q a s → post (mret a) Q s.
Proof. done. Qed.
Lemma post_bind {A B} (m : prog St A) (f : A → prog St B) Q s :
  post m (λ a s', post (f a) Q s') s → post (m ≫= f) Q s.
Proof. unfold post, mbind, prog_bind. by destruct (m s). Qed.
Lemma post_mono {A} (m : prog St A) (Q R : A → St → Prop) s :
  post m Q s → (∀ a s', Q a s' → R a s') → post m R s.
Proof. unfold post. destruct (m s); naive_solver. Qed.
Lemma post_get (Q : St → St → Prop) s : Q s s → post get Q s.
Proof. done. Qed.
Lemma post_gets {A} (f : St → A) (Q : A → St → Prop) s : Q (f s) s → post (gets f) Q s.
Proof. done. Qed.
Lemma post_modify f (Q : unit → St → Prop) s : Q () (f s) → post (modify f) Q s.
Proof. done. Qed.
Lemma post_put t (Q : unit → St → Prop) s : Q () t → post (put t) Q s.
Proof. done. Qed.
Lemma post_check b e (Q : unit → St → Prop) s : (b = true → Q () s) → post (check b e) Q s.
Proof. destruct b; [intros HQ; by apply HQ|done]. Qed.
Lemma post_at {A} (l : list A) i (Q : A → St → Prop) s :
  (∀ a, l !! i = Some a → Q a s) → post (at_ l i) Q s.
Proof. unfold at_. destruct (l !! i); [intros HQ; by apply HQ|done]. Qed.
Lemma post_atZ {A} (l : list A) i (Q : A → St → Prop) s :
  (∀ x, 0 ≤ i → l !! Z.to_nat i = Some x → Q x s) → post (atZ l i) Q s.
Proof.
  intros HQ. unfold atZ. destruct (_ && _) eqn:E; [|done]. apply andb_true_iff in E as [E _].
  apply Z.leb_le in E. apply post_at. auto.
Qed.
Lemma post_undef {A} e (Q : A → St → Prop) s : post (undef e) Q s.
Proof. done. Qed.
Lemma post_zoom {T A} (view : St → T) upd (m : prog T A) Q s :
  post m (λ a t, Q a (upd t s)) (view s) → post (zoom view upd m) Q s.
Proof. unfold post, zoom. by destruct (m (view s)). Qed.
Lemma post_zoom_any {T A} (view : St → T) upd (m : prog T A) (Q : A → St → Prop) s :
  (∀ a t, Q a (upd t s)) → post (zoom view upd m) Q s.
Proof. unfold post, zoom. by destruct (m (view s)). Qed.
Lemma wp_post {A} (m : prog St A) (Q R : A → St → Prop) s :
  wp m Q s → post m R s → wp m (λ a s', Q a s' ∧ R a s') s.
Proof. unfold wp, post. by destruct (m s). Qed.
Lemma post_and {A} (m : prog St A) (Q R : A → St → Prop) s :
  post m Q s → post m R s → post m (λ a s', Q a s' ∧ R a s') s.
Proof. unfold post. by destruct (m s). Qed.
Lemma post_for_each {A} (l : list A) f (I : St → Prop) s :
  I s → (∀ a s', a ∈ l → I s' → post (f a) (λ _, I) s') → post (for_each l f) (λ _, I) s.
Proof.
  revert s. induction l as [|a l IH]; intros s HI Hf; simpl; [done|].
  apply post_bind. eapply post_mono; [apply Hf; [by left|done]|].
  intros [] s' HI'. apply IH; [done|]. intros b s'' Hb. apply Hf. by right.
Qed.
Lemma post_map_each {A B} (l : list A) f (I : list B → St → Prop) s :
  I [] s →
  (∀ a bs s', a ∈ l → I bs s' → post (f a) (λ b, I (bs ++ [b])) s') →
  post (map_each l f) I s.
Proof.
  intros HI Hf. cut (∀ bs s, I bs s → post (map_each l f) (λ bs', I (bs ++ bs')) s).
  { intros H. by apply (H [] s). }
  clear HI s. induction l as [|a l IH]; intros bs s HI; simpl.
  { apply post_ret. by rewrite app_nil_r. }
  apply post_bind. eapply post_mono; [apply Hf; [by left|done]|]. intros b s' HI'. cbv beta in HI'.
  apply post_bind. eapply post_mono; [apply IH; [|done]|].
  { intros a' bs' s'' Ha'. apply Hf. by right. }
  intros bs' s'' H. apply post_ret. cbv beta in H. by rewrite <-app_assoc in H.
Qed.
Lemma post_repeat_each {B} n (f : prog St B) (I : St → Prop) s :
  I s → (∀ s', I s' → post f (λ _, I) s') → post (repeat_each n f) (λ _, I) s.
Proof.
  intros HI Hf. revert s HI. induction n as [|n IH]; intros s HI; simpl; [done|].
  apply post_bind. eapply post_mono; [by apply Hf|]. intros b s' HI'.
  apply post_bind. eapply post_mono; [by apply IH|]. done.
Qed.

(** Facts about the state before and after, for a preorder [R] *)
Section chain.
Context (R : St → St → Prop) `{!PreOrder R}.
Lemma post_chain {A B} (m : prog St A) (f : A → prog St B) s :
  post m (λ _ s', R s s') s → (∀ a s', R s s' → post (f a) (λ _ s'', R s' s'') s') →
  post (m ≫= f) (λ _ s'', R s s'') s.
Proof.
  intros Hm Hf. apply post_bind. eapply post_mono; [exact Hm|]. intros a s' Hs.
  eapply post_mono; [by apply Hf|]. intros b s'' Hs'. by transitivity s'.
Qed.
Lemma post_chain_for_each {A} (l : list A) f s :
  (∀ a s', post (f a) (λ _ s'', R s' s'') s') → post (for_each l f) (λ _ s', R s s') s.
Proof.
  intros Hf. apply (post_for_each l f (R s)); [done|]. intros a s' _ Hs.
  eapply post_mono; [apply Hf|]. intros u s'' Hs'. by transitivity s'.
Qed.
Lemma post_chain_map_each {A B} (l : list A) (f : A → prog St B) s :
  (∀ a s', post (f a) (λ _ s'', R s' s'') s') → post (map_each l f) (λ _ s', R s s') s.
Proof.
  intros Hf. apply (post_map_each l f (λ _, R s)); [done|]. intros a bs s' _ Hs.
  eapply post_mono; [apply Hf|]. intros u s'' Hs'. by transitivity s'.
Qed.
End chain.
End post.

(** ** Exceptions

    [wpe m Q E s]: from [s], [m] returns in a result and state that satisfy [Q] or throws
    in a state that satisfies [E]; nothing else happens. *)
Definition wpe {S A} (m : prog S A) (Q : A → S → Prop) (E : S → Prop) (s : S) : Prop :=
  match m s with Done a s' => Q a s' | Throws _ s' => E s' | _ => False end.

Section wpe.
Context {St : Type}.
Lemma wpe_ret {A} (a : A) (Q : A → St → Prop) E s : Q a s → wpe (mret a) Q E s.
Proof. done. Qed.
Lemma wpe_seq {A B} (m : prog St A) (f : A → prog St B) Q R E s :
  wpe m Q E s → (∀ a s', Q a s' → wpe (f a) R E s') → wpe (m ≫= f) R E s.
Proof. unfold wpe, mbind, prog_bind. destruct (m s); naive_solver. Qed.
Lemma wpe_mono {A} (m : prog St A) (Q R : A → St → Prop) (E F : St → Prop) s :
  wpe m Q E s → (∀ a s', Q a s' → R a s') → (∀ s', E s' → F s') → wpe m R F s.
Proof. unfold wpe. destruct (m s); naive_solver. Qed.
Lemma wp_wpe {A} (m : prog St A) (Q : A → St → Prop) E s : wp m Q s → wpe m Q E s.
Proof. unfold wp, wpe. by destruct (m s). Qed.
Lemma wpe_wp {A} (m : prog St A) (Q : A → St → Prop) s : wpe m Q (λ _, False) s → wp m Q s.
Proof. unfold wp, wpe. by destruct (m s). Qed.
Lemma wpe_zoom {T A} (view : St → T) upd (m : prog T A) Q E s :
  wpe m (λ a t, Q a (upd t s)) (λ t, E (upd t s)) (view s) → wpe (zoom view upd m) Q E s.
Proof. unfold wpe, zoom. by destruct (m (view s)). Qed.
End wpe.

(** The steps of symbolic execution: a [bind], a state access, a return. *)
Ltac wp_step :=
  lazymatch goal with
  | |- wp (mbind _ _) _ _ => apply wp_bind
  | |- wp (mret _) _ _ => apply wp_ret
  | |- wp get _ _ => apply wp_get
  | |- wp (gets _) _ _ => apply wp_gets
  | |- wp (put _) _ _ => apply wp_put
  | |- wp (modify _) _ _ => apply wp_modify
  | |- wp (zoom _ _ _) _ _ => apply wp_zoom
  end.
Ltac wp_steps := repeat (wp_step; cbv beta).

Ltac post_step :=
  lazymatch goal with
  | |- post (mbind _ _) _ _ => apply post_bind
  | |- post (mret _) _ _ => apply post_ret
  | |- post get _ _ => apply post_get
  | |- post (modify _) _ _ => apply post_modify
  | |- post (check _ _) _ _ => apply post_check; intros ?
  | |- post (atZ _ _) _ _ => apply post_atZ; intros ? ? ?
  | |- post (fatal _) _ _ => exact I
  | |- post (throw _) _ _ => exact I
  | |- post (undef _) _ _ => exact I
  end.
Ltac post_steps := repeat (post_step; cbv beta).

(** Proves that two concatenations of the same lists are permutations: takes the
    head of the left side and rotates the right side until it comes first. *)
Ltac perm_rotate n :=
  lazymatch goal with
  | |- ?X ++ _ ≡ₚ ?X ++ _ => apply Permutation_app_head
  | |- _ =>
      lazymatch n with
      | S ?n' => etrans; [|apply Permutation_app_comm]; rewrite <-?app_assoc; perm_rotate n'
      end
  end.
Ltac perm :=
  rewrite ?app_nil_r, <-?app_assoc; simpl app;
  repeat first [reflexivity | perm_rotate 12%nat].

Lemma NoDup_middle {A} (x : A) l1 l2 :
  NoDup (l1 ++ x :: l2) ↔ x ∉ l1 ++ l2 ∧ NoDup (l1 ++ l2).
Proof. by rewrite <-(Permutation_middle l1 l2 x), NoDup_cons. Qed.

Lemma filter_ext_on {A} (P Q : A → Prop) `{!∀ x, Decision (P x), !∀ x, Decision (Q x)}
    (l : list A) :
  (∀ x, x ∈ l → P x ↔ Q x) → filter P l = filter Q l.
Proof.
  induction l as [|x l IH]; intros Heq; [done|]. rewrite !filter_cons.
  rewrite IH by set_solver. assert (P x ↔ Q x) by (apply Heq; set_solver).
  repeat case_decide; tauto.
Qed.

(** Closes a closed goal by evaluation. *)
Ltac computed := vm_compute; reflexivity.

Create HintDb xllm discriminated.
#[export] Hint Resolve u64_range u32_range : xllm.
