(* ===== verification/HashKey.v ===== *)
(** Prefix-cache keys: [core/util/hash_util.h] and the block hash of
    [core/framework/prefix_cache/prefix_cache.cpp].

    A key is the 16 bytes of an XXH3 128-bit digest.  The digest function
    itself is the third-party xxHash library, a parameter here; so is
    [std::hash<std::string_view>], whose values the language leaves open. *)

From S2P Require Import Prelude.
From stdpp Require Import base gmap list strings.
From Stdlib Require Import ZArith Lia.
Open Scope Z_scope.

(** [uint8_t data[XXH3_128BITS_HASH_VALUE_LEN]] *)
Abbreviation key := (list Z).
Definition XXH3_128BITS_HASH_VALUE_LEN : nat := 16.
Definition is_key (k : key) : Prop :=
  length k = XXH3_128BITS_HASH_VALUE_LEN ∧ Forall (λ b, 0 ≤ b < 256) k.

(** [std::memcmp] and [std::strncmp] of the C library. *)
Fixpoint memcmp (l r : list Z) (n : nat) : Z :=
  match n, l, r with
  | S n, a :: l, b :: r => if a =? b then memcmp l r n else a - b
  | _, _, _ => 0
  end.
Fixpoint strncmp (l r : list Z) (n : nat) : Z :=
  match n, l, r with
  | S n, a :: l, b :: r =>
      if a =? b then (if a =? 0 then 0 else strncmp l r n) else a - b
  | _, _, _ => 0
  end.

(** [XXH3Key::operator==] returns the [int] of [memcmp] as a [bool]. *)
Definition XXH3Key_operator_eq (l r : key) : bool :=
  negb (memcmp l r XXH3_128BITS_HASH_VALUE_LEN =? 0).

(** [FixedStringKeyEqual::operator()] *)
Definition FixedStringKeyEqual (l r : key) : bool :=
  strncmp l r XXH3_128BITS_HASH_VALUE_LEN =? 0.

(** The bytes before the first zero byte: what [strncmp] looks at. *)
Fixpoint cstr (k : list Z) : list Z :=
  match k with
  | [] => []
  | b :: k => if b =? 0 then [] else b :: cstr k
  end.

(** [round_down] *)
Definition round_down (n multiple : Z) : Z := (n / multiple) * multiple.

(** An [int32_t] token as the four bytes the hash reads (little endian). *)
Definition token_bytes (t : Z) : list Z :=
  [t mod 256; (t / 2 ^ 8) mod 256; (t / 2 ^ 16) mod 256; (t / 2 ^ 24) mod 256].
Definition tokens_bytes (ts : list Z) : list Z := ts ≫= token_bytes.

(** The external functions the cache relies on. *)
Class HashFns := {
  XXH3_128bits_withSeed : list Z → key;
  std_hash : list Z → Z;
}.

(** [FixedStringKeyHash::operator()] *)
Definition FixedStringKeyHash `{HashFns} (k : key) : Z := std_hash k.

(** Two keys are the same entry of the [std::unordered_map] when the hash codes
    (kept in the nodes) and [FixedStringKeyEqual] agree: [ukey] is that class. *)
Definition ukey `{HashFns} (k : key) : Z * list Z := (FixedStringKeyHash k, cstr k).

(** [xxh3_128bits_hash(pre_hash_value, token_ids, hash_value)]: [None] is the
    null pointer; the value is what is written to [hash_value]. *)
Definition xxh3_128bits_hash `{HashFns} {St} (pre_hash_value : option key)
    (token_ids : list Z) : prog St key :=
  match pre_hash_value with
  | None => mret (XXH3_128bits_withSeed (tokens_bytes token_ids))
  | Some pre =>
      let data_len := i32 (4 * Z.of_nat (length token_ids) + 16) in
      check (u64 data_len <? 1024) "key size is too small" ≫= λ _,
      mret (XXH3_128bits_withSeed (pre ++ tokens_bytes token_ids))
  end.

(** ** What the hash of a token sequence is, without the code's state

    [chain_hash pre bs] is the key of each block of [bs], each key hashing the
    previous one: the specification of the loops of [match] and [insert]. *)
Definition block_hash `{HashFns} (pre : option key) (b : list Z) : key :=
  XXH3_128bits_withSeed (default [] pre ++ tokens_bytes b).
Fixpoint chain_hash `{HashFns} (pre : option key) (bs : list (list Z)) : list key :=
  match bs with
  | [] => []
  | b :: bs => let k := block_hash pre b in k :: chain_hash (Some k) bs
  end.
(** The key a chain ends in. *)
Definition chain_last `{HashFns} (pre : option key) (bs : list (list Z)) : option key :=
  fold_left (λ p b, Some (block_hash p b)) bs pre.

Section hash.
Context `{HashFns}.

Lemma xxh3_128bits_hash_eq {St} pre b (s : St) :
  (pre ≠ None → (length b ≤ 251)%nat) →
  xxh3_128bits_hash pre b s = Done (block_hash pre b) s.
Proof.
  intros Hlen. unfold xxh3_128bits_hash, block_hash. destruct pre as [k|]; [|done].
  assert (length b ≤ 251)%nat by (by apply Hlen).
  rewrite i32_id by lia. rewrite u64_id by lia. unfold check.
  destruct (_ <? _) eqn:E; [done|]. apply Z.ltb_ge in E. lia.
Qed.

Lemma chain_hash_length pre bs : length (chain_hash pre bs) = length bs.
Proof. revert pre. induction bs as [|b bs IH]; intros; simpl; [done|]. by rewrite IH. Qed.

Lemma chain_hash_app pre bs1 bs2 :
  chain_hash pre (bs1 ++ bs2) =
  chain_hash pre bs1 ++ chain_hash (chain_last pre bs1) bs2.
Proof.
  revert pre. induction bs1 as [|b bs1 IH]; intros pre; simpl; [done|].
  by rewrite IH.
Qed.
End hash.

Lemma memcmp_eq l r n : length l = n → length r = n → memcmp l r n = 0 ↔ l = r.
Proof.
  revert l r. induction n as [|n IH]; intros [|a l] [|b r] Hl Hr; simplify_eq/=; [done|].
  destruct (Z.eqb_spec a b) as [->|Hne].
  - rewrite IH by congruence. split; congruence.
  - split; [lia|]. congruence.
Qed.

Lemma strncmp_cstr l r n : length l = n → length r = n →
  strncmp l r n = 0 ↔ cstr l = cstr r.
Proof.
  revert l r. induction n as [|n IH]; intros [|a l] [|b r] Hl Hr; simplify_eq/=; [done|].
  destruct (Z.eqb_spec a b) as [->|Hne].
  - destruct (Z.eqb_spec b 0) as [->|Hb]; [done|].
    rewrite IH by congruence. split; congruence.
  - destruct (Z.eqb_spec a 0), (Z.eqb_spec b 0); subst; split; try lia; congruence.
Qed.

(** Full keys without a zero byte are their own class. *)
Lemma cstr_nonzero k : Forall (λ b, b ≠ 0) k → cstr k = k.
Proof.
  induction 1 as [|b k Hb Hk IH]; simpl; [done|].
  destruct (Z.eqb_spec b 0); [done|]. by rewrite IH.
Qed.

(** ** A concrete digest

    A stand-in for the external functions, for the concrete runs that show the
    theorems' hypotheses can hold: sixteen non-zero bytes of a polynomial hash. *)
Definition sample_mix (bytes : list Z) : Z :=
  fold_left (λ h b, (h * 131 + b + 7) mod 2 ^ 64) bytes 0.
Definition sample_digest (bytes : list Z) : key :=
  (λ i : nat, 1 + (sample_mix bytes / 2 ^ (4 * Z.of_nat i)) mod 255) <$> seq 0 16.
Definition sample_hash : HashFns := {|
  XXH3_128bits_withSeed := sample_digest;
  std_hash := sample_mix;
|}.

(** ** Properties *)

(** [XXH3Key::operator==] on two 16-byte keys is true exactly when the keys
    differ: it returns the [int] of [memcmp], which is zero on equal keys. *)
Theorem XXH3Key_operator_eq_inverted l r :
  is_key l → is_key r → XXH3Key_operator_eq l r = true ↔ l ≠ r.
Proof.
  intros [Hl _] [Hr _]. unfold XXH3Key_operator_eq.
  rewrite negb_true_iff, Z.eqb_neq, memcmp_eq by done. done.
Qed.
Lemma XXH3Key_operator_eq_inverted_witness :
  XXH3Key_operator_eq (replicate 16 7) (replicate 16 7) = true ↔ replicate 16 7 ≠ replicate 16 7.
Proof.
  apply (XXH3Key_operator_eq_inverted (replicate 16 7)); (split; [done|]); by repeat constructor.
Defined.

(** the map's key equality [FixedStringKeyEqual] compares only the bytes before the
    first zero byte; on keys without a zero byte that is equality of the keys. *)
Theorem FixedStringKeyEqual_cstr l r :
  is_key l → is_key r →
  (FixedStringKeyEqual l r = true ↔ cstr l = cstr r) ∧
  (Forall (λ b, b ≠ 0) l → Forall (λ b, b ≠ 0) r → FixedStringKeyEqual l r = true ↔ l = r).
Proof.
  intros [Hl _] [Hr _]. unfold FixedStringKeyEqual. rewrite Z.eqb_eq, strncmp_cstr by done.
  split; [done|]. intros Hnl Hnr. by rewrite !cstr_nonzero.
Qed.
Lemma FixedStringKeyEqual_cstr_witness :
  FixedStringKeyEqual (0 :: replicate 15 1) (0 :: replicate 15 2) = true ↔
  cstr (0 :: replicate 15 1) = cstr (0 :: replicate 15 2).
Proof.
  apply (FixedStringKeyEqual_cstr (0 :: replicate 15 1) (0 :: replicate 15 2));
    (split; [done|]); by repeat constructor.
Defined.
