(* ===== verification/Blocks.v ===== *)
(** KV-cache blocks: [core/framework/block/block.h] and [block.cpp].

    A [Block] is a value that shares a heap-allocated [uint32_t] reference count
    with its copies; when the count reaches zero the block id goes back to the
    manager through the virtual [BlockManager::free].  The model keeps the
    counters in an explicit store ([cells]) so that the sharing between a
    sequence, the prefix cache and the temporaries of a call is visible, and is
    generic in the manager: [BlockOwner] is what [Block] calls on it and
    [BlockOwnerLaws] what it relies on.

    [world_ok w hs] is the ownership invariant: [hs] lists every live handle of
    the world, each counter is the number of its handles, and the ids the manager
    has given out are exactly those of the live handles (no leak, no double
    free). *)

From S2P Require Import Prelude HashKey.
From stdpp Require Import base gmap list strings sets.
From Stdlib Require Import ZArith Lia.
Open Scope Z_scope.

(** ** Data *)

(** [ref_count_] is a pointer to a counter; [manager_] is the manager of this
    world or null; [hash_value_] is left uninitialised by the constructors
    ([[]] here, which is no 16-byte key). *)
Record Block := mkBlock {
  id : Z;
  size : Z;
  ref_count_ : option nat;
  manager_ : bool;
  hash_value_ : key;
}.

Definition Block_default : Block := mkBlock (-1) 0 None false [].

(** [set_hash_value] *)
Definition set_hash_value (k : key) (b : Block) : Block :=
  mkBlock (id b) (size b) (ref_count_ b) (manager_ b) k.

(** [is_valid] *)
Definition is_valid (b : Block) : bool :=
  (0 <=? id b) && (match ref_count_ b with None => false | Some _ => true end).

(** What [Block] needs of its manager. *)
Class BlockOwner (S : Type) := {
  block_size : S → Z;
  free : Z → prog S unit;
}.

(** The reference counters and the manager they belong to. *)
Record World (S : Type) := mkWorld {
  cells : gmap nat Z;
  next_cell : nat;
  mgr : S;
}.
Arguments mkWorld {S} _ _ _.
Arguments cells {S} _.
Arguments next_cell {S} _.
Arguments mgr {S} _.

Definition set_cells {S} (c : gmap nat Z) (w : World S) : World S :=
  mkWorld c (next_cell w) (mgr w).
Definition set_mgr {S} (s : S) (w : World S) : World S :=
  mkWorld (cells w) (next_cell w) s.

(** Runs a manager operation that does not touch the counters. *)
Definition on_mgr {S A} (m : prog S A) : prog (World S) A := zoom mgr set_mgr m.

(** ** Operations *)

Section operations.
Context {S : Type} `{BlockOwner S}.

(** [*p] *)
Definition load_cell (l : nat) : prog (World S) Z :=
  get ≫= λ w, match cells w !! l with
              | Some n => mret n
              | None => undef "dangling reference count"
              end.

(** [ref_count()] *)
Definition ref_count (b : Block) : prog (World S) Z :=
  match ref_count_ b with None => mret 0 | Some l => load_cell l end.

(** [is_shared()] *)
Definition is_shared (b : Block) : prog (World S) bool :=
  ref_count b ≫= λ n, mret (1 <? n).

(** [Block(int32_t id, BlockManager* manager)] *)
Definition Block_new (i : Z) (manager : bool) : prog (World S) Block :=
  get ≫= λ w,
  let l := next_cell w in
  put (mkWorld (<[l := 1]> (cells w)) (Datatypes.S l) (mgr w)) ≫= λ _,
  mret (mkBlock i (if manager then u32 (block_size (mgr w)) else 0) (Some l) manager []).

Definition inc_ref_count (b : Block) : prog (World S) unit :=
  match ref_count_ b with
  | None => mret ()
  | Some l => load_cell l ≫= λ n, modify (λ w, set_cells (<[l := u32 (n + 1)]> (cells w)) w)
  end.

Definition dec_ref_count (b : Block) : prog (World S) unit :=
  match ref_count_ b with
  | None => mret ()
  | Some l =>
      load_cell l ≫= λ n,
      let n' := u32 (n - 1) in
      modify (λ w, set_cells (<[l := n']> (cells w)) w) ≫= λ _,
      if n' =? 0 then
        modify (λ w, set_cells (delete l (cells w)) w) ≫= λ _,
        if manager_ b then on_mgr (free (id b)) else mret ()
      else mret ()
  end.

(** [~Block] *)
Definition Block_destroy (b : Block) : prog (World S) unit := dec_ref_count b.

(** [Block(const Block&)] *)
Definition Block_copy (b : Block) : prog (World S) Block :=
  inc_ref_count b ≫= λ _, mret b.

(** [operator=(const Block&)]: the new value of [*this]; [same] is [this == &other]. *)
Definition Block_copy_assign (same : bool) (this other : Block) : prog (World S) Block :=
  if same then mret this
  else dec_ref_count this ≫= λ _, inc_ref_count other ≫= λ _, mret other.

(** [Block(Block&&)]: the new block and what is left in [other]. *)
Definition Block_moved (other : Block) : Block :=
  mkBlock (-1) 0 None false (hash_value_ other).
Definition Block_move (other : Block) : Block * Block := (other, Block_moved other).

(** [operator=(Block&&)]: the new values of [*this] and of [other]. *)
Definition Block_move_assign (same : bool) (this other : Block)
    : prog (World S) (Block * Block) :=
  if same then mret (this, other)
  else dec_ref_count this ≫= λ _, mret (Block_move other).

(** Copy and destruction of a [std::vector<Block>], front to back. *)
Definition copy_all (bs : list Block) : prog (World S) (list Block) :=
  map_each bs Block_copy.
Definition destroy_all (bs : list Block) : prog (World S) unit :=
  for_each bs Block_destroy.
End operations.

(** ** Handles and the ownership invariant *)

(** The counter a block holds, with the id it returns when the counter dies. *)
Abbreviation handle := (nat * option Z)%type.
Definition payload (b : Block) : option Z := if manager_ b then Some (id b) else None.
Definition href (b : Block) : list handle :=
  match ref_count_ b with None => [] | Some l => [(l, payload b)] end.
Definition hrefs (bs : list Block) : list handle := bs ≫= href.

#[global] Arguments hrefs : simpl never.

Definition cnt (l : nat) (hs : list handle) : nat :=
  length (filter (λ h : handle, h.1 = l) hs).

Definition ids_of (hs : list handle) : gset Z := list_to_set (omap snd hs).

Record cells_ok (c : gmap nat Z) (nx : nat) (hs : list handle) : Prop := {
  co_count : ∀ l, c !! l = if decide (cnt l hs = O) then None else Some (Z.of_nat (cnt l hs));
  co_fun : ∀ l p q, (l, p) ∈ hs → (l, q) ∈ hs → p = q;
  co_inj : ∀ l l' i, (l, Some i) ∈ hs → (l', Some i) ∈ hs → l = l';
  co_next : ∀ l p, (l, p) ∈ hs → (l < nx)%nat;
  co_room : Z.of_nat (length hs) < 2 ^ 32;
}.

(** A block a manager has given out, other than the padding block. *)
Definition managed (b : Block) : Prop :=
  ref_count_ b ≠ None ∧ manager_ b = true ∧ 0 < id b.
#[export] Instance managed_dec b : Decision (managed b).
Proof. unfold managed. apply _. Defined.

(** What a manager promises: [owns s X] says that the ids [X] are given out in
    state [s]; [free] takes one back and changes nothing else ([frame]). *)
Class BlockOwnerLaws (S : Type) `{BlockOwner S} := {
  owns : S → gset Z → Prop;
  frame : S → S → Prop;
  frame_preorder :: PreOrder frame;
  free_owns : ∀ s X i, owns s X → i ∈ X →
    wp (free i) (λ _ s', owns s' (X ∖ {[i]}) ∧ frame s s') s;
}.

Definition world_ok {S : Type} `{BlockOwnerLaws S} (w : World S) (hs : list handle) : Prop :=
  cells_ok (cells w) (next_cell w) hs ∧ owns (mgr w) (ids_of hs).

(** *** Counting *)

Lemma cnt_cons l h hs : cnt l (h :: hs) = ((if decide (h.1 = l) then 1 else 0) + cnt l hs)%nat.
Proof. unfold cnt. rewrite filter_cons. by case_decide. Qed.
Lemma cnt_cons_eq l q hs : cnt l ((l, q) :: hs) = S (cnt l hs).
Proof. rewrite cnt_cons. simpl. by destruct (decide (l = l)). Qed.
Lemma cnt_cons_ne l l' q hs : l' ≠ l → cnt l ((l', q) :: hs) = cnt l hs.
Proof. intros. rewrite cnt_cons. simpl. by destruct (decide (l' = l)). Qed.
Lemma cnt_app l hs1 hs2 : cnt l (hs1 ++ hs2) = (cnt l hs1 + cnt l hs2)%nat.
Proof. unfold cnt. by rewrite filter_app, length_app. Qed.
Lemma cnt_le l hs : (cnt l hs ≤ length hs)%nat.
Proof. unfold cnt. apply length_filter. Qed.
Lemma cnt_zero l hs : cnt l hs = O ↔ ∀ p, (l, p) ∉ hs.
Proof.
  unfold cnt. rewrite length_zero_iff_nil. split.
  - intros Hf p Hin. assert ((l, p) ∈ filter (λ h : handle, h.1 = l) hs) as Hin'.
    { by apply list_elem_of_filter. }
    rewrite Hf in Hin'. by apply elem_of_nil in Hin'.
  - intros Hn. apply elem_of_nil_inv. intros [l' p] [Hl Hin]%list_elem_of_filter.
    simpl in Hl. subst. by apply (Hn p).
Qed.
Lemma cnt_pos l p hs : (l, p) ∈ hs → (0 < cnt l hs)%nat.
Proof. intros Hin. destruct (cnt l hs) eqn:E; [|lia]. by destruct (proj1 (cnt_zero l hs) E p). Qed.

#[export] Instance cnt_perm l : Proper ((≡ₚ) ==> (=)) (cnt l).
Proof. intros hs hs' Hp. unfold cnt. by rewrite Hp. Qed.
#[export] Instance ids_of_perm : Proper ((≡ₚ) ==> (=)) ids_of.
Proof.
  intros hs hs' Hp. unfold ids_of. apply leibniz_equiv.
  assert (omap snd hs ≡ₚ omap snd hs') as Ho.
  { induction Hp as [|[? [?|]]|[? [?|]] [? [?|]]|]; simpl; try done;
      try by constructor. by etrans. }
  by rewrite Ho.
Qed.

Lemma cells_ok_perm c nx hs hs' : hs ≡ₚ hs' → cells_ok c nx hs → cells_ok c nx hs'.
Proof.
  intros Hp [H1 H2 H3 H4 H5].
  assert (∀ x, x ∈ hs' → x ∈ hs) as Hin by (intros x; by rewrite Hp).
  constructor; [|eauto..].
  - intros l. by rewrite <-(cnt_perm l _ _ Hp).
  - by rewrite <-Hp.
Qed.
#[export] Instance cells_ok_proper c nx : Proper ((≡ₚ) ==> iff) (cells_ok c nx).
Proof. intros hs hs' Hp. split; by apply cells_ok_perm. Qed.
#[export] Instance world_ok_proper {S : Type} `{BlockOwnerLaws S} (w : World S) :
  Proper ((≡ₚ) ==> iff) (world_ok w).
Proof. intros hs hs' Hp. unfold world_ok. by rewrite Hp. Qed.

Lemma ids_of_elem i hs : i ∈ ids_of hs ↔ ∃ l, (l, Some i) ∈ hs.
Proof.
  unfold ids_of. rewrite elem_of_list_to_set, list_elem_of_omap. split.
  - intros ([l q] & Hin & Hq). simpl in Hq. subst. by exists l.
  - intros [l Hin]. by exists (l, Some i).
Qed.
Lemma ids_of_nil : ids_of [] = ∅.
Proof. done. Qed.
Lemma ids_of_cons l q hs :
  ids_of ((l, q) :: hs) = match q with Some i => {[i]} ∪ ids_of hs | None => ids_of hs end.
Proof. unfold ids_of. destruct q; done. Qed.
Lemma ids_of_dup l q hs : (l, q) ∈ hs → ids_of ((l, q) :: hs) = ids_of hs.
Proof.
  intros Hin. rewrite ids_of_cons. destruct q as [i|]; [|done].
  assert (i ∈ ids_of hs) by (apply ids_of_elem; by exists l). set_solver.
Qed.
Lemma ids_of_app hs1 hs2 : ids_of (hs1 ++ hs2) = ids_of hs1 ∪ ids_of hs2.
Proof.
  apply set_eq. intros i. rewrite elem_of_union, !ids_of_elem.
  setoid_rewrite elem_of_app. naive_solver.
Qed.

Lemma hrefs_nil : hrefs [] = [].
Proof. done. Qed.
Lemma hrefs_cons b bs : hrefs (b :: bs) = href b ++ hrefs bs.
Proof. done. Qed.
Lemma hrefs_app bs1 bs2 : hrefs (bs1 ++ bs2) = hrefs bs1 ++ hrefs bs2.
Proof. unfold hrefs. by rewrite bind_app. Qed.
#[export] Instance hrefs_perm : Proper ((≡ₚ) ==> (≡ₚ)) hrefs.
Proof. intros bs bs' Hp. unfold hrefs. by rewrite Hp. Qed.
Lemma href_set_hash k b : href (set_hash_value k b) = href b.
Proof. done. Qed.
Lemma href_moved b : href (Block_moved b) = [].
Proof. done. Qed.
Lemma hrefs_length bs : (length (hrefs bs) ≤ length bs)%nat.
Proof.
  induction bs as [|b bs IH]; [done|]. rewrite hrefs_cons, length_app. simpl.
  unfold href. destruct (ref_count_ b); simpl; lia.
Qed.

(** *** The counter store under one more or one fewer handle *)

Lemma cells_ok_nil : cells_ok ∅ 0 [].
Proof.
  constructor; [intros; by rewrite lookup_empty| | | |done].
  - by intros ??? ?%elem_of_nil.
  - by intros ??? ?%elem_of_nil.
  - by intros ?? ?%elem_of_nil.
Qed.

Lemma cells_ok_alloc c nx hs q :
  cells_ok c nx hs → (∀ i, q = Some i → i ∉ ids_of hs) →
  Z.of_nat (length hs) + 1 < 2 ^ 32 →
  cells_ok (<[nx := 1]> c) (S nx) ((nx, q) :: hs).
Proof.
  intros [H1 H2 H3 H4 H5] Hq Hroom.
  assert (∀ p, (nx, p) ∉ hs) as Hfresh by (intros p Hin; apply H4 in Hin; lia).
  constructor.
  - intros l. destruct (decide (nx = l)) as [<-|Hne].
    + rewrite lookup_insert_eq, cnt_cons_eq.
      by assert (cnt nx hs = O) as -> by by apply cnt_zero.
    + by rewrite lookup_insert_ne, cnt_cons_ne, H1.
  - intros l p p'. rewrite !elem_of_cons. intros [Hp|Hp] [Hp'|Hp']; simplify_eq; try done.
    + by destruct (Hfresh p').
    + by destruct (Hfresh p).
    + by eapply H2.
  - intros l l' i. rewrite !elem_of_cons.
    intros [Heq|Hp] [Heq'|Hp'].
    + by simplify_eq.
    + simplify_eq. destruct (Hq i); [done|]. apply ids_of_elem. by exists l'.
    + simplify_eq. destruct (Hq i); [done|]. apply ids_of_elem. by exists l.
    + by eapply H3.
  - intros l p. rewrite elem_of_cons. intros [Hp|Hp]; simplify_eq; [lia|]. apply H4 in Hp. lia.
  - simpl. lia.
Qed.

Lemma cells_ok_inc c nx hs l q :
  cells_ok c nx hs → (l, q) ∈ hs → Z.of_nat (length hs) + 1 < 2 ^ 32 →
  c !! l = Some (Z.of_nat (cnt l hs)) ∧
  cells_ok (<[l := u32 (Z.of_nat (cnt l hs) + 1)]> c) nx ((l, q) :: hs).
Proof.
  intros [H1 H2 H3 H4 H5] Hin Hroom. pose proof (cnt_pos _ _ _ Hin) as Hpos.
  pose proof (cnt_le l hs) as Hle.
  assert (∀ x, x ∈ (l, q) :: hs → x ∈ hs) as Hsub by set_solver.
  split; [rewrite H1; case_decide; [lia|done]|].
  constructor; [|eauto..|].
  - intros l'. destruct (decide (l = l')) as [<-|Hne].
    + rewrite lookup_insert_eq, cnt_cons_eq, u32_id by lia. case_decide; [lia|]. f_equal. lia.
    + by rewrite lookup_insert_ne, cnt_cons_ne, H1.
  - simpl. lia.
Qed.

Lemma cells_ok_dec c nx hs l q :
  cells_ok c nx ((l, q) :: hs) →
  c !! l = Some (Z.of_nat (cnt l hs) + 1) ∧
  u32 (Z.of_nat (cnt l hs) + 1 - 1) = Z.of_nat (cnt l hs) ∧
  cells_ok (if decide (cnt l hs = O) then delete l c
            else <[l := Z.of_nat (cnt l hs)]> c) nx hs.
Proof.
  intros [H1 H2 H3 H4 H5]. simpl in H5. pose proof (cnt_le l hs) as Hle.
  split; [|split].
  - rewrite H1, cnt_cons_eq. case_decide; [lia|]. f_equal. lia.
  - rewrite u32_id; lia.
  - constructor; [|set_solver..|lia].
    intros l'. destruct (decide (l = l')) as [<-|Hne].
    + case_decide as Hz; [by rewrite lookup_delete_eq|by rewrite lookup_insert_eq].
    + assert (∀ o, (if decide (cnt l hs = O) then delete l c else <[l:=o]> c) !! l' = c !! l') as ->.
      { intros o. case_decide; [by rewrite lookup_delete_ne|by rewrite lookup_insert_ne]. }
      by rewrite H1, cnt_cons_ne.
Qed.

Lemma ids_of_dec c nx hs l q :
  cells_ok c nx ((l, q) :: hs) →
  ids_of hs = match q with
              | Some i => if decide (cnt l hs = O) then ids_of ((l, q) :: hs) ∖ {[i]}
                          else ids_of ((l, q) :: hs)
              | None => ids_of ((l, q) :: hs)
              end.
Proof.
  intros [H1 H2 H3 H4 H5]. rewrite ids_of_cons. destruct q as [i|]; [|done].
  case_decide as Hz.
  - assert (i ∉ ids_of hs); [|set_solver].
    intros [l' Hin]%ids_of_elem. rewrite cnt_zero in Hz.
    assert (l = l') as <- by (apply (H3 l l' i); set_solver). by apply (Hz (Some i)).
  - assert (∃ p, (l, p) ∈ hs) as [p Hin].
    { destruct (filter (λ h : handle, h.1 = l) hs) as [|[l' p] rest] eqn:E.
      - unfold cnt in Hz. by rewrite E in Hz.
      - assert ((l', p) ∈ filter (λ h : handle, h.1 = l) hs) as [Hl ?]%list_elem_of_filter
          by (rewrite E; set_solver). simpl in Hl. subst. by exists p. }
    assert (p = Some i) as -> by (apply (H2 l p (Some i)); set_solver).
    assert (i ∈ ids_of hs) by (apply ids_of_elem; by exists l). set_solver.
Qed.

(** ** The operations keep the invariant *)

Section ownership.
Context {S : Type} `{BlockOwnerLaws S}.
Implicit Types (w : World S) (b : Block) (hs : list handle).

Lemma load_cell_ok w hs l q (Q : Z → World S → Prop) :
  cells_ok (cells w) (next_cell w) hs → (l, q) ∈ hs →
  Q (Z.of_nat (cnt l hs)) w → wp (load_cell l) Q w.
Proof.
  intros Hc Hin HQ. unfold load_cell. wp_steps.
  rewrite (co_count _ _ _ Hc). pose proof (cnt_pos _ _ _ Hin).
  case_decide; [lia|]. by apply wp_ret.
Qed.

Lemma ref_count_ok w hs b (Q : Z → World S → Prop) :
  cells_ok (cells w) (next_cell w) hs → href b ⊆ hs →
  Q (match ref_count_ b with None => 0 | Some l => Z.of_nat (cnt l hs) end) w →
  wp (ref_count b) Q w.
Proof.
  intros Hc Hsub HQ. unfold ref_count, href in *. destruct (ref_count_ b) as [l|]; [|done].
  eapply (load_cell_ok _ _ _ (payload b)); [done| |done]. by apply Hsub, list_elem_of_singleton.
Qed.

(** Constructing a block for an id the manager has just given out. *)
Lemma Block_new_ok w hs i :
  cells_ok (cells w) (next_cell w) hs →
  owns (mgr w) ({[i]} ∪ ids_of hs) → i ∉ ids_of hs →
  Z.of_nat (length hs) + 1 < 2 ^ 32 →
  wp (Block_new i true)
     (λ b w', world_ok w' (href b ++ hs) ∧ mgr w' = mgr w ∧
              id b = i ∧ manager_ b = true ∧ ref_count_ b = Some (next_cell w) ∧
              size b = u32 (block_size (mgr w))) w.
Proof.
  intros Hc Ho Hi Hroom. unfold Block_new. wp_steps. split; [|done].
  split; simpl.
  - unfold payload. simpl. apply cells_ok_alloc; [done| |done]. intros ? [= <-]. done.
  - done.
Qed.

Lemma inc_ref_count_ok w hs b :
  world_ok w hs → href b ⊆ hs → Z.of_nat (length hs) + 1 < 2 ^ 32 →
  wp (inc_ref_count b) (λ _ w', world_ok w' (href b ++ hs) ∧ mgr w' = mgr w) w.
Proof.
  intros [Hc Ho] Hsub Hroom. unfold inc_ref_count, href in *.
  destruct (ref_count_ b) as [l|]; [|done].
  assert ((l, payload b) ∈ hs) as Hin by (apply Hsub, list_elem_of_singleton; done).
  wp_steps. eapply load_cell_ok; [done..|]. wp_steps.
  split; [|done]. split; simpl.
  - by apply (cells_ok_inc _ _ _ _ (payload b)).
  - by rewrite ids_of_dup.
Qed.

Lemma Block_copy_ok w hs b :
  world_ok w hs → href b ⊆ hs → Z.of_nat (length hs) + 1 < 2 ^ 32 →
  wp (Block_copy b) (λ b' w', b' = b ∧ world_ok w' (href b ++ hs) ∧ mgr w' = mgr w) w.
Proof.
  intros. unfold Block_copy. wp_steps.
  eapply wp_mono; [by apply inc_ref_count_ok|]. intros _ w' [? ?]. by wp_steps.
Qed.

(** Dropping a handle: the id goes back to the manager exactly when no other
    handle shares the counter. *)
Lemma dec_ref_count_ok w hs b :
  world_ok w (href b ++ hs) →
  wp (dec_ref_count b) (λ _ w', world_ok w' hs ∧ frame (mgr w) (mgr w') ∧
        (payload b ∉ snd <$> hs ∨ mgr w' = mgr w)) w.
Proof.
  intros [Hc Ho]. unfold dec_ref_count, href in *.
  destruct (ref_count_ b) as [l|]; simpl in *.
  2: { wp_steps. split; [done|]. split; [reflexivity|by right]. }
  destruct (cells_ok_dec _ _ _ _ _ Hc) as (Hl & Hu & Hc').
  pose proof (ids_of_dec _ _ _ _ _ Hc) as Hids.
  wp_steps. eapply (load_cell_ok _ _ _ (payload b)); [done|set_solver|].
  rewrite cnt_cons_eq.
  replace (Z.of_nat (Datatypes.S (cnt l hs)) - 1) with (Z.of_nat (cnt l hs) + 1 - 1) by lia.
  rewrite Hu. wp_steps. destruct (decide (cnt l hs = O)) as [Hz|Hnz].
  - rewrite Hz. simpl. wp_steps. unfold set_cells. simpl.
    rewrite delete_insert_eq. unfold payload in *. destruct (manager_ b); simpl in *.
    + unfold on_mgr. wp_steps. eapply wp_mono.
      { apply free_owns; [done|]. rewrite ids_of_cons. set_solver. }
      intros _ s' [Ho' Hf]. unfold world_ok; simpl. rewrite Hids.
      split; [done|]. split; [done|]. left. rewrite list_elem_of_fmap.
      intros ([l' p] & Hp & Hin). simpl in Hp. subst p. rewrite cnt_zero in Hz.
      assert (l = l') as <- by (apply (co_inj _ _ _ Hc l l' (id b)); set_solver).
      by eapply Hz.
    + wp_steps. unfold world_ok; simpl. rewrite Hids.
      split; [done|]. split; [reflexivity|by right].
  - destruct (_ =? 0) eqn:E; [apply Z.eqb_eq in E; lia|]. wp_steps.
    split; [|split; [reflexivity|by right]]. split; simpl; [done|].
    rewrite Hids. destruct (payload b); done.
Qed.

Lemma Block_destroy_ok w hs b :
  world_ok w (href b ++ hs) →
  wp (Block_destroy b) (λ _ w', world_ok w' hs ∧ frame (mgr w) (mgr w')) w.
Proof. intros Hw. eapply wp_mono; [by apply dec_ref_count_ok|]. naive_solver. Qed.

Lemma destroy_all_ok w hs bs :
  world_ok w (hrefs bs ++ hs) →
  wp (destroy_all bs) (λ _ w', world_ok w' hs ∧ frame (mgr w) (mgr w')) w.
Proof.
  intros Hw. eapply wp_mono.
  - apply (wp_for_each _ _
      (λ rest w', world_ok w' (hrefs rest ++ hs) ∧ frame (mgr w) (mgr w'))).
    { split; [done|reflexivity]. }
    intros b rest w' [Hw' Hf]. rewrite hrefs_cons, <-app_assoc in Hw'.
    eapply wp_mono; [by apply Block_destroy_ok|]. intros _ w'' [? ?].
    split; [done|]. by etrans.
  - intros _ w' [? ?]. done.
Qed.

Lemma copy_all_ok w hs bs :
  world_ok w hs → hrefs bs ⊆ hs → Z.of_nat (length hs + length bs) < 2 ^ 32 →
  wp (copy_all bs) (λ bs' w', bs' = bs ∧ world_ok w' (hrefs bs ++ hs) ∧ mgr w' = mgr w) w.
Proof.
  intros Hw Hsub Hroom. eapply wp_mono.
  - apply (wp_map_each _ _ (λ rest done w', done ++ rest = bs ∧
        world_ok w' (hrefs done ++ hs) ∧ mgr w' = mgr w)); [done|].
    intros b rest dn w' (Heq & Hw' & Hm).
    pose proof (hrefs_length dn) as Hlen.
    assert (length dn + length (b :: rest) = length bs)%nat as Hl
      by (rewrite <-Heq, length_app; done).
    eapply wp_mono; [apply (Block_copy_ok w' (hrefs dn ++ hs))|].
    + done.
    + assert (href b ⊆ hrefs bs); [|set_solver].
      rewrite <-Heq, hrefs_app, hrefs_cons. set_solver.
    + rewrite length_app. simpl in Hl. lia.
    + intros b' w'' (-> & Hw'' & Hm'). split; [by rewrite <-app_assoc|].
      split; [|by rewrite Hm'].
      rewrite hrefs_app, hrefs_cons, hrefs_nil, app_nil_r.
      by rewrite (Permutation_app_comm (hrefs dn)), <-app_assoc.
  - intros bs' w' (Heq & ? & ?). rewrite app_nil_r in Heq. by subst.
Qed.

(** C25: destroying one handle of a block keeps the counts equal to the handles left; while
    another handle of the same block lives the manager is not touched, and when this was
    the last one the manager takes the id back, exactly once: it then owns exactly the ids
    of the handles left. *)
Theorem destroy_last_handle w hs b :
  world_ok w (href b ++ hs) → managed b →
  wp (Block_destroy b)
     (λ _ w', world_ok w' hs ∧ frame (mgr w) (mgr w') ∧
        (id b ∈ ids_of hs → mgr w' = mgr w) ∧
        (id b ∉ ids_of hs → owns (mgr w') (ids_of (href b ++ hs) ∖ {[id b]}))) w.
Proof.
  intros Hw (Hl & Hm & _). eapply wp_mono; [by apply (dec_ref_count_ok w hs)|].
  intros [] w' (Hw' & Hf & Hor). split; [done|]. split; [done|].
  assert (∀ i, i ∈ ids_of hs ↔ Some i ∈ snd <$> hs) as Hin.
  { intros i. unfold ids_of. rewrite elem_of_list_to_set, list_elem_of_omap, list_elem_of_fmap.
    split; intros ([l p] & H1' & H2'); simplify_eq/=; by exists (l, Some i). }
  unfold payload in Hor. rewrite Hm in Hor. split.
  - intros Hi. destruct Hor as [Hn|]; [|done]. by rewrite <-Hin in Hn.
  - intros Hi. destruct Hw' as [_ Ho]. unfold href, payload. rewrite Hm.
    destruct (ref_count_ b) as [l|]; [|done]. simpl.
    assert (ids_of ((l, Some (id b)) :: hs) ∖ {[id b]} = ids_of hs) as ->; [|done].
    unfold ids_of in *. simpl. set_solver.
Qed.
End ownership.

#[export] Hint Rewrite hrefs_nil hrefs_cons hrefs_app href_set_hash href_moved : hrefs.
