(* ===== verification/DList.v ===== *)
(** The intrusive LRU list: [PrefixCache::DNodeList] of
    [core/framework/prefix_cache/prefix_cache.h].

    The list threads [prev]/[next] pointers through the cache's nodes, between
    two sentinel nodes.  [remove_node] does not know which list its node is on,
    and [PrefixCache::match] and [insert] move nodes between the LRU list and a
    local list.  The operations are modelled on a memory of link fields; [dlist]
    says that a memory holds a list, and the refinement lemmas show that each
    operation is the corresponding operation on sequences and leaves every
    disjoint list alone. *)

From S2P Require Import Prelude.
From stdpp Require Import base gmap list strings.
From Stdlib Require Import ZArith Lia.

(** ** Data *)

Record Node := mkNode { prev : option nat; next : option nat }.

(** The addresses of the two sentinels. *)
Record DNodeList := mkDNodeList { lst_front : nat; lst_back : nat }.

Abbreviation mem := (gmap nat Node).

(** ** Operations *)

Definition deref (p : option nat) : prog mem nat :=
  match p with Some a => mret a | None => undef "null pointer" end.
Definition load (a : nat) : prog mem Node :=
  get ≫= λ m, match m !! a with Some n => mret n | None => undef "dangling node" end.
Definition set_next (a : nat) (p : option nat) : prog mem unit :=
  load a ≫= λ n, modify (λ m : mem, <[a := mkNode (prev n) p]> m).
Definition set_prev (a : nat) (p : option nat) : prog mem unit :=
  load a ≫= λ n, modify (λ m : mem, <[a := mkNode p (next n)]> m).

(** [DNodeList()] *)
Definition DNodeList_init (L : DNodeList) : prog mem unit :=
  modify (λ m : mem, <[lst_front L := mkNode None None]> m) ≫= λ _,
  modify (λ m : mem, <[lst_back L := mkNode None None]> m) ≫= λ _,
  set_next (lst_front L) (Some (lst_back L)) ≫= λ _,
  set_prev (lst_back L) (Some (lst_front L)).

Definition is_empty (L : DNodeList) : prog mem bool :=
  load (lst_front L) ≫= λ f, mret (bool_decide (next f = Some (lst_back L))).

Definition remove_node (node : nat) : prog mem (option nat) :=
  load node ≫= λ n,
  let next_node := next n in
  deref (prev n) ≫= λ p, set_next p next_node ≫= λ _,
  deref next_node ≫= λ q,
  load node ≫= λ n', set_prev q (prev n') ≫= λ _,
  mret next_node.

Definition is_last (L : DNodeList) (node : nat) : bool := bool_decide (node = lst_back L).

Definition push_front (L : DNodeList) (node : nat) : prog mem unit :=
  load (lst_front L) ≫= λ f, set_next node (next f) ≫= λ _,
  load (lst_front L) ≫= λ f', deref (next f') ≫= λ q, set_prev q (Some node) ≫= λ _,
  set_prev node (Some (lst_front L)) ≫= λ _,
  set_next (lst_front L) (Some node).

Definition get_first (L : DNodeList) : prog mem (option nat) :=
  load (lst_front L) ≫= λ f, mret (next f).

Definition pop_front (L : DNodeList) : prog mem (option nat) :=
  load (lst_front L) ≫= λ f,
  if bool_decide (next f = Some (lst_back L)) then mret None
  else deref (next f) ≫= λ node, load node ≫= λ n,
       set_next (lst_front L) (next n) ≫= λ _,
       deref (next n) ≫= λ q, set_prev q (Some (lst_front L)) ≫= λ _,
       mret (Some node).

Definition push_back (L : DNodeList) (node : nat) : prog mem unit :=
  load (lst_back L) ≫= λ b, set_prev node (prev b) ≫= λ _,
  set_next node (Some (lst_back L)) ≫= λ _,
  load (lst_back L) ≫= λ b', deref (prev b') ≫= λ p, set_next p (Some node) ≫= λ _,
  set_prev (lst_back L) (Some node).

Definition move_back (L : DNodeList) (node : nat) : prog mem unit :=
  remove_node node ≫= λ _, push_back L node.

(** [while (!node_list.is_empty()) lru_lst_.push_back(node_list.pop_front())],
    the loop that ends [match] and [insert].  [fuel] bounds the iterations. *)
Fixpoint splice_back (fuel : nat) (L K : DNodeList) : prog mem unit :=
  match fuel with
  | O => fatal "out of fuel"
  | S fuel =>
      is_empty K ≫= λ e : bool,
      if e then mret ()
      else pop_front K ≫= λ o, deref o ≫= λ node,
           push_back L node ≫= λ _, splice_back fuel L K
  end.

(** ** Representation *)

Definition linked (m : mem) (a b : nat) : Prop :=
  (∃ n, m !! a = Some n ∧ next n = Some b) ∧ (∃ n, m !! b = Some n ∧ prev n = Some a).

(** [a] and [b] are neighbours in [l]. *)
Fixpoint adj (l : list nat) (a b : nat) : Prop :=
  match l with
  | x :: ((y :: _) as l') => (a = x ∧ b = y) ∨ adj l' a b
  | _ => False
  end.
(** All neighbours of [l] are linked, except the pairs [E]. *)
Definition linked_but (m : mem) (l : list nat) (E : list (nat * nat)) : Prop :=
  ∀ a b, adj l a b → (a, b) ∈ E ∨ linked m a b.

Definition cells_of (L : DNodeList) (xs : list nat) : list nat :=
  lst_front L :: xs ++ [lst_back L].
Definition dlist (m : mem) (L : DNodeList) (xs : list nat) : Prop :=
  NoDup (cells_of L xs) ∧ linked_but m (cells_of L xs) [].

Lemma adj_cons2 x y l a b : adj (x :: y :: l) a b ↔ (a = x ∧ b = y) ∨ adj (y :: l) a b.
Proof. done. Qed.
Lemma adj_app l x r a b : adj (l ++ x :: r) a b ↔ adj (l ++ [x]) a b ∨ adj (x :: r) a b.
Proof.
  induction l as [|y [|z l] IH].
  - change (adj (x :: r) a b ↔ False ∨ adj (x :: r) a b). tauto.
  - change (adj (y :: x :: r) a b ↔ adj (y :: [x]) a b ∨ adj (x :: r) a b).
    rewrite !adj_cons2. change (adj [x] a b) with False. tauto.
  - change (adj (y :: (z :: l) ++ x :: r) a b ↔ adj (y :: (z :: l) ++ [x]) a b ∨ adj (x :: r) a b).
    change ((z :: l) ++ x :: r) with (z :: l ++ x :: r) in *.
    change ((z :: l) ++ [x]) with (z :: l ++ [x]) in *.
    rewrite !adj_cons2, IH. by rewrite (assoc or).
Qed.
Lemma adj_in l a b : adj l a b → a ∈ l ∧ b ∈ l.
Proof.
  induction l as [|x [|y l] IH]; [done..|]. rewrite adj_cons2. intros [[-> ->]|H].
  - set_solver.
  - apply IH in H. set_solver.
Qed.
Lemma adj_cons_inv x l a b : adj (x :: l) a b → a ∈ x :: l ∧ b ∈ l.
Proof.
  destruct l as [|y l]; [done|]. rewrite adj_cons2. intros [[-> ->]|H]; [set_solver|].
  apply adj_in in H. set_solver.
Qed.
Lemma adj_fun l a b c : NoDup l → adj l a b → adj l a c → b = c.
Proof.
  induction l as [|x [|y l] IH]; [done..|]. intros [Hx Hnd]%NoDup_cons.
  rewrite !adj_cons2. intros [[-> ->]|H1] [[? ->]|H2]; subst; try done.
  - by apply adj_in in H2 as [? _].
  - by apply adj_in in H1 as [? _].
  - by apply IH.
Qed.
Lemma adj_inj l a b c : NoDup l → adj l a c → adj l b c → a = b.
Proof.
  induction l as [|x [|y l] IH]; [done..|]. intros [Hx Hnd]%NoDup_cons.
  rewrite !adj_cons2. intros [[-> ->]|H1] [[-> ?]|H2]; subst; try done.
  - apply adj_cons_inv in H2 as [_ ?]. by apply NoDup_cons in Hnd as [? _].
  - apply adj_cons_inv in H1 as [_ ?]. by apply NoDup_cons in Hnd as [? _].
  - by apply IH.
Qed.
Lemma adj_irrefl l a : NoDup l → ¬ adj l a a.
Proof.
  induction l as [|x [|y l] IH]; [by intros ? ?..|]. intros [Hx Hnd]%NoDup_cons.
  rewrite adj_cons2. intros [[-> ->]|H]; [set_solver|by apply IH].
Qed.

(** *** Writing one link *)

Definition wnext (a : nat) (p : option nat) : mem → mem := alter (λ n, mkNode (prev n) p) a.
Definition wprev (a : nat) (p : option nat) : mem → mem := alter (λ n, mkNode p (next n)) a.
Definition link (a b : nat) (m : mem) : mem := wprev b (Some a) (wnext a (Some b) m).

Lemma set_next_eq a p m : is_Some (m !! a) → set_next a p m = Done () (wnext a p m).
Proof.
  intros [n Hn]. unfold set_next, load, wnext. simpl. unfold mbind, prog_bind, get. rewrite Hn.
  unfold modify. simpl. f_equal. apply map_eq. intros i.
  destruct (decide (a = i)) as [<-|].
  - by rewrite lookup_insert_eq, lookup_alter_eq, Hn.
  - by rewrite lookup_insert_ne, lookup_alter_ne.
Qed.
Lemma set_prev_eq a p m : is_Some (m !! a) → set_prev a p m = Done () (wprev a p m).
Proof.
  intros [n Hn]. unfold set_prev, load, wprev. simpl. unfold mbind, prog_bind, get. rewrite Hn.
  unfold modify. simpl. f_equal. apply map_eq. intros i.
  destruct (decide (a = i)) as [<-|].
  - by rewrite lookup_insert_eq, lookup_alter_eq, Hn.
  - by rewrite lookup_insert_ne, lookup_alter_ne.
Qed.
Lemma wnext_some a p m c : is_Some (wnext a p m !! c) ↔ is_Some (m !! c).
Proof. unfold wnext. apply lookup_alter_is_Some. Qed.
Lemma wprev_some a p m c : is_Some (wprev a p m !! c) ↔ is_Some (m !! c).
Proof. unfold wprev. apply lookup_alter_is_Some. Qed.
Lemma link_some a b m c : is_Some (link a b m !! c) ↔ is_Some (m !! c).
Proof. unfold link. by rewrite wprev_some, wnext_some. Qed.

Lemma wnext_ne a p m c : a ≠ c → wnext a p m !! c = m !! c.
Proof. intros. unfold wnext. by rewrite lookup_alter_ne. Qed.
Lemma wprev_ne a p m c : a ≠ c → wprev a p m !! c = m !! c.
Proof. intros. unfold wprev. by rewrite lookup_alter_ne. Qed.

Lemma link_linked a b m : is_Some (m !! a) → is_Some (m !! b) → linked (link a b m) a b.
Proof.
  intros [na Ha] [nb Hb]. unfold link, wprev, wnext, linked.
  destruct (decide (a = b)) as [<-|Hne].
  - rewrite !lookup_alter_eq, Ha. simpl. split; eauto.
  - rewrite lookup_alter_ne, lookup_alter_eq, Ha, lookup_alter_eq, lookup_alter_ne, Hb by done.
    simpl. split; eauto.
Qed.
Lemma link_keep a b m c d : linked m c d → c ≠ a → d ≠ b → linked (link a b m) c d.
Proof.
  intros [(n & Hn & Hd) (k & Hk & Hc)] Hca Hdb. unfold link, wprev, wnext. split.
  - destruct (decide (c = b)) as [->|Hcb].
    + rewrite lookup_alter_eq, lookup_alter_ne, Hn by done. simpl. eauto.
    + rewrite !lookup_alter_ne by done. eauto.
  - rewrite lookup_alter_ne by done. destruct (decide (d = a)) as [->|Hda].
    + rewrite lookup_alter_eq, Hk. simpl. eauto.
    + rewrite lookup_alter_ne by done. eauto.
Qed.

(** Linking one missing pair of a duplicate-free sequence. *)
Lemma linked_but_link m l E a b :
  NoDup l → adj l a b → (∀ c, c ∈ l → is_Some (m !! c)) →
  linked_but m l ((a, b) :: E) → linked_but (link a b m) l E.
Proof.
  intros Hnd Hab Hs HE c d Hcd. pose proof (adj_in _ _ _ Hab) as [Ha Hb].
  destruct (decide ((c, d) = (a, b))) as [[= -> ->]|Hne].
  { right. apply link_linked; by apply Hs. }
  destruct (HE c d Hcd) as [[?|?]%elem_of_cons|Hl]; [done|by left|right].
  apply link_keep; [done|..]; intros ->.
  - by rewrite (adj_fun l a d b) in Hne.
  - by rewrite (adj_inj l c a b) in Hne.
Qed.

Lemma has_neighbour f xs z c : c ∈ f :: xs ++ [z] →
  ∃ d, adj (f :: xs ++ [z]) c d ∨ adj (f :: xs ++ [z]) d c.
Proof.
  revert f. induction xs as [|x xs IH]; intros f Hc; simpl app in *.
  - rewrite !elem_of_cons in Hc. destruct Hc as [->|[->|Hc]]; [| |by apply elem_of_nil in Hc].
    + exists z. left. by left.
    + exists f. right. by left.
  - apply elem_of_cons in Hc as [->|Hc]; [exists x; left; by left|].
    destruct (IH x Hc) as [d Hd]. exists d. rewrite !adj_cons2. tauto.
Qed.

(** Every cell of a list is allocated. *)
Lemma dlist_alloc m L xs c : dlist m L xs → c ∈ cells_of L xs → is_Some (m !! c).
Proof.
  intros [_ Hl] Hc. destruct (has_neighbour _ _ _ _ Hc) as [d [Hd|Hd]];
    apply Hl in Hd as [Hd|[(n & ? & _) (k & ? & _)]]; eauto; by apply elem_of_nil in Hd.
Qed.

(** A memory that agrees on the cells of a list keeps the list. *)
Lemma dlist_agree m m' L xs :
  (∀ a, a ∈ cells_of L xs → m' !! a = m !! a) → dlist m L xs → dlist m' L xs.
Proof.
  intros Hag [Hnd Hl]. split; [done|]. intros a b Hab. pose proof (adj_in _ _ _ Hab) as [Ha Hb].
  destruct (Hl a b Hab) as [?|[(n & Hn & ?) (k & Hk & ?)]]; [by left|right].
  split; [exists n|exists k]; by rewrite Hag.
Qed.
Lemma link_agree a b m c : c ≠ a → c ≠ b → link a b m !! c = m !! c.
Proof. intros. unfold link, wprev, wnext. by rewrite !lookup_alter_ne. Qed.

(** *** The operations implement the operations on sequences *)

(** [m'] differs from [m] at most on [X], and allocates the same nodes. *)
Definition only (X : list nat) (m m' : mem) : Prop :=
  (∀ a, a ∉ X → m' !! a = m !! a) ∧ (∀ a, is_Some (m' !! a) ↔ is_Some (m !! a)).

Lemma only_link X a b m : a ∈ X → b ∈ X → only X m (link a b m).
Proof.
  intros Ha Hb. split; [|intros; apply link_some].
  intros c Hc. apply link_agree; by intros ->.
Qed.
Lemma only_trans X m1 m2 m3 : only X m1 m2 → only X m2 m3 → only X m1 m3.
Proof.
  intros [H1 S1] [H2 S2]. split; [intros a Ha; by rewrite H2, H1|].
  intros a. by rewrite S2, S1.
Qed.
(** Lists whose cells a step does not touch are kept. *)
Lemma dlist_only X m m' L xs :
  only X m m' → (∀ a, a ∈ cells_of L xs → a ∉ X) → dlist m L xs → dlist m' L xs.
Proof. intros [Ho _] Hd. apply dlist_agree. intros a Ha. by apply Ho, Hd. Qed.

Lemma linked_next m a b n : linked m a b → m !! a = Some n → next n = Some b.
Proof. intros [(k & Hk & ?) _] Hn. by simplify_eq. Qed.
Lemma linked_prev m a b n : linked m a b → m !! b = Some n → prev n = Some a.
Proof. intros [_ (k & Hk & ?)] Hn. by simplify_eq. Qed.

Lemma cells_snoc f (xs : list nat) : ∃ l p, f :: xs = l ++ [p].
Proof.
  destruct (exists_last (l := f :: xs)) as (l & p & Heq); [done|]. by exists l, p.
Qed.
Lemma snoc_cells (xs : list nat) z : ∃ q l, xs ++ [z] = q :: l.
Proof. destruct xs as [|x xs]; simpl; eauto. Qed.

Lemma dlist_linked m L xs a b : dlist m L xs → adj (cells_of L xs) a b → linked m a b.
Proof. intros [_ Hl] Hab. destruct (Hl a b Hab) as [H|?]; [by apply elem_of_nil in H|done]. Qed.

Lemma remove_node_ok m L xs1 x xs2 :
  dlist m L (xs1 ++ x :: xs2) →
  wp (remove_node x) (λ r m', dlist m' L (xs1 ++ xs2) ∧ r = head (xs2 ++ [lst_back L]) ∧
                              only (cells_of L (xs1 ++ xs2)) m m') m.
Proof.
  intros Hd. pose proof Hd as [Hnd Hl].
  destruct (cells_snoc (lst_front L) xs1) as (l1 & p & H1).
  destruct (snoc_cells xs2 (lst_back L)) as (q & l2 & H2).
  assert (∀ ys, cells_of L (xs1 ++ ys ++ xs2) = l1 ++ p :: ys ++ q :: l2) as Hcells.
  { intros ys. unfold cells_of. rewrite <-!app_assoc, H2, (app_comm_cons xs1), H1.
    by rewrite <-app_assoc. }
  pose proof (Hcells [x]) as Hold. pose proof (Hcells []) as Hnew. simpl in Hold, Hnew.
  rewrite Hold in Hnd.
  assert (adj (cells_of L (xs1 ++ x :: xs2)) p x) as Hpx
    by (rewrite Hold; apply adj_app; right; by left).
  assert (adj (cells_of L (xs1 ++ x :: xs2)) x q) as Hxq
    by (rewrite Hold; apply adj_app; right; right; by left).
  pose proof (dlist_linked _ _ _ _ _ Hd Hpx) as Lpx.
  pose proof (dlist_linked _ _ _ _ _ Hd Hxq) as Lxq.
  destruct (dlist_alloc _ _ _ x Hd) as [n Hn]; [rewrite Hold; set_solver|].
  assert (is_Some (m !! p)) as Sp by (eapply dlist_alloc; [done|rewrite Hold; set_solver]).
  assert (is_Some (m !! q)) as Sq by (eapply dlist_alloc; [done|rewrite Hold; set_solver]).
  assert (p ≠ x) as Hne. { intros ->. apply NoDup_app in Hnd as (_ & _ & ?%NoDup_cons). set_solver. }
  unfold remove_node, load, wp. unfold mbind, prog_bind, get. rewrite Hn. simpl.
  rewrite (linked_prev _ _ _ _ Lpx Hn), (linked_next _ _ _ _ Lxq Hn). simpl.
  rewrite set_next_eq by done. simpl.
  rewrite wnext_ne, Hn by done. simpl.
  rewrite (linked_prev _ _ _ _ Lpx Hn). rewrite set_prev_eq by by rewrite wnext_some.
  fold (link p q m).
  assert (NoDup (l1 ++ p :: q :: l2)) as Hnd'.
  { apply (sublist_NoDup _ (l1 ++ p :: x :: q :: l2)); [done|].
    apply sublist_app; [done|]. by repeat constructor. }
  split; [|split; [by rewrite H2|apply only_link; rewrite Hnew; set_solver]].
  split; rewrite Hnew; [done|].
  apply linked_but_link; [done|apply adj_app; right; by left| |].
  - intros c Hc. eapply dlist_alloc; [done|]. rewrite Hold. set_solver.
  - intros c d. rewrite adj_app, adj_cons2. intros [H|[[-> ->]|H]]; [right|left; set_solver|right].
    + apply (dlist_linked _ _ _ _ _ Hd). rewrite Hold, adj_app. by left.
    + apply (dlist_linked _ _ _ _ _ Hd). rewrite Hold, adj_app, !adj_cons2. by right; right; right.
Qed.

Lemma push_front_ok m L xs x :
  dlist m L xs → x ∉ cells_of L xs → is_Some (m !! x) →
  wp (push_front L x) (λ _ m', dlist m' L (x :: xs) ∧ only (cells_of L (x :: xs)) m m') m.
Proof.
  intros Hd Hx Sx. pose proof Hd as [Hnd Hl].
  destruct (snoc_cells xs (lst_back L)) as (q & l2 & H2).
  assert (cells_of L xs = lst_front L :: q :: l2) as Hold by (unfold cells_of; by rewrite H2).
  assert (cells_of L (x :: xs) = lst_front L :: x :: q :: l2) as Hnew
    by (unfold cells_of; simpl; by rewrite H2).
  assert (adj (cells_of L xs) (lst_front L) q) as Hfq by (rewrite Hold; by left).
  pose proof (dlist_linked _ _ _ _ _ Hd Hfq) as Lfq.
  destruct (dlist_alloc _ _ _ (lst_front L) Hd) as [nf Hf]; [rewrite Hold; set_solver|].
  assert (is_Some (m !! q)) as Sq by (eapply dlist_alloc; [done|rewrite Hold; set_solver]).
  rewrite Hold in Hx, Hnd. apply not_elem_of_cons in Hx as [Hxf Hxq].
  unfold push_front, load, wp. unfold mbind, prog_bind, get. rewrite Hf. simpl.
  rewrite (linked_next _ _ _ _ Lfq Hf). rewrite set_next_eq by done. simpl.
  rewrite wnext_ne, Hf by done. simpl.
  rewrite (linked_next _ _ _ _ Lfq Hf). simpl.
  rewrite set_prev_eq by by rewrite wnext_some. simpl. fold (link x q m).
  rewrite set_prev_eq by by rewrite link_some. simpl.
  rewrite set_next_eq by (rewrite wprev_some, link_some; eauto).
  assert (wnext (lst_front L) (Some x) (wprev x (Some (lst_front L)) (link x q m)) =
          link (lst_front L) x (link x q m)) as ->.
  { unfold link at 2. unfold wnext, wprev. by rewrite alter_alter_ne. }
  assert (NoDup (lst_front L :: x :: q :: l2)) as Hnd'.
  { apply NoDup_cons in Hnd as [? ?]. apply NoDup_cons; split; [set_solver|].
    by apply NoDup_cons. }
  assert (∀ c, c ∈ lst_front L :: x :: q :: l2 → is_Some (m !! c)) as Hall.
  { intros c Hc. apply elem_of_cons in Hc as [->|Hc]; [eauto|].
    apply elem_of_cons in Hc as [->|Hc]; [done|].
    eapply dlist_alloc; [done|]. rewrite Hold. set_solver. }
  split.
  - split; rewrite Hnew; [done|].
    apply linked_but_link; [done|by left|intros; rewrite link_some; by apply Hall|].
    apply linked_but_link; [done|by right; left|done|].
    intros c d. rewrite !adj_cons2. intros [[-> ->]|[[-> ->]|H]]; [left; set_solver..|right].
    apply (dlist_linked _ _ _ _ _ Hd). rewrite Hold. by right.
  - rewrite Hnew. eapply only_trans; apply only_link; set_solver.
Qed.

Lemma push_back_ok m L xs x :
  dlist m L xs → x ∉ cells_of L xs → is_Some (m !! x) →
  wp (push_back L x) (λ _ m', dlist m' L (xs ++ [x]) ∧ only (cells_of L (xs ++ [x])) m m') m.
Proof.
  intros Hd Hx Sx. pose proof Hd as [Hnd Hl].
  destruct (cells_snoc (lst_front L) xs) as (l1 & p & H1).
  assert (cells_of L xs = l1 ++ p :: [lst_back L]) as Hold
    by (unfold cells_of; by rewrite app_comm_cons, H1, <-app_assoc).
  assert (cells_of L (xs ++ [x]) = l1 ++ p :: x :: [lst_back L]) as Hnew
    by (unfold cells_of; by rewrite <-app_assoc, app_comm_cons, H1, <-app_assoc).
  assert (adj (cells_of L xs) p (lst_back L)) as Hpb
    by (rewrite Hold; apply adj_app; right; by left).
  pose proof (dlist_linked _ _ _ _ _ Hd Hpb) as Lpb.
  destruct (dlist_alloc _ _ _ (lst_back L) Hd) as [nb Hb]; [rewrite Hold; set_solver|].
  assert (is_Some (m !! p)) as Sp by (eapply dlist_alloc; [done|rewrite Hold; set_solver]).
  rewrite Hold in Hx, Hnd. assert (x ≠ p ∧ x ≠ lst_back L) as [Hxp Hxb] by set_solver.
  unfold push_back, load, wp. unfold mbind, prog_bind, get. rewrite Hb. simpl.
  rewrite (linked_prev _ _ _ _ Lpb Hb). rewrite set_prev_eq by done. simpl.
  rewrite set_next_eq by by rewrite wprev_some. simpl.
  rewrite wnext_ne, wprev_ne, Hb by done. simpl.
  rewrite (linked_prev _ _ _ _ Lpb Hb). simpl.
  rewrite set_next_eq by by rewrite wnext_some, wprev_some. simpl.
  rewrite set_prev_eq by (rewrite !wnext_some, wprev_some; eauto).
  assert (wprev (lst_back L) (Some x) (wnext p (Some x) (wnext x (Some (lst_back L))
            (wprev x (Some p) m))) = link x (lst_back L) (link p x m)) as ->.
  { unfold link. f_equal. unfold wnext, wprev.
    apply map_eq. intros i. rewrite !lookup_alter.
    repeat case_decide; subst; try done; destruct (m !! _); done. }
  assert (NoDup (l1 ++ p :: x :: [lst_back L])) as Hnd'.
  { rewrite (Permutation_app_comm l1). rewrite (Permutation_app_comm l1) in Hnd. simpl in *.
    rewrite perm_swap. apply NoDup_cons. split; [set_solver|done]. }
  assert (∀ c, c ∈ l1 ++ p :: x :: [lst_back L] → is_Some (m !! c)) as Hall.
  { intros c Hc. destruct (decide (c = x)) as [->|]; [done|].
    eapply dlist_alloc; [done|]. rewrite Hold. set_solver. }
  split.
  - split; rewrite Hnew; [done|].
    apply linked_but_link; [done|apply adj_app; right; right; by left
                           |intros; rewrite link_some; by apply Hall|].
    apply linked_but_link; [done|apply adj_app; right; by left|done|].
    intros c d. rewrite adj_app, !adj_cons2.
    intros [H|[[-> ->]|[[-> ->]|[]]]]; [right|left; set_solver..].
    apply (dlist_linked _ _ _ _ _ Hd). rewrite Hold, adj_app. by left.
  - rewrite Hnew. eapply only_trans; apply only_link; set_solver.
Qed.

Lemma is_empty_ok m L xs :
  dlist m L xs → wp (is_empty L) (λ e m', e = bool_decide (xs = []) ∧ m' = m) m.
Proof.
  intros Hd. pose proof Hd as [Hnd _].
  destruct (snoc_cells xs (lst_back L)) as (q & l2 & H2).
  assert (adj (cells_of L xs) (lst_front L) q) as Hfq by (unfold cells_of; rewrite H2; by left).
  pose proof (dlist_linked _ _ _ _ _ Hd Hfq) as Lfq.
  destruct (dlist_alloc _ _ _ (lst_front L) Hd) as [nf Hf]; [by left|].
  unfold is_empty, load, wp. unfold mbind, prog_bind, get. rewrite Hf. simpl.
  rewrite (linked_next _ _ _ _ Lfq Hf). split; [|done].
  apply bool_decide_ext. split; [|intros ->; by simplify_eq/=].
  intros [= ->]. destruct xs as [|x xs]; [done|]. exfalso. simplify_eq/=.
  unfold cells_of in Hnd. simpl in Hnd.
  apply NoDup_cons in Hnd as [_ Hnd]. apply NoDup_cons in Hnd as [Hnd _]. set_solver.
Qed.

Lemma pop_front_ok m L x xs :
  dlist m L (x :: xs) →
  wp (pop_front L) (λ r m', dlist m' L xs ∧ r = Some x ∧ only (cells_of L xs) m m') m.
Proof.
  intros Hd. pose proof (is_empty_ok _ _ _ Hd) as He.
  pose proof (remove_node_ok m L [] x xs Hd) as Hr. simpl in Hr.
  assert (adj (cells_of L (x :: xs)) (lst_front L) x) as Hfx by by left.
  pose proof (dlist_linked _ _ _ _ _ Hd Hfx) as Lfx.
  destruct (snoc_cells xs (lst_back L)) as (q & l2 & H2).
  assert (adj (cells_of L (x :: xs)) x q) as Hxq
    by (unfold cells_of; simpl app; rewrite H2; right; by left).
  pose proof (dlist_linked _ _ _ _ _ Hd Hxq) as Lxq.
  pose proof Hd as [Hnd _]. unfold cells_of in Hnd. simpl app in Hnd.
  assert (lst_front L ≠ x) as Hne by (apply NoDup_cons in Hnd as [Hnd _]; set_solver).
  destruct (dlist_alloc _ _ _ (lst_front L) Hd) as [nf Hf]; [by left|].
  destruct (dlist_alloc _ _ _ x Hd) as [nx Hx]; [unfold cells_of; set_solver|].
  assert (is_Some (m !! q)) as Sq
    by (eapply dlist_alloc; [done|unfold cells_of; simpl app; rewrite H2; set_solver]).
  unfold is_empty, remove_node, pop_front, load, wp in *. unfold mbind, prog_bind, get in *.
  rewrite Hf in *. rewrite Hx in *. simpl in *.
  rewrite (linked_prev _ _ _ _ Lfx Hx), (linked_next _ _ _ _ Lxq Hx) in Hr. simpl in Hr.
  destruct He as [He _]. destruct (bool_decide (next nf = _)); [done|]. clear He.
  rewrite (linked_next _ _ _ _ Lfx Hf). simpl. rewrite Hx. simpl. rewrite (linked_next _ _ _ _ Lxq Hx). simpl.
  rewrite set_next_eq in * by eauto. simpl in *.
  rewrite wnext_ne, Hx in Hr by done. simpl in Hr.
  rewrite (linked_prev _ _ _ _ Lfx Hx) in Hr.
  rewrite set_prev_eq in * by by rewrite wnext_some.
  destruct Hr as (? & _ & ?). done.
Qed.

Lemma move_back_ok m L xs1 x xs2 :
  dlist m L (xs1 ++ x :: xs2) →
  wp (move_back L x) (λ _ m', dlist m' L (xs1 ++ xs2 ++ [x])) m.
Proof.
  intros Hd. unfold move_back. eapply wp_seq; [by apply remove_node_ok|].
  intros r m' (Hd' & _ & [_ Hs]). eapply wp_mono; [apply push_back_ok; [done|..]|].
  - destruct Hd as [Hnd _]. unfold cells_of in *. rewrite <-!app_assoc in *. simpl in Hnd.
    rewrite (Permutation_app_comm xs1) in Hnd. simpl in Hnd.
    rewrite perm_swap in Hnd. apply NoDup_cons in Hnd as [Hx _]. set_solver.
  - apply Hs. eapply dlist_alloc; [done|]. unfold cells_of. set_solver.
  - intros _ m'' [? _]. by rewrite <-app_assoc in H.
Qed.

Definition separate (L K : DNodeList) (xs ys : list nat) : Prop :=
  ∀ a, a ∈ cells_of L xs → a ∉ cells_of K ys.

Lemma splice_back_ok fuel m L K xs ys :
  dlist m L xs → dlist m K ys → separate L K xs ys → (length ys < fuel)%nat →
  wp (splice_back fuel L K) (λ _ m', dlist m' L (xs ++ ys) ∧ dlist m' K []) m.
Proof.
  revert m xs ys. induction fuel as [|fuel IH]; intros m xs ys HL HK Hsep Hf; [lia|].
  simpl. eapply wp_seq; [by apply is_empty_ok|]. intros e m' [-> ->].
  destruct ys as [|y ys].
  { rewrite bool_decide_eq_true_2 by done. apply wp_ret. by rewrite app_nil_r. }
  rewrite bool_decide_eq_false_2 by done. simpl in Hf.
  assert (∀ a, a ∈ cells_of L xs → a ∉ cells_of K ys ∧ a ≠ y) as Hsep'.
  { intros a Ha. specialize (Hsep a Ha). unfold cells_of in *. set_solver. }
  assert (y ∉ cells_of K ys) as Hy.
  { destruct HK as [Hnd _]. unfold cells_of in *. simpl app in Hnd.
    rewrite perm_swap in Hnd. by apply NoDup_cons in Hnd as [? _]. }
  assert (is_Some (m !! y)) as Sy by (eapply dlist_alloc; [exact HK|unfold cells_of; set_solver]).
  eapply wp_seq; [by apply pop_front_ok|]. intros o m1 (HK1 & -> & Ho1). simpl.
  apply wp_bind, wp_ret.
  assert (dlist m1 L xs) as HL1 by (eapply dlist_only; [done| |done]; naive_solver).
  eapply wp_seq.
  { apply push_back_ok; [done| |by apply Ho1]. intros Hin. by apply Hsep' in Hin as [_ ?]. }
  intros _ m2 [HL2 Ho2].
  assert (∀ a, a ∈ cells_of K ys → a ∉ cells_of L (xs ++ [y])) as Hsep2.
  { intros a Ha Hin. assert (a = y ∨ a ∈ cells_of L xs) as [->|Hin'] by
      (unfold cells_of in *; set_solver); [done|]. by apply Hsep' in Hin' as [? _]. }
  eapply wp_mono; [apply (IH m2 (xs ++ [y]) ys)|].
  - done.
  - by eapply dlist_only.
  - intros a Ha Hin. by apply (Hsep2 a).
  - lia.
  - intros ? m3. by rewrite <-app_assoc.
Qed.

(** ** The LRU update of [match] and [insert]

    Both walk the blocks of a prefix; a node found in the cache is taken off
    whichever list it is on and pushed to the front of the local list, a new node
    is only pushed; the local list is then spliced to the back of the LRU list. *)

Definition visit (K : DNodeList) (v : bool * nat) : prog mem unit :=
  if v.1 then remove_node v.2 ≫= λ _, push_front K v.2 else push_front K v.2.
Definition lru_update_ptr (fuel : nat) (L K : DNodeList) (vs : list (bool * nat)) : prog mem unit :=
  for_each vs (visit K) ≫= λ _, splice_back fuel L K.

(** The same on sequences: the LRU order and the local list. *)
Definition lremove (x : nat) (l : list nat) : list nat := filter (λ y, y ≠ x) l.
Definition lvisit (st : list nat * list nat) (v : bool * nat) : list nat * list nat :=
  if v.1 then (lremove v.2 st.1, v.2 :: lremove v.2 st.2) else (st.1, v.2 :: st.2).
Definition lvisits (vs : list (bool * nat)) (st : list nat * list nat) : list nat * list nat :=
  fold_left lvisit vs st.
Definition lru_update (vs : list (bool * nat)) (xs : list nat) : list nat :=
  let st := lvisits vs (xs, []) in st.1 ++ st.2.

Lemma lremove_notin x l : x ∉ l → lremove x l = l.
Proof.
  intros Hx. unfold lremove. induction l as [|y l IH]; [done|].
  apply not_elem_of_cons in Hx as [? ?].
  rewrite filter_cons_True by congruence. by rewrite IH.
Qed.
Lemma lremove_split x l1 l2 : NoDup (l1 ++ x :: l2) → lremove x (l1 ++ x :: l2) = l1 ++ l2.
Proof.
  intros Hnd. rewrite (Permutation_app_comm l1) in Hnd. simpl in Hnd.
  apply NoDup_cons in Hnd as [Hx _]. unfold lremove.
  rewrite filter_app, filter_cons_False by (intros []; done).
  fold (lremove x l1) (lremove x l2). rewrite !lremove_notin by set_solver. done.
Qed.
Lemma elem_of_lremove x y l : y ∈ lremove x l ↔ y ≠ x ∧ y ∈ l.
Proof. unfold lremove. by rewrite list_elem_of_filter. Qed.
Lemma lremove_in_list L x l1 l2 :
  NoDup (cells_of L (l1 ++ x :: l2)) → lremove x (l1 ++ x :: l2) = l1 ++ l2.
Proof.
  unfold cells_of. intros [_ Hnd]%NoDup_cons. apply NoDup_app in Hnd as [Hnd _].
  by apply lremove_split.
Qed.

(** What a visit may be given: a node on one of the lists, or a fresh one. *)
Definition visit_ok (m : mem) (L K : DNodeList) (xs ys : list nat) (v : bool * nat) : Prop :=
  if v.1 then v.2 ∈ xs ∨ v.2 ∈ ys
  else is_Some (m !! v.2) ∧ v.2 ∉ cells_of L xs ∧ v.2 ∉ cells_of K ys.
Definition two_lists (m : mem) (L K : DNodeList) (st : list nat * list nat) : Prop :=
  dlist m L st.1 ∧ dlist m K st.2 ∧ separate L K st.1 st.2.

Lemma visit_push_ok m L K xs ys x :
  dlist m L xs → dlist m K ys → separate L K xs ys →
  is_Some (m !! x) → x ∉ cells_of L xs → x ∉ cells_of K ys →
  wp (push_front K x) (λ _ m', two_lists m' L K (xs, x :: ys) ∧
                               ∀ a, is_Some (m' !! a) ↔ is_Some (m !! a)) m.
Proof.
  intros HL HK Hsep Sx HxL HxK. eapply wp_mono; [by apply push_front_ok|].
  intros _ m' [HK' Ho]. split; [|by destruct Ho].
  assert (separate L K xs (x :: ys)) as Hsep'.
  { intros a Ha Hin. assert (a = x ∨ a ∈ cells_of K ys) as [->|?]
      by (unfold cells_of in *; set_solver); [done|]. by apply (Hsep a). }
  split; [|done]. by eapply dlist_only.
Qed.

Lemma visit_refines m L K st v :
  two_lists m L K st → visit_ok m L K st.1 st.2 v →
  wp (visit K v) (λ _ m', two_lists m' L K (lvisit st v) ∧
                          ∀ a, is_Some (m' !! a) ↔ is_Some (m !! a)) m.
Proof.
  destruct st as [xs ys], v as [[] x]; simpl; intros (HL & HK & Hsep) Hv; unfold visit, lvisit; simpl.
  2: { destruct Hv as (? & ? & ?). by apply visit_push_ok. }
  destruct Hv as [Hx|Hx]; simpl in *.
  - apply list_elem_of_split in Hx as (l1 & l2 & ->).
    assert (x ∉ cells_of K ys) as HxK by (apply Hsep; unfold cells_of; set_solver).
    destruct HL as [HndL HlL]. rewrite (lremove_in_list L) by done.
    rewrite (lremove_notin x ys) by (unfold cells_of in HxK; set_solver).
    assert (x ∉ cells_of L (l1 ++ l2)) as HxL.
    { unfold cells_of in *. rewrite <-!app_assoc in *. simpl in HndL.
      rewrite (Permutation_app_comm l1) in HndL. simpl in HndL.
      rewrite perm_swap in HndL. apply NoDup_cons in HndL as [? _]. set_solver. }
    assert (is_Some (m !! x)) as Sx
      by (eapply (dlist_alloc m L); [split; [exact HndL|exact HlL]|unfold cells_of; set_solver]).
    eapply wp_seq; [by apply remove_node_ok|]. intros r m' (HL' & _ & Ho).
    assert (separate L K (l1 ++ l2) ys) as Hsep'.
    { intros a Ha. apply Hsep. unfold cells_of in *. set_solver. }
    eapply wp_mono; [apply (visit_push_ok m' L K (l1 ++ l2) ys); try done|].
    + eapply dlist_only; [done| |done]. intros a Ha Hin. by apply (Hsep' a).
    + by apply Ho.
    + intros _ m'' [? Hs]. split; [done|]. intros a. rewrite Hs. apply Ho.
  - apply list_elem_of_split in Hx as (l1 & l2 & ->).
    assert (x ∉ cells_of L xs) as HxL.
    { intros Hin. apply (Hsep x); [done|]. unfold cells_of; set_solver. }
    destruct HK as [HndK HlK]. rewrite (lremove_in_list K) by done.
    rewrite (lremove_notin x xs) by (unfold cells_of in HxL; set_solver).
    assert (x ∉ cells_of K (l1 ++ l2)) as HxK.
    { unfold cells_of in *. rewrite <-!app_assoc in *. simpl in HndK.
      rewrite (Permutation_app_comm l1) in HndK. simpl in HndK.
      rewrite perm_swap in HndK. apply NoDup_cons in HndK as [? _]. set_solver. }
    assert (is_Some (m !! x)) as Sx
      by (eapply (dlist_alloc m K); [split; [exact HndK|exact HlK]|unfold cells_of; set_solver]).
    eapply wp_seq; [by apply remove_node_ok|]. intros r m' (HK' & _ & Ho).
    assert (separate L K xs (l1 ++ l2)) as Hsep'.
    { intros a Ha Hin. apply (Hsep a); [done|]. unfold cells_of in *. set_solver. }
    eapply wp_mono; [apply (visit_push_ok m' L K xs (l1 ++ l2)); try done|].
    + by eapply dlist_only.
    + by apply Ho.
    + intros _ m'' [? Hs]. split; [done|]. intros a. rewrite Hs. apply Ho.
Qed.

(** The visits of a walk, each valid when it is made. *)
Fixpoint visits_ok (m : mem) (L K : DNodeList) (vs : list (bool * nat))
    (st : list nat * list nat) : Prop :=
  match vs with
  | [] => True
  | v :: vs => visit_ok m L K st.1 st.2 v ∧ visits_ok m L K vs (lvisit st v)
  end.
Lemma visits_ok_mono m m' L K vs st :
  (∀ a, is_Some (m' !! a) ↔ is_Some (m !! a)) → visits_ok m L K vs st → visits_ok m' L K vs st.
Proof.
  intros Hs. revert st. induction vs as [|v vs IH]; intros st; simpl; [done|].
  intros [Hv Hvs]. split; [|by apply IH]. unfold visit_ok in *.
  destruct (v.1); [done|]. by rewrite Hs.
Qed.

Lemma visits_refine m L K vs st :
  two_lists m L K st → visits_ok m L K vs st →
  wp (for_each vs (visit K)) (λ _ m', two_lists m' L K (lvisits vs st)) m.
Proof.
  revert m st. induction vs as [|v vs IH]; intros m st Hst Hok; simpl; [done|].
  destruct Hok as [Hv Hvs]. eapply wp_seq; [by apply visit_refines|].
  intros _ m' [Hst' Hs]. apply IH; [done|]. by apply (visits_ok_mono m).
Qed.

(** Moving distinct nodes of the LRU list one after the other: they end up at its back,
    the first visited last. *)
Lemma lvisits_hits vs xs ys :
  NoDup (vs ++ ys) →
  lvisits (pair true <$> vs) (xs, ys) = (filter (λ a, a ∉ vs) xs, reverse vs ++ ys).
Proof.
  revert xs ys. induction vs as [|v vs IH]; intros xs ys Hnd.
  { unfold lvisits. simpl. f_equal. induction xs as [|x xs IH]; [done|].
    rewrite filter_cons_True by apply not_elem_of_nil. by rewrite <-IH. }
  simpl in Hnd. apply NoDup_cons in Hnd as [Hv Hnd]. unfold lvisits in *. simpl.
  unfold lvisit at 2. simpl. rewrite (lremove_notin v ys) by set_solver. rewrite IH.
  - rewrite reverse_cons, <-app_assoc. f_equal. unfold lremove. rewrite list_filter_filter.
    apply filter_ext_on. intros x _. rewrite not_elem_of_cons. tauto.
  - rewrite <-Permutation_middle. by apply NoDup_cons.
Qed.
Lemma lru_update_hits vs xs :
  NoDup vs → lru_update (pair true <$> vs) xs = filter (λ a, a ∉ vs) xs ++ reverse vs.
Proof.
  intros Hnd. unfold lru_update. rewrite lvisits_hits by (by rewrite app_nil_r).
  simpl. by rewrite app_nil_r.
Qed.

(** C19: the pointer walk of [match]/[insert] leaves the LRU list in the order
    [lru_update] computes, and the local list empty, in as many loop iterations
    as it visits nodes. *)
Theorem lru_update_ptr_refines m L K xs vs fuel :
  dlist m L xs → dlist m K [] → separate L K xs [] →
  visits_ok m L K vs (xs, []) → (length vs < fuel)%nat →
  wp (lru_update_ptr fuel L K vs)
     (λ _ m', dlist m' L (lru_update vs xs) ∧ dlist m' K []) m.
Proof.
  intros HL HK Hsep Hok Hf. unfold lru_update_ptr, lru_update.
  eapply wp_seq; [by apply (visits_refine m L K vs (xs, []))|].
  intros _ m' (HL' & HK' & Hsep'). apply splice_back_ok; [done..|].
  assert (∀ vs st, (length (lvisits vs st).2 ≤ length st.2 + length vs)%nat) as Hlen.
  { clear. unfold lvisits. induction vs as [|v vs IH]; intros st; simpl; [lia|].
    etrans; [apply IH|]. unfold lvisit.
    pose proof (length_filter (λ y, y ≠ v.2) st.2). unfold lremove.
    destruct (v.1); simpl; lia. }
  specialize (Hlen vs (xs, [])). simpl in Hlen. lia.
Qed.
(** Two lists in memory: the LRU list [4; 5; 6] between the sentinels 0 and 1, an empty
    local list between 2 and 3. *)
Definition sample_mem : mem := <[0 := mkNode None (Some 4)]> (<[4 := mkNode (Some 0) (Some 5)]>
  (<[5 := mkNode (Some 4) (Some 6)]> (<[6 := mkNode (Some 5) (Some 1)]>
  (<[1 := mkNode (Some 6) None]> (<[2 := mkNode None (Some 3)]> {[3 := mkNode (Some 2) None]}))))).
Lemma lru_update_ptr_refines_witness :
  wp (lru_update_ptr 3 (mkDNodeList 0 1) (mkDNodeList 2 3) [(true, 4); (true, 6)])
     (λ _ m', dlist m' (mkDNodeList 0 1) [5; 6; 4] ∧ dlist m' (mkDNodeList 2 3) []) sample_mem.
Proof.
  apply (lru_update_ptr_refines sample_mem (mkDNodeList 0 1) (mkDNodeList 2 3) [4; 5; 6]
    [(true, 4); (true, 6)] 3).
  - split; [apply (bool_decide_unpack _); computed|].
    intros a b Hab. right. cbn in Hab.
    destruct Hab as [[-> ->]|[[-> ->]|[[-> ->]|[[-> ->]|[]]]]]; (split; eexists; (split; computed)).
  - split; [apply (bool_decide_unpack _); computed|].
    intros a b Hab. right. cbn in Hab. destruct Hab as [[-> ->]|[]]; (split; eexists; (split; computed)).
  - intros a Ha. cbn in *. set_solver.
  - cbn. set_solver.
  - cbn. lia.
Defined.
