(* ===== verification/PrefixCache.v ===== *)
(** The prefix cache: [core/framework/prefix_cache/prefix_cache.h] and
    [prefix_cache.cpp].

    Full KV blocks are kept in a hash map under the chained hash of their tokens,
    in LRU order; a node of the cache holds one handle on its block.  The LRU
    list is the sequence of node addresses ([DList] refines it to the intrusive
    list); [nodes] is the heap of cache nodes.  The cache is generic in the
    manager that owns the blocks ([Blocks.BlockOwnerLaws]). *)

From S2P Require Import Prelude HashKey Blocks DList.
From stdpp Require Import base gmap list strings sets.
From Stdlib Require Import ZArith Lia.
Open Scope Z_scope.

(** ** Data *)

(** [PrefixCache::Node], its links apart *)
Record PNode := mkPNode { block : Block; last_access_time : Z }.

Record PrefixCache := mkPrefixCache {
  block_size_ : nat;
  num_blocks_ : Z;
  cached_blocks_ : gmap (Z * list Z) nat;
  nodes : gmap nat PNode;
  lru_lst_ : list nat;
  next_node : nat;
  total_blocks_ : Z;
  matched_blocks_ : Z;
}.

(** [explicit PrefixCache(uint32_t block_size)] *)
Definition PrefixCache_new (bs : nat) : PrefixCache :=
  mkPrefixCache bs 0 ∅ ∅ [] 0 0 0.

Definition set_lru (l : list nat) (pc : PrefixCache) : PrefixCache :=
  mkPrefixCache (block_size_ pc) (num_blocks_ pc) (cached_blocks_ pc) (nodes pc) l
    (next_node pc) (total_blocks_ pc) (matched_blocks_ pc).
Definition set_counts (t m : Z) (pc : PrefixCache) : PrefixCache :=
  mkPrefixCache (block_size_ pc) (num_blocks_ pc) (cached_blocks_ pc) (nodes pc)
    (lru_lst_ pc) (next_node pc) t m.
Definition touch_node (a : nat) (now : Z) (pc : PrefixCache) : PrefixCache :=
  mkPrefixCache (block_size_ pc) (num_blocks_ pc) (cached_blocks_ pc)
    (alter (λ n, mkPNode (block n) now) a (nodes pc)) (lru_lst_ pc) (next_node pc)
    (total_blocks_ pc) (matched_blocks_ pc).

(** [Slice::slice(start, end)] *)
Definition slice {St A} (l : list A) (start end_ : nat) : prog St (list A) :=
  check ((start <=? end_)%nat && (end_ <=? length l)%nat) "slice" ≫= λ _,
  mret (take (end_ - start) (drop start l)).

Section prefix_cache.
Context `{HashFns} {S : Type} `{BlockOwner S}.

(** The cache and the counters and manager of the blocks it holds. *)
Abbreviation PCW := (PrefixCache * World S)%type.
Definition pc_get : prog PCW PrefixCache := gets fst.
Definition pc_modify (f : PrefixCache → PrefixCache) : prog PCW unit :=
  modify (λ s, (f s.1, s.2)).
Definition on_world {A} (m : prog (World S) A) : prog PCW A :=
  zoom snd (λ w s, (s.1, w)) m.

(** [cached_blocks_.find(key)], then the dereference of the node *)
Definition find_node (k : key) : prog PCW (option (nat * PNode)) :=
  pc_get ≫= λ pc,
  match cached_blocks_ pc !! ukey k with
  | None => mret None
  | Some a => match nodes pc !! a with
              | Some n => mret (Some (a, n))
              | None => undef "dangling cache node"
              end
  end.

(** The key of block [j] of the tokens, from the key of block [j - 1]. *)
Definition next_key (token_ids : list Z) (bs : nat) (j : nat) (prev_key : key)
    : prog PCW key :=
  slice token_ids (j * bs) (j * bs + bs) ≫= λ ts,
  xxh3_128bits_hash (if decide (j = O) then None else Some prev_key) ts.

(** The lookup loop of [match]; [j] counts blocks ([i = j * block_size_]). *)
Fixpoint match_loop (token_ids : list Z) (bs : nat) (js : list nat) (k : key)
    (blocks : list Block) (node_list : list nat) : prog PCW (list Block * list nat) :=
  match js with
  | [] => mret (blocks, node_list)
  | j :: js =>
      next_key token_ids bs j k ≫= λ k',
      find_node k' ≫= λ o : option (nat * PNode),
      match o with
      | Some (a, n) =>
          on_world (Block_copy (block n)) ≫= λ b,
          pc_get ≫= λ pc,
          let st := lvisit (lru_lst_ pc, node_list) (true, a) in
          pc_modify (set_lru st.1) ≫= λ _,
          match_loop token_ids bs js k' (blocks ++ [b]) st.2
      | None => mret (blocks, node_list)
      end
  end.

(** [while (!node_list.is_empty()) lru_lst_.push_back(node_list.pop_front())] *)
Definition splice (node_list : list nat) : prog PCW unit :=
  pc_modify (λ pc, set_lru (lru_lst_ pc ++ node_list) pc).

Definition match_ (token_ids : list Z) (existed_shared_blocks : list Block)
    : prog PCW (list Block) :=
  pc_get ≫= λ pc,
  let bs := block_size_ pc in
  let n_tokens := (length token_ids / bs * bs)%nat in
  if decide (n_tokens = O) then mret []
  else
    let n_blocks := (n_tokens / bs)%nat in
    pc_modify (λ pc, set_counts (u64 (total_blocks_ pc + Z.of_nat n_blocks))
                                (matched_blocks_ pc) pc) ≫= λ _,
    on_world (copy_all existed_shared_blocks) ≫= λ blocks,
    let start := length existed_shared_blocks in
    let k := match last existed_shared_blocks with
             | None => [] | Some b => hash_value_ b end in
    match_loop token_ids bs (seq start (n_blocks - start)) k blocks [] ≫= λ r : list Block * list nat,
    splice r.2 ≫= λ _,
    pc_modify (λ pc, set_counts (total_blocks_ pc)
                 (u64 (matched_blocks_ pc + Z.of_nat (length r.1))) pc) ≫= λ _,
    mret r.1.

(** [new Node()] holding a copy of [b], pushed to the front of the local list. *)
Definition new_node (k : key) (b : Block) (now : Z) : prog PCW nat :=
  on_world (Block_copy_assign false Block_default b) ≫= λ b',
  pc_get ≫= λ pc,
  let a := next_node pc in
  pc_modify (λ pc, mkPrefixCache (block_size_ pc) (u64 (num_blocks_ pc + 1))
    (<[ukey k := a]> (cached_blocks_ pc)) (<[a := mkPNode b' now]> (nodes pc))
    (lru_lst_ pc) (Datatypes.S a) (total_blocks_ pc) (matched_blocks_ pc)) ≫= λ _,
  mret a.

(** What both [insert]s do for one block under its key: the local list and the
    inserted keys are returned. *)
Definition insert_one (k : key) (b : Block) (now : Z) (node_list : list nat)
    (insert_keys : list key) : prog PCW (list nat * list key) :=
  find_node k ≫= λ o : option (nat * PNode),
  match o with
  | Some (a, n) =>
      pc_modify (touch_node a now) ≫= λ _,
      pc_get ≫= λ pc,
      let st := lvisit (lru_lst_ pc, node_list) (true, a) in
      pc_modify (set_lru st.1) ≫= λ _,
      mret (st.2, insert_keys)
  | None =>
      new_node k b now ≫= λ a, mret (a :: node_list, insert_keys ++ [k])
  end.

Fixpoint insert_loop (token_ids : list Z) (bs : nat) (now : Z) (js : list nat) (k : key)
    (blocks : list Block) (node_list : list nat) (keys : list key)
    : prog PCW (list Block * list nat * list key) :=
  match js with
  | [] => mret (blocks, node_list, keys)
  | j :: js =>
      next_key token_ids bs j k ≫= λ k',
      at_ blocks j ≫= λ b,
      let blocks' := <[j := set_hash_value k' b]> blocks in
      insert_one k' (set_hash_value k' b) now node_list keys ≫= λ r : list nat * list key,
      insert_loop token_ids bs now js k' blocks' r.1 r.2
  end.

(** [insert(token_ids, blocks, existed_shared_blocks_num, insert_keys)]: the
    number of tokens, the caller's blocks with their hashes set, and the keys. *)
Definition insert (token_ids : list Z) (blocks : list Block)
    (existed_shared_blocks_num : nat) (now : Z) : prog PCW (nat * list Block * list key) :=
  pc_get ≫= λ pc,
  let bs := block_size_ pc in
  let n_blocks := Nat.min (length token_ids / bs) (length blocks) in
  let n_tokens := (n_blocks * bs)%nat in
  if decide (n_blocks = O) then mret (O, blocks, [])
  else
    check (existed_shared_blocks_num <=? n_blocks)%nat "n_blocks" ≫= λ _,
    (match existed_shared_blocks_num with
     | O => mret []
     | Datatypes.S m => at_ blocks m ≫= λ b, mret (hash_value_ b)
     end) ≫= λ k : key,
    insert_loop token_ids bs now
      (seq existed_shared_blocks_num (n_blocks - existed_shared_blocks_num))
      k blocks [] [] ≫= λ r : list Block * list nat * list key,
    splice r.1.2 ≫= λ _,
    mret (n_tokens, r.1.1, r.2).

(** [insert(Slice<Block>& blocks, insert_keys)] *)
Fixpoint insert_blocks_loop (bs : list Block) (now : Z) (node_list : list nat)
    (keys : list key) : prog PCW (list nat * list key) :=
  match bs with
  | [] => mret (node_list, keys)
  | b :: bs =>
      if is_valid b then
        insert_one (hash_value_ b) b now node_list keys ≫= λ r : list nat * list key,
        insert_blocks_loop bs now r.1 r.2
      else insert_blocks_loop bs now node_list keys
  end.
Definition insert_blocks (blocks : list Block) (now : Z) : prog PCW (nat * list key) :=
  insert_blocks_loop blocks now [] [] ≫= λ r : list nat * list key,
  splice r.1 ≫= λ _,
  pc_get ≫= λ pc, mret ((length blocks * block_size_ pc)%nat, r.2).

(** The scan of [evict]: [its] is the rest of the LRU list from [iter_node]. *)
Fixpoint evict_loop (its : list nat) (n_blocks evict_count : nat) (keys : list key)
    : prog PCW (nat * list key) :=
  match its with
  | [] => mret (evict_count, keys)
  | a :: its =>
      if decide (n_blocks <= evict_count)%nat then mret (evict_count, keys)
      else
        pc_get ≫= λ pc,
        match nodes pc !! a with
        | None => undef "dangling cache node"
        | Some n =>
            on_world (is_shared (block n)) ≫= λ shared : bool,
            if shared then evict_loop its n_blocks evict_count keys
            else
              let k := hash_value_ (block n) in
              pc_modify (λ pc, mkPrefixCache (block_size_ pc) (u64 (num_blocks_ pc - 1))
                (delete (ukey k) (cached_blocks_ pc)) (delete a (nodes pc))
                (lremove a (lru_lst_ pc)) (next_node pc)
                (total_blocks_ pc) (matched_blocks_ pc)) ≫= λ _,
              on_world (Block_destroy (block n)) ≫= λ _,
              evict_loop its n_blocks (Datatypes.S evict_count) (keys ++ [k])
        end
  end.
Definition evict (n_blocks : nat) : prog PCW (nat * list key) :=
  pc_get ≫= λ pc,
  if (num_blocks_ pc =? 0) || bool_decide (lru_lst_ pc = []) then mret (O, [])
  else evict_loop (lru_lst_ pc) n_blocks O [].

(** [num_blocks()] *)
Definition num_blocks : prog PCW Z :=
  pc_get ≫= λ pc,
  check (num_blocks_ pc =? Z.of_nat (base.size (cached_blocks_ pc))) "check block num failed" ≫= λ _,
  mret (num_blocks_ pc).

(** [compute_hash_keys(token_ids, blocks, cached_blocks)]: the number of full
    blocks and the blocks with their hashes set. *)
Fixpoint compute_hash_loop {St} (token_ids : list Z) (bs : nat) (js : list nat)
    (blocks : list Block) : prog St (list Block) :=
  match js with
  | [] => mret blocks
  | j :: js =>
      slice token_ids (j * bs) ((j + 1) * bs) ≫= λ ts,
      (match j with
       | O => mret None
       | Datatypes.S i => at_ blocks i ≫= λ p, mret (Some (hash_value_ p))
       end) ≫= λ pre : option key,
      xxh3_128bits_hash pre ts ≫= λ k,
      at_ blocks j ≫= λ b,
      compute_hash_loop token_ids bs js (<[j := set_hash_value k b]> blocks)
  end.
Definition compute_hash_keys {St} (token_ids : list Z) (blocks : list Block)
    (cached_blocks : nat) : prog St (nat * list Block) :=
  match blocks with
  | [] => mret (O, blocks)
  | b0 :: _ =>
      let bs := Z.to_nat (i32 (Blocks.size b0)) in
      if decide (bs = O) then undef "block size"
      else
        let n_blocks := ((length token_ids + bs - 1) / bs)%nat in
        if decide (n_blocks < length blocks)%nat then mret (O, blocks)
        else
          let full := Nat.min (length token_ids / bs) (length blocks) in
          compute_hash_loop token_ids bs (seq cached_blocks (full - cached_blocks)) blocks
            ≫= λ blocks', mret (full, blocks')
  end.
End prefix_cache.

(** ** Invariant *)

Definition blocks_at (ns : gmap nat PNode) (l : list nat) : list Block :=
  omap (λ a, block <$> ns !! a) l.
#[global] Arguments blocks_at : simpl never.

(** [l] lists the cache's nodes: the LRU list and the local list of a walk. *)
Record pc_ok `{HashFns} (pc : PrefixCache) (l : list nat) : Prop := {
  pk_nodup : NoDup l;
  pk_nodes : ∀ a, a ∈ l ↔ is_Some (nodes pc !! a);
  pk_cached : ∀ a n, nodes pc !! a = Some n →
    cached_blocks_ pc !! ukey (hash_value_ (block n)) = Some a;
  pk_find : ∀ k a, cached_blocks_ pc !! k = Some a →
    ∃ n, nodes pc !! a = Some n ∧ ukey (hash_value_ (block n)) = k;
  pk_num : num_blocks_ pc = Z.of_nat (length l);
  pk_next : ∀ a, a ∈ l → (a < next_node pc)%nat;
  pk_valid : ∀ a n, nodes pc !! a = Some n → managed (block n);
  pk_bs : (0 < block_size_ pc ≤ 251)%nat;
}.

Definition pc_handles (pc : PrefixCache) (local : list nat) : list handle :=
  hrefs (blocks_at (nodes pc) (lru_lst_ pc ++ local)).
Definition pcw_ok `{HashFns} {S : Type} `{BlockOwnerLaws S}
    (s : PrefixCache * World S) (local : list nat) (hs : list handle) : Prop :=
  pc_ok s.1 (lru_lst_ s.1 ++ local) ∧ world_ok s.2 (pc_handles s.1 local ++ hs).

(** ** What a lookup finds *)

Definition find_addr `{HashFns} (pc : PrefixCache) (k : key) : option nat :=
  cached_blocks_ pc !! ukey k.
(** The nodes of the longest prefix of [ks] that is cached. *)
Fixpoint hits `{HashFns} (pc : PrefixCache) (ks : list key) : list nat :=
  match ks with
  | [] => []
  | k :: ks => match find_addr pc k with Some a => a :: hits pc ks | None => [] end
  end.
Lemma hits_ext `{HashFns} pc pc' ks :
  cached_blocks_ pc' = cached_blocks_ pc → hits pc' ks = hits pc ks.
Proof.
  intros E. induction ks as [|k ks IH]; simpl; [done|]. unfold find_addr. rewrite E.
  destruct (cached_blocks_ pc !! ukey k); [|done]. by rewrite IH.
Qed.
(** The full blocks of a token sequence, from block [start]. *)
Definition chunk (bs : nat) (token_ids : list Z) (j : nat) : list Z :=
  take bs (drop (j * bs) token_ids).
Definition chunks (bs : nat) (token_ids : list Z) (start n : nat) : list (list Z) :=
  chunk bs token_ids <$> seq start n.
Lemma chunks_S bs ts j n : chunks bs ts j (S n) = chunk bs ts j :: chunks bs ts (S j) n.
Proof. done. Qed.
Definition prev_key (j : nat) (k : key) : option key := if decide (j = O) then None else Some k.

#[export] Instance blocks_at_perm ns : Proper ((≡ₚ) ==> (≡ₚ)) (blocks_at ns).
Proof.
  intros l l' Hp. unfold blocks_at. induction Hp as [|x l l' _ IH|x y l|]; simpl.
  - done.
  - destruct (block <$> ns !! x); by rewrite ?IH.
  - destruct (block <$> ns !! x), (block <$> ns !! y); try done. constructor.
  - by etrans.
Qed.
Lemma blocks_at_app ns l1 l2 : blocks_at ns (l1 ++ l2) = blocks_at ns l1 ++ blocks_at ns l2.
Proof. unfold blocks_at. by rewrite omap_app. Qed.
Lemma blocks_at_cons ns a n l : ns !! a = Some n → blocks_at ns (a :: l) = block n :: blocks_at ns l.
Proof. intros Ha. unfold blocks_at. simpl. by rewrite Ha. Qed.
Lemma blocks_at_unfold ns a l : blocks_at ns (a :: l) =
  match block <$> ns !! a with Some b => b :: blocks_at ns l | None => blocks_at ns l end.
Proof. done. Qed.
Lemma blocks_at_length ns l : (length (blocks_at ns l) ≤ length l)%nat.
Proof.
  induction l as [|a l IH]; [done|]. rewrite blocks_at_unfold.
  destruct (block <$> ns !! a); simpl; lia.
Qed.
Lemma blocks_at_ext ns ns' l :
  (∀ a, a ∈ l → block <$> ns' !! a = block <$> ns !! a) → blocks_at ns' l = blocks_at ns l.
Proof.
  induction l as [|a l IH]; intros Hag; [done|]. rewrite !blocks_at_unfold.
  by rewrite Hag, IH by set_solver.
Qed.

Lemma pc_ok_perm `{HashFns} pc l l' : l ≡ₚ l' → pc_ok pc l → pc_ok pc l'.
Proof.
  intros Hp [H1 H2 H3 H4 H5 H6 H7 H8]. constructor; try done.
  - by rewrite <-Hp.
  - intros a. by rewrite <-Hp.
  - by rewrite <-Hp.
  - intros a. rewrite <-Hp. apply H6.
Qed.

Lemma pk_ref `{HashFns} pc l : pc_ok pc l →
  ∀ a n, nodes pc !! a = Some n → ref_count_ (block n) ≠ None.
Proof. intros Hpc a n Hn. apply (pk_valid _ _ Hpc _ _ Hn). Qed.

(** Fields the invariant does not read. *)
Lemma pc_ok_irrel `{HashFns} pc pc' l :
  num_blocks_ pc' = num_blocks_ pc → cached_blocks_ pc' = cached_blocks_ pc →
  nodes pc' = nodes pc → next_node pc' = next_node pc → block_size_ pc' = block_size_ pc →
  pc_ok pc l → pc_ok pc' l.
Proof. intros E1 E2 E3 E4 E5 [? ? ? ? ? ? ? ?]. constructor; rewrite ?E1, ?E2, ?E3, ?E4, ?E5; done. Qed.

Lemma lvisit_perm xs ys a :
  NoDup (xs ++ ys) → a ∈ xs ++ ys →
  (lvisit (xs, ys) (true, a)).1 ++ (lvisit (xs, ys) (true, a)).2 ≡ₚ xs ++ ys.
Proof.
  intros Hnd Ha. unfold lvisit. simpl. rewrite <-Permutation_middle.
  unfold lremove. rewrite <-filter_app. fold (lremove a (xs ++ ys)).
  apply list_elem_of_split in Ha as (l1 & l2 & Heq). rewrite Heq in *.
  rewrite lremove_split by done. by rewrite Permutation_middle.
Qed.

Section verified.
Context `{HashFns} {S : Type} `{BlockOwnerLaws S}.
Abbreviation PCW := (PrefixCache * World S)%type.
Implicit Types (s : PCW) (pc : PrefixCache) (b : Block).

Lemma pcw_ok_perm s local hs hs' : hs ≡ₚ hs' → pcw_ok s local hs → pcw_ok s local hs'.
Proof. intros Hp [? ?]. split; [done|]. by rewrite <-Hp. Qed.

Lemma wp_on_world {A} (m : prog (World S) A) Q s :
  wp m (λ a w, Q a (s.1, w)) s.2 → wp (on_world m) Q s.
Proof. intros. unfold on_world. by apply wp_zoom. Qed.

Lemma slice_ok {St A} (l : list A) i j Q (st : St) :
  (i ≤ j ≤ length l)%nat → Q (take (j - i) (drop i l)) st → wp (slice l i j) Q st.
Proof.
  intros Hij HQ. unfold slice. apply wp_bind, wp_check; [|done].
  apply andb_true_iff. rewrite !Nat.leb_le. lia.
Qed.

Lemma next_key_ok token_ids bs j k Q s :
  (j * bs + bs ≤ length token_ids)%nat → (bs ≤ 251)%nat →
  Q (block_hash (prev_key j k) (chunk bs token_ids j)) s →
  wp (next_key token_ids bs j k) Q s.
Proof.
  intros Hlen Hbs HQ. unfold next_key. apply wp_bind, slice_ok; [lia|].
  replace (j * bs + bs - j * bs)%nat with bs by lia. unfold wp.
  rewrite xxh3_128bits_hash_eq.
  - unfold prev_key, chunk in HQ. by case_decide.
  - intros _. rewrite length_take. lia.
Qed.

Lemma find_node_ok k Q s l :
  pc_ok s.1 l →
  (∀ a n, find_addr s.1 k = Some a → nodes s.1 !! a = Some n →
          ukey (hash_value_ (block n)) = ukey k → Q (Some (a, n)) s) →
  (find_addr s.1 k = None → Q None s) → wp (find_node k) Q s.
Proof.
  intros Hok HS HN. unfold find_node, pc_get, find_addr in *. wp_steps.
  destruct (cached_blocks_ s.1 !! ukey k) as [a|] eqn:E; [|by apply wp_ret, HN].
  destruct (pk_find _ _ Hok _ _ E) as (n & Hn & Hk). rewrite Hn.
  by apply wp_ret, HS.
Qed.

Lemma node_handle s local hs a n :
  nodes s.1 !! a = Some n → a ∈ lru_lst_ s.1 ++ local →
  href (block n) ⊆ pc_handles s.1 local ++ hs.
Proof.
  intros Hn Ha. unfold pc_handles.
  apply list_elem_of_split in Ha as (l1 & l2 & ->).
  rewrite blocks_at_app, (blocks_at_cons _ _ _ _ Hn), hrefs_app, hrefs_cons. set_solver.
Qed.

(** *** [match] *)

Lemma match_loop_ok token_ids bs n j k blocks local s hs :
  pcw_ok s local (hrefs blocks ++ hs) → block_size_ s.1 = bs →
  (n = O ∨ (j + n) * bs ≤ length token_ids)%nat →
  Z.of_nat (length (pc_handles s.1 local ++ hrefs blocks ++ hs) + n) < 2 ^ 32 →
  let as_ := hits s.1 (chain_hash (prev_key j k) (chunks bs token_ids j n)) in
  wp (match_loop token_ids bs (seq j n) k blocks local)
     (λ r s', pcw_ok s' r.2 (hrefs r.1 ++ hs) ∧
              r.1 = blocks ++ blocks_at (nodes s.1) as_ ∧
              (lru_lst_ s'.1, r.2) = lvisits (pair true <$> as_) (lru_lst_ s.1, local) ∧
              s'.1 = set_lru (lru_lst_ s'.1) s.1 ∧ mgr s'.2 = mgr s.2) s.
Proof.
  revert j k blocks local s. induction n as [|n IH]; intros j k blocks local s Hok Hbs Hlen Hroom.
  { simpl. apply wp_ret. rewrite app_nil_r. split; [done|]. by destruct s as [[] ?]. }
  pose proof (pk_bs _ _ (proj1 Hok)) as Hb. rewrite Hbs in Hb.
  destruct Hlen as [Hlen|Hlen]; [lia|].
  cbv zeta. rewrite chunks_S. simpl. apply wp_bind, next_key_ok; [nia|lia|].
  set (k' := block_hash (prev_key j k) (chunk bs token_ids j)).
  apply wp_bind. eapply find_node_ok; [apply Hok| |].
  2: { intros HN. rewrite HN. apply wp_ret. simpl. rewrite app_nil_r.
       split; [done|]. by destruct s as [[] ?]. }
  intros a nd Ha Hnd Hk. rewrite Ha.
  assert (a ∈ lru_lst_ s.1 ++ local) as Hin by (apply (pk_nodes _ _ (proj1 Hok)); eauto).
  apply wp_bind, wp_on_world. destruct Hok as [Hpc Hw].
  eapply wp_mono; [apply Block_copy_ok; [exact Hw| |]|].
  { by eapply node_handle. }
  { simpl in Hroom. lia. }
  intros b w' (-> & Hw' & Hm). unfold pc_get, pc_modify. wp_steps. simpl.
  pose proof (lvisit_perm _ _ a (pk_nodup _ _ Hpc) Hin) as Hp. unfold lvisit in Hp. simpl in Hp.
  eapply wp_mono; [apply (IH (Datatypes.S j) k')|].
  - split; simpl.
    + eapply pc_ok_perm; [symmetry; exact Hp|]. by eapply pc_ok_irrel; [..|exact Hpc].
    + rewrite hrefs_app, hrefs_cons, hrefs_nil, app_nil_r.
      unfold pc_handles in *. simpl. rewrite Hp.
      refine (proj1 (world_ok_proper _ _ _ _) Hw').
      perm.
  - done.
  - lia.
  - unfold pc_handles in *. simpl. rewrite Hp, hrefs_app, !length_app in *.
    rewrite hrefs_cons, hrefs_nil, app_nil_r.
    assert (length (href (block nd)) ≤ 1)%nat by (unfold href; destruct (ref_count_ _); simpl; lia).
    lia.
  - intros r s' (Hok' & Hr & Hl & Hs & Hm'). simpl in *.
    rewrite (hits_ext s.1) in Hr, Hl by done. fold (prev_key (Datatypes.S j) k') in Hr, Hl.
    unfold prev_key in Hr, Hl. simpl in Hr, Hl. fold k'.
    split; [done|]. rewrite (blocks_at_cons _ _ _ _ Hnd).
    split; [by rewrite Hr, <-app_assoc|]. split; [done|]. split; [|by rewrite Hm'].
    by rewrite Hs at 1.
Qed.

Definition match_start_key (existed : list Block) : key :=
  match last existed with None => [] | Some b => hash_value_ b end.
(** The nodes [match] hits for these tokens after these shared blocks. *)
Definition match_hits pc (token_ids : list Z) (existed : list Block) : list nat :=
  let e := length existed in
  hits pc (chain_hash (prev_key e (match_start_key existed))
    (chunks (block_size_ pc) token_ids e (length token_ids / block_size_ pc - e))).

Lemma match_ok token_ids existed s hs :
  pcw_ok s [] hs → hrefs existed ⊆ pc_handles s.1 [] ++ hs →
  Z.of_nat (length (pc_handles s.1 [] ++ hs) + length existed + length token_ids) < 2 ^ 32 →
  wp (match_ token_ids existed)
     (λ r s', pcw_ok s' [] (hrefs r ++ hs) ∧
        r = (if decide (length token_ids / block_size_ s.1 = 0)%nat then []
             else existed ++ blocks_at (nodes s.1) (match_hits s.1 token_ids existed)) ∧
        lru_lst_ s'.1 = (if decide (length token_ids / block_size_ s.1 = 0)%nat
                         then lru_lst_ s.1
                         else lru_update (pair true <$> match_hits s.1 token_ids existed)
                                         (lru_lst_ s.1)) ∧
        nodes s'.1 = nodes s.1 ∧ cached_blocks_ s'.1 = cached_blocks_ s.1 ∧
        mgr s'.2 = mgr s.2) s.
Proof.
  intros Hok Hsub Hroom. unfold match_, pc_get. wp_steps.
  pose proof (pk_bs _ _ (proj1 Hok)) as Hbs.
  set (bs := block_size_ s.1) in *.
  assert (length token_ids / bs * bs / bs = length token_ids / bs)%nat as Hdiv
    by (apply Nat.div_mul; lia).
  destruct (decide (length token_ids / bs * bs = 0)%nat) as [Hz|Hnz].
  { apply wp_ret. destruct (decide (length token_ids / bs = 0)%nat); [done|nia]. }
  destruct (decide (length token_ids / bs = 0)%nat) as [?|Hnz']; [nia|].
  rewrite Hdiv. unfold pc_modify. wp_steps.
  apply wp_on_world. simpl. destruct Hok as [Hpc Hw].
  assert (length token_ids / bs ≤ length token_ids)%nat by (apply Nat.Div0.div_le_upper_bound; nia).
  eapply wp_mono; [apply copy_all_ok; [exact Hw|exact Hsub|lia]|].
  intros blocks w' (-> & Hw' & Hm).
  set (s1 := (set_counts _ _ s.1, w')).
  assert (pcw_ok s1 [] (hrefs existed ++ hs)) as Hok1.
  { split; [by eapply pc_ok_irrel; [..|exact Hpc]|].
    change (pc_handles s1.1 []) with (pc_handles s.1 []).
    refine (proj1 (world_ok_proper _ _ _ _) Hw'). perm. }
  pose proof (hrefs_length existed) as Hlen.
  wp_steps. eapply wp_mono.
  { apply (match_loop_ok token_ids bs (length token_ids / bs - length existed)
      (length existed) _ existed [] s1 hs Hok1); [done| |].
    - destruct (decide (length token_ids / bs ≤ length existed)%nat); [left; lia|right].
      pose proof (Nat.Div0.mul_div_le (length token_ids) bs). nia.
    - rewrite !length_app in *. simpl. unfold pc_handles in *. simpl in *. lia. }
  intros r s' (Hok' & Hr & Hl & Hs & Hm'). unfold splice, pc_modify. wp_steps.
  rewrite (hits_ext s.1) in Hr, Hl by done. simpl in *.
  split; [split; simpl|].
  - rewrite app_nil_r. eapply pc_ok_irrel; [..|exact (proj1 Hok')]; done.
  - unfold pc_handles in *. simpl. rewrite app_nil_r. exact (proj2 Hok').
  - split; [done|]. rewrite Hs. split; [|split; [done|split; [done|by rewrite Hm']]].
    simpl. unfold lru_update, match_hits. fold bs. unfold match_start_key.
    simpl in Hl. rewrite <-Hl. done.
Qed.

(** *** [evict] *)

(** [block.is_shared()] as a function of the state. *)
Definition sharedb (w : World S) (b : Block) : bool :=
  match ref_count_ b with
  | None => false
  | Some l => match cells w !! l with Some n => 1 <? n | None => false end
  end.
Definition evictable s (a : nat) : bool :=
  match nodes s.1 !! a with Some n => negb (sharedb s.2 (block n)) | None => false end.
(** The nodes [evict n] drops: the first [n] unshared ones in LRU order. *)
Definition victims s (n : nat) (its : list nat) : list nat :=
  take n (filter (λ a, evictable s a = true) its).

(** [s'] is [s] without the nodes [ev]. *)
Definition dropped s (ev : list nat) s' : Prop :=
  lru_lst_ s'.1 = filter (λ a, a ∉ ev) (lru_lst_ s.1) ∧
  (∀ a, nodes s'.1 !! a = if decide (a ∈ ev) then None else nodes s.1 !! a) ∧
  block_size_ s'.1 = block_size_ s.1 ∧ frame (mgr s.2) (mgr s'.2).

Lemma filter_notin_nil (l : list nat) : filter (λ a, a ∉ []) l = l.
Proof.
  induction l as [|a l IH]; [done|]. rewrite filter_cons_True by apply not_elem_of_nil.
  by rewrite IH.
Qed.
Lemma dropped_nil s : dropped s [] s.
Proof.
  split; [by rewrite filter_notin_nil|]. split; [|done]. intros a.
  rewrite decide_False; [done|apply not_elem_of_nil].
Qed.
Lemma dropped_cons s a s1 ev s2 : dropped s [a] s1 → dropped s1 ev s2 → dropped s (a :: ev) s2.
Proof.
  intros (L1 & N1 & B1 & F1) (L2 & N2 & B2 & F2). split; [|split; [|split]].
  - rewrite L2, L1, list_filter_filter. apply list_filter_iff. intros x. set_solver.
  - intros x. rewrite N2, N1. repeat case_decide; set_solver.
  - by rewrite B2.
  - by etrans.
Qed.

Lemma sharedb_cnt w hs b l :
  cells_ok (cells w) (next_cell w) hs → ref_count_ b = Some l → href b ⊆ hs →
  sharedb w b = (1 <? Z.of_nat (cnt l hs)).
Proof.
  intros Hc Hl Hsub. unfold sharedb. rewrite Hl, (co_count _ _ _ Hc).
  assert (0 < cnt l hs)%nat.
  { apply (cnt_pos _ (payload b)). apply Hsub. unfold href. rewrite Hl. set_solver. }
  case_decide; [lia|done].
Qed.

Lemma is_shared_ok w hs b l (Q : bool → World S → Prop) :
  cells_ok (cells w) (next_cell w) hs → ref_count_ b = Some l → href b ⊆ hs →
  Q (sharedb w b) w → wp (is_shared b) Q w.
Proof.
  intros Hc Hl Hsub HQ. unfold is_shared. apply wp_bind.
  eapply ref_count_ok; [done..|]. rewrite Hl. apply wp_ret.
  by rewrite <-(sharedb_cnt w hs b l).
Qed.

Lemma pc_handles_drop pc a n l :
  NoDup (lru_lst_ pc) → a ∈ lru_lst_ pc → nodes pc !! a = Some n → l ≡ₚ lremove a (lru_lst_ pc) →
  pc_handles pc [] ≡ₚ href (block n) ++ hrefs (blocks_at (delete a (nodes pc)) l).
Proof.
  intros Hnd Ha Hn ->. unfold pc_handles. rewrite app_nil_r.
  apply list_elem_of_split in Ha as (l1 & l2 & Heq). rewrite Heq in *.
  rewrite lremove_split by done.
  rewrite <-(Permutation_middle l1 l2 a), (blocks_at_cons _ _ _ _ Hn), hrefs_cons.
  rewrite (blocks_at_ext (nodes pc) (delete a (nodes pc))); [done|]. intros x Hx.
  rewrite lookup_delete_ne; [done|]. intros <-.
  by apply NoDup_middle in Hnd as [? _].
Qed.

Lemma length_le_handles pc l :
  pc_ok pc l → (length l ≤ length (hrefs (blocks_at (nodes pc) l)))%nat.
Proof.
  intros Hpc. assert (∀ x, x ∈ l → is_Some (nodes pc !! x)) as Hall
    by (intros; by apply (pk_nodes _ _ Hpc)).
  pose proof (pk_valid _ _ Hpc) as Hv. clear Hpc. induction l as [|y l IH]; [done|].
  destruct (Hall y) as [ny Hy]; [set_solver|].
  rewrite (blocks_at_cons _ _ _ _ Hy), hrefs_cons, length_app. unfold href at 1.
  destruct (ref_count_ (block ny)) eqn:E; [|by destruct (proj1 (Hv _ _ Hy))].
  simpl. specialize (IH ltac:(set_solver)). lia.
Qed.

(** The cache without one node. *)
Definition drop_node (a : nat) (n : PNode) pc : PrefixCache :=
  mkPrefixCache (block_size_ pc) (u64 (num_blocks_ pc - 1))
    (delete (ukey (hash_value_ (block n))) (cached_blocks_ pc))
    (delete a (nodes pc)) (lremove a (lru_lst_ pc)) (next_node pc)
    (total_blocks_ pc) (matched_blocks_ pc).

Lemma drop_node_ok pc a n :
  pc_ok pc (lru_lst_ pc) → nodes pc !! a = Some n → a ∈ lru_lst_ pc →
  Z.of_nat (length (lru_lst_ pc)) < 2 ^ 64 →
  pc_ok (drop_node a n pc) (lru_lst_ (drop_node a n pc)).
Proof.
  intros [H1' H2' H3' H4' H5' H6' H7' H8'] Hn Ha Hroom. constructor; simpl; try done.
  - by apply NoDup_filter.
  - intros x. rewrite elem_of_lremove, lookup_delete_is_Some, H2'. naive_solver.
  - intros x nx [Hx Hnx]%lookup_delete_Some. rewrite lookup_delete_ne; [by apply H3'|].
    intros Heq. pose proof (H3' _ _ Hnx) as E1. pose proof (H3' _ _ Hn) as E2.
    rewrite Heq in E2. congruence.
  - intros k x [Hk Hx]%lookup_delete_Some. destruct (H4' _ _ Hx) as (nx & Hnx & <-).
    exists nx. split; [|done]. rewrite lookup_delete_ne; [done|]. by intros <-; simplify_eq.
  - rewrite H5'. apply list_elem_of_split in Ha as (l1 & l2 & Heq). rewrite Heq in *.
    rewrite lremove_split by done. rewrite !length_app in *. simpl in *. rewrite u64_id; lia.
  - intros x. rewrite elem_of_lremove. naive_solver.
  - intros x nx [_ Hnx]%lookup_delete_Some. by apply (H7' x).
Qed.

Lemma dropped_node s a n w' :
  nodes s.1 !! a = Some n → frame (mgr s.2) (mgr w') → dropped s [a] (drop_node a n s.1, w').
Proof.
  intros Hn Hf. split; [|split; [|done]]; simpl.
  - unfold lremove. apply list_filter_iff. intros x. rewrite list_elem_of_singleton. done.
  - intros x. destruct (decide (x = a)) as [->|Hne].
    + rewrite lookup_delete_eq. rewrite decide_True; [done|by apply list_elem_of_singleton].
    + rewrite lookup_delete_ne by done. rewrite decide_False; [done|].
      by rewrite list_elem_of_singleton.
Qed.

(** Dropping the last handle of a counter does not change what is shared. *)
Lemma sharedb_drop w w' hs l q b lb :
  world_ok w ((l, q) :: hs) → world_ok w' hs → cnt l hs = O →
  ref_count_ b = Some lb → href b ⊆ hs → sharedb w' b = sharedb w b.
Proof.
  intros Hw Hw' Hcnt Hl Hsub.
  rewrite (sharedb_cnt w' hs b lb (proj1 Hw')) by done.
  rewrite (sharedb_cnt w ((l, q) :: hs) b lb (proj1 Hw)) by set_solver.
  rewrite cnt_cons_ne; [done|]. intros ->.
  assert (0 < cnt lb hs)%nat; [|lia]. apply (cnt_pos _ (payload b)), Hsub.
  unfold href. rewrite Hl. by left.
Qed.

Lemma evict_step_ok s hs a n :
  pcw_ok s [] hs → nodes s.1 !! a = Some n → evictable s a = true →
  wp (on_world (Block_destroy (block n)))
     (λ _ s', pcw_ok s' [] hs ∧ dropped s [a] s' ∧
              ∀ x, x ≠ a → x ∈ lru_lst_ s.1 → evictable s' x = evictable s x)
     (drop_node a n s.1, s.2).
Proof.
  intros [Hpc Hw] Hn Hev. rewrite app_nil_r in Hpc.
  assert (a ∈ lru_lst_ s.1) as Ha by (apply (pk_nodes _ _ Hpc); eauto).
  pose proof (pk_nodup _ _ Hpc) as Hnd.
  assert (pc_handles s.1 [] ≡ₚ href (block n) ++ pc_handles (drop_node a n s.1) []) as Hp.
  { unfold pc_handles at 2. simpl. rewrite app_nil_r. by apply pc_handles_drop. }
  destruct (ref_count_ (block n)) as [l|] eqn:Hl; [|by destruct (pk_ref _ _ Hpc _ _ Hn)].
  assert (href (block n) = [(l, payload (block n))]) as Hh by (unfold href; by rewrite Hl).
  set (H' := pc_handles (drop_node a n s.1) [] ++ hs).
  assert (world_ok s.2 (href (block n) ++ H')) as Hw1.
  { refine (proj1 (world_ok_proper _ _ _ _) Hw). unfold H'. by rewrite Hp, <-app_assoc. }
  assert (cnt l H' = O) as Hcnt.
  { unfold evictable in Hev. rewrite Hn in Hev. apply negb_true_iff in Hev.
    rewrite (sharedb_cnt _ _ _ l (proj1 Hw1) Hl) in Hev by (rewrite Hh; set_solver).
    rewrite Hh in Hev. simpl in Hev. rewrite cnt_cons_eq in Hev.
    apply Z.ltb_ge in Hev. lia. }
  apply wp_on_world. simpl. eapply wp_mono; [by apply Block_destroy_ok|].
  intros _ w' [Hw' Hf]. split; [split; [|done]|split; [by apply dropped_node|]].
  - rewrite app_nil_r. apply drop_node_ok; [done..|].
    pose proof (co_room _ _ _ (proj1 Hw)) as Hroom. rewrite length_app in Hroom.
    pose proof (length_le_handles _ _ Hpc). unfold pc_handles in Hroom.
    rewrite app_nil_r in Hroom. lia.
  - intros x Hxa Hx. unfold evictable. simpl. rewrite lookup_delete_ne by done.
    destruct (nodes s.1 !! x) as [nx|] eqn:Hnx; [|done]. f_equal.
    destruct (ref_count_ (block nx)) as [lx|] eqn:Hlx; [|by destruct (pk_ref _ _ Hpc _ _ Hnx)].
    rewrite Hh in Hw1. apply (sharedb_drop _ _ H' l (payload (block n)) _ lx); [done..|].
    apply (node_handle (drop_node a n s.1, s.2) [] hs x nx); simpl.
    + by rewrite lookup_delete_ne.
    + rewrite app_nil_r. by apply elem_of_lremove.
Qed.

Lemma evict_loop_ok n its s cntv keys hs :
  pcw_ok s [] hs → NoDup its → (∀ a, a ∈ its → a ∈ lru_lst_ s.1) →
  let ev := victims s (n - cntv) its in
  wp (evict_loop its n cntv keys)
     (λ r s', pcw_ok s' [] hs ∧ dropped s ev s' ∧ r.1 = (cntv + length ev)%nat) s.
Proof.
  revert s cntv keys. induction its as [|a its IH]; intros s cntv keys Hok Hnd Hin; simpl.
  { apply wp_ret. unfold victims. rewrite filter_nil, take_nil. split; [done|]. split; [apply dropped_nil|].
    simpl. lia. }
  apply NoDup_cons in Hnd as [Ha Hnd].
  destruct (decide (n ≤ cntv)%nat) as [Hle|Hgt].
  { apply wp_ret. unfold victims. replace (n - cntv)%nat with O by lia. simpl.
    split; [done|]. split; [apply dropped_nil|lia]. }
  unfold pc_get. wp_steps.
  assert (is_Some (nodes s.1 !! a)) as [nd Hn].
  { apply (pk_nodes _ _ (proj1 Hok)). rewrite app_nil_r. apply Hin. set_solver. }
  rewrite Hn. destruct (ref_count_ (block nd)) as [l|] eqn:Hl;
    [|by destruct (pk_ref _ _ (proj1 Hok) _ _ Hn)].
  wp_steps. apply wp_on_world. eapply is_shared_ok; [apply Hok|exact Hl| |].
  { eapply node_handle; [done|]. rewrite app_nil_r. apply Hin. set_solver. }
  assert (evictable s a = negb (sharedb s.2 (block nd))) as Hev by (unfold evictable; by rewrite Hn).
  destruct (sharedb s.2 (block nd)).
  - rewrite <-surjective_pairing. unfold victims.
    rewrite filter_cons_False by (rewrite Hev; done). apply IH; [done..|]. set_solver.
  - unfold pc_modify. wp_steps. rewrite <-surjective_pairing.
    eapply wp_mono; [by apply (evict_step_ok s hs a nd)|].
    intros _ s1 (Hok1 & Hd1 & He1).
    assert (victims s (n - cntv) (a :: its) = a :: victims s1 (n - Datatypes.S cntv) its) as ->.
    { unfold victims. rewrite filter_cons_True by (rewrite Hev; done).
      replace (n - cntv)%nat with (Datatypes.S (n - Datatypes.S cntv)) by lia. simpl. f_equal. f_equal.
      apply filter_ext_on. intros x Hx. rewrite He1; [done|..].
      - by intros ->.
      - apply Hin. set_solver. }
    eapply wp_mono; [apply IH; [done..|]|].
    + intros x Hx. destruct Hd1 as (-> & _). apply list_elem_of_filter.
      split; [|apply Hin; set_solver]. rewrite list_elem_of_singleton. by intros ->.
    + intros r s' (Hok' & Hd' & Hr). split; [done|]. split; [by eapply dropped_cons|].
      rewrite Hr. simpl. lia.
Qed.

Lemma evict_ok n s hs :
  pcw_ok s [] hs →
  let ev := victims s n (lru_lst_ s.1) in
  wp (evict n) (λ r s', pcw_ok s' [] hs ∧ dropped s ev s' ∧ r.1 = length ev) s.
Proof.
  intros Hok. pose proof Hok as [Hpc _]. rewrite app_nil_r in Hpc. unfold evict, pc_get. wp_steps.
  destruct (_ || _) eqn:E.
  - apply wp_ret. assert (lru_lst_ s.1 = []) as ->.
    { apply orb_true_iff in E as [E|E]; [|by apply bool_decide_eq_true in E].
      apply Z.eqb_eq in E. rewrite (pk_num _ _ Hpc) in E. destruct (lru_lst_ s.1); [done|].
      simpl in E. lia. }
    unfold victims. rewrite filter_nil, take_nil. split; [done|]. split; [apply dropped_nil|done].
  - eapply wp_mono; [apply (evict_loop_ok n _ s O [] hs); [done|by apply (pk_nodup _ _ Hpc)|done]|].
    rewrite Nat.sub_0_r. done.
Qed.

(** *** [insert] *)

(** Every node of [pc] is still there in [pc'], with its block. *)
Definition extends pc pc' : Prop :=
  block_size_ pc' = block_size_ pc ∧
  ∀ a n, nodes pc !! a = Some n → ∃ n', nodes pc' !! a = Some n' ∧ block n' = block n.
#[export] Instance extends_preorder : PreOrder extends.
Proof.
  split; [by intros pc; split; [|eauto]|].
  intros p1 p2 p3 [B1 H1'] [B2 H2']. split; [congruence|]. intros a n Ha.
  destruct (H1' _ _ Ha) as (n2 & Ha2 & Hb2). destruct (H2' _ _ Ha2) as (n3 & Ha3 & Hb3).
  exists n3. split; congruence.
Qed.
Lemma extends_find pc pc' l l' k a n :
  extends pc pc' → pc_ok pc l → pc_ok pc' l' →
  find_addr pc k = Some a → nodes pc !! a = Some n →
  find_addr pc' k = Some a ∧ ∃ n', nodes pc' !! a = Some n' ∧ block n' = block n.
Proof.
  intros [_ Hext] Hpc Hpc' Hk Hn. destruct (Hext _ _ Hn) as (n' & Hn' & Hb).
  split; [|eauto]. destruct (pk_find _ _ Hpc _ _ Hk) as (n2 & Hn2 & Hkk).
  rewrite Hn in Hn2. injection Hn2 as <-. unfold find_addr. rewrite <-Hkk, <-Hb. by apply (pk_cached _ _ Hpc').
Qed.

(** Every block of [pc'] was in [pc] or is one of [new]. *)
Definition grown pc (new : Block → Prop) pc' : Prop :=
  ∀ a n, nodes pc' !! a = Some n →
    (∃ n0, nodes pc !! a = Some n0 ∧ block n = block n0) ∨ new (block n).
Lemma grown_trans p1 p2 p3 new new' :
  grown p1 new p2 → grown p2 new' p3 → grown p1 (λ b, new b ∨ new' b) p3.
Proof.
  intros G1 G2 a n Ha. destruct (G2 _ _ Ha) as [(n0 & Hn0 & Hb)|]; [|tauto].
  rewrite Hb. destruct (G1 _ _ Hn0) as [?|?]; tauto.
Qed.
Lemma grown_mono p1 p2 (new new' : Block → Prop) :
  grown p1 new p2 → (∀ b, new b → new' b) → grown p1 new' p2.
Proof. intros G Hsub a n Ha. destruct (G _ _ Ha); auto. Qed.
Lemma grown_refl pc new : grown pc new pc.
Proof. intros a n Ha. left. eauto. Qed.

Definition add_node (k : key) (b : Block) (now : Z) pc : PrefixCache :=
  mkPrefixCache (block_size_ pc) (u64 (num_blocks_ pc + 1))
    (<[ukey k := next_node pc]> (cached_blocks_ pc))
    (<[next_node pc := mkPNode b now]> (nodes pc))
    (lru_lst_ pc) (Datatypes.S (next_node pc)) (total_blocks_ pc) (matched_blocks_ pc).

Lemma add_node_ok pc l b now :
  pc_ok pc l → find_addr pc (hash_value_ b) = None → managed b →
  Z.of_nat (length l) + 1 < 2 ^ 64 →
  pc_ok (add_node (hash_value_ b) b now pc) (next_node pc :: l).
Proof.
  intros [H1' H2' H3' H4' H5' H6' H7' H8'] Hnone Hv Hroom. unfold find_addr in Hnone.
  assert (nodes pc !! next_node pc = None) as Hfresh.
  { destruct (nodes pc !! next_node pc) eqn:E; [|done].
    assert (next_node pc ∈ l) as Hin by (apply H2'; eauto). apply H6' in Hin. lia. }
  constructor; simpl; try done.
  - apply NoDup_cons. split; [|done]. intros Hin%H6'. lia.
  - intros a. rewrite elem_of_cons, H2'. destruct (decide (a = next_node pc)) as [->|].
    + rewrite lookup_insert_eq. naive_solver.
    + rewrite lookup_insert_ne by done. naive_solver.
  - intros a n. destruct (decide (a = next_node pc)) as [->|].
    + rewrite lookup_insert_eq. intros [= <-]. simpl. by rewrite lookup_insert_eq.
    + rewrite lookup_insert_ne by done. intros Ha. pose proof (H3' _ _ Ha).
      rewrite lookup_insert_ne; [done|]. intros Heq. congruence.
  - intros k a. destruct (decide (k = ukey (hash_value_ b))) as [->|].
    + rewrite lookup_insert_eq. intros [= <-]. eexists. by rewrite lookup_insert_eq.
    + rewrite lookup_insert_ne by done. intros Ha. destruct (H4' _ _ Ha) as (nd & Hnd & Hk).
      exists nd. rewrite lookup_insert_ne; [done|]. intros <-. congruence.
  - rewrite H5', u64_id; lia.
  - intros a. rewrite elem_of_cons. intros [->|Hin]; [lia|]. apply H6' in Hin. lia.
  - intros a n. destruct (decide (a = next_node pc)) as [->|].
    + rewrite lookup_insert_eq. by intros [= <-].
    + rewrite lookup_insert_ne by done. apply H7'.
Qed.

Lemma touch_node_ok pc l a now : pc_ok pc l → pc_ok (touch_node a now pc) l.
Proof.
  intros [H1' H2' H3' H4' H5' H6' H7' H8'].
  assert (∀ x nx, nodes (touch_node a now pc) !! x = Some nx →
            ∃ n0, nodes pc !! x = Some n0 ∧ block nx = block n0) as Hback.
  { intros x nx. simpl. destruct (decide (a = x)) as [<-|].
    - rewrite lookup_alter_eq. destruct (nodes pc !! a); simpl; [|done]. intros [= <-]. eauto.
    - rewrite lookup_alter_ne by done. eauto. }
  constructor; simpl; try done.
  - intros x. by rewrite H2', lookup_alter_is_Some.
  - intros x nx Hx. destruct (Hback _ _ Hx) as (n0 & Hn0 & ->). by apply H3'.
  - intros k x Hx. destruct (H4' _ _ Hx) as (n & Hn & Hk).
    destruct (decide (a = x)) as [<-|]; [rewrite lookup_alter_eq, Hn; simpl; eauto|].
    rewrite lookup_alter_ne by done. eauto.
  - intros x nx Hx. destruct (Hback _ _ Hx) as (n0 & Hn0 & ->). by apply (H7' x).
Qed.
Lemma blocks_at_touch pc a now l : blocks_at (nodes (touch_node a now pc)) l = blocks_at (nodes pc) l.
Proof.
  apply blocks_at_ext. intros x _. simpl. destruct (decide (a = x)) as [<-|].
  - rewrite lookup_alter_eq. by destruct (nodes pc !! a).
  - by rewrite lookup_alter_ne.
Qed.

(** One block under its key: found and refreshed, or added. *)
Lemma insert_one_ok k b now local keys s hs :
  pcw_ok s local hs → hash_value_ b = k → managed b → href b ⊆ hs →
  Z.of_nat (length (pc_handles s.1 local ++ hs)) + 1 < 2 ^ 32 →
  wp (insert_one k b now local keys)
     (λ r s', pcw_ok s' r.1 hs ∧ extends s.1 s'.1 ∧ mgr s'.2 = mgr s.2 ∧
        (length (pc_handles s'.1 r.1) ≤ length (pc_handles s.1 local) + 1)%nat ∧
        (∀ k', ukey k' ≠ ukey k → find_addr s.1 k' = None → find_addr s'.1 k' = None) ∧
        grown s.1 (λ b', b' = b) s'.1 ∧
        ∃ a n, find_addr s'.1 k = Some a ∧ nodes s'.1 !! a = Some n ∧
          (lru_lst_ s'.1, r.1) =
            lvisit (lru_lst_ s.1, local) (bool_decide (is_Some (find_addr s.1 k)), a) ∧
          (find_addr s.1 k = None → block n = b)) s.
Proof.
  intros Hok Hk Hv Hsub Hroom. unfold insert_one. apply wp_bind.
  eapply find_node_ok; [apply Hok|..].
  - intros a n Ha Hn Hkk. unfold pc_get, pc_modify. wp_steps. simpl.
    assert (a ∈ lru_lst_ s.1 ++ local) as Hin by (apply (pk_nodes _ _ (proj1 Hok)); eauto).
    pose proof (lvisit_perm _ _ a (pk_nodup _ _ (proj1 Hok)) Hin) as Hp.
    unfold lvisit in Hp. simpl in Hp.
    assert (pc_handles (set_lru (lremove a (lru_lst_ s.1)) (touch_node a now s.1))
              (a :: lremove a local) ≡ₚ pc_handles s.1 local) as Hph.
    { unfold pc_handles. simpl. rewrite Hp.
      change (alter _ a (nodes s.1)) with (nodes (touch_node a now s.1)).
      by rewrite blocks_at_touch. }
    split; [split; simpl|].
    + eapply pc_ok_perm; [symmetry; exact Hp|].
      eapply pc_ok_irrel; [..|apply (touch_node_ok s.1 _ a now), Hok]; done.
    + rewrite Hph. apply Hok.
    + split; [split; [done|]|split; [done|split; [by rewrite Hph; lia|split; [done|split]]]].
      * intros x nx Hx. simpl. destruct (decide (a = x)) as [<-|].
        -- rewrite lookup_alter_eq, Hx. simpl. eauto.
        -- rewrite lookup_alter_ne by done. eauto.
      * intros x nx. simpl. intros Hx. left. destruct (decide (a = x)) as [<-|].
        -- rewrite lookup_alter_eq, Hn in Hx. injection Hx as <-. eauto.
        -- rewrite lookup_alter_ne in Hx by done. eauto.
      * exists a. rewrite Ha, lookup_alter_eq, Hn. simpl. eexists.
        split; [done|]. split; [done|]. by split.
  - intros Hnone. unfold new_node, Block_copy_assign, pc_get, pc_modify.
    wp_steps. apply wp_on_world. simpl. wp_steps.
    unfold dec_ref_count at 1. simpl. wp_steps.
    eapply wp_mono; [apply (inc_ref_count_ok s.2 (pc_handles s.1 local ++ hs)); [apply Hok|set_solver|lia]|].
    intros _ w' [Hw' Hm]. wp_steps. simpl.
    assert (Z.of_nat (length (lru_lst_ s.1 ++ local)) + 1 < 2 ^ 64) as Hroom'.
    { pose proof (length_le_handles _ _ (proj1 Hok)). rewrite length_app in Hroom.
      unfold pc_handles in Hroom. lia. }
    rewrite <-Hk in Hnone.
    pose proof (add_node_ok _ _ b now (proj1 Hok) Hnone Hv Hroom') as Hpc'.
    rewrite Hk in Hpc', Hnone. fold (add_node k b now s.1).
    assert (pc_handles (add_node k b now s.1) (next_node s.1 :: local) ≡ₚ
            href b ++ pc_handles s.1 local) as Hph.
    { unfold pc_handles. simpl lru_lst_. rewrite <-Permutation_middle.
      rewrite (blocks_at_cons _ _ (mkPNode b now)) by (simpl; by rewrite lookup_insert_eq).
      rewrite hrefs_cons. simpl block. f_equiv.
      rewrite (blocks_at_ext (nodes s.1)); [done|]. intros x Hx. simpl.
      rewrite lookup_insert_ne; [done|]. intros <-. apply (pk_next _ _ (proj1 Hok)) in Hx. lia. }
    split; [split; simpl|].
    + eapply pc_ok_perm; [|exact Hpc']. by rewrite <-Permutation_middle.
    + rewrite Hph, <-app_assoc. done.
    + split; [split; [done|]|split; [done|split; [|split; [|split]]]].
      * intros x nx Hx. simpl. exists nx. rewrite lookup_insert_ne; [done|]. intros <-.
        assert (next_node s.1 ∈ lru_lst_ s.1 ++ local) as Hin
          by (apply (pk_nodes _ _ (proj1 Hok)); eauto).
        apply (pk_next _ _ (proj1 Hok)) in Hin. lia.
      * rewrite Hph, length_app. unfold href. destruct (ref_count_ b); simpl; lia.
      * intros k' Hne. unfold find_addr. simpl. by rewrite lookup_insert_ne.
      * intros x nx Hx. simpl in Hx. destruct (decide (x = next_node s.1)) as [->|].
        -- rewrite lookup_insert_eq in Hx. injection Hx as <-. by right.
        -- rewrite lookup_insert_ne in Hx by done. eauto.
      * exists (next_node s.1), (mkPNode b now). unfold find_addr in *. simpl.
        rewrite !lookup_insert_eq, Hnone. done.
Qed.

(** The caller's blocks once their hashes are set, from block [j]. *)
Fixpoint hashed (j : nat) (ks : list key) (blocks : list Block) : list Block :=
  match ks with
  | [] => blocks
  | k :: ks => hashed (Datatypes.S j) ks (alter (set_hash_value k) j blocks)
  end.

Lemma insert_alter {A} (f : A → A) (l : list A) (j : nat) (x : A) :
  l !! j = Some x → <[j := f x]> l = alter f j l.
Proof.
  intros Hj. apply list_eq. intros i. destruct (decide (i = j)) as [->|].
  - rewrite list_lookup_alter_eq, Hj. simpl. apply list_lookup_insert_eq.
    by apply lookup_lt_Some in Hj.
  - by rewrite list_lookup_insert_ne, list_lookup_alter_ne.
Qed.
Lemma hrefs_alter k j blocks : hrefs (alter (set_hash_value k) j blocks) = hrefs blocks.
Proof.
  revert j. induction blocks as [|b bs IH]; intros j; [done|].
  destruct j as [|j]; [done|].
  change (alter (set_hash_value k) (Datatypes.S j) (b :: bs))
    with (b :: alter (set_hash_value k) j bs). by rewrite !hrefs_cons, IH.
Qed.
Lemma hrefs_hashed j ks blocks : hrefs (hashed j ks blocks) = hrefs blocks.
Proof.
  revert j blocks. induction ks as [|k ks IH]; intros j blocks; simpl; [done|].
  by rewrite IH, hrefs_alter.
Qed.
Lemma length_hashed j ks blocks : length (hashed j ks blocks) = length blocks.
Proof.
  revert j blocks. induction ks as [|k ks IH]; intros j blocks; simpl; [done|].
  by rewrite IH, length_alter.
Qed.
Lemma hashed_lookup_lt j ks blocks i : (i < j)%nat → hashed j ks blocks !! i = blocks !! i.
Proof.
  revert j blocks. induction ks as [|k ks IH]; intros j blocks Hi; simpl; [done|].
  rewrite IH by lia. apply list_lookup_alter_ne. lia.
Qed.
Lemma hashed_lookup j ks blocks i k :
  ks !! i = Some k → hashed j ks blocks !! (j + i)%nat = set_hash_value k <$> blocks !! (j + i)%nat.
Proof.
  revert j blocks i. induction ks as [|k0 ks IH]; intros j blocks i Hk; [done|].
  destruct i as [|i]; simplify_eq/=.
  - rewrite Nat.add_0_r, hashed_lookup_lt by lia. apply list_lookup_alter_eq.
  - rewrite <-Nat.add_succ_comm, (IH _ _ _ Hk). by rewrite list_lookup_alter_ne by lia.
Qed.

Abbreviation valid_blocks := (Forall managed).
Lemma valid_alter k j bs : valid_blocks bs → valid_blocks (alter (set_hash_value k) j bs).
Proof. intros Hv. by apply Forall_alter. Qed.

(** What an insertion of [blocks] under the keys [ks], from block [j], leaves. *)
Definition inserted s (j : nat) (ks : list key) (blocks : list Block) s' : Prop :=
  extends s.1 s'.1 ∧ mgr s'.2 = mgr s.2 ∧
  (∀ k', ukey k' ∉ ukey <$> ks → find_addr s.1 k' = None → find_addr s'.1 k' = None) ∧
  grown s.1 (λ b', ∃ i k b, ks !! i = Some k ∧ blocks !! (j + i)%nat = Some b ∧
                            b' = set_hash_value k b) s'.1 ∧
  ∀ i k b, ks !! i = Some k → blocks !! (j + i)%nat = Some b →
    ∃ a n, find_addr s'.1 k = Some a ∧ nodes s'.1 !! a = Some n ∧
      (NoDup (ukey <$> ks) → find_addr s.1 k = None → block n = set_hash_value k b).

Lemma hrefs_lookup bs j b : bs !! j = Some b → href b ⊆ hrefs bs.
Proof.
  intros Hj. apply list_elem_of_lookup_2 in Hj. apply list_elem_of_split in Hj as (l1 & l2 & ->).
  rewrite hrefs_app, hrefs_cons. set_solver.
Qed.

Lemma insert_loop_ok token_ids bs now n j k blocks local keys s hs :
  pcw_ok s local hs → block_size_ s.1 = bs →
  (n = O ∨ (j + n) * bs ≤ length token_ids)%nat → (j + n ≤ length blocks ∨ n = O)%nat →
  valid_blocks blocks → hrefs blocks ⊆ hs →
  Z.of_nat (length (pc_handles s.1 local ++ hs) + n) < 2 ^ 32 →
  let ks := chain_hash (prev_key j k) (chunks bs token_ids j n) in
  wp (insert_loop token_ids bs now (seq j n) k blocks local keys)
     (λ r s', pcw_ok s' r.1.2 hs ∧ r.1.1 = hashed j ks blocks ∧ inserted s j ks blocks s' ∧
        (length (pc_handles s'.1 r.1.2) ≤ length (pc_handles s.1 local) + n)%nat) s.
Proof.
  revert j k blocks local keys s. induction n as [|n IH];
    intros j k blocks local keys s Hok Hbs Hlen Hlb Hv Hsub Hroom.
  { simpl. apply wp_ret. split; [done|]. split; [done|].
    split; [|simpl; lia]. split; [reflexivity|]. split; [done|]. split; [done|]. split; [apply grown_refl|]. intros i ? ? Hi. done. }
  pose proof (pk_bs _ _ (proj1 Hok)) as Hb. rewrite Hbs in Hb.
  destruct Hlen as [Hlen|Hlen]; [lia|]. destruct Hlb as [Hlb|Hlb]; [|lia].
  cbv zeta. rewrite chunks_S. simpl. apply wp_bind, next_key_ok; [nia|lia|].
  set (k' := block_hash (prev_key j k) (chunk bs token_ids j)).
  set (ks' := chain_hash (Some k') (chunks bs token_ids (Datatypes.S j) n)).
  destruct (lookup_lt_is_Some_2 blocks j) as [b Hj]; [lia|].
  apply wp_bind. eapply wp_at; [done|]. rewrite (insert_alter _ _ _ _ Hj).
  assert (managed b) as Hvb by (eapply (Forall_lookup_1 _ _ _ _ Hv); exact Hj).
  assert (href b ⊆ hs) as Hbsub by (etrans; [by eapply hrefs_lookup|done]).
  apply wp_bind. eapply wp_mono.
  { apply (insert_one_ok k' (set_hash_value k' b) now local keys s hs); try done.
    rewrite length_app in *. lia. }
  intros [local1 keys1] s1 (Hok1 & Hext1 & Hm1 & Hl1 & Hnone1 & Hg1 & a & nd & Ha & Hnd & _ & Hblk).
  simpl. simpl in Hok1, Hl1. eapply wp_mono.
  { apply (IH (Datatypes.S j) k' (alter (set_hash_value k') j blocks) local1 keys1 s1); try done.
    - destruct Hext1. congruence.
    - right. nia.
    - left. rewrite length_alter. lia.
    - by apply valid_alter.
    - by rewrite hrefs_alter.
    - rewrite length_app in *. lia. }
  unfold prev_key at 1 2. rewrite decide_False by done. fold ks'.
  intros r s' (Hok' & Hr & (Hext' & Hm' & Hnone' & Hg' & Hins) & Hl').
  split; [done|]. split; [done|]. split; [|lia]. split; [by etrans|]. split; [congruence|].
  assert (∀ q aq nq, find_addr s1.1 q = Some aq → nodes s1.1 !! aq = Some nq →
            find_addr s'.1 q = Some aq ∧ ∃ n', nodes s'.1 !! aq = Some n' ∧ block n' = block nq) as Hkeep.
  { intros q aq nq Hq Hnq. eapply extends_find; [done|apply Hok1|apply Hok'|done|done]. }
  split; [|split].
  - intros q Hq Hqn. rewrite fmap_cons, not_elem_of_cons in Hq. destruct Hq as [Hq1 Hq2].
    apply Hnone'; [done|]. by apply Hnone1.
  - eapply grown_mono; [by eapply grown_trans|]. intros b' [->|(i & q & bq & Hi & Hbq & ->)].
    + exists O, k', b. by rewrite Nat.add_0_r.
    + exists (Datatypes.S i), q, bq. rewrite <-Nat.add_succ_comm. split; [done|].
      by rewrite list_lookup_alter_ne in Hbq by lia.
  - intros i q bq Hi Hbq. destruct i as [|i]; simpl in Hi.
    + injection Hi as <-. rewrite Nat.add_0_r in Hbq. rewrite Hj in Hbq. injection Hbq as <-.
      destruct (Hkeep _ _ _ Ha Hnd) as (Ha' & n' & Hn' & Hb'). exists a, n'.
      split; [done|]. split; [done|]. intros _ Hnone. rewrite Hb'. by apply Hblk.
    + rewrite <-Nat.add_succ_comm in Hbq.
      destruct (Hins i q bq Hi) as (aq & nq & Haq & Hnq & Himp).
      { by rewrite list_lookup_alter_ne by lia. }
      exists aq, nq. split; [done|]. split; [done|]. rewrite fmap_cons, NoDup_cons.
      intros [Hnotin Hnd'] Hnone. apply Himp; [done|]. apply Hnone1; [|done].
      intros Heq. apply Hnotin. rewrite <-Heq. apply list_elem_of_fmap. exists q.
      split; [done|]. by eapply list_elem_of_lookup_2.
Qed.

Definition insert_start_key (existed : nat) (blocks : list Block) : key :=
  match existed with
  | O => []
  | Datatypes.S m => match blocks !! m with Some b => hash_value_ b | None => [] end
  end.
Definition insert_num pc (token_ids : list Z) (blocks : list Block) : nat :=
  Nat.min (length token_ids / block_size_ pc) (length blocks).
(** The keys [insert] computes for the blocks after the shared ones. *)
Definition insert_keys_of pc (token_ids : list Z) (blocks : list Block) (e : nat) : list key :=
  chain_hash (prev_key e (insert_start_key e blocks))
    (chunks (block_size_ pc) token_ids e (insert_num pc token_ids blocks - e)).

Lemma insert_ok token_ids blocks e now s hs :
  pcw_ok s [] hs → valid_blocks blocks → hrefs blocks ⊆ hs →
  (e ≤ insert_num s.1 token_ids blocks ∨ insert_num s.1 token_ids blocks = O)%nat →
  Z.of_nat (length (pc_handles s.1 [] ++ hs) + length blocks) < 2 ^ 32 →
  let ks := insert_keys_of s.1 token_ids blocks e in
  let n := insert_num s.1 token_ids blocks in
  wp (insert token_ids blocks e now)
     (λ r s', pcw_ok s' [] hs ∧
        r.1 = ((n * block_size_ s.1)%nat, hashed e (if decide (n = O) then [] else ks) blocks) ∧
        inserted s e (if decide (n = O) then [] else ks) blocks s' ∧
        (length (pc_handles s'.1 []) ≤ length (pc_handles s.1 []) + (n - e))%nat) s.
Proof.
  intros Hok Hv Hsub He Hroom. unfold insert, pc_get. wp_steps. cbv zeta. fold (insert_num s.1 token_ids blocks).
  destruct (decide (insert_num s.1 token_ids blocks = O)) as [Hz|Hnz].
  { apply wp_ret. rewrite Hz. split; [done|]. split; [done|]. split; [|lia].
    split; [reflexivity|]. split; [done|]. split; [done|]. split; [apply grown_refl|].
    intros i ? ? Hi. done. }
  destruct He as [He|]; [|lia].
  apply wp_bind, wp_check; [by apply Nat.leb_le|].
  assert (insert_num s.1 token_ids blocks ≤ length blocks)%nat as Hnb by (unfold insert_num; lia).
  assert (wp (match e with
              | O => mret []
              | Datatypes.S m => at_ blocks m ≫= λ b, mret (hash_value_ b) end)
             (λ k s', k = insert_start_key e blocks ∧ s' = s) s) as Hk.
  { destruct e as [|m]; [done|]. destruct (lookup_lt_is_Some_2 blocks m) as [b Hb]; [lia|].
    apply wp_bind. eapply wp_at; [done|]. apply wp_ret. simpl. by rewrite Hb. }
  eapply wp_seq; [exact Hk|]. intros k s0 [-> ->]. apply wp_bind.
  pose proof (pk_bs _ _ (proj1 Hok)) as Hb.
  eapply wp_mono.
  { apply (insert_loop_ok token_ids (block_size_ s.1) now
      (insert_num s.1 token_ids blocks - e) e (insert_start_key e blocks) blocks [] [] s hs); try done.
    - right. replace (e + (insert_num s.1 token_ids blocks - e))%nat
        with (insert_num s.1 token_ids blocks) by lia.
      etrans; [apply Nat.mul_le_mono_r, Nat.le_min_l|].
      rewrite Nat.mul_comm. apply Nat.Div0.mul_div_le.
    - left. lia.
    - lia. }
  intros [[blocks' local'] keys'] s' (Hok' & Hr & Hins & Hl). simpl in *.
  unfold splice, pc_modify. wp_steps. split; [split; simpl|].
  - rewrite app_nil_r. eapply pc_ok_irrel; [..|exact (proj1 Hok')]; done.
  - unfold pc_handles in *. simpl. rewrite app_nil_r. exact (proj2 Hok').
  - split; [by rewrite Hr|]. split; [exact Hins|].
    unfold pc_handles in *. simpl. by rewrite app_nil_r.
Qed.

Lemma insert_blocks_loop_ok bs now local keys s hs :
  pcw_ok s local hs → hrefs bs ⊆ hs → Forall (λ b, is_valid b = true → managed b) bs →
  Z.of_nat (length (pc_handles s.1 local ++ hs) + length bs) < 2 ^ 32 →
  wp (insert_blocks_loop bs now local keys)
     (λ r s', pcw_ok s' r.1 hs ∧ extends s.1 s'.1 ∧ mgr s'.2 = mgr s.2 ∧
        grown s.1 (λ b, b ∈ bs ∧ is_valid b = true) s'.1 ∧
        ∀ b, b ∈ bs → is_valid b = true → is_Some (find_addr s'.1 (hash_value_ b))) s.
Proof.
  revert local keys s. induction bs as [|b bs IH]; intros local keys s Hok Hsub Hman Hroom; simpl.
  { apply wp_ret. split; [done|]. split; [reflexivity|]. split; [done|].
    split; [apply grown_refl|]. by intros b ?%elem_of_nil. }
  apply Forall_cons in Hman as [Hb Hman]. rewrite hrefs_cons in Hsub. simpl in Hroom.
  destruct (is_valid b) eqn:Hv; [|].
  2: { eapply wp_mono; [apply IH; [done|set_solver|done|lia]|].
       intros r s' (? & ? & ? & Hg & Hf). do 3 (split; [done|]). split.
       - eapply grown_mono; [done|]. set_solver.
       - intros b' [->|]%elem_of_cons; [congruence|auto]. }
  specialize (Hb eq_refl).
  eapply wp_seq.
  { apply (insert_one_ok (hash_value_ b) b now local keys s hs); try done; [set_solver|].
    rewrite length_app in *. lia. }
  intros [local1 keys1] s1 (Hok1 & Hext1 & Hm1 & Hl1 & _ & Hg1 & a & nd & Ha & Hnd & _). simpl in *.
  eapply wp_mono; [apply IH; [done|set_solver|done|rewrite length_app in *; lia]|].
  intros r s' (Hok' & Hext' & ? & Hg' & Hf). split; [done|]. split; [by etrans|].
  split; [congruence|]. split.
  - eapply grown_mono; [by eapply grown_trans|]. set_solver.
  - intros b' [->|]%elem_of_cons; [|auto]. intros _. exists a.
    by eapply (extends_find s1.1 s'.1); [done|apply Hok1|apply Hok'|..].
Qed.

Lemma insert_blocks_ok bs now s hs :
  pcw_ok s [] hs → hrefs bs ⊆ hs → Forall (λ b, is_valid b = true → managed b) bs →
  Z.of_nat (length (pc_handles s.1 [] ++ hs) + length bs) < 2 ^ 32 →
  wp (insert_blocks bs now)
     (λ r s', pcw_ok s' [] hs ∧ r.1 = (length bs * block_size_ s.1)%nat ∧
              extends s.1 s'.1 ∧ mgr s'.2 = mgr s.2 ∧
              grown s.1 (λ b, b ∈ bs ∧ is_valid b = true) s'.1 ∧
              ∀ b, b ∈ bs → is_valid b = true → is_Some (find_addr s'.1 (hash_value_ b))) s.
Proof.
  intros Hok Hsub Hman Hroom. unfold insert_blocks. eapply wp_seq; [by apply insert_blocks_loop_ok|].
  intros [local keys] s' (Hok' & Hext & Hm & Hg & Hf). simpl in *.
  unfold splice, pc_modify, pc_get. wp_steps. split; [split; simpl|].
  - rewrite app_nil_r. eapply pc_ok_irrel; [..|exact (proj1 Hok')]; done.
  - unfold pc_handles in *. simpl. rewrite app_nil_r. exact (proj2 Hok').
  - split; [|split; [exact Hext|done]]. destruct Hext as [Hb _]. simpl. by rewrite Hb.
Qed.

(** [num_blocks()] never fails its check. *)
Lemma num_blocks_ok s hs :
  pcw_ok s [] hs → wp num_blocks (λ r s', s' = s ∧ r = Z.of_nat (length (lru_lst_ s.1))) s.
Proof.
  intros [Hpc _]. rewrite app_nil_r in Hpc. unfold num_blocks, pc_get. wp_steps.
  assert (base.size (cached_blocks_ s.1) = length (lru_lst_ s.1)) as Hsz.
  { rewrite <-size_dom. assert (NoDup (lru_lst_ s.1)) as Hnd by apply (pk_nodup _ _ Hpc).
    assert (dom (cached_blocks_ s.1) ≡ list_to_set (C := gset (Z * list Z))
      ((λ b, ukey (hash_value_ b)) <$> blocks_at (nodes s.1) (lru_lst_ s.1))) as ->.
    { intros k. rewrite elem_of_dom, elem_of_list_to_set, list_elem_of_fmap. split.
      - intros [a Ha]. destruct (pk_find _ _ Hpc _ _ Ha) as (n & Hn & <-). exists (block n).
        split; [done|]. unfold blocks_at. apply list_elem_of_omap. exists a. rewrite Hn.
        split; [|done]. apply (pk_nodes _ _ Hpc). eauto.
      - intros (b & -> & Hb). unfold blocks_at in Hb. apply list_elem_of_omap in Hb as (a & Ha & Hb).
        destruct (nodes s.1 !! a) as [n|] eqn:Hn; simplify_eq/=.
        exists a. by apply (pk_cached _ _ Hpc). }
    rewrite size_list_to_set.
    - rewrite length_fmap. assert (∀ a, a ∈ lru_lst_ s.1 → is_Some (nodes s.1 !! a)) as Hall
        by (intros; by apply (pk_nodes _ _ Hpc)).
      clear Hpc Hnd. induction (lru_lst_ s.1) as [|a l IH]; [done|].
      destruct (Hall a) as [n Hn]; [set_solver|].
      rewrite (blocks_at_cons _ _ _ _ Hn). simpl. f_equal. apply IH. set_solver.
    - assert (∀ a n, nodes s.1 !! a = Some n →
        cached_blocks_ s.1 !! ukey (hash_value_ (block n)) = Some a) as Hc by apply (pk_cached _ _ Hpc).
      clear Hpc. induction Hnd as [|a l Ha Hnd IH]; [constructor|].
      rewrite blocks_at_unfold. destruct (nodes s.1 !! a) as [n|] eqn:Hn; [|exact IH].
      simpl. apply NoDup_cons. split; [|exact IH]. rewrite list_elem_of_fmap.
      intros (b & Hb & Hin). unfold blocks_at in Hin. apply list_elem_of_omap in Hin as (a' & Ha' & Hb').
      destruct (nodes s.1 !! a') as [n'|] eqn:Hn'; [|done]. simpl in Hb'. injection Hb' as <-.
      apply Hc in Hn as E1. apply Hc in Hn' as E2. rewrite Hb in E1. congruence. }
  apply wp_check; [|by apply wp_ret; rewrite (pk_num _ _ Hpc)].
  apply Z.eqb_eq. by rewrite (pk_num _ _ Hpc), Hsz.
Qed.

(** Where the hits of a list of keys stop. *)
Lemma hits_prefix pc l ks :
  pc_ok pc l →
  let r := blocks_at (nodes pc) (hits pc ks) in
  (length r ≤ length ks)%nat ∧
  (∀ i b, r !! i = Some b → ∃ k a n,
     ks !! i = Some k ∧ find_addr pc k = Some a ∧ nodes pc !! a = Some n ∧ block n = b) ∧
  (∀ k, ks !! length r = Some k → find_addr pc k = None).
Proof.
  intros Hok. induction ks as [|k ks IH]; simpl; [done|].
  destruct (find_addr pc k) as [a|] eqn:Ha; simpl.
  2: { split; [lia|]. split; [done|]. by intros ? [= <-]. }
  destruct (pk_find _ _ Hok _ _ Ha) as (n & Hn & _). rewrite (blocks_at_cons _ _ _ _ Hn). simpl.
  destruct IH as (IH1 & IH2 & IH3). split; [lia|]. split; [|done].
  intros [|i] b Hb; simplify_eq/=; [by exists k, a, n|by apply IH2].
Qed.

(** Keys that do not collide hit distinct nodes. *)
Lemma hits_NoDup pc l ks : pc_ok pc l → NoDup (ukey <$> ks) → NoDup (hits pc ks).
Proof.
  intros Hok. induction ks as [|k ks IH]; simpl; [constructor|].
  intros [Hk Hnd]%NoDup_cons. destruct (find_addr pc k) as [a|] eqn:Ha; [|constructor].
  apply NoDup_cons. split; [|by apply IH]. intros Hin. apply Hk. clear IH Hnd Hk.
  destruct (pk_find _ _ Hok _ _ Ha) as (n & Hn & <-).
  induction ks as [|k' ks IH]; simpl in *; [set_solver|].
  destruct (find_addr pc k') as [a'|] eqn:Ha'; [|set_solver].
  apply elem_of_cons in Hin as [->|Hin]; [|right; by apply IH].
  destruct (pk_find _ _ Hok _ _ Ha') as (n' & Hn' & <-). simplify_eq. by left.
Qed.

Lemma hits_blocks pc ks bs :
  length ks = length bs →
  (∀ i k b, ks !! i = Some k → bs !! i = Some b →
     ∃ a n, find_addr pc k = Some a ∧ nodes pc !! a = Some n ∧ block n = b) →
  blocks_at (nodes pc) (hits pc ks) = bs.
Proof.
  revert bs. induction ks as [|k ks IH]; intros [|b bs] Hlen Hall; simplify_eq/=; [done|].
  destruct (Hall O k b eq_refl eq_refl) as (a & n & Ha & Hn & Hb).
  rewrite Ha, (blocks_at_cons _ _ _ _ Hn), Hb. f_equal. apply IH; [done|].
  intros i. apply (Hall (Datatypes.S i)).
Qed.

(** C6: a prefix that has been inserted is found again: with fresh, pairwise
    distinct keys, [match] on the same tokens returns the inserted blocks, with
    the hashes [insert] gave them, and keeps every invariant. *)
Theorem insert_then_match token_ids blocks now s hs :
  pcw_ok s [] hs → valid_blocks blocks → hrefs blocks ⊆ hs →
  (0 < length token_ids / block_size_ s.1 ≤ length blocks)%nat →
  NoDup (ukey <$> insert_keys_of s.1 token_ids blocks 0) →
  Forall (λ k, find_addr s.1 k = None) (insert_keys_of s.1 token_ids blocks 0) →
  Z.of_nat (length (pc_handles s.1 [] ++ hs) + length token_ids + 2 * length blocks) < 2 ^ 32 →
  wp (insert token_ids blocks 0 now ≫= λ _, match_ token_ids [])
     (λ r s', pcw_ok s' [] (hrefs r ++ hs) ∧
        r = take (length token_ids / block_size_ s.1)
              (hashed 0 (insert_keys_of s.1 token_ids blocks 0) blocks)) s.
Proof.
  intros Hok Hv Hsub Hn Hnd Hfresh Hroom.
  assert (insert_num s.1 token_ids blocks = length token_ids / block_size_ s.1)%nat as Hnum
    by (unfold insert_num; lia).
  pose proof (insert_ok token_ids blocks 0 now s hs Hok Hv Hsub) as Hins. cbv zeta in Hins.
  rewrite Hnum, decide_False in Hins by lia.
  set (ks := insert_keys_of s.1 token_ids blocks 0) in *.
  assert (length ks = length token_ids / block_size_ s.1)%nat as Hks.
  { unfold ks, insert_keys_of. rewrite chain_hash_length. unfold chunks.
    rewrite length_fmap, length_seq. lia. }
  eapply wp_seq; [apply Hins; lia|]. clear Hins.
  intros r1 s1 (Hok1 & _ & ([Hbs _] & _ & _ & _ & Hlk) & Hgrow).
  eapply wp_mono.
  { apply (match_ok token_ids [] s1 hs Hok1); [set_solver|]. rewrite length_app in *. simpl. lia. }
  intros r s' (Hok' & Hr & _). split; [done|]. rewrite Hr, Hbs, decide_False by lia.
  simpl. assert (match_hits s1.1 token_ids [] = hits s1.1 ks) as ->.
  { unfold match_hits, ks, insert_keys_of, prev_key. simpl. by rewrite Hnum, Hbs. }
  apply hits_blocks.
  - rewrite Hks, length_take, length_hashed. lia.
  - intros i k b Hi Hb. apply lookup_take_Some in Hb as [Hb Hlt].
    change i with (0 + i)%nat in Hb. rewrite (hashed_lookup 0 ks blocks i k Hi) in Hb. simpl in Hb.
    destruct (blocks !! i) as [b0|] eqn:Hb0; simplify_eq/=.
    destruct (Hlk i k b0 Hi Hb0) as (a & n & Ha & Hna & Himp).
    exists a, n. split; [done|]. split; [done|]. apply Himp; [done|].
    rewrite Forall_forall in Hfresh. apply Hfresh. by eapply list_elem_of_lookup_2.
Qed.

(** a lookup by non-colliding keys moves exactly the entries it hits to the recently
    used end of the LRU list, the first block of the prefix last, so that eviction (from
    the front) takes the later blocks of a prefix before the earlier ones; the entries
    themselves do not change. *)
Theorem match_reorders_lru token_ids s hs :
  pcw_ok s [] hs → (0 < length token_ids / block_size_ s.1)%nat →
  Z.of_nat (length (pc_handles s.1 [] ++ hs) + length token_ids) < 2 ^ 32 →
  let keys := chain_hash None
    (chunks (block_size_ s.1) token_ids 0 (length token_ids / block_size_ s.1)) in
  NoDup (ukey <$> keys) →
  wp (match_ token_ids [])
     (λ _ s', lru_lst_ s'.1 = filter (λ a, a ∉ hits s.1 keys) (lru_lst_ s.1) ++ reverse (hits s.1 keys) ∧
        nodes s'.1 = nodes s.1 ∧ cached_blocks_ s'.1 = cached_blocks_ s.1) s.
Proof.
  intros Hok Hn Hroom keys Hnd. pose proof Hok as [Hpc _].
  eapply wp_mono.
  { apply (match_ok token_ids [] s hs Hok); [apply list_subseteq_nil|simpl; lia]. }
  intros r s' (_ & _ & Hl & Hnodes & Hc & _). split; [|done]. rewrite decide_False in Hl by lia.
  assert (match_hits s.1 token_ids [] = hits s.1 keys) as Hh.
  { unfold match_hits, keys, prev_key. simpl. by rewrite Nat.sub_0_r. }
  rewrite Hl, Hh. apply lru_update_hits. by eapply hits_NoDup.
Qed.

(** C29: [evict(n)] drops the first [n] entries in LRU order whose block is not shared, no
    other, reports how many, and falls short of [n] only when it dropped every entry that
    is not shared. *)
Theorem evict_lru n s hs :
  pcw_ok s [] hs →
  let unshared := filter (λ a, evictable s a = true) (lru_lst_ s.1) in
  wp (evict n)
     (λ r s', pcw_ok s' [] hs ∧ r.1 = length (take n unshared) ∧
        lru_lst_ s'.1 = filter (λ a, a ∉ take n unshared) (lru_lst_ s.1) ∧
        (∀ a, nodes s'.1 !! a = if decide (a ∈ take n unshared) then None else nodes s.1 !! a) ∧
        ((r.1 < n)%nat → ∀ a, a ∈ lru_lst_ s'.1 → evictable s a = false)) s.
Proof.
  intros Hok unshared. eapply wp_mono; [by apply (evict_ok n s hs)|].
  intros r s' (Hok' & (Hl & Hn & _) & Hr). unfold victims in *. fold unshared in Hl, Hn, Hr.
  split; [done|]. split; [done|]. split; [done|]. split; [done|].
  intros Hlt a Ha. rewrite Hl in Ha. apply list_elem_of_filter in Ha as [Ha Hin].
  rewrite Hr, length_take in Hlt. rewrite take_ge in Ha by lia.
  destruct (evictable s a) eqn:E; [|done]. exfalso. apply Ha. unfold unshared.
  by apply list_elem_of_filter.
Qed.
End verified.
