(* ===== verification/ThreadPool.v ===== *)
(** The thread pool: [core/util/threadpool.h] and [threadpool.cpp].

    One FIFO queue per worker; [schedule] deals the tasks round robin through an
    atomic index, [schedule_with_tid] names the worker.  A worker pops one task at
    a time and ends on the null task.  CPU binding and the start barrier are not
    modelled.

    [schedule] is a call of it alone.  Calls from several threads interleave in
    [client_step], where the load of the index, the compare-exchange and the push to the
    queue are steps of their own. *)

From S2P Require Import Prelude.
From stdpp Require Import base list sets strings.
From Stdlib Require Import Lia PeanoNat.

Section pool.
Context {T : Type}.

(** [None] is the null runnable, the signal to exit.  [ran] lists what each
    worker has run, [exited] the workers that have left their loop. *)
Record ThreadPool := mkThreadPool {
  queues_ : list (list (option T));
  index_ : nat;
  ran : list (list T);
  exited : list bool;
}.

Definition ThreadPool_new (num_threads : nat) : ThreadPool :=
  mkThreadPool (replicate num_threads []) 0 (replicate num_threads [])
    (replicate num_threads false).

Definition push (i : nat) (r : option T) (p : ThreadPool) : ThreadPool :=
  mkThreadPool (alter (λ q, q ++ [r]) i (queues_ p)) (index_ p) (ran p) (exited p).
Definition set_index (i : nat) (p : ThreadPool) : ThreadPool :=
  mkThreadPool (queues_ p) i (ran p) (exited p).

(** [schedule], when no other call changes the index between its load and the
    compare-exchange, which then succeeds: the index of the queue, or [-1] for a null task. *)
Definition schedule (runnable : option T) : prog ThreadPool Z :=
  match runnable with
  | None => mret (-1)%Z
  | Some r =>
      get ≫= λ p,
      let current := index_ p in
      if decide (length (queues_ p) = 0) then undef "modulo by zero"
      else
        modify (set_index ((current + 1) mod length (queues_ p))) ≫= λ _,
        at_ (queues_ p) current ≫= λ _,
        modify (push current (Some r)) ≫= λ _,
        mret (Z.of_nat current)
  end.

Definition schedule_with_tid (runnable : option T) (tid : nat) : prog ThreadPool unit :=
  match runnable with
  | None => mret ()
  | Some r => get ≫= λ p, at_ (queues_ p) tid ≫= λ _, modify (push tid (Some r))
  end.

(** One turn of the loop of worker [i]; a worker blocks on an empty queue. *)
Definition internal_loop_step (i : nat) (p : ThreadPool) : ThreadPool :=
  match queues_ p !! i, exited p !! i with
  | Some (None :: q), Some false =>
      mkThreadPool (<[i := q]> (queues_ p)) (index_ p) (ran p) (<[i := true]> (exited p))
  | Some (Some r :: q), Some false =>
      mkThreadPool (<[i := q]> (queues_ p)) (index_ p)
        (alter (λ l, l ++ [r]) i (ran p)) (exited p)
  | _, _ => p
  end.

(** [~ThreadPool]: one null task per worker (the joins are the workers' steps) *)
Definition ThreadPool_destroy : prog ThreadPool unit :=
  get ≫= λ p, for_each (seq 0 (length (queues_ p))) (λ i, modify (push i None)).

(** *** Calls of [schedule] from several threads *)

(** Where a call of [schedule] is: at the load of the index, at the compare-exchange with the
    index it has read, or at the push to the queue it has claimed *)
Inductive Call := Loading (r : T) | Exchanging (r : T) (current : nat) | Pushing (r : T) (current : nat).
(** A thread with the tasks it still has to submit, one call after the other *)
Record Client := mkClient { todo : list T; in_call : option Call }.
End pool.
Arguments ThreadPool T : clear implicits.
Arguments Call T : clear implicits.
Arguments Client T : clear implicits.

Section clients.
Context {T : Type}.

(** The pool, whose tasks carry the thread that submits them, and the threads; [claims] lists
    the tasks in the order of their successful compare-exchanges. *)
Record PoolRun := mkPoolRun {
  run_pool : ThreadPool (nat * T);
  clients : list (Client T);
  claims : list (nat * T);
}.
Definition PoolRun_new (num_threads : nat) (todos : list (list T)) : PoolRun :=
  mkPoolRun (ThreadPool_new num_threads) ((λ l, mkClient l None) <$> todos) [].
Definition set_run_pool (p : ThreadPool (nat * T)) (s : PoolRun) : PoolRun := mkPoolRun p (clients s) (claims s).
Definition set_client (t : nat) (c : Client T) (s : PoolRun) : PoolRun :=
  mkPoolRun (run_pool s) (<[t := c]> (clients s)) (claims s).
Definition add_claim (x : nat * T) (s : PoolRun) : PoolRun :=
  mkPoolRun (run_pool s) (clients s) (claims s ++ [x]).

(** One atomic step of the thread [t]; [spurious] tells that [compare_exchange_weak] fails
    although the index is the expected one. *)
Definition client_step (t : nat) (spurious : bool) : prog PoolRun unit :=
  get ≫= λ s,
  match clients s !! t with
  | None => mret ()
  | Some c =>
      let at_call k := set_client t (mkClient (todo c) k) in
      match in_call c with
      | None =>
          match todo c with
          | [] => mret ()
          | r :: rest => modify (set_client t (mkClient rest (Some (Loading r))))
          end
      | Some (Loading r) =>
          if decide (length (queues_ (run_pool s)) = 0) then undef "modulo by zero"
          else modify (at_call (Some (Exchanging r (index_ (run_pool s)))))
      | Some (Exchanging r current) =>
          if negb spurious && bool_decide (index_ (run_pool s) = current) then
            let next := (current + 1) mod length (queues_ (run_pool s)) in
            modify (set_run_pool (set_index next (run_pool s))) ≫= λ _,
            modify (add_claim (t, r)) ≫= λ _,
            modify (at_call (Some (Pushing r current)))
          else modify (at_call (Some (Loading r)))
      | Some (Pushing r current) =>
          at_ (queues_ (run_pool s)) current ≫= λ _,
          modify (set_run_pool (push current (Some (t, r)) (run_pool s))) ≫= λ _,
          modify (at_call None)
      end
  end.
(** An interleaving: whose turn it is, a thread or a worker *)
Inductive turn := ClientTurn (t : nat) (spurious : bool) | WorkerTurn (i : nat).
Definition run_turn (a : turn) : prog PoolRun unit :=
  match a with
  | ClientTurn t spurious => client_step t spurious
  | WorkerTurn i => modify (λ s, set_run_pool (internal_loop_step i (run_pool s)) s)
  end.
End clients.
Arguments PoolRun T : clear implicits.

Section pool_facts.
Context {T : Type}.
Implicit Types (p : ThreadPool T) (rs : list T).

(** What worker [i] has run and has still to run, in order. *)
Definition work (i : nat) p : list T :=
  (default [] (ran p !! i)) ++ omap id (default [] (queues_ p !! i)).

Record pool_ok (n : nat) p : Prop := {
  po_pos : 0 < n;
  po_queues : length (queues_ p) = n;
  po_ran : length (ran p) = n;
  po_exited : length (exited p) = n;
  po_index : index_ p < n;
}.

Lemma work_push i j r p :
  i < length (queues_ p) →
  work j (push i (Some r) p) = work j p ++ (if decide (i = j) then [r] else []).
Proof.
  intros Hi. unfold work. simpl. case_decide as Hij.
  - subst. rewrite list_lookup_alter_eq.
    destruct (lookup_lt_is_Some_2 _ _ Hi) as [q Hq]. rewrite Hq. simpl.
    by rewrite omap_app, app_assoc.
  - by rewrite list_lookup_alter_ne, app_nil_r.
Qed.

Lemma schedule_step n p r :
  pool_ok n p →
  wp (schedule (Some r)) (λ a p', pool_ok n p' ∧ a = Z.of_nat (index_ p) ∧
    index_ p' = (index_ p + 1) mod n ∧
    ∀ i, work i p' = work i p ++ (if decide (i = index_ p) then [r] else [])) p.
Proof.
  intros [Hn Hq Hr He Hi]. unfold schedule. wp_steps. rewrite Hq, decide_False by lia.
  wp_steps. destruct (lookup_lt_is_Some_2 (queues_ p) (index_ p)) as [q Hlk]; [lia|].
  eapply wp_at; [done|]. wp_steps. split; [|split; [done|split; [done|]]].
  - constructor; simpl; rewrite ?length_alter; try done. apply Nat.mod_upper_bound. lia.
  - intros i. rewrite work_push by (simpl; lia).
    change (work i (set_index _ p)) with (work i p). f_equal. by repeat case_decide.
Qed.

(** A worker's turn moves a task from its queue to its log: the order of the
    work is that of the submissions. *)
Lemma internal_loop_step_work n p i j :
  pool_ok n p → pool_ok n (internal_loop_step i p) ∧ work j (internal_loop_step i p) = work j p.
Proof.
  intros [Hn Hq Hr He Hi]. unfold internal_loop_step.
  destruct (queues_ p !! i) as [[|[r|] q]|] eqn:Hlk, (exited p !! i) as [[]|] eqn:Hex;
    try (split; [constructor|]; done).
  - split; [constructor; simpl; rewrite ?length_insert, ?length_alter; done|].
    unfold work. simpl. destruct (decide (i = j)) as [<-|Hne].
    + rewrite list_lookup_alter_eq, Hlk. apply lookup_lt_Some in Hlk.
      rewrite list_lookup_insert_eq by done.
      destruct (lookup_lt_is_Some_2 (ran p) i) as [l Hl]; [lia|]. rewrite Hl. simpl.
      by rewrite <-app_assoc.
    + by rewrite list_lookup_alter_ne, list_lookup_insert_ne by done.
  - split; [constructor; simpl; rewrite ?length_insert; done|].
    unfold work. simpl. destruct (decide (i = j)) as [<-|Hne].
    + rewrite Hlk. apply lookup_lt_Some in Hlk. by rewrite list_lookup_insert_eq.
    + by rewrite list_lookup_insert_ne by done.
Qed.

(** The tasks at positions [i], [i + n], [i + 2n], ... of [rs]. *)
Definition dealt (n i start : nat) rs : list T :=
  (filter (λ x, x.1 mod n = i) (imap (λ k r, (start + k, r)) rs)).*2.

Lemma dealt_cons n i start r rs :
  dealt n i start (r :: rs) =
    (if decide (start mod n = i) then [r] else []) ++ dealt n i (S start) rs.
Proof.
  unfold dealt. rewrite imap_cons, filter_cons. simpl. rewrite Nat.add_0_r.
  rewrite (imap_ext _ (λ k r, (S start + k, r))) by (intros; simpl; f_equal; lia).
  by repeat case_decide.
Qed.
Lemma dealt_ext n i s1 s2 rs : s1 mod n = s2 mod n → dealt n i s1 rs = dealt n i s2 rs.
Proof.
  revert s1 s2. induction rs as [|r rs IH]; intros s1 s2 Heq; [done|].
  rewrite !dealt_cons, Heq. f_equal. apply IH.
  rewrite <-(Nat.add_1_r s1), <-(Nat.add_1_r s2).
  by rewrite Nat.Div0.add_mod, Heq, <-Nat.Div0.add_mod.
Qed.
Lemma dealt_all start rs : dealt 1 0 start rs = rs.
Proof.
  revert start. induction rs as [|r rs IH]; intros start; [done|].
  rewrite dealt_cons, decide_True by apply Nat.mod_1_r. simpl. by rewrite IH.
Qed.

Definition schedule_all rs : prog (ThreadPool T) unit :=
  for_each rs (λ r, schedule (Some r) ≫= λ _, mret ()).

Lemma schedule_all_ok n p rs :
  pool_ok n p →
  wp (schedule_all rs) (λ _ p', pool_ok n p' ∧
    ∀ i, i < n → work i p' = work i p ++ dealt n i (index_ p) rs) p.
Proof.
  unfold schedule_all. revert p. induction rs as [|r rs IH]; intros p Hok; simpl.
  { apply wp_ret. split; [done|]. intros. by rewrite app_nil_r. }
  wp_steps. eapply wp_mono; [by apply schedule_step|].
  intros a p1 (Hok1 & _ & Hidx & Hw). wp_steps. eapply wp_mono; [by apply IH|].
  intros _ p' [Hok' Hw']. split; [done|]. intros i Hi.
  rewrite Hw', Hw by done. rewrite <-app_assoc, dealt_cons. f_equal.
  rewrite (Nat.mod_small (index_ p)) by apply Hok. f_equal.
  - by repeat case_decide; subst.
  - apply dealt_ext. by rewrite Hidx, Nat.add_1_r, Nat.Div0.mod_mod.
Qed.

(** *** Runs: submissions and the workers' turns in any order *)

Inductive pool_step := Submit (r : T) | Turn (i : nat).
Definition pool_do (a : pool_step) : prog (ThreadPool T) unit :=
  match a with
  | Submit r => schedule (Some r) ≫= λ _, mret ()
  | Turn i => modify (internal_loop_step i)
  end.
Definition submitted (tr : list pool_step) : list T :=
  omap (λ a, match a with Submit r => Some r | Turn _ => None end) tr.

(** No worker has been told to stop. *)
Definition pool_open p : Prop :=
  (∀ i q, queues_ p !! i = Some q → None ∉ q) ∧ (∀ i b, exited p !! i = Some b → b = false).

Lemma schedule_open p r : pool_open p → post (schedule (Some r)) (λ _ p', pool_open p') p.
Proof.
  intros [Hq He]. unfold schedule. post_steps. case_decide; [done|]. post_steps.
  apply post_at. intros q Hlk. post_steps. split; [|done]. intros j q' Hj. simpl in Hj.
  destruct (decide (j = index_ p)) as [->|Hne].
  - rewrite list_lookup_alter_eq in Hj. destruct (queues_ p !! index_ p) as [q0|] eqn:E; [|done].
    injection Hj as <-. specialize (Hq _ _ E). rewrite elem_of_app. set_solver.
  - rewrite list_lookup_alter_ne in Hj by done. by eapply Hq.
Qed.
Lemma turn_open i p : pool_open p → pool_open (internal_loop_step i p).
Proof.
  intros [Hq He]. unfold internal_loop_step.
  destruct (queues_ p !! i) as [[|[r|] q]|] eqn:Hlk, (exited p !! i) as [[]|] eqn:Hex; try done.
  - split; [|done]. simpl. intros j q' Hj. apply list_lookup_insert_Some in Hj as [(<- & <- & _)|[_ Hj]].
    + specialize (Hq _ _ Hlk). set_solver.
    + by eapply Hq.
  - exfalso. specialize (Hq _ _ Hlk). set_solver.
Qed.

Lemma pool_run_ok n tr p :
  pool_ok n p → pool_open p →
  wp (for_each tr pool_do) (λ _ p', pool_ok n p' ∧ pool_open p' ∧
    ∀ i, i < n → work i p' = work i p ++ dealt n i (index_ p) (submitted tr)) p.
Proof.
  revert p. induction tr as [|a tr IH]; intros p Hok Hop; simpl.
  { apply wp_ret. split; [done|]. split; [done|]. intros. by rewrite app_nil_r. }
  destruct a as [r|j]; simpl.
  - wp_steps. eapply wp_mono; [apply (wp_post _ _ _ _ (schedule_step n p r Hok) (schedule_open p r Hop))|].
    intros a p1 [(Hok1 & _ & Hidx & Hw) Hop1]. apply wp_ret.
    eapply wp_mono; [by apply IH|]. intros _ p' (Hok' & Hop' & Hw').
    split; [done|]. split; [done|]. intros i Hi.
    rewrite Hw', Hw by done. rewrite <-app_assoc, dealt_cons. f_equal.
    rewrite (Nat.mod_small (index_ p)) by apply Hok. f_equal.
    + by repeat case_decide; subst.
    + apply dealt_ext. by rewrite Hidx, Nat.add_1_r, Nat.Div0.mod_mod.
  - wp_steps. destruct (internal_loop_step_work n p j 0 Hok) as [Hok1 _].
    eapply wp_mono; [apply IH; [done|by apply turn_open]|]. intros _ p' (Hok' & Hop' & Hw').
    split; [done|]. split; [done|]. intros i Hi. rewrite Hw' by done.
    destruct (internal_loop_step_work n p j i Hok) as [_ ->]. f_equal.
    unfold internal_loop_step. by repeat case_match.
Qed.

Lemma new_ok n : 0 < n → pool_ok n (ThreadPool_new n) ∧ pool_open (ThreadPool_new n).
Proof.
  intros Hn. split; [constructor; simpl; rewrite ?length_replicate; done || lia|].
  split; simpl; intros i x [-> _]%lookup_replicate; set_solver.
Qed.
Lemma work_new n i : i < n → work i (ThreadPool_new n : ThreadPool T) = [].
Proof. intros Hi. unfold work. simpl. by rewrite !lookup_replicate_2. Qed.

(** *** Shutdown *)

(** Worker [i] has the tasks [q], then the null task, to go. *)
Definition draining i (l q : list T) p : Prop :=
  ran p !! i = Some l ∧ exited p !! i = Some false ∧ queues_ p !! i = Some ((Some <$> q) ++ [None]).
Definition drained i (l : list T) p : Prop :=
  ran p !! i = Some l ∧ exited p !! i = Some true.

Lemma drained_turn i j l p : drained i l p → drained i l (internal_loop_step j p).
Proof.
  intros [Hr He]. unfold internal_loop_step.
  destruct (queues_ p !! j) as [[|[r|] q]|] eqn:Hlk, (exited p !! j) as [[]|] eqn:Hex; try done.
  all: assert (j ≠ i) as Hne by congruence; split; simpl;
    rewrite ?list_lookup_alter_ne, ?list_lookup_insert_ne by done; done.
Qed.
Lemma draining_turn_ne i j l q p : i ≠ j → draining i l q p → draining i l q (internal_loop_step j p).
Proof.
  intros Hne (Hr & He & Hq). unfold internal_loop_step.
  destruct (queues_ p !! j) as [[|[r|] q']|] eqn:Hlk, (exited p !! j) as [[]|] eqn:Hex; try done.
  all: split; simpl; rewrite ?list_lookup_alter_ne, ?list_lookup_insert_ne by done; done.
Qed.
Lemma draining_turn i l q p :
  draining i l q p →
  match q with
  | [] => drained i l (internal_loop_step i p)
  | r :: q => draining i (l ++ [r]) q (internal_loop_step i p)
  end.
Proof.
  intros (Hr & He & Hq). unfold internal_loop_step. rewrite Hq, He.
  pose proof (lookup_lt_Some _ _ _ Hq). pose proof (lookup_lt_Some _ _ _ He).
  destruct q as [|r q]; simpl; unfold drained, draining; simpl.
  - by rewrite list_lookup_insert_eq.
  - by rewrite list_lookup_alter_eq, Hr, list_lookup_insert_eq by done.
Qed.
Lemma drains i turns l q p :
  draining i l q p → length q < length (filter (λ j, j = i) turns) →
  drained i (l ++ q) (foldl (λ p j, internal_loop_step j p) p turns).
Proof.
  revert l q p. induction turns as [|j turns IH]; intros l q p Hd; simpl; [lia|].
  rewrite filter_cons. case_decide as Hj; simpl.
  2: { intros Hlen. apply IH; [|done]. by apply draining_turn_ne. }
  subst j. intros Hlen. pose proof (draining_turn i l q p Hd) as Ht. destruct q as [|r q].
  - rewrite app_nil_r. clear -Ht. revert Ht. generalize (internal_loop_step i p).
    induction turns as [|k turns IH]; intros p' Ht; simpl; [done|]. apply IH. by apply drained_turn.
  - simpl in Hlen. specialize (IH (l ++ [r]) q _ Ht). rewrite <-app_assoc in IH. apply IH. lia.
Qed.

Lemma destroy_draining n p i :
  pool_ok n p → pool_open p → i < n →
  wp ThreadPool_destroy (λ _ p', ∃ l q, draining i l q p' ∧ l ++ q = work i p) p.
Proof.
  intros Hok [Hopen Hex] Hi. unfold ThreadPool_destroy. wp_steps. rewrite (po_queues _ _ Hok).
  destruct (lookup_lt_is_Some_2 (queues_ p) i) as [q Hq]; [by rewrite (po_queues _ _ Hok)|].
  destruct (lookup_lt_is_Some_2 (ran p) i) as [l Hl]; [by rewrite (po_ran _ _ Hok)|].
  destruct (lookup_lt_is_Some_2 (exited p) i) as [b Hb]; [by rewrite (po_exited _ _ Hok)|].
  rewrite (Hex _ _ Hb) in Hb.
  assert (Some <$> omap id q = q) as Hqq.
  { specialize (Hopen _ _ Hq). clear -Hopen. induction q as [|[r|] q IH]; simpl; [done| |set_solver].
    f_equal. apply IH. set_solver. }
  eapply wp_mono.
  - apply (wp_for_each (seq 0 n) _ (λ rest p', NoDup rest ∧ ran p' !! i = Some l ∧
      exited p' !! i = Some false ∧
      queues_ p' !! i = Some (if decide (i ∈ rest) then q else q ++ [None]))).
    + split; [apply NoDup_seq|]. split; [done|]. split; [done|].
      rewrite decide_True; [done|]. apply elem_of_seq. lia.
    + intros j rest p' (Hnd & Hr & He & Hqs). apply NoDup_cons in Hnd as [Hj Hnd]. wp_steps.
      split; [done|]. split; [done|]. split; [done|]. simpl. destruct (decide (j = i)) as [->|Hne].
      * rewrite list_lookup_alter_eq, Hqs. simpl. rewrite decide_True by set_solver.
        by rewrite decide_False.
      * rewrite list_lookup_alter_ne, Hqs by done. repeat case_decide; set_solver.
  - intros [] p' (_ & Hr & He & Hqs). rewrite decide_False in Hqs by set_solver.
    exists l, (omap id q). unfold draining. rewrite Hqq. split; [done|]. unfold work. by rewrite Hl, Hq.
Qed.

(** ** Properties *)

(** C31: after the destructor's signals a worker that gets one turn more than it has tasks
    left, whatever the other workers do meanwhile, has run all of its submissions (calls of
    [schedule] one after the other) in order and has left its loop: the join returns and no
    task is dropped. *)
Theorem pool_drains n tr i turns :
  0 < n → i < n → length (submitted tr) < length (filter (λ j, j = i) turns) →
  wp (for_each tr pool_do ≫= λ _, ThreadPool_destroy)
     (λ _ p, drained i (dealt n i 0 (submitted tr))
               (foldl (λ p j, internal_loop_step j p) p turns)) (ThreadPool_new n).
Proof.
  intros Hn Hi Hlen. destruct (new_ok n Hn) as [Hok Hop].
  eapply wp_seq; [by apply (pool_run_ok n)|]. intros [] p (Hok' & Hop' & Hw).
  eapply wp_mono; [by apply (destroy_draining n p i)|]. intros [] p' (l & q & Hd & Hlq).
  rewrite Hw, work_new in Hlq by done. simpl in Hlq. rewrite <-Hlq. apply drains; [done|].
  assert (length (dealt n i 0 (submitted tr)) ≤ length (submitted tr)) as Hle.
  { unfold dealt. rewrite length_fmap. etrans; [apply length_filter|]. by rewrite length_imap. }
  rewrite <-Hlq, length_app in Hle. lia.
Qed.
End pool_facts.

Section runs.
Context {T : Type}.
(** *** Interleaved calls *)

Abbreviation Run := (PoolRun T).
Implicit Types (cs : list (Client T)) (u : nat).

(** The tasks of the thread [u] *)
Definition own u (l : list (nat * T)) : list (nat * T) := filter (λ x, x.1 = u) l.
(** What the thread [t] has claimed the queue [i] for and not pushed yet *)
Definition flight (i t : nat) (c : Client T) : list (nat * T) :=
  match in_call c with
  | Some (Pushing r current) => if decide (current = i) then [(t, r)] else []
  | _ => []
  end.
Definition in_flight (i : nat) (s : Run) : list (nat * T) := concat (imap (flight i) (clients s)).
(** What a thread has still to claim a queue for *)
Definition unclaimed (c : Client T) : list T :=
  match in_call c with
  | Some (Loading r) | Some (Exchanging r _) => r :: todo c
  | _ => todo c
  end.

Lemma own_app u l1 l2 : own u (l1 ++ l2) = own u l1 ++ own u l2.
Proof. apply filter_app. Qed.
Lemma own_flight i t u c : own u (flight i t c) = if decide (t = u) then flight i t c else [].
Proof.
  unfold own, flight. destruct (in_call c) as [[]|]; try by case_decide.
  case_decide; [|by case_decide]. rewrite filter_cons, filter_nil. simpl. by case_decide.
Qed.
Lemma own_in_flight_from i o u cs :
  own u (concat (imap (λ k, flight i (o + k)) cs)) =
    if decide (o ≤ u) then default [] (flight i u <$> cs !! (u - o)) else [].
Proof.
  revert o. induction cs as [|c cs IH]; intros o; [by case_decide|].
  rewrite imap_cons. simpl. rewrite own_app, Nat.add_0_r, own_flight.
  rewrite (imap_ext _ (λ k, flight i (S o + k))) by (intros; simpl; f_equal; lia). rewrite IH.
  destruct (decide (o = u)) as [->|Hne].
  - rewrite decide_False, decide_True by lia. by rewrite Nat.sub_diag, app_nil_r.
  - destruct (decide (o ≤ u)) as [Hle|Hle]; [|by rewrite decide_False by lia].
    rewrite decide_True by lia. by replace (u - o) with (S (u - S o)) by lia.
Qed.
Lemma own_in_flight i u (s : Run) : own u (in_flight i s) = default [] (flight i u <$> clients s !! u).
Proof.
  unfold in_flight. rewrite (imap_ext _ (λ k, flight i (0 + k))) by done.
  by rewrite own_in_flight_from, decide_True, Nat.sub_0_r by lia.
Qed.
(** A step of the thread [t] changes its flight. *)
Lemma in_flight_set i t c c' (s : Run) :
  clients s !! t = Some c → in_flight i (set_client t c' s) ++ flight i t c ≡ₚ in_flight i s ++ flight i t c'.
Proof.
  intros Ht. unfold in_flight. simpl. pose proof (lookup_lt_Some _ _ _ Ht).
  rewrite <-(take_drop_middle _ _ _ Ht) at 2. rewrite insert_take_drop by done.
  rewrite !imap_app, !imap_cons, !concat_app. simpl. rewrite length_take_le, Nat.add_0_r by lia. perm.
Qed.

(** Between the steps: the index counts the claims; each queue has what was dealt to it, up to
    the pushes under way, with the tasks of each thread in its order. *)
Record run_ok (n : nat) (todos : list (list T)) (s : Run) : Prop := {
  rk_pool : pool_ok n (run_pool s);
  rk_index : index_ (run_pool s) = length (claims s) mod n;
  rk_clients u l : todos !! u = Some l →
    ∃ c, clients s !! u = Some c ∧ (own u (claims s)).*2 ++ unclaimed c = l;
  rk_claimed t c r current : clients s !! t = Some c → in_call c = Some (Pushing r current) → current < n;
  rk_own i u : i < n → own u (work i (run_pool s) ++ in_flight i s) = own u (dealt n i 0 (claims s));
  rk_all i : i < n → work i (run_pool s) ++ in_flight i s ≡ₚ dealt n i 0 (claims s);
}.

Lemma dealt_app n i start (l1 l2 : list (nat * T)) :
  dealt n i start (l1 ++ l2) = dealt n i start l1 ++ dealt  n i (start + length l1) l2.
Proof.
  revert start. induction l1 as [|r l1 IH]; intros start; simpl; [by rewrite Nat.add_0_r|].
  rewrite !dealt_cons, IH, <-app_assoc. by rewrite Nat.add_succ_r.
Qed.

Lemma dealt_snoc n i (l : list (nat * T)) x :
  dealt n i 0 (l ++ [x]) = dealt n i 0 l ++ (if decide (length l mod n = i) then [x] else []).
Proof. by rewrite dealt_app, dealt_cons, app_nil_r. Qed.
Lemma own_in_flight_set i u t c c' (s : Run) :
  clients s !! t = Some c →
  own u (in_flight i (set_client t c' s)) = if decide (u = t) then flight i t c' else own u (in_flight i s).
Proof.
  intros Ht. pose proof (lookup_lt_Some _ _ _ Ht). rewrite !own_in_flight. simpl. case_decide as Hu.
  - subst. by rewrite list_lookup_insert_eq.
  - by rewrite list_lookup_insert_ne.
Qed.
Lemma own_in_flight_at i t c (s : Run) : clients s !! t = Some c → own t (in_flight i s) = flight i t c.
Proof. intros Ht. by rewrite own_in_flight, Ht. Qed.
(** A thread moves on without a claim or a push. *)
Lemma set_client_ok n todos t c c' (s : Run) :
  run_ok n todos s → clients s !! t = Some c → unclaimed c' = unclaimed c →
  (∀ i, flight i t c = []) → (∀ i, flight i t c' = []) → (∀ r current, in_call c' ≠ Some (Pushing r current)) →
  run_ok n todos (set_client t c' s).
Proof.
  intros [Hp Hi Hc Hcl Ho Ha] Ht Hun Hf Hf' Hnp. pose proof (lookup_lt_Some _ _ _ Ht). constructor; try done.
  - intros u l Hu. destruct (Hc u l Hu) as (d & Hd & Hl). simpl. destruct (decide (t = u)) as [->|Hne].
    + rewrite list_lookup_insert_eq by done. exists c'. split; [done|]. rewrite Hun. congruence.
    + rewrite list_lookup_insert_ne by done. by exists d.
  - intros u d r current Hd Hin. simpl in Hd. apply list_lookup_insert_Some in Hd as [(<- & <- & _)|[_ Hd]].
    + by apply Hnp in Hin.
    + by eapply Hcl.
  - intros i u Hlt. rewrite own_app, (own_in_flight_set i u t c) by done. rewrite <-Ho, own_app by done. f_equal.
    case_decide; [subst; by rewrite Hf', (own_in_flight_at i t c), Hf|done].
  - intros i Hlt. rewrite <-Ha by done. apply Permutation_app_head.
    pose proof (in_flight_set i t c c' s Ht) as Hp'. by rewrite Hf, Hf', !app_nil_r in Hp'.
Qed.
(** A successful compare-exchange *)
Lemma claim_ok n todos t c r current (s : Run) :
  run_ok n todos s → clients s !! t = Some c → in_call c = Some (Exchanging r current) →
  index_ (run_pool s) = current →
  run_ok n todos (set_client t (mkClient (todo c) (Some (Pushing r current)))
    (add_claim (t, r) (set_run_pool (set_index ((current + 1) mod n) (run_pool s)) s))).
Proof.
  intros [Hp Hi Hc Hcl Ho Ha] Ht Hin Hcur. pose proof (lookup_lt_Some _ _ _ Ht).
  pose proof (po_index _ _ Hp) as Hlt. set (s1 := add_claim _ _).
  assert (∀ i, flight i t c = []) as Hf by (intros i; unfold flight; by rewrite Hin).
  assert (∀ i, in_flight i s1 = in_flight i s) as Hfl by done.
  assert (∀ i, work i (run_pool s1) = work i (run_pool s)) as Hw by done.
  assert (length (claims s) mod n = current) as Hm by congruence.
  constructor; simpl.
  - destruct Hp. constructor; simpl; try done. apply Nat.mod_upper_bound. lia.
  - rewrite length_app. simpl. by rewrite <-Hm, Nat.Div0.add_mod_idemp_l.
  - intros u l Hu. destruct (Hc u l Hu) as (d & Hd & Hl). rewrite own_app, fmap_app. unfold own at 2. rewrite filter_cons, filter_nil. simpl.
    destruct (decide (t = u)) as [->|Hne].
    + rewrite list_lookup_insert_eq by done. eexists. split; [done|]. simpl. rewrite <-Hl, <-app_assoc.
      rewrite Hd in Ht. injection Ht as ->. unfold unclaimed at 2. by rewrite Hin.
    + rewrite list_lookup_insert_ne by done. exists d. by rewrite app_nil_r.
  - intros u d r' current' Hd Hin'. apply list_lookup_insert_Some in Hd as [(<- & <- & _)|[_ Hd]].
    + injection Hin' as <- <-. lia.
    + by eapply Hcl.
  - intros i u Hi'. change (run_pool (set_client _ _ s1)) with (run_pool s1).
    rewrite own_app, (own_in_flight_set i u t c), Hw, Hfl, dealt_snoc, own_app, <-Ho, own_app, Hm by done.
    unfold flight. simpl. rewrite <-app_assoc. f_equal. destruct (decide (u = t)) as [->|Hu].
    + rewrite (own_in_flight_at i t c), Hf by done. simpl. case_decide; [|done].
      unfold own. rewrite filter_cons, filter_nil. simpl. by rewrite decide_True.
    + case_decide; [|by rewrite app_nil_r]. unfold own at 3. rewrite filter_cons, filter_nil. simpl.
      by rewrite decide_False, app_nil_r.
  - intros i Hi'. change (run_pool (set_client _ _ s1)) with (run_pool s1).
    rewrite Hw, dealt_snoc, <-Ha, Hm, <-app_assoc by done. apply Permutation_app_head.
    pose proof (in_flight_set i t c (mkClient (todo c) (Some (Pushing r current))) s1 Ht) as Hp'.
    by rewrite Hf, app_nil_r in Hp'.
Qed.
(** A push to the queue that was claimed *)
Lemma push_ok n todos t c r current (s : Run) :
  run_ok n todos s → clients s !! t = Some c → in_call c = Some (Pushing r current) →
  run_ok n todos (set_client t (mkClient (todo c) None)
    (set_run_pool (push current (Some (t, r)) (run_pool s)) s)).
Proof.
  intros [Hp Hi Hc Hcl Ho Ha] Ht Hin. pose proof (lookup_lt_Some _ _ _ Ht).
  pose proof (Hcl _ _ _ _ Ht Hin) as Hlt. set (s1 := set_run_pool _ _).
  assert (∀ i, flight i t c = if decide (current = i) then [(t, r)] else []) as Hf
    by (intros i; unfold flight; by rewrite Hin).
  assert (∀ i, in_flight i s1 = in_flight i s) as Hfl by done.
  assert (∀ i, work i (run_pool s1) = work i (run_pool s) ++ if decide (current = i) then [(t, r)] else []) as Hw.
  { intros i. apply work_push. by rewrite (po_queues _ _ Hp). }
  constructor; simpl; try done.
  - destruct Hp. constructor; simpl; rewrite ?length_alter; done.
  - intros u l Hu. destruct (Hc u l Hu) as (d & Hd & Hl). destruct (decide (t = u)) as [->|Hne].
    + rewrite list_lookup_insert_eq by done. eexists. split; [done|]. rewrite <-Hl.
      rewrite Hd in Ht. injection Ht as ->. unfold unclaimed. by rewrite Hin.
    + rewrite list_lookup_insert_ne by done. by exists d.
  - intros u d r' current' Hd Hin'. apply list_lookup_insert_Some in Hd as [(<- & <- & _)|[_ Hd]]; [done|].
    by eapply Hcl.
  - intros i u Hi'. change (run_pool (set_client _ _ s1)) with (run_pool s1).
    rewrite own_app, (own_in_flight_set i u t c), Hw, Hfl, <-Ho, !own_app, <-app_assoc by done. f_equal.
    destruct (decide (u = t)) as [->|Hu].
    + rewrite (own_in_flight_at i t c), Hf by done. case_decide; [|done].
      unfold own. rewrite filter_cons, filter_nil. simpl. by rewrite decide_True.
    + case_decide; [|done]. unfold own at 1. rewrite filter_cons, filter_nil. simpl. by rewrite decide_False.
  - intros i Hi'. change (run_pool (set_client _ _ s1)) with (run_pool s1).
    rewrite Hw, <-Ha, <-app_assoc by done. apply Permutation_app_head.
    pose proof (in_flight_set i t c (mkClient (todo c) None) s1 Ht) as Hp'.
    change (flight i t (mkClient (todo c) None)) with (@nil (nat * T)) in Hp'.
    rewrite Hf, app_nil_r in Hp'. by rewrite Permutation_app_comm.
Qed.

Lemma caller_step_ok n todos t spurious (s : Run) :
  run_ok n todos s → wp (client_step t spurious) (λ _ s', run_ok n todos s') s.
Proof.
  intros Hok. pose proof (rk_pool _ _ _ Hok) as Hp. unfold client_step. apply wp_bind, wp_get.
  destruct (clients s !! t) as [c|] eqn:Ht; [|by apply wp_ret].
  destruct (in_call c) as [[r|r current|r current]|] eqn:Hin.
  - rewrite decide_False by (rewrite (po_queues _ _ Hp); pose proof (po_pos _ _ Hp); lia).
    apply wp_modify. apply (set_client_ok n todos t c); try done.
    + unfold unclaimed. by rewrite Hin.
    + intros i. unfold flight. by rewrite Hin.
  - case_match eqn:E.
    + apply andb_true_iff in E as [_ E%bool_decide_eq_true]. rewrite (po_queues _ _ Hp).
      apply wp_bind, wp_modify, wp_bind, wp_modify, wp_modify. by apply claim_ok.
    + apply wp_modify. apply (set_client_ok n todos t c); try done.
      * unfold unclaimed. by rewrite Hin.
      * intros i. unfold flight. by rewrite Hin.
  - destruct (lookup_lt_is_Some_2 (queues_ (run_pool s)) current) as [q Hq].
    { rewrite (po_queues _ _ Hp). by eapply (rk_claimed _ _ _ Hok). }
    apply wp_bind. eapply wp_at; [done|]. apply wp_bind, wp_modify, wp_modify. by apply push_ok.
  - destruct (todo c) as [|r rest] eqn:Htd; [by apply wp_ret|]. apply wp_modify.
    apply (set_client_ok n todos t c); try done.
    + unfold unclaimed. simpl. by rewrite Hin, Htd.
    + intros i. unfold flight. by rewrite Hin.
Qed.
Lemma worker_turn_ok n todos i (s : Run) :
  run_ok n todos s → run_ok n todos (set_run_pool (internal_loop_step i (run_pool s)) s).
Proof.
  intros [Hp Hi Hc Hcl Ho Ha]. destruct (internal_loop_step_work n _ i 0 Hp) as [Hp' _].
  constructor; try done.
  - simpl. rewrite <-Hi. unfold internal_loop_step. by repeat case_match.
  - intros j u Hj. simpl. destruct (internal_loop_step_work n _ i j Hp) as [_ ->]. by apply Ho.
  - intros j Hj. simpl. destruct (internal_loop_step_work n _ i j Hp) as [_ ->]. by apply Ha.
Qed.
Lemma run_new_ok n todos : 0 < n → run_ok n todos (PoolRun_new n todos : Run).
Proof.
  intros Hn. destruct (new_ok (T := nat * T) n Hn) as [Hp _].
  assert (∀ i, in_flight i (PoolRun_new n todos : Run) = []) as Hf.
  { intros i. unfold in_flight, PoolRun_new. simpl. clear. rewrite imap_fmap.
    rewrite (imap_ext _ (λ _ _, [])) by done. induction todos; [done|]. rewrite imap_cons. simpl. done. }
  constructor; simpl; try done.
  - by rewrite Nat.Div0.mod_0_l.
  - intros u l Hu. rewrite list_lookup_fmap, Hu. by eexists.
  - intros t c r current. rewrite list_lookup_fmap. destruct (todos !! t); [|done]. by intros [= <-].
  - intros i u Hi. by rewrite Hf, work_new.
  - intros i Hi. by rewrite Hf, work_new.
Qed.
Lemma run_all_ok n todos tr (s : Run) :
  run_ok n todos s → wp (for_each tr run_turn) (λ _ s', run_ok n todos s') s.
Proof.
  revert s. induction tr as [|a tr IH]; intros s Hok; simpl; [by apply wp_ret|]. apply wp_bind.
  eapply (wp_mono _ (λ _ s', run_ok n todos s')); [|intros u s' Hs'; by apply IH]. destruct a as [t spurious|i]; simpl.
  - by apply caller_step_ok.
  - apply wp_modify. by apply worker_turn_ok.
Qed.

(** C30: any number of threads submit tasks at once, each its own [todos] one call after the
    other, and the load of the index, the compare-exchange and the push of every call
    interleave in any way with each other and with the workers' turns.  No call fails.  The
    successful compare-exchanges give one order of all submissions ([claims]), in which the
    tasks of a thread keep their order.  Worker [i] of [n] has run, has queued or is about to
    be given by a push under way exactly every [n]-th of them from the [i]-th: round robin
    across the workers, nothing lost or run twice.  And what it has run and queued of one
    thread is in that thread's order; of different threads the order may differ from
    [claims] (see [push_overtakes]). *)
Theorem pool_fifo n todos tr :
  0 < n →
  wp (for_each tr run_turn)
     (λ _ s,
        (∀ u l, todos !! u = Some l → ∃ c, clients s !! u = Some c ∧ (own u (claims s)).*2 ++ unclaimed c = l) ∧
        ∀ i, i < n →
          work i (run_pool s) ++ in_flight i s ≡ₚ dealt n i 0 (claims s) ∧
          ∀ u, own u (work i (run_pool s) ++ in_flight i s) = own u (dealt n i 0 (claims s)))
     (PoolRun_new n todos : Run).
Proof.
  intros Hn. eapply wp_mono; [by apply (run_all_ok n todos), run_new_ok|].
  intros v s Hok. cbv beta in Hok. split; [apply Hok|]. intros i Hi. split; [by apply Hok|]. intros u. by apply Hok.
Qed.
End runs.

(** Two threads and one worker: thread 0 claims the queue first, thread 1 pushes first. *)
Definition overtaking : list turn :=
  [ClientTurn 0 false; ClientTurn 1 false; ClientTurn 0 false; ClientTurn 0 true; ClientTurn 0 false;
   ClientTurn 0 false; ClientTurn 1 false; ClientTurn 1 false; ClientTurn 1 false; WorkerTurn 0;
   ClientTurn 0 false].
Example push_overtakes :
  match for_each overtaking run_turn (PoolRun_new 1 [[5]; [7]]) with
  | Done _ s => claims s = [(0, 5); (1, 7)] ∧ work 0 (run_pool s) = [(1, 7); (0, 5)]
  | _ => False
  end.
Proof. by vm_compute. Qed.
Lemma pool_fifo_witness :
  wp (for_each [ClientTurn 0 false; ClientTurn 1 false; ClientTurn 0 false; WorkerTurn 1; ClientTurn 0 false] run_turn)
     (λ _ s, ∀ i, i < 2 → work i (run_pool s) ++ in_flight i s ≡ₚ dealt 2 i 0 (claims s)) (PoolRun_new 2 [[5; 6]; [7]]).
Proof.
  eapply wp_mono; [apply (pool_fifo 2 [[5; 6]; [7]]); lia|]. intros _ s [_ Hw] i Hi. by apply Hw.
Defined.

Lemma pool_drains_witness :
  wp (for_each [Submit 5; Submit 6; Turn 1; Submit 7] pool_do ≫= λ _, ThreadPool_destroy)
     (λ _ p, drained 0 (dealt 2 0 0 [5; 6; 7])
               (foldl (λ p j, internal_loop_step j p) p [0; 1; 0; 0; 1; 0])) (ThreadPool_new 2).
Proof.
  apply (pool_drains 2 [Submit 5; Submit 6; Turn 1; Submit 7] 0 [0; 1; 0; 0; 1; 0]); [lia|lia|].
  vm_compute. lia.
Defined.
