(* ===== verification/KvEvents.v ===== *)
(** Cache events for the upload to the cluster's index:
    [core/framework/kv_cache/kv_cache_event.h], [core/util/double_buffer.h] and
    [core/framework/prefix_cache/prefix_cache_with_upload.cpp].

    Insertions and evictions are recorded by tasks of a single-threaded pool into
    the front half of a double buffer; the heartbeat swaps the halves and merges
    the back one.  The file models the sets up to the key functors of the program
    ([HashKey.ukey]), the pending tasks as a FIFO queue ([ThreadPool]), and the
    interleaving of the recorder with the heartbeat as a trace of steps. *)

From S2P Require Import Prelude HashKey.
From stdpp Require Import base gmap list strings sets.
From Stdlib Require Import ZArith Lia.
Open Scope Z_scope.

(** ** [KvCacheEvent] *)

(** An [unordered_set<XXH3Key, FixedStringKeyHash, FixedStringKeyEqual>]: the key
    kept for each class of equal keys. *)
Abbreviation keyset := (gmap (Z * list Z) key).

Record KvCacheEvent := mkKvCacheEvent {
  stored_cache : keyset;
  removed_cache : keyset;
}.

Definition KvCacheEvent_new : KvCacheEvent := mkKvCacheEvent ∅ ∅.
(** [clear()] *)
Definition clear (e : KvCacheEvent) : KvCacheEvent := mkKvCacheEvent ∅ ∅.

(** ** [DoubleBuffer] *)

Section double_buffer.
Context {T : Type}.
Record DoubleBuffer := mkDoubleBuffer { buffers_ : option T * option T; db_index_ : Z }.
Definition DoubleBuffer_new : DoubleBuffer := mkDoubleBuffer (None, None) 0.
Definition front_index (d : DoubleBuffer) : Z := db_index_ d.
Definition back_index (d : DoubleBuffer) : Z := u32 (1 - front_index d).
Definition buffer_get (i : Z) (d : DoubleBuffer) : option T :=
  if i =? 0 then (buffers_ d).1 else if i =? 1 then (buffers_ d).2 else None.
Definition buffer_set (i : Z) (t : option T) (d : DoubleBuffer) : DoubleBuffer :=
  mkDoubleBuffer (if i =? 0 then (t, (buffers_ d).2)
                  else if i =? 1 then ((buffers_ d).1, t) else buffers_ d) (db_index_ d).
Definition get_front_value (d : DoubleBuffer) : option T := buffer_get (front_index d) d.
Definition get_back_value (d : DoubleBuffer) : option T := buffer_get (back_index d) d.
Definition set_front_value (t : option T) (d : DoubleBuffer) : DoubleBuffer :=
  buffer_set (front_index d) t d.
Definition set_back_value (t : option T) (d : DoubleBuffer) : DoubleBuffer :=
  buffer_set (back_index d) t d.
Definition swap (d : DoubleBuffer) : DoubleBuffer :=
  mkDoubleBuffer (buffers_ d) (back_index d).
End double_buffer.
Arguments DoubleBuffer T : clear implicits.

(** ** [PrefixCacheWithUpload] *)

(** Its own fields: the tasks of [threadpool_] that have not run, the double
    buffer and the base class's [exited_]. *)
Record Upload := mkUpload {
  pending : list (bool * list key);
  db_kvcache_events_ : DoubleBuffer KvCacheEvent;
  exited_ : bool;
}.

Definition set_pending (q : list (bool * list key)) (u : Upload) : Upload :=
  mkUpload q (db_kvcache_events_ u) (exited_ u).
Definition set_db (d : DoubleBuffer KvCacheEvent) (u : Upload) : Upload :=
  mkUpload (pending u) d (exited_ u).

Section upload.
Context `{HashFns}.

(** [insert] of an unordered set keeps the key already there. *)
Definition set_insert (k : key) (s : keyset) : keyset :=
  match s !! ukey k with Some _ => s | None => <[ukey k := k]> s end.
Definition set_erase (k : key) (s : keyset) : keyset := delete (ukey k) s.

(** The constructor *)
Definition Upload_new : Upload :=
  mkUpload []
    (set_back_value (Some KvCacheEvent_new)
      (set_front_value (Some KvCacheEvent_new) DoubleBuffer_new)) false.

(** [save_event_async]: the task is queued with its keys. *)
Definition save_event_async (is_insert : bool) (keys : list key) (u : Upload) : Upload :=
  set_pending (pending u ++ [(is_insert, keys)]) u.

Definition record_key (is_insert : bool) (e : KvCacheEvent) (k : key) : KvCacheEvent :=
  if is_insert
  then mkKvCacheEvent (set_insert k (stored_cache e)) (set_erase k (removed_cache e))
  else mkKvCacheEvent (set_erase k (stored_cache e)) (set_insert k (removed_cache e)).

(** The body of the task *)
Definition run_event (t : bool * list key) (u : Upload) : Upload :=
  match get_front_value (db_kvcache_events_ u) with
  | None => u
  | Some front =>
      if exited_ u then u
      else set_db (set_front_value (Some (foldl (record_key t.1) front t.2))
                     (db_kvcache_events_ u)) u
  end.
(** The worker of [threadpool_] takes the oldest task. *)
Definition run_next (u : Upload) : Upload :=
  match pending u with
  | [] => u
  | t :: q => run_event t (set_pending q u)
  end.

(** [get_upload_kvcache_events]: swaps the buffers; [None] is [nullptr]. *)
Definition get_upload_kvcache_events : prog Upload (option KvCacheEvent) :=
  modify (λ u, set_db (swap (db_kvcache_events_ u)) u) ≫= λ _,
  get ≫= λ u,
  mret (if exited_ u then None else get_back_value (db_kvcache_events_ u)).

(** [event->removed_cache.merge(...); event->stored_cache.merge(...);
    events->clear()] of [BlockManagerImpl::get_merged_kvcache_event]: the new
    value of [event]. *)
Definition merge_sets (dst src : keyset) : keyset := dst ∪ src.
Definition merge_events (event : KvCacheEvent) : prog Upload KvCacheEvent :=
  get_upload_kvcache_events ≫= λ events,
  match events with
  | None => mret event
  | Some e =>
      modify (λ u, set_db (set_back_value (Some (clear e)) (db_kvcache_events_ u)) u) ≫= λ _,
      mret (mkKvCacheEvent (merge_sets (stored_cache event) (stored_cache e))
                           (merge_sets (removed_cache event) (removed_cache e)))
  end.
End upload.

(** ** What the index reconstructs *)

Section events.
Context `{HashFns}.

(** The classes of keys of a set. *)
Definition classes (s : keyset) : gset (Z * list Z) := dom s.

(** A reader that holds the view [V] applies an event: removals, then stores. *)
Definition apply_event (V : gset (Z * list Z)) (e : KvCacheEvent) : gset (Z * list Z) :=
  (V ∖ classes (removed_cache e)) ∪ classes (stored_cache e).
(** What the insertions and evictions mean, one at a time. *)
Definition replay1 (is_insert : bool) (V : gset (Z * list Z)) (k : key) : gset (Z * list Z) :=
  if is_insert then {[ukey k]} ∪ V else V ∖ {[ukey k]}.
Definition replay (V : gset (Z * list Z)) (ts : list (bool * list key)) : gset (Z * list Z) :=
  foldl (λ V t, foldl (replay1 t.1) V t.2) V ts.

Definition disjoint_event (e : KvCacheEvent) : Prop :=
  classes (stored_cache e) ## classes (removed_cache e).

Lemma store_set (x : Z * list Z) (V A B : gset (Z * list Z)) :
  A ## B → (V ∖ (B ∖ {[x]})) ∪ ({[x]} ∪ A) = {[x]} ∪ ((V ∖ B) ∪ A) ∧ {[x]} ∪ A ## B ∖ {[x]}.
Proof.
  intros Hd. split; [|set_solver]. apply set_eq. intros y.
  destruct (decide (y = x)); set_solver.
Qed.
Lemma remove_set (x : Z * list Z) (V A B : gset (Z * list Z)) :
  A ## B → (V ∖ ({[x]} ∪ B)) ∪ (A ∖ {[x]}) = ((V ∖ B) ∪ A) ∖ {[x]} ∧ A ∖ {[x]} ## {[x]} ∪ B.
Proof.
  intros Hd. split; [|set_solver]. apply set_eq. intros y.
  destruct (decide (y = x)); set_solver.
Qed.

Lemma classes_insert k s : classes (set_insert k s) = {[ukey k]} ∪ classes s.
Proof.
  unfold set_insert, classes. destruct (s !! ukey k) eqn:E.
  - assert (ukey k ∈ dom s) by (by apply elem_of_dom_2 in E). set_solver.
  - by rewrite dom_insert_L.
Qed.
Lemma classes_erase k s : classes (set_erase k s) = classes s ∖ {[ukey k]}.
Proof. unfold set_erase, classes. by rewrite dom_delete_L. Qed.

Lemma apply_record V i e k :
  disjoint_event e →
  apply_event V (record_key i e k) = replay1 i (apply_event V e) k ∧
  disjoint_event (record_key i e k).
Proof.
  unfold disjoint_event, apply_event, replay1, record_key. intros Hd.
  destruct i; cbn [stored_cache removed_cache];
    rewrite classes_insert, classes_erase; [by apply store_set|by apply remove_set].
Qed.
Lemma apply_records V i ks e :
  disjoint_event e →
  apply_event V (foldl (record_key i) e ks) = foldl (replay1 i) (apply_event V e) ks ∧
  disjoint_event (foldl (record_key i) e ks).
Proof.
  revert e. induction ks as [|k ks IH]; intros e Hd; simpl; [done|].
  destruct (apply_record V i e k Hd) as [<- Hd']. by apply IH.
Qed.

(** *** The recorder and the heartbeat *)

(** The double buffer holds [f] in front and an empty event in the back. *)
Record upload_ok (u : Upload) (f : KvCacheEvent) : Prop := {
  uo_index : db_index_ (db_kvcache_events_ u) = 0 ∨ db_index_ (db_kvcache_events_ u) = 1;
  uo_front : get_front_value (db_kvcache_events_ u) = Some f;
  uo_back : get_back_value (db_kvcache_events_ u) = Some KvCacheEvent_new;
  uo_exited : exited_ u = false;
  uo_disjoint : disjoint_event f;
}.

Ltac db_cases :=
  match goal with
  | u : Upload |- _ => destruct u as [? [[? ?] i] ?]; simpl in *
  end;
  match goal with Hi : _ ∨ _ |- _ => destruct Hi as [-> | ->] end; simpl in *;
  repeat match goal with
  | Hf : get_front_value _ = _ |- _ => unfold get_front_value, front_index in Hf; cbn in Hf
  | Hf : get_back_value _ = _ |- _ => unfold get_back_value, back_index, front_index in Hf; cbn in Hf
  end; subst.

Lemma Upload_new_ok : upload_ok Upload_new KvCacheEvent_new.
Proof. constructor; try done. by left. Qed.

Lemma save_event_ok u f i ks : upload_ok u f → upload_ok (save_event_async i ks u) f.
Proof. by intros [? ? ? ? ?]. Qed.

Lemma run_next_ok u f :
  upload_ok u f →
  ∃ f', upload_ok (run_next u) f' ∧
    ∀ V, replay (apply_event V f') (pending (run_next u)) = replay (apply_event V f) (pending u).
Proof.
  intros Hu. unfold run_next. destruct (pending u) as [|t q] eqn:Eq.
  { exists f. by rewrite Eq. }
  destruct Hu as [Hi Hf Hb He Hd].
  exists (foldl (record_key t.1) f t.2). split.
  - destruct (apply_records ∅ t.1 t.2 f Hd) as [_ Hd'].
    unfold run_event. simpl. rewrite Hf, He. constructor; simpl; try done; db_cases; done.
  - intros V. destruct (apply_records V t.1 t.2 f Hd) as [Ha _].
    unfold run_event. simpl. rewrite Hf, He. simpl. by rewrite Ha.
Qed.

(** The heartbeat takes the front event and leaves an empty one. *)
Lemma merge_events_ok u f ev :
  upload_ok u f →
  wp (merge_events ev)
     (λ r u', upload_ok u' KvCacheEvent_new ∧ pending u' = pending u ∧
        classes (stored_cache r) = classes (stored_cache ev) ∪ classes (stored_cache f) ∧
        classes (removed_cache r) = classes (removed_cache ev) ∪ classes (removed_cache f)) u.
Proof.
  intros [Hi Hf Hb He Hd]. unfold merge_events, get_upload_kvcache_events. wp_steps.
  assert (get_back_value (swap (db_kvcache_events_ u)) = Some f) as Hsw by (db_cases; done).
  simpl. rewrite He, Hsw. wp_steps. split; [|split; [done|]].
  - constructor; simpl; try done; db_cases; auto.
  - unfold classes, merge_sets. simpl. by rewrite !dom_union_L.
Qed.

(** A trace of the cache's writer, the pool's worker and the heartbeat. *)
Inductive event_step :=
  | Record_ (is_insert : bool) (keys : list key)
  | Worker
  | Heartbeat.

(** The state of the recorder and the view of the reader of the heartbeats. *)
Definition do_step (s : Upload * gset (Z * list Z)) (a : event_step)
    : Upload * gset (Z * list Z) :=
  match a with
  | Record_ i ks => (save_event_async i ks s.1, s.2)
  | Worker => (run_next s.1, s.2)
  | Heartbeat =>
      match merge_events KvCacheEvent_new s.1 with
      | Done e u => (u, apply_event s.2 e)
      | _ => s
      end
  end.
Definition run_trace := foldl do_step.

(** The events a trace records. *)
Definition recorded (tr : list event_step) : list (bool * list key) :=
  omap (λ a, match a with Record_ i ks => Some (i, ks) | _ => None end) tr.

Lemma replay_app V t1 t2 : replay V (t1 ++ t2) = replay (replay V t1) t2.
Proof. unfold replay. by rewrite foldl_app. Qed.

Lemma apply_event_new V : apply_event V KvCacheEvent_new = V.
Proof. unfold apply_event, classes. simpl. rewrite !dom_empty_L. set_solver. Qed.

(** The reader's view, once what is in front and in the queue is applied, is the
    replay of everything recorded. *)
Lemma run_trace_ok tr V0 :
  let s := run_trace (Upload_new, V0) tr in
  ∃ f, upload_ok s.1 f ∧
    replay (apply_event s.2 f) (pending s.1) = replay V0 (recorded tr).
Proof.
  induction tr as [|a tr IH] using rev_ind.
  { exists KvCacheEvent_new. split; [apply Upload_new_ok|]. simpl. by rewrite apply_event_new. }
  destruct IH as (f & Hu & Hv). unfold run_trace in *. rewrite foldl_app. simpl.
  set (s := foldl do_step (Upload_new, V0) tr) in *.
  unfold recorded in *. rewrite omap_app, replay_app, <-Hv.
  destruct a as [i ks| |]; simpl.
  - exists f. split; [by apply save_event_ok|]. by rewrite replay_app.
  - destruct (run_next_ok s.1 f Hu) as (f' & Hu' & Hr). exists f'. by rewrite Hr.
  - pose proof (merge_events_ok s.1 f KvCacheEvent_new Hu) as Hm. unfold wp in Hm.
    destruct (merge_events KvCacheEvent_new s.1) as [e u'| | |]; [|done..].
    destruct Hm as (Hu' & Hp & Hs & Hr). exists KvCacheEvent_new. simpl.
    assert (apply_event s.2 e = apply_event s.2 f) as He.
    { unfold apply_event. rewrite Hs, Hr. unfold classes. simpl. rewrite !dom_empty_L.
      by rewrite !(left_id_L ∅ (∪)). }
    split; [done|]. by rewrite Hp, apply_event_new, He.
Qed.
End events.
