(* ===== verification/BlockManager.v ===== *)
(** The block manager: [core/framework/block/block_manager.h],
    [block_manager_impl.h], [block_manager_impl.cpp] and the locked wrapper
    [concurrent_block_manager_impl.cpp].

    [Core] is the allocator proper: a stack of free ids in the first
    [num_free_blocks_] entries of [free_blocks_].  [BM] puts it together with the
    reference counters ([Blocks]), the prefix cache ([PrefixCache]) and the cache
    events ([KvEvents]).  [bm_ok s seqs] is the invariant: [seqs] are the block
    vectors held outside the manager (one per sequence or temporary), every id is
    either free or reachable from a live handle, and with the prefix cache enabled
    [num_used_blocks_] is the number of distinct blocks [seqs] hold. *)

From stdpp Require Import base gmap list strings sets.
From Stdlib Require Import ZArith Lia.
From S2P Require Import Prelude HashKey Blocks DList PrefixCache KvEvents.
Open Scope Z_scope.

(** ** The allocator *)

(** [BlockManager::Options] *)
Record Options := mkOptions {
  num_blocks_opt : Z;
  block_size_opt : Z;
  enable_prefix_cache : bool;
  enable_disagg_pd : bool;
  enable_cache_upload : bool;
}.

Record Core := mkCore {
  options_ : Options;
  num_used_blocks_ : Z;
  num_free_blocks_ : Z;
  free_blocks_ : list Z;
}.

Definition set_used (n : Z) (c : Core) : Core :=
  mkCore (options_ c) n (num_free_blocks_ c) (free_blocks_ c).
Definition set_free (n : Z) (c : Core) : Core :=
  mkCore (options_ c) (num_used_blocks_ c) n (free_blocks_ c).
Definition set_free_list (l : list Z) (c : Core) : Core :=
  mkCore (options_ c) (num_used_blocks_ c) (num_free_blocks_ c) l.

(** [num_free_blocks_.fetch_sub(1)] and the read of [free_blocks_] *)
Definition take_id : prog Core Z :=
  get ≫= λ c,
  let prev_count := num_free_blocks_ c in
  modify (set_free (u64 (prev_count - 1))) ≫= λ _,
  atZ (free_blocks_ c) (u64 (prev_count - 1)).

(** [free(block_id)] *)
Definition core_free (block_id : Z) : prog Core unit :=
  if block_id =? 0 then mret ()
  else
    get ≫= λ c,
    let prev_count := num_free_blocks_ c in
    modify (set_free (u64 (prev_count + 1))) ≫= λ _,
    check (prev_count <? Z.of_nat (length (free_blocks_ c))) "prev_count < free_blocks_.size()" ≫= λ _,
    modify (set_free_list (<[Z.to_nat prev_count := block_id]> (free_blocks_ c))).

#[export] Instance Core_owner : BlockOwner Core := {
  block_size := λ c, block_size_opt (options_ c);
  free := core_free;
}.

(** ** The manager *)

Record BM := mkBM {
  prefix_cache_ : option PrefixCache;
  upload_ : option Upload;
  world_ : World Core;
  padding_block_ : Block;
}.

Definition core (s : BM) : Core := mgr (world_ s).
Definition set_world (w : World Core) (s : BM) : BM :=
  mkBM (prefix_cache_ s) (upload_ s) w (padding_block_ s).
Definition set_padding (b : Block) (s : BM) : BM :=
  mkBM (prefix_cache_ s) (upload_ s) (world_ s) b.
Definition set_upload (u : option Upload) (s : BM) : BM :=
  mkBM (prefix_cache_ s) u (world_ s) (padding_block_ s).
Definition set_cache (p : PrefixCache * World Core) (s : BM) : BM :=
  mkBM (Some p.1) (upload_ s) p.2 (padding_block_ s).

Definition on_blocks {A} (m : prog (World Core) A) : prog BM A := zoom world_ set_world m.
Definition on_core {A} (m : prog Core A) : prog BM A := on_blocks (on_mgr m).

Section manager.
Context `{HashFns}.

(** [prefix_cache_->...] *)
Definition on_cache {A} (m : prog (PrefixCache * World Core) A) : prog BM A := λ s,
  match prefix_cache_ s with
  | None => Undef "null prefix_cache_"
  | Some pc => zoom (λ _, (pc, world_ s)) set_cache m s
  end.
(** [save_event_async] of the cache with upload; the plain cache has none. *)
Definition save_event (is_insert : bool) (keys : list key) : prog BM unit :=
  modify (λ s, set_upload (save_event_async is_insert keys <$> upload_ s) s).

(** [prefix_cache_->evict] and the two [insert]s, as the cache in use does them *)
Definition cache_evict (n : nat) : prog BM nat :=
  on_cache (evict n) ≫= λ r : nat * list key, save_event false r.2 ≫= λ _, mret r.1.
Definition cache_insert (token_ids : list Z) (blocks : list Block) (existed : nat)
    (now : Z) : prog BM (list Block) :=
  on_cache (PrefixCache.insert token_ids blocks existed now) ≫= λ r : nat * list Block * list key,
  save_event true r.2 ≫= λ _, mret r.1.2.
Definition cache_insert_blocks (blocks : list Block) (now : Z) : prog BM unit :=
  on_cache (insert_blocks blocks now) ≫= λ r : nat * list key, save_event true r.2.

Definition prefix_enabled (s : BM) : bool := enable_prefix_cache (options_ (core s)).

(** [create_prefix_cache] *)
Definition create_prefix_cache (block_size : Z) (enable_cache_upload : bool)
    : PrefixCache * option Upload :=
  (PrefixCache_new (Z.to_nat (u32 block_size)),
   if enable_cache_upload then Some Upload_new else None).

(** [Block BlockManagerImpl::allocate()] *)
Definition allocate1 : prog BM Block :=
  get ≫= λ s,
  check (0 <? num_free_blocks_ (core s)) "No more blocks available" ≫= λ _,
  on_core take_id ≫= λ i,
  on_blocks (Block_new i true).

(** The constructor *)
Definition BlockManagerImpl_new (o : Options) : prog BM unit :=
  check (0 <? num_blocks_opt o) "No blocks to allocate" ≫= λ _,
  check (0 <? block_size_opt o) "Block size must be positive" ≫= λ _,
  let pc := create_prefix_cache (block_size_opt o) (enable_cache_upload o) in
  let total_blocks := num_blocks_opt o in
  if 2 ^ 31 <=? total_blocks then undef "int32_t loop counter"
  else
    let fl := (λ i : nat, total_blocks - Z.of_nat i - 1) <$> seq 0 (Z.to_nat total_blocks) in
    put (mkBM (if enable_prefix_cache o then Some pc.1 else None)
              (if enable_prefix_cache o then pc.2 else None)
              (mkWorld ∅ 0 (mkCore o 0 total_blocks fl)) Block_default) ≫= λ _,
    allocate1 ≫= λ b,
    on_blocks (Block_move_assign false Block_default b) ≫= λ r : Block * Block,
    modify (set_padding r.1) ≫= λ _,
    check (id r.1 =? 0) "Padding block id should be 0".

(** [has_enough_blocks(uint32_t num_blocks)] *)
Definition has_enough_blocks (num_blocks : Z) : prog BM bool :=
  get ≫= λ s,
  if num_blocks <=? num_free_blocks_ (core s) then mret true
  else if negb (prefix_enabled s) then mret false
  else
    let n_blocks_to_evict := u32 (num_blocks - num_free_blocks_ (core s)) in
    cache_evict (Z.to_nat n_blocks_to_evict) ≫= λ n,
    let n_blocks_evicted := u32 (Z.of_nat n) in
    if n_blocks_evicted <? n_blocks_to_evict then mret false
    else
      get ≫= λ s,
      if num_blocks <=? num_free_blocks_ (core s) then mret true
      else on_cache PrefixCache.num_blocks ≫= λ _, mret false.

(** [allocate(size_t num_blocks)] *)
Definition allocate (num_blocks : Z) : prog BM (list Block) :=
  has_enough_blocks (u32 num_blocks) ≫= λ enough : bool,
  if negb enough then mret []
  else
    get ≫= λ s,
    check (num_blocks <=? num_free_blocks_ (core s)) "Not enough blocks available" ≫= λ _,
    repeat_each (Z.to_nat num_blocks)
      (on_core take_id ≫= λ i, on_blocks (Block_new i true)) ≫= λ blocks,
    on_core (modify (λ c, set_used (u64 (num_used_blocks_ c + num_blocks)) c)) ≫= λ _,
    mret blocks.

(** The body of the loop of [deallocate] *)
Definition release_one (b : Block) : prog BM unit :=
  on_blocks (ref_count b) ≫= λ n,
  if is_valid b && (n <=? 2) then
    get ≫= λ s,
    if num_used_blocks_ (core s) =? 0 then fatal "Block already released"
    else on_core (modify (λ c, set_used (u64 (num_used_blocks_ c - 1)) c))
  else mret ().
(** [deallocate(blocks)] *)
Definition deallocate (blocks : list Block) : prog BM unit :=
  get ≫= λ s,
  if prefix_enabled s then for_each blocks release_one
  else on_core (modify (λ c, set_used (u64 (num_used_blocks_ c - Z.of_nat (length blocks))) c)).

(** The body of the loop of [allocate_shared] *)
Definition count_shared (b : Block) : prog BM unit :=
  on_blocks (ref_count b) ≫= λ n,
  if n <=? 2 then on_core (modify (λ c, set_used (u64 (num_used_blocks_ c + 1)) c))
  else mret ().
(** [allocate_shared(tokens_ids, existed_shared_blocks)] *)
Definition allocate_shared (tokens_ids : list Z) (existed_shared_blocks : list Block)
    : prog BM (list Block) :=
  get ≫= λ s,
  if prefix_enabled s then
    on_cache (match_ tokens_ids existed_shared_blocks) ≫= λ shared_blocks,
    for_each shared_blocks count_shared ≫= λ _,
    mret shared_blocks
  else mret [].

(** The two [cache]s: the first returns the caller's vector. *)
Definition cache (token_ids : list Z) (blocks : list Block)
    (existed_shared_blocks_num : nat) (now : Z) : prog BM (list Block) :=
  get ≫= λ s,
  if prefix_enabled s then cache_insert token_ids blocks existed_shared_blocks_num now
  else mret blocks.
Definition cache_blocks (blocks : list Block) (now : Z) : prog BM unit :=
  get ≫= λ s,
  if prefix_enabled s then cache_insert_blocks blocks now else mret ().

(** [get_merged_kvcache_event(event)]: the new value of [*event] *)
Definition get_merged_kvcache_event (event : KvCacheEvent) : prog BM KvCacheEvent :=
  get ≫= λ s,
  match prefix_cache_ s, upload_ s with
  | None, _ => undef "null prefix_cache_"
  | Some _, None => mret event
  | Some _, Some u =>
      zoom (λ _, u) (λ u', set_upload (Some u')) (merge_events event)
  end.

Definition num_blocks_in_prefix_cache : prog BM Z :=
  get ≫= λ s, if prefix_enabled s then on_cache PrefixCache.num_blocks else mret 0.
Definition num_free_blocks : prog BM Z := gets (λ s, num_free_blocks_ (core s)).
Definition num_total_blocks (c : Core) : Z := u64 (Z.of_nat (length (free_blocks_ c)) - 1).
Definition num_used_blocks : prog BM Z :=
  gets (λ s, if prefix_enabled s then num_used_blocks_ (core s)
             else u64 (num_total_blocks (core s) - num_free_blocks_ (core s))).

(** The body of [~BlockManagerImpl] *)
Definition BlockManagerImpl_destroy : prog BM unit :=
  get ≫= λ s,
  check (num_free_blocks_ (core s) =? u64 (Z.of_nat (length (free_blocks_ (core s))) - 1))
        "Not all blocks have been freed".
End manager.

(** ** [ConcurrentBlockManagerImpl]: each operation under [mutex_] *)

Section concurrent.
Context `{HashFns}.
Definition concurrent_allocate (num_blocks : Z) : prog BM (list Block) := allocate num_blocks.
Definition concurrent_deallocate (blocks : list Block) : prog BM unit := deallocate blocks.
(** The second argument is not passed on. *)
Definition concurrent_allocate_shared (tokens_ids : list Z) (existed_shared_blocks : list Block)
    : prog BM (list Block) := allocate_shared tokens_ids [].
Definition concurrent_cache (token_ids : list Z) (blocks : list Block) (n : nat) (now : Z)
    : prog BM (list Block) := cache token_ids blocks n now.
End concurrent.

(** ** The allocator's contract *)

(** The ids on the free stack *)
Definition free_ids (c : Core) : list Z := take (Z.to_nat (num_free_blocks_ c)) (free_blocks_ c).

(** The ids [X] are out: the free stack holds exactly the others, padding apart. *)
Record core_owns (c : Core) (X : gset Z) : Prop := {
  cw_count : 0 ≤ num_free_blocks_ c ≤ Z.of_nat (length (free_blocks_ c));
  cw_total : 0 < Z.of_nat (length (free_blocks_ c)) < 2 ^ 31;
  cw_nodup : NoDup (free_ids c);
  cw_free : ∀ i, i ∈ free_ids c ↔ 1 ≤ i < Z.of_nat (length (free_blocks_ c)) ∧ i ∉ X;
  cw_range : ∀ i, i ∈ X → 0 ≤ i < Z.of_nat (length (free_blocks_ c));
}.

(** What [free] leaves alone *)
Definition core_frame (c c' : Core) : Prop :=
  options_ c' = options_ c ∧ num_used_blocks_ c' = num_used_blocks_ c ∧
  length (free_blocks_ c') = length (free_blocks_ c).

#[export] Instance core_frame_preorder : PreOrder core_frame.
Proof. split; [done|]. intros c1 c2 c3 (? & ? & ?) (? & ? & ?). repeat split; congruence. Qed.

Lemma free_ids_length c X :
  core_owns c X → Z.of_nat (length (free_ids c)) = num_free_blocks_ c.
Proof. intros [? ? ? ? ?]. unfold free_ids. rewrite length_take. lia. Qed.

(** The ids that are neither free nor padding *)
Lemma core_owns_num c X :
  core_owns c X →
  num_free_blocks_ c = Z.of_nat (length (free_blocks_ c)) - 1 - Z.of_nat (base.size (X ∖ {[0%Z]})).
Proof.
  intros Ho. pose proof (free_ids_length _ _ Ho) as Hl. destruct Ho as [Hc Ht Hnd Hf Hr].
  set (n := length (free_blocks_ c)) in *.
  assert (list_to_set (free_ids c) ∪ (X ∖ {[0%Z]}) =@{gset Z} list_to_set (seqZ 1 (Z.of_nat n - 1))) as Heq.
  { apply set_eq. intros i. rewrite elem_of_union, !elem_of_list_to_set, Hf, elem_of_difference,
      elem_of_singleton, elem_of_seqZ. split.
    - intros [?|[HX ?]]; [lia|]. apply Hr in HX. lia.
    - intros ?. destruct (decide (i ∈ X)); [right|left]; (split; [|done || lia]); [done|lia]. }
  assert (list_to_set (free_ids c) ## X ∖ {[0%Z]}) as Hd.
  { intros i. rewrite elem_of_list_to_set, Hf. set_solver. }
  pose proof (size_union _ _ Hd) as Hs. rewrite Heq, !size_list_to_set, length_seqZ in Hs
    by (done || apply NoDup_seqZ). lia.
Qed.

Lemma core_free_owns c X i :
  core_owns c X → i ∈ X → wp (core_free i) (λ _ c', core_owns c' (X ∖ {[i]}) ∧ core_frame c c') c.
Proof.
  intros Ho Hi. pose proof (free_ids_length _ _ Ho) as Hl. pose proof (core_owns_num _ _ Ho) as Hn.
  unfold core_free. destruct (i =? 0) eqn:E.
  { apply Z.eqb_eq in E. subst. apply wp_ret. split; [|done].
    destruct Ho as [Hc Ht Hnd Hf Hr]. constructor; try done.
    - intros j. rewrite Hf. set_solver by lia.
    - set_solver. }
  apply Z.eqb_neq in E. destruct Ho as [Hc Ht Hnd Hf Hr].
  assert (i ∈ X ∖ {[0%Z]}) as HiX by set_solver.
  assert (0 < base.size (X ∖ {[0%Z]}))%nat.
  { destruct (decide (base.size (X ∖ {[0%Z]}) = O)) as [Hz|]; [|lia].
    apply size_empty_inv in Hz. set_solver. }
  wp_steps. apply wp_check; [by apply Z.ltb_lt; lia|]. wp_steps.
  split; [|by repeat split; simpl; rewrite ?length_insert].
  assert (free_ids (set_free_list (<[Z.to_nat (num_free_blocks_ c):=i]> (free_blocks_ c))
            (set_free (u64 (num_free_blocks_ c + 1)) c)) = free_ids c ++ [i]) as Hids.
  { unfold free_ids. simpl. rewrite u64_id by lia.
    replace (Z.to_nat (num_free_blocks_ c + 1)) with (S (Z.to_nat (num_free_blocks_ c))) by lia.
    erewrite take_S_r; [|apply list_lookup_insert_eq; lia].
    f_equal. by apply take_insert_ge. }
  constructor; rewrite ?Hids; simpl; rewrite ?length_insert.
  - rewrite u64_id; lia.
  - done.
  - apply NoDup_app. split; [done|]. split; [|apply NoDup_singleton].
    intros j Hj. rewrite Hf in Hj. rewrite list_elem_of_singleton. set_solver.
  - intros j. rewrite elem_of_app, Hf, list_elem_of_singleton. destruct (decide (j = i)) as [->|].
    + apply Hr in Hi. split; [|by right]. intros _. split; [lia|set_solver].
    + set_solver.
  - set_solver.
Qed.

#[export] Instance Core_laws : BlockOwnerLaws Core := {
  owns := core_owns;
  frame := core_frame;
  free_owns := core_free_owns;
}.

(** Taking the top of the stack *)
Lemma take_id_ok c X :
  core_owns c X → 0 < num_free_blocks_ c →
  wp take_id (λ i c', last (free_ids c) = Some i ∧ core_owns c' ({[i]} ∪ X) ∧ i ∉ X ∧
                1 ≤ i < Z.of_nat (length (free_blocks_ c)) ∧ core_frame c c' ∧
                num_free_blocks_ c' = num_free_blocks_ c - 1 ∧
                free_blocks_ c' = free_blocks_ c) c.
Proof.
  intros Ho Hpos. pose proof (free_ids_length _ _ Ho) as Hl. destruct Ho as [Hc Ht Hnd Hf Hr].
  unfold take_id. wp_steps. rewrite u64_id by lia.
  destruct (lookup_lt_is_Some_2 (free_blocks_ c) (Z.to_nat (num_free_blocks_ c - 1))) as [i Hi]; [lia|].
  eapply wp_atZ; [lia|done|].
  assert (free_ids c = free_ids (set_free (num_free_blocks_ c - 1) c) ++ [i]) as Hids.
  { unfold free_ids. simpl. rewrite <-(take_S_r _ _ _ Hi). f_equal. lia. }
  assert (i ∈ free_ids c) as Hin by (rewrite Hids; set_solver). apply Hf in Hin.
  rewrite Hids in Hnd. apply NoDup_app in Hnd as (Hnd & Hni & _).
  split; [by rewrite Hids, last_snoc|]. split; [|by repeat split; try apply Hin].
  constructor; simpl; try done; try lia.
  - intros j. destruct (decide (j = i)) as [->|Hne].
    + split; [intros Hj; by destruct (Hni _ Hj); set_solver|set_solver].
    + specialize (Hf j). rewrite Hids in Hf. set_solver.
  - intros j. rewrite elem_of_union, elem_of_singleton. intros [->|Hj]; [lia|by apply Hr].
Qed.

(** ** Handles of block vectors, by id *)

Definition cnti (i : Z) (hs : list handle) : nat := length (filter (λ h : handle, h.2 = Some i) hs).
Definition ids (bs : list Block) : list Z := id <$> bs.
(** How many of the vectors hold the block [i] *)
Definition holders (i : Z) (seqs : list (list Block)) : nat :=
  length (filter (λ bs : list Block, i ∈ ids bs) seqs).
(** The blocks the vectors hold *)
Definition held (seqs : list (list Block)) : gset Z := list_to_set (ids (concat seqs)).

(** A vector of distinct managed blocks *)
Definition vec_ok (bs : list Block) : Prop := Forall managed bs ∧ NoDup (ids bs).
#[export] Instance vec_ok_dec bs : Decision (vec_ok bs).
Proof. unfold vec_ok. apply _. Defined.

Lemma cnti_app i hs1 hs2 : cnti i (hs1 ++ hs2) = (cnti i hs1 + cnti i hs2)%nat.
Proof. unfold cnti. by rewrite filter_app, length_app. Qed.
#[export] Instance cnti_perm i : Proper ((≡ₚ) ==> (=)) (cnti i).
Proof. intros hs hs' Hp. unfold cnti. by rewrite Hp. Qed.
Lemma managed_href b : managed b → ∃ l, ref_count_ b = Some l ∧ href b = [(l, Some (id b))].
Proof.
  intros (Hr & Hm & _). unfold href, payload. destruct (ref_count_ b) as [l|]; [|done].
  rewrite Hm. eauto.
Qed.
Lemma cnti_href i b : managed b → cnti i (href b) = if decide (id b = i) then 1%nat else O.
Proof.
  intros (l & _ & ->)%managed_href. unfold cnti. rewrite filter_cons. simpl.
  repeat case_decide; naive_solver.
Qed.
Lemma cnti_hrefs i bs :
  vec_ok bs → cnti i (hrefs bs) = if decide (i ∈ ids bs) then 1%nat else O.
Proof.
  intros [Hm Hnd]. induction bs as [|b bs IH]; [done|].
  apply Forall_cons in Hm as [Hb Hm]. apply NoDup_cons in Hnd as [Hn Hnd].
  rewrite hrefs_cons, cnti_app, cnti_href, IH by done. simpl.
  repeat case_decide; subst; set_solver.
Qed.
Lemma cnti_seqs i seqs :
  Forall vec_ok seqs → cnti i (hrefs (concat seqs)) = holders i seqs.
Proof.
  unfold holders. induction 1 as [|bs seqs Hb _ IH]; [done|]. simpl.
  rewrite hrefs_app, cnti_app, cnti_hrefs, IH, filter_cons by done. by case_decide.
Qed.
Lemma cnt_cnti c nx hs l i :
  cells_ok c nx hs → (l, Some i) ∈ hs → cnt l hs = cnti i hs.
Proof.
  intros [_ Hfun Hinj _ _] Hin. unfold cnt, cnti. f_equal. apply filter_ext_on.
  intros [l' p] Hin'. simpl. split; intros ->; [by eapply Hfun|by eapply Hinj].
Qed.
Lemma cnti_zero i hs : cnti i hs = O ↔ i ∉ ids_of hs.
Proof.
  rewrite ids_of_elem. unfold cnti. rewrite length_zero_iff_nil. split.
  - intros Hf [l Hin]. assert ((l, Some i) ∈ filter (λ h : handle, h.2 = Some i) hs) as Hin'
      by by apply list_elem_of_filter.
    rewrite Hf in Hin'. by apply elem_of_nil in Hin'.
  - intros Hn. apply elem_of_nil_inv. intros [l p] [Hp Hin]%list_elem_of_filter.
    simpl in Hp. subst. eauto.
Qed.
Lemma holders_zero i seqs : holders i seqs = O ↔ i ∉ held seqs.
Proof.
  unfold holders, held, ids. rewrite elem_of_list_to_set, list_elem_of_fmap, length_zero_iff_nil. split.
  - intros Hf (b & -> & Hb). apply list_elem_of_In, in_concat in Hb as (bs & Hbs & Hb).
    assert (bs ∈ filter (λ bs : list Block, id b ∈ id <$> bs) seqs) as Hin.
    { apply list_elem_of_filter. split; [|by apply list_elem_of_In].
      apply list_elem_of_fmap. exists b. by rewrite list_elem_of_In. }
    rewrite Hf in Hin. by apply elem_of_nil in Hin.
  - intros Hn. apply elem_of_nil_inv. intros bs [Hi Hbs]%list_elem_of_filter.
    apply Hn. apply list_elem_of_fmap in Hi as (b & -> & Hb). exists b. split; [done|].
    apply list_elem_of_In, in_concat. exists bs. by rewrite <-!list_elem_of_In.
Qed.
Lemma ids_of_hrefs bs : Forall managed bs → ids_of (hrefs bs) = list_to_set (ids bs).
Proof.
  induction 1 as [|b bs Hb _ IH]; [done|]. destruct (managed_href b Hb) as (l & _ & Hh).
  rewrite hrefs_cons, Hh. simpl. by rewrite ids_of_cons, IH.
Qed.

(** A vector's own contribution to the held blocks *)
Definition fresh_in (seqs : list (list Block)) (bs : list Block) : nat :=
  length (filter (λ b : Block, holders (id b) seqs = O) bs).
Lemma held_cons bs seqs :
  vec_ok bs → base.size (held (bs :: seqs)) = (base.size (held seqs) + fresh_in seqs bs)%nat.
Proof.
  intros [_ Hnd]. unfold held at 1, ids. simpl. rewrite fmap_app, list_to_set_app_L.
  fold (ids bs) (ids (concat seqs)). fold (held seqs).
  unfold fresh_in. induction bs as [|b bs IH]; simpl.
  { rewrite (left_id_L ∅ (∪)). lia. }
  apply NoDup_cons in Hnd as [Hn Hnd]. specialize (IH Hnd). rewrite filter_cons, <-(assoc_L (∪)).
  case_decide as Hh; rewrite holders_zero in Hh.
  - rewrite size_union, IH, size_singleton; [simpl; lia|].
    assert (id b ∉ list_to_set (C := gset Z) (ids bs)) by (by rewrite elem_of_list_to_set).
    set_solver.
  - apply dec_stable in Hh. rewrite subseteq_union_1_L by set_solver. exact IH.
Qed.
Lemma held_perm seqs seqs' : seqs ≡ₚ seqs' → held seqs = held seqs'.
Proof. intros Hp. unfold held, ids. apply leibniz_equiv. by rewrite Hp. Qed.

(** ** The manager's invariant *)

Section invariant.
Context `{HashFns}.
Implicit Types (s : BM) (seqs : list (list Block)) (bs : list Block).

Definition cache_handles s : list handle :=
  match prefix_cache_ s with Some pc => pc_handles pc [] | None => [] end.
(** Every live handle: the cache's, the padding block's and the vectors'. *)
Definition all_handles s seqs : list handle :=
  cache_handles s ++ href (padding_block_ s) ++ hrefs (concat seqs).
(** There is room for [n] more handles in the 32-bit counters. *)
Definition room s seqs (n : nat) : Prop :=
  Z.of_nat (length (all_handles s seqs) + n) < 2 ^ 32.

Definition cached s (i : Z) : Prop :=
  ∃ pc a n, prefix_cache_ s = Some pc ∧ nodes pc !! a = Some n ∧ id (block n) = i.

Record bm_ok s seqs : Prop := {
  bm_world : world_ok (world_ s) (all_handles s seqs);
  bm_enabled : prefix_enabled s = bool_decide (is_Some (prefix_cache_ s));
  bm_cache : ∀ pc, prefix_cache_ s = Some pc → pc_ok pc (lru_lst_ pc);
  bm_inj : ∀ pc a a' n n', prefix_cache_ s = Some pc → nodes pc !! a = Some n →
    nodes pc !! a' = Some n' → id (block n) = id (block n') → a = a';
  bm_padding : id (padding_block_ s) = 0 ∧ manager_ (padding_block_ s) = true;
  bm_vecs : Forall vec_ok seqs;
  bm_shared : prefix_enabled s = true → ∀ i, (2 ≤ holders i seqs)%nat → cached s i;
  bm_used : prefix_enabled s = true →
    num_used_blocks_ (core s) = Z.of_nat (base.size (held seqs));
  bm_upload : ∀ u, upload_ s = Some u → ∃ f, upload_ok u f;
}.

Lemma all_handles_perm s seqs seqs' :
  seqs ≡ₚ seqs' → all_handles s seqs ≡ₚ all_handles s seqs'.
Proof.
  intros Hp. unfold all_handles. do 2 f_equiv. apply hrefs_perm.
  by rewrite Hp.
Qed.
Lemma bm_ok_perm s seqs seqs' : seqs ≡ₚ seqs' → bm_ok s seqs → bm_ok s seqs'.
Proof.
  intros Hp [H1 H2 H3 H4 H5 H6 H7 H8 H9].
  assert (∀ i, holders i seqs' = holders i seqs) as Hh by (intros i; unfold holders; by rewrite Hp).
  constructor; try done.
  - refine (proj1 (world_ok_proper _ _ _ _) H1). by apply all_handles_perm.
  - by rewrite <-Hp.
  - intros He i. rewrite Hh. by apply H7.
  - intros He. by rewrite <-(held_perm _ _ Hp), H8.
Qed.
#[export] Instance bm_ok_proper s : Proper ((≡ₚ) ==> iff) (bm_ok s).
Proof. intros l l' Hp. split; by apply bm_ok_perm. Qed.

(** The blocks of a list of cache nodes *)
Lemma blocks_at_elem ns l b :
  b ∈ blocks_at ns l ↔ ∃ a n, a ∈ l ∧ ns !! a = Some n ∧ block n = b.
Proof.
  unfold blocks_at. rewrite list_elem_of_omap. split.
  - intros (a & Ha & Hb). destruct (ns !! a) as [n|] eqn:Hn; [|done].
    simpl in Hb. injection Hb as <-. eauto.
  - intros (a & n & Ha & Hn & <-). exists a. by rewrite Hn.
Qed.
Lemma blocks_at_vec s seqs pc l :
  bm_ok s seqs → prefix_cache_ s = Some pc → NoDup l → vec_ok (blocks_at (nodes pc) l).
Proof.
  intros Hok Hpc Hnd. pose proof (bm_cache _ _ Hok _ Hpc) as Hc. split.
  - apply Forall_forall. intros b (a & n & _ & Hn & <-)%blocks_at_elem. by eapply (pk_valid _ _ Hc).
  - clear Hc. induction Hnd as [|a l Ha Hnd IH]; [constructor|]. rewrite blocks_at_unfold.
    destruct (nodes pc !! a) as [n|] eqn:Hn; [|exact IH]. simpl.
    apply NoDup_cons. split; [|exact IH]. unfold ids. rewrite list_elem_of_fmap.
    intros (b & Hb & (a' & n' & Ha' & Hn' & <-)%blocks_at_elem).
    by rewrite (bm_inj _ _ Hok pc a a' n n' Hpc Hn Hn' Hb) in Ha.
Qed.

Lemma cnti_cache s i seqs :
  bm_ok s seqs →
  cnti i (cache_handles s) = O ∧ ¬ cached s i ∨ cnti i (cache_handles s) = 1%nat ∧ cached s i.
Proof.
  intros Hok. unfold cache_handles, cached. destruct (prefix_cache_ s) as [pc|] eqn:Hpc.
  2: { left. split; [done|]. naive_solver. }
  pose proof (bm_cache _ _ Hok _ Hpc) as Hc.
  unfold pc_handles. rewrite app_nil_r.
  pose proof (blocks_at_vec _ _ _ _ Hok Hpc (pk_nodup _ _ Hc)) as Hv.
  rewrite cnti_hrefs by done. case_decide as Hin.
  - right. split; [done|]. unfold ids in Hin. apply list_elem_of_fmap in Hin as (b & -> & Hb).
    apply blocks_at_elem in Hb as (a & n & _ & Hn & <-).
    by exists pc, a, n.
  - left. split; [done|]. intros (pc' & a & n & Hpc' & Hn & Hi). apply Hin.
    injection Hpc' as <-. subst i. apply list_elem_of_fmap. exists (block n). split; [done|].
    apply blocks_at_elem. exists a, n. split; [|done]. apply (pk_nodes _ _ Hc). eauto.
Qed.

(** The reference count of a block a vector holds: the cache and the vectors. *)
Definition with_used (u : Z) s : BM := set_world (set_mgr (set_used u (core s)) (world_ s)) s.
Lemma ref_count_holders s seqs b u :
  bm_ok s seqs → managed b → href b ⊆ all_handles s seqs →
  ∃ k, (k ≤ 1)%nat ∧ (k = 1%nat ↔ cached s (id b)) ∧
    wp (on_blocks (ref_count b))
       (λ n s', s' = with_used u s ∧ n = Z.of_nat (k + holders (id b) seqs)) (with_used u s).
Proof.
  intros Hok Hm Hsub. destruct (managed_href b Hm) as (l & Hl & Hh).
  exists (cnti (id b) (cache_handles s)). pose proof (cnti_cache s (id b) seqs Hok) as Hcc.
  split; [naive_solver lia|]. split; [naive_solver lia|].
  unfold on_blocks. apply wp_zoom. eapply ref_count_ok; [apply (bm_world _ _ Hok)|done|].
  split; [done|]. rewrite Hl. f_equal.
  rewrite (cnt_cnti _ _ _ l (id b) (proj1 (bm_world _ _ Hok))) by (apply Hsub; rewrite Hh; set_solver).
  unfold all_handles. rewrite !cnti_app, cnti_seqs by apply (bm_vecs _ _ Hok).
  assert (cnti (id b) (href (padding_block_ s)) = O) as ->; [|lia].
  apply cnti_zero. unfold href, payload. destruct (bm_padding _ _ Hok) as [Hp ->].
  destruct (ref_count_ (padding_block_ s)); [|set_solver].
  rewrite ids_of_cons, Hp, ids_of_nil. destruct Hm as (_ & _ & ?). set_solver by lia.
Qed.

Lemma held_all s seqs i : bm_ok s seqs → i ∈ held seqs → i ∈ ids_of (all_handles s seqs).
Proof.
  intros Hok Hi. unfold all_handles. rewrite !ids_of_app.
  rewrite (ids_of_hrefs (concat seqs)); [set_solver|].
  apply Forall_concat. eapply Forall_impl; [apply (bm_vecs _ _ Hok)|]. by intros ? [].
Qed.
Lemma held_bound s seqs : bm_ok s seqs → Z.of_nat (base.size (held seqs)) < 2 ^ 31.
Proof.
  intros Hok. destruct (bm_world _ _ Hok) as [_ Ho]. pose proof (cw_total _ _ Ho) as Ht.
  assert (held seqs ⊆ list_to_set (seqZ 0 (Z.of_nat (length (free_blocks_ (core s)))))) as Hsub.
  { intros i Hi%(held_all s) ; [|done]. apply (cw_range _ _ Ho) in Hi.
    rewrite elem_of_list_to_set, elem_of_seqZ. unfold core. lia. }
  apply subseteq_size in Hsub. rewrite size_list_to_set, length_seqZ in Hsub by apply NoDup_seqZ.
  unfold core in Hsub. lia.
Qed.
(** The counters have room when the vectors are not huge: the cache holds each
    block once. *)
Lemma room_small s seqs n :
  bm_ok s seqs → Z.of_nat (length (concat seqs) + n) < 2 ^ 31 - 1 → room s seqs n.
Proof.
  intros Hok Hn. unfold room, all_handles. rewrite !length_app.
  pose proof (hrefs_length (concat seqs)) as H1.
  assert (length (href (padding_block_ s)) ≤ 1)%nat as H2
    by (unfold href; destruct (ref_count_ _); simpl; lia).
  assert (Z.of_nat (length (cache_handles s)) < 2 ^ 31) as H3; [|lia].
  unfold cache_handles. destruct (prefix_cache_ s) as [pc|] eqn:Hpc; [|done].
  pose proof (bm_cache _ _ Hok _ Hpc) as Hc. unfold pc_handles. rewrite app_nil_r.
  destruct (blocks_at_vec _ _ _ _ Hok Hpc (pk_nodup _ _ Hc)) as [Hm Hnd].
  set (l := blocks_at (nodes pc) (lru_lst_ pc)) in *. pose proof (hrefs_length l) as H4.
  destruct (bm_world _ _ Hok) as [_ Ho]. pose proof (cw_total _ _ Ho) as Ht.
  assert ((list_to_set (ids l) : gset Z) ⊆ list_to_set (seqZ 0 (Z.of_nat (length (free_blocks_ (core s)))))) as Hsub.
  { intros i Hi. rewrite <-(ids_of_hrefs l Hm) in Hi.
    assert (i ∈ ids_of (all_handles s seqs)) as Hi2.
    { unfold all_handles, cache_handles. rewrite Hpc, ids_of_app. unfold pc_handles. rewrite app_nil_r. set_solver. }
    apply (cw_range _ _ Ho) in Hi2. rewrite elem_of_list_to_set, elem_of_seqZ. unfold core. lia. }
  apply subseteq_size in Hsub. rewrite !size_list_to_set in Hsub by (done || apply NoDup_seqZ).
  rewrite length_seqZ in Hsub. unfold ids in Hsub. rewrite length_fmap in Hsub. unfold core in Hsub. lia.
Qed.
End invariant.

(** ** The operations keep the invariant *)

Section operations.
Context `{HashFns}.
Implicit Types (s : BM) (seqs : list (list Block)) (bs : list Block).

(** [s'] has the same options, cache events apart the same components. *)
Definition same_config s s' : Prop :=
  options_ (core s') = options_ (core s) ∧ padding_block_ s' = padding_block_ s ∧
  length (free_blocks_ (core s')) = length (free_blocks_ (core s)).
#[export] Instance same_config_preorder : PreOrder same_config.
Proof. split; [done|]. intros c1 c2 c3 (? & ? & ?) (? & ? & ?). repeat split; congruence. Qed.
Lemma same_config_enabled s s' : same_config s s' → prefix_enabled s' = prefix_enabled s.
Proof. intros (E & _). unfold prefix_enabled. by rewrite E. Qed.

(** One block off the free stack, on the world alone *)
Lemma take_block_ok s hs :
  world_ok (world_ s) hs → 0 < num_free_blocks_ (core s) →
  Z.of_nat (length hs) + 1 < 2 ^ 32 →
  wp (on_core take_id ≫= λ i, on_blocks (Block_new i true))
     (λ b s', world_ok (world_ s') (href b ++ hs) ∧ managed b ∧ id b ∉ ids_of hs ∧
        last (free_ids (core s)) = Some (id b) ∧
        s' = set_world (world_ s') s ∧ core_frame (core s) (core s') ∧
        num_free_blocks_ (core s') = num_free_blocks_ (core s) - 1 ∧
        free_blocks_ (core s') = free_blocks_ (core s) ∧
        Blocks.size b = u32 (block_size_opt (options_ (core s)))) s.
Proof.
  intros [Hc Ho] Hpos Hroom. unfold on_core, on_blocks, on_mgr. wp_steps.
  eapply wp_mono; [by apply take_id_ok|].
  intros i c' (Hlast & Ho' & Hi & Hrange & Hfr & Hn & Hfl). wp_steps.
  eapply wp_mono.
  { apply (Block_new_ok _ hs); [done|exact Ho'|done|done]. }
  intros b w' (Hw' & Hm & Hid & Hmg & Hrc & Hsz). simpl in *.
  split; [done|]. split; [split; [by rewrite Hrc|split; [done|lia]]|].
  split; [by rewrite Hid|]. split; [by rewrite Hid|]. split; [done|].
  unfold core in *. simpl. rewrite Hm. split; [done|]. split; [done|]. split; [done|].
  rewrite Hsz. simpl. by destruct Hfr as (-> & _).
Qed.

Lemma set_world_core s w : core (set_world w s) = mgr w.
Proof. done. Qed.

(** [n] blocks off the free stack *)
Lemma take_blocks_ok s hs n :
  world_ok (world_ s) hs → Z.of_nat n ≤ num_free_blocks_ (core s) →
  Z.of_nat (length hs + n) < 2 ^ 32 →
  wp (repeat_each n (on_core take_id ≫= λ i, on_blocks (Block_new i true)))
     (λ bs s', world_ok (world_ s') (hrefs bs ++ hs) ∧ vec_ok bs ∧ length bs = n ∧
        (∀ i, i ∈ ids bs → i ∉ ids_of hs) ∧
        s' = set_world (world_ s') s ∧ core_frame (core s) (core s') ∧
        num_free_blocks_ (core s') = num_free_blocks_ (core s) - Z.of_nat n ∧
        Forall (λ b, Blocks.size b = u32 (block_size_opt (options_ (core s)))) bs) s.
Proof.
  intros Hw Hn Hroom. eapply wp_mono.
  - apply (wp_repeat_each n _ (λ k bs s', world_ok (world_ s') (hrefs bs ++ hs) ∧ vec_ok bs ∧
        (length bs + k = n)%nat ∧ (∀ i, i ∈ ids bs → i ∉ ids_of hs) ∧
        s' = set_world (world_ s') s ∧ core_frame (core s) (core s') ∧
        num_free_blocks_ (core s') = num_free_blocks_ (core s) - Z.of_nat (length bs) ∧
        Forall (λ b, Blocks.size b = u32 (block_size_opt (options_ (core s)))) bs)).
    + split; [done|]. split; [split; constructor|]. split; [done|].
      split; [by intros i ?%elem_of_nil|]. split; [by destruct s|]. split; [reflexivity|].
      split; [simpl; lia|constructor].
    + intros k bs s1 (Hw1 & [Hm Hnd] & Hlen & Hfresh & Hs1 & Hfr & Hnum & Hsz).
      pose proof (hrefs_length bs).
      eapply wp_mono; [apply (take_block_ok s1 (hrefs bs ++ hs)); [done|lia|rewrite length_app; lia]|].
      intros b s2 (Hw2 & Hmb & Hib & _ & Hs2 & Hfr2 & Hnum2 & _ & Hszb).
      rewrite ids_of_app, ids_of_hrefs, not_elem_of_union, elem_of_list_to_set in Hib by done.
      destruct Hib as [Hib1 Hib2].
      split; [|split; [|split; [|split; [|split; [|split; [|split]]]]]].
      * refine (proj1 (world_ok_proper _ _ _ _) Hw2). rewrite hrefs_app, hrefs_cons, hrefs_nil. perm.
      * split; [apply Forall_app; auto|]. unfold ids. rewrite fmap_app. apply NoDup_app.
        split; [done|]. split; [|apply NoDup_singleton]. simpl.
        intros j Hj. rewrite list_elem_of_singleton. intros ->. by apply Hib1.
      * rewrite length_app. simpl. lia.
      * unfold ids. rewrite fmap_app. simpl. intros j [Hj|Hj]%elem_of_app; [by apply Hfresh|].
        apply list_elem_of_singleton in Hj. by subst.
      * rewrite Hs2, Hs1. by destruct s.
      * by etrans.
      * rewrite length_app. simpl. lia.
      * apply Forall_app. split; [done|]. constructor; [|done]. rewrite Hszb.
        by destruct Hfr as (-> & _).
  - intros bs s' (? & ? & Hlen & ? & ? & ? & Hnum & ?). rewrite Nat.add_0_r in Hlen.
    rewrite Hlen in Hnum. done.
Qed.

(** *** Eviction *)

(** The nodes that [evict] may drop *)
Definition evictables s : list nat :=
  match prefix_cache_ s with
  | None => []
  | Some pc => filter (λ a, evictable (pc, world_ s) a = true) (lru_lst_ pc)
  end.

Lemma evictable_once s seqs pc a n l :
  bm_ok s seqs → prefix_cache_ s = Some pc → nodes pc !! a = Some n →
  evictable (pc, world_ s) a = true → a ∈ lru_lst_ pc → ref_count_ (block n) = Some l →
  cnti (id (block n)) (all_handles s seqs) = 1%nat.
Proof.
  intros Hok Hpc Hn Hev Ha Hl. pose proof (bm_cache _ _ Hok _ Hpc) as Hc.
  pose proof (pk_valid _ _ Hc _ _ Hn) as Hm.
  destruct (managed_href _ Hm) as (l' & Hl' & Hh). rewrite Hl in Hl'. injection Hl' as <-.
  assert (href (block n) ⊆ all_handles s seqs) as Hsub.
  { unfold all_handles, cache_handles. rewrite Hpc.
    eapply (node_handle (pc, world_ s) []); [done|by rewrite app_nil_r]. }
  unfold evictable in Hev. simpl in Hev. rewrite Hn in Hev. apply negb_true_iff in Hev.
  rewrite (sharedb_cnt _ (all_handles s seqs) _ l) in Hev; [|apply (bm_world _ _ Hok)|done..].
  apply Z.ltb_ge in Hev.
  assert ((l, Some (id (block n))) ∈ all_handles s seqs) as Hin by (apply Hsub; rewrite Hh; set_solver).
  rewrite <-(cnt_cnti _ _ _ l _ (proj1 (bm_world _ _ Hok)) Hin).
  pose proof (cnt_pos _ _ _ Hin). lia.
Qed.

Lemma bm_pcw s seqs pc :
  bm_ok s seqs → prefix_cache_ s = Some pc →
  pcw_ok (pc, world_ s) [] (href (padding_block_ s) ++ hrefs (concat seqs)).
Proof.
  intros Hok Hpc. split; simpl.
  - rewrite app_nil_r. by apply (bm_cache _ _ Hok).
  - pose proof (bm_world _ _ Hok) as Hw. unfold all_handles, cache_handles in Hw. by rewrite Hpc in Hw.
Qed.
Lemma wp_on_cache {A} (m : prog (PrefixCache * World Core) A) Q s pc :
  prefix_cache_ s = Some pc →
  wp m (λ a p, Q a (set_cache p s)) (pc, world_ s) → wp (on_cache m) Q s.
Proof. intros Hpc Hm. unfold on_cache, wp. rewrite Hpc. by apply wp_zoom. Qed.

(** The invariant of a state whose cache and counters have been replaced. *)
Lemma bm_ok_set_cache s seqs seqs' p u :
  bm_ok s seqs → is_Some (prefix_cache_ s) →
  pcw_ok p [] (href (padding_block_ s) ++ hrefs (concat seqs')) →
  options_ (mgr p.2) = options_ (core s) →
  (∀ a a' n n', nodes p.1 !! a = Some n → nodes p.1 !! a' = Some n' →
     id (block n) = id (block n') → a = a') →
  Forall vec_ok seqs' →
  (∀ i, (2 ≤ holders i seqs')%nat → ∃ a n, nodes p.1 !! a = Some n ∧ id (block n) = i) →
  num_used_blocks_ (mgr p.2) = Z.of_nat (base.size (held seqs')) →
  (∀ u', u = Some u' → ∃ f, upload_ok u' f) →
  bm_ok (set_upload u (set_cache p s)) seqs'.
Proof.
  intros Hok Hsome [Hpc Hw] Ho Hinj Hv Hsh Hu Hup. constructor; simpl; try done.
  - pose proof (bm_enabled _ _ Hok) as He. rewrite bool_decide_true in He by done.
    unfold prefix_enabled, core in *. simpl. by rewrite Ho.
  - intros pc [= <-]. by rewrite app_nil_r in Hpc.
  - intros pc a a' n n' [= <-]. apply Hinj.
  - apply (bm_padding _ _ Hok).
  - intros _ i Hi. destruct (Hsh i Hi) as (a & n & ? & ?). by exists p.1, a, n.
Qed.

Lemma save_event_upload s seqs i ks u' :
  bm_ok s seqs → save_event_async i ks <$> upload_ s = Some u' → ∃ f, upload_ok u' f.
Proof.
  intros Hok Hu. destruct (upload_ s) as [u|] eqn:E; [|done]. injection Hu as <-.
  destruct (bm_upload _ _ Hok _ E) as [f Hf]. exists f. by apply save_event_ok.
Qed.

(** The ids of the evicted nodes leave the live handles, and nothing else does. *)
Lemma dropped_ids s seqs pc ev p hs :
  bm_ok s seqs → prefix_cache_ s = Some pc →
  hs = href (padding_block_ s) ++ hrefs (concat seqs) →
  NoDup ev → (∀ a, a ∈ ev → a ∈ lru_lst_ pc ∧ evictable (pc, world_ s) a = true) →
  dropped (pc, world_ s) ev p →
  base.size (ids_of (all_handles s seqs) ∖ {[0%Z]}) =
    (base.size (ids_of (pc_handles p.1 [] ++ hs) ∖ {[0%Z]}) + length ev)%nat.
Proof.
  intros Hok Hpc -> Hnd Hev (Hlru & Hnodes & _ & _). simpl in *.
  pose proof (bm_cache _ _ Hok _ Hpc) as Hc.
  pose proof (blocks_at_vec _ _ _ _ Hok Hpc Hnd) as [Hm Hids].
  assert (all_handles s seqs ≡ₚ hrefs (blocks_at (nodes pc) ev) ++
    (pc_handles p.1 [] ++ href (padding_block_ s) ++ hrefs (concat seqs))) as Hp.
  { unfold all_handles, cache_handles. rewrite Hpc. unfold pc_handles.
    rewrite !app_nil_r, Hlru, !(app_assoc _ _ (href _ ++ _)). f_equiv.
    rewrite (blocks_at_ext (nodes pc) (nodes p.1)).
    2: { intros a [Ha _]%list_elem_of_filter. by rewrite Hnodes, decide_False. }
    rewrite <-hrefs_app, <-blocks_at_app. f_equiv. f_equiv.
    apply NoDup_Permutation.
    - apply (pk_nodup _ _ Hc).
    - apply NoDup_app. split; [done|]. split.
      + intros a Ha [Hn _]%list_elem_of_filter. done.
      + apply NoDup_filter, (pk_nodup _ _ Hc).
    - intros a. rewrite elem_of_app, list_elem_of_filter.
      destruct (decide (a ∈ ev)) as [Ha|]; [|tauto].
      split; [by left|]. intros _. by apply Hev. }
  set (rest := pc_handles p.1 [] ++ _) in *.
  assert (∀ i, i ∈ ids (blocks_at (nodes pc) ev) → i ∉ ids_of rest ∧ i ≠ 0) as Hdis.
  { intros i Hi. pose proof Hi as Hi'. unfold ids in Hi'. apply list_elem_of_fmap in Hi' as (b & -> & Hb).
    apply blocks_at_elem in Hb as (a & n & Ha & Hn & <-).
    pose proof (pk_valid _ _ Hc _ _ Hn) as Hmn. destruct (managed_href _ Hmn) as (l & Hl & _).
    split; [|destruct Hmn as (_ & _ & ?); lia].
    pose proof (evictable_once s seqs pc a n l Hok Hpc Hn (proj2 (Hev _ Ha)) (proj1 (Hev _ Ha)) Hl) as H1.
    rewrite Hp, cnti_app, cnti_hrefs, decide_True in H1 by done. apply cnti_zero. lia. }
  rewrite Hp, ids_of_app, ids_of_hrefs by done.
  rewrite difference_union_distr_l_L, size_union.
  2: { intros i. rewrite !elem_of_difference, elem_of_list_to_set. naive_solver. }
  rewrite Nat.add_comm. f_equal.
  rewrite difference_disjoint_L.
  2: { intros i. rewrite elem_of_list_to_set, elem_of_singleton. naive_solver. }
  rewrite size_list_to_set by done. unfold ids. rewrite length_fmap.
  clear -Hev Hc. induction ev as [|a ev IH]; [done|]. rewrite blocks_at_unfold.
  assert (is_Some (nodes pc !! a)) as [n ->].
  { apply (pk_nodes _ _ Hc), Hev. set_solver. }
  simpl. f_equal. apply IH. set_solver.
Qed.

Lemma cache_evict_ok s seqs n pc :
  bm_ok s seqs → prefix_cache_ s = Some pc →
  let ev := take n (evictables s) in
  wp (cache_evict n)
     (λ r s', bm_ok s' seqs ∧ same_config s s' ∧ r = length ev ∧
        num_free_blocks_ (core s') = num_free_blocks_ (core s) + Z.of_nat (length ev) ∧
        dropped (pc, world_ s) ev (default pc (prefix_cache_ s'), world_ s') ∧
        (length (all_handles s' seqs) ≤ length (all_handles s seqs))%nat) s.
Proof.
  intros Hok Hpc ev. unfold cache_evict.
  assert (ev = victims (pc, world_ s) n (lru_lst_ pc)) as Hev by (unfold ev, evictables; by rewrite Hpc).
  pose proof (bm_cache _ _ Hok _ Hpc) as Hc.
  assert (∀ a, a ∈ ev → a ∈ lru_lst_ pc ∧ evictable (pc, world_ s) a = true) as Hin.
  { intros a Ha. unfold ev, evictables in Ha. rewrite Hpc in Ha.
    apply elem_of_take in Ha as (k & Ha & _). apply list_elem_of_lookup_2 in Ha.
    by apply list_elem_of_filter in Ha as [? ?]. }
  assert (NoDup ev) as Hnd.
  { unfold ev, evictables. rewrite Hpc. eapply sublist_NoDup; [|apply sublist_take].
    apply NoDup_filter, (pk_nodup _ _ Hc). }
  apply wp_bind. eapply wp_on_cache; [done|]. eapply wp_mono.
  { apply (evict_ok n (pc, world_ s)). by apply bm_pcw. }
  intros [r keys] p (Hp & Hd & Hr). simpl in Hd, Hr. rewrite <-Hev in Hd, Hr.
  pose proof (dropped_ids s seqs pc ev p _ Hok Hpc eq_refl Hnd Hin Hd) as Hids.
  pose proof Hd as (Hlru & Hnodes & Hbs & (Ho & Hu & Hlen)). simpl in *.
  unfold save_event. wp_steps. simpl. split; [|split; [|split; [done|split; [|split]]]].
  - apply (bm_ok_set_cache s seqs seqs); try done.
    + intros a a' n1 n2. rewrite !Hnodes. repeat case_decide; try done. by apply (bm_inj _ _ Hok pc).
    + apply (bm_vecs _ _ Hok).
    + intros i Hi. assert (prefix_enabled s = true) as He by (by rewrite (bm_enabled _ _ Hok), Hpc).
      destruct (bm_shared _ _ Hok He i Hi) as (pc' & a & nd & Hpc' & Hn & Hid).
      rewrite Hpc in Hpc'. injection Hpc' as <-. exists a, nd. rewrite Hnodes, decide_False; [done|].
      intros Ha. destruct (Hin _ Ha) as [Hl Hev'].
      destruct (managed_href _ (pk_valid _ _ Hc _ _ Hn)) as (l & Hl' & _).
      pose proof (evictable_once s seqs pc a nd l Hok Hpc Hn Hev' Hl Hl') as H1.
      unfold all_handles in H1. rewrite !cnti_app, Hid, (cnti_seqs _ _ (bm_vecs _ _ Hok)) in H1. lia.
    + rewrite Hu. apply (bm_used _ _ Hok). by rewrite (bm_enabled _ _ Hok), Hpc.
    + intros u' Hu'. by eapply save_event_upload.
  - done.
  - destruct (bm_world _ _ Hok) as [_ Hown]. destruct Hp as [_ [_ Hown']].
    apply core_owns_num in Hown, Hown'. unfold core in *. simpl in *.
    rewrite Hown, Hown', Hids, Hlen. lia.
  - by destruct p.
  - unfold all_handles, cache_handles. simpl. rewrite Hpc, !length_app.
    pose proof (blocks_at_ext (nodes pc) (nodes p.1) (lru_lst_ p.1)) as Hext.
    assert (length (pc_handles p.1 []) ≤ length (pc_handles pc []))%nat; [|lia].
    unfold pc_handles. rewrite !app_nil_r, Hext, Hlru.
    2: { intros a Ha. rewrite Hlru in Ha. apply list_elem_of_filter in Ha as [Ha _].
         by rewrite Hnodes, decide_False. }
    apply sublist_length. unfold hrefs, blocks_at.
    clear. induction (lru_lst_ pc) as [|a l IH]; [done|]. rewrite filter_cons. simpl.
    case_decide; simpl; destruct (nodes pc !! a); simpl; try done.
    + by apply sublist_app.
    + by apply sublist_inserts_l.
Qed.

(** *** Allocation *)

(** What an allocation can use: the free ids and what eviction can free. *)
Lemma bm_ok_nil s seqs : bm_ok s seqs → bm_ok s ([] :: seqs).
Proof.
  intros [? ? ? ? ? ? ? ? ?]. constructor; try done. constructor; [|done]. split; constructor.
Qed.
Definition available s : Z := num_free_blocks_ (core s) + Z.of_nat (length (evictables s)).

Lemma free_bound s seqs : bm_ok s seqs → 0 ≤ num_free_blocks_ (core s) < 2 ^ 31.
Proof.
  intros Hok. destruct (bm_world _ _ Hok) as [_ Ho].
  pose proof (cw_count _ _ Ho). pose proof (cw_total _ _ Ho). unfold core. lia.
Qed.

Lemma has_enough_blocks_ok s seqs n :
  bm_ok s seqs → 0 ≤ n < 2 ^ 32 →
  wp (has_enough_blocks n)
     (λ r s', bm_ok s' seqs ∧ same_config s s' ∧ r = (n <=? available s) ∧
        num_free_blocks_ (core s') =
          Z.max (num_free_blocks_ (core s)) (Z.min n (available s)) ∧
        (length (all_handles s' seqs) ≤ length (all_handles s seqs))%nat) s.
Proof.
  intros Hok Hn. pose proof (free_bound _ _ Hok) as Hf. unfold has_enough_blocks, available. wp_steps.
  destruct (n <=? num_free_blocks_ (core s)) eqn:E.
  { apply Z.leb_le in E. apply wp_ret. split; [done|]. split; [reflexivity|].
    split; [symmetry; apply Z.leb_le; lia|]. split; [lia|done]. }
  apply Z.leb_gt in E. rewrite (bm_enabled _ _ Hok).
  destruct (prefix_cache_ s) as [pc|] eqn:Hpc.
  2: { rewrite bool_decide_false by apply is_Some_None. apply wp_ret.
       unfold evictables. rewrite Hpc. simpl. split; [done|]. split; [reflexivity|].
       split; [symmetry; apply Z.leb_gt; lia|]. split; [lia|done]. }
  rewrite bool_decide_true by done. simpl. rewrite u32_id by lia.
  apply wp_bind. eapply wp_mono; [by eapply cache_evict_ok|].
  intros r s' (Hok' & Hcfg & -> & Hnum & Hd & Hlen). rewrite length_take in *.
  rewrite u32_id by lia.
  destruct (_ <? _) eqn:E2.
  - apply Z.ltb_lt in E2. apply wp_ret. split; [done|]. split; [done|].
    split; [symmetry; apply Z.leb_gt; lia|]. split; [lia|done].
  - apply Z.ltb_ge in E2. wp_steps. rewrite Hnum.
    destruct (_ <=? _) eqn:E3; [|apply Z.leb_gt in E3; lia].
    apply wp_ret. split; [done|]. split; [done|].
    split; [symmetry; apply Z.leb_le; lia|]. split; [lia|done].
Qed.

Lemma all_handles_cons s bs seqs : all_handles s (bs :: seqs) ≡ₚ hrefs bs ++ all_handles s seqs.
Proof. unfold all_handles. simpl. rewrite hrefs_app. perm. Qed.

Lemma held_fresh seqs bs :
  (∀ i, i ∈ ids bs → i ∉ held seqs) → fresh_in seqs bs = length bs.
Proof.
  intros Hf. unfold fresh_in. induction bs as [|b bs IH]; [done|].
  rewrite filter_cons_True by (apply holders_zero, Hf; unfold ids; set_solver).
  simpl. f_equal. apply IH. unfold ids in *. set_solver.
Qed.
Lemma holders_cons i bs seqs :
  holders i (bs :: seqs) = ((if decide (i ∈ ids bs) then 1 else 0) + holders i seqs)%nat.
Proof. unfold holders. rewrite filter_cons. by case_decide. Qed.

Lemma allocate_spec s seqs n :
  bm_ok s seqs → 0 ≤ n < 2 ^ 32 → room s seqs (Z.to_nat n) →
  wp (allocate n)
     (λ bs s', same_config s s' ∧ bm_ok s' (if n <=? available s then bs :: seqs else seqs) ∧
        length bs = (if n <=? available s then Z.to_nat n else O) ∧
        (∀ i, i ∈ ids bs → i ∉ held seqs ∧ ¬ cached s' i) ∧
        num_free_blocks_ (core s') =
          (if n <=? available s
           then Z.max (num_free_blocks_ (core s)) n - n
           else available s) ∧
        Forall (λ b, Blocks.size b = u32 (block_size_opt (options_ (core s)))) bs ∧
        (length (all_handles s' seqs) ≤ length (all_handles s seqs))%nat) s.
Proof.
  intros Hok Hn Hroom. unfold allocate. rewrite u32_id by lia.
  apply wp_bind. eapply wp_mono; [by apply has_enough_blocks_ok|].
  intros r s1 (Hok1 & Hcfg & -> & Hnum & Hlen). unfold available in *.
  destruct (n <=? _) eqn:E; simpl.
  2: { apply Z.leb_gt in E. apply wp_ret. split; [done|]. split; [done|]. split; [done|].
       split; [by intros i ?%elem_of_nil|]. split; [lia|]. split; [done|lia]. }
  apply Z.leb_le in E. wp_steps. apply wp_check; [apply Z.leb_le; lia|]. unfold room in Hroom.
  wp_steps. eapply wp_mono.
  { apply (take_blocks_ok s1 (all_handles s1 seqs)); [apply (bm_world _ _ Hok1)|lia|lia]. }
  intros bs s2 (Hw2 & Hv & Hlb & Hfresh & Hs2 & Hfr & Hnum2 & Hsz). unfold on_core, on_blocks, on_mgr.
  assert (core s2 = mgr (world_ s2)) as Hc2 by done.
  wp_steps. destruct Hfr as (Hopt & Hused & Hfl).
  assert (∀ i, i ∈ ids bs → i ∉ held seqs) as Hnh.
  { intros i Hi Hh. apply (Hfresh i Hi). by apply held_all. }
  split; [|split; [|split; [done|split; [|split; [|split]]]]].
  - etrans; [done|]. unfold core. simpl. unfold core in *. rewrite Hs2. simpl. done.
  - rewrite Hs2. destruct Hok1 as [H1 H2 H3 H4 H5 H6 H7 H8 H9]. unfold core in *.
    constructor; simpl; try done.
    + split; simpl.
      * apply (cells_ok_perm _ _ (hrefs bs ++ all_handles s1 seqs)); [|apply Hw2].
        symmetry. apply (all_handles_cons s1).
      * rewrite (ids_of_perm _ _ (all_handles_cons _ bs seqs)). destruct Hw2 as [_ Ho].
        destruct Ho as [? ? ? ? ?]. by constructor.
    + unfold prefix_enabled, core in *. simpl. by rewrite Hopt.
    + by constructor.
    + intros He i. rewrite holders_cons. case_decide as Hi.
      * apply Hnh, holders_zero in Hi. lia.
      * intros Hi2. apply H7; [|done]. unfold prefix_enabled, core in *. simpl in He. by rewrite <-Hopt.
    + intros He. assert (prefix_enabled s1 = true) as He'
        by (unfold prefix_enabled, core in *; simpl in He; by rewrite <-Hopt).
      rewrite Hused, (H8 He'), held_cons, (held_fresh _ _ Hnh) by done.
      pose proof (held_bound _ _ Hok). rewrite u64_id; lia.
  - intros i Hi. split; [by apply Hnh|]. intros Hcd.
    destruct (cnti_cache s1 i seqs Hok1) as [[_ Hnc]|[H1 _]].
    + apply Hnc. destruct Hcd as (pc & a & nd & Hpc & ?). exists pc, a, nd.
      rewrite Hs2 in Hpc. done.
    + apply (Hfresh i Hi). unfold all_handles. rewrite ids_of_app.
      assert (i ∈ ids_of (cache_handles s1)); [|set_solver].
      destruct (decide (i ∈ ids_of (cache_handles s1))) as [|Hn']; [done|].
      apply cnti_zero in Hn'. lia.
  - unfold core in *. simpl. rewrite Hnum2, Hnum. rewrite Z2Nat.id by lia. lia.
  - eapply Forall_impl; [exact Hsz|]. intros b Hb. simpl in Hb. rewrite Hb.
    by destruct Hcfg as (-> & _).
  - rewrite Hs2. exact Hlen.
Qed.

(** *** Deallocation *)

Lemma with_used_id s : with_used (num_used_blocks_ (core s)) s = s.
Proof. by destruct s as [? ? [? ? []] ?]. Qed.
Lemma wp_set_used f s u Q :
  Q () (with_used (f (set_used u (core s))) s) →
  wp (on_core (modify (λ c, set_used (f c) c))) Q (with_used u s).
Proof. intros HQ. unfold on_core, on_blocks, on_mgr. wp_steps. exact HQ. Qed.

Lemma seqs_sub s bs seqs b : b ∈ bs → href b ⊆ all_handles s (bs :: seqs).
Proof.
  intros Hb. apply list_elem_of_split in Hb as (l1 & l2 & ->).
  unfold all_handles. simpl. rewrite !hrefs_app, hrefs_cons. set_solver.
Qed.
Lemma managed_valid b : managed b → is_valid b = true.
Proof.
  intros (Hr & _ & Hi). unfold is_valid. destruct (ref_count_ b); [|done].
  rewrite andb_true_r. apply Z.leb_le. lia.
Qed.

(** The threshold of the code: a count of at most two is "no other holder". *)
Lemma ref_count_threshold s bs seqs b u :
  bm_ok s (bs :: seqs) → prefix_enabled s = true → b ∈ bs →
  wp (on_blocks (ref_count b))
     (λ n s', s' = with_used u s ∧ (n <=? 2) = bool_decide (holders (id b) seqs = O))
     (with_used u s).
Proof.
  intros Hok He Hb. pose proof (bm_vecs _ _ Hok) as Hv. apply Forall_cons in Hv as [[Hm Hnd] _].
  assert (managed b) as Hmb by (by rewrite Forall_forall in Hm; apply Hm).
  destruct (ref_count_holders s (bs :: seqs) b u Hok Hmb) as (k & Hk & Hkc & Hwp);
    [by apply seqs_sub|].
  eapply wp_mono; [exact Hwp|]. intros n s' [-> ->]. split; [done|].
  pose proof (bm_shared _ _ Hok He (id b)) as Hsh.
  rewrite holders_cons, decide_True in * by (by unfold ids; apply list_elem_of_fmap; eauto).
  case_bool_decide as Hz.
  - apply Z.leb_le. lia.
  - apply Z.leb_gt. assert (k = 1%nat) by (apply Hkc, Hsh; lia). lia.
Qed.

Lemma fresh_in_cons seqs b bs :
  fresh_in seqs (b :: bs) =
    ((if decide (holders (id b) seqs = O) then 1 else 0) + fresh_in seqs bs)%nat.
Proof. unfold fresh_in. rewrite filter_cons. by case_decide. Qed.

Lemma deallocate_ok s bs seqs :
  bm_ok s (bs :: seqs) →
  wp (deallocate bs)
     (λ _ s', ∃ u, s' = with_used u s ∧
        (prefix_enabled s = true → u = Z.of_nat (base.size (held seqs)))) s.
Proof.
  intros Hok. unfold deallocate. wp_steps. destruct (prefix_enabled s) eqn:He.
  2: { unfold on_core, on_blocks, on_mgr. wp_steps. eexists. split; [done|]. done. }
  pose proof (bm_vecs _ _ Hok) as Hv. apply Forall_cons in Hv as [Hb Hv].
  pose proof (held_bound _ _ Hok) as Hbound.
  rewrite held_cons in Hbound by done.
  eapply wp_mono.
  - apply (wp_for_each _ _ (λ rest s', (∀ b, b ∈ rest → b ∈ bs) ∧ (fresh_in seqs rest ≤ fresh_in seqs bs)%nat ∧
        s' = with_used (Z.of_nat (base.size (held seqs) + fresh_in seqs rest)) s)).
    + split; [done|]. split; [done|]. rewrite <-held_cons, <-(bm_used _ _ Hok He) by done.
      by rewrite with_used_id.
    + intros b rest s' (Hin & Hle & ->). rewrite fresh_in_cons in *. unfold release_one. apply wp_bind.
      eapply wp_mono; [apply (ref_count_threshold s bs seqs b); [done..|set_solver]|].
      intros n s' [-> ->]. destruct Hb as [Hm _].
      rewrite managed_valid by (rewrite Forall_forall in Hm; apply Hm, Hin; set_solver). simpl.
      assert (∀ b', b' ∈ rest → b' ∈ bs) as Hin' by set_solver.
      case_decide as Hz; [rewrite bool_decide_true by done|rewrite bool_decide_false by done].
      * wp_steps. simpl. destruct (_ =? 0) eqn:E; [apply Z.eqb_eq in E; lia|].
        apply (wp_set_used (λ c, u64 (num_used_blocks_ c - 1))). split; [done|]. split; [lia|].
        f_equal. simpl. rewrite u64_id; lia.
      * apply wp_ret. split; [done|]. split; [lia|]. by rewrite Nat.add_0_l.
  - intros _ s' (_ & _ & ->). eexists. split; [done|]. intros _. unfold fresh_in.
    rewrite filter_nil. simpl. lia.
Qed.

(** Handing a vector back and dropping it, as every caller of [deallocate] does. *)
Definition release bs : prog BM unit :=
  deallocate bs ≫= λ _, on_blocks (destroy_all bs).

(** Dropping the handles of a vector that was handed back *)
Lemma drop_vec_ok s bs seqs u :
  bm_ok s (bs :: seqs) → (prefix_enabled s = true → u = Z.of_nat (base.size (held seqs))) →
  wp (on_blocks (destroy_all bs)) (λ _ s', bm_ok s' seqs ∧ same_config s s' ∧
    prefix_cache_ s' = prefix_cache_ s) (with_used u s).
Proof.
  intros Hok Hu. unfold on_blocks. apply wp_zoom.
  destruct Hok as [H1 H2 H3 H4 H5 H6 H7 H8 H9]. apply Forall_cons in H6 as [Hb Hv].
  eapply wp_mono.
  { apply (destroy_all_ok _ (all_handles s seqs) bs). destruct H1 as [Hc Ho].
    split; simpl.
    - apply (cells_ok_perm _ _ _ _ (all_handles_cons s bs seqs)), Hc.
    - rewrite <-(ids_of_perm _ _ (all_handles_cons s bs seqs)). destruct Ho as [? ? ? ? ?].
      by constructor. }
  intros _ w' [Hw' (Hopt & Hused & Hlen)]. simpl in *.
  split; [|split; [|done]].
  - constructor; simpl; try done.
    + unfold prefix_enabled, core in *. simpl. by rewrite Hopt.
    + intros He i Hi. unfold prefix_enabled, core in *. simpl in He. rewrite Hopt in He.
      assert (2 ≤ holders i (bs :: seqs))%nat as Hi' by (rewrite holders_cons; lia).
      destruct (H7 He i Hi') as (pc & a & n & ? & ? & ?). by exists pc, a, n.
    + intros He. unfold prefix_enabled, core in *. simpl in *. rewrite Hopt in He.
      rewrite Hused. by apply Hu.
  - by repeat split.
Qed.
Lemma release_ok s bs seqs :
  bm_ok s (bs :: seqs) →
  wp (release bs) (λ _ s', bm_ok s' seqs ∧ same_config s s' ∧
    prefix_cache_ s' = prefix_cache_ s) s.
Proof.
  intros Hok. unfold release. apply wp_bind. eapply wp_mono; [by eapply deallocate_ok|].
  intros _ s1 (u & -> & Hu). by apply drop_vec_ok.
Qed.

(** A new world with the same configuration, for vectors that hold the same blocks *)
Lemma bm_ok_world s w seqs seqs' :
  bm_ok s seqs → world_ok w (all_handles s seqs') → core_frame (core s) (mgr w) →
  Forall vec_ok seqs' → (∀ i, holders i seqs' = holders i seqs) → held seqs' = held seqs →
  bm_ok (set_world w s) seqs' ∧ same_config s (set_world w s).
Proof.
  intros [H1 H2 H3 H4 H5 H6 H7 H8 H9] Hw (Hopt & Hused & Hlen) Hv Hh Hheld.
  split; [|by repeat split].
  constructor; simpl; try done; unfold prefix_enabled, core in *; simpl.
  - by rewrite Hopt.
  - intros He i Hi. rewrite Hopt in He. rewrite Hh in Hi.
    destruct (H7 He i Hi) as (pc & a & n & ? & ? & ?). by exists pc, a, n.
  - intros He. rewrite Hopt in He. rewrite Hused, Hheld. by apply H8.
Qed.

(** A vector of fresh blocks joins another one. *)
Lemma merge_vecs s bs cs seqs :
  bm_ok s (bs :: cs :: seqs) → (∀ i, i ∈ ids bs → i ∉ ids cs) →
  vec_ok (cs ++ bs) ∧ (∀ i, holders i ((cs ++ bs) :: seqs) = holders i (bs :: cs :: seqs)) ∧
  held ((cs ++ bs) :: seqs) = held (bs :: cs :: seqs).
Proof.
  intros Hok Hd. pose proof (bm_vecs _ _ Hok) as Hv.
  apply Forall_cons in Hv as [[Hb Hnb] Hv]. apply Forall_cons in Hv as [[Hc Hnc] _].
  split; [|split].
  - split; [by apply Forall_app|]. unfold ids in *. rewrite fmap_app. apply NoDup_app.
    split; [done|]. split; [|done]. intros i Hi Hi'. by apply (Hd i).
  - intros i. rewrite !holders_cons. unfold ids in *. rewrite fmap_app.
    specialize (Hd i). repeat case_decide; set_solver.
  - unfold held, ids. simpl. rewrite !fmap_app. apply leibniz_equiv.
    rewrite !list_to_set_app. set_solver.
Qed.

(** *** Sharing *)

(** What [allocate_shared] returns: the blocks the sequence already shares and
    the cached blocks that continue them. *)
Definition shared_result s (tokens_ids : list Z) (existed : list Block) : list Block :=
  match prefix_cache_ s with
  | None => []
  | Some pc =>
      if decide (length tokens_ids / block_size_ pc = 0)%nat then []
      else existed ++ blocks_at (nodes pc) (match_hits pc tokens_ids existed)
  end.

Lemma count_shared_all s bs seqs0 rest u :
  bm_ok s (bs :: seqs0) → prefix_enabled s = true → (∀ b, b ∈ rest → b ∈ bs) →
  0 ≤ u → u + Z.of_nat (length rest) < 2 ^ 64 →
  wp (for_each rest count_shared)
     (λ _ s', s' = with_used (u + Z.of_nat (fresh_in seqs0 rest)) s) (with_used u s).
Proof.
  intros Hok He. revert u. induction rest as [|b rest IH]; intros u Hin Hu Hroom; simpl.
  { apply wp_ret. f_equal. unfold fresh_in. rewrite filter_nil. simpl. lia. }
  apply wp_bind. unfold count_shared at 1. apply wp_bind.
  eapply wp_mono; [apply (ref_count_threshold s bs seqs0 b); [done..|apply Hin; set_solver]|].
  intros n s' [-> ->]. rewrite fresh_in_cons. simpl in Hroom.
  assert (∀ b, b ∈ rest → b ∈ bs) by set_solver.
  case_decide as Hz; [rewrite bool_decide_true by done|rewrite bool_decide_false by done].
  - apply (wp_set_used (λ c, u64 (num_used_blocks_ c + 1))). simpl. rewrite u64_id by lia.
    eapply wp_mono; [apply IH; [done|lia|lia]|]. intros _ s' ->. f_equal. lia.
  - apply wp_ret. eapply wp_mono; [apply IH; [done|lia|lia]|]. intros _ s' ->. f_equal.
Qed.

(** Setting the counter to the number of held blocks restores the invariant of
    a state that has it but for the counter. *)
Lemma bm_ok_with_used s seqs u :
  bm_ok (with_used (Z.of_nat (base.size (held seqs))) s) seqs →
  (prefix_enabled s = true → u = Z.of_nat (base.size (held seqs))) →
  bm_ok (with_used u s) seqs.
Proof.
  intros [[Hc [? ? ? ? ?]] H2 H3 H4 H5 H6 H7 H8 H9] Hu. constructor; try done.
Qed.

Lemma allocate_shared_spec s seqs tokens_ids existed :
  bm_ok s seqs → hrefs existed ⊆ all_handles s seqs → (∀ b, b ∈ existed → cached s (id b)) →
  vec_ok (shared_result s tokens_ids existed) →
  room s seqs (length existed + length tokens_ids) →
  wp (allocate_shared tokens_ids existed)
     (λ r s', r = shared_result s tokens_ids existed ∧ bm_ok s' (r :: seqs) ∧
        same_config s s' ∧ num_free_blocks_ (core s') = num_free_blocks_ (core s) ∧
        (∀ i, cached s' i ↔ cached s i)) s.
Proof.
  intros Hok Hsub Hex Hv Hroom. unfold allocate_shared. wp_steps.
  rewrite (bm_enabled _ _ Hok). unfold shared_result in *.
  destruct (prefix_cache_ s) as [pc|] eqn:Hpc.
  2: { rewrite bool_decide_false by apply is_Some_None. apply wp_ret. split; [done|].
       split; [|done]. destruct Hok as [H1 H2 H3 H4 H5 H6 H7 H8 H9].
       constructor; try done. by constructor. }
  rewrite bool_decide_true by done.
  assert (prefix_enabled s = true) as He by (by rewrite (bm_enabled _ _ Hok), Hpc).
  set (r := if decide _ then _ else _) in *.
  pose proof (bm_pcw _ _ _ Hok Hpc) as Hpw. unfold room, all_handles, cache_handles in *.
  rewrite Hpc in *. wp_steps. eapply wp_on_cache; [done|]. eapply wp_mono.
  { apply (match_ok tokens_ids existed (pc, world_ s)); [done|done|]. simpl. lia. }
  intros r' p (Hp & Hr' & Hlru & Hn & Hcb & Hm). simpl in *. fold r in Hr'. subst r'.
  assert (∀ a n, nodes p.1 !! a = Some n → nodes pc !! a = Some n) as Hback by (by rewrite Hn).
  assert (∀ i, i ∈ ids r → cached s i) as Hrc.
  { intros i Hi. unfold ids in Hi. apply list_elem_of_fmap in Hi as (b & -> & Hb).
    unfold r in Hb. case_decide; [by apply elem_of_nil in Hb|].
    apply elem_of_app in Hb as [Hb|(a & n & _ & Hna & <-)%blocks_at_elem]; [by apply Hex|].
    by exists pc, a, n. }
  set (s1 := set_cache p s).
  assert (bm_ok (with_used (Z.of_nat (base.size (held (r :: seqs)))) s1) (r :: seqs)) as Hok1.
  { apply (bm_ok_set_cache s seqs (r :: seqs)
             (p.1, mkWorld (cells p.2) (next_cell p.2) (set_used _ (mgr p.2))) (upload_ s)); simpl.
    - done.
    - by rewrite Hpc.
    - split; [apply Hp|]. destruct Hp as [_ Hw]. simpl.
      assert (world_ok p.2 (pc_handles p.1 [] ++ href (padding_block_ s) ++ hrefs (r ++ concat seqs)))
        as [Hc [? ? ? ? ?]]; [|split; [done|by constructor]].
      refine (proj1 (world_ok_proper _ _ _ _) Hw). rewrite hrefs_app. perm.
    - by rewrite Hm.
    - intros a a' n n' Ha Ha'. by apply (bm_inj _ _ Hok pc); try apply Hback.
    - constructor; [done|apply (bm_vecs _ _ Hok)].
    - intros i. rewrite holders_cons, Hn. intros Hi. assert (cached s i) as Hci.
      { case_decide; [by apply Hrc|]. by apply (bm_shared _ _ Hok He). }
      destruct Hci as (pc' & a & n & Hpc' & ?). rewrite Hpc in Hpc'. injection Hpc' as <-. eauto.
    - done.
    - apply (bm_upload _ _ Hok). }
  pose proof (held_bound _ _ Hok1) as Hb1. rewrite held_cons in Hb1 by done.
  pose proof (held_bound _ _ Hok) as Hb.
  assert (prefix_enabled s1 = true) as He1.
  { unfold s1, prefix_enabled, core in *. simpl. by rewrite Hm. }
  assert (length r ≤ length existed + length tokens_ids)%nat as Hlr.
  { unfold r. case_decide; [simpl; lia|]. rewrite length_app. apply Nat.add_le_mono_l.
    etrans; [apply blocks_at_length|]. unfold match_hits.
    assert (∀ ks, length (hits pc ks) ≤ length ks)%nat as Hh.
    { induction ks as [|k ks IH]; simpl; [lia|]. destruct (find_addr pc k); simpl; lia. }
    etrans; [apply Hh|]. rewrite chain_hash_length. unfold chunks. rewrite length_fmap, length_seq.
    assert (length tokens_ids / block_size_ pc ≤ length tokens_ids)%nat; [|lia].
    apply Nat.Div0.div_le_upper_bound. pose proof (pk_bs _ _ (proj1 Hpw)). simpl in *. nia. }
  assert (num_used_blocks_ (core s1) = Z.of_nat (base.size (held seqs))) as Hu1.
  { unfold s1, core. simpl. rewrite Hm. by apply (bm_used _ _ Hok). }
  rewrite <-(with_used_id s1). rewrite Hu1.
  apply wp_bind. eapply wp_mono.
  { apply (count_shared_all (with_used (Z.of_nat (base.size (held (r :: seqs)))) s1) r seqs r
             (Z.of_nat (base.size (held seqs)))); [exact Hok1|done|done|lia|].
    rewrite !length_app in Hroom. lia. }
  intros _ s2 ->. apply wp_ret. split; [done|]. split; [|split; [|split]].
  - rewrite <-Nat2Z.inj_add, <-held_cons by done. exact Hok1.
  - unfold same_config, with_used, core, s1 in *. simpl. by rewrite Hm.
  - unfold with_used, core, s1. simpl. by rewrite Hm.
  - intros i. unfold cached. simpl. rewrite Hpc. split.
    + intros (pc' & a & n & [= <-] & Ha & Hi). exists pc, a, n. rewrite Hn in Ha. done.
    + intros (pc' & a & n & [= <-] & Ha & Hi). exists p.1, a, n. by rewrite Hn.
Qed.

(** *** Insertion into the prefix cache *)

(** The blocks [P] are not in the cache under another key, nor twice in [P]. *)
Definition keyed s (P : Block → Prop) : Prop :=
  (∀ pc a n b, prefix_cache_ s = Some pc → nodes pc !! a = Some n → P b →
     id (block n) = id b → ukey (hash_value_ (block n)) = ukey (hash_value_ b)) ∧
  (∀ b b', P b → P b' → id b = id b' → ukey (hash_value_ b) = ukey (hash_value_ b')).

Lemma grown_inj s pc (P : Block → Prop) (p : PrefixCache * World Core) l :
  prefix_cache_ s = Some pc → pc_ok p.1 l → keyed s P → grown pc P p.1 →
  (∀ a a' n n', nodes pc !! a = Some n → nodes pc !! a' = Some n' →
     id (block n) = id (block n') → a = a') →
  ∀ a a' n n', nodes p.1 !! a = Some n → nodes p.1 !! a' = Some n' →
     id (block n) = id (block n') → a = a'.
Proof.
  intros Hpc Hok [K1 K2] Hg Hinj a a' n n' Hn Hn' Hid.
  assert (ukey (hash_value_ (block n)) = ukey (hash_value_ (block n')) → a = a') as Hkey.
  { intros Hk. pose proof (pk_cached _ _ Hok _ _ Hn) as E. rewrite Hk in E.
    rewrite (pk_cached _ _ Hok _ _ Hn') in E. congruence. }
  destruct (Hg _ _ Hn) as [(n0 & Hn0 & Hb)|HP], (Hg _ _ Hn') as [(n0' & Hn0' & Hb')|HP'];
    rewrite ?Hb, ?Hb' in *.
  - by eapply Hinj.
  - apply Hkey. by eapply K1.
  - apply Hkey. symmetry. by eapply K1.
  - apply Hkey. by apply K2.
Qed.

(** The state after an insertion: the vectors of [seqs'] hold the same ids. *)
Lemma inserted_ok s seqs seqs' pc p (P : Block → Prop) keys :
  bm_ok s seqs → prefix_cache_ s = Some pc →
  pcw_ok p [] (href (padding_block_ s) ++ hrefs (concat seqs)) →
  extends pc p.1 → grown pc P p.1 → keyed s P → mgr p.2 = core s →
  hrefs (concat seqs') = hrefs (concat seqs) → Forall vec_ok seqs' →
  (∀ i, holders i seqs' = holders i seqs) → held seqs' = held seqs →
  bm_ok (set_upload (save_event_async true keys <$> upload_ s) (set_cache p s)) seqs'.
Proof.
  intros Hok Hpc Hp Hext Hg Hk Hm Hhr Hv Hh Hheld.
  apply (bm_ok_set_cache s seqs seqs'); simpl; try done.
  - by rewrite Hhr.
  - by rewrite Hm.
  - eapply (grown_inj s pc P); [done|apply Hp|done|done|intros a a' n n'; by apply (bm_inj _ _ Hok pc a a' n n' Hpc)].
  - intros i. rewrite Hh. intros Hi.
    assert (prefix_enabled s = true) as He by (by rewrite (bm_enabled _ _ Hok), Hpc).
    destruct (bm_shared _ _ Hok He i Hi) as (pc' & a & n & Hpc' & Hn & Hid).
    rewrite Hpc in Hpc'. injection Hpc' as <-.
    destruct (proj2 Hext _ _ Hn) as (n' & Hn' & Hb). exists a, n'. by rewrite Hb.
  - rewrite Hm, Hheld. apply (bm_used _ _ Hok). by rewrite (bm_enabled _ _ Hok), Hpc.
  - intros u. by apply (save_event_upload s seqs).
Qed.

Lemma ids_hashed j ks bs : ids (hashed j ks bs) = ids bs.
Proof.
  revert j bs. induction ks as [|k ks IH]; intros j bs; simpl; [done|]. rewrite IH.
  unfold ids. revert j. induction bs as [|b bs IHb]; intros j; [done|].
  destruct j as [|j]; [done|]. simpl. f_equal. apply IHb.
Qed.
Lemma managed_hashed j ks bs : Forall managed bs → Forall managed (hashed j ks bs).
Proof.
  revert j bs. induction ks as [|k ks IH]; intros j bs Hm; simpl; [done|].
  apply IH. by apply valid_alter.
Qed.

(** The keys and the hashed vector of [cache token_ids bs e] *)
Definition cache_keys s (token_ids : list Z) bs (e : nat) : list key :=
  match prefix_cache_ s with
  | None => []
  | Some pc => if decide (insert_num pc token_ids bs = O) then []
               else insert_keys_of pc token_ids bs e
  end.

Definition caching (ks : list key) bs (e : nat) (b : Block) : Prop :=
  ∃ i k b0, ks !! i = Some k ∧ bs !! (e + i)%nat = Some b0 ∧ b = set_hash_value k b0.

(** Blocks that are not cached yet cannot clash with an entry. *)
Lemma keyed_fresh s ks bs e :
  NoDup (ids bs) → (∀ b, b ∈ bs → ¬ cached s (id b)) → keyed s (caching ks bs e).
Proof.
  intros Hnd Hnc. split.
  - intros pc a n b Hpc Hn (i & k & b0 & _ & Hb0 & ->) Hid. exfalso.
    apply (Hnc b0); [by eapply list_elem_of_lookup_2|]. by exists pc, a, n.
  - intros b b' (i & k & b0 & Hk & Hb0 & ->) (i' & k' & b0' & Hk' & Hb0' & ->) Hid. simpl in Hid.
    assert ((e + i)%nat = (e + i')%nat) as Hi.
    { unfold ids in Hnd.
      refine (proj1 (NoDup_alt _) Hnd _ _ (id b0) _ _); rewrite list_lookup_fmap.
      - by rewrite Hb0.
      - by rewrite Hb0', Hid. }
    assert (i = i') as <- by lia. by simplify_eq.
Qed.

Lemma cache_spec s seqs bs token_ids e now :
  bm_ok s (bs :: seqs) → room s (bs :: seqs) (length bs) →
  let ks := cache_keys s token_ids bs e in
  (∀ pc, prefix_cache_ s = Some pc →
     (e ≤ insert_num pc token_ids bs ∨ insert_num pc token_ids bs = O)%nat) →
  keyed s (caching ks bs e) →
  wp (cache token_ids bs e now)
     (λ r s', r = hashed e ks bs ∧ bm_ok s' (r :: seqs) ∧ same_config s s' ∧
        num_free_blocks_ (core s') = num_free_blocks_ (core s) ∧
        (∀ i, cached s i → cached s' i) ∧
        (length (all_handles s' (r :: seqs)) ≤ length (all_handles s (bs :: seqs)) + length bs)%nat ∧
        ∀ pc', prefix_cache_ s' = Some pc' →
          Forall (λ k, is_Some (find_addr pc' k)) (take (length bs - e) ks)) s.
Proof.
  intros Hok Hroom ks He Hk. unfold cache. wp_steps. rewrite (bm_enabled _ _ Hok).
  unfold ks, cache_keys in *. destruct (prefix_cache_ s) as [pc|] eqn:Hpc.
  2: { rewrite bool_decide_false by apply is_Some_None. apply wp_ret. split; [done|].
       split; [done|]. split; [reflexivity|]. split; [done|]. split; [done|]. split; [lia|].
       intros pc'. by rewrite Hpc. }
  rewrite bool_decide_true by done. specialize (He _ eq_refl).
  pose proof (bm_pcw _ _ _ Hok Hpc) as Hpw.
  pose proof (bm_vecs _ _ Hok) as Hv. apply Forall_cons in Hv as [Hb Hv].
  unfold room, all_handles, cache_handles in Hroom. rewrite Hpc in Hroom.
  unfold cache_insert. apply wp_bind. eapply wp_on_cache; [done|]. eapply wp_mono.
  { eapply (insert_ok token_ids bs e now (pc, world_ s)); [exact Hpw|apply Hb| |exact He|].
    - simpl. rewrite hrefs_app. set_solver.
    - simpl. exact Hroom. }
  cbv zeta. simpl. fold ks. intros [[nt bs'] keys] p (Hp & Hr & (Hext & Hm & _ & Hg & Hins) & Hlen).
  simpl in Hr. injection Hr as _ ->.
  set (ks0 := if decide (insert_num pc token_ids bs = 0%nat) then [] else insert_keys_of pc token_ids bs e) in *.
  unfold save_event. wp_steps. simpl. split; [done|]. split; [|split; [|split; [|split; [|split]]]].
  - apply (inserted_ok s (bs :: seqs) _ pc p (caching ks0 bs e)); simpl; try done.
    + by rewrite !hrefs_app, hrefs_hashed.
    + constructor; [|done]. destruct Hb. split; [by apply managed_hashed|by rewrite ids_hashed].
    + intros i. by rewrite !holders_cons, ids_hashed.
    + unfold held, ids in *. simpl. rewrite !fmap_app. fold (ids (hashed e ks0 bs)).
      by rewrite ids_hashed.
  - unfold same_config, core. simpl. by rewrite Hm.
  - unfold core. simpl. by rewrite Hm.
  - intros i (pc' & a & n & Hpc' & Hn & Hi). rewrite Hpc in Hpc'. injection Hpc' as <-.
    destruct (proj2 Hext _ _ Hn) as (n' & Hn' & Hbn). exists p.1, a, n'. by rewrite Hbn.
  - unfold all_handles, cache_handles. simpl. rewrite Hpc, !length_app, !hrefs_app, hrefs_hashed.
    unfold insert_num in Hlen. lia.
  - intros pc' [= <-]. apply Forall_forall. intros k Hkin.
    apply list_elem_of_lookup in Hkin as [i Hi]. apply lookup_take_Some in Hi as [Hi Hlt].
    destruct (lookup_lt_is_Some_2 bs (e + i)%nat) as [b Hbi]; [lia|].
    destruct (Hins i k b Hi Hbi) as (a & n & Ha & _). by exists a.
Qed.

Lemma cache_blocks_spec s seqs bs now :
  bm_ok s seqs → hrefs bs ⊆ hrefs (concat seqs) → room s seqs (length bs) →
  Forall (λ b, is_valid b = true → managed b) bs →
  keyed s (λ b, b ∈ bs ∧ is_valid b = true) →
  wp (cache_blocks bs now)
     (λ _ s', bm_ok s' seqs ∧ same_config s s' ∧
        num_free_blocks_ (core s') = num_free_blocks_ (core s) ∧
        ∀ pc' b, prefix_cache_ s' = Some pc' → b ∈ bs → is_valid b = true →
          is_Some (find_addr pc' (hash_value_ b))) s.
Proof.
  intros Hok Hsub Hroom Hm Hk. unfold cache_blocks. wp_steps. rewrite (bm_enabled _ _ Hok).
  destruct (prefix_cache_ s) as [pc|] eqn:Hpc.
  2: { rewrite bool_decide_false by apply is_Some_None. apply wp_ret.
       split; [done|]. split; [reflexivity|]. split; [done|]. intros pc' b. by rewrite Hpc. }
  rewrite bool_decide_true by done.
  pose proof (bm_pcw _ _ _ Hok Hpc) as Hpw.
  unfold room, all_handles, cache_handles in Hroom. rewrite Hpc in Hroom.
  unfold cache_insert_blocks. apply wp_bind. eapply wp_on_cache; [done|]. eapply wp_mono.
  { eapply (insert_blocks_ok bs now (pc, world_ s)); [exact Hpw|set_solver|done|simpl; exact Hroom]. }
  intros [nt keys] p (Hp & _ & Hext & Hmg & Hg & Hf). unfold save_event. wp_steps. simpl in *.
  split; [|split; [|split]].
  - apply (inserted_ok s seqs _ pc p (λ b, b ∈ bs ∧ is_valid b = true)); simpl; try done.
    apply (bm_vecs _ _ Hok).
  - unfold same_config, core. simpl. by rewrite Hmg.
  - unfold core. simpl. by rewrite Hmg.
  - intros pc' b [= <-]. apply Hf.
Qed.

(** *** Construction and destruction *)

Lemma PrefixCache_new_ok n : (0 < n ≤ 251)%nat → pc_ok (PrefixCache_new n) [].
Proof.
  intros Hn. constructor; simpl; try done.
  - constructor.
  - intros a. rewrite lookup_empty. split; [by intros ?%elem_of_nil|by intros [? ?]].
  - by intros a ?%elem_of_nil.
Qed.

(** The stack the constructor fills: [n - 1, ..., 1, 0] *)
Definition initial_stack (n : Z) : list Z :=
  (λ i : nat, n - Z.of_nat i - 1) <$> seq 0 (Z.to_nat n).
Lemma initial_stack_lookup n i x :
  initial_stack n !! i = Some x ↔ x = n - Z.of_nat i - 1 ∧ (i < Z.to_nat n)%nat.
Proof.
  unfold initial_stack. rewrite list_lookup_fmap. split.
  - destruct (seq 0 (Z.to_nat n) !! i) eqn:E; [|done]. apply lookup_seq in E as [-> ?].
    intros [= <-]. done.
  - intros [-> Hi]. by rewrite (lookup_seq_lt _ _ _ Hi).
Qed.
Lemma initial_stack_length n : length (initial_stack n) = Z.to_nat n.
Proof. unfold initial_stack. by rewrite length_fmap, length_seq. Qed.

Lemma initial_owns o :
  0 < num_blocks_opt o < 2 ^ 31 →
  core_owns (mkCore o 0 (num_blocks_opt o - 1) (initial_stack (num_blocks_opt o))) {[0%Z]}.
Proof.
  intros Hn. set (n := num_blocks_opt o) in *.
  assert (∀ i x, take (Z.to_nat (n - 1)) (initial_stack n) !! i = Some x ↔
            x = n - Z.of_nat i - 1 ∧ (i < Z.to_nat (n - 1))%nat) as Hlk.
  { intros i x. rewrite lookup_take_Some, initial_stack_lookup. naive_solver lia. }
  constructor; unfold free_ids; simpl; rewrite ?initial_stack_length.
  - lia.
  - lia.
  - apply NoDup_alt. intros i j x. rewrite !Hlk. lia.
  - intros i. rewrite list_elem_of_lookup, elem_of_singleton. setoid_rewrite Hlk. split.
    + intros (k & -> & ?). lia.
    + intros [? ?]. exists (Z.to_nat (n - i - 1)). lia.
  - intros i. rewrite elem_of_singleton. lia.
Qed.

(** The padding block is the first one taken. *)
Lemma initial_allocate pc u o :
  0 < num_blocks_opt o < 2 ^ 31 →
  wp allocate1
    (λ b s', b = mkBlock 0 (u32 (block_size_opt o)) (Some O) true [] ∧
       s' = mkBM pc u (mkWorld (<[0%nat:=1]> ∅) 1
              (mkCore o 0 (num_blocks_opt o - 1) (initial_stack (num_blocks_opt o)))) Block_default)
    (mkBM pc u (mkWorld ∅ 0 (mkCore o 0 (num_blocks_opt o) (initial_stack (num_blocks_opt o))))
       Block_default).
Proof.
  intros Hn. unfold allocate1. wp_steps. apply wp_check; [by apply Z.ltb_lt; simpl; lia|].
  unfold on_core, on_blocks, on_mgr, take_id. wp_steps. simpl. rewrite u64_id by lia.
  eapply (wp_atZ _ _ 0); [lia|by apply initial_stack_lookup; lia|].
  unfold Block_new. by wp_steps.
Qed.

Lemma BlockManagerImpl_new_spec o s :
  0 < num_blocks_opt o < 2 ^ 31 → 0 < block_size_opt o < 2 ^ 31 →
  (enable_prefix_cache o = true → block_size_opt o ≤ 251) →
  wp (BlockManagerImpl_new o)
     (λ _ s', bm_ok s' [] ∧ options_ (core s') = o ∧
        num_free_blocks_ (core s') = num_blocks_opt o - 1 ∧
        length (free_blocks_ (core s')) = Z.to_nat (num_blocks_opt o) ∧
        (∀ i, ¬ cached s' i)) s.
Proof.
  intros Hn Hb Hpc. unfold BlockManagerImpl_new.
  apply wp_bind, wp_check; [by apply Z.ltb_lt; lia|].
  apply wp_bind, wp_check; [by apply Z.ltb_lt; lia|].
  destruct (2 ^ 31 <=? num_blocks_opt o) eqn:E; [apply Z.leb_le in E; lia|].
  wp_steps. eapply wp_mono; [by apply (initial_allocate _ _ o Hn)|].
  intros b s' [-> ->]. unfold on_blocks, Block_move_assign. wp_steps.
  unfold dec_ref_count. simpl. wp_steps. apply wp_check; [done|].
  unfold set_padding, set_world, core; simpl. fold (initial_stack (num_blocks_opt o)).
  rewrite initial_stack_length.
  split; [|split; [done|split; [done|split; [done|]]]].
  - unfold create_prefix_cache. constructor; simpl.
    + assert (cells_ok (<[0%nat:=1]> ∅) 1 [(0%nat, Some 0)]) as Hc.
      { apply (cells_ok_alloc ∅ 0 []); [apply cells_ok_nil|set_solver|done]. }
      assert (∀ hs, hs = [(0%nat, Some 0)] → world_ok (mkWorld (<[0%nat:=1]> ∅) 1
        (mkCore o 0 (num_blocks_opt o - 1) (initial_stack (num_blocks_opt o)))) hs) as Hw.
      { intros hs ->. split; [exact Hc|]. simpl. unfold ids_of. simpl. rewrite (right_id_L ∅ (∪)).
        by apply initial_owns. }
      apply Hw. unfold all_handles, cache_handles. simpl. by destruct (enable_prefix_cache o).
    + unfold prefix_enabled, core. simpl. by destruct (enable_prefix_cache o).
    + intros pc Hp. destruct (enable_prefix_cache o); [|done]. injection Hp as <-.
      rewrite u32_id by lia. apply PrefixCache_new_ok. specialize (Hpc eq_refl). lia.
    + intros pc a a' n n' Hp. destruct (enable_prefix_cache o); [|done]. by injection Hp as <-.
    + done.
    + constructor.
    + intros _ i Hi. simpl in Hi. unfold holders in Hi. simpl in Hi. lia.
    + done.
    + intros u Hu. destruct (enable_prefix_cache o), (enable_cache_upload o); try done.
      injection Hu as <-. eexists. apply Upload_new_ok.
  - intros i (pc & a & n & Hp & Ha & _). simpl in Hp. unfold create_prefix_cache in Hp.
    destruct (enable_prefix_cache o); [|done]. simpl in Hp. by injection Hp as <-.
Qed.

(** Free ids and live ids make up the pool. *)
Lemma bm_num s seqs :
  bm_ok s seqs →
  num_free_blocks_ (core s) =
    Z.of_nat (length (free_blocks_ (core s))) - 1 -
    Z.of_nat (base.size (ids_of (all_handles s seqs) ∖ {[0%Z]})).
Proof. intros Hok. apply core_owns_num, (bm_world _ _ Hok). Qed.

Lemma cached_all s seqs i : bm_ok s seqs → cached s i → i ∈ ids_of (all_handles s seqs) ∖ {[0%Z]}.
Proof.
  intros Hok Hc. destruct (cnti_cache s i seqs Hok) as [[_ ?]|[H1 _]]; [done|].
  destruct Hc as (pc & a & n & Hpc & Hn & <-).
  pose proof (pk_valid _ _ (bm_cache _ _ Hok _ Hpc) _ _ Hn) as (_ & _ & Hpos).
  apply elem_of_difference. split; [|rewrite elem_of_singleton; lia].
  destruct (decide (id (block n) ∈ ids_of (cache_handles s))) as [|Hni].
  - unfold all_handles. rewrite ids_of_app. set_solver.
  - apply cnti_zero in Hni. lia.
Qed.

(** A block is live when it is cached or held. *)
Lemma live_iff s seqs i :
  bm_ok s seqs → i ≠ 0 → i ∈ ids_of (all_handles s seqs) ↔ cached s i ∨ i ∈ held seqs.
Proof.
  intros Hok Hi. split.
  - unfold all_handles. rewrite !ids_of_app, !elem_of_union. intros [Hc|[Hp|Hh]].
    + left. destruct (cnti_cache s i seqs Hok) as [[Hz _]|[_ ?]]; [|done]. by apply cnti_zero in Hz.
    + unfold href, payload in Hp. destruct (bm_padding _ _ Hok) as [Hid Hm]. rewrite Hm, Hid in Hp.
      destruct (ref_count_ (padding_block_ s)); unfold ids_of in Hp; set_solver.
    + right. rewrite ids_of_hrefs in Hh; [set_solver|].
      apply Forall_concat. eapply Forall_impl; [apply (bm_vecs _ _ Hok)|]. by intros ? [].
  - intros [Hc|Hh]; [|by apply held_all]. apply (cached_all s seqs) in Hc; [|done]. set_solver.
Qed.
Lemma free_iff s seqs i :
  bm_ok s seqs →
  i ∈ free_ids (core s) ↔
  1 ≤ i < Z.of_nat (length (free_blocks_ (core s))) ∧ ¬ cached s i ∧ i ∉ held seqs.
Proof.
  intros Hok. unfold core. rewrite (cw_free _ _ (proj2 (bm_world _ _ Hok))). split.
  - intros [Hi Hn]. rewrite (live_iff s seqs) in Hn by (done || lia). tauto.
  - intros (Hi & Hn). split; [done|]. rewrite (live_iff s seqs) by (done || lia). tauto.
Qed.
Lemma held_range s seqs i :
  bm_ok s seqs → i ∈ held seqs → 1 ≤ i < Z.of_nat (length (free_blocks_ (core s))).
Proof.
  intros Hok Hi. pose proof (held_all s seqs i Hok Hi) as Ha.
  apply (cw_range _ _ (proj2 (bm_world _ _ Hok))) in Ha. split; [|unfold core; lia].
  unfold held in Hi. rewrite elem_of_list_to_set in Hi.
  apply list_elem_of_fmap in Hi as (b & -> & Hb).
  pose proof (bm_vecs _ _ Hok) as Hv. apply list_elem_of_In, in_concat in Hb as (bs & Hbs & Hb).
  rewrite Forall_forall in Hv. destruct (Hv bs) as [Hm _]; [by apply list_elem_of_In|].
  rewrite Forall_forall in Hm. destruct (Hm b) as (_ & _ & ?); [by apply list_elem_of_In|]. lia.
Qed.
End operations.
