(* ===== verification/CacheEvents.v ===== *)
(** The uploaded events describe the cache: the manager with upload enabled
    ([core/framework/block/block_manager_impl.cpp] over
    [prefix_cache/prefix_cache_with_upload.cpp]).

    A reader that applies every event [get_merged_kvcache_event] delivers holds, up
    to the events still in the front buffer or in the recorder's queue, the keys the
    prefix cache holds: the invariant [reader_ok] and its preservation by every
    operation of the block manager. *)

From stdpp Require Import base gmap list strings sets.
From Stdlib Require Import ZArith Lia.
From S2P Require Import Prelude HashKey Blocks DList PrefixCache KvEvents BlockManager.
Open Scope Z_scope.

(** ** What the cache's operations do to its key set *)

Section keys.
Context `{HashFns} {S : Type} `{BlockOwner S}.
Abbreviation PCW := (PrefixCache * World S)%type.
Implicit Types (s : PCW).

Definition key_set (pc : PrefixCache) : gset (Z * list Z) := dom (cached_blocks_ pc).

Lemma post_on_world {A} (m : prog (World S) A) (Q : A → PCW → Prop) s :
  (∀ a w, Q a (s.1, w)) → post (on_world m) Q s.
Proof. intros HQ. apply post_zoom_any. intros a w. apply HQ. Qed.

Lemma find_node_post k (Q : option (nat * PNode) → PCW → Prop) s :
  (∀ a n, ukey k ∈ key_set s.1 → Q (Some (a, n)) s) → Q None s → post (find_node k) Q s.
Proof.
  intros HS HN. unfold find_node, pc_get. apply post_bind, post_gets.
  destruct (cached_blocks_ s.1 !! ukey k) as [a|] eqn:E; [|by apply post_ret].
  destruct (nodes s.1 !! a); [|done]. apply post_ret, HS. by apply elem_of_dom_2 in E.
Qed.

Lemma next_key_post {token_ids bs j k} (Q : key → PCW → Prop) s :
  (∀ k', Q k' s) → post (next_key token_ids bs j k) Q s.
Proof.
  intros HQ. unfold next_key, slice. apply post_bind, post_bind, post_check. intros _.
  apply post_ret. unfold xxh3_128bits_hash.
  destruct (if decide (j = 0%nat) then None else Some k) as [pre|]; [|by apply post_ret].
  apply post_bind, post_check. intros _. by apply post_ret.
Qed.

Lemma match_loop_post token_ids bs js k blocks local s :
  post (match_loop token_ids bs js k blocks local) (λ _ s', key_set s'.1 = key_set s.1) s.
Proof.
  revert k blocks local s. induction js as [|j js IH]; intros k blocks local s; simpl; [done|].
  apply post_bind, next_key_post. intros k'. apply post_bind, find_node_post; [|done].
  intros a n _. apply post_bind, post_on_world. intros b w.
  apply post_bind, post_gets. apply post_bind, post_modify.
  eapply post_mono; [apply IH|]. by intros r s' ->.
Qed.
Lemma match_post token_ids existed s :
  post (match_ token_ids existed) (λ _ s', key_set s'.1 = key_set s.1) s.
Proof.
  unfold match_. apply post_bind, post_gets. case_decide; [done|].
  apply post_bind, post_modify, post_bind, post_on_world. intros bs w.
  apply post_bind. eapply post_mono; [apply match_loop_post|]. intros r s' Hk.
  by apply post_bind, post_modify, post_bind, post_modify.
Qed.

(** The set of keys after the insertions (or removals) of a task *)
Definition task_set (i : bool) (V : gset (Z * list Z)) (ks : list key) : gset (Z * list Z) :=
  foldl (replay1 i) V ks.
Lemma task_set_app i V k1 k2 : task_set i V (k1 ++ k2) = task_set i (task_set i V k1) k2.
Proof. unfold task_set. by rewrite foldl_app. Qed.

(** The keys reported are exactly the change of the key set. *)
Definition reports (i : bool) (ks0 ks : list key) s s' : Prop :=
  ∃ ks', ks = ks0 ++ ks' ∧ key_set s'.1 = task_set i (key_set s.1) ks'.
Lemma reports_refl i ks s s' : key_set s'.1 = key_set s.1 → reports i ks ks s s'.
Proof. exists []. by rewrite app_nil_r. Qed.
Lemma reports_trans i k1 k2 k3 s1 s2 s3 :
  reports i k1 k2 s1 s2 → reports i k2 k3 s2 s3 → reports i k1 k3 s1 s3.
Proof.
  intros (a & -> & Ha) (b & -> & Hb). exists (a ++ b).
  by rewrite app_assoc, task_set_app, <-Ha.
Qed.

Lemma insert_one_post k b now local keys s :
  post (insert_one k b now local keys) (λ r s', reports true keys r.2 s s') s.
Proof.
  unfold insert_one. apply post_bind, find_node_post.
  - intros a n _. apply post_bind, post_modify, post_bind, post_gets, post_bind, post_modify.
    apply post_ret. by apply reports_refl.
  - unfold new_node. apply post_bind, post_bind, post_on_world. intros b' w.
    apply post_bind, post_gets, post_bind, post_modify. apply post_ret, post_ret.
    exists [k]. split; [done|]. unfold key_set, task_set. simpl. by rewrite dom_insert_L.
Qed.
Lemma insert_loop_post token_ids bs now js k blocks local keys s :
  post (insert_loop token_ids bs now js k blocks local keys)
       (λ r s', reports true keys r.2 s s') s.
Proof.
  revert k blocks local keys s. induction js as [|j js IH]; intros k blocks local keys s; simpl.
  { apply post_ret. by apply reports_refl. }
  apply post_bind, next_key_post. intros k'. apply post_bind, post_at. intros b _.
  apply post_bind. eapply post_mono; [apply insert_one_post|]. intros r s1 H1.
  eapply post_mono; [apply IH|]. intros r' s2 H2. eapply reports_trans; [exact H1|exact H2].
Qed.
Lemma insert_post token_ids blocks e now s :
  post (PrefixCache.insert token_ids blocks e now) (λ r s', reports true [] r.2 s s') s.
Proof.
  unfold PrefixCache.insert. apply post_bind, post_gets. case_decide.
  { apply post_ret. by apply reports_refl. }
  apply post_bind, post_check. intros _. apply post_bind.
  assert (∀ (Q : key → PCW → Prop), (∀ k, Q k s) →
    post (match e with O => mret [] | Datatypes.S m => at_ blocks m ≫= λ b, mret (hash_value_ b) end)
         Q s) as Hk.
  { intros Q HQ. destruct e; [apply post_ret, HQ|]. apply post_bind, post_at. intros b _. apply post_ret, HQ. }
  apply Hk. intros k. apply post_bind. eapply post_mono; [apply insert_loop_post|].
  intros r s' Hr. apply post_bind, post_modify. by apply post_ret.
Qed.
Lemma insert_blocks_loop_post bs now local keys s :
  post (insert_blocks_loop bs now local keys) (λ r s', reports true keys r.2 s s') s.
Proof.
  revert local keys s. induction bs as [|b bs IH]; intros local keys s; simpl.
  { apply post_ret. by apply reports_refl. }
  destruct (is_valid b); [|apply IH].
  apply post_bind. eapply post_mono; [apply insert_one_post|]. intros r s1 H1.
  eapply post_mono; [apply IH|]. intros r' s2 H2. eapply reports_trans; [exact H1|exact H2].
Qed.
Lemma insert_blocks_post bs now s :
  post (insert_blocks bs now) (λ r s', reports true [] r.2 s s') s.
Proof.
  unfold insert_blocks. apply post_bind. eapply post_mono; [apply insert_blocks_loop_post|].
  intros r s' Hr. by apply post_bind, post_modify, post_bind, post_gets.
Qed.
Lemma evict_loop_post its n c keys s :
  post (evict_loop its n c keys) (λ r s', reports false keys r.2 s s') s.
Proof.
  revert c keys s. induction its as [|a its IH]; intros c keys s; simpl.
  { apply post_ret. by apply reports_refl. }
  case_decide; [apply post_ret; by apply reports_refl|].
  apply post_bind, post_gets. destruct (nodes s.1 !! a) as [n0|]; [|done].
  apply post_bind, post_on_world. intros [] w.
  { eapply post_mono; [apply IH|]. intros r s' Hr. by eapply reports_trans; [apply reports_refl|]. }
  apply post_bind, post_modify, post_bind, post_on_world. intros [] w'.
  eapply post_mono; [apply IH|]. intros r s' Hr. eapply reports_trans; [|exact Hr].
  exists [hash_value_ (block n0)]. split; [done|]. unfold key_set, task_set. simpl.
  by rewrite dom_delete_L.
Qed.
Lemma evict_post n s : post (evict n) (λ r s', reports false [] r.2 s s') s.
Proof.
  unfold evict. apply post_bind, post_gets. destruct (_ || _); [|apply evict_loop_post].
  apply post_ret. by apply reports_refl.
Qed.
End keys.

(** ** The reader of the heartbeats *)

Section reader.
Context `{HashFns}.
Implicit Types (s : BM) (V : gset (Z * list Z)).

(** [V] with the events not delivered yet is the key set of the cache. *)
Definition reader_ok V s : Prop :=
  ∀ pc u, prefix_cache_ s = Some pc → upload_ s = Some u →
    ∃ f, upload_ok u f ∧ replay (apply_event V f) (pending u) = key_set pc.

Lemma reader_ext V s s' :
  prefix_cache_ s' = prefix_cache_ s → upload_ s' = upload_ s → reader_ok V s → reader_ok V s'.
Proof. unfold reader_ok. by intros -> ->. Qed.
Lemma post_on_blocks {A} V (m : prog (World Core) A) s :
  reader_ok V s → post (on_blocks m) (λ _ s', reader_ok V s') s.
Proof. intros Hr. apply post_zoom_any. intros a w. by eapply reader_ext; [..|exact Hr]. Qed.
Lemma post_on_core {A} V (m : prog Core A) s :
  reader_ok V s → post (on_core m) (λ _ s', reader_ok V s') s.
Proof. apply post_on_blocks. Qed.

(** A cache operation followed by the recording of what it reports *)
Lemma report_ok {A} V i (m : prog (PrefixCache * World Core) A) (ks : A → list key) s :
  reader_ok V s → (∀ p, post m (λ r p', reports i [] (ks r) p p') p) →
  post (on_cache m ≫= λ r, save_event i (ks r)) (λ _ s', reader_ok V s') s.
Proof.
  intros Hr Hm. apply post_bind. unfold on_cache, post.
  destruct (prefix_cache_ s) as [pc|] eqn:Hpc; [|done]. unfold zoom.
  specialize (Hm (pc, world_ s)). unfold post in Hm.
  destruct (m (pc, world_ s)) as [r p| | |]; try done. unfold save_event, modify.
  intros pc' u. simpl. intros [= <-] Hu.
  destruct (upload_ s) as [u0|] eqn:Hu0; [|done]. simpl in Hu. injection Hu as <-.
  destruct (Hr pc u0 Hpc Hu0) as (f & Hf & Hv). exists f. split; [by apply save_event_ok|].
  simpl. rewrite replay_app, Hv. destruct Hm as (ks' & -> & Hk). simpl in Hk. by rewrite Hk.
Qed.
Lemma post_bind_ret {St A C} (m : prog St A) (f : A → prog St unit) (g : A → C) (Q : St → Prop)
    (st : St) :
  post (m ≫= f) (λ _, Q) st → post (m ≫= λ a, f a ≫= λ _, mret (g a)) (λ _, Q) st.
Proof.
  unfold post, mbind, prog_bind. destruct (m st) as [a st'| | |]; try done. by destruct (f a st').
Qed.

Lemma cache_evict_reader V n s : reader_ok V s → post (cache_evict n) (λ _ s', reader_ok V s') s.
Proof.
  intros Hr. unfold cache_evict. apply post_bind_ret.
  apply (report_ok V false _ snd); [done|]. intros p. apply evict_post.
Qed.
Lemma cache_insert_reader V ts bs e now s :
  reader_ok V s → post (cache_insert ts bs e now) (λ _ s', reader_ok V s') s.
Proof.
  intros Hr. unfold cache_insert. apply post_bind_ret.
  apply (report_ok V true _ snd); [done|]. intros p. apply insert_post.
Qed.

Lemma count_used_reader V c s (b : Block) (f : Z → prog BM unit) :
  reader_ok V s → c = ref_count b → (∀ n s', reader_ok V s' → post (f n) (λ _ s', reader_ok V s') s') →
  post (on_blocks c ≫= f) (λ _ s', reader_ok V s') s.
Proof.
  intros Hr _ Hf. apply post_bind. eapply post_mono; [by apply post_on_blocks|].
  intros n s' Hs'. by apply Hf.
Qed.

Lemma allocate_reader V n s : reader_ok V s → post (allocate n) (λ _ s', reader_ok V s') s.
Proof.
  intros Hr. unfold allocate, has_enough_blocks. apply post_bind, post_bind, post_get.
  assert (∀ (en : bool) s0, reader_ok V s0 →
    post (if negb en then mret [] else get ≫= λ s,
            check (n <=? num_free_blocks_ (core s)) "Not enough blocks available" ≫= λ _,
            repeat_each (Z.to_nat n)
              (on_core take_id ≫= λ i, on_blocks (Block_new i true)) ≫= λ blocks,
            on_core (modify (λ c, set_used (u64 (num_used_blocks_ c + n)) c)) ≫= λ _,
            mret blocks) (λ _ s', reader_ok V s') s0) as Hk.
  { intros [] s0 Hs0; simpl; [|done]. apply post_bind, post_get, post_bind, post_check. intros _.
    apply post_bind. eapply post_mono; [apply (post_repeat_each _ _ (reader_ok V)); [done|]|].
    - intros s1 Hs1. apply post_bind. eapply post_mono; [by apply post_on_core|].
      intros i s2 Hs2. by apply post_on_blocks.
    - intros bs s1 Hs1. apply post_bind. eapply post_mono; [apply post_on_core; exact Hs1|]. done. }
  destruct (_ <=? num_free_blocks_ _); [by apply post_ret, Hk|].
  destruct (negb _); [by apply post_ret, Hk|].
  apply post_bind. eapply post_mono; [by apply cache_evict_reader|]. intros k s1 Hs1.
  destruct (_ <? _); [by apply post_ret, Hk|]. apply post_bind, post_get.
  destruct (_ <=? num_free_blocks_ _); [by apply post_ret, Hk|].
  apply post_bind. unfold on_cache, post. destruct (prefix_cache_ s1) as [pc|] eqn:Hpc; [|done].
  unfold zoom, PrefixCache.num_blocks, pc_get, mbind, prog_bind, gets, check. simpl.
  destruct (_ =? _); [|done]. simpl.
  pose proof (Hk false (set_cache (pc, world_ s1) s1)) as Hf. apply Hf.
  eapply reader_ext; [..|exact Hs1]; simpl; [by rewrite Hpc|done].
Qed.

Lemma deallocate_reader V bs s : reader_ok V s → post (deallocate bs) (λ _ s', reader_ok V s') s.
Proof.
  intros Hr. unfold deallocate. apply post_bind, post_get.
  destruct (prefix_enabled s); [|by apply post_on_core].
  apply (post_for_each _ _ (reader_ok V)); [done|]. intros b s1 _ Hs1. unfold release_one.
  apply post_bind. eapply post_mono; [by apply post_on_blocks|]. intros n s2 Hs2.
  destruct (_ && _); [|done]. apply post_bind, post_get. destruct (_ =? 0); [done|].
  by apply post_on_core.
Qed.

Lemma allocate_shared_reader V ts ex s :
  reader_ok V s → post (allocate_shared ts ex) (λ _ s', reader_ok V s') s.
Proof.
  intros Hr. unfold allocate_shared. apply post_bind, post_get.
  destruct (prefix_enabled s); [|done]. apply post_bind.
  assert (post (on_cache (match_ ts ex)) (λ _ s', reader_ok V s') s) as Hm.
  { unfold on_cache, post. destruct (prefix_cache_ s) as [pc|] eqn:Hpc; [|done]. unfold zoom.
    pose proof (match_post ts ex (pc, world_ s)) as Hm. unfold post in Hm.
    destruct (match_ ts ex (pc, world_ s)) as [r p| | |]; try done. simpl in Hm.
    intros pc' u [= <-] Hu. simpl in Hu. rewrite Hm. by apply Hr. }
  eapply post_mono; [exact Hm|]. intros bs s1 Hs1. apply post_bind.
  eapply post_mono; [apply (post_for_each _ _ (reader_ok V)); [done|]|done].
  intros b s2 _ Hs2. unfold count_shared. apply post_bind.
  eapply post_mono; [by apply post_on_blocks|]. intros n s3 Hs3.
  destruct (_ <=? 2); [by apply post_on_core|done].
Qed.

Lemma cache_reader V ts bs e now s :
  reader_ok V s → post (cache ts bs e now) (λ _ s', reader_ok V s') s.
Proof.
  intros Hr. unfold cache. apply post_bind, post_get.
  destruct (prefix_enabled s); [by apply cache_insert_reader|done].
Qed.
Lemma cache_blocks_reader V bs now s :
  reader_ok V s → post (cache_blocks bs now) (λ _ s', reader_ok V s') s.
Proof.
  intros Hr. unfold cache_blocks. apply post_bind, post_get. destruct (prefix_enabled s); [|done].
  unfold cache_insert_blocks. apply (report_ok V true _ snd); [done|].
  intros p. apply insert_blocks_post.
Qed.

(** The recorder's worker *)
Definition record_step : prog BM unit := modify (λ s, set_upload (run_next <$> upload_ s) s).
Lemma record_step_reader V s : reader_ok V s → post record_step (λ _ s', reader_ok V s') s.
Proof.
  intros Hr. unfold record_step. apply post_modify. intros pc u' Hpc. simpl. intros Hu.
  destruct (upload_ s) as [u|] eqn:Hup; [|done]. simpl in Hu. injection Hu as <-.
  destruct (Hr pc u Hpc Hup) as (f & Hf & Hv). destruct (run_next_ok u f Hf) as (f' & Hf' & Hr').
  exists f'. by rewrite Hr'.
Qed.

(** The heartbeat: the reader applies the delivered event. *)
Lemma merged_event_reader V s :
  reader_ok V s →
  post (get_merged_kvcache_event KvCacheEvent_new) (λ e s', reader_ok (apply_event V e) s') s.
Proof.
  intros Hr. unfold get_merged_kvcache_event. apply post_bind, post_get.
  destruct (prefix_cache_ s) as [pc|] eqn:Hpc; [|done].
  destruct (upload_ s) as [u|] eqn:Hup.
  2: { apply post_ret. intros pc' u' _. by rewrite Hup. }
  destruct (Hr pc u Hpc Hup) as (f & Hf & Hv).
  pose proof (merge_events_ok u f KvCacheEvent_new Hf) as Hm. unfold wp in Hm.
  unfold post, zoom. destruct (merge_events KvCacheEvent_new u) as [e u'| | |]; [|done..].
  destruct Hm as (Hu' & Hp & Hs & Hrm). intros pc' u''. simpl. rewrite Hpc. intros [= <-] [= <-].
  exists KvCacheEvent_new. split; [done|]. rewrite Hp, apply_event_new, <-Hv.
  assert (apply_event V e = apply_event V f) as ->; [|done].
  unfold apply_event. rewrite Hs, Hrm. unfold classes. simpl. rewrite !dom_empty_L.
  by rewrite !(left_id_L ∅ (∪)).
Qed.

(** *** Traces *)

Inductive reader_step :=
  | RAllocate (n : Z)
  | RDeallocate (bs : list Block)
  | RAllocate_shared (ts : list Z) (existed : list Block)
  | RCache (ts : list Z) (bs : list Block) (existed : nat) (now : Z)
  | RCache_blocks (bs : list Block) (now : Z)
  | RDrop (bs : list Block)
  | RRecord
  | RHeartbeat.

(** The manager and the reader's view after one call, if it returns. *)
Definition reader_run (a : reader_step) (V : gset (Z * list Z)) : prog BM (gset (Z * list Z)) :=
  match a with
  | RAllocate n => allocate n ≫= λ _, mret V
  | RDeallocate bs => deallocate bs ≫= λ _, mret V
  | RAllocate_shared ts ex => allocate_shared ts ex ≫= λ _, mret V
  | RCache ts bs e now => cache ts bs e now ≫= λ _, mret V
  | RCache_blocks bs now => cache_blocks bs now ≫= λ _, mret V
  | RDrop bs => on_blocks (destroy_all bs) ≫= λ _, mret V
  | RRecord => record_step ≫= λ _, mret V
  | RHeartbeat => get_merged_kvcache_event KvCacheEvent_new ≫= λ e, mret (apply_event V e)
  end.
Fixpoint reader_runs (tr : list reader_step) (V : gset (Z * list Z))
    : prog BM (gset (Z * list Z)) :=
  match tr with
  | [] => mret V
  | a :: tr => reader_run a V ≫= λ V', reader_runs tr V'
  end.

Lemma reader_run_ok a V s : reader_ok V s → post (reader_run a V) (λ V' s', reader_ok V' s') s.
Proof.
  intros Hr. destruct a; simpl; apply post_bind;
    (eapply post_mono; [|intros ? ? Hr'; apply post_ret; exact Hr']).
  - by apply allocate_reader.
  - by apply deallocate_reader.
  - by apply allocate_shared_reader.
  - by apply cache_reader.
  - by apply cache_blocks_reader.
  - by apply post_on_blocks.
  - by apply record_step_reader.
  - by apply merged_event_reader.
Qed.
Lemma reader_runs_ok tr V s : reader_ok V s → post (reader_runs tr V) (λ V' s', reader_ok V' s') s.
Proof.
  revert V s. induction tr as [|a tr IH]; intros V s Hr; simpl; [by apply post_ret|].
  apply post_bind. eapply post_mono; [by apply reader_run_ok|]. intros V' s'. apply IH.
Qed.
End reader.
