(* ===== verification/BlockClient.v ===== *)
(** The protocol of the block manager's clients.

    The clients of [BlockManagerImpl] are the sequences of the scheduler (through
    [BlockManagerPool] and [KVCacheState]): they hold vectors of blocks, obtained
    from [allocate] and [allocate_shared], publish them with [cache], append one
    vector to another and hand vectors back with [deallocate].  A state of the
    system is a manager with the vectors held; the file proves that no
    interleaving of these calls, under the preconditions [client_pre] of each,
    runs into undefined behaviour, a failed [CHECK] or a fatal log, and that the
    manager's invariant holds in every reachable state. *)

From stdpp Require Import base gmap list strings sets.
From Stdlib Require Import ZArith Lia.
From S2P Require Import Prelude HashKey Blocks DList PrefixCache KvEvents BlockManager.
Open Scope Z_scope.

(** ** Calls *)

Inductive client_op :=
  | OpAllocate (n : Z)
  | OpShare (tokens_ids : list Z) (existed : list Block)
  | OpCache (i : nat) (token_ids : list Z) (existed_shared_blocks_num : nat) (now : Z)
  | OpAppend (i j : nat)
  | OpRelease (i : nat).

Section client.
Context `{HashFns}.
Implicit Types (s : BM) (seqs : list (list Block)).

(** The [i]-th vector and the others *)
Definition others (i : nat) seqs : list (list Block) := delete i seqs.

(** One call: the vectors held after it. *)
Definition client_run (op : client_op) seqs : prog BM (list (list Block)) :=
  match op with
  | OpAllocate n => allocate n ≫= λ bs, mret (bs :: seqs)
  | OpShare ts existed => allocate_shared ts existed ≫= λ bs, mret (bs :: seqs)
  | OpCache i ts e now =>
      at_ seqs i ≫= λ bs, cache ts bs e now ≫= λ bs', mret (bs' :: others i seqs)
  | OpAppend i j =>
      at_ seqs i ≫= λ bs,
      at_ (others i seqs) j ≫= λ bs',
      mret ((bs ++ bs') :: others j (others i seqs))
  | OpRelease i => at_ seqs i ≫= λ bs, release bs ≫= λ _, mret (others i seqs)
  end.

(** What a caller guarantees: sizes within the widths of the code, vectors it
    holds, shared blocks that come from the cache, no colliding keys. *)
Definition client_pre (op : client_op) s seqs : Prop :=
  match op with
  | OpAllocate n => 0 ≤ n < 2 ^ 32 ∧ room s seqs (Z.to_nat n)
  | OpShare ts existed =>
      hrefs existed ⊆ all_handles s seqs ∧ (∀ b, b ∈ existed → cached s (id b)) ∧
      vec_ok (shared_result s ts existed) ∧ room s seqs (length existed + length ts)
  | OpCache i ts e now =>
      ∃ bs, seqs !! i = Some bs ∧ room s seqs (length bs) ∧
        (∀ pc, prefix_cache_ s = Some pc →
           (e ≤ insert_num pc ts bs ∨ insert_num pc ts bs = O)%nat) ∧
        keyed s (caching (cache_keys s ts bs e) bs e)
  | OpAppend i j =>
      ∃ bs bs', seqs !! i = Some bs ∧ others i seqs !! j = Some bs' ∧
        (∀ x, x ∈ ids bs → x ∉ ids bs')
  | OpRelease i => (i < length seqs)%nat
  end.

(** The states the calls reach from a fresh manager *)
Inductive reachable (o : Options) : BM → list (list Block) → Prop :=
  | reach_new s0 s : BlockManagerImpl_new o s0 = Done () s → reachable o s []
  | reach_step op s seqs seqs' s' :
      reachable o s seqs → client_pre op s seqs →
      client_run op seqs s = Done seqs' s' → reachable o s' seqs'.
End client.

(** ** Safety *)

Section safety.
Context `{HashFns}.
Implicit Types (s : BM) (seqs : list (list Block)).

Lemma others_perm i seqs bs : seqs !! i = Some bs → seqs ≡ₚ bs :: others i seqs.
Proof. intros Hi. by apply delete_Permutation. Qed.


Lemma bm_ok_append s bs bs' seqs :
  bm_ok s (bs :: bs' :: seqs) → (∀ x, x ∈ ids bs → x ∉ ids bs') → bm_ok s ((bs ++ bs') :: seqs).
Proof.
  intros [H1 H2 H3 H4 H5 H6 H7 H8 H9] Hd.
  apply Forall_cons in H6 as [[Hm Hn] H6]. apply Forall_cons in H6 as [[Hm' Hn'] H6].
  assert (ids (bs ++ bs') = ids bs ++ ids bs') as Hids by (unfold ids; by rewrite fmap_app).
  assert (∀ i, holders i ((bs ++ bs') :: seqs) = holders i (bs :: bs' :: seqs)) as Hh.
  { intros i. rewrite !holders_cons, Hids. specialize (Hd i).
    repeat case_decide; set_solver. }
  assert (held ((bs ++ bs') :: seqs) = held (bs :: bs' :: seqs)) as Hhd.
  { unfold held. simpl. by rewrite app_assoc. }
  constructor; try done.
  - unfold all_handles in *. simpl in *. by rewrite <-app_assoc.
  - constructor; [|done]. split; [by apply Forall_app|]. rewrite Hids. by apply NoDup_app.
  - intros He i. rewrite Hh. by apply H7.
  - by rewrite Hhd.
Qed.

Lemma client_step_ok op s seqs :
  bm_ok s seqs → client_pre op s seqs →
  wp (client_run op seqs) (λ seqs' s', bm_ok s' seqs' ∧ same_config s s') s.
Proof.
  intros Hok Hpre. destruct op as [n|ts ex|i ts e now|i j|i]; simpl in *.
  - destruct Hpre as [Hn Hroom]. apply wp_bind.
    eapply wp_mono; [by apply allocate_spec|]. intros bs s' (Hc & Hok' & Hl & _).
    apply wp_ret. split; [|done]. destruct (n <=? available s); [done|].
    destruct bs; [|done]. by apply bm_ok_nil.
  - destruct Hpre as (Hsub & Hex & Hv & Hroom). apply wp_bind.
    eapply wp_mono; [by apply allocate_shared_spec|]. intros bs s' (_ & Hok' & Hc & _). by apply wp_ret.
  - destruct Hpre as (bs & Hi & Hroom & He & Hk). pose proof (others_perm _ _ _ Hi) as Hp.
    apply wp_bind. eapply wp_at; [done|]. apply wp_bind.
    eapply wp_mono; [apply (cache_spec s (others i seqs) bs)|].
    + by rewrite <-Hp.
    + unfold room in *. by rewrite <-(all_handles_perm s _ _ Hp).
    + done.
    + done.
    + intros r s' (_ & Hok' & Hc & _). by apply wp_ret.
  - destruct Hpre as (bs & bs' & Hi & Hj & Hd).
    apply wp_bind. eapply wp_at; [done|]. apply wp_bind. eapply wp_at; [done|]. apply wp_ret.
    split; [|reflexivity]. apply bm_ok_append; [|done].
    by rewrite <-(others_perm _ _ _ Hj), <-(others_perm _ _ _ Hi).
  - destruct (lookup_lt_is_Some_2 seqs i Hpre) as [bs Hi].
    apply wp_bind. eapply wp_at; [done|]. apply wp_bind.
    eapply wp_mono; [apply (release_ok s bs (others i seqs))|].
    + by rewrite <-(others_perm _ _ _ Hi).
    + intros _ s' (Hok' & Hc & _). by apply wp_ret.
Qed.

Definition options_ok (o : Options) : Prop :=
  0 < num_blocks_opt o < 2 ^ 31 ∧ 0 < block_size_opt o < 2 ^ 31 ∧
  (enable_prefix_cache o = true → block_size_opt o ≤ 251).

Lemma reachable_ok o s seqs :
  options_ok o → reachable o s seqs →
  bm_ok s seqs ∧ options_ (core s) = o ∧
  Z.of_nat (length (free_blocks_ (core s))) = num_blocks_opt o.
Proof.
  intros (Hn & Hb & Hp) Hr. induction Hr as [s0 s Hnew|op s seqs seqs' s' _ IH Hpre Hrun].
  - pose proof (BlockManagerImpl_new_spec o s0 Hn Hb Hp) as Hwp. unfold wp in Hwp.
    rewrite Hnew in Hwp. destruct Hwp as (? & ? & _ & Hl & _). rewrite Hl. split; [done|].
    split; [done|]. lia.
  - destruct IH as (Hok & Ho & Hl). pose proof (client_step_ok op s seqs Hok Hpre) as Hwp.
    unfold wp in Hwp. rewrite Hrun in Hwp. destruct Hwp as (? & Ho' & _ & Hl').
    split; [done|]. by rewrite Ho', Hl'.
Qed.
End safety.

(** ** Properties *)

Section properties.
Context `{HashFns}.
Implicit Types (s : BM) (seqs : list (list Block)).

(** C1: whatever interleaving of the calls led to a state, every further call
    within its precondition returns (no undefined behaviour, no failed [CHECK],
    no [LOG(FATAL)]) in a state that keeps the manager's invariant: reference
    counts equal live handles, no id is both free and held, and the cache is
    well formed. *)
Theorem client_calls_safe o s seqs op :
  options_ok o → reachable o s seqs → client_pre op s seqs →
  wp (client_run op seqs) (λ seqs' s', bm_ok s' seqs' ∧ reachable o s' seqs') s.
Proof.
  intros Ho Hr Hpre. destruct (reachable_ok o s seqs Ho Hr) as (Hok & _).
  pose proof (client_step_ok op s seqs Hok Hpre) as Hwp. unfold wp in *.
  destruct (client_run op seqs s) as [seqs' s'| | |] eqn:E; try done.
  destruct Hwp as [Hok' _]. split; [done|]. by eapply reach_step.
Qed.

(** C2: in every reachable state the free blocks, the padding block and the
    distinct blocks that are live (held by a client or by the cache) add up to
    the pool, and with the prefix cache enabled [num_used_blocks()] is the number
    of distinct blocks the clients hold. *)
Theorem client_accounting o s seqs :
  options_ok o → reachable o s seqs →
  num_free_blocks_ (core s) + 1 + Z.of_nat (base.size (ids_of (all_handles s seqs) ∖ {[0%Z]})) =
    num_blocks_opt o ∧
  (enable_prefix_cache o = true →
     num_used_blocks s = Done (Z.of_nat (base.size (held seqs))) s).
Proof.
  intros Ho Hr. destruct (reachable_ok o s seqs Ho Hr) as (Hok & Hopt & Hlen). split.
  - rewrite (bm_num _ _ Hok), Hlen. lia.
  - intros He. assert (prefix_enabled s = true) as He' by (unfold prefix_enabled; by rewrite Hopt).
    unfold num_used_blocks, gets. by rewrite He', (bm_used _ _ Hok He').
Qed.

(** C3: [allocate(n)] from any reachable state gives [n] blocks when the free blocks and
    the unshared cached blocks suffice, and none otherwise; the blocks are pairwise
    distinct, within the pool, not the padding block, held by nobody and in no cache
    entry; blocks are evicted from the cache only for what the free list lacks. *)
Theorem allocate_fresh o s seqs n :
  options_ok o → reachable o s seqs → 0 ≤ n < 2 ^ 32 → room s seqs (Z.to_nat n) →
  wp (allocate n)
     (λ bs s', length bs = (if n <=? available s then Z.to_nat n else O) ∧ NoDup (ids bs) ∧
        (∀ i, i ∈ ids bs → 1 ≤ i < num_blocks_opt o ∧ i ∉ held seqs ∧ ¬ cached s' i) ∧
        num_free_blocks_ (core s') =
          (if n <=? available s then Z.max (num_free_blocks_ (core s)) n - n else available s)) s.
Proof.
  intros Ho Hr Hn Hroom. destruct (reachable_ok o s seqs Ho Hr) as (Hok & _ & Hlen).
  eapply wp_mono; [by apply allocate_spec|].
  intros bs s' (Hcfg & Hok' & Hl & Hf & Hnum & _). split; [done|].
  destruct (n <=? available s) eqn:E.
  - pose proof (bm_vecs _ _ Hok') as Hv. apply Forall_cons in Hv as [[_ Hnd] _].
    split; [done|]. split; [|done]. intros i Hi. split; [|by apply Hf].
    destruct Hcfg as (_ & _ & Hlf). rewrite <-Hlen, <-Hlf. apply (held_range s' (bs :: seqs)); [done|].
    unfold held, ids in *. simpl. rewrite fmap_app, list_to_set_app. set_solver.
  - destruct bs; [|done]. split; [constructor|]. split; [|done]. by intros i ?%elem_of_nil.
Qed.

(** C4: handing a vector back never fails; afterwards a block of it is on the free list
    exactly when no other vector holds it and it is not cached, and with the prefix cache
    enabled the used count is the number of distinct blocks the other vectors hold. *)
Theorem release_frees o s seqs i bs :
  options_ok o → reachable o s seqs → seqs !! i = Some bs →
  wp (release bs)
     (λ _ s', (∀ x, x ∈ ids bs →
        x ∈ free_ids (core s') ↔ x ∉ held (others i seqs) ∧ ¬ cached s x) ∧
        (enable_prefix_cache o = true →
           num_used_blocks_ (core s') = Z.of_nat (base.size (held (others i seqs))))) s.
Proof.
  intros Ho Hr Hi. destruct (reachable_ok o s seqs Ho Hr) as (Hok & Hopt & Hlen).
  pose proof (others_perm _ _ _ Hi) as Hp. pose proof (bm_ok_perm _ _ _ Hp Hok) as Hok1.
  assert (∀ x, x ∈ ids bs → 1 ≤ x < Z.of_nat (length (free_blocks_ (core s)))) as Hrange.
  { intros x Hx. apply (held_range s (bs :: others i seqs)); [done|].
    unfold held, ids in *. simpl. rewrite fmap_app, list_to_set_app. set_solver. }
  eapply wp_mono; [by eapply release_ok|]. intros _ s' (Hok' & Hc & Hpc). split.
  - intros x Hx. rewrite (free_iff _ _ _ Hok'). destruct Hc as (_ & _ & ->).
    assert (cached s' x ↔ cached s x) as -> by (unfold cached; by rewrite Hpc).
    specialize (Hrange x Hx). tauto.
  - intros He. apply (bm_used _ _ Hok'). unfold prefix_enabled. destruct Hc as (-> & _).
    by rewrite Hopt.
Qed.

(** C5: [allocate_shared] on a fresh sequence, whose chained keys do not collide, returns
    the blocks of the longest prefix of its full token blocks whose keys are cached: the [i]-th block comes from the
    entry of the [i]-th key, and the first key past the result is not cached. *)
Theorem share_longest_prefix o s seqs ts pc :
  options_ok o → reachable o s seqs → prefix_cache_ s = Some pc → room s seqs (length ts) →
  let bsz := block_size_ pc in
  let keys := chain_hash None (chunks bsz ts 0 (length ts / bsz)) in
  NoDup (ukey <$> keys) →
  wp (allocate_shared ts [])
     (λ r s', (length r ≤ length keys)%nat ∧
        (∀ i b, r !! i = Some b → ∃ k a n,
           keys !! i = Some k ∧ find_addr pc k = Some a ∧ nodes pc !! a = Some n ∧ block n = b) ∧
        (∀ k, keys !! length r = Some k → find_addr pc k = None) ∧
        bm_ok s' (r :: seqs) ∧ num_free_blocks_ (core s') = num_free_blocks_ (core s)) s.
Proof.
  intros Ho Hr Hpc Hroom bsz keys Hnd. destruct (reachable_ok o s seqs Ho Hr) as (Hok & _ & _).
  pose proof (bm_cache _ _ Hok _ Hpc) as Hcache.
  assert (shared_result s ts [] = blocks_at (nodes pc) (hits pc keys)) as Heq.
  { unfold shared_result. rewrite Hpc. unfold keys, match_hits, prev_key. simpl.
    rewrite Nat.sub_0_r. fold bsz. case_decide as Hz; [by rewrite Hz|done]. }
  eapply wp_mono; [apply (allocate_shared_spec s seqs ts []); try done|].
  { apply list_subseteq_nil. }
  { by intros b ?%elem_of_nil. }
  { rewrite Heq. apply (blocks_at_vec s seqs pc); [done..|]. by eapply hits_NoDup. }
  intros r s' (-> & Hok' & _ & Hnum & _). rewrite Heq in *.
  destruct (hits_prefix pc (lru_lst_ pc) keys Hcache) as (H1 & H2 & H3). done.
Qed.

(** The destructor's check passes after the last vector is released exactly when the
    prefix cache is empty; with a cached block left it ends the process. *)
Theorem destroy_checks_cache o s :
  options_ok o → reachable o s [] →
  ((∀ i, ¬ cached s i) → BlockManagerImpl_destroy s = Done () s) ∧
  ((∃ i, cached s i) → BlockManagerImpl_destroy s = Fatal "Not all blocks have been freed").
Proof.
  intros Ho Hr. destruct (reachable_ok o s [] Ho Hr) as (Hok & _ & Hlen).
  pose proof (bm_num _ _ Hok) as Hnum. destruct Ho as ([Hpos Hmax] & _). rewrite <-Hlen in Hpos, Hmax.
  assert (BlockManagerImpl_destroy s =
    check (num_free_blocks_ (core s) =? u64 (Z.of_nat (length (free_blocks_ (core s))) - 1))
      "Not all blocks have been freed" s) as -> by done.
  rewrite u64_id by lia. set (X := ids_of (all_handles s []) ∖ {[0]}) in *. split.
  - intros Hc. assert (X = ∅) as HX.
    { apply leibniz_equiv, elem_of_equiv_empty. intros i Hi. apply elem_of_difference in Hi as [Hi Hz].
      apply (live_iff s [] i Hok) in Hi as [Hi|Hi]; [by apply (Hc i)|set_solver|set_solver]. }
    rewrite HX, size_empty in Hnum. rewrite Hnum. unfold check.
    by rewrite Z.sub_0_r, Z.eqb_refl.
  - intros [i Hi]. apply (cached_all s []) in Hi; [|done].
    assert (base.size X ≠ O) as Hs by (apply size_non_empty_iff; set_solver).
    unfold check. destruct (_ =? _) eqn:E; [apply Z.eqb_eq in E; lia|done].
Qed.
End properties.
