(* ===== verification/CacheView.v ===== *)
(** The reader of the heartbeats against the whole manager: [CacheEvents] and
    [BlockClient] put together.

    A state is a manager with the vectors its clients hold and the view that a reader of
    the heartbeats has built by applying the events delivered so far.  Client calls, the
    recorder's tasks and heartbeats interleave in any order. *)

From stdpp Require Import base gmap list strings sets.
From Stdlib Require Import ZArith Lia.
From S2P Require Import Prelude HashKey Blocks DList PrefixCache KvEvents BlockManager.
From S2P Require Import CacheEvents BlockClient.
Open Scope Z_scope.

Section view.
Context `{HashFns}.
Implicit Types (s : BM) (seqs : list (list Block)) (V : gset (Z * list Z)).

Inductive viewed (o : Options) : gset (Z * list Z) → BM → list (list Block) → Prop :=
  | viewed_new s0 s : BlockManagerImpl_new o s0 = Done () s → viewed o ∅ s []
  | viewed_call op V s seqs seqs' s' :
      viewed o V s seqs → client_pre op s seqs →
      client_run op seqs s = Done seqs' s' → viewed o V s' seqs'
  | viewed_record V s seqs s' :
      viewed o V s seqs → record_step s = Done () s' → viewed o V s' seqs
  | viewed_heartbeat V s seqs e s' :
      viewed o V s seqs → get_merged_kvcache_event KvCacheEvent_new s = Done e s' →
      viewed o (apply_event V e) s' seqs.

(** *** Both invariants hold *)

Lemma post_of_done {A} (m : prog BM A) Q a s s' : post m Q s → m s = Done a s' → Q a s'.
Proof. unfold post. intros Hp E. by rewrite E in Hp. Qed.

Lemma client_reader op V s seqs :
  reader_ok V s → post (client_run op seqs) (λ _ s', reader_ok V s') s.
Proof.
  intros Hr. destruct op as [n|ts ex|i ts e now|i j|i]; simpl.
  - apply post_bind. eapply post_mono; [by apply allocate_reader|]. done.
  - apply post_bind. eapply post_mono; [by apply allocate_shared_reader|]. done.
  - apply post_bind, post_at. intros bs _. apply post_bind.
    eapply post_mono; [by apply cache_reader|]. done.
  - apply post_bind, post_at. intros bs _. apply post_bind, post_at. done.
  - apply post_bind, post_at. intros bs _. apply post_bind. unfold release. apply post_bind.
    eapply post_mono; [by apply deallocate_reader|]. intros [] s1 H1.
    eapply post_mono; [by apply post_on_blocks|]. done.
Qed.

Lemma new_reader o s0 : post (BlockManagerImpl_new o) (λ _ s, reader_ok ∅ s) s0.
Proof.
  unfold BlockManagerImpl_new. post_steps. destruct (_ <=? _); [done|].
  apply post_bind. unfold put, post at 1. set (s1 := mkBM _ _ _ _).
  assert (reader_ok ∅ s1) as Hr1.
  { intros pc u Hpc Hu. unfold s1 in Hpc, Hu. simpl in Hpc, Hu.
    destruct (enable_prefix_cache o); [|done]. injection Hpc as <-.
    unfold create_prefix_cache in Hu. simpl in Hu. destruct (enable_cache_upload o); [|done].
    injection Hu as <-. exists KvCacheEvent_new. split; [apply Upload_new_ok|].
    rewrite apply_event_new. unfold key_set. simpl. by rewrite dom_empty_L. }
  apply post_bind. unfold allocate1.
  eapply post_mono with (Q := λ _ s, reader_ok ∅ s).
  { post_steps. eapply post_mono; [by apply post_on_core|]. intros i s2 Hr2. by apply post_on_blocks. }
  intros b s2 Hr2. apply post_bind. eapply post_mono; [by apply post_on_blocks|].
  intros r s3 Hr3. post_steps. eapply reader_ext; [..|exact Hr3]; done.
Qed.

(** The events touch nothing that the manager's own invariant speaks of. *)
Lemma bm_ok_upload s seqs u' :
  bm_ok s seqs → (∀ u, u' = Some u → ∃ f, upload_ok u f) → bm_ok (set_upload u' s) seqs.
Proof. intros [H1 H2 H3 H4 H5 H6 H7 H8 H9] Hu. by constructor. Qed.
Lemma record_step_bm s s' seqs : bm_ok s seqs → record_step s = Done () s' → bm_ok s' seqs.
Proof.
  intros Hok [= <-]. apply bm_ok_upload; [done|]. intros u Hu.
  destruct (upload_ s) as [u0|] eqn:E; [|done]. injection Hu as <-.
  destruct (bm_upload _ _ Hok _ E) as [f Hf]. destruct (run_next_ok u0 f Hf) as (f' & ? & _). eauto.
Qed.
Lemma heartbeat_bm s s' seqs e ev :
  bm_ok s seqs → get_merged_kvcache_event ev s = Done e s' → bm_ok s' seqs.
Proof.
  intros Hok. unfold get_merged_kvcache_event, mbind, prog_bind, get.
  destruct (prefix_cache_ s); [|done]. destruct (upload_ s) as [u|] eqn:E; [|by intros [= _ <-]].
  destruct (bm_upload _ _ Hok _ E) as [f Hf].
  pose proof (merge_events_ok u f ev Hf) as Hm. unfold wp in Hm. unfold zoom. cbv beta.
  destruct (merge_events ev u) as [r u'| | |]; [|done..]. intros [= _ <-].
  apply bm_ok_upload; [done|]. intros u2 [= <-]. exists KvCacheEvent_new. apply Hm.
Qed.

Lemma viewed_ok o V s seqs :
  options_ok o → viewed o V s seqs → bm_ok s seqs ∧ reader_ok V s.
Proof.
  intros Ho Hv. induction Hv as [s0 s Hn|op V s seqs seqs' s' _ [Hok Hr] Hpre Hrun
                               |V s seqs s' _ [Hok Hr] Hrun|V s seqs e s' _ [Hok Hr] Hrun].
  - split; [by eapply (reachable_ok o), reach_new|]. exact (post_of_done _ _ _ _ _ (new_reader o s0) Hn).
  - split; [|exact (post_of_done _ _ _ _ _ (client_reader op V s seqs Hr) Hrun)].
    pose proof (client_step_ok op s seqs Hok Hpre) as Hwp. unfold wp in Hwp. rewrite Hrun in Hwp.
    apply Hwp.
  - split; [by eapply record_step_bm|]. exact (post_of_done _ _ _ _ _ (record_step_reader V s Hr) Hrun).
  - split; [by eapply heartbeat_bm|]. exact (post_of_done _ _ _ _ _ (merged_event_reader V s Hr) Hrun).
Qed.

(** *** Catching up *)

(** The recorder works off its tasks. *)
Lemma catch_up k V s pc u f :
  prefix_cache_ s = Some pc → upload_ s = Some u → upload_ok u f → (length (pending u) ≤ k)%nat →
  replay (apply_event V f) (pending u) = key_set pc →
  wp (for_each (replicate k ()) (λ _, record_step))
     (λ _ s', ∃ u' f', prefix_cache_ s' = Some pc ∧ upload_ s' = Some u' ∧ upload_ok u' f' ∧
        pending u' = [] ∧ apply_event V f' = key_set pc) s.
Proof.
  revert s u f. induction k as [|k IH]; intros s u f Hpc Hu Hf Hk Hv; simpl.
  { apply wp_ret. destruct (pending u) eqn:E; [|simpl in Hk; lia]. by exists u, f. }
  unfold record_step at 1. wp_steps. destruct (run_next_ok u f Hf) as (f' & Hf' & Hr).
  apply (IH _ (run_next u) f'); simpl; [done|by rewrite Hu|done| |by rewrite Hr].
  unfold run_next. destruct (pending u) as [|t q] eqn:E; [rewrite E; simpl; lia|].
  simpl in Hk. unfold run_event. simpl.
  destruct (get_front_value _), (exited_ u); simpl; lia.
Qed.

(** C7: from any interleaving of client calls, recorder tasks and heartbeats, once the
    recorder has worked off its queue the next heartbeat delivers an event that brings the
    reader's view to exactly the keys the prefix cache holds: no insertion or eviction is
    lost, duplicated or applied in the wrong order. *)
Theorem heartbeat_converges o V s seqs pc u :
  options_ok o → viewed o V s seqs → prefix_cache_ s = Some pc → upload_ s = Some u →
  wp (for_each (replicate (length (pending u)) ()) (λ _, record_step) ≫= λ _,
      get_merged_kvcache_event KvCacheEvent_new)
     (λ e s', prefix_cache_ s' = Some pc ∧ apply_event V e = key_set pc ∧
        viewed o (key_set pc) s' seqs) s.
Proof.
  intros Ho Hv Hpc Hu. destruct (viewed_ok o V s seqs Ho Hv) as [_ Hr].
  destruct (Hr pc u Hpc Hu) as (f & Hf & Hrep).
  eapply wp_seq with (Q := λ _ s1, viewed o V s1 seqs ∧ ∃ u' f', prefix_cache_ s1 = Some pc ∧
    upload_ s1 = Some u' ∧ upload_ok u' f' ∧ pending u' = [] ∧ apply_event V f' = key_set pc).
  - eapply wp_mono; [eapply wp_post; [by eapply (catch_up _ V s pc u f)|]|].
    + apply (post_for_each _ _ (λ s1, viewed o V s1 seqs)); [done|].
      intros [] s1 _ H1. unfold record_step. apply post_modify. by eapply viewed_record.
    + cbv beta. intros [] s1 [? ?]. done.
  - intros [] s1 (Hv1 & u' & f' & Hpc1 & Hu1 & Hf' & Hp & Happ).
    destruct (get_merged_kvcache_event KvCacheEvent_new s1) as [e s'| | |] eqn:E.
    2-4: exfalso; revert E; unfold get_merged_kvcache_event, mbind, prog_bind, get;
      rewrite Hpc1, Hu1; pose proof (merge_events_ok u' f' KvCacheEvent_new Hf') as Hm;
      unfold wp in Hm; unfold zoom; cbv beta; by destruct (merge_events KvCacheEvent_new u').
    unfold wp. rewrite E. pose proof (viewed_heartbeat o V s1 seqs e s' Hv1 E) as Hv'.
    assert (prefix_cache_ s' = Some pc ∧ apply_event V e = key_set pc) as [Hpc' He].
    { revert E. unfold get_merged_kvcache_event, mbind, prog_bind, get. rewrite Hpc1, Hu1.
      pose proof (merge_events_ok u' f' KvCacheEvent_new Hf') as Hm. unfold wp in Hm. unfold zoom. cbv beta.
      destruct (merge_events KvCacheEvent_new u') as [r u2| | |]; [|done..].
      intros [= <- <-]. simpl. split; [done|]. destruct Hm as (_ & _ & Hs & Hrm). rewrite <-Happ.
      unfold apply_event. rewrite Hs, Hrm. unfold classes. simpl. rewrite !dom_empty_L.
      by rewrite !(left_id_L ∅ (∪)). }
    rewrite He in Hv'. done.
Qed.
End view.
