(* ===== verification/KVState.v ===== *)
(** The KV-cache state of a sequence:
    [core/framework/request/sequence_kv_state.h] and [sequence_kv_state.cpp].

    A sequence owns a vector of blocks; its first [num_owned_shared_blocks_] come
    from the prefix cache.  Operations that drop or copy blocks act on the
    reference counters ([Blocks.World]); the state of this file is a [KVCacheState]
    with the world its blocks live in.  [kv_ok] is the well-formedness invariant,
    and [kv_world_ok] adds the ownership of the blocks. *)

From stdpp Require Import base gmap list strings sets.
From Stdlib Require Import ZArith Lia.
From S2P Require Import Prelude HashKey Blocks.
Open Scope Z_scope.

Section kv.
(** [TransferKVInfo], which the state only carries *)
Context {T : Type}.

Record KVCacheState := mkKV {
  kv_cache_tokens_num_ : Z;
  blocks_ : list Block;
  src_blocks_ : list Block;
  need_swap_ : bool;
  transfer_kv_info_ : option T;
  num_owned_shared_blocks_ : Z;
}.

Definition KVCacheState_new : KVCacheState := mkKV 0 [] [] false None 0.

Definition set_tokens (n : Z) (k : KVCacheState) : KVCacheState :=
  mkKV n (blocks_ k) (src_blocks_ k) (need_swap_ k) (transfer_kv_info_ k) (num_owned_shared_blocks_ k).
Definition set_blocks (bs : list Block) (k : KVCacheState) : KVCacheState :=
  mkKV (kv_cache_tokens_num_ k) bs (src_blocks_ k) (need_swap_ k) (transfer_kv_info_ k)
    (num_owned_shared_blocks_ k).
Definition set_src (bs : list Block) (sw : bool) (k : KVCacheState) : KVCacheState :=
  mkKV (kv_cache_tokens_num_ k) (blocks_ k) bs sw (transfer_kv_info_ k) (num_owned_shared_blocks_ k).
Definition set_info (i : option T) (k : KVCacheState) : KVCacheState :=
  mkKV (kv_cache_tokens_num_ k) (blocks_ k) (src_blocks_ k) (need_swap_ k) i (num_owned_shared_blocks_ k).
Definition set_owned (n : Z) (k : KVCacheState) : KVCacheState :=
  mkKV (kv_cache_tokens_num_ k) (blocks_ k) (src_blocks_ k) (need_swap_ k) (transfer_kv_info_ k) n.
End kv.
Arguments KVCacheState T : clear implicits.

(** ** Operations *)

Section operations.
Context {T S : Type} `{BlockOwner S}.
Abbreviation KVW := (KVCacheState T * World S)%type.

Definition kv_get : prog KVW (KVCacheState T) := gets fst.
Definition kv_modify (f : KVCacheState T → KVCacheState T) : prog KVW unit :=
  modify (λ s, (f s.1, s.2)).
Definition on_kv_state {A} (m : prog (KVCacheState T) A) : prog KVW A := zoom fst (λ k s, (k, s.2)) m.
Definition on_kv_world {A} (m : prog (World S) A) : prog KVW A := zoom snd (λ w s, (s.1, w)) m.

Definition shared_kv_blocks_num (k : KVCacheState T) : Z := num_owned_shared_blocks_ k.
Definition num_kv_blocks (k : KVCacheState T) : nat := length (blocks_ k).

(** [current_max_tokens_capacity()]: all blocks have the size of the first *)
Definition current_max_tokens_capacity (k : KVCacheState T) : Z :=
  match blocks_ k with
  | [] => 0
  | b :: _ => u64 (Z.of_nat (length (blocks_ k)) * size b)
  end.

Definition set_kv_cache_tokens_num (num : Z) : prog (KVCacheState T) unit := modify (set_tokens num).
Definition incr_kv_cache_tokens_num (num : Z) : prog (KVCacheState T) unit :=
  get ≫= λ k,
  check (u64 (kv_cache_tokens_num_ k + num) <=? current_max_tokens_capacity k)
        "kv_cache_tokens_num_ + num <= current_max_tokens_capacity()" ≫= λ _,
  modify (set_tokens (u64 (kv_cache_tokens_num_ k + num))).
Definition incr_shared_kv_blocks_num (num : Z) : prog (KVCacheState T) unit :=
  get ≫= λ k,
  check (u64 (num_owned_shared_blocks_ k + num) <=? Z.of_nat (num_kv_blocks k))
        "num_owned_shared_blocks_ + num <= num_kv_blocks()" ≫= λ _,
  modify (set_owned (u32 (num_owned_shared_blocks_ k + num))).

(** [add_kv_blocks(const std::vector<Block>&)]: copies *)
Definition add_kv_blocks (new_blocks : list Block) : prog KVW unit :=
  on_kv_world (copy_all new_blocks) ≫= λ bs,
  kv_modify (λ k, set_blocks (blocks_ k ++ bs) k).

(** [std::move(first, last, d)]: move-assigns the blocks one by one, from
    position [i] of the destination; returns what is left in the source. *)
Fixpoint move_into (i : nat) (src : list Block) : prog KVW (list Block) :=
  match src with
  | [] => mret []
  | b :: src =>
      kv_get ≫= λ k,
      at_ (blocks_ k) i ≫= λ this,
      on_kv_world (Block_move_assign false this b) ≫= λ r : Block * Block,
      kv_modify (λ k, set_blocks (<[i := r.1]> (blocks_ k)) k) ≫= λ _,
      move_into (Datatypes.S i) src ≫= λ left, mret (r.2 :: left)
  end.

(** [try_replace_unique_blocks]: what is left in [matched_shared_blocks] *)
Definition try_replace_unique_blocks (matched_shared_blocks : list Block)
    : prog KVW (list Block) :=
  kv_get ≫= λ k,
  let num_matched_shared_blocks := u32 (Z.of_nat (length matched_shared_blocks)) in
  if num_owned_shared_blocks_ k <? num_matched_shared_blocks then
    check (num_matched_shared_blocks <=? Z.of_nat (length (blocks_ k)))
          "owned_blocks->size() >= num_matched_shared_blocks" ≫= λ _,
    move_into 0 (take (Z.to_nat num_matched_shared_blocks) matched_shared_blocks) ≫= λ left,
    kv_modify (set_owned num_matched_shared_blocks) ≫= λ _,
    mret (left ++ drop (Z.to_nat num_matched_shared_blocks) matched_shared_blocks)
  else mret matched_shared_blocks.

(** [blocks_.pop_back()] *)
Definition pop_back_block : prog KVW unit :=
  kv_get ≫= λ k,
  match last (blocks_ k) with
  | None => undef "pop_back of an empty vector"
  | Some b =>
      kv_modify (λ k, set_blocks (take (length (blocks_ k) - 1) (blocks_ k)) k) ≫= λ _,
      on_kv_world (Block_destroy b)
  end.

(** [add_shared_kv_blocks(std::vector<Block>&& blocks, current_total_num_tokens)]:
    returns what is left in the caller's vector. *)
Definition add_shared_kv_blocks (blocks : list Block) (current_total_num_tokens : Z)
    : prog KVW (list Block) :=
  match blocks with
  | [] => mret []
  | b0 :: _ =>
      kv_get ≫= λ k,
      if (length blocks <=? length (blocks_ k))%nat then try_replace_unique_blocks blocks
      else
        kv_modify (set_blocks []) ≫= λ _,
        on_kv_world (destroy_all (blocks_ k)) ≫= λ _,
        kv_modify (λ k, set_blocks blocks (set_owned (u32 (Z.of_nat (length blocks))) k)) ≫= λ _,
        let num_shared_tokens := u64 (Z.of_nat (length blocks) * size b0) in
        (if num_shared_tokens =? current_total_num_tokens then
           check (0 <? size b0) "block_size > 0" ≫= λ _,
           kv_get ≫= λ k,
           (if 0 <? num_owned_shared_blocks_ k then
              kv_modify (λ k, set_owned (u32 (num_owned_shared_blocks_ k - 1)) k) ≫= λ _,
              pop_back_block
            else mret ()) ≫= λ _,
           mret (u64 (u64 (current_total_num_tokens - 1) / size b0 * size b0))
         else mret num_shared_tokens) ≫= λ num_shared_tokens,
        check (num_shared_tokens <? current_total_num_tokens)
              "num_shared_tokens < current_total_num_tokens" ≫= λ _,
        kv_modify (set_tokens num_shared_tokens) ≫= λ _,
        mret []
  end.

(** [kv_cache_slots(pos_start, pos_end)] *)
Definition kv_cache_slot (k : KVCacheState T) (block_size i : Z) : prog KVW Z :=
  if block_size =? 0 then undef "division by zero"
  else
    atZ (blocks_ k) (u64 i / block_size) ≫= λ b,
    let block_offset := i32 (u64 i mod block_size) in
    mret (i32 (u64 (u64 (u64 (id b) * block_size) + u64 block_offset))).
Definition kv_cache_slots (pos_start pos_end : Z) : prog KVW (list Z) :=
  kv_get ≫= λ k,
  match blocks_ k with
  | [] => fatal "no cache blocks available"
  | b0 :: _ =>
      if pos_end <? pos_start then throw "vector::reserve"
      else map_each (seqZ pos_start (pos_end - pos_start)) (kv_cache_slot k (size b0))
  end.

Definition set_transfer_kv_info (info : T) : prog KVW unit := kv_modify (set_info (Some info)).

(** [set_src_blocks]: the argument is a const reference, so the "move" copies. *)
Definition set_src_blocks (src_blocks : list Block) (need_swap : bool) : prog KVW unit :=
  on_kv_world (copy_all src_blocks) ≫= λ bs,
  kv_get ≫= λ k,
  kv_modify (set_src bs need_swap) ≫= λ _,
  on_kv_world (destroy_all (src_blocks_ k)).

(** [reset()] *)
Definition reset : prog KVW unit :=
  kv_get ≫= λ k,
  kv_modify (λ k, set_info None (set_blocks [] (set_owned 0 (set_tokens 0 k)))) ≫= λ _,
  on_kv_world (destroy_all (blocks_ k)).

(** [process_beam_search(new_block)] *)
Definition process_beam_search (new_block : option Block) : prog KVW unit :=
  kv_get ≫= λ k,
  kv_modify (set_blocks []) ≫= λ _,
  on_kv_world (destroy_all (blocks_ k)) ≫= λ _,
  kv_modify (λ k, set_blocks (src_blocks_ k) (set_src [] (need_swap_ k) k)) ≫= λ _,
  match new_block with
  | None => mret ()
  | Some b =>
      pop_back_block ≫= λ _,
      on_kv_world (Block_copy b) ≫= λ b',
      kv_modify (λ k, set_blocks (blocks_ k ++ [b']) k)
  end.
End operations.

(** ** Invariants *)

(** Well-formed for blocks of [bs] tokens: the shared blocks are a prefix of the
    blocks, and the tokens in the cache fit in the blocks. *)
Record kv_ok {T} (bs : Z) (k : KVCacheState T) : Prop := {
  ko_bs : 0 < bs < 2 ^ 31;
  ko_size : Forall (λ b, size b = bs) (blocks_ k);
  ko_owned : 0 ≤ num_owned_shared_blocks_ k ≤ Z.of_nat (length (blocks_ k));
  ko_tokens : 0 ≤ kv_cache_tokens_num_ k ≤ Z.of_nat (length (blocks_ k)) * bs;
  ko_room : Z.of_nat (length (blocks_ k)) < 2 ^ 31;
}.

Section verified.
Context {T S : Type} `{BlockOwnerLaws S}.
Abbreviation KVW := (KVCacheState T * World S)%type.
Implicit Types (s : KVW) (k : KVCacheState T) (hs : list handle).

(** The handles of the state, and the world they live in. *)
Definition kv_handles k : list handle := hrefs (blocks_ k) ++ hrefs (src_blocks_ k).
Definition kv_world_ok s hs : Prop := world_ok s.2 (kv_handles s.1 ++ hs).

Lemma wp_on_kv_world {A} (m : prog (World S) A) Q s :
  wp m (λ a w, Q a (s.1, w)) s.2 → wp (on_kv_world m) Q s.
Proof. intros. unfold on_kv_world. by apply wp_zoom. Qed.

Lemma capacity_eq bs k :
  kv_ok bs k → current_max_tokens_capacity k = Z.of_nat (length (blocks_ k)) * bs.
Proof.
  intros [? Hs _ _ ?]. unfold current_max_tokens_capacity.
  destruct (blocks_ k) as [|b l] eqn:E; [simpl; lia|].
  apply Forall_cons in Hs as [-> _]. rewrite u64_id; [done|]. nia.
Qed.

Lemma incr_tokens_ok bs num k :
  kv_ok bs k → 0 ≤ num → kv_cache_tokens_num_ k + num ≤ Z.of_nat (length (blocks_ k)) * bs →
  wp (incr_kv_cache_tokens_num num)
     (λ _ k', kv_ok bs k' ∧ k' = set_tokens (kv_cache_tokens_num_ k + num) k) k.
Proof.
  intros Hk Hn Hle. unfold incr_kv_cache_tokens_num. wp_steps.
  rewrite (capacity_eq bs) by done. destruct Hk as [? ? ? ? ?].
  rewrite u64_id by nia. apply wp_check; [by apply Z.leb_le|]. wp_steps.
  split; [|done]. constructor; simpl; try done. lia.
Qed.
(** Past the capacity the check fails. *)
Lemma incr_tokens_fatal bs num k :
  kv_ok bs k → 0 ≤ num < 2 ^ 63 → Z.of_nat (length (blocks_ k)) * bs < kv_cache_tokens_num_ k + num →
  ∃ e, incr_kv_cache_tokens_num num k = Fatal e.
Proof.
  intros Hk Hn Hle. unfold incr_kv_cache_tokens_num, mbind, prog_bind, get, check.
  rewrite (capacity_eq bs) by done. destruct Hk as [? ? ? ? ?].
  rewrite u64_id by nia. destruct (_ <=? _) eqn:E; [apply Z.leb_le in E; lia|]. by eexists.
Qed.

Lemma add_kv_blocks_ok bs new s hs :
  kv_ok bs s.1 → kv_world_ok s hs → hrefs new ⊆ kv_handles s.1 ++ hs →
  Forall (λ b, size b = bs) new → Z.of_nat (length (blocks_ s.1) + length new) < 2 ^ 31 →
  Z.of_nat (length (kv_handles s.1 ++ hs) + length new) < 2 ^ 32 →
  wp (add_kv_blocks new)
     (λ _ s', kv_ok bs s'.1 ∧ kv_world_ok s' hs ∧
        s'.1 = set_blocks (blocks_ s.1 ++ new) s.1 ∧ mgr s'.2 = mgr s.2) s.
Proof.
  intros Hk Hw Hsub Hs Hlen Hroom. unfold add_kv_blocks, kv_modify. wp_steps.
  apply wp_on_kv_world. eapply wp_mono; [by apply (copy_all_ok s.2 (kv_handles s.1 ++ hs))|].
  intros bs' w' (-> & Hw' & Hm). wp_steps. split; [|split; [|done]].
  - destruct Hk as [? ? ? ? ?]. constructor; simpl; rewrite ?length_app; try done; try nia.
    by apply Forall_app.
  - unfold kv_world_ok, kv_handles in *. simpl. rewrite hrefs_app.
    refine (proj1 (world_ok_proper _ _ _ _) Hw'). perm.
Qed.

Lemma pop_back_ok s hs l b :
  blocks_ s.1 = l ++ [b] → kv_world_ok s hs →
  wp pop_back_block (λ _ s', kv_world_ok s' hs ∧ s'.1 = set_blocks l s.1 ∧
                       frame (mgr s.2) (mgr s'.2)) s.
Proof.
  intros Hl Hw. unfold pop_back_block, kv_get, kv_modify. wp_steps.
  rewrite Hl, last_snoc. wp_steps. apply wp_on_kv_world. simpl.
  rewrite Hl, length_app, Nat.add_sub, take_app_length.
  eapply wp_mono; [apply (Block_destroy_ok _ (kv_handles (set_blocks l s.1) ++ hs))|].
  { unfold kv_world_ok, kv_handles in *. rewrite Hl, hrefs_app in Hw. simpl.
    rewrite hrefs_cons, hrefs_nil in Hw. refine (proj1 (world_ok_proper _ _ _ _) Hw). perm. }
  intros _ w' [Hw' Hf]. done.
Qed.

(** Dropping all the blocks *)
Lemma clear_ok s hs (f : KVCacheState T → KVCacheState T) :
  kv_world_ok s hs → (∀ k, blocks_ (f k) = []) → (∀ k, src_blocks_ (f k) = src_blocks_ k) →
  wp (kv_modify f ≫= λ _, on_kv_world (destroy_all (blocks_ s.1)))
     (λ _ s', kv_world_ok s' hs ∧ s'.1 = f s.1 ∧ frame (mgr s.2) (mgr s'.2)) s.
Proof.
  intros Hw Hf Hfs. unfold kv_modify. wp_steps. apply wp_on_kv_world. simpl.
  eapply wp_mono; [apply (destroy_all_ok _ (hrefs (src_blocks_ s.1) ++ hs))|].
  { unfold kv_world_ok, kv_handles in Hw. by rewrite <-app_assoc in Hw. }
  intros _ w' [Hw' Hfr]. split; [|done]. unfold kv_world_ok, kv_handles. simpl.
  by rewrite Hf, Hfs.
Qed.

Lemma reset_ok bs s hs :
  0 < bs < 2 ^ 31 → kv_world_ok s hs →
  wp reset
     (λ _ s', kv_ok bs s'.1 ∧ kv_world_ok s' hs ∧ frame (mgr s.2) (mgr s'.2) ∧
        blocks_ s'.1 = [] ∧ kv_cache_tokens_num_ s'.1 = 0 ∧ num_owned_shared_blocks_ s'.1 = 0 ∧
        src_blocks_ s'.1 = src_blocks_ s.1) s.
Proof.
  intros Hbs Hw. unfold reset, kv_get. apply wp_bind, wp_gets.
  eapply wp_mono; [by apply (clear_ok s hs)|].
  intros _ s' (Hw' & -> & Hf). split; [|done].
  constructor; simpl; try done; lia.
Qed.

Lemma process_beam_search_ok s hs nb :
  kv_world_ok s hs → hrefs (option_list nb) ⊆ hs →
  (nb ≠ None → src_blocks_ s.1 ≠ []) →
  Z.of_nat (length (kv_handles s.1 ++ hs)) + 1 < 2 ^ 32 →
  wp (process_beam_search nb)
     (λ _ s', kv_world_ok s' hs ∧ frame (mgr s.2) (mgr s'.2) ∧
        s'.1 = set_blocks (match nb with
                           | None => src_blocks_ s.1
                           | Some b => take (length (src_blocks_ s.1) - 1) (src_blocks_ s.1) ++ [b]
                           end) (set_src [] (need_swap_ s.1) s.1)) s.
Proof.
  intros Hw Hsub Hne Hroom. unfold process_beam_search, kv_get. apply wp_bind, wp_gets.
  apply wp_bind_assoc. apply wp_bind. eapply wp_mono; [by apply (clear_ok s hs)|].
  intros _ s1 (Hw1 & Hs1 & Hf1). unfold kv_modify at 1. apply wp_bind, wp_modify.
  rewrite Hs1. simpl. set (k2 := set_blocks (src_blocks_ s.1) (set_src [] (need_swap_ s.1) s.1)).
  assert (kv_world_ok (k2, s1.2) hs) as Hw2.
  { unfold kv_world_ok, kv_handles in *. rewrite Hs1 in Hw1. simpl in *.
    refine (proj1 (world_ok_proper _ _ _ _) Hw1). rewrite hrefs_nil. perm. }
  destruct nb as [b|]; [|apply wp_ret; split; [exact Hw2|by split]].
  destruct (exists_last (l := src_blocks_ s.1)) as (l & bl & Hl); [by apply Hne|].
  apply wp_bind. eapply wp_mono; [apply (pop_back_ok (k2, s1.2) hs l bl); [exact Hl|exact Hw2]|].
  intros _ s3 (Hw3 & Hs3 & Hf3). apply wp_bind, wp_on_kv_world. simpl in Hs3, Hf3.
  assert (kv_handles s3.1 = hrefs l) as Hh3.
  { rewrite Hs3. unfold kv_handles. simpl. by rewrite hrefs_nil, app_nil_r. }
  unfold kv_world_ok in Hw3. rewrite Hh3 in Hw3.
  eapply wp_mono; [apply (Block_copy_ok s3.2 (hrefs l ++ hs)); [exact Hw3| |]|].
  - simpl in Hsub. rewrite hrefs_cons, hrefs_nil, app_nil_r in Hsub. set_solver.
  - unfold kv_handles in Hroom. rewrite Hl, hrefs_app, !length_app in Hroom.
    rewrite length_app. lia.
  - intros b' w' (-> & Hw' & Hm). unfold kv_modify. wp_steps. simpl. split; [|split].
    + unfold kv_world_ok, kv_handles. rewrite Hs3. simpl.
      rewrite hrefs_app, hrefs_cons, hrefs_nil, !app_nil_r.
      refine (proj1 (world_ok_proper _ _ _ _) Hw'). perm.
    + rewrite Hm. by etrans.
    + rewrite Hs3. simpl. by rewrite Hl, length_app, Nat.add_sub, take_app_length.
Qed.

(** *** Shared blocks *)

Lemma move_into_ok src s hs pre mid post :
  blocks_ s.1 = pre ++ mid ++ post → length mid = length src →
  kv_world_ok s (hrefs src ++ hs) →
  wp (move_into (length pre) src)
     (λ left s', kv_world_ok s' hs ∧ s'.1 = set_blocks (pre ++ src ++ post) s.1 ∧
        left = Block_moved <$> src ∧ frame (mgr s.2) (mgr s'.2)) s.
Proof.
  revert pre mid s. induction src as [|b src IH]; intros pre mid s Hb Hlen Hw.
  { destruct mid; [|done]. simpl in *. apply wp_ret. split; [done|].
    rewrite <-Hb. split; [by destruct s as [[] ?]|done]. }
  destruct mid as [|m mid]; [done|]. injection Hlen as Hlen. simpl.
  unfold kv_get at 1, kv_modify at 1. wp_steps.
  eapply wp_at; [by rewrite Hb; apply list_lookup_middle|]. unfold Block_move_assign. wp_steps.
  apply wp_on_kv_world. wp_steps.
  eapply wp_mono.
  { apply (Block_destroy_ok s.2 (kv_handles (set_blocks (pre ++ b :: mid ++ post) s.1) ++ hrefs src ++ hs)).
    unfold kv_world_ok, kv_handles in *. rewrite Hb in Hw. simpl.
    refine (proj1 (world_ok_proper _ _ _ _) Hw).
    rewrite !hrefs_app, !hrefs_cons, !hrefs_app. perm. }
  intros _ w' [Hw' Hf]. wp_steps. simpl. rewrite Hb, insert_app_r_alt, Nat.sub_diag by lia. simpl.
  replace (Datatypes.S (length pre)) with (length (pre ++ [b])) by (rewrite length_app; simpl; lia).
  eapply wp_mono; [apply (IH (pre ++ [b]) mid)|].
  - simpl. by rewrite <-app_assoc.
  - done.
  - unfold kv_world_ok, kv_handles in *. exact Hw'.
  - intros left s' (Hw'' & Hs' & -> & Hf'). wp_steps. split; [done|].
    rewrite Hs'. simpl. split; [by rewrite <-app_assoc|]. split; [done|]. by etrans.
Qed.

(** What [add_shared_kv_blocks] leaves in the state and in the caller's vector *)
Definition shared_state (bs : Z) (new : list Block) (total : Z) k : KVCacheState T * list Block :=
  let n := length new in
  if decide (n = O) then (k, [])
  else if (n <=? length (blocks_ k))%nat then
    if num_owned_shared_blocks_ k <? Z.of_nat n
    then (set_owned (Z.of_nat n) (set_blocks (new ++ drop n (blocks_ k)) k), Block_moved <$> new)
    else (k, new)
  else
    if Z.of_nat n * bs =? total
    then (set_tokens ((Z.of_nat n - 1) * bs)
            (set_blocks (take (n - 1) new) (set_owned (Z.of_nat n - 1) k)), [])
    else (set_tokens (Z.of_nat n * bs) (set_blocks new (set_owned (Z.of_nat n) k)), []).

Lemma shared_state_ok bs new total k :
  kv_ok bs k → Forall (λ b, size b = bs) new → Z.of_nat (length new) < 2 ^ 31 →
  kv_ok bs (shared_state bs new total k).1.
Proof.
  intros [? ? ? ? ?] Hs Hn. unfold shared_state.
  repeat case_decide; [done|]. destruct (_ <=? _)%nat eqn:E.
  - apply Nat.leb_le in E. destruct (_ <? _); [|done].
    assert (length (new ++ drop (length new) (blocks_ k)) = length (blocks_ k)) as Hl
      by (rewrite length_app, length_drop; lia).
    constructor; simpl; rewrite ?Hl; try done; [|lia].
    apply Forall_app. split; [done|]. by apply Forall_drop.
  - destruct (_ =? _); constructor; simpl; rewrite ?length_take; try done; try nia.
    by apply Forall_take.
Qed.

Lemma add_shared_ok bs new total s hs :
  kv_ok bs s.1 → kv_world_ok s (hrefs new ++ hs) →
  Forall (λ b, size b = bs) new → Z.of_nat (length new) < 2 ^ 31 →
  Z.of_nat (length new) * bs ≤ total < 2 ^ 63 → 0 < total →
  wp (add_shared_kv_blocks new total)
     (λ left s', (s'.1, left) = shared_state bs new total s.1 ∧
        kv_world_ok s' (hrefs left ++ hs) ∧ frame (mgr s.2) (mgr s'.2)) s.
Proof.
  intros Hk Hw Hs Hn Ht Hpos. unfold add_shared_kv_blocks, shared_state.
  destruct new as [|b0 new'] eqn:En.
  { rewrite decide_True by done. apply wp_ret. by destruct s. }
  rewrite <-En in *. rewrite decide_False by (by rewrite En).
  assert (size b0 = bs) as Hb0 by (rewrite En in Hs; by apply Forall_cons in Hs as [? _]).
  destruct Hk as [Hbs Hsz Ho Htk Hroom]. unfold kv_get at 1. apply wp_bind, wp_gets.
  destruct (length new <=? length (blocks_ s.1))%nat eqn:E.
  - apply Nat.leb_le in E. unfold try_replace_unique_blocks, kv_get. apply wp_bind, wp_gets.
    rewrite u32_id by lia. destruct (_ <? _) eqn:E2.
    2: { apply wp_ret. by destruct s. }
    apply wp_bind, wp_check; [by apply Z.leb_le; lia|].
    rewrite Nat2Z.id, take_ge, drop_ge by done.
    apply wp_bind. eapply wp_mono.
    { apply (move_into_ok new s hs [] (take (length new) (blocks_ s.1)) (drop (length new) (blocks_ s.1))).
      - simpl. by rewrite take_drop.
      - rewrite length_take. lia.
      - done. }
    intros left s' (Hw' & Hs' & -> & Hf). unfold kv_modify. wp_steps. simpl.
    rewrite app_nil_r, Hs'. split; [done|]. split; [|done].
    assert (hrefs (Block_moved <$> new) = []) as ->.
    { clear. induction new as [|b new IH]; [done|]. by rewrite fmap_cons, hrefs_cons, href_moved, IH. }
    unfold kv_world_ok, kv_handles in *. by rewrite Hs' in Hw'.
  - apply Nat.leb_gt in E. apply wp_bind_assoc, wp_bind.
    eapply wp_mono; [by apply (clear_ok s (hrefs new ++ hs))|].
    intros _ s1 (Hw1 & Hs1 & Hf1). unfold kv_modify at 1. apply wp_bind, wp_modify.
    rewrite !u32_id, !u64_id by nia. rewrite Hb0.
    set (s2 := (set_blocks new _, s1.2)).
    assert (kv_world_ok s2 hs) as Hw2.
    { unfold kv_world_ok, kv_handles, s2 in *. rewrite Hs1 in *. simpl in *.
      refine (proj1 (world_ok_proper _ _ _ _) Hw1). perm. }
    destruct (_ =? total) eqn:E3.
    + apply Z.eqb_eq in E3. apply wp_bind, wp_bind, wp_check; [by apply Z.ltb_lt; lia|].
      unfold kv_get. apply wp_bind, wp_gets. simpl.
      destruct (0 <? _) eqn:E4; [|apply Z.ltb_ge in E4; rewrite En in *; simpl in *; lia].
      unfold kv_modify at 1. apply wp_bind, wp_bind, wp_modify.
      destruct (exists_last (l := new)) as (l & bl & Hl); [by rewrite En|].
      eapply wp_mono; [eapply (pop_back_ok _ hs l bl); [exact Hl|exact Hw2]|].
      intros _ s3 (Hw3 & Hs3 & Hf3). apply wp_ret.
      assert ((total - 1) / bs = Z.of_nat (length new) - 1) as Hdiv.
      { symmetry. apply (Z.div_unique _ _ _ (bs - 1)); lia. }
      assert (u64 (u64 (total - 1) / bs * bs) = (Z.of_nat (length new) - 1) * bs) as ->.
      { rewrite (u64_id (total - 1)) by lia. rewrite Hdiv, u64_id; nia. }
      apply wp_bind, wp_check; [apply Z.ltb_lt; nia|]. unfold kv_modify. wp_steps. simpl.
      rewrite Hs3. simpl. rewrite Hs1. simpl. rewrite u32_id by lia.
      split; [|split].
      * f_equal. rewrite Hl, length_app. simpl. rewrite Nat.add_sub, take_app_length. done.
      * unfold kv_world_ok, kv_handles in *. rewrite Hs3 in Hw3. simpl in *. by rewrite Hs1 in Hw3.
      * etrans; [exact Hf1|exact Hf3].
    + apply Z.eqb_neq in E3. apply wp_bind, wp_ret.
      apply wp_bind, wp_check; [apply Z.ltb_lt; lia|]. unfold kv_modify. wp_steps. simpl.
      split; [by rewrite Hs1|]. split; [exact Hw2|exact Hf1].
Qed.

(** *** Slots *)

(** The slot of position [i]: its block's id and its offset in the block *)
Definition slot_of (bs : Z) (bks : list Block) (i : Z) : Z :=
  match bks !! Z.to_nat (i / bs) with
  | Some b => id b * bs + i mod bs
  | None => 0
  end.

Lemma kv_cache_slots_ok bs num_blocks st en s :
  kv_ok bs s.1 → blocks_ s.1 ≠ [] →
  Forall (λ b, 0 ≤ id b < num_blocks) (blocks_ s.1) → num_blocks * bs ≤ 2 ^ 31 →
  0 ≤ st ≤ en → en ≤ Z.of_nat (length (blocks_ s.1)) * bs →
  wp (kv_cache_slots st en)
     (λ r s', s' = s ∧ r = slot_of bs (blocks_ s.1) <$> seqZ st (en - st)) s.
Proof.
  intros [Hbs Hsz Ho Htk Hroom] Hne Hid Hnb Hst Hen. unfold kv_cache_slots, kv_get. apply wp_bind, wp_gets.
  destruct (blocks_ s.1) as [|b0 bks] eqn:Eb; [done|]. rewrite <-Eb in *.
  assert (size b0 = bs) as -> by (rewrite Eb in Hsz; by apply Forall_cons in Hsz as [? _]).
  destruct (en <? st) eqn:E; [apply Z.ltb_lt in E; lia|].
  eapply wp_mono.
  - apply (wp_map_each _ _ (λ rest r s', s' = s ∧ r ++ (slot_of bs (blocks_ s.1) <$> rest) =
        slot_of bs (blocks_ s.1) <$> seqZ st (en - st) ∧ Forall (λ i, st ≤ i < en) rest)).
    + split; [done|]. split; [done|]. apply Forall_forall. intros i. rewrite elem_of_seqZ. lia.
    + intros i rest r s' (-> & Heq & Hr). apply Forall_cons in Hr as [Hi Hr].
      unfold kv_cache_slot. destruct (bs =? 0) eqn:E0; [apply Z.eqb_eq in E0; lia|].
      rewrite fmap_cons in Heq.
      assert (0 ≤ i mod bs < bs) by (apply Z.mod_pos_bound; lia).
      assert (0 ≤ i / bs < Z.of_nat (length (blocks_ s.1))) as Hdiv.
      { split; [apply Z.div_pos; lia|]. apply Z.div_lt_upper_bound; lia. }
      rewrite (u64_id i) by nia.
      destruct (lookup_lt_is_Some_2 (blocks_ s.1) (Z.to_nat (i / bs))) as [b Hb]; [lia|].
      apply wp_bind. eapply wp_atZ; [lia|exact Hb|]. apply wp_ret. split; [done|]. split; [|done].
      assert (0 ≤ id b < num_blocks) as Hidb by (by eapply (Forall_lookup_1 _ _ _ _ Hid)).
      assert (id b * bs + i mod bs < 2 ^ 31) by nia.
      rewrite (u64_id (id b)), (u64_id (id b * bs)), (i32_id (i mod bs)), (u64_id (i mod bs)), u64_id, i32_id by nia.
      rewrite <-app_assoc. simpl. rewrite <-Heq. unfold slot_of at 2. by rewrite Hb.
  - intros r s' (-> & Heq & _). simpl in Heq. by rewrite app_nil_r in Heq.
Qed.

(** Blocks with distinct ids never share a slot. *)
Lemma slot_of_inj bs bks i j :
  0 < bs → NoDup (id <$> bks) → 0 ≤ i < Z.of_nat (length bks) * bs →
  0 ≤ j < Z.of_nat (length bks) * bs → slot_of bs bks i = slot_of bs bks j → i = j.
Proof.
  intros Hbs Hnd Hi Hj. unfold slot_of.
  assert (∀ x, 0 ≤ x < Z.of_nat (length bks) * bs → 0 ≤ x / bs < Z.of_nat (length bks)) as Hd.
  { intros x Hx. split; [apply Z.div_pos; lia|]. apply Z.div_lt_upper_bound; lia. }
  pose proof (Hd _ Hi) as Hdi. pose proof (Hd _ Hj) as Hdj.
  destruct (lookup_lt_is_Some_2 bks (Z.to_nat (i / bs))) as [b Hb]; [lia|].
  destruct (lookup_lt_is_Some_2 bks (Z.to_nat (j / bs))) as [b' Hb']; [lia|].
  rewrite Hb, Hb'. intros Heq.
  pose proof (Z.mod_pos_bound i bs Hbs). pose proof (Z.mod_pos_bound j bs Hbs).
  assert (∀ q r, 0 ≤ r < bs → (q * bs + r) / bs = q) as Hq
    by (intros q r Hr; rewrite Z.div_add_l, (Z.div_small r) by lia; lia).
  assert (id b = id b') as Hid by (rewrite <-(Hq (id b) (i mod bs)), Heq by done; by apply Hq).
  assert (i mod bs = j mod bs) as Hm by (rewrite Hid in Heq; lia). clear Hq.
  assert (Z.to_nat (i / bs) = Z.to_nat (j / bs)) as Hq.
  { apply (NoDup_lookup (id <$> bks) _ _ (id b) Hnd).
    - by rewrite list_lookup_fmap, Hb.
    - by rewrite list_lookup_fmap, Hb', Hid. }
  pose proof (Z.div_mod i bs). pose proof (Z.div_mod j bs). assert (i / bs = j / bs) by lia. nia.
Qed.

(** ** Properties *)

(** C26: for a sequence whose distinct blocks come from a pool of [num_blocks] (so that the
    slot numbers fit an [int32_t]), [kv_cache_slots(st, en)] returns one slot per position,
    each in its own block at its own offset, within the pool's cache and pairwise distinct:
    no two tokens are written to the same place. *)
Theorem kv_cache_slots_distinct bs num_blocks st en s :
  kv_ok bs s.1 → blocks_ s.1 ≠ [] → NoDup (id <$> blocks_ s.1) →
  Forall (λ b, 0 ≤ id b < num_blocks) (blocks_ s.1) → num_blocks * bs ≤ 2 ^ 31 →
  0 ≤ st ≤ en → en ≤ Z.of_nat (length (blocks_ s.1)) * bs →
  wp (kv_cache_slots st en)
     (λ r s', s' = s ∧ r = slot_of bs (blocks_ s.1) <$> seqZ st (en - st) ∧ NoDup r ∧
        Forall (λ x, 0 ≤ x < num_blocks * bs) r) s.
Proof.
  intros Hk Hne Hnd Hid Hnb Hst Hen. eapply wp_mono; [by eapply kv_cache_slots_ok|].
  intros r s' [-> ->]. split; [done|]. split; [done|]. pose proof (ko_bs _ _ Hk) as Hbs. split.
  - apply NoDup_fmap_2_strong; [|apply NoDup_seqZ].
    intros x y Hx Hy. rewrite elem_of_seqZ in *. apply slot_of_inj; (done || lia).
  - apply Forall_fmap, Forall_forall. intros i Hi. apply elem_of_seqZ in Hi. simpl. unfold slot_of.
    assert (0 ≤ i / bs < Z.of_nat (length (blocks_ s.1))) as Hdiv.
    { split; [apply Z.div_pos; lia|]. apply Z.div_lt_upper_bound; lia. }
    destruct (lookup_lt_is_Some_2 (blocks_ s.1) (Z.to_nat (i / bs))) as [b Hb]; [lia|]. rewrite Hb.
    assert (0 ≤ id b < num_blocks) by (by eapply (Forall_lookup_1 _ _ _ _ Hid)).
    pose proof (Z.mod_pos_bound i bs). nia.
Qed.

(** C27: [add_shared_kv_blocks] keeps the state well formed and leaves exactly
    [shared_state]; every handle it drops is given back.  When the matched prefix is longer
    than what the sequence has, the cached token count it sets is below the total, so that
    at least one token is left to compute, and within one block of the match. *)
Theorem add_shared_leaves_a_token bs new total s hs :
  kv_ok bs s.1 → kv_world_ok s (hrefs new ++ hs) →
  Forall (λ b, size b = bs) new → Z.of_nat (length new) < 2 ^ 31 →
  Z.of_nat (length new) * bs ≤ total < 2 ^ 63 → 0 < total →
  wp (add_shared_kv_blocks new total)
     (λ left s', (s'.1, left) = shared_state bs new total s.1 ∧ kv_ok bs s'.1 ∧
        kv_world_ok s' (hrefs left ++ hs) ∧
        ((length (blocks_ s.1) < length new)%nat →
           kv_cache_tokens_num_ s'.1 < total ∧
           (Z.of_nat (length new) - 1) * bs ≤ kv_cache_tokens_num_ s'.1 ∧
           kv_cache_tokens_num_ s'.1 = Z.of_nat (length (blocks_ s'.1)) * bs)) s.
Proof.
  intros Hk Hw Hs Hn Ht Hpos. eapply wp_mono; [by apply (add_shared_ok bs new total s hs)|].
  intros left s' (Heq & Hw' & _). split; [done|].
  assert (s'.1 = (shared_state bs new total s.1).1) as Hs' by (by rewrite <-Heq).
  split; [rewrite Hs'; by apply shared_state_ok|]. split; [done|]. intros Hlt.
  pose proof (ko_bs _ _ Hk) as Hbs. rewrite Hs'. unfold shared_state.
  rewrite decide_False by lia. destruct (_ <=? _)%nat eqn:E; [apply Nat.leb_le in E; lia|].
  destruct (_ =? total) eqn:E3; simpl; rewrite ?length_take.
  - apply Z.eqb_eq in E3. nia.
  - apply Z.eqb_neq in E3. nia.
Qed.

(** [incr_kv_cache_tokens_num(num)] adds [num] when the tokens fit the blocks and ends
    the process otherwise: the cached tokens never exceed the blocks' capacity. *)
Theorem incr_tokens_within_capacity bs num k :
  kv_ok bs k → 0 ≤ num < 2 ^ 63 →
  let capacity := Z.of_nat (length (blocks_ k)) * bs in
  (kv_cache_tokens_num_ k + num ≤ capacity →
     incr_kv_cache_tokens_num num k = Done () (set_tokens (kv_cache_tokens_num_ k + num) k)) ∧
  (capacity < kv_cache_tokens_num_ k + num → ∃ e, incr_kv_cache_tokens_num num k = Fatal e).
Proof.
  intros Hk Hn capacity. split; [|by apply incr_tokens_fatal].
  intros Hle. pose proof (incr_tokens_ok bs num k Hk) as Hwp. unfold wp in Hwp.
  destruct (incr_kv_cache_tokens_num num k) as [[] k'| | |]; [|by destruct Hwp; lia..].
  destruct Hwp as [_ ->]; (done || lia).
Qed.

(** [process_beam_search] replaces the sequence's blocks by the source beam's, with the
    last one swapped for the new block when there is one, and gives back every handle on
    the blocks it drops; it moves nothing else. *)
Theorem beam_search_swaps_blocks s hs nb :
  kv_world_ok s hs → hrefs (option_list nb) ⊆ hs → (nb ≠ None → src_blocks_ s.1 ≠ []) →
  Z.of_nat (length (kv_handles s.1 ++ hs)) + 1 < 2 ^ 32 →
  wp (process_beam_search nb)
     (λ _ s', kv_world_ok s' hs ∧ src_blocks_ s'.1 = [] ∧
        kv_cache_tokens_num_ s'.1 = kv_cache_tokens_num_ s.1 ∧
        match nb with
        | None => blocks_ s'.1 = src_blocks_ s.1
        | Some b => length (blocks_ s'.1) = length (src_blocks_ s.1) ∧ last (blocks_ s'.1) = Some b ∧
            ∀ i, (i < length (src_blocks_ s.1) - 1)%nat → blocks_ s'.1 !! i = src_blocks_ s.1 !! i
        end) s.
Proof.
  intros Hw Hsub Hne Hroom. eapply wp_mono; [by apply (process_beam_search_ok s hs nb)|].
  intros [] s' (Hw' & _ & Hs'). split; [done|]. rewrite Hs'. simpl. split; [done|]. split; [done|].
  destruct nb as [b|]; [|done].
  assert (0 < length (src_blocks_ s.1))%nat as Hpos.
  { destruct (src_blocks_ s.1); [by destruct Hne|simpl; lia]. }
  rewrite length_app, length_take. simpl. split; [lia|]. split; [apply last_snoc|].
  intros i Hi. rewrite lookup_app_l by (rewrite length_take; lia). by rewrite lookup_take_lt.
Qed.
End verified.
