(* ===== verification/EmbeddingManager.v ===== *)
(** The embedding-id manager: [core/framework/block/embedding_manager.h] and
    [embedding_manager.cpp].

    A second [BlockManager]: a stack of ids with a use bit per id and no prefix
    cache.  It is an instance of the interface [Blocks.BlockOwnerLaws], so the
    ownership theorems of [Blocks] hold for its blocks too; [emb_ok] is its
    invariant.  Each operation runs under [mutex_]. *)

From stdpp Require Import base gmap list strings sets.
From Stdlib Require Import ZArith Lia.
From S2P Require Import Prelude HashKey Blocks.
Open Scope Z_scope.

Record EmbCore := mkEmbCore {
  free_ids_ : list Z;
  in_use_ids_ : list bool;
  emb_num_free_blocks_ : Z;
  emb_num_used_blocks_ : Z;
}.

(** [make_embedding_options]: a block size of one *)
Definition embedding_block_size : Z := 1.

Definition emb_set_free (n : Z) (c : EmbCore) : EmbCore :=
  mkEmbCore (free_ids_ c) (in_use_ids_ c) n (emb_num_used_blocks_ c).
Definition emb_set_used (n : Z) (c : EmbCore) : EmbCore :=
  mkEmbCore (free_ids_ c) (in_use_ids_ c) (emb_num_free_blocks_ c) n.
Definition emb_set_bit (i : Z) (b : bool) (c : EmbCore) : EmbCore :=
  mkEmbCore (free_ids_ c) (<[Z.to_nat i := b]> (in_use_ids_ c)) (emb_num_free_blocks_ c)
    (emb_num_used_blocks_ c).
Definition emb_set_ids (l : list Z) (c : EmbCore) : EmbCore :=
  mkEmbCore l (in_use_ids_ c) (emb_num_free_blocks_ c) (emb_num_used_blocks_ c).

(** The constructor *)
Definition EmbCore_new (num_ids : Z) : EmbCore :=
  mkEmbCore ((λ i : nat, i32 (num_ids - Z.of_nat i - 1)) <$> seq 0 (Z.to_nat num_ids))
    (replicate (Z.to_nat num_ids) false) num_ids 0.
Definition EmbeddingManager_new (num_ids : Z) : World EmbCore := mkWorld ∅ 0 (EmbCore_new num_ids).

(** [free(block_id)] *)
Definition emb_free (block_id : Z) : prog EmbCore unit :=
  if block_id <? 0 then mret ()
  else
    get ≫= λ c,
    check (block_id <? Z.of_nat (length (in_use_ids_ c))) "block_id < in_use_ids_.size()" ≫= λ _,
    atZ (in_use_ids_ c) block_id ≫= λ used : bool,
    check used "embedding id was deallocated repeatedly" ≫= λ _,
    modify (emb_set_bit block_id false) ≫= λ _,
    let prev_count := emb_num_free_blocks_ c in
    modify (emb_set_free (u64 (prev_count + 1))) ≫= λ _,
    check (prev_count <? Z.of_nat (length (free_ids_ c))) "prev_count < free_ids_.size()" ≫= λ _,
    modify (emb_set_ids (<[Z.to_nat prev_count := block_id]> (free_ids_ c))).

#[export] Instance Emb_owner : BlockOwner EmbCore := {
  block_size := λ _, embedding_block_size;
  free := emb_free;
}.

(** Taking an id, as both [allocate]s do it *)
Definition emb_take : prog EmbCore Z :=
  get ≫= λ c,
  let prev_count := emb_num_free_blocks_ c in
  modify (emb_set_free (u64 (prev_count - 1))) ≫= λ _,
  atZ (free_ids_ c) (u64 (prev_count - 1)) ≫= λ block_id,
  check (0 <=? block_id) "block_id >= 0" ≫= λ _,
  check (block_id <? Z.of_nat (length (in_use_ids_ c))) "block_id < in_use_ids_.size()" ≫= λ _,
  atZ (in_use_ids_ c) block_id ≫= λ used : bool,
  check (negb used) "embedding id was allocated repeatedly" ≫= λ _,
  modify (emb_set_bit block_id true) ≫= λ _,
  mret block_id.

(** [allocate(size_t num_blocks)] *)
Definition emb_allocate (num_blocks : Z) : prog (World EmbCore) (list Block) :=
  get ≫= λ w,
  if emb_num_free_blocks_ (mgr w) <? num_blocks then mret []
  else
    repeat_each (Z.to_nat num_blocks) (on_mgr emb_take ≫= λ i, Block_new i true) ≫= λ blocks,
    on_mgr (modify (λ c, emb_set_used (u64 (emb_num_used_blocks_ c + num_blocks)) c)) ≫= λ _,
    mret blocks.

(** [allocate()] *)
Definition emb_allocate1 : prog (World EmbCore) Block :=
  get ≫= λ w,
  check (0 <? emb_num_free_blocks_ (mgr w)) "No more embedding ids available" ≫= λ _,
  on_mgr emb_take ≫= λ i,
  on_mgr (modify (λ c, emb_set_used (u64 (emb_num_used_blocks_ c + 1)) c)) ≫= λ _,
  Block_new i true.

(** [deallocate(blocks)] *)
Definition emb_deallocate (blocks : list Block) : prog (World EmbCore) unit :=
  for_each blocks (λ b,
    (if is_valid b then ref_count b ≫= λ n, mret (n =? 1) else mret false) ≫= λ last : bool,
    if last then
      get ≫= λ w,
      check (0 <? emb_num_used_blocks_ (mgr w)) "num_used_blocks_ > 0" ≫= λ _,
      on_mgr (modify (λ c, emb_set_used (u64 (emb_num_used_blocks_ c - 1)) c))
    else mret ()).

(** [num_free_blocks], [num_used_blocks], [num_total_blocks]; [allocate_shared],
    [cache] and [get_merged_kvcache_event] do nothing. *)
Definition emb_num_free_blocks (w : World EmbCore) : Z := emb_num_free_blocks_ (mgr w).
Definition emb_num_used_blocks (w : World EmbCore) : Z := emb_num_used_blocks_ (mgr w).
Definition emb_num_total_blocks (w : World EmbCore) : Z := Z.of_nat (length (free_ids_ (mgr w))).
Definition emb_allocate_shared (tokens_ids : list Z) (existed : list Block)
    : prog (World EmbCore) (list Block) := mret [].

(** ** The contract *)

Definition emb_free_ids (c : EmbCore) : list Z := take (Z.to_nat (emb_num_free_blocks_ c)) (free_ids_ c).

(** The ids [X] are out: exactly the others are on the stack, and the use bits
    say so. *)
Record emb_owns (c : EmbCore) (X : gset Z) : Prop := {
  eo_count : 0 ≤ emb_num_free_blocks_ c ≤ Z.of_nat (length (free_ids_ c));
  eo_total : Z.of_nat (length (free_ids_ c)) < 2 ^ 31;
  eo_bits : length (in_use_ids_ c) = length (free_ids_ c);
  eo_nodup : NoDup (emb_free_ids c);
  eo_free : ∀ i, i ∈ emb_free_ids c ↔ 0 ≤ i < Z.of_nat (length (free_ids_ c)) ∧ i ∉ X;
  eo_range : ∀ i, i ∈ X → 0 ≤ i < Z.of_nat (length (free_ids_ c));
  eo_use : ∀ i, 0 ≤ i < Z.of_nat (length (free_ids_ c)) →
    in_use_ids_ c !! Z.to_nat i = Some (bool_decide (i ∈ X));
}.

Definition emb_frame (c c' : EmbCore) : Prop :=
  emb_num_used_blocks_ c' = emb_num_used_blocks_ c ∧ length (free_ids_ c') = length (free_ids_ c).
#[export] Instance emb_frame_preorder : PreOrder emb_frame.
Proof. split; [done|]. intros ??? [??] [??]. split; congruence. Qed.

Lemma emb_free_length c X :
  emb_owns c X → Z.of_nat (length (emb_free_ids c)) = emb_num_free_blocks_ c.
Proof. intros [? ? ? ? ? ? ?]. unfold emb_free_ids. rewrite length_take. lia. Qed.

Lemma emb_owns_num c X :
  emb_owns c X →
  emb_num_free_blocks_ c = Z.of_nat (length (free_ids_ c)) - Z.of_nat (base.size X).
Proof.
  intros Ho. pose proof (emb_free_length _ _ Ho) as Hl. destruct Ho as [Hc Ht Hb Hnd Hf Hr _].
  set (n := length (free_ids_ c)) in *.
  assert (list_to_set (emb_free_ids c) ∪ X =@{gset Z} list_to_set (seqZ 0 (Z.of_nat n))) as Heq.
  { apply set_eq. intros i. rewrite elem_of_union, !elem_of_list_to_set, Hf, elem_of_seqZ. split.
    - intros [?|HX]; [lia|]. apply Hr in HX. lia.
    - intros ?. destruct (decide (i ∈ X)); [by right|]. left. split; [lia|done]. }
  assert (list_to_set (emb_free_ids c) ## X) as Hd.
  { intros i. rewrite elem_of_list_to_set, Hf. set_solver. }
  pose proof (size_union _ _ Hd) as Hs. rewrite Heq, !size_list_to_set, length_seqZ in Hs
    by (done || apply NoDup_seqZ). lia.
Qed.

Lemma use_bits c (X Y : gset Z) i b :
  (∀ j, 0 ≤ j < Z.of_nat (length (in_use_ids_ c)) →
     in_use_ids_ c !! Z.to_nat j = Some (bool_decide (j ∈ X))) →
  0 ≤ i < Z.of_nat (length (in_use_ids_ c)) →
  (∀ j, j ≠ i → j ∈ Y ↔ j ∈ X) → bool_decide (i ∈ Y) = b →
  ∀ j, 0 ≤ j < Z.of_nat (length (in_use_ids_ c)) →
    <[Z.to_nat i := b]> (in_use_ids_ c) !! Z.to_nat j = Some (bool_decide (j ∈ Y)).
Proof.
  intros Hx Hi Hext Hb j Hj. destruct (decide (j = i)) as [->|Hne].
  - rewrite list_lookup_insert_eq by lia. by rewrite Hb.
  - rewrite list_lookup_insert_ne by lia. rewrite Hx by done. f_equal.
    apply bool_decide_ext. symmetry. by apply Hext.
Qed.

Lemma emb_free_owns c X i :
  emb_owns c X → i ∈ X → wp (emb_free i) (λ _ c', emb_owns c' (X ∖ {[i]}) ∧ emb_frame c c') c.
Proof.
  intros Ho Hi. pose proof (emb_free_length _ _ Ho) as Hl. pose proof (emb_owns_num _ _ Ho) as Hn.
  destruct Ho as [Hc Ht Hb Hnd Hf Hr Hu]. pose proof (Hr _ Hi) as Hri.
  unfold emb_free. destruct (i <? 0) eqn:E; [apply Z.ltb_lt in E; lia|].
  wp_steps. apply wp_check; [by apply Z.ltb_lt; lia|]. wp_steps.
  eapply wp_atZ; [lia|by apply Hu|]. apply wp_bind, wp_check; [by apply bool_decide_eq_true|].
  assert (0 < base.size X)%nat.
  { destruct (decide (base.size X = O)) as [Hz|]; [|lia]. apply size_empty_inv in Hz. set_solver. }
  wp_steps. apply wp_check; [by apply Z.ltb_lt; lia|]. wp_steps.
  split; [|split; simpl; by rewrite ?length_insert].
  set (c' := emb_set_ids _ _).
  assert (emb_free_ids c' = emb_free_ids c ++ [i]) as Hids.
  { unfold emb_free_ids. simpl. rewrite u64_id by lia.
    replace (Z.to_nat (emb_num_free_blocks_ c + 1)) with (S (Z.to_nat (emb_num_free_blocks_ c))) by lia.
    erewrite take_S_r; [|apply list_lookup_insert_eq; lia]. f_equal. by apply take_insert_ge. }
  constructor; rewrite ?Hids; simpl; rewrite ?length_insert; try done.
  - rewrite u64_id; lia.
  - apply NoDup_app. split; [done|]. split; [|apply NoDup_singleton].
    intros j Hj. rewrite Hf in Hj. rewrite list_elem_of_singleton. set_solver.
  - intros j. rewrite elem_of_app, Hf, list_elem_of_singleton. destruct (decide (j = i)) as [->|].
    + split; [|by right]. intros _. split; [lia|set_solver].
    + set_solver.
  - set_solver.
  - rewrite <-Hb. apply (use_bits c X); rewrite ?Hb; try done; [set_solver|].
    apply bool_decide_eq_false. set_solver.
Qed.

#[export] Instance Emb_laws : BlockOwnerLaws EmbCore := {
  owns := emb_owns;
  frame := emb_frame;
  free_owns := emb_free_owns;
}.

Lemma emb_take_ok c X :
  emb_owns c X → 0 < emb_num_free_blocks_ c →
  wp emb_take (λ i c', emb_owns c' ({[i]} ∪ X) ∧ i ∉ X ∧ 0 ≤ i ∧ emb_frame c c' ∧
                 emb_num_free_blocks_ c' = emb_num_free_blocks_ c - 1) c.
Proof.
  intros Ho Hpos. pose proof (emb_free_length _ _ Ho) as Hl. destruct Ho as [Hc Ht Hb Hnd Hf Hr Hu].
  unfold emb_take. wp_steps. rewrite u64_id by lia.
  destruct (lookup_lt_is_Some_2 (free_ids_ c) (Z.to_nat (emb_num_free_blocks_ c - 1))) as [i Hi]; [lia|].
  eapply wp_atZ; [lia|done|].
  assert (emb_free_ids c = emb_free_ids (emb_set_free (emb_num_free_blocks_ c - 1) c) ++ [i]) as Hids.
  { unfold emb_free_ids. simpl. rewrite <-(take_S_r _ _ _ Hi). f_equal. lia. }
  assert (i ∈ emb_free_ids c) as Hin by (rewrite Hids; set_solver). apply Hf in Hin as [Hri HiX].
  rewrite Hids in Hnd. apply NoDup_app in Hnd as (Hnd & Hni & _).
  apply wp_bind, wp_check; [by apply Z.leb_le; lia|].
  apply wp_bind, wp_check; [by apply Z.ltb_lt; lia|].
  apply wp_bind. eapply wp_atZ; [lia|by apply Hu|].
  apply wp_bind, wp_check; [by apply negb_true_iff, bool_decide_eq_false|]. wp_steps.
  split; [|split; [done|split; [lia|split; [|done]]]].
  - constructor; simpl; rewrite ?length_insert; try done; try lia.
    + intros j. destruct (decide (j = i)) as [->|Hne].
      * split; [intros Hj; by destruct (Hni _ Hj); set_solver|set_solver].
      * specialize (Hf j). rewrite Hids in Hf. set_solver.
    + intros j. rewrite elem_of_union, elem_of_singleton. intros [->|Hj]; [lia|by apply Hr].
    + rewrite <-Hb. apply (use_bits c X); rewrite ?Hb; try done; [set_solver|].
      apply bool_decide_eq_true. set_solver.
  - by repeat split; simpl; rewrite ?length_insert.
Qed.

(** ** Invariant and operations *)

(** [bs] are the embedding blocks the sequences hold; each is held once, as every
    sequence moves its block around. *)
Record emb_ok (w : World EmbCore) (bs : list Block) : Prop := {
  em_world : world_ok w (hrefs bs);
  em_managed : Forall (λ b, ref_count_ b ≠ None ∧ manager_ b = true ∧ 0 ≤ id b) bs;
  em_nodup : NoDup (id <$> bs);
  em_used : emb_num_used_blocks_ (mgr w) = Z.of_nat (length bs);
}.

Definition emb_live (b : Block) : Prop := ref_count_ b ≠ None ∧ manager_ b = true ∧ 0 ≤ id b.

Lemma emb_href b : emb_live b → ∃ l, ref_count_ b = Some l ∧ href b = [(l, Some (id b))].
Proof.
  intros (Hr & Hm & _). unfold href, payload. destruct (ref_count_ b) as [l|]; [|done].
  rewrite Hm. eauto.
Qed.
Lemma emb_ids bs : Forall emb_live bs → ids_of (hrefs bs) = list_to_set (id <$> bs).
Proof.
  induction 1 as [|b bs Hb _ IH]; [done|]. destruct (emb_href b Hb) as (l & _ & Hh).
  rewrite hrefs_cons, Hh, fmap_cons. simpl. by rewrite ids_of_cons, IH.
Qed.
Lemma emb_num w bs :
  emb_ok w bs → emb_num_free_blocks w = emb_num_total_blocks w - Z.of_nat (length bs).
Proof.
  intros [[_ Ho] Hm Hnd _]. unfold emb_num_free_blocks, emb_num_total_blocks.
  rewrite (emb_owns_num _ _ Ho), emb_ids, size_list_to_set by done. by rewrite length_fmap.
Qed.

Lemma emb_new_ok n : 0 ≤ n < 2 ^ 31 → emb_ok (EmbeddingManager_new n) [].
Proof.
  intros Hn. constructor; try done; [|constructor].
  split; [apply cells_ok_nil|]. simpl. rewrite hrefs_nil, ids_of_nil.
  assert (∀ i x, ((λ i : nat, i32 (n - Z.of_nat i - 1)) <$> seq 0 (Z.to_nat n)) !! i = Some x ↔
            x = n - Z.of_nat i - 1 ∧ (i < Z.to_nat n)%nat) as Hlk.
  { intros i x. rewrite list_lookup_fmap. split.
    - destruct (seq 0 (Z.to_nat n) !! i) eqn:E; [|done]. apply lookup_seq in E as [-> ?].
      simpl. intros [= <-]. split; [|done]. apply i32_id. lia.
    - intros [-> Hi]. rewrite (lookup_seq_lt _ _ _ Hi). simpl. f_equal. apply i32_id. lia. }
  assert (length ((λ i : nat, i32 (n - Z.of_nat i - 1)) <$> seq 0 (Z.to_nat n)) = Z.to_nat n) as Hl
    by (by rewrite length_fmap, length_seq).
  constructor; unfold emb_free_ids; cbn [free_ids_ in_use_ids_ emb_num_free_blocks_ EmbCore_new];
    rewrite ?Hl, ?length_replicate; try lia.
  - rewrite take_ge by lia. apply NoDup_alt. intros i j x. rewrite !Hlk. lia.
  - intros i. rewrite take_ge by lia. rewrite list_elem_of_lookup. setoid_rewrite Hlk. split.
    + intros (k & -> & ?). split; [lia|set_solver].
    + intros [? _]. exists (Z.to_nat (n - i - 1)). lia.
  - set_solver.
  - intros i Hi. rewrite lookup_replicate_2 by lia. by rewrite bool_decide_false by set_solver.
Qed.

Lemma emb_allocate_ok w bs n :
  emb_ok w bs → 0 ≤ n → Z.of_nat (length bs) + n < 2 ^ 31 →
  wp (emb_allocate n)
     (λ r w', emb_ok w' (r ++ bs) ∧ emb_num_total_blocks w' = emb_num_total_blocks w ∧
        length r = (if n <=? emb_num_free_blocks w then Z.to_nat n else O)) w.
Proof.
  intros Hok Hn Hroom. unfold emb_allocate. wp_steps.
  pose proof (emb_num _ _ Hok) as Hnum. unfold emb_num_free_blocks, emb_num_total_blocks in *.
  destruct (_ <? n) eqn:E.
  { apply Z.ltb_lt in E. apply wp_ret. split; [done|]. split; [done|].
    destruct (n <=? _) eqn:E2; [apply Z.leb_le in E2; lia|done]. }
  apply Z.ltb_ge in E. destruct (n <=? _) eqn:E2; [|apply Z.leb_gt in E2; lia].
  destruct Hok as [Hw Hm Hnd Hu]. apply wp_bind. eapply wp_mono.
  - apply (wp_repeat_each _ _ (λ k r w', world_ok w' (hrefs r ++ hrefs bs) ∧
      Forall emb_live r ∧ NoDup (id <$> r ++ bs) ∧ (length r + k = Z.to_nat n)%nat ∧
      emb_frame (mgr w) (mgr w') ∧
      emb_num_free_blocks_ (mgr w') = emb_num_free_blocks_ (mgr w) - Z.of_nat (length r))).
    + split; [done|]. split; [constructor|]. split; [done|]. split; [done|]. split; [reflexivity|]. simpl. lia.
    + intros k r w1 (Hw1 & Hm1 & Hnd1 & Hlen & Hf1 & Hn1). unfold on_mgr. wp_steps.
      assert (Forall emb_live (r ++ bs)) as Hmm by (by apply Forall_app).
      rewrite <-hrefs_app in Hw1. destruct Hw1 as [Hc1 Ho1].
      eapply wp_mono; [by apply emb_take_ok; [exact Ho1|lia]|].
      intros i c' (Ho' & Hi & Hi0 & Hfr & Hn'). eapply wp_mono.
      { apply (Block_new_ok (set_mgr c' w1) (hrefs (r ++ bs))); [done|exact Ho'|done|].
        pose proof (hrefs_length (r ++ bs)). rewrite length_app in *. lia. }
      intros b w2 (Hw2 & Hm2 & Hid & Hmb & Hrc & _). simpl in *.
      rewrite emb_ids, elem_of_list_to_set in Hi by done.
      split; [|split; [|split; [|split; [|split]]]].
      * refine (proj1 (world_ok_proper _ _ _ _) Hw2).
        rewrite !hrefs_app, hrefs_cons, hrefs_nil. perm.
      * apply Forall_app. split; [done|]. constructor; [|done].
        split; [by rewrite Hrc|]. split; [done|lia].
      * rewrite <-app_assoc, fmap_app. simpl. apply NoDup_middle. rewrite <-fmap_app, Hid. done.
      * rewrite length_app. simpl. lia.
      * rewrite Hm2. by etrans.
      * rewrite Hm2, length_app. simpl. lia.
  - intros r w1 (Hw1 & Hm1 & Hnd1 & Hlen & [Hu1 Hl1] & Hn1). unfold on_mgr. wp_steps.
    rewrite <-hrefs_app in Hw1.
    split; [|split; [by rewrite <-Hl1|lia]]. constructor; simpl; try done.
    + destruct Hw1 as [Hc1 [? ? ? ? ? ? ?]]. split; [done|by constructor].
    + by apply Forall_app.
    + rewrite Hu1, Hu, length_app. rewrite u64_id; lia.
Qed.

(** Handing a block back and dropping it, as [deallocate_embedding_id] does *)
Definition emb_release (b : Block) : prog (World EmbCore) unit :=
  emb_deallocate [b] ≫= λ _, Block_destroy b.

Lemma emb_release_ok w b bs :
  emb_ok w (b :: bs) →
  wp (emb_release b) (λ _ w', emb_ok w' bs ∧ emb_num_total_blocks w' = emb_num_total_blocks w ∧
    emb_num_free_blocks w' = emb_num_free_blocks w + 1) w.
Proof.
  intros Hok. pose proof (emb_num _ _ Hok) as Hnum. destruct Hok as [Hw Hm Hnd Hu].
  apply Forall_cons in Hm as [Hb Hm]. pose proof (emb_href b Hb) as (l & Hl & Hh).
  rewrite fmap_cons, NoDup_cons in Hnd. destruct Hnd as [Hni Hnd].
  rewrite hrefs_cons, Hh in Hw. unfold emb_release, emb_deallocate. simpl.
  assert (is_valid b = true) as ->.
  { unfold is_valid. rewrite Hl, andb_true_r. apply Z.leb_le. apply Hb. }
  wp_steps. eapply ref_count_ok; [apply Hw|rewrite Hh; set_solver|]. rewrite Hl.
  assert (cnt l (hrefs bs) = O) as Hz.
  { apply cnt_zero. intros p Hp.
    assert (p = Some (id b)) as -> by (apply (co_fun _ _ _ (proj1 Hw) l); set_solver). apply Hni.
    assert (id b ∈ ids_of (hrefs bs)) as Hin by (apply ids_of_elem; eauto).
    by rewrite emb_ids, elem_of_list_to_set in Hin. }
  simpl. rewrite cnt_cons_eq, Hz. wp_steps. simpl.
  wp_steps. apply wp_check; [apply Z.ltb_lt; rewrite Hu; simpl; lia|].
  unfold on_mgr at 1. wp_steps. eapply wp_mono.
  { apply (Block_destroy_ok (set_mgr _ w) (hrefs bs)). rewrite Hh. destruct Hw as [Hc [? ? ? ? ? ? ?]].
    split; [exact Hc|]. by constructor. }
  intros _ w' [Hw' [Hu' Hl']]. simpl in *.
  assert (emb_ok w' bs) as Hok'.
  { constructor; try done. rewrite Hu', Hu. simpl length. rewrite u64_id; [lia|].
    pose proof (co_room _ _ _ (proj1 Hw)) as Hroom. simpl in Hroom.
    assert (length (hrefs bs) = length bs) as Hlb; [|lia].
    clear -Hm. induction Hm as [|b bs Hb _ IH]; [done|]. destruct (emb_href b Hb) as (? & _ & Hh).
    rewrite hrefs_cons, Hh. simpl. by rewrite IH. }
  split; [done|]. unfold emb_num_total_blocks, emb_num_free_blocks in *. split; [by rewrite Hl'|].
  pose proof (emb_num _ _ Hok') as Hnum'. unfold emb_num_total_blocks, emb_num_free_blocks in Hnum'.
  rewrite Hnum', Hnum, Hl'. simpl. lia.
Qed.

(** *** Runs: the embedding ids sequences take and hand back *)

Inductive emb_op := EmbAllocate (n : Z) | EmbRelease (i : nat).
Definition emb_run (op : emb_op) (bs : list Block) : prog (World EmbCore) (list Block) :=
  match op with
  | EmbAllocate n => emb_allocate n ≫= λ r, mret (r ++ bs)
  | EmbRelease i => at_ bs i ≫= λ b, emb_release b ≫= λ _, mret (delete i bs)
  end.
Definition emb_pre (op : emb_op) (bs : list Block) : Prop :=
  match op with
  | EmbAllocate n => 0 ≤ n ∧ Z.of_nat (length bs) + n < 2 ^ 31
  | EmbRelease i => (i < length bs)%nat
  end.
Inductive emb_reach (num_ids : Z) : World EmbCore → list Block → Prop :=
  | emb_reach_new : emb_reach num_ids (EmbeddingManager_new num_ids) []
  | emb_reach_step op w bs bs' w' :
      emb_reach num_ids w bs → emb_pre op bs → emb_run op bs w = Done bs' w' →
      emb_reach num_ids w' bs'.

Lemma emb_ok_perm w bs bs' : bs ≡ₚ bs' → emb_ok w bs → emb_ok w bs'.
Proof.
  intros Hp [Hw Hm Hnd Hu]. constructor.
  - by rewrite <-Hp.
  - by rewrite <-Hp.
  - by rewrite <-Hp.
  - by rewrite <-Hp.
Qed.
Lemma emb_run_ok op w bs :
  emb_ok w bs → emb_pre op bs →
  wp (emb_run op bs) (λ bs' w', emb_ok w' bs' ∧ emb_num_total_blocks w' = emb_num_total_blocks w) w.
Proof.
  intros Hok Hpre. destruct op as [n|i]; simpl in *.
  - apply wp_bind. eapply wp_mono; [apply emb_allocate_ok; [done|apply Hpre|apply Hpre]|]. intros r w' (? & ? & _). by apply wp_ret.
  - destruct (lookup_lt_is_Some_2 bs i Hpre) as [b Hb]. apply wp_bind. eapply wp_at; [done|].
    apply wp_bind. eapply wp_mono.
    + apply (emb_release_ok w b (delete i bs)). eapply emb_ok_perm; [|done]. by apply delete_Permutation.
    + intros [] w' (? & ? & _). by apply wp_ret.
Qed.
Lemma emb_reach_ok n w bs :
  0 ≤ n < 2 ^ 31 → emb_reach n w bs → emb_ok w bs ∧ emb_num_total_blocks w = n.
Proof.
  intros Hn Hr. induction Hr as [|op w bs bs' w' _ [IH Ht] Hpre Hrun].
  - split; [by apply emb_new_ok|]. unfold emb_num_total_blocks. simpl.
    rewrite length_fmap, length_seq. lia.
  - pose proof (emb_run_ok op w bs IH Hpre) as Hwp. unfold wp in Hwp. rewrite Hrun in Hwp.
    destruct Hwp as [? ->]. done.
Qed.

(** ** Properties *)

(** C38: however embedding ids are taken and handed back, no further call hits a failed
    check (no id is given out twice or returned twice); the ids held are distinct ids of
    the pool, and the free ids and the held ones add up to the pool. *)
Theorem embedding_ids_safe n w bs op :
  0 ≤ n < 2 ^ 31 → emb_reach n w bs → emb_pre op bs →
  wp (emb_run op bs)
     (λ bs' w', emb_reach n w' bs' ∧ NoDup (id <$> bs') ∧ Forall (λ b, 0 ≤ id b < n) bs' ∧
        emb_num_free_blocks w' = n - Z.of_nat (length bs') ∧
        emb_num_used_blocks w' = Z.of_nat (length bs')) w.
Proof.
  intros Hn Hr Hpre. destruct (emb_reach_ok n w bs Hn Hr) as [Hok Ht].
  pose proof (emb_run_ok op w bs Hok Hpre) as Hwp. unfold wp in *.
  destruct (emb_run op bs w) as [bs' w'| | |] eqn:E; try done. destruct Hwp as [Hok' Ht'].
  split; [by eapply emb_reach_step|]. split; [apply Hok'|]. split; [|split; [|apply Hok']].
  - pose proof (em_managed _ _ Hok') as Hm. rewrite Forall_forall in Hm |- *. intros b Hb.
    destruct (Hm b Hb) as (_ & _ & ?). split; [done|].
    destruct (em_world _ _ Hok') as [_ Ho]. rewrite <-Ht, <-Ht'.
    apply (eo_range _ _ Ho). rewrite emb_ids by (apply Forall_forall, Hm).
    rewrite elem_of_list_to_set, list_elem_of_fmap. by exists b.
  - by rewrite (emb_num _ _ Hok'), Ht', Ht.
Qed.

(** Two ids taken from a pool of three, the first handed back *)
Definition emb_sample (ops : list emb_op) : list Block * World EmbCore :=
  foldl (λ s op, match emb_run op s.1 s.2 with Done b w => (b, w) | _ => s end)
    ([], EmbeddingManager_new 3) ops.
Lemma embedding_ids_safe_witness :
  wp (emb_run (EmbRelease 0) (emb_sample [EmbAllocate 2]).1)
     (λ bs' w', emb_num_free_blocks w' = 3 - Z.of_nat (length bs')) (emb_sample [EmbAllocate 2]).2.
Proof.
  eapply wp_mono; [apply (embedding_ids_safe 3)|].
  - lia.
  - apply (emb_reach_step 3 (EmbAllocate 2) (EmbeddingManager_new 3) []); [constructor| |computed].
    split; simpl; lia.
  - vm_compute. lia.
  - intros bs' w' (_ & _ & _ & Hf & _). exact Hf.
Defined.
