(* ===== verification/Stopping.v ===== *)
(** Stopping conditions: [core/framework/request/stopping_checker.h],
    [stopping_checker.cpp], [finish_reason.h], [finish_reason.cpp] and
    [util::match_suffix] of [core/util/utils.cpp].

    [check] looks at the tokens of a sequence after every step.  With scheduling
    ahead of the results the tokens may end in placeholders ([-1]); the check skips
    them to find the last real token.  [stops] is the specification: what the
    check means for a sequence of real tokens. *)

From stdpp Require Import base gmap list strings sets.
From Stdlib Require Import ZArith Lia.
From S2P Require Import Prelude.
Open Scope Z_scope.

Inductive FinishReason := NONE | STOP | LENGTH | FUNCTION_CALL.
#[export] Instance FinishReason_eq_dec : EqDecision FinishReason.
Proof. solve_decision. Defined.

(** [FinishReason::to_string] *)
Definition to_string (r : FinishReason) : option string :=
  match r with
  | NONE => None
  | STOP => Some "stop"%string
  | LENGTH => Some "length"%string
  | FUNCTION_CALL => Some "function_call"%string
  end.

Record StoppingChecker := mkStoppingChecker {
  max_generated_tokens_ : Z;
  max_context_len_ : Z;
  eos_token_ : Z;
  ignore_eos_ : bool;
  stop_tokens_ : gset Z;
  stop_sequences_ : list (list Z);
}.
(** The default member initialisers *)
Definition StoppingChecker_default : StoppingChecker :=
  mkStoppingChecker 5120 0 (-1) false ∅ [].

(** [util::match_suffix] *)
Definition match_suffix (data suffix : list Z) : bool :=
  if decide (suffix = []) then true
  else if (length data <? length suffix)%nat then false
  else bool_decide (drop (length data - length suffix) data = suffix).

(** The backwards loop: the last non-negative token and the number of tokens up to
    it.  The counter is unsigned, so without one the loop leaves the array. *)
Fixpoint last_valid {St} (token_ids : list Z) (i : nat) : prog St (Z * nat) :=
  match i with
  | O => undef "token_ids[SIZE_MAX]"
  | S i => at_ token_ids i ≫= λ t,
           if 0 <=? t then mret (t, S i) else last_valid token_ids i
  end.

(** The loop over [stop_sequences_] *)
Fixpoint match_stop_sequences {St} (seqs : list (list Z)) (last_token_id : Z)
    (token_ids : list Z) : prog St bool :=
  match seqs with
  | [] => mret false
  | s :: seqs =>
      match last s with
      | None => undef "back of an empty vector"
      | Some b =>
          if (u64 b =? last_token_id) && match_suffix token_ids s then mret true
          else match_stop_sequences seqs last_token_id token_ids
      end
  end.

(** [check(token_ids, num_prompt_tokens)] *)
Definition check_stop {St} (c : StoppingChecker) (token_ids : list Z) (num_prompt_tokens : Z)
    : prog St FinishReason :=
  check (bool_decide (token_ids ≠ [])) "!token_ids.empty()" ≫= λ _,
  last_valid token_ids (length token_ids) ≫= λ r : Z * nat,
  let last_token_id := r.1 in
  let total_tokens := Z.of_nat r.2 in
  if (0 <? max_generated_tokens_ c) &&
     (max_generated_tokens_ c <=? u64 (total_tokens - num_prompt_tokens)) then mret LENGTH
  else if (0 <? max_context_len_ c) && (max_context_len_ c <=? total_tokens) then
    check (num_prompt_tokens <=? total_tokens) "Unknow error" ≫= λ _, mret LENGTH
  else if ignore_eos_ c then mret NONE
  else if last_token_id =? u64 (eos_token_ c) then mret STOP
  else if bool_decide (i32 last_token_id ∈ stop_tokens_ c) then mret STOP
  else
    match_stop_sequences (stop_sequences_ c) last_token_id token_ids ≫= λ m : bool,
    mret (if m then STOP else NONE).

(** ** Specification *)

(** The reason to stop after the real tokens [l], [last] the last one *)
Definition stops (c : StoppingChecker) (l : list Z) (n last : Z) (seq_hit : bool) : FinishReason :=
  let total := Z.of_nat (length l) in
  if bool_decide (0 < max_generated_tokens_ c ∧ max_generated_tokens_ c ≤ total - n) then LENGTH
  else if bool_decide (0 < max_context_len_ c ∧ max_context_len_ c ≤ total) then LENGTH
  else if ignore_eos_ c then NONE
  else if bool_decide (last = eos_token_ c) then STOP
  else if bool_decide (last ∈ stop_tokens_ c) then STOP
  else if seq_hit then STOP else NONE.

(** Some stop sequence ends the tokens. *)
Definition ends_in_stop (c : StoppingChecker) (l : list Z) : bool :=
  bool_decide (Exists (λ s, s `suffix_of` l) (stop_sequences_ c)).

Definition tokens_ok (l : list Z) : Prop := Forall (λ t, - 2 ^ 31 ≤ t < 2 ^ 31) l.

Lemma match_suffix_spec d s : match_suffix d s = bool_decide (s `suffix_of` d).
Proof.
  unfold match_suffix. case_decide as Hs.
  { subst. symmetry. apply bool_decide_eq_true. apply suffix_nil. }
  destruct (_ <? _)%nat eqn:E.
  - apply Nat.ltb_lt in E. symmetry. apply bool_decide_eq_false. intros Hsuf.
    apply suffix_length in Hsuf. lia.
  - apply Nat.ltb_ge in E. apply bool_decide_ext. split.
    + intros <-. exists (take (length d - length s) d).
      by rewrite take_drop.
    + intros [k ->]. rewrite length_app, Nat.add_sub. by rewrite drop_app_length.
Qed.

Lemma last_valid_ok {St} l fakes (st : St) n :
  Forall (λ t, t < 0) fakes → 0 ≤ n →
  last_valid (l ++ [n] ++ fakes) (length (l ++ [n] ++ fakes)) st = Done (n, S (length l)) st.
Proof.
  intros Hf Hn. rewrite (app_assoc l). induction fakes as [|f fakes IH] using rev_ind.
  - rewrite app_nil_r, length_app. simpl. rewrite Nat.add_1_r. simpl.
    unfold at_. rewrite list_lookup_middle by done. unfold mbind, prog_bind, mret, prog_ret.
    destruct (0 <=? n) eqn:E; [done|]. apply Z.leb_gt in E. lia.
  - apply Forall_app in Hf as [Hf Hf1]. apply Forall_cons in Hf1 as [Hf1 _].
    rewrite app_assoc. set (p := (l ++ [n]) ++ fakes) in *. rewrite length_app. simpl.
    rewrite Nat.add_1_r. simpl. unfold at_ at 1. rewrite list_lookup_middle by done.
    unfold mbind at 1, prog_bind at 1, mret at 1, prog_ret at 1.
    destruct (0 <=? f) eqn:E; [apply Z.leb_le in E; lia|].
    rewrite <-(IH Hf). clear IH.
    assert (∀ k, (k ≤ length p)%nat → last_valid (p ++ [f]) k st = last_valid p k st) as Hext; [|by apply Hext].
    induction k as [|k IHk]; intros Hk; [done|]. simpl. unfold at_. rewrite lookup_app_l by lia.
    destruct (p !! k) as [t|]; [|done]. unfold mbind, prog_bind, mret, prog_ret.
    destruct (0 <=? t); [done|]. apply IHk. lia.
Qed.

(** The loop on the stop sequences, for tokens that end in [n]. *)
Lemma match_stop_sequences_ok {St} seqs n d (st : St) :
  0 ≤ n < 2 ^ 31 → Forall (λ s, s ≠ [] ∧ tokens_ok s) seqs →
  match_stop_sequences seqs n d st =
    Done (bool_decide (Exists (λ s, last s = Some n ∧ s `suffix_of` d) seqs)) st.
Proof.
  intros Hn Hs. induction Hs as [|s seqs [Hne Ht] _ IH]; simpl.
  { done. }
  destruct (last s) as [b|] eqn:Hl; [|by apply last_None in Hl].
  assert (- 2 ^ 31 ≤ b < 2 ^ 31) as Hb.
  { unfold tokens_ok in Ht. rewrite Forall_forall in Ht. apply Ht.
    apply last_Some in Hl as [l' ->]. set_solver. }
  assert (u64 b = n ↔ b = n) as Hu.
  { unfold u64. destruct (decide (0 ≤ b)).
    - rewrite Z.mod_small by lia. done.
    - rewrite <-(Z.mod_add b 1), Z.mod_small by lia. lia. }
  rewrite match_suffix_spec.
  destruct (decide (b = n ∧ s `suffix_of` d)) as [[-> Hsuf]|Hno].
  - assert (u64 n =? n = true) as -> by (by apply Z.eqb_eq, Hu).
    rewrite bool_decide_true by done. simpl. unfold mret, prog_ret.
    rewrite bool_decide_true; [done|]. apply Exists_cons. by left.
  - destruct ((u64 b =? n) && _) eqn:E.
    { exfalso. apply andb_true_iff in E as [E1 E2]. apply Z.eqb_eq in E1. apply bool_decide_eq_true in E2.
      apply Hno. split; [by apply Hu|done]. }
    rewrite IH. do 2 f_equal. apply bool_decide_ext. rewrite Exists_cons. split; [by right|].
    rewrite Hl. intros [[[= ->] ?]|?]; [by destruct Hno|done].
Qed.

(** What the check returns on real tokens followed by placeholders *)
Lemma check_stop_ok {St} c l n fakes np (st : St) :
  tokens_ok (l ++ [n]) → 0 ≤ n → Forall (λ t, t < 0) fakes →
  0 ≤ np ≤ Z.of_nat (length (l ++ [n])) → Z.of_nat (length (l ++ [n])) < 2 ^ 63 →
  - 2 ^ 31 ≤ eos_token_ c < 2 ^ 31 →
  Forall (λ s, s ≠ [] ∧ tokens_ok s) (stop_sequences_ c) →
  check_stop c ((l ++ [n]) ++ fakes) np st =
    Done (stops c (l ++ [n]) np n
            (bool_decide (Exists (λ s, last s = Some n ∧ s `suffix_of` (l ++ [n]) ++ fakes)
               (stop_sequences_ c)))) st.
Proof.
  intros Ht Hn Hf Hnp Hlen He Hs. unfold check_stop, check.
  rewrite bool_decide_true by (destruct l; done).
  unfold mbind at 1, prog_bind at 1, mret at 1, prog_ret at 1.
  rewrite <-app_assoc. unfold mbind at 1, prog_bind at 1. rewrite last_valid_ok by done. simpl.
  assert (n < 2 ^ 31) as Hn2.
  { unfold tokens_ok in Ht. apply Forall_app in Ht as [_ Ht]. apply Forall_cons in Ht as [? _]. lia. }
  assert (length (l ++ [n]) = S (length l)) as Hl by (rewrite length_app; simpl; lia).
  rewrite Hl in *. unfold stops. rewrite Hl.
  rewrite u64_id by lia.
  assert (∀ a b, (0 <? a) && (a <=? b) = bool_decide (0 < a ∧ a ≤ b)) as Hb.
  { intros a b. destruct (bool_decide_reflect (0 < a ∧ a ≤ b)) as [[H1 H2]|Hno].
    - apply andb_true_iff. by rewrite Z.ltb_lt, Z.leb_le.
    - apply not_true_iff_false. rewrite andb_true_iff, Z.ltb_lt, Z.leb_le. done. }
  rewrite !Hb. case_bool_decide; [done|]. case_bool_decide.
  { destruct (np <=? _) eqn:E; [done|]. apply Z.leb_gt in E. lia. }
  destruct (ignore_eos_ c); [done|].
  assert ((n =? u64 (eos_token_ c)) = bool_decide (n = eos_token_ c)) as ->.
  { unfold u64. destruct (decide (0 ≤ eos_token_ c)).
    - rewrite Z.mod_small by lia. by destruct (Z.eqb_spec n (eos_token_ c)); case_bool_decide.
    - rewrite <-(Z.mod_add _ 1), Z.mod_small by lia. case_bool_decide; [lia|]. apply Z.eqb_neq. lia. }
  case_bool_decide; [done|]. rewrite i32_id by lia. case_bool_decide; [done|].
  unfold mbind, prog_bind. rewrite match_stop_sequences_ok by (done || lia). done.
Qed.

(** ** Properties *)

(** A stop sequence ends in a real token: behind a placeholder none is a suffix. *)
Lemma stop_sequence_hit c l n fakes :
  0 ≤ n → Forall (λ t, t < 0) fakes → Forall (λ s, s ≠ []) (stop_sequences_ c) →
  bool_decide (Exists (λ s, last s = Some n ∧ s `suffix_of` (l ++ [n]) ++ fakes) (stop_sequences_ c)) =
  bool_decide (fakes = []) && ends_in_stop c (l ++ [n]).
Proof.
  intros Hn Hf Hs. assert (∀ (a b : list Z), a ≠ [] → last (b ++ a) = last a) as Hlast.
  { intros a b Ha. destruct (exists_last (l := a)) as (a' & x & ->); [done|].
    by rewrite app_assoc, !last_snoc. }
  destruct fakes as [|f fakes].
  - rewrite (bool_decide_true ([] = [])) by done. simpl. unfold ends_in_stop. apply bool_decide_ext. rewrite app_nil_r, !Exists_exists.
    rewrite Forall_forall in Hs. split; [by intros (s & ? & _ & ?); exists s|].
    intros (s & Hin & [k Hk]). exists s. split; [done|]. split; [|by exists k].
    rewrite <-(Hlast s k), <-Hk by auto. apply last_snoc.
  - rewrite (bool_decide_false (f :: fakes = [])) by done. simpl. set (fs := f :: fakes) in *.
    apply bool_decide_eq_false. rewrite Exists_exists. intros (s & Hin & Hl & [k Hk]).
    rewrite Forall_forall in Hs. assert (last fs = Some n) as Hfn.
    { by rewrite <-(Hlast fs (l ++ [n])), Hk, Hlast by (done || auto). }
    apply last_Some in Hfn as [f' Hfs]. rewrite Hfs in Hf. apply Forall_app in Hf as [_ Hf].
    apply Forall_cons in Hf as [? _]. lia.
Qed.

(** C32: on real tokens followed by placeholders [check] gives what [stops] says of the
    real tokens (length limits first, then the end-of-sequence and stop tokens); the stop
    sequences count only when no placeholder follows, since the match runs over the whole
    span. *)
Theorem check_skips_placeholders {St} c l n fakes np (st : St) :
  tokens_ok (l ++ [n]) → 0 ≤ n → Forall (λ t, t < 0) fakes →
  0 ≤ np ≤ Z.of_nat (length (l ++ [n])) → Z.of_nat (length (l ++ [n])) < 2 ^ 63 →
  - 2 ^ 31 ≤ eos_token_ c < 2 ^ 31 →
  Forall (λ s, s ≠ [] ∧ tokens_ok s) (stop_sequences_ c) →
  check_stop c ((l ++ [n]) ++ fakes) np st =
    Done (stops c (l ++ [n]) np n (bool_decide (fakes = []) && ends_in_stop c (l ++ [n]))) st.
Proof.
  intros Ht Hn Hf Hnp Hlen He Hs. rewrite (check_stop_ok c l n fakes np st) by done.
  rewrite (stop_sequence_hit c l n fakes); [done..|].
  eapply Forall_impl; [exact Hs|]. by intros s [? _].
Qed.

(** A checker with the stop sequence 6, 7 *)
Lemma check_skips_placeholders_witness :
  check_stop (mkStoppingChecker 10 0 2 false {[9]} [[6; 7]]) [5; 6; 7] 1 () = Done STOP () ∧
  check_stop (mkStoppingChecker 10 0 2 false {[9]} [[6; 7]]) [5; 6; 7; -1] 1 () = Done NONE ().
Proof.
  assert (∀ fakes, Forall (λ t, t < 0) fakes →
    check_stop (mkStoppingChecker 10 0 2 false {[9]} [[6; 7]]) (([5; 6] ++ [7]) ++ fakes) 1 () =
    Done (stops (mkStoppingChecker 10 0 2 false {[9]} [[6; 7]]) ([5; 6] ++ [7]) 1 7
      (bool_decide (fakes = []) && ends_in_stop (mkStoppingChecker 10 0 2 false {[9]} [[6; 7]]) ([5; 6] ++ [7]))) ())
    as Hc.
  { intros fakes Hf. apply check_skips_placeholders; [|lia|done|simpl; lia|simpl; lia|simpl; lia|].
    - repeat constructor; lia.
    - constructor; [|constructor]. split; [done|]. repeat constructor; lia. }
  split.
  - etrans; [apply (Hc []); constructor|]. computed.
  - etrans; [apply (Hc [-1]); repeat constructor; lia|]. computed.
Defined.
