(* ===== verification/IncrementalDecoder.v ===== *)
(** Incremental detokenisation: [core/framework/request/incremental_decoder.h] and
    [incremental_decoder.cpp].

    The decoder turns a growing token sequence into the text to send after each
    step, holding back bytes that may be the start of an unfinished character.  The
    tokenizer is a virtual interface of the program, a parameter here.  Its text of a list of
    tokens is not the concatenation of the texts of the parts: clean-up may add or drop a
    space depending on the surrounding tokens, which is why the decoder decodes the tokens of
    the last step again as a prefix.  What the result relies on is stated as
    [decode_extends]. *)

From stdpp Require Import base list strings.
From Stdlib Require Import ZArith Lia.
From S2P Require Import Prelude.
Open Scope Z_scope.

(** Bytes; U+FFFD is the three bytes EF BF BD. *)
Abbreviation bytes := (list Z).
Definition replacement_char : bytes := [239; 191; 189].
(** [absl::EndsWith] *)
Definition ends_with (text suffix : bytes) : bool :=
  (length suffix <=? length text)%nat && bool_decide (drop (length text - length suffix) text = suffix).

(** [Tokenizer::decode(ids, skip_special_tokens)] *)
Class Tokenizer := { tok_decode : list Z → bool → bytes }.

Record IncrementalDecoder := mkIncrementalDecoder {
  prompt_ : bytes;
  dec_num_prompt_tokens_ : nat;
  skip_special_tokens_ : bool;
  prefix_offset_ : nat;
  output_offset_ : nat;
  checking_prefill_token_ : bool;
}.

Definition IncrementalDecoder_new (prompt : bytes) (num_prompt_tokens : nat)
    (echo skip_special_tokens : bool) : IncrementalDecoder :=
  mkIncrementalDecoder prompt num_prompt_tokens skip_special_tokens
    (if echo then O else num_prompt_tokens) (if echo then O else num_prompt_tokens) false.

Definition set_offsets (p o : nat) (d : IncrementalDecoder) : IncrementalDecoder :=
  mkIncrementalDecoder (prompt_ d) (dec_num_prompt_tokens_ d) (skip_special_tokens_ d) p o
    (checking_prefill_token_ d).
Definition set_checking (b : bool) (d : IncrementalDecoder) : IncrementalDecoder :=
  mkIncrementalDecoder (prompt_ d) (dec_num_prompt_tokens_ d) (skip_special_tokens_ d)
    (prefix_offset_ d) (output_offset_ d) b.
Definition enable_checking_prefill_token : prog IncrementalDecoder unit := modify (set_checking true).

Section decoder.
Context `{Tokenizer}.

(** [token_ids.slice(start, end)] and its [CHECK] *)
Definition dslice {St} (l : list Z) (start end_ : nat) : prog St (list Z) :=
  check ((start <=? end_)%nat && (end_ <=? length l)%nat) "slice" ≫= λ _,
  mret (take (end_ - start) (drop start l)).

(** [decode(token_ids, tokenizer)]: the text to print *)
Definition decode (token_ids : list Z) : prog IncrementalDecoder bytes :=
  get ≫= λ d,
  (if (output_offset_ d <? dec_num_prompt_tokens_ d)%nat && bool_decide (prompt_ d ≠ []) then
     let n := dec_num_prompt_tokens_ d in
     modify (set_offsets (if (n <=? 6)%nat then O else (n - 6)%nat) n) ≫= λ _,
     mret (prompt_ d)
   else mret []) ≫= λ ss : bytes,
  get ≫= λ d,
  (if checking_prefill_token_ d then
     dslice token_ids (output_offset_ d) (output_offset_ d + 1) ≫= λ ts,
     (if negb (ends_with (tok_decode ts (skip_special_tokens_ d)) replacement_char)
      then modify (set_offsets (prefix_offset_ d) (output_offset_ d + 1)) else mret ()) ≫= λ _,
     modify (set_checking false)
   else mret ()) ≫= λ _,
  get ≫= λ d,
  dslice token_ids (prefix_offset_ d) (output_offset_ d) ≫= λ pre,
  let prefix_text := tok_decode pre (skip_special_tokens_ d) in
  dslice token_ids (prefix_offset_ d) (length token_ids) ≫= λ new,
  let new_text := tok_decode new (skip_special_tokens_ d) in
  if (length prefix_text <? length new_text)%nat && negb (ends_with new_text replacement_char) then
    modify (set_offsets (output_offset_ d) (length token_ids)) ≫= λ _,
    mret (ss ++ drop (length prefix_text) new_text)
  else mret ss.

(** ** What the printed text is *)

Definition segment (l : list Z) (i j : nat) : list Z := take (j - i) (drop i l).
Definition complete (sk : bool) (ts : list Z) : Prop :=
  ends_with (tok_decode ts sk) replacement_char = false.

(** The tokens [w] add text somewhere: they are not all skipped. *)
Definition shows (sk : bool) (w : list Z) : Prop := ∃ v, tok_decode (v ++ w) sk ≠ tok_decode v sk.
(** What is asked of the tokenizer.  The clean-up is local: after tokens [w] that show text, up
    to a complete character, the text that further tokens [b] add does not depend on the
    tokens before [w].  And whether a text ends in an unfinished character depends, after a
    complete one, only on the tokens that follow.  Nothing is asked of the text of [b] alone:
    without [w] before it, it may lack a space. *)
Record decode_extends (sk : bool) : Prop := {
  ext_nil : tok_decode [] sk = [];
  ext_local : ∀ x w b, shows sk w → complete sk (x ++ w) → complete sk w →
    tok_decode (x ++ w ++ b) sk =
      tok_decode (x ++ w) sk ++ drop (length (tok_decode w sk)) (tok_decode (w ++ b) sk);
  ext_complete : ∀ a b, complete sk a → b ≠ [] → complete sk (a ++ b) ↔ complete sk b;
}.

Lemma segment_app l i j k : (i ≤ j ≤ k)%nat → segment l i k = segment l i j ++ segment l j k.
Proof.
  intros [Hij Hjk]. unfold segment. replace (k - i)%nat with ((j - i) + (k - j))%nat by lia.
  rewrite <-take_take_drop, drop_drop. by replace (i + (j - i))%nat with j by lia.
Qed.
Lemma segment_prefix l l' i j : (j ≤ length l)%nat → segment (l ++ l') i j = segment l i j.
Proof.
  intros Hj. unfold segment. destruct (decide (i ≤ j)%nat).
  - rewrite drop_app_le, take_app_le; [done|rewrite length_drop; lia|lia].
  - by replace (j - i)%nat with O by lia.
Qed.
Lemma ends_with_app a b s : ends_with b s = true → ends_with (a ++ b) s = true.
Proof.
  unfold ends_with. rewrite !andb_true_iff, !Nat.leb_le, !bool_decide_eq_true, length_app.
  intros [Hl Hd]. split; [lia|].
  rewrite drop_app_ge by lia.
  by replace (length a + length b - length s - length a)%nat with (length b - length s)%nat by lia.
Qed.

(** The offsets, and what has been printed of the tokens from [st] on: the tokens between the
    offsets, decoded again at the next step, show text unless nothing was printed yet. *)
Record dec_ok (sk : bool) (l : list Z) (st : nat) (d : IncrementalDecoder) (out : bytes) : Prop := {
  do_skip : skip_special_tokens_ d = sk;
  do_started : (dec_num_prompt_tokens_ d ≤ output_offset_ d)%nat;
  do_offsets : (st ≤ prefix_offset_ d ≤ output_offset_ d ∧ output_offset_ d ≤ length l)%nat;
  do_window : output_offset_ d = st ∨ shows sk (segment l (prefix_offset_ d) (output_offset_ d));
  do_complete : complete sk (segment l (prefix_offset_ d) (output_offset_ d));
  do_out_complete : complete sk (segment l st (output_offset_ d));
  do_out : out = tok_decode (segment l st (output_offset_ d)) sk;
  do_checking : checking_prefill_token_ d = false;
}.

(** The text of the tokens [b] after the printed ones [g], of which [w] are the last: what the
    decoder cuts from the text of [w ++ b] *)
Lemma decode_adds sk g w b :
  decode_extends sk → g = [] ∧ w = [] ∨ shows sk w ∧ (∃ x, g = x ++ w) →
  complete sk g → complete sk w →
  tok_decode (g ++ b) sk = tok_decode g sk ++ drop (length (tok_decode w sk)) (tok_decode (w ++ b) sk).
Proof.
  intros Hex [[-> ->]|[Hw [x ->]]] Hg Hc; [by rewrite (ext_nil _ Hex)|].
  rewrite <-app_assoc. by apply (ext_local _ Hex).
Qed.

Lemma dslice_ok {St} (l : list Z) i j Q (s : St) :
  (i ≤ j ≤ length l)%nat → Q (segment l i j) s → wp (dslice l i j) Q s.
Proof.
  intros Hij HQ. unfold dslice. apply wp_bind, wp_check; [|done].
  apply andb_true_iff. rewrite !Nat.leb_le. lia.
Qed.

(** One step: on a longer sequence the decoder prints exactly the missing text,
    or nothing while the last character is unfinished. *)
Lemma decode_ok sk l l' st d out :
  decode_extends sk → dec_ok sk l st d out →
  wp (decode (l ++ l'))
     (λ delta d', dec_ok sk (l ++ l') st d' (out ++ delta) ∧
        (complete sk (segment (l ++ l') st (length (l ++ l'))) →
           out ++ delta = tok_decode (segment (l ++ l') st (length (l ++ l'))) sk)) d.
Proof.
  intros Hex [Hsk Hst [Ho Hol] Hwin Hc Hoc Hout Hck]. unfold decode. wp_steps.
  destruct (_ <? _)%nat eqn:E; [apply Nat.ltb_lt in E; lia|]. simpl. wp_steps. rewrite Hck.
  apply wp_ret. wp_steps.
  assert (length (l ++ l') = (length l + length l')%nat) as Hlen by apply length_app.
  apply dslice_ok; [lia|]. apply wp_bind, dslice_ok; [lia|].
  set (p := prefix_offset_ d) in *. set (o := output_offset_ d) in *.
  rewrite Hsk. rewrite <-(segment_prefix l l') in Hwin, Hc, Hoc, Hout by lia.
  rewrite (segment_app (l ++ l') p o (length (l ++ l'))) by lia.
  rewrite !(segment_app (l ++ l') st o (length (l ++ l'))) by lia.
  set (g := segment (l ++ l') st o) in *. set (w := segment (l ++ l') p o) in *.
  set (b := segment (l ++ l') o (length (l ++ l'))) in *.
  assert (tok_decode (g ++ b) sk = out ++ drop (length (tok_decode w sk)) (tok_decode (w ++ b) sk)) as Hadd.
  { rewrite Hout. apply decode_adds; try done. destruct Hwin as [Hwin|Hwin].
    - left. unfold g, w, segment. by replace (o - st)%nat with O by lia; replace (o - p)%nat with O by lia.
    - right. split; [done|]. exists (segment (l ++ l') st p). by apply segment_app. }
  destruct (_ && _) eqn:E2.
  - apply andb_true_iff in E2 as [E2 E3]. apply negb_true_iff in E3. apply Nat.ltb_lt in E2. wp_steps.
    assert (b ≠ []) as Hb by (intros Hb; rewrite Hb, app_nil_r in E2; lia).
    assert (complete sk b) as Hcb by (by apply (ext_complete _ Hex w)).
    rewrite app_nil_l, <-Hadd. split; [|done]. constructor; simpl; try done; try lia.
    + right. exists w. fold b. intros Heq. rewrite Heq in E2. lia.
    + rewrite (segment_app (l ++ l') st o (length (l ++ l'))) by lia. by apply (ext_complete _ Hex g).
    + by rewrite (segment_app (l ++ l') st o (length (l ++ l'))) by lia.
  - apply wp_ret. rewrite app_nil_r. split; [constructor; try done; fold p o; lia|]. intros Hcg.
    rewrite Hadd. destruct (decide (b = [])) as [Hb|Hb].
    { by rewrite Hb, app_nil_r, drop_all, app_nil_r. }
    apply (ext_complete _ Hex _ _ Hoc Hb), (ext_complete _ Hex w b Hc Hb) in Hcg.
    unfold complete in Hcg. rewrite Hcg, andb_true_r in E2. apply Nat.ltb_ge in E2.
    by rewrite drop_ge, app_nil_r.
Qed.

(** The calls of a streamed response: the sequence [l] grows by [chunks]. *)
Fixpoint decode_stream (l : list Z) (chunks : list (list Z)) : prog IncrementalDecoder bytes :=
  match chunks with
  | [] => mret []
  | c :: cs => decode (l ++ c) ≫= λ t, decode_stream (l ++ c) cs ≫= λ t', mret (t ++ t')
  end.

Lemma decode_stream_ok sk l st d out chunks :
  decode_extends sk → dec_ok sk l st d out →
  (complete sk (segment l st (length l)) → out = tok_decode (segment l st (length l)) sk) →
  wp (decode_stream l chunks)
     (λ text d', let all := l ++ concat chunks in dec_ok sk all st d' (out ++ text) ∧
        (complete sk (segment all st (length all)) →
           out ++ text = tok_decode (segment all st (length all)) sk)) d.
Proof.
  intros Hsp. revert l d out. induction chunks as [|c cs IH]; intros l d out Hd Hc; simpl.
  { apply wp_ret. by rewrite !app_nil_r. }
  apply wp_bind. eapply wp_mono; [by apply decode_ok|]. intros t d' [Hd' Hc'].
  apply wp_bind. eapply wp_mono; [by apply IH|]. intros t' d'' Hd''. apply wp_ret.
  by rewrite <-!app_assoc in *.
Qed.

Lemma dec_ok_new sk prompt tokens :
  decode_extends sk →
  dec_ok sk tokens (length tokens) (IncrementalDecoder_new prompt (length tokens) false sk) [].
Proof.
  intros Hsp. assert (segment tokens (length tokens) (length tokens) = []) as Hs
    by (unfold segment; by rewrite Nat.sub_diag).
  assert (complete sk []) as Hc by (unfold complete; by rewrite (ext_nil _ Hsp)).
  constructor; simpl; rewrite ?Hs, ?(ext_nil _ Hsp); try done. by left.
Qed.

(** ** Properties *)

(** C33: streaming a response of a sequence without echo, however the generated tokens
    arrive in chunks, prints the text of a prefix of them up to a complete character; when
    the generated tokens end in a complete character, the concatenation of what was
    printed is exactly their decoding: nothing is lost, repeated or cut.  The text of tokens
    may depend on the tokens around them (a dropped leading space, skipped tokens): of the
    tokenizer it is only asked that this dependence does not reach past tokens that show text
    up to a complete character ([decode_extends]), which is what the decoder's prefix is
    for. *)
Theorem stream_prints_everything sk prompt tokens chunks :
  decode_extends sk →
  wp (decode_stream tokens chunks)
     (λ text d',
        let out_len := (output_offset_ d' - length tokens)%nat in
        text = tok_decode (take out_len (concat chunks)) sk ∧ complete sk (take out_len (concat chunks)) ∧
        (complete sk (concat chunks) → text = tok_decode (concat chunks) sk))
     (IncrementalDecoder_new prompt (length tokens) false sk).
Proof.
  intros Hsp. assert (∀ n, segment (tokens ++ concat chunks) (length tokens) n =
    take (n - length tokens) (concat chunks)) as Hseg.
  { intros n. unfold segment. by rewrite drop_app_length. }
  eapply wp_mono.
  { apply (decode_stream_ok sk tokens (length tokens)); [done|by apply dec_ok_new|].
    intros _. unfold segment. by rewrite Nat.sub_diag, take_0, (ext_nil _ Hsp). }
  intros text d' [Hd Hc]. simpl in Hd, Hc. rewrite Hseg in Hc.
  rewrite length_app, Nat.add_comm, Nat.add_sub, firstn_all in Hc.
  pose proof (do_out _ _ _ _ _ Hd) as Ho. pose proof (do_out_complete _ _ _ _ _ Hd) as Hoc.
  rewrite Hseg in Ho, Hoc. done.
Qed.
End decoder.

(** A tokenizer with context: token 0 is an unfinished character, a negative token is special
    and skipped, an odd one starts a word with a space, and the space at the start of a text
    is dropped. *)
Definition sample_text (sk : bool) (t : Z) : bytes :=
  if t =? 0 then replacement_char
  else if t <? 0 then (if sk then [] else [60; 62])
  else if Z.odd t then [32; 96 + t mod 26] else [96 + t mod 26].
Definition strip (text : bytes) : bytes := match text with 32 :: l => l | _ => text end.
Definition sample_raw (sk : bool) (ids : list Z) : bytes := ids ≫= sample_text sk.
Definition sample_tokenizer : Tokenizer := {| tok_decode := λ ids sk, strip (sample_raw sk ids) |}.

(** The text of a word depends on what is before it. *)
Example sample_context :
  tok_decode (Tokenizer := sample_tokenizer) [2; 3] true = [98; 32; 99] ∧
  tok_decode (Tokenizer := sample_tokenizer) [3] true = [99].
Proof. done. Qed.

Lemma strip_app a b : a ≠ [] → strip (a ++ b) = strip a ++ b.
Proof. destruct a as [|c a]; [done|]. intros _. simpl. by repeat case_match. Qed.
Lemma sample_raw_app sk a b : sample_raw sk (a ++ b) = sample_raw sk a ++ sample_raw sk b.
Proof. apply bind_app. Qed.
Lemma not_ends_with a c : c ≠ 189 → ends_with (a ++ [c]) replacement_char = false.
Proof.
  intros Hc. unfold ends_with. apply andb_false_iff. rewrite Nat.leb_gt, bool_decide_eq_false, length_app. simpl.
  destruct (decide (length a + 1 < 3)%nat); [by left|right]. intros Hd. apply (f_equal last) in Hd.
  rewrite drop_app_le, last_snoc in Hd by lia. simpl in Hd. by injection Hd.
Qed.
(** A text is complete unless its last shown token is 0. *)
Lemma sample_complete ts :
  complete (H := sample_tokenizer) true ts ↔ last (filter (λ t, 0 ≤ t) ts) ≠ Some 0.
Proof.
  unfold complete. induction ts as [|t l IH] using rev_ind; [done|]. rewrite filter_app, filter_cons, filter_nil. simpl.
  rewrite sample_raw_app. unfold sample_raw at 2. simpl. rewrite app_nil_r. unfold sample_text.
  destruct (t =? 0) eqn:E0; [|destruct (t <? 0) eqn:E1].
  - apply Z.eqb_eq in E0 as ->. rewrite decide_True, last_snoc by lia. split; [|done]. intros Hf. exfalso.
    apply not_true_iff_false in Hf. apply Hf. destruct (sample_raw true l) as [|c r]; [computed|].
    rewrite strip_app by done. apply ends_with_app. computed.
  - rewrite decide_False by lia. by rewrite !app_nil_r.
  - apply Z.eqb_neq in E0. rewrite decide_True, last_snoc by lia. split; [intros _ [= ?]; lia|intros _].
    pose proof (Z.mod_pos_bound t 26).
    assert (∀ x, ends_with (strip (sample_raw true l ++ x ++ [96 + t mod 26])) replacement_char = false) as Hx.
    { intros x. rewrite app_assoc. destruct (sample_raw true l ++ x) as [|c r] eqn:Er.
      - simpl. by repeat (case_match; try lia).
      - rewrite strip_app by done. apply not_ends_with. lia. }
    destruct (Z.odd t); [apply (Hx [32])|apply (Hx [])].
Qed.
Lemma sample_extends : decode_extends (H := sample_tokenizer) true.
Proof.
  constructor.
  - done.
  - intros x w b [v Hv] _ _. simpl in *. rewrite !sample_raw_app in *.
    assert (sample_raw true w ≠ []) as Hw by (intros Hw; apply Hv; by rewrite Hw, app_nil_r).
    rewrite (strip_app (sample_raw true w)) by done. rewrite drop_app_length, app_assoc.
    apply strip_app. intros [_ ?]%app_eq_nil. done.
  - intros a b Ha Hb. rewrite sample_complete in Ha. rewrite !sample_complete, filter_app.
    destruct (filter _ b) as [|y l _] using rev_ind; [rewrite app_nil_r; by simpl|].
    by rewrite app_assoc, !last_snoc.
Qed.
(** A character that two chunks share is held back, then printed, with the space between two
    words that arrive in different chunks. *)
Lemma stream_prints_everything_witness :
  wp (decode_stream (H := sample_tokenizer) [5; 5] [[1]; [0]; [2; -7]; [3]])
     (λ text _, text = [97; 239; 191; 189; 98; 32; 99]) (IncrementalDecoder_new [] 2 false true).
Proof.
  eapply wp_mono.
  - apply (stream_prints_everything (H := sample_tokenizer) true [] [5; 5] [[1]; [0]; [2; -7]; [3]]).
    apply sample_extends.
  - intros text d' (_ & _ & Hc). apply Hc. by apply sample_complete.
Defined.
