(* ===== verification/LogprobState.v ===== *)
(** Log probabilities of a sequence:
    [core/framework/request/sequence_logprob_state.h] and
    [sequence_logprob_state.cpp] (the text of [generate_output_tokens_logprobs]
    is not modelled).

    The beam search reads an accumulated score, which the state extends lazily from
    the last index it has summed.  Floats are a parameter with the two operations
    the code uses; sums are kept in the order the code adds. *)

From stdpp Require Import base gmap list strings.
From Stdlib Require Import ZArith Lia.
From S2P Require Import Prelude.
Open Scope Z_scope.

(** [float] arithmetic *)
Class FloatOps (F : Type) := {
  f_zero : F; f_one : F;
  f_add : F → F → F; f_sub : F → F → F;
  f_eqb : F → F → bool;
}.

Section logprob.
Context `{FloatOps F}.

(** [Token] *)
Record Token := mkToken {
  token_id : Z;
  token_logprob : option F;
  top_tokens : list Z;
  top_logprobs : list F;
}.

Record LogprobState := mkLogprobState {
  lp_num_prompt_tokens_ : Z;
  logprobs_ : list (option F);
  acc_logprob_ : F;
  last_acc_token_idx_ : Z;
  top_tokens_ : list (list Z);
  top_logprobs_ : list (list F);
}.

Definition LogprobState_new (num_prompt_tokens : Z) (capacity : nat) : LogprobState :=
  mkLogprobState num_prompt_tokens (replicate capacity None) f_zero num_prompt_tokens
    (replicate capacity []) (replicate capacity []).

Definition set_acc (a : F) (i : Z) (l : LogprobState) : LogprobState :=
  mkLogprobState (lp_num_prompt_tokens_ l) (logprobs_ l) a i (top_tokens_ l) (top_logprobs_ l).

(** [if (logprobs_[i].has_value()) acc_logprob_ += *logprobs_[i]], for [n]
    indices from [i] *)
Fixpoint accumulate (i : Z) (n : nat) (acc : F) (lps : list (option F)) : prog LogprobState F :=
  match n with
  | O => mret acc
  | S n =>
      atZ lps i ≫= λ o : option F,
      accumulate (i + 1) n (match o with Some p => f_add acc p | None => acc end) lps
  end.

(** [get_acc_logprob(num_tokens)] *)
Definition get_acc_logprob (num_tokens : Z) : prog LogprobState F :=
  get ≫= λ l,
  if num_tokens =? last_acc_token_idx_ l then mret (acc_logprob_ l)
  else
    check (last_acc_token_idx_ l <? num_tokens) "num_tokens > last_acc_token_idx_" ≫= λ _,
    check (lp_num_prompt_tokens_ l <=? last_acc_token_idx_ l)
          "last_acc_token_idx_ >= num_prompt_tokens_" ≫= λ _,
    accumulate (last_acc_token_idx_ l) (Z.to_nat (num_tokens - last_acc_token_idx_ l))
      (acc_logprob_ l) (logprobs_ l) ≫= λ acc,
    modify (set_acc acc num_tokens) ≫= λ _,
    mret acc.

(** [get_base_logprob(num_tokens)] *)
Definition get_base_logprob (num_tokens : Z) : prog LogprobState F :=
  get ≫= λ l,
  if num_tokens - lp_num_prompt_tokens_ l <=? 1 then mret f_zero
  else
    let history_num_tokens := num_tokens - 1 in
    if last_acc_token_idx_ l =? num_tokens then
      let last_token_idx := num_tokens - 1 in
      mret (match logprobs_ l !! Z.to_nat last_token_idx with
            | Some (Some p) => if 0 <=? last_token_idx then f_sub (acc_logprob_ l) p else acc_logprob_ l
            | _ => acc_logprob_ l
            end)
    else if last_acc_token_idx_ l =? history_num_tokens then mret (acc_logprob_ l)
    else
      check (last_acc_token_idx_ l <? history_num_tokens)
            "last_acc_token_idx_ < history_num_tokens" ≫= λ _,
      accumulate (last_acc_token_idx_ l) (Z.to_nat (history_num_tokens - last_acc_token_idx_ l))
        (acc_logprob_ l) (logprobs_ l) ≫= λ acc,
      modify (set_acc acc history_num_tokens) ≫= λ _,
      mret acc.

(** [update_logprob(index, token, num_top_tokens)] (its [DCHECK]s are not
    compiled in) *)
Definition update_logprob (index : Z) (token : Token) (num_top_tokens : Z)
    : prog LogprobState unit :=
  get ≫= λ l,
  atZ (logprobs_ l) index ≫= λ _,
  let i := Z.to_nat index in
  let l1 := mkLogprobState (lp_num_prompt_tokens_ l) (<[i := token_logprob token]> (logprobs_ l))
              (acc_logprob_ l) (last_acc_token_idx_ l) (top_tokens_ l) (top_logprobs_ l) in
  let n := length (top_tokens token) in
  if (0 <? num_top_tokens) && (0 <? n)%nat then
    let k := if num_top_tokens <? Z.of_nat n then Z.to_nat num_top_tokens else n in
    put (mkLogprobState (lp_num_prompt_tokens_ l1) (logprobs_ l1) (acc_logprob_ l1)
           (last_acc_token_idx_ l1)
           (<[i := take k (top_tokens token)]> (top_tokens_ l1))
           (<[i := take k (top_logprobs token)]> (top_logprobs_ l1)))
  else put l1.

(** ** What the scores are *)

(** The sum, in order, of the recorded log probabilities of positions [i..j) *)
Definition sum_from (acc : F) (lps : list (option F)) (i j : nat) : F :=
  foldl (λ a o, match o with Some p => f_add a p | None => a end) acc (take (j - i) (drop i lps)).

Record lp_ok (l : LogprobState) : Prop := {
  lo_prompt : 0 ≤ lp_num_prompt_tokens_ l ≤ last_acc_token_idx_ l;
  lo_len : last_acc_token_idx_ l ≤ Z.of_nat (length (logprobs_ l));
  lo_acc : acc_logprob_ l = sum_from f_zero (logprobs_ l) (Z.to_nat (lp_num_prompt_tokens_ l))
                              (Z.to_nat (last_acc_token_idx_ l));
}.

Lemma sum_from_split acc lps i j k :
  (i ≤ j ≤ k)%nat → sum_from acc lps i k = sum_from (sum_from acc lps i j) lps j k.
Proof.
  intros Hij. unfold sum_from. rewrite <-foldl_app. f_equal.
  replace (k - i)%nat with ((j - i) + (k - j))%nat by lia.
  rewrite <-take_take_drop, drop_drop. by replace (i + (j - i))%nat with j by lia.
Qed.

Lemma accumulate_ok i n acc lps (l : LogprobState) :
  0 ≤ i → (Z.to_nat i + n ≤ length lps)%nat →
  wp (accumulate i n acc lps)
     (λ a l', l' = l ∧ a = sum_from acc lps (Z.to_nat i) (Z.to_nat i + n)) l.
Proof.
  revert i acc. induction n as [|n IH]; intros i acc Hi Hn; simpl.
  { apply wp_ret. split; [done|]. unfold sum_from. by rewrite Nat.add_0_r, Nat.sub_diag. }
  destruct (lookup_lt_is_Some_2 lps (Z.to_nat i)) as [o Ho]; [lia|].
  apply wp_bind. eapply wp_atZ; [done..|]. eapply wp_mono; [apply IH; lia|].
  intros a l' [-> ->]. split; [done|].
  rewrite (sum_from_split _ _ (Z.to_nat i) (S (Z.to_nat i)) (Z.to_nat i + S n)) by lia.
  replace (Z.to_nat (i + 1)) with (S (Z.to_nat i)) by lia.
  replace (S (Z.to_nat i) + n)%nat with (Z.to_nat i + S n)%nat by lia. f_equal.
  unfold sum_from at 1. replace (S (Z.to_nat i) - Z.to_nat i)%nat with 1%nat by lia.
  rewrite (drop_S _ _ _ Ho). done.
Qed.

Lemma get_acc_ok l n :
  lp_ok l → last_acc_token_idx_ l ≤ n ≤ Z.of_nat (length (logprobs_ l)) →
  wp (get_acc_logprob n)
     (λ a l', a = sum_from f_zero (logprobs_ l) (Z.to_nat (lp_num_prompt_tokens_ l)) (Z.to_nat n) ∧
        lp_ok l' ∧ logprobs_ l' = logprobs_ l ∧
        lp_num_prompt_tokens_ l' = lp_num_prompt_tokens_ l ∧ last_acc_token_idx_ l' = n) l.
Proof.
  intros Hok Hn. pose proof Hok as [Hp Hl Ha]. unfold get_acc_logprob. wp_steps.
  destruct (n =? last_acc_token_idx_ l) eqn:E.
  { apply Z.eqb_eq in E. subst n. by apply wp_ret. }
  apply Z.eqb_neq in E. apply wp_bind, wp_check; [apply Z.ltb_lt; lia|].
  apply wp_bind, wp_check; [apply Z.leb_le; lia|].
  apply wp_bind. eapply wp_mono; [apply accumulate_ok; lia|]. intros a l' [-> ->]. wp_steps.
  replace (Z.to_nat (last_acc_token_idx_ l) + Z.to_nat (n - last_acc_token_idx_ l))%nat
    with (Z.to_nat n) by lia.
  rewrite Ha, <-sum_from_split by lia. split; [done|]. split; [|done].
  constructor; simpl; try lia. done.
Qed.

(** The base score, when the last token has not been accumulated yet *)
Lemma get_base_ok l n :
  lp_ok l → last_acc_token_idx_ l < n ≤ Z.of_nat (length (logprobs_ l)) →
  lp_num_prompt_tokens_ l + 1 < n →
  wp (get_base_logprob n)
     (λ a l', a = sum_from f_zero (logprobs_ l) (Z.to_nat (lp_num_prompt_tokens_ l)) (Z.to_nat (n - 1)) ∧
        lp_ok l' ∧ logprobs_ l' = logprobs_ l ∧ last_acc_token_idx_ l' = n - 1 ∧
        lp_num_prompt_tokens_ l' = lp_num_prompt_tokens_ l) l.
Proof.
  intros Hok Hn Hg. pose proof Hok as [Hp Hl Ha]. unfold get_base_logprob. wp_steps.
  destruct (_ <=? 1) eqn:E; [apply Z.leb_le in E; lia|].
  destruct (_ =? n) eqn:E1; [apply Z.eqb_eq in E1; lia|].
  destruct (_ =? n - 1) eqn:E2.
  { apply Z.eqb_eq in E2. apply wp_ret. rewrite <-E2. done. }
  apply Z.eqb_neq in E2. apply wp_bind, wp_check; [apply Z.ltb_lt; lia|].
  apply wp_bind. eapply wp_mono; [apply accumulate_ok; lia|]. intros a l' [-> ->]. wp_steps.
  replace (Z.to_nat (last_acc_token_idx_ l) + Z.to_nat (n - 1 - last_acc_token_idx_ l))%nat
    with (Z.to_nat (n - 1)) by lia.
  rewrite Ha, <-sum_from_split by lia. split; [done|]. split; [|done].
  constructor; simpl; try lia. done.
Qed.

(** Recording a log probability past the accumulated prefix keeps the sums. *)
Lemma update_logprob_ok l i tok k :
  lp_ok l → last_acc_token_idx_ l ≤ i < Z.of_nat (length (logprobs_ l)) →
  wp (update_logprob i tok k)
     (λ _ l', (lp_ok l' ∧ lp_num_prompt_tokens_ l' = lp_num_prompt_tokens_ l ∧
                last_acc_token_idx_ l' = last_acc_token_idx_ l) ∧
              logprobs_ l' = <[Z.to_nat i := token_logprob tok]> (logprobs_ l)) l.
Proof.
  intros [Hp Hl Ha] Hi. unfold update_logprob. wp_steps.
  destruct (lookup_lt_is_Some_2 (logprobs_ l) (Z.to_nat i)) as [o Ho]; [lia|].
  eapply wp_atZ; [lia|exact Ho|].
  assert (sum_from f_zero (<[Z.to_nat i:=token_logprob tok]> (logprobs_ l))
            (Z.to_nat (lp_num_prompt_tokens_ l)) (Z.to_nat (last_acc_token_idx_ l)) = acc_logprob_ l) as Hs.
  { rewrite Ha. unfold sum_from. f_equal. rewrite !take_drop_commute.
    rewrite take_insert_ge by lia. done. }
  destruct (_ && _); apply wp_put; (split; [|done]); (split; [|done]);
    constructor; simpl; rewrite ?length_insert; try lia; by rewrite Hs.
Qed.

(** ** Properties *)

(** When a step's log probability is recorded and the beam search then reads the base
    score and the accumulated score, the base is the in-order sum over the tokens before
    the last one and the accumulated score is the base plus the last token's log
    probability, wherever the lazy accumulation had stopped before. *)
Theorem scores_are_sums l i tok k :
  lp_ok l → last_acc_token_idx_ l ≤ i < Z.of_nat (length (logprobs_ l)) →
  lp_num_prompt_tokens_ l < i →
  wp (update_logprob i tok k ≫= λ _, get_base_logprob (i + 1) ≫= λ b,
      get_acc_logprob (i + 1) ≫= λ a, mret (b, a))
     (λ r l', lp_ok l' ∧ last_acc_token_idx_ l' = i + 1 ∧
        r.1 = sum_from f_zero (logprobs_ l) (Z.to_nat (lp_num_prompt_tokens_ l)) (Z.to_nat i) ∧
        r.2 = match token_logprob tok with Some p => f_add r.1 p | None => r.1 end) l.
Proof.
  intros Hok Hi Hp. pose proof (lo_prompt _ Hok). eapply wp_seq; [by apply update_logprob_ok|].
  intros [] l1 ((Hok1 & Hpl & Hll) & Hl1).
  assert (length (logprobs_ l1) = length (logprobs_ l)) as Hlen by (by rewrite Hl1, length_insert).
  eapply wp_seq; [apply get_base_ok; [done|lia|lia]|].
  intros b l2 (-> & Hok2 & Hl2 & Hidx & Hpp). eapply wp_seq; [apply get_acc_ok; [done|rewrite Hl2; lia]|].
  intros a l3 (-> & Hok3 & Hl3 & _ & Hidx3). apply wp_ret. simpl.
  split; [done|]. split; [done|]. rewrite Hl2, Hl1, Hpp, Hpl.
  replace (Z.to_nat (i + 1 - 1)) with (Z.to_nat i) by lia.
  assert (∀ lps p x, (p ≤ Z.to_nat i)%nat →
    sum_from f_zero (<[Z.to_nat i := x]> lps) p (Z.to_nat i) = sum_from f_zero lps p (Z.to_nat i)) as Hins.
  { intros lps p x Hle. unfold sum_from. f_equal. rewrite !take_drop_commute.
    by rewrite take_insert_ge by lia. }
  rewrite Hins by lia. split; [done|].
  rewrite (sum_from_split _ _ _ (Z.to_nat i) (Z.to_nat (i + 1))) by lia. rewrite Hins by lia.
  unfold sum_from at 1. replace (Z.to_nat (i + 1) - Z.to_nat i)%nat with 1%nat by lia.
  rewrite (drop_S _ (token_logprob tok) (Z.to_nat i)) by (apply list_lookup_insert_eq; lia). done.
Qed.
End logprob.
Arguments Token F : clear implicits.
Arguments LogprobState F : clear implicits.

(** Integers for floats: a prompt of one token, two tokens summed already *)
Definition sample_floats : FloatOps Z := {|
  f_zero := 0; f_one := 1; f_add := Z.add; f_sub := Z.sub; f_eqb := Z.eqb;
|}.
Definition sample_logprobs : LogprobState Z :=
  mkLogprobState 1 [None; Some (-3); Some (-4); Some (-5); None] (-7) 3 [[]; []; []; []; []] [[]; []; []; []; []].
Lemma scores_are_sums_witness :
  wp (update_logprob 4 (mkToken 8 (Some (-2)) [] []) 0 ≫= λ _,
      get_base_logprob (H := sample_floats) 5 ≫= λ b,
      get_acc_logprob (H := sample_floats) 5 ≫= λ a, mret (b, a))
     (λ r _, r = (-12, -14)) sample_logprobs.
Proof.
  eapply wp_mono; [apply (scores_are_sums (H := sample_floats) sample_logprobs 4)|].
  - constructor; simpl; [lia|lia|computed].
  - simpl. lia.
  - simpl. lia.
  - intros [b a] l' (_ & _ & Hb & Ha). simpl in Hb, Ha. subst b a. computed.
Defined.
