(* ===== verification/Sequence.v ===== *)
(** A sequence of a request: [core/framework/request/sequence.h] and
    [sequence.cpp].

    The state is the token buffer with its counts, the KV state, the cached finish
    status, the detokeniser and the scores.  Two modes of stepping share it: without
    overlap [append_token] adds a real token; with [enable_schedule_overlap] it adds
    a placeholder that [update_last_step_token] fills in one step later.  The
    members are grouped in records by what changes together; the OneRec model path,
    the multi-modal data and the prefetch timers are not modelled. *)

From stdpp Require Import base gmap list strings sets.
From Stdlib Require Import ZArith Lia.
From S2P Require Import Prelude HashKey Blocks KVState Stopping IncrementalDecoder LogprobState.
Open Scope Z_scope.

Section sequence.
Context {T : Type} `{FloatOps F}.

(** [RequestSamplingParam], the fields a sequence reads *)
Record SamplingParam := mkSamplingParam {
  frequency_penalty : F;
  presence_penalty : F;
  repetition_penalty : F;
  sampling_logprobs : bool;
  sampling_top_logprobs : Z;
  is_embeddings : bool;
  beam_width : Z;
}.
(** [SequenceParams]; [is_onerec] is [rec_type == kOneRec], [disagg_pd] the flag
    [FLAGS_enable_disagg_pd] *)
Record SequenceParams := mkSequenceParams {
  seq_capacity : nat;
  seq_logprobs : bool;
  enable_schedule_overlap : bool;
  is_onerec : bool;
  disagg_pd : bool;
  sampling_param : SamplingParam;
  stopping_checker : StoppingChecker;
}.

(** [tokens_], [num_tokens_], [token_to_count_map_], [cur_generated_token_idx_] *)
Record SeqTokens := mkSeqTokens {
  tokens_ : list Z;
  num_tokens_ : nat;
  token_to_count_map_ : gmap Z Z;
  cur_generated_token_idx_ : nat;
}.
(** [finished_], [finish_status_invalidated_], [finish_reason_] *)
Record SeqFinish := mkSeqFinish {
  finished_ : bool;
  finish_status_invalidated_ : bool;
  finish_reason_ : FinishReason;
}.
Record SeqFlags := mkSeqFlags {
  is_first_token_ : bool;
  is_cache_block_for_prefill_ : bool;
  updated_since_last_beam_search_ : bool;
  closed_ : bool;
  cancelled_ : bool;
  first_token_ : option (Token F);
}.
Record Sequence := mkSequence {
  index_ : Z;
  sequence_params_ : SequenceParams;
  num_prompt_tokens_ : nat;
  volatile_num_prompt_tokens_ : nat;
  need_unique_tokens_ : bool;
  toks : SeqTokens;
  fin : SeqFinish;
  flags : SeqFlags;
  kv_state_ : KVCacheState T;
  host_kv_state_ : KVCacheState T;
  logprob_state_ : LogprobState F;
  decoder_ : IncrementalDecoder;
  embedding_block_ : Block;
  dp_rank_ : Z;
}.

Definition set_toks (t : SeqTokens) (s : Sequence) : Sequence :=
  mkSequence (index_ s) (sequence_params_ s) (num_prompt_tokens_ s) (volatile_num_prompt_tokens_ s)
    (need_unique_tokens_ s) t (fin s) (flags s) (kv_state_ s) (host_kv_state_ s)
    (logprob_state_ s) (decoder_ s) (embedding_block_ s) (dp_rank_ s).
Definition set_fin (f : SeqFinish) (s : Sequence) : Sequence :=
  mkSequence (index_ s) (sequence_params_ s) (num_prompt_tokens_ s) (volatile_num_prompt_tokens_ s)
    (need_unique_tokens_ s) (toks s) f (flags s) (kv_state_ s) (host_kv_state_ s)
    (logprob_state_ s) (decoder_ s) (embedding_block_ s) (dp_rank_ s).
Definition set_flags (f : SeqFlags) (s : Sequence) : Sequence :=
  mkSequence (index_ s) (sequence_params_ s) (num_prompt_tokens_ s) (volatile_num_prompt_tokens_ s)
    (need_unique_tokens_ s) (toks s) (fin s) f (kv_state_ s) (host_kv_state_ s)
    (logprob_state_ s) (decoder_ s) (embedding_block_ s) (dp_rank_ s).
Definition set_kv (k : KVCacheState T) (s : Sequence) : Sequence :=
  mkSequence (index_ s) (sequence_params_ s) (num_prompt_tokens_ s) (volatile_num_prompt_tokens_ s)
    (need_unique_tokens_ s) (toks s) (fin s) (flags s) k (host_kv_state_ s)
    (logprob_state_ s) (decoder_ s) (embedding_block_ s) (dp_rank_ s).
Definition set_logprob (l : LogprobState F) (s : Sequence) : Sequence :=
  mkSequence (index_ s) (sequence_params_ s) (num_prompt_tokens_ s) (volatile_num_prompt_tokens_ s)
    (need_unique_tokens_ s) (toks s) (fin s) (flags s) (kv_state_ s) (host_kv_state_ s)
    l (decoder_ s) (embedding_block_ s) (dp_rank_ s).
Definition set_decoder (d : IncrementalDecoder) (s : Sequence) : Sequence :=
  mkSequence (index_ s) (sequence_params_ s) (num_prompt_tokens_ s) (volatile_num_prompt_tokens_ s)
    (need_unique_tokens_ s) (toks s) (fin s) (flags s) (kv_state_ s) (host_kv_state_ s)
    (logprob_state_ s) d (embedding_block_ s) (dp_rank_ s).
Definition set_embedding_block (b : Block) (s : Sequence) : Sequence :=
  mkSequence (index_ s) (sequence_params_ s) (num_prompt_tokens_ s) (volatile_num_prompt_tokens_ s)
    (need_unique_tokens_ s) (toks s) (fin s) (flags s) (kv_state_ s) (host_kv_state_ s)
    (logprob_state_ s) (decoder_ s) b (dp_rank_ s).
Definition set_dp_rank (r : Z) (s : Sequence) : Sequence :=
  mkSequence (index_ s) (sequence_params_ s) (num_prompt_tokens_ s) (volatile_num_prompt_tokens_ s)
    (need_unique_tokens_ s) (toks s) (fin s) (flags s) (kv_state_ s) (host_kv_state_ s)
    (logprob_state_ s) (decoder_ s) (embedding_block_ s) r.
Definition set_volatile (n : nat) (s : Sequence) : Sequence :=
  mkSequence (index_ s) (sequence_params_ s) (num_prompt_tokens_ s) n
    (need_unique_tokens_ s) (toks s) (fin s) (flags s) (kv_state_ s) (host_kv_state_ s)
    (logprob_state_ s) (decoder_ s) (embedding_block_ s) (dp_rank_ s).

Definition set_invalidated (b : bool) (s : Sequence) : Sequence :=
  set_fin (mkSeqFinish (finished_ (fin s)) b (finish_reason_ (fin s))) s.
Definition set_first (b : bool) (s : Sequence) : Sequence :=
  let f := flags s in
  set_flags (mkSeqFlags b (is_cache_block_for_prefill_ f) (updated_since_last_beam_search_ f)
               (closed_ f) (cancelled_ f) (first_token_ f)) s.
(** [set_cancel()] *)
Definition seq_set_cancel (s : Sequence) : Sequence :=
  let f := flags s in
  set_flags (mkSeqFlags (is_first_token_ f) (is_cache_block_for_prefill_ f)
               (updated_since_last_beam_search_ f) (closed_ f) true (first_token_ f)) s.
Definition set_updated (b : bool) (s : Sequence) : Sequence :=
  let f := flags s in
  set_flags (mkSeqFlags (is_first_token_ f) (is_cache_block_for_prefill_ f) b
               (closed_ f) (cancelled_ f) (first_token_ f)) s.

(** ** Queries *)

(** [tokens()]: the first [num_tokens_] entries of the buffer *)
Definition tokens (s : Sequence) : list Z := take (num_tokens_ (toks s)) (tokens_ (toks s)).
(** [cached_tokens()] and its [CHECK_LE] *)
Definition cached_tokens {St} (s : Sequence) : prog St (list Z) :=
  check (kv_cache_tokens_num_ (kv_state_ s) <=? Z.of_nat (length (tokens_ (toks s)))) "slice" ≫= λ _,
  mret (take (Z.to_nat (kv_cache_tokens_num_ (kv_state_ s))) (tokens_ (toks s))).
Definition num_generated_tokens (s : Sequence) : Z :=
  u64 (Z.of_nat (num_tokens_ (toks s)) - Z.of_nat (num_prompt_tokens_ s)).
Definition num_need_compute_tokens (s : Sequence) : Z :=
  u64 (Z.of_nat (num_tokens_ (toks s)) -
       Z.max (kv_cache_tokens_num_ (kv_state_ s)) (kv_cache_tokens_num_ (host_kv_state_ s))).
Definition get_generated_tokens (s : Sequence) : list Z :=
  if (num_prompt_tokens_ s <? num_tokens_ (toks s))%nat
  then take (num_tokens_ (toks s) - num_prompt_tokens_ s) (drop (num_prompt_tokens_ s) (tokens_ (toks s)))
  else [].
Definition has_embedding_id (s : Sequence) : bool := is_valid (embedding_block_ s).
Definition check_beam_search (s : Sequence) : bool := 1 <? beam_width (sampling_param (sequence_params_ s)).

Inductive SequenceStage := PREFILL | CHUNKED_PREFILL | DECODE.
(** [stage()] *)
Definition stage (s : Sequence) : SequenceStage :=
  let k := kv_cache_tokens_num_ (kv_state_ s) in
  if k <? Z.of_nat (Nat.max (volatile_num_prompt_tokens_ s) (num_prompt_tokens_ s)) then
    if 0 <? k then CHUNKED_PREFILL else PREFILL
  else DECODE.
Definition is_chunked_prefill_stage (s : Sequence) : bool :=
  match stage s with CHUNKED_PREFILL => true | _ => false end.
Definition is_prefill_stage (s : Sequence) : bool :=
  match stage s with DECODE => false | _ => true end.

(** ** Construction *)

Definition penalties_on (p : SamplingParam) : bool :=
  negb (f_eqb (frequency_penalty p) f_zero) || negb (f_eqb (presence_penalty p) f_zero) ||
  negb (f_eqb (repetition_penalty p) f_one).

(** [Sequence(index, prompt_token_ids, ..., decoder, seq_params)] of a model that
    is not OneRec *)
Definition Sequence_new {St} (index : Z) (prompt_token_ids : list Z)
    (decoder : IncrementalDecoder) (p : SequenceParams) : prog St Sequence :=
  match last prompt_token_ids with
  | None => fatal "empty prompt token ids"
  | Some back =>
      check (length prompt_token_ids <? seq_capacity p)%nat "capacity too small" ≫= λ _,
      let n := length prompt_token_ids in
      let need := penalties_on (sampling_param p) in
      let counts := if need then list_to_map ((λ t, (t, 0)) <$> prompt_token_ids) else ∅ in
      mret (mkSequence index p n n need
        (mkSeqTokens (prompt_token_ids ++ replicate (seq_capacity p - n) 0) n (<[back := 0]> counts) n)
        (mkSeqFinish false true NONE) (mkSeqFlags false false false false false None)
        KVCacheState_new KVCacheState_new (LogprobState_new (Z.of_nat n) (seq_capacity p)) decoder
        Block_default (-1))
  end.

(** The copy constructor: [need_unique_tokens_] and [cancelled_] are not in its list. *)
Definition Sequence_copy (o : Sequence) : Sequence :=
  let f := flags o in
  mkSequence (index_ o) (sequence_params_ o) (num_prompt_tokens_ o) (volatile_num_prompt_tokens_ o)
    false (toks o) (fin o) 
    (mkSeqFlags (is_first_token_ f) (is_cache_block_for_prefill_ f) (updated_since_last_beam_search_ f)
       (closed_ f) false (first_token_ f)) (kv_state_ o) (host_kv_state_ o)
    (logprob_state_ o) (decoder_ o) (embedding_block_ o) (dp_rank_ o).

(** ** Tokens *)

Definition seq_modify (f : Sequence → Sequence) : prog Sequence unit := modify f.

(** [token_to_count_map_[id] += d] *)
Definition count_token (id d : Z) (m : gmap Z Z) : gmap Z Z :=
  <[id := i32 (default 0 (m !! id) + d)]> m.
Definition add_count (id d : Z) (s : Sequence) : Sequence :=
  let t := toks s in
  set_toks (mkSeqTokens (tokens_ t) (num_tokens_ t) (count_token id d (token_to_count_map_ t))
              (cur_generated_token_idx_ t)) s.
(** [tokens_[i] = id] *)
Definition write_token (i : nat) (id : Z) : prog Sequence unit :=
  get ≫= λ s,
  at_ (tokens_ (toks s)) i ≫= λ _,
  let t := toks s in
  put (set_toks (mkSeqTokens (<[i := id]> (tokens_ t)) (num_tokens_ t) (token_to_count_map_ t)
                   (cur_generated_token_idx_ t)) s).
Definition set_num_tokens (n : nat) (s : Sequence) : Sequence :=
  let t := toks s in
  set_toks (mkSeqTokens (tokens_ t) n (token_to_count_map_ t) (cur_generated_token_idx_ t)) s.
Definition set_cur (n : nat) (s : Sequence) : Sequence :=
  let t := toks s in
  set_toks (mkSeqTokens (tokens_ t) (num_tokens_ t) (token_to_count_map_ t) n) s.

Definition record_first_token (token : Token F) (s : Sequence) : Sequence :=
  let f := flags s in
  if negb (disagg_pd (sequence_params_ s)) || negb (is_first_token_ f) then s
  else set_flags (mkSeqFlags (is_first_token_ f) (is_cache_block_for_prefill_ f)
         (updated_since_last_beam_search_ f) (closed_ f) (cancelled_ f) (Some token)) s.

(** The update of the scores, when the request asks for them *)
Definition record_logprob (i : nat) (token : Token F) : prog Sequence unit :=
  get ≫= λ s,
  let p := sampling_param (sequence_params_ s) in
  if sampling_logprobs p
  then zoom logprob_state_ set_logprob (update_logprob (Z.of_nat i) token (sampling_top_logprobs p))
  else mret ().

Definition count_if_needed (id d : Z) (s : Sequence) : Sequence :=
  if need_unique_tokens_ s then add_count id d s else s.

(** [append_token(token)] *)
Definition append_token (token : Token F) : prog Sequence unit :=
  get ≫= λ s,
  check (num_tokens_ (toks s) <? length (tokens_ (toks s)))%nat
        "exceed the token capacity of the sequence" ≫= λ _,
  check (negb (finished_ (fin s))) "cannot append token to a finished sequence" ≫= λ _,
  (if is_onerec (sequence_params_ s) then mret ()
   else check ((0 <? kv_cache_tokens_num_ (kv_state_ s)) && negb (is_chunked_prefill_stage s))
              "cannot append token to a prefill sequence") ≫= λ _,
  (if enable_schedule_overlap (sequence_params_ s) then mret ()
   else seq_modify (set_first (num_tokens_ (toks s) =? num_prompt_tokens_ s)%nat)) ≫= λ _,
  seq_modify (record_first_token token) ≫= λ _,
  let cur_idx := num_tokens_ (toks s) in
  seq_modify (set_num_tokens (cur_idx + 1)) ≫= λ _,
  seq_modify (λ s, set_kv (set_tokens (Z.of_nat cur_idx) (kv_state_ s)) s) ≫= λ _,
  let token_id := i32 (token_id token) in
  write_token cur_idx token_id ≫= λ _,
  if enable_schedule_overlap (sequence_params_ s) && (token_id <? 0) then
    seq_modify (set_invalidated true)
  else
    seq_modify (count_if_needed token_id 1) ≫= λ _,
    record_logprob cur_idx token ≫= λ _,
    seq_modify (set_invalidated true) ≫= λ _,
    seq_modify (set_updated true).

(** [update_last_step_token(token, token_offset)] *)
Definition update_last_step_token (token : Token F) (token_offset : nat) : prog Sequence unit :=
  get ≫= λ s,
  check (enable_schedule_overlap (sequence_params_ s))
        "update_last_step_token without enable_schedule_overlap" ≫= λ _,
  let cur := cur_generated_token_idx_ (toks s) in
  seq_modify (set_first (cur =? num_prompt_tokens_ s)%nat) ≫= λ _,
  seq_modify (record_first_token token) ≫= λ _,
  (if (0 <? token_offset)%nat then
     if (num_kv_blocks (kv_state_ s) =? 0)%nat then mret false
     else
       zoom kv_state_ set_kv (incr_kv_cache_tokens_num 1) ≫= λ _,
       seq_modify (set_num_tokens (num_tokens_ (toks s) + 1)) ≫= λ _,
       at_ (tokens_ (toks s)) (cur + 1) ≫= λ t1,
       write_token (cur + 2) t1 ≫= λ _,
       at_ (tokens_ (toks s)) cur ≫= λ t0,
       write_token (cur + 1) t0 ≫= λ _, mret true
   else mret true) ≫= λ go : bool,
  if negb go then mret ()
  else
    let token_id := i32 (token_id token) in
    write_token cur token_id ≫= λ _,
    seq_modify (count_if_needed token_id 1) ≫= λ _,
    record_logprob cur token ≫= λ _,
    seq_modify (set_cur (cur + 1)) ≫= λ _,
    seq_modify (set_invalidated true) ≫= λ _,
    seq_modify (set_updated true).

(** [update_token(index, token)] *)
Definition update_token (index : nat) (token : Token F) : prog Sequence unit :=
  seq_modify (record_first_token token) ≫= λ _,
  get ≫= λ s,
  at_ (tokens_ (toks s)) index ≫= λ origin_token_id,
  let token_id := i32 (token_id token) in
  write_token index token_id ≫= λ _,
  seq_modify (count_if_needed origin_token_id (-1)) ≫= λ _,
  seq_modify (count_if_needed token_id 1) ≫= λ _,
  record_logprob index token ≫= λ _,
  seq_modify (set_invalidated true).

(** [if_cache_block_for_prefill()] *)
Definition if_cache_block_for_prefill : prog Sequence bool :=
  get ≫= λ s,
  let f := flags s in
  let if_cache := negb (is_cache_block_for_prefill_ f) &&
                  (num_prompt_tokens_ s <? num_tokens_ (toks s))%nat in
  put (set_flags (mkSeqFlags (is_first_token_ f) (is_cache_block_for_prefill_ f || if_cache)
         (updated_since_last_beam_search_ f) (closed_ f) (cancelled_ f) (first_token_ f)) s) ≫= λ _,
  mret if_cache.

(** ** Finishing *)

(** [finished()]: the cached status, or a check of the tokens *)
Definition finished : prog Sequence bool :=
  get ≫= λ s,
  if negb (finish_status_invalidated_ (fin s)) then mret (finished_ (fin s))
  else if is_onerec (sequence_params_ s) && (num_tokens_ (toks s) =? num_prompt_tokens_ s)%nat
  then mret false
  else if is_embeddings (sampling_param (sequence_params_ s)) then mret false
  else
    seq_modify (set_invalidated false) ≫= λ _,
    check_stop (stopping_checker (sequence_params_ s)) (tokens s)
      (Z.of_nat (num_prompt_tokens_ s)) ≫= λ r,
    if decide (r = NONE) then mret false
    else
      seq_modify (set_fin (mkSeqFinish true false r)) ≫= λ _,
      mret true.

(** [finish()] *)
Definition finish : prog Sequence unit :=
  seq_modify (λ s, set_fin (mkSeqFinish true false
    (match finish_reason_ (fin s) with NONE => STOP | r => r end)) s).

(** [reset_finish_state_for_beam_search()] *)
Definition reset_finish_state_for_beam_search : prog Sequence unit :=
  seq_modify (set_fin (mkSeqFinish false true NONE)) ≫= λ _,
  finished ≫= λ _, mret ().

(** ** Output *)

Section output.
Context `{Tokenizer}.
(** [generate_streaming_output(size, tokenizer)]: the delta text and the token
    range it covers *)
Definition generate_streaming_output : prog Sequence (option (bytes * nat * nat)) :=
  get ≫= λ s,
  last_valid (tokens_ (toks s)) (num_tokens_ (toks s)) ≫= λ r : Z * nat,
  let ids := take r.2 (tokens_ (toks s)) in
  let start := output_offset_ (decoder_ s) in
  zoom decoder_ set_decoder (decode ids) ≫= λ delta,
  if bool_decide (delta = []) then mret None
  else
    get ≫= λ s,
    let end_ := output_offset_ (decoder_ s) in
    dslice ids start end_ ≫= λ _,
    mret (Some (delta, start, end_)).
End output.
End sequence.
Arguments SamplingParam F : clear implicits.
Arguments SequenceParams F : clear implicits.
Arguments SeqFlags F : clear implicits.
Arguments Sequence T F : clear implicits.

(** ** The invariant of a sequence *)

Section verified.
Context {T : Type} `{FloatOps F}.
Implicit Types (s : Sequence T F) (l : list Z) (tok : Token F).

Definition occurrences (x : Z) l : nat := length (filter (λ y : Z, y = x) l).

(** The tokens that are real: with overlap the buffer ends in placeholders. *)
Definition num_real s : nat :=
  if enable_schedule_overlap (sequence_params_ s) then cur_generated_token_idx_ (toks s)
  else num_tokens_ (toks s).
Definition real_tokens s : list Z := take (num_real s) (tokens_ (toks s)).
Definition generated s : list Z := drop (num_prompt_tokens_ s) (real_tokens s).
(** The counts of the penalties are those of the generated tokens. *)
Definition counts_ok s : Prop :=
  need_unique_tokens_ s = true → ∀ x,
    default 0 (token_to_count_map_ (toks s) !! x) = Z.of_nat (occurrences x (generated s)).

Record seq_ok s : Prop := {
  so_prompt : (0 < num_prompt_tokens_ s ≤ num_real s)%nat;
  so_real : (num_real s ≤ num_tokens_ (toks s) ≤ length (tokens_ (toks s)))%nat;
  so_capacity : Z.of_nat (length (tokens_ (toks s))) < 2 ^ 31;
  so_logprobs : length (logprobs_ (logprob_state_ s)) = length (tokens_ (toks s));
  so_counts : counts_ok s;
}.

Lemma occurrences_app x l1 l2 : occurrences x (l1 ++ l2) = (occurrences x l1 + occurrences x l2)%nat.
Proof. unfold occurrences. by rewrite filter_app, length_app. Qed.
Lemma occurrences_le x l : (occurrences x l ≤ length l)%nat.
Proof. apply length_filter. Qed.
Lemma occurrences_one x y : occurrences x [y] = if decide (y = x) then 1%nat else O.
Proof. unfold occurrences. rewrite filter_cons. by case_decide. Qed.

Lemma real_length s : seq_ok s → length (real_tokens s) = num_real s.
Proof. intros [? ? ? ? ?]. unfold real_tokens. rewrite length_take. lia. Qed.

Lemma Sequence_new_ok {St} i prompt d (p : SequenceParams F) (st : St) :
  prompt ≠ [] → (length prompt < seq_capacity p)%nat → Z.of_nat (seq_capacity p) < 2 ^ 31 →
  wp (@Sequence_new T F _ _ i prompt d p)
     (λ s st', st' = st ∧ seq_ok s ∧ tokens s = prompt ∧ real_tokens s = prompt ∧
        sequence_params_ s = p ∧ stage s = PREFILL ∧
        length (tokens_ (toks s)) = seq_capacity p) st.
Proof.
  intros Hne Hcap Hroom. unfold Sequence_new.
  destruct (last prompt) as [b|] eqn:Hl; [|by apply last_None in Hl].
  assert (0 < length prompt)%nat by (destruct prompt; [done|simpl; lia]).
  apply wp_bind, wp_check; [by apply Nat.ltb_lt|]. apply wp_ret. split; [done|].
  assert (length (prompt ++ replicate (seq_capacity p - length prompt) 0) = seq_capacity p) as Hlen
    by (rewrite length_app, length_replicate; lia).
  assert (∀ b : bool, (if b then length prompt else length prompt) = length prompt) as Hif by (by intros []).
  split; [|split; [|split; [|split; [done|split; [|exact Hlen]]]]].
  - constructor; unfold num_real; simpl; rewrite ?Hif, ?Hlen; try lia.
    + by rewrite length_replicate.
    + intros Hneed x. unfold generated, real_tokens, num_real. simpl in *. rewrite Hif, Hneed.
      rewrite take_app_length, drop_all. unfold occurrences. rewrite filter_nil. simpl.
      destruct (decide (b = x)) as [->|Hx]; [by rewrite lookup_insert_eq|].
      rewrite lookup_insert_ne by done.
      destruct (list_to_map _ !! x) as [v|] eqn:E; [|done]. simpl.
      apply elem_of_list_to_map_2 in E. apply list_elem_of_fmap in E as (y & [= _ ->] & _). done.
  - unfold tokens. simpl. by rewrite take_app_length.
  - unfold real_tokens, num_real. simpl. by rewrite Hif, take_app_length.
  - unfold stage. simpl. destruct (0 <? Z.of_nat _) eqn:E; [done|]. apply Z.ltb_ge in E. lia.
Qed.

Lemma write_token_ok i x s Q :
  (i < length (tokens_ (toks s)))%nat →
  Q () (set_toks (mkSeqTokens (<[i := x]> (tokens_ (toks s))) (num_tokens_ (toks s))
          (token_to_count_map_ (toks s)) (cur_generated_token_idx_ (toks s))) s) →
  wp (write_token i x) Q s.
Proof.
  intros Hi HQ. unfold write_token. wp_steps.
  destruct (lookup_lt_is_Some_2 _ _ Hi) as [y Hy]. eapply wp_at; [done|]. by wp_steps.
Qed.

Lemma count_if_needed_toks x d s :
  count_if_needed x d s =
    set_toks (mkSeqTokens (tokens_ (toks s)) (num_tokens_ (toks s))
      (if need_unique_tokens_ s then count_token x d (token_to_count_map_ (toks s))
       else token_to_count_map_ (toks s)) (cur_generated_token_idx_ (toks s))) s.
Proof. unfold count_if_needed. destruct (need_unique_tokens_ s) eqn:E; destruct s as [? ? ? ? ? [] ? ? ? ? ? ? ? ?]; done. Qed.

(** The score update touches the scores only. *)
Lemma record_logprob_ok i tok s :
  (i < length (logprobs_ (logprob_state_ s)))%nat →
  wp (record_logprob i tok)
     (λ _ s', s' = set_logprob (logprob_state_ s') s ∧
        length (logprobs_ (logprob_state_ s')) = length (logprobs_ (logprob_state_ s))) s.
Proof.
  intros Hi. unfold record_logprob. wp_steps.
  destruct (sampling_logprobs _); [|apply wp_ret; by destruct s].
  apply wp_zoom. unfold update_logprob. wp_steps.
  destruct (lookup_lt_is_Some_2 _ _ Hi) as [o Ho].
  eapply wp_atZ; [lia|by rewrite Nat2Z.id|].
  destruct (_ && _); apply wp_put; simpl; by rewrite length_insert.
Qed.

(** A count goes up with the token it counts. *)
Lemma counts_add x gen (m : gmap Z Z) :
  (∀ y, default 0 (m !! y) = Z.of_nat (occurrences y gen)) → Z.of_nat (length gen) < 2 ^ 31 - 1 →
  ∀ y, default 0 (count_token x 1 m !! y) = Z.of_nat (occurrences y (gen ++ [x])).
Proof.
  intros Hm Hlen y. unfold count_token. rewrite occurrences_app, occurrences_one.
  pose proof (occurrences_le x gen).
  destruct (decide (x = y)) as [<-|Hne].
  - rewrite lookup_insert_eq. simpl. rewrite Hm, i32_id by lia. lia.
  - rewrite lookup_insert_ne by done. rewrite Hm. lia.
Qed.

(** [s] can take one more step of [append_token]. *)
Record can_append s : Prop := {
  ca_room : (num_tokens_ (toks s) < length (tokens_ (toks s)))%nat;
  ca_finished : finished_ (fin s) = false;
  ca_onerec : is_onerec (sequence_params_ s) = false;
  ca_stage : stage s = DECODE;
  ca_kv : 0 < kv_cache_tokens_num_ (kv_state_ s) ≤ Z.of_nat (num_tokens_ (toks s));
}.

Definition int32_token tok : Prop := - 2 ^ 31 ≤ token_id tok < 2 ^ 31.

(** What a step may not change *)
Definition same_seq s s' : Prop :=
  sequence_params_ s' = sequence_params_ s ∧ num_prompt_tokens_ s' = num_prompt_tokens_ s ∧
  need_unique_tokens_ s' = need_unique_tokens_ s ∧ embedding_block_ s' = embedding_block_ s ∧
  blocks_ (kv_state_ s') = blocks_ (kv_state_ s) ∧ dp_rank_ s' = dp_rank_ s ∧
  finished_ (fin s') = finished_ (fin s) ∧
  length (tokens_ (toks s')) = length (tokens_ (toks s)).
#[export] Instance same_seq_preorder : PreOrder same_seq.
Proof.
  split; [done|]. intros s1 s2 s3 (?&?&?&?&?&?&?&?) (?&?&?&?&?&?&?&?).
  repeat split; congruence.
Qed.

Lemma record_first_token_same tok s :
  toks (record_first_token tok s) = toks s ∧ fin (record_first_token tok s) = fin s ∧
  kv_state_ (record_first_token tok s) = kv_state_ s ∧
  logprob_state_ (record_first_token tok s) = logprob_state_ s ∧
  volatile_num_prompt_tokens_ (record_first_token tok s) = volatile_num_prompt_tokens_ s ∧
  same_seq s (record_first_token tok s).
Proof. unfold record_first_token. by destruct (_ || _). Qed.

(** [append_token] of a real token without overlap *)
Lemma append_token_ok s tok :
  seq_ok s → can_append s → int32_token tok → enable_schedule_overlap (sequence_params_ s) = false →
  wp (append_token tok)
     (λ _ s', seq_ok s' ∧ same_seq s s' ∧ tokens s' = tokens s ++ [token_id tok] ∧
        real_tokens s' = real_tokens s ++ [token_id tok] ∧
        num_tokens_ (toks s') = S (num_tokens_ (toks s)) ∧
        kv_cache_tokens_num_ (kv_state_ s') = Z.of_nat (num_tokens_ (toks s)) ∧
        stage s' = DECODE ∧ finish_status_invalidated_ (fin s') = true) s.
Proof.
  intros [Hp Hr Hc Hlp Hcnt] [Hroom Hfin Hrec Hst Hkv] Htok Hov. unfold int32_token in Htok.
  unfold append_token. wp_steps. apply wp_check; [by apply Nat.ltb_lt|].
  apply wp_bind, wp_check; [by rewrite Hfin|]. rewrite Hrec.
  apply wp_bind, wp_check.
  { apply andb_true_iff. split; [apply Z.ltb_lt; lia|]. unfold is_chunked_prefill_stage. by rewrite Hst. }
  rewrite Hov. unfold seq_modify. wp_steps. set (s0 := set_first _ s).
  assert (same_seq s s0 ∧ toks s0 = toks s ∧ fin s0 = fin s ∧ kv_state_ s0 = kv_state_ s ∧
    logprob_state_ s0 = logprob_state_ s ∧ volatile_num_prompt_tokens_ s0 = volatile_num_prompt_tokens_ s)
    as (Hs0 & Ht0 & Hf0 & Hk0 & Hl0 & Hv0) by done.
  pose proof (record_first_token_same tok s0) as (Ht1 & Hf1 & Hk1 & Hl1 & Hv1 & Hs1).
  set (s1 := record_first_token tok s0) in *.
  assert (same_seq s s1) as (Es1 & Es2 & Es3 & Es4 & Es5 & Es6 & Es7 & Es8) by (by etrans).
  wp_steps. rewrite Nat.add_1_r, i32_id by done.
  apply write_token_ok; [simpl; by rewrite Ht1, Ht0|]. simpl.
  wp_steps. rewrite count_if_needed_toks. simpl.
  eapply wp_mono; [apply record_logprob_ok; simpl; rewrite Hl1, Hl0, Hlp; lia|].
  intros _ s2 [Hs2 Hlen2]. wp_steps. simpl in Hlen2.
  rewrite Hs2. unfold num_real in *. rewrite Hov in *.
  assert (take (S (num_tokens_ (toks s))) (<[num_tokens_ (toks s):=token_id tok]> (tokens_ (toks s))) =
          take (num_tokens_ (toks s)) (tokens_ (toks s)) ++ [token_id tok]) as Htake.
  { erewrite take_S_r; [|by apply list_lookup_insert_eq]. f_equal. by apply take_insert_ge. }
  split; [|split; [|split; [|split; [|split; [done|split; [done|split; [|done]]]]]]].
  - constructor; unfold num_real; simpl; rewrite ?Es1, ?Es2, ?Hov, ?length_insert, ?Ht1, ?Ht0; try done; try lia.
    + by rewrite Hlen2, Hl1, Hl0.
    + intros Hneed. simpl in Hneed. unfold generated, real_tokens, num_real. simpl.
      rewrite Es1, Es2, Hov, Hneed, ?Ht1, ?Ht0, Htake.
      rewrite drop_app_le by (rewrite length_take; lia).
      apply counts_add.
      * rewrite Es3 in Hneed. specialize (Hcnt Hneed). unfold generated, real_tokens, num_real in Hcnt.
        by rewrite Hov in Hcnt.
      * rewrite length_drop, length_take. lia.
  - repeat split; simpl; try done; try congruence. by rewrite length_insert, Ht1, Ht0.
  - unfold tokens. simpl. by rewrite Ht1, Ht0, Htake.
  - unfold real_tokens, num_real. simpl. by rewrite Es1, Hov, Ht1, Ht0, Htake.
  - unfold stage in *. simpl. rewrite Hv1, Hv0, Es2.
    destruct (kv_cache_tokens_num_ (kv_state_ s) <? _) eqn:E; [by destruct (0 <? _)|].
    apply Z.ltb_ge in E. destruct (_ <? _) eqn:E2; [|done]. apply Z.ltb_lt in E2. lia.
Qed.

(** *** Stepping with overlap *)

(** A placeholder, a token with a negative id, takes a slot and no more. *)
Lemma append_placeholder_ok s tok :
  seq_ok s → can_append s → int32_token tok → token_id tok < 0 →
  enable_schedule_overlap (sequence_params_ s) = true →
  wp (append_token tok)
     (λ _ s', seq_ok s' ∧ same_seq s s' ∧ real_tokens s' = real_tokens s ∧
        token_to_count_map_ (toks s') = token_to_count_map_ (toks s) ∧
        cur_generated_token_idx_ (toks s') = cur_generated_token_idx_ (toks s) ∧
        num_tokens_ (toks s') = S (num_tokens_ (toks s)) ∧
        kv_cache_tokens_num_ (kv_state_ s') = Z.of_nat (num_tokens_ (toks s)) ∧
        stage s' = DECODE) s.
Proof.
  intros [Hp Hr Hc Hlp Hcnt] [Hroom Hfin Hrec Hst Hkv] Htok Hneg Hov. unfold int32_token in Htok.
  unfold append_token. wp_steps. apply wp_check; [by apply Nat.ltb_lt|].
  apply wp_bind, wp_check; [by rewrite Hfin|]. rewrite Hrec.
  apply wp_bind, wp_check.
  { apply andb_true_iff. split; [apply Z.ltb_lt; lia|]. unfold is_chunked_prefill_stage. by rewrite Hst. }
  rewrite Hov. unfold seq_modify. wp_steps.
  pose proof (record_first_token_same tok s) as (Ht1 & Hf1 & Hk1 & Hl1 & Hv1 & Hs1).
  set (s1 := record_first_token tok s) in *. destruct Hs1 as (Es1 & Es2 & Es3 & Es4 & Es5 & Es6 & Es7 & Es8).
  rewrite Nat.add_1_r, i32_id by done.
  apply write_token_ok; [simpl; by rewrite Ht1|]. simpl.
  assert (token_id tok <? 0 = true) as -> by (by apply Z.ltb_lt). wp_steps.
  unfold num_real in *. rewrite Hov in *.
  assert (take (cur_generated_token_idx_ (toks s)) (<[num_tokens_ (toks s):=token_id tok]> (tokens_ (toks s))) =
          take (cur_generated_token_idx_ (toks s)) (tokens_ (toks s))) as Htake
    by (apply take_insert_ge; lia).
  split; [|split; [|split; [|split; [by simpl; rewrite Ht1|split; [by simpl; rewrite Ht1|split; [done|split; [done|]]]]]]].
  - constructor; unfold num_real; simpl; rewrite ?Es1, ?Es2, ?Hov, ?length_insert, ?Ht1, ?Hl1; try done; try lia.
    intros Hneed. simpl in Hneed. unfold generated, real_tokens, num_real. simpl.
    rewrite Es1, Es2, Hov, ?Ht1, Htake. rewrite Es3 in Hneed. specialize (Hcnt Hneed).
    unfold generated, real_tokens, num_real in Hcnt. by rewrite Hov in Hcnt.
  - repeat split; simpl; try done; try congruence. by rewrite length_insert, Ht1.
  - unfold real_tokens, num_real. simpl. by rewrite Es1, Hov, Ht1, Htake.
  - unfold stage in *. simpl. rewrite Hv1, Es2.
    destruct (kv_cache_tokens_num_ (kv_state_ s) <? _) eqn:E; [by destruct (0 <? _)|].
    apply Z.ltb_ge in E. destruct (_ <? _) eqn:E2; [|done]. apply Z.ltb_lt in E2. lia.
Qed.

(** The result of the last step fills in the first placeholder. *)
Lemma update_last_step_token_ok s tok :
  seq_ok s → int32_token tok → enable_schedule_overlap (sequence_params_ s) = true →
  (cur_generated_token_idx_ (toks s) < num_tokens_ (toks s))%nat →
  wp (update_last_step_token tok 0)
     (λ _ s', seq_ok s' ∧ same_seq s s' ∧ real_tokens s' = real_tokens s ++ [token_id tok] ∧
        num_tokens_ (toks s') = num_tokens_ (toks s) ∧
        cur_generated_token_idx_ (toks s') = S (cur_generated_token_idx_ (toks s)) ∧
        kv_state_ s' = kv_state_ s ∧ stage s' = stage s ∧
        finish_status_invalidated_ (fin s') = true) s.
Proof.
  intros [Hp Hr Hc Hlp Hcnt] Htok Hov Hcur. unfold int32_token in Htok.
  unfold update_last_step_token. wp_steps. apply wp_check; [done|].
  unfold seq_modify. wp_steps. simpl negb. set (s0 := set_first _ s).
  assert (same_seq s s0 ∧ toks s0 = toks s ∧ fin s0 = fin s ∧ kv_state_ s0 = kv_state_ s ∧
    logprob_state_ s0 = logprob_state_ s ∧ volatile_num_prompt_tokens_ s0 = volatile_num_prompt_tokens_ s)
    as (Hs0 & Ht0 & Hf0 & Hk0 & Hl0 & Hv0) by done.
  pose proof (record_first_token_same tok s0) as (Ht1 & Hf1 & Hk1 & Hl1 & Hv1 & Hs1).
  set (s1 := record_first_token tok s0) in *.
  assert (same_seq s s1) as (Es1 & Es2 & Es3 & Es4 & Es5 & Es6 & Es7 & Es8) by (by etrans).
  rewrite i32_id by done. apply wp_ret. cbn [negb]. wp_steps.
  apply write_token_ok; [unfold num_real in *; rewrite Hov in *; rewrite Ht1, Ht0; lia|]. simpl. wp_steps. rewrite count_if_needed_toks. simpl.
  eapply wp_mono; [apply record_logprob_ok; simpl; rewrite Hl1, Hl0, Hlp; lia|].
  intros _ s2 [Hs2 Hlen2]. wp_steps. simpl in Hlen2.
  rewrite Hs2. unfold num_real in *. rewrite Hov in *. rewrite Nat.add_1_r.
  set (cur := cur_generated_token_idx_ (toks s)) in *.
  assert (take (S cur) (<[cur:=token_id tok]> (tokens_ (toks s))) =
          take cur (tokens_ (toks s)) ++ [token_id tok]) as Htake.
  { erewrite take_S_r; [|apply list_lookup_insert_eq; lia]. f_equal. by apply take_insert_ge. }
  split; [|split; [|split; [|split; [|split; [done|split; [|split; [|done]]]]]]].
  - constructor; unfold num_real; simpl; rewrite ?Es1, ?Es2, ?Hov, ?length_insert, ?Ht1, ?Ht0; try done; try lia.
    + by rewrite Hlen2, Hl1, Hl0.
    + intros Hneed. simpl in Hneed. unfold generated, real_tokens, num_real. simpl.
      rewrite Es1, Es2, Hov, Hneed, ?Ht1, ?Ht0, Htake.
      rewrite drop_app_le by (rewrite length_take; lia).
      apply counts_add.
      * rewrite Es3 in Hneed. specialize (Hcnt Hneed). unfold generated, real_tokens, num_real in Hcnt.
        by rewrite Hov in Hcnt.
      * rewrite length_drop, length_take. lia.
  - repeat split; simpl; try done; try congruence. by rewrite length_insert, Ht1, Ht0.
  - unfold real_tokens, num_real. simpl. by rewrite Es1, Hov, Ht1, Ht0, Htake.
  - simpl. by rewrite Ht1, Ht0.
  - simpl. by rewrite Hk1, Hk0.
  - unfold stage in *. simpl. by rewrite Hv1, Hv0, Es2, Hk1, Hk0.
Qed.

(** *** A trace of steps

    With overlap the engine interleaves placeholders and results; each result is
    of an earlier placeholder. *)
Inductive overlap_step : Type := Placeholder (tok : Token F) | Result (tok : Token F).

Definition run_step (o : overlap_step) : prog (Sequence T F) unit :=
  match o with Placeholder tok => append_token tok | Result tok => update_last_step_token tok 0 end.

(** [steps_ok k n os]: with [k] placeholders outstanding and room for [n] more *)
Fixpoint steps_ok (k n : nat) (os : list overlap_step) : Prop :=
  match os with
  | [] => True
  | Placeholder tok :: os =>
      match n with
      | O => False
      | S n => - 2 ^ 31 ≤ token_id tok < 0 ∧ steps_ok (S k) n os
      end
  | Result tok :: os =>
      match k with O => False | S k => int32_token tok ∧ steps_ok k n os end
  end.
Definition results (os : list overlap_step) : list Z :=
  omap (λ o, match o with Result tok => Some (token_id tok) | _ => None end) os.

Record sync_inv n s : Prop := {
  si_ok : seq_ok s;
  si_mode : enable_schedule_overlap (sequence_params_ s) = false;
  si_rec : is_onerec (sequence_params_ s) = false;
  si_fin : finished_ (fin s) = false;
  si_stage : stage s = DECODE;
  si_kv : 0 < kv_cache_tokens_num_ (kv_state_ s) ≤ Z.of_nat (num_tokens_ (toks s));
  si_room : length (tokens_ (toks s)) = (num_tokens_ (toks s) + n)%nat;
}.
Record overlap_inv k n s : Prop := {
  oi_ok : seq_ok s;
  oi_mode : enable_schedule_overlap (sequence_params_ s) = true;
  oi_rec : is_onerec (sequence_params_ s) = false;
  oi_fin : finished_ (fin s) = false;
  oi_stage : stage s = DECODE;
  oi_kv : 0 < kv_cache_tokens_num_ (kv_state_ s) ≤ Z.of_nat (num_tokens_ (toks s));
  oi_out : num_tokens_ (toks s) = (cur_generated_token_idx_ (toks s) + k)%nat;
  oi_room : length (tokens_ (toks s)) = (num_tokens_ (toks s) + n)%nat;
}.

Lemma sync_run_ok (l : list (Token F)) s :
  sync_inv (length l) s → Forall int32_token l →
  wp (for_each l append_token)
     (λ _ s', sync_inv 0 s' ∧ same_seq s s' ∧ tokens s' = tokens s ++ (token_id <$> l) ∧
        real_tokens s' = real_tokens s ++ (token_id <$> l)) s.
Proof.
  revert s. induction l as [|tok l IH]; intros s Hi Hl.
  { apply wp_ret. by rewrite fmap_nil, !app_nil_r. }
  inversion Hl as [|? ? Htok Hl']; subst. destruct Hi as [Hok0 ? ? ? ? ? Hroom]. simpl in Hroom.
  cbn [for_each]. eapply wp_seq; [apply append_token_ok; try done; by constructor; try done; lia|].
  intros [] s1 (Hok & Hs & Ht & Hr & Hn & Hk & Hst & _). pose proof Hs as (E1 & _ & _ & _ & _ & _ & E7 & E8).
  eapply wp_mono; [apply IH; [constructor; try congruence; try lia|done]|].
  intros [] s2 (Hi2 & Hs2 & Ht2 & Hr2). split; [done|]. split; [by etrans|].
  rewrite Ht2, Hr2, Ht, Hr, fmap_cons, <-!app_assoc. done.
Qed.

Lemma overlap_run_ok os k n s :
  overlap_inv k n s → steps_ok k n os →
  wp (for_each os run_step)
     (λ _ s', seq_ok s' ∧ same_seq s s' ∧ real_tokens s' = real_tokens s ++ results os) s.
Proof.
  revert k n s. induction os as [|[tok|tok] os IH]; intros k n s Hi Hos; cbn [for_each].
  { apply wp_ret. rewrite app_nil_r. split; [apply Hi|done]. }
  - destruct n as [|n]; [done|]. destruct Hos as [Htok Hos]. destruct Hi as [Hok ? ? ? ? ? Hk Hroom].
    eapply wp_seq; [apply append_placeholder_ok; try done; [by constructor; try done; lia|unfold int32_token; lia|lia]|].
    intros [] s1 (Hok1 & Hs & Hr & _ & Hc & Hn & Hkv & Hst). pose proof Hs as (E1 & _ & _ & _ & _ & _ & E7 & E8).
    eapply wp_mono; [eapply (IH (S k) n); [constructor; try congruence; try lia|done]|].
    intros [] s2 (Hi2 & Hs2 & Hr2). split; [done|]. split; [by etrans|]. by rewrite Hr2, Hr.
  - destruct k as [|k]; [done|]. destruct Hos as [Htok Hos]. destruct Hi as [Hok ? ? ? ? ? Hk Hroom].
    eapply wp_seq; [apply update_last_step_token_ok; try done; lia|].
    intros [] s1 (Hok1 & Hs & Hr & Hn & Hc & Hkv & Hst & _). pose proof Hs as (E1 & _ & _ & _ & _ & _ & E7 & E8).
    eapply wp_mono; [eapply (IH k n); [constructor; try congruence; try lia|done]|].
    intros [] s2 (Hi2 & Hs2 & Hr2). split; [done|]. split; [by etrans|].
    rewrite Hr2, Hr, <-app_assoc. done.
Qed.

(** The counts of the penalties follow the real tokens. *)
Lemma counts_agree s1 s2 :
  seq_ok s1 → seq_ok s2 → real_tokens s1 = real_tokens s2 →
  num_prompt_tokens_ s1 = num_prompt_tokens_ s2 →
  need_unique_tokens_ s1 = true → need_unique_tokens_ s2 = true →
  ∀ x, default 0 (token_to_count_map_ (toks s1) !! x) = default 0 (token_to_count_map_ (toks s2) !! x).
Proof.
  intros H1 H2 Hr Hp Hn1 Hn2 x. rewrite (so_counts _ H1 Hn1), (so_counts _ H2 Hn2).
  unfold generated. by rewrite Hr, Hp.
Qed.

(** ** Properties *)

(** C28: decoding with schedule overlap gives what decoding without it gives.  From
    two sequences that hold the same tokens and want penalties, appending the sampled
    tokens one at a time, and any interleaving of placeholders and their results that
    delivers the same tokens, both run without a failed check and end with the same
    real tokens and the same penalty counts. *)
Theorem overlap_equivalent s1 s2 (l : list (Token F)) os k n
    (Hi1 : sync_inv (length l) s1) (Hi2 : overlap_inv k n s2)
    (Hl : Forall int32_token l) (Hos : steps_ok k n os)
    (Hres : results os = token_id <$> l)
    (Hreal : real_tokens s1 = real_tokens s2)
    (Hprompt : num_prompt_tokens_ s1 = num_prompt_tokens_ s2)
    (Hneed : need_unique_tokens_ s1 = true ∧ need_unique_tokens_ s2 = true) :
  wp (for_each l append_token)
     (λ _ s1', wp (for_each os run_step)
        (λ _ s2', real_tokens s1' = real_tokens s2' ∧
           ∀ x, default 0 (token_to_count_map_ (toks s1') !! x) =
                default 0 (token_to_count_map_ (toks s2') !! x)) s2) s1.
Proof.
  eapply wp_mono; [by apply sync_run_ok|]. intros [] s1' (Hok1 & Hs1 & _ & Hr1).
  eapply wp_mono; [by eapply overlap_run_ok|]. intros [] s2' (Hok2 & Hs2 & Hr2).
  assert (real_tokens s1' = real_tokens s2') as Hr by (rewrite Hr1, Hr2, Hres; congruence).
  split; [done|]. destruct Hneed. destruct Hs1 as (_ & E2 & E3 & _), Hs2 as (_ & E2' & E3' & _).
  apply counts_agree; try done; try congruence. apply Hok1.
Qed.

(** [append_token] without overlap adds exactly the token to the sequence, counts the
    earlier tokens as cached, keeps the penalty counts equal to the occurrences among the
    generated tokens and asks for a new stopping check; on a full buffer, on a finished
    sequence and on one still in prefill it ends the process before it changes anything. *)
Theorem append_token_guarded s tok :
  seq_ok s → int32_token tok → enable_schedule_overlap (sequence_params_ s) = false →
  is_onerec (sequence_params_ s) = false → kv_cache_tokens_num_ (kv_state_ s) ≤ Z.of_nat (num_tokens_ (toks s)) →
  let full := (length (tokens_ (toks s)) <= num_tokens_ (toks s))%nat in
  let prefill := kv_cache_tokens_num_ (kv_state_ s) ≤ 0 ∨ stage s = CHUNKED_PREFILL in
  (full → append_token tok s = Fatal "exceed the token capacity of the sequence") ∧
  (¬ full → finished_ (fin s) = true →
     append_token tok s = Fatal "cannot append token to a finished sequence") ∧
  (¬ full → finished_ (fin s) = false → prefill →
     append_token tok s = Fatal "cannot append token to a prefill sequence") ∧
  (¬ full → finished_ (fin s) = false → ¬ prefill →
     wp (append_token tok)
        (λ _ s', seq_ok s' ∧ tokens s' = tokens s ++ [token_id tok] ∧
           kv_cache_tokens_num_ (kv_state_ s') = Z.of_nat (num_tokens_ (toks s)) ∧
           stage s' = DECODE ∧ finish_status_invalidated_ (fin s') = true) s).
Proof.
  intros Hok Htok Hov Hrec Hkv full prefill.
  assert (full ↔ (num_tokens_ (toks s) <? length (tokens_ (toks s)))%nat = false) as Hfull
    by (rewrite Nat.ltb_ge; done).
  assert (prefill ↔ (0 <? kv_cache_tokens_num_ (kv_state_ s)) && negb (is_chunked_prefill_stage s) = false)
    as Hpre.
  { unfold prefill, is_chunked_prefill_stage. rewrite andb_false_iff, Z.ltb_ge.
    destruct (stage s); naive_solver. }
  unfold append_token, check, mbind, prog_bind, get. rewrite Hrec.
  split; [|split; [|split]].
  - intros E%Hfull. by rewrite E.
  - intros E1 E2. rewrite Hfull, not_false_iff_true in E1. by rewrite E1, E2.
  - intros E1 E2 E3%Hpre. rewrite Hfull, not_false_iff_true in E1. by rewrite E1, E2, E3.
  - intros E1 E2 E3. eapply wp_mono; [apply (append_token_ok s tok); try done|].
    + assert (0 < kv_cache_tokens_num_ (kv_state_ s) ∧ stage s ≠ CHUNKED_PREFILL) as [Hpos Hst].
      { unfold prefill in E3. split; [|tauto]. apply Z.nle_gt. tauto. }
      constructor; try done; [unfold full in E1; lia|].
      unfold stage in *. destruct (_ <? Z.of_nat _) eqn:E; [|done].
      destruct (0 <? _) eqn:E'; [done|]. apply Z.ltb_ge in E'. lia.
    + intros [] s' (? & _ & ? & _ & _ & ? & ? & ?). done.
Qed.

(** [finished()] on a running sequence of real tokens answers what the stopping rules
    say, and caches it: asked again before another token arrives it gives the same answer
    and changes nothing. *)
Theorem finished_is_cached s l n :
  tokens s = l ++ [n] → 0 ≤ n → tokens_ok (l ++ [n]) →
  is_onerec (sequence_params_ s) = false → is_embeddings (sampling_param (sequence_params_ s)) = false →
  finish_status_invalidated_ (fin s) = true → finished_ (fin s) = false →
  (num_prompt_tokens_ s ≤ length (l ++ [n]))%nat → Z.of_nat (length (l ++ [n])) < 2 ^ 63 →
  let c := stopping_checker (sequence_params_ s) in
  - 2 ^ 31 ≤ eos_token_ c < 2 ^ 31 → Forall (λ x, x ≠ [] ∧ tokens_ok x) (stop_sequences_ c) →
  let r := stops c (l ++ [n]) (Z.of_nat (num_prompt_tokens_ s)) n (ends_in_stop c (l ++ [n])) in
  wp finished
     (λ b s1, b = bool_decide (r ≠ NONE) ∧ finished_ (fin s1) = b ∧
        (b = true → finish_reason_ (fin s1) = r) ∧ toks s1 = toks s ∧
        finished s1 = Done b s1) s.
Proof.
  intros Htok Hn Hok Hrec Hemb Hinv Hfin Hp Hlen c He Hs r. unfold finished at 1, seq_modify. wp_steps.
  rewrite Hinv, Hrec, Hemb. cbn [negb andb]. wp_steps.
  pose proof (check_stop_ok c l n [] (Z.of_nat (num_prompt_tokens_ s)) (set_invalidated false s)
    Hok Hn (Forall_nil_2 _) ltac:(lia) Hlen He Hs) as Hc. rewrite stop_sequence_hit in Hc
    by (done || (eapply Forall_impl; [exact Hs|]; by intros ? [? _])).
  rewrite app_nil_r in Hc. rewrite (bool_decide_true ([] = [])) in Hc by done. simpl in Hc. fold r in Hc.
  assert (wp (check_stop c (tokens s) (Z.of_nat (num_prompt_tokens_ s)))
    (λ r' s', r' = r ∧ s' = set_invalidated false s) (set_invalidated false s)) as Hwp
    by (unfold wp; by rewrite Htok, Hc).
  eapply wp_mono; [exact Hwp|]. intros r' s' [-> ->]. clearbody r.
  destruct (decide (r = NONE)) as [->|Hr].
  - apply wp_ret. rewrite bool_decide_false by naive_solver. simpl. rewrite Hfin.
    split; [done|]. split; [done|]. split; [done|]. split; [done|].
    unfold finished, mbind, prog_bind, get. simpl. by rewrite Hfin.
  - wp_steps. rewrite bool_decide_true by done. done.
Qed.
End verified.

(** Two sequences with a prompt of two tokens, about to decode: one with, one without
    schedule overlap; the request asks for a frequency penalty. *)
Definition sample_params (overlap : bool) : SequenceParams Z :=
  mkSequenceParams 4 false overlap false false (mkSamplingParam 2 0 1 true 0 false 1)
    (mkStoppingChecker 10 0 99 false ∅ []).
Definition sample_decoder : IncrementalDecoder := IncrementalDecoder_new [] 2 false true.
Definition sample_sequence (overlap : bool) : Sequence unit Z :=
  match @Sequence_new unit Z sample_floats unit 0 [5; 7] sample_decoder (sample_params overlap) () with
  | Done s _ => set_kv (set_tokens 2 (kv_state_ s)) s
  | _ => Sequence_copy (mkSequence 0 (sample_params overlap) 0 0 false (mkSeqTokens [] 0 ∅ 0)
           (mkSeqFinish false true NONE) (mkSeqFlags false false false false false None)
           KVCacheState_new KVCacheState_new (@LogprobState_new Z sample_floats 0 0) sample_decoder Block_default 0)
  end.
Lemma sample_sequence_ok overlap : @seq_ok unit Z (sample_sequence overlap).
Proof.
  pose proof (@Sequence_new_ok unit Z sample_floats unit 0 [5; 7] sample_decoder (sample_params overlap) ()
    ltac:(done) ltac:(simpl; lia) ltac:(simpl; lia)) as Hwp.
  unfold sample_sequence. unfold wp in Hwp. destruct (Sequence_new _ _ _ _ _) as [s st| | |]; [|done..].
  destruct Hwp as (_ & [? ? ? ? ?] & _). by constructor.
Qed.
Lemma overlap_equivalent_witness :
  wp (for_each [mkToken 3 (Some 1) [] []; mkToken 4 (Some 2) [] []] (@append_token unit Z))
     (λ _ s1', wp (for_each [Placeholder (mkToken (-1) None [] []); Placeholder (mkToken (-1) None [] []);
                             Result (mkToken 3 (Some 1) [] []); Result (mkToken 4 (Some 2) [] [])]
                     (@run_step unit Z))
        (λ _ s2', real_tokens s1' = real_tokens s2') (sample_sequence true)) (sample_sequence false).
Proof.
  eapply wp_mono; [eapply (overlap_equivalent (sample_sequence false) (sample_sequence true) _
    [Placeholder (mkToken (-1) None [] []); Placeholder (mkToken (-1) None [] []);
     Result (mkToken 3 (Some 1) [] []); Result (mkToken 4 (Some 2) [] [])] 0 2)|].
  - constructor; [apply sample_sequence_ok|done..|split; by vm_compute|computed].
  - constructor; [apply sample_sequence_ok|done..|split; by vm_compute|computed|computed].
  - repeat constructor; simpl; lia.
  - simpl. unfold int32_token. simpl. lia.
  - done.
  - computed.
  - computed.
  - done.
  - intros [] s1' Hwp. eapply wp_mono; [exact Hwp|]. intros [] s2' [? _]. done.
Defined.

Lemma append_token_guarded_witness :
  wp (append_token (mkToken 3 (Some 1) [] [])) (λ _ s', tokens s' = [5; 7; 3]) (sample_sequence false).
Proof.
  eapply wp_mono.
  - apply (append_token_guarded (sample_sequence false) (mkToken 3 (Some 1) [] [])).
    + apply sample_sequence_ok.
    + unfold int32_token. simpl. lia.
    + done.
    + done.
    + vm_compute. by intros.
    + vm_compute. lia.
    + done.
    + vm_compute. intros [?|?]; [tauto|done].
  - intros [] s' (_ & Ht & _). exact Ht.
Defined.

Lemma finished_is_cached_witness :
  wp finished (λ b s1, b = false ∧ finished s1 = Done false s1) (sample_sequence false).
Proof.
  eapply wp_mono.
  - apply (finished_is_cached (sample_sequence false) [5] 7); try done; try (simpl; lia); try constructor; try lia.
    repeat constructor; lia.
  - intros b s1 (Hb & _ & _ & _ & Hf). assert (b = false) as -> by (rewrite Hb; computed). done.
Defined.
