(* ===== verification/Pool.v ===== *)
(** The block managers of all data-parallel ranks:
    [core/framework/block/block_manager_pool.h] and [block_manager_pool.cpp].

    The pool owns one block manager and one embedding manager per rank and moves
    blocks between them and the sequences.  The state of an operation is the pool
    with the sequence it works on; each manager keeps its own counters, which is the
    C++ heap cut into the parts of its owners (a sequence takes blocks of one rank
    only).  The managers are [BlockManagerImpl] or [ConcurrentBlockManagerImpl]; a pool
    of XTensor managers is not built here, their operations are in the file
    [XTensorBlocks].  The host blocks of a sequence belong to the hierarchical pool,
    which is not modelled: here they are empty. *)

From stdpp Require Import base gmap list strings sets.
From Stdlib Require Import ZArith Lia.
From S2P Require Import Prelude HashKey Blocks DList PrefixCache KvEvents BlockManager.
From S2P Require Import KVState EmbeddingManager Stopping IncrementalDecoder LogprobState.
From S2P Require Import Sequence.
Open Scope Z_scope.

(** [BlockManagerPool::Options], what a pool without XTensor reads *)
Record PoolOptions := mkPoolOptions {
  p_num_blocks : Z;
  p_host_num_blocks : Z;
  p_block_size : Z;
  p_enable_prefix_cache : bool;
  p_enable_disagg_pd : bool;
  p_enable_cache_upload : bool;
  p_enable_kvcache_store : bool;
}.

Record Pool := mkPool {
  pool_options : PoolOptions;
  block_managers_ : list BM;
  embedding_managers_ : list (World EmbCore);
  swap_block_transfer_infos_ : list (list (Z * Z));
}.
Definition set_managers (l : list BM) (p : Pool) : Pool :=
  mkPool (pool_options p) l (embedding_managers_ p) (swap_block_transfer_infos_ p).
Definition set_embeddings (l : list (World EmbCore)) (p : Pool) : Pool :=
  mkPool (pool_options p) (block_managers_ p) l (swap_block_transfer_infos_ p).
Definition set_swaps (l : list (list (Z * Z))) (p : Pool) : Pool :=
  mkPool (pool_options p) (block_managers_ p) (embedding_managers_ p) l.

(** The options of the managers *)
Definition manager_options (o : PoolOptions) : Options :=
  mkOptions (p_num_blocks o) (p_block_size o) (p_enable_prefix_cache o) (p_enable_disagg_pd o)
    (if 0 <? p_host_num_blocks o then false else p_enable_cache_upload o).

Section pool.
Context {T : Type} `{HashFns} `{FloatOps F}.
Abbreviation PS := (Pool * Sequence T F)%type.

(** [dp_size] managers of each kind; [max_seqs] is [FLAGS_max_seqs_per_batch]. *)
Definition BlockManagerPool_new (o : PoolOptions) (dp_size max_seqs : Z) : prog unit Pool :=
  check (0 <? dp_size) "dp_size must be greater than 0" ≫= λ _,
  repeat_each (Z.to_nat dp_size)
    (λ u, match BlockManagerImpl_new (manager_options o)
                  (mkBM None None (mkWorld ∅ 0 (mkCore (manager_options o) 0 0 [])) Block_default) with
          | Done _ bm => Done bm u
          | Throws e _ => Throws e u
          | Fatal e => Fatal e
          | Undef e => Undef e
          end) ≫= λ bms,
  mret (mkPool o bms (replicate (Z.to_nat dp_size) (EmbeddingManager_new (u32 (max_seqs + 2))))
          (replicate (Z.to_nat dp_size) [])).

(** ** Access to the managers and the sequence *)

Definition seq_get : prog PS (Sequence T F) := gets snd.
Definition on_seq {A} (m : prog (Sequence T F) A) : prog PS A := zoom snd (λ q s, (s.1, q)) m.
Definition seq_set (f : Sequence T F → Sequence T F) : prog PS unit := modify (λ s, (s.1, f s.2)).
(** [block_managers_[dp_rank]->...] *)
Definition on_bm {A} (r : Z) (m : prog BM A) : prog PS A := λ s,
  match block_managers_ s.1 !! Z.to_nat r with
  | Some bm =>
      if 0 <=? r then
        zoom (λ _, bm) (λ bm' s, (set_managers (<[Z.to_nat r := bm']> (block_managers_ s.1)) s.1, s.2)) m s
      else Undef "vector index"
  | None => Undef "vector index"
  end.
(** [embedding_managers_[dp_rank]->...] *)
Definition on_emb {A} (r : Z) (m : prog (World EmbCore) A) : prog PS A := λ s,
  match embedding_managers_ s.1 !! Z.to_nat r with
  | Some w =>
      if 0 <=? r then
        zoom (λ _, w) (λ w' s, (set_embeddings (<[Z.to_nat r := w']> (embedding_managers_ s.1)) s.1, s.2)) m s
      else Undef "vector index"
  | None => Undef "vector index"
  end.
(** [sequence->kv_state()....], whose blocks are of the manager [r] *)
Definition on_kv {A} (r : Z) (m : prog (KVCacheState T * World Core) A) : prog PS A :=
  seq_get ≫= λ q,
  on_bm r (λ bm, zoom (λ bm, (kv_state_ q, world_ bm)) (λ kw bm, set_world kw.2 bm)
                   (m ≫= λ a, gets fst ≫= λ k, mret (a, k)) bm) ≫= λ ak : A * KVCacheState T,
  seq_set (set_kv ak.2) ≫= λ _, mret ak.1.

Definition set_host_kv (k : KVCacheState T) (q : Sequence T F) : Sequence T F :=
  mkSequence (index_ q) (sequence_params_ q) (num_prompt_tokens_ q) (volatile_num_prompt_tokens_ q)
    (need_unique_tokens_ q) (toks q) (fin q) (flags q) (kv_state_ q) k
    (logprob_state_ q) (decoder_ q) (embedding_block_ q) (dp_rank_ q).
(** the same for [sequence->host_kv_state()], which holds no blocks here *)
Definition on_host_kv {A} (r : Z) (m : prog (KVCacheState T * World Core) A) : prog PS A :=
  seq_get ≫= λ q,
  on_bm r (λ bm, zoom (λ bm, (host_kv_state_ q, world_ bm)) (λ kw bm, set_world kw.2 bm)
                   (m ≫= λ a, gets fst ≫= λ k, mret (a, k)) bm) ≫= λ ak : A * KVCacheState T,
  seq_set (set_host_kv ak.2) ≫= λ _, mret ak.1.

(** ** Sequence operations that release blocks *)

(** [Sequence::reset()] *)
Definition seq_reset (r : Z) : prog PS unit :=
  on_kv r KVState.reset ≫= λ _,
  on_host_kv r KVState.reset ≫= λ _,
  seq_set (λ q, set_volatile (num_tokens_ (toks q)) q).
(** [Sequence::add_shared_kv_blocks(std::move(blocks))] and the end of the caller's
    vector *)
Definition seq_add_shared (r : Z) (blocks : list Block) : prog PS unit :=
  seq_get ≫= λ q,
  on_kv r (add_shared_kv_blocks blocks (Z.of_nat (num_tokens_ (toks q)))) ≫= λ left,
  on_bm r (on_blocks (destroy_all left)).
(** A local [std::vector<Block>] goes out of scope. *)
Definition drop_local (r : Z) (blocks : list Block) : prog PS unit :=
  on_bm r (on_blocks (destroy_all blocks)).

(** ** The pool *)

(** [get_manager_with_max_free_blocks()] *)
Fixpoint max_free_loop (l : list BM) (i : nat) (max_index : nat) (max_free : Z) : nat :=
  match l with
  | [] => max_index
  | bm :: l =>
      let current_free := num_free_blocks_ (core bm) in
      if max_free <? current_free then max_free_loop l (S i) i current_free
      else max_free_loop l (S i) max_index max_free
  end.
Definition get_manager_with_max_free_blocks (p : Pool) : Z :=
  match block_managers_ p with
  | [] => 0
  | bm :: l => i32 (Z.of_nat (max_free_loop l 1 0 (num_free_blocks_ (core bm))))
  end.

(** [get_dp_rank(sequence)] *)
Definition get_dp_rank : prog PS Z :=
  get ≫= λ s,
  if 0 <=? dp_rank_ s.2 then mret (dp_rank_ s.2)
  else
    let dp_rank := get_manager_with_max_free_blocks s.1 in
    seq_set (set_dp_rank dp_rank) ≫= λ _, mret dp_rank.

Definition check_rank (dp_rank : Z) : prog PS unit :=
  get ≫= λ s,
  check (0 <=? dp_rank) "dp_rank >= 0" ≫= λ _,
  check (dp_rank <? Z.of_nat (length (embedding_managers_ s.1))) "dp_rank < embedding_managers_.size()".

(** [allocate_embedding_id(sequence, dp_rank)] *)
Definition allocate_embedding_id (dp_rank : Z) : prog PS bool :=
  check_rank dp_rank ≫= λ _,
  seq_get ≫= λ q,
  if has_embedding_id q then mret true
  else
    on_emb dp_rank (emb_allocate 1) ≫= λ embedding_blocks,
    match embedding_blocks with
    | [] => mret false
    | b :: rest =>
        on_emb dp_rank (Block_move_assign false (embedding_block_ q) b) ≫= λ r : Block * Block,
        seq_set (set_embedding_block r.1) ≫= λ _,
        on_emb dp_rank (destroy_all (r.2 :: rest)) ≫= λ _, mret true
    end.

(** [deallocate_embedding_id(sequence, dp_rank)] *)
Definition deallocate_embedding_id (dp_rank : Z) : prog PS unit :=
  check_rank dp_rank ≫= λ _,
  seq_get ≫= λ q,
  let b := embedding_block_ q in
  seq_set (set_embedding_block (Block_moved b)) ≫= λ _,
  (if is_valid b then on_emb dp_rank (emb_deallocate [b]) else mret ()) ≫= λ _,
  on_emb dp_rank (Block_destroy b).

(** [cache(sequence)] *)
Definition pool_cache (now : Z) : prog PS unit :=
  get_dp_rank ≫= λ dp_rank,
  seq_get ≫= λ q,
  cached_tokens q ≫= λ token_ids,
  on_bm dp_rank (cache token_ids (blocks_ (kv_state_ q))
    (Z.to_nat (shared_kv_blocks_num (kv_state_ q))) now) ≫= λ blocks,
  seq_set (λ q, set_kv (set_blocks blocks (kv_state_ q)) q).

(** [deallocate(sequence)] *)
Definition pool_deallocate (now : Z) : prog PS unit :=
  get_dp_rank ≫= λ dp_rank,
  pool_cache now ≫= λ _,
  seq_get ≫= λ q,
  on_bm dp_rank (deallocate (blocks_ (kv_state_ q))) ≫= λ _,
  deallocate_embedding_id dp_rank ≫= λ _,
  seq_reset dp_rank.

(** [deallocate_without_cache(sequence)] *)
Definition deallocate_without_cache : prog PS unit :=
  get_dp_rank ≫= λ dp_rank,
  seq_get ≫= λ q,
  on_bm dp_rank (deallocate (blocks_ (kv_state_ q))) ≫= λ _,
  deallocate_embedding_id dp_rank ≫= λ _,
  seq_reset dp_rank.

(** The virtual call [allocate_shared] of the manager in use *)
Definition manager_allocate_shared (o : PoolOptions) (tokens_ids : list Z) (existed : list Block)
    : prog BM (list Block) :=
  if p_enable_disagg_pd o || p_enable_kvcache_store o
  then concurrent_allocate_shared tokens_ids existed
  else allocate_shared tokens_ids existed.

(** [allocate_shared(sequence)] *)
Definition pool_allocate_shared : prog PS unit :=
  get ≫= λ s,
  if p_enable_prefix_cache (pool_options s.1) then
    get_dp_rank ≫= λ dp_rank,
    seq_get ≫= λ q,
    slice (blocks_ (kv_state_ q)) 0 (Z.to_nat (shared_kv_blocks_num (kv_state_ q))) ≫= λ existed,
    on_bm dp_rank (manager_allocate_shared (pool_options s.1) (tokens q) existed) ≫= λ shared_blocks,
    seq_add_shared dp_rank shared_blocks
  else mret ().

(** [process_beam_search(sequence, need_swap)] *)
Definition pool_process_beam_search (need_swap : bool) : prog PS bool :=
  get ≫= λ s,
  if negb (check_beam_search s.2) then mret true
  else
    let src := src_blocks_ (kv_state_ s.2) in
    match last src with
    | None => mret true
    | Some back =>
        get_dp_rank ≫= λ dp_rank,
        if need_swap && need_swap_ (kv_state_ s.2) then
          on_bm dp_rank (allocate 1) ≫= λ new_blocks,
          match new_blocks with
          | [] => mret false
          | b :: _ =>
              at_ (swap_block_transfer_infos_ s.1) (Z.to_nat dp_rank) ≫= λ _,
              modify (λ s, (set_swaps (alter (λ l, l ++ [(id back, id b)]) (Z.to_nat dp_rank)
                                         (swap_block_transfer_infos_ s.1)) s.1, s.2)) ≫= λ _,
              on_kv dp_rank (KVState.process_beam_search (Some b)) ≫= λ _,
              drop_local dp_rank new_blocks ≫= λ _, mret true
          end
        else on_kv dp_rank (KVState.process_beam_search None) ≫= λ _, mret true
    end.

(** [ceil(num_tokens / block_size)] as the code computes it *)
Definition blocks_needed (p : Pool) (num_tokens : Z) : prog PS Z :=
  let block_size := u64 (p_block_size (pool_options p)) in
  if block_size =? 0 then undef "division by zero"
  else mret (u64 (num_tokens + block_size - 1) / block_size).

(** The end of [allocate(sequence, num_tokens)]: the blocks still missing *)
Definition pool_extend (dp_rank : Z) (started_empty needs_embedding_id : bool) (num_tokens : Z)
    : prog PS bool :=
  get ≫= λ s,
  let num_blocks := num_kv_blocks (kv_state_ s.2) in
  blocks_needed s.1 num_tokens ≫= λ num_blocks_needed,
  if num_blocks_needed <=? Z.of_nat num_blocks then pool_process_beam_search true
  else
    pool_process_beam_search false ≫= λ _,
    let num_additional_blocks := u32 (num_blocks_needed - Z.of_nat num_blocks) in
    on_bm dp_rank (allocate num_additional_blocks) ≫= λ blocks,
    if negb (Z.of_nat (length blocks) =? num_additional_blocks) then
      (if started_empty then
         seq_get ≫= λ q,
         on_bm dp_rank (deallocate (blocks_ (kv_state_ q))) ≫= λ _,
         (if needs_embedding_id then deallocate_embedding_id dp_rank else mret ()) ≫= λ _,
         seq_reset dp_rank
       else mret ()) ≫= λ _,
      drop_local dp_rank blocks ≫= λ _, mret false
    else
      on_kv dp_rank (add_kv_blocks blocks) ≫= λ _,
      drop_local dp_rank blocks ≫= λ _, mret true.

(** [allocate(sequence, num_tokens)] *)
Definition pool_allocate (num_tokens : Z) : prog PS bool :=
  get_dp_rank ≫= λ dp_rank,
  get ≫= λ s,
  let started_empty := (num_kv_blocks (kv_state_ s.2) =? 0)%nat in
  let needs_embedding_id := negb (has_embedding_id s.2) in
  (if needs_embedding_id then allocate_embedding_id dp_rank else mret true) ≫= λ ok : bool,
  if negb ok then mret false
  else
    (if started_empty then pool_allocate_shared else mret ()) ≫= λ _,
    pool_extend dp_rank started_empty needs_embedding_id num_tokens.

(** [allocate(sequence)] *)
Definition pool_allocate_all : prog PS bool :=
  seq_get ≫= λ q, pool_allocate (Z.of_nat (num_tokens_ (toks q))).

(** [allocate(size_t num_tokens, int32_t& dp_rank)]: the blocks and the rank *)
Definition pool_allocate_tokens (num_tokens : Z) : prog PS (list Block * Z) :=
  get ≫= λ s,
  let dp_rank := get_manager_with_max_free_blocks s.1 in
  blocks_needed s.1 num_tokens ≫= λ num_blocks_needed,
  on_bm dp_rank (allocate num_blocks_needed) ≫= λ bs, mret (bs, dp_rank).

(** [try_allocate(sequence)] *)
Definition pool_try_allocate : prog PS bool :=
  get_dp_rank ≫= λ dp_rank,
  get ≫= λ s,
  let needs_embedding_id := negb (has_embedding_id s.2) in
  (if needs_embedding_id then allocate_embedding_id dp_rank else mret true) ≫= λ ok : bool,
  if negb ok then mret false
  else
    (if p_enable_prefix_cache (pool_options s.1) then
       seq_get ≫= λ q,
       slice (blocks_ (kv_state_ q)) 0 (Z.to_nat (shared_kv_blocks_num (kv_state_ q))) ≫= λ existed,
       on_bm dp_rank (manager_allocate_shared (pool_options s.1) (tokens q) existed) ≫= λ shared_blocks,
       (if bool_decide (shared_blocks = []) then mret ()
        else
          on_kv dp_rank (add_kv_blocks shared_blocks) ≫= λ _,
          on_kv dp_rank (on_kv_state (incr_shared_kv_blocks_num (Z.of_nat (length shared_blocks))))) ≫= λ _,
       mret shared_blocks
     else mret []) ≫= λ shared_blocks,
    let shared_num := Z.of_nat (length shared_blocks) in
    seq_get ≫= λ q,
    let num_tokens := u64 (Z.of_nat (length (tokens q)) - shared_num * u64 (p_block_size (pool_options s.1))) in
    blocks_needed s.1 num_tokens ≫= λ num_blocks_needed,
    (if 0 <? num_blocks_needed then
       on_bm dp_rank (allocate num_blocks_needed) ≫= λ blocks,
       if negb (Z.of_nat (length blocks) =? num_blocks_needed) then
         (if negb (shared_num =? 0) then
            on_bm dp_rank (deallocate shared_blocks) ≫= λ _,
            seq_reset dp_rank
          else mret ()) ≫= λ _,
         (if needs_embedding_id then deallocate_embedding_id dp_rank else mret ()) ≫= λ _,
         drop_local dp_rank blocks ≫= λ _, mret false
       else
         on_kv dp_rank (add_kv_blocks blocks) ≫= λ _,
         drop_local dp_rank blocks ≫= λ _, mret true
     else mret true) ≫= λ ok : bool,
    (if ok then
       seq_get ≫= λ q,
       on_kv dp_rank (on_kv_state (incr_kv_cache_tokens_num (Z.of_nat (length (tokens q)))))
     else mret ()) ≫= λ _,
    drop_local dp_rank shared_blocks ≫= λ _, mret ok.

(** [get_merged_kvcache_event(event)]: over all the managers *)
Fixpoint pool_merge_events (n : nat) (i : nat) (event : KvCacheEvent) : prog PS KvCacheEvent :=
  match n with
  | O => mret event
  | S n => on_bm (Z.of_nat i) (get_merged_kvcache_event event) ≫= pool_merge_events n (S i)
  end.
Definition pool_get_merged_kvcache_event (event : KvCacheEvent) : prog PS KvCacheEvent :=
  get ≫= λ s, pool_merge_events (length (block_managers_ s.1)) 0 event.

(** [num_free_blocks()] and [num_used_blocks()] *)
Definition pool_num_free_blocks (p : Pool) : list Z :=
  (λ bm, num_free_blocks_ (core bm)) <$> block_managers_ p.
Definition pool_num_used_blocks (p : Pool) : list Z :=
  (λ bm, if prefix_enabled bm then num_used_blocks_ (core bm)
         else u64 (num_total_blocks (core bm) - num_free_blocks_ (core bm))) <$> block_managers_ p.
End pool.

(** [reset_transfer_infos()] *)
Definition reset_transfer_infos (p : Pool) : Pool :=
  set_swaps (replicate (length (block_managers_ p)) []) p.

(** ** Access lemmas *)

Lemma set_world_id (bm : BM) : set_world (world_ bm) bm = bm.
Proof. by destruct bm. Qed.

Definition at_rank (r : Z) (p : Pool) (bm : BM) (ew : World EmbCore) : Prop :=
  0 ≤ r ∧ block_managers_ p !! Z.to_nat r = Some bm ∧ embedding_managers_ p !! Z.to_nat r = Some ew.
(** Nothing but the managers of rank [r] changes. *)
Definition pool_frame (r : Z) (p p' : Pool) : Prop :=
  pool_options p' = pool_options p ∧
  swap_block_transfer_infos_ p' = swap_block_transfer_infos_ p ∧
  length (block_managers_ p') = length (block_managers_ p) ∧
  length (embedding_managers_ p') = length (embedding_managers_ p) ∧
  ∀ i, i ≠ Z.to_nat r → block_managers_ p' !! i = block_managers_ p !! i ∧
                        embedding_managers_ p' !! i = embedding_managers_ p !! i.
#[export] Instance pool_frame_preorder r : PreOrder (pool_frame r).
Proof.
  split; [by repeat split|]. intros p1 p2 p3 (?&?&?&?&Hx) (?&?&?&?&Hy).
  repeat split; try congruence; destruct (Hx i), (Hy i); try done; congruence.
Qed.

Section access.
Context {T : Type} `{HashFns} `{FloatOps F}.
Abbreviation PS := (Pool * Sequence T F)%type.
Implicit Types (p : Pool) (q : Sequence T F) (bm : BM) (ew : World EmbCore).

Lemma wp_on_bm {A} r (m : prog BM A) Q p q bm ew :
  at_rank r p bm ew →
  wp m (λ a bm', ∀ p', at_rank r p' bm' ew → pool_frame r p p' → Q a (p', q)) bm →
  wp (on_bm r m) Q (p, q).
Proof.
  intros (Hr & Hbm & Hew) Hm. unfold wp, on_bm in *. simpl. rewrite Hbm.
  destruct (0 <=? r) eqn:E; [|apply Z.leb_gt in E; lia]. unfold zoom. destruct (m bm); try done.
  apply Hm; [split; [done|split; [|done]]|split; [done|split; [done|split; [|split; [done|]]]]]; simpl.
  - apply list_lookup_insert_eq. by eapply lookup_lt_Some.
  - by rewrite length_insert.
  - intros i Hi. by rewrite list_lookup_insert_ne.
Qed.
Lemma wp_on_emb {A} r (m : prog (World EmbCore) A) Q p q bm ew :
  at_rank r p bm ew →
  wp m (λ a ew', ∀ p', at_rank r p' bm ew' → pool_frame r p p' → Q a (p', q)) ew →
  wp (on_emb r m) Q (p, q).
Proof.
  intros (Hr & Hbm & Hew) Hm. unfold wp, on_emb in *. simpl. rewrite Hew.
  destruct (0 <=? r) eqn:E; [|apply Z.leb_gt in E; lia]. unfold zoom. destruct (m ew); try done.
  apply Hm; [split; [done|split; [done|]]|split; [done|split; [done|split; [done|split]]]]; simpl.
  - apply list_lookup_insert_eq. by eapply lookup_lt_Some.
  - by rewrite length_insert.
  - intros i Hi. by rewrite list_lookup_insert_ne.
Qed.
Lemma wp_on_kv {A} r (m : prog (KVCacheState T * World Core) A) Q p q bm ew :
  at_rank r p bm ew →
  wp m (λ a kw, ∀ p', at_rank r p' (set_world kw.2 bm) ew → pool_frame r p p' →
                  Q a (p', set_kv kw.1 q)) (kv_state_ q, world_ bm) →
  wp (on_kv r m) Q (p, q).
Proof.
  intros Hr Hm. unfold on_kv, seq_get. wp_steps. simpl. eapply wp_on_bm; [done|].
  apply wp_zoom, wp_bind. eapply wp_mono; [exact Hm|]. intros a kw HQ. cbv beta in HQ. wp_steps. intros p' Hr' Hf.
  unfold seq_set. wp_steps. by apply HQ.
Qed.
Lemma wp_on_host_kv {A} r (m : prog (KVCacheState T * World Core) A) Q p q bm ew :
  at_rank r p bm ew →
  wp m (λ a kw, ∀ p', at_rank r p' (set_world kw.2 bm) ew → pool_frame r p p' →
                  Q a (p', set_host_kv kw.1 q)) (host_kv_state_ q, world_ bm) →
  wp (on_host_kv r m) Q (p, q).
Proof.
  intros Hr Hm. unfold on_host_kv, seq_get. wp_steps. simpl. eapply wp_on_bm; [done|].
  apply wp_zoom, wp_bind. eapply wp_mono; [exact Hm|]. intros a kw HQ. cbv beta in HQ. wp_steps. intros p' Hr' Hf.
  unfold seq_set. wp_steps. by apply HQ.
Qed.
Lemma wp_get_dp_rank r Q p q :
  dp_rank_ q = r → 0 ≤ r → Q r (p, q) → wp get_dp_rank Q (p, q).
Proof.
  intros <- Hr HQ. unfold get_dp_rank. wp_steps. simpl.
  destruct (0 <=? dp_rank_ q) eqn:E; [|apply Z.leb_gt in E; lia]. by wp_steps.
Qed.
Lemma wp_check_rank r Q p q bm ew : at_rank r p bm ew → Q () (p, q) → wp (check_rank r) Q (p, q).
Proof.
  intros (Hr & _ & Hew) HQ. unfold check_rank. wp_steps. apply wp_check; [by apply Z.leb_le|].
  apply wp_check; [|done]. apply Z.ltb_lt. apply lookup_lt_Some in Hew. simpl. lia.
Qed.
End access.

(** ** Releasing a sequence *)

Section release.
Context {T : Type} `{HashFns} `{FloatOps F}.
Abbreviation PS := (Pool * Sequence T F)%type.
Implicit Types (p : Pool) (q : Sequence T F) (bm : BM) (ew : World EmbCore).

(** The embedding block a sequence holds *)
Definition emb_of q : list Block :=
  if is_valid (embedding_block_ q) then [embedding_block_ q] else [].

(** The sequence [q] is on rank [r]; the other sequences of the rank hold [others]
    and [eothers]. *)
Record holds (r : Z) p q bm ew (others : list (list Block)) (eothers : list Block) : Prop := {
  hl_rank : at_rank r p bm ew;
  hl_dp : dp_rank_ q = r;
  hl_blocks : bm_ok bm (blocks_ (kv_state_ q) :: others);
  hl_emb : emb_ok ew (emb_of q ++ eothers);
  hl_clean : is_valid (embedding_block_ q) = false → ref_count_ (embedding_block_ q) = None;
  hl_host : blocks_ (host_kv_state_ q) = [];
  hl_src : src_blocks_ (kv_state_ q) = [];
}.

(** The state after a release: nothing held, everything else as before. *)
Definition released (r : Z) p q bm ew (others : list (list Block)) (eothers : list Block)
    (s' : PS) : Prop :=
  ∃ bm' ew', at_rank r s'.1 bm' ew' ∧ pool_frame r p s'.1 ∧ same_config bm bm' ∧
    bm_ok bm' others ∧ emb_ok ew' eothers ∧
    emb_num_free_blocks ew' = emb_num_free_blocks ew + Z.of_nat (length (emb_of q)) ∧
    blocks_ (kv_state_ s'.2) = [] ∧ kv_cache_tokens_num_ (kv_state_ s'.2) = 0 ∧
    num_owned_shared_blocks_ (kv_state_ s'.2) = 0 ∧
    is_valid (embedding_block_ s'.2) = false ∧
    toks s'.2 = toks q ∧ volatile_num_prompt_tokens_ s'.2 = num_tokens_ (toks q) ∧
    dp_rank_ s'.2 = r ∧ blocks_ (host_kv_state_ s'.2) = [] ∧ src_blocks_ (kv_state_ s'.2) = [] ∧
    ref_count_ (embedding_block_ s'.2) = None.

Lemma deallocate_embedding_ok r p q bm ew eothers :
  at_rank r p bm ew → emb_ok ew (emb_of q ++ eothers) →
  (is_valid (embedding_block_ q) = false → ref_count_ (embedding_block_ q) = None) →
  wp (deallocate_embedding_id r)
     (λ _ s', s'.2 = set_embedding_block (Block_moved (embedding_block_ q)) q ∧ pool_frame r p s'.1 ∧
        ∃ ew', at_rank r s'.1 bm ew' ∧ emb_ok ew' eothers ∧
          emb_num_free_blocks ew' = emb_num_free_blocks ew + Z.of_nat (length (emb_of q))) (p, q).
Proof.
  intros Hr He Hc. unfold deallocate_embedding_id. apply wp_bind. eapply wp_check_rank; [done|].
  unfold seq_get, seq_set. wp_steps. simpl. unfold emb_of in *. destruct (is_valid (embedding_block_ q)) eqn:Hv.
  - simpl in He. pose proof (emb_release_ok _ _ _ He) as Hrel. apply wp_bind_inv in Hrel.
    eapply wp_on_emb; [exact Hr|]. eapply wp_mono; [exact Hrel|].
    intros [] ew1 Hd p1 Hr1 Hf1. cbv beta in Hd. eapply wp_on_emb; [exact Hr1|]. eapply wp_mono; [exact Hd|].
    intros _ ew2 (He2 & _ & Hn) p2 Hr2 Hf2. simpl. split; [done|]. split; [by etrans|].
    exists ew2. split; [done|]. split; [done|]. rewrite Hn. simpl. lia.
  - wp_steps. eapply wp_on_emb; [exact Hr|]. unfold Block_destroy, dec_ref_count.
    rewrite Hc by done. apply wp_ret. intros p1 Hr1 Hf1. simpl. split; [done|]. split; [done|].
    exists ew. split; [done|]. split; [done|]. simpl. lia.
Qed.

Lemma seq_reset_ok r p q bm ew others u :
  at_rank r p (with_used u bm) ew → bm_ok bm (blocks_ (kv_state_ q) :: others) →
  (prefix_enabled bm = true → u = Z.of_nat (base.size (held others))) →
  blocks_ (host_kv_state_ q) = [] →
  wp (seq_reset r)
     (λ _ s', pool_frame r p s'.1 ∧
        s'.2 = set_volatile (num_tokens_ (toks q)) (set_host_kv (kv_state_ (set_kv (set_info None
          (set_blocks [] (set_owned 0 (set_tokens 0 (host_kv_state_ q))))) q))
          (set_kv (set_info None (set_blocks [] (set_owned 0 (set_tokens 0 (kv_state_ q))))) q)) ∧
        ∃ bm', at_rank r s'.1 bm' ew ∧ bm_ok bm' others ∧ same_config bm bm' ∧
          prefix_cache_ bm' = prefix_cache_ bm) (p, q).
Proof.
  intros Hr Hok Hu Hh. unfold seq_reset. apply wp_bind. eapply wp_on_kv; [exact Hr|].
  unfold KVState.reset, kv_get, kv_modify. wp_steps. apply wp_on_kv_world. simpl.
  pose proof (drop_vec_ok bm _ others u Hok Hu) as Hdrop. apply wp_zoom_inv in Hdrop.
  eapply wp_mono; [exact Hdrop|].
  intros _ w1 (Hok1 & Hcfg & Hpc) p1 Hr1 Hf1. apply wp_bind. eapply wp_on_host_kv; [exact Hr1|].
  unfold KVState.reset, kv_get, kv_modify. wp_steps. apply wp_on_kv_world. simpl. rewrite Hh.
  apply wp_ret. intros p2 Hr2 Hf2. unfold seq_set. wp_steps. simpl. split; [by etrans|]. split; [done|].
  eexists. split; [exact Hr2|]. simpl. unfold set_world in *. simpl in *. done.
Qed.

(** The three releases at the end of every failed or finished use *)
Lemma release_all_ok r p q bm ew others eothers :
  holds r p q bm ew others eothers →
  wp (on_bm r (deallocate (blocks_ (kv_state_ q))) ≫= λ _,
      deallocate_embedding_id r ≫= λ _, seq_reset r)
     (λ _, released r p q bm ew others eothers) (p, q).
Proof.
  intros [Hr Hdp Hb He Hc Hh Hsrc]. apply wp_bind.
  eapply wp_on_bm; [exact Hr|]. eapply wp_mono; [by eapply deallocate_ok|].
  intros _ bm1 (u & -> & Hu) p1 Hr1 Hf1. apply wp_bind.
  eapply wp_mono; [by eapply deallocate_embedding_ok|].
  intros _ [p2 q2] (Hq2 & Hf2 & ew2 & Hr2 & He2 & Hn2). simpl in *. subst q2.
  eapply wp_mono; [by apply (seq_reset_ok r _ _ bm ew2 others u)|].
  intros _ [p3 q3] (Hf3 & Hq3 & bm3 & Hr3 & Hok3 & Hcfg3 & _). simpl in *. subst q3.
  exists bm3, ew2. split; [done|]. split; [by do 2 (etrans; [done|])|].
  do 4 (split; [done|]). do 6 (split; [done|]). done.
Qed.
Lemma deallocate_without_cache_ok r p q bm ew others eothers :
  holds r p q bm ew others eothers →
  wp deallocate_without_cache (λ _, released r p q bm ew others eothers) (p, q).
Proof.
  intros Hl. pose proof Hl as [Hr Hdp _ _ _ _ _]. unfold deallocate_without_cache. apply wp_bind.
  apply (wp_get_dp_rank r); [done|apply Hr|]. unfold seq_get. apply wp_bind, wp_gets. by apply release_all_ok.
Qed.

(** [pool_deallocate] when the blocks enter the cache first *)
Lemma pool_deallocate_lemma r p q bm ew others eothers now :
  let k := kv_state_ q in
  let e := Z.to_nat (num_owned_shared_blocks_ k) in
  let ts := take (Z.to_nat (kv_cache_tokens_num_ k)) (tokens_ (toks q)) in
  let ks := cache_keys bm ts (blocks_ k) e in
  holds r p q bm ew others eothers →
  kv_cache_tokens_num_ k ≤ Z.of_nat (length (tokens_ (toks q))) →
  room bm (blocks_ k :: others) (length (blocks_ k)) →
  (∀ pc, prefix_cache_ bm = Some pc →
     (e ≤ insert_num pc ts (blocks_ k) ∨ insert_num pc ts (blocks_ k) = O)%nat) →
  keyed bm (caching ks (blocks_ k) e) →
  wp (pool_deallocate now)
     (λ _ s', released r p q bm ew others eothers s' ∧
        ∃ bm' ew', at_rank r s'.1 bm' ew' ∧ ∀ pc', prefix_cache_ bm' = Some pc' →
          Forall (λ k', is_Some (find_addr pc' k')) (take (length (blocks_ k) - e) ks)) (p, q).
Proof.
  intros k e ts ks [Hr Hdp Hb He Hc Hh Hsrc] Hlen Hroom Hins Hk. unfold pool_deallocate. apply wp_bind.
  apply (wp_get_dp_rank r); [done|apply Hr|]. apply wp_bind. unfold pool_cache. apply wp_bind.
  apply (wp_get_dp_rank r); [done|apply Hr|]. unfold seq_get, cached_tokens. wp_steps. simpl.
  apply wp_check; [by apply Z.leb_le|]. wp_steps. eapply wp_on_bm; [exact Hr|].
  eapply wp_mono; [by apply (cache_spec bm others)|].
  cbv zeta. intros bs1 bm1 (-> & Hok1 & Hcfg1 & _ & _ & _ & Hcached) p1 Hr1 Hf1. unfold seq_set. wp_steps. simpl.
  fold k e ts ks in Hok1, Hcached |- *.
  eapply wp_on_bm; [exact Hr1|]. eapply wp_mono; [by eapply deallocate_ok|].
  intros _ bm2 (u & -> & Hu) p2 Hr2 Hf2. apply wp_bind.
  eapply wp_mono; [by eapply (deallocate_embedding_ok r p2 _ _ _ eothers)|].
  intros _ [p3 q3] (Hq3 & Hf3 & ew3 & Hr3 & He3 & Hn3). simpl in *. subst q3.
  eapply wp_mono; [by apply (seq_reset_ok r _ _ bm1 ew3 others u)|].
  intros _ [p4 q4] (Hf4 & Hq4 & bm4 & Hr4 & Hok4 & Hcfg4 & Hpc4). simpl in *. subst q4.
  split; [|exists bm4, ew3; split; [done|]; intros pc'; rewrite Hpc4; by apply Hcached].
  exists bm4, ew3. split; [done|]. split; [by do 3 (etrans; [done|])|].
  split; [by etrans|]. do 3 (split; [done|]). do 6 (split; [done|]). done.
Qed.
End release.

(** ** Allocation *)

Section allocation.
Context {T : Type} `{HashFns} `{FloatOps F}.
Abbreviation PS := (Pool * Sequence T F)%type.
Implicit Types (p : Pool) (q : Sequence T F) (bm : BM) (ew : World EmbCore) (k : KVCacheState T).

(** Fresh blocks are copied into the sequence and the local vector goes away. *)
Lemma hand_over bm k bs others bsz :
  bm_ok bm (bs :: blocks_ k :: others) → (∀ i, i ∈ ids bs → i ∉ ids (blocks_ k)) →
  src_blocks_ k = [] → kv_ok bsz k → Forall (λ b, size b = bsz) bs →
  room bm (bs :: blocks_ k :: others) (length bs) →
  wp (add_kv_blocks bs)
     (λ _ kw, kw.1 = set_blocks (blocks_ k ++ bs) k ∧ kv_ok bsz kw.1 ∧
        wp (destroy_all bs) (λ _ w, bm_ok (set_world w bm) ((blocks_ k ++ bs) :: others) ∧
              same_config bm (set_world w bm)) kw.2)
     (k, world_ bm).
Proof.
  intros Hok Hd Hsrc Hk Hsz Hroom. set (X := all_handles bm others).
  assert (all_handles bm (bs :: blocks_ k :: others) ≡ₚ hrefs (blocks_ k) ++ hrefs bs ++ X) as Hp.
  { rewrite !all_handles_cons. unfold X. perm. }
  pose proof (proj1 (world_ok_proper _ _ _ Hp) (bm_world _ _ Hok)) as Hw.
  unfold room in Hroom. rewrite Hp in Hroom.
  assert (Z.of_nat (length (blocks_ k) + length bs) < 2 ^ 31) as Hlen.
  { pose proof (held_bound _ _ Hok) as Hb. pose proof (bm_vecs _ _ Hok) as Hv.
    apply Forall_cons in Hv as [Hv1 Hv]. apply Forall_cons in Hv as [Hv2 _].
    assert (list_to_set (ids (blocks_ k ++ bs)) ⊆ held (bs :: blocks_ k :: others)) as Hsub.
    { unfold held, ids. simpl. rewrite !fmap_app, !list_to_set_app. set_solver. }
    apply subseteq_size in Hsub. rewrite size_list_to_set in Hsub.
    - unfold ids in Hsub. rewrite length_fmap, length_app in Hsub. lia.
    - by destruct (merge_vecs _ _ _ _ Hok Hd) as [[_ ?] _]. }
  eapply wp_mono.
  { apply (add_kv_blocks_ok bsz bs (k, world_ bm) (hrefs bs ++ X)); simpl; try done.
    - unfold kv_world_ok, kv_handles. simpl. rewrite Hsrc, hrefs_nil, app_nil_r. exact Hw.
    - set_solver.
    - unfold kv_handles. rewrite Hsrc, hrefs_nil, app_nil_r. lia. }
  intros _ [k' w'] (Hk' & Hw' & Hkk & Hm). simpl in Hk', Hw', Hkk, Hm |- *. subst k'.
  split; [done|]. split; [exact Hk'|]. eapply wp_mono.
  { apply (destroy_all_ok w' (hrefs (blocks_ k ++ bs) ++ X) bs).
    unfold kv_world_ok, kv_handles in Hw'. simpl in Hw'. rewrite Hsrc, hrefs_nil, app_nil_r in Hw'.
    refine (proj1 (world_ok_proper _ _ _ _) Hw'). perm. }
  intros _ w2 [Hw2 Hf]. destruct (merge_vecs _ _ _ _ Hok Hd) as (Hv & Hh & Hheld).
  pose proof (bm_vecs _ _ Hok) as Hvs. apply Forall_cons in Hvs as [_ Hvs]. apply Forall_cons in Hvs as [_ Hvs].
  rewrite Hm in Hf. apply (bm_ok_world bm w2 _ _ Hok); try done.
  - refine (proj1 (world_ok_proper _ _ _ _) Hw2). by rewrite all_handles_cons.
  - by constructor.
Qed.

Definition ceil_div (n bs : Z) : Z := (n + bs - 1) / bs.
Lemma ceil_div_spec n bs : 0 < bs → n ≤ ceil_div n bs * bs < n + bs.
Proof. intros. unfold ceil_div. pose proof (Z.div_mod (n + bs - 1) bs). pose proof (Z.mod_pos_bound (n + bs - 1) bs). nia. Qed.

(** [n] fresh blocks were added to the sequence. *)
Definition extended (r : Z) p q bm ew (others : list (list Block)) (eothers : list Block)
    (bsz n : Z) (s' : PS) : Prop :=
  ∃ bm' bs, s'.2 = set_kv (set_blocks (blocks_ (kv_state_ q) ++ bs) (kv_state_ q)) q ∧
    holds r s'.1 s'.2 bm' ew others eothers ∧ pool_frame r p s'.1 ∧ same_config bm bm' ∧
    Z.of_nat (length bs) = n ∧ kv_ok bsz (kv_state_ s'.2) ∧
    ∀ i, i ∈ ids bs → i ∉ held (blocks_ (kv_state_ q) :: others) ∧ ¬ cached bm' i.
(** Nothing was added: eviction may have freed cached blocks. *)
Definition unchanged (r : Z) p q bm ew (others : list (list Block)) (eothers : list Block)
    (s' : PS) : Prop :=
  s'.2 = q ∧ ∃ bm', holds r s'.1 q bm' ew others eothers ∧ pool_frame r p s'.1 ∧ same_config bm bm'.

Lemma extend_ok r p q bm ew others eothers bsz num_tokens (fresh : bool) :
  holds r p q bm ew others eothers → kv_ok bsz (kv_state_ q) →
  p_block_size (pool_options p) = bsz → block_size_opt (options_ (core bm)) = bsz →
  0 ≤ num_tokens < 2 ^ 31 →
  room bm (blocks_ (kv_state_ q) :: others) (2 * Z.to_nat (ceil_div num_tokens bsz)) →
  let n := ceil_div num_tokens bsz - Z.of_nat (length (blocks_ (kv_state_ q))) in
  wp (pool_extend r fresh fresh num_tokens)
     (λ ok s',
        if n <=? 0 then ok = true ∧ s' = (p, q)
        else if n <=? available bm then ok = true ∧ extended r p q bm ew others eothers bsz n s'
        else ok = false ∧ if fresh then released r p q bm ew others eothers s'
                          else unchanged r p q bm ew others eothers s') (p, q).
Proof.
  intros Hl Hk Hbs Hbo Hn Hroom n. pose proof Hl as [Hr Hdp Hb He Hc Hh Hsrc].
  pose proof (ko_bs _ _ Hk) as Hbp. pose proof (ceil_div_spec num_tokens bsz (proj1 Hbp)) as Hceil.
  assert (0 ≤ ceil_div num_tokens bsz < 2 ^ 32) as Hc2 by (split; nia).
  unfold pool_extend. wp_steps. simpl. unfold blocks_needed. rewrite Hbs, (u64_id bsz) by lia.
  destruct (bsz =? 0) eqn:E; [apply Z.eqb_eq in E; lia|]. rewrite u64_id by lia. wp_steps.
  fold (ceil_div num_tokens bsz).
  assert (∀ sw, pool_process_beam_search sw (p, q) = Done true (p, q)) as Hbs0.
  { intros sw. unfold pool_process_beam_search, mbind, prog_bind, get. simpl.
    destruct (check_beam_search q); simpl; [|done]. by rewrite Hsrc. }
  unfold num_kv_blocks. destruct (_ <=? _) eqn:E1.
  { apply Z.leb_le in E1. unfold wp. rewrite Hbs0. destruct (n <=? 0) eqn:E2; [done|]. apply Z.leb_gt in E2. lia. }
  apply Z.leb_gt in E1. destruct (n <=? 0) eqn:E2; [apply Z.leb_le in E2; lia|]. clear E2.
  apply wp_bind. unfold wp at 1. rewrite Hbs0. rewrite u32_id by lia. fold n. wp_steps.
  eapply wp_on_bm; [exact Hr|]. eapply wp_mono.
  { apply (allocate_spec bm (blocks_ (kv_state_ q) :: others) n); [done|lia|]. unfold room in *. lia. }
  intros bs bm1 (Hcfg1 & Hok1 & Hlen & Hfr & _ & Hsz & Hah) p1 Hr1 Hf1.
  destruct (n <=? available bm) eqn:Ea.
  - rewrite Hlen, Z2Nat.id, Z.eqb_refl by lia. simpl. wp_steps.
    assert (∀ i, i ∈ ids bs → i ∉ ids (blocks_ (kv_state_ q))) as Hd.
    { intros i Hi Hi'. apply (proj1 (Hfr i Hi)). unfold held, ids in *. simpl.
      rewrite fmap_app, list_to_set_app, elem_of_union, !elem_of_list_to_set. by left. }
    eapply wp_on_kv; [exact Hr1|]. eapply wp_mono.
    { apply (hand_over bm1 (kv_state_ q) bs others bsz); try done.
      - rewrite Hbo in Hsz. by rewrite u32_id in Hsz by lia.
      - unfold room in *. rewrite all_handles_cons, length_app. pose proof (hrefs_length bs). lia. }
    intros _ [k2 w2] (-> & Hk2 & Hdrop) p2 Hr2 Hf2. unfold drop_local. simpl in *. wp_steps.
    eapply wp_on_bm; [exact Hr2|]. unfold on_blocks. apply wp_zoom. simpl.
    eapply wp_mono; [exact Hdrop|]. intros _ w3 [Hok3 Hcfg3] p3 Hr3 Hf3. wp_steps. split; [done|].
    exists (set_world w3 bm1), bs. simpl. split; [done|]. split; [|split; [|split; [|split; [|split; [done|]]]]].
    + constructor; try done.
    + by do 2 (etrans; [done|]).
    + by etrans.
    + lia.
    + intros i Hi. split; [by apply Hfr|]. intros (pc & a & nd & Hpc & ?). apply (proj2 (Hfr i Hi)). by exists pc, a, nd.
  - rewrite Hlen. destruct (Z.of_nat 0 =? n) eqn:E3; [apply Z.eqb_eq in E3; lia|]. simpl negb. cbv iota.
    destruct bs; [|done]. destruct fresh.
    + apply wp_bind. unfold seq_get. apply wp_bind, wp_gets. simpl.
      eapply wp_mono; [apply (release_all_ok r p1 q bm1 ew others eothers); by constructor|].
      intros _ [p2 q2] (bm2 & ew2 & Hr2 & Hf2 & Hcfg2 & Hrest). wp_steps. unfold drop_local.
      eapply wp_on_bm; [exact Hr2|]. apply wp_zoom, wp_ret. intros p3 Hr3 Hf3. wp_steps. split; [done|].
      rewrite set_world_id in Hr3. exists bm2, ew2. simpl in *. split; [done|].
      split; [by do 2 (etrans; [done|])|]. split; [by etrans|]. done.
    + wp_steps. unfold drop_local. eapply wp_on_bm; [exact Hr1|]. apply wp_zoom, wp_ret. intros p2 Hr2 Hf2. wp_steps.
      rewrite set_world_id in Hr2. split; [done|]. split; [done|]. exists bm1. simpl.
      split; [by constructor|]. split; [by etrans|done].
Qed.

Lemma allocate_embedding_ok r p q bm ew others eothers :
  holds r p q bm ew others eothers → has_embedding_id q = false →
  Z.of_nat (length eothers) + 1 < 2 ^ 31 →
  wp (allocate_embedding_id r)
     (λ ok s', pool_frame r p s'.1 ∧
        if 1 <=? emb_num_free_blocks ew then
          ok = true ∧ ∃ ew' b, s'.2 = set_embedding_block b q ∧ is_valid b = true ∧
            holds r s'.1 s'.2 bm ew' others eothers
        else ok = false ∧ s'.2 = q ∧ ∃ ew', holds r s'.1 q bm ew' others eothers) (p, q).
Proof.
  intros [Hr Hdp Hb He Hc Hh Hsrc] Hne Hroom. unfold allocate_embedding_id. apply wp_bind.
  eapply wp_check_rank; [done|]. unfold seq_get. wp_steps. simpl. rewrite Hne.
  unfold emb_of, has_embedding_id in *. rewrite Hne in He. simpl in He.
  apply wp_bind. eapply wp_on_emb; [exact Hr|]. eapply wp_mono.
  { apply (emb_allocate_ok ew eothers 1); [done|lia|done]. }
  intros bs ew1 (He1 & Ht1 & Hl1) p1 Hr1 Hf1. destruct (1 <=? emb_num_free_blocks ew).
  - destruct bs as [|b [|]]; try done. unfold Block_move_assign. apply wp_bind.
    eapply wp_on_emb; [exact Hr1|]. apply wp_bind. unfold dec_ref_count. rewrite Hc by done.
    wp_steps. intros p2 Hr2 Hf2. unfold seq_set, Block_move. wp_steps. simpl.
    eapply wp_on_emb; [exact Hr2|]. wp_steps. intros p3 Hr3 Hf3. wp_steps. simpl.
    split; [by do 2 (etrans; [done|])|]. split; [done|]. exists ew1, b.
    assert (is_valid b = true) as Hv.
    { destruct He1 as [_ Hm _ _]. apply Forall_cons in Hm as [(Hm1 & _ & Hm2) _]. unfold is_valid.
      apply andb_true_iff. rewrite Z.leb_le. split; [done|]. by destruct (ref_count_ b). }
    split; [done|]. split; [done|]. constructor; simpl; try done.
    + unfold emb_of. simpl. by rewrite Hv.
    + by rewrite Hv.
  - destruct bs; [|done]. wp_steps. simpl in *. split; [done|]. split; [done|]. split; [done|].
    exists ew1. constructor; try done. unfold emb_of. by rewrite Hne.
Qed.

(** A sequence without blocks takes what the cache has of its tokens. *)
Lemma pool_allocate_shared_ok r p q bm ew others eothers bsz :
  let sh := shared_result bm (tokens q) [] in
  holds r p q bm ew others eothers → kv_ok bsz (kv_state_ q) → blocks_ (kv_state_ q) = [] →
  p_enable_prefix_cache (pool_options p) = true →
  vec_ok sh → Forall (λ b, size b = bsz) sh → room bm others (length (tokens q)) →
  Z.of_nat (length sh) * bsz < Z.of_nat (num_tokens_ (toks q)) < 2 ^ 31 →
  wp pool_allocate_shared
     (λ _ s', ∃ bm', s'.2 = set_kv (shared_state bsz sh (Z.of_nat (num_tokens_ (toks q))) (kv_state_ q)).1 q ∧
        blocks_ (kv_state_ s'.2) = sh ∧ kv_ok bsz (kv_state_ s'.2) ∧
        holds r s'.1 s'.2 bm' ew others eothers ∧ pool_frame r p s'.1 ∧ same_config bm bm' ∧
        num_free_blocks_ (core bm') = num_free_blocks_ (core bm)) (p, q).
Proof.
  intros sh [Hr Hdp Hb He Hc Hh Hsrc] Hk Hnil Hpe Hv Hsz Hroom Hfull.
  unfold pool_allocate_shared. apply wp_bind, wp_get. simpl. rewrite Hpe. apply wp_bind.
  apply (wp_get_dp_rank r); [done|apply Hr|]. unfold seq_get. apply wp_bind, wp_gets. simpl.
  pose proof (ko_owned _ _ Hk) as Hown. rewrite Hnil in Hown. unfold shared_kv_blocks_num.
  assert (num_owned_shared_blocks_ (kv_state_ q) = 0) as Hown0 by (simpl in Hown; lia).
  rewrite Hown0, Hnil. unfold slice. wp_steps. apply wp_check; [done|]. wp_steps. simpl.
  assert (∀ l, manager_allocate_shared (pool_options p) l [] = allocate_shared l []) as Hma.
  { intros l. unfold manager_allocate_shared, concurrent_allocate_shared. by destruct (_ || _). }
  rewrite Hma. eapply wp_on_bm; [exact Hr|]. rewrite Hnil in Hb. eapply wp_mono.
  { apply (allocate_shared_spec bm ([] :: others)); [exact Hb| |by intros b ?%elem_of_nil|exact Hv|].
    - rewrite hrefs_nil. by intros ? ?%elem_of_nil.
    - exact Hroom. }
  intros bs bm1 (-> & Hok1 & Hcfg1 & Hnum1 & _) p1 Hr1 Hf1. fold sh in Hok1 |- *.
  unfold seq_add_shared, seq_get. apply wp_bind, wp_gets, wp_bind. simpl.
  eapply wp_on_kv; [exact Hr1|]. pose proof (shared_state_ok bsz sh (Z.of_nat (num_tokens_ (toks q))) _ Hk Hsz) as Hkok.
  assert (Z.of_nat (length sh) < 2 ^ 31) as Hlen by (pose proof (ko_bs _ _ Hk); nia).
  specialize (Hkok Hlen). set (X := all_handles bm1 others).
  assert (all_handles bm1 (sh :: [] :: others) ≡ₚ hrefs sh ++ X) as Hp by (rewrite !all_handles_cons; unfold X; by simpl).
  assert (kv_handles (kv_state_ q) = []) as Hkh by (unfold kv_handles; by rewrite Hnil, Hsrc).
  pose proof (proj1 (world_ok_proper _ _ _ Hp) (bm_world _ _ Hok1)) as Hw.
  eapply wp_mono.
  { apply (add_shared_ok bsz sh _ (kv_state_ q, world_ bm1) X); [exact Hk| |exact Hsz|lia|lia|pose proof (ko_bs _ _ Hk); nia].
    unfold kv_world_ok. simpl fst. rewrite Hkh. exact Hw. }
  intros left [k' w'] (Heq & Hw' & Hf) p2 Hr2 Hf2. simpl in *.
  assert (left = [] ∧ blocks_ k' = sh ∧ src_blocks_ k' = []) as (-> & Hbk & Hsk).
  { revert Heq. unfold shared_state. rewrite Hnil. simpl. destruct (decide _) as [Hz|Hz].
    - intros [= -> ->]. rewrite Hnil. by destruct sh.
    - destruct (length sh <=? 0)%nat eqn:El; [apply Nat.leb_le in El; lia|].
      destruct (_ =? _) eqn:Ee; [apply Z.eqb_eq in Ee; lia|]. by intros [= -> ->]. }
  assert (k' = (shared_state bsz sh (Z.of_nat (num_tokens_ (toks q))) (kv_state_ q)).1) as Hk' by (by rewrite <-Heq).
  eapply wp_on_bm; [exact Hr2|]. apply wp_zoom, wp_ret. intros p3 Hr3 Hf3. simpl in *.
  destruct (bm_ok_world bm1 w' (sh :: [] :: others) (sh :: others) Hok1) as [Hok2 Hcfg2].
  - unfold kv_world_ok, kv_handles in Hw'. simpl in Hw'. rewrite Hbk, Hsk, hrefs_nil in Hw'. simpl in Hw'.
    refine (proj1 (world_ok_proper _ _ _ _) Hw'). rewrite all_handles_cons. unfold X. perm.
  - done.
  - pose proof (bm_vecs _ _ Hok1) as Hvs. apply Forall_cons in Hvs as [? Hvs].
    apply Forall_cons in Hvs as [_ Hvs]. by constructor.
  - intros i. rewrite !holders_cons. done.
  - unfold held. simpl. done.
  - exists (set_world w' bm1). rewrite <-Hk'. split; [done|]. split; [done|]. split; [simpl; rewrite Hk'; exact Hkok|].
    split; [|split; [by do 2 (etrans; [done|])|split; [by etrans|]]].
    + constructor; simpl; try done. by rewrite Hbk.
    + rewrite <-Hnum1, (bm_num _ _ Hok1), (bm_num _ _ Hok2).
      destruct Hcfg2 as (_ & _ & ->). do 3 f_equal.
Qed.

Lemma bm_ok_nil_inv bm others : bm_ok bm ([] :: others) → bm_ok bm others.
Proof.
  intros [H1 H2 H3 H4 H5 H6 H7 H8 H9]. constructor; try done. by apply Forall_cons in H6 as [_ ?].
Qed.

(** The sequence got what it asked for: first the blocks [sh] of the cache, then
    fresh ones. *)
Definition granted (r : Z) p bm (others : list (list Block)) (eothers : list Block)
    (bsz num_tokens : Z) (sh : list Block) (s' : PS) : Prop :=
  ∃ bm' ew' new, holds r s'.1 s'.2 bm' ew' others eothers ∧ pool_frame r p s'.1 ∧
    same_config bm bm' ∧ blocks_ (kv_state_ s'.2) = sh ++ new ∧
    (∀ i, i ∈ ids new → i ∉ held (sh :: others) ∧ ¬ cached bm' i) ∧
    Z.of_nat (length (sh ++ new)) = Z.max (Z.of_nat (length sh)) (ceil_div num_tokens bsz) ∧
    kv_ok bsz (kv_state_ s'.2) ∧
    kv_cache_tokens_num_ (kv_state_ s'.2) = Z.of_nat (length sh) * bsz ∧
    has_embedding_id s'.2 = true.
(** The sequence got nothing and holds nothing. *)
Definition refused (r : Z) p bm (others : list (list Block)) (eothers : list Block) (s' : PS) : Prop :=
  ∃ bm' ew', holds r s'.1 s'.2 bm' ew' others eothers ∧ pool_frame r p s'.1 ∧ same_config bm bm' ∧
    blocks_ (kv_state_ s'.2) = [] ∧ has_embedding_id s'.2 = false ∧
    kv_cache_tokens_num_ (kv_state_ s'.2) = 0 ∧ num_owned_shared_blocks_ (kv_state_ s'.2) = 0.

Lemma pool_allocate_new_ok r p q bm ew others eothers bsz num_tokens (M : nat) :
  let sh := shared_result bm (tokens q) [] in
  holds r p q bm ew others eothers → kv_ok bsz (kv_state_ q) → blocks_ (kv_state_ q) = [] →
  has_embedding_id q = false →
  p_block_size (pool_options p) = bsz → block_size_opt (options_ (core bm)) = bsz →
  p_enable_prefix_cache (pool_options p) = prefix_enabled bm →
  vec_ok sh → Forall (λ b, size b = bsz) sh →
  Z.of_nat (length sh) * bsz < Z.of_nat (num_tokens_ (toks q)) →
  0 ≤ num_tokens ≤ Z.of_nat M →
  Z.of_nat (length (concat others) + 5 * M) < 2 ^ 31 - 2 →
  (num_tokens_ (toks q) ≤ M)%nat →
  Z.of_nat (length eothers) + 1 < 2 ^ 31 →
  wp (pool_allocate num_tokens)
     (λ ok s',
        (if ok : bool then granted r p bm others eothers bsz num_tokens sh s'
         else refused r p bm others eothers s') ∧
        (1 ≤ emb_num_free_blocks ew →
         ceil_div num_tokens bsz - Z.of_nat (length sh) ≤ num_free_blocks_ (core bm) → ok = true)) (p, q).
Proof.
  intros sh Hl Hk Hnil Hne Hpb Hbo Hpe Hv Hsz Hfull Hn Hroom Hcap Heo. pose proof Hl as [Hr Hdp Hb He Hc Hh Hsrc].
  pose proof (ko_bs _ _ Hk) as Hbp. rewrite Hnil in Hb. apply bm_ok_nil_inv in Hb.
  unfold pool_allocate. apply wp_bind. apply (wp_get_dp_rank r); [done|apply Hr|].
  apply wp_bind, wp_get. unfold num_kv_blocks. simpl. rewrite Hnil, Hne. simpl.
  apply wp_bind. eapply wp_mono; [by eapply allocate_embedding_ok|].
  intros ok [p1 q1] [Hf1 Hcase]. simpl in Hf1, Hcase.
  destruct (1 <=? emb_num_free_blocks ew) eqn:Ee.
  2: { destruct Hcase as (-> & -> & ew1 & Hl1). apply wp_ret. split; [|apply Z.leb_gt in Ee; lia].
       pose proof (ko_tokens _ _ Hk) as Ht. pose proof (ko_owned _ _ Hk) as Ho. rewrite Hnil in Ht, Ho. simpl in Ht, Ho.
       exists bm, ew1. simpl. do 5 (split; [done|]). lia. }
  destruct Hcase as (-> & ew1 & b & -> & Hvb & Hl1). simpl.
  set (q1 := set_embedding_block b q) in *.
  assert (wp (pool_allocate_shared (T := T) (F := F))
    (λ _ s', ∃ bm' , holds r s'.1 s'.2 bm' ew1 others eothers ∧ pool_frame r p1 s'.1 ∧ same_config bm bm' ∧
       blocks_ (kv_state_ s'.2) = sh ∧ kv_ok bsz (kv_state_ s'.2) ∧
       kv_cache_tokens_num_ (kv_state_ s'.2) = Z.of_nat (length sh) * bsz ∧
       embedding_block_ s'.2 = b ∧
       num_free_blocks_ (core bm') = num_free_blocks_ (core bm)) (p1, q1)) as Hshare.
  { assert (0 ≤ kv_cache_tokens_num_ (kv_state_ q) ≤ 0) as Ht0
      by (pose proof (ko_tokens _ _ Hk) as Ht; by rewrite Hnil in Ht).
    destruct (prefix_enabled bm) eqn:Hen.
    - eapply wp_mono.
      { apply (pool_allocate_shared_ok r p1 q1 bm ew1 others eothers bsz); try done.
        - by rewrite (proj1 Hf1), Hpe.
        - apply room_small; [done|]. unfold tokens. rewrite length_take. simpl. lia.
        - split; [exact Hfull|simpl; lia]. }
      change (shared_result bm (tokens q1) []) with sh. intros _ [p2 q2] (bm2 & -> & Hb2 & Hk2 & Hl2 & Hf2 & Hcfg2 & Hnum2). simpl in *.
      exists bm2. do 5 (split; [done|]). split; [|done].
      unfold shared_state. rewrite Hnil. simpl. case_decide as Hz; simpl; [rewrite Hz; lia|].
      destruct (length sh <=? 0)%nat eqn:El; [apply Nat.leb_le in El; lia|].
      destruct (_ =? _) eqn:E; [apply Z.eqb_eq in E; lia|done].
    - unfold pool_allocate_shared. apply wp_bind, wp_get. simpl.
      rewrite (proj1 Hf1), Hpe. apply wp_ret. exists bm. simpl.
      assert (sh = []) as ->.
      { unfold sh, shared_result. pose proof (bm_enabled _ _ Hb) as Hbe. rewrite Hen in Hbe.
        symmetry in Hbe. apply bool_decide_eq_false in Hbe. by apply eq_None_not_Some in Hbe as ->. }
      do 5 (split; [done|]). split; [simpl; lia|done]. }
  apply wp_bind. eapply wp_mono; [exact Hshare|].
  intros _ [p2 q2] (bm2 & Hl2 & Hf2 & Hcfg2 & Hb2 & Hk2 & Ht2 & Heb2 & Hnum2). simpl in *.
  assert (0 ≤ ceil_div num_tokens bsz ≤ num_tokens) as Hcd.
  { pose proof (ceil_div_spec num_tokens bsz (proj1 Hbp)). unfold ceil_div in *. split; [nia|].
    destruct (decide (num_tokens = 0)) as [->|]; [rewrite Z.div_small; lia|]. nia. }
  assert (length sh ≤ M)%nat as Hsl by nia.
  eapply wp_mono.
  { apply (extend_ok r p2 q2 bm2 ew1 others eothers bsz num_tokens true); try done.
    - by rewrite (proj1 Hf2), (proj1 Hf1).
    - by rewrite (proj1 Hcfg2).
    - lia.
    - apply room_small; [apply Hl2|]. rewrite Hb2. simpl. rewrite length_app. lia. }
  intros ok [p3 q3] Hres. rewrite Hb2 in Hres.
  assert (pool_frame r p p2) as Hf02 by (by etrans).
  destruct (_ <=? 0) eqn:En.
  - destruct Hres as [-> [= -> ->]]. split; [|done]. exists bm2, ew1, []. simpl. apply Z.leb_le in En.
    do 3 (split; [done|]). rewrite app_nil_r. split; [done|]. split; [by intros i ?%elem_of_nil|].
    split; [lia|]. split; [done|]. split; [done|]. unfold has_embedding_id. by rewrite Heb2.
  - apply Z.leb_gt in En. destruct (_ <=? available bm2) eqn:Ea.
    + destruct Hres as [-> (bm3 & bs & Hq3 & Hl3 & Hf3 & Hcfg3 & Hlb & Hk3 & Hfr)]. split; [|done].
      simpl in Hq3, Hl3, Hf3, Hk3. subst q3. exists bm3, ew1, bs. simpl.
      split; [exact Hl3|]. split; [by etrans|]. split; [by etrans|]. rewrite Hb2 in Hk3, Hfr |- *.
      split; [done|]. split; [exact Hfr|]. rewrite length_app. split; [lia|]. split; [done|].
      split; [done|]. unfold has_embedding_id. simpl. by rewrite Heb2.
    + destruct Hres as [-> (bm3 & ew3 & Hr3 & Hf3 & Hcfg3 & Hok3 & He3 & _ & Hb3 & Ht3 & Ho3 & Hv3 & _ & _ & Hd3 & Hh3 & Hs3 & Hc3)].
      split; [|apply Z.leb_gt in Ea; unfold available in Ea; lia].
      exists bm3, ew3. simpl in *. split; [|split; [by etrans|split; [by etrans|done]]].
      constructor; try done; [rewrite Hb3; by apply bm_ok_nil|]. unfold emb_of. by rewrite Hv3.
Qed.
End allocation.

(** ** Properties *)

Section properties.
Context {T : Type} `{HashFns} `{FloatOps F}.
Implicit Types (p : Pool) (q : Sequence T F) (bm : BM) (ew : World EmbCore).


(** C18: [deallocate(sequence)] publishes the sequence's full blocks under their keys and
    then gives everything back: afterwards the sequence holds no block, no embedding id and
    no cached tokens, its tokens are untouched, the other sequences and ranks keep what
    they hold, and every published key is in the cache.  The shared blocks of the
    sequence are part of the cached prefix or nothing is to be inserted, and no block to
    publish is in the cache under another key. *)
Theorem pool_deallocate_publishes r p q bm ew others eothers now :
  let k := kv_state_ q in
  let e := Z.to_nat (num_owned_shared_blocks_ k) in
  let ts := take (Z.to_nat (kv_cache_tokens_num_ k)) (tokens_ (toks q)) in
  let ks := cache_keys bm ts (blocks_ k) e in
  holds r p q bm ew others eothers →
  kv_cache_tokens_num_ k ≤ Z.of_nat (length (tokens_ (toks q))) →
  room bm (blocks_ k :: others) (length (blocks_ k)) →
  (∀ pc, prefix_cache_ bm = Some pc →
     (e ≤ insert_num pc ts (blocks_ k) ∨ insert_num pc ts (blocks_ k) = O)%nat) →
  keyed bm (caching ks (blocks_ k) e) →
  wp (pool_deallocate now)
     (λ _ s', released r p q bm ew others eothers s' ∧
        ∃ bm' ew', at_rank r s'.1 bm' ew' ∧ ∀ pc', prefix_cache_ bm' = Some pc' →
          Forall (λ k', is_Some (find_addr pc' k')) (take (length (blocks_ k) - e) ks)) (p, q).
Proof. intros k e ts ks. apply pool_deallocate_lemma. Qed.
End properties.
