(* ===== verification/Samples.v ===== *)
(** Concrete runs of the block manager: a pool of six blocks of four tokens with the
    prefix cache enabled goes through an allocation, a publication of two blocks under
    their keys, a second sequence that shares them and a release.  The states reached
    instantiate the theorems of [Blocks], [PrefixCache], [BlockClient], [CacheView], [KVState]
    and [Pool]. *)

From stdpp Require Import base gmap list strings sets.
From Stdlib Require Import ZArith Lia.
From S2P Require Import Prelude HashKey Blocks DList PrefixCache KvEvents BlockManager.
From S2P Require Import CacheEvents BlockClient CacheView KVState EmbeddingManager.
From S2P Require Import Stopping IncrementalDecoder LogprobState Sequence Pool.
Open Scope Z_scope.

#[local] Existing Instance sample_hash.

Definition state_of {S A} (m : prog S A) (s : S) : S :=
  match m s with Done _ s' => s' | _ => s end.
Definition result_of {S A} (d : A) (m : prog S A) (s : S) : A :=
  match m s with Done a _ => a | _ => d end.

Definition sample_options : Options := mkOptions 6 4 true false true.
Definition before : BM := mkBM None None (mkWorld ∅ 0 (mkCore sample_options 0 0 [])) Block_default.

(** A fresh manager, and the same after each call *)
Definition fresh : BM := state_of (BlockManagerImpl_new sample_options) before.
Definition sample_tokens : list Z := [11; 12; 13; 14; 15; 16; 17; 18; 19].
Definition call (op : client_op) (x : list (list Block) * BM) : list (list Block) * BM :=
  (result_of [] (client_run op x.1) x.2, state_of (client_run op x.1) x.2).
Definition allocated := call (OpAllocate 2) ([], fresh).
Definition published := call (OpCache 0 sample_tokens 0 7) allocated.
Definition shared := call (OpShare sample_tokens []) published.

Definition cache_of (s : BM) : PrefixCache := default (PrefixCache_new 4) (prefix_cache_ s).

Lemma sample_options_ok : options_ok sample_options.
Proof. unfold options_ok. simpl. lia. Qed.

Lemma fresh_reachable : reachable sample_options fresh [].
Proof. apply (reach_new _ before). computed. Qed.
Lemma call_done op s seqs :
  bool_decide (is_Some (match client_run op seqs s with Done x _ => Some x | _ => None end)) = true →
  client_run op seqs s = Done (call op (seqs, s)).1 (call op (seqs, s)).2.
Proof.
  intros Hd. unfold call, state_of, result_of. simpl.
  destruct (client_run op seqs s) as [x s'| | |] eqn:E; [done|by vm_compute in Hd..].
Qed.
Lemma reach_call op s seqs :
  reachable sample_options s seqs → client_pre op s seqs →
  bool_decide (is_Some (match client_run op seqs s with Done x _ => Some x | _ => None end)) = true →
  reachable sample_options (call op (seqs, s)).2 (call op (seqs, s)).1.
Proof. intros Hr Hpre Hd. eapply reach_step; [done|done|by apply call_done]. Qed.
Lemma view_call op V s seqs :
  viewed sample_options V s seqs → client_pre op s seqs →
  bool_decide (is_Some (match client_run op seqs s with Done x _ => Some x | _ => None end)) = true →
  viewed sample_options V (call op (seqs, s)).2 (call op (seqs, s)).1.
Proof. intros Hr Hpre Hd. eapply viewed_call; [done|done|by apply call_done]. Qed.

Lemma allocated_pre : client_pre (OpAllocate 2) fresh [].
Proof. split; [lia|computed]. Qed.
Lemma allocated_reachable : reachable sample_options allocated.2 allocated.1.
Proof. apply reach_call; [apply fresh_reachable|apply allocated_pre|computed]. Qed.

Lemma not_cached_empty s i pc :
  prefix_cache_ s = Some pc → nodes pc = ∅ → ¬ cached s i.
Proof. intros Hpc Hn (pc' & a & n & Hpc' & Ha & _). simplify_eq. by rewrite Hn in Ha. Qed.
Lemma allocated_not_cached i : ¬ cached allocated.2 i.
Proof. eapply not_cached_empty; computed. Qed.

Lemma published_pre : client_pre (OpCache 0 sample_tokens 0 7) allocated.2 allocated.1.
Proof.
  eexists. split; [computed|]. split; [computed|]. split.
  - intros pc Hpc. vm_compute in Hpc. injection Hpc as <-. left. vm_compute. lia.
  - apply keyed_fresh; [|intros; apply allocated_not_cached].
    apply (bool_decide_unpack _). computed.
Qed.
Lemma published_reachable : reachable sample_options published.2 published.1.
Proof.
  unfold published. rewrite (surjective_pairing allocated).
  apply reach_call; [apply allocated_reachable|apply published_pre|computed].
Qed.
(** The same states with a reader that has seen no heartbeat yet *)
Lemma published_viewed : viewed sample_options ∅ published.2 published.1.
Proof.
  unfold published. rewrite (surjective_pairing allocated).
  apply view_call; [|apply published_pre|computed].
  apply view_call; [|apply allocated_pre|computed]. apply (viewed_new _ before). computed.
Qed.
Lemma shared_reachable : reachable sample_options shared.2 shared.1.
Proof.
  unfold shared. rewrite (surjective_pairing published).
  apply reach_call; [apply published_reachable| |computed].
  split; [apply list_subseteq_nil|]. split; [by intros b ?%elem_of_nil|]. split.
  - apply (bool_decide_unpack _). computed.
  - computed.
Qed.

(** The first sequence gone, then the second: the cache keeps two blocks. *)
Definition drained := call (OpRelease 0) (call (OpRelease 0) shared).
Lemma drained_reachable : reachable sample_options drained.2 [].
Proof.
  assert (reachable sample_options (call (OpRelease 0) shared).2 (call (OpRelease 0) shared).1) as Hr.
  { rewrite (surjective_pairing shared). apply reach_call; [apply shared_reachable|vm_compute; lia|computed]. }
  assert (drained.1 = []) as <- by (computed). unfold drained.
  rewrite (surjective_pairing (call (OpRelease 0) shared)).
  apply reach_call; [exact Hr|vm_compute; lia|computed].
Qed.

(** ** Witnesses *)

Lemma client_calls_safe_witness :
  wp (client_run (OpRelease 1) shared.1)
     (λ seqs' s', bm_ok s' seqs' ∧ reachable sample_options s' seqs') shared.2.
Proof.
  apply (client_calls_safe sample_options shared.2 shared.1 (OpRelease 1)).
  - apply sample_options_ok.
  - apply shared_reachable.
  - vm_compute. lia.
Defined.

Lemma client_accounting_witness : num_used_blocks shared.2 = Done 2 shared.2.
Proof.
  destruct (client_accounting sample_options shared.2 shared.1 sample_options_ok shared_reachable)
    as [_ H]. rewrite H by done. computed.
Defined.

Lemma allocate_fresh_witness :
  wp (allocate 2) (λ bs s', length bs = 2%nat) shared.2.
Proof.
  eapply wp_mono; [apply (allocate_fresh sample_options shared.2 shared.1 2)|].
  - apply sample_options_ok.
  - apply shared_reachable.
  - lia.
  - computed.
  - intros bs s' (Hl & _). rewrite Hl. computed.
Defined.

Lemma release_frees_witness :
  wp (release (default [] (allocated.1 !! 0%nat)))
     (λ _ s', 1 ∈ free_ids (core s') ↔ 1 ∉ held (others 0 allocated.1) ∧ ¬ cached allocated.2 1)
     allocated.2.
Proof.
  eapply wp_mono; [apply (release_frees sample_options allocated.2 allocated.1 0)|].
  - apply sample_options_ok.
  - apply allocated_reachable.
  - computed.
  - intros [] s' [H _]. apply H. apply (bool_decide_unpack _). computed.
Defined.

Lemma share_longest_prefix_witness :
  wp (allocate_shared sample_tokens []) (λ r s', (length r ≤ 2)%nat) published.2.
Proof.
  assert (prefix_cache_ published.2 = Some (cache_of published.2)) as Hpc by (computed).
  eapply wp_mono; [apply (share_longest_prefix sample_options published.2 published.1 sample_tokens
    (cache_of published.2))|].
  - apply sample_options_ok.
  - apply published_reachable.
  - exact Hpc.
  - computed.
  - apply (bool_decide_unpack _). computed.
  - clear Hpc. intros r s' [Hl _]. etrans; [exact Hl|]. apply (bool_decide_unpack _). computed.
Defined.

Lemma destroy_checks_cache_witness :
  BlockManagerImpl_destroy drained.2 = Fatal "Not all blocks have been freed".
Proof.
  apply (destroy_checks_cache sample_options drained.2 sample_options_ok drained_reachable).
  exists 1, (cache_of drained.2), 0%nat, (default (mkPNode Block_default 0) (nodes (cache_of drained.2) !! 0%nat)).
  split; [computed|]. split; computed.
Defined.

(** The cache of a reachable state with everything else that holds handles *)
Lemma sample_pcw s seqs :
  reachable sample_options s seqs → prefix_cache_ s = Some (cache_of s) →
  pcw_ok (cache_of s, world_ s) [] (href (padding_block_ s) ++ hrefs (concat seqs)).
Proof.
  intros Hr Hpc. destruct (reachable_ok _ _ _ sample_options_ok Hr) as [Hok _].
  by apply bm_pcw.
Qed.

Lemma match_reorders_lru_witness :
  wp (match_ sample_tokens []) (λ _ s', lru_lst_ s'.1 = [1; 0]%nat) (cache_of published.2, world_ published.2).
Proof.
  eapply wp_mono; [eapply match_reorders_lru; [apply (sample_pcw _ _ published_reachable)|..]|].
  - computed.
  - vm_compute. lia.
  - computed.
  - apply (bool_decide_unpack _). computed.
  - intros r s' [Hl _]. rewrite Hl. computed.
Defined.

Lemma evict_lru_witness :
  wp (evict 1) (λ r s', r.1 = 1%nat ∧ lru_lst_ s'.1 = [0]%nat) (cache_of drained.2, world_ drained.2).
Proof.
  eapply wp_mono; [eapply evict_lru; apply (sample_pcw _ _ drained_reachable)|].
  - computed.
  - intros r s' (_ & Hr & Hl & _). rewrite Hr, Hl. split; computed.
Defined.

Lemma insert_then_match_witness :
  wp (insert sample_tokens (default [] (allocated.1 !! 0%nat)) 0 7 ≫= λ _, match_ sample_tokens [])
     (λ r s', length r = 2%nat)
     (cache_of allocated.2, world_ allocated.2).
Proof.
  eapply wp_mono; [eapply insert_then_match; [apply (sample_pcw _ _ allocated_reachable)|..]|].
  - computed.
  - apply (bool_decide_unpack _). computed.
  - vm_compute. intros x Hx. by right.
  - vm_compute. lia.
  - apply (bool_decide_unpack _). computed.
  - apply (bool_decide_unpack _). computed.
  - computed.
  - intros r s' [_ Hr]. rewrite Hr. computed.
Defined.

Lemma destroy_last_handle_witness :
  wp (Block_destroy (default Block_default (default [] (allocated.1 !! 0%nat) !! 0%nat)))
     (λ _ w', owns (mgr w') {[0; 2]}) (world_ allocated.2).
Proof.
  eapply wp_mono; [apply (destroy_last_handle _ [(2%nat, Some 2); (0%nat, Some 0)])|].
  - destruct (reachable_ok _ _ _ sample_options_ok allocated_reachable) as [Hok _].
    pose proof (bm_world _ _ Hok) as Hw. revert Hw. apply world_ok_proper.
    apply (bool_decide_unpack _). computed.
  - apply (bool_decide_unpack _). computed.
  - intros [] w' (_ & _ & _ & Ho).
    assert ({[0; 2]} = ids_of (href (default Block_default (default [] (allocated.1 !! 0%nat) !! 0%nat)) ++
      [(2%nat, Some 2); (0%nat, Some 0)]) ∖ {[1]}) as ->; [|apply Ho; apply (bool_decide_unpack _); computed].
    apply (bool_decide_unpack _). computed.
Defined.

Definition upload_of (s : BM) : Upload := default Upload_new (upload_ s).
Lemma heartbeat_converges_witness :
  wp (for_each (replicate (length (pending (upload_of published.2))) ()) (λ _, record_step) ≫= λ _,
      get_merged_kvcache_event KvCacheEvent_new)
     (λ e s', base.size (apply_event ∅ e) = 2%nat) published.2.
Proof.
  eapply wp_mono.
  - apply (heartbeat_converges sample_options ∅ published.2 published.1 (cache_of published.2)).
    + apply sample_options_ok.
    + apply published_viewed.
    + computed.
    + computed.
  - intros e s' (_ & He & _). rewrite He. computed.
Defined.

(** ** A sequence's KV state over the two allocated blocks *)

Definition two_blocks : list Block := default [] (allocated.1 !! 0%nat).
Definition sample_kv : KVCacheState unit := mkKV 6 two_blocks [] false None 0.

Lemma sample_kv_ok : kv_ok 4 sample_kv.
Proof.
  constructor; [lia|apply (bool_decide_unpack _); computed|..]; vm_compute; repeat split; by intros.
Qed.
Lemma kv_cache_slots_distinct_witness :
  wp (kv_cache_slots 2 7) (λ r _, NoDup r) (sample_kv, world_ allocated.2).
Proof.
  eapply wp_mono; [apply (kv_cache_slots_distinct 4 6 2 7 (sample_kv, world_ allocated.2))|].
  - apply sample_kv_ok.
  - done.
  - apply (bool_decide_unpack _). computed.
  - apply (bool_decide_unpack _). computed.
  - lia.
  - lia.
  - vm_compute. by intros.
  - intros r s' (_ & _ & Hnd & _). exact Hnd.
Defined.

Lemma incr_tokens_within_capacity_witness :
  incr_kv_cache_tokens_num 2 sample_kv = Done () (set_tokens 8 sample_kv) ∧
  ∃ e, incr_kv_cache_tokens_num 3 sample_kv = Fatal e.
Proof.
  split.
  - apply (incr_tokens_within_capacity 4 2 sample_kv sample_kv_ok); [lia|vm_compute; by intros].
  - apply (incr_tokens_within_capacity 4 3 sample_kv sample_kv_ok); [lia|computed].
Defined.

(** A match of both blocks for a sequence of nine tokens that holds nothing *)
Definition padding_handles : list handle := [(0%nat, Some 0)].
Lemma allocated_world : world_ok (world_ allocated.2) (hrefs two_blocks ++ padding_handles).
Proof.
  destruct (reachable_ok _ _ _ sample_options_ok allocated_reachable) as [Hok _].
  pose proof (bm_world _ _ Hok) as Hw. revert Hw. apply world_ok_proper.
  apply (bool_decide_unpack _). computed.
Qed.
Lemma add_shared_leaves_a_token_witness :
  wp (add_shared_kv_blocks two_blocks 8) (λ _ s', kv_cache_tokens_num_ s'.1 < 8)
     (KVCacheState_new (T := unit), world_ allocated.2).
Proof.
  eapply wp_mono;
    [apply (add_shared_leaves_a_token 4 two_blocks 8 (KVCacheState_new, world_ allocated.2) padding_handles)|].
  - constructor; simpl; try lia. constructor.
  - apply allocated_world.
  - apply (bool_decide_unpack _). computed.
  - computed.
  - vm_compute. split; by intros.
  - lia.
  - intros left s' (_ & _ & _ & Ht). apply Ht. vm_compute. lia.
Defined.

Lemma beam_search_swaps_blocks_witness :
  wp (process_beam_search None) (λ _ s', blocks_ s'.1 = two_blocks)
     (mkKV (T := unit) 6 [] two_blocks false None 0, world_ allocated.2).
Proof.
  eapply wp_mono;
    [apply (beam_search_swaps_blocks (mkKV (T := unit) 6 [] two_blocks false None 0, world_ allocated.2)
              padding_handles None)|].
  - apply allocated_world.
  - apply list_subseteq_nil.
  - done.
  - computed.
  - intros [] s' (_ & _ & _ & Hb). exact Hb.
Defined.

(** ** The pool *)

Definition pool_opts : PoolOptions := mkPoolOptions 6 0 4 true false true false.
Definition one_rank (bm : BM) : Pool := mkPool pool_opts [bm] [EmbeddingManager_new 3] [[]].
Definition long_params : SequenceParams Z :=
  mkSequenceParams 16 false false false false (mkSamplingParam 0 0 1 true 0 false 1)
    (mkStoppingChecker 10 0 99 false ∅ []).
(** A sequence of nine tokens on rank 0 with the KV state [k] *)
Definition nine_tokens (k : KVCacheState unit) : Sequence unit Z :=
  mkSequence 0 long_params 9 9 false
    (mkSeqTokens (sample_tokens ++ replicate 7 0) 9 ∅ 9) (mkSeqFinish false true NONE)
    (mkSeqFlags false false false false false None) k KVCacheState_new
    (@LogprobState_new Z sample_floats 9 16) (IncrementalDecoder_new [] 9 false true) Block_default 0.

Lemma one_rank_at bm : at_rank 0 (one_rank bm) bm (EmbeddingManager_new 3).
Proof. done. Qed.
Lemma nine_tokens_hold s others k :
  bm_ok s (blocks_ k :: others) → src_blocks_ k = [] →
  holds 0 (one_rank s) (nine_tokens k) s (EmbeddingManager_new 3) others [].
Proof.
  intros Hok Hs. constructor; [apply one_rank_at|done|exact Hok| |done|done|exact Hs].
  apply emb_new_ok. lia.
Qed.


Lemma pool_deallocate_publishes_witness :
  wp (pool_deallocate (T := unit) (F := Z) 7) (λ _ s', blocks_ (kv_state_ s'.2) = [])
     (one_rank allocated.2, nine_tokens (set_tokens 8 sample_kv)).
Proof.
  eapply wp_mono;
    [apply (pool_deallocate_publishes 0 (one_rank allocated.2) (nine_tokens (set_tokens 8 sample_kv)) allocated.2
              (EmbeddingManager_new 3) [] [])|].
  - apply nine_tokens_hold; [|done].
    assert (allocated.1 = [blocks_ (set_tokens 8 sample_kv)]) as <- by computed.
    apply (reachable_ok _ _ _ sample_options_ok allocated_reachable).
  - vm_compute. by intros.
  - computed.
  - intros pc Hpc. left. vm_compute in Hpc. injection Hpc as <-. vm_compute. lia.
  - apply keyed_fresh; [|intros; apply allocated_not_cached]. apply (bool_decide_unpack _). computed.
  - intros [] s' [(bm' & ew' & _ & _ & _ & _ & _ & _ & Hb & _) _]. exact Hb.
Defined.
