(* ===== verification/VirtPage.v ===== *)
(** Virtual pages of the KV cache: [core/framework/xtensor/virt_page.h] and
    [virt_page.cpp].

    A page of [page_size] bytes holds the blocks of [block_mem_size] bytes that lie
    inside it; a block that crosses a page boundary is skipped.  [block_range_spec]
    is what the ranges mean, [range_page] that a block finds its page again. *)

From stdpp Require Import base gmap list strings sets.
From Stdlib Require Import ZArith Lia.
From S2P Require Import Prelude.
Open Scope Z_scope.

Record VirtPage := mkVirtPage {
  page_id_ : Z;
  page_size_ : Z;
  start_block_ : option Z;
  end_block_ : option Z;
  num_kv_blocks_ : option Z;
  free_list_ : list Z;
}.
Definition VirtPage_new (page_id page_size : Z) : VirtPage :=
  mkVirtPage page_id page_size None None None [].
Definition set_free_list (l : list Z) (p : VirtPage) : VirtPage :=
  mkVirtPage (page_id_ p) (page_size_ p) (start_block_ p) (end_block_ p) (num_kv_blocks_ p) l.

(** [int64_t] conversion *)
Definition i64 (z : Z) : Z := (z + 2 ^ 63) mod 2 ^ 64 - 2 ^ 63.
Lemma i64_id z : - 2 ^ 63 ≤ z < 2 ^ 63 → i64 z = z.
Proof. intros. unfold i64. rewrite Z.mod_small; lia. Qed.

(** [get_block_range(page_id, page_size, block_mem_size)] *)
Definition get_block_range {St} (page_id page_size block_mem_size : Z) : prog St (Z * Z) :=
  if block_mem_size =? 0 then undef "division by zero"
  else
    let start_block := i64 (u64 (page_id * page_size + block_mem_size - 1) / block_mem_size) in
    let end_block := i64 (u64 ((page_id + 1) * page_size) / block_mem_size) in
    mret (start_block, end_block).

(** [get_num_blocks(page_size, block_mem_size)] *)
Definition get_num_blocks {St} (page_size block_mem_size : Z) : prog St Z :=
  if block_mem_size =? 0 then undef "division by zero" else mret (page_size / block_mem_size).

(** [require_init()] *)
Definition require_init : prog VirtPage unit :=
  get ≫= λ p,
  check (bool_decide (is_Some (start_block_ p))) "VirtPage not initialised" ≫= λ _,
  check (bool_decide (is_Some (end_block_ p))) "VirtPage not initialised" ≫= λ _,
  check (bool_decide (is_Some (num_kv_blocks_ p))) "VirtPage not initialised".

(** [init(block_mem_size)]; reserving a negative count throws *)
Definition page_init (block_mem_size : Z) : prog VirtPage unit :=
  get ≫= λ p,
  get_block_range (page_id_ p) (page_size_ p) block_mem_size ≫= λ r : Z * Z,
  put (mkVirtPage (page_id_ p) (page_size_ p) (Some r.1) (Some r.2) (Some (u64 (r.2 - r.1))) []) ≫= λ _,
  if r.2 <? r.1 then throw "vector::reserve"
  else modify (set_free_list (seqZ r.1 (r.2 - r.1))).

Definition page_full : prog VirtPage bool :=
  require_init ≫= λ _, gets (λ p, bool_decide (free_list_ p = [])).
Definition page_empty : prog VirtPage bool :=
  require_init ≫= λ _, gets (λ p, Z.of_nat (length (free_list_ p)) =? default 0 (num_kv_blocks_ p)).
Definition page_num_free_blocks : prog VirtPage nat :=
  require_init ≫= λ _, gets (λ p, length (free_list_ p)).
Definition get_free_blocks : prog VirtPage (list Z) :=
  require_init ≫= λ _, gets free_list_.

(** [alloc(num_blocks)] *)
Definition page_alloc (num_blocks : nat) : prog VirtPage (list Z) :=
  require_init ≫= λ _,
  page_full ≫= λ full : bool,
  if full then throw "VirtPage is already full"
  else
    get ≫= λ p,
    let actual_alloc := Nat.min num_blocks (length (free_list_ p)) in
    put (set_free_list (drop actual_alloc (free_list_ p)) p) ≫= λ _,
    mret (take actual_alloc (free_list_ p)).

(** [free(block_id)] and [free_batch(block_ids)] *)
Definition page_free (block_id : Z) : prog VirtPage unit :=
  require_init ≫= λ _, modify (λ p, set_free_list (free_list_ p ++ [block_id]) p).
Definition page_free_batch (block_ids : list Z) : prog VirtPage unit :=
  require_init ≫= λ _, modify (λ p, set_free_list (free_list_ p ++ block_ids) p).

(** ** Ranges *)

(** The first block that starts in page [p], and the first that ends after it *)
Definition first_block (p ps bm : Z) : Z := (p * ps + bm - 1) / bm.
Definition last_block (p ps bm : Z) : Z := ((p + 1) * ps) / bm.

(** Sizes at which the 64-bit arithmetic is exact *)
Record page_sizes (p ps bm : Z) : Prop := {
  ps_page : 0 ≤ p;
  ps_block : 0 < bm;
  ps_size : 0 ≤ ps;
  ps_room : (p + 1) * ps + bm < 2 ^ 63;
}.

Lemma get_block_range_ok {St} p ps bm (st : St) :
  page_sizes p ps bm →
  get_block_range p ps bm st = Done (first_block p ps bm, last_block p ps bm) st.
Proof.
  intros [Hp Hb Hs Hr]. unfold get_block_range, first_block, last_block.
  destruct (bm =? 0) eqn:E; [apply Z.eqb_eq in E; lia|].
  assert (0 ≤ p * ps) by nia. rewrite !u64_id by nia.
  assert (∀ x, 0 ≤ x < 2 ^ 63 → 0 ≤ x / bm < 2 ^ 63) as Hd.
  { intros x [? ?]. split; [by apply Z.div_pos|]. apply Z.div_lt_upper_bound; nia. }
  rewrite !i64_id; [done| |]; (split; [etrans; [|apply Hd]|apply Hd]); nia.
Qed.

(** A block is in the range of a page iff its bytes are in the page. *)
Lemma block_range_iff p ps bm i :
  page_sizes p ps bm →
  first_block p ps bm ≤ i < last_block p ps bm ↔ p * ps ≤ i * bm ∧ (i + 1) * bm ≤ (p + 1) * ps.
Proof.
  intros [Hp Hb Hs Hr]. unfold first_block, last_block. split.
  - intros [H1 H2]. split.
    + pose proof (Z.div_mod (p * ps + bm - 1) bm). pose proof (Z.mod_pos_bound (p * ps + bm - 1) bm). nia.
    + pose proof (Z.div_mod ((p + 1) * ps) bm). pose proof (Z.mod_pos_bound ((p + 1) * ps) bm). nia.
  - intros [H1 H2]. split.
    + apply Z.lt_succ_r, Z.div_lt_upper_bound; nia.
    + apply Z.le_succ_l, Z.div_le_lower_bound; nia.
Qed.
Lemma range_page p ps bm i :
  page_sizes p ps bm → first_block p ps bm ≤ i < last_block p ps bm → i * bm / ps = p.
Proof.
  intros Hs Hi. apply block_range_iff in Hi; [|done]. destruct Hs as [? ? ? ?].
  assert (0 < ps) by nia. symmetry. apply (Z.div_unique _ _ _ (i * bm - p * ps)); nia.
Qed.
Lemma range_count p ps bm :
  page_sizes p ps bm → bm <= ps →
  ps / bm - 1 ≤ last_block p ps bm - first_block p ps bm ≤ ps / bm.
Proof.
  intros [Hp Hb Hs Hr] Hle. unfold first_block, last_block.
  pose proof (Z.div_mod (p * ps + bm - 1) bm). pose proof (Z.mod_pos_bound (p * ps + bm - 1) bm).
  pose proof (Z.div_mod ((p + 1) * ps) bm). pose proof (Z.mod_pos_bound ((p + 1) * ps) bm).
  pose proof (Z.div_mod ps bm). pose proof (Z.mod_pos_bound ps bm). nia.
Qed.
Lemma range_divisible p k bm :
  page_sizes p (k * bm) bm → last_block p (k * bm) bm - first_block p (k * bm) bm = k.
Proof.
  intros [Hp Hb Hs Hr]. unfold first_block, last_block.
  replace (p * (k * bm) + bm - 1) with (p * k * bm + (bm - 1)) by ring.
  replace ((p + 1) * (k * bm)) with ((p * k + k) * bm) by ring.
  rewrite Z.div_add_l, Z.div_mul, (Z.div_small (bm - 1)) by lia. lia.
Qed.

(** ** Pages *)

(** A page that is in use: [out] are the blocks handed out. *)
Record page_ok (p : VirtPage) (bm : Z) (out : list Z) : Prop := {
  po_sizes : page_sizes (page_id_ p) (page_size_ p) bm;
  po_nonneg : first_block (page_id_ p) (page_size_ p) bm ≤ last_block (page_id_ p) (page_size_ p) bm;
  po_start : start_block_ p = Some (first_block (page_id_ p) (page_size_ p) bm);
  po_end : end_block_ p = Some (last_block (page_id_ p) (page_size_ p) bm);
  po_num : num_kv_blocks_ p =
    Some (last_block (page_id_ p) (page_size_ p) bm - first_block (page_id_ p) (page_size_ p) bm);
  po_blocks : free_list_ p ++ out ≡ₚ
    seqZ (first_block (page_id_ p) (page_size_ p) bm)
         (last_block (page_id_ p) (page_size_ p) bm - first_block (page_id_ p) (page_size_ p) bm);
}.

Lemma wp_require_init p bm out Q : page_ok p bm out → Q () p → wp require_init Q p.
Proof.
  intros [_ _ Hs He Hn _] HQ. unfold require_init. wp_steps. rewrite Hs, He, Hn.
  repeat (first [apply wp_bind|idtac]; apply wp_check; [done|]). done.
Qed.

Lemma page_init_ok i ps bm :
  page_sizes i ps bm → first_block i ps bm ≤ last_block i ps bm →
  wp (page_init bm) (λ _ p, page_ok p bm [] ∧ page_id_ p = i ∧ page_size_ p = ps ∧
     free_list_ p = seqZ (first_block i ps bm) (last_block i ps bm - first_block i ps bm)) (VirtPage_new i ps).
Proof.
  intros Hs Hle. unfold page_init. wp_steps. unfold wp at 1. simpl. rewrite get_block_range_ok by done.
  wp_steps. simpl. destruct (_ <? _) eqn:E; [apply Z.ltb_lt in E; lia|]. wp_steps.
  split; [|done]. constructor; simpl; try done.
  - rewrite u64_id; [done|]. pose proof Hs as [? ? ? ?].
    pose proof (proj1 (block_range_iff i ps bm (last_block i ps bm - 1) Hs)).
    unfold last_block in *.
    assert ((i + 1) * ps / bm < 2 ^ 63) by (apply Z.div_lt_upper_bound; nia).
    assert (0 ≤ first_block i ps bm) by (unfold first_block; apply Z.div_pos; nia). lia.
  - by rewrite app_nil_r.
Qed.

Lemma page_alloc_ok p bm out n :
  page_ok p bm out → free_list_ p ≠ [] →
  wp (page_alloc n)
     (λ l p', l = take n (free_list_ p) ∧ page_ok p' bm (out ++ l) ∧
        free_list_ p' = drop n (free_list_ p) ∧ page_id_ p' = page_id_ p ∧ page_size_ p' = page_size_ p) p.
Proof.
  intros Hp Hne. unfold page_alloc. apply wp_bind. eapply wp_require_init; [done|].
  unfold page_full. apply wp_bind, wp_bind. eapply wp_require_init; [done|]. wp_steps.
  rewrite bool_decide_false by done. wp_steps. destruct Hp as [H1 H2 H3 H4 H5 H6].
  assert (take (Nat.min n (length (free_list_ p))) (free_list_ p) = take n (free_list_ p) ∧
          drop (Nat.min n (length (free_list_ p))) (free_list_ p) = drop n (free_list_ p)) as [-> ->].
  { destruct (decide (n ≤ length (free_list_ p))%nat); [by rewrite Nat.min_l|].
    rewrite Nat.min_r by lia. by rewrite !(take_ge _ n), !(drop_ge _ n), take_ge, drop_ge by lia. }
  split; [done|]. split; [|done]. constructor; try done. simpl. rewrite <-H6.
  rewrite (Permutation_app_comm out), (app_assoc (drop _ _)), (Permutation_app_comm (drop _ _)).
  by rewrite take_drop.
Qed.
Lemma page_alloc_full p bm out n :
  page_ok p bm out → free_list_ p = [] → page_alloc n p = Throws "VirtPage is already full" p.
Proof.
  intros [_ _ Hs He Hn _] Hnil. destruct p as [i ps sb eb nb fl]. simpl in *. subst fl sb eb nb. done.
Qed.

Lemma page_free_ok p bm out ids out' :
  page_ok p bm out → out ≡ₚ ids ++ out' →
  wp (page_free_batch ids)
     (λ _ p', page_ok p' bm out' ∧ free_list_ p' = free_list_ p ++ ids ∧
        page_id_ p' = page_id_ p ∧ page_size_ p' = page_size_ p) p.
Proof.
  intros Hp Ho. unfold page_free_batch. apply wp_bind. eapply wp_require_init; [done|]. wp_steps.
  destruct Hp as [H1 H2 H3 H4 H5 H6]. split; [|done]. constructor; try done. simpl.
  by rewrite <-H6, Ho, <-app_assoc.
Qed.
Lemma page_empty_ok p bm out Q :
  page_ok p bm out → Q (bool_decide (out = [])) p → wp page_empty Q p.
Proof.
  intros Hp HQ. unfold page_empty. apply wp_bind. eapply wp_require_init; [done|]. wp_steps.
  destruct Hp as [H1 H2 H3 H4 H5 H6]. rewrite H5. simpl.
  replace (_ =? _) with (bool_decide (out = [])); [done|].
  apply Permutation_length in H6. rewrite length_app, length_seqZ in H6.
  case_bool_decide as Ho; symmetry; [apply Z.eqb_eq; subst; simpl in H6; lia|apply Z.eqb_neq].
  destruct out; [done|]. simpl in H6. lia.
Qed.
Lemma page_full_ok p bm out Q :
  page_ok p bm out → Q (bool_decide (free_list_ p = [])) p → wp page_full Q p.
Proof. intros Hp HQ. unfold page_full. apply wp_bind. eapply wp_require_init; [done|]. by wp_steps. Qed.

(** ** Properties *)

(** [init] gives a page exactly the blocks whose bytes lie inside it, each once, and the
    page number the allocator computes from such a block ([block_id * block_mem_size /
    page_size]) is this page's: a block of another page, or one that crosses a boundary, is
    never handed out. *)
Theorem page_holds_inner_blocks i ps bm :
  page_sizes i ps bm → first_block i ps bm ≤ last_block i ps bm →
  wp (page_init bm)
     (λ _ p, page_ok p bm [] ∧ NoDup (free_list_ p) ∧
        ∀ b, (b ∈ free_list_ p ↔ i * ps ≤ b * bm ∧ (b + 1) * bm ≤ (i + 1) * ps) ∧
             (b ∈ free_list_ p → b * bm / ps = i)) (VirtPage_new i ps).
Proof.
  intros Hs Hle. eapply wp_mono; [by apply page_init_ok|].
  intros [] p (Hok & _ & _ & Hf). split; [done|]. rewrite Hf. split; [apply NoDup_seqZ|].
  intros b. rewrite elem_of_seqZ. rewrite <-(block_range_iff i ps bm b Hs). split; [lia|].
  intros Hb. apply range_page; [done|lia].
Qed.
Lemma page_holds_inner_blocks_witness :
  wp (page_init 3) (λ _ p, 4 ∈ free_list_ p ↔ 1 * 10 ≤ 4 * 3 ∧ (4 + 1) * 3 ≤ (1 + 1) * 10)
     (VirtPage_new 1 10).
Proof.
  eapply wp_mono; [apply (page_holds_inner_blocks 1 10 3)|].
  - constructor; lia.
  - by vm_compute.
  - intros [] p (_ & _ & Hb). apply Hb.
Defined.

(** [alloc(n)] on a page in use throws when the page is full; otherwise it hands out the
    first [n] free blocks (all of them when fewer are left), which nobody holds and which
    lie in the page, and [free_batch] of the same blocks brings the page back to the blocks
    it had. *)
Theorem page_alloc_roundtrip p bm out n :
  page_ok p bm out →
  (free_list_ p = [] → page_alloc n p = Throws "VirtPage is already full" p) ∧
  (free_list_ p ≠ [] →
   wp (page_alloc n)
      (λ l p1, l = take n (free_list_ p) ∧ page_ok p1 bm (out ++ l) ∧ (∀ b, b ∈ l → b ∉ out) ∧
         wp (page_free_batch l)
            (λ _ p2, page_ok p2 bm out ∧ free_list_ p2 ≡ₚ free_list_ p) p1) p).
Proof.
  intros Hp. split; [by eapply page_alloc_full|]. intros Hne.
  eapply wp_mono; [by apply page_alloc_ok|]. intros l p1 (-> & Hp1 & Hf1 & _).
  split; [done|]. split; [done|]. split.
  - intros b Hb Ho. pose proof (po_blocks _ _ _ Hp) as Hperm.
    assert (NoDup (free_list_ p ++ out)) as Hnd by (rewrite Hperm; apply NoDup_seqZ).
    apply NoDup_app in Hnd as (_ & Hd & _). apply (Hd b); [|done].
    rewrite <-(take_drop n (free_list_ p)). apply elem_of_app. by left.
  - eapply wp_mono; [apply (page_free_ok p1 bm (out ++ take n (free_list_ p)) _ out); [done|]|].
    + by rewrite Permutation_app_comm.
    + intros [] p2 (Hp2 & Hf2 & _). split; [done|]. rewrite Hf2, Hf1, Permutation_app_comm.
      by rewrite take_drop.
Qed.
Lemma page_alloc_roundtrip_witness :
  wp (page_init 3 ≫= λ _, page_alloc 2) (λ l _, l = [4; 5]) (VirtPage_new 1 10).
Proof.
  apply wp_bind. eapply wp_mono; [apply (page_init_ok 1 10 3); [constructor; lia|by vm_compute]|].
  intros [] p (Hok & _ & _ & Hf). destruct (page_alloc_roundtrip p 3 [] 2 Hok) as [_ Ha].
  eapply wp_mono; [apply Ha; by rewrite Hf|]. intros l p' (-> & _). rewrite Hf. computed.
Defined.
