(* ===== verification/PhyPagePool.v ===== *)
(** The pool of physical pages: [core/framework/xtensor/phy_page_pool.h] and
    [phy_page_pool.cpp].

    The KV cache takes pages from the front of the free list (low ids), weights take
    them from the right end of the pool (high ids).  A page given to the KV cache
    moves out of [all_pages_]; a weight page stays in it and is only marked.
    [pool_ok] is the invariant, [out] the pages the KV cache holds and [wts] those of
    the weights.  Every operation runs under [mtx_]. *)

From stdpp Require Import base gmap list strings sets.
From Stdlib Require Import ZArith Lia.
From S2P Require Import Prelude.
Open Scope Z_scope.

(** [PhyPage]: the device it is on and its id *)
Record PhyPage := mkPhyPage { page_device : Z; phy_page_id : Z }.
#[export] Instance PhyPage_eq_dec : EqDecision PhyPage.
Proof. solve_decision. Defined.

Record PhyPool := mkPhyPool {
  initialized_ : bool;
  device_ : Z;
  num_total_pages_ : nat;
  all_pages_ : list (option PhyPage);
  free_page_ids_ : list Z;
  page_allocated_ : list bool;
}.
Definition PhyPool_new : PhyPool := mkPhyPool false 0 0 [] [] [].

Definition set_free_ids (l : list Z) (p : PhyPool) : PhyPool :=
  mkPhyPool (initialized_ p) (device_ p) (num_total_pages_ p) (all_pages_ p) l (page_allocated_ p).
Definition set_page (i : Z) (g : option PhyPage) (p : PhyPool) : PhyPool :=
  mkPhyPool (initialized_ p) (device_ p) (num_total_pages_ p) (<[Z.to_nat i := g]> (all_pages_ p))
    (free_page_ids_ p) (page_allocated_ p).
Definition set_allocated (i : Z) (b : bool) (p : PhyPool) : PhyPool :=
  mkPhyPool (initialized_ p) (device_ p) (num_total_pages_ p) (all_pages_ p) (free_page_ids_ p)
    (<[Z.to_nat i := b]> (page_allocated_ p)).

(** [init(device, num_pages)] *)
Definition pool_init (device : Z) (num_pages : nat) : prog PhyPool unit :=
  get ≫= λ p,
  if initialized_ p then mret ()
  else
    let new_ids := seqZ 0 (Z.of_nat num_pages) in
    put (mkPhyPool true device num_pages (all_pages_ p ++ ((λ i, Some (mkPhyPage device i)) <$> new_ids))
           (free_page_ids_ p ++ new_ids) (take num_pages (page_allocated_ p ++ replicate num_pages false))).

Definition check_init : prog PhyPool unit :=
  get ≫= λ p, check (initialized_ p) "PhyPagePool not initialized".

(** The body both [get]s share: takes the front page out of the pool. *)
Definition take_front : prog PhyPool (option PhyPage) :=
  get ≫= λ p,
  match free_page_ids_ p with
  | [] => undef "front of an empty deque"
  | page_id :: rest =>
      modify (set_free_ids rest) ≫= λ _,
      atZ (page_allocated_ p) page_id ≫= λ _,
      modify (set_allocated page_id true) ≫= λ _,
      atZ (all_pages_ p) page_id ≫= λ g : option PhyPage,
      modify (set_page page_id None) ≫= λ _, mret g
  end.

(** [get()] *)
Definition pool_get : prog PhyPool (option PhyPage) :=
  check_init ≫= λ _,
  get ≫= λ p,
  if bool_decide (free_page_ids_ p = []) then mret None else take_front.

(** [batch_get(count)] *)
Definition batch_get (count : nat) : prog PhyPool (list (option PhyPage)) :=
  check_init ≫= λ _,
  get ≫= λ p,
  if (count =? 0)%nat then mret []
  else if (length (free_page_ids_ p) <? count)%nat then mret []
  else repeat_each count take_front.

(** [put(page)] *)
Definition pool_put (page : option PhyPage) : prog PhyPool unit :=
  match page with
  | None => mret ()
  | Some g =>
      check_init ≫= λ _,
      get ≫= λ p,
      check (page_device g =? device_ p) "Page device mismatch" ≫= λ _,
      check ((0 <=? phy_page_id g) && (phy_page_id g <? Z.of_nat (num_total_pages_ p))) "Invalid page_id" ≫= λ _,
      atZ (all_pages_ p) (phy_page_id g) ≫= λ _,
      modify (set_page (phy_page_id g) (Some g)) ≫= λ _,
      atZ (page_allocated_ p) (phy_page_id g) ≫= λ _,
      modify (set_allocated (phy_page_id g) false) ≫= λ _,
      modify (λ p, set_free_ids (phy_page_id g :: free_page_ids_ p) p)
  end.

(** [batch_put(pages)] *)
Definition batch_put (pages : list (option PhyPage)) : prog PhyPool unit :=
  if bool_decide (pages = []) then mret ()
  else check_init ≫= λ _, for_each pages pool_put.

(** The scan for a run of [count] free pages, from [i - 1] down *)
Fixpoint scan_right (allocated : list bool) (count run i : nat) : option nat :=
  match i with
  | O => None
  | S i =>
      if default true (allocated !! i) then scan_right allocated count 0 i
      else if (S run =? count)%nat then Some i
      else scan_right allocated count (S run) i
  end.

(** [allocate_contiguous_from_right(count)] *)
Definition allocate_contiguous_from_right (count : nat) : prog PhyPool Z :=
  check_init ≫= λ _,
  get ≫= λ p,
  if (count =? 0)%nat || (length (free_page_ids_ p) <? count)%nat then mret (-1)
  else
    match scan_right (page_allocated_ p) count 0 (num_total_pages_ p) with
    | None => mret (-1)
    | Some start =>
        let start_page := Z.of_nat start in
        let end_page := start_page + Z.of_nat count in
        for_each (seqZ start_page (Z.of_nat count)) (λ i, modify (set_allocated i true)) ≫= λ _,
        modify (λ p, set_free_ids (filter (λ i, ¬ (start_page ≤ i < end_page)) (free_page_ids_ p)) p) ≫= λ _,
        mret start_page
    end.

(** The scan for [count] free pages, from [i - 1] down *)
Fixpoint collect_right (allocated : list bool) (count i : nat) : list Z :=
  match i, count with
  | O, _ | _, O => []
  | S i, S count' =>
      if default true (allocated !! i) then collect_right allocated count i
      else Z.of_nat i :: collect_right allocated count' i
  end.

(** [allocate_pages_from_right(count)] *)
Definition allocate_pages_from_right (count : nat) : prog PhyPool (list Z) :=
  check_init ≫= λ _,
  get ≫= λ p,
  if (count =? 0)%nat || (length (free_page_ids_ p) <? count)%nat then mret []
  else
    let result := collect_right (page_allocated_ p) count (num_total_pages_ p) in
    if (length result <? count)%nat then mret []
    else
      for_each result (λ i, modify (set_allocated i true)) ≫= λ _,
      modify (λ p, set_free_ids (filter (λ i, i ∉ result) (free_page_ids_ p)) p) ≫= λ _,
      mret result.

(** [free_weight_pages(page_ids)] *)
Definition free_weight_pages (page_ids : list Z) : prog PhyPool unit :=
  if bool_decide (page_ids = []) then mret ()
  else
    check_init ≫= λ _,
    for_each page_ids (λ page_id,
      get ≫= λ p,
      check ((0 <=? page_id) && (page_id <? Z.of_nat (num_total_pages_ p))) "Invalid page_id" ≫= λ _,
      atZ (page_allocated_ p) page_id ≫= λ allocated : bool,
      if negb allocated then mret ()
      else
        modify (set_allocated page_id false) ≫= λ _,
        modify (λ p, set_free_ids (free_page_ids_ p ++ [page_id]) p)).

Definition num_available (p : PhyPool) : nat := length (free_page_ids_ p).

(** ** The invariant *)

Record phys_ok (p : PhyPool) (out wts : list Z) : Prop := {
  pp_init : initialized_ p = true;
  pp_pages_len : length (all_pages_ p) = num_total_pages_ p;
  pp_marks_len : length (page_allocated_ p) = num_total_pages_ p;
  pp_partition : free_page_ids_ p ++ out ++ wts ≡ₚ seqZ 0 (Z.of_nat (num_total_pages_ p));
  pp_marks : ∀ i, 0 ≤ i < Z.of_nat (num_total_pages_ p) →
    page_allocated_ p !! Z.to_nat i = Some (bool_decide (i ∉ free_page_ids_ p));
  pp_pages : ∀ i, 0 ≤ i < Z.of_nat (num_total_pages_ p) →
    all_pages_ p !! Z.to_nat i =
      Some (if decide (i ∈ out) then None else Some (mkPhyPage (device_ p) i));
}.

(** What no operation changes *)
Definition same_pool (p p' : PhyPool) : Prop :=
  device_ p' = device_ p ∧ num_total_pages_ p' = num_total_pages_ p.

Lemma phys_range p out wts i :
  phys_ok p out wts → (i ∈ free_page_ids_ p ∨ i ∈ out ∨ i ∈ wts) ↔ 0 ≤ i < Z.of_nat (num_total_pages_ p).
Proof.
  intros Hp. assert (i ∈ free_page_ids_ p ++ out ++ wts ↔ i ∈ seqZ 0 (Z.of_nat (num_total_pages_ p))) as Hi
    by (by rewrite (pp_partition _ _ _ Hp)).
  rewrite !elem_of_app, elem_of_seqZ in Hi. rewrite Hi. lia.
Qed.
Lemma phys_nodup p out wts : phys_ok p out wts → NoDup (free_page_ids_ p ++ out ++ wts).
Proof. intros Hp. rewrite (pp_partition _ _ _ Hp). apply NoDup_seqZ. Qed.

Lemma wp_check_init p out wts Q : phys_ok p out wts → Q () p → wp check_init Q p.
Proof. intros Hp HQ. unfold check_init. wp_steps. apply wp_check; [apply Hp|done]. Qed.

Lemma pool_init_ok device n :
  wp (pool_init device n) (λ _ p, phys_ok p [] [] ∧ device_ p = device ∧ num_total_pages_ p = n ∧
     free_page_ids_ p = seqZ 0 (Z.of_nat n)) PhyPool_new.
Proof.
  unfold pool_init. wp_steps. simpl. wp_steps. split; [|done].
  constructor; simpl; try done.
  - rewrite length_fmap, length_seqZ. lia.
  - rewrite length_take, length_replicate. lia.
  - by rewrite app_nil_r.
  - intros i Hi. rewrite take_ge by (rewrite length_replicate; lia).
    rewrite lookup_replicate_2, bool_decide_false; [done| |lia].
    intros Hn. apply Hn, elem_of_seqZ. lia.
  - intros i Hi. rewrite list_lookup_fmap, lookup_seqZ_lt by lia. simpl.
    do 3 f_equal. lia.
Qed.

(** A list indexed by page ids, after one change *)
Lemma lookup_insert_id {A} (l : list A) i x j :
  0 ≤ i < Z.of_nat (length l) → 0 ≤ j →
  <[Z.to_nat i := x]> l !! Z.to_nat j = if decide (j = i) then Some x else l !! Z.to_nat j.
Proof.
  intros Hi Hj. case_decide as Hd.
  - subst. apply list_lookup_insert_eq. lia.
  - apply list_lookup_insert_ne. lia.
Qed.

Lemma take_front_ok p out wts i rest :
  phys_ok p out wts → free_page_ids_ p = i :: rest →
  wp take_front
     (λ g p', g = Some (mkPhyPage (device_ p) i) ∧ phys_ok p' (i :: out) wts ∧
        free_page_ids_ p' = rest ∧ same_pool p p') p.
Proof.
  intros Hp Hf. unfold take_front. wp_steps. rewrite Hf. wp_steps.
  assert (0 ≤ i < Z.of_nat (num_total_pages_ p)) as Hi.
  { apply (phys_range _ _ _ _ Hp). left. rewrite Hf. by left. }
  pose proof (phys_nodup _ _ _ Hp) as Hnd. rewrite Hf in Hnd.
  apply NoDup_cons in Hnd as [Hn Hnd]. rewrite !elem_of_app in Hn.
  destruct Hp as [H1 H2 H3 H4 H5 H6].
  eapply wp_atZ; [lia|by apply H5|]. wp_steps. eapply wp_atZ; [lia|by apply H6|]. wp_steps.
  split; [rewrite decide_False by tauto; done|]. split; [|done]. constructor; simpl; rewrite ?length_insert; try done.
  - rewrite <-H4, Hf. simpl. by rewrite <-Permutation_middle.
  - intros j Hj. rewrite lookup_insert_id by lia. case_decide as Hd.
    + subst. by rewrite bool_decide_true by tauto.
    + rewrite H5 by done. f_equal. apply bool_decide_ext. rewrite Hf, elem_of_cons. naive_solver.
  - intros j Hj. rewrite lookup_insert_id by lia. case_decide as Hd.
    + subst. by rewrite decide_True by (by left).
    + rewrite H6 by done. f_equal. apply decide_ext. rewrite elem_of_cons. naive_solver.
Qed.

Lemma pool_get_ok p out wts :
  phys_ok p out wts →
  wp pool_get
     (λ g p', same_pool p p' ∧
        match free_page_ids_ p with
        | [] => g = None ∧ p' = p
        | i :: rest => g = Some (mkPhyPage (device_ p) i) ∧ phys_ok p' (i :: out) wts ∧ free_page_ids_ p' = rest
        end) p.
Proof.
  intros Hp. unfold pool_get. apply wp_bind. eapply wp_check_init; [done|]. wp_steps.
  destruct (free_page_ids_ p) as [|i rest] eqn:Hf.
  - by rewrite bool_decide_true by done; wp_steps.
  - rewrite bool_decide_false by done. eapply wp_mono; [by apply take_front_ok|].
    intros g p' (-> & Hp' & Hf' & Hs). done.
Qed.

Lemma batch_get_ok p out wts count :
  phys_ok p out wts →
  wp (batch_get count)
     (λ gs p', same_pool p p' ∧
        if decide (count ≤ length (free_page_ids_ p))%nat
        then gs = (λ i, Some (mkPhyPage (device_ p) i)) <$> take count (free_page_ids_ p) ∧
             phys_ok p' (rev (take count (free_page_ids_ p)) ++ out) wts ∧
             free_page_ids_ p' = drop count (free_page_ids_ p)
        else gs = [] ∧ p' = p) p.
Proof.
  intros Hp. unfold batch_get. apply wp_bind. eapply wp_check_init; [done|]. wp_steps.
  destruct (count =? 0)%nat eqn:E.
  { apply Nat.eqb_eq in E as ->. wp_steps. rewrite decide_True by lia. done. }
  destruct (_ <? count)%nat eqn:E2.
  { apply Nat.ltb_lt in E2. wp_steps. by rewrite decide_False by lia. }
  apply Nat.ltb_ge in E2. eapply wp_mono.
  - apply (wp_repeat_each _ _ (λ k gs p', ∃ n, (n + k = count)%nat ∧ same_pool p p' ∧
      gs = (λ i, Some (mkPhyPage (device_ p) i)) <$> take n (free_page_ids_ p) ∧
      phys_ok p' (rev (take n (free_page_ids_ p)) ++ out) wts ∧
      free_page_ids_ p' = drop n (free_page_ids_ p))).
    + exists O. done.
    + intros k gs p' (n & Hn & Hs & -> & Hp' & Hf').
      destruct (lookup_lt_is_Some_2 (free_page_ids_ p) n) as [i Hi]; [lia|].
      eapply wp_mono; [apply (take_front_ok p' (rev (take n (free_page_ids_ p)) ++ out) wts i (drop (S n) (free_page_ids_ p))); [done|]|].
      { by rewrite Hf', (drop_S _ _ _ Hi). }
      intros g p2 (-> & Hp2 & Hf2 & Hs2). exists (S n). split; [lia|].
      rewrite (take_S_r _ _ _ Hi), fmap_app, rev_app_distr. destruct Hs as [Hs Hs'], Hs2 as [Hs2 Hs2'].
      split; [split; congruence|]. rewrite Hs. done.
  - intros gs p' (n & Hn & Hs & -> & Hp' & Hf'). replace n with count in * by lia.
    rewrite decide_True by done. done.
Qed.

Lemma pool_put_ok p out wts i :
  phys_ok p (i :: out) wts →
  wp (pool_put (Some (mkPhyPage (device_ p) i)))
     (λ _ p', phys_ok p' out wts ∧ free_page_ids_ p' = i :: free_page_ids_ p ∧ same_pool p p') p.
Proof.
  intros Hp. unfold pool_put. apply wp_bind. eapply wp_check_init; [done|]. wp_steps.
  apply wp_check; [apply Z.eqb_refl|]. apply wp_bind.
  assert (0 ≤ i < Z.of_nat (num_total_pages_ p)) as Hi.
  { apply (phys_range _ _ _ _ Hp). right. left. by left. }
  apply wp_check; [apply andb_true_iff; rewrite Z.leb_le, Z.ltb_lt; simpl; lia|].
  pose proof (phys_nodup _ _ _ Hp) as Hnd. simpl in Hnd. apply NoDup_middle in Hnd as [Hn Hnd].
  rewrite !elem_of_app in Hn. destruct Hp as [H1 H2 H3 H4 H5 H6]. simpl.
  wp_steps. eapply wp_atZ; [lia|by apply H6|]. wp_steps. eapply wp_atZ; [lia|by apply H5|]. wp_steps.
  split; [|done]. constructor; simpl; rewrite ?length_insert; try done.
  - rewrite <-H4. simpl. by rewrite <-Permutation_middle.
  - intros j Hj. rewrite lookup_insert_id by lia. case_decide as Hd.
    + subst. by rewrite bool_decide_false by set_solver.
    + rewrite H5 by done. f_equal. apply bool_decide_ext. rewrite elem_of_cons. naive_solver.
  - intros j Hj. rewrite lookup_insert_id by lia. case_decide as Hd.
    + subst. by rewrite decide_False by tauto.
    + rewrite H6 by done. f_equal. apply decide_ext. rewrite elem_of_cons. naive_solver.
Qed.

(** ** Pages for weights *)

Definition free_run (al : list bool) (s count : nat) : Prop :=
  ∀ j, (s ≤ j < s + count)%nat → al !! j = Some false.

(** The scan finds the rightmost run; [run] free marks were seen from [i] up. *)
Lemma scan_right_spec al count run i :
  (run < count)%nat → (∀ j, (i ≤ j < i + run)%nat → al !! j = Some false) →
  match scan_right al count run i with
  | Some s => free_run al s count ∧ (s + count ≤ i + run)%nat ∧
      ∀ s', (s < s')%nat → (s' + count ≤ i + run)%nat → ¬ free_run al s' count
  | None => ∀ s', (s' + count ≤ i + run)%nat → ¬ free_run al s' count
  end.
Proof.
  revert run. induction i as [|i IH]; intros run Hr Hf; [simpl; lia|cbn [scan_right]].
  destruct (default true (al !! i)) eqn:Hi.
  - assert (∀ s', (s' + count ≤ S i + run)%nat → free_run al s' count → (s' + count ≤ i)%nat) as Hw.
    { intros s' Hs' Hfree. destruct (decide (s' + count ≤ i)%nat); [done|].
      specialize (Hfree i ltac:(lia)). by rewrite Hfree in Hi. }
    specialize (IH O ltac:(lia) ltac:(lia)). rewrite Nat.add_0_r in IH.
    destruct (scan_right al count 0 i) as [s|].
    + destruct IH as (H1 & H2 & H3). split; [done|]. split; [lia|].
      intros s' Hlt Hle Hfree. apply (H3 s' Hlt); [by apply Hw|done].
    + intros s' Hle Hfree. apply (IH s'); [by apply Hw|done].
  - assert (al !! i = Some false) as Hi' by (destruct (al !! i) as [[]|]; done).
    assert (∀ j, (i ≤ j < i + S run)%nat → al !! j = Some false) as Hf'.
    { intros j Hj. destruct (decide (j = i)) as [->|]; [done|]. apply Hf. lia. }
    destruct (S run =? count)%nat eqn:E.
    + apply Nat.eqb_eq in E. split; [intros j Hj; apply Hf'; lia|]. split; [lia|]. lia.
    + apply Nat.eqb_neq in E. specialize (IH (S run) ltac:(lia) Hf').
      by replace (i + S run)%nat with (S i + run)%nat in IH by lia.
Qed.

(** The free ids below [i], from the right *)
Definition frees (al : list bool) (i : nat) : list Z :=
  Z.of_nat <$> filter (λ j : nat, default true (al !! j) = false) (rev (seq 0 i)).
Lemma collect_right_spec al count i : collect_right al count i = take count (frees al i).
Proof.
  revert count. induction i as [|i IH]; intros count; [by destruct count|].
  unfold frees. rewrite seq_S, rev_app_distr. simpl. rewrite filter_cons.
  destruct count as [|count]; [done|]. cbn [collect_right].
  destruct (default true (al !! i)); simpl; by rewrite IH.
Qed.
Lemma frees_perm p out wts :
  phys_ok p out wts → frees (page_allocated_ p) (num_total_pages_ p) ≡ₚ free_page_ids_ p.
Proof.
  intros Hp. apply NoDup_Permutation.
  - unfold frees. apply NoDup_fmap_2; [apply _|]. apply NoDup_filter. rewrite <-Permutation_rev. apply NoDup_seq.
  - pose proof (phys_nodup _ _ _ Hp) as Hnd. by apply NoDup_app in Hnd as [? _].
  - intros i. unfold frees. rewrite list_elem_of_fmap. split.
    + intros (j & -> & [Hj Hin]%list_elem_of_filter). rewrite <-Permutation_rev, elem_of_seq in Hin.
      pose proof (pp_marks _ _ _ Hp (Z.of_nat j) ltac:(lia)) as Hm. rewrite Nat2Z.id in Hm. rewrite Hm in Hj.
      simpl in Hj. apply bool_decide_eq_false in Hj. by apply dec_stable.
    + intros Hi. assert (0 ≤ i < Z.of_nat (num_total_pages_ p)) as Hr by (apply (phys_range _ _ _ _ Hp); by left).
      exists (Z.to_nat i). split; [lia|]. apply list_elem_of_filter. split.
      * rewrite (pp_marks _ _ _ Hp i Hr). simpl. apply bool_decide_eq_false. by intros Hn.
      * rewrite <-Permutation_rev, elem_of_seq. lia.
Qed.

(** Marking ids and taking them off the free list *)
Lemma take_ids_ok p out wts ids (P : Z → Prop) `{!∀ x, Decision (P x)} Q :
  phys_ok p out wts → NoDup ids → ids ⊆ free_page_ids_ p →
  (∀ x, x ∈ free_page_ids_ p → P x ↔ x ∉ ids) →
  (∀ p', phys_ok p' out (ids ++ wts) → same_pool p p' →
     free_page_ids_ p' = filter (λ x, x ∉ ids) (free_page_ids_ p) → Q () p') →
  wp (for_each ids (λ i, modify (set_allocated i true)) ≫= λ _,
      modify (λ p, set_free_ids (filter P (free_page_ids_ p)) p)) Q p.
Proof.
  intros Hp Hnd Hsub HP HQ. apply wp_bind. eapply wp_mono.
  - apply (wp_for_each _ _ (λ rest p', ∃ done', ids = done' ++ rest ∧
      p' = mkPhyPool (initialized_ p) (device_ p) (num_total_pages_ p) (all_pages_ p) (free_page_ids_ p)
             (page_allocated_ p') ∧ length (page_allocated_ p') = num_total_pages_ p ∧
      ∀ j, 0 ≤ j < Z.of_nat (num_total_pages_ p) → page_allocated_ p' !! Z.to_nat j =
        if decide (j ∈ done') then Some true else page_allocated_ p !! Z.to_nat j)).
    + exists []. split; [done|]. split; [by destruct p|]. split; [apply Hp|done].
    + intros a rest p' (dn & -> & Hp' & Hl & Hm). apply wp_modify. exists (dn ++ [a]).
      split; [by rewrite <-app_assoc|]. split; [by rewrite Hp'|]. simpl. rewrite length_insert. split; [done|].
      assert (0 ≤ a < Z.of_nat (num_total_pages_ p)) as Ha.
      { apply (phys_range _ _ _ _ Hp). left. apply Hsub. set_solver. }
      intros j Hj. rewrite lookup_insert_id, Hm by lia.
      destruct (decide (j = a)) as [->|]; [by rewrite decide_True by set_solver|].
      apply decide_ext. set_solver.
  - intros _ p' (dn & -> & Hp' & Hl & Hm). rewrite app_nil_r in *. apply wp_modify. rewrite Hp'. simpl.
    assert (filter P (free_page_ids_ p) = filter (λ x, x ∉ dn) (free_page_ids_ p)) as -> by (by apply filter_ext_on).
    apply HQ; [|done|done]. destruct Hp as [H1 H2 H3 H4 H5 H6]. constructor; try done.
    + simpl. rewrite <-H4. rewrite (Permutation_app_comm dn), !app_assoc, (Permutation_app_comm _ dn).
      rewrite !app_assoc. do 2 f_equiv. pose proof H4 as H7. clear -Hnd Hsub H7.
      assert (NoDup (free_page_ids_ p)) as Hnf.
      { assert (NoDup (free_page_ids_ p ++ out ++ wts)) as Hn by (rewrite H7; apply NoDup_seqZ).
        by apply NoDup_app in Hn as [? _]. }
      apply NoDup_Permutation; [|done|].
      * apply NoDup_app. split; [done|]. split; [|by apply NoDup_filter].
        intros x Hx [? _]%list_elem_of_filter. done.
      * intros x. rewrite elem_of_app, list_elem_of_filter. destruct (decide (x ∈ dn)); set_solver.
    + intros j Hj. simpl. rewrite Hm by done. rewrite H5 by done. case_decide as Hd.
      * f_equal. symmetry. apply bool_decide_eq_true. rewrite list_elem_of_filter. tauto.
      * f_equal. apply bool_decide_ext. rewrite list_elem_of_filter. tauto.
Qed.

Lemma allocate_contiguous_ok p out wts count :
  phys_ok p out wts →
  wp (allocate_contiguous_from_right count)
     (λ r p', same_pool p p' ∧
        if decide (r = -1) then p' = p ∧
          (count = O ∨ ∀ s, ¬ (∀ i, s ≤ i < s + Z.of_nat count → i ∈ free_page_ids_ p))
        else
          phys_ok p' out (seqZ r (Z.of_nat count) ++ wts) ∧
          (∀ i, r ≤ i < r + Z.of_nat count → i ∈ free_page_ids_ p) ∧
          (∀ s, r < s → ¬ (∀ i, s ≤ i < s + Z.of_nat count → i ∈ free_page_ids_ p))) p.
Proof.
  intros Hp. unfold allocate_contiguous_from_right. apply wp_bind. eapply wp_check_init; [done|]. wp_steps.
  assert (∀ (s : Z), (0 < count)%nat → (∀ i, s ≤ i < s + Z.of_nat count → i ∈ free_page_ids_ p) →
            0 ≤ s ∧ (Z.to_nat s + count ≤ num_total_pages_ p)%nat ∧ free_run (page_allocated_ p) (Z.to_nat s) count) as Hrun.
  { intros s Hc Hall.
    assert (∀ i, s ≤ i < s + Z.of_nat count → 0 ≤ i < Z.of_nat (num_total_pages_ p)) as Hr
      by (intros i Hi; apply (phys_range _ _ _ _ Hp); left; by apply Hall).
    pose proof (Hr s ltac:(lia)). pose proof (Hr (s + Z.of_nat count - 1) ltac:(lia)).
    split; [lia|]. split; [lia|]. intros j Hj.
    pose proof (pp_marks _ _ _ Hp (Z.of_nat j) ltac:(lia)) as Hm. rewrite Nat2Z.id in Hm. rewrite Hm. f_equal.
    apply bool_decide_eq_false. intros Hn. apply Hn, Hall. lia. }
  destruct (_ || _) eqn:E.
  { wp_steps. split; [done|]. rewrite decide_True by done. split; [done|].
    apply orb_true_iff in E as [E|E]; [apply Nat.eqb_eq in E; by left|right]. apply Nat.ltb_lt in E.
    intros s Hall. assert (seqZ s (Z.of_nat count) ⊆ free_page_ids_ p) as Hsub.
    { intros i. rewrite elem_of_seqZ. apply Hall. }
    apply (NoDup_submseteq _ _ (NoDup_seqZ _ _)) in Hsub. apply submseteq_length in Hsub.
    rewrite length_seqZ in Hsub. lia. }
  apply orb_false_iff in E as [E1 E2]. apply Nat.eqb_neq in E1.
  pose proof (scan_right_spec (page_allocated_ p) count 0 (num_total_pages_ p) ltac:(lia) ltac:(lia)) as Hscan.
  rewrite Nat.add_0_r in Hscan. destruct (scan_right _ _ _ _) as [s|].
  - destruct Hscan as (Hfree & Hle & Hmax).
    assert (∀ i, Z.of_nat s ≤ i < Z.of_nat s + Z.of_nat count → i ∈ free_page_ids_ p) as Hin.
    { intros i Hi. pose proof (Hfree (Z.to_nat i) ltac:(lia)) as Hm.
      rewrite (pp_marks _ _ _ Hp i) in Hm by lia. injection Hm as Hm. apply bool_decide_eq_false in Hm. by apply dec_stable. }
    assert (∀ x, x ∈ seqZ (Z.of_nat s) (Z.of_nat count) ↔ Z.of_nat s ≤ x < Z.of_nat s + Z.of_nat count) as Hseq
      by (intros x; rewrite elem_of_seqZ; lia).
    eapply wp_seq_assoc.
    { apply (take_ids_ok p out wts (seqZ (Z.of_nat s) (Z.of_nat count)) _
        (λ _ p', same_pool p p' ∧ phys_ok p' out (seqZ (Z.of_nat s) (Z.of_nat count) ++ wts))); [done|apply NoDup_seqZ| | |done].
      - intros x Hx%Hseq. by apply Hin.
      - intros x _. by rewrite Hseq. }
    intros [] p' [Hs Hp']. wp_steps. split; [done|]. rewrite decide_False by lia. split; [done|]. split; [done|].
    intros s' Hlt Hall. destruct (Hrun s' ltac:(lia) Hall) as (? & ? & ?).
    by apply (Hmax (Z.to_nat s')); [lia|lia|].
  - wp_steps. split; [done|]. rewrite decide_True by done. split; [done|]. right.
    intros s Hall. destruct (Hrun s ltac:(lia) Hall) as (? & ? & ?). by eapply Hscan.
Qed.

Lemma allocate_pages_ok p out wts count :
  phys_ok p out wts →
  wp (allocate_pages_from_right count)
     (λ r p', same_pool p p' ∧ r ⊆ free_page_ids_ p ∧ NoDup r ∧
        length r = (if decide (count ≤ length (free_page_ids_ p))%nat then count else O) ∧
        r = take (length r) (frees (page_allocated_ p) (num_total_pages_ p)) ∧
        phys_ok p' out (r ++ wts)) p.
Proof.
  intros Hp. unfold allocate_pages_from_right. apply wp_bind. eapply wp_check_init; [done|]. wp_steps.
  pose proof (frees_perm _ _ _ Hp) as Hfp. pose proof (Permutation_length Hfp) as Hlen.
  destruct (_ || _) eqn:E.
  { wp_steps. split; [done|]. split; [by intros ? ?%elem_of_nil|]. split; [constructor|]. split; [|done].
    apply orb_true_iff in E as [E|E]; [apply Nat.eqb_eq in E as ->; by case_decide|].
    apply Nat.ltb_lt in E. by rewrite decide_False by lia. }
  apply orb_false_iff in E as [E1 E2]. apply Nat.ltb_ge in E2. rewrite collect_right_spec.
  set (l := frees _ _) in *. rewrite length_take_le by lia. rewrite Nat.ltb_irrefl.
  assert (NoDup (take count l)) as Hnd.
  { assert (NoDup l) as Hl.
    { rewrite Hfp. pose proof (phys_nodup _ _ _ Hp) as Hn. by apply NoDup_app in Hn as [? _]. }
    rewrite <-(take_drop count l) in Hl. by apply NoDup_app in Hl as [? _]. }
  assert (take count l ⊆ free_page_ids_ p) as Hsub.
  { intros x Hx. rewrite <-Hfp. rewrite <-(take_drop count l). apply elem_of_app. by left. }
  eapply wp_seq_assoc.
  { apply (take_ids_ok p out wts (take count l) _
      (λ _ p', same_pool p p' ∧ phys_ok p' out (take count l ++ wts))); done. }
  intros [] p' [Hs Hp']. wp_steps. split; [done|]. split; [done|]. split; [done|].
  rewrite length_take_le, decide_True by lia. done.
Qed.

(** Weight pages come back at the end of the free list. *)
Lemma free_weight_pages_ok p out wts wts' ids :
  phys_ok p out wts → wts ≡ₚ ids ++ wts' →
  wp (free_weight_pages ids)
     (λ _ p', phys_ok p' out wts' ∧ free_page_ids_ p' = free_page_ids_ p ++ ids ∧ same_pool p p') p.
Proof.
  intros Hp Hw. unfold free_weight_pages. case_bool_decide as Hn.
  { subst. simpl in Hw. apply wp_ret. rewrite app_nil_r. split; [|done].
    destruct Hp as [H1 H2 H3 H4 H5 H6]. constructor; try done. by rewrite <-Hw. }
  apply wp_bind. eapply wp_check_init; [done|]. eapply wp_mono.
  - apply (wp_for_each _ _ (λ rest p', ∃ dn, ids = dn ++ rest ∧ phys_ok p' out (rest ++ wts') ∧
      free_page_ids_ p' = free_page_ids_ p ++ dn ∧ same_pool p p')).
    + exists []. rewrite app_nil_r. split; [done|]. split; [|done].
      destruct Hp as [H1 H2 H3 H4 H5 H6]. constructor; try done. by rewrite <-Hw.
    + intros i rest p1 (dn & -> & Hp1 & Hf1 & Hs1). wp_steps.
      assert (0 ≤ i < Z.of_nat (num_total_pages_ p1)) as Hi.
      { apply (phys_range _ _ _ _ Hp1). right. right. by left. }
      apply wp_check; [apply andb_true_iff; rewrite Z.leb_le, Z.ltb_lt; lia|].
      pose proof (phys_nodup _ _ _ Hp1) as Hnd. rewrite app_assoc in Hnd. simpl in Hnd.
      apply NoDup_middle in Hnd as [Hni Hnd]. rewrite !elem_of_app in Hni.
      destruct Hp1 as [H1 H2 H3 H4 H5 H6]. wp_steps. eapply wp_atZ; [lia|by apply H5|].
      rewrite bool_decide_true by tauto. wp_steps. exists (dn ++ [i]). rewrite <-app_assoc. split; [done|].
      simpl. rewrite Hf1, <-app_assoc in *. split; [|split; [done|exact Hs1]].
      constructor; simpl; rewrite ?length_insert; try done.
      * rewrite <-H4, <-!app_assoc. do 2 f_equiv. simpl. apply Permutation_middle.
      * intros j Hj. rewrite lookup_insert_id by lia. case_decide as Hd.
        -- subst. by rewrite bool_decide_false by set_solver.
        -- rewrite H5 by done. f_equal. apply bool_decide_ext. set_solver.
  - intros _ p' (dn & -> & Hp' & Hf & Hs). rewrite app_nil_r in *. done.
Qed.

(** ** Runs *)

(** The calls of the page allocator; [phys_run] threads the pages the KV cache and the
    weights hold. *)
Inductive phys_op :=
  | PhyGet
  | PhyBatchGet (count : nat)
  | PhyPut (k : nat)
  | PhyContiguous (count : nat)
  | PhyScattered (count : nat)
  | PhyFreeWeights (ids : list Z).

Definition ids_of_pages (gs : list (option PhyPage)) : list Z := omap (fmap phy_page_id) gs.

Definition phys_run (op : phys_op) (out wts : list Z) : prog PhyPool (list Z * list Z) :=
  match op with
  | PhyGet => pool_get ≫= λ g, mret (ids_of_pages [g] ++ out, wts)
  | PhyBatchGet count => batch_get count ≫= λ gs, mret (rev (ids_of_pages gs) ++ out, wts)
  | PhyPut k =>
      at_ out k ≫= λ i, gets device_ ≫= λ d,
      pool_put (Some (mkPhyPage d i)) ≫= λ _, mret (delete k out, wts)
  | PhyContiguous count =>
      allocate_contiguous_from_right count ≫= λ r,
      mret (out, if decide (r = -1) then wts else seqZ r (Z.of_nat count) ++ wts)
  | PhyScattered count => allocate_pages_from_right count ≫= λ r, mret (out, r ++ wts)
  | PhyFreeWeights ids =>
      free_weight_pages ids ≫= λ _, mret (out, filter (λ i, i ∉ ids) wts)
  end.
Definition phys_pre (op : phys_op) (out wts : list Z) : Prop :=
  match op with
  | PhyPut k => (k < length out)%nat
  | PhyFreeWeights ids => NoDup ids ∧ ids ⊆ wts
  | _ => True
  end.
Inductive phys_reach (device : Z) (n : nat) : PhyPool → list Z → list Z → Prop :=
  | phys_reach_new p : pool_init device n PhyPool_new = Done () p → phys_reach device n p [] []
  | phys_reach_step op p out wts out' wts' p' :
      phys_reach device n p out wts → phys_pre op out wts →
      phys_run op out wts p = Done (out', wts') p' → phys_reach device n p' out' wts'.

Lemma phys_perm p out out' wts wts' :
  out ≡ₚ out' → wts ≡ₚ wts' → phys_ok p out wts → phys_ok p out' wts'.
Proof.
  intros Ho Hw [H1 H2 H3 H4 H5 H6]. constructor; try done.
  - by rewrite <-Ho, <-Hw.
  - intros i Hi. rewrite H6 by done. f_equal. apply decide_ext. by rewrite Ho.
Qed.
Lemma ids_of_some d l : ids_of_pages ((λ i, Some (mkPhyPage d i)) <$> l) = l.
Proof. unfold ids_of_pages. induction l as [|i l IH]; [done|]. simpl in *. by f_equal. Qed.

Lemma phys_run_ok op p out wts :
  phys_ok p out wts → phys_pre op out wts →
  wp (phys_run op out wts) (λ r p', phys_ok p' r.1 r.2 ∧ same_pool p p') p.
Proof.
  intros Hp Hpre. destruct op as [|count|k|count|count|ids]; simpl in *.
  - apply wp_bind. eapply wp_mono; [by apply pool_get_ok|]. intros g p' [Hs Hc]. apply wp_ret.
    split; [|done]. destruct (free_page_ids_ p); [by destruct Hc as [-> ->]|].
    by destruct Hc as (-> & ? & _).
  - apply wp_bind. eapply wp_mono; [by apply batch_get_ok|]. intros gs p' [Hs Hc]. apply wp_ret.
    split; [|done]. case_decide; [|by destruct Hc as [-> ->]]. destruct Hc as (-> & ? & _).
    by rewrite ids_of_some.
  - destruct (lookup_lt_is_Some_2 out k Hpre) as [i Hi]. apply wp_bind. eapply wp_at; [done|].
    apply wp_bind, wp_gets, wp_bind. eapply wp_mono.
    + apply (pool_put_ok p (delete k out) wts i). eapply phys_perm; [|done|done]. by apply delete_Permutation.
    + intros [] p' (? & _ & ?). by apply wp_ret.
  - apply wp_bind. eapply wp_mono; [by apply allocate_contiguous_ok|]. intros r p' [Hs Hc]. apply wp_ret.
    split; [|done]. case_decide; [by destruct Hc as [-> _]|]. by destruct Hc as (? & _).
  - apply wp_bind. eapply wp_mono; [by apply allocate_pages_ok|].
    intros r p' (Hs & _ & _ & _ & _ & ?). by apply wp_ret.
  - destruct Hpre as [Hnd Hsub]. apply wp_bind. eapply wp_mono.
    + apply (free_weight_pages_ok p out wts (filter (λ i, i ∉ ids) wts) ids Hp).
      pose proof (phys_nodup _ _ _ Hp) as Hn. rewrite app_assoc in Hn. apply NoDup_app in Hn as (_ & _ & Hn).
      apply NoDup_Permutation; [done| |].
      * apply NoDup_app. split; [done|]. split; [|by apply NoDup_filter].
        intros x Hx [? _]%list_elem_of_filter. done.
      * intros x. rewrite elem_of_app, list_elem_of_filter. destruct (decide (x ∈ ids)); set_solver.
    + intros [] p' (? & _ & ?). by apply wp_ret.
Qed.
Lemma phys_reach_ok device n p out wts :
  phys_reach device n p out wts → phys_ok p out wts ∧ device_ p = device ∧ num_total_pages_ p = n.
Proof.
  intros Hr. induction Hr as [p Hn|op p out wts out' wts' p' _ (IH & Hd & Hnum) Hpre Hrun].
  - pose proof (pool_init_ok device n) as Hwp. unfold wp in Hwp. rewrite Hn in Hwp. naive_solver.
  - pose proof (phys_run_ok op p out wts IH Hpre) as Hwp. unfold wp in Hwp. rewrite Hrun in Hwp.
    destruct Hwp as (? & ? & ?). split; [done|]. split; congruence.
Qed.

(** ** Properties *)

(** C35: whatever interleaving of KV-cache and weight calls led to a state, every further
    call within its precondition returns, and each physical page stays in exactly one
    place: on the free list, with the KV cache or with the weights; the page objects still
    in the pool are exactly those the KV cache does not hold. *)
Theorem phys_pages_partition device n p out wts op :
  phys_reach device n p out wts → phys_pre op out wts →
  wp (phys_run op out wts)
     (λ r p', phys_reach device n p' r.1 r.2 ∧
        free_page_ids_ p' ++ r.1 ++ r.2 ≡ₚ seqZ 0 (Z.of_nat n) ∧
        ∀ i, 0 ≤ i < Z.of_nat n →
          (all_pages_ p' !! Z.to_nat i = Some None ↔ i ∈ r.1) ∧
          (page_allocated_ p' !! Z.to_nat i = Some false ↔ i ∈ free_page_ids_ p')) p.
Proof.
  intros Hr Hpre. destruct (phys_reach_ok _ _ _ _ _ Hr) as (Hok & _ & Hn).
  pose proof (phys_run_ok op p out wts Hok Hpre) as Hwp. unfold wp in *.
  destruct (phys_run op out wts p) as [[out' wts'] p'| | |] eqn:E; try done.
  destruct Hwp as [Hok' [_ Hn']]. simpl in *. rewrite Hn in Hn'. split; [by eapply phys_reach_step|].
  split; [rewrite <-Hn'; apply Hok'|]. intros i Hi. rewrite <-Hn' in Hi. split.
  - rewrite (pp_pages _ _ _ Hok' i Hi). case_decide; naive_solver.
  - rewrite (pp_marks _ _ _ Hok' i Hi). case_bool_decide as Hb; [naive_solver|].
    naive_solver.
Qed.
Lemma phys_pages_partition_witness :
  ∃ p, phys_reach 0 4 p [] [] ∧
    wp (phys_run (PhyContiguous 2) [] []) (λ r p', free_page_ids_ p' ++ r.1 ++ r.2 ≡ₚ seqZ 0 4) p.
Proof.
  eexists. assert (phys_reach 0 4 (match pool_init 0 4 PhyPool_new with Done _ p => p | _ => PhyPool_new end) [] [])
    as Hr by (apply phys_reach_new; computed).
  split; [exact Hr|]. eapply wp_mono; [apply (phys_pages_partition 0 4 _ [] [] (PhyContiguous 2) Hr I)|].
  intros r p' (_ & Hperm & _). exact Hperm.
Defined.

(** [allocate_contiguous_from_right(count)] returns the start of the rightmost run of
    [count] free pages and takes exactly those pages, or returns -1 and changes nothing
    when there is no such run. *)
Theorem contiguous_rightmost p out wts count :
  phys_ok p out wts →
  wp (allocate_contiguous_from_right count)
     (λ r p',
        if decide (r = -1) then p' = p ∧
          (count = O ∨ ∀ s, ¬ (∀ i, s ≤ i < s + Z.of_nat count → i ∈ free_page_ids_ p))
        else
          phys_ok p' out (seqZ r (Z.of_nat count) ++ wts) ∧
          (∀ i, r ≤ i < r + Z.of_nat count → i ∈ free_page_ids_ p) ∧
          (∀ s, r < s → ¬ (∀ i, s ≤ i < s + Z.of_nat count → i ∈ free_page_ids_ p))) p.
Proof.
  intros Hp. eapply wp_mono; [by apply (allocate_contiguous_ok p out wts count)|].
  intros r p' [_ Hc]. exact Hc.
Qed.
Lemma contiguous_rightmost_witness :
  ∃ p, phys_ok p [] [] ∧ wp (allocate_contiguous_from_right 2) (λ r _, r = 2) p.
Proof.
  pose proof (pool_init_ok 0 4) as Hwp. unfold wp in Hwp.
  destruct (pool_init 0 4 PhyPool_new) as [u p| | |]; try done. destruct Hwp as (Hok & Hd & Hn & Hf).
  exists p. split; [exact Hok|]. eapply wp_mono; [apply (contiguous_rightmost p [] [] 2 Hok)|].
  intros r p' Hc. rewrite Hf in Hc. case_decide as Hr.
  - destruct Hc as [_ [?|Hno]]; [done|]. exfalso. apply (Hno 0). intros i Hi. apply elem_of_seqZ. lia.
  - destruct Hc as (_ & Hin & Hmax). pose proof (Hin r ltac:(lia)) as H0. pose proof (Hin (r + 1) ltac:(lia)) as H1.
    apply elem_of_seqZ in H0, H1. destruct (decide (r = 2)) as [|Hne]; [done|].
    exfalso. apply (Hmax 2); [lia|]. intros i Hi. apply elem_of_seqZ. lia.
Defined.
