(* ===== verification/PageAllocator.v ===== *)
(** The allocator of virtual pages: [core/framework/xtensor/page_allocator.h] and
    [page_allocator.cpp].

    Each model has, per data-parallel group, the pages [0 .. num_total_virt_pages)
    split into unmapped, reserved (mapped, ready) and allocated ones; all models share
    the physical pages of the workers.  A public call is one or more critical
    sections under [mtx_] with broadcasts to the workers in between; here each
    section is a definition of its own ([*_begin], [*_end], ...), a call is their
    composition, and the answer of a broadcast is an argument.  The file ends with
    the sections as a step relation, in which the calls of all threads interleave.
    [update_memory_usage] only logs; waiting on [cond_] is a step that is not
    enabled. *)

From stdpp Require Import base gmap list strings sets.
From Stdlib Require Import ZArith Lia.
From S2P Require Import Prelude VirtPage.
Open Scope Z_scope.

Record DpGroupPages := mkDpGroupPages {
  num_free_virt_pages : Z;
  free_virt_page_list : list Z;
  reserved_virt_page_list : list Z;
  allocated_virt_page_list : gset Z;
}.
Definition set_num_free (n : Z) (g : DpGroupPages) : DpGroupPages :=
  mkDpGroupPages n (free_virt_page_list g) (reserved_virt_page_list g) (allocated_virt_page_list g).
Definition set_free_pages (l : list Z) (g : DpGroupPages) : DpGroupPages :=
  mkDpGroupPages (num_free_virt_pages g) l (reserved_virt_page_list g) (allocated_virt_page_list g).
Definition set_reserved_pages (l : list Z) (g : DpGroupPages) : DpGroupPages :=
  mkDpGroupPages (num_free_virt_pages g) (free_virt_page_list g) l (allocated_virt_page_list g).
Definition set_allocated_pages (X : gset Z) (g : DpGroupPages) : DpGroupPages :=
  mkDpGroupPages (num_free_virt_pages g) (free_virt_page_list g) (reserved_virt_page_list g) X.

Record ModelState := mkModelState {
  num_layers : Z;
  num_total_virt_pages : Z;
  phy_pages_per_virt_page : Z;
  weight_pages_allocated : Z;
  is_sleeping : bool;
  pending_map_ops : Z;
  dp_group_pages : list DpGroupPages;
  model_dp_size : Z;
  model_tp_size : Z;
  model_world_size : Z;
}.
Definition set_weight_pages (n : Z) (m : ModelState) : ModelState :=
  mkModelState (num_layers m) (num_total_virt_pages m) (phy_pages_per_virt_page m) n (is_sleeping m)
    (pending_map_ops m) (dp_group_pages m) (model_dp_size m) (model_tp_size m) (model_world_size m).
Definition set_sleeping (b : bool) (m : ModelState) : ModelState :=
  mkModelState (num_layers m) (num_total_virt_pages m) (phy_pages_per_virt_page m)
    (weight_pages_allocated m) b
    (pending_map_ops m) (dp_group_pages m) (model_dp_size m) (model_tp_size m) (model_world_size m).
Definition set_pending (n : Z) (m : ModelState) : ModelState :=
  mkModelState (num_layers m) (num_total_virt_pages m) (phy_pages_per_virt_page m)
    (weight_pages_allocated m) (is_sleeping m)
    n (dp_group_pages m) (model_dp_size m) (model_tp_size m) (model_world_size m).
Definition set_groups (l : list DpGroupPages) (m : ModelState) : ModelState :=
  mkModelState (num_layers m) (num_total_virt_pages m) (phy_pages_per_virt_page m)
    (weight_pages_allocated m) (is_sleeping m)
    (pending_map_ops m) l (model_dp_size m) (model_tp_size m) (model_world_size m).
Definition set_strategy (dp tp : Z) (m : ModelState) : ModelState :=
  mkModelState (num_layers m) (num_total_virt_pages m) (phy_pages_per_virt_page m)
    (weight_pages_allocated m) (is_sleeping m)
    (pending_map_ops m) (dp_group_pages m) dp tp (i32 (dp * tp)).

Definition MIN_RESERVED_PAGES : Z := 8.
Definition MAX_RESERVED_PAGES : Z := 32.

Record PageAllocator := mkPageAllocator {
  pa_initialized_ : bool;
  dp_size_ : Z;
  pa_page_size_ : Z;
  enable_page_prealloc_ : bool;
  num_total_phy_pages_ : Z;
  worker_pages_used_ : list Z;
  max_world_size_ : Z;
  model_states_ : gmap string ModelState;
  prealloc_needed_ : bool;
}.
Definition PageAllocator_new : PageAllocator := mkPageAllocator false 1 0 true 0 [] 0 ∅ false.

Definition set_workers (l : list Z) (a : PageAllocator) : PageAllocator :=
  mkPageAllocator (pa_initialized_ a) (dp_size_ a) (pa_page_size_ a) (enable_page_prealloc_ a)
    (num_total_phy_pages_ a) l (max_world_size_ a) (model_states_ a) (prealloc_needed_ a).
Definition set_models (m : gmap string ModelState) (a : PageAllocator) : PageAllocator :=
  mkPageAllocator (pa_initialized_ a) (dp_size_ a) (pa_page_size_ a) (enable_page_prealloc_ a)
    (num_total_phy_pages_ a) (worker_pages_used_ a) (max_world_size_ a) m (prealloc_needed_ a).
Definition set_needed (b : bool) (a : PageAllocator) : PageAllocator :=
  mkPageAllocator (pa_initialized_ a) (dp_size_ a) (pa_page_size_ a) (enable_page_prealloc_ a)
    (num_total_phy_pages_ a) (worker_pages_used_ a) (max_world_size_ a) (model_states_ a) b.

Abbreviation PA := (prog PageAllocator).

(** [init(num_phy_pages, dp_size, max_world_size, enable_page_prealloc)]; [page_size]
    is the flag [FLAGS_phy_page_granularity_size] *)
Definition pa_init (num_phy_pages dp_size max_world_size : Z) (enable_page_prealloc : bool)
    (page_size : Z) : PA unit :=
  get ≫= λ a,
  if pa_initialized_ a then mret ()
  else
    let world := if 0 <? max_world_size then max_world_size else 1 in
    put (mkPageAllocator true dp_size page_size enable_page_prealloc num_phy_pages
           (take (Z.to_nat world) (worker_pages_used_ a ++ replicate (Z.to_nat world) 0)) world
           (model_states_ a) (prealloc_needed_ a)).

(** ** Models and groups *)

(** [get_model_state(model_id)] *)
Definition get_model_state (id : string) : PA ModelState :=
  get ≫= λ a,
  match model_states_ a !! id with
  | Some m => mret m
  | None => fatal "Model not registered"
  end.
Definition put_model (id : string) (m : ModelState) : PA unit :=
  modify (λ a, set_models (<[id := m]> (model_states_ a)) a).
Definition modify_model (id : string) (f : ModelState → ModelState) : PA unit :=
  modify (λ a, set_models (alter f id (model_states_ a)) a).
(** [state.dp_group_pages[dp_rank]] *)
Definition get_group (id : string) (r : Z) : PA DpGroupPages :=
  get_model_state id ≫= λ m, atZ (dp_group_pages m) r.
Definition modify_group (id : string) (r : Z) (f : DpGroupPages → DpGroupPages) : PA unit :=
  modify_model id (λ m, set_groups (alter f (Z.to_nat r) (dp_group_pages m)) m).

Definition check_rank (r : Z) : PA unit :=
  get ≫= λ a,
  check (0 <=? r) "dp_rank must be >= 0" ≫= λ _,
  check (r <? dp_size_ a) "dp_rank must be < dp_size".
Definition check_initialized : PA unit :=
  get ≫= λ a, check (pa_initialized_ a) "PageAllocator not initialized".

(** [register_model(model_id, num_layers, master_status)] *)
Definition register_model (id : string) (layers : Z) : PA bool :=
  check_initialized ≫= λ _,
  get ≫= λ a,
  if bool_decide (is_Some (model_states_ a !! id)) then mret false
  else if u64 layers =? 0 then undef "division by zero"
  else
    let total := num_total_phy_pages_ a / u64 layers / 2 in
    put_model id (mkModelState layers total (u64 (2 * layers)) 0 false 0
      (replicate (Z.to_nat (dp_size_ a)) (mkDpGroupPages total (seqZ 0 total) [] ∅)) 0 0 0) ≫= λ _,
    mret true.

(** [set_model_parallel_strategy] *)
Definition set_model_parallel_strategy (id : string) (dp tp : Z) : PA unit :=
  modify_model id (set_strategy dp tp).

(** ** Physical pages *)

(** [get_dp_group_worker_range(model_id, dp_rank)] *)
Definition get_dp_group_worker_range (id : string) (r : Z) : PA (Z * Z) :=
  get ≫= λ a,
  let tp_size := match model_states_ a !! id with
                 | Some m => if 0 <? model_tp_size m then model_tp_size m else 1
                 | None => 1
                 end in
  let start_worker := i32 (r * tp_size) in
  let end_worker := i32 (start_worker + tp_size) in
  mret (start_worker, Z.min end_worker (max_world_size_ a)).

(** The indices of the loops [for (w = start; w < end && w < max_world_size_; ++w)] *)
Definition workers_in (s e : Z) (a : PageAllocator) : list Z := seqZ s (Z.min e (max_world_size_ a) - s).
Definition worker_free (w : Z) : PA Z :=
  get ≫= λ a, atZ (worker_pages_used_ a) w ≫= λ u, mret (u64 (num_total_phy_pages_ a - u)).
Fixpoint min_free_loop (ws : list Z) (min_free : Z) : PA Z :=
  match ws with
  | [] => mret min_free
  | w :: ws => worker_free w ≫= λ f, min_free_loop ws (Z.min min_free f)
  end.
(** [get_min_free_pages_in_range(start_worker, end_worker)] *)
Definition get_min_free_pages_in_range (s e : Z) : PA Z :=
  get ≫= λ a, min_free_loop (workers_in s e a) (num_total_phy_pages_ a).

Definition set_used (w x : Z) : PA unit :=
  modify (λ a, set_workers (<[Z.to_nat w := x]> (worker_pages_used_ a)) a).
Definition add_used (w n : Z) : PA unit :=
  get ≫= λ a, atZ (worker_pages_used_ a) w ≫= λ u, set_used w (u64 (u + n)).
(** A release never goes below zero. *)
Definition sub_used (w n : Z) : PA unit :=
  get ≫= λ a, atZ (worker_pages_used_ a) w ≫= λ u,
  set_used w (if n <=? u then u64 (u - n) else 0).

(** [has_enough_phy_pages_for_dp], [consume_phy_pages_for_dp], [release_phy_pages_for_dp] *)
Definition has_enough_phy_pages_for_dp (id : string) (r n : Z) : PA bool :=
  get_dp_group_worker_range id r ≫= λ se : Z * Z,
  get_min_free_pages_in_range se.1 se.2 ≫= λ m, mret (n <=? m).
Definition consume_phy_pages_for_dp (id : string) (r n : Z) : PA bool :=
  get_dp_group_worker_range id r ≫= λ se : Z * Z,
  get_min_free_pages_in_range se.1 se.2 ≫= λ min_free,
  if min_free <? n then mret false
  else get ≫= λ a, for_each (workers_in se.1 se.2 a) (λ w, add_used w n) ≫= λ _, mret true.
Definition release_phy_pages_for_dp (id : string) (r n : Z) : PA unit :=
  get_dp_group_worker_range id r ≫= λ se : Z * Z,
  get ≫= λ a, for_each (workers_in se.1 se.2 a) (λ w, sub_used w n).

(** ** Allocating a page *)

(** How a round of the loop of [alloc_kv_cache_page] ends: with a page, [reserved] or still to
    be mapped; with [continue]; or in [cond_.wait(lock)], which gives the lock away *)
Inductive round_end := Took (v : Z) (reserved : bool) | Again | Waits.

(** The slow path of a round, to its [break] or [continue]; [None] when it is not taken *)
Definition alloc_from_free (id : string) (r : Z) (n : Z) : PA (option round_end) :=
  get_group id r ≫= λ g,
  match free_virt_page_list g with
  | [] => mret None
  | v :: rest =>
      has_enough_phy_pages_for_dp id r n ≫= λ enough : bool,
      if enough then
        modify_group id r (λ g, set_num_free (u64 (num_free_virt_pages g - 1)) (set_free_pages rest g)) ≫= λ _,
        consume_phy_pages_for_dp id r n ≫= λ ok : bool,
        if ok then mret (Some (Took v false))
        else
          modify_group id r (λ g, set_num_free (u64 (num_free_virt_pages g + 1))
                               (set_free_pages (v :: free_virt_page_list g) g)) ≫= λ _,
          mret (Some Again)
      else mret None
  end.
(** The end of a round: what is missing, and else the wait *)
Definition alloc_out_of_pages (id : string) (r : Z) (n : Z) : PA round_end :=
  get_group id r ≫= λ g,
  if bool_decide (free_virt_page_list g = []) then throw "No free virtual pages left"
  else
    has_enough_phy_pages_for_dp id r n ≫= λ enough : bool,
    if negb enough then throw "No free physical pages left"
    else
      get ≫= λ a,
      if negb (enable_page_prealloc_ a) then throw "Inconsistent page allocator state: no pages available"
      else mret Waits.
(** One round of the loop *)
Definition alloc_round (id : string) (r : Z) (n : Z) : PA round_end :=
  get_group id r ≫= λ g,
  match reserved_virt_page_list g with
  | v :: rest =>
      modify_group id r (λ g, set_num_free (u64 (num_free_virt_pages g - 1)) (set_reserved_pages rest g)) ≫= λ _,
      (if Z.of_nat (length rest) <? MIN_RESERVED_PAGES then modify (set_needed true) else mret ()) ≫= λ _,
      modify_group id r (λ g, set_allocated_pages ({[v]} ∪ allocated_virt_page_list g) g) ≫= λ _,
      mret (Took v true)
  | [] =>
      alloc_from_free id r n ≫= λ o,
      match o with
      | Some e => mret e
      | None => alloc_out_of_pages id r n
      end
  end.
(** The loop, to the page or to the wait ([None]) *)
Fixpoint alloc_loop (fuel : nat) (id : string) (r n : Z) : PA (option (Z * bool)) :=
  match fuel with
  | O => undef "out of fuel"
  | S fuel =>
      alloc_round id r n ≫= λ e,
      match e with
      | Took v reserved => mret (Some (v, reserved))
      | Again => alloc_loop fuel id r n
      | Waits => mret None
      end
  end.

(** [alloc_kv_cache_page(model_id, dp_rank)]: up to the broadcast, with the lock; [None] when
    the call waits for another thread, after which it goes through the loop again *)
Definition alloc_begin (id : string) (r : Z) : PA (option (Z * bool)) :=
  check_initialized ≫= λ _,
  check_rank r ≫= λ _,
  get_model_state id ≫= λ m,
  check (negb (is_sleeping m)) "Cannot allocate from sleeping model" ≫= λ _,
  alloc_loop 1 id r (phy_pages_per_virt_page m) ≫= λ o : option (Z * bool),
  match o with
  | Some (v, false) => modify_model id (λ m, set_pending (i32 (pending_map_ops m + 1)) m) ≫= λ _, mret o
  | _ => mret o
  end.
(** after the broadcast, with the lock: on failure the page goes back *)
Definition alloc_end (id : string) (r v : Z) (map_success : bool) : PA bool :=
  modify_model id (λ m, set_pending (i32 (pending_map_ops m - 1)) m) ≫= λ _,
  if map_success then mret true
  else
    modify_group id r (λ g, set_num_free (u64 (num_free_virt_pages g + 1))
                         (set_free_pages (v :: free_virt_page_list g) g)) ≫= λ _,
    get_model_state id ≫= λ m,
    release_phy_pages_for_dp id r (phy_pages_per_virt_page m) ≫= λ _, mret false.
(** [trigger_preallocation()], and its callers [if (enable_page_prealloc_)] *)
Definition trigger_preallocation : PA unit := modify (set_needed true).
Definition maybe_trigger : PA unit :=
  get ≫= λ a, if enable_page_prealloc_ a then trigger_preallocation else mret ().
(** the last section: the page is tracked as allocated *)
Definition alloc_commit (id : string) (r v : Z) : PA unit :=
  modify_group id r (λ g, set_allocated_pages ({[v]} ∪ allocated_virt_page_list g) g).

(** The whole call, with nobody else to wait for; [None] is [nullptr]. *)
Definition alloc_kv_cache_page (id : string) (r : Z) (map_success : bool) : PA (option VirtPage) :=
  alloc_begin id r ≫= λ o : option (Z * bool),
  get ≫= λ a,
  match o with
  | None => undef "waits for another thread"
  | Some (v, true) => mret (Some (VirtPage_new v (pa_page_size_ a)))
  | Some (v, false) =>
      alloc_end id r v map_success ≫= λ ok : bool,
      if negb ok then mret None
      else
        maybe_trigger ≫= λ _,
        alloc_commit id r v ≫= λ _,
        mret (Some (VirtPage_new v (pa_page_size_ a)))
  end.

(** ** Freeing pages *)

(** [free_kv_cache_pages(model_id, dp_rank, virt_page_ids)]: the pages to unmap *)
Definition free_begin (id : string) (r : Z) (pages : list Z) : PA (list Z) :=
  check_rank r ≫= λ _,
  get_model_state id ≫= λ m,
  get_group id r ≫= λ _,
  modify_group id r (λ g, set_num_free (u64 (num_free_virt_pages g + Z.of_nat (length pages)))
    (set_allocated_pages (allocated_virt_page_list g ∖ list_to_set pages) g)) ≫= λ _,
  if is_sleeping m then mret pages
  else
    get_group id r ≫= λ g,
    let num_to_reserve := u64 (MAX_RESERVED_PAGES - Z.of_nat (length (reserved_virt_page_list g))) in
    if 0 <? num_to_reserve then
      let actual_reserve := Z.to_nat (Z.min num_to_reserve (Z.of_nat (length pages))) in
      modify_group id r (λ g, set_reserved_pages (reserved_virt_page_list g ++ take actual_reserve pages) g) ≫= λ _,
      mret (drop actual_reserve pages)
    else mret pages.
(** after the broadcast: pages that could not be unmapped stay reserved *)
Definition unmap_end (id : string) (r n : Z) (pages : list Z) (unmap_success : bool) : PA unit :=
  get_group id r ≫= λ _,
  if unmap_success then
    modify_group id r (λ g, set_free_pages (free_virt_page_list g ++ pages) g) ≫= λ _,
    release_phy_pages_for_dp id r (u64 (Z.of_nat (length pages) * n))
  else modify_group id r (λ g, set_reserved_pages (reserved_virt_page_list g ++ pages) g).
Definition free_kv_cache_pages (id : string) (r : Z) (pages : list Z) (unmap_success : bool) : PA unit :=
  free_begin id r pages ≫= λ to_unmap,
  get_model_state id ≫= λ m,
  if bool_decide (to_unmap = []) then mret ()
  else unmap_end id r (phy_pages_per_virt_page m) to_unmap unmap_success.

(** [trim_kv_cache(model_id, dp_rank)] *)
Definition trim_begin (id : string) (r : Z) : PA (list Z) :=
  check_rank r ≫= λ _,
  get_group id r ≫= λ g,
  modify_group id r (set_reserved_pages []) ≫= λ _,
  mret (reserved_virt_page_list g).
Definition trim_kv_cache (id : string) (r : Z) (unmap_success : bool) : PA unit :=
  trim_begin id r ≫= λ to_unmap,
  get_model_state id ≫= λ m,
  if bool_decide (to_unmap = []) then mret ()
  else unmap_end id r (phy_pages_per_virt_page m) to_unmap unmap_success.

(** ** Weights *)

(** How many workers the model uses, of those that exist *)
Definition model_workers (id : string) : PA (list Z) :=
  get_model_state id ≫= λ m,
  get ≫= λ a,
  let world := if 0 <? model_world_size m then model_world_size m else max_world_size_ a in
  mret (workers_in 0 world a).

(** [alloc_weight_pages(model_id, num_pages)]; [reply] is the answer of the workers *)
Definition alloc_weight_pages (id : string) (num_pages : Z) (reply : bool) : PA bool :=
  check_initialized ≫= λ _,
  model_workers id ≫= λ ws,
  get ≫= λ a,
  min_free_loop ws (num_total_phy_pages_ a) ≫= λ min_free,
  if min_free <? num_pages then mret false
  else
    for_each ws (λ w, add_used w num_pages) ≫= λ _,
    modify_model id (set_weight_pages num_pages) ≫= λ _,
    mret reply.

(** [free_weight_pages(model_id, num_pages)] *)
Definition free_weight_pages (id : string) (num_pages : Z) (reply : bool) : PA bool :=
  if negb reply then mret false
  else
    check_initialized ≫= λ _,
    model_workers id ≫= λ ws,
    for_each ws (λ w, sub_used w num_pages) ≫= λ _, mret true.

(** [set_weight_pages_count] *)
Definition set_weight_pages_count (id : string) (num_pages : Z) : PA unit :=
  get_model_state id ≫= λ _, modify_model id (set_weight_pages num_pages).

(** ** Sleeping and waking up *)

(** The mapped pages of a group: the reserved ones and those in use *)
Definition mapped_pages (g : DpGroupPages) : list Z :=
  reserved_virt_page_list g ++ elements (allocated_virt_page_list g).
(** The groups with mapped pages, for [dp_rank] from [0] *)
Definition groups_mapped (m : ModelState) (n : nat) : PA (list (Z * list Z)) :=
  map_each (seqZ 0 (Z.of_nat n)) (λ r, atZ (dp_group_pages m) r ≫= λ g, mret (r, mapped_pages g)) ≫= λ l,
  mret (filter (λ x : Z * list Z, x.2 ≠ []) l).

(** [sleep_model(model_id, skip_weight_release)]: is there anything to do? *)
Definition sleep_check (id : string) : PA bool :=
  get ≫= λ a,
  mret (match model_states_ a !! id with Some m => negb (is_sleeping m) | None => false end).
(** The call then waits, without the lock, while map operations are pending; nothing is
    checked again afterwards.  The pages to unmap, the physical pages of each and the
    weight pages *)
Definition sleep_collect (id : string) : PA (list (Z * list Z) * Z * Z) :=
  get_model_state id ≫= λ m,
  get ≫= λ a,
  modify_model id (set_sleeping true) ≫= λ _,
  groups_mapped m (Z.to_nat (dp_size_ a)) ≫= λ l,
  mret (l, phy_pages_per_virt_page m, weight_pages_allocated m).
(** the release of the physical pages of the groups that were unmapped *)
Definition sleep_end (id : string) (n : Z) (unmapped : list (Z * list Z)) : PA unit :=
  for_each unmapped (λ x : Z * list Z,
    release_phy_pages_for_dp id x.1 (u64 (Z.of_nat (length x.2) * n))).
(** The whole call, when no map operation is pending *)
Definition sleep_model (id : string) (skip_weight_release weight_reply : bool) (unmap_reply : Z → bool)
    : PA bool :=
  sleep_check id ≫= λ go : bool,
  if negb go then mret false
  else
    sleep_collect id ≫= λ x : list (Z * list Z) * Z * Z,
    let '(l, n, weight_pages) := x in
    (if negb skip_weight_release && (0 <? weight_pages)
     then free_weight_pages id weight_pages weight_reply else mret true) ≫= λ ok : bool,
    if negb ok then mret false
    else
      sleep_end id n (filter (λ x : Z * list Z, unmap_reply x.1 = true) l) ≫= λ _,
      mret (forallb (λ x : Z * list Z, unmap_reply x.1) l).

(** [wakeup_model(model_id)]: the pages each worker has to take *)
Definition add_needed (l : list Z) (w n : Z) : PA (list Z) :=
  atZ l w ≫= λ x, mret (<[Z.to_nat w := u64 (x + n)]> l).
Fixpoint add_needed_all (ws : list Z) (n : Z) (l : list Z) : PA (list Z) :=
  match ws with [] => mret l | w :: ws => add_needed l w n ≫= add_needed_all ws n end.
Fixpoint needed_groups (id : string) (n : Z) (gs : list (Z * list Z)) (l : list Z) : PA (list Z) :=
  match gs with
  | [] => mret l
  | x :: gs =>
      get_dp_group_worker_range id x.1 ≫= λ se : Z * Z,
      get ≫= λ a,
      add_needed_all (workers_in se.1 se.2 a) (u64 (Z.of_nat (length x.2) * n)) l ≫=
      needed_groups id n gs
  end.
(** the check of phase 1, worker by worker *)
Fixpoint enough_for (ws : list Z) (needed : list Z) : PA bool :=
  match ws with
  | [] => mret true
  | w :: ws =>
      atZ needed w ≫= λ x,
      if x =? 0 then enough_for ws needed
      else worker_free w ≫= λ f, if f <? x then mret false else enough_for ws needed
  end.
(** phase 1: the groups to map, when every worker has what it takes *)
Definition wakeup_begin (id : string) : PA (option (list (Z * list Z) * Z)) :=
  get ≫= λ a,
  match model_states_ a !! id with
  | None => mret None
  | Some m =>
      if negb (is_sleeping m) then mret None
      else
        groups_mapped m (Z.to_nat (dp_size_ a)) ≫= λ l,
        needed_groups id (phy_pages_per_virt_page m) l (replicate (Z.to_nat (max_world_size_ a)) 0) ≫= λ needed,
        model_workers id ≫= λ ws,
        add_needed_all ws (weight_pages_allocated m) needed ≫= λ needed,
        let all := seqZ 0 (max_world_size_ a) in
        enough_for all needed ≫= λ ok : bool,
        if negb ok then mret None
        else
          for_each all (λ w, atZ needed w ≫= λ x, if 0 <? x then add_used w x else mret ()) ≫= λ _,
          mret (Some (l, weight_pages_allocated m))
  end.
Definition wakeup_end (id : string) : PA unit := modify_model id (set_sleeping false).
(** [map_reply] and [weight_reply]: the answers of the workers; after a failure the
    counts stay consumed. *)
Definition wakeup_model (id : string) (map_reply : Z → bool) (weight_reply : bool) : PA bool :=
  wakeup_begin id ≫= λ o,
  match o with
  | None => mret false
  | Some (l, weight_pages) =>
      let map_ok := forallb (λ x : Z * list Z, map_reply x.1) l in
      let weight_ok := negb (map_ok && (0 <? weight_pages)) || weight_reply in
      if negb map_ok || negb weight_ok then mret false
      else wakeup_end id ≫= λ _, maybe_trigger ≫= λ _, mret true
  end.

(** ** Preallocation *)

(** The body of the first section of [prealloc_worker] for one group *)
Definition prealloc_group (id : string) (r : Z) : PA (option (list Z)) :=
  get_model_state id ≫= λ m,
  get_group id r ≫= λ g,
  let current := Z.of_nat (length (reserved_virt_page_list g)) in
  let to_reserve := if current <? MIN_RESERVED_PAGES then MIN_RESERVED_PAGES - current else 0 in
  let to_reserve := Z.min to_reserve (Z.of_nat (length (free_virt_page_list g))) in
  get_dp_group_worker_range id r ≫= λ se : Z * Z,
  get_min_free_pages_in_range se.1 se.2 ≫= λ min_free,
  if phy_pages_per_virt_page m =? 0 then undef "division by zero"
  else
    let to_reserve := Z.min to_reserve (min_free / phy_pages_per_virt_page m) in
    if to_reserve =? 0 then mret None
    else
      let n := Z.to_nat to_reserve in
      let pages := take n (free_virt_page_list g) in
      modify_group id r (set_free_pages (drop n (free_virt_page_list g))) ≫= λ _,
      consume_phy_pages_for_dp id r (u64 (Z.of_nat (length pages) * phy_pages_per_virt_page m)) ≫= λ ok : bool,
      if ok then mret (Some pages)
      else
        modify_group id r (λ g, set_free_pages (pages ++ free_virt_page_list g) g) ≫= λ _, mret None.
(** The first section of [prealloc_worker]; [order] is the order in which it meets the
    models *)
Definition prealloc_plan (order : list string) : PA (list (string * Z * list Z)) :=
  modify (set_needed false) ≫= λ _,
  get ≫= λ a,
  map_each (order ≫= λ id, (λ r, (id, r)) <$> seqZ 0 (dp_size_ a)) (λ x : string * Z,
    get_model_state x.1 ≫= λ m,
    if is_sleeping m then mret None
    else prealloc_group x.1 x.2 ≫= λ o, mret ((λ pages, (x, pages)) <$> o)) ≫= λ l,
  mret (omap (λ o, o) l).
(** a batch that is not mapped goes back *)
Definition prealloc_return (id : string) (r n : Z) (pages : list Z) : PA unit :=
  modify_group id r (λ g, set_free_pages (pages ++ free_virt_page_list g) g) ≫= λ _,
  release_phy_pages_for_dp id r (u64 (Z.of_nat (length pages) * n)).
(** before the broadcast: has the model gone to sleep? *)
Definition prealloc_begin (id : string) (r : Z) (pages : list Z) : PA bool :=
  get ≫= λ a,
  match model_states_ a !! id with
  | None => mret false
  | Some m =>
      if is_sleeping m then prealloc_return id r (phy_pages_per_virt_page m) pages ≫= λ _, mret false
      else modify_model id (λ m, set_pending (i32 (pending_map_ops m + 1)) m) ≫= λ _, mret true
  end.
(** after the broadcast *)
Definition prealloc_end (id : string) (r : Z) (pages : list Z) (map_success : bool) : PA unit :=
  modify_model id (λ m, set_pending (i32 (pending_map_ops m - 1)) m) ≫= λ _,
  get ≫= λ a,
  match model_states_ a !! id with
  | None => mret ()
  | Some m =>
      if negb map_success then prealloc_return id r (phy_pages_per_virt_page m) pages
      else if negb (is_sleeping m) then
        modify_group id r (λ g, set_reserved_pages (reserved_virt_page_list g ++ pages) g)
      else release_phy_pages_for_dp id r (u64 (Z.of_nat (length pages) * phy_pages_per_virt_page m))
  end.

(** ** Queries *)

Definition get_num_free_virt_pages (id : string) (r : Z) : PA Z :=
  check_rank r ≫= λ _, get_group id r ≫= λ g, mret (num_free_virt_pages g).
Definition get_num_inuse_virt_pages (id : string) (r : Z) : PA Z :=
  check_rank r ≫= λ _, get_model_state id ≫= λ m, get_group id r ≫= λ g,
  mret (u64 (num_total_virt_pages m - num_free_virt_pages g)).
Definition get_num_reserved_virt_pages (id : string) (r : Z) : PA Z :=
  check_rank r ≫= λ _, get_group id r ≫= λ g, mret (Z.of_nat (length (reserved_virt_page_list g))).
Definition get_num_free_phy_pages : PA Z :=
  get ≫= λ a, get_min_free_pages_in_range 0 (max_world_size_ a).
Definition get_all_worker_free_pages : PA (list Z) :=
  get ≫= λ a, map_each (seqZ 0 (max_world_size_ a)) worker_free.
Definition get_free_phy_pages_for_model (id : string) : PA Z :=
  get ≫= λ a,
  let world := match model_states_ a !! id with
               | Some m => if 0 <? model_world_size m then model_world_size m else max_world_size_ a
               | None => max_world_size_ a
               end in
  get_min_free_pages_in_range 0 world.
(** [get_virt_page_id(block_id, block_mem_size)] and [get_offset(virt_page_id)] *)
Definition get_virt_page_id {St} (a : PageAllocator) (block_id block_mem_size : Z) : prog St Z :=
  if pa_page_size_ a =? 0 then undef "division by zero"
  else mret (i64 (u64 (block_id * block_mem_size) / pa_page_size_ a)).
Definition get_offset (a : PageAllocator) (virt_page_id : Z) : Z := u64 (virt_page_id * pa_page_size_ a).

(** ** Physical pages never run over *)

Definition workers_ok (a : PageAllocator) : Prop :=
  Z.of_nat (length (worker_pages_used_ a)) = max_world_size_ a ∧
  0 ≤ num_total_phy_pages_ a < 2 ^ 62 ∧
  Forall (λ u, 0 ≤ u ≤ num_total_phy_pages_ a) (worker_pages_used_ a).

(** Only the counts of the workers change, within their bounds. *)
Definition workers_only (a a' : PageAllocator) : Prop :=
  a' = set_workers (worker_pages_used_ a') a ∧ (workers_ok a → workers_ok a').
#[export] Instance workers_only_preorder : PreOrder workers_only.
Proof.
  split; [intros a; by destruct a; split|]. intros a b c [H1 H2] [H3 H4]. split; [|auto].
  rewrite H1 in H3. exact H3.
Qed.

Lemma workers_set a i x :
  workers_ok a → 0 ≤ x ≤ num_total_phy_pages_ a →
  workers_ok (set_workers (<[i := x]> (worker_pages_used_ a)) a).
Proof.
  intros (H1 & H2 & H3) Hx. split; [by simpl; rewrite length_insert|]. split; [done|]. simpl.
  by apply Forall_insert.
Qed.

Lemma sub_used_post w n a : 0 ≤ n → post (sub_used w n) (λ _, workers_only a) a.
Proof.
  intros Hn. unfold sub_used. apply post_bind, post_get, post_bind, post_atZ. intros u Hw Hu.
  apply post_modify. split; [done|]. intros Hok. apply workers_set; [done|].
  destruct Hok as (_ & Ht & Hf). rewrite Forall_lookup in Hf. specialize (Hf _ _ Hu). simpl in Hf.
  destruct (n <=? u) eqn:E; [|lia]. apply Z.leb_le in E. rewrite u64_id; lia.
Qed.
Lemma release_post id r n a : 0 ≤ n → post (release_phy_pages_for_dp id r n) (λ _, workers_only a) a.
Proof.
  intros Hn. unfold release_phy_pages_for_dp, get_dp_group_worker_range.
  apply post_bind, post_bind, post_get, post_ret, post_bind, post_get.
  apply (post_for_each _ _ (workers_only a)); [done|]. intros w a1 _ Ha1.
  eapply post_mono; [by apply sub_used_post|]. intros [] a2 Ha2. by etrans.
Qed.

(** The minimum is a lower bound for the workers of the loop. *)
Lemma min_free_post ws m a :
  workers_ok a →
  post (min_free_loop ws m)
    (λ f a', a' = a ∧ f ≤ m ∧ ∀ w, w ∈ ws → 0 ≤ w ∧
       ∀ u, worker_pages_used_ a !! Z.to_nat w = Some u → f ≤ num_total_phy_pages_ a - u) a.
Proof.
  intros (_ & Ht & Hok). revert m. induction ws as [|w ws IH]; intros m; simpl.
  { apply post_ret. split; [done|]. split; [done|]. by intros w ?%elem_of_nil. }
  unfold worker_free. post_steps. eapply post_mono; [apply IH|]. intros f a' (-> & Hf & Hall).
  rewrite Forall_lookup in Hok. pose proof (Hok _ _ H0) as Hu'. simpl in Hu'. rewrite u64_id in Hf by lia.
  split; [done|]. split; [lia|]. intros w' [->|Hin]%elem_of_cons; [|by apply Hall]. split; [done|].
  intros u' Hu2. rewrite H0 in Hu2. simplify_eq. lia.
Qed.

Definition room_for (ws : list Z) (n : Z) (a : PageAllocator) : Prop :=
  ∀ w, w ∈ ws → 0 ≤ w ∧
    ∀ u, worker_pages_used_ a !! Z.to_nat w = Some u → n ≤ num_total_phy_pages_ a - u.

(** Adding to one worker, within its room, leaves the others as they are. *)
Definition one_worker (w : Z) (a a' : PageAllocator) : Prop :=
  workers_only a a' ∧ workers_ok a' ∧
  ∀ w', 0 ≤ w' → w' ≠ w → worker_pages_used_ a' !! Z.to_nat w' = worker_pages_used_ a !! Z.to_nat w'.
Lemma add_used_post w n a :
  workers_ok a → 0 ≤ n →
  (∀ u, worker_pages_used_ a !! Z.to_nat w = Some u → n ≤ num_total_phy_pages_ a - u) →
  post (add_used w n) (λ _, one_worker w a) a.
Proof.
  intros Hok Hn Hle. unfold add_used, set_used. post_steps. specialize (Hle _ H0).
  pose proof Hok as (_ & Ht & Hf). rewrite Forall_lookup in Hf. pose proof (Hf _ _ H0) as Hu'. simpl in Hu'.
  rewrite u64_id by lia. set (a1 := set_workers _ a).
  assert (workers_ok a1) as Hok1 by (apply workers_set; [done|lia]). split; [by split|]. split; [done|].
  intros w' Hw' Hne. simpl. apply list_lookup_insert_ne. lia.
Qed.
(** A loop over distinct workers whose body adds, within the room of each. *)
Lemma add_each_post (ws : list Z) (f : Z → PA unit) (n : Z → Z) a :
  workers_ok a → NoDup ws →
  (∀ w, w ∈ ws → 0 ≤ w ∧ ∀ u, worker_pages_used_ a !! Z.to_nat w = Some u → n w ≤ num_total_phy_pages_ a - u) →
  (∀ w a1, w ∈ ws → workers_ok a1 → num_total_phy_pages_ a1 = num_total_phy_pages_ a →
     (∀ u, worker_pages_used_ a1 !! Z.to_nat w = Some u → n w ≤ num_total_phy_pages_ a1 - u) →
     post (f w) (λ _, one_worker w a1) a1) →
  post (for_each ws f) (λ _, workers_only a) a.
Proof.
  intros Hok Hnd. revert a Hok. induction Hnd as [|w ws Hw Hnd IH]; intros a Hok Hroom Hf; cbn [for_each].
  { by apply post_ret. }
  destruct (Hroom w (list_elem_of_here _ _)) as [Hpos Hle]. apply post_bind.
  eapply post_mono; [by apply Hf; [apply list_elem_of_here|..]|]. cbv beta. intros [] a1 (H1 & Hok1 & Hoth).
  assert (num_total_phy_pages_ a1 = num_total_phy_pages_ a) as Ht by (by rewrite (proj1 H1)).
  eapply post_mono; [apply IH; [done| |]|].
  - intros w' Hw'. destruct (Hroom w' ltac:(by right)) as [Hpos' Hle']. split; [done|]. intros u' Hu2. rewrite Ht.
    apply Hle'. rewrite <-Hoth; [done|done|]. by intros ->.
  - intros w' a2 Hw' Hok2 Ht2. apply Hf; [by right|done|congruence].
  - cbv beta. intros [] a2 H2. by etrans.
Qed.
Lemma add_used_all_post ws n a :
  workers_ok a → 0 ≤ n → NoDup ws → room_for ws n a →
  post (for_each ws (λ w, add_used w n)) (λ _, workers_only a) a.
Proof.
  intros Hok Hn Hnd Hroom. apply (add_each_post _ _ (λ _, n)); [done..|].
  intros w a1 _ Hok1 _ Hle. by apply add_used_post.
Qed.

Lemma consume_post id r n a :
  workers_ok a → 0 ≤ n → post (consume_phy_pages_for_dp id r n) (λ _, workers_only a) a.
Proof.
  intros Hok Hn. unfold consume_phy_pages_for_dp, get_dp_group_worker_range, get_min_free_pages_in_range.
  post_steps. eapply post_mono; [by apply min_free_post|]. intros f a' (-> & _ & Hall).
  destruct (f <? n) eqn:E; [by apply post_ret|]. apply Z.ltb_ge in E. post_steps.
  eapply post_mono; [apply add_used_all_post; [done|done|apply NoDup_seqZ|]|by intros; post_steps].
  intros w Hw. destruct (Hall w Hw) as [? Hu]. split; [done|]. intros u Hlu. specialize (Hu u Hlu). lia.
Qed.
Lemma has_enough_post id r n a :
  workers_ok a → post (has_enough_phy_pages_for_dp id r n) (λ _ a', a' = a) a.
Proof.
  intros Hok. unfold has_enough_phy_pages_for_dp, get_dp_group_worker_range, get_min_free_pages_in_range.
  post_steps. eapply post_mono; [by apply min_free_post|]. intros f a' (-> & _). by apply post_ret.
Qed.

(** ** Calls in flight *)

(** Where a call stands between two of its sections: a page is being mapped for
    [alloc_kv_cache_page] ([Mapping]), or is mapped and not yet tracked ([Mapped]);
    pages are being unmapped ([Unmapping]); pages are planned for preallocation
    ([Planned]) or being mapped for it ([Premapping]). *)
Inductive phase := Mapping | Mapped | Unmapping | Planned | Premapping.
#[export] Instance phase_eq_dec : EqDecision phase.
Proof. solve_decision. Defined.
Record task := mkTask { t_phase : phase; t_model : string; t_rank : Z; t_pages : list Z }.

(** A map operation, a page counted as in use. *)
Definition is_map_op (p : phase) : bool := match p with Mapping | Premapping => true | _ => false end.
Definition is_use (p : phase) : bool := match p with Mapping | Mapped => true | _ => false end.

Definition tasks_of (id : string) (ts : list task) : list task := filter (λ t, t_model t = id) ts.
Definition map_ops (ts : list task) : nat := length (filter (λ t, is_map_op (t_phase t) = true) ts).
(** The pages that the tasks of a group hold, counted as in use or as free. *)
Definition pages_held (use : bool) (r : nat) (ts : list task) : list Z :=
  ts ≫= λ t, if bool_decide (Z.to_nat (t_rank t) = r) && Bool.eqb (is_use (t_phase t)) use
             then t_pages t else [].

(** Each page of the group is in exactly one place, and the count of the free pages
    counts those not in use. *)
Record group_ok (total : Z) (g : DpGroupPages) (free used : list Z) : Prop := {
  group_pages : free_virt_page_list g ++ reserved_virt_page_list g ++
    elements (allocated_virt_page_list g) ++ free ++ used ≡ₚ seqZ 0 total;
  group_count : num_free_virt_pages g =
    Z.of_nat (length (free_virt_page_list g) + length (reserved_virt_page_list g) + length free);
}.
(** A model with the tasks of its calls: the pending operations are the map tasks,
    and there are none while it sleeps. *)
Record model_ok (m : ModelState) (ts : list task) : Prop := {
  model_total : 0 ≤ num_total_virt_pages m < 2 ^ 62;
  model_per_page : 0 ≤ phy_pages_per_virt_page m;
  model_weights : 0 ≤ weight_pages_allocated m;
  model_pending : pending_map_ops m = Z.of_nat (map_ops ts);
  model_few : pending_map_ops m < 2 ^ 31;
  model_asleep : is_sleeping m = true → map_ops ts = 0%nat;
  model_groups : ∀ r g, dp_group_pages m !! r = Some g →
    group_ok (num_total_virt_pages m) g (pages_held false r ts) (pages_held true r ts);
}.
(** The group [r] of model [id] *)
Definition group_at (a : PageAllocator) (id : string) (r : Z) (m : ModelState) (g : DpGroupPages) : Prop :=
  model_states_ a !! id = Some m ∧ dp_group_pages m !! Z.to_nat r = Some g.
(** The allocator with the calls in flight *)
Record pa_ok (a : PageAllocator) (ts : list task) : Prop := {
  pa_workers : workers_ok a;
  pa_models : map_Forall (λ id m, model_ok m (tasks_of id ts)) (model_states_ a);
  pa_tasks : Forall (λ t, ∃ m g, group_at a (t_model t) (t_rank t) m g) ts;
}.

(** *** Permutations of the tasks *)

#[export] Instance tasks_of_proper id : Proper ((≡ₚ) ==> (≡ₚ)) (tasks_of id).
Proof. intros ts ts' H. unfold tasks_of. by rewrite H. Qed.
#[export] Instance map_ops_proper : Proper ((≡ₚ) ==> eq) map_ops.
Proof. intros ts ts' H. unfold map_ops. by rewrite H. Qed.
#[export] Instance pages_held_proper use r : Proper ((≡ₚ) ==> (≡ₚ)) (pages_held use r).
Proof. intros ts ts' H. unfold pages_held. by rewrite H. Qed.
Lemma group_ok_perm total g f f' u u' :
  f ≡ₚ f' → u ≡ₚ u' → group_ok total g f u → group_ok total g f' u'.
Proof. intros Hf Hu []. split; [by rewrite <-Hf, <-Hu|by rewrite <-Hf]. Qed.
Lemma model_ok_perm m ts ts' : ts ≡ₚ ts' → model_ok m ts → model_ok m ts'.
Proof.
  intros Hp []. split; try done; [by rewrite <-Hp|rewrite <-Hp; done|].
  intros r g Hg. eapply group_ok_perm; [..|by apply model_groups0]; by rewrite Hp.
Qed.
Lemma pa_ok_perm a ts ts' : ts ≡ₚ ts' → pa_ok a ts → pa_ok a ts'.
Proof.
  intros Hp []. split; [done| |by rewrite <-Hp].
  intros id m Hm. eapply model_ok_perm; [by rewrite <-Hp|]. by apply pa_models0.
Qed.

(** *** Effects of the sections on the tables *)

Lemma alter_insert_same {A} (M : gmap string A) id m f :
  M !! id = Some m → alter f id M = <[id := f m]> M.
Proof.
  intros Hm. apply map_eq. intros id'. destruct (decide (id' = id)) as [->|Hne].
  - by rewrite lookup_alter_eq, Hm, lookup_insert_eq.
  - by rewrite lookup_alter_ne, lookup_insert_ne.
Qed.
Lemma list_alter_same {A} (l : list A) i x f : l !! i = Some x → alter f i l = <[i := f x]> l.
Proof.
  intros Hx. apply list_eq. intros j. destruct (decide (j = i)) as [->|Hne].
  - by rewrite list_lookup_alter_eq, Hx, list_lookup_insert_eq by (by eapply lookup_lt_Some).
  - by rewrite list_lookup_alter_ne, list_lookup_insert_ne.
Qed.

Definition with_group (r : Z) (g : DpGroupPages) (m : ModelState) : ModelState :=
  set_groups (<[Z.to_nat r := g]> (dp_group_pages m)) m.
Definition with_model (id : string) (m : ModelState) (a : PageAllocator) : PageAllocator :=
  set_models (<[id := m]> (model_states_ a)) a.

Lemma group_at_put a id r m g g' :
  group_at a id r m g → group_at (with_model id (with_group r g' m) a) id r (with_group r g' m) g'.
Proof.
  intros [Hm Hg]. split; [by simpl; rewrite lookup_insert_eq|]. simpl.
  apply list_lookup_insert_eq. by eapply lookup_lt_Some.
Qed.
Lemma with_model_twice id m m' a : with_model id m' (with_model id m a) = with_model id m' a.
Proof. unfold with_model, set_models. simpl. by rewrite insert_insert_eq. Qed.
Lemma with_group_twice r g g' m : with_group r g' (with_group r g m) = with_group r g' m.
Proof. unfold with_group, set_groups. simpl. by rewrite list_insert_insert_eq. Qed.
Lemma set_pending_same m : set_pending (pending_map_ops m) m = m.
Proof. by destruct m. Qed.

Lemma post_get_model id (Q : ModelState → PageAllocator → Prop) a :
  (∀ m, model_states_ a !! id = Some m → Q m a) → post (get_model_state id) Q a.
Proof. intros HQ. unfold get_model_state. post_steps. destruct (_ !! _) eqn:E; [by apply HQ|done]. Qed.
Lemma post_get_group id r (Q : DpGroupPages → PageAllocator → Prop) a :
  (∀ m g, group_at a id r m g → Q g a) → post (get_group id r) Q a.
Proof.
  intros HQ. unfold get_group. apply post_bind, post_get_model. intros m Hm. post_steps. by apply (HQ m).
Qed.
Lemma post_modify_model id f (Q : unit → PageAllocator → Prop) a m :
  model_states_ a !! id = Some m → Q () (with_model id (f m) a) → post (modify_model id f) Q a.
Proof.
  intros Hm HQ. unfold modify_model. apply post_modify. by rewrite (alter_insert_same _ _ _ _ Hm).
Qed.
Lemma post_modify_group id r f (Q : unit → PageAllocator → Prop) a m g :
  group_at a id r m g → Q () (with_model id (with_group r (f g) m) a) → post (modify_group id r f) Q a.
Proof.
  intros [Hm Hg] HQ. unfold modify_group. eapply post_modify_model; [done|].
  by rewrite (list_alter_same _ _ _ _ Hg).
Qed.

(** What no operation after [init] changes *)
Definition config (a : PageAllocator) : Z * Z * Z * bool * bool * Z :=
  (dp_size_ a, max_world_size_ a, pa_page_size_ a, pa_initialized_ a, enable_page_prealloc_ a,
   num_total_phy_pages_ a).
(** The new tables of a section that changes one model *)
Definition becomes (a : PageAllocator) (id : string) (m : ModelState) (a' : PageAllocator) : Prop :=
  model_states_ a' = <[id := m]> (model_states_ a) ∧ config a' = config a ∧
  (workers_ok a → workers_ok a').
Lemma becomes_with a id m : becomes a id m (with_model id m a).
Proof. by split. Qed.
Lemma becomes_workers a id m a' a'' : becomes a id m a' → workers_only a' a'' → becomes a id m a''.
Proof. intros (H1 & H2 & H3) [-> H5]. split; [done|]. split; [done|]. simpl in *. auto. Qed.
Lemma becomes_needed a id m b : becomes a id m (set_needed b (with_model id m a)).
Proof. by split. Qed.

(** *** Allocation *)

Definition take_reserved (v : Z) (rest : list Z) (g : DpGroupPages) : DpGroupPages :=
  mkDpGroupPages (u64 (num_free_virt_pages g - 1)) (free_virt_page_list g) rest
    ({[v]} ∪ allocated_virt_page_list g).
Definition take_free (rest : list Z) (g : DpGroupPages) : DpGroupPages :=
  set_num_free (u64 (num_free_virt_pages g - 1)) (set_free_pages rest g).

Lemma group_at_inj a id r m g m' g' : group_at a id r m g → group_at a id r m' g' → m' = m ∧ g' = g.
Proof. intros [Hm Hg] [Hm' Hg']. rewrite Hm in Hm'. injection Hm' as <-. rewrite Hg in Hg'. by injection Hg'. Qed.
Lemma alloc_from_free_post id r n a m g :
  workers_ok a → 0 ≤ n → group_at a id r m g →
  post (alloc_from_free id r n) (λ o a',
    (o = None ∧ a' = a) ∨ o = Some Again ∨
    ∃ v rest, free_virt_page_list g = v :: rest ∧ o = Some (Took v false) ∧
      becomes a id (with_group r (take_free rest g) m) a') a.
Proof.
  intros Hok Hn Hg. unfold alloc_from_free. post_step. apply post_get_group. intros m' g' Hg'.
  destruct (group_at_inj _ _ _ _ _ _ _ Hg Hg') as [-> ->].
  destruct (free_virt_page_list g) as [|v rest] eqn:Ef; [post_steps; auto|].
  post_step. eapply post_mono; [by apply has_enough_post|]. intros enough a' ->.
  destruct enough; [|post_steps; auto]. post_step. eapply post_modify_group; [done|]. post_step.
  eapply post_mono; [by apply consume_post|]. intros ok a1 Hw. destruct ok.
  - post_steps. right; right. exists v, rest. split; [done|]. split; [done|].
    eapply becomes_workers; [apply becomes_with|exact Hw].
  - post_step. unfold modify_group, modify_model. post_steps. auto.
Qed.
Lemma alloc_out_of_pages_post id r n a :
  workers_ok a → post (alloc_out_of_pages id r n) (λ e a', e = Waits ∧ a' = a) a.
Proof.
  intros Hok. unfold alloc_out_of_pages. post_step. apply post_get_group. intros m g Hg.
  case_match; [done|]. post_step. eapply post_mono; [by apply has_enough_post|]. intros enough a' ->.
  case_match; [done|]. post_steps. by case_match.
Qed.
Lemma alloc_round_post id r n a :
  workers_ok a → 0 ≤ n →
  post (alloc_round id r n) (λ e a', ∃ m g, group_at a id r m g ∧
    match e with
    | Took v true => ∃ rest, reserved_virt_page_list g = v :: rest ∧
        becomes a id (with_group r (take_reserved v rest g) m) a'
    | Took v false => ∃ rest, reserved_virt_page_list g = [] ∧ free_virt_page_list g = v :: rest ∧
        becomes a id (with_group r (take_free rest g) m) a'
    | Again => True
    | Waits => a' = a
    end) a.
Proof.
  intros Hok Hn. unfold alloc_round. post_step. apply post_get_group. intros m g Hg.
  destruct (reserved_virt_page_list g) as [|v rest] eqn:Er.
  - post_step. eapply post_mono; [by eapply alloc_from_free_post|].
    intros o a' [[-> ->]|[->|(v & rest & Ef & -> & Hb)]].
    + eapply post_mono; [by apply alloc_out_of_pages_post|]. intros e ? [-> ->]. by exists m, g.
    + post_steps. by exists m, g.
    + post_steps. exists m, g. split; [done|]. by exists rest.
  - post_step. eapply post_modify_group; [done|]. post_step.
    set (a1 := with_model _ _ _).
    assert (group_at a1 id r (with_group r (set_num_free (u64 (num_free_virt_pages g - 1)) (set_reserved_pages rest g)) m)
              (set_num_free (u64 (num_free_virt_pages g - 1)) (set_reserved_pages rest g))) as Hg1 by (by eapply group_at_put).
    apply (post_mono _ (λ _ a2, a2 = a1 ∨ a2 = set_needed true a1)); [destruct (_ <? _); post_steps; auto|].
    intros [] a2 Ha2. post_step. eapply post_modify_group; [destruct Ha2 as [->| ->]; exact Hg1|].
    post_steps. exists m, g. split; [done|]. exists rest. split; [done|].
    rewrite with_group_twice. destruct Ha2 as [->| ->]; split; simpl.
    1,3: by rewrite insert_insert_eq. all: done.
Qed.

Lemma alloc_begin_post id r a :
  workers_ok a → map_Forall (λ _ m, 0 ≤ phy_pages_per_virt_page m) (model_states_ a) →
  post (alloc_begin id r) (λ o a',
    match o with
    | None => a' = a
    | Some x => ∃ m g, group_at a id r m g ∧ is_sleeping m = false ∧
        ((∃ rest, reserved_virt_page_list g = x.1 :: rest ∧ x.2 = true ∧
           becomes a id (with_group r (take_reserved x.1 rest g) m) a') ∨
         (∃ rest, free_virt_page_list g = x.1 :: rest ∧ x.2 = false ∧
           becomes a id (set_pending (i32 (pending_map_ops m + 1)) (with_group r (take_free rest g) m)) a'))
    end) a.
Proof.
  intros Hok Hpos. unfold alloc_begin, check_initialized, check_rank. post_steps. apply post_get_model.
  intros m Hm. post_steps. apply negb_true_iff in H2. cbn [alloc_loop]. post_step.
  eapply post_mono; [apply alloc_round_post; [done|by apply (Hpos id)]|].
  intros e a1 (m' & g & [Hm' Hg] & He). rewrite Hm in Hm'. injection Hm' as <-.
  destruct e as [v []| |]; post_steps; try done.
  - destruct He as (rest & Er & Hb). exists m, g. split; [done|]. split; [done|]. left. by exists rest.
  - destruct He as (rest & Er & Ef & Hb). pose proof Hb as (HM & Hd & Hw).
    eapply post_modify_model; [by rewrite HM, lookup_insert_eq|]. post_steps.
    exists m, g. split; [done|]. split; [done|]. right. exists rest. split; [done|]. split; [done|].
    split; [simpl; by rewrite HM, insert_insert_eq|]. by split.
Qed.

Lemma alloc_end_post id r v b a m g :
  group_at a id r m g → 0 ≤ phy_pages_per_virt_page m →
  post (alloc_end id r v b) (λ ok a', ok = b ∧
    becomes a id (set_pending (i32 (pending_map_ops m - 1))
      (if b then m else with_group r (set_num_free (u64 (num_free_virt_pages g + 1))
                                        (set_free_pages (v :: free_virt_page_list g) g)) m)) a') a.
Proof.
  intros [Hm Hg] Hpos. unfold alloc_end. post_step. eapply post_modify_model; [done|]. destruct b.
  { post_steps. split; [done|]. apply becomes_with. }
  post_step. eapply post_modify_group; [split; [by simpl; rewrite lookup_insert_eq|done]|].
  rewrite with_model_twice. post_step. apply post_get_model. simpl. intros m' Hm'.
  rewrite lookup_insert_eq in Hm'. simplify_eq. post_step. eapply post_mono; [by apply release_post|].
  intros [] a' Hw. post_steps. split; [done|]. eapply becomes_workers; [|exact Hw]. apply becomes_with.
Qed.
Lemma alloc_commit_post id r v a m g :
  group_at a id r m g →
  post (alloc_commit id r v)
    (λ _ a', becomes a id (with_group r (set_allocated_pages ({[v]} ∪ allocated_virt_page_list g) g) m) a') a.
Proof. intros Hg. unfold alloc_commit. eapply post_modify_group; [done|]. apply becomes_with. Qed.

(** *** The other sections *)

Lemma free_begin_post id r pages a :
  post (free_begin id r pages) (λ to_unmap a', ∃ m g k, group_at a id r m g ∧ to_unmap = drop k pages ∧
    becomes a id (with_group r (set_reserved_pages (reserved_virt_page_list g ++ take k pages)
      (set_num_free (u64 (num_free_virt_pages g + Z.of_nat (length pages)))
        (set_allocated_pages (allocated_virt_page_list g ∖ list_to_set pages) g))) m) a') a.
Proof.
  unfold free_begin, check_rank. post_steps. apply post_get_model. intros m0 Hm0. post_step.
  apply post_get_group. intros m g Hg. post_step. pose proof Hg as [Hm _]. rewrite Hm in Hm0. simplify_eq.
  eapply post_modify_group; [done|]. cbv beta. set (g1 := set_num_free _ _). set (a1 := with_model _ _ _).
  assert (group_at a1 id r (with_group r g1 m0) g1) as Hg1 by (by eapply group_at_put).
  assert (∃ m g k, group_at a id r m g ∧ pages = drop k pages ∧
    becomes a id (with_group r (set_reserved_pages (reserved_virt_page_list g ++ take k pages)
      (set_num_free (u64 (num_free_virt_pages g + Z.of_nat (length pages)))
        (set_allocated_pages (allocated_virt_page_list g ∖ list_to_set pages) g))) m) a1) as Hnone.
  { exists m0, g, 0%nat. split; [done|]. split; [done|]. rewrite take_0, app_nil_r.
    replace (set_reserved_pages (reserved_virt_page_list g) (set_num_free _ _)) with g1 by done. apply becomes_with. }
  destruct (is_sleeping m0); [by post_steps|]. post_step. apply post_get_group. intros m2 g2 [Hm2 Hg2].
  destruct Hg1 as [Hm1 Hg1]. simplify_eq.
  destruct (0 <? _); [|by post_steps]. post_step. eapply post_modify_group; [done|]. post_steps.
  set (k := Z.to_nat _). exists m0, g, k. split; [done|]. split; [done|].
  unfold a1. rewrite with_group_twice, with_model_twice. apply becomes_with.
Qed.

Lemma unmap_end_post id r n pages b a :
  post (unmap_end id r n pages b) (λ _ a', ∃ m g, group_at a id r m g ∧
    becomes a id (with_group r (if b then set_free_pages (free_virt_page_list g ++ pages) g
                                else set_reserved_pages (reserved_virt_page_list g ++ pages) g) m) a') a.
Proof.
  unfold unmap_end. post_step. apply post_get_group. intros m g Hg. destruct b; [post_step|].
  - eapply post_modify_group; [done|]. eapply post_mono; [apply release_post, u64_range|].
    intros [] a' Hw. exists m, g. split; [done|]. eapply becomes_workers; [|exact Hw]. apply becomes_with.
  - eapply post_modify_group; [done|]. exists m, g. split; [done|]. apply becomes_with.
Qed.
Lemma trim_begin_post id r a :
  post (trim_begin id r) (λ to_unmap a', ∃ m g, group_at a id r m g ∧ to_unmap = reserved_virt_page_list g ∧
    becomes a id (with_group r (set_reserved_pages [] g) m) a') a.
Proof.
  unfold trim_begin, check_rank. post_steps. apply post_get_group. intros m g Hg. post_step.
  eapply post_modify_group; [done|]. post_steps. exists m, g. split; [done|]. split; [done|]. apply becomes_with.
Qed.

Lemma prealloc_group_post id r a :
  workers_ok a →
  post (prealloc_group id r) (λ o a', ∃ m g, group_at a id r m g ∧
    ((o = None ∧ becomes a id m a') ∨
     ∃ k, o = Some (take k (free_virt_page_list g)) ∧
       becomes a id (with_group r (set_free_pages (drop k (free_virt_page_list g)) g) m) a')) a.
Proof.
  intros Hok. unfold prealloc_group, get_dp_group_worker_range, get_min_free_pages_in_range.
  post_step. apply post_get_model. intros m Hm. post_step.
  apply post_get_group. intros m' g Hg. pose proof Hg as [Hm' Hg']. rewrite Hm in Hm'. simplify_eq.
  post_steps. eapply post_mono; [by apply min_free_post|]. intros f a' (-> & _).
  destruct (_ =? 0); [done|]. set (k := Z.min (Z.min _ _) _). destruct (k =? 0).
  { post_steps. exists m', g. split; [done|]. left. split; [done|]. split; [by rewrite insert_id|]. done. }
  post_step. eapply post_modify_group; [done|]. post_step.
  eapply post_mono; [apply consume_post; [done|apply u64_range]|]. intros ok a1 Hw. cbv beta in Hw.
  assert (becomes a id (with_group r (set_free_pages (drop (Z.to_nat k) (free_virt_page_list g)) g) m') a1) as Hb
    by (eapply becomes_workers; [apply becomes_with|exact Hw]).
  destruct ok; post_steps; [exists m', g; split; [done|]; right; by exists (Z.to_nat k)|].
  destruct Hb as (HM & Hd & Hok1). eapply post_modify_group.
  { split; [by rewrite HM, lookup_insert_eq|]. simpl. apply list_lookup_insert_eq. by eapply lookup_lt_Some. }
  post_steps. exists m', g. split; [done|]. left. split; [done|]. split; [|by split].
  simpl. rewrite HM, insert_insert_eq, with_group_twice. f_equal. unfold with_group, set_free_pages. simpl.
  rewrite take_drop, list_insert_id; [by destruct m'|]. rewrite Hg'. by destruct g.
Qed.
Lemma prealloc_return_post id r n pages a m g :
  group_at a id r m g →
  post (prealloc_return id r n pages)
    (λ _ a', becomes a id (with_group r (set_free_pages (pages ++ free_virt_page_list g) g) m) a') a.
Proof.
  intros Hg. unfold prealloc_return. post_step. eapply post_modify_group; [done|].
  eapply post_mono; [apply release_post, u64_range|]. intros [] a' Hw.
  eapply becomes_workers; [apply becomes_with|exact Hw].
Qed.
Lemma prealloc_begin_post id r pages a m g :
  group_at a id r m g →
  post (prealloc_begin id r pages) (λ ok a', ok = negb (is_sleeping m) ∧
    becomes a id (if is_sleeping m then with_group r (set_free_pages (pages ++ free_virt_page_list g) g) m
                  else set_pending (i32 (pending_map_ops m + 1)) m) a') a.
Proof.
  intros Hg. pose proof Hg as [Hm _]. unfold prealloc_begin. post_steps. rewrite Hm.
  destruct (is_sleeping m); post_step.
  - eapply post_mono; [by eapply prealloc_return_post|]. intros [] a' Hb. by post_steps.
  - eapply post_modify_model; [done|]. post_steps. split; [done|]. apply becomes_with.
Qed.

Lemma modify_missing id f a :
  model_states_ a !! id = None → set_models (alter f id (model_states_ a)) a = a.
Proof.
  intros Hid. destruct a. unfold set_models. simpl in *. f_equal.
  apply map_eq. intros i. destruct (decide (i = id)) as [->|]; [by rewrite lookup_alter_eq, Hid|by rewrite lookup_alter_ne].
Qed.
Lemma model_workers_post id a :
  post (model_workers id) (λ ws a', a' = a ∧ ∃ e, ws = workers_in 0 e a) a.
Proof.
  unfold model_workers. post_step. apply post_get_model. intros m Hm. post_steps. split; [done|]. by eexists.
Qed.
Lemma alloc_weight_pages_post id n b a :
  workers_ok a → 0 ≤ n →
  post (alloc_weight_pages id n b)
    (λ _ a', (workers_only a a') ∨ ∃ m, model_states_ a !! id = Some m ∧ becomes a id (set_weight_pages n m) a') a.
Proof.
  intros Hok Hn. unfold alloc_weight_pages, check_initialized. post_steps.
  eapply post_mono; [apply model_workers_post|]. intros ws a' (-> & e & ->). post_steps.
  eapply post_mono; [by apply min_free_post|]. intros f a' (-> & _ & Hall).
  destruct (f <? n) eqn:E; [by post_steps; left|]. apply Z.ltb_ge in E. post_step.
  eapply post_mono; [apply add_used_all_post; [done|done|apply NoDup_seqZ|]|].
  { intros w Hw. destruct (Hall w Hw) as [? Hu]. split; [done|]. intros u Hlu. specialize (Hu u Hlu). lia. }
  intros [] a' Hw. post_step. unfold modify_model. post_steps.
  assert (model_states_ a' = model_states_ a) as HM by (by rewrite (proj1 Hw)).
  destruct (model_states_ a !! id) as [m|] eqn:Em; [right|left].
  - exists m. split; [done|]. destruct Hw as [Heq Hw]. split; [simpl; by rewrite HM, (alter_insert_same _ _ _ _ Em)|].
    split; [by rewrite Heq|exact Hw].
  - rewrite modify_missing by (by rewrite HM). exact Hw.
Qed.
Lemma sub_used_all_post (ws : list Z) (n : Z → Z) a :
  (∀ w, 0 ≤ n w) → post (for_each ws (λ w, sub_used w (n w))) (λ _, workers_only a) a.
Proof.
  intros Hn. apply (post_for_each _ _ (workers_only a)); [done|]. intros w a1 _ Ha1.
  eapply post_mono; [by apply sub_used_post|]. intros [] a2 Ha2. by etrans.
Qed.
Lemma free_weight_pages_post id n b a :
  0 ≤ n → post (free_weight_pages id n b) (λ _, workers_only a) a.
Proof.
  intros Hn. unfold free_weight_pages, check_initialized. destruct b; simpl; [|by post_steps]. post_steps.
  eapply post_mono; [apply model_workers_post|]. intros ws a' (-> & _). post_step.
  eapply post_mono; [by apply (sub_used_all_post ws (λ _, n))|]. intros [] a' Hw. by post_steps.
Qed.
Lemma sleep_end_post id n l a : post (sleep_end id n l) (λ _, workers_only a) a.
Proof.
  apply (post_for_each _ _ (workers_only a)); [done|]. intros x a1 _ Ha1.
  eapply post_mono; [apply release_post, u64_range|]. intros [] a2 Ha2. by etrans.
Qed.

Lemma groups_mapped_post m n a : post (groups_mapped m n) (λ _ a', a' = a) a.
Proof.
  unfold groups_mapped. post_step. eapply (post_map_each _ _ (λ _ a', a' = a)); [done|].
  intros r bs a' _ ->. by post_steps.
Qed.
Lemma sleep_collect_post id a :
  post (sleep_collect id)
    (λ _ a', ∃ m, model_states_ a !! id = Some m ∧ becomes a id (set_sleeping true m) a') a.
Proof.
  unfold sleep_collect. post_step. apply post_get_model. intros m Hm. post_steps.
  eapply post_modify_model; [done|]. post_step. eapply post_mono; [apply groups_mapped_post|].
  intros l a' ->. post_steps. exists m. split; [done|]. apply becomes_with.
Qed.

(** *** Waking up *)

Lemma add_needed_all_post ws n l a :
  Forall (Z.le 0) l → post (add_needed_all ws n l) (λ l' a', a' = a ∧ Forall (Z.le 0) l') a.
Proof.
  revert l. induction ws as [|w ws IH]; intros l Hl; simpl; [by post_steps|].
  unfold add_needed. post_steps. apply IH. apply Forall_insert; [done|]. apply u64_range.
Qed.
Lemma needed_groups_post id n gs l a :
  Forall (Z.le 0) l → post (needed_groups id n gs l) (λ l' a', a' = a ∧ Forall (Z.le 0) l') a.
Proof.
  revert l. induction gs as [|x gs IH]; intros l Hl; simpl; [by post_steps|].
  unfold get_dp_group_worker_range. post_steps. eapply post_mono; [by apply add_needed_all_post|].
  intros l' a' [-> Hl']. by apply IH.
Qed.
Lemma enough_for_post ws needed a :
  workers_ok a → Forall (Z.le 0) needed →
  post (enough_for ws needed) (λ ok a', a' = a ∧ (ok = true → ∀ w x u, w ∈ ws →
    needed !! Z.to_nat w = Some x → worker_pages_used_ a !! Z.to_nat w = Some u →
    x ≤ num_total_phy_pages_ a - u)) a.
Proof.
  intros (_ & Ht & Hok) Hn. rewrite Forall_lookup in Hok. induction ws as [|w ws IH]; simpl.
  { post_steps. split; [done|]. intros _ w x u Hw. by apply elem_of_nil in Hw. }
  post_steps. destruct (x =? 0) eqn:E.
  - apply Z.eqb_eq in E as ->. eapply post_mono; [exact IH|]. intros ok a' [-> Hall]. split; [done|].
    intros Hb w' x' u' [->|Hin]%elem_of_cons Hx' Hu'; [|by eapply Hall]. simplify_eq.
    pose proof (Hok _ _ Hu'). simpl in *. lia.
  - unfold worker_free. post_steps. rename x0 into u. pose proof (Hok _ _ H2) as Hu. simpl in Hu.
    rewrite u64_id by lia. destruct (_ <? x) eqn:E2; [by post_steps|]. apply Z.ltb_ge in E2.
    eapply post_mono; [exact IH|]. intros ok a' [-> Hall]. split; [done|].
    intros Hb w' x' u' [->|Hin]%elem_of_cons Hx' Hu'; [|by eapply Hall]. simplify_eq. lia.
Qed.
Lemma wakeup_begin_post id a : workers_ok a → post (wakeup_begin id) (λ _, workers_only a) a.
Proof.
  intros Hok. unfold wakeup_begin. post_steps. destruct (model_states_ a !! id) as [m|]; [|by post_steps].
  destruct (is_sleeping m); simpl; [|by post_steps]. post_step.
  eapply post_mono; [apply groups_mapped_post|]. intros l a' ->. post_step.
  eapply post_mono; [apply needed_groups_post, Forall_replicate; lia|]. intros nd a' [-> Hnd]. post_step.
  eapply post_mono; [apply model_workers_post|]. intros ws a' (-> & _). post_step.
  eapply post_mono; [by apply add_needed_all_post|]. intros nd' a' [-> Hnd']. post_step.
  eapply post_mono; [by apply enough_for_post|]. intros ok a' [-> Hall]. destruct ok; simpl; [|by post_steps].
  post_step. eapply post_mono; [apply (add_each_post _ _ (λ w, default 0 (nd' !! Z.to_nat w)));
    [done|apply NoDup_seqZ| |]|intros [] a' Hw; by post_steps].
  - intros w Hw. split; [apply elem_of_seqZ in Hw; lia|]. intros u Hu. destruct (nd' !! _) as [x|] eqn:Ex; simpl.
    + by eapply Hall.
    + destruct Hok as (_ & _ & Hf). rewrite Forall_lookup in Hf. pose proof (Hf _ _ Hu). simpl in *. lia.
  - intros w a1 _ Hok1 _ Hle. post_steps. rewrite H0 in Hle. simpl in Hle. destruct (0 <? x) eqn:E.
    + apply Z.ltb_lt in E. apply add_used_post; [done|lia|done].
    + post_steps. done.
Qed.

(** ** All calls, interleaved *)

(** A state: the allocator with the calls in flight.  [Waiting] calls of [sleep_model]
    have passed the check and wait; they hold no pages.  Each step is one critical
    section, run from any thread; the answers of the workers are arbitrary.  The client
    frees distinct pages it was given.  [Z.of_nat (map_ops ...) < 2 ^ 31 - 1] is the width of
    [pending_map_ops]. *)
Definition few (id : string) (ts : list task) : Prop :=
  Z.of_nat (map_ops (tasks_of id ts)) < 2 ^ 31 - 1.
Definition pages_task (p : phase) (id : string) (r : Z) (pages : list Z) : list task :=
  if bool_decide (pages = []) then [] else [mkTask p id r pages].

Inductive pa_step : PageAllocator * list task → PageAllocator * list task → Prop :=
  | step_register a ts id layers b a' :
      0 < layers → register_model id layers a = Done b a' → pa_step (a, ts) (a', ts)
  | step_strategy a ts id dp tp a' :
      set_model_parallel_strategy id dp tp a = Done () a' → pa_step (a, ts) (a', ts)
  | step_alloc a ts id r v a' :
      alloc_begin id r a = Done (Some (v, true)) a' → pa_step (a, ts) (a', ts)
  | step_alloc_wait a ts id r a' :
      alloc_begin id r a = Done None a' → pa_step (a, ts) (a', ts)
  | step_alloc_map a ts id r v a' :
      few id ts → alloc_begin id r a = Done (Some (v, false)) a' →
      pa_step (a, ts) (a', mkTask Mapping id r [v] :: ts)
  | step_alloc_end a ts ts' id r v success ok a' :
      ts ≡ₚ mkTask Mapping id r [v] :: ts' → alloc_end id r v success a = Done ok a' →
      pa_step (a, ts) (a', if ok then mkTask Mapped id r [v] :: ts' else ts')
  | step_alloc_commit a ts ts' id r v a' :
      ts ≡ₚ mkTask Mapped id r [v] :: ts' → alloc_commit id r v a = Done () a' →
      pa_step (a, ts) (a', ts')
  | step_trigger a ts a' : maybe_trigger a = Done () a' → pa_step (a, ts) (a', ts)
  | step_free a ts id r pages to_unmap a' :
      NoDup pages →
      (∀ m g, group_at a id r m g → Forall (λ v, v ∈ allocated_virt_page_list g) pages) →
      free_begin id r pages a = Done to_unmap a' →
      pa_step (a, ts) (a', pages_task Unmapping id r to_unmap ++ ts)
  | step_trim a ts id r to_unmap a' :
      trim_begin id r a = Done to_unmap a' →
      pa_step (a, ts) (a', pages_task Unmapping id r to_unmap ++ ts)
  | step_unmap_end a ts ts' id r n pages success a' :
      ts ≡ₚ mkTask Unmapping id r pages :: ts' → unmap_end id r n pages success a = Done () a' →
      pa_step (a, ts) (a', ts')
  | step_prealloc_plan a ts order plans a' :
      prealloc_plan order a = Done plans a' →
      pa_step (a, ts) (a', ((λ x : string * Z * list Z, mkTask Planned x.1.1 x.1.2 x.2) <$> plans) ++ ts)
  | step_prealloc_begin a ts ts' id r pages ok a' :
      few id ts → ts ≡ₚ mkTask Planned id r pages :: ts' →
      prealloc_begin id r pages a = Done ok a' →
      pa_step (a, ts) (a', if ok then mkTask Premapping id r pages :: ts' else ts')
  | step_prealloc_end a ts ts' id r pages success a' :
      ts ≡ₚ mkTask Premapping id r pages :: ts' → prealloc_end id r pages success a = Done () a' →
      pa_step (a, ts) (a', ts')
  | step_alloc_weights a ts id n reply b a' :
      0 ≤ n → alloc_weight_pages id n reply a = Done b a' → pa_step (a, ts) (a', ts)
  | step_free_weights a ts id n reply b a' :
      0 ≤ n → free_weight_pages id n reply a = Done b a' → pa_step (a, ts) (a', ts)
  | step_set_weights a ts id n a' :
      0 ≤ n → set_weight_pages_count id n a = Done () a' → pa_step (a, ts) (a', ts)
  | step_sleep a ts id x a' :
      (∀ m, model_states_ a !! id = Some m → pending_map_ops m ≤ 0) →
      sleep_collect id a = Done x a' → pa_step (a, ts) (a', ts)
  | step_sleep_end a ts id n l a' :
      sleep_end id n l a = Done () a' → pa_step (a, ts) (a', ts)
  | step_wakeup a ts id x a' :
      wakeup_begin id a = Done x a' → pa_step (a, ts) (a', ts)
  | step_wakeup_end a ts id a' :
      wakeup_end id a = Done () a' → pa_step (a, ts) (a', ts).

(** *** Tasks and pages *)

Lemma tasks_of_here id t ts : t_model t = id → tasks_of id (t :: ts) = t :: tasks_of id ts.
Proof. intros. unfold tasks_of. by rewrite filter_cons_True. Qed.
Lemma tasks_of_other id t ts : t_model t ≠ id → tasks_of id (t :: ts) = tasks_of id ts.
Proof. intros. unfold tasks_of. by rewrite filter_cons_False. Qed.
Lemma tasks_of_app id ts ts' : tasks_of id (ts ++ ts') = tasks_of id ts ++ tasks_of id ts'.
Proof. apply filter_app. Qed.
Lemma tasks_of_all id ts : Forall (λ t, t_model t = id) ts → tasks_of id ts = ts.
Proof. induction 1; [done|]. rewrite tasks_of_here by done. by f_equal. Qed.
Lemma tasks_of_none id id' ts : Forall (λ t, t_model t = id) ts → id' ≠ id → tasks_of id' ts = [].
Proof. intros Ht Hne. induction Ht; [done|]. rewrite tasks_of_other; [done|]. congruence. Qed.
Lemma map_ops_app ts ts' : map_ops (ts ++ ts') = (map_ops ts + map_ops ts')%nat.
Proof. unfold map_ops. by rewrite filter_app, length_app. Qed.
Lemma map_ops_one t : map_ops [t] = if is_map_op (t_phase t) then 1%nat else 0%nat.
Proof. unfold map_ops. rewrite filter_cons. case_decide as Hd; [by rewrite Hd|]. by destruct (is_map_op _). Qed.
Lemma map_ops_cons t ts : map_ops (t :: ts) = ((if is_map_op (t_phase t) then 1 else 0) + map_ops ts)%nat.
Proof. change (t :: ts) with ([t] ++ ts). by rewrite map_ops_app, map_ops_one. Qed.
Lemma pages_held_app use r ts ts' : pages_held use r (ts ++ ts') = pages_held use r ts ++ pages_held use r ts'.
Proof. apply bind_app. Qed.
Lemma pages_held_none use r k ts :
  Forall (λ t, Z.to_nat (t_rank t) = k) ts → r ≠ k → pages_held use r ts = [].
Proof.
  intros Ht Hne. induction Ht as [|t ts Hr Ht IH]; [done|]. unfold pages_held in *. cbn [mbind list_bind].
  rewrite IH. rewrite bool_decide_false by congruence. done.
Qed.

(** A section changes one model, and the tasks of that model. *)
Lemma pa_ok_update a a' id m m' old new rest :
  pa_ok a (old ++ rest) → model_states_ a !! id = Some m → becomes a id m' a' →
  length (dp_group_pages m') = length (dp_group_pages m) →
  Forall (λ t, t_model t = id) old →
  Forall (λ t, t_model t = id ∧ is_Some (dp_group_pages m !! Z.to_nat (t_rank t))) new →
  (model_ok m (old ++ tasks_of id rest) → model_ok m' (new ++ tasks_of id rest)) →
  pa_ok a' (new ++ rest).
Proof.
  intros [Hw Hm Ht] Hid (HM & _ & Hw') Hlen Hold Hnew Hstep.
  assert (Forall (λ t, t_model t = id) new) as Hnew' by (eapply Forall_impl; [exact Hnew|by intros t []]).
  split; [auto| |].
  - rewrite HM. intros id' m1. destruct (decide (id' = id)) as [->|Hne].
    + rewrite lookup_insert_eq. intros ?; simplify_eq. rewrite tasks_of_app, (tasks_of_all id new) by done. apply Hstep.
      specialize (Hm id m Hid). simpl in Hm. by rewrite tasks_of_app, (tasks_of_all id old) in Hm.
    + rewrite lookup_insert_ne by done. intros Hm1. specialize (Hm id' m1 Hm1). simpl in Hm.
      rewrite tasks_of_app, (tasks_of_none id) in Hm by done.
      by rewrite tasks_of_app, (tasks_of_none id) by done.
  - assert (∀ t, is_Some (dp_group_pages m !! Z.to_nat (t_rank t)) → t_model t = id →
              ∃ m g, group_at a' (t_model t) (t_rank t) m g) as Hgrp.
    { intros t Hr%lookup_lt_is_Some ->. rewrite <-Hlen in Hr. apply lookup_lt_is_Some in Hr as [g Hg].
      exists m', g. split; [|done]. by rewrite HM, lookup_insert_eq. }
    apply Forall_app in Ht as [_ Ht]. apply Forall_app. split; eapply Forall_impl; [exact Hnew| |exact Ht|].
    + intros t [? ?]. by apply Hgrp.
    + intros t (m1 & g1 & Hm1 & Hg1). destruct (decide (t_model t = id)) as [Heq|Hne].
      * rewrite Heq, Hid in Hm1. simplify_eq. apply Hgrp; [by eexists|done].
      * exists m1, g1. split; [|done]. by rewrite HM, lookup_insert_ne.
Qed.

(** Within a model, the tasks and the pages of one group. *)
Lemma model_ok_update m p r g g' old new rest :
  model_ok m (old ++ rest) → dp_group_pages m !! Z.to_nat r = Some g →
  Forall (λ t, Z.to_nat (t_rank t) = Z.to_nat r) old → Forall (λ t, Z.to_nat (t_rank t) = Z.to_nat r) new →
  p = pending_map_ops m - Z.of_nat (map_ops old) + Z.of_nat (map_ops new) → p < 2 ^ 31 →
  (is_sleeping m = true → map_ops new = 0%nat) →
  (∀ F U, group_ok (num_total_virt_pages m) g (pages_held false (Z.to_nat r) old ++ F) (pages_held true (Z.to_nat r) old ++ U) →
          group_ok (num_total_virt_pages m) g' (pages_held false (Z.to_nat r) new ++ F) (pages_held true (Z.to_nat r) new ++ U)) →
  model_ok (set_pending p (with_group r g' m)) (new ++ rest).
Proof.
  intros [Ht Hp Hwt Hpend Hfew Hsl Hg] Hr Hold Hnew -> Hlt Hsleep Hstep. rewrite map_ops_app in Hpend, Hsl.
  split; simpl; try done.
  - rewrite map_ops_app. lia.
  - rewrite map_ops_app. intros Hs. specialize (Hsleep Hs). specialize (Hsl Hs). lia.
  - intros k g1. rewrite !pages_held_app. destruct (decide (k = Z.to_nat r)) as [->|Hne].
    + rewrite list_lookup_insert_eq by (by eapply lookup_lt_Some). intros ?; simplify_eq. apply Hstep.
      specialize (Hg _ _ Hr). by rewrite !pages_held_app in Hg.
    + rewrite list_lookup_insert_ne by done. intros Hg1. specialize (Hg _ _ Hg1). rewrite !pages_held_app in Hg.
      rewrite !(pages_held_none _ _ _ old Hold) in Hg by done. by rewrite !(pages_held_none _ _ _ new Hnew) by done.
Qed.

(** *** One group *)

Section group.
Context (total : Z) (Htotal : 0 ≤ total < 2 ^ 62).
Context (g : DpGroupPages) (F U : list Z).

Lemma group_length : group_ok total g F U →
  num_free_virt_pages g + Z.of_nat (size (allocated_virt_page_list g)) + Z.of_nat (length U) = total.
Proof using Htotal.
  intros [Hp Hc]. apply Permutation_length in Hp. rewrite !length_app, length_seqZ in Hp.
  rewrite Hc. unfold base.size, set_size in *. simpl in *. lia.
Qed.
Lemma group_nodup : group_ok total g F U →
  NoDup (free_virt_page_list g ++ reserved_virt_page_list g ++ elements (allocated_virt_page_list g) ++ F ++ U).
Proof using. intros [Hp _]. rewrite Hp. apply NoDup_seqZ. Qed.
Lemma group_dec : group_ok total g F U → 0 < num_free_virt_pages g →
  u64 (num_free_virt_pages g - 1) = num_free_virt_pages g - 1.
Proof using Htotal. intros Hg Hpos. pose proof (group_length Hg). apply u64_id. lia. Qed.
Lemma group_inc n : group_ok total g F U → 0 ≤ n ≤ total →
  u64 (num_free_virt_pages g + n) = num_free_virt_pages g + n.
Proof using Htotal.
  intros Hg Hn. pose proof (group_length Hg). pose proof (group_count _ _ _ _ Hg). apply u64_id. lia.
Qed.
End group.

Lemma elements_insert (v : Z) (X : gset Z) : v ∉ X → elements ({[v]} ∪ X) ≡ₚ v :: elements X.
Proof. apply elements_union_singleton. Qed.
Lemma elements_remove (l : list Z) (X : gset Z) :
  NoDup l → Forall (λ v, v ∈ X) l → elements X ≡ₚ l ++ elements (X ∖ list_to_set l).
Proof.
  intros Hnd Hl. rewrite Forall_forall in Hl. apply NoDup_Permutation.
  - apply NoDup_elements.
  - apply NoDup_app. split; [done|]. split; [|apply NoDup_elements]. intros v Hv. set_solver.
  - intros v. rewrite elem_of_app, !elem_of_elements, elem_of_difference, elem_of_list_to_set.
    destruct (decide (v ∈ l)); naive_solver.
Qed.

Section group_steps.
Context (total : Z) (Htotal : 0 ≤ total < 2 ^ 62).
Context (g : DpGroupPages) (F U : list Z).

Lemma take_reserved_ok v rest :
  group_ok total g F U → reserved_virt_page_list g = v :: rest → group_ok total (take_reserved v rest g) F U.
Proof using Htotal.
  intros Hg Hr. pose proof (group_nodup _ _ _ _ Hg) as Hnd. pose proof (group_count _ _ _ _ Hg) as Hc.
  rewrite Hr in Hnd, Hc. simpl in Hc. split; simpl.
  - rewrite <-(group_pages _ _ _ _ Hg), Hr. rewrite elements_insert.
    + apply Permutation_app_head. simpl. symmetry; apply Permutation_middle.
    + apply NoDup_app in Hnd as (_ & _ & Hnd). apply NoDup_cons in Hnd as [Hv _].
      rewrite <-elem_of_elements. set_solver.
  - rewrite (group_dec total Htotal g F U) by (done || lia). lia.
Qed.
Lemma take_free_ok v rest :
  group_ok total g F U → free_virt_page_list g = v :: rest → group_ok total (take_free rest g) F (v :: U).
Proof using Htotal.
  intros Hg Hr. pose proof (group_count _ _ _ _ Hg) as Hc. rewrite Hr in Hc. simpl in Hc. split; simpl.
  - rewrite <-(group_pages _ _ _ _ Hg), Hr. simpl. rewrite !app_assoc.
    symmetry. apply Permutation_middle.
  - rewrite (group_dec total Htotal g F U) by (done || lia). lia.
Qed.
Lemma put_free_ok v :
  group_ok total g F (v :: U) →
  group_ok total (set_num_free (u64 (num_free_virt_pages g + 1))
                    (set_free_pages (v :: free_virt_page_list g) g)) F U.
Proof using Htotal.
  intros Hg. pose proof (group_count _ _ _ _ Hg) as Hc. pose proof (group_length _ Htotal _ _ _ Hg) as Hl.
  simpl in Hl. split; simpl.
  - rewrite <-(group_pages _ _ _ _ Hg). rewrite !app_assoc. by rewrite <-Permutation_middle.
  - rewrite (group_inc total Htotal g F (v :: U)) by (done || lia). lia.
Qed.
Lemma commit_ok v :
  group_ok total g F (v :: U) →
  group_ok total (set_allocated_pages ({[v]} ∪ allocated_virt_page_list g) g) F U.
Proof using Htotal.
  intros Hg. pose proof (group_nodup _ _ _ _ Hg) as Hnd. split; simpl; [|apply Hg].
  rewrite <-(group_pages _ _ _ _ Hg). rewrite elements_insert.
  - do 2 apply Permutation_app_head. simpl. rewrite !app_assoc. by rewrite <-Permutation_middle.
  - rewrite <-elem_of_elements. intros Hv. apply NoDup_app in Hnd as (_ & _ & Hnd).
    apply NoDup_app in Hnd as (_ & _ & Hnd). apply NoDup_app in Hnd as (_ & Hnd & _). set_solver.
Qed.
Lemma free_pages_ok pages k :
  group_ok total g F U → NoDup pages → Forall (λ v, v ∈ allocated_virt_page_list g) pages →
  group_ok total (set_reserved_pages (reserved_virt_page_list g ++ take k pages)
    (set_num_free (u64 (num_free_virt_pages g + Z.of_nat (length pages)))
      (set_allocated_pages (allocated_virt_page_list g ∖ list_to_set pages) g))) (drop k pages ++ F) U.
Proof using Htotal.
  intros Hg Hnd Hin. pose proof (elements_remove pages _ Hnd Hin) as He.
  pose proof (group_length _ Htotal _ _ _ Hg) as Hl. pose proof (group_count _ _ _ _ Hg) as Hc.
  assert (length pages ≤ base.size (allocated_virt_page_list g))%nat as Hlen.
  { change (base.size ?X) with (length (elements X)). rewrite He, length_app. lia. }
  split; simpl.
  - rewrite <-(group_pages _ _ _ _ Hg), He. rewrite <-(take_drop k pages) at 4. perm.
  - rewrite (group_inc total Htotal g F U) by (done || lia).
    pose proof (f_equal length (take_drop k pages)) as Htd. rewrite !length_app in *. lia.
Qed.
Lemma move_free_ok pages :
  group_ok total g (pages ++ F) U → group_ok total (set_free_pages (free_virt_page_list g ++ pages) g) F U.
Proof using.
  intros [Hp Hc]. split; simpl; [rewrite <-Hp; perm|rewrite Hc, !length_app; lia].
Qed.
Lemma move_free_front_ok pages :
  group_ok total g (pages ++ F) U → group_ok total (set_free_pages (pages ++ free_virt_page_list g) g) F U.
Proof using.
  intros [Hp Hc]. split; simpl; [rewrite <-Hp; perm|rewrite Hc, !length_app; lia].
Qed.
Lemma move_reserved_ok pages :
  group_ok total g (pages ++ F) U → group_ok total (set_reserved_pages (reserved_virt_page_list g ++ pages) g) F U.
Proof using.
  intros [Hp Hc]. split; simpl; [rewrite <-Hp; perm|rewrite Hc, !length_app; lia].
Qed.
Lemma trim_ok :
  group_ok total g F U → group_ok total (set_reserved_pages [] g) (reserved_virt_page_list g ++ F) U.
Proof using. intros [Hp Hc]. split; simpl; [rewrite <-Hp; perm|rewrite Hc, !length_app; lia]. Qed.
Lemma plan_ok k :
  group_ok total g F U →
  group_ok total (set_free_pages (drop k (free_virt_page_list g)) g) (take k (free_virt_page_list g) ++ F) U.
Proof using.
  intros [Hp Hc]. split; simpl.
  - rewrite <-Hp. rewrite <-(take_drop k (free_virt_page_list g)) at 3. perm.
  - rewrite Hc. pose proof (f_equal length (take_drop k (free_virt_page_list g))) as Htd.
    rewrite !length_app in *. lia.
Qed.
End group_steps.

(** *** Preservation *)

Definition of_group (id : string) (r : Z) (t : task) : Prop := t_model t = id ∧ t_rank t = r.

Lemma pa_group_step a a' ts old new rest id r m g g' p :
  pa_ok a ts → ts ≡ₚ old ++ rest → group_at a id r m g →
  becomes a id (set_pending p (with_group r g' m)) a' →
  Forall (of_group id r) old → Forall (of_group id r) new →
  p = pending_map_ops m - Z.of_nat (map_ops old) + Z.of_nat (map_ops new) → p < 2 ^ 31 →
  (is_sleeping m = true → map_ops new = 0%nat) →
  (∀ F U, 0 ≤ num_total_virt_pages m < 2 ^ 62 →
     group_ok (num_total_virt_pages m) g (pages_held false (Z.to_nat r) old ++ F) (pages_held true (Z.to_nat r) old ++ U) →
     group_ok (num_total_virt_pages m) g' (pages_held false (Z.to_nat r) new ++ F) (pages_held true (Z.to_nat r) new ++ U)) →
  pa_ok a' (new ++ rest).
Proof.
  intros Hok Hts [Hm Hg] Hb Hold Hnew Hp Hlt Hs Hstep. eapply pa_ok_perm in Hok; [|exact Hts].
  eapply pa_ok_update; [done..| | | |].
  - simpl. apply length_insert.
  - eapply Forall_impl; [exact Hold|]. by intros t [].
  - eapply Forall_impl; [exact Hnew|]. intros t [-> ->]. split; [done|]. by eexists.
  - intros Hmok. eapply model_ok_update; try done.
    + eapply Forall_impl; [exact Hold|]. by intros t [_ ->].
    + eapply Forall_impl; [exact Hnew|]. by intros t [_ ->].
    + intros F U. apply Hstep, Hmok.
Qed.
(** the same when no map operation starts or ends *)
Lemma pa_group_step_same a a' ts old new rest id r m g g' :
  pa_ok a ts → ts ≡ₚ old ++ rest → group_at a id r m g → becomes a id (with_group r g' m) a' →
  Forall (of_group id r) old → Forall (of_group id r) new → map_ops old = 0%nat → map_ops new = 0%nat →
  (∀ F U, 0 ≤ num_total_virt_pages m < 2 ^ 62 →
     group_ok (num_total_virt_pages m) g (pages_held false (Z.to_nat r) old ++ F) (pages_held true (Z.to_nat r) old ++ U) →
     group_ok (num_total_virt_pages m) g' (pages_held false (Z.to_nat r) new ++ F) (pages_held true (Z.to_nat r) new ++ U)) →
  pa_ok a' (new ++ rest).
Proof.
  intros Hok Hts Hg Hb Hold Hnew Hz1 Hz2 Hstep.
  eapply (pa_group_step _ _ _ old new rest id r m g g' (pending_map_ops m)); try done; [lia|].
  pose proof (pa_models _ _ Hok id m (proj1 Hg)) as Hmok. apply Hmok.
Qed.
(** A change of the other fields of a model *)
Lemma pa_model_step a a' ts id m m' :
  pa_ok a ts → model_states_ a !! id = Some m → becomes a id m' a' →
  length (dp_group_pages m') = length (dp_group_pages m) →
  (model_ok m (tasks_of id ts) → model_ok m' (tasks_of id ts)) → pa_ok a' ts.
Proof. intros Hok Hm Hb Hlen Hstep. by eapply (pa_ok_update _ _ _ _ _ [] [] ts). Qed.
Lemma pa_workers_step a a' ts : pa_ok a ts → workers_only a a' → pa_ok a' ts.
Proof. intros [Hw Hm Ht] [-> Hw']. split; [auto|done|done]. Qed.

Lemma held_one use r t :
  Z.to_nat (t_rank t) = r → pages_held use r [t] = if Bool.eqb (is_use (t_phase t)) use then t_pages t else [].
Proof. intros Hr. unfold pages_held. simpl. rewrite bool_decide_true by done. by rewrite app_nil_r. Qed.
Lemma held_pages_task use p id r pages :
  pages_held use (Z.to_nat r) (pages_task p id r pages) = if Bool.eqb (is_use p) use then pages else [].
Proof.
  unfold pages_task. case_bool_decide; [|by rewrite held_one]. subst. by destruct (Bool.eqb _ _).
Qed.
Lemma pages_task_group p id r pages : Forall (of_group id r) (pages_task p id r pages).
Proof. unfold pages_task. case_bool_decide; repeat constructor. Qed.
Lemma pages_task_ops id r pages p : is_map_op p = false → map_ops (pages_task p id r pages) = 0%nat.
Proof. intros Hp. unfold pages_task, map_ops. case_bool_decide; [done|]. rewrite filter_cons_False; [done|]. simpl. by rewrite Hp. Qed.

Lemma post_done {A} (m : PA A) Q a x a' : post m Q a → m a = Done x a' → Q x a'.
Proof. unfold post. intros HQ Hm. by rewrite Hm in HQ. Qed.

(** What [pa_ok] says of the tasks of a model *)
Lemma pa_ok_model a ts id m : pa_ok a ts → model_states_ a !! id = Some m → model_ok m (tasks_of id ts).
Proof. intros [_ Hm _]. apply Hm. Qed.
Lemma pa_ok_pending a ts id m :
  pa_ok a ts → model_states_ a !! id = Some m → pending_map_ops m = Z.of_nat (map_ops (tasks_of id ts)).
Proof. intros Hok Hm. by destruct (pa_ok_model _ _ _ _ Hok Hm). Qed.

Lemma alloc_begin_step a ts id r v a' :
  pa_ok a ts → alloc_begin id r a = Done (Some (v, true)) a' → pa_ok a' ts.
Proof.
  intros Hok Hrun. apply (post_done _ _ _ _ _ (alloc_begin_post id r a (pa_workers _ _ Hok)
    ltac:(intros i m Hm; apply (pa_ok_model _ _ _ _ Hok Hm)))) in Hrun
    as (m & g & Hg & Hsl & [(rest & Hr & _ & Hb)|(? & _ & [=] & _)]).
  eapply (pa_group_step_same _ _ _ [] [] ts); try done.
  intros F U Ht Hgok. by apply take_reserved_ok.
Qed.
Lemma alloc_begin_wait_step a ts id r a' :
  pa_ok a ts → alloc_begin id r a = Done None a' → pa_ok a' ts.
Proof.
  intros Hok Hrun. apply (post_done _ _ _ _ _ (alloc_begin_post id r a (pa_workers _ _ Hok)
    ltac:(intros i m Hm; apply (pa_ok_model _ _ _ _ Hok Hm)))) in Hrun. by rewrite Hrun.
Qed.
Lemma alloc_begin_map_step a ts id r v a' :
  pa_ok a ts → few id ts → alloc_begin id r a = Done (Some (v, false)) a' → pa_ok a' (mkTask Mapping id r [v] :: ts).
Proof.
  intros Hok Hfew Hrun. apply (post_done _ _ _ _ _ (alloc_begin_post id r a (pa_workers _ _ Hok)
    ltac:(intros i m Hm; apply (pa_ok_model _ _ _ _ Hok Hm)))) in Hrun
    as (m & g & Hg & Hsl & [(rest & _ & [=] & _)|(rest & Hr & _ & Hb)]).
  unfold few in Hfew. rewrite <-(pa_ok_pending _ _ _ _ Hok (proj1 Hg)) in Hfew.
  pose proof (pa_ok_pending _ _ _ _ Hok (proj1 Hg)) as Hpend.
  eapply (pa_group_step _ _ _ [] [mkTask Mapping id r [v]] ts _ _ _ _ _ _ Hok); try done.
  - repeat constructor.
  - rewrite i32_id; [rewrite map_ops_one; cbn; lia|]. lia.
  - rewrite i32_id; lia.
  - congruence.
  - intros F U Ht Hgok. rewrite !held_one by done. simpl in *. by apply take_free_ok.
Qed.

Lemma pa_ok_task a ts id p r pages ts' :
  pa_ok a ts → ts ≡ₚ mkTask p id r pages :: ts' → ∃ m g, group_at a id r m g.
Proof. intros [_ _ Ht] Hts. rewrite Hts in Ht. by apply Forall_cons in Ht as [? _]. Qed.

Lemma with_group_same r g m : dp_group_pages m !! Z.to_nat r = Some g → with_group r g m = m.
Proof. intros Hg. unfold with_group, set_groups. rewrite list_insert_id by done. by destruct m. Qed.

(** A task that ends its map operation *)
Lemma end_map_op a ts p id r pages ts' m :
  pa_ok a ts → ts ≡ₚ mkTask p id r pages :: ts' → is_map_op p = true → model_states_ a !! id = Some m →
  i32 (pending_map_ops m - 1) = pending_map_ops m - 1 ∧ pending_map_ops m < 2 ^ 31 ∧ is_sleeping m = false.
Proof.
  intros Hok Hts Hmap Hm. destruct (pa_ok_model _ _ _ _ Hok Hm) as [_ _ _ Hp Hfew Hsl _].
  rewrite Hts, tasks_of_here, map_ops_cons in Hp, Hsl by done. simpl in Hp, Hsl. rewrite Hmap in Hp, Hsl.
  split; [apply i32_id; lia|]. split; [done|]. destruct (is_sleeping m); [|done]. by specialize (Hsl eq_refl).
Qed.

(** The goals of [pa_group_step] on the tasks *)
Ltac group_step :=
  try solve [assumption | repeat constructor | rewrite ?map_ops_one; cbn; lia | by rewrite map_ops_one | congruence].

Lemma alloc_end_step a ts ts' id r v success ok a' :
  pa_ok a ts → ts ≡ₚ mkTask Mapping id r [v] :: ts' → alloc_end id r v success a = Done ok a' →
  pa_ok a' (if ok then mkTask Mapped id r [v] :: ts' else ts').
Proof.
  intros Hok Hts Hrun. destruct (pa_ok_task _ _ _ _ _ _ _ Hok Hts) as (m & g & Hg).
  pose proof (pa_ok_model _ _ _ _ Hok (proj1 Hg)) as Hm.
  pose proof (post_done _ _ _ _ _ (alloc_end_post _ _ _ _ _ _ _ Hg (model_per_page _ _ Hm)) Hrun) as [-> Hb].
  destruct (end_map_op _ _ _ _ _ _ _ _ Hok Hts eq_refl (proj1 Hg)) as (Hi & Hlt & Hsl). rewrite Hi in Hb.
  destruct success.
  - assert (becomes a id (set_pending (pending_map_ops m - 1) (with_group r g m)) a') as Hb'
      by (by rewrite (with_group_same _ _ _ (proj2 Hg))).
    eapply (pa_group_step _ _ _ [mkTask Mapping id r [v]] [mkTask Mapped id r [v]] ts' id r m g g);
      [exact Hok|exact Hts|exact Hg|exact Hb'|..]; group_step.
    intros F U _. by rewrite !held_one.
  - eapply (pa_group_step _ _ _ [mkTask Mapping id r [v]] [] ts' id r m g); [exact Hok|exact Hts|exact Hg|exact Hb|..]; group_step.
    intros F U Ht Hgok. rewrite !held_one in Hgok by done. by apply put_free_ok.
Qed.
Lemma alloc_commit_step a ts ts' id r v a' :
  pa_ok a ts → ts ≡ₚ mkTask Mapped id r [v] :: ts' → alloc_commit id r v a = Done () a' → pa_ok a' ts'.
Proof.
  intros Hok Hts Hrun. destruct (pa_ok_task _ _ _ _ _ _ _ Hok Hts) as (m & g & Hg).
  pose proof (post_done _ _ _ _ _ (alloc_commit_post _ _ _ _ _ _ Hg) Hrun) as Hb.
  eapply (pa_group_step_same _ _ _ [mkTask Mapped id r [v]] [] ts' id r m g); [exact Hok|exact Hts|exact Hg|exact Hb|..]; group_step.
  intros F U Ht Hgok. rewrite !held_one in Hgok by done. by eapply commit_ok.
Qed.

Lemma free_begin_step a ts id r pages to_unmap a' :
  pa_ok a ts → NoDup pages →
  (∀ m g, group_at a id r m g → Forall (λ v, v ∈ allocated_virt_page_list g) pages) →
  free_begin id r pages a = Done to_unmap a' → pa_ok a' (pages_task Unmapping id r to_unmap ++ ts).
Proof.
  intros Hok Hnd Hin Hrun. destruct (post_done _ _ _ _ _ (free_begin_post id r pages a) Hrun)
    as (m & g & k & Hg & -> & Hb).
  eapply (pa_group_step_same _ _ _ [] (pages_task Unmapping id r (drop k pages)) ts id r m g);
    [exact Hok|done|exact Hg|exact Hb|..]; group_step.
  - apply pages_task_group.
  - by apply pages_task_ops.
  - intros F U Ht Hgok. rewrite !held_pages_task. apply free_pages_ok; [done|done|done|by eapply Hin].
Qed.
Lemma trim_begin_step a ts id r to_unmap a' :
  pa_ok a ts → trim_begin id r a = Done to_unmap a' → pa_ok a' (pages_task Unmapping id r to_unmap ++ ts).
Proof.
  intros Hok Hrun. destruct (post_done _ _ _ _ _ (trim_begin_post id r a) Hrun) as (m & g & Hg & -> & Hb).
  eapply (pa_group_step_same _ _ _ [] (pages_task Unmapping id r _) ts id r m g);
    [exact Hok|done|exact Hg|exact Hb|..]; group_step.
  - apply pages_task_group.
  - by apply pages_task_ops.
  - intros F U Ht Hgok. rewrite !held_pages_task. by apply trim_ok.
Qed.
Lemma unmap_end_step a ts ts' id r n pages success a' :
  pa_ok a ts → ts ≡ₚ mkTask Unmapping id r pages :: ts' → unmap_end id r n pages success a = Done () a' →
  pa_ok a' ts'.
Proof.
  intros Hok Hts Hrun. destruct (post_done _ _ _ _ _ (unmap_end_post id r n pages success a) Hrun) as (m & g & Hg & Hb).
  eapply (pa_group_step_same _ _ _ [mkTask Unmapping id r pages] [] ts' id r m g);
    [exact Hok|exact Hts|exact Hg|exact Hb|..]; group_step.
  intros F U Ht Hgok. rewrite !held_one in Hgok by done.
  destruct success; [by apply move_free_ok|by apply move_reserved_ok].
Qed.

Definition plan_task (x : string * Z * list Z) : task := mkTask Planned x.1.1 x.1.2 x.2.

Lemma prealloc_plan_step a ts order plans a' :
  pa_ok a ts → prealloc_plan order a = Done plans a' → pa_ok a' ((plan_task <$> plans) ++ ts).
Proof.
  intros Hok Hrun. refine (post_done _ (λ l a1, pa_ok a1 ((plan_task <$> l) ++ ts)) a _ _ _ Hrun).
  unfold prealloc_plan. post_steps.
  eapply post_mono; [apply (post_map_each _ _ (λ bs a', pa_ok a' ((plan_task <$> omap (λ o, o) bs) ++ ts)))|].
  - simpl. destruct Hok. by split.
  - intros [id r] bs a1 _ Hok1. simpl. post_step. apply post_get_model. intros m Hm.
    destruct (is_sleeping m). { post_steps. by rewrite omap_app, app_nil_r. }
    post_step. eapply post_mono; [apply prealloc_group_post, Hok1|]. cbv beta.
    intros o a2 (m' & g & Hg & [[-> Hb]|(k & -> & Hb)]); post_steps; rewrite omap_app; simpl.
    + rewrite app_nil_r. eapply pa_model_step; [exact Hok1|apply Hg|exact Hb|done|done].
    + rewrite fmap_app, <-app_assoc. eapply pa_ok_perm;
        [|eapply (pa_group_step_same _ _ _ [] [mkTask Planned id r (take k (free_virt_page_list g))] ((plan_task <$> omap (λ o, o) bs) ++ ts) id r m' g);
          [exact Hok1|done|exact Hg|exact Hb|..]; group_step].
      * simpl. apply Permutation_middle.
      * intros F U Ht Hgok. rewrite !held_one by done. by apply plan_ok.
  - intros bs a1 H1. by post_steps.
Qed.

Lemma prealloc_begin_step a ts ts' id r pages ok a' :
  pa_ok a ts → few id ts → ts ≡ₚ mkTask Planned id r pages :: ts' → prealloc_begin id r pages a = Done ok a' →
  pa_ok a' (if ok then mkTask Premapping id r pages :: ts' else ts').
Proof.
  intros Hok Hfew Hts Hrun. destruct (pa_ok_task _ _ _ _ _ _ _ Hok Hts) as (m & g & Hg).
  pose proof (post_done _ _ _ _ _ (prealloc_begin_post _ _ _ _ _ _ Hg) Hrun) as [-> Hb].
  unfold few in Hfew. rewrite <-(pa_ok_pending _ _ _ _ Hok (proj1 Hg)) in Hfew.
  pose proof (pa_ok_pending _ _ _ _ Hok (proj1 Hg)) as Hpend. destruct (is_sleeping m) eqn:Es; simpl.
  - eapply (pa_group_step_same _ _ _ [mkTask Planned id r pages] [] ts' id r m g);
      [exact Hok|exact Hts|exact Hg|exact Hb|..]; group_step.
    intros F U Ht Hgok. rewrite !held_one in Hgok by done. by apply move_free_front_ok.
  - assert (becomes a id (set_pending (pending_map_ops m + 1) (with_group r g m)) a') as Hb'.
    { rewrite (with_group_same _ _ _ (proj2 Hg)). rewrite i32_id in Hb by lia. done. }
    eapply (pa_group_step _ _ _ [mkTask Planned id r pages] [mkTask Premapping id r pages] ts' id r m g g);
      [exact Hok|exact Hts|exact Hg|exact Hb'|..]; group_step.
    intros F U _. by rewrite !held_one.
Qed.
Lemma prealloc_end_post id r pages b a m g :
  group_at a id r m g → is_sleeping m = false →
  post (prealloc_end id r pages b) (λ _ a', becomes a id (set_pending (i32 (pending_map_ops m - 1))
    (with_group r (if b then set_reserved_pages (reserved_virt_page_list g ++ pages) g
                   else set_free_pages (pages ++ free_virt_page_list g) g) m)) a') a.
Proof.
  intros Hg Hs. unfold prealloc_end. post_step. eapply post_modify_model; [apply Hg|]. post_steps.
  simpl. rewrite lookup_insert_eq. set (a1 := with_model _ _ a). set (m1 := set_pending _ m).
  assert (group_at a1 id r m1 g) as Hg1 by (split; [simpl; by rewrite lookup_insert_eq|apply Hg]).
  destruct b; simpl.
  - rewrite Hs. simpl. eapply post_modify_group; [exact Hg1|]. unfold a1. rewrite with_model_twice.
    apply becomes_with.
  - eapply post_mono; [by apply prealloc_return_post|]. cbv beta. intros [] a' (HM & Hd & Hw).
    split; [rewrite HM; simpl; by rewrite insert_insert_eq|]. by split.
Qed.
Lemma prealloc_end_step a ts ts' id r pages success a' :
  pa_ok a ts → ts ≡ₚ mkTask Premapping id r pages :: ts' → prealloc_end id r pages success a = Done () a' →
  pa_ok a' ts'.
Proof.
  intros Hok Hts Hrun. destruct (pa_ok_task _ _ _ _ _ _ _ Hok Hts) as (m & g & Hg).
  destruct (end_map_op _ _ _ _ _ _ _ _ Hok Hts eq_refl (proj1 Hg)) as (Hi & Hlt & Hsl).
  pose proof (post_done _ _ _ _ _ (prealloc_end_post _ _ _ _ _ _ _ Hg Hsl) Hrun) as Hb. rewrite Hi in Hb.
  eapply (pa_group_step _ _ _ [mkTask Premapping id r pages] [] ts' id r m g);
    [exact Hok|exact Hts|exact Hg|exact Hb|..]; group_step.
  intros F U Ht Hgok. rewrite !held_one in Hgok by done.
  destruct success; [by apply move_reserved_ok|by apply move_free_front_ok].
Qed.

(** A model that is not registered has no tasks. *)
Lemma pa_ok_no_task a ts id : pa_ok a ts → model_states_ a !! id = None → tasks_of id ts = [].
Proof.
  intros [_ _ Ht] Hid. unfold tasks_of. induction Ht as [|t ts (m & g & Hm & _) Ht IH]; [done|].
  rewrite filter_cons_False; [done|]. intros Heq. by rewrite Heq, Hid in Hm.
Qed.
Lemma register_step a ts id layers b a' :
  pa_ok a ts → 0 < layers → register_model id layers a = Done b a' → pa_ok a' ts.
Proof.
  intros Hok Hl Hrun. pose proof (pa_workers _ _ Hok) as (_ & Ht & _).
  refine (post_done (register_model id layers) (λ _ a1, pa_ok a1 ts) a _ _ _ Hrun).
  unfold register_model, check_initialized, put_model. post_steps. case_bool_decide as Hid; [by post_steps|].
  destruct (u64 layers =? 0) eqn:E; [done|]. apply Z.eqb_neq in E. pose proof (u64_range layers). post_steps.
  apply eq_None_not_Some in Hid. set (total := _ / 2).
  assert (0 ≤ total < 2 ^ 62) as Htot.
  { split; [apply Z.div_pos; [apply Z.div_pos; lia|lia]|]. unfold total.
    assert (num_total_phy_pages_ a / u64 layers ≤ num_total_phy_pages_ a) by (apply Z.div_le_upper_bound; nia).
    assert (num_total_phy_pages_ a / u64 layers / 2 ≤ num_total_phy_pages_ a / u64 layers)
      by (apply Z.div_le_upper_bound; [lia|]; pose proof (Z.div_pos (num_total_phy_pages_ a) (u64 layers)); lia). lia. }
  destruct Hok as [Hw Hm Hts]. split; [done| |].
  - intros id' m1. simpl. destruct (decide (id' = id)) as [->|Hne].
    + rewrite lookup_insert_eq. intros ?; simplify_eq.
      rewrite (pa_ok_no_task a ts id) by (done || by split). split; simpl; try done; try lia; [apply u64_range|].
      intros r g Hg. apply lookup_replicate in Hg as [-> _]. split; simpl.
      * by rewrite elements_empty, !app_nil_r.
      * rewrite length_seqZ. lia.
    + rewrite lookup_insert_ne by done. apply Hm.
  - eapply Forall_impl; [exact Hts|]. intros t (m1 & g1 & Hm1 & Hg1). exists m1, g1. split; [|done].
    simpl. rewrite lookup_insert_ne; [done|]. intros Heq. rewrite <-Heq in Hm1. by rewrite Hid in Hm1.
Qed.
Lemma strategy_step a ts id dp tp a' :
  pa_ok a ts → set_model_parallel_strategy id dp tp a = Done () a' → pa_ok a' ts.
Proof.
  intros Hok Hrun. refine (post_done _ (λ _ a1, pa_ok a1 ts) a _ _ _ Hrun).
  unfold set_model_parallel_strategy. destruct (model_states_ a !! id) as [m|] eqn:Hm.
  - eapply post_modify_model; [done|]. eapply pa_model_step; [exact Hok|exact Hm|apply becomes_with|done|].
    intros []. by split.
  - unfold modify_model. post_steps. by rewrite modify_missing.
Qed.
Lemma trigger_step a ts a' : pa_ok a ts → maybe_trigger a = Done () a' → pa_ok a' ts.
Proof.
  intros Hok Hrun. refine (post_done _ (λ _ a1, pa_ok a1 ts) a _ _ _ Hrun).
  unfold maybe_trigger, trigger_preallocation. post_steps. destruct (enable_page_prealloc_ a); post_steps; [|done].
  destruct Hok. by split.
Qed.
Lemma set_weight_ok n m ts : 0 ≤ n → model_ok m ts → model_ok (set_weight_pages n m) ts.
Proof. intros Hn []. by split. Qed.
Lemma alloc_weights_step a ts id n reply b a' :
  pa_ok a ts → 0 ≤ n → alloc_weight_pages id n reply a = Done b a' → pa_ok a' ts.
Proof.
  intros Hok Hn Hrun. destruct (post_done _ _ _ _ _ (alloc_weight_pages_post id n reply a (pa_workers _ _ Hok) Hn) Hrun)
    as [Hw|(m & Hm & Hb)]; [by eapply pa_workers_step|].
  eapply pa_model_step; [exact Hok|exact Hm|exact Hb|done|]. by apply set_weight_ok.
Qed.
Lemma set_weights_step a ts id n a' :
  pa_ok a ts → 0 ≤ n → set_weight_pages_count id n a = Done () a' → pa_ok a' ts.
Proof.
  intros Hok Hn Hrun. refine (post_done _ (λ _ a1, pa_ok a1 ts) a _ _ _ Hrun).
  unfold set_weight_pages_count. post_step. apply post_get_model. intros m Hm. eapply post_modify_model; [done|].
  eapply pa_model_step; [exact Hok|exact Hm|apply becomes_with|done|]. by apply set_weight_ok.
Qed.
Lemma sleep_collect_step a ts id x a' :
  pa_ok a ts → (∀ m, model_states_ a !! id = Some m → pending_map_ops m ≤ 0) →
  sleep_collect id a = Done x a' → pa_ok a' ts.
Proof.
  intros Hok Hp Hrun. destruct (post_done _ _ _ _ _ (sleep_collect_post id a) Hrun) as (m & Hm & Hb).
  eapply pa_model_step; [exact Hok|exact Hm|exact Hb|done|]. specialize (Hp m Hm).
  intros []. split; try done. intros _. lia.
Qed.
Lemma wakeup_end_step a ts id a' : pa_ok a ts → wakeup_end id a = Done () a' → pa_ok a' ts.
Proof.
  intros Hok Hrun. refine (post_done _ (λ _ a1, pa_ok a1 ts) a _ _ _ Hrun).
  unfold wakeup_end. destruct (model_states_ a !! id) as [m|] eqn:Hm.
  - eapply post_modify_model; [done|]. eapply pa_model_step; [exact Hok|exact Hm|apply becomes_with|done|].
    intros []. by split.
  - unfold modify_model. post_steps. by rewrite modify_missing.
Qed.

(** Every step preserves the invariant. *)
Lemma pa_step_ok s s' : pa_step s s' → pa_ok s.1 s.2 → pa_ok s'.1 s'.2.
Proof.
  destruct 1; simpl; intros Hok.
  - by eapply register_step.
  - by eapply strategy_step.
  - by eapply alloc_begin_step.
  - by eapply alloc_begin_wait_step.
  - by eapply alloc_begin_map_step.
  - by eapply alloc_end_step.
  - by eapply alloc_commit_step.
  - by eapply trigger_step.
  - by eapply free_begin_step.
  - by eapply trim_begin_step.
  - by eapply unmap_end_step.
  - by eapply prealloc_plan_step.
  - by eapply prealloc_begin_step.
  - by eapply prealloc_end_step.
  - by eapply alloc_weights_step.
  - eapply pa_workers_step; [exact Hok|]. eapply (post_done _ (λ _, workers_only a)); [|done].
    by apply free_weight_pages_post.
  - by eapply set_weights_step.
  - by eapply sleep_collect_step.
  - eapply pa_workers_step; [exact Hok|]. eapply (post_done _ (λ _, workers_only a)); [|done]. apply sleep_end_post.
  - eapply pa_workers_step; [exact Hok|]. eapply (post_done _ (λ _, workers_only a)); [|done].
    apply wakeup_begin_post, Hok.
  - by eapply wakeup_end_step.
Qed.

(** The states reached from [init] of the new allocator *)
Definition pa_start (num_phy_pages dp max_world : Z) (prealloc : bool) (page_size : Z) (s : PageAllocator * list task)
    : Prop :=
  s.2 = [] ∧ pa_init num_phy_pages dp max_world prealloc page_size PageAllocator_new = Done () s.1.
Definition pa_reachable (s : PageAllocator * list task) : Prop :=
  ∃ num_phy_pages dp max_world prealloc page_size s0,
    0 ≤ num_phy_pages < 2 ^ 62 ∧ max_world < 2 ^ 31 ∧
    pa_start num_phy_pages dp max_world prealloc page_size s0 ∧ rtc pa_step s0 s.

Lemma pa_start_ok n dp w pre ps s : 0 ≤ n < 2 ^ 62 → pa_start n dp w pre ps s → pa_ok s.1 s.2.
Proof.
  intros Hn [Hts Hinit]. destruct s as [a ts]. simpl in *. subst.
  unfold pa_init, mbind, prog_bind, get, put in Hinit. simpl in Hinit. simplify_eq. split; simpl; [|done|done].
  split; simpl; [|split; [done|]].
  - rewrite length_take, length_replicate. destruct (0 <? w) eqn:E; lia.
  - apply Forall_take, Forall_replicate. lia.
Qed.
Lemma pa_reachable_ok s : pa_reachable s → pa_ok s.1 s.2.
Proof.
  intros (n & dp & w & pre & ps & s0 & Hn & _ & Hs & Hrtc). apply pa_start_ok in Hs; [|done].
  induction Hrtc as [|s0 s1 s2 H1 _ IH]; [done|]. by apply IH, (pa_step_ok s0).
Qed.

(** ** Allocation never waits *)

(** The workers of a group exist. *)
Definition workers_exist (ws : list Z) (a : PageAllocator) : Prop :=
  Forall (λ w, 0 ≤ w ∧ is_Some (worker_pages_used_ a !! Z.to_nat w)) ws.
(** Enough room on each of them, or not on one *)
Definition enough_room (ws : list Z) (n : Z) (a : PageAllocator) : Prop :=
  n ≤ num_total_phy_pages_ a ∧
  Forall (λ w, ∀ u, worker_pages_used_ a !! Z.to_nat w = Some u → n ≤ num_total_phy_pages_ a - u) ws.

Lemma min_free_run ws m a :
  workers_ok a → workers_exist ws a →
  wp (min_free_loop ws m) (λ f a', a' = a ∧ ∀ n, n ≤ f ↔ n ≤ m ∧
    Forall (λ w, ∀ u, worker_pages_used_ a !! Z.to_nat w = Some u → n ≤ num_total_phy_pages_ a - u) ws) a.
Proof.
  intros (_ & Ht & Hok) Hws. rewrite Forall_lookup in Hok. revert m.
  induction Hws as [|w ws [Hw [u Hu]] Hws IH]; intros m; cbn [min_free_loop].
  { apply wp_ret. split; [done|]. intros n. rewrite Forall_nil. tauto. }
  unfold worker_free. apply wp_bind. wp_steps. eapply wp_atZ; [done|exact Hu|]. wp_steps.
  eapply wp_mono; [apply IH|]. intros f a' [-> Hf]. split; [done|]. intros n. rewrite Hf, Forall_cons.
  pose proof (Hok _ _ Hu) as Hb. simpl in Hb. rewrite u64_id by lia.
  split; [intros [Hn Hall]; split; [lia|split; [|done]]|intros [Hn [H1 Hall]]; split; [|done]].
  - intros u' Hu'. rewrite Hu in Hu'. simplify_eq. lia.
  - specialize (H1 u Hu). lia.
Qed.

(** The workers of group [r] *)
Definition group_workers (id : string) (r : Z) (a : PageAllocator) : list Z :=
  match get_dp_group_worker_range id r a with
  | Done se _ => workers_in se.1 se.2 a
  | _ => []
  end.
Lemma has_enough_run id r n a :
  workers_ok a → workers_exist (group_workers id r a) a →
  wp (has_enough_phy_pages_for_dp id r n)
    (λ b a', a' = a ∧ (b = true ↔ enough_room (group_workers id r a) n a)) a.
Proof.
  intros Hok Hws. unfold has_enough_phy_pages_for_dp. apply wp_bind. cbn. apply wp_bind. unfold get_min_free_pages_in_range.
  wp_steps. eapply wp_mono; [by apply min_free_run|]. intros f a' [-> Hf]. apply wp_ret. split; [done|].
  rewrite Z.leb_le, Hf. done.
Qed.

Lemma add_all_run ws n a :
  workers_exist ws a → wp (for_each ws (λ w, add_used w n)) (λ _ _, True) a.
Proof.
  intros Hws. eapply wp_mono; [apply (wp_for_each ws _ (λ l a', workers_exist l a')); [done|]|done].
  intros w l a1 Hw. apply Forall_cons in Hw as [[Hw [u Hu]] Hl].
  unfold add_used, set_used. wp_steps. eapply wp_atZ; [done|exact Hu|]. wp_steps.
  eapply Forall_impl; [exact Hl|]. intros w' [? Hs]. split; [done|]. simpl.
  apply lookup_lt_is_Some. rewrite length_insert. by apply lookup_lt_is_Some.
Qed.
Lemma consume_run id r n a :
  workers_ok a → workers_exist (group_workers id r a) a → enough_room (group_workers id r a) n a →
  wp (consume_phy_pages_for_dp id r n) (λ b _, b = true) a.
Proof.
  intros Hok Hws Hroom. unfold consume_phy_pages_for_dp. apply wp_bind. cbn. apply wp_bind.
  unfold get_min_free_pages_in_range. wp_steps. eapply wp_mono; [by apply min_free_run|]. intros f a' [-> Hf].
  apply Hf in Hroom. destruct (f <? n) eqn:E; [apply Z.ltb_lt in E; lia|]. wp_steps.
  eapply wp_mono; [by apply add_all_run|]. intros [] a' _. by apply wp_ret.
Qed.

(** How [alloc_kv_cache_page] starts, for an awake model: a reserved page, else a free
    page when the workers have room, else an exception that changes nothing. *)
Definition alloc_result (g : DpGroupPages) (room : Prop) (a : PageAllocator)
    (o : outcome PageAllocator (option (Z * bool))) : Prop :=
  match o with
  | Done (Some (v, true)) _ => ∃ rest, reserved_virt_page_list g = v :: rest
  | Done (Some (v, false)) _ => reserved_virt_page_list g = [] ∧ room ∧ ∃ rest, free_virt_page_list g = v :: rest
  | Throws _ a' => a' = a ∧ reserved_virt_page_list g = [] ∧ (free_virt_page_list g = [] ∨ ¬ room)
  | _ => False
  end.

Lemma get_group_run id r a m g (Q : DpGroupPages → PageAllocator → Prop) :
  group_at a id r m g → 0 ≤ r → Q g a → wp (get_group id r) Q a.
Proof.
  intros [Hm Hg] Hr HQ. unfold get_group, get_model_state. do 2 apply wp_bind. wp_steps.
  rewrite Hm. wp_steps. by eapply wp_atZ.
Qed.
Lemma wp_done {A} (m : PA A) Q a : wp m Q a → ∃ x a', m a = Done x a' ∧ Q x a'.
Proof. unfold wp. destruct (m a) as [x a'| | |]; [|done..]. by exists x, a'. Qed.

Lemma group_workers_models id r a M :
  (∀ i, model_tp_size <$> (M !! i) = model_tp_size <$> (model_states_ a !! i)) →
  group_workers id r (set_models M a) = group_workers id r a.
Proof.
  intros HM. unfold group_workers, get_dp_group_worker_range, mbind, prog_bind, get, mret, prog_ret, workers_in. simpl.
  specialize (HM id). destruct (M !! id), (model_states_ a !! id); simplify_eq/=; by rewrite ?HM.
Qed.

(** The slow path takes the first free page when there is room, and is not taken otherwise. *)
Lemma alloc_from_free_run id r n a m g :
  workers_ok a → group_at a id r m g → 0 ≤ r → workers_exist (group_workers id r a) a →
  wp (alloc_from_free id r n) (λ o a',
    (enough_room (group_workers id r a) n a ∧ ∃ v rest, free_virt_page_list g = v :: rest ∧ o = Some (Took v false)) ∨
    ((free_virt_page_list g = [] ∨ ¬ enough_room (group_workers id r a) n a) ∧ o = None ∧ a' = a)) a.
Proof.
  intros Hok Hg Hr Hws. unfold alloc_from_free. apply wp_bind. eapply get_group_run; [done|done|].
  destruct (free_virt_page_list g) as [|v rest] eqn:Ef; [apply wp_ret; auto|].
  apply wp_bind. eapply wp_mono; [by apply has_enough_run|]. intros b ? [-> Hb]. destruct b.
  2: { apply wp_ret. right. split; [right|done]. intros Hroom. by apply Hb in Hroom. }
  apply wp_bind. unfold modify_group, modify_model. apply wp_modify. apply wp_bind.
  set (a1 := set_models _ a). assert (group_workers id r a1 = group_workers id r a) as Hgw.
  { apply group_workers_models. intros i. destruct (decide (i = id)) as [->|Hne].
    - rewrite lookup_alter_eq. by destruct (model_states_ a !! id).
    - by rewrite lookup_alter_ne. }
  eapply wp_mono; [apply (consume_run id r n a1 Hok ltac:(by rewrite Hgw) ltac:(rewrite Hgw; by apply Hb))|].
  intros ? a2 ->. apply wp_ret. left. split; [by apply Hb|]. by exists v, rest.
Qed.
(** The end of a round throws: without a free page, or by the second test of the room. *)
Lemma alloc_out_of_pages_run id r n a m g :
  workers_ok a → group_at a id r m g → 0 ≤ r → workers_exist (group_workers id r a) a →
  free_virt_page_list g = [] ∨ ¬ enough_room (group_workers id r a) n a →
  ∃ e, alloc_out_of_pages id r n a = Throws e a.
Proof.
  intros Hok Hg Hr Hws Hno. unfold alloc_out_of_pages. unfold mbind at 1, prog_bind at 1.
  destruct (wp_done _ _ _ (get_group_run id r a m g (λ g' a', g' = g ∧ a' = a) Hg Hr (conj eq_refl eq_refl)))
    as (? & ? & -> & -> & ->).
  case_bool_decide as Ef; [by eexists|]. destruct Hno as [?|Hno]; [done|].
  unfold mbind at 1, prog_bind at 1.
  destruct (wp_done _ _ _ (has_enough_run id r n a Hok Hws)) as (b & ? & -> & -> & Hb).
  destruct b; [exfalso; by apply Hno, Hb|]. by eexists.
Qed.
(** A round never goes round again and never waits. *)
Lemma alloc_round_run id r n a m g :
  workers_ok a → group_at a id r m g → 0 ≤ r → workers_exist (group_workers id r a) a →
  match alloc_round id r n a with
  | Done (Took v reserved) a' =>
      alloc_result g (enough_room (group_workers id r a) n a) a (Done (Some (v, reserved)) a')
  | Throws e a' => alloc_result g (enough_room (group_workers id r a) n a) a (Throws e a')
  | _ => False
  end.
Proof.
  intros Hok Hg Hr Hws. unfold alloc_round. unfold mbind at 1, prog_bind at 1.
  destruct (wp_done _ _ _ (get_group_run id r a m g (λ g' a', g' = g ∧ a' = a) Hg Hr (conj eq_refl eq_refl)))
    as (? & ? & -> & -> & ->).
  destruct (reserved_virt_page_list g) as [|v rest] eqn:Er.
  - unfold mbind at 1, prog_bind at 1.
    destruct (wp_done _ _ _ (alloc_from_free_run id r n a m g Hok Hg Hr Hws))
      as (o & a' & -> & [(Hroom & v & rest & Ef & ->)|(Hno & -> & ->)]).
    + simpl. split; [done|]. split; [done|]. by exists rest.
    + destruct (alloc_out_of_pages_run id r n a m g Hok Hg Hr Hws Hno) as [e ->]. by repeat split.
  - simpl. unfold mbind, prog_bind, modify_group, modify_model, modify. destruct (_ <? _); simpl; by exists rest.
Qed.

Lemma alloc_begin_run id r a ts m g :
  pa_ok a ts → group_at a id r m g → pa_initialized_ a = true → 0 ≤ r < dp_size_ a → is_sleeping m = false →
  workers_exist (group_workers id r a) a →
  alloc_result g (enough_room (group_workers id r a) (phy_pages_per_virt_page m) a) a (alloc_begin id r a).
Proof.
  intros Hok Hg Hini [Hr0 Hr1] Hsl Hws. apply Z.leb_le in Hr0 as Hr0'. apply Z.ltb_lt in Hr1.
  unfold alloc_begin, check_initialized, check_rank, get_model_state, mbind, prog_bind, get, mret, prog_ret.
  rewrite Hini. unfold check, mret, prog_ret. rewrite Hr0', Hr1, (proj1 Hg). cbn beta iota. rewrite Hsl.
  cbn beta iota delta [negb alloc_loop]. unfold mbind, prog_bind.
  pose proof (alloc_round_run id r (phy_pages_per_virt_page m) a m g (pa_workers _ _ Hok) Hg Hr0 Hws) as Hrun.
  destruct (alloc_round _ _ _ _) as [[v []| |] a'|e a'|e|e]; try done.
Qed.

(** ** Properties *)

(** A run: [init], one model of one layer, an allocation that has to map *)
Definition demo_init : PageAllocator :=
  match pa_init 12 1 1 true 4096 PageAllocator_new with Done _ a => a | _ => PageAllocator_new end.
Definition demo_after {A} (m : PA A) (a : PageAllocator) : PageAllocator :=
  match m a with Done _ a' => a' | _ => a end.
Definition demo_model : PageAllocator := demo_after (register_model "m" 1) demo_init.
Definition demo_mapping : PageAllocator := demo_after (alloc_begin "m" 0) demo_model.
Definition demo_asleep : PageAllocator := demo_after (sleep_collect "m") demo_model.

Lemma demo_model_reachable : pa_reachable (demo_model, []).
Proof.
  exists 12, 1, 1, true, 4096, (demo_init, []). split; [lia|]. split; [lia|]. split; [by split|].
  eapply rtc_l; [|apply rtc_refl]. eapply (step_register _ _ "m" 1 true); [lia|]. reflexivity.
Qed.
Lemma pa_reachable_step s s' : pa_reachable s → pa_step s s' → pa_reachable s'.
Proof.
  intros (n & dp & w & pre & ps & s0 & Hn & Hw & Hs & Hrtc) Hstep. exists n, dp, w, pre, ps, s0.
  do 3 (split; [done|]). by eapply rtc_r.
Qed.
Lemma demo_mapping_reachable : pa_reachable (demo_mapping, [mkTask Mapping "m" 0 [0]]).
Proof.
  eapply pa_reachable_step; [exact demo_model_reachable|].
  apply step_alloc_map; [by unfold few; vm_compute|]. by vm_compute.
Qed.
Lemma demo_asleep_reachable : pa_reachable (demo_asleep, []).
Proof.
  eapply pa_reachable_step; [exact demo_model_reachable|]. eapply (step_sleep _ _ "m").
  - intros m Hm. vm_compute in Hm. simplify_eq. by simpl.
  - by vm_compute.
Qed.

(** C15: [pages_partition] — at every moment, whatever calls of [alloc_kv_cache_page],
    [free_kv_cache_pages], [trim_kv_cache], [sleep_model], [wakeup_model] and the
    preallocation thread are interleaved and whatever the workers answer,
    when a call frees pages that are allocated and distinct, each virtual
    page of a group of a model is in exactly one of: the free list, the reserved list,
    the allocated set, the hands of one call in flight; and [num_free_virt_pages] is
    the number of those not allocated and not held by an allocation. *)
Theorem pages_partition a ts id m r g :
  pa_reachable (a, ts) → model_states_ a !! id = Some m → dp_group_pages m !! r = Some g →
  let calls := pages_held false r (tasks_of id ts) in
  let allocs := pages_held true r (tasks_of id ts) in
  free_virt_page_list g ++ reserved_virt_page_list g ++ elements (allocated_virt_page_list g) ++
    calls ++ allocs ≡ₚ seqZ 0 (num_total_virt_pages m) ∧
  num_free_virt_pages g =
    num_total_virt_pages m - Z.of_nat (base.size (allocated_virt_page_list g)) - Z.of_nat (length allocs).
Proof.
  intros Hr Hm Hg calls allocs. apply pa_reachable_ok in Hr. simpl in Hr.
  pose proof (pa_ok_model _ _ _ _ Hr Hm) as Hok. pose proof (model_groups _ _ Hok _ _ Hg) as Hgok.
  split; [apply Hgok|]. pose proof (group_length _ (model_total _ _ Hok) _ _ _ Hgok). subst allocs. lia.
Qed.
Lemma pages_partition_witness :
  ∃ m g, model_states_ demo_mapping !! "m" = Some m ∧ dp_group_pages m !! 0%nat = Some g ∧
    num_free_virt_pages g = 5 ∧ num_total_virt_pages m = 6 ∧
    num_free_virt_pages g = num_total_virt_pages m - 0 - 1.
Proof.
  eexists _, _. split; [vm_compute; reflexivity|]. split; [reflexivity|]. split; [reflexivity|]. split; [reflexivity|].
  apply (pages_partition demo_mapping [mkTask Mapping "m" 0 [0]] "m" _ 0%nat);
    [exact demo_mapping_reachable|vm_compute; reflexivity|reflexivity].
Defined.

(** C36: [asleep_not_mapping] — while a model is asleep none of its map operations is in
    flight: no page of an [alloc_kv_cache_page] or of the preallocation thread is being
    mapped, and [pending_map_ops] is zero.  So the branch of [prealloc_worker] for a
    model that fell asleep while its batch was being mapped is never taken. *)
Theorem asleep_not_mapping a ts id m :
  pa_reachable (a, ts) → model_states_ a !! id = Some m → is_sleeping m = true →
  pending_map_ops m = 0 ∧ ∀ p r pages, mkTask p id r pages ∈ ts → p ≠ Mapping ∧ p ≠ Premapping.
Proof.
  intros Hr Hm Hs. apply pa_reachable_ok in Hr. pose proof (pa_ok_model _ _ _ _ Hr Hm) as Hok. simpl in Hok.
  pose proof (model_asleep _ _ Hok Hs) as Hz. split; [rewrite (model_pending _ _ Hok), Hz; done|].
  intros p r pages Hin. unfold map_ops in Hz. apply nil_length_inv in Hz.
  assert (mkTask p id r pages ∉ filter (λ t, is_map_op (t_phase t) = true) (tasks_of id ts)) as Hno
    by (rewrite Hz; apply not_elem_of_nil).
  split; intros ->; apply Hno; apply list_elem_of_filter; (split; [done|]); by apply list_elem_of_filter.
Qed.
Lemma asleep_not_mapping_witness :
  ∃ m, model_states_ demo_asleep !! "m" = Some m ∧ is_sleeping m = true ∧ pending_map_ops m = 0.
Proof.
  eexists. split; [vm_compute; reflexivity|]. split; [reflexivity|].
  apply (asleep_not_mapping demo_asleep [] "m"); [exact demo_asleep_reachable|vm_compute; reflexivity|reflexivity].
Defined.

(** [worker_pages_bounded] — no interleaving makes the allocator count more physical
    pages in use on a worker than it has, and no subtraction wraps below zero. *)
Theorem worker_pages_bounded a ts w u :
  pa_reachable (a, ts) → worker_pages_used_ a !! w = Some u → 0 ≤ u ≤ num_total_phy_pages_ a.
Proof.
  intros Hr Hu. apply pa_reachable_ok in Hr. destruct (pa_workers _ _ Hr) as (_ & _ & Hf).
  rewrite Forall_lookup in Hf. exact (Hf _ _ Hu).
Qed.
Lemma worker_pages_bounded_witness : worker_pages_used_ demo_mapping !! 0%nat = Some 2 ∧ 0 ≤ 2 ≤ 12.
Proof.
  split; [vm_compute; reflexivity|].
  apply (worker_pages_bounded demo_mapping [mkTask Mapping "m" 0 [0]] 0%nat 2);
    [exact demo_mapping_reachable|vm_compute; reflexivity].
Defined.

(** C37: [alloc_never_waits] — [alloc_kv_cache_page] of an awake model, in a group whose
    workers exist, never reaches the wait at the end of its loop, and no [continue]: one
    round hands out the first reserved page, else the first free page if each worker of the
    group has room for it, else one of the tests before the wait throws and leaves the
    allocator unchanged.  The wait is an outcome of the model ([Done None]): it is out of
    reach because the second test of the physical pages repeats the first under the same
    lock. *)
Theorem alloc_never_waits a ts id r m g :
  pa_reachable (a, ts) → group_at a id r m g → pa_initialized_ a = true → 0 ≤ r < dp_size_ a →
  is_sleeping m = false → workers_exist (group_workers id r a) a →
  alloc_result g (enough_room (group_workers id r a) (phy_pages_per_virt_page m) a) a (alloc_begin id r a).
Proof. intros Hr. apply pa_reachable_ok in Hr. by apply (alloc_begin_run id r a ts). Qed.
Lemma alloc_never_waits_witness :
  ∃ m g, group_at demo_model "m" 0 m g ∧
    alloc_result g (enough_room (group_workers "m" 0 demo_model) (phy_pages_per_virt_page m) demo_model)
      demo_model (alloc_begin "m" 0 demo_model).
Proof.
  eexists _, _. split; [split; [vm_compute; reflexivity|reflexivity]|].
  refine (alloc_never_waits demo_model [] "m" 0 _ _ demo_model_reachable
            (conj _ _) _ _ _ _).
  - vm_compute. reflexivity.
  - reflexivity.
  - vm_compute. reflexivity.
  - by vm_compute.
  - reflexivity.
  - vm_compute. repeat constructor; [done|by eexists].
Defined.
