(* ===== verification/XTensorBlocks.v ===== *)
(** The block manager over virtual pages:
    [core/framework/xtensor/xtensor_block_manager_impl.h] and
    [xtensor_block_manager_impl.cpp].

    The manager takes virtual pages from a page allocator, cuts them into blocks and
    gives a page back when its last block comes back.  What it needs of the allocator is
    the interface [PageSource] with the laws [PageSourceLaws]; the file [XTensorPages]
    discharges them for [PageAllocator].  The state is the manager with its allocator.
    Two [std::unordered_map]s are iterated: the order is the parameter [HashOrder]. *)

From stdpp Require Import base gmap list strings sets.
From Stdlib Require Import ZArith Lia.
From S2P Require Import Prelude HashKey Blocks DList PrefixCache KvEvents BlockManager VirtPage.
Open Scope Z_scope.

(** ** The page allocator as the manager sees it *)

Class PageSource (P : Type) := {
  alloc_kv_cache_page : string → Z → prog P (option VirtPage);
  free_kv_cache_pages : string → Z → list Z → prog P unit;
  trim_kv_cache : string → Z → prog P unit;
  get_num_reserved_virt_pages : string → Z → prog P Z;
  get_num_inuse_virt_pages : string → Z → prog P Z;
  phy_pages_per_virt_page : string → prog P Z;
  get_virt_page_id : Z → Z → prog P Z;
  source_page_size : P → Z;
  is_initialized : P → bool;
}.

(** The order in which an [unordered_map] with these keys is iterated *)
Class HashOrder := {
  key_order : gset Z → list Z;
  key_order_elements : ∀ X, key_order X ≡ₚ elements X;
}.

(** ** The manager *)

Record XManager := mkXManager {
  x_options : Options;
  model_id_ : string;
  x_dp_rank : Z;
  x_num_layers : Z;
  x_page_size : Z;
  block_mem_size_ : Z;
  num_avail_blocks_ : Z;
  avail_pages_ : gmap Z VirtPage;
  full_pages_ : gmap Z VirtPage;
  reserved_blocks_ : list Z;
  x_padding_block : option Z;
}.
(** [XTensorBlockManagerImpl(options, num_layers, block_mem_size, page_size, dp_rank, model_id)] *)
Definition XTensorBlockManagerImpl_new (o : Options) (num_layers block_mem_size page_size dp_rank : Z)
    (model_id : string) : XManager :=
  mkXManager o model_id dp_rank num_layers page_size block_mem_size 0 ∅ ∅ [] None.

Definition set_pages (n : Z) (avail full : gmap Z VirtPage) (x : XManager) : XManager :=
  mkXManager (x_options x) (model_id_ x) (x_dp_rank x) (x_num_layers x) (x_page_size x) (block_mem_size_ x)
    n avail full (reserved_blocks_ x) (x_padding_block x).
Definition set_reserved (l : list Z) (x : XManager) : XManager :=
  mkXManager (x_options x) (model_id_ x) (x_dp_rank x) (x_num_layers x) (x_page_size x) (block_mem_size_ x)
    (num_avail_blocks_ x) (avail_pages_ x) (full_pages_ x) l (x_padding_block x).
Definition set_x_padding (o : option Z) (x : XManager) : XManager :=
  mkXManager (x_options x) (model_id_ x) (x_dp_rank x) (x_num_layers x) (x_page_size x) (block_mem_size_ x)
    (num_avail_blocks_ x) (avail_pages_ x) (full_pages_ x) (reserved_blocks_ x) o.

Section manager.
Context {P : Type} `{PageSource P} `{HashOrder}.
Abbreviation XS := (XManager * P)%type.

Definition x_get : prog XS XManager := gets fst.
Definition x_set (f : XManager → XManager) : prog XS unit := modify (λ s, (f s.1, s.2)).
(** A call of the page allocator for the manager's model and rank *)
Definition on_source {A} (f : string → Z → prog P A) : prog XS A :=
  x_get ≫= λ x, zoom snd (λ p s, (s.1, p)) (f (model_id_ x) (x_dp_rank x)).
(** A call of [page->...] *)
Definition on_page {A} (m : prog VirtPage A) (page : VirtPage) : prog XS (A * VirtPage) := λ s,
  match m page with
  | Done a page' => Done (a, page') s
  | Throws e _ => Throws e s
  | Fatal e => Fatal e
  | Undef e => Undef e
  end.

(** [available_size_internal()] *)
Definition available_size : prog XS Z :=
  x_get ≫= λ x,
  let avail_blocks := u64 (num_avail_blocks_ x + Z.of_nat (length (reserved_blocks_ x))) in
  on_source get_num_reserved_virt_pages ≫= λ reserved_pages,
  get_num_blocks (x_page_size x) (block_mem_size_ x) ≫= λ blocks_per_page,
  mret (u64 (avail_blocks + reserved_pages * blocks_per_page)).

(** A page to allocate from: the first available one, else a new one *)
Definition next_page : prog XS (option Z) :=
  x_get ≫= λ x,
  match key_order (dom (avail_pages_ x)) with
  | page_id :: _ => mret (Some page_id)
  | [] =>
      on_source alloc_kv_cache_page ≫= λ o,
      match o with
      | None => mret None
      | Some new_page =>
          on_page (page_init (block_mem_size_ x)) new_page ≫= λ r : unit * VirtPage,
          on_page page_num_free_blocks r.2 ≫= λ n : nat * VirtPage,
          x_set (λ x, set_pages (u64 (num_avail_blocks_ x + Z.of_nat n.1))
                        (<[page_id_ r.2 := r.2]> (avail_pages_ x)) (full_pages_ x) x) ≫= λ _,
          mret (Some (page_id_ r.2))
      end
  end.
(** The blocks of one page: at most [remaining_need] *)
Definition alloc_from_page (page_id : Z) (remaining_need : nat) : prog XS (list Z) :=
  x_get ≫= λ x,
  match avail_pages_ x !! page_id with
  | None => undef "null page"
  | Some page =>
      on_page page_num_free_blocks page ≫= λ n : nat * VirtPage,
      let num_from_page := Nat.min n.1 remaining_need in
      on_page (page_alloc num_from_page) page ≫= λ r : list Z * VirtPage,
      on_page page_full r.2 ≫= λ full : bool * VirtPage,
      x_set (λ x,
        if full.1
        then set_pages (u64 (num_avail_blocks_ x - Z.of_nat num_from_page))
               (delete page_id (avail_pages_ x)) (<[page_id := r.2]> (full_pages_ x)) x
        else set_pages (u64 (num_avail_blocks_ x - Z.of_nat num_from_page))
               (<[page_id := r.2]> (avail_pages_ x)) (full_pages_ x) x) ≫= λ _,
      mret r.1
  end.
(** [static_cast<int32_t>] of each index *)
Fixpoint alloc_pages_loop (fuel : nat) (remaining_need : nat) (ret_index : list Z) : prog XS (list Z) :=
  match remaining_need, fuel with
  | O, _ => mret ret_index
  | S _, O => undef "out of fuel"
  | S _, S fuel =>
      next_page ≫= λ o,
      match o with
      | None => mret ret_index
      | Some page_id =>
          alloc_from_page page_id remaining_need ≫= λ l,
          alloc_pages_loop fuel (remaining_need - length l) (ret_index ++ (i32 <$> l))
      end
  end.
(** [alloc_internal(need_size)]: each round takes at least one block, so the fuel is the
    need *)
Definition alloc_internal (need_size : nat) : prog XS (list Z) :=
  available_size ≫= λ _,
  x_get ≫= λ x,
  let num_from_reserved := Nat.min (length (reserved_blocks_ x)) need_size in
  x_set (λ x, set_reserved (drop num_from_reserved (reserved_blocks_ x)) x) ≫= λ _,
  alloc_pages_loop need_size (need_size - num_from_reserved)
    (take num_from_reserved (reserved_blocks_ x)).

(** [free_blocks(indices)]: the blocks of one page *)
Definition free_in_page (page_id : Z) (idxs : list Z) : prog XS (list Z) :=
  x_get ≫= λ x,
  match (match full_pages_ x !! page_id with
         | Some page => Some (page, true)
         | None => (λ page, (page, false)) <$> avail_pages_ x !! page_id
         end) with
  | None => mret []
  | Some (page, was_in_full) =>
      on_page (page_free_batch idxs) page ≫= λ r : unit * VirtPage,
      on_page page_empty r.2 ≫= λ empty : bool * VirtPage,
      on_page page_num_free_blocks r.2 ≫= λ n : nat * VirtPage,
      let num_avail := u64 (num_avail_blocks_ x + Z.of_nat (length idxs)) in
      if empty.1 then
        x_set (λ x, set_pages (u64 (num_avail - Z.of_nat n.1))
          (if was_in_full then avail_pages_ x else delete page_id (avail_pages_ x))
          (if was_in_full then delete page_id (full_pages_ x) else full_pages_ x) x) ≫= λ _,
        mret [page_id]
      else
        x_set (λ x, set_pages num_avail
          (<[page_id := r.2]> (avail_pages_ x))
          (if was_in_full then delete page_id (full_pages_ x) else full_pages_ x) x) ≫= λ _,
        mret []
  end.
(** the page of each block *)
Definition page_of (idx : Z) : prog XS Z :=
  x_get ≫= λ x, zoom snd (λ p s, (s.1, p)) (get_virt_page_id idx (block_mem_size_ x)).
Definition free_blocks (indices : list Z) : prog XS unit :=
  if bool_decide (indices = []) then mret ()
  else
    map_each indices (λ idx, page_of idx ≫= λ page_id, mret (page_id, idx)) ≫= λ idx_dict,
    map_each (key_order (list_to_set (fst <$> idx_dict))) (λ page_id,
      free_in_page page_id (snd <$> filter (λ e : Z * Z, e.1 = page_id) idx_dict)) ≫= λ l,
    let pages_to_free := mjoin l in
    if bool_decide (pages_to_free = []) then mret ()
    else on_source (λ id r, free_kv_cache_pages id r pages_to_free).

(** [free(block_id)] *)
Definition x_free (block_id : Z) : prog XS unit := free_blocks [block_id].

(** [reserve_xtensor_padding_blocks()] *)
Definition reserve_xtensor_padding_blocks : prog XS unit :=
  alloc_internal 1 ≫= λ padding_blocks,
  match padding_blocks with
  | b :: _ =>
      if b =? 0 then x_set (set_x_padding (Some b)) else fatal "Failed to reserve padding block"
  | [] => fatal "Failed to reserve padding block"
  end.

(** [try_to_reserve(need_size)], [free_reserved()], [trim()] *)
Definition try_to_reserve (need_size : nat) : prog XS bool :=
  available_size ≫= λ available,
  if available <? Z.of_nat need_size then mret false
  else
    alloc_internal need_size ≫= λ reserved,
    if bool_decide (reserved = []) then mret false
    else x_set (λ x, set_reserved (reserved_blocks_ x ++ reserved) x) ≫= λ _, mret true.
Definition free_reserved : prog XS unit :=
  x_get ≫= λ x,
  if bool_decide (reserved_blocks_ x = []) then mret ()
  else x_set (set_reserved []) ≫= λ _, free_blocks (reserved_blocks_ x).
Definition trim : prog XS unit := on_source trim_kv_cache.

(** [get_num_allocated_blocks()], [get_mapped_memory_size()] *)
Definition get_num_allocated_blocks : prog XS Z :=
  x_get ≫= λ x,
  get_num_blocks (x_page_size x) (block_mem_size_ x) ≫= λ blocks_per_page,
  let from_full := u64 (Z.of_nat (base.size (full_pages_ x)) * blocks_per_page) in
  let from_avail := u64 (Z.of_nat (base.size (avail_pages_ x)) * blocks_per_page - num_avail_blocks_ x) in
  mret (u64 (from_full + from_avail + Z.of_nat (length (reserved_blocks_ x)))).
Definition get_mapped_memory_size : prog XS Z :=
  on_source get_num_inuse_virt_pages ≫= λ pages,
  on_source (λ id _, phy_pages_per_virt_page id) ≫= λ per_page,
  gets (λ s, u64 (pages * per_page * source_page_size s.2)).

(** [~XTensorBlockManagerImpl()] *)
Definition XTensorBlockManagerImpl_destroy : prog XS unit :=
  get ≫= λ s,
  let page_ids := key_order (dom (avail_pages_ s.1)) ++ key_order (dom (full_pages_ s.1)) in
  x_set (λ x, set_pages (num_avail_blocks_ x) ∅ ∅ x) ≫= λ _,
  if negb (bool_decide (page_ids = [])) && is_initialized s.2
  then on_source (λ id r, free_kv_cache_pages id r page_ids) else mret ().

(** ** Blocks *)

#[export] Instance X_owner : BlockOwner XS := {
  block_size := λ s, block_size_opt (x_options s.1);
  free := x_free;
}.
(** [allocate(num_blocks)] and [allocate()] *)
Definition x_allocate (num_blocks : nat) : prog (World XS) (list Block) :=
  on_mgr (alloc_internal num_blocks) ≫= λ indices,
  map_each indices (λ idx, Block_new idx true).
Definition x_allocate1 : prog (World XS) Block :=
  x_allocate 1 ≫= λ blocks,
  match blocks with
  | [] => mret Block_default
  | b :: rest => destroy_all (Block_moved b :: rest) ≫= λ _, mret b
  end.
End manager.

(** ** The laws of the page allocator, for one model and rank

    [pages_out p X]: the manager holds the pages [X]. *)
Class PageSourceLaws (P : Type) `{PageSource P} (id : string) (r ps N : Z) := {
  pages_out : P → gset Z → Prop;
  pages_out_range : ∀ p X i, pages_out p X → i ∈ X → 0 ≤ i < N;
  alloc_page_law : ∀ p X, pages_out p X →
    wpe (alloc_kv_cache_page id r)
      (λ o p', match o with
               | Some v => ∃ i, v = VirtPage_new i ps ∧ i ∉ X ∧ pages_out p' ({[i]} ∪ X)
               | None => pages_out p' X
               end)
      (λ p', pages_out p' X) p;
  free_pages_law : ∀ p X l, pages_out p X → NoDup l → list_to_set l ⊆ X →
    wp (free_kv_cache_pages id r l) (λ _ p', pages_out p' (X ∖ list_to_set l)) p;
  trim_law : ∀ p X, pages_out p X → wp (trim_kv_cache id r) (λ _ p', pages_out p' X) p;
  num_reserved_law : ∀ p X, pages_out p X →
    wp (get_num_reserved_virt_pages id r) (λ n p', p' = p ∧ 0 ≤ n) p;
  virt_page_law : ∀ p X b bm, pages_out p X → 0 ≤ b → 0 ≤ b * bm < 2 ^ 63 →
    wp (get_virt_page_id b bm) (λ i p', p' = p ∧ i = b * bm / ps) p;
}.

(** Sizes at which each page has a block and the ids fit in 32 bits *)
Record x_sizes (ps bm N : Z) : Prop := {
  xs_block : 0 < bm;
  xs_page : 0 < ps;
  xs_room : N * ps + bm < 2 ^ 63;
  xs_ids : N * ps < 2 ^ 31 * bm;
  xs_fit : ∀ i, 0 ≤ i < N → first_block i ps bm < last_block i ps bm;
}.
Lemma x_sizes_page ps bm N i : x_sizes ps bm N → 0 ≤ i < N → page_sizes i ps bm.
Proof. intros [? ? ? ? ?] ?. split; [lia..|]. nia. Qed.
Lemma x_sizes_id ps bm N i b :
  x_sizes ps bm N → 0 ≤ i < N → first_block i ps bm ≤ b < last_block i ps bm → 0 ≤ b < 2 ^ 31.
Proof.
  intros Hs Hi Hb. apply block_range_iff in Hb; [|by eapply x_sizes_page]. destruct Hs as [? ? ? ? _]. split; nia.
Qed.

Lemma filter_all_of {A} (Q : A → Prop) `{!∀ x, Decision (Q x)} (l : list A) :
  (∀ x, x ∈ l → Q x) → filter Q l = l.
Proof.
  induction l as [|x l IH]; intros Hl; [done|]. rewrite filter_cons_True by (apply Hl; by left).
  f_equal. apply IH. intros y Hy. apply Hl. by right.
Qed.
Lemma filter_none_of {A} (Q : A → Prop) `{!∀ x, Decision (Q x)} (l : list A) :
  (∀ x, x ∈ l → ¬ Q x) → filter Q l = [].
Proof.
  induction l as [|x l IH]; intros Hl; [done|]. rewrite filter_cons_False by (apply Hl; by left).
  apply IH. intros y Hy. apply Hl. by right.
Qed.

(** The free blocks of a set of pages *)
Definition free_total (M : gmap Z VirtPage) : nat :=
  foldr Nat.add 0%nat ((λ e : Z * VirtPage, length (free_list_ e.2)) <$> map_to_list M).
Lemma foldr_add_perm (l l' : list nat) : l ≡ₚ l' → foldr Nat.add 0%nat l = foldr Nat.add 0%nat l'.
Proof. induction 1; simpl; lia. Qed.
Lemma free_total_empty : free_total ∅ = 0%nat.
Proof. unfold free_total. by rewrite map_to_list_empty. Qed.
Lemma free_total_insert M i pg :
  M !! i = None → free_total (<[i := pg]> M) = (length (free_list_ pg) + free_total M)%nat.
Proof. intros Hi. unfold free_total. by rewrite (foldr_add_perm _ _ (fmap_Permutation _ _ _ (map_to_list_insert M i pg Hi))). Qed.
Lemma free_total_delete M i pg :
  M !! i = Some pg → free_total M = (length (free_list_ pg) + free_total (delete i M))%nat.
Proof.
  intros Hi. rewrite <-(insert_delete_id M i pg Hi) at 1. apply free_total_insert, lookup_delete_eq.
Qed.
Lemma free_total_update M i pg pg' :
  M !! i = Some pg →
  (free_total (<[i := pg']> M) + length (free_list_ pg) = length (free_list_ pg') + free_total M)%nat.
Proof.
  intros Hi. rewrite (free_total_delete M i pg Hi), <-(insert_delete_eq M i pg').
  rewrite free_total_insert by apply lookup_delete_eq. lia.
Qed.

Lemma page_ok_perm pg bm out out' : out ≡ₚ out' → page_ok pg bm out → page_ok pg bm out'.
Proof. intros Hp []. split; try done. by rewrite <-Hp. Qed.
Lemma page_ok_length pg bm out :
  page_ok pg bm out → Z.of_nat (length (free_list_ pg)) * bm ≤ page_size_ pg.
Proof.
  intros [Hs Hle _ _ _ Hb]. apply Permutation_length in Hb. rewrite length_app, length_seqZ in Hb.
  pose proof Hs as [? ? ? ?]. set (f := first_block _ _ _) in *. set (l := last_block _ _ _) in *.
  destruct (decide (f = l)) as [Heq|Hne]; [replace (length (free_list_ pg)) with 0%nat by lia; lia|].
  pose proof (proj1 (block_range_iff _ _ _ f Hs) ltac:(subst f l; lia)).
  pose proof (proj1 (block_range_iff _ _ _ (l - 1) Hs) ltac:(subst f l; lia)).
  subst f l. nia.
Qed.
Lemma page_ok_out pg bm out b :
  page_ok pg bm out → b ∈ free_list_ pg ++ out →
  first_block (page_id_ pg) (page_size_ pg) bm ≤ b < last_block (page_id_ pg) (page_size_ pg) bm.
Proof. intros [_ _ _ _ _ Hb] Hin. rewrite Hb, elem_of_seqZ in Hin. lia. Qed.
Lemma page_ok_nodup pg bm out : page_ok pg bm out → NoDup (free_list_ pg ++ out).
Proof. intros [_ _ _ _ _ Hb]. rewrite Hb. apply NoDup_seqZ. Qed.

Lemma free_total_bound M ps bm N :
  x_sizes ps bm N →
  (∀ i pg, M !! i = Some pg → 0 ≤ i < N ∧ Z.of_nat (length (free_list_ pg)) * bm ≤ ps) →
  Z.of_nat (free_total M) < 2 ^ 31.
Proof.
  intros [Hb Hp _ Hids _] HM.
  assert (Z.of_nat (free_total M) * bm ≤ Z.of_nat (base.size M) * ps) as Hsum.
  { clear Hids. induction M as [|i pg M Hi IH] using map_ind; [rewrite free_total_empty, map_size_empty; lia|].
    rewrite free_total_insert, map_size_insert_None by done.
    destruct (HM i pg) as [_ Hl]; [by rewrite lookup_insert_eq|].
    assert (Z.of_nat (free_total M) * bm ≤ Z.of_nat (base.size M) * ps); [|nia]. apply IH.
    intros j pg' Hj. apply (HM j). rewrite lookup_insert_ne; [done|]. intros ->. by rewrite Hi in Hj. }
  assert (base.size M ≤ Z.to_nat N)%nat as Hsize.
  { rewrite <-size_dom. rewrite <-(length_seqZ 0 N), <-(size_list_to_set (C:=gset Z)) by apply NoDup_seqZ.
    apply subseteq_size. intros i [pg Hi]%elem_of_dom. apply elem_of_list_to_set, elem_of_seqZ.
    destruct (HM i pg Hi) as [? _]. lia. }
  destruct (decide (0 ≤ N)); [nia|]. assert (base.size M = 0%nat) by lia. nia.
Qed.

(** ** The invariant *)

Section verified.
Context {P : Type} `{!PageSource P} {mid : string} {r ps N : Z} `{!PageSourceLaws P mid r ps N} `{!HashOrder}.
Context (bm : Z) (Hsz : x_sizes ps bm N).
Abbreviation XS := (XManager * P)%type.

Definition blocks_on (i : Z) (l : list Z) : list Z := filter (λ b, b * bm / ps = i) l.
Definition x_pages (s : XS) : gmap Z VirtPage := avail_pages_ s.1 ∪ full_pages_ s.1.

(** [out] are the blocks outside the manager; only the pages [E] may be empty; the pages
    [D] have left the tables and are still to be given back. *)
Record x_inv (s : XS) (out : list Z) (E D : gset Z) : Prop := {
  xi_id : model_id_ s.1 = mid;
  xi_rank : x_dp_rank s.1 = r;
  xi_ps : x_page_size s.1 = ps;
  xi_bm : block_mem_size_ s.1 = bm;
  xi_disj : avail_pages_ s.1 ##ₘ full_pages_ s.1;
  xi_page : ∀ i pg, x_pages s !! i = Some pg →
    0 ≤ i < N ∧ page_id_ pg = i ∧ page_size_ pg = ps ∧
    page_ok pg bm (blocks_on i (out ++ reserved_blocks_ s.1)) ∧
    (blocks_on i (out ++ reserved_blocks_ s.1) = [] → i ∈ E);
  xi_avail : ∀ i pg, avail_pages_ s.1 !! i = Some pg → free_list_ pg ≠ [];
  xi_full : ∀ i pg, full_pages_ s.1 !! i = Some pg → free_list_ pg = [];
  xi_known : ∀ b, b ∈ out ++ reserved_blocks_ s.1 → is_Some (x_pages s !! (b * bm / ps));
  xi_count : num_avail_blocks_ s.1 = Z.of_nat (free_total (avail_pages_ s.1));
  xi_out : pages_out s.2 (dom (x_pages s) ∪ D);
  xi_gone : D ## dom (x_pages s);
}.
Definition x_ok (s : XS) (out : list Z) : Prop := x_inv s out ∅ ∅.

Lemma x_inv_perm s out out' E D : out ≡ₚ out' → x_inv s out E D → x_inv s out' E D.
Proof.
  intros Hp []. split; try done.
  - intros i pg Hi. destruct (xi_page0 i pg Hi) as (? & ? & ? & ? & He). unfold blocks_on in *.
    split; [done|]. split; [done|]. split; [done|]. split.
    + eapply page_ok_perm; [|done]. by rewrite Hp.
    + intros Hnil. apply He. apply Permutation_nil. symmetry. by rewrite Hp, Hnil.
  - intros b. rewrite <-Hp. apply xi_known0.
Qed.

Lemma x_pages_lookup s i pg out E D : x_inv s out E D →
  x_pages s !! i = Some pg ↔ avail_pages_ s.1 !! i = Some pg ∨ full_pages_ s.1 !! i = Some pg.
Proof. intros Hi. apply lookup_union_Some, (xi_disj _ _ _ _ Hi). Qed.

Lemma x_inv_bound s out E D : x_inv s out E D → 0 ≤ num_avail_blocks_ s.1 < 2 ^ 31.
Proof.
  intros Hi. rewrite (xi_count _ _ _ _ Hi). split; [lia|]. apply (free_total_bound _ ps bm N Hsz).
  intros i pg Hpg. destruct (xi_page _ _ _ _ Hi i pg) as (? & _ & Hps & ? & _); [eapply x_pages_lookup; eauto|].
  split; [done|]. rewrite <-Hps. by eapply page_ok_length.
Qed.

(** One page takes a new value, in the table where it belongs. *)
Definition put_page (i : Z) (pg : VirtPage) (n : Z) (x : XManager) : XManager :=
  if bool_decide (free_list_ pg = [])
  then set_pages n (delete i (avail_pages_ x)) (<[i := pg]> (full_pages_ x)) x
  else set_pages n (<[i := pg]> (avail_pages_ x)) (delete i (full_pages_ x)) x.
Definition drop_page (i : Z) (n : Z) (x : XManager) : XManager :=
  set_pages n (delete i (avail_pages_ x)) (delete i (full_pages_ x)) x.
Lemma put_page_lookup s i pg n p :
  avail_pages_ s.1 ##ₘ full_pages_ s.1 →
  x_pages (put_page i pg n s.1, p) = <[i := pg]> (x_pages s).
Proof.
  intros Hd. unfold x_pages, put_page. case_bool_decide; simpl; apply map_eq; intros j;
    (destruct (decide (j = i)) as [->|Hne];
     [rewrite lookup_insert_eq|rewrite lookup_insert_ne by done];
     rewrite !lookup_union, ?lookup_insert_eq, ?lookup_delete_eq, ?lookup_insert_ne, ?lookup_delete_ne by done;
     try done).
Qed.

(** The state after a page has changed: [x'] agrees with [put_page] on the tables. *)
Lemma x_inv_put s out E D i pg x' p' out' E' D' :
  x_inv s out E D → 0 ≤ i < N → x' = put_page i pg (num_avail_blocks_ x') (set_reserved (reserved_blocks_ x') s.1) →
  num_avail_blocks_ x' = Z.of_nat (free_total (avail_pages_ x')) →
  page_id_ pg = i → page_size_ pg = ps →
  page_ok pg bm (blocks_on i (out' ++ reserved_blocks_ x')) →
  (blocks_on i (out' ++ reserved_blocks_ x') = [] → i ∈ E') → E ⊆ E' ∪ {[i]} →
  (∀ j, j ≠ i → blocks_on j (out' ++ reserved_blocks_ x') ≡ₚ blocks_on j (out ++ reserved_blocks_ s.1)) →
  (∀ b, b ∈ out' ++ reserved_blocks_ x' → b * bm / ps = i ∨ b ∈ out ++ reserved_blocks_ s.1) →
  pages_out p' ({[i]} ∪ dom (x_pages s) ∪ D') → i ∉ D' → D' ⊆ D →
  x_inv (x', p') out' E' D'.
Proof.
  intros [] Hi Hx Hn Hid Hps Hpg He HE Hoth Hknown Hout HiD HD.
  assert (x_pages (x', p') = <[i := pg]> (x_pages s)) as Hpages
    by (rewrite Hx; apply (put_page_lookup (set_reserved (reserved_blocks_ x') s.1, s.2)); done).
  assert (model_id_ x' = model_id_ s.1 ∧ x_dp_rank x' = x_dp_rank s.1 ∧ x_page_size x' = x_page_size s.1 ∧
          block_mem_size_ x' = block_mem_size_ s.1) as (Hc1 & Hc2 & Hc3 & Hc4).
  { rewrite Hx. unfold put_page. by case_bool_decide. }
  assert (avail_pages_ x' = (if bool_decide (free_list_ pg = []) then delete i (avail_pages_ s.1) else <[i := pg]> (avail_pages_ s.1)) ∧
          full_pages_ x' = (if bool_decide (free_list_ pg = []) then <[i := pg]> (full_pages_ s.1) else delete i (full_pages_ s.1)))
    as (Ha & Hf) by (rewrite Hx; unfold put_page; by case_bool_decide).
  split; simpl; try congruence; rewrite ?Hpages, ?Ha, ?Hf; simpl.
  - case_bool_decide; [apply map_disjoint_insert_r_2|apply map_disjoint_insert_l_2];
      rewrite ?lookup_delete_eq; try done; [by apply map_disjoint_delete_l|by apply map_disjoint_delete_r].
  - intros j pg'. destruct (decide (j = i)) as [->|Hne].
    + rewrite lookup_insert_eq. intros ?; simplify_eq. done.
    + rewrite lookup_insert_ne by done. intros Hj. destruct (xi_page0 j pg' Hj) as (? & ? & ? & ? & Hej).
      do 3 (split; [done|]). split; [eapply page_ok_perm; [|done]; symmetry; by apply Hoth|].
      intros Hnil. assert (j ∈ E); [|set_solver]. apply Hej, Permutation_nil. symmetry.
      by rewrite <-Hoth, Hnil.
  - intros j pg'. case_bool_decide as Hfl.
    + intros [_ Hj]%lookup_delete_Some. by apply (xi_avail0 j).
    + intros [[<- <-]|[_ Hj]]%lookup_insert_Some; [done|]. by apply (xi_avail0 j).
  - intros j pg'. case_bool_decide as Hfl.
    + intros [[<- <-]|[_ Hj]]%lookup_insert_Some; [done|]. by apply (xi_full0 j).
    + intros [_ Hj]%lookup_delete_Some. by apply (xi_full0 j).
  - intros b Hb. apply Hknown in Hb as [->|Hb]; [by rewrite lookup_insert_eq|]. apply xi_known0 in Hb.
    destruct (decide (b * bm / ps = i)) as [->|]; [by rewrite lookup_insert_eq|by rewrite lookup_insert_ne].
  - rewrite dom_insert_L. done.
  - rewrite dom_insert_L. set_solver.
Qed.

(** A page without blocks leaves the tables. *)
Lemma x_inv_drop s out E D i x' p' :
  x_inv s out E D → x' = drop_page i (num_avail_blocks_ x') s.1 → i ∈ dom (x_pages s) →
  num_avail_blocks_ x' = Z.of_nat (free_total (avail_pages_ x')) →
  blocks_on i (out ++ reserved_blocks_ s.1) = [] → E ⊆ {[i]} → pages_out p' (dom (x_pages s) ∪ D) →
  x_inv (x', p') out ∅ ({[i]} ∪ D).
Proof.
  intros [] Hx Hi Hn He HE Hout.
  assert (x_pages (x', p') = delete i (x_pages s)) as Hpages.
  { rewrite Hx. unfold x_pages, drop_page. simpl. by rewrite delete_union. }
  assert (avail_pages_ x' = delete i (avail_pages_ s.1) ∧ full_pages_ x' = delete i (full_pages_ s.1) ∧
          reserved_blocks_ x' = reserved_blocks_ s.1) as (Ha & Hf & Hr) by (by rewrite Hx).
  split; simpl; try (rewrite Hx; assumption); rewrite ?Hpages, ?Ha, ?Hf, ?Hr; simpl.
  - by apply map_disjoint_delete_l, map_disjoint_delete_r.
  - intros j pg Hj%lookup_delete_Some. destruct Hj as [Hne Hj]. destruct (xi_page0 j pg Hj) as (? & ? & ? & ? & Hej).
    do 4 (split; [done|]). intros Hnil. specialize (Hej Hnil). set_solver.
  - intros j pg [_ Hj]%lookup_delete_Some. by apply (xi_avail0 j).
  - intros j pg [_ Hj]%lookup_delete_Some. by apply (xi_full0 j).
  - intros b Hb. rewrite lookup_delete_ne; [by apply xi_known0|]. intros Heq.
    assert (b ∈ blocks_on i (out ++ reserved_blocks_ s.1)) as Hin by (by apply list_elem_of_filter).
    rewrite He in Hin. by apply elem_of_nil in Hin.
  - by rewrite Hn, Ha.
  - rewrite dom_delete_L. replace (dom (x_pages s) ∖ {[i]} ∪ ({[i]} ∪ D)) with (dom (x_pages s) ∪ D); [done|].
    apply set_eq. intros j. destruct (decide (j = i)); set_solver.
  - rewrite dom_delete_L. set_solver.
Qed.

Lemma x_inv_weaken s out E E' D : E ⊆ E' → x_inv s out E D → x_inv s out E' D.
Proof.
  intros HE []. split; try done. intros i pg Hi. destruct (xi_page0 i pg Hi) as (? & ? & ? & ? & He).
  do 4 (split; [done|]). intros Hnil. by apply HE, He.
Qed.

(** ** The operations *)

Lemma wp_on_page {A} (m : prog VirtPage A) pg (Q : A * VirtPage → XS → Prop) s :
  wp m (λ a pg', Q (a, pg') s) pg → wp (on_page m pg) Q s.
Proof. unfold wp, on_page. by destruct (m pg). Qed.
Lemma wp_page_num_free pg out (Q : nat → VirtPage → Prop) :
  page_ok pg bm out → Q (length (free_list_ pg)) pg → wp page_num_free_blocks Q pg.
Proof. intros Hp HQ. unfold page_num_free_blocks. apply wp_bind. eapply wp_require_init; [done|]. by wp_steps. Qed.

Lemma wp_on_source {A} (f : string → Z → prog P A) s out E D (Q : A → XS → Prop) :
  x_inv s out E D → wp (f mid r) (λ a p, Q a (s.1, p)) s.2 → wp (on_source f) Q s.
Proof.
  intros [Hid Hr _ _ _ _ _ _ _ _ _ _] Hf. unfold on_source, x_get. wp_steps. rewrite Hid, Hr. exact Hf.
Qed.
Lemma wpe_on_source {A} (f : string → Z → prog P A) s out E D (Q : A → XS → Prop) (F : XS → Prop) :
  x_inv s out E D → wpe (f mid r) (λ a p, Q a (s.1, p)) (λ p, F (s.1, p)) s.2 → wpe (on_source f) Q F s.
Proof.
  intros [Hid Hr _ _ _ _ _ _ _ _ _ _] Hf. unfold on_source, x_get.
  eapply (wpe_seq _ _ (λ x s', x = s.1 ∧ s' = s)); [done|]. intros x s' [-> ->]. apply wpe_zoom. by rewrite Hid, Hr.
Qed.
Lemma x_inv_source s p out E D : x_inv s out E D → pages_out p (dom (x_pages s) ∪ D) → x_inv (s.1, p) out E D.
Proof. intros [] Hp. by split. Qed.

Lemma available_size_ok s out E D : x_inv s out E D → wp available_size (λ _ s', s' = s) s.
Proof.
  intros Hi. unfold available_size, x_get. wp_steps. eapply wp_on_source; [done|].
  eapply wp_mono; [eapply num_reserved_law, Hi|]. intros n p [-> _].
  apply wp_bind. unfold get_num_blocks. rewrite (xi_bm _ _ _ _ Hi).
  destruct (bm =? 0) eqn:Eb; [apply Z.eqb_eq in Eb; pose proof (xs_block _ _ _ Hsz); lia|]. wp_steps. by destruct s.
Qed.

Lemma blocks_on_none i l : (∀ b, b ∈ l → b * bm / ps ≠ i) → blocks_on i l = [].
Proof. intros Hl. by apply filter_none_of. Qed.
Lemma blocks_on_all i l : (∀ b, b ∈ l → b * bm / ps = i) → blocks_on i l = l.
Proof. intros Hl. by apply filter_all_of. Qed.
Lemma blocks_on_app i l l' : blocks_on i (l ++ l') = blocks_on i l ++ blocks_on i l'.
Proof. apply filter_app. Qed.
(** The blocks of a page are on it. *)
Lemma page_blocks pg i b out : page_ok pg bm out → page_id_ pg = i → page_size_ pg = ps → 0 ≤ i < N →
  b ∈ free_list_ pg ++ out → b * bm / ps = i ∧ 0 ≤ b < 2 ^ 31.
Proof.
  intros Hp Hi Hs HN Hb. pose proof (page_ok_out _ _ _ _ Hp Hb) as Hr. rewrite Hi, Hs in Hr. split.
  - apply (range_page i ps bm); [|done]. by eapply x_sizes_page.
  - by eapply x_sizes_id.
Qed.

Lemma next_page_ok s out :
  x_ok s out →
  wpe next_page
    (λ o s', reserved_blocks_ s'.1 = reserved_blocks_ s.1 ∧
       (avail_pages_ s.1 ≠ ∅ → s' = s ∧ o ≠ None) ∧
       match o with
       | Some i => x_inv s' out {[i]} ∅ ∧ is_Some (avail_pages_ s'.1 !! i)
       | None => x_ok s' out
       end)
    (λ s', x_ok s' out) s.
Proof.
  intros Hx. unfold next_page. eapply (wpe_seq _ _ (λ x s', x = s.1 ∧ s' = s)); [done|]. intros x s' [-> ->].
  pose proof (key_order_elements (dom (avail_pages_ s.1))) as Hko.
  destruct (key_order (dom (avail_pages_ s.1))) as [|i l] eqn:El.
  - assert (avail_pages_ s.1 = ∅) as Hempty.
    { apply (dom_empty_inv_L (D:=gset Z)), leibniz_equiv, elements_empty_inv.
      by apply Permutation_nil. }
    eapply wpe_seq.
    { eapply (wpe_on_source _ _ _ _ _ (λ o s', s'.1 = s.1 ∧ match o with
        | Some v => ∃ i, v = VirtPage_new i ps ∧ i ∉ dom (x_pages s) ∧ pages_out s'.2 ({[i]} ∪ dom (x_pages s))
        | None => pages_out s'.2 (dom (x_pages s)) end)); [exact Hx|].
      pose proof (xi_out _ _ _ _ Hx) as Hout. rewrite union_empty_r_L in Hout.
      eapply wpe_mono; [by apply alloc_page_law|done|]. intros p Hp. cbv beta in Hp.
      eapply x_inv_source; [exact Hx|]. by rewrite union_empty_r_L. }
    intros o s' [Hs' Ho]. destruct o as [v|].
    2: { apply wpe_ret. split; [by rewrite Hs'|]. split; [by rewrite Hempty|]. destruct s' as [x' p']. simpl in *. subst.
         eapply (x_inv_source s); [exact Hx|]. by rewrite union_empty_r_L. }
    destruct Ho as (i & -> & Hi & Hout). apply wp_wpe. apply wp_bind, wp_on_page.
    assert (0 ≤ i < N) as HN by (eapply pages_out_range; [exact Hout|set_solver]).
    rewrite (xi_bm _ _ _ _ Hx).
    eapply wp_mono; [apply page_init_ok; [by eapply x_sizes_page|apply Z.lt_le_incl, (xs_fit _ _ _ Hsz); done]|].
    intros [] pg (Hpg & Hpid & Hpps & Hfl). apply wp_bind, wp_on_page. eapply wp_page_num_free; [exact Hpg|].
    unfold x_set. wp_steps. simpl. rewrite Hs'. split; [done|]. split; [by rewrite Hempty|].
    assert (free_list_ pg ≠ []) as Hne.
    { pose proof (xs_fit _ _ _ Hsz i HN) as Hfit. rewrite Hfl. intros Hnil. apply (f_equal length) in Hnil.
      rewrite length_seqZ in Hnil. simpl in Hnil. lia. }
    rewrite Hpid. split; [|by rewrite lookup_insert_eq].
    assert (blocks_on i (out ++ reserved_blocks_ s.1) = []) as Hno.
    { apply blocks_on_none. intros b Hb Heq. apply (xi_known _ _ _ _ Hx) in Hb. rewrite Heq in Hb. by apply elem_of_dom in Hb. }
    assert (∀ M : gmap Z VirtPage, M ⊆ x_pages s → M !! i = None) as HMi.
    { intros M HM. apply not_elem_of_dom. intros HiM. apply Hi. apply elem_of_dom in HiM as [pg' Hpg'].
      apply elem_of_dom. exists pg'. by eapply lookup_weaken. }
    assert (full_pages_ s.1 !! i = None) as Hfi
      by (apply HMi, map_union_subseteq_r, (xi_disj _ _ _ _ Hx)).
    eapply (x_inv_put s out ∅ ∅ i pg); simpl; try done.
    + unfold put_page. rewrite bool_decide_false by done. unfold set_pages, set_reserved. simpl. f_equal. by rewrite delete_id.
    + rewrite free_total_insert by (rewrite Hempty; apply lookup_empty).
      rewrite (xi_count _ _ _ _ Hx), Hempty, free_total_empty. rewrite u64_id; [lia|]. rewrite Z.add_0_l.
      pose proof (page_ok_length _ _ _ Hpg) as Hl. rewrite Hpps in Hl. pose proof Hsz as [? ? Hroom ? _]. nia.
    + by rewrite Hno.
    + intros _. by apply elem_of_singleton.
    + intros b Hb. by right.
    + by rewrite union_empty_r_L.
  - apply wpe_ret. split; [done|]. split; [done|]. split; [eapply x_inv_weaken; [|exact Hx]; set_solver|].
    apply elem_of_dom, elem_of_elements. rewrite <-Hko. by left.
Qed.

Lemma i32_blocks (l : list Z) : (∀ b, b ∈ l → 0 ≤ b < 2 ^ 31) → i32 <$> l = l.
Proof.
  intros Hl. induction l as [|b l IH]; [done|]. csimpl. rewrite i32_id by (specialize (Hl b ltac:(by left)); lia).
  f_equal. apply IH. intros b' Hb'. apply Hl. by right.
Qed.

(** Taking blocks from an available page: as many as wanted or all it has. *)
Lemma alloc_from_page_ok s out E i k :
  x_inv s out E ∅ → is_Some (avail_pages_ s.1 !! i) → (0 < k)%nat →
  wp (alloc_from_page i k)
    (λ l s', l ≠ [] ∧ (length l ≤ k)%nat ∧ i32 <$> l = l ∧ s'.2 = s.2 ∧
       reserved_blocks_ s'.1 = reserved_blocks_ s.1 ∧
       num_avail_blocks_ s'.1 = num_avail_blocks_ s.1 - Z.of_nat (length l) ∧
       x_inv s' (out ++ l) (E ∖ {[i]}) ∅) s.
Proof.
  intros Hx [pg Hav] Hk. unfold alloc_from_page, x_get. wp_steps. rewrite Hav.
  assert (x_pages s !! i = Some pg) as Hpg by (eapply x_pages_lookup; eauto).
  destruct (xi_page _ _ _ _ Hx i pg Hpg) as (HN & Hid & Hps & Hpok & _).
  pose proof (xi_avail _ _ _ _ Hx i pg Hav) as Hne.
  apply wp_bind, wp_on_page. eapply wp_page_num_free; [exact Hpok|]. simpl.
  set (n := Nat.min _ _). apply wp_bind, wp_on_page.
  eapply wp_mono; [by apply page_alloc_ok|]. intros l pg' (Hl & Hpok' & Hfl & Hid' & Hps').
  assert (length l = n) as Hlen by (rewrite Hl, length_take; lia).
  assert (0 < length (free_list_ pg))%nat as Hpos by (destruct (free_list_ pg); [done|simpl; lia]).
  apply wp_bind, wp_on_page. eapply page_full_ok; [exact Hpok'|]. unfold x_set. wp_steps.
  assert (∀ b, b ∈ l → b * bm / ps = i ∧ 0 ≤ b < 2 ^ 31) as Hlb.
  { intros b Hb. eapply (page_blocks pg); [exact Hpok|done|done|done|]. rewrite Hl in Hb. apply elem_of_take in Hb as (j & Hj & _).
    apply elem_of_app. left. by eapply list_elem_of_lookup_2. }
  assert (blocks_on i l = l) as Hon by (apply blocks_on_all; intros b Hb; by apply Hlb).
  pose proof (x_inv_bound _ _ _ _ Hx) as Hbound.
  pose proof (free_total_update _ i pg pg' Hav) as Hupd. pose proof (free_total_delete _ i pg Hav) as Hdel.
  rewrite (xi_count _ _ _ _ Hx) in Hbound |- *.
  assert (length (free_list_ pg') = length (free_list_ pg) - n)%nat as Hl' by (rewrite Hfl, length_drop; done).
  rewrite u64_id by lia. cbn [fst snd]. split; [destruct l; [simpl in Hlen; lia|done]|]. split; [lia|].
  split; [apply i32_blocks; intros b Hb; by apply Hlb|].
  assert (full_pages_ s.1 !! i = None) as Hfi by (eapply map_disjoint_Some_l; [apply Hx|done]).
  set (x' := if bool_decide (free_list_ pg' = []) then set_pages _ _ _ _ else _). assert (reserved_blocks_ x' = reserved_blocks_ s.1) as Hres by (unfold x'; by case_bool_decide).
  split; [done|]. split; [done|].
  assert (num_avail_blocks_ x' = Z.of_nat (free_total (avail_pages_ s.1)) - Z.of_nat n) as Hnum by (unfold x'; by case_bool_decide).
  split; [simpl; rewrite Hnum, Hlen; lia|].
  assert (∀ j, blocks_on j ((out ++ l) ++ reserved_blocks_ s.1) ≡ₚ
               blocks_on j (out ++ reserved_blocks_ s.1) ++ blocks_on j l) as Hpj.
  { intros j. rewrite !blocks_on_app. perm. }
  eapply (x_inv_put s out E ∅ i pg'); try rewrite Hres; try congruence; try done.
  - unfold x', put_page. simpl. case_bool_decide as Hb; unfold set_pages, set_reserved; simpl; f_equal; by rewrite delete_id.
  - rewrite Hnum. unfold x'. case_bool_decide as Hb; simpl; [rewrite Hb in Hl'; simpl in Hl'; lia|lia].
  - eapply page_ok_perm; [|exact Hpok']. rewrite Hpj. by rewrite Hon.
  - intros Hnil. apply Permutation_nil_r in Hnil. rewrite Hpj, Hon in Hnil. apply Permutation_nil_r, app_nil in Hnil as [_ Hnil].
    rewrite Hnil in Hlen. simpl in Hlen. lia.
  - intros j Hj. destruct (decide (j = i)); set_solver.
  - intros j Hj. rewrite Hpj, (blocks_on_none j l); [by rewrite app_nil_r|].
    intros b Hb Heq. apply Hj. rewrite <-Heq. by apply Hlb.
  - intros b. rewrite !elem_of_app. intros [[?|Hb]|?]; [right; by left|left; by apply Hlb|right; by right].
  - pose proof (xi_out _ _ _ _ Hx) as Hout. simpl.
    replace ({[i]} ∪ dom (x_pages s) ∪ ∅) with (dom (x_pages s) ∪ ∅); [done|].
    assert (i ∈ dom (x_pages s)) by (apply elem_of_dom; by eexists). set_solver.
Qed.

Lemma alloc_loop_ok fuel s out n ret :
  x_inv s (out ++ ret) ∅ ∅ → (n ≤ fuel)%nat →
  wpe (alloc_pages_loop fuel n ret)
    (λ l s', ∃ l1, l = ret ++ l1 ∧ x_ok s' (out ++ l) ∧ (length l1 ≤ n)%nat ∧
       reserved_blocks_ s'.1 = reserved_blocks_ s.1 ∧
       (Z.of_nat n ≤ num_avail_blocks_ s.1 → length l1 = n ∧ s'.2 = s.2))
    (λ s', ∃ lost, x_ok s' (out ++ lost)) s.
Proof.
  revert s n ret. induction fuel as [|fuel IH]; intros s n ret Hx Hn; destruct n as [|n]; try lia.
  1,2: apply wpe_ret; exists []; rewrite app_nil_r; split; [done|]; split; [done|]; split; [simpl; lia|]; by split.
  cbn [alloc_pages_loop]. eapply (wpe_seq _ _ _ _ _ _ (wpe_mono _ _ _ _ _ _ (next_page_ok s (out ++ ret) Hx)
    (λ _ _ H, H) (λ s' H, ex_intro _ ret H))).
  intros o s1 (Hr1 & Hav & Ho). cbv beta in *.
  assert (Z.of_nat (Datatypes.S n) ≤ num_avail_blocks_ s.1 → s1 = s ∧ o ≠ None) as Hav'.
  { intros Hle. apply Hav. intros Hemp. rewrite (xi_count _ _ _ _ Hx), Hemp, free_total_empty in Hle. lia. }
  destruct o as [i|].
  2: { apply wpe_ret. exists []. rewrite app_nil_r. split; [done|]. split; [done|]. split; [simpl; lia|]. split; [done|].
       intros Hle. by destruct (Hav' Hle). }
  destruct Ho as [Hx1 Hi]. eapply wpe_seq; [apply wp_wpe, (alloc_from_page_ok s1 _ _ i (Datatypes.S n) Hx1 Hi); lia|].
  intros l s2 (Hl & Hlen & Hi32 & Hs2 & Hr2 & Hnum & Hx2). rewrite Hi32.
  assert (0 < length l)%nat by (destruct l; [done|simpl; lia]).
  eapply wpe_mono; [apply (IH s2)|..].
  - rewrite app_assoc. eapply x_inv_weaken; [|exact Hx2]. set_solver.
  - lia.
  - intros l' s3 (l1 & -> & Hx3 & Hlen3 & Hr3 & Hfull). exists (l ++ l1). rewrite <-app_assoc in *. split; [done|].
    split; [done|]. rewrite length_app. split; [lia|]. split; [congruence|].
    intros Hle. destruct (Hav' Hle) as [-> _]. destruct Hfull as [H1 H2]; [lia|]. split; [lia|congruence].
  - done.
Qed.

Lemma set_reserved_inv s out k :
  x_ok s out → x_ok (set_reserved (drop k (reserved_blocks_ s.1)) s.1, s.2) (out ++ take k (reserved_blocks_ s.1)).
Proof.
  intros []. assert (∀ j, blocks_on j ((out ++ take k (reserved_blocks_ s.1)) ++ drop k (reserved_blocks_ s.1)) =
    blocks_on j (out ++ reserved_blocks_ s.1)) as Heq by (intros j; by rewrite <-app_assoc, take_drop).
  split; simpl; try done; try (intros i pg Hi; rewrite Heq; by apply xi_page0).
  intros b. rewrite <-app_assoc, take_drop. apply xi_known0.
Qed.

Lemma alloc_internal_ok s out n :
  x_ok s out →
  wpe (alloc_internal n)
    (λ l s', x_ok s' (out ++ l) ∧ (length l ≤ n)%nat ∧
       (Z.of_nat n ≤ num_avail_blocks_ s.1 + Z.of_nat (length (reserved_blocks_ s.1)) →
          length l = n ∧ s'.2 = s.2) ∧
       reserved_blocks_ s'.1 = drop n (reserved_blocks_ s.1))
    (λ s', ∃ lost, x_ok s' (out ++ lost)) s.
Proof.
  intros Hx. unfold alloc_internal, x_get, x_set.
  eapply (wpe_seq _ _ (λ _ s', s' = s)); [by eapply wp_wpe, available_size_ok|]. intros ? ? ->.
  eapply (wpe_seq _ _ (λ x s', x = s.1 ∧ s' = s)); [done|]. intros ? ? [-> ->].
  set (k := Nat.min _ _). eapply (wpe_seq _ _ (λ _ s', s' = (set_reserved (drop k (reserved_blocks_ s.1)) s.1, s.2))); [done|].
  intros _ ? ->. eapply wpe_mono; [apply alloc_loop_ok; [by apply set_reserved_inv|lia]| |done].
  intros l s' (l1 & -> & Hx' & Hlen & Hr & Hfull). rewrite !length_app, length_take. split; [done|]. split; [lia|].
  split; [|rewrite Hr; simpl; destruct (decide (n ≤ length (reserved_blocks_ s.1))%nat);
    [unfold k; by rewrite Nat.min_r|unfold k; rewrite Nat.min_l by lia; by rewrite !drop_ge by lia]].
  simpl in Hfull. pose proof (x_inv_bound _ _ _ _ Hx). intros Hle. destruct Hfull as [H1 H2]; [lia|]. split; [lia|done].
Qed.

(** The tables and the count after some blocks of a page came back *)
Lemma free_count s out D i pg pg' k :
  x_inv s out ∅ D → x_pages s !! i = Some pg → page_ok pg' bm k → page_id_ pg' = i → page_size_ pg' = ps →
  (length (free_list_ pg) ≤ length (free_list_ pg'))%nat →
  let d := (length (free_list_ pg') - length (free_list_ pg))%nat in
  let num := u64 (num_avail_blocks_ s.1 + Z.of_nat d) in
  num = Z.of_nat (free_total (<[i := pg']> (avail_pages_ s.1))) ∧
  u64 (num - Z.of_nat (length (free_list_ pg'))) = Z.of_nat (free_total (delete i (avail_pages_ s.1))).
Proof.
  intros Hx Hpg Hpok Hid Hps Hle d num. pose proof (x_inv_bound _ _ _ _ Hx) as Hb.
  pose proof (page_ok_length _ _ _ Hpok) as Hl. rewrite Hps in Hl. pose proof Hsz as [? ? Hroom ? _].
  pose proof (xi_count _ _ _ _ Hx) as Hc. destruct (xi_page _ _ _ _ Hx i pg Hpg) as (HN & _).
  assert (num = num_avail_blocks_ s.1 + Z.of_nat d) as Hnum by (apply u64_id; subst d; nia).
  destruct (proj1 (x_pages_lookup s i pg _ _ _ Hx) Hpg) as [Hav|Hfu].
  - pose proof (free_total_update _ i pg pg' Hav). pose proof (free_total_delete _ i pg Hav).
    rewrite Hnum, u64_id by (subst d; lia). subst d. lia.
  - assert (avail_pages_ s.1 !! i = None) as Hnone by (eapply map_disjoint_Some_r; [apply Hx|done]).
    pose proof (free_total_insert _ i pg' Hnone). pose proof (f_equal length (xi_full _ _ _ _ Hx i pg Hfu)) as Hz. simpl in Hz.
    rewrite (delete_id _ _ Hnone), Hnum, u64_id by (subst d; lia). subst d. lia.
Qed.

Lemma free_in_page_ok s idxs out D i :
  x_inv s (idxs ++ out) ∅ D → idxs ≠ [] → (∀ b, b ∈ idxs → b * bm / ps = i) →
  wp (free_in_page i idxs)
    (λ l s', s'.2 = s.2 ∧ reserved_blocks_ s'.1 = reserved_blocks_ s.1 ∧
       ((l = [] ∧ x_inv s' out ∅ D) ∨ (l = [i] ∧ i ∉ D ∧ x_inv s' out ∅ ({[i]} ∪ D)))) s.
Proof.
  intros Hx Hne Hon. set (res := reserved_blocks_ s.1).
  assert (is_Some (x_pages s !! i)) as [pg Hpg].
  { destruct idxs as [|b idxs]; [done|]. rewrite <-(Hon b) by (by left). apply (xi_known _ _ _ _ Hx). by left. }
  destruct (xi_page _ _ _ _ Hx i pg Hpg) as (HN & Hid & Hps & Hpok & _).
  assert (∀ j, blocks_on j ((idxs ++ out) ++ res) = blocks_on j idxs ++ blocks_on j (out ++ res)) as Hsplit
    by (intros j; by rewrite <-app_assoc, blocks_on_app).
  rewrite Hsplit, (blocks_on_all i idxs Hon) in Hpok.
  assert (i ∉ D) as HiD by (pose proof (xi_gone _ _ _ _ Hx); assert (i ∈ dom (x_pages s)) by (by apply elem_of_dom; eexists); set_solver).
  unfold free_in_page, x_get. wp_steps.
  assert (∃ full, match full_pages_ s.1 !! i with
                  | Some page => Some (page, true)
                  | None => (λ page, (page, false)) <$> avail_pages_ s.1 !! i
                  end = Some (pg, full) ∧
          (if full then full_pages_ s.1 !! i = Some pg ∧ avail_pages_ s.1 !! i = None
           else avail_pages_ s.1 !! i = Some pg ∧ full_pages_ s.1 !! i = None)) as (full & -> & Hfull).
  { pose proof (xi_disj _ _ _ _ Hx) as Hd. destruct (proj1 (x_pages_lookup s i pg _ _ _ Hx) Hpg) as [Hav|Hfu].
    - exists false. rewrite (map_disjoint_Some_l _ _ _ _ Hd Hav), Hav. done.
    - exists true. rewrite Hfu. split; [done|]. split; [done|]. by eapply map_disjoint_Some_r. }
  apply wp_bind, wp_on_page. eapply wp_mono; [by eapply page_free_ok|]. intros [] pg' (Hpok' & Hfl & Hid' & Hps').
  apply wp_bind, wp_on_page. eapply page_empty_ok; [exact Hpok'|]. apply wp_bind, wp_on_page.
  eapply wp_page_num_free; [exact Hpok'|]. cbn [fst snd].
  assert (length (free_list_ pg') - length (free_list_ pg) = length idxs)%nat as Hd by (rewrite Hfl, length_app; lia).
  destruct (free_count s _ D i pg pg' _ Hx Hpg Hpok' ltac:(congruence) ltac:(congruence) ltac:(rewrite Hfl, length_app; lia))
    as [Hn1 Hn2]. rewrite Hd in Hn1, Hn2.
  assert (∀ j, j ≠ i → blocks_on j (out ++ res) ≡ₚ blocks_on j ((idxs ++ out) ++ res)) as Hoth.
  { intros j Hj. rewrite Hsplit, (blocks_on_none j idxs); [done|]. intros b Hb Heq. apply Hj. by rewrite <-Heq, Hon. }
  pose proof (xi_out _ _ _ _ Hx) as Hout.
  set (num := u64 _) in *.
  assert (∀ E', (blocks_on i (out ++ res) = [] → i ∈ E') → x_inv (put_page i pg' num s.1, s.2) out E' D) as Hput.
  { intros E' HE. assert (free_list_ pg' ≠ []) as Hnf by (rewrite Hfl; intros [_ ?]%app_nil; done).
    eapply (x_inv_put s (idxs ++ out) ∅ D i pg'); unfold put_page; rewrite ?bool_decide_false by done; simpl; try done.
    - congruence.
    - congruence.
    - intros b Hb. right. rewrite <-app_assoc, elem_of_app. by right.
    - replace ({[i]} ∪ dom (x_pages s) ∪ D) with (dom (x_pages s) ∪ D); [done|].
      assert (i ∈ dom (x_pages s)) by (apply elem_of_dom; by eexists). set_solver. }
  assert (free_list_ pg' ≠ []) as Hnf by (rewrite Hfl; intros [_ ?]%app_nil; done).
  case_bool_decide as Hemp; unfold x_set; wp_steps; (split; [done|]); (split; [done|]); cbn [fst snd].
  - right. split; [done|]. split; [done|]. specialize (Hput {[i]} ltac:(set_solver)).
    eapply x_inv_drop; [exact Hput|..]; unfold put_page, drop_page; rewrite ?bool_decide_false by done; simpl; try done.
    + unfold set_pages. simpl. rewrite !delete_insert_eq, delete_delete_eq.
      destruct full, Hfull as [Hf1 Hf2]; f_equal; by rewrite delete_id.
    + assert (dom (x_pages (put_page i pg' num s.1, s.2)) = {[i]} ∪ dom (x_pages s)) as Hdom.
      { rewrite put_page_lookup by apply Hx. apply dom_insert_L. }
      unfold put_page in Hdom. rewrite bool_decide_false in Hdom by done. rewrite Hdom. set_solver.
    + rewrite Hn2. destruct full, Hfull as [Hf1 Hf2]; [by rewrite (delete_id (avail_pages_ s.1))|done].
    + assert (dom (x_pages (put_page i pg' num s.1, s.2)) = {[i]} ∪ dom (x_pages s)) as Hdom.
      { rewrite put_page_lookup by apply Hx. apply dom_insert_L. }
      unfold put_page in Hdom. rewrite bool_decide_false in Hdom by done. rewrite Hdom.
      replace ({[i]} ∪ dom (x_pages s) ∪ D) with (dom (x_pages s) ∪ D); [done|].
      assert (i ∈ dom (x_pages s)) by (apply elem_of_dom; by eexists). set_solver.
  - left. split; [done|]. specialize (Hput ∅ ltac:(done)).
    replace (set_pages _ _ _ _) with (put_page i pg' num s.1); [exact Hput|].
    unfold put_page. rewrite bool_decide_false by done. unfold set_pages. f_equal.
    destruct full, Hfull as [Hf1 Hf2]; [done|by rewrite delete_id].
Qed.

(** A block outside the manager is known to be where it is. *)
Lemma x_inv_block s out E D b :
  x_inv s out E D → b ∈ out ++ reserved_blocks_ s.1 → 0 ≤ b < 2 ^ 31 ∧ 0 ≤ b * bm < 2 ^ 63.
Proof.
  intros Hx Hb. destruct (xi_known _ _ _ _ Hx b Hb) as [pg Hpg].
  destruct (xi_page _ _ _ _ Hx _ pg Hpg) as (HN & Hid & Hps & Hpok & _).
  assert (b ∈ free_list_ pg ++ blocks_on (b * bm / ps) (out ++ reserved_blocks_ s.1)) as Hin.
  { apply elem_of_app. right. by apply list_elem_of_filter. }
  destruct (page_blocks pg _ b _ Hpok Hid Hps HN Hin) as [_ Hr]. split; [done|].
  pose proof (page_ok_out _ _ _ _ Hpok Hin) as Hrange. rewrite Hid, Hps in Hrange.
  apply block_range_iff in Hrange; [|by eapply x_sizes_page]. destruct Hsz as [? ? ? ? _]. nia.
Qed.

Lemma page_of_ok s out E D b :
  x_inv s out E D → b ∈ out ++ reserved_blocks_ s.1 → wp (page_of b) (λ i s', s' = s ∧ i = b * bm / ps) s.
Proof.
  intros Hx Hb. unfold page_of, x_get. wp_steps. rewrite (xi_bm _ _ _ _ Hx).
  destruct (x_inv_block _ _ _ _ _ Hx Hb) as [[Hb0 _] Hb1].
  eapply wp_mono; [eapply virt_page_law; [apply Hx|done|done]|]. intros i p [-> ->]. by destruct s.
Qed.

Lemma filter_split (l : list Z) (i : Z) (rest : list Z) :
  i ∉ rest →
  filter (λ b, b * bm / ps ∈ i :: rest) l ≡ₚ blocks_on i l ++ filter (λ b, b * bm / ps ∈ rest) l.
Proof.
  intros Hi. unfold blocks_on. induction l as [|b l IH]; [done|]. rewrite !filter_cons.
  destruct (decide (b * bm / ps = i)) as [Heq|Hne].
  - rewrite decide_True by (rewrite Heq; by left). rewrite (decide_False (P := _ ∈ rest)) by (by rewrite Heq).
    simpl. by rewrite IH.
  - destruct (decide (b * bm / ps ∈ rest)) as [Hin|Hnin].
    + rewrite decide_True by (by right). rewrite IH. apply Permutation_middle.
    + rewrite decide_False; [done|]. by intros [?|?]%elem_of_cons.
Qed.
Lemma dict_blocks (l : list Z) (i : Z) :
  snd <$> filter (λ e : Z * Z, e.1 = i) ((λ b, (b * bm / ps, b)) <$> l) = blocks_on i l.
Proof.
  unfold blocks_on. induction l as [|b l IH]; [done|]. csimpl. rewrite !filter_cons. simpl.
  case_decide; csimpl; by rewrite IH.
Qed.

Lemma free_blocks_ok s indices out :
  x_ok s (indices ++ out) →
  wp (free_blocks indices) (λ _ s', x_ok s' out ∧ reserved_blocks_ s'.1 = reserved_blocks_ s.1) s.
Proof.
  intros Hx. unfold free_blocks. case_bool_decide as Hnil; [subst; by wp_steps|]. apply wp_bind.
  eapply wp_mono.
  { apply (wp_map_each indices _ (λ rest bs s', s' = s ∧ ∃ dn, indices = dn ++ rest ∧ bs = (λ b, (b * bm / ps, b)) <$> dn)).
    { split; [done|]. by exists []. }
    intros b rest bs s' (-> & dn & Heq & ->). apply wp_bind. eapply wp_mono.
    { eapply page_of_ok; [exact Hx|]. rewrite Heq. set_solver. }
    intros i s' [-> ->]. apply wp_ret. split; [done|]. exists (dn ++ [b]). rewrite fmap_app, <-app_assoc. by split. }
  intros dict s' (-> & dn & Heq & ->). rewrite app_nil_r in Heq. subst dn.
  set (ks := key_order _). assert (ks ≡ₚ elements (list_to_set ((λ b, b * bm / ps) <$> indices) : gset Z)) as Hks.
  { unfold ks. rewrite key_order_elements. by rewrite <-list_fmap_compose. }
  assert (NoDup ks) as Hnd by (rewrite Hks; apply NoDup_elements).
  assert (∀ i, i ∈ ks ↔ ∃ b, b ∈ indices ∧ i = b * bm / ps) as Hin.
  { intros i. rewrite Hks, elem_of_elements, elem_of_list_to_set, list_elem_of_fmap. naive_solver. }
  apply wp_bind. eapply wp_mono.
  { apply (wp_map_each ks _ (λ rest bs s', x_inv s' (filter (λ b, b * bm / ps ∈ rest) indices ++ out) ∅ (list_to_set (mjoin bs)) ∧
      reserved_blocks_ s'.1 = reserved_blocks_ s.1 ∧ NoDup (mjoin bs) ∧ NoDup rest ∧ (∀ i, i ∈ rest → i ∈ ks))).
    { split; [|split; [done|split; [constructor|by split]]]. simpl. eapply x_inv_perm; [|exact Hx].
      rewrite filter_all_of; [done|]. intros b Hb. apply Hin. eauto. }
    intros i rest bs s' (Hx' & Hr & Hndb & Hndr & Hsub). apply NoDup_cons in Hndr as [Hi Hndr].
    rewrite dict_blocks. eapply wp_mono.
    { apply (free_in_page_ok s' (blocks_on i indices) (filter (λ b, b * bm / ps ∈ rest) indices ++ out) (list_to_set (mjoin bs))).
      - eapply x_inv_perm; [|exact Hx']. by rewrite app_assoc, filter_split.
      - intros Hno. destruct (proj1 (Hin i) (Hsub i ltac:(by left))) as (b & Hb & Heq).
        assert (b ∈ blocks_on i indices) as Hbi by (by apply list_elem_of_filter). rewrite Hno in Hbi. by apply elem_of_nil in Hbi.
      - intros b Hb. by apply list_elem_of_filter in Hb as [? _]. }
    cbv beta. intros l s'' (_ & Hr' & [[-> Hx'']|(-> & HiD & Hx'')]); rewrite join_app; simpl; rewrite ?app_nil_r.
    - split; [done|]. split; [congruence|]. split; [done|]. split; [done|]. intros j Hj. apply Hsub. by right.
    - split; [replace (list_to_set (mjoin bs ++ [i])) with ({[i]} ∪ list_to_set (mjoin bs) : gset Z); [done|set_solver]|]. split; [congruence|].
      split; [|split; [done|]; intros j Hj; apply Hsub; by right].
      apply NoDup_app. split; [done|]. split; [|apply NoDup_singleton].
      intros j Hj ->%list_elem_of_singleton. apply HiD. by apply elem_of_list_to_set. }
  intros l s1 (Hx1 & Hr1 & Hndl & _).
  assert (filter (λ b, b * bm / ps ∈ []) indices = []) as Hf0.
  { apply filter_none_of. intros b _. apply not_elem_of_nil. }
  rewrite Hf0 in Hx1. simpl in Hx1. case_bool_decide as Hl.
  - wp_steps. split; [|done]. rewrite Hl in Hx1. done.
  - eapply wp_on_source; [exact Hx1|]. pose proof (xi_out _ _ _ _ Hx1) as Hout.
    eapply wp_mono; [apply free_pages_law; [exact Hout|done|set_solver]|]. intros [] p Hp. split; [|done].
    destruct Hx1. split; try done.
    + change (pages_out p (dom (x_pages s1) ∪ ∅)).
      replace (dom (x_pages s1) ∪ ∅) with ((dom (x_pages s1) ∪ list_to_set (mjoin l)) ∖ list_to_set (mjoin l) : gset Z);
        [exact Hp|set_solver].
Qed.

(** ** Reserving, the padding block, the end *)

Lemma x_new_ok o layers p :
  pages_out p ∅ → x_ok (XTensorBlockManagerImpl_new o layers bm ps r mid, p) [].
Proof.
  intros Hp.
  assert (x_pages (XTensorBlockManagerImpl_new o layers bm ps r mid, p) = ∅) as He by (apply (map_empty_union (M:=gmap Z))).
  split; simpl; rewrite ?He; try done.
  intros b Hb. by apply elem_of_nil in Hb.
Qed.

Lemma add_reserved_ok s out l :
  x_ok s (out ++ l) → x_ok (set_reserved (reserved_blocks_ s.1 ++ l) s.1, s.2) out.
Proof.
  intros Hx. assert (x_inv s (l ++ out) ∅ ∅) as Hx' by (eapply x_inv_perm; [|exact Hx]; apply Permutation_app_comm).
  destruct Hx'. assert (∀ j, blocks_on j (out ++ reserved_blocks_ s.1 ++ l) ≡ₚ
    blocks_on j ((l ++ out) ++ reserved_blocks_ s.1)) as Heq by (intros j; rewrite !blocks_on_app; perm).
  split; simpl; try done.
  - intros i pg Hi. destruct (xi_page0 i pg Hi) as (? & ? & ? & ? & He). do 3 (split; [done|]).
    split; [eapply page_ok_perm; [symmetry; apply Heq|done]|]. intros Hnil. apply He, Permutation_nil. by rewrite <-Heq, Hnil.
  - intros b Hb. apply xi_known0. set_solver.
Qed.
Lemma try_to_reserve_ok s out n :
  x_ok s out →
  wpe (try_to_reserve n) (λ b s', x_ok s' out ∧ (b = false → s' = s ∨ n = 0%nat ∨ num_avail_blocks_ s.1 + Z.of_nat (length (reserved_blocks_ s.1)) < Z.of_nat n))
    (λ s', ∃ lost, x_ok s' (out ++ lost)) s.
Proof.
  intros Hx. unfold try_to_reserve. eapply (wpe_seq _ _ (λ _ s', s' = s)); [by eapply wp_wpe, available_size_ok|].
  intros av ? ->. destruct (av <? Z.of_nat n); [apply wpe_ret; auto|].
  eapply wpe_seq; [by apply alloc_internal_ok|]. intros l s' (Hx' & Hlen & Hfull & _). case_bool_decide as Hl.
  - apply wpe_ret. subst l. rewrite app_nil_r in Hx'. split; [done|]. intros _. right. simpl in *.
    destruct (decide (n = 0%nat)); [by left|]. right. destruct (decide (Z.of_nat n ≤ num_avail_blocks_ s.1 + Z.of_nat (length (reserved_blocks_ s.1)))); [|lia].
    destruct (Hfull ltac:(done)). lia.
  - unfold x_set. eapply (wpe_seq _ _ (λ _ s'', s'' = (set_reserved (reserved_blocks_ s'.1 ++ l) s'.1, s'.2))); [done|].
    intros _ ? ->. apply wpe_ret. split; [by apply add_reserved_ok|done].
Qed.
Lemma free_reserved_ok s out :
  x_ok s out → wp free_reserved (λ _ s', x_ok s' out ∧ reserved_blocks_ s'.1 = []) s.
Proof.
  intros Hx. unfold free_reserved, x_get, x_set. wp_steps. case_bool_decide as Hr; wp_steps; [done|].
  eapply wp_mono; [apply free_blocks_ok|by intros [] s'].
  eapply (x_inv_perm _ (out ++ reserved_blocks_ s.1)); [apply Permutation_app_comm|].
  pose proof (set_reserved_inv s out (length (reserved_blocks_ s.1)) Hx) as Hx'.
  by rewrite drop_all, take_ge in Hx' by done.
Qed.
Lemma destroy_ok s out :
  x_ok s out → is_initialized s.2 = true →
  wp XTensorBlockManagerImpl_destroy (λ _ s', pages_out s'.2 ∅ ∧ x_pages s' = ∅) s.
Proof.
  intros Hx Hinit. unfold XTensorBlockManagerImpl_destroy, x_set. wp_steps. rewrite Hinit, andb_true_r.
  pose proof (xi_out _ _ _ _ Hx) as Hout. rewrite union_empty_r_L in Hout.
  assert (∀ p, x_pages (set_pages (num_avail_blocks_ s.1) ∅ ∅ s.1, p) = ∅) as Hemp by (intros p; apply (map_empty_union (M:=gmap Z))).
  set (l := _ ++ _). assert (l ≡ₚ elements (dom (avail_pages_ s.1)) ++ elements (dom (full_pages_ s.1))) as Hl
    by (unfold l; by rewrite !key_order_elements).
  assert (list_to_set l = dom (x_pages s)) as Hset.
  { apply set_eq. intros i. rewrite elem_of_list_to_set, Hl, elem_of_app, !elem_of_elements. unfold x_pages.
    rewrite dom_union_L. set_solver. }
  case_bool_decide as Hnil; simpl.
  - wp_steps. split; [|apply Hemp]. rewrite Hnil in Hset. simpl in *. by rewrite Hset.
  - unfold on_source, x_get. wp_steps. simpl. rewrite (xi_id _ _ _ _ Hx), (xi_rank _ _ _ _ Hx).
    eapply wp_mono; [apply free_pages_law; [exact Hout| |by rewrite Hset]|].
    + rewrite Hl. apply NoDup_app. split; [apply NoDup_elements|]. split; [|apply NoDup_elements].
      intros i Hi1 Hi2. apply elem_of_elements, elem_of_dom in Hi1 as [? Hi1]. apply elem_of_elements, elem_of_dom in Hi2 as [? Hi2].
      by eapply map_disjoint_spec; [apply (xi_disj _ _ _ _ Hx)|..].
    + intros [] p Hp. split; [|apply Hemp]. simpl. by rewrite Hset, difference_diag_L in Hp.
Qed.

(** ** What the invariant says of the blocks *)

Lemma blocks_nodup l : (∀ i, NoDup (blocks_on i l)) → NoDup l.
Proof.
  induction l as [|b l IH]; intros Hl; [constructor|]. apply NoDup_cons. split.
  - intros Hb. specialize (Hl (b * bm / ps)). unfold blocks_on in Hl. rewrite filter_cons_True in Hl by done.
    apply NoDup_cons in Hl as [Hno _]. apply Hno. by apply list_elem_of_filter.
  - apply IH. intros i. specialize (Hl i). unfold blocks_on in *. rewrite filter_cons in Hl. case_decide; [|done].
    by apply NoDup_cons in Hl as [_ ?].
Qed.
Lemma x_ok_nodup s out : x_ok s out → NoDup (out ++ reserved_blocks_ s.1).
Proof.
  intros Hx. apply blocks_nodup. intros i. destruct (x_pages s !! i) as [pg|] eqn:Hpg.
  - destruct (xi_page _ _ _ _ Hx i pg Hpg) as (_ & _ & _ & Hpok & _). apply page_ok_nodup in Hpok.
    by apply NoDup_app in Hpok as (_ & _ & ?).
  - rewrite blocks_on_none; [constructor|]. intros b Hb Heq. apply (xi_known _ _ _ _ Hx) in Hb. rewrite Heq, Hpg in Hb.
    by destruct Hb.
Qed.
Lemma x_ok_pages s out : x_ok s out →
  ∀ i, i ∈ dom (x_pages s) ↔ ∃ b, b ∈ out ++ reserved_blocks_ s.1 ∧ b * bm / ps = i.
Proof.
  intros Hx i. split.
  - intros [pg Hpg]%elem_of_dom. destruct (xi_page _ _ _ _ Hx i pg Hpg) as (_ & _ & _ & _ & He).
    destruct (blocks_on i (out ++ reserved_blocks_ s.1)) as [|b l] eqn:E; [by specialize (He eq_refl); apply elem_of_empty in He|].
    exists b. assert (b ∈ blocks_on i (out ++ reserved_blocks_ s.1)) as Hb by (rewrite E; by left).
    by apply list_elem_of_filter in Hb as [? ?].
  - intros (b & Hb & <-). apply elem_of_dom. by apply (xi_known _ _ _ _ Hx).
Qed.

(** ** Blocks of this manager

    The manager is an owner of blocks in the sense of [Blocks]: [pad] is the padding
    block, which no handle holds. *)
Context (pad : list Z).
Definition any_state (s s' : XS) : Prop := True.
#[local] Instance any_state_preorder : PreOrder any_state.
Proof. by split. Qed.
Lemma x_free_owns s (X : gset Z) i :
  x_ok s (pad ++ elements X) → i ∈ X →
  wp (free i) (λ _ s', x_ok s' (pad ++ elements (X ∖ {[i]})) ∧ any_state s s') s.
Proof.
  intros Hx Hi. unfold free, X_owner, x_free. eapply wp_mono.
  - apply (free_blocks_ok s [i] (pad ++ elements (X ∖ {[i]}))). eapply x_inv_perm; [|exact Hx].
    assert (elements X ≡ₚ i :: elements (X ∖ {[i]})) as ->; [|simpl; by rewrite <-Permutation_middle].
    rewrite <-(elements_union_singleton (X ∖ {[i]}) i) by set_solver. f_equiv. intros j.
    destruct (decide (j = i)); set_solver.
  - cbv beta. by intros [] s' [? _].
Qed.
#[export] Instance X_laws : BlockOwnerLaws XS := {
  owns := λ s X, x_ok s (pad ++ elements X);
  frame := any_state;
  free_owns := x_free_owns;
}.

Lemma x_allocate_ok (w : World XS) hs n :
  world_ok w hs → Z.of_nat (length hs + n) < 2 ^ 32 →
  wpe (x_allocate n)
    (λ bs w', world_ok w' (hrefs bs ++ hs) ∧ (length bs ≤ n)%nat ∧ Forall (λ b, manager_ b = true ∧ Blocks.id b ∉ ids_of hs) bs ∧
       NoDup (Blocks.id <$> bs) ∧
       (Z.of_nat n ≤ num_avail_blocks_ (mgr w).1 + Z.of_nat (length (reserved_blocks_ (mgr w).1)) → length bs = n))
    (λ w', cells_ok (cells w') (next_cell w') hs ∧ ∃ lost, x_ok (mgr w') ((pad ++ elements (ids_of hs)) ++ lost)) w.
Proof.
  intros [Hc Ho] Hroom. unfold x_allocate.
  apply (wpe_seq _ _ (λ l w1, (cells_ok (cells w1) (next_cell w1) hs ∧ x_ok (mgr w1) ((pad ++ elements (ids_of hs)) ++ l)) ∧
    (length l ≤ n)%nat ∧
    (Z.of_nat n ≤ num_avail_blocks_ (mgr w).1 + Z.of_nat (length (reserved_blocks_ (mgr w).1)) → length l = n))).
  { apply wpe_zoom. eapply wpe_mono; [apply alloc_internal_ok, Ho| |].
    - intros l s' (Hx & Hlen & Hfull & _). exact (conj (conj Hc Hx) (conj Hlen (λ H, proj1 (Hfull H)))).
    - intros s' Hl. split; [exact Hc|exact Hl]. }
  cbv beta. intros l w1 ((Hc1 & Hx1) & Hlen & Hfull). simpl in Hc1, Hx1. apply wp_wpe.
  pose proof (x_ok_nodup _ _ Hx1) as Hnd. apply NoDup_app in Hnd as (Hnd & _ & _). rewrite <-app_assoc in Hnd.
  apply NoDup_app in Hnd as (_ & _ & Hnd). apply NoDup_app in Hnd as (_ & Hdisj & Hndl).
  eapply wp_mono.
  { apply (wp_map_each l _ (λ rest bs w', cells_ok (cells w') (next_cell w') (hrefs bs ++ hs) ∧ mgr w' = mgr w1 ∧
      l = (Blocks.id <$> bs) ++ rest ∧ Forall (λ b, manager_ b = true) bs ∧
      ids_of (hrefs bs) = list_to_set (Blocks.id <$> bs) ∧ length (hrefs bs) = length bs)).
    { split; [done|]. by split. }
    intros i rest bs w' (Hc' & Hm & Hl & Hall & Hids & Hlh). unfold Block_new. wp_steps. cbv zeta. simpl.
    assert (i ∉ ids_of (hrefs bs ++ hs)) as Hi.
    { rewrite ids_of_app, Hids, elem_of_union, elem_of_list_to_set. intros [Hin|Hin].
      - rewrite Hl in Hndl. apply NoDup_app in Hndl as (_ & Hd & _). apply (Hd i Hin). by left.
      - apply (Hdisj i); [by apply elem_of_elements|]. rewrite Hl. set_solver. }
    split; [|split; [done|split; [by rewrite fmap_app, <-app_assoc|split; [by apply Forall_app_2; [|repeat constructor]|]]]].
    - rewrite hrefs_app, hrefs_cons, hrefs_nil, app_nil_r. unfold href, payload. simpl.
      rewrite (Permutation_app_comm (hrefs bs)), <-app_assoc. simpl. apply cells_ok_alloc; [done| |].
      + by intros ? [= <-].
      + rewrite length_app, Hlh. rewrite Hl, length_app, length_fmap in Hlen. simpl in Hlen. lia.
    - rewrite hrefs_app, ids_of_app, Hids, hrefs_cons, hrefs_nil, app_nil_r, fmap_app, list_to_set_app_L.
      unfold href, payload, ids_of. simpl. rewrite length_app, length_app, Hlh. simpl. split; [done|lia]. }
  cbv beta. intros bs w' (Hc' & Hm & Hl & Hall & Hids & _). rewrite app_nil_r in Hl.
  split; [split; [done|]|].
  - rewrite Hm, ids_of_app, Hids. simpl. eapply x_inv_perm; [|exact Hx1]. rewrite <-app_assoc. f_equiv.
    rewrite Hl. rewrite elements_disj_union.
    + rewrite elements_list_to_set by (by rewrite <-Hl). apply Permutation_app_comm.
    + intros i Hi1 Hi2. apply elem_of_list_to_set in Hi1. apply (Hdisj i); [by apply elem_of_elements|by rewrite Hl].
  - rewrite Hl, length_fmap in Hlen, Hfull. split; [done|]. split.
    + apply Forall_forall. intros b Hb. rewrite Forall_forall in Hall. split; [by apply Hall|]. intros Hin.
      apply (Hdisj (Blocks.id b)); [by apply elem_of_elements|]. rewrite Hl. by apply list_elem_of_fmap_2.
    + split; [by rewrite <-Hl|]. exact Hfull.
Qed.
End verified.

(** ** Properties *)

Section properties.
Context {P : Type} `{!PageSource P} {mid : string} {r ps N : Z} `{!PageSourceLaws P mid r ps N} `{!HashOrder}.
Abbreviation XS := (XManager * P)%type.

(** C16: [x_alloc_fresh] — [alloc_internal] hands out block ids that nobody holds: they
    differ from each other, from the blocks outside and from the reserved ones, at most
    as many as wanted; exactly as many, without a call of the page allocator, when the
    pages at hand suffice.  A page holds one block at least and the
    block ids fit 32 bits ([x_sizes]).  The call ends: when the page allocator throws, so does the call,
    and nothing but the blocks taken so far is lost. *)
Theorem x_alloc_fresh (bm : Z) (s : XS) out n :
  x_sizes ps bm N → x_ok bm s out →
  wpe (alloc_internal n)
    (λ l s', x_ok bm s' (out ++ l) ∧ NoDup ((out ++ l) ++ reserved_blocks_ s'.1) ∧
       (length l ≤ n)%nat ∧
       (Z.of_nat n ≤ num_avail_blocks_ s.1 + Z.of_nat (length (reserved_blocks_ s.1)) →
        length l = n ∧ s'.2 = s.2))
    (λ s', ∃ lost, x_ok bm s' (out ++ lost)) s.
Proof.
  intros Hsz Hx. eapply wpe_mono; [by apply alloc_internal_ok| |done].
  intros l s' (Hx' & Hlen & Hfull & _). split; [done|]. split; [by eapply x_ok_nodup|]. by split.
Qed.

(** Freeing blocks that are out never fails, and afterwards the
    manager holds a page exactly when some block of it is still out or reserved: the
    page of the last block went back to the page allocator. *)
Theorem x_free_gives_back (bm : Z) (s : XS) indices out :
  x_sizes ps bm N → x_ok bm s (indices ++ out) →
  wp (free_blocks indices)
    (λ _ s', x_ok bm s' out ∧ pages_out s'.2 (dom (x_pages s')) ∧
       ∀ i, i ∈ dom (x_pages s') ↔ ∃ b, b ∈ out ++ reserved_blocks_ s.1 ∧ b * bm / ps = i) s.
Proof.
  intros Hsz Hx. eapply wp_mono; [by apply free_blocks_ok|]. cbv beta. intros [] s' [Hx' Hr].
  split; [done|]. split; [|rewrite <-Hr; by apply x_ok_pages].
  pose proof (xi_out _ _ _ _ _ Hx') as Hout. by rewrite union_empty_r_L in Hout.
Qed.

(** [x_alloc_free_roundtrip] — a manager that allocates some blocks and frees them
    holds the pages it held before. *)
Theorem x_alloc_free_roundtrip (bm : Z) (s s' : XS) out n l :
  x_sizes ps bm N → x_ok bm s out → reserved_blocks_ s.1 = [] → alloc_internal n s = Done l s' →
  wp (free_blocks l) (λ _ s'', x_ok bm s'' out ∧ dom (x_pages s'') = dom (x_pages s)) s'.
Proof.
  intros Hsz Hx Hres Hrun. pose proof (alloc_internal_ok bm Hsz s out n Hx) as Ha. unfold wpe in Ha.
  rewrite Hrun in Ha. destruct Ha as (Hx' & _ & _ & Hr').
  eapply wp_mono; [apply (free_blocks_ok bm Hsz s' l out)|].
  { eapply x_inv_perm; [|exact Hx']. apply Permutation_app_comm. }
  cbv beta. intros [] s'' [Hx'' Hr'']. split; [done|]. apply set_eq. intros i.
  rewrite (x_ok_pages bm s'' out Hx''), (x_ok_pages bm s out Hx), Hr'', Hr', Hres. by rewrite drop_nil.
Qed.
End properties.
