(* ===== verification/XTensorPages.v ===== *)
(** The page allocator as the source of pages of the XTensor block manager: the instance
    of [XTensorBlocks.PageSource] for [PageAllocator], with the answers of the workers
    as a list, and its laws for a model with one manager per rank whose calls run one
    after the other. *)

From stdpp Require Import base gmap list strings sets.
From Stdlib Require Import ZArith Lia.
From S2P Require Import Prelude HashKey Blocks DList PrefixCache KvEvents BlockManager.
From S2P Require Import VirtPage PageAllocator XTensorBlocks.
Open Scope Z_scope.

(** The allocator with the answers of the broadcasts to come, one per call; when the
    list is used up the workers succeed. *)
Abbreviation PAR := (PageAllocator * list bool)%type.
Definition with_reply {A} (f : bool → PA A) : prog PAR A :=
  get ≫= λ s,
  put (s.1, tail s.2) ≫= λ _,
  zoom fst (λ a s, (a, s.2)) (f (default true (head s.2))).
Definition without_reply {A} (f : PA A) : prog PAR A := zoom fst (λ a s, (a, s.2)) f.

#[export] Instance PageAllocator_source : PageSource PAR := {
  alloc_kv_cache_page := λ id r, with_reply (PageAllocator.alloc_kv_cache_page id r);
  free_kv_cache_pages := λ id r l, with_reply (PageAllocator.free_kv_cache_pages id r l);
  trim_kv_cache := λ id r, with_reply (PageAllocator.trim_kv_cache id r);
  get_num_reserved_virt_pages := λ id r, without_reply (PageAllocator.get_num_reserved_virt_pages id r);
  get_num_inuse_virt_pages := λ id r, without_reply (PageAllocator.get_num_inuse_virt_pages id r);
  phy_pages_per_virt_page := λ id, without_reply (get_model_state id ≫= λ m, mret (PageAllocator.phy_pages_per_virt_page m));
  get_virt_page_id := λ b bm s, PageAllocator.get_virt_page_id s.1 b bm s;
  source_page_size := λ s, pa_page_size_ s.1;
  is_initialized := λ s, pa_initialized_ s.1;
}.

Section laws.
Context (id : string) (r ps N : Z) (Hps : 0 < ps < 2 ^ 63).

(** The model is awake, its group has workers, and the manager holds the pages that the
    allocator counts as allocated. *)
Record held (ts : list task) (a : PageAllocator) (m : ModelState) (g : DpGroupPages) : Prop := {
  held_ok : pa_ok a ts;
  held_group : group_at a id r m g;
  held_awake : is_sleeping m = false;
  held_init : pa_initialized_ a = true;
  held_rank : 0 ≤ r < dp_size_ a;
  held_page_size : pa_page_size_ a = ps;
  held_total : num_total_virt_pages m ≤ N;
  held_workers : Forall (Z.le 0) (group_workers id r a);
}.
Definition pages_held_by_manager (s : PAR) (X : gset Z) : Prop :=
  ∃ m g, held [] s.1 m g ∧ allocated_virt_page_list g = X.

Lemma workers_exist_held a : workers_ok a → Forall (Z.le 0) (group_workers id r a) → workers_exist (group_workers id r a) a.
Proof.
  intros (Hlen & _ & _) Hpos. unfold workers_exist. apply Forall_forall. intros w Hw.
  rewrite Forall_forall in Hpos. specialize (Hpos w Hw). split; [done|]. apply lookup_lt_is_Some.
  unfold group_workers in Hw. destruct (get_dp_group_worker_range _ _ _) as [se ?| | |]; [|by apply elem_of_nil in Hw..].
  apply elem_of_seqZ in Hw. lia.
Qed.
(** What a section keeps of the configuration *)
Lemma group_workers_becomes a m m' a' :
  model_states_ a !! id = Some m → becomes a id m' a' → model_tp_size m' = model_tp_size m →
  group_workers id r a' = group_workers id r a.
Proof.
  intros Hm (HM & Hc & _) Htp. unfold config in Hc. simplify_eq.
  unfold group_workers, get_dp_group_worker_range, mbind, prog_bind, get, mret, prog_ret, workers_in. simpl.
  rewrite HM, lookup_insert_eq, Hm, Htp. congruence.
Qed.
(** The invariant after a section that changes the group *)
Lemma held_becomes ts ts' a m g m' g' a' :
  held ts a m g → becomes a id m' a' → pa_ok a' ts' → dp_group_pages m' !! Z.to_nat r = Some g' →
  is_sleeping m' = is_sleeping m → num_total_virt_pages m' = num_total_virt_pages m →
  model_tp_size m' = model_tp_size m → held ts' a' m' g'.
Proof.
  intros [Hok Hg Haw Hin Hr Hpg Ht Hw] Hb Hok' Hg' Hs' Ht' Htp. pose proof Hb as (HM & Hc & _). unfold config in Hc.
  assert (dp_size_ a' = dp_size_ a ∧ pa_page_size_ a' = pa_page_size_ a ∧ pa_initialized_ a' = pa_initialized_ a)
    as (E1 & E2 & E3) by (by simplify_eq).
  split; try congruence; try (rewrite E1; exact Hr).
  - split; [|done]. by rewrite HM, lookup_insert_eq.
  - by rewrite (group_workers_becomes a m m' a' (proj1 Hg) Hb Htp).
Qed.

(** The release of physical pages never fails. *)
Lemma release_run n a : workers_exist (group_workers id r a) a → wp (release_phy_pages_for_dp id r n) (λ _ _, True) a.
Proof.
  intros Hws. unfold release_phy_pages_for_dp. apply wp_bind. cbn. apply wp_bind, wp_get.
  change (wp (for_each (group_workers id r a) (λ w, sub_used w n)) (λ _ _, True) a).
  eapply wp_mono; [apply (wp_for_each (group_workers id r a) _ (λ l a', workers_exist l a')); [exact Hws|]|done].
  intros w l a1 Hw. apply Forall_cons in Hw as [[Hw [u Hu]] Hl].
  unfold sub_used, set_used. wp_steps. eapply wp_atZ; [done|exact Hu|]. wp_steps.
  eapply Forall_impl; [exact Hl|]. intros w' [? Hs]. split; [done|]. simpl.
  apply lookup_lt_is_Some. rewrite length_insert. by apply lookup_lt_is_Some.
Qed.

Lemma post_wp_done {A} (m : PA A) (Q R : A → PageAllocator → Prop) a :
  wp m R a → post m Q a → wp m Q a.
Proof. unfold wp, post. by destruct (m a). Qed.
Lemma get_group_wp a m g (Q : DpGroupPages → PageAllocator → Prop) :
  group_at a id r m g → 0 ≤ r → Q g a → wp (get_group id r) Q a.
Proof. apply get_group_run. Qed.
Lemma get_model_wp a m (Q : ModelState → PageAllocator → Prop) :
  model_states_ a !! id = Some m → Q m a → wp (get_model_state id) Q a.
Proof. intros Hm HQ. unfold get_model_state. wp_steps. by rewrite Hm. Qed.
Lemma check_rank_wp a (Q : unit → PageAllocator → Prop) :
  0 ≤ r < dp_size_ a → Q () a → wp (check_rank r) Q a.
Proof.
  intros [H1 H2] HQ. unfold check_rank. wp_steps. apply wp_check; [by apply Z.leb_le|].
  apply wp_check; [by apply Z.ltb_lt|done].
Qed.
Lemma modify_group_wp f a m g (Q : unit → PageAllocator → Prop) :
  group_at a id r m g → Q () (with_model id (with_group r (f g) m) a) → wp (modify_group id r f) Q a.
Proof.
  intros [Hm Hg] HQ. unfold modify_group, modify_model. apply wp_modify.
  rewrite (alter_insert_same _ _ _ _ Hm). unfold with_group in HQ. by rewrite (list_alter_same _ _ _ _ Hg).
Qed.
Lemma group_workers_with m m' a :
  model_states_ a !! id = Some m → model_tp_size m' = model_tp_size m →
  group_workers id r (with_model id m' a) = group_workers id r a.
Proof. intros Hm Htp. apply (group_workers_becomes a m m'); [done|apply becomes_with|done]. Qed.
Lemma with_model_lookup m a : model_states_ (with_model id m a) !! id = Some m.
Proof. simpl. by rewrite lookup_insert_eq. Qed.
Lemma modify_model_wp f a m (Q : unit → PageAllocator → Prop) :
  model_states_ a !! id = Some m → Q () (with_model id (f m) a) → wp (modify_model id f) Q a.
Proof. intros Hm HQ. unfold modify_model. apply wp_modify. by rewrite (alter_insert_same _ _ _ _ Hm). Qed.
(** Release on a state whose models changed only in their pages *)
Lemma release_with n m m' a :
  workers_exist (group_workers id r a) a → model_states_ a !! id = Some m → model_tp_size m' = model_tp_size m →
  wp (release_phy_pages_for_dp id r n) (λ _ _, True) (with_model id m' a).
Proof. intros Hws Hm Htp. apply release_run. by rewrite (group_workers_with m). Qed.

(** The sections of an allocation and of a release never fail. *)
Lemma alloc_end_run ts a m g v b : held ts a m g → wp (alloc_end id r v b) (λ _ _, True) a.
Proof.
  intros Hh. pose proof (workers_exist_held a (pa_workers _ _ (held_ok _ _ _ _ Hh)) (held_workers _ _ _ _ Hh)) as Hws.
  pose proof (held_group _ _ _ _ Hh) as [Hm Hg]. unfold alloc_end. apply wp_bind.
  eapply modify_model_wp; [done|]. destruct b; [by wp_steps|]. apply wp_bind.
  eapply modify_group_wp; [split; [apply with_model_lookup|done]|]. rewrite with_model_twice.
  apply wp_bind. eapply get_model_wp; [apply with_model_lookup|]. apply wp_bind.
  eapply wp_mono; [by eapply release_with|]. intros [] a' _. by wp_steps.
Qed.
Lemma unmap_end_run ts a m g n pages b : held ts a m g → wp (unmap_end id r n pages b) (λ _ _, True) a.
Proof.
  intros Hh. pose proof (workers_exist_held a (pa_workers _ _ (held_ok _ _ _ _ Hh)) (held_workers _ _ _ _ Hh)) as Hws.
  pose proof (held_group _ _ _ _ Hh) as [Hm Hg]. unfold unmap_end. apply wp_bind.
  eapply get_group_wp; [by split|apply Hh|]. destruct b.
  - apply wp_bind. eapply modify_group_wp; [by split|]. by eapply release_with.
  - eapply modify_group_wp; [by split|done].
Qed.
Lemma free_begin_run ts a m g pages : held ts a m g → wp (free_begin id r pages) (λ _ _, True) a.
Proof.
  intros Hh. pose proof (held_group _ _ _ _ Hh) as [Hm Hg]. unfold free_begin. apply wp_bind, check_rank_wp; [apply Hh|].
  apply wp_bind. eapply get_model_wp; [done|]. apply wp_bind. eapply get_group_wp; [by split|apply Hh|].
  apply wp_bind. eapply modify_group_wp; [by split|]. rewrite (held_awake _ _ _ _ Hh).
  apply wp_bind. eapply get_group_wp; [apply (group_at_put _ _ _ _ g); by split|apply Hh|].
  destruct (0 <? _); [|by wp_steps]. apply wp_bind.
  eapply modify_group_wp; [apply (group_at_put _ _ _ _ g); by split|]. by wp_steps.
Qed.
Lemma trim_begin_run ts a m g : held ts a m g → wp (trim_begin id r) (λ _ _, True) a.
Proof.
  intros Hh. pose proof (held_group _ _ _ _ Hh) as [Hm Hg]. unfold trim_begin. apply wp_bind, check_rank_wp; [apply Hh|].
  apply wp_bind. eapply get_group_wp; [by split|apply Hh|]. apply wp_bind. eapply modify_group_wp; [by split|]. by wp_steps.
Qed.

Lemma wp_run {A B} (m : PA A) (f : A → PA B) Q a x a' :
  m a = Done x a' → wp (f x) Q a' → wp (m ≫= f) Q a.
Proof. intros Hm Hf. unfold wp, mbind, prog_bind. by rewrite Hm. Qed.
Lemma held_allocated ts a m g v : held ts a m g → v ∈ allocated_virt_page_list g → 0 ≤ v < N.
Proof.
  intros Hh Hv. pose proof (held_group _ _ _ _ Hh) as [Hm Hg].
  pose proof (pa_ok_model _ _ _ _ (held_ok _ _ _ _ Hh) Hm) as Hok.
  pose proof (group_pages _ _ _ _ (model_groups _ _ Hok _ _ Hg)) as Hp.
  assert (v ∈ seqZ 0 (num_total_virt_pages m)) as Hs.
  { rewrite <-Hp, !elem_of_app. right; right; left. by apply elem_of_elements. }
  apply elem_of_seqZ in Hs. pose proof (held_total _ _ _ _ Hh). lia.
Qed.

(** Unmapping the pages of one call *)
Lemma unmap_pages_run a m g pages n b :
  held (pages_task Unmapping id r pages) a m g →
  wp (get_model_state id ≫= λ m, if bool_decide (pages = []) then mret () else unmap_end id r n pages b)
    (λ _ a', ∃ m' g', held [] a' m' g' ∧ allocated_virt_page_list g' = allocated_virt_page_list g) a.
Proof.
  intros Hh. apply wp_bind. eapply get_model_wp; [apply Hh|]. case_bool_decide as Hnil.
  { wp_steps. exists m, g. split; [|done]. subst. exact Hh. }
  unfold pages_task in Hh. rewrite bool_decide_false in Hh by done.
  destruct (wp_done _ _ _ (unmap_end_run _ _ _ _ n pages b Hh)) as ([] & a' & Hrun & _). unfold wp. rewrite Hrun.
  destruct (post_done _ _ _ _ _ (unmap_end_post id r n pages b a) Hrun) as (m' & g' & Hg' & Hb).
  destruct (group_at_inj _ _ _ _ _ _ _ (held_group _ _ _ _ Hh) Hg') as [-> ->].
  eexists _, _. split; [eapply held_becomes; [exact Hh|exact Hb| | |done..]|].
  - eapply unmap_end_step; [apply Hh|reflexivity|exact Hrun].
  - simpl. apply list_lookup_insert_eq. by eapply lookup_lt_Some, Hg'.
  - by destruct b.
Qed.

Lemma free_pages_run a m g l b :
  held [] a m g → NoDup l → list_to_set l ⊆ allocated_virt_page_list g →
  wp (PageAllocator.free_kv_cache_pages id r l b)
    (λ _ a', ∃ m' g', held [] a' m' g' ∧ allocated_virt_page_list g' = allocated_virt_page_list g ∖ list_to_set l) a.
Proof.
  intros Hh Hnd Hsub. unfold PageAllocator.free_kv_cache_pages.
  destruct (wp_done _ _ _ (free_begin_run _ _ _ _ l Hh)) as (tu & a1 & Hrun & _). eapply wp_run; [exact Hrun|].
  destruct (post_done _ _ _ _ _ (free_begin_post id r l a) Hrun) as (m' & g' & k & Hg' & Htu & Hb).
  destruct (group_at_inj _ _ _ _ _ _ _ (held_group _ _ _ _ Hh) Hg') as [-> ->].
  assert (pa_ok a1 (pages_task Unmapping id r tu)) as Hok1.
  { rewrite <-(app_nil_r (pages_task _ _ _ _)). eapply free_begin_step; [apply Hh|done| |exact Hrun].
    intros m1 g1 Hg1. destruct (group_at_inj _ _ _ _ _ _ _ Hg' Hg1) as [-> ->]. apply Forall_forall. set_solver. }
  eassert (held (pages_task Unmapping id r tu) a1 _ _) as Hh1.
  { eapply held_becomes; [exact Hh|exact Hb|exact Hok1| |done..].
    simpl. apply list_lookup_insert_eq. by eapply lookup_lt_Some, Hg'. }
  assert (∃ m1, model_states_ a1 !! id = Some m1) as [m1 Hm1] by (eexists; apply Hh1).
  apply wp_bind. eapply get_model_wp; [exact Hm1|].
  pose proof (unmap_pages_run a1 _ _ tu (PageAllocator.phy_pages_per_virt_page m1) b Hh1) as Hun.
  apply wp_bind_inv in Hun. unfold get_model_state, wp, mbind, prog_bind, get in Hun. rewrite Hm1 in Hun. simpl in Hun.
  exact Hun.
Qed.

Lemma trim_run a m g b :
  held [] a m g →
  wp (PageAllocator.trim_kv_cache id r b)
    (λ _ a', ∃ m' g', held [] a' m' g' ∧ allocated_virt_page_list g' = allocated_virt_page_list g) a.
Proof.
  intros Hh. unfold PageAllocator.trim_kv_cache.
  destruct (wp_done _ _ _ (trim_begin_run _ _ _ _ Hh)) as (tu & a1 & Hrun & _). eapply wp_run; [exact Hrun|].
  destruct (post_done _ _ _ _ _ (trim_begin_post id r a) Hrun) as (m' & g' & Hg' & Htu & Hb).
  destruct (group_at_inj _ _ _ _ _ _ _ (held_group _ _ _ _ Hh) Hg') as [-> ->].
  assert (pa_ok a1 (pages_task Unmapping id r tu)) as Hok1.
  { rewrite <-(app_nil_r (pages_task _ _ _ _)). eapply trim_begin_step; [apply Hh|exact Hrun]. }
  eassert (held (pages_task Unmapping id r tu) a1 _ _) as Hh1.
  { eapply held_becomes; [exact Hh|exact Hb|exact Hok1| |done..].
    simpl. apply list_lookup_insert_eq. by eapply lookup_lt_Some, Hg'. }
  assert (∃ m1, model_states_ a1 !! id = Some m1) as [m1 Hm1] by (eexists; apply Hh1).
  apply wp_bind. eapply get_model_wp; [exact Hm1|].
  pose proof (unmap_pages_run a1 _ _ tu (PageAllocator.phy_pages_per_virt_page m1) b Hh1) as Hun.
  apply wp_bind_inv in Hun. unfold get_model_state, wp, mbind, prog_bind, get in Hun. rewrite Hm1 in Hun. simpl in Hun.
  exact Hun.
Qed.

(** A page that is free or reserved is not allocated. *)
Lemma held_alloc_fresh a m g v :
  held [] a m g → v ∈ free_virt_page_list g ∨ v ∈ reserved_virt_page_list g → v ∉ allocated_virt_page_list g.
Proof.
  intros Hh Hv Hin. pose proof (held_group _ _ _ _ Hh) as [Hm Hg].
  pose proof (pa_ok_model _ _ _ _ (held_ok _ _ _ _ Hh) Hm) as Hok.
  pose proof (group_nodup _ _ _ _ (model_groups _ _ Hok _ _ Hg)) as Hnd.
  apply elem_of_elements in Hin. apply NoDup_app in Hnd as (_ & Hd1 & Hnd). apply NoDup_app in Hnd as (_ & Hd2 & _).
  destruct Hv as [Hv|Hv]; [apply (Hd1 v Hv)|apply (Hd2 v Hv)]; rewrite ?elem_of_app; auto.
Qed.
Definition allocated_one (a : PageAllocator) (g : DpGroupPages) (o : option VirtPage) (a' : PageAllocator) : Prop :=
  ∃ m' g', held [] a' m' g' ∧
    match o with
    | Some v => ∃ i, v = VirtPage_new i ps ∧ i ∉ allocated_virt_page_list g ∧
                     allocated_virt_page_list g' = {[i]} ∪ allocated_virt_page_list g
    | None => allocated_virt_page_list g' = allocated_virt_page_list g
    end.
(** After the page is mapped: the rest of the call *)
Lemma alloc_rest_run a a1 m g m1 g1 v b :
  held [] a m g → held [mkTask Mapping id r [v]] a1 m1 g1 →
  allocated_virt_page_list g1 = allocated_virt_page_list g → v ∈ free_virt_page_list g →
  wp (alloc_end id r v b ≫= λ ok : bool,
      if negb ok then mret None
      else maybe_trigger ≫= λ _, alloc_commit id r v ≫= λ _, mret (Some (VirtPage_new v (pa_page_size_ a1))))
    (allocated_one a g) a1.
Proof.
  intros Hh Hh1 Hal Hv. destruct (wp_done _ _ _ (alloc_end_run _ _ _ _ v b Hh1)) as (ok & a2 & Hrun & _).
  pose proof (held_ok _ _ _ _ Hh1) as Hok1. pose proof (held_group _ _ _ _ Hh1) as Hg1.
  eapply wp_run; [exact Hrun|].
  destruct (post_done _ _ _ _ _ (alloc_end_post id r v b a1 _ _ Hg1
    (model_per_page _ _ (pa_ok_model _ _ _ _ Hok1 (proj1 Hg1)))) Hrun) as [-> Hb].
  pose proof (alloc_end_step a1 [mkTask Mapping id r [v]] [] id r v b b a2 Hok1 ltac:(done) Hrun) as Hok2.
  destruct b; simpl.
  - eassert (held [mkTask Mapped id r [v]] a2 _ g1) as Hh2.
    { eapply held_becomes; [exact Hh1|exact Hb|exact Hok2|apply Hg1|done..]. }
    assert (∃ a3, maybe_trigger a2 = Done () a3 ∧ (a3 = a2 ∨ a3 = set_needed true a2)) as (a3 & Htr & Ha3).
    { unfold maybe_trigger, trigger_preallocation, mbind, prog_bind, get, modify, mret, prog_ret.
      destruct (enable_page_prealloc_ a2); eauto. }
    eapply wp_run; [exact Htr|]. pose proof (trigger_step _ _ _ Hok2 Htr) as Hok3.
    assert (group_at a3 id r (set_pending (i32 (pending_map_ops m1 - 1)) m1) g1) as Hg3
      by (destruct Ha3 as [->| ->]; apply Hh2).
    pose proof (modify_group_wp (λ g, set_allocated_pages ({[v]} ∪ allocated_virt_page_list g) g) a3 (set_pending (i32 (pending_map_ops m1 - 1)) m1) g1 (λ _ _, True) Hg3 I) as Hc.
    change (wp (alloc_commit id r v) (λ _ _, True) a3) in Hc.
    destruct (wp_done _ _ _ Hc) as ([] & a4 & Hrun4 & _). eapply wp_run; [exact Hrun4|]. wp_steps.
    pose proof (post_done _ _ _ _ _ (alloc_commit_post id r v a3 _ _ Hg3) Hrun4) as Hb4.
    pose proof (alloc_commit_step a3 [mkTask Mapped id r [v]] [] id r v a4 Hok3 ltac:(done) Hrun4) as Hok4.
    assert (held [mkTask Mapped id r [v]] a3 (set_pending (i32 (pending_map_ops m1 - 1)) m1) g1) as Hh3.
    { destruct Ha3 as [->| ->]; [exact Hh2|]. destruct Hh2. by split. }
    eexists _, _. split; [eapply held_becomes; [exact Hh3|exact Hb4|exact Hok4| |done..]|].
    + simpl. apply list_lookup_insert_eq. by eapply lookup_lt_Some, Hg3.
    + exists v. rewrite (held_page_size _ _ _ _ Hh1). split; [done|]. split; [by eapply held_alloc_fresh; [exact Hh|left]|].
      simpl. by rewrite Hal.
  - wp_steps. eexists _, _. split; [eapply held_becomes; [exact Hh1|exact Hb|exact Hok2| |done..]|].
    + simpl. apply list_lookup_insert_eq. by eapply lookup_lt_Some, Hg1.
    + simpl. done.
Qed.

Lemma alloc_page_run a m g b :
  held [] a m g →
  wpe (PageAllocator.alloc_kv_cache_page id r b) (allocated_one a g) (λ a', a' = a) a.
Proof.
  intros Hh. pose proof (held_ok _ _ _ _ Hh) as Hok. pose proof (held_group _ _ _ _ Hh) as Hg.
  pose proof (alloc_begin_run id r a [] m g Hok Hg (held_init _ _ _ _ Hh) (held_rank _ _ _ _ Hh) (held_awake _ _ _ _ Hh)
    (workers_exist_held a (pa_workers _ _ Hok) (held_workers _ _ _ _ Hh))) as Hres.
  unfold PageAllocator.alloc_kv_cache_page, wpe. unfold mbind at 1, prog_bind at 1.
  destruct (alloc_begin id r a) as [[[v fast]|] a1|e a1|e|e] eqn:Hrun; [|done|apply Hres|done..].
  pose proof (post_done _ _ _ _ _ (alloc_begin_post id r a (pa_workers _ _ Hok)
    ltac:(intros i m1 Hm1; apply (pa_ok_model _ _ _ _ Hok Hm1))) Hrun) as (m' & g' & Hg' & Hsl & Hcase).
  destruct (group_at_inj _ _ _ _ _ _ _ Hg Hg') as [-> ->]. simpl in Hcase.
  unfold mbind at 1, prog_bind at 1, get at 1. cbn [fst snd].
  destruct Hcase as [(rest & Hr & -> & Hb)|(rest & Hf & -> & Hb)].
  - simpl. eexists _, _. split; [eapply held_becomes; [exact Hh|exact Hb|by eapply alloc_begin_step| |done..]|].
    + simpl. apply list_lookup_insert_eq. by eapply lookup_lt_Some, Hg.
    + exists v. split; [|split].
      * destruct Hb as (_ & Hc & _). unfold config in Hc. f_equal. transitivity (pa_page_size_ a); [by simplify_eq|apply Hh].
      * eapply held_alloc_fresh; [exact Hh|]. right. rewrite Hr. by left.
      * done.
  - assert (pa_ok a1 [mkTask Mapping id r [v]]) as Hok1 by (eapply alloc_begin_map_step; [done|done|exact Hrun]).
    eassert (held [mkTask Mapping id r [v]] a1 _ _) as Hh1.
    { eapply held_becomes; [exact Hh|exact Hb|exact Hok1| |done..].
      simpl. apply list_lookup_insert_eq. by eapply lookup_lt_Some, Hg. }
    pose proof (alloc_rest_run a a1 m g _ _ v b Hh Hh1 eq_refl ltac:(rewrite Hf; by left)) as Hrest.
    apply (wp_wpe _ _ (λ a', a' = a)) in Hrest. exact Hrest.
Qed.

(** ** The laws *)

Lemma wpe_with_reply {A} (f : bool → PA A) (Q : A → PAR → Prop) (E : PAR → Prop) s :
  (∀ b l, wpe (f b) (λ x a, Q x (a, l)) (λ a, E (a, l)) s.1) → wpe (with_reply f) Q E s.
Proof.
  intros Hf. unfold with_reply. eapply (wpe_seq _ _ (λ s' s'', s' = s ∧ s'' = s)); [done|]. intros ? ? [-> ->].
  eapply (wpe_seq _ _ (λ _ s'', s'' = (s.1, tail s.2))); [done|]. intros ? ? ->. apply wpe_zoom. simpl. apply Hf.
Qed.
Lemma wp_with_reply {A} (f : bool → PA A) (Q : A → PAR → Prop) s :
  (∀ b l, wp (f b) (λ x a, Q x (a, l)) s.1) → wp (with_reply f) Q s.
Proof. intros Hf. apply wpe_wp, wpe_with_reply. intros b l. apply wp_wpe, Hf. Qed.

#[refine, export] Instance PageAllocator_laws : PageSourceLaws PAR id r ps N := {
  pages_out := pages_held_by_manager;
}.
Proof.
  - intros s X i (m & g & Hh & <-) Hi. by eapply held_allocated.
  - intros s X (m & g & Hh & <-). apply wpe_with_reply. intros b l. eapply wpe_mono; [eapply alloc_page_run; exact Hh| |].
    + intros o a' (m' & g' & Hh' & Ho). destruct o as [v|].
      * destruct Ho as (i & -> & Hi & Ha). exists i. split; [done|]. split; [done|]. by exists m', g'.
      * by exists m', g'.
    + intros a' ->. by exists m, g.
  - intros s X l (m & g & Hh & <-) Hnd Hsub. apply wp_with_reply. intros b rs.
    eapply wp_mono; [eapply free_pages_run; [exact Hh|done..]|]. intros [] a' (m' & g' & Hh' & Ha). by exists m', g'.
  - intros s X (m & g & Hh & <-). apply wp_with_reply. intros b rs.
    eapply wp_mono; [eapply trim_run; exact Hh|]. intros [] a' (m' & g' & Hh' & Ha). by exists m', g'.
  - intros s X (m & g & Hh & <-). unfold get_num_reserved_virt_pages, PageAllocator_source, without_reply.
    apply wp_zoom. unfold PageAllocator.get_num_reserved_virt_pages. apply wp_bind, check_rank_wp; [apply Hh|].
    apply wp_bind. eapply get_group_wp; [apply Hh|apply Hh|]. wp_steps. split; [by destruct s|lia].
  - intros s X b bm (m & g & Hh & <-) Hb Hbm. unfold get_virt_page_id, PageAllocator_source, PageAllocator.get_virt_page_id, wp.
    rewrite (held_page_size _ _ _ _ Hh). destruct (ps =? 0) eqn:E; [apply Z.eqb_eq in E; lia|].
    unfold mret, prog_ret. split; [done|]. rewrite u64_id by lia. apply i64_id. split.
    + assert (0 ≤ b * bm / ps); [apply Z.div_pos; lia|lia].
    + apply Z.div_lt_upper_bound; nia.
Defined.
End laws.

(** ** A run

    One model of one layer, pages of 4096 bytes, blocks of 1024 bytes. *)
#[export] Instance elements_order : HashOrder := {
  key_order := elements;
  key_order_elements := λ X, reflexivity (elements X);
}.
Definition demo_xm : XManager :=
  XTensorBlockManagerImpl_new (mkOptions 24 16 false false false) 1 1024 4096 0 "m".
Definition demo_x : XManager * PAR := (demo_xm, (demo_model, [])).
Lemma demo_page_size : 0 < 4096 < 2 ^ 63.
Proof. lia. Qed.
#[export] Instance demo_laws : PageSourceLaws PAR "m" 0 4096 6 :=
  PageAllocator_laws "m" 0 4096 6 demo_page_size.

Lemma demo_sizes : x_sizes 4096 1024 6.
Proof.
  split; try lia. intros i Hi. assert (page_sizes i 4096 1024) as Hs by (split; lia).
  pose proof (range_divisible i 4 1024 Hs) as Hr. change (4 * 1024) with 4096 in Hr. lia.
Qed.
Lemma demo_held : pages_out (demo_model, []) ∅.
Proof.
  eexists _, _. split; [split; simpl|].
  - apply (pa_reachable_ok _ demo_model_reachable).
  - split; [vm_compute; reflexivity|reflexivity].
  - reflexivity.
  - reflexivity.
  - by vm_compute.
  - reflexivity.
  - by vm_compute.
  - vm_compute. repeat constructor. done.
  - reflexivity.
Qed.
Lemma demo_x_ok : x_ok 1024 demo_x [].
Proof. apply (x_new_ok 1024 _ 1 (demo_model, [])), demo_held. Qed.

Lemma x_alloc_fresh_witness :
  ∃ s', alloc_internal 3 demo_x = Done [0; 1; 2] s' ∧ x_ok 1024 s' [0; 1; 2].
Proof.
  pose proof (x_alloc_fresh 1024 demo_x [] 3 demo_sizes demo_x_ok) as H. unfold wpe in H.
  assert (∃ s', alloc_internal 3 demo_x = Done [0; 1; 2] s') as [s' Hs']
    by (eexists; vm_compute; reflexivity).
  rewrite Hs' in H. exists s'. split; [exact Hs'|exact (proj1 H)].
Defined.
Lemma x_free_gives_back_witness :
  ∃ s s', alloc_internal 3 demo_x = Done [0; 1; 2] s ∧ free_blocks [1] s = Done () s' ∧
    x_ok 1024 s' [0; 2] ∧ 0 ∈ dom (x_pages s').
Proof.
  assert (∃ s, alloc_internal 3 demo_x = Done [0; 1; 2] s ∧ x_ok 1024 s [0; 1; 2]) as (s & Hs & Hok).
  { pose proof (alloc_internal_ok 1024 demo_sizes demo_x [] 3 demo_x_ok) as H. unfold wpe in H.
    assert (∃ s', alloc_internal 3 demo_x = Done [0; 1; 2] s') as [s' Hs'] by (eexists; vm_compute; reflexivity).
    rewrite Hs' in H. exists s'. split; [exact Hs'|exact (proj1 H)]. }
  assert (x_ok 1024 s ([1] ++ [0; 2])) as Hok' by (eapply x_inv_perm; [|exact Hok]; apply perm_swap).
  pose proof (x_free_gives_back 1024 s [1] [0; 2] demo_sizes Hok') as H. unfold wp in H.
  destruct (free_blocks [1] s) as [[] s'| | |] eqn:E; [|done..]. exists s, s'.
  split; [exact Hs|]. split; [done|]. destruct H as (H1 & _ & H2). split; [exact H1|].
  apply H2. exists 0. split; [by left|reflexivity].
Defined.
Lemma x_alloc_free_roundtrip_witness :
  ∃ s', alloc_internal 3 demo_x = Done [0; 1; 2] s' ∧ wp (free_blocks [0; 1; 2]) (λ _ s'', x_ok 1024 s'' []) s'.
Proof.
  assert (∃ s', alloc_internal 3 demo_x = Done [0; 1; 2] s') as [s' Hs'] by (eexists; vm_compute; reflexivity).
  exists s'. split; [exact Hs'|]. eapply wp_mono;
    [exact (x_alloc_free_roundtrip 1024 demo_x s' [] 3 _ demo_sizes demo_x_ok eq_refl Hs')|].
  intros [] s'' [H _]. exact H.
Defined.
