(* ===== verification/Int32Map.v ===== *)
(** The compact hash map of the suffix tree: [core/util/int32_map.h].

    Open addressing with triangular probing over an array of slots whose size is a power
    of two; a key of the slot says whether it is empty, a tombstone or filled.  The
    [assert]s of the source are checks here, and reading the object of a slot that holds
    none is undefined.  [map_ok m d] says that the map [m] represents the finite map [d];
    [int32map_refines] that every run of operations behaves as the same run on [d]. *)

From stdpp Require Import base gmap list strings sets.
From Stdlib Require Import ZArith Lia Znumtheory.
From S2P Require Import Prelude.
Open Scope Z_scope.

(** ** Data and operations *)

Definition KEY_EMPTY : Z := - 2 ^ 31.
Definition KEY_TOMBSTONE : Z := - 2 ^ 31 + 1.
Definition MIN_LOAD_PCT : Z := 25.
Definition MAX_LOAD_PCT : Z := 75.
Definition MIN_CAPACITY : Z := 2.

Definition is_filled (k : Z) : bool := negb (k =? KEY_EMPTY) && negb (k =? KEY_TOMBSTONE).

Definition mix_hash (key : Z) : Z :=
  let x := u32 key in
  let x := Z.lxor x (Z.shiftr x 16) in
  let x := u32 (x * 0x7feb352d) in
  let x := Z.lxor x (Z.shiftr x 15) in
  let x := u32 (x * 0x846ca68b) in
  Z.lxor x (Z.shiftr x 16).

Section map.
Context {T : Type}.

(** [storage] is the object of the slot, when one lives there. *)
Record Slot := mkSlot { s_key : Z; storage : option T }.
Definition Slot_new : Slot := mkSlot KEY_EMPTY None.

Record Int32Map := mkInt32Map {
  slots_ : option (list Slot);
  cap_ : Z;
  size_ : Z;
  tombstones_ : Z;
}.
Definition Int32Map_new : Int32Map := mkInt32Map None 0 0 0.
(** [*value_ptr_(slot)] *)
Definition value_of (s : Slot) : prog Int32Map T :=
  match storage s with Some v => mret v | None => undef "no object in the slot" end.

(** The loop of [probe_insert_or_find_], with [n] probes left *)
Fixpoint probe_loop (sl : list Slot) (cap key : Z) (n : nat) (idx step : Z) (tomb : option Z)
    : prog Int32Map (bool * Z) :=
  match n with
  | O => match tomb with None => throw "Int32Map is full" | Some t => mret (false, t) end
  | S n =>
      atZ sl idx ≫= λ s,
      let k := s_key s in
      if k =? key then mret (true, idx)
      else if k =? KEY_EMPTY then mret (false, default idx tomb)
      else
        let tomb := match tomb with
                    | None => if k =? KEY_TOMBSTONE then Some idx else None
                    | Some _ => tomb
                    end in
        let step := u32 (step + 1) in
        probe_loop sl cap key n (Z.land (u32 (idx + step)) (u32 (cap - 1))) step tomb
  end.
(** [probe_insert_or_find_(key, idx_out)] *)
Definition probe_insert_or_find (sl : list Slot) (cap key : Z) : prog Int32Map (bool * Z) :=
  check (0 <? cap) "probe on uninitialized map" ≫= λ _,
  probe_loop sl cap key (Z.to_nat cap) (Z.land (mix_hash key) (u32 (cap - 1))) 0 None.

(** The loop of [place_new_] *)
Fixpoint place_loop (arr : list Slot) (cap key : Z) (val : T) (n : nat) (idx step : Z)
    : prog Int32Map (list Slot) :=
  match n with
  | O => fatal "rehash placement failed"
  | S n =>
      atZ arr idx ≫= λ s,
      if (s_key s =? KEY_EMPTY) || (s_key s =? KEY_TOMBSTONE)
      then mret (<[Z.to_nat idx := mkSlot key (Some val)]> arr)
      else
        let step := u32 (step + 1) in
        place_loop arr cap key val n (Z.land (u32 (idx + step)) (u32 (cap - 1))) step
  end.
Definition place_new (arr : list Slot) (cap key : Z) (val : T) : prog Int32Map (list Slot) :=
  place_loop arr cap key val (Z.to_nat cap) (Z.land (mix_hash key) (u32 (cap - 1))) 0.

(** The loop of [rehash_] over the old slots [js]; the old array is deleted after it *)
Fixpoint rehash_loop (sl : list Slot) (new_cap : Z) (js : list Z) (fresh : list Slot)
    : prog Int32Map (list Slot) :=
  match js with
  | [] => mret fresh
  | i :: js =>
      atZ sl i ≫= λ s,
      (if is_filled (s_key s)
       then value_of s ≫= λ v, place_new fresh new_cap (s_key s) v
       else mret fresh) ≫= rehash_loop sl new_cap js
  end.
(** [rehash_(new_cap)] *)
Definition rehash (new_cap : Z) : prog Int32Map unit :=
  check ((Z.land new_cap (u32 (new_cap - 1)) =? 0) && (MIN_CAPACITY <=? new_cap))
        "new_cap is a power of two" ≫= λ _,
  get ≫= λ m,
  let fresh := replicate (Z.to_nat new_cap) Slot_new in
  (match slots_ m with
   | None => mret fresh
   | Some sl => rehash_loop sl new_cap (seqZ 0 (cap_ m)) fresh
   end) ≫= λ fresh,
  put (mkInt32Map (Some fresh) new_cap (size_ m) 0).

(** [maybe_rehash_after_erase_()] *)
Definition maybe_rehash_after_erase : prog Int32Map unit :=
  get ≫= λ m,
  match slots_ m with
  | None => mret ()
  | Some _ =>
      if size_ m =? 0 then put Int32Map_new
      else if (u64 (size_ m * 100) <? u64 (cap_ m * MIN_LOAD_PCT)) && (MIN_CAPACITY <=? cap_ m / 2)
      then rehash (cap_ m / 2)
      else mret ()
  end.

Definition check_key (key : Z) : prog Int32Map unit :=
  if (key =? KEY_EMPTY) || (key =? KEY_TOMBSTONE) then throw "invalid key" else mret ().

(** [contains(key)] *)
Definition contains (key : Z) : prog Int32Map bool :=
  check_key key ≫= λ _,
  get ≫= λ m,
  match slots_ m with
  | None => mret false
  | Some sl => probe_insert_or_find sl (cap_ m) key ≫= λ r : bool * Z, mret r.1
  end.

(** [find(key)]: the index of the iterator; [end()] is [cap_] *)
Definition find (key : Z) : prog Int32Map Z :=
  check_key key ≫= λ _,
  get ≫= λ m,
  match slots_ m with
  | None => mret (cap_ m)
  | Some sl =>
      probe_insert_or_find sl (cap_ m) key ≫= λ r : bool * Z,
      mret (if r.1 then r.2 else cap_ m)
  end.

(** [slots_[idx] = s] with the new counts *)
Definition put_slot (sl : list Slot) (idx : Z) (s : Slot) (size tombs : Z) : prog Int32Map unit :=
  get ≫= λ m,
  put (mkInt32Map (Some (<[Z.to_nat idx := s]> sl)) (cap_ m) (u32 size) (u32 tombs)).

(** [erase(key)] *)
Definition erase (key : Z) : prog Int32Map bool :=
  check_key key ≫= λ _,
  get ≫= λ m,
  match slots_ m with
  | None => mret false
  | Some sl =>
      probe_insert_or_find sl (cap_ m) key ≫= λ r : bool * Z,
      if negb r.1 then mret false
      else
        atZ sl r.2 ≫= λ s, value_of s ≫= λ _,
        put_slot sl r.2 (mkSlot KEY_TOMBSTONE None) (size_ m - 1) (tombstones_ m + 1) ≫= λ _,
        maybe_rehash_after_erase ≫= λ _, mret true
  end.

(** The allocation of the minimal table in [emplace] *)
Definition emplace_table : prog Int32Map unit :=
  get ≫= λ m,
  match slots_ m with
  | Some _ => mret ()
  | None => put (mkInt32Map (Some (replicate (Z.to_nat MIN_CAPACITY) Slot_new)) MIN_CAPACITY 0 0)
  end.
Definition the_slots : prog Int32Map (list Slot) :=
  get ≫= λ m, match slots_ m with Some sl => mret sl | None => undef "null slots" end.

(** The rehash of [emplace] before an empty slot is used *)
Definition emplace_grow (key idx : Z) : prog Int32Map Z :=
  get ≫= λ m,
  if u64 (cap_ m * MAX_LOAD_PCT) <? u64 (u32 (size_ m + tombstones_ m + 1) * 100) then
    (if u64 (u32 (size_ m + 1) * 100) <=? u64 (cap_ m * MAX_LOAD_PCT)
     then rehash (cap_ m)
     else rehash (u32 (cap_ m * 2))) ≫= λ _,
    get ≫= λ m, the_slots ≫= λ sl,
    probe_insert_or_find sl (cap_ m) key ≫= λ r : bool * Z,
    check (negb r.1) "found" ≫= λ _, mret r.2
  else mret idx.

(** [emplace(key, args...)], with [v] the object the arguments construct: the slot of the
    reference it returns, and the object there *)
Definition emplace (key : Z) (v : T) : prog Int32Map (Z * T) :=
  check_key key ≫= λ _,
  emplace_table ≫= λ _,
  get ≫= λ m, the_slots ≫= λ sl,
  probe_insert_or_find sl (cap_ m) key ≫= λ r : bool * Z,
  atZ sl r.2 ≫= λ s,
  if r.1 then value_of s ≫= λ v', mret (r.2, v')
  else if s_key s =? KEY_TOMBSTONE then
    put_slot sl r.2 (mkSlot key (Some v)) (size_ m + 1) (tombstones_ m - 1) ≫= λ _, mret (r.2, v)
  else
    emplace_grow key r.2 ≫= λ idx,
    get ≫= λ m, the_slots ≫= λ sl,
    atZ sl idx ≫= λ s,
    check (s_key s =? KEY_EMPTY) "slots_[idx].key == KEY_EMPTY" ≫= λ _,
    put_slot sl idx (mkSlot key (Some v)) (size_ m + 1) (tombstones_ m) ≫= λ _, mret (idx, v).

(** [advance_()] of the iterator, from slot [i] *)
Fixpoint advance (m : Int32Map) (n : nat) (i : Z) : prog Int32Map Z :=
  match n with
  | O => mret i
  | S n =>
      if cap_ m <=? i then mret i
      else
        match slots_ m with
        | None => undef "null slots"
        | Some sl =>
            atZ sl i ≫= λ s,
            if is_filled (s_key s) then mret i else advance m n (u32 (i + 1))
        end
  end.
(** The entries a loop from [begin()] to [end()] visits; the fuel is the number of slots *)
Fixpoint iterate (m : Int32Map) (n : nat) (i : Z) : prog Int32Map (list (Z * T)) :=
  match n with
  | O => mret []
  | S n =>
      advance m (Z.to_nat (cap_ m)) i ≫= λ i,
      if i =? cap_ m then mret []
      else
        match slots_ m with
        | None => undef "null slots"
        | Some sl =>
            atZ sl i ≫= λ s, value_of s ≫= λ v,
            iterate m n (u32 (i + 1)) ≫= λ l, mret ((s_key s, v) :: l)
        end
  end.
(** The move constructor: the new map and what it leaves behind *)
Definition Int32Map_move (o : Int32Map) : Int32Map * Int32Map := (o, Int32Map_new).
(** [destroy_all_()] *)
Definition destroy_all (m : Int32Map) : Int32Map :=
  match slots_ m with
  | None => m
  | Some sl => mkInt32Map (Some ((λ s, if is_filled (s_key s) then Slot_new else s) <$> sl)) (cap_ m) 0 0
  end.

Definition entries_of : prog Int32Map (list (Z * T)) :=
  get ≫= λ m, iterate m (S (Z.to_nat (cap_ m))) 0.
End map.
Arguments Slot T : clear implicits.
Arguments Int32Map T : clear implicits.

(** ** Triangular probing *)

(** The slot of probe [j] of a key whose hash is [h] *)
Definition tri (cap h j : Z) : Z := (h + j * (j + 1) / 2) mod cap.

Lemma tri_range cap h j : 0 < cap → 0 ≤ tri cap h j < cap.
Proof. intros. by apply Z.mod_pos_bound. Qed.
Lemma triangle_succ j : (j + 1) * (j + 1 + 1) / 2 = j * (j + 1) / 2 + (j + 1).
Proof.
  replace ((j + 1) * (j + 1 + 1)) with (j * (j + 1) + (j + 1) * 2) by ring.
  by rewrite Z.div_add by done.
Qed.
Lemma triangle_even j : 2 * (j * (j + 1) / 2) = j * (j + 1).
Proof.
  symmetry. apply Z.div_exact; [done|]. destruct (Z.Even_or_Odd j) as [[m ->]|[m ->]].
  - replace (2 * m * (2 * m + 1)) with (m * (2 * m + 1) * 2) by ring. apply Z.mod_mul; lia.
  - replace ((2 * m + 1) * (2 * m + 1 + 1)) with ((2 * m + 1) * (m + 1) * 2) by ring.
    apply Z.mod_mul; lia.
Qed.
Lemma tri_succ cap h j : 0 < cap → (tri cap h j + (j + 1)) mod cap = tri cap h (j + 1).
Proof.
  intros. unfold tri. rewrite Zplus_mod_idemp_l, triangle_succ. f_equal. ring.
Qed.

Lemma odd_divide_pow2 k a b : 0 ≤ k → Z.Odd a → (2 ^ k | a * b) → (2 ^ k | b).
Proof.
  intros Hk [m ->] Hd. apply (Z.gauss _ (2 * m + 1)); [done|].
  apply Z.coprime_pow_l; [done|]. assert (Z.Bezout 2 (2 * m + 1) 1) as Hb by (exists (- m), 1; ring).
  exact (Z.coprime_Bezout _ _ Hb).
Qed.

(** Different probes of a key look at different slots. *)
Lemma tri_inj k h i j :
  0 ≤ k → 0 ≤ i < 2 ^ k → 0 ≤ j < 2 ^ k → tri (2 ^ k) h i = tri (2 ^ k) h j → i = j.
Proof.
  intros Hk. pose proof (Z.pow_pos_nonneg 2 k ltac:(lia) Hk).
  revert i j. cut (∀ i j, 0 ≤ i < j → j < 2 ^ k → tri (2 ^ k) h i ≠ tri (2 ^ k) h j).
  { intros Hlt i j Hi Hj E. destruct (Z.lt_trichotomy i j) as [?|[?|?]]; [|done|]; exfalso.
    - eapply (Hlt i j); [lia..|done].
    - eapply (Hlt j i); [lia..|done]. }
  intros i j Hij Hj E. unfold tri in E. symmetry in E.
  apply Z.cong_iff_ex in E.
  assert (2 ^ (k + 1) | (j - i) * (j + i + 1)) as Hd.
  { destruct E as [q Hq]. exists q. rewrite Z.pow_add_r, Z.pow_1_r by lia.
    pose proof (triangle_even i). pose proof (triangle_even j). nia. }
  assert (∀ x, 0 < x < 2 ^ (k + 1) → ¬ (2 ^ (k + 1) | x)) as Hno.
  { intros x Hx Hdx. apply Z.divide_pos_le in Hdx; lia. }
  rewrite Z.pow_add_r, Z.pow_1_r in Hno by lia.
  destruct (Z.Even_or_Odd (j - i)) as [[m Hm]|Ho].
  - apply (Hno (j - i)); [lia|]. rewrite Z.mul_comm in Hd.
    rewrite <-(Z.pow_1_r 2) at 2. rewrite <-Z.pow_add_r by lia.
    eapply odd_divide_pow2; [lia| |done]. exists (m + i). lia.
  - apply (Hno (j + i + 1)); [lia|].
    rewrite <-(Z.pow_1_r 2) at 2. rewrite <-Z.pow_add_r by lia.
    by eapply odd_divide_pow2; [lia| |].
Qed.

(** The probes of a key in a table of [2 ^ k] slots visit every slot exactly once. *)
Lemma tri_permutation k h :
  0 ≤ k → tri (2 ^ k) h <$> seqZ 0 (2 ^ k) ≡ₚ seqZ 0 (2 ^ k).
Proof.
  intros Hk. pose proof (Z.pow_pos_nonneg 2 k ltac:(lia) Hk).
  apply submseteq_length_Permutation; [|by rewrite length_fmap].
  apply NoDup_submseteq.
  - apply NoDup_fmap_2_strong; [|apply NoDup_seqZ].
    intros i j Hi%elem_of_seqZ Hj%elem_of_seqZ. apply tri_inj; lia.
  - intros x (j & -> & Hj)%list_elem_of_fmap. apply elem_of_seqZ. pose proof (tri_range (2 ^ k) h j). lia.
Qed.
Lemma tri_covers k h x : 0 ≤ k → 0 ≤ x < 2 ^ k → ∃ j, 0 ≤ j < 2 ^ k ∧ tri (2 ^ k) h j = x.
Proof.
  intros Hk Hx. assert (x ∈ seqZ 0 (2 ^ k)) as Hin by (apply elem_of_seqZ; lia).
  rewrite <-(tri_permutation k h), list_elem_of_fmap in Hin by done.
  destruct Hin as (j & -> & Hj%elem_of_seqZ). exists j. split; [lia|done].
Qed.

(** ** What an array of slots represents *)

Section table.
Context {T : Type}.
Implicit Types (sl : list (Slot T)) (s : Slot T) (m : Int32Map T).

Definition entry s : option (Z * T) :=
  if is_filled (s_key s) then pair (s_key s) <$> storage s else None.
Definition entries sl : list (Z * T) := omap entry sl.
Definition dict sl : gmap Z T := list_to_map (entries sl).
Definition tombs sl : nat := length (filter (λ s, s_key s = KEY_TOMBSTONE) sl).

(** The first [j] probes of a key with hash [h] find no empty slot. *)
Definition path sl (cap h j : Z) : Prop :=
  ∀ i, 0 ≤ i < j → ∃ s, sl !! Z.to_nat (tri cap h i) = Some s ∧ s_key s ≠ KEY_EMPTY.

Definition int32 (k : Z) : Prop := - 2 ^ 31 ≤ k < 2 ^ 31.
Record table_ok (cap : Z) sl : Prop := {
  t_cap : ∃ k, 1 ≤ k ≤ 31 ∧ cap = 2 ^ k;
  t_len : Z.of_nat (length sl) = cap;
  t_slot : ∀ i s, sl !! i = Some s → is_filled (s_key s) = true → is_Some (storage s) ∧ int32 (s_key s);
  t_keys : NoDup (entries sl).*1;
  t_reach : ∀ i s, sl !! i = Some s → is_filled (s_key s) = true →
    ∃ j, 0 ≤ j < cap ∧ Z.to_nat (tri cap (mix_hash (s_key s)) j) = i ∧
         path sl cap (mix_hash (s_key s)) j;
}.

Lemma is_filled_false k : is_filled k = false ↔ k = KEY_EMPTY ∨ k = KEY_TOMBSTONE.
Proof.
  unfold is_filled. rewrite andb_false_iff, !negb_false_iff, !Z.eqb_eq. done.
Qed.
Lemma is_filled_true k : is_filled k = true ↔ k ≠ KEY_EMPTY ∧ k ≠ KEY_TOMBSTONE.
Proof. rewrite <-not_false_iff_true, is_filled_false. tauto. Qed.

Lemma table_cap cap sl : table_ok cap sl → 2 ≤ cap ≤ 2 ^ 31.
Proof.
  intros Ht. destruct (t_cap _ _ Ht) as (k & Hk & ->). split.
  - change 2 with (2 ^ 1) at 1. apply Z.pow_le_mono_r; lia.
  - apply Z.pow_le_mono_r; lia.
Qed.
Lemma table_lookup cap sl x : table_ok cap sl → 0 ≤ x < cap → ∃ s, sl !! Z.to_nat x = Some s.
Proof. intros Ht Hx. apply lookup_lt_is_Some_2. pose proof (t_len _ _ Ht). lia. Qed.

Lemma entries_app l1 l2 : entries (l1 ++ l2) = entries l1 ++ entries l2.
Proof. apply omap_app. Qed.
Lemma entries_mid l1 s l2 :
  entries (l1 ++ s :: l2) = entries l1 ++ option_list (entry s) ++ entries l2.
Proof. rewrite entries_app. f_equal. unfold entries. simpl. by destruct (entry s). Qed.
Lemma list_mid {A} (l : list A) i x y :
  l !! i = Some x → ∃ l1 l2, l = l1 ++ x :: l2 ∧ <[i := y]> l = l1 ++ y :: l2 ∧ length l1 = i.
Proof.
  intros Hi. exists (take i l), (drop (S i) l). pose proof (lookup_lt_Some _ _ _ Hi).
  split; [by rewrite take_drop_middle|]. split; [by apply insert_take_drop|]. rewrite length_take. lia.
Qed.
(** Filling a free slot, and emptying a filled one *)
Lemma entries_fill sl i s0 s k v :
  sl !! i = Some s0 → entry s0 = None → entry s = Some (k, v) →
  entries (<[i := s]> sl) ≡ₚ (k, v) :: entries sl.
Proof.
  intros Hi H0 H1. destruct (list_mid sl i s0 s Hi) as (l1 & l2 & -> & -> & _).
  rewrite !entries_mid, H0, H1. simpl. by rewrite Permutation_middle.
Qed.
Lemma entries_drop sl i s0 s k v :
  sl !! i = Some s0 → entry s0 = Some (k, v) → entry s = None →
  entries sl ≡ₚ (k, v) :: entries (<[i := s]> sl).
Proof.
  intros Hi H0 H1. destruct (list_mid sl i s0 s Hi) as (l1 & l2 & -> & -> & _).
  rewrite !entries_mid, H0, H1. simpl. by rewrite Permutation_middle.
Qed.
Definition tomb1 s : nat := if decide (s_key s = KEY_TOMBSTONE) then 1 else 0.
Lemma tombs_insert sl i s0 s :
  sl !! i = Some s0 → (tombs (<[i := s]> sl) + tomb1 s0 = tombs sl + tomb1 s)%nat.
Proof.
  intros Hi. destruct (list_mid sl i s0 s Hi) as (l1 & l2 & -> & -> & _). unfold tombs, tomb1.
  rewrite !filter_app, !filter_cons, !length_app. repeat case_decide; simpl; lia.
Qed.

Lemma entry_some s k v : entry s = Some (k, v) ↔ is_filled k = true ∧ s = mkSlot k (Some v).
Proof.
  unfold entry. destruct s as [k' o]; simpl. split.
  - destruct (is_filled k') eqn:E; [|done]. destruct o; simpl; naive_solver.
  - intros [Hk [= -> ->]]. by rewrite Hk.
Qed.
Lemma elem_of_entries sl k v :
  (k, v) ∈ entries sl ↔ is_filled k = true ∧ ∃ i, sl !! i = Some (mkSlot k (Some v)).
Proof.
  unfold entries. rewrite list_elem_of_omap. split.
  - intros (s & (i & Hi)%list_elem_of_lookup & [Hk ->]%entry_some). eauto.
  - intros [Hk [i Hi]]. exists (mkSlot k (Some v)). split; [by eapply list_elem_of_lookup_2|by apply entry_some].
Qed.
(** A key is in one slot only. *)
Lemma slot_unique cap sl i j s t :
  table_ok cap sl → sl !! i = Some s → sl !! j = Some t →
  is_filled (s_key s) = true → s_key s = s_key t → i = j.
Proof.
  intros Ht Hi Hj Hf Hk. destruct (decide (i = j)) as [|Hne]; [done|exfalso].
  destruct (t_slot _ _ Ht i s Hi Hf) as [[v Hv] _].
  assert (is_filled (s_key t) = true) as Hf' by (by rewrite <-Hk).
  destruct (t_slot _ _ Ht j t Hj Hf') as [[w Hw] _].
  pose proof (t_keys _ _ Ht) as Hnd.
  assert (entry s = Some (s_key s, v)) as Hs by (unfold entry; by rewrite Hf, Hv).
  rewrite (entries_drop sl i s (mkSlot KEY_TOMBSTONE None) _ _ Hi Hs) in Hnd by done.
  apply NoDup_cons in Hnd as [Hno _]. apply Hno. apply list_elem_of_fmap. exists (s_key t, w). split; [done|].
  apply elem_of_entries. split; [done|]. exists j. rewrite list_lookup_insert_ne by done.
  rewrite Hj. f_equal. destruct t; simpl in *; by subst.
Qed.
Lemma dict_lookup cap sl k v :
  table_ok cap sl → dict sl !! k = Some v ↔ is_filled k = true ∧ ∃ i, sl !! i = Some (mkSlot k (Some v)).
Proof.
  intros Ht. rewrite <-elem_of_entries. symmetry. apply elem_of_list_to_map, Ht.
Qed.
Lemma dict_size cap sl : table_ok cap sl → base.size (dict sl) = length (entries sl).
Proof. intros Ht. unfold dict. by apply map_size_list_to_map, Ht. Qed.

(** ** Probing *)

Lemma land_cap k x : 0 ≤ k ≤ 31 → Z.land x (u32 (2 ^ k - 1)) = x mod 2 ^ k.
Proof.
  intros Hk. pose proof (Z.pow_pos_nonneg 2 k). assert (2 ^ k ≤ 2 ^ 31) by (apply Z.pow_le_mono_r; lia).
  rewrite u32_id by lia. rewrite <-Z.land_ones by lia. by rewrite Z.ones_equiv, Z.sub_1_r.
Qed.
Lemma probe_start cap sl key :
  table_ok cap sl → Z.land (mix_hash key) (u32 (cap - 1)) = tri cap (mix_hash key) 0.
Proof.
  intros Ht. destruct (t_cap _ _ Ht) as (k & Hk & ->). rewrite land_cap by lia.
  unfold tri. by rewrite Z.add_0_r.
Qed.
Lemma probe_next cap sl h j :
  table_ok cap sl → 0 ≤ j < cap →
  Z.land (u32 (tri cap h j + u32 (j + 1))) (u32 (cap - 1)) = tri cap h (j + 1).
Proof.
  intros Ht Hj. pose proof (table_cap _ _ Ht). pose proof (tri_range cap h j).
  rewrite (u32_id (j + 1)), u32_id by lia. destruct (t_cap _ _ Ht) as (k & Hk & ->).
  rewrite land_cap by lia. apply tri_succ. lia.
Qed.

(** The first tombstone among the probes before [j] *)
Definition tomb_upto sl (cap h j : Z) (tomb : option Z) : Prop :=
  match tomb with
  | None => ∀ i s, 0 ≤ i < j → sl !! Z.to_nat (tri cap h i) = Some s → s_key s ≠ KEY_TOMBSTONE
  | Some t => ∃ i s, 0 ≤ i < j ∧ t = tri cap h i ∧ sl !! Z.to_nat t = Some s ∧ s_key s = KEY_TOMBSTONE
  end.
(** What a probe finds: the slot of the key, or a free slot on its path when no slot that the
    key's path reaches holds it. *)
Definition probed sl (cap h key : Z) (r : bool * Z) : Prop :=
  if r.1 then ∃ s, 0 ≤ r.2 ∧ sl !! Z.to_nat r.2 = Some s ∧ s_key s = key
  else (∃ j s, 0 ≤ j < cap ∧ r.2 = tri cap h j ∧ path sl cap h j ∧
          sl !! Z.to_nat r.2 = Some s ∧ is_filled (s_key s) = false) ∧
       ∀ i s, 0 ≤ i < cap → path sl cap h i → sl !! Z.to_nat (tri cap h i) = Some s → s_key s ≠ key.

Lemma path_mono sl cap h i j : i ≤ j → path sl cap h j → path sl cap h i.
Proof. intros Hij Hp x Hx. apply Hp. lia. Qed.
Lemma path_snoc sl cap h j s :
  path sl cap h j → sl !! Z.to_nat (tri cap h j) = Some s → s_key s ≠ KEY_EMPTY → path sl cap h (j + 1).
Proof.
  intros Hp Hs Hk i Hi. destruct (decide (i = j)) as [->|]; [by exists s|]. apply Hp. lia.
Qed.

Lemma probe_loop_ok m cap sl key h n j tomb :
  table_ok cap sl → is_filled key = true → 0 ≤ j → j + Z.of_nat n = cap →
  path sl cap h j → tomb_upto sl cap h j tomb →
  (∀ i s, 0 ≤ i < j → sl !! Z.to_nat (tri cap h i) = Some s → s_key s ≠ key) →
  (∃ i s, sl !! i = Some s ∧ is_filled (s_key s) = false) →
  ∃ r, probe_loop sl cap key n (tri cap h j) j tomb m = Done r m ∧ probed sl cap h key r.
Proof.
  intros Ht Hk. pose proof (table_cap _ _ Ht) as Hcap. revert j tomb.
  induction n as [|n IH]; intros j tomb Hj Hn Hp Htomb Hno Hfree.
  - assert (j = cap) as -> by lia. destruct tomb as [t|]; simpl.
    + exists (false, t). split; [done|]. destruct Htomb as (i & s & Hi & -> & Hs & Hsk). split.
      * exists i, s. repeat split; [lia..| |done|by apply is_filled_false; right]. by eapply path_mono; [|done]; lia.
      * intros i' s' Hi' _. by apply Hno.
    + exfalso. destruct Hfree as (i & s & Hi & [He|He]%is_filled_false);
        destruct (t_cap _ _ Ht) as (k & Hk' & ->);
        pose proof (lookup_lt_Some _ _ _ Hi); pose proof (t_len _ _ Ht);
        destruct (tri_covers k h (Z.of_nat i) ltac:(lia) ltac:(lia)) as (j & Hj' & Hji).
      * destruct (Hp j Hj') as (s' & Hs' & Hne). rewrite Hji, Nat2Z.id, Hi in Hs'. by simplify_eq.
      * apply (Htomb j s); [done| |done]. by rewrite Hji, Nat2Z.id.
  - cbn [probe_loop]. pose proof (tri_range cap h j ltac:(lia)) as Hr.
    destruct (table_lookup cap sl (tri cap h j) Ht Hr) as [s Hs].
    unfold mbind at 1, prog_bind. rewrite (atZ_done sl (tri cap h j) s) by (done || lia).
    destruct (Z.eqb_spec (s_key s) key) as [E|E].
    { exists (true, tri cap h j). split; [done|]. exists s. split; [simpl; lia|done]. }
    destruct (Z.eqb_spec (s_key s) KEY_EMPTY) as [E'|E'].
    { exists (false, default (tri cap h j) tomb). split; [done|]. split.
      - destruct tomb as [t|]; simpl.
        + destruct Htomb as (i & s' & Hi & -> & Hs' & Hsk). exists i, s'.
          repeat split; [lia..| |done|by apply is_filled_false; right]. by eapply path_mono; [|done]; lia.
        + exists j, s. repeat split; [lia..|done|done|by apply is_filled_false; left].
      - intros i s' Hi Hpi Hs'. destruct (Z.lt_trichotomy i j) as [?|[->|?]].
        + by apply (Hno i s'); [lia|].
        + by rewrite Hs in Hs'; simplify_eq.
        + destruct (Hpi j ltac:(lia)) as (s'' & Hs'' & Hne). rewrite Hs in Hs''. by simplify_eq. }
    rewrite (probe_next cap sl) by (done || lia). rewrite (u32_id (j + 1)) by lia.
    apply IH; [lia..|by eapply path_snoc| | |done].
    + destruct tomb as [t|]; simpl.
      * destruct Htomb as (i & s' & Hi & ?). exists i, s'. split; [lia|done].
      * destruct (Z.eqb_spec (s_key s) KEY_TOMBSTONE) as [E2|E2]; simpl.
        -- exists j, s. split; [lia|done].
        -- intros i s' Hi Hs'. destruct (decide (i = j)) as [->|]; [|apply (Htomb i s'); [lia|done]].
           by rewrite Hs in Hs'; simplify_eq.
    + intros i s' Hi Hs'. destruct (decide (i = j)) as [->|]; [|apply (Hno i s'); [lia|done]].
      by rewrite Hs in Hs'; simplify_eq.
Qed.

Lemma probe_found cap sl key s i :
  table_ok cap sl → is_filled key = true → sl !! i = Some s → s_key s = key →
  ∃ v, s = mkSlot key (Some v) ∧ dict sl !! key = Some v.
Proof.
  intros Ht Hf Hi Hk. assert (is_filled (s_key s) = true) as Hf' by (by rewrite Hk).
  destruct (t_slot _ _ Ht i s Hi Hf') as [[v Hv] _]. exists v.
  assert (s = mkSlot key (Some v)) as -> by (destruct s; naive_solver).
  split; [done|]. apply (dict_lookup _ _ _ _ Ht). eauto.
Qed.
Lemma probed_absent cap sl key j r2 :
  table_ok cap sl → is_filled key = true →
  (∀ i s, 0 ≤ i < cap → path sl cap (mix_hash key) i →
     sl !! Z.to_nat (tri cap (mix_hash key) i) = Some s → s_key s ≠ key) →
  r2 = tri cap (mix_hash key) j → dict sl !! key = None.
Proof.
  intros Ht Hf Hno _. apply eq_None_not_Some. intros [v Hv]. apply (dict_lookup _ _ _ _ Ht) in Hv as [_ [i Hi]].
  destruct (t_reach _ _ Ht i _ Hi Hf) as (j' & Hj' & <- & Hp). simpl in *. by eapply Hno.
Qed.

(** [probe_insert_or_find_] on a table with a free slot finds the key exactly when the table
    holds it, and otherwise a free slot on the key's path; it never reports a full table. *)
Lemma probe_ok m cap sl key :
  table_ok cap sl → is_filled key = true → (∃ i s, sl !! i = Some s ∧ is_filled (s_key s) = false) →
  ∃ r, probe_insert_or_find sl cap key m = Done r m ∧
    match dict sl !! key with
    | Some v => r.1 = true ∧ 0 ≤ r.2 ∧ sl !! Z.to_nat r.2 = Some (mkSlot key (Some v))
    | None => r.1 = false ∧ ∃ j s, 0 ≤ j < cap ∧ r.2 = tri cap (mix_hash key) j ∧
        path sl cap (mix_hash key) j ∧ sl !! Z.to_nat r.2 = Some s ∧ is_filled (s_key s) = false
    end.
Proof.
  intros Ht Hk Hfree. pose proof (table_cap _ _ Ht).
  destruct (probe_loop_ok m cap sl key (mix_hash key) (Z.to_nat cap) 0 None Ht Hk) as ([b i] & Hr & Hp);
    [lia|lia|by intros ??; lia|by intros ???; lia|by intros ???; lia|done|].
  exists (b, i). split.
  { unfold probe_insert_or_find. rewrite (probe_start cap sl) by done.
    by destruct (Z.ltb_spec 0 cap); [|lia]. }
  unfold probed in Hp. simpl in *. destruct b.
  - destruct Hp as (s & Hi & Hs & Hsk).
    destruct (probe_found cap sl key s (Z.to_nat i)) as (v & -> & ->); [done..|]. done.
  - destruct Hp as [(j & s & Hj & -> & Hpj) Hno].
    rewrite (probed_absent cap sl key j _ Ht Hk Hno eq_refl). split; [done|]. by exists j, s.
Qed.

(** ** Updates of the table *)

Lemma path_insert sl cap h j i s : path sl cap h j → s_key s ≠ KEY_EMPTY → path (<[i := s]> sl) cap h j.
Proof.
  intros Hp Hs x Hx. destruct (Hp x Hx) as (s' & Hs' & Hk). rewrite list_lookup_insert.
  case_decide as E; [|by eauto]. eauto.
Qed.

(** A new key goes into a free slot on its path. *)
Lemma table_fill cap sl key v j s0 :
  table_ok cap sl → is_filled key = true → int32 key → dict sl !! key = None → 0 ≤ j < cap →
  path sl cap (mix_hash key) j →
  sl !! Z.to_nat (tri cap (mix_hash key) j) = Some s0 → is_filled (s_key s0) = false →
  let sl' := <[Z.to_nat (tri cap (mix_hash key) j) := mkSlot key (Some v)]> sl in
  table_ok cap sl' ∧ dict sl' = <[key := v]> (dict sl) ∧
  length (entries sl') = S (length (entries sl)) ∧ (tombs sl' + tomb1 s0 = tombs sl)%nat.
Proof.
  intros Ht Hf Hint Hnone Hj Hp Hs0 Hf0 sl'. set (i := Z.to_nat _) in *.
  assert (entry s0 = None) as He0 by (unfold entry; by rewrite Hf0).
  assert (entry (mkSlot key (Some v)) = Some (key, v)) as He by (unfold entry; simpl; by rewrite Hf).
  pose proof (entries_fill sl i s0 _ key v Hs0 He0 He) as Hperm. fold sl' in Hperm.
  assert (key ≠ KEY_EMPTY ∧ key ≠ KEY_TOMBSTONE) as [Hke Hkt] by by apply is_filled_true.
  assert (NoDup (entries sl').*1) as Hnd.
  { rewrite Hperm. simpl. apply NoDup_cons. split; [|apply Ht].
    intros ([k w] & -> & Hin)%list_elem_of_fmap. simpl in *.
    apply elem_of_entries in Hin. apply (dict_lookup _ _ _ _ Ht) in Hin. by rewrite Hnone in Hin. }
  split; [split|].
  - apply Ht.
  - unfold sl'. rewrite length_insert. apply Ht.
  - intros i' s Hi' Hfs. unfold sl' in Hi'. rewrite list_lookup_insert in Hi'. case_decide; simplify_eq/=.
    + split; [done|exact Hint].
    + by apply (t_slot _ _ Ht i').
  - done.
  - intros i' s Hi' Hfs. unfold sl' in Hi'. rewrite list_lookup_insert in Hi'. case_decide as E; simplify_eq/=.
    + exists j. destruct E as [E _]. split; [done|]. split; [exact E|]. by apply path_insert.
    + destruct (t_reach _ _ Ht i' s Hi' Hfs) as (j' & ? & ? & ?). exists j'.
      split; [done|]. split; [done|]. by apply path_insert.
  - split.
    + unfold dict. by rewrite (list_to_map_proper _ _ Hnd Hperm).
    + split; [by rewrite Hperm|]. pose proof (tombs_insert sl i s0 (mkSlot key (Some v)) Hs0) as Htb.
      fold sl' in Htb. unfold tomb1 in *. simpl in *. rewrite (decide_False (P := key = KEY_TOMBSTONE)) in Htb by done. lia.
Qed.

(** A key's slot becomes a tombstone. *)
Lemma table_drop cap sl key v i :
  table_ok cap sl → is_filled key = true → sl !! i = Some (mkSlot key (Some v)) →
  let sl' := <[i := mkSlot KEY_TOMBSTONE None]> sl in
  table_ok cap sl' ∧ dict sl' = delete key (dict sl) ∧
  length (entries sl) = S (length (entries sl')) ∧ tombs sl' = S (tombs sl).
Proof.
  intros Ht Hf Hi sl'.
  assert (entry (mkSlot key (Some v)) = Some (key, v)) as He by (unfold entry; simpl; by rewrite Hf).
  pose proof (entries_drop sl i _ (mkSlot KEY_TOMBSTONE None) key v Hi He eq_refl) as Hperm. fold sl' in Hperm.
  assert (key ≠ KEY_EMPTY ∧ key ≠ KEY_TOMBSTONE) as [Hke Hkt] by by apply is_filled_true.
  pose proof (t_keys _ _ Ht) as Hnd. rewrite Hperm in Hnd. simpl in Hnd. apply NoDup_cons in Hnd as [Hno Hnd].
  split; [split|].
  - apply Ht.
  - unfold sl'. rewrite length_insert. apply Ht.
  - intros i' s Hi' Hfs. unfold sl' in Hi'. rewrite list_lookup_insert in Hi'.
    case_decide; simplify_eq/=. by apply (t_slot _ _ Ht i').
  - done.
  - intros i' s Hi' Hfs. unfold sl' in Hi'. rewrite list_lookup_insert in Hi'. case_decide; simplify_eq/=.
    destruct (t_reach _ _ Ht i' s Hi' Hfs) as (j' & ? & ? & ?). exists j'.
    split; [done|]. split; [done|]. by apply path_insert.
  - split.
    + unfold dict. rewrite (list_to_map_proper _ _ (t_keys _ _ Ht) Hperm). simpl.
      rewrite delete_insert_id; [done|]. by apply not_elem_of_list_to_map_1.
    + split; [by rewrite Hperm|]. pose proof (tombs_insert sl i _ (mkSlot KEY_TOMBSTONE None) Hi) as Htb.
      fold sl' in Htb. unfold tomb1 in *. simpl in *. rewrite (decide_False (P := key = KEY_TOMBSTONE)) in Htb by done. lia.
Qed.

(** ** Rehashing *)

Lemma free_slot cap sl :
  table_ok cap sl → Z.of_nat (length (entries sl)) < cap →
  ∃ i s, sl !! i = Some s ∧ is_filled (s_key s) = false.
Proof.
  intros Ht Hlt. destruct (decide (Exists (λ s, is_filled (s_key s) = false) sl)) as [He|Hno].
  { apply Exists_exists in He as (s & [i Hi]%list_elem_of_lookup & Hs). eauto. }
  exfalso. apply not_Exists_Forall in Hno; [|intros s; apply _].
  assert (length (entries sl) = length sl) as Hl; [|rewrite Hl, (t_len _ _ Ht) in Hlt; lia].
  assert (∀ i s, sl !! i = Some s → is_filled (s_key s) = true → is_Some (storage s)) as Hst.
  { intros i s Hi Hf. by apply (t_slot _ _ Ht i s). }
  clear Ht Hlt. induction sl as [|s sl IH]; [done|].
  apply Forall_cons in Hno as [Hs%not_false_iff_true Hno]. destruct (Hst 0%nat s) as [v Hv]; [done..|].
  unfold entries. simpl. unfold entry at 1. rewrite Hs, Hv. simpl. f_equal. apply IH; [done|].
  intros i s' Hi. apply (Hst (S i)). done.
Qed.

Lemma place_loop_ok m cap sl key v h n j :
  table_ok cap sl → is_filled key = true → 0 ≤ j → j + Z.of_nat n = cap →
  (∀ i s, 0 ≤ i < j → sl !! Z.to_nat (tri cap h i) = Some s → is_filled (s_key s) = true) →
  (∃ i s, sl !! i = Some s ∧ is_filled (s_key s) = false) →
  ∃ j' s, 0 ≤ j' < cap ∧ path sl cap h j' ∧ sl !! Z.to_nat (tri cap h j') = Some s ∧
    is_filled (s_key s) = false ∧
    place_loop sl cap key v n (tri cap h j) j m = Done (<[Z.to_nat (tri cap h j') := mkSlot key (Some v)]> sl) m.
Proof.
  intros Ht Hk. pose proof (table_cap _ _ Ht) as Hcap. revert j.
  induction n as [|n IH]; intros j Hj Hn Hp Hfree.
  - assert (j = cap) as -> by lia. exfalso. destruct Hfree as (i & s & Hi & Hf).
    destruct (t_cap _ _ Ht) as (k & Hk' & ->). pose proof (lookup_lt_Some _ _ _ Hi). pose proof (t_len _ _ Ht).
    destruct (tri_covers k h (Z.of_nat i) ltac:(lia) ltac:(lia)) as (j & Hj' & Hji).
    rewrite (Hp j s) in Hf; [done|done|]. by rewrite Hji, Nat2Z.id.
  - cbn [place_loop]. pose proof (tri_range cap h j ltac:(lia)) as Hr.
    destruct (table_lookup cap sl (tri cap h j) Ht Hr) as [s Hs].
    unfold mbind at 1, prog_bind. rewrite (atZ_done sl (tri cap h j) s) by (done || lia).
    assert (path sl cap h j) as Hpath.
    { intros i Hi. destruct (table_lookup cap sl (tri cap h i) Ht) as [s' Hs']; [apply tri_range; lia|].
      exists s'. split; [done|]. eapply is_filled_true, Hp; done. }
    destruct ((s_key s =? KEY_EMPTY) || (s_key s =? KEY_TOMBSTONE)) eqn:E.
    + exists j, s. split; [lia|]. split; [done|]. split; [done|]. split; [|done].
      apply is_filled_false. apply orb_true_iff in E. by rewrite !Z.eqb_eq in E.
    + rewrite (probe_next cap sl) by (done || lia). rewrite (u32_id (j + 1)) by lia.
      apply IH; [lia..| |done]. intros i s' Hi Hs'. destruct (decide (i = j)) as [->|].
      * rewrite Hs in Hs'. simplify_eq. apply is_filled_true. apply orb_false_iff in E.
        by rewrite !Z.eqb_neq in E.
      * apply (Hp i s'); [lia|done].
Qed.
Lemma place_ok m cap sl key v :
  table_ok cap sl → is_filled key = true → int32 key → dict sl !! key = None →
  Z.of_nat (length (entries sl)) < cap →
  ∃ sl', place_new sl cap key v m = Done sl' m ∧ table_ok cap sl' ∧
    entries sl' ≡ₚ (key, v) :: entries sl ∧ (tombs sl' ≤ tombs sl)%nat.
Proof.
  intros Ht Hk Hint Hnone Hlt. pose proof (table_cap _ _ Ht).
  destruct (place_loop_ok m cap sl key v (mix_hash key) (Z.to_nat cap) 0 Ht Hk) as (j & s & Hj & Hp & Hs & Hf & Hrun);
    [lia|lia|by intros ???; lia|by eapply free_slot|].
  destruct (table_fill cap sl key v j s) as (Ht' & _ & _ & Htb); [done..|].
  eexists. split; [unfold place_new; rewrite (probe_start cap sl) by done; exact Hrun|].
  split; [done|]. split; [|lia]. apply (entries_fill sl _ s); [done| |].
  - unfold entry. by rewrite Hf.
  - unfold entry. simpl. by rewrite Hk.
Qed.

Definition entry_at sl (j : Z) : option (Z * T) := sl !! Z.to_nat j ≫= entry.

Definition entries_at sl (js : list Z) : list (Z * T) := omap (entry_at sl) js.
Lemma entries_at_cons sl j js :
  entries_at sl (j :: js) = match entry_at sl j with Some e => e :: entries_at sl js | None => entries_at sl js end.
Proof. done. Qed.

Lemma rehash_loop_ok m cap sl new_cap js fresh :
  table_ok cap sl → (∀ j, j ∈ js → 0 ≤ j < cap) → table_ok new_cap fresh → tombs fresh = 0%nat →
  NoDup (entries_at sl js ++ entries fresh).*1 →
  Z.of_nat (length (entries_at sl js ++ entries fresh)) < new_cap →
  ∃ fresh', rehash_loop sl new_cap js fresh m = Done fresh' m ∧ table_ok new_cap fresh' ∧
    tombs fresh' = 0%nat ∧ entries fresh' ≡ₚ entries_at sl js ++ entries fresh.
Proof.
  intros Ht. revert fresh. induction js as [|j js IH]; intros fresh Hjs Hf Htb Hnd Hlt; [by exists fresh|].
  destruct (table_lookup cap sl j Ht) as [s Hs]; [apply Hjs; by left|].
  assert (0 ≤ j) by (apply Hjs; by left).
  cbn [rehash_loop]. unfold mbind at 1, prog_bind. rewrite (atZ_done sl j s) by done.
  rewrite entries_at_cons in Hnd, Hlt |- *.
  destruct (is_filled (s_key s)) eqn:Ef.
  - destruct (t_slot _ _ Ht _ s Hs Ef) as [[v Hv] Hint].
    assert (entry_at sl j = Some (s_key s, v)) as He.
    { unfold entry_at. rewrite Hs. simpl. unfold entry. by rewrite Ef, Hv. }
    rewrite He in Hnd, Hlt |- *. rewrite <-app_comm_cons, fmap_cons in Hnd. apply NoDup_cons in Hnd as [Hno Hnd].
    simpl length in Hlt.
    destruct (place_ok m new_cap fresh (s_key s) v Hf Ef Hint) as (f1 & Hrun & Hf1 & Hp1 & Htb1).
    { apply not_elem_of_list_to_map_1. intros Hin. apply Hno. rewrite fmap_app. apply elem_of_app. by right. }
    { rewrite length_app in Hlt. lia. }
    destruct (IH f1) as (f2 & Hrun2 & Hf2 & Htb2 & Hp2); [intros; apply Hjs; by right|done|lia| | |].
    { rewrite Hp1. by rewrite <-Permutation_middle; simpl; apply NoDup_cons. }
    { assert (length (entries f1) = S (length (entries fresh))) as Hl by (by rewrite Hp1).
      rewrite length_app, Hl. rewrite length_app in Hlt. lia. }
    exists f2. split; [|split; [done|split; [done|]]].
    + unfold value_of, mbind, prog_bind. rewrite Hv. unfold mret, prog_ret. by rewrite Hrun.
    + rewrite Hp2, Hp1. by rewrite <-Permutation_middle.
  - assert (entry_at sl j = None) as He by (unfold entry_at; rewrite Hs; simpl; unfold entry; by rewrite Ef).
    rewrite He in Hnd, Hlt |- *. apply IH; [intros; apply Hjs; by right|done..].
Qed.

Lemma entries_indices cap sl : table_ok cap sl → entries_at sl (seqZ 0 cap) = entries sl.
Proof.
  intros Ht. rewrite <-(t_len _ _ Ht). clear Ht.
  cut (∀ l1 l2, entries_at (l1 ++ l2) (seqZ (Z.of_nat (length l1)) (Z.of_nat (length l2))) = entries l2).
  { intros H. apply (H [] sl). }
  intros l1 l2. revert l1. induction l2 as [|s l2 IH]; intros l1; [by rewrite seqZ_nil by (simpl; lia)|].
  rewrite seqZ_cons by (simpl; lia). rewrite entries_at_cons.
  assert (entry_at (l1 ++ s :: l2) (Z.of_nat (length l1)) = entry s) as ->.
  { unfold entry_at. by rewrite Nat2Z.id, list_lookup_middle. }
  specialize (IH (l1 ++ [s])). rewrite <-app_assoc in IH. simpl in IH.
  assert (Z.of_nat (length (l1 ++ [s])) = Z.succ (Z.of_nat (length l1))) as E1 by (rewrite length_app; simpl; lia).
  assert (Z.pred (Z.of_nat (length (s :: l2))) = Z.of_nat (length l2)) as E2 by (simpl; lia).
  rewrite E1 in IH. rewrite E2, IH. unfold entries. simpl. by destruct (entry s).
Qed.

Lemma table_new k : 1 ≤ k ≤ 31 → table_ok (2 ^ k) (replicate (Z.to_nat (2 ^ k)) Slot_new).
Proof.
  intros Hk. pose proof (Z.pow_pos_nonneg 2 k). split; [by exists k|rewrite length_replicate; lia| | |].
  - intros i s [-> _]%lookup_replicate. done.
  - assert (entries (replicate (Z.to_nat (2 ^ k)) Slot_new) = []) as ->; [|by constructor].
    unfold entries. by induction (Z.to_nat (2 ^ k)).
  - intros i s [-> _]%lookup_replicate. done.
Qed.
Lemma entries_new n : entries (replicate n Slot_new) = [].
Proof. unfold entries. by induction n. Qed.
Lemma tombs_new n : tombs (replicate n Slot_new) = 0%nat.
Proof. unfold tombs. induction n; [done|]. simpl. by rewrite filter_cons_False. Qed.

(** [rehash_] keeps the entries and drops the tombstones. *)
Lemma rehash_ok m sl k :
  slots_ m = Some sl → table_ok (cap_ m) sl → 1 ≤ k ≤ 31 → Z.of_nat (length (entries sl)) < 2 ^ k →
  ∃ sl', rehash (2 ^ k) m = Done () (mkInt32Map (Some sl') (2 ^ k) (size_ m) 0) ∧
    table_ok (2 ^ k) sl' ∧ dict sl' = dict sl ∧ length (entries sl') = length (entries sl) ∧
    tombs sl' = 0%nat.
Proof.
  intros Hsl Ht Hk Hlt. set (fresh := replicate (Z.to_nat (2 ^ k)) (@Slot_new T)).
  destruct (rehash_loop_ok m (cap_ m) sl (2 ^ k) (seqZ 0 (cap_ m)) fresh) as (sl' & Hrun & Ht' & Htb & Hp).
  - done.
  - intros j Hj%elem_of_seqZ. lia.
  - by apply table_new.
  - apply tombs_new.
  - rewrite (entries_indices _ _ Ht). unfold fresh. rewrite entries_new, app_nil_r. apply Ht.
  - rewrite (entries_indices _ _ Ht). unfold fresh. by rewrite entries_new, app_nil_r.
  - rewrite (entries_indices _ _ Ht) in Hp. unfold fresh in Hp. rewrite entries_new, app_nil_r in Hp.
    exists sl'. split; [|split; [done|split; [|split; [by rewrite Hp|done]]]].
    + assert (2 ≤ 2 ^ k) by (change 2 with (2 ^ 1) at 1; apply Z.pow_le_mono_r; lia).
      unfold rehash. assert (Z.land (2 ^ k) (u32 (2 ^ k - 1)) = 0) as E.
      { rewrite land_cap by lia. apply Z.mod_same. lia. }
      rewrite E. unfold MIN_CAPACITY. rewrite (proj2 (Z.leb_le 2 (2 ^ k))) by lia.
      unfold mbind, prog_bind, check, get, put. simpl. rewrite Hsl. fold fresh.
      unfold mbind, prog_bind in Hrun. by rewrite Hrun.
    + unfold dict. by rewrite (list_to_map_proper _ _ (t_keys _ _ Ht') Hp).
Qed.

(** ** The map and the finite map it represents *)

Record holds_table m sl : Prop := {
  ht_slots : slots_ m = Some sl;
  ht_table : table_ok (cap_ m) sl;
  ht_size : size_ m = Z.of_nat (length (entries sl));
  ht_tombs : tombstones_ m = Z.of_nat (tombs sl);
}.
(** At most three quarters of the slots are used, tombstones included, and with [extra] more
    entries at least a quarter of them is filled. *)
Definition load_ok m (extra : Z) : Prop :=
  (size_ m + tombstones_ m) * 100 ≤ cap_ m * 75 ∧ cap_ m * 25 ≤ (size_ m + extra) * 100.
Definition map_ok m (d : gmap Z T) : Prop :=
  match slots_ m with
  | None => m = Int32Map_new ∧ d = ∅
  | Some sl => holds_table m sl ∧ dict sl = d ∧ load_ok m 0
  end.

Lemma load_free m sl e : holds_table m sl → load_ok m e → ∃ i s, sl !! i = Some s ∧ is_filled (s_key s) = false.
Proof.
  intros [Hs Ht Hsz Htb] [Hl _]. apply (free_slot (cap_ m)); [done|]. pose proof (table_cap _ _ Ht). lia.
Qed.
Lemma holds_probe m sl e key :
  holds_table m sl → load_ok m e → is_filled key = true →
  ∃ r, probe_insert_or_find sl (cap_ m) key m = Done r m ∧
    match dict sl !! key with
    | Some v => r.1 = true ∧ 0 ≤ r.2 ∧ sl !! Z.to_nat r.2 = Some (mkSlot key (Some v))
    | None => r.1 = false ∧ ∃ j s, 0 ≤ j < cap_ m ∧ r.2 = tri (cap_ m) (mix_hash key) j ∧
        path sl (cap_ m) (mix_hash key) j ∧ sl !! Z.to_nat r.2 = Some s ∧ is_filled (s_key s) = false
    end.
Proof. intros Hh Hl Hk. apply probe_ok; [apply Hh|done|by eapply load_free]. Qed.

Lemma check_key_ok key (Q : unit → Int32Map T → Prop) m :
  is_filled key = true → Q () m → wp (check_key key) Q m.
Proof.
  intros [H1 H2]%is_filled_true HQ. unfold check_key.
  by rewrite (proj2 (Z.eqb_neq _ _) H1), (proj2 (Z.eqb_neq _ _) H2).
Qed.
Lemma check_key_throws {A} key (f : unit → prog (Int32Map T) A) m :
  is_filled key = false → (check_key key ≫= f) m = Throws "invalid key" m.
Proof. intros [->| ->]%is_filled_false; done. Qed.
Lemma wp_of_done {A} (p : prog (Int32Map T) A) Q m a m' : p m = Done a m' → Q a m' → wp p Q m.
Proof. unfold wp. by intros ->. Qed.

Lemma contains_ok key (d : gmap Z T) m :
  map_ok m d → is_filled key = true → contains key m = Done (bool_decide (is_Some (d !! key))) m.
Proof.
  intros Hm Hk. unfold contains, map_ok in *.
  assert (check_key key m = Done () m) as Hc.
  { assert (wp (check_key key) (λ _ m', m' = m) m) as Hwp by by apply check_key_ok.
    unfold wp in Hwp. destruct (check_key key m) as [[]| | |]; naive_solver. }
  unfold mbind, prog_bind, get. rewrite Hc. destruct (slots_ m) as [sl|].
  - destruct Hm as (Hh & <- & Hl). destruct (holds_probe m sl 0 key Hh Hl Hk) as ([b i] & -> & Hr).
    unfold mret, prog_ret. simpl in *. destruct (dict sl !! key); naive_solver.
  - destruct Hm as [_ ->]. by rewrite lookup_empty.
Qed.

(** The shrinking of [maybe_rehash_after_erase_] keeps the entries and the load. *)
Lemma maybe_rehash_ok m sl :
  holds_table m sl → load_ok m 1 → wp maybe_rehash_after_erase (λ _ m', map_ok m' (dict sl)) m.
Proof.
  intros [Hs Ht Hsz Htb] [Hl1 Hl2]. pose proof (table_cap _ _ Ht) as Hcap.
  unfold maybe_rehash_after_erase. wp_steps. rewrite Hs.
  destruct (Z.eqb_spec (size_ m) 0) as [E|E].
  { apply wp_put. split; [done|]. unfold dict. destruct (entries sl); [done|simpl in *; lia]. }
  rewrite !u64_id by (unfold MIN_LOAD_PCT; lia).
  destruct (t_cap _ _ Ht) as (k & Hk & Hck). rewrite Hck in *.
  destruct (_ && _) eqn:B.
  - apply andb_true_iff in B as [B1%Z.ltb_lt B2%Z.leb_le]. unfold MIN_LOAD_PCT, MIN_CAPACITY in *.
    assert (2 ≤ k) as Hk2.
    { destruct (decide (k = 1)) as [->|]; [done|lia]. }
    assert (2 ^ k = 2 * 2 ^ (k - 1)) as Ek by (rewrite <-Z.pow_succ_r by lia; f_equal; lia).
    assert (2 ^ k / 2 = 2 ^ (k - 1)) as -> by (rewrite Ek, Z.mul_comm; by apply Z.div_mul).
    destruct (rehash_ok m sl (k - 1)) as (sl' & Hrun & Ht' & Hd & Hn & Htb'); [done|by rewrite Hck|lia|lia|].
    eapply wp_of_done; [exact Hrun|]. unfold map_ok. simpl. split; [split; simpl; [done..|lia|lia]|].
    split; [done|]. unfold load_ok. simpl. split; [lia|].
    destruct (decide (k = 2)) as [->|]; [change (2 ^ 2) with 4 in *; change (2 ^ (2 - 1)) with 2; lia|].
    assert (2 ^ 3 ≤ 2 ^ k) by (apply Z.pow_le_mono_r; lia). lia.
  - apply wp_ret. unfold map_ok. rewrite Hs. split; [split; try done; by rewrite Hck|]. split; [done|].
    split; rewrite Hck; [done|]. apply andb_false_iff in B as [B%Z.ltb_ge|B%Z.leb_gt];
      unfold MIN_LOAD_PCT, MIN_CAPACITY in *; [lia|].
    assert (2 ^ k < 4); [|lia]. pose proof (Z.div_mod (2 ^ k) 2). pose proof (Z.mod_pos_bound (2 ^ k) 2). lia.
Qed.

Lemma erase_ok key (d : gmap Z T) m :
  map_ok m d → is_filled key = true →
  wp (erase key) (λ b m', b = bool_decide (is_Some (d !! key)) ∧ map_ok m' (delete key d)) m.
Proof.
  intros Hm Hk. unfold erase. apply wp_bind, check_key_ok; [done|]. wp_steps.
  unfold map_ok in Hm. destruct (slots_ m) as [sl|] eqn:Hsl.
  2:{ apply wp_ret. destruct Hm as [-> ->]. rewrite lookup_empty, delete_empty. done. }
  destruct Hm as (Hh & <- & Hl). pose proof Hh as [Hs Ht Hsz Htb].
  destruct (holds_probe m sl 0 key Hh Hl Hk) as ([b i] & Hp & Hr). simpl in Hr.
  apply wp_bind. eapply wp_of_done; [exact Hp|]. simpl. destruct (dict sl !! key) as [v|] eqn:Hd.
  - destruct Hr as (-> & Hi & Hslot). simpl.
    apply wp_bind. eapply wp_atZ; [done..|]. unfold value_of. simpl. wp_steps.
    destruct (table_drop (cap_ m) sl key v (Z.to_nat i) Ht Hk Hslot) as (Ht' & Hd' & Hn & Htb').
    pose proof (table_cap _ _ Ht). destruct Hl as [Hl1 Hl2].
    unfold put_slot. wp_steps.
    eapply wp_mono; [apply (maybe_rehash_ok _ (<[Z.to_nat i := mkSlot KEY_TOMBSTONE None]> sl))|].
    + split; simpl; [done|done|rewrite u32_id; lia|rewrite u32_id; lia].
    + unfold load_ok. simpl. rewrite !u32_id by lia. lia.
    + intros [] m' Hm'. apply wp_ret. by rewrite Hd' in Hm'.
  - destruct Hr as [-> _]. simpl. wp_steps. split; [done|].
    unfold map_ok. rewrite Hsl. by rewrite delete_id.
Qed.

(** Making room before an empty slot is filled *)
Lemma emplace_grow_ok m sl key j :
  holds_table m sl → load_ok m 1 → is_filled key = true → dict sl !! key = None → size_ m < 2 ^ 30 →
  0 ≤ j < cap_ m → path sl (cap_ m) (mix_hash key) j →
  (∃ s, sl !! Z.to_nat (tri (cap_ m) (mix_hash key) j) = Some s ∧ s_key s = KEY_EMPTY) →
  wp (emplace_grow key (tri (cap_ m) (mix_hash key) j))
     (λ idx m', ∃ sl' j', holds_table m' sl' ∧ dict sl' = dict sl ∧ size_ m' = size_ m ∧
        0 ≤ j' < cap_ m' ∧ idx = tri (cap_ m') (mix_hash key) j' ∧ path sl' (cap_ m') (mix_hash key) j' ∧
        (∃ s, sl' !! Z.to_nat idx = Some s ∧ s_key s = KEY_EMPTY) ∧
        (size_ m + 1 + tombstones_ m') * 100 ≤ cap_ m' * 75 ∧ cap_ m' * 25 ≤ (size_ m + 1) * 100) m.
Proof.
  intros Hh [Hl1 Hl2] Hk Hnone Hsize Hj Hp Hempty. pose proof Hh as [Hs Ht Hsz Htb].
  pose proof (table_cap _ _ Ht) as Hcap. unfold emplace_grow. wp_steps.
  rewrite (u32_id (size_ m + tombstones_ m + 1)), (u32_id (size_ m + 1)) by lia.
  rewrite !u64_id by (unfold MAX_LOAD_PCT; lia). unfold MAX_LOAD_PCT.
  destruct (Z.ltb_spec (cap_ m * 75) ((size_ m + tombstones_ m + 1) * 100)) as [E|E].
  2:{ apply wp_ret. exists sl, j. split; [exact Hh|]. split_and!; try done; lia. }
  destruct (t_cap _ _ Ht) as (k & Hk' & Hck).
  assert (∃ k', 1 ≤ k' ≤ 31 ∧ (size_ m + 1) * 100 ≤ 2 ^ k' * 75 ∧ 2 ^ k' * 25 ≤ (size_ m + 1) * 100 ∧
    (if (size_ m + 1) * 100 <=? cap_ m * 75 then rehash (cap_ m) else rehash (u32 (cap_ m * 2))) =
    rehash (2 ^ k')) as (k2 & Hk2 & Hlo & Hhi & ->).
  { destruct (Z.leb_spec ((size_ m + 1) * 100) (cap_ m * 75)) as [E'|E'].
    - exists k. rewrite <-Hck. split_and!; lia || done.
    - assert (k ≤ 30). { destruct (decide (k = 31)) as [->|]; [|lia]. change (2 ^ 31) with 2147483648 in *. lia. }
      exists (k + 1). assert (2 ^ (k + 1) ≤ 2 ^ 31) by (apply Z.pow_le_mono_r; lia).
      assert (2 ^ (k + 1) = 2 * 2 ^ k) as Ek by (rewrite <-Z.pow_succ_r by lia; done).
      rewrite Hck in *. rewrite u32_id by lia. rewrite (Z.mul_comm (2 ^ k) 2), <-Ek.
      split_and!; lia || done. }
  destruct (rehash_ok m sl k2) as (sl' & Hrun & Ht' & Hd & Hn & Htb'); [done..|lia|].
  apply wp_bind. eapply wp_of_done; [exact Hrun|]. unfold the_slots. wp_steps. simpl.
  set (m' := mkInt32Map (Some sl') (2 ^ k2) (size_ m) 0).
  assert (holds_table m' sl') as Hh' by (split; simpl; [done|done|lia|lia]).
  destruct (holds_probe m' sl' 1 key Hh') as ([b i] & Hpr & Hr); [split; simpl; lia|done|].
  apply wp_bind. eapply wp_of_done; [exact Hpr|]. rewrite Hd, Hnone in Hr. simpl in Hr.
  destruct Hr as (-> & j' & s & Hj' & -> & Hp' & Hs' & Hf). simpl. wp_steps.
  exists sl', j'. split; [exact Hh'|]. split_and!; simpl; try done; try lia.
  exists s. split; [done|]. apply is_filled_false in Hf as [Hf|Hf]; [done|].
  exfalso. assert (s ∈ filter (λ s, s_key s = KEY_TOMBSTONE) sl') as Hin.
  { apply list_elem_of_filter. split; [done|]. by eapply list_elem_of_lookup_2. }
  unfold tombs in Htb'. apply nil_length_inv in Htb'. rewrite Htb' in Hin. by apply not_elem_of_nil in Hin.
Qed.

(** The new entry goes into the slot the probe gave. *)
Lemma put_slot_ok m sl key v j s0 ts :
  holds_table m sl → is_filled key = true → int32 key → dict sl !! key = None →
  0 ≤ j < cap_ m → path sl (cap_ m) (mix_hash key) j →
  sl !! Z.to_nat (tri (cap_ m) (mix_hash key) j) = Some s0 → is_filled (s_key s0) = false →
  ts = tombstones_ m - Z.of_nat (tomb1 s0) →
  (size_ m + 1 + ts) * 100 ≤ cap_ m * 75 → cap_ m * 25 ≤ (size_ m + 1) * 100 →
  wp (put_slot sl (tri (cap_ m) (mix_hash key) j) (mkSlot key (Some v)) (size_ m + 1) ts)
     (λ _ m', map_ok m' (<[key := v]> (dict sl)) ∧
        ∃ sl', slots_ m' = Some sl' ∧
          sl' !! Z.to_nat (tri (cap_ m) (mix_hash key) j) = Some (mkSlot key (Some v))) m.
Proof.
  intros [Hs Ht Hsz Htb] Hk Hint Hnone Hj Hp Hs0 Hf0 -> Hl1 Hl2. pose proof (table_cap _ _ Ht) as Hcap.
  destruct (table_fill (cap_ m) sl key v j s0) as (Ht' & Hd & Hn & Htb'); [done..|].
  unfold put_slot. wp_steps. split.
  - unfold map_ok. simpl. split; [split; simpl; [done..|rewrite u32_id; lia|rewrite u32_id; lia]|].
    split; [done|]. unfold load_ok. simpl. rewrite !u32_id by lia. lia.
  - eexists. split; [simpl; done|]. apply list_lookup_insert_eq. eapply lookup_lt_Some, Hs0.
Qed.

(** [emplace(key, v)]: the reference it returns is the slot that holds the key, with the old
    object when there is one and [v] otherwise. *)
Definition slot_holds m (idx : Z) key v : Prop :=
  0 ≤ idx ∧ ∃ sl, slots_ m = Some sl ∧ sl !! Z.to_nat idx = Some (mkSlot key (Some v)).

Lemma emplace_table_ok (d : gmap Z T) m :
  map_ok m d →
  wp emplace_table (λ _ m', ∃ sl, holds_table m' sl ∧ dict sl = d ∧ load_ok m' 1 ∧
     (load_ok m' 0 ∨ d = ∅) ∧ size_ m' = Z.of_nat (base.size d)) m.
Proof.
  intros Hm. unfold emplace_table, map_ok in *. wp_steps. destruct (slots_ m) as [sl|].
  - destruct Hm as (Hh & <- & Hl). apply wp_ret. exists sl. split; [done|]. split; [done|].
    destruct Hl as [? ?]. split; [split; lia|]. split; [by left|].
    rewrite (dict_size (cap_ m)) by apply Hh. apply Hh.
  - destruct Hm as [-> ->]. apply wp_put. unfold MIN_CAPACITY.
    exists (replicate (Z.to_nat 2) Slot_new). split; [|split; [done|]].
    + split; try done. exact (table_new 1 ltac:(lia)).
    + split; [by split|]. split; [by right|done].
Qed.

Lemma emplace_ok key v (d : gmap Z T) m :
  map_ok m d → is_filled key = true → int32 key → Z.of_nat (base.size d) < 2 ^ 30 →
  wp (emplace key v)
     (λ r m', r.2 = default v (d !! key) ∧ map_ok m' (<[key := r.2]> d) ∧ slot_holds m' r.1 key r.2) m.
Proof.
  intros Hm Hk Hint Hsize. unfold emplace. apply wp_bind, check_key_ok; [done|].
  eapply wp_seq; [by apply emplace_table_ok|]. intros [] m1 (sl & Hh & Hd & Hl & Hor & Hsz1).
  pose proof Hh as [Hs Ht Hsz Htb]. unfold the_slots. wp_steps. rewrite Hs. wp_steps.
  destruct (holds_probe m1 sl 1 key Hh Hl Hk) as ([b i] & Hpr & Hr). simpl in Hr.
  eapply wp_of_done; [exact Hpr|]. simpl. rewrite Hd in Hr.
  destruct (d !! key) as [v'|] eqn:Hdk.
  - destruct Hr as (-> & Hi & Hslot). apply wp_bind. eapply wp_atZ; [done..|]. unfold value_of. simpl. wp_steps.
    split; [done|]. split.
    + unfold map_ok. rewrite Hs. split; [done|]. rewrite insert_id by done. split; [done|].
      destruct Hor as [|Hemp]; [done|]. by rewrite Hemp in Hdk.
    + split; [done|]. by exists sl.
  - destruct Hr as (-> & j & s & Hj & -> & Hp & Hslot & Hf). pose proof (table_cap _ _ Ht).
    pose proof (tri_range (cap_ m1) (mix_hash key) j ltac:(lia)).
    apply wp_bind. eapply wp_atZ; [lia|done|]. rewrite <-Hd in Hdk.
    destruct (Z.eqb_spec (s_key s) KEY_TOMBSTONE) as [E|E].
    + eapply wp_seq; [eapply (put_slot_ok m1 sl key v j s); try done|].
      * unfold tomb1. rewrite decide_True by done. simpl. lia.
      * destruct Hl. lia.
      * destruct Hl. lia.
      * intros [] m' [Hm' (sl' & Hs' & Hsl')]. apply wp_ret. rewrite Hd in Hm'. split; [done|].
        split; [done|]. split; [simpl; lia|]. by exists sl'.
    + assert (s_key s = KEY_EMPTY) as E' by (apply is_filled_false in Hf as [|]; done).
      eapply wp_seq; [apply (emplace_grow_ok m1 sl key j); try done; [lia|by exists s]|].
      intros idx m2 (sl2 & j2 & Hh2 & Hd2 & Hsz2 & Hj2 & -> & Hp2 & (s2 & Hs2 & He2) & Hl1 & Hl2).
      pose proof Hh2 as [Hsl2 Ht2 _ _]. pose proof (table_cap _ _ Ht2).
      pose proof (tri_range (cap_ m2) (mix_hash key) j2 ltac:(lia)).
      wp_steps. rewrite Hsl2. wp_steps. eapply wp_atZ; [lia|done|].
      apply wp_bind, wp_check; [by apply Z.eqb_eq|].
      rewrite <-Hd2 in Hdk.
      eapply wp_seq; [eapply (put_slot_ok m2 sl2 key v j2 s2); try done|].
      * by apply is_filled_false; left.
      * unfold tomb1. rewrite decide_False by (by rewrite He2). simpl. lia.
      * lia.
      * lia.
      * intros [] m' [Hm' (sl' & Hs' & Hsl')]. apply wp_ret. rewrite Hd2, Hd in Hm'. split; [done|].
        split; [done|]. split; [simpl; lia|]. by exists sl'.
Qed.

Lemma find_ok key (d : gmap Z T) m :
  map_ok m d → is_filled key = true →
  wp (find key) (λ i m', m' = m ∧
    match d !! key with Some v => slot_holds m i key v | None => i = cap_ m end) m.
Proof.
  intros Hm Hk. unfold find. apply wp_bind, check_key_ok; [done|]. wp_steps. unfold map_ok in Hm.
  destruct (slots_ m) as [sl|] eqn:Hs; [|apply wp_ret; destruct Hm as [-> ->]; by rewrite lookup_empty].
  destruct Hm as (Hh & <- & Hl). destruct (holds_probe m sl 0 key Hh Hl Hk) as ([b i] & Hpr & Hr).
  apply wp_bind. eapply wp_of_done; [exact Hpr|]. simpl in *. wp_steps. split; [done|].
  destruct (dict sl !! key) as [v|]; [|by destruct Hr as [-> _]].
  destruct Hr as (-> & ? & Hslot). split; [done|]. by exists sl.
Qed.

(** ** Iteration *)

Lemma advance_ok m sl n i :
  holds_table m sl → 0 ≤ i ≤ cap_ m → cap_ m - i ≤ Z.of_nat n →
  ∃ i', advance m n i m = Done i' m ∧ i ≤ i' ≤ cap_ m ∧
    if i' =? cap_ m then entries (drop (Z.to_nat i) sl) = []
    else ∃ k v, sl !! Z.to_nat i' = Some (mkSlot k (Some v)) ∧
         entries (drop (Z.to_nat i) sl) = (k, v) :: entries (drop (Z.to_nat (i' + 1)) sl).
Proof.
  intros [Hs Ht _ _]. pose proof (table_cap _ _ Ht) as Hcap. pose proof (t_len _ _ Ht) as Hlen.
  assert (entries (drop (Z.to_nat (cap_ m)) sl) = []) as Hend by (by rewrite drop_ge by lia).
  revert i. induction n as [|n IH]; intros i Hi Hn.
  { assert (i = cap_ m) as -> by lia. exists (cap_ m). rewrite Z.eqb_refl. split; [done|]. split; [lia|done]. }
  cbn [advance]. destruct (Z.leb_spec (cap_ m) i) as [Hle|Hlt].
  { assert (i = cap_ m) as -> by lia. exists (cap_ m). rewrite Z.eqb_refl. split; [done|]. split; [lia|done]. }
  rewrite Hs. destruct (table_lookup (cap_ m) sl i Ht ltac:(lia)) as [s Hsi].
  unfold mbind, prog_bind. rewrite (atZ_done sl i s) by (done || lia).
  pose proof (drop_S sl s (Z.to_nat i) Hsi) as Hdrop. rewrite Hdrop.
  assert (Z.to_nat (i + 1) = S (Z.to_nat i)) as E1 by lia.
  destruct (is_filled (s_key s)) eqn:Ef.
  - exists i. split; [done|]. split; [lia|]. rewrite (proj2 (Z.eqb_neq i (cap_ m))) by lia.
    destruct (t_slot _ _ Ht _ s Hsi Ef) as [[v Hv] _]. exists (s_key s), v. rewrite E1.
    assert (s = mkSlot (s_key s) (Some v)) as E2 by (destruct s; naive_solver).
    split; [by rewrite Hsi, E2 at 1|]. unfold entries. simpl. unfold entry at 1. by rewrite Ef, Hv.
  - rewrite u32_id by lia. destruct (IH (i + 1)) as (i' & Hrun & Hi' & Hr); [lia..|].
    exists i'. split; [done|]. split; [lia|].
    assert (entries (s :: drop (S (Z.to_nat i)) sl) = entries (drop (Z.to_nat (i + 1)) sl)) as ->; [|done].
    rewrite E1. unfold entries. simpl. unfold entry at 1. by rewrite Ef.
Qed.
Lemma iterate_ok m sl n i :
  holds_table m sl → 0 ≤ i ≤ cap_ m → cap_ m - i < Z.of_nat n →
  iterate m n i m = Done (entries (drop (Z.to_nat i) sl)) m.
Proof.
  intros Hh. pose proof Hh as [Hs Ht _ _]. pose proof (table_cap _ _ Ht) as Hcap.
  revert i. induction n as [|n IH]; intros i Hi Hn; [lia|]. cbn [iterate].
  destruct (advance_ok m sl (Z.to_nat (cap_ m)) i Hh) as (i' & Hrun & Hi' & Hr); [lia..|].
  unfold mbind, prog_bind. rewrite Hrun. destruct (Z.eqb_spec i' (cap_ m)) as [->|Hne]; [by rewrite Hr|].
  destruct Hr as (k & v & Hsi & ->). rewrite Hs, (atZ_done sl i' (mkSlot k (Some v))) by (done || lia).
  unfold value_of. simpl. unfold mret, prog_ret. rewrite u32_id by lia.
  rewrite IH by lia. done.
Qed.
Lemma entries_of_ok m (d : gmap Z T) :
  map_ok m d → wp entries_of (λ l m', m' = m ∧ l ≡ₚ map_to_list d) m.
Proof.
  intros Hm. unfold entries_of. wp_steps. unfold map_ok in Hm. destruct (slots_ m) as [sl|] eqn:Hs.
  - destruct Hm as (Hh & <- & _). pose proof Hh as [_ Ht _ _]. pose proof (table_cap _ _ Ht).
    eapply wp_of_done; [apply (iterate_ok m sl); [done|lia..]|]. split; [done|].
    simpl. rewrite drop_0. symmetry. apply map_to_list_to_map, Ht.
  - destruct Hm as [-> ->]. split; [done|]. by rewrite map_to_list_empty.
Qed.

(** ** Runs of operations *)

Inductive map_op := OContains (k : Z) | OFind (k : Z) | OErase (k : Z) | OEmplace (k : Z) (v : T).
(** [None] is the exception [std::invalid_argument]. *)
Inductive map_res := RBool (b : bool) | RValue (o : option T).
Definition op_key (op : map_op) : Z :=
  match op with OContains k | OFind k | OErase k | OEmplace k _ => k end.

Definition caught {A} (p : prog (Int32Map T) A) : prog (Int32Map T) (option A) :=
  λ m, match p m with
       | Done a m' => Done (Some a) m'
       | Throws _ m' => Done None m'
       | Fatal e => Fatal e
       | Undef e => Undef e
       end.
(** The caller's use of an iterator or a reference at slot [i] *)
Definition read_slot (i : Z) : prog (Int32Map T) (option T) :=
  get ≫= λ m,
  if i =? cap_ m then mret None
  else the_slots ≫= λ sl, atZ sl i ≫= λ s, value_of s ≫= λ v, mret (Some v).
Definition run_op (op : map_op) : prog (Int32Map T) (option map_res) :=
  caught
    match op with
    | OContains k => contains k ≫= λ b, mret (RBool b)
    | OFind k => find k ≫= λ i, read_slot i ≫= λ o, mret (RValue o)
    | OErase k => erase k ≫= λ b, mret (RBool b)
    | OEmplace k v => emplace k v ≫= λ r : Z * T, read_slot r.1 ≫= λ o, mret (RValue o)
    end.
(** The same on finite maps *)
Definition dict_op (op : map_op) (d : gmap Z T) : option map_res * gmap Z T :=
  if negb (is_filled (op_key op)) then (None, d)
  else
    match op with
    | OContains k => (Some (RBool (bool_decide (is_Some (d !! k)))), d)
    | OFind k => (Some (RValue (d !! k)), d)
    | OErase k => (Some (RBool (bool_decide (is_Some (d !! k)))), delete k d)
    | OEmplace k v => let v := default v (d !! k) in (Some (RValue (Some v)), <[k := v]> d)
    end.
Fixpoint dict_run (ops : list map_op) (d : gmap Z T) : list (option map_res) * gmap Z T :=
  match ops with
  | [] => ([], d)
  | op :: ops => let r := dict_op op d in let rs := dict_run ops r.2 in (r.1 :: rs.1, rs.2)
  end.

Lemma wp_caught {A} (p : prog (Int32Map T) A) Q m : wp p (λ a, Q (Some a)) m → wp (caught p) Q m.
Proof. unfold wp, caught. by destruct (p m). Qed.
Lemma map_ok_slot m (d : gmap Z T) sl : map_ok m d → slots_ m = Some sl → holds_table m sl.
Proof. unfold map_ok. intros Hm Hs. rewrite Hs in Hm. apply Hm. Qed.
Lemma read_slot_ok m (d : gmap Z T) i key v :
  map_ok m d → slot_holds m i key v → read_slot i m = Done (Some v) m.
Proof.
  intros Hm (Hi & sl & Hs & Hsl). pose proof (map_ok_slot m d sl Hm Hs) as [_ Ht _ _].
  pose proof (t_len _ _ Ht). pose proof (lookup_lt_Some _ _ _ Hsl).
  unfold read_slot, the_slots, mbind, prog_bind, get.
  rewrite (proj2 (Z.eqb_neq i (cap_ m))) by lia. rewrite Hs. unfold mret, prog_ret.
  by rewrite (atZ_done sl i _ m Hi Hsl).
Qed.

(** One operation behaves as on the finite map. *)
Lemma run_op_ok op m (d : gmap Z T) :
  map_ok m d → int32 (op_key op) → Z.of_nat (base.size d) < 2 ^ 30 →
  wp (run_op op) (λ r m', r = (dict_op op d).1 ∧ map_ok m' (dict_op op d).2) m.
Proof.
  intros Hm Hint Hsize. unfold run_op, dict_op. destruct (is_filled (op_key op)) eqn:Hk; simpl.
  2:{ destruct op; simpl in Hk; unfold wp, caught, contains, find, erase, emplace;
        unfold mbind at 1, prog_bind at 1; (rewrite check_key_throws by done; done). }
  apply wp_caught. destruct op as [k|k|k|k v]; simpl in *.
  - apply wp_bind. eapply wp_of_done; [by apply (contains_ok k d)|]. wp_steps. done.
  - eapply wp_seq; [by apply (find_ok k d)|]. intros i m' [-> Hi].
    apply wp_bind. destruct (d !! k) as [v|].
    + eapply wp_of_done; [by eapply read_slot_ok|]. wp_steps. done.
    + subst i. unfold read_slot. wp_steps. rewrite Z.eqb_refl. wp_steps. done.
  - eapply wp_seq; [by apply (erase_ok k d)|]. intros b m' [-> Hm']. wp_steps. done.
  - eapply wp_seq; [by apply (emplace_ok k v d)|]. intros [i v'] m' (Hv & Hm' & Hi). simpl in *. subst v'.
    apply wp_bind. eapply wp_of_done; [by eapply read_slot_ok|]. wp_steps. done.
Qed.
Lemma dict_op_size op (d : gmap Z T) : (base.size (dict_op op d).2 ≤ S (base.size d))%nat.
Proof.
  unfold dict_op. destruct (negb _); simpl; [lia|]. destruct op as [k|k|k|k v]; simpl; try lia.
  - destruct (d !! k) eqn:E; [rewrite map_size_delete_Some by done; lia|by rewrite delete_id by done; lia].
  - destruct (d !! k) eqn:E.
    + rewrite map_size_insert_Some by done. lia.
    + rewrite map_size_insert_None by done. lia.
Qed.
Lemma runs_ok ops m (d : gmap Z T) :
  map_ok m d → Forall (λ op, int32 (op_key op)) ops →
  Z.of_nat (base.size d + length ops) ≤ 2 ^ 30 →
  wp (map_each ops run_op) (λ rs m', rs = (dict_run ops d).1 ∧ map_ok m' (dict_run ops d).2) m.
Proof.
  revert m d. induction ops as [|op ops IH]; intros m d Hm Hall Hsize; [done|].
  apply Forall_cons in Hall as [Hint Hall]. simpl length in Hsize. cbn [map_each dict_run].
  eapply wp_seq; [apply run_op_ok; [done..|lia]|]. intros r m' [-> Hm'].
  eapply wp_seq; [apply IH; [exact Hm'|done|pose proof (dict_op_size op d); lia]|].
  intros rs m'' [-> Hm'']. by apply wp_ret.
Qed.
End table.

(** ** Properties *)

(** C20: any run of at most [2 ^ 30] lookups, iterator dereferences, erasures and insertions, from the empty map and
    with any keys, answers as the same run on a finite map, with the exception exactly for the
    two reserved keys; no [assert] fails, no slot is read that holds no object and the probing
    never reports a full table.  Afterwards a loop over the map visits each entry of the
    finite map once. *)
Theorem int32map_refines {T} (ops : list (map_op (T := T))) :
  Forall (λ op, int32 (op_key op)) ops → Z.of_nat (length ops) ≤ 2 ^ 30 →
  wp (map_each ops run_op ≫= λ rs, entries_of ≫= λ l, mret (rs, l))
     (λ r m, r.1 = (dict_run ops ∅).1 ∧ r.2 ≡ₚ map_to_list (dict_run ops ∅).2 ∧
        map_ok m (dict_run ops ∅).2) Int32Map_new.
Proof.
  intros Hall Hlen. eapply wp_seq; [apply (runs_ok ops _ ∅); [done|done|by rewrite map_size_empty]|].
  intros rs m [-> Hm]. eapply wp_seq; [by eapply entries_of_ok|]. intros l m' [-> Hl]. by apply wp_ret.
Qed.
Definition sample_ops : list (map_op (T := Z)) :=
  [OEmplace 5 10; OEmplace 6 11; OEmplace 7 12; OErase 6; OEmplace 5 99; OContains 6; OFind 7;
   OErase (- 2 ^ 31); OEmplace (-3) 13; OErase 5; OErase 7].
Lemma int32map_refines_witness :
  wp (map_each sample_ops run_op ≫= λ rs, entries_of ≫= λ l, mret (rs, l))
     (λ r _, r.1 = [Some (RValue (Some 10)); Some (RValue (Some 11)); Some (RValue (Some 12));
                    Some (RBool true); Some (RValue (Some 10)); Some (RBool false);
                    Some (RValue (Some 12)); None; Some (RValue (Some 13)); Some (RBool true);
                    Some (RBool true)] ∧ r.2 ≡ₚ [(-3, 13)]) Int32Map_new.
Proof.
  eapply wp_mono; [apply (int32map_refines sample_ops)|].
  - unfold sample_ops, int32. repeat constructor; simpl; lia.
  - simpl. lia.
  - intros r m (-> & -> & _). split; computed.
Defined.

(** C21: the table stays compact and sparse enough: after any run of at most [2 ^ 30] operations an empty map has
    no table at all, and otherwise the table has between two and 2^31 slots, a power of two, of
    which at most three quarters are in use (tombstones included) and at least a quarter hold an
    entry. *)
Theorem int32map_compact {T} (ops : list (map_op (T := T))) :
  Forall (λ op, int32 (op_key op)) ops → Z.of_nat (length ops) ≤ 2 ^ 30 →
  let n := Z.of_nat (base.size (dict_run ops ∅).2) in
  wp (map_each ops run_op)
     (λ _ m, size_ m = n ∧
        match slots_ m with
        | None => n = 0 ∧ cap_ m = 0
        | Some sl => 0 < n ∧ Z.of_nat (length sl) = cap_ m ∧ (∃ k, 1 ≤ k ≤ 31 ∧ cap_ m = 2 ^ k) ∧
            (n + tombstones_ m) * 100 ≤ cap_ m * 75 ∧ cap_ m * 25 ≤ n * 100
        end) Int32Map_new.
Proof.
  intros Hall Hlen n. eapply wp_mono; [apply (runs_ok ops _ ∅); [done|done|by rewrite map_size_empty]|].
  intros rs m [_ Hm]. fold n. unfold map_ok in Hm. destruct (slots_ m) as [sl|] eqn:Hs.
  - destruct Hm as ([_ Ht Hsz _] & Hd & Hl1 & Hl2). pose proof (table_cap _ _ Ht).
    assert (size_ m = n) as E by (unfold n; by rewrite <-Hd, (dict_size _ _ Ht)).
    rewrite E in *. split; [done|]. split; [lia|]. split; [apply Ht|]. split; [apply Ht|lia].
  - destruct Hm as [-> Hd]. unfold n. rewrite Hd, map_size_empty. done.
Qed.
Lemma int32map_compact_witness :
  wp (map_each sample_ops run_op) (λ _ m, size_ m = 1 ∧ cap_ m * 25 ≤ 100) Int32Map_new.
Proof.
  eapply wp_mono; [apply (int32map_compact sample_ops)|].
  - unfold sample_ops, int32. repeat constructor; simpl; lia.
  - simpl. lia.
  - intros rs m. assert (Z.of_nat (base.size (dict_run sample_ops ∅).2) = 1) as -> by computed.
    intros [-> Hm]. destruct (slots_ m); [|lia]. destruct Hm as (_ & _ & _ & _ & ?). lia.
Defined.
