(* ===== verification/SuffixTree.v ===== *)
(** The suffix tree of speculative decoding: [core/util/suffix_tree.{h,cpp}].

    A compressed tree of the suffixes, up to a depth, of the token sequences it is given:
    a node stands for a run of tokens, which it refers to by a sequence and an index, and
    counts the suffixes that pass through it or end at it.  The children of a node are in a
    map by first token, and in a doubly linked list by decreasing count in which nodes of the
    same count share a [Group]; the groups form a second doubly linked list.

    Nodes and groups are objects in two stores, and pointers are their addresses: reading a
    freed object or a null pointer is undefined.  [Int32Map] is a finite map with the check
    of its keys, which the refinement theorem of [Int32Map] justifies; a pointer that was
    released stays in its map as null.  The [assert]s of the source are checks here. *)

From stdpp Require Import base gmap list strings.
From Stdlib Require Import ZArith Lia.
From S2P Require Import Prelude Int32Map.
Open Scope Z_scope.

(** ** Data *)

Record Node := mkNode {
  count : Z;
  token : Z;
  length_ : Z;
  ref_seq : Z;
  ref_idx : Z;
  endpoints : gmap Z Z;
  parent : option nat;
  children : gmap Z (option nat);
  head_child : option nat;
  tail_child : option nat;
  next_sibling : option nat;
  prev_sibling : option nat;
  group : option nat;
}.
(** [Node()] and [Node(count, token, length, ref_seq, ref_idx)] *)
Definition Node_default : Node := mkNode 0 0 0 0 (-1) ∅ None ∅ None None None None None.
Definition Node_new (count token length_ ref_seq ref_idx : Z) : Node :=
  mkNode count token length_ ref_seq ref_idx ∅ None ∅ None None None None None.
Record Group := mkGroup { g_head : option nat; g_next : option nat; g_prev : option nat }.
(** [root_] is at the address [root]; [fresh] is an address that is not in use. *)
Definition root : nat := 0.
Record SuffixTree := mkTree {
  max_depth_ : Z;
  nodes : gmap nat Node;
  groups : gmap nat Group;
  fresh : nat;
  seqs_ : gmap Z (list Z);
  active_nodes_ : gmap Z (list nat);
}.
Definition SuffixTree_new (max_depth : Z) : SuffixTree :=
  mkTree max_depth {[root := Node_default]} ∅ 1 ∅ ∅.

Definition set_count v n := mkNode v (token n) (length_ n) (ref_seq n) (ref_idx n) (endpoints n) (parent n) (children n) (head_child n) (tail_child n) (next_sibling n) (prev_sibling n) (group n).
Definition set_token v n := mkNode (count n) v (length_ n) (ref_seq n) (ref_idx n) (endpoints n) (parent n) (children n) (head_child n) (tail_child n) (next_sibling n) (prev_sibling n) (group n).
Definition set_length v n := mkNode (count n) (token n) v (ref_seq n) (ref_idx n) (endpoints n) (parent n) (children n) (head_child n) (tail_child n) (next_sibling n) (prev_sibling n) (group n).
Definition set_ref v i n := mkNode (count n) (token n) (length_ n) v i (endpoints n) (parent n) (children n) (head_child n) (tail_child n) (next_sibling n) (prev_sibling n) (group n).
Definition set_endpoints v n := mkNode (count n) (token n) (length_ n) (ref_seq n) (ref_idx n) v (parent n) (children n) (head_child n) (tail_child n) (next_sibling n) (prev_sibling n) (group n).
Definition set_parent v n := mkNode (count n) (token n) (length_ n) (ref_seq n) (ref_idx n) (endpoints n) v (children n) (head_child n) (tail_child n) (next_sibling n) (prev_sibling n) (group n).
Definition set_children v n := mkNode (count n) (token n) (length_ n) (ref_seq n) (ref_idx n) (endpoints n) (parent n) v (head_child n) (tail_child n) (next_sibling n) (prev_sibling n) (group n).
Definition set_head_child v n := mkNode (count n) (token n) (length_ n) (ref_seq n) (ref_idx n) (endpoints n) (parent n) (children n) v (tail_child n) (next_sibling n) (prev_sibling n) (group n).
Definition set_tail_child v n := mkNode (count n) (token n) (length_ n) (ref_seq n) (ref_idx n) (endpoints n) (parent n) (children n) (head_child n) v (next_sibling n) (prev_sibling n) (group n).
Definition set_next_sibling v n := mkNode (count n) (token n) (length_ n) (ref_seq n) (ref_idx n) (endpoints n) (parent n) (children n) (head_child n) (tail_child n) v (prev_sibling n) (group n).
Definition set_prev_sibling v n := mkNode (count n) (token n) (length_ n) (ref_seq n) (ref_idx n) (endpoints n) (parent n) (children n) (head_child n) (tail_child n) (next_sibling n) v (group n).
Definition set_group v n := mkNode (count n) (token n) (length_ n) (ref_seq n) (ref_idx n) (endpoints n) (parent n) (children n) (head_child n) (tail_child n) (next_sibling n) (prev_sibling n) v.
Definition set_g_head v g := mkGroup v (g_next g) (g_prev g).
Definition set_g_next v g := mkGroup (g_head g) v (g_prev g).
Definition set_g_prev v g := mkGroup (g_head g) (g_next g) v.
Definition set_nodes v s := mkTree (max_depth_ s) v (groups s) (fresh s) (seqs_ s) (active_nodes_ s).
Definition set_groups v s := mkTree (max_depth_ s) (nodes s) v (fresh s) (seqs_ s) (active_nodes_ s).
Definition set_fresh v s := mkTree (max_depth_ s) (nodes s) (groups s) v (seqs_ s) (active_nodes_ s).
Definition set_seqs v s := mkTree (max_depth_ s) (nodes s) (groups s) (fresh s) v (active_nodes_ s).
Definition set_active_nodes v s := mkTree (max_depth_ s) (nodes s) (groups s) (fresh s) (seqs_ s) v.

(** ** The stores *)

Abbreviation Tree := (prog SuffixTree).
(** The object of a pointer, and an update of its fields *)
Definition node (a : nat) : Tree Node :=
  gets nodes ≫= λ m, match m !! a with Some n => mret n | None => undef "no Node at the address" end.
Definition deref (p : option nat) : Tree nat :=
  match p with Some a => mret a | None => undef "null pointer" end.
Definition upd (a : nat) (f : Node → Node) : Tree unit :=
  node a ≫= λ n, modify (λ s, set_nodes (<[a := f n]> (nodes s)) s).
Definition grp (g : nat) : Tree Group :=
  gets groups ≫= λ m, match m !! g with Some x => mret x | None => undef "no Group at the address" end.
Definition upd_group (g : nat) (f : Group → Group) : Tree unit :=
  grp g ≫= λ x, modify (λ s, set_groups (<[g := f x]> (groups s)) s).
(** [new Node(...)] and [new Group(node)] *)
Definition new_node (n : Node) : Tree nat :=
  get ≫= λ s, put (set_fresh (S (fresh s)) (set_nodes (<[fresh s := n]> (nodes s)) s)) ≫= λ _, mret (fresh s).
Definition new_group (a : nat) : Tree nat :=
  get ≫= λ s,
  put (set_fresh (S (fresh s)) (set_groups (<[fresh s := mkGroup (Some a) None None]> (groups s)) s)) ≫= λ _,
  mret (fresh s).
(** [use_count()] of the [shared_ptr]s to a group, one for each node of it *)
Definition use_count (g : nat) (s : SuffixTree) : nat :=
  length (filter (λ x : nat * Node, group x.2 = Some g) (map_to_list (nodes s))).
(** A reference to the group is gone; the last one frees it. *)
Definition release_group (p : option nat) : Tree unit :=
  match p with
  | None => mret ()
  | Some g => modify (λ s, if (use_count g s =? 0)%nat then set_groups (delete g (groups s)) s else s)
  end.
(** [node->group = p] *)
Definition assign_group (a : nat) (p : option nat) : Tree unit :=
  node a ≫= λ n, upd a (set_group p) ≫= λ _, release_group (group n).
(** The end of a [Node]: its reference to a group and its children go with it. *)
Fixpoint delete_subtree (k : nat) (a : nat) : Tree unit :=
  match k with
  | O => undef "out of fuel"
  | S k =>
      node a ≫= λ n,
      modify (λ s, set_nodes (delete a (nodes s)) s) ≫= λ _,
      release_group (group n) ≫= λ _,
      for_each (map_to_list (children n)).*2 (λ p,
        match p with Some c => delete_subtree k c | None => mret () end)
  end.
Definition delete_node (a : nat) : Tree unit := gets (λ s, size (nodes s)) ≫= λ k, delete_subtree k a.

(** [Int32Map] throws on the two keys it reserves. *)
Definition key (k : Z) : Tree unit :=
  if (k =? KEY_EMPTY) || (k =? KEY_TOMBSTONE) then throw "invalid key" else mret ().
(** [children.find(token)] and [children[token].release()] *)
Definition find_child (n : Node) (token : Z) : Tree (option (option nat)) :=
  key token ≫= λ _, mret (children n !! token).
Definition release_child (a : nat) (token : Z) : Tree (option nat) :=
  key token ≫= λ _, node a ≫= λ n,
  upd a (set_children (<[token := None]> (children n))) ≫= λ _,
  mret (default None (children n !! token)).
(** [children[token].reset(p)] *)
Definition reset_child (a : nat) (token : Z) (p : option nat) : Tree unit :=
  key token ≫= λ _, node a ≫= λ n,
  upd a (set_children (<[token := p]> (children n))) ≫= λ _,
  match default None (children n !! token) with Some c => delete_node c | None => mret () end.
(** [children.emplace(token, c)] *)
Definition emplace_child (a : nat) (token : Z) (c : nat) : Tree unit :=
  key token ≫= λ _,
  upd a (λ n, match children n !! token with
              | Some _ => n
              | None => set_children (<[token := Some c]> (children n)) n
              end).
(** [children.erase(token)] *)
Definition erase_child (a : nat) (token : Z) : Tree unit :=
  key token ≫= λ _, node a ≫= λ n,
  upd a (set_children (delete token (children n))) ≫= λ _,
  match default None (children n !! token) with Some c => delete_node c | None => mret () end.
(** [endpoints[seq_id] = e] and [endpoints.erase(seq_id)] *)
Definition set_endpoint (a : nat) (seq_id e : Z) : Tree unit :=
  key seq_id ≫= λ _, upd a (λ n, set_endpoints (<[seq_id := e]> (endpoints n)) n).
Definition erase_endpoint (a : nat) (seq_id : Z) : Tree unit :=
  key seq_id ≫= λ _, upd a (λ n, set_endpoints (delete seq_id (endpoints n)) n).
(** [endpoints[seq_id] += 1]: the value of a new key is 0 *)
Definition incr_endpoint (a : nat) (seq_id : Z) : Tree unit :=
  key seq_id ≫= λ _, upd a (λ n, set_endpoints (<[seq_id := default 0 (endpoints n !! seq_id) + 1]> (endpoints n)) n).
(** [seqs_[seq_id]], and one of its tokens *)
Definition seq_of (seq_id : Z) : Tree (list Z) :=
  key seq_id ≫= λ _,
  get ≫= λ s,
  match seqs_ s !! seq_id with
  | Some l => mret l
  | None => put (set_seqs (<[seq_id := []]> (seqs_ s)) s) ≫= λ _, mret []
  end.
Definition seq_token (seq_id idx : Z) : Tree Z := seq_of seq_id ≫= λ l, atZ l idx.

(** ** The lists of siblings *)

(** [if (p) p->field = v; else ...] *)
Definition link (p : option nat) (f : Node → Node) (otherwise : Tree unit) : Tree unit :=
  match p with Some b => upd b f | None => otherwise end.
Definition link_group (p : option nat) (f : Group → Group) : Tree unit :=
  match p with Some g => upd_group g f | None => mret () end.
(** [p && p->count == c] *)
Definition counts (p : option nat) (test : Z → bool) : Tree bool :=
  match p with Some b => node b ≫= λ n, mret (test (count n)) | None => mret false end.

(** [remove_from_siblings(node)]: first the list of groups, then the list of siblings *)
Definition unlink_group (a : nat) : Tree unit :=
  node a ≫= λ n,
  deref (group n) ≫= λ g, grp g ≫= λ x,
  if bool_decide (g_head x = Some a) then
    counts (next_sibling n) (λ c, c =? count n) ≫= λ more : bool,
    if more then
      upd_group g (set_g_head (next_sibling n)) ≫= λ _,
      assign_group a None
    else
      link_group (g_prev x) (set_g_next (g_next x)) ≫= λ _,
      link_group (g_next x) (set_g_prev (g_prev x)) ≫= λ _,
      upd_group g (λ x, set_g_prev None (set_g_next None x))
  else assign_group a None.
Definition unlink_sibling (a : nat) : Tree unit :=
  node a ≫= λ n,
  deref (parent n) ≫= λ p,
  link (next_sibling n) (set_prev_sibling (prev_sibling n)) (upd p (set_tail_child (prev_sibling n))) ≫= λ _,
  link (prev_sibling n) (set_next_sibling (next_sibling n)) (upd p (set_head_child (next_sibling n))) ≫= λ _,
  upd a (λ n, set_prev_sibling None (set_next_sibling None n)).
Definition remove_from_siblings (a : nat) : Tree unit :=
  node a ≫= λ n,
  check (bool_decide (parent n ≠ None)) "node->parent" ≫= λ _,
  unlink_group a ≫= λ _,
  unlink_sibling a.

(** The group a node comes with, or a new one: [assert(group->head == node && !group->next
    && !group->prev)] *)
Definition own_group (a : nat) : Tree nat :=
  node a ≫= λ n,
  (match group n with
   | Some g => mret g
   | None => new_group a ≫= λ g, assign_group a (Some g) ≫= λ _, mret g
   end) ≫= λ g,
  grp g ≫= λ x,
  check (bool_decide (g_head x = Some a ∧ g_next x = None ∧ g_prev x = None)) "a group of its own" ≫= λ _,
  mret g.
(** [assert(node->parent); assert(node->parent == other->parent)] *)
Definition check_siblings (a other : nat) : Tree unit :=
  node a ≫= λ n, node other ≫= λ o,
  check (bool_decide (parent n ≠ None)) "node->parent" ≫= λ _,
  check (bool_decide (parent n = parent o)) "node->parent == other->parent".

(** [insert_into_siblings_before(node, other)]: the list of siblings, then that of groups *)
Definition splice_before (a other : nat) : Tree unit :=
  node other ≫= λ o,
  node a ≫= λ n, deref (parent n) ≫= λ p,
  link (prev_sibling o) (set_next_sibling (Some a)) (upd p (set_head_child (Some a))) ≫= λ _,
  upd a (set_next_sibling (Some other)) ≫= λ _,
  upd a (set_prev_sibling (prev_sibling o)) ≫= λ _,
  upd other (set_prev_sibling (Some a)).
Definition join_before (a other : nat) : Tree unit :=
  node a ≫= λ n, node other ≫= λ o,
  counts (prev_sibling n) (λ c, count n =? c) ≫= λ joins : bool,
  if joins then
    deref (prev_sibling n) ≫= λ b, node b ≫= λ nb, assign_group a (group nb)
  else if count n =? count o then
    assign_group a (group o) ≫= λ _,
    deref (group o) ≫= λ g, upd_group g (set_g_head (Some a))
  else
    own_group a ≫= λ g,
    (match prev_sibling n with
     | Some b =>
         node b ≫= λ nb,
         upd_group g (set_g_prev (group nb)) ≫= λ _,
         deref (group nb) ≫= λ h, upd_group h (set_g_next (Some g))
     | None => mret ()
     end) ≫= λ _,
    upd_group g (set_g_next (group o)) ≫= λ _,
    deref (group o) ≫= λ h, upd_group h (set_g_prev (Some g)).
Definition insert_into_siblings_before (a other : nat) : Tree unit :=
  check_siblings a other ≫= λ _, splice_before a other ≫= λ _, join_before a other.

(** [insert_into_siblings_after(node, other)] *)
Definition splice_after (a other : nat) : Tree unit :=
  node other ≫= λ o,
  node a ≫= λ n, deref (parent n) ≫= λ p,
  link (next_sibling o) (set_prev_sibling (Some a)) (upd p (set_tail_child (Some a))) ≫= λ _,
  upd a (set_prev_sibling (Some other)) ≫= λ _,
  upd a (set_next_sibling (next_sibling o)) ≫= λ _,
  upd other (set_next_sibling (Some a)).
Definition join_after (a other : nat) : Tree unit :=
  node a ≫= λ n, node other ≫= λ o,
  counts (next_sibling n) (λ c, count n =? c) ≫= λ joins : bool,
  if joins then
    deref (next_sibling n) ≫= λ b, node b ≫= λ nb,
    assign_group a (group nb) ≫= λ _,
    deref (group nb) ≫= λ g, grp g ≫= λ x,
    if bool_decide (g_head x = Some b) then upd_group g (set_g_head (Some a)) else mret ()
  else if count n =? count o then assign_group a (group o)
  else
    own_group a ≫= λ g,
    (match next_sibling n with
     | Some b =>
         node b ≫= λ nb,
         upd_group g (set_g_next (group nb)) ≫= λ _,
         deref (group nb) ≫= λ h, upd_group h (set_g_prev (Some g))
     | None => mret ()
     end) ≫= λ _,
    upd_group g (set_g_prev (group o)) ≫= λ _,
    deref (group o) ≫= λ h, upd_group h (set_g_next (Some g)).
Definition insert_into_siblings_after (a other : nat) : Tree unit :=
  check_siblings a other ≫= λ _, splice_after a other ≫= λ _, join_after a other.

(** [replace_in_siblings(old_node, new_node)] *)
Definition swap_sibling (old new : nat) : Tree unit :=
  node old ≫= λ o,
  deref (parent o) ≫= λ p,
  link (next_sibling o) (set_prev_sibling (Some new)) (upd p (set_tail_child (Some new))) ≫= λ _,
  link (prev_sibling o) (set_next_sibling (Some new)) (upd p (set_head_child (Some new))) ≫= λ _,
  upd new (set_prev_sibling (prev_sibling o)) ≫= λ _,
  upd new (set_next_sibling (next_sibling o)) ≫= λ _,
  upd old (λ n, set_prev_sibling None (set_next_sibling None n)).
Definition swap_group (old new : nat) : Tree unit :=
  node old ≫= λ o,
  deref (group o) ≫= λ g, grp g ≫= λ x,
  (if bool_decide (g_head x = Some old) then upd_group g (set_g_head (Some new)) else mret ()) ≫= λ _,
  assign_group new (group o) ≫= λ _,
  assign_group old None.
Definition replace_in_siblings (old new : nat) : Tree unit :=
  node old ≫= λ o, node new ≫= λ n,
  check (count o =? count n) "old_node->count == new_node->count" ≫= λ _,
  check (bool_decide (parent o ≠ None)) "old_node->parent" ≫= λ _,
  swap_sibling old new ≫= λ _,
  swap_group old new.

Definition incr (a : nat) : Tree unit := upd a (λ n, set_count (count n + 1) n).
Definition decr (a : nat) : Tree unit := upd a (λ n, set_count (count n - 1) n).
(** [assert(group.use_count() == 1)] *)
Definition alone (g : nat) : Tree unit :=
  gets (use_count g) ≫= λ u, check (u =? 1)%nat "node->group.use_count() == 1".
(** The first node of the group [g] splits off to a new group in front of it, the next one
    being [b]; and the last one to a new group behind it. *)
Definition split_first (a g b : nat) : Tree unit :=
  grp g ≫= λ x,
  upd_group g (set_g_head (Some b)) ≫= λ _,
  new_group a ≫= λ g',
  upd_group g' (set_g_next (Some g)) ≫= λ _,
  (match g_prev x with
   | Some h => upd_group g' (set_g_prev (Some h)) ≫= λ _, upd_group h (set_g_next (Some g'))
   | None => mret ()
   end) ≫= λ _,
  upd_group g (set_g_prev (Some g')) ≫= λ _,
  assign_group a (Some g').
Definition split_last (a g : nat) : Tree unit :=
  grp g ≫= λ x,
  new_group a ≫= λ g',
  upd_group g' (set_g_prev (Some g)) ≫= λ _,
  (match g_next x with
   | Some h => upd_group g' (set_g_next (Some h)) ≫= λ _, upd_group h (set_g_prev (Some g'))
   | None => mret ()
   end) ≫= λ _,
  upd_group g (set_g_next (Some g')) ≫= λ _,
  assign_group a (Some g').
(** The last node of the group [g] becomes the first one of the next group, that of [b]; the
    group [g] goes when that was its only node. *)
Definition join_next (a g b : nat) : Tree unit :=
  grp g ≫= λ x,
  node b ≫= λ nb,
  deref (group nb) ≫= λ h, grp h ≫= λ y,
  check (bool_decide (g_head y = Some b)) "node->next_sibling->group->head == node->next_sibling" ≫= λ _,
  upd_group h (set_g_head (Some a)) ≫= λ _,
  (if bool_decide (g_head x = Some a) then
     alone g ≫= λ _,
     link_group (g_prev x) (set_g_next (g_next x)) ≫= λ _,
     deref (g_next x) ≫= λ h, upd_group h (set_g_prev (g_prev x))
   else mret ()) ≫= λ _,
  assign_group a (group nb).

(** [increment_count(node)] *)
Definition increment_count (a : nat) : Tree unit :=
  node a ≫= λ n,
  match parent n with
  | None => incr a
  | Some _ =>
      counts (prev_sibling n) (λ c, negb (count n + 1 <? c)) ≫= λ moves : bool,
      if negb moves then
        deref (group n) ≫= λ g, grp g ≫= λ x,
        check (bool_decide (g_head x = Some a)) "node->group->head == node" ≫= λ _,
        counts (next_sibling n) (λ c, negb (c <? count n)) ≫= λ shared : bool,
        if negb shared then alone g ≫= λ _, incr a
        else
          deref (next_sibling n) ≫= λ b, node b ≫= λ nb,
          check (count nb =? count n) "node->next_sibling->count == node->count" ≫= λ _,
          split_first a g b ≫= λ _,
          incr a
      else
        deref (prev_sibling n) ≫= λ b, node b ≫= λ nb,
        check (count n <=? count nb) "node->prev_sibling->count >= node->count" ≫= λ _,
        deref (group nb) ≫= λ h, grp h ≫= λ x,
        deref (g_head x) ≫= λ other,
        remove_from_siblings a ≫= λ _,
        incr a ≫= λ _,
        insert_into_siblings_before a other
  end.
(** [decrement_count(node)] *)
Definition decrement_count (a : nat) : Tree unit :=
  node a ≫= λ n,
  check (0 <? count n) "node->count > 0" ≫= λ _,
  match parent n with
  | None => decr a
  | Some p =>
      counts (next_sibling n) (λ c, negb (c <? count n - 1)) ≫= λ stays : bool,
      if negb stays then
        counts (prev_sibling n) (λ c, negb (count n <? c)) ≫= λ shared : bool,
        deref (group n) ≫= λ g,
        if negb shared then alone g ≫= λ _, decr a
        else
          deref (prev_sibling n) ≫= λ b, node b ≫= λ nb,
          check (count nb =? count n) "node->prev_sibling->count == node->count" ≫= λ _,
          split_last a g ≫= λ _,
          decr a
      else
        deref (next_sibling n) ≫= λ b, node b ≫= λ nb,
        deref (group n) ≫= λ g,
        if count nb =? count n - 1 then join_next a g b ≫= λ _, decr a
        else
          check (count nb =? count n) "node->next_sibling->count == node->count" ≫= λ _,
          grp g ≫= λ x,
          remove_from_siblings a ≫= λ _,
          decr a ≫= λ _,
          match g_next x with
          | None => node p ≫= λ np, deref (tail_child np) ≫= λ t, insert_into_siblings_after a t
          | Some h => grp h ≫= λ y, deref (g_head y) ≫= λ other, insert_into_siblings_before a other
          end
  end.
