(* ===== verification/SuffixSiblings.v ===== *)
(** The lists of siblings of the suffix tree ([SuffixTree]): the children of a node are in a
    doubly linked list by decreasing count, the nodes of the same count share a group, and
    the groups are in a doubly linked list.  [increment_count] and [decrement_count] keep
    that, move no other node, and no assert in them fails. *)

From stdpp Require Import base gmap list strings sorting.
From Stdlib Require Import ZArith Lia.
From S2P Require Import Prelude SuffixTree.
Open Scope Z_scope.

(** ** Doubly linked lists

    [segment nx pv p l n]: the pointers [nx] and [pv] link the objects of [l], the one in
    front of them is [p] and the one behind them is [n]. *)
Section segment.
Implicit Types (nx pv : nat → option nat) (l : list nat) (p n : option nat).

Fixpoint segment nx pv p l n : Prop :=
  match l with
  | [] => True
  | a :: l => pv a = p ∧ nx a = from_option Some n (head l) ∧ segment nx pv (Some a) l n
  end.
Definition linked nx pv l : Prop := segment nx pv None l None.

Lemma chain_app nx pv l1 l2 p n :
  segment nx pv p (l1 ++ l2) n ↔
  segment nx pv p l1 (from_option Some n (head l2)) ∧ segment nx pv (from_option Some p (last l1)) l2 n.
Proof.
  revert p. induction l1 as [|a l1 IH]; intros p; simpl; [tauto|].
  rewrite IH. replace (head (l1 ++ l2)) with (from_option Some (head l2) (head l1)) by by destruct l1.
  replace (from_option Some p (last (a :: l1))) with (from_option Some (Some a) (last l1)) by by rewrite last_cons; destruct (last l1).
  destruct l1; simpl; tauto.
Qed.
Lemma segment_ext nx pv nx' pv' l p n :
  (∀ a, a ∈ l → nx' a = nx a ∧ pv' a = pv a) → segment nx pv p l n → segment nx' pv' p l n.
Proof.
  revert p. induction l as [|a l IH]; intros p Hext; simpl; [done|]. intros (Hp & Hn & Hl).
  destruct (Hext a) as [-> ->]; [by left|]. split_and!; [done..|]. apply IH; [|done]. intros b Hb. apply Hext. by right.
Qed.

Lemma linked_at nx pv l1 a l2 : linked nx pv (l1 ++ a :: l2) → nx a = head l2 ∧ pv a = last l1.
Proof.
  intros (_ & Hp & Hn & _)%chain_app. rewrite Hn, Hp.
  split; [by destruct (head l2)|by destruct (last l1)].
Qed.
Ltac nodup H := rewrite ?NoDup_app, ?NoDup_cons in H; set_solver.
(** An object out of a list *)
Lemma linked_remove nx pv l1 a l2 nx' pv' :
  NoDup (l1 ++ a :: l2) → linked nx pv (l1 ++ a :: l2) →
  (∀ b, b ≠ a → nx' b = if decide (pv a = Some b) then nx a else nx b) →
  (∀ b, b ≠ a → pv' b = if decide (nx a = Some b) then pv a else pv b) →
  linked nx' pv' (l1 ++ l2).
Proof.
  intros Hnd Hl Hnx Hpv. destruct (linked_at _ _ _ _ _ Hl) as [Hna Hpa]. rewrite Hna in *. rewrite Hpa in *.
  clear Hna Hpa. unfold linked in *. apply chain_app in Hl as [H1 (_ & _ & H2)]. apply chain_app.
  assert (Hext : ∀ l, l ⊆ l1 ++ l2 → a ∉ l → (∀ b, b ∈ l → last l1 ≠ Some b) → (∀ b, b ∈ l → head l2 ≠ Some b) →
    ∀ b, b ∈ l → nx' b = nx b ∧ pv' b = pv b).
  { intros l _ Ha H3 H4 b Hb. rewrite Hnx, Hpv by set_solver. rewrite !decide_False by auto. done. }
  split.
  - destruct l1 as [|c l1' _] using rev_ind; [done|]. rewrite last_snoc in *. simpl in *.
    apply chain_app in H1 as [H1 (Hc & _ & _)]. apply chain_app. split.
    + eapply segment_ext; [|exact H1]. apply Hext.
      * set_solver.
      * nodup Hnd.
      * intros b Hb [= ->]. nodup Hnd.
      * intros b Hb. destruct l2 as [|d l2]; [done|]. intros [= ->]. nodup Hnd.
    + assert (c ≠ a) by (nodup Hnd). simpl. rewrite Hnx, Hpv by done.
      rewrite decide_False; [rewrite decide_True by done; by destruct l2|].
      destruct l2 as [|d l2]; [done|]. intros [= ->]. nodup Hnd.
  - destruct l2 as [|d l2]; [done|]. destruct H2 as (Hd & Hdn & H2).
    assert (d ≠ a) by (nodup Hnd).
    simpl. rewrite Hnx, Hpv by done. rewrite (decide_True _ _) by done. rewrite decide_False.
    2:{ intros Hc. apply last_Some in Hc as [l' ->]. nodup Hnd. }
    split_and!; [by destruct (last l1)|done|]. eapply segment_ext; [|exact H2]. apply Hext.
    + set_solver.
    + nodup Hnd.
    + intros b Hb Hc. apply last_Some in Hc as [l' ->]. nodup Hnd.
    + intros b Hb [= ->]. nodup Hnd.
Qed.
(** An object into a list *)
Lemma linked_insert nx pv l1 a l2 nx' pv' :
  NoDup (l1 ++ a :: l2) → linked nx pv (l1 ++ l2) →
  nx' a = head l2 → pv' a = last l1 →
  (∀ b, b ≠ a → nx' b = if decide (last l1 = Some b) then Some a else nx b) →
  (∀ b, b ≠ a → pv' b = if decide (head l2 = Some b) then Some a else pv b) →
  linked nx' pv' (l1 ++ a :: l2).
Proof.
  intros Hnd Hl Hna Hpa Hnx Hpv. unfold linked in *. apply chain_app in Hl as [H1 H2]. apply chain_app.
  apply NoDup_app in Hnd as (Hnd1 & Hd & Hnd2). apply NoDup_cons in Hnd2 as [Ha2 Hnd2].
  assert (Ha1 : a ∉ l1) by set_solver.
  split; [|split_and!; [rewrite Hpa; by destruct (last l1)|rewrite Hna; by destruct (head l2)|]].
  - destruct l1 as [|c l1' _] using rev_ind; [done|]. rewrite last_snoc in *. simpl.
    apply chain_app in H1 as [H1 (Hc & _ & _)]. apply chain_app. split.
    + eapply segment_ext; [|exact H1]. intros b Hb. rewrite Hnx, Hpv by set_solver.
      rewrite !decide_False; [done|..].
      * destruct l2 as [|d l2]; [done|]. intros [= ->]. set_solver.
      * intros [= ->]. apply NoDup_app in Hnd1. set_solver.
    + simpl. rewrite Hnx, Hpv by set_solver. rewrite decide_False; [by rewrite decide_True|].
      destruct l2 as [|d l2]; [done|]. intros [= ->]. set_solver.
  - destruct l2 as [|d l2]; [done|]. destruct H2 as (Hdp & Hdn & H2). simpl in *.
    assert (d ≠ a) by set_solver. rewrite Hnx, Hpv by done. rewrite (decide_True _ _) by done. rewrite decide_False.
    2:{ intros Hc. apply last_Some in Hc as [l' ->]. set_solver. }
    split_and!; [done..|]. eapply segment_ext; [|exact H2]. intros b Hb. rewrite Hnx, Hpv by set_solver.
    apply NoDup_cons in Hnd2 as [Hd2 _]. rewrite !decide_False; [done|..].
    + intros [= ->]. done.
    + intros Hc. apply last_Some in Hc as [l' ->]. set_solver.
Qed.
(** One object in the place of another *)
Lemma linked_replace nx pv l1 a l2 c nx' pv' :
  NoDup (l1 ++ a :: l2) → c ∉ l1 ++ a :: l2 → linked nx pv (l1 ++ a :: l2) →
  nx' c = nx a → pv' c = pv a →
  (∀ b, b ≠ a → b ≠ c → nx' b = if decide (pv a = Some b) then Some c else nx b) →
  (∀ b, b ≠ a → b ≠ c → pv' b = if decide (nx a = Some b) then Some c else pv b) →
  linked nx' pv' (l1 ++ c :: l2).
Proof.
  intros Hnd Hc Hl Hnc Hpc Hnx Hpv. destruct (linked_at _ _ _ _ _ Hl) as [Hna Hpa].
  pose (nx0 b := if decide (pv a = Some b) then nx a else nx b).
  pose (pv0 b := if decide (nx a = Some b) then pv a else pv b).
  assert (Ha : a ∉ l1 ++ l2 ∧ NoDup (l1 ++ l2)) by by apply NoDup_middle.
  assert (H0 : linked nx0 pv0 (l1 ++ l2)) by (eapply linked_remove; eauto).
  assert (Hmid : linked nx' pv' (l1 ++ c :: l2) ↔
    linked (λ b, if decide (b = a) then None else nx' b) (λ b, if decide (b = a) then None else pv' b) (l1 ++ c :: l2)).
  { assert (a ∉ l1 ++ c :: l2) by (intros Hin; rewrite !elem_of_app, elem_of_cons in *; set_solver).
    split; apply segment_ext; intros b Hb; by rewrite !decide_False by set_solver. }
  apply Hmid. eapply (linked_insert (λ b, if decide (b = a) then None else nx0 b) (λ b, if decide (b = a) then None else pv0 b)).
  - apply NoDup_middle. split; [set_solver|tauto].
  - eapply segment_ext; [|exact H0]. intros b Hb. by rewrite !decide_False by set_solver.
  - simpl. rewrite decide_False by set_solver. congruence.
  - simpl. rewrite decide_False by set_solver. congruence.
  - intros b Hb. destruct (decide (b = a)) as [->|Hba].
    { rewrite decide_False; [done|]. intros Hlast. apply last_Some in Hlast as [l' ->]. set_solver. }
    rewrite Hnx by done. unfold nx0. rewrite Hpa. by destruct (decide (last l1 = Some b)).
  - intros b Hb. destruct (decide (b = a)) as [->|Hba].
    { rewrite decide_False; [done|]. destruct l2; [done|]. intros [= ->]. set_solver. }
    rewrite Hpv by done. unfold pv0. rewrite Hna. by destruct (decide (head l2 = Some b)).
Qed.
End segment.

(** ** Views of the stores *)

Implicit Types (s : SuffixTree) (a b p g : nat) (l : list nat).
Definition nx s b : option nat := nodes s !! b ≫= next_sibling.
Definition pv s b : option nat := nodes s !! b ≫= prev_sibling.
Definition gnx s g : option nat := groups s !! g ≫= g_next.
Definition gpv s g : option nat := groups s !! g ≫= g_prev.
(** What an operation on the children of [p] leaves alone in a node, what it leaves alone
    unless the node is [p], and unless it is a child of [p] *)
Definition core (n : Node) := (token n, length_ n, ref_seq n, ref_idx n, endpoints n, parent n, children n).
Definition outer (n : Node) := (head_child n, tail_child n).
Definition inner (n : Node) := (count n, next_sibling n, prev_sibling n, group n).

Lemma wp_node a n (Q : Node → SuffixTree → Prop) s : nodes s !! a = Some n → Q n s → wp (node a) Q s.
Proof. intros Ha HQ. unfold node. wp_steps. by rewrite Ha. Qed.
Lemma wp_grp g x (Q : Group → SuffixTree → Prop) s : groups s !! g = Some x → Q x s → wp (grp g) Q s.
Proof. intros Ha HQ. unfold grp. wp_steps. by rewrite Ha. Qed.
Lemma wp_upd a f (Q : unit → SuffixTree → Prop) s :
  is_Some (nodes s !! a) → Q () (set_nodes (alter f a (nodes s)) s) → wp (upd a f) Q s.
Proof.
  intros [n Ha] HQ. unfold upd. wp_steps. eapply wp_node; [done|]. wp_steps.
  replace (<[a:=f n]> (nodes s)) with (alter f a (nodes s)); [done|].
  apply map_eq. intros i. rewrite lookup_alter, lookup_insert. case_decide; [|done]. subst. by rewrite Ha.
Qed.
Lemma wp_upd_group g f (Q : unit → SuffixTree → Prop) s :
  is_Some (groups s !! g) → Q () (set_groups (alter f g (groups s)) s) → wp (upd_group g f) Q s.
Proof.
  intros [n Ha] HQ. unfold upd_group. wp_steps. eapply wp_grp; [done|]. wp_steps.
  replace (<[g:=f n]> (groups s)) with (alter f g (groups s)); [done|].
  apply map_eq. intros i. rewrite lookup_alter, lookup_insert. case_decide; [|done]. subst. by rewrite Ha.
Qed.
Lemma wp_deref a (Q : nat → SuffixTree → Prop) s : Q a s → wp (deref (Some a)) Q s.
Proof. done. Qed.
Ltac tree_step :=
  lazymatch goal with
  | |- wp (deref (Some _)) _ _ => apply wp_deref
  | |- wp (node _) _ _ => eapply wp_node; [eassumption|]
  | |- wp (grp _) _ _ => eapply wp_grp; [eassumption|]
  | |- _ => wp_step
  end; cbv beta iota.
Ltac tree_steps := repeat tree_step.
Lemma wp_counts o test v (Q : bool → SuffixTree → Prop) s :
  (∀ b, o = Some b → ∃ n, nodes s !! b = Some n ∧ test (count n) = v) → (o = None → v = false) → Q v s → wp (counts o test) Q s.
Proof.
  intros Hs Hn HQ. destruct o as [b|]; simpl; [|by rewrite <-Hn].
  destruct (Hs b eq_refl) as (n & Hb & <-). by tree_steps.
Qed.
Lemma use_count_pos g s : (use_count g s ≠ 0)%nat ↔ ∃ b n, nodes s !! b = Some n ∧ group n = Some g.
Proof.
  unfold use_count. split.
  - destruct (filter _ _) as [|[b n] l] eqn:E; [done|]. intros _.
    assert ((b, n) ∈ filter (λ x : nat * Node, group x.2 = Some g) (map_to_list (nodes s))) as Hin by (rewrite E; left).
    apply list_elem_of_filter in Hin as [Hg Hin]. apply elem_of_map_to_list in Hin. eauto.
  - intros (b & n & Hb & Hg) Hz. apply nil_length_inv in Hz.
    assert ((b, n) ∈ filter (λ x : nat * Node, group x.2 = Some g) (map_to_list (nodes s))) as Hin.
    { apply list_elem_of_filter. split; [done|]. by apply elem_of_map_to_list. }
    rewrite Hz in Hin. by apply elem_of_nil in Hin.
Qed.

(** Addresses are in use below [fresh], and the group of a node is in the store. *)
Record addressed s : Prop := {
  ad_nodes : ∀ a, is_Some (nodes s !! a) → (a < fresh s)%nat;
  ad_groups : ∀ g, is_Some (groups s !! g) → (g < fresh s)%nat;
  ad_group : ∀ b n g, nodes s !! b = Some n → group n = Some g → is_Some (groups s !! g);
}.

(** No node uses the group but children of [p]. *)
Definition mine s p g : Prop := ∀ b n, nodes s !! b = Some n → group n = Some g → parent n = Some p.
(** The difference an operation on the children of [p] makes to the rest *)
Record frame p s s' : Prop := {
  fr_rest : max_depth_ s' = max_depth_ s ∧ seqs_ s' = seqs_ s ∧ active_nodes_ s' = active_nodes_ s ∧ (fresh s ≤ fresh s')%nat;
  fr_core : ∀ b, core <$> nodes s' !! b = core <$> nodes s !! b;
  fr_outer : ∀ b, b ≠ p → outer <$> nodes s' !! b = outer <$> nodes s !! b;
  fr_inner : ∀ b n, nodes s !! b = Some n → parent n ≠ Some p → inner <$> nodes s' !! b = Some (inner n);
  fr_groups : ∀ b n g, nodes s !! b = Some n → parent n ≠ Some p → group n = Some g → groups s' !! g = groups s !! g;
  fr_new : ∀ b n' g, nodes s' !! b = Some n' → parent n' = Some p → group n' = Some g →
    mine s p g ∨ ∃ b0 n0, nodes s !! b0 = Some n0 ∧ parent n0 = Some p ∧ group n0 = Some g;
}.

Lemma fmap_Some_eq {A B} (f : A → B) (x y : option A) (u : A) :
  f <$> x = f <$> y → y = Some u → ∃ v, x = Some v ∧ f v = f u.
Proof. intros H ->. destruct x; simplify_eq/=. eauto. Qed.
Lemma frame_node p s s' b n :
  frame p s s' → nodes s !! b = Some n → ∃ n', nodes s' !! b = Some n' ∧ core n' = core n.
Proof. intros F Hb. exact (fmap_Some_eq core _ _ _ (fr_core _ _ _ F b) Hb). Qed.
Lemma frame_node_inv p s s' b n' :
  frame p s s' → nodes s' !! b = Some n' → ∃ n, nodes s !! b = Some n ∧ core n' = core n.
Proof. intros F Hb. destruct (fmap_Some_eq core _ _ _ (eq_sym (fr_core _ _ _ F b)) Hb) as (n & ? & ?). eauto. Qed.
Lemma core_parent n n' : core n' = core n → parent n' = parent n.
Proof. unfold core. congruence. Qed.

#[export] Instance frame_preorder p : PreOrder (frame p).
Proof.
  split.
  - intros s. split; try done.
    + intros b n Hb _. by rewrite Hb.
    + intros b n' g Hb Hp Hg. right. eauto.
  - intros s1 s2 s3 F1 F2.
    assert (Hin : ∀ b n, nodes s1 !! b = Some n → parent n ≠ Some p →
      ∃ n', nodes s2 !! b = Some n' ∧ inner n' = inner n ∧ parent n' = parent n).
    { intros b n Hb Hp. destruct (frame_node _ _ _ _ _ F1 Hb) as (n' & Hb' & Hc). exists n'. split_and!; [done| |by apply core_parent].
      pose proof (fr_inner _ _ _ F1 b n Hb Hp) as Hi. rewrite Hb' in Hi. simpl in Hi. congruence. }
    split.
    + pose proof (fr_rest _ _ _ F1) as (? & ? & ? & ?). pose proof (fr_rest _ _ _ F2) as (? & ? & ? & ?).
      split_and!; [congruence..|lia].
    + intros b. rewrite (fr_core _ _ _ F2). apply F1.
    + intros b Hb. rewrite (fr_outer _ _ _ F2) by done. by apply F1.
    + intros b n Hb Hp. destruct (Hin b n Hb Hp) as (n' & Hb' & Hi & Hp').
      rewrite (fr_inner _ _ _ F2 b n' Hb') by congruence. by rewrite Hi.
    + intros b n g Hb Hp Hg. destruct (Hin b n Hb Hp) as (n' & Hb' & Hi & Hp').
      rewrite (fr_groups _ _ _ F2 b n' g Hb') by (unfold inner in Hi; congruence). by eapply F1.
    + intros b n g Hb Hp Hg. destruct (fr_new _ _ _ F2 b n g Hb Hp Hg) as [Hf|(b0 & n0 & Hb0 & Hp0 & Hg0)].
      * left. intros b1 n1 Hb1 Hg1. destruct (decide (parent n1 = Some p)) as [|Hp1]; [done|].
        destruct (Hin b1 n1 Hb1 Hp1) as (n1' & Hb1' & Hi & <-). eapply Hf; [done|]. unfold inner in Hi. congruence.
      * eapply F1; eauto.
Qed.

(** ** The links between the children of a node *)

Record chain s p l : Prop := {
  ch_parent : ∃ n, nodes s !! p = Some n ∧ head_child n = head l ∧ tail_child n = last l;
  ch_out : p ∉ l;
  ch_nodup : NoDup l;
  ch_linked : linked (nx s) (pv s) l;
  ch_member : ∀ b, b ∈ l → ∃ n, nodes s !! b = Some n ∧ parent n = Some p;
}.
(** The groups and counts are the same. *)
Definition same_groups s s' : Prop :=
  groups s' = groups s ∧ fresh s' = fresh s ∧
  ∀ b, (λ n, (count n, group n, parent n)) <$> nodes s' !! b = (λ n, (count n, group n, parent n)) <$> nodes s !! b.
(** The lists of siblings are the same. *)
Definition same_links s s' : Prop :=
  ∀ b, (λ n, (parent n, head_child n, tail_child n, next_sibling n, prev_sibling n)) <$> nodes s' !! b =
       (λ n, (parent n, head_child n, tail_child n, next_sibling n, prev_sibling n)) <$> nodes s !! b.
Lemma same_links_node s s' b n :
  same_links s s' → nodes s !! b = Some n → ∃ n', nodes s' !! b = Some n' ∧ parent n' = parent n ∧
    head_child n' = head_child n ∧ tail_child n' = tail_child n ∧ next_sibling n' = next_sibling n ∧ prev_sibling n' = prev_sibling n.
Proof. intros H Hb. edestruct (fmap_Some_eq _ _ _ _ (H b) Hb) as (n' & Hb' & [= ????]). eauto 10. Qed.
Lemma same_links_nx s s' b : same_links s s' → nx s' b = nx s b ∧ pv s' b = pv s b.
Proof.
  intros H. specialize (H b). unfold nx, pv. destruct (nodes s' !! b), (nodes s !! b); simplify_eq/=; by split.
Qed.
Lemma same_links_chain s s' p l : same_links s s' → chain s p l → chain s' p l.
Proof.
  intros H [(n & Hn & Hh & Ht) Ho Hnd Hl Hm]. split; [|done|done| |].
  - destruct (same_links_node _ _ _ _ H Hn) as (n' & ? & _ & ? & ? & _). exists n'. split_and!; congruence.
  - eapply segment_ext; [|exact Hl]. intros b _. by apply same_links_nx.
  - intros b Hb. destruct (Hm b Hb) as (n1 & H1 & Hp). destruct (same_links_node _ _ _ _ H H1) as (n' & ? & ? & _). exists n'. split; congruence.
Qed.

(** The fields of the lists of siblings *)
Definition rewire (v w x y : option nat) : Node → Node :=
  set_next_sibling v ∘ set_prev_sibling w ∘ set_head_child x ∘ set_tail_child y.
Record rewired s s' (NX PV HD TL : nat → option nat) : Prop := {
  rw_rest : s' = set_nodes (nodes s') s;
  rw_nodes : ∀ b, nodes s' !! b = rewire (NX b) (PV b) (HD b) (TL b) <$> nodes s !! b;
}.
Definition hd s b : option nat := nodes s !! b ≫= head_child.
Definition tl s b : option nat := nodes s !! b ≫= tail_child.

Lemma rewired_groups s s' NX PV HD TL : rewired s s' NX PV HD TL → same_groups s s'.
Proof.
  intros [Hr Hn]. split_and!; [by rewrite Hr..|]. intros b. rewrite Hn. by destruct (nodes s !! b).
Qed.
Lemma rewired_frame p s s' NX PV HD TL :
  rewired s s' NX PV HD TL →
  (∀ b, b ≠ p → HD b = hd s b ∧ TL b = tl s b) →
  (∀ b n, nodes s !! b = Some n → parent n ≠ Some p → NX b = next_sibling n ∧ PV b = prev_sibling n) →
  frame p s s'.
Proof.
  intros [Hr Hn] Ho Hi. split.
  - by rewrite Hr.
  - intros b. rewrite Hn. by destruct (nodes s !! b).
  - intros b Hb. rewrite Hn. destruct (Ho b Hb) as [-> ->]. unfold hd, tl. by destruct (nodes s !! b).
  - intros b n Hb Hp. rewrite Hn, Hb. simpl. destruct (Hi b n Hb Hp) as [-> ->]. by destruct n.
  - intros. by rewrite Hr.
  - intros b n' g Hb Hp Hg. right. rewrite Hn in Hb. apply fmap_Some in Hb as (n & Hb & ->). eauto.
Qed.
Lemma rewired_chain s s' p l l' NX PV HD TL :
  rewired s s' NX PV HD TL → chain s p l → p ∉ l' → NoDup l' →
  (∀ b, b ∈ l' → ∃ n, nodes s !! b = Some n ∧ parent n = Some p) →
  HD p = head l' → TL p = last l' → linked NX PV l' → chain s' p l'.
Proof.
  intros [_ Hn] [(np & Hnp & _) _ _ _ _] Hp Hnd Hm Hhd Htl Hl. split; [|done|done| |].
  - rewrite Hn, Hnp. simpl. eauto.
  - eapply segment_ext; [|exact Hl]. intros b Hb. destruct (Hm b Hb) as (n & Hbn & _).
    unfold nx, pv. by rewrite Hn, Hbn.
  - intros b Hb. destruct (Hm b Hb) as (n & Hbn & ?). rewrite Hn, Hbn. simpl. eauto.
Qed.
(** A member of a list, and what is linked to it *)
Lemma chain_at s p l1 a l2 :
  chain s p (l1 ++ a :: l2) →
  ∃ n, nodes s !! a = Some n ∧ parent n = Some p ∧ next_sibling n = head l2 ∧ prev_sibling n = last l1.
Proof.
  intros C. destruct (ch_member _ _ _ C a) as (n & Hn & Hp). { rewrite elem_of_app. right. left. }
  destruct (linked_at _ _ _ _ _ (ch_linked _ _ _ C)) as [Hnx Hpv]. unfold nx, pv in *. rewrite Hn in *. eauto.
Qed.
Lemma chain_last s p l1 l2 b : chain s p (l1 ++ l2) → last l1 = Some b → b ∈ l1 ∧ is_Some (nodes s !! b) ∧ b ≠ p ∧ b ∉ l2.
Proof.
  intros C [l' ->]%last_Some. destruct (ch_member _ _ _ C b) as (n & ? & _); [set_solver|].
  pose proof (ch_out _ _ _ C). pose proof (ch_nodup _ _ _ C) as Hnd. rewrite NoDup_app in Hnd. set_solver.
Qed.
Lemma chain_head s p l1 l2 b : chain s p (l1 ++ l2) → head l2 = Some b → b ∈ l2 ∧ is_Some (nodes s !! b) ∧ b ≠ p ∧ b ∉ l1.
Proof.
  intros C Hb. destruct l2 as [|c l2]; [done|]. injection Hb as ->. destruct (ch_member _ _ _ C b) as (n & ? & _); [set_solver|].
  pose proof (ch_out _ _ _ C). pose proof (ch_nodup _ _ _ C) as Hnd. rewrite NoDup_app in Hnd. set_solver.
Qed.

Lemma chain_other s p l b n : chain s p l → nodes s !! b = Some n → parent n ≠ Some p → b ∉ l.
Proof. intros C Hb Hp Hin. destruct (ch_member _ _ _ C b Hin) as (n' & ? & ?). congruence. Qed.
Lemma last_in {A} (l : list A) x : last l = Some x → x ∈ l.
Proof. intros [l' ->]%last_Some. rewrite elem_of_app. right. left. Qed.
Lemma head_in {A} (l : list A) x : head l = Some x → x ∈ l.
Proof. destruct l; [done|]. intros [= ->]. left. Qed.
Lemma snoc_cons {A} (l1 : list A) (x : A) (l2 : list A) : l1 ++ x :: l2 = (l1 ++ [x]) ++ l2.
Proof. by rewrite <-app_assoc. Qed.
Lemma head_without {A} (l1 : list A) (x : A) (l2 : list A) : from_option (λ _, head (l1 ++ x :: l2)) (head l2) (last l1) = head (l1 ++ l2).
Proof. destruct l1 as [|y l1]; [done|]. destruct (last (y :: l1)) eqn:E; [done|]. by apply last_None in E. Qed.
Lemma last_without {A} (l1 : list A) (x : A) (l2 : list A) : from_option (λ _, last (l1 ++ x :: l2)) (last l1) (head l2) = last (l1 ++ l2).
Proof.
  destruct l2 as [|y l2]; [simpl; by rewrite app_nil_r|]. cbn [head from_option]. rewrite !last_app, last_cons.
  destruct (last (y :: l2)) eqn:E; [done|]. by apply last_None in E.
Qed.
Lemma Node_eq n n' :
  count n = count n' → token n = token n' → length_ n = length_ n' → ref_seq n = ref_seq n' → ref_idx n = ref_idx n' →
  endpoints n = endpoints n' → parent n = parent n' → children n = children n' → head_child n = head_child n' →
  tail_child n = tail_child n' → next_sibling n = next_sibling n' → prev_sibling n = prev_sibling n' →
  group n = group n' → n = n'.
Proof. destruct n, n'. simpl. congruence. Qed.
(** Closes the equation of [rewired] for a node, by cases on which one it is. *)
Ltac rewiring :=
  let b := fresh "b" in let n := fresh "n" in
  split; [done|]; intros b; simpl; rewrite ?lookup_alter; unfold hd, tl, nx, pv;
  destruct (nodes _ !! b) as [n|] eqn:?; simpl; repeat (case_decide; simplify_eq/=; try done);
  repeat match goal with H : nodes ?s !! _ = Some _ |- context [nodes ?s !! _] => rewrite H end; simpl;
  try done; f_equal; apply Node_eq; simpl; congruence.
Ltac upd_step := apply wp_upd; [simpl; rewrite ?lookup_alter; repeat case_decide; rewrite ?fmap_is_Some; eauto|]; cbv beta.

Lemma unlink_sibling_spec s p l1 a l2 :
  chain s p (l1 ++ a :: l2) →
  wp (unlink_sibling a) (λ _ s', chain s' p (l1 ++ l2) ∧ same_groups s s' ∧ frame p s s' ∧ nx s' a = None ∧ pv s' a = None) s.
Proof.
  intros C. destruct (chain_at _ _ _ _ _ C) as (n & Hn & Hp & Hnn & Hpn).
  destruct (ch_parent _ _ _ C) as (np & Hnp & Hhd & Htl).
  assert (Hap : a ≠ p) by (pose proof (ch_out _ _ _ C); set_solver).
  assert (Hl : ∀ b, last l1 = Some b → is_Some (nodes s !! b) ∧ b ≠ p ∧ b ≠ a ∧ head l2 ≠ Some b).
  { intros b Hb. destruct (chain_last _ _ _ _ _ C Hb) as (? & ? & ? & ?). split_and!; [done|done|set_solver|].
    destruct l2; [done|]. intros [= ->]. set_solver. }
  assert (Hh : ∀ b, head l2 = Some b → is_Some (nodes s !! b) ∧ b ≠ p ∧ b ≠ a).
  { intros b Hb. replace (l1 ++ a :: l2) with ((l1 ++ [a]) ++ l2) in C by by rewrite <-app_assoc.
    destruct (chain_head _ _ _ _ _ C Hb) as (? & ? & ? & ?). split_and!; [done|done|set_solver]. }
  pose (NX b := if decide (b = a) then None else if decide (pv s a = Some b) then nx s a else nx s b).
  pose (PV b := if decide (b = a) then None else if decide (nx s a = Some b) then pv s a else pv s b).
  pose (HD b := if decide (b = p) then from_option (λ _, hd s b) (nx s a) (pv s a) else hd s b).
  pose (TL b := if decide (b = p) then from_option (λ _, tl s b) (pv s a) (nx s a) else tl s b).
  assert (Hnxa : nx s a = head l2) by (unfold nx; by rewrite Hn).
  assert (Hpva : pv s a = last l1) by (unfold pv; by rewrite Hn).
  eapply (wp_mono _ (λ _ s', rewired s s' NX PV HD TL)).
  - unfold unlink_sibling. wp_steps. eapply wp_node; [done|]. wp_steps. rewrite Hp. wp_steps.
    subst NX PV HD TL. rewrite Hnn, Hpn. rewrite Hnxa, Hpva.
    destruct (head l2) as [d|] eqn:Ed, (last l1) as [c|] eqn:Ec; simpl;
      try destruct (Hl c eq_refl) as ([nc Hc] & ? & ? & ?); try destruct (Hh d eq_refl) as ([nd Hd] & ? & ?);
      wp_steps; upd_step; wp_steps; upd_step; upd_step; rewiring.
  - intros _ s' R. split_and!.
    + eapply rewired_chain; [exact R|exact C| | | | | |].
      * pose proof (ch_out _ _ _ C). set_solver.
      * by apply (NoDup_middle a), (ch_nodup _ _ _ C).
      * intros b Hb. apply (ch_member _ _ _ C). rewrite elem_of_app, elem_of_cons. set_solver.
      * unfold HD. rewrite decide_True, Hnxa, Hpva by done. unfold hd. rewrite Hnp. simpl. rewrite Hhd. apply head_without.
      * unfold TL. rewrite decide_True, Hnxa, Hpva by done. unfold tl. rewrite Hnp. simpl. rewrite Htl. apply last_without.
      * eapply (linked_remove (nx s) (pv s) l1 a l2).
        -- apply (ch_nodup _ _ _ C).
        -- apply (ch_linked _ _ _ C).
        -- intros b Hb. unfold NX. by rewrite decide_False.
        -- intros b Hb. unfold PV. by rewrite decide_False.
    + by eapply rewired_groups.
    + eapply rewired_frame; [exact R|..].
      * intros b Hb. unfold HD, TL. by rewrite !decide_False.
      * intros b nb Hb Hpb. unfold NX, PV. pose proof (chain_other _ _ _ _ _ C Hb Hpb) as Hbl. rewrite Hnxa, Hpva.
        rewrite !(decide_False (P:=b = a)) by set_solver. rewrite !decide_False.
        -- unfold nx, pv. by rewrite Hb.
        -- intros ?%head_in. set_solver.
        -- intros ?%last_in. set_solver.
    + unfold nx. rewrite (rw_nodes _ _ _ _ _ _ R), Hn. simpl. unfold NX. by rewrite decide_True.
    + unfold pv. rewrite (rw_nodes _ _ _ _ _ _ R), Hn. simpl. unfold PV. by rewrite decide_True.
Qed.

(** A child of [p] that is in no list goes in between [l1] and [l2]. *)
Definition inserted s s' p l1 a l2 : Prop :=
  rewired s s'
    (λ b, if decide (b = a) then head l2 else if decide (last l1 = Some b) then Some a else nx s b)
    (λ b, if decide (b = a) then last l1 else if decide (head l2 = Some b) then Some a else pv s b)
    (λ b, if decide (b = p) then from_option (λ _, hd s b) (Some a) (last l1) else hd s b)
    (λ b, if decide (b = p) then from_option (λ _, tl s b) (Some a) (head l2) else tl s b).
Lemma inserted_spec s s' p l1 a l2 n :
  chain s p (l1 ++ l2) → nodes s !! a = Some n → parent n = Some p → a ∉ l1 ++ l2 → a ≠ p →
  inserted s s' p l1 a l2 → chain s' p (l1 ++ a :: l2) ∧ same_groups s s' ∧ frame p s s'.
Proof.
  intros C Hn Hp Ha Hap R. destruct (ch_parent _ _ _ C) as (np & Hnp & Hhd & Htl). split_and!.
  - eapply rewired_chain; [exact R|exact C|..]; cbv beta.
    + pose proof (ch_out _ _ _ C). rewrite elem_of_app, elem_of_cons. set_solver.
    + apply NoDup_middle. split; [done|apply C].
    + intros b [Hb|[->|Hb]%elem_of_cons]%elem_of_app; [apply (ch_member _ _ _ C); set_solver|eauto|apply (ch_member _ _ _ C); set_solver].
    + rewrite decide_True by done. unfold hd. rewrite Hnp. simpl. rewrite Hhd.
      destruct l1 as [|x l1]; [done|]. simpl. destruct (last (x :: l1)) eqn:E; [done|]. by apply last_None in E.
    + rewrite decide_True by done. unfold tl. rewrite Hnp. simpl. rewrite Htl.
      rewrite !last_app, last_cons. destruct l2 as [|y l2]; [done|]. simpl head. destruct (last (y :: l2)) eqn:E; [done|].
      by apply last_None in E.
    + eapply (linked_insert (nx s) (pv s)); [| |cbv beta..].
      * apply NoDup_middle. split; [done|apply C].
      * apply C.
      * by rewrite decide_True.
      * by rewrite decide_True.
      * intros b Hb. by rewrite decide_False.
      * intros b Hb. by rewrite decide_False.
  - by eapply rewired_groups.
  - eapply rewired_frame; [exact R|..]; cbv beta.
    + intros b Hb. by rewrite !decide_False.
    + intros b nb Hb Hpb. pose proof (chain_other _ _ _ _ _ C Hb Hpb) as Hbl.
      assert (b ≠ a) by congruence. rewrite !(decide_False (P:=b = a)) by done. rewrite !decide_False.
      * unfold nx, pv. by rewrite Hb.
      * intros ?%head_in. set_solver.
      * intros ?%last_in. set_solver.
Qed.

Section splice.
Context (s : SuffixTree) (p a : nat) (n : Node) (Hn : nodes s !! a = Some n) (Hp : parent n = Some p) (Hap : a ≠ p).
Lemma splice_before_spec l1 o l2 :
  chain s p (l1 ++ o :: l2) → a ∉ l1 ++ o :: l2 →
  wp (splice_before a o) (λ _ s', chain s' p (l1 ++ a :: o :: l2) ∧ same_groups s s' ∧ frame p s s') s.
Proof.
  intros C Ha. eapply (wp_mono _ (λ _ s', inserted s s' p l1 a (o :: l2))); [|intros [] s' R; by apply (inserted_spec s s' p l1 a (o :: l2) n)].
  destruct (chain_at _ _ _ _ _ C) as (no & Ho & Hop & Hno & Hpo).
  destruct (ch_parent _ _ _ C) as (np & Hnp & Hhd & Htl).
  assert (o ≠ p ∧ a ≠ o) as [??] by (pose proof (ch_out _ _ _ C); set_solver).
  assert (Hl : ∀ b, last l1 = Some b → is_Some (nodes s !! b) ∧ b ≠ p ∧ b ≠ a ∧ b ≠ o).
  { intros b Hb. destruct (chain_last _ _ _ _ _ C Hb) as (? & ? & ? & ?). split_and!; [done|done|set_solver..]. }
  unfold splice_before, inserted. wp_steps. eapply wp_node; [done|]. wp_steps. eapply wp_node; [done|]. rewrite Hp. wp_steps.
  rewrite Hpo. simpl.
  destruct (last l1) as [c|] eqn:Ec; simpl; try destruct (Hl c eq_refl) as ([nc Hc] & ? & ? & ?);
    do 4 (wp_steps; upd_step); rewiring.
Qed.
Lemma splice_after_spec l1 o l2 :
  chain s p (l1 ++ o :: l2) → a ∉ l1 ++ o :: l2 →
  wp (splice_after a o) (λ _ s', chain s' p (l1 ++ o :: a :: l2) ∧ same_groups s s' ∧ frame p s s') s.
Proof.
  intros C Ha. destruct (chain_at _ _ _ _ _ C) as (no & Ho & Hop & Hno & Hpo).
  destruct (ch_parent _ _ _ C) as (np & Hnp & Hhd & Htl).
  rewrite snoc_cons in C, Ha. rewrite (snoc_cons l1 o).
  eapply (wp_mono _ (λ _ s', inserted s s' p (l1 ++ [o]) a l2)); [|intros [] s' R; by apply (inserted_spec s s' p (l1 ++ [o]) a l2 n)].
  assert (o ≠ p ∧ a ≠ o) as [??] by (pose proof (ch_out _ _ _ C); set_solver).
  assert (Hl : ∀ b, head l2 = Some b → is_Some (nodes s !! b) ∧ b ≠ p ∧ b ≠ a ∧ b ≠ o).
  { intros b Hb. destruct (chain_head _ _ _ _ _ C Hb) as (? & ? & ? & ?). split_and!; [done|done|set_solver..]. }
  unfold splice_after, inserted. wp_steps. eapply wp_node; [done|]. wp_steps. eapply wp_node; [done|]. rewrite Hp. wp_steps.
  rewrite Hno, last_snoc. simpl.
  destruct (head l2) as [c|] eqn:Ec; simpl; try destruct (Hl c eq_refl) as ([nc Hc] & ? & ? & ?);
    do 4 (wp_steps; upd_step); rewiring.
Qed.
Lemma swap_sibling_spec l1 o l2 :
  chain s p (l1 ++ o :: l2) → a ∉ l1 ++ o :: l2 →
  wp (swap_sibling o a) (λ _ s', chain s' p (l1 ++ a :: l2) ∧ same_groups s s' ∧ frame p s s' ∧ nx s' o = None ∧ pv s' o = None) s.
Proof.
  intros C Ha. destruct (chain_at _ _ _ _ _ C) as (no & Ho & Hop & Hno & Hpo).
  destruct (ch_parent _ _ _ C) as (np & Hnp & Hhd & Htl).
  pose (NX b := if decide (b = a) then nx s o else if decide (b = o) then None else if decide (pv s o = Some b) then Some a else nx s b).
  pose (PV b := if decide (b = a) then pv s o else if decide (b = o) then None else if decide (nx s o = Some b) then Some a else pv s b).
  pose (HD b := if decide (b = p) then from_option (λ _, hd s b) (Some a) (pv s o) else hd s b).
  pose (TL b := if decide (b = p) then from_option (λ _, tl s b) (Some a) (nx s o) else tl s b).
  assert (o ≠ p ∧ a ≠ o) as [Hop' Hao] by (pose proof (ch_out _ _ _ C); set_solver).
  assert (Hnxo : nx s o = head l2) by (unfold nx; by rewrite Ho).
  assert (Hpvo : pv s o = last l1) by (unfold pv; by rewrite Ho).
  assert (Hl : ∀ b, last l1 = Some b → is_Some (nodes s !! b) ∧ b ≠ p ∧ b ≠ a ∧ b ≠ o ∧ head l2 ≠ Some b).
  { intros b Hb. destruct (chain_last _ _ _ _ _ C Hb) as (? & ? & ? & ?). split_and!; [done|done|set_solver..|].
    intros ?%head_in. set_solver. }
  assert (Hh : ∀ b, head l2 = Some b → is_Some (nodes s !! b) ∧ b ≠ p ∧ b ≠ a ∧ b ≠ o).
  { intros b Hb. rewrite snoc_cons in C. destruct (chain_head _ _ _ _ _ C Hb) as (? & ? & ? & ?). split_and!; [done|done|set_solver..]. }
  eapply (wp_mono _ (λ _ s', rewired s s' NX PV HD TL)).
  - unfold swap_sibling. wp_steps. eapply wp_node; [done|]. rewrite Hop. wp_steps.
    subst NX PV HD TL. rewrite Hno, Hpo. rewrite Hnxo, Hpvo.
    destruct (head l2) as [d|] eqn:Ed, (last l1) as [c|] eqn:Ec; simpl;
      try destruct (Hl c eq_refl) as ([nc Hc] & ? & ? & ? & ?); try destruct (Hh d eq_refl) as ([nd Hd] & ? & ? & ?);
      do 5 (wp_steps; upd_step); rewiring.
  - intros _ s' R. split_and!.
    + eapply rewired_chain; [exact R|exact C|..].
      * pose proof (ch_out _ _ _ C). rewrite elem_of_app, elem_of_cons in *. set_solver.
      * apply NoDup_middle. split; [set_solver|by apply (NoDup_middle o), (ch_nodup _ _ _ C)].
      * intros b Hb. destruct (decide (b = a)) as [->|Hba]; [eauto|]. apply (ch_member _ _ _ C).
        rewrite elem_of_app, elem_of_cons in *. set_solver.
      * unfold HD. rewrite decide_True, Hpvo by done. unfold hd. rewrite Hnp. simpl. rewrite Hhd.
        destruct l1 as [|x l1]; [done|]. simpl. destruct (last (x :: l1)) eqn:E; [done|]. by apply last_None in E.
      * unfold TL. rewrite decide_True, Hnxo by done. unfold tl. rewrite Hnp. simpl. rewrite Htl.
        rewrite !last_app, !last_cons. destruct l2 as [|y l2]; [done|]. simpl head. destruct (last (y :: l2)) eqn:E; [done|].
        by apply last_None in E.
      * eapply (linked_replace (nx s) (pv s) l1 o l2 a); [apply C|done|apply C|..].
        -- unfold NX. by rewrite decide_True.
        -- unfold PV. by rewrite decide_True.
        -- intros b Hb Hb'. unfold NX. by rewrite !(decide_False (P:=b = _)).
        -- intros b Hb Hb'. unfold PV. by rewrite !(decide_False (P:=b = _)).
    + by eapply rewired_groups.
    + eapply rewired_frame; [exact R|..].
      * intros b Hb. unfold HD, TL. by rewrite !decide_False.
      * intros b nb Hb Hpb. unfold NX, PV. pose proof (chain_other _ _ _ _ _ C Hb Hpb) as Hbl. rewrite Hnxo, Hpvo.
        assert (b ≠ a) by congruence. rewrite !(decide_False (P:=b = _)) by set_solver. rewrite !decide_False.
        -- unfold nx, pv. by rewrite Hb.
        -- intros ?%head_in. set_solver.
        -- intros ?%last_in. set_solver.
    + unfold nx. rewrite (rw_nodes _ _ _ _ _ _ R), Ho. simpl. unfold NX. by rewrite decide_False, decide_True by done.
    + unfold pv. rewrite (rw_nodes _ _ _ _ _ _ R), Ho. simpl. unfold PV. by rewrite decide_False, decide_True by done.
Qed.
End splice.
