(* ===== verification/SuffixGroups.v ===== *)
(** The groups of the siblings of the suffix tree ([SuffixTree], [SuffixSiblings]), and the
    operations that keep the children of a node in the order of their counts. *)

From stdpp Require Import base gmap list strings sorting.
From Stdlib Require Import ZArith Lia.
From S2P Require Import Prelude SuffixTree SuffixSiblings.
Open Scope Z_scope.

(** ** Runs: the siblings of a group, of the same count *)

Record Run := mkRun { r_group : nat; r_count : Z; r_nodes : list nat }.
Implicit Types (s : SuffixTree) (a b p g : nat) (l : list nat) (r : Run) (rs R : list Run).
Definition members rs : list nat := rs ≫= r_nodes.
Definition falls r r' : Prop := r_count r' < r_count r.
Definition view s b : option (Z * option nat * option nat) := (λ n, (count n, group n, parent n)) <$> nodes s !! b.
Definition ghead s g : option nat := groups s !! g ≫= g_head.
Record grouped s p rs : Prop := {
  gr_linked : linked (gnx s) (gpv s) (r_group <$> rs);
  gr_nodup : NoDup (r_group <$> rs);
  gr_sorted : StronglySorted falls rs;
  gr_head : ∀ r, r ∈ rs → r_nodes r ≠ [] ∧ ghead s (r_group r) = head (r_nodes r);
  gr_member : ∀ r b, r ∈ rs → b ∈ r_nodes r → view s b = Some (r_count r, Some (r_group r), Some p);
  gr_own : ∀ r b c q, r ∈ rs → view s b = Some (c, Some (r_group r), q) → b ∈ r_nodes r;
}.

Lemma members_app R1 R2 : members (R1 ++ R2) = members R1 ++ members R2.
Proof. apply bind_app. Qed.
Lemma members_mid R1 g c l R2 : members (R1 ++ mkRun g c l :: R2) = members R1 ++ l ++ members R2.
Proof. by rewrite members_app. Qed.
Lemma elem_of_members b rs : b ∈ members rs ↔ ∃ r, r ∈ rs ∧ b ∈ r_nodes r.
Proof. unfold members. rewrite list_elem_of_bind. naive_solver. Qed.
Lemma falls_mid R1 r R2 :
  StronglySorted falls (R1 ++ r :: R2) ↔
  StronglySorted falls (R1 ++ R2) ∧ (∀ x, x ∈ R1 → r_count r < r_count x) ∧ (∀ x, x ∈ R2 → r_count x < r_count r).
Proof.
  rewrite !StronglySorted_app, StronglySorted_cons, Forall_forall. unfold falls.
  split.
  - intros (H1 & H2 & H3 & H4). split_and!; [..|done]; [|done|done|].
    + intros x y Hx Hy. apply H1; [done|by right].
    + intros x Hx. apply H1; [done|left].
  - intros ((H1 & H2 & H3) & H4 & H5). split_and!; [|done|done|done].
    intros x y Hx [->|Hy]%elem_of_cons; auto.
Qed.
Lemma elem_of_mid {A} (x y : A) (l1 l2 : list A) : x ∈ l1 ++ y :: l2 ↔ x = y ∨ x ∈ l1 ++ l2.
Proof. rewrite !elem_of_app, elem_of_cons. tauto. Qed.
Lemma groups_mid R1 r R2 : r_group <$> (R1 ++ r :: R2) = (r_group <$> R1) ++ r_group r :: (r_group <$> R2).
Proof. by rewrite fmap_app. Qed.
Lemma grouped_at s p R1 g c ns R2 b : grouped s p (R1 ++ mkRun g c ns :: R2) → b ∈ ns → view s b = Some (c, Some g, Some p).
Proof. intros G Hb. apply (gr_member _ _ _ G (mkRun g c ns)); [|done]. rewrite elem_of_mid. by left. Qed.
Lemma grouped_other s p R1 r R2 r' : grouped s p (R1 ++ r :: R2) → r' ∈ R1 ++ R2 → r_group r' ≠ r_group r.
Proof.
  intros G Hr Heq. pose proof (gr_nodup _ _ _ G) as Hnd. rewrite groups_mid in Hnd. apply NoDup_middle in Hnd as [Hnd _].
  apply Hnd. rewrite <-fmap_app, <-Heq. by apply list_elem_of_fmap_2.
Qed.
(** A node is in one run only. *)
Lemma grouped_once s p R1 g c ns R2 b r : grouped s p (R1 ++ mkRun g c ns :: R2) → b ∈ ns → r ∈ R1 ++ R2 → b ∉ r_nodes r.
Proof.
  intros G Hb Hr Hbr. pose proof (grouped_at _ _ _ _ _ _ _ _ G Hb) as Hv.
  rewrite (gr_member _ _ _ G r b) in Hv; [|by rewrite elem_of_mid; right|done].
  simplify_eq. by apply (grouped_other _ _ _ _ _ r G Hr).
Qed.

(** ** What a change of a group does to the runs, [a] being the node that moves *)

Section changes.
Context (s s' : SuffixTree) (p a : nat) (Hview : ∀ b, b ≠ a → view s' b = view s b).

(** A member leaves its run, which keeps others. *)
Lemma grouped_drop_member R1 g c ns1 ns2 R2 v :
  grouped s p (R1 ++ mkRun g c (ns1 ++ a :: ns2) :: R2) → NoDup (ns1 ++ a :: ns2) → ns1 ++ ns2 ≠ [] →
  view s' a = v → (∀ r x y, r ∈ R1 ++ mkRun g c (ns1 ++ ns2) :: R2 → v ≠ Some (x, Some (r_group r), y)) →
  (∀ r, r ∈ R1 ++ mkRun g c (ns1 ++ ns2) :: R2 → gnx s' (r_group r) = gnx s (r_group r) ∧ gpv s' (r_group r) = gpv s (r_group r)) →
  (∀ r, r ∈ R1 ++ R2 → ghead s' (r_group r) = ghead s (r_group r)) → ghead s' g = head (ns1 ++ ns2) →
  grouped s' p (R1 ++ mkRun g c (ns1 ++ ns2) :: R2).
Proof.
  intros G Hnd Hne Hva Hv Hlinks Hheads Hh.
  assert (Hgs : r_group <$> (R1 ++ mkRun g c (ns1 ++ ns2) :: R2) = r_group <$> (R1 ++ mkRun g c (ns1 ++ a :: ns2) :: R2))
    by by rewrite !groups_mid.
  apply NoDup_middle in Hnd as [Ha _]. split.
  - rewrite Hgs. eapply segment_ext; [|apply G]. intros h Hin. rewrite <-Hgs in Hin.
    apply list_elem_of_fmap in Hin as (r & -> & Hr). by apply Hlinks.
  - rewrite Hgs. apply G.
  - pose proof (gr_sorted _ _ _ G) as Hs. rewrite falls_mid in *. done.
  - intros r [->|Hr]%elem_of_mid; [done|]. rewrite Hheads by done. apply G. rewrite elem_of_mid. by right.
  - intros r b [->|Hr]%elem_of_mid Hb; simpl in *.
    + rewrite Hview by set_solver. eapply grouped_at; [exact G|]. rewrite elem_of_mid. by right.
    + rewrite Hview; [apply G; [|done]; rewrite elem_of_mid; by right|]. intros ->. revert Hb.
      eapply grouped_once; [exact G| |done]. rewrite elem_of_mid. by left.
  - intros r b x y Hr Hb. destruct (decide (b = a)) as [->|Hba].
    { rewrite Hva in Hb. by destruct (Hv r x y). }
    rewrite Hview in Hb by done. apply elem_of_mid in Hr as [->|Hr]; simpl in *.
    + assert (b ∈ ns1 ++ a :: ns2) as Hin. { eapply (gr_own _ _ _ G (mkRun g c _)); [|exact Hb]. rewrite elem_of_mid. by left. }
      apply elem_of_mid in Hin. tauto.
    + eapply (gr_own _ _ _ G r); [|exact Hb]. rewrite elem_of_mid. by right.
Qed.
(** The only member of a run leaves, and the run with it. *)
Lemma grouped_drop_run R1 g c R2 v :
  grouped s p (R1 ++ mkRun g c [a] :: R2) →
  view s' a = v → (∀ r x y, r ∈ R1 ++ R2 → v ≠ Some (x, Some (r_group r), y)) →
  (∀ h, h ≠ g → gnx s' h = if decide (gpv s g = Some h) then gnx s g else gnx s h) →
  (∀ h, h ≠ g → gpv s' h = if decide (gnx s g = Some h) then gpv s g else gpv s h) →
  (∀ r, r ∈ R1 ++ R2 → ghead s' (r_group r) = ghead s (r_group r)) →
  grouped s' p (R1 ++ R2).
Proof.
  intros G Hva Hv Hnx Hpv Hheads.
  pose proof (gr_nodup _ _ _ G) as Hnd. pose proof (gr_linked _ _ _ G) as Hl. rewrite groups_mid in Hnd, Hl.
  assert (Hin : ∀ r, r ∈ R1 ++ R2 → r ∈ R1 ++ mkRun g c [a] :: R2) by (intros r Hr; rewrite elem_of_mid; by right).
  split.
  - rewrite fmap_app. eapply linked_remove; eauto.
  - rewrite fmap_app. by apply NoDup_middle in Hnd as [_ Hnd].
  - pose proof (gr_sorted _ _ _ G) as Hs. by apply falls_mid in Hs as [Hs _].
  - intros r Hr. rewrite Hheads by done. by apply G, Hin.
  - intros r b Hr Hb. rewrite Hview; [apply G; auto|]. intros ->. revert Hb.
    eapply grouped_once; [exact G|left|done].
  - intros r b x y Hr Hb. destruct (decide (b = a)) as [->|Hba].
    { rewrite Hva in Hb. by destruct (Hv r x y). }
    rewrite Hview in Hb by done. by eapply (gr_own _ _ _ G r); eauto.
Qed.
(** A node joins a run. *)
Lemma grouped_add_member R1 g c ns1 ns2 R2 :
  grouped s p (R1 ++ mkRun g c (ns1 ++ ns2) :: R2) → a ∉ members (R1 ++ mkRun g c (ns1 ++ ns2) :: R2) →
  view s' a = Some (c, Some g, Some p) →
  (∀ r, r ∈ R1 ++ mkRun g c (ns1 ++ ns2) :: R2 → gnx s' (r_group r) = gnx s (r_group r) ∧ gpv s' (r_group r) = gpv s (r_group r)) →
  (∀ r, r ∈ R1 ++ R2 → ghead s' (r_group r) = ghead s (r_group r)) → ghead s' g = head (ns1 ++ a :: ns2) →
  grouped s' p (R1 ++ mkRun g c (ns1 ++ a :: ns2) :: R2).
Proof.
  intros G Ha Hva Hlinks Hheads Hh.
  assert (Hgs : r_group <$> (R1 ++ mkRun g c (ns1 ++ a :: ns2) :: R2) = r_group <$> (R1 ++ mkRun g c (ns1 ++ ns2) :: R2))
    by by rewrite !groups_mid.
  assert (Hout : ∀ r b, r ∈ R1 ++ mkRun g c (ns1 ++ ns2) :: R2 → b ∈ r_nodes r → b ≠ a).
  { intros r b Hr Hb ->. apply Ha, elem_of_members. eauto. }
  assert (Hin : ∀ r, r ∈ R1 ++ R2 → r ∈ R1 ++ mkRun g c (ns1 ++ ns2) :: R2) by (intros r Hr; rewrite elem_of_mid; by right).
  split.
  - rewrite Hgs. eapply segment_ext; [|apply G]. intros h (r & -> & Hr)%list_elem_of_fmap. by apply Hlinks.
  - rewrite Hgs. apply G.
  - pose proof (gr_sorted _ _ _ G) as Hs. rewrite falls_mid in *. done.
  - intros r [->|Hr]%elem_of_mid; [|rewrite Hheads by done; by apply G, Hin]. split; [|done]. simpl. by destruct ns1.
  - intros r b [->|Hr]%elem_of_mid Hb; simpl in *.
    + apply elem_of_mid in Hb as [->|Hb]; [done|]. assert (b ≠ a).
      { apply (Hout (mkRun g c (ns1 ++ ns2))); [|done]. rewrite elem_of_mid. by left. }
      rewrite Hview by done. eapply grouped_at; eauto.
    + rewrite Hview by eauto. apply G; auto.
  - intros r b x y Hr Hb. destruct (decide (b = a)) as [->|Hba].
    { rewrite Hva in Hb. injection Hb as _ Hg _. apply elem_of_mid in Hr as [->|Hr]; simpl.
      - rewrite elem_of_mid. by left.
      - by destruct (grouped_other _ _ _ _ _ r G Hr). }
    rewrite Hview in Hb by done. apply elem_of_mid in Hr as [->|Hr]; simpl in *.
    + rewrite elem_of_mid. right. eapply (gr_own _ _ _ G (mkRun g c (ns1 ++ ns2))); [|exact Hb]. rewrite elem_of_mid. by left.
    + by eapply (gr_own _ _ _ G r); eauto.
Qed.
(** A node makes a run of its own, of a count in between. *)
Lemma grouped_add_run R1 g c R2 :
  grouped s p (R1 ++ R2) → a ∉ members (R1 ++ R2) → g ∉ r_group <$> (R1 ++ R2) →
  view s' a = Some (c, Some g, Some p) → (∀ b x y, b ≠ a → view s b ≠ Some (x, Some g, y)) →
  (∀ r, r ∈ R1 → c < r_count r) → (∀ r, r ∈ R2 → r_count r < c) →
  gnx s' g = r_group <$> head R2 → gpv s' g = r_group <$> last R1 →
  (∀ h, h ≠ g → gnx s' h = if decide (r_group <$> last R1 = Some h) then Some g else gnx s h) →
  (∀ h, h ≠ g → gpv s' h = if decide (r_group <$> head R2 = Some h) then Some g else gpv s h) →
  (∀ r, r ∈ R1 ++ R2 → ghead s' (r_group r) = ghead s (r_group r)) → ghead s' g = Some a →
  grouped s' p (R1 ++ mkRun g c [a] :: R2).
Proof.
  intros G Ha Hg Hva Hnew Hc1 Hc2 Hgn Hgp Hnx Hpv Hheads Hh.
  pose proof (gr_nodup _ _ _ G) as Hnd. pose proof (gr_linked _ _ _ G) as Hl. rewrite fmap_app in Hnd, Hl, Hg.
  assert (Hnd' : NoDup ((r_group <$> R1) ++ g :: (r_group <$> R2))) by by apply NoDup_middle.
  assert (Hout : ∀ r b, r ∈ R1 ++ R2 → b ∈ r_nodes r → b ≠ a).
  { intros r b Hr Hb ->. apply Ha, elem_of_members. eauto. }
  assert (Hhd : head (r_group <$> R2) = r_group <$> head R2) by by destruct R2.
  assert (Hls : last (r_group <$> R1) = r_group <$> last R1) by apply fmap_last.
  split.
  - rewrite groups_mid. eapply (linked_insert (gnx s) (gpv s)); rewrite ?Hhd, ?Hls; eauto.
  - by rewrite groups_mid.
  - apply falls_mid. split; [apply G|done].
  - intros r [->|Hr]%elem_of_mid; [done|]. rewrite Hheads by done. by apply G.
  - intros r b [->|Hr]%elem_of_mid Hb; simpl in *.
    + apply list_elem_of_singleton in Hb as ->. done.
    + rewrite Hview by eauto. by apply G.
  - intros r b x y Hr Hb. destruct (decide (b = a)) as [->|Hba].
    { rewrite Hva in Hb. injection Hb as _ Hrg _. apply elem_of_mid in Hr as [->|Hr]; simpl; [left|].
      destruct Hg. rewrite Hrg, <-fmap_app. by apply list_elem_of_fmap_2. }
    rewrite Hview in Hb by done. apply elem_of_mid in Hr as [->|Hr]; simpl in *.
    + by destruct (Hnew b x y).
    + by eapply (gr_own _ _ _ G r).
Qed.
(** The count of a run of one node changes. *)
Lemma grouped_recount R1 g c c' R2 :
  grouped s p (R1 ++ mkRun g c [a] :: R2) → view s' a = Some (c', Some g, Some p) →
  (∀ r, r ∈ R1 → c' < r_count r) → (∀ r, r ∈ R2 → r_count r < c') → groups s' = groups s →
  grouped s' p (R1 ++ mkRun g c' [a] :: R2).
Proof.
  intros G Hva Hc1 Hc2 Hgs.
  assert (Heq : r_group <$> (R1 ++ mkRun g c' [a] :: R2) = r_group <$> (R1 ++ mkRun g c [a] :: R2)) by by rewrite !groups_mid.
  assert (Hin : ∀ r, r ∈ R1 ++ R2 → r ∈ R1 ++ mkRun g c [a] :: R2) by (intros r Hr; rewrite elem_of_mid; by right).
  assert (Hgh : ∀ h, ghead s' h = ghead s h) by (intros h; unfold ghead; by rewrite Hgs).
  split.
  - rewrite Heq. unfold gnx, gpv. rewrite Hgs. apply G.
  - rewrite Heq. apply G.
  - pose proof (gr_sorted _ _ _ G) as Hs. rewrite falls_mid in *. naive_solver.
  - intros r [->|Hr]%elem_of_mid; rewrite Hgh; simpl.
    + apply (gr_head _ _ _ G (mkRun g c [a])). rewrite elem_of_mid. by left.
    + by apply G, Hin.
  - intros r b [->|Hr]%elem_of_mid Hb; simpl in *.
    + apply list_elem_of_singleton in Hb as ->. done.
    + rewrite Hview; [apply G; auto|]. intros ->. revert Hb. eapply grouped_once; [exact G|left|done].
  - intros r b x y Hr Hb. destruct (decide (b = a)) as [->|Hba].
    { rewrite Hva in Hb. injection Hb as _ Hrg _. apply elem_of_mid in Hr as [->|Hr]; simpl; [left|].
      by destruct (grouped_other _ _ _ _ _ r G Hr). }
    rewrite Hview in Hb by done. apply elem_of_mid in Hr as [->|Hr]; simpl in *.
    + eapply (gr_own _ _ _ G (mkRun g c [a])); [|exact Hb]. rewrite elem_of_mid. by left.
    + by eapply (gr_own _ _ _ G r); eauto.
Qed.
End changes.

(** ** Steps that change groups only *)

Definition group_step p s s' : Prop :=
  frame p s s' ∧ same_links s s' ∧ (∀ b, count <$> nodes s' !! b = count <$> nodes s !! b) ∧ (addressed s → addressed s').
#[export] Instance group_step_preorder p : PreOrder (group_step p).
Proof.
  split.
  - intros s. by split_and!.
  - intros s1 s2 s3 (F1 & L1 & C1 & A1) (F2 & L2 & C2 & A2). split_and!; [by etrans| | |auto].
    + intros b. by rewrite L2.
    + intros b. by rewrite C2.
Qed.
Lemma frame_mine p s s' g : frame p s s' → mine s p g → mine s' p g.
Proof.
  intros F M b n' Hb Hg. destruct (frame_node_inv _ _ _ _ _ F Hb) as (n & Hn & Hc). apply core_parent in Hc.
  destruct (decide (parent n = Some p)) as [|Hp]; [congruence|].
  pose proof (fr_inner _ _ _ F b n Hn Hp) as Hi. rewrite Hb in Hi. injection Hi as _ _ _ Hi.
  rewrite Hc. eapply M; [done|]. congruence.
Qed.
Lemma view_node s b c og q : view s b = Some (c, og, q) → ∃ n, nodes s !! b = Some n ∧ count n = c ∧ group n = og ∧ parent n = q.
Proof. unfold view. destruct (nodes s !! b) as [n|]; [|done]. intros [= <- <- <-]. eauto. Qed.
Lemma grouped_mine s p rs r : grouped s p rs → r ∈ rs → mine s p (r_group r).
Proof.
  intros G Hr b n Hb Hg.
  assert (view s b = Some (count n, Some (r_group r), parent n)) as Hv by (unfold view; by rewrite Hb, <-Hg).
  pose proof (gr_own _ _ _ G r _ _ _ Hr Hv) as Hin. rewrite (gr_member _ _ _ G r b Hr Hin) in Hv. congruence.
Qed.
Lemma grouped_group s p rs r : grouped s p rs → r ∈ rs → ∃ x, groups s !! r_group r = Some x ∧ g_head x = head (r_nodes r).
Proof.
  intros G Hr. destruct (gr_head _ _ _ G r Hr) as [Hne Hh]. unfold ghead in Hh.
  destruct (groups s !! r_group r) as [x|]; simpl in *; [eauto|]. by destruct (r_nodes r).
Qed.

Lemma step_upd_group p g f s : is_Some (groups s !! g) → mine s p g → group_step p s (set_groups (alter f g (groups s)) s).
Proof.
  intros [x Hx] M. split_and!; [split; try done| |done|]; simpl.
  - intros b n Hb _. by rewrite Hb.
  - intros b n h Hb Hp Hg. rewrite lookup_alter_ne; [done|]. intros ->. by apply Hp, (M b n).
  - intros b n' h Hb Hp Hg. right. eauto.
  - done.
  - intros A. split; simpl.
    + apply A.
    + intros h. rewrite lookup_alter. case_decide; subst; rewrite ?fmap_is_Some; apply (ad_groups _ A).
    + intros b n h Hb Hg. rewrite lookup_alter. case_decide; subst; rewrite ?fmap_is_Some; by eapply (ad_group _ A).
Qed.
Lemma wp_upd_group_step p g f (Q : unit → SuffixTree → Prop) s :
  is_Some (groups s !! g) → mine s p g →
  (group_step p s (set_groups (alter f g (groups s)) s) → Q () (set_groups (alter f g (groups s)) s)) → wp (upd_group g f) Q s.
Proof. intros Hx M HQ. apply wp_upd_group; [done|]. by apply HQ, step_upd_group. Qed.

Definition alter_opt (og : option nat) (f : Group → Group) (m : gmap nat Group) : gmap nat Group :=
  from_option (λ h, alter f h m) m og.
Lemma lookup_alter_opt og f m h : alter_opt og f m !! h = if decide (og = Some h) then f <$> m !! h else m !! h.
Proof.
  destruct og as [h'|]; simpl; [|done]. rewrite lookup_alter. repeat case_decide; simplify_eq/=; done.
Qed.
Lemma wp_link_group_step p og f (Q : unit → SuffixTree → Prop) s :
  (∀ h, og = Some h → is_Some (groups s !! h) ∧ mine s p h) →
  (group_step p s (set_groups (alter_opt og f (groups s)) s) → Q () (set_groups (alter_opt og f (groups s)) s)) →
  wp (link_group og f) Q s.
Proof.
  intros Hog HQ. destruct og as [h|]; simpl in *.
  - destruct (Hog h eq_refl). by apply (wp_upd_group_step p).
  - assert (set_groups (groups s) s = s) as Heq by by destruct s. rewrite Heq in HQ. by apply wp_ret, HQ.
Qed.
Lemma is_Some_alter_opt og f m h : is_Some (m !! h) → is_Some (alter_opt og f m !! h).
Proof. rewrite lookup_alter_opt. case_decide; rewrite ?fmap_is_Some; done. Qed.
Lemma wp_new_group p a (Q : nat → SuffixTree → Prop) s :
  addressed s → mine s p (fresh s) →
  (∀ s', s' = set_fresh (S (fresh s)) (set_groups (<[fresh s := mkGroup (Some a) None None]> (groups s)) s) →
    group_step p s s' → Q (fresh s) s') → wp (new_group a) Q s.
Proof.
  intros A M HQ. unfold new_group. wp_steps. apply HQ; [done|].
  assert (groups s !! fresh s = None) as Hf.
  { apply eq_None_not_Some. intros H. pose proof (ad_groups _ A _ H). lia. }
  assert (∀ b n, nodes s !! b = Some n → group n ≠ Some (fresh s)) as Hun.
  { intros b n Hb Hg. destruct (ad_group _ A b n _ Hb Hg) as [x Hx]. congruence. }
  split_and!; [split; simpl; try done| |done|]; simpl.
  - split_and!; [done..|lia].
  - intros b n Hb _. by rewrite Hb.
  - intros b n h Hb Hp Hg. rewrite lookup_insert_ne; [done|]. intros <-. by eapply Hun.
  - intros b n' h Hb Hp Hg. right. eauto.
  - done.
  - intros _. split; simpl.
    + intros b Hb. pose proof (ad_nodes _ A b Hb). lia.
    + intros h. rewrite lookup_insert. case_decide; [subst; lia|]. intros Hb. pose proof (ad_groups _ A h Hb). lia.
    + intros b n h Hb Hg. rewrite lookup_insert. case_decide; [done|]. by eapply A.
Qed.
Lemma fresh_mine s p : addressed s → mine s p (fresh s).
Proof. intros A b n Hb Hg. destruct (ad_group _ A b n _ Hb Hg) as [x Hx]. pose proof (ad_groups _ A _ (mk_is_Some _ _ Hx)). lia. Qed.

(** The state [s'] after [a->group = og]: a group that no node has any more is gone. *)
Record assigned s s' a (og : option nat) : Prop := {
  as_rest : s' = set_groups (groups s') (set_nodes (alter (set_group og) a (nodes s)) s);
  as_some : ∀ g, is_Some (groups s' !! g) → groups s' !! g = groups s !! g;
  as_used : ∀ g, (∃ b n, nodes s' !! b = Some n ∧ group n = Some g) → groups s' !! g = groups s !! g;
  as_keep : ∀ g n, nodes s !! a = Some n → group n ≠ Some g → groups s' !! g = groups s !! g;
}.
Lemma wp_assign_group a n og (Q : unit → SuffixTree → Prop) s :
  nodes s !! a = Some n → (∀ s', assigned s s' a og → Q () s') → wp (assign_group a og) Q s.
Proof.
  intros Hn HQ. unfold assign_group. wp_steps. eapply wp_node; [done|]. wp_steps. apply wp_upd; [eauto|]. wp_steps.
  unfold release_group. destruct (group n) as [g|] eqn:Hg.
  2:{ apply wp_ret, HQ. by split. }
  wp_steps. destruct (use_count g _ =? 0)%nat eqn:Hu; apply HQ; [|by split].
  apply Nat.eqb_eq in Hu. split; simpl; [done|..].
  - intros h. rewrite lookup_delete. by case_decide.
  - intros h Hh. rewrite lookup_delete. case_decide; [subst|done]. exfalso.
    by apply (proj2 (use_count_pos h (set_nodes (alter (set_group og) a (nodes s)) s)) Hh).
  - intros h n' Hn' Hh. rewrite lookup_delete_ne; [done|]. congruence.
Qed.
Lemma assigned_step p a n og s s' :
  assigned s s' a og → nodes s !! a = Some n → parent n = Some p →
  (∀ g, og = Some g → is_Some (groups s !! g) ∧ mine s p g) → group_step p s s'.
Proof.
  intros [Hr Hs Hu Hk] Hn Hp Hog.
  assert (Hns : nodes s' = alter (set_group og) a (nodes s)) by by rewrite Hr.
  split_and!; [split|..].
  - by rewrite Hr.
  - intros b. rewrite Hns, lookup_alter. case_decide; [subst|done]. by destruct (nodes s !! _).
  - intros b _. rewrite Hns, lookup_alter. case_decide; [subst|done]. by destruct (nodes s !! _).
  - intros b n' Hb Hp'. rewrite Hns, lookup_alter, Hb. case_decide; [|done]. congruence.
  - intros b n' g Hb Hp' Hg. apply Hu. exists b, n'. rewrite Hns, lookup_alter, Hb. case_decide; [congruence|done].
  - intros b n' g Hb Hp' Hg. rewrite Hns, lookup_alter in Hb. case_decide; [|right; eauto].
    subst. rewrite Hn in Hb. injection Hb as <-. simpl in Hg. left. by apply Hog.
  - intros b. rewrite Hns, lookup_alter. case_decide; [subst|done]. by destruct (nodes s !! _).
  - intros b. rewrite Hns, lookup_alter. case_decide; [subst|done]. by destruct (nodes s !! _).
  - intros A. assert (fresh s' = fresh s) as Hf by by rewrite Hr. split; rewrite ?Hf, ?Hns.
    + intros b. rewrite lookup_alter. case_decide; subst; rewrite ?fmap_is_Some; apply (ad_nodes _ A).
    + intros g Hg. apply (ad_groups _ A). by rewrite <-Hs.
    + intros b n' g Hb Hg. rewrite Hu by (rewrite Hns; eauto). rewrite lookup_alter in Hb. case_decide; [|by eapply A].
      subst. rewrite Hn in Hb. injection Hb as <-. simpl in Hg. by apply Hog.
Qed.
Lemma assigned_view s s' a og b : assigned s s' a og →
  view s' b = if decide (b = a) then (λ n, (count n, og, parent n)) <$> nodes s !! a else view s b.
Proof.
  intros [Hr _ _ _]. unfold view. rewrite Hr. simpl. rewrite lookup_alter. repeat case_decide; simplify_eq/=; [|done].
  by destruct (nodes s !! a).
Qed.

(** ** A node out of its group *)

(** A child of [p] that has no group, or one of its own that is in no list *)
Definition loose s p a : Prop := ∃ n, nodes s !! a = Some n ∧ parent n = Some p ∧
  ∀ g, group n = Some g → groups s !! g = Some (mkGroup (Some a) None None) ∧
    ∀ b n', nodes s !! b = Some n' → group n' = Some g → b = a.
Definition keep g c l : list Run := match l with [] => [] | _ => [mkRun g c l] end.
Lemma members_cons g c l R2 : members (mkRun g c l :: R2) = l ++ members R2.
Proof. done. Qed.
Lemma members_keep g c l : members (keep g c l) = l.
Proof. destruct l; [done|]. unfold members. simpl. by rewrite app_nil_r. Qed.
Lemma run_nodup s p R1 g c ns R2 : chain s p (members (R1 ++ mkRun g c ns :: R2)) → NoDup ns.
Proof. intros C. pose proof (ch_nodup _ _ _ C) as Hnd. rewrite members_mid, !NoDup_app in Hnd. tauto. Qed.
Lemma in_mid {A} (x : A) (l1 l2 : list A) : x ∈ l1 ++ x :: l2.
Proof. rewrite elem_of_mid. by left. Qed.
Lemma in_out {A} (x y : A) (l1 l2 : list A) : x ∈ l1 ++ l2 → x ∈ l1 ++ y :: l2.
Proof. rewrite elem_of_mid. by right. Qed.
#[local] Hint Resolve in_mid in_out : core.
Lemma same_lookup s s' g : groups s' !! g = groups s !! g → gnx s' g = gnx s g ∧ gpv s' g = gpv s g ∧ ghead s' g = ghead s g.
Proof. unfold gnx, gpv, ghead. by intros ->. Qed.
Lemma view_lookup s b n : nodes s !! b = Some n → view s b = Some (count n, group n, parent n).
Proof. unfold view. by intros ->. Qed.
Lemma fmap_hd {A B} (f : A → B) (l : list A) : head (f <$> l) = f <$> head l.
Proof. by destruct l. Qed.
(** What is next to a node in a run *)
Lemma group_at s p R1 g c ns1 a ns2 R2 :
  chain s p (members (R1 ++ mkRun g c (ns1 ++ a :: ns2) :: R2)) → grouped s p (R1 ++ mkRun g c (ns1 ++ a :: ns2) :: R2) →
  ∃ n x, nodes s !! a = Some n ∧ count n = c ∧ group n = Some g ∧ parent n = Some p ∧
    next_sibling n = head (ns2 ++ members R2) ∧ prev_sibling n = last (members R1 ++ ns1) ∧
    groups s !! g = Some x ∧ g_head x = head (ns1 ++ a :: ns2) ∧
    g_next x = r_group <$> head R2 ∧ g_prev x = r_group <$> last R1.
Proof.
  intros C G. pose proof (grouped_at _ _ _ _ _ _ _ a G (in_mid _ _ _)) as (n & Hn & ? & ? & ?)%view_node.
  rewrite members_mid, <-app_assoc in C. simpl in C. rewrite app_assoc in C.
  destruct (chain_at _ _ _ _ _ C) as (n' & Hn' & _ & ? & ?).
  destruct (grouped_group _ _ _ _ G (in_mid _ _ _)) as (x & Hx & ?). simpl in *.
  pose proof (gr_linked _ _ _ G) as Hl. rewrite groups_mid in Hl. apply linked_at in Hl as [Hgn Hgp].
  simpl in *. unfold gnx, gpv in *. rewrite Hx in *. simpl in *. rewrite fmap_last in Hgp. rewrite fmap_hd in Hgn.
  simplify_eq. eauto 20.
Qed.
Lemma next_run s p R1 g c ns R2 d :
  grouped s p (R1 ++ mkRun g c ns :: R2) → head (members R2) = Some d → ∃ nd, nodes s !! d = Some nd ∧ count nd < c.
Proof.
  intros G (r & Hr & Hd)%head_in%elem_of_members.
  assert (r ∈ R1 ++ R2) as Hin by set_solver.
  destruct (view_node _ _ _ _ _ (gr_member _ _ _ G r d (in_out _ _ _ _ Hin) Hd)) as (nd & Hnd & Hc & _).
  pose proof (gr_sorted _ _ _ G) as (_ & _ & Hs)%falls_mid. specialize (Hs r Hr). simpl in Hs. exists nd. split; [done|lia].
Qed.
Lemma prev_run s p R1 g c ns R2 d :
  grouped s p (R1 ++ mkRun g c ns :: R2) → last (members R1) = Some d → ∃ nd, nodes s !! d = Some nd ∧ c < count nd.
Proof.
  intros G (r & Hr & Hd)%last_in%elem_of_members.
  assert (r ∈ R1 ++ R2) as Hin by set_solver.
  destruct (view_node _ _ _ _ _ (gr_member _ _ _ G r d (in_out _ _ _ _ Hin) Hd)) as (nd & Hnd & Hc & _).
  pose proof (gr_sorted _ _ _ G) as (_ & Hs & _)%falls_mid. specialize (Hs r Hr). simpl in Hs. exists nd. split; [done|lia].
Qed.
(** A node without its group, which has others *)
Lemma leave_run s s1 s' p R1 g c ns1 a ns2 R2 :
  grouped s p (R1 ++ mkRun g c (ns1 ++ a :: ns2) :: R2) → NoDup (ns1 ++ a :: ns2) → ns1 ++ ns2 ≠ [] →
  nodes s1 = nodes s → (∀ h, h ≠ g → groups s1 !! h = groups s !! h) →
  gnx s1 g = gnx s g → gpv s1 g = gpv s g → ghead s1 g = head (ns1 ++ ns2) → assigned s1 s' a None →
  grouped s' p (R1 ++ mkRun g c (ns1 ++ ns2) :: R2) ∧ loose s' p a.
Proof.
  intros G Hnd Hne Hns Hgs Hgn Hgp Hgh As.
  pose proof (grouped_at _ _ _ _ _ _ _ a G (in_mid _ _ _)) as (n & Hn & Hnc & Hng & Hnp)%view_node.
  assert (Hview : ∀ b, view s' b = if decide (b = a) then Some (c, None, Some p) else view s b).
  { intros b. rewrite (assigned_view _ _ _ _ b As). unfold view. rewrite Hns, Hn. case_decide; [|done]. simpl. congruence. }
  assert (Hsame : ∀ r, r ∈ R1 ++ mkRun g c (ns1 ++ ns2) :: R2 → groups s' !! r_group r = groups s1 !! r_group r).
  { intros r [->|Hr]%elem_of_mid; simpl.
    - apply (as_used _ _ _ _ As). destruct (ns1 ++ ns2) as [|b l] eqn:E; [done|]. exists b.
      assert (b ∈ ns1 ++ ns2) as Hb by (rewrite E; left). apply NoDup_middle in Hnd as [Ha _].
      assert (view s' b = Some (c, Some g, Some p)) as (nb & ? & _ & ? & _)%view_node; [|eauto].
      rewrite Hview, decide_False by (by intros ->). eapply grouped_at; [exact G|]. rewrite elem_of_mid. by right.
    - apply (as_keep _ _ _ _ As _ n); [by rewrite Hns|]. rewrite Hng. intros [= Heq].
      by apply (grouped_other _ _ _ _ _ r G Hr). }
  split.
  - eapply grouped_drop_member; [| exact G|done|done|done| | | |].
    + intros b Hb. by rewrite Hview, decide_False.
    + intros r y z _. by rewrite Hview, decide_True.
    + intros r Hr. destruct (same_lookup s1 s' (r_group r) (Hsame r Hr)) as (-> & -> & _).
      apply elem_of_mid in Hr as [->|Hr]; [done|].
      destruct (same_lookup s s1 (r_group r)) as (-> & -> & _); [|done].
      apply Hgs. apply (grouped_other _ _ _ _ _ r G Hr).
    + intros r Hr. destruct (same_lookup s1 s' (r_group r) (Hsame r (in_out _ _ _ _ Hr))) as (_ & _ & ->).
      destruct (same_lookup s s1 (r_group r)) as (_ & _ & ->); [|done].
      apply Hgs. apply (grouped_other _ _ _ _ _ r G Hr).
    + by destruct (same_lookup s1 s' g (Hsame _ (in_mid _ _ _))) as (_ & _ & ->).
  - assert (view s' a = Some (c, None, Some p)) as (n' & ? & _ & Hng' & ?)%view_node by by rewrite Hview, decide_True.
    exists n'. split_and!; [done..|]. rewrite Hng'. done.
Qed.
Lemma unlink_group_spec s p R1 g c ns1 a ns2 R2 :
  chain s p (members (R1 ++ mkRun g c (ns1 ++ a :: ns2) :: R2)) → grouped s p (R1 ++ mkRun g c (ns1 ++ a :: ns2) :: R2) →
  wp (unlink_group a) (λ _ s', group_step p s s' ∧ grouped s' p (R1 ++ keep g c (ns1 ++ ns2) ++ R2) ∧ loose s' p a) s.
Proof.
  intros C G. destruct (group_at _ _ _ _ _ _ _ _ _ C G) as (n & x & Hn & Hc & Hg & Hp & Hnn & Hpn & Hx & Hh & Hxn & Hxp).
  pose proof (run_nodup _ _ _ _ _ _ _ C) as Hnd.
  assert (M : mine s p g) by apply (grouped_mine _ _ _ _ G (in_mid _ _ _)).
  unfold unlink_group. tree_steps. rewrite Hg. tree_steps.
  rewrite Hh. destruct ns1 as [|y ns1]; simpl in *.
  2:{ rewrite bool_decide_false by (intros [= ->]; apply NoDup_cons in Hnd; set_solver).
      eapply wp_assign_group; [done|]. intros s' As. split.
      - eapply assigned_step; done.
      - eapply (leave_run s s s' p R1 g c (y :: ns1) a ns2 R2); try done. unfold ghead. rewrite Hx. by simpl. }
  rewrite bool_decide_true by done. destruct ns2 as [|b ns2].
  - apply wp_bind, (wp_counts _ _ false); [|done|].
    { intros d Hd. rewrite Hnn in Hd. apply (next_run _ _ _ _ _ _ _ _ G) in Hd as (nd & Hnd' & Hlt).
      exists nd. split; [done|]. apply Z.eqb_neq. lia. }
    assert (Hgo : ∀ r, r ∈ R1 ++ R2 → is_Some (groups s !! r_group r) ∧ mine s p (r_group r) ∧ r_group r ≠ g).
    { intros r Hr. destruct (grouped_group _ _ _ r G (in_out _ _ _ _ Hr)) as (y & Hy & _). split_and!; [eauto| |].
      - apply (grouped_mine _ _ _ _ G (in_out _ _ _ _ Hr)).
      - apply (grouped_other _ _ _ _ _ r G Hr). }
    assert (Hl : ∀ h, r_group <$> last R1 = Some h → is_Some (groups s !! h) ∧ mine s p h ∧ h ≠ g).
    { intros h (r & Hr%last_in & ->)%fmap_Some. apply Hgo. set_solver. }
    assert (Hh' : ∀ h, r_group <$> head R2 = Some h → is_Some (groups s !! h) ∧ mine s p h ∧ h ≠ g).
    { intros h (r & Hr%head_in & ->)%fmap_Some. apply Hgo. set_solver. }
    rewrite Hxp, Hxn. apply wp_bind, (wp_link_group_step p); [intros h Hr; by destruct (Hl h Hr) as (? & ? & _)|]. intros St1.
    apply wp_bind, (wp_link_group_step p); simpl.
    { intros h Hr. destruct (Hh' h Hr) as (? & ? & _). split; [by apply is_Some_alter_opt|done]. }
    intros St2. apply (wp_upd_group_step p); simpl; [by do 2 apply is_Some_alter_opt|done|]. intros St3.
    split_and!; [by etrans; [|etrans]| |].
    + eapply (grouped_drop_run s _ p a); [done|exact G|by apply view_lookup|..].
      * intros r y z Hr. simpl. rewrite Hg. intros [= _ Heq _]. by destruct (Hgo r Hr) as (_ & _ & []).
      * intros h Hhg. unfold gnx, gpv. simpl. rewrite lookup_alter, !lookup_alter_opt, decide_False by done.
        rewrite Hx. simpl. rewrite Hxn, Hxp. repeat case_decide; destruct (groups s !! h) eqn:?; try done.
        all: by destruct (Hl h) as ([??] & _); [done|congruence].
      * intros h Hhg. unfold gnx, gpv. simpl. rewrite lookup_alter, !lookup_alter_opt, decide_False by done.
        rewrite Hx. simpl. rewrite Hxn, Hxp. repeat case_decide; destruct (groups s !! h) eqn:?; try done.
        all: by destruct (Hh' h) as ([??] & _); [done|congruence].
      * intros r Hr. destruct (Hgo r Hr) as (_ & _ & Hrg). unfold ghead. simpl.
        rewrite lookup_alter, !lookup_alter_opt, decide_False by done.
        repeat case_decide; by destruct (groups s !! r_group r).
    + exists n. split_and!; [done..|]. rewrite Hg. intros h [= <-]. simpl. split.
      * rewrite lookup_alter, !lookup_alter_opt, decide_True by done. rewrite !decide_False, Hx; [|intros Hr; by destruct (Hl g Hr) as (_ & _ & ?)|intros Hr; by destruct (Hh' g Hr) as (_ & _ & ?)].
        simpl. unfold set_g_prev, set_g_next. simpl. by rewrite Hh.
      * intros b n' Hb Hg'. pose proof (gr_own _ _ _ G (mkRun g c [a]) b (count n') (parent n') (in_mid _ _ _)) as Hin.
        simpl in Hin. rewrite (view_lookup _ _ _ Hb), Hg' in Hin. specialize (Hin eq_refl). set_solver.
  - pose proof (grouped_at _ _ _ _ _ _ _ b G ltac:(right; left)) as (nb & Hnb & Hbc & Hbg & Hbp)%view_node.
    rewrite Hnn. simpl. tree_steps. rewrite Hbc, Hc, Z.eqb_refl. wp_steps.
    apply (wp_upd_group_step p); [eauto|done|]. intros St. eapply wp_assign_group; [done|]. intros s' As. split.
    + etrans; [exact St|]. eapply assigned_step; done.
    + eapply (leave_run s (set_groups (alter (set_g_head (Some b)) g (groups s)) s) s' p R1 g c [] a (b :: ns2) R2); try done; simpl.
      * intros h Hhg. by rewrite lookup_alter_ne.
      * unfold gnx. simpl. rewrite lookup_alter, decide_True by done. by rewrite Hx.
      * unfold gpv. simpl. rewrite lookup_alter, decide_True by done. by rewrite Hx.
      * unfold ghead. simpl. rewrite lookup_alter, decide_True by done. by rewrite Hx.
Qed.

(** ** The operations on the lists of siblings *)

(** The children of [p] are those of the runs, in that order. *)
Definition siblings s p rs : Prop := chain s p (members rs) ∧ grouped s p rs.
(** A step that changes siblings below [p] only, and no count *)
Definition calm p s s' : Prop :=
  frame p s s' ∧ (∀ b, count <$> nodes s' !! b = count <$> nodes s !! b) ∧ (addressed s → addressed s').
#[export] Instance calm_preorder p : PreOrder (calm p).
Proof.
  split.
  - intros s. by split_and!.
  - intros s1 s2 s3 (F1 & C1 & A1) (F2 & C2 & A2). split_and!; [by etrans| |auto]. intros b. by rewrite C2.
Qed.
Lemma group_step_calm p s s' : group_step p s s' → calm p s s'.
Proof. intros (F & _ & C & A). by split_and!. Qed.
Lemma same_groups_view s s' b : same_groups s s' → view s' b = view s b.
Proof. intros (_ & _ & H). apply H. Qed.
Lemma same_groups_calm p s s' : same_groups s s' → frame p s s' → calm p s s'.
Proof.
  intros (Hg & Hf & Hv) F. split_and!; [done| |].
  - intros b. specialize (Hv b). destruct (nodes s' !! b), (nodes s !! b); simplify_eq/=; congruence.
  - intros A. split; rewrite ?Hg, ?Hf.
    + intros b [n' Hb]. destruct (frame_node_inv _ _ _ _ _ F Hb) as (n & Hn & _). apply (ad_nodes _ A). eauto.
    + apply (ad_groups _ A).
    + intros b n' g Hb Hgr. specialize (Hv b). rewrite Hb in Hv. destruct (nodes s !! b) as [n|] eqn:Hn; simplify_eq/=.
      eapply (ad_group _ A); [done|]. congruence.
Qed.
Lemma same_groups_grouped s s' p rs : same_groups s s' → grouped s p rs → grouped s' p rs.
Proof.
  intros H G. pose proof H as (Hg & _ & _). split; unfold gnx, gpv, ghead; rewrite ?Hg; try apply G.
  - intros r b Hr Hb. rewrite (same_groups_view _ _ _ H). by apply G.
  - intros r b c q Hr. rewrite (same_groups_view _ _ _ H). by apply G.
Qed.
Lemma same_groups_loose s s' p a : same_groups s s' → loose s p a → loose s' p a.
Proof.
  intros H (n & Hn & Hp & Hl). pose proof H as (Hg & _ & _).
  pose proof (view_lookup _ _ _ Hn) as Hv. rewrite <-(same_groups_view _ _ _ H) in Hv.
  apply view_node in Hv as (n' & Hn' & _ & Hgr & Hp'). exists n'. split_and!; [done|congruence|].
  rewrite Hgr, Hg. intros g E. destruct (Hl g E) as [? Hu]. split; [done|]. intros b nb Hb Hgb.
  pose proof (view_lookup _ _ _ Hb) as Hvb. rewrite (same_groups_view _ _ _ H) in Hvb.
  apply view_node in Hvb as (nb' & Hnb' & _ & Hgr' & _). eapply Hu; [done|]. congruence.
Qed.
Lemma group_step_chain p q s s' l : group_step p s s' → chain s q l → chain s' q l.
Proof. intros (_ & L & _). by apply same_links_chain. Qed.

Lemma remove_from_siblings_spec s p R1 g c ns1 a ns2 R2 :
  siblings s p (R1 ++ mkRun g c (ns1 ++ a :: ns2) :: R2) →
  wp (remove_from_siblings a) (λ _ s', siblings s' p (R1 ++ keep g c (ns1 ++ ns2) ++ R2) ∧ loose s' p a ∧ calm p s s') s.
Proof.
  intros [C G]. destruct (group_at _ _ _ _ _ _ _ _ _ C G) as (n & x & Hn & _ & _ & Hp & _).
  unfold remove_from_siblings. tree_steps. apply wp_check; [by rewrite bool_decide_true by congruence|].
  eapply wp_seq; [by eapply unlink_group_spec|]. intros _ s1 (St & G1 & Lo).
  assert (C1 : chain s1 p ((members R1 ++ ns1) ++ a :: (ns2 ++ members R2))).
  { eapply group_step_chain; [exact St|]. by rewrite members_mid, <-app_assoc in C; rewrite <-app_assoc. }
  eapply wp_mono; [exact (unlink_sibling_spec _ _ _ _ _ C1)|]. intros _ s2 (C2 & Sg & F & _). split_and!; [split| |].
  - rewrite !members_app, members_keep. by rewrite <-!app_assoc in *.
  - by eapply same_groups_grouped.
  - by eapply same_groups_loose.
  - etrans; [by apply group_step_calm|by apply same_groups_calm].
Qed.

(** ** A node into a group *)

Lemma unused_group s p rs a g :
  grouped s p rs → a ∉ members rs → (∀ b x y, b ≠ a → view s b ≠ Some (x, Some g, y)) → ∀ r, r ∈ rs → r_group r ≠ g.
Proof.
  intros G Ha Hu r Hr <-. destruct (gr_head _ _ _ G r Hr) as [Hne _]. destruct (r_nodes r) as [|b l] eqn:E; [done|].
  assert (b ∈ r_nodes r) as Hb by (rewrite E; left). apply (Hu b (r_count r) (Some p)); [|by apply G].
  intros ->. apply Ha, elem_of_members. eauto.
Qed.
Lemma loose_unused s p a n g : loose s p a → nodes s !! a = Some n → group n = Some g → ∀ b x y, b ≠ a → view s b ≠ Some (x, Some g, y).
Proof.
  intros (n' & Hn' & _ & Hl) Hn Hg b x y Hb (nb & Hnb & _ & Hgb & _)%view_node. simplify_eq.
  destruct (Hl g Hg) as [_ Hu]. by apply Hb, (Hu b nb).
Qed.
Lemma loose_group s p rs a n r : grouped s p rs → a ∉ members rs → loose s p a → nodes s !! a = Some n → r ∈ rs → group n ≠ Some (r_group r).
Proof. intros G Ha Lo Hn Hr Hg. exact (unused_group s p rs a _ G Ha (loose_unused _ _ _ _ _ Lo Hn Hg) r Hr eq_refl). Qed.

(** A loose node gets the group of a run. *)
Lemma join_run s s1 s' p R1 g c ns1 a ns2 R2 n :
  grouped s p (R1 ++ mkRun g c (ns1 ++ ns2) :: R2) → a ∉ members (R1 ++ mkRun g c (ns1 ++ ns2) :: R2) →
  loose s p a → nodes s !! a = Some n → count n = c → assigned s s1 a (Some g) → nodes s' = nodes s1 →
  (∀ h, h ≠ g → groups s' !! h = groups s1 !! h) → gnx s' g = gnx s1 g → gpv s' g = gpv s1 g → ghead s' g = head (ns1 ++ a :: ns2) →
  grouped s' p (R1 ++ mkRun g c (ns1 ++ a :: ns2) :: R2).
Proof.
  intros G Ha Lo Hn Hc As Hns Hgs Hgn Hgp Hgh.
  assert (Hp : parent n = Some p) by (destruct Lo as (? & ? & ? & _); congruence).
  assert (Hview : ∀ b, view s' b = if decide (b = a) then Some (c, Some g, Some p) else view s b).
  { intros b. pose proof (assigned_view _ _ _ _ b As) as Hv. unfold view in *. rewrite Hns, Hv. rewrite Hn. case_decide; [|done].
    simpl. congruence. }
  assert (Hsame : ∀ r, r ∈ R1 ++ mkRun g c (ns1 ++ ns2) :: R2 → groups s1 !! r_group r = groups s !! r_group r).
  { intros r Hr. apply (as_keep _ _ _ _ As _ n); [done|]. by eapply loose_group. }
  eapply (grouped_add_member s s' p a); [|exact G|done|..].
  - intros b Hb. by rewrite Hview, decide_False.
  - by rewrite Hview, decide_True.
  - intros r Hr. destruct (same_lookup s s1 (r_group r) (Hsame r Hr)) as (<- & <- & _).
    apply elem_of_mid in Hr as [->|Hr]; [done|]. destruct (same_lookup s1 s' (r_group r)) as (-> & -> & _); [|done].
    apply Hgs, (grouped_other _ _ _ _ _ r G Hr).
  - intros r Hr. destruct (same_lookup s s1 (r_group r) (Hsame r (in_out _ _ _ _ Hr))) as (_ & _ & <-).
    destruct (same_lookup s1 s' (r_group r)) as (_ & _ & ->); [|done]. apply Hgs, (grouped_other _ _ _ _ _ r G Hr).
  - done.
Qed.
Lemma own_group_spec s p a n :
  addressed s → loose s p a → nodes s !! a = Some n →
  wp (own_group a) (λ g s', group_step p s s' ∧ view s' a = Some (count n, Some g, Some p) ∧
    groups s' !! g = Some (mkGroup (Some a) None None) ∧ (∀ b, b ≠ a → view s' b = view s b) ∧
    (∀ b x y, b ≠ a → view s b ≠ Some (x, Some g, y)) ∧ (∀ h, h ≠ g → groups s' !! h = groups s !! h)) s.
Proof.
  intros A Lo Hn. pose proof Lo as (n' & Hn' & Hp & Hl). simplify_eq. unfold own_group. tree_steps.
  destruct (group n) as [g|] eqn:Hg.
  - destruct (Hl g eq_refl) as [Hx Hu]. tree_steps. apply wp_check; [by rewrite bool_decide_true|]. tree_steps. split_and!; try done.
    + rewrite (view_lookup _ _ _ Hn). by rewrite Hg, Hp.
    + by eapply loose_unused.
  - apply wp_bind, wp_bind, (wp_new_group p); [done|by apply fresh_mine|]. intros s1 -> St1.
    apply wp_bind. eapply wp_assign_group; [simpl; exact Hn|]. intros s2 As. tree_steps.
    set (s1 := set_fresh _ _) in *.
    assert (Hun : ∀ b x y, view s b ≠ Some (x, Some (fresh s), y)).
    { intros b x y (nb & Hnb & _ & Hgb & _)%view_node. destruct (ad_group _ A b nb _ Hnb Hgb) as [z Hz].
      pose proof (ad_groups _ A _ (mk_is_Some _ _ Hz)). lia. }
    assert (Hg1 : groups s1 !! fresh s = Some (mkGroup (Some a) None None)) by (simpl; by rewrite lookup_insert, decide_True).
    assert (Hgs : ∀ h, groups s2 !! h = groups s1 !! h).
    { intros h. apply (as_keep _ _ _ _ As _ n); [done|]. by rewrite Hg. }
    eapply wp_grp; [by rewrite Hgs|]. apply wp_bind, wp_check; [by rewrite bool_decide_true|]. tree_steps. split_and!.
    + etrans; [exact St1|]. eapply assigned_step; [exact As|done|done|]. intros g [= <-]. split; [eauto|].
      eapply frame_mine; [apply St1|by apply fresh_mine].
    + rewrite (assigned_view _ _ _ _ a As), decide_True by done. simpl. rewrite Hn. simpl. by rewrite Hp.
    + by rewrite Hgs.
    + intros b Hb. by rewrite (assigned_view _ _ _ _ b As), decide_False.
    + eauto.
    + intros h Hh. rewrite Hgs. simpl. by rewrite lookup_insert_ne.
Qed.
Lemma only_mine s s1 p a g c :
  view s1 a = Some (c, Some g, Some p) → (∀ b, b ≠ a → view s1 b = view s b) →
  (∀ b x y, b ≠ a → view s b ≠ Some (x, Some g, y)) → mine s1 p g.
Proof.
  intros Ha Hv Hun b n Hb Hg. pose proof (view_lookup _ _ _ Hb) as Hvb. destruct (decide (b = a)) as [->|Hba].
  - congruence.
  - rewrite Hv, Hg in Hvb by done. by destruct (Hun b (count n) (parent n) Hba).
Qed.
(** A loose node and a group of its own go between two runs. *)
Lemma own_run s s1 s' p R1 R2 a g c :
  grouped s p (R1 ++ R2) → a ∉ members (R1 ++ R2) →
  (∀ r, r ∈ R1 → c < r_count r) → (∀ r, r ∈ R2 → r_count r < c) →
  view s1 a = Some (c, Some g, Some p) → groups s1 !! g = Some (mkGroup (Some a) None None) →
  (∀ b, b ≠ a → view s1 b = view s b) → (∀ b x y, b ≠ a → view s b ≠ Some (x, Some g, y)) →
  (∀ h, h ≠ g → groups s1 !! h = groups s !! h) →
  nodes s' = nodes s1 →
  groups s' !! g = Some (mkGroup (Some a) (r_group <$> head R2) (r_group <$> last R1)) →
  (∀ h, h ≠ g → groups s' !! h =
     (if decide (r_group <$> head R2 = Some h) then set_g_prev (Some g) else id) <$>
     ((if decide (r_group <$> last R1 = Some h) then set_g_next (Some g) else id) <$> groups s1 !! h)) →
  grouped s' p (R1 ++ mkRun g c [a] :: R2).
Proof.
  intros G Ha Hc1 Hc2 Hva Hg Hview Hun Hgs Hns Hg' Hgs'.
  assert (Hview' : ∀ b, view s' b = view s1 b) by (intros b; unfold view; by rewrite Hns).
  pose proof (unused_group _ _ _ _ _ G Ha Hun) as Hne.
  assert (Hin : ∀ r, r ∈ R1 ++ R2 → is_Some (groups s !! r_group r)).
  { intros r Hr. destruct (grouped_group _ _ _ r G Hr) as (x & Hx & _). eauto. }
  eapply (grouped_add_run s s' p a); try done.
  - intros b Hb. rewrite Hview'. by apply Hview.
  - intros (r & -> & Hr)%list_elem_of_fmap. by apply (Hne r Hr).
  - by rewrite Hview'.
  - unfold gnx. by rewrite Hg'.
  - unfold gpv. by rewrite Hg'.
  - intros h Hh. unfold gnx. rewrite Hgs', Hgs by done. destruct (groups s !! h) as [x|] eqn:Hx; simpl.
    + by repeat case_decide.
    + case_decide as Hl; [|done]. apply fmap_Some in Hl as (r & Hr%last_in & ->).
      destruct (Hin r) as [??]; [set_solver|congruence].
  - intros h Hh. unfold gpv. rewrite Hgs', Hgs by done. destruct (groups s !! h) as [x|] eqn:Hx; simpl.
    + by repeat case_decide.
    + case_decide as Hl; [|done]. apply fmap_Some in Hl as (r & Hr%head_in & ->).
      destruct (Hin r) as [??]; [set_solver|congruence].
  - intros r Hr. unfold ghead. rewrite Hgs' by by apply Hne. rewrite Hgs by by apply Hne.
    destruct (groups s !! r_group r); simpl; by repeat case_decide.
  - unfold ghead. by rewrite Hg'.
Qed.

Lemma members_one g c l : members [mkRun g c l] = l.
Proof. apply app_nil_r. Qed.
Lemma last_run s p R1 R2 b :
  grouped s p (R1 ++ R2) → last (members R1) = Some b →
  ∃ R g c ms, R1 = R ++ [mkRun g c (ms ++ [b])] ∧ view s b = Some (c, Some g, Some p).
Proof.
  intros G Hb. destruct R1 as [|[g c l] R _] using rev_ind; [done|].
  rewrite <-app_assoc in G. pose proof (gr_head _ _ _ G (mkRun g c l) (in_mid _ _ _)) as [Hne _]. simpl in Hne.
  rewrite members_app, members_one in Hb.
  destruct l as [|b' ms _] using rev_ind; [done|]. rewrite app_assoc, last_snoc in Hb. injection Hb as ->.
  exists R, g, c, ms. split; [done|]. eapply (grouped_at s p R g c _ R2); [exact G|]. set_solver.
Qed.

Lemma last_run_case s p R1 R2 k :
  grouped s p (R1 ++ R2) → (∀ r, r ∈ R1 → k ≤ r_count r) →
  (∃ R g ms b, R1 = R ++ [mkRun g k (ms ++ [b])]) ∨ (∀ r, r ∈ R1 → k < r_count r).
Proof.
  intros G Hk. destruct R1 as [|[g c l] R _] using rev_ind; [by right; set_solver|].
  rewrite <-app_assoc in G. pose proof (gr_head _ _ _ G (mkRun g c l) (in_mid _ _ _)) as [Hne _]. simpl in Hne.
  destruct l as [|b ms _] using rev_ind; [done|]. pose proof (Hk (mkRun g c (ms ++ [b])) (in_mid _ _ _)) as Hkc. simpl in Hkc.
  destruct (decide (c = k)) as [->|Hck]; [left; eauto|]. right.
  intros r [Hr| ->%list_elem_of_singleton]%elem_of_app; simpl; [|lia].
  pose proof (gr_sorted _ _ _ G) as (_ & Hs & _)%falls_mid. specialize (Hs r Hr). simpl in Hs. lia.
Qed.
(** The groups of a run, and of the runs at the ends of a part of the list *)
Lemma run_group s p rs r : grouped s p rs → r ∈ rs → is_Some (groups s !! r_group r) ∧ mine s p (r_group r).
Proof.
  intros G Hr. destruct (grouped_group _ _ _ _ G Hr) as (x & Hx & _). split; [eauto|]. by eapply grouped_mine.
Qed.
Lemma not_in_mid {A} (x y : A) (l1 l2 : list A) : x ∉ l1 ++ y :: l2 → x ≠ y ∧ x ∉ l1 ++ l2.
Proof. rewrite elem_of_mid. tauto. Qed.

Lemma join_before_spec s p R1 g c o ns R2 a n :
  chain s p (members R1 ++ a :: o :: ns ++ members R2) → grouped s p (R1 ++ mkRun g c (o :: ns) :: R2) →
  a ∉ members (R1 ++ mkRun g c (o :: ns) :: R2) → loose s p a → addressed s →
  nodes s !! a = Some n → c ≤ count n → (∀ r, r ∈ R1 → count n ≤ r_count r) →
  wp (join_before a o) (λ _ s', group_step p s s' ∧
    ∃ rs, grouped s' p rs ∧ members rs = members R1 ++ a :: o :: ns ++ members R2) s.
Proof.
  intros C G Ha Lo A Hn Hc HR1.
  destruct (chain_at _ _ _ _ _ C) as (n' & Hn' & Hp & _ & Hpv). simplify_eq.
  pose proof (grouped_at _ _ _ _ _ _ _ o G ltac:(left)) as (no & Ho & Hoc & Hog & Hop)%view_node.
  destruct (run_group _ _ _ _ G (in_mid _ _ _)) as [Hgo Mo]. simpl in Hgo, Mo.
  assert (Hao : a ≠ o) by (intros ->; apply Ha; rewrite members_mid; set_solver).
  unfold join_before. tree_steps. rewrite Hpv.
  destruct (last_run_case _ _ _ _ (count n) G HR1) as [(R & g1 & ms & b & ->)|HR1'].
  - (* the group in front *)
    rewrite <-app_assoc in G, Ha. simpl in G, Ha.
    pose proof (grouped_at _ _ _ _ _ _ _ b G ltac:(set_solver)) as (nb & Hnb & Hbc & Hbg & Hbp)%view_node.
    rewrite members_app, members_one, app_assoc, last_snoc.
    apply (wp_counts _ _ true); [intros b' [= <-]; exists nb; split; [done|]; rewrite Hbc; apply Z.eqb_refl|done|].
    tree_steps. rewrite Hbg. eapply wp_assign_group; [done|]. intros s' As. split.
    + eapply assigned_step; [exact As|done|done|]. intros h [= <-]. apply (run_group _ _ _ _ G (in_mid _ _ _)).
    + exists (R ++ mkRun g1 (count n) ((ms ++ [b]) ++ [a]) :: mkRun g c (o :: ns) :: R2). split.
      * rewrite <-(app_nil_r (ms ++ [b])) in G, Ha.
        assert (Hsame : groups s' !! g1 = groups s !! g1).
        { apply (as_keep _ _ _ _ As _ n); [done|]. apply (loose_group _ _ _ _ _ _ G Ha Lo Hn (in_mid _ _ _)). }
        destruct (same_lookup s s' g1 Hsame) as (_ & _ & Hgh).
        eapply (join_run s s' s'); try done. rewrite Hgh.
        destruct (gr_head _ _ _ G _ (in_mid _ _ _)) as [_ Hgh1]. simpl in Hgh1. rewrite Hgh1. by destruct ms.
      * rewrite !members_app, !members_cons. simpl. by rewrite <-!app_assoc.
  - assert (Hcs : ∀ b, last (members R1) = Some b → ∃ nb, nodes s !! b = Some nb ∧ (count n =? count nb) = false).
    { intros b Hb. destruct (last_run _ _ _ _ _ G Hb) as (R & g1 & c1 & ms & -> & (nb & Hnb & Hbc & _)%view_node).
      exists nb. split; [done|]. apply Z.eqb_neq. specialize (HR1' (mkRun g1 c1 (ms ++ [b])) (in_mid _ _ _)). simpl in HR1'. lia. }
    apply (wp_counts _ _ false); [done|done|]. destruct (count n =? count no) eqn:Eco.
    + (* the group behind *)
      apply Z.eqb_eq in Eco. rewrite Hog. apply wp_bind. eapply wp_assign_group; [done|]. intros s1 As. tree_steps.
      assert (Hsame : groups s1 !! g = groups s !! g).
      { apply (as_keep _ _ _ _ As _ n); [done|]. apply (loose_group _ _ _ _ _ _ G Ha Lo Hn (in_mid _ _ _)). }
      assert (St : group_step p s s1).
      { eapply assigned_step; [exact As|done|done|]. intros h [= <-]. done. }
      apply (wp_upd_group_step p); [by rewrite Hsame|by eapply frame_mine; [apply St|]|]. intros St2. split.
      * by etrans.
      * exists (R1 ++ mkRun g c ([] ++ a :: (o :: ns)) :: R2). split; [|by rewrite members_mid].
        destruct Hgo as [x Hx]. eapply (join_run s s1); try done; [congruence|..]; simpl.
        -- intros h Hh. by rewrite lookup_alter_ne.
        -- unfold gnx. simpl. rewrite lookup_alter, decide_True, Hsame, Hx by done. done.
        -- unfold gpv. simpl. rewrite lookup_alter, decide_True, Hsame, Hx by done. done.
        -- unfold ghead. simpl. rewrite lookup_alter, decide_True, Hsame, Hx by done. done.
    + (* a group in between *)
      apply Z.eqb_neq in Eco. assert (Hcn : c < count n) by lia.
      apply wp_bind. eapply wp_mono; [by apply (own_group_spec s p a n)|]. intros g' s1 (St1 & Hva & Hg' & Hview & Hun & Hgs).
      pose proof (only_mine _ _ _ _ _ _ Hva Hview Hun) as Mg'.
      assert (Hrun : ∀ r, r ∈ R1 ++ mkRun g c (o :: ns) :: R2 → r_group r ≠ g' ∧ is_Some (groups s1 !! r_group r) ∧ mine s1 p (r_group r)).
      { intros r Hr. destruct (run_group _ _ _ _ G Hr) as [Hx Mr]. pose proof (unused_group _ _ _ _ _ G Ha Hun r Hr). split_and!; [done| |].
        - by rewrite Hgs.
        - eapply frame_mine; [apply St1|done]. }
      destruct (Hrun _ (in_mid _ _ _)) as (Hgg & Hgo1 & Mo1). simpl in Hgg, Hgo1, Mo1.
      assert (HR2 : ∀ r, r ∈ mkRun g c (o :: ns) :: R2 → r_count r < count n).
      { pose proof (gr_sorted _ _ _ G) as (_ & _ & Hs)%falls_mid. intros r [->|Hr]%elem_of_cons; [done|]. specialize (Hs r Hr). simpl in Hs. lia. }
      apply wp_bind. eapply (wp_mono _ (λ _ s2, group_step p s1 s2 ∧ nodes s2 = nodes s1 ∧
        ∀ h, groups s2 !! h = (if decide (h = g') then set_g_prev (r_group <$> last R1) else id) <$>
          ((if decide (r_group <$> last R1 = Some h) then set_g_next (Some g') else id) <$> groups s1 !! h))).
      { destruct (last (members R1)) as [b|] eqn:Eb.
        - destruct (last_run _ _ _ _ _ G Eb) as (R & g1 & c1 & ms & -> & Hvb).
          destruct (Hrun (mkRun g1 c1 (ms ++ [b]))) as (Hg1 & Hgo2 & M2); [set_solver|]. simpl in Hg1, Hgo2, M2.
          assert (b ≠ a) as Hba. { intros ->. apply Ha. rewrite members_mid, members_app, members_one. set_solver. }
          rewrite <-Hview in Hvb by done. apply view_node in Hvb as (nb & Hnb & _ & Hbg & _).
          tree_steps. rewrite Hbg. apply (wp_upd_group_step p); [eauto|done|]. intros St2. tree_steps.
          apply (wp_upd_group_step p); [simpl; by rewrite lookup_alter_ne|done|]. intros St3.
          split_and!; [by etrans|done|]. intros h. simpl. rewrite !lookup_alter, last_snoc. simpl.
          repeat case_decide; simplify_eq/=; by rewrite ?option_fmap_id.
        - tree_steps. split_and!; [done..|]. assert (R1 = []) as ->.
          { destruct R1 as [|[g1 c1 l] R _] using rev_ind; [done|]. rewrite members_app, members_one in Eb. apply last_None, app_eq_nil in Eb as [_ ->].
            by destruct (gr_head _ _ _ G (mkRun g1 c1 [])) as [[] _]; [set_solver|]. }
          intros h. simpl. case_decide; [subst; by rewrite Hg'|]. by destruct (groups s1 !! h). }
      intros _ s2 (St2 & Hns2 & Hgs2). rewrite Hog.
      assert (Hex : ∀ h, is_Some (groups s1 !! h) → is_Some (groups s2 !! h)) by (intros h; rewrite Hgs2, !fmap_is_Some; done).
      apply wp_bind, (wp_upd_group_step p); [by apply Hex; eauto|by eapply frame_mine; [apply St2|]|]. intros St3. tree_steps.
      apply (wp_upd_group_step p); [simpl; rewrite lookup_alter_ne by done; by apply Hex|by eapply frame_mine; [apply St3|eapply frame_mine; [apply St2|]]|]. intros St4.
      split; [by etrans; [|etrans; [|etrans]]|].
      exists (R1 ++ mkRun g' (count n) [a] :: mkRun g c (o :: ns) :: R2). split; [|by rewrite members_mid, members_cons].
      eapply (own_run s s1); simpl; try done.
      * rewrite lookup_alter_ne, lookup_alter, decide_True, Hgs2, decide_True by done. rewrite decide_False, Hg'; [done|].
        intros (r & Hr%last_in & Heq)%fmap_Some. by destruct (Hrun r) as [[] _]; [set_solver|].
      * intros h Hh. rewrite lookup_alter. case_decide as Hgh; [subst h; rewrite (decide_True _ _ eq_refl)|rewrite (decide_False (P:=Some g = Some h)) by congruence];
          rewrite lookup_alter_ne, Hgs2, decide_False by done; [by destruct (groups s1 !! g)|by destruct (groups s1 !! h)].
Qed.
Lemma join_after_spec s p R1 g c ns o a n :
  chain s p (members R1 ++ (ns ++ [o]) ++ [a]) → grouped s p (R1 ++ [mkRun g c (ns ++ [o])]) →
  a ∉ members (R1 ++ [mkRun g c (ns ++ [o])]) → loose s p a → addressed s → nodes s !! a = Some n → count n ≤ c →
  wp (join_after a o) (λ _ s', group_step p s s' ∧
    ∃ rs, grouped s' p rs ∧ members rs = members R1 ++ (ns ++ [o]) ++ [a]) s.
Proof.
  intros C G Ha Lo A Hn Hc.
  assert (Hnx : next_sibling n = None).
  { rewrite app_assoc in C. destruct (chain_at _ _ _ _ _ C) as (n' & Hn' & _ & Hnx & _). by simplify_eq. }
  pose proof (grouped_at _ _ _ _ _ _ _ o G ltac:(set_solver)) as (no & Ho & Hoc & Hog & Hop)%view_node.
  assert (Hp : parent n = Some p) by (destruct Lo as (? & ? & ? & _); congruence).
  destruct (run_group _ _ _ _ G (in_mid _ _ _)) as [Hgo Mo]. simpl in Hgo, Mo.
  unfold join_after. tree_steps. rewrite Hnx. apply (wp_counts _ _ false); [done|done|].
  destruct (count n =? count no) eqn:Eco.
  - apply Z.eqb_eq in Eco. rewrite Hog. eapply wp_assign_group; [done|]. intros s' As. split.
    + eapply assigned_step; [exact As|done|done|]. intros h [= <-]. done.
    + exists (R1 ++ mkRun g c ((ns ++ [o]) ++ [a]) :: []). split; [|by rewrite members_mid, app_nil_r].
      rewrite <-(app_nil_r (ns ++ [o])) in G, Ha.
      assert (Hsame : groups s' !! g = groups s !! g).
      { apply (as_keep _ _ _ _ As _ n); [done|]. apply (loose_group _ _ _ _ _ _ G Ha Lo Hn (in_mid _ _ _)). }
      destruct (same_lookup s s' g Hsame) as (_ & _ & Hgh).
      eapply (join_run s s' s'); try done; [congruence|]. rewrite Hgh.
      destruct (gr_head _ _ _ G _ (in_mid _ _ _)) as [_ Hg]. simpl in Hg. rewrite Hg. by destruct ns.
  - apply Z.eqb_neq in Eco. assert (Hcn : count n < c) by lia.
    apply wp_bind. eapply wp_mono; [by apply (own_group_spec s p a n)|]. intros g' s1 (St1 & Hva & Hg' & Hview & Hun & Hgs).
    pose proof (only_mine _ _ _ _ _ _ Hva Hview Hun) as Mg'.
    assert (Hgg : g ≠ g') by (apply (unused_group _ _ _ _ _ G Ha Hun _ (in_mid _ _ _))).
    tree_steps. rewrite Hog. apply (wp_upd_group_step p); [eauto|done|]. intros St2. tree_steps.
    apply (wp_upd_group_step p); [simpl; by rewrite lookup_alter_ne, Hgs|by eapply frame_mine; [apply St2|eapply frame_mine; [apply St1|]]|].
    intros St3. split; [by etrans; [|etrans]|].
    exists ((R1 ++ [mkRun g c (ns ++ [o])]) ++ mkRun g' (count n) [a] :: []). split.
    2:{ by rewrite members_mid, members_app, members_one, <-app_assoc, app_nil_r. }
    rewrite <-(app_nil_r (R1 ++ _)) in G, Ha. eapply (own_run s s1); simpl; try done.
    + intros r Hr. pose proof (gr_sorted _ _ _ G) as Hs. rewrite app_nil_r in Hs. apply falls_mid in Hs as (_ & Hs & _). rewrite elem_of_app in Hr.
      destruct Hr as [Hr| ->%list_elem_of_singleton]; [|done]. specialize (Hs r Hr). simpl in Hs. lia.
    + set_solver.
    + rewrite lookup_alter_ne, lookup_alter, decide_True, Hg', last_snoc by done. done.
    + intros h Hh. rewrite last_snoc. simpl. rewrite lookup_alter. case_decide as Hgh; [subst h; rewrite (decide_True _ _ eq_refl)|rewrite (decide_False (P:=Some g = Some h)) by congruence];
        rewrite lookup_alter_ne by done; [by destruct (groups s1 !! g)|by destruct (groups s1 !! h)].
Qed.

Lemma insert_before_spec s p R1 g c o ns R2 a n :
  siblings s p (R1 ++ mkRun g c (o :: ns) :: R2) →
  a ∉ members (R1 ++ mkRun g c (o :: ns) :: R2) → a ≠ p → loose s p a → addressed s →
  nodes s !! a = Some n → c ≤ count n → (∀ r, r ∈ R1 → count n ≤ r_count r) →
  wp (insert_into_siblings_before a o) (λ _ s', calm p s s' ∧
    ∃ rs, siblings s' p rs ∧ members rs = members R1 ++ a :: o :: ns ++ members R2) s.
Proof.
  intros [C G] Ha Hap Lo A Hn Hc HR1. pose proof Lo as (n' & Hn' & Hp & _). simplify_eq.
  pose proof (grouped_at _ _ _ _ _ _ _ o G ltac:(left)) as (no & Ho & _ & _ & Hop)%view_node.
  unfold insert_into_siblings_before, check_siblings. tree_steps.
  apply wp_check; [by rewrite bool_decide_true by congruence|]. apply wp_check; [by rewrite bool_decide_true by congruence|].
  rewrite members_mid in C, Ha. simpl in C, Ha.
  eapply wp_seq; [exact (splice_before_spec s p a n Hn Hp Hap _ _ _ C Ha)|]. intros _ s1 (C1 & Sg & F).
  pose proof (same_groups_calm _ _ _ Sg F) as Cm. pose proof Cm as (_ & Hcnt & Ad).
  destruct (frame_node _ _ _ _ _ F Hn) as (n1 & Hn1 & _).
  assert (count n1 = count n) as Hcn. { specialize (Hcnt a). rewrite Hn, Hn1 in Hcnt. by simplify_eq/=. }
  eapply wp_mono; [eapply (join_before_spec s1 p R1 g c o ns R2 a n1 C1); [by eapply same_groups_grouped| |by eapply same_groups_loose|auto|done|lia|]|].
  - rewrite members_mid. done.
  - intros r Hr. rewrite Hcn. auto.
  - intros _ s2 (St & rs & G2 & Hrs). split; [etrans; [exact Cm|by apply group_step_calm]|].
    exists rs. split; [split; [|done]|done]. rewrite Hrs. by eapply group_step_chain.
Qed.
Lemma insert_after_spec s p R1 g c ns o a n :
  siblings s p (R1 ++ [mkRun g c (ns ++ [o])]) →
  a ∉ members (R1 ++ [mkRun g c (ns ++ [o])]) → a ≠ p → loose s p a → addressed s →
  nodes s !! a = Some n → count n ≤ c →
  wp (insert_into_siblings_after a o) (λ _ s', calm p s s' ∧
    ∃ rs, siblings s' p rs ∧ members rs = members R1 ++ (ns ++ [o]) ++ [a]) s.
Proof.
  intros [C G] Ha Hap Lo A Hn Hc. pose proof Lo as (n' & Hn' & Hp & _). simplify_eq.
  pose proof (grouped_at _ _ _ _ _ _ _ o G ltac:(set_solver)) as (no & Ho & _ & _ & Hop)%view_node.
  unfold insert_into_siblings_after, check_siblings. tree_steps.
  apply wp_check; [by rewrite bool_decide_true by congruence|]. apply wp_check; [by rewrite bool_decide_true by congruence|].
  pose proof C as C'. pose proof Ha as Ha'. rewrite members_app, members_one, app_assoc in C', Ha'.
  eapply wp_seq; [exact (splice_after_spec s p a n Hn Hp Hap _ _ [] C' Ha')|]. intros _ s1 (C1 & Sg & F).
  pose proof (same_groups_calm _ _ _ Sg F) as Cm. pose proof Cm as (_ & Hcnt & Ad).
  destruct (frame_node _ _ _ _ _ F Hn) as (n1 & Hn1 & _).
  assert (count n1 = count n) as Hcn. { specialize (Hcnt a). rewrite Hn, Hn1 in Hcnt. by simplify_eq/=. }
  assert (C1' : chain s1 p (members R1 ++ (ns ++ [o]) ++ [a])) by by rewrite <-!app_assoc in *.
  eapply wp_mono; [eapply (join_after_spec s1 p R1 g c ns o a n1 C1'); [by eapply same_groups_grouped|done|by eapply same_groups_loose|auto|done|lia]|].
  intros _ s2 (St & rs & G2 & Hrs). split; [etrans; [exact Cm|by apply group_step_calm]|].
  exists rs. split; [split; [|done]|done]. rewrite Hrs. by eapply group_step_chain.
Qed.

(** ** A count goes up or down *)

(** A step that adds [d] to the count of [a] and changes siblings below [p] *)
Definition recounted p a (d : Z) s s' : Prop :=
  frame p s s' ∧ (addressed s → addressed s') ∧
  ∀ b, count <$> nodes s' !! b = (λ k, if decide (b = a) then k + d else k) <$> (count <$> nodes s !! b).
Definition add_count a (d : Z) s : SuffixTree := set_nodes (alter (λ n, set_count (count n + d) n) a (nodes s)) s.
Lemma calm_recounted p a d s s1 s2 : calm p s s1 → recounted p a d s1 s2 → recounted p a d s s2.
Proof. intros (F1 & C1 & A1) (F2 & A2 & C2). split_and!; [by etrans|auto|]. intros b. by rewrite C2, C1. Qed.
Lemma recounted_calm p a d s s1 s2 : recounted p a d s s1 → calm p s1 s2 → recounted p a d s s2.
Proof. intros (F1 & A1 & C1) (F2 & C2 & A2). split_and!; [by etrans|auto|]. intros b. by rewrite C2, C1. Qed.
Lemma recounted_count p a d s s' b n : recounted p a d s s' → nodes s !! b = Some n →
  ∃ n', nodes s' !! b = Some n' ∧ core n' = core n ∧ count n' = if decide (b = a) then count n + d else count n.
Proof.
  intros (F & _ & C) Hb. destruct (frame_node _ _ _ _ _ F Hb) as (n' & Hn' & Hc). exists n'. split_and!; [done..|].
  specialize (C b). rewrite Hb, Hn' in C. by injection C.
Qed.
Lemma add_count_links a d s : same_links s (add_count a d s).
Proof. intros b. simpl. rewrite lookup_alter. case_decide; [subst|done]. by destruct (nodes s !! b). Qed.
Lemma add_count_recounted p a d s n : nodes s !! a = Some n → parent n = Some p → recounted p a d s (add_count a d s).
Proof.
  intros Hn Hp. split_and!; [split|..]; try done.
  - intros b. simpl. rewrite lookup_alter. case_decide; [subst|done]. by destruct (nodes s !! b).
  - intros b _. simpl. rewrite lookup_alter. case_decide; [subst|done]. by destruct (nodes s !! b).
  - intros b n' Hb Hp'. simpl. rewrite lookup_alter, Hb. case_decide; [congruence|done].
  - intros b n' g Hb Hp' Hg. right. simpl in Hb. rewrite lookup_alter in Hb. case_decide; [subst|by eauto].
    rewrite Hn in Hb. injection Hb as <-. eauto.
  - intros A. split; simpl.
    + intros b. rewrite lookup_alter. case_decide; subst; rewrite ?fmap_is_Some; apply (ad_nodes _ A).
    + apply (ad_groups _ A).
    + intros b n' g Hb Hg. rewrite lookup_alter in Hb. case_decide; [subst|by eapply (ad_group _ A)].
      rewrite Hn in Hb. injection Hb as <-. by eapply (ad_group _ A).
  - intros b. simpl. rewrite lookup_alter. destruct (nodes s !! b) eqn:Hb; repeat case_decide; subst; try done; by rewrite Hb.
Qed.
Lemma add_count_view a d s b :
  view (add_count a d s) b = (λ v, if decide (b = a) then (v.1.1 + d, v.1.2, v.2) else v) <$> view s b.
Proof.
  unfold view. simpl. rewrite lookup_alter. destruct (nodes s !! b) eqn:Hb; repeat case_decide; subst; try done; by rewrite Hb.
Qed.
Lemma wp_incr a n (Q : unit → SuffixTree → Prop) s : nodes s !! a = Some n → Q () (add_count a 1 s) → wp (incr a) Q s.
Proof. intros Hn HQ. unfold incr. by apply wp_upd. Qed.
Lemma wp_decr a n (Q : unit → SuffixTree → Prop) s : nodes s !! a = Some n → Q () (add_count a (-1) s) → wp (decr a) Q s.
Proof. intros Hn HQ. unfold decr. by apply wp_upd. Qed.
(** The count of a loose node does not matter to the others. *)
Lemma add_count_loose s p a d rs :
  siblings s p rs → a ∉ members rs → loose s p a → siblings (add_count a d s) p rs ∧ loose (add_count a d s) p a.
Proof.
  intros [C G] Ha Lo. pose proof Lo as (n & Hn & Hp & Hl). split; [split|].
  - eapply same_links_chain; [apply add_count_links|done].
  - destruct G as [G1 G2 G3 G4 G5 G6]. split; try done.
    + intros r b Hr Hb. rewrite add_count_view, (G5 r b Hr Hb). simpl. rewrite decide_False; [done|].
      intros ->. apply Ha, elem_of_members. eauto.
    + intros r b c q Hr. rewrite add_count_view. destruct (view s b) as [[[k og] q']|] eqn:Hv; [|done]. simpl.
      case_decide; simpl; intros [= <- -> <-]; by eapply G6.
  - exists (set_count (count n + d) n). simpl. rewrite lookup_alter, decide_True, Hn by done. split_and!; [done..|].
    intros g Hg. destruct (Hl g Hg) as [? Hu]. split; [done|]. intros b n' Hb Hg'. rewrite lookup_alter in Hb.
    case_decide; [done|]. by eapply Hu.
Qed.
Lemma wp_alone s s' p R1 g c a R2 (Q : unit → SuffixTree → Prop) :
  grouped s p (R1 ++ mkRun g c [a] :: R2) → nodes s' = nodes s → Q () s' → wp (alone g) Q s'.
Proof.
  intros G Hns HQ. unfold alone. tree_steps. apply wp_check; [|done]. unfold use_count. rewrite Hns.
  pose proof (grouped_at _ _ _ _ _ _ _ a G ltac:(left)) as (n & Hn & _ & Hg & _)%view_node.
  assert (∀ b nb, nodes s !! b = Some nb → group nb = Some g → b = a) as Hu.
  { intros b nb Hb Hgb. pose proof (view_lookup _ _ _ Hb) as Hv. rewrite Hgb in Hv.
    pose proof (gr_own _ _ _ G (mkRun g c [a]) b _ _ (in_mid _ _ _) Hv). set_solver. }
  apply Nat.eqb_eq.
  assert (filter (λ x : nat * Node, group x.2 = Some g) (map_to_list (nodes s)) ≡ₚ [(a, n)]) as ->; [|done].
  apply NoDup_Permutation; [apply NoDup_filter, NoDup_map_to_list|apply NoDup_singleton|].
  intros [b nb]. rewrite list_elem_of_filter, elem_of_map_to_list, list_elem_of_singleton. simpl. split.
  - intros [Hgb Hb]. rewrite (Hu b nb Hb Hgb) in Hb |- *. congruence.
  - intros [= -> ->]. done.
Qed.
(** A node leaves its run for one of its own in between; [mid] is its run without it. *)
Lemma split_run s mid s' p R1 R2 a g' c' :
  grouped mid p (R1 ++ R2) → loose mid p a → a ∉ members (R1 ++ R2) →
  (∀ r, r ∈ R1 → c' < r_count r) → (∀ r, r ∈ R2 → r_count r < c') →
  (∀ b x y, view s b ≠ Some (x, Some g', y)) →
  view s' a = Some (c', Some g', Some p) → (∀ b, b ≠ a → view s' b = view s b) → (∀ b, b ≠ a → view mid b = view s b) →
  groups s' !! g' = Some (mkGroup (Some a) (r_group <$> head R2) (r_group <$> last R1)) →
  (∀ h, h ≠ g' → groups s' !! h =
     (if decide (r_group <$> head R2 = Some h) then set_g_prev (Some g') else id) <$>
     ((if decide (r_group <$> last R1 = Some h) then set_g_next (Some g') else id) <$> groups mid !! h)) →
  grouped s' p (R1 ++ mkRun g' c' [a] :: R2).
Proof.
  intros G Lo Ha Hc1 Hc2 Hun Hva Hv' Hvm Hg' Hgs.
  pose (s1 := set_groups (<[g' := mkGroup (Some a) None None]> (groups mid)) s').
  apply (own_run mid s1 s'); try done.
  - simpl. by rewrite lookup_insert, decide_True.
  - intros b Hb. rewrite Hvm by done. by apply Hv'.
  - intros b y z Hb. by rewrite Hvm.
  - intros h Hh. simpl. by rewrite lookup_insert_ne.
  - intros h Hh. simpl. rewrite lookup_insert_ne by done. by apply Hgs.
Qed.
Lemma fresh_unused s : addressed s → ∀ b x y, view s b ≠ Some (x, Some (fresh s), y).
Proof.
  intros A b x y (nb & Hnb & _ & Hgb & _)%view_node. destruct (ad_group _ A b nb _ Hnb Hgb) as [z Hz].
  pose proof (ad_groups _ A _ (mk_is_Some _ _ Hz)). lia.
Qed.
(** A change of a group after some others, from the state [s0] on *)
Lemma wp_upd_group_from s0 p g f (Q : unit → SuffixTree → Prop) s :
  group_step p s0 s → mine s0 p g → is_Some (groups s !! g) →
  (∀ s', group_step p s0 s' → nodes s' = nodes s → groups s' = alter f g (groups s) → fresh s' = fresh s → Q () s') → wp (upd_group g f) Q s.
Proof.
  intros St M Hg HQ. apply (wp_upd_group_step p); [done|by eapply frame_mine; [apply St|]|]. intros St'.
  apply HQ; [by etrans|done..].
Qed.
Lemma run_without s p R1 g c c' ns1 a ns2 R2 :
  chain s p (members (R1 ++ mkRun g c (ns1 ++ a :: ns2) :: R2)) → a ∉ members (R1 ++ mkRun g c' (ns1 ++ ns2) :: R2).
Proof.
  intros C. pose proof (ch_nodup _ _ _ C) as Hnd. rewrite members_mid in *. rewrite <-app_assoc, app_assoc in Hnd. simpl in Hnd.
  apply NoDup_middle in Hnd as [Ha _]. by rewrite <-!app_assoc in *.
Qed.
Lemma counts_below s p R1 g c ns R2 :
  grouped s p (R1 ++ mkRun g c ns :: R2) → ∀ r, r ∈ R2 → r_count r < c.
Proof. intros G r Hr. pose proof (gr_sorted _ _ _ G) as (_ & _ & Hs)%falls_mid. exact (Hs r Hr). Qed.
Lemma counts_above s p R1 g c ns R2 :
  grouped s p (R1 ++ mkRun g c ns :: R2) → ∀ r, r ∈ R1 → c < r_count r.
Proof. intros G r Hr. pose proof (gr_sorted _ _ _ G) as (_ & Hs & _)%falls_mid. exact (Hs r Hr). Qed.
(** The node takes the new group, which another one of its old group does not, and its count changes. *)
Lemma split_finish s s5 p a n g f d b nb (Q : unit → SuffixTree → Prop) :
  group_step p s s5 → nodes s5 = nodes s → nodes s !! a = Some n → parent n = Some p → group n = Some g →
  nodes s !! b = Some nb → group nb = Some g → a ≠ b → mine s p f → is_Some (groups s5 !! f) →
  (∀ s6, nodes s6 !! a = Some (set_group (Some f) n) →
     recounted p a d s (add_count a d s6) → same_links s (add_count a d s6) →
     (∀ h, groups (add_count a d s6) !! h = groups s5 !! h) →
     view (add_count a d s6) a = Some (count n + d, Some f, Some p) →
     (∀ k, k ≠ a → view (add_count a d s6) k = view s k) → Q () s6) →
  wp (assign_group a (Some f)) Q s5.
Proof.
  intros St5 Hn5 Hn Hp Hg Hb Hgb Hab Mf Hf HQ. eapply wp_assign_group; [by rewrite Hn5|]. intros s6 As.
  assert (Hn6 : nodes s6 !! a = Some (set_group (Some f) n)).
  { rewrite (as_rest _ _ _ _ As). simpl. by rewrite lookup_alter, decide_True, Hn5, Hn. }
  assert (St6 : group_step p s s6).
  { etrans; [exact St5|]. eapply assigned_step; [exact As|by rewrite Hn5|done|]. intros h [= <-]. split; [done|].
    eapply frame_mine; [apply St5|done]. }
  assert (Hv : ∀ k, view (add_count a d s6) k = if decide (k = a) then Some (count n + d, Some f, Some p) else view s k).
  { intros k. rewrite add_count_view, (assigned_view _ _ _ _ k As), Hn5, Hn. case_decide; simpl; [by rewrite Hp|].
    unfold view. rewrite Hn5. by destruct (nodes s !! k). }
  apply HQ; [done| | | | |].
  - eapply calm_recounted; [by apply group_step_calm|]. by eapply add_count_recounted.
  - intros k. rewrite (add_count_links a d s6 k). apply St6.
  - intros h. simpl. destruct (decide (h = g)) as [->|Hh].
    + apply (as_used _ _ _ _ As). exists b, nb. rewrite (as_rest _ _ _ _ As). simpl. by rewrite lookup_alter_ne, Hn5.
    + apply (as_keep _ _ _ _ As _ n); [by rewrite Hn5|congruence].
  - by rewrite Hv, decide_True.
  - intros k Hk. by rewrite Hv, decide_False.
Qed.
Lemma split_first_spec s p R1 g c a b ns R2 :
  chain s p (members (R1 ++ mkRun g c (a :: b :: ns) :: R2)) → grouped s p (R1 ++ mkRun g c (a :: b :: ns) :: R2) →
  addressed s → (∀ r, r ∈ R1 → c + 1 < r_count r) →
  wp (split_first a g b ≫= λ _, incr a) (λ _ s', recounted p a 1 s s' ∧ same_links s s' ∧
    ∃ rs, grouped s' p rs ∧ members rs = members (R1 ++ mkRun g c (a :: b :: ns) :: R2)) s.
Proof.
  intros C G A HR1. destruct (group_at _ _ _ _ _ [] _ _ _ C G) as (n & x & Hn & Hc & Hg & Hp & _ & _ & Hx & Hh & Hxn & Hxp).
  pose proof (run_nodup _ _ _ _ _ _ _ C) as Hnd. destruct (run_group _ _ _ _ G (in_mid _ _ _)) as [Hgo Mo]. simpl in Hgo, Mo.
  assert (Hgf : g ≠ fresh s). { intros ->. pose proof (ad_groups _ A _ Hgo). lia. }
  assert (Hprev : ∀ h, r_group <$> last R1 = Some h → is_Some (groups s !! h) ∧ mine s p h ∧ h ≠ g ∧ h ≠ fresh s).
  { intros h (r & Hr%last_in & ->)%fmap_Some. assert (r ∈ R1 ++ R2) as Hin by set_solver.
    destruct (run_group _ _ _ r G (in_out _ _ _ _ Hin)) as [Hy My]. split_and!; [done|done| |].
    - apply (grouped_other _ _ _ _ _ r G Hin).
    - intros Heq. pose proof (ad_groups _ A _ Hy). lia. }
  pose proof (fresh_mine s p A) as Mf.
  apply wp_bind. unfold split_first. tree_steps. apply (wp_upd_group_from s p); [done|done|eauto|]. intros s1 St1 Hn1 Hg1 Hf1. tree_steps.
  apply (wp_new_group p); [by apply St1|by rewrite Hf1; eapply frame_mine; [apply St1|]|]. rewrite Hf1. intros s2 E2 St2.
  assert (nodes s2 = nodes s1 ∧ groups s2 = <[fresh s := mkGroup (Some a) None None]> (groups s1)) as [Hn2 Hg2] by by subst s2.
  clear E2. assert (group_step p s s2) as St02 by by etrans. tree_steps.
  apply (wp_upd_group_from s p); [done|done|rewrite Hg2, lookup_insert, decide_True by done; eauto|]. intros s3 St3 Hn3 Hg3 _. tree_steps.
  eapply (wp_mono _ (λ _ s4, group_step p s s4 ∧ nodes s4 = nodes s3 ∧
    ∀ h, groups s4 !! h = (if decide (h = fresh s) then set_g_prev (r_group <$> last R1) else id) <$>
          ((if decide (r_group <$> last R1 = Some h) then set_g_next (Some (fresh s)) else id) <$> groups s3 !! h))).
  { assert (Hex3 : is_Some (groups s3 !! fresh s)) by (rewrite Hg3, lookup_alter, decide_True, Hg2, lookup_insert, decide_True by done; eauto).
    rewrite Hxp. destruct (r_group <$> last R1) as [h|] eqn:El; simpl.
    - destruct (Hprev h eq_refl) as (Hy & My & Hhg & Hhf).
      apply wp_bind, (wp_upd_group_from s p); [done|done|done|]. intros s4 St4 Hn4 Hg4 _.
      apply (wp_upd_group_from s p); [done|done| |].
      { rewrite Hg4, lookup_alter_ne, Hg3, lookup_alter_ne, Hg2, lookup_insert_ne, Hg1, lookup_alter_ne by done. done. }
      intros s5 St5 Hn5 Hg5 _. split_and!; [done|congruence|].
      intros k. rewrite Hg5, Hg4, !lookup_alter. repeat case_decide; simplify_eq/=; by rewrite ?option_fmap_id.
    - tree_steps. split_and!; [done..|]. intros h. case_decide; [subst|by destruct (groups s3 !! h)].
      rewrite Hg3, lookup_alter, decide_True, Hg2, lookup_insert, decide_True by done. done. }
  intros _ s4 (St4 & Hn4 & Hg4). apply wp_bind.
  apply (wp_upd_group_from s p); [done|done| |].
  { rewrite Hg4, !fmap_is_Some, Hg3, lookup_alter_ne, Hg2, lookup_insert_ne, Hg1, lookup_alter, decide_True, fmap_is_Some by done. done. }
  intros s5 St5 Hn5 Hg5 _. assert (Hn50 : nodes s5 = nodes s) by congruence.
  pose proof (grouped_at _ _ _ _ _ _ _ b G ltac:(right; left)) as (nb & Hnb & _ & Hbg & _)%view_node.
  assert (a ≠ b) as Hab by (intros ->; apply NoDup_cons in Hnd; set_solver).
  eapply (split_finish s s5 p a n g (fresh s) 1 b nb); try done.
  { rewrite Hg5, lookup_alter_ne, Hg4, !fmap_is_Some, Hg3, lookup_alter, decide_True, Hg2, lookup_insert, decide_True by done. eauto. }
  intros s6 Ha6 Hrec Hlinks Hgs6 Hva Hvb. eapply wp_incr; [exact Ha6|]. split_and!; [done|done|].
  exists (R1 ++ mkRun (fresh s) (c + 1) [a] :: mkRun g c (b :: ns) :: R2). split; [|by rewrite !members_mid].
  pose (mid := set_nodes (alter (set_group None) a (nodes s)) (set_groups (alter (set_g_head (Some b)) g (groups s)) s)).
  assert (Asm : assigned (set_groups (alter (set_g_head (Some b)) g (groups s)) s) mid a None) by by split.
  destruct (leave_run s (set_groups (alter (set_g_head (Some b)) g (groups s)) s) mid p R1 g c [] a (b :: ns) R2) as [Gm Lm]; try done.
  { intros h Hh'. simpl. by rewrite lookup_alter_ne. }
  { unfold gnx. simpl. by rewrite lookup_alter, decide_True, Hx. }
  { unfold gpv. simpl. by rewrite lookup_alter, decide_True, Hx. }
  { unfold ghead. simpl. by rewrite lookup_alter, decide_True, Hx. }
  eapply (split_run s mid); try done.
  - by apply (run_without _ _ _ _ _ _ [] _ _ _ C).
  - intros r [->|Hr]%elem_of_cons; [simpl; lia|]. pose proof (counts_below _ _ _ _ _ _ _ G r Hr). lia.
  - by apply fresh_unused.
  - by rewrite Hva, Hc.
  - intros k Hk. by rewrite (assigned_view _ _ _ _ k Asm), decide_False.
  - rewrite Hgs6, Hg5, lookup_alter_ne, Hg4, Hg3, lookup_alter, Hg2, lookup_insert, !(decide_True (P:=fresh s = fresh s)) by done.
    rewrite decide_False; [done|]. intros Hl. by destruct (Hprev _ Hl) as (_ & _ & _ & []).
  - intros h Hhf. simpl. rewrite Hgs6, Hg5, lookup_alter. case_decide as Hgh.
    + subst h. rewrite lookup_alter, Hg4, Hg3, lookup_alter_ne, Hg2, lookup_insert_ne, Hg1, lookup_alter, !(decide_True (P:=g = g)), (decide_True (P:=Some g = Some g)), (decide_False (P:=g = fresh s)) by done.
      by destruct (groups s !! g).
    + rewrite (decide_False (P:=Some g = Some h)) by congruence.
      rewrite lookup_alter_ne, Hg4, (decide_False (P:=h = fresh s)), Hg3, lookup_alter_ne, Hg2, lookup_insert_ne, Hg1, lookup_alter_ne by done.
      by destruct (groups s !! h).
Qed.
Lemma split_last_spec s p R1 g c ns b a R2 :
  chain s p (members (R1 ++ mkRun g c (ns ++ [a]) :: R2)) → grouped s p (R1 ++ mkRun g c (ns ++ [a]) :: R2) →
  b ∈ ns → addressed s → (∀ r, r ∈ R2 → r_count r < c - 1) →
  wp (split_last a g ≫= λ _, decr a) (λ _ s', recounted p a (-1) s s' ∧ same_links s s' ∧
    ∃ rs, grouped s' p rs ∧ members rs = members (R1 ++ mkRun g c (ns ++ [a]) :: R2)) s.
Proof.
  intros C G Hb A HR2. destruct (group_at _ _ _ _ _ ns _ _ _ C G) as (n & x & Hn & Hc & Hg & Hp & _ & _ & Hx & Hh & Hxn & Hxp).
  pose proof (run_nodup _ _ _ _ _ _ _ C) as Hnd. destruct (run_group _ _ _ _ G (in_mid _ _ _)) as [Hgo Mo]. simpl in Hgo, Mo.
  assert (Hne : ns ≠ []) by (intros ->; by apply elem_of_nil in Hb).
  assert (Hgf : g ≠ fresh s). { intros ->. pose proof (ad_groups _ A _ Hgo). lia. }
  assert (Hnext : ∀ h, r_group <$> head R2 = Some h → is_Some (groups s !! h) ∧ mine s p h ∧ h ≠ g ∧ h ≠ fresh s).
  { intros h (r & Hr%head_in & ->)%fmap_Some. assert (r ∈ R1 ++ R2) as Hin by (rewrite elem_of_app; by right).
    destruct (run_group _ _ _ r G (in_out _ _ _ _ Hin)) as [Hy My]. split_and!; [done|done| |].
    - apply (grouped_other _ _ _ _ _ r G Hin).
    - intros Heq. pose proof (ad_groups _ A _ Hy). lia. }
  pose proof (fresh_mine s p A) as Mf.
  apply wp_bind. unfold split_last. tree_steps. apply (wp_new_group p); [done|done|]. intros s1 E1 St1.
  assert (nodes s1 = nodes s ∧ groups s1 = <[fresh s := mkGroup (Some a) None None]> (groups s)) as [Hn1 Hg1] by by subst s1.
  clear E1. tree_steps.
  apply (wp_upd_group_from s p); [done|done|rewrite Hg1, lookup_insert, decide_True by done; eauto|]. intros s2 St2 Hn2 Hg2 _. tree_steps.
  eapply (wp_mono _ (λ _ s3, group_step p s s3 ∧ nodes s3 = nodes s2 ∧
    ∀ h, groups s3 !! h = (if decide (h = fresh s) then set_g_next (r_group <$> head R2) else id) <$>
          ((if decide (r_group <$> head R2 = Some h) then set_g_prev (Some (fresh s)) else id) <$> groups s2 !! h))).
  { assert (Hex : is_Some (groups s2 !! fresh s)) by (rewrite Hg2, lookup_alter, decide_True, Hg1, lookup_insert, decide_True by done; eauto).
    rewrite Hxn. destruct (r_group <$> head R2) as [h|] eqn:El; simpl.
    - destruct (Hnext h eq_refl) as (Hy & My & Hhg & Hhf).
      apply wp_bind, (wp_upd_group_from s p); [done|done|done|]. intros s3 St3 Hn3 Hg3 _.
      apply (wp_upd_group_from s p); [done|done| |].
      { rewrite Hg3, lookup_alter_ne, Hg2, lookup_alter_ne, Hg1, lookup_insert_ne by done. done. }
      intros s4 St4 Hn4 Hg4 _. split_and!; [done|congruence|].
      intros k. rewrite Hg4, Hg3, !lookup_alter. repeat case_decide; simplify_eq/=; by rewrite ?option_fmap_id.
    - tree_steps. split_and!; [done..|]. intros h. case_decide; [subst|by destruct (groups s2 !! h)].
      rewrite Hg2, lookup_alter, decide_True, Hg1, lookup_insert, decide_True by done. done. }
  intros _ s3 (St3 & Hn3 & Hg3). apply wp_bind.
  apply (wp_upd_group_from s p); [done|done| |].
  { rewrite Hg3, !fmap_is_Some, Hg2, lookup_alter_ne, Hg1, lookup_insert_ne by done. done. }
  intros s4 St4 Hn4 Hg4 _. assert (Hn40 : nodes s4 = nodes s) by congruence.
  pose proof (grouped_at _ _ _ _ _ _ _ b G ltac:(rewrite elem_of_app; by left)) as (nb & Hnb & _ & Hbg & _)%view_node.
  assert (a ≠ b) as Hab by (intros ->; apply NoDup_app in Hnd as (_ & Hnd & _); apply (Hnd b Hb); left).
  eapply (split_finish s s4 p a n g (fresh s) (-1) b nb); try done.
  { rewrite Hg4, lookup_alter_ne, Hg3, !fmap_is_Some, Hg2, lookup_alter, decide_True, Hg1, lookup_insert, decide_True by done. eauto. }
  intros s6 Ha6 Hrec Hlinks Hgs6 Hva Hvb. eapply wp_decr; [exact Ha6|]. split_and!; [done|done|].
  exists ((R1 ++ [mkRun g c ns]) ++ mkRun (fresh s) (c - 1) [a] :: R2). split.
  2:{ rewrite !members_mid, <-!app_assoc. done. }
  pose (mid := set_nodes (alter (set_group None) a (nodes s)) s).
  assert (Asm : assigned s mid a None) by by split.
  destruct (leave_run s s mid p R1 g c ns a [] R2) as [Gm Lm]; try done.
  { by rewrite app_nil_r. }
  { unfold ghead. rewrite Hx. simpl. rewrite Hh, app_nil_r. by destruct ns. }
  rewrite app_nil_r in Gm. pose proof (run_without _ _ _ _ _ c ns _ [] _ C) as Ha. rewrite app_nil_r in Ha.
  eapply (split_run s mid); try done; rewrite <-?app_assoc; try done.
  - intros r [Hr| ->%list_elem_of_singleton]%elem_of_app; [|simpl; lia]. pose proof (counts_above _ _ _ _ _ _ _ G r Hr). lia.
  - by apply fresh_unused.
  - rewrite Hva, Hc. done.
  - intros k Hk. by rewrite (assigned_view _ _ _ _ k Asm), decide_False.
  - rewrite Hgs6, Hg4, lookup_alter_ne, Hg3, Hg2, lookup_alter, Hg1, lookup_insert, !(decide_True (P:=fresh s = fresh s)) by done.
    rewrite decide_False; [by rewrite last_snoc|]. intros Hl. by destruct (Hnext _ Hl) as (_ & _ & _ & []).
  - intros h Hhf. simpl. rewrite Hgs6, Hg4, last_snoc. simpl. rewrite lookup_alter. case_decide as Hgh.
    + subst h. rewrite (decide_True (P:=Some g = Some g)), Hg3, (decide_False (P:=g = fresh s)), Hg2, lookup_alter_ne, Hg1, lookup_insert_ne by done.
      rewrite decide_False; [by destruct (groups s !! g)|]. intros Hl. by destruct (Hnext _ Hl) as (_ & _ & [] & _).
    + rewrite (decide_False (P:=Some g = Some h)) by congruence.
      rewrite Hg3, (decide_False (P:=h = fresh s)), Hg2, lookup_alter_ne, Hg1, lookup_insert_ne by done.
      by destruct (groups s !! h).
Qed.

(** The last node of a run becomes the first one of the next: with [mid], it is in none in between. *)
Lemma join_next_done s s' p R1 g c ns a h b ms R2 :
  chain s p (members (R1 ++ mkRun g c (ns ++ [a]) :: mkRun h (c - 1) (b :: ms) :: R2)) →
  grouped s p (R1 ++ mkRun g c (ns ++ [a]) :: mkRun h (c - 1) (b :: ms) :: R2) →
  view s' a = Some (c - 1, Some h, Some p) → (∀ k, k ≠ a → view s' k = view s k) →
  ghead s' h = Some a → (∀ k, k ≠ h → k ≠ g → ghead s' k = ghead s k) →
  (if decide (ns = []) then
     (∀ k, k ≠ g → gnx s' k = if decide (gpv s g = Some k) then gnx s g else gnx s k) ∧
     (∀ k, k ≠ g → gpv s' k = if decide (gnx s g = Some k) then gpv s g else gpv s k)
   else ghead s' g = ghead s g ∧ ∀ k, gnx s' k = gnx s k ∧ gpv s' k = gpv s k) →
  ∃ rs, grouped s' p rs ∧ members rs = members (R1 ++ mkRun g c (ns ++ [a]) :: mkRun h (c - 1) (b :: ms) :: R2).
Proof.
  intros C G Hva Hv Hh Hheads Hlinks.
  exists ((R1 ++ keep g c ns) ++ mkRun h (c - 1) ([] ++ a :: b :: ms) :: R2). split.
  2:{ rewrite !members_app, !members_cons, members_keep, <-!app_assoc. done. }
  pose proof (run_nodup _ _ _ _ _ _ _ C) as Hnd. pose proof (run_without _ _ _ _ _ c ns _ [] _ C) as Ha.
  pose proof (grouped_other _ _ R1 _ _ (mkRun h (c - 1) (b :: ms)) G) as Hhg. simpl in Hhg.
  assert (Hhg' : h ≠ g) by (apply Hhg; rewrite elem_of_app; right; left). clear Hhg.
  assert (Hex : is_Some (groups s' !! h)) by (unfold ghead in Hh; destruct (groups s' !! h); [eauto|done]).
  pose (mid := set_groups (alter (set_g_head (Some b)) h (groups s')) (set_nodes (alter (set_group None) a (nodes s')) s')).
  assert (Hvm : ∀ k, view mid k = if decide (k = a) then Some (c - 1, None, Some p) else view s k).
  { intros k. unfold mid, view. simpl. rewrite lookup_alter. destruct (decide (k = a)) as [->|Hk].
    - rewrite decide_True by done. apply view_node in Hva as (n & -> & <- & _ & <-). done.
    - rewrite decide_False by done. by apply Hv. }
  assert (Hlm : ∀ k, gnx mid k = gnx s' k ∧ gpv mid k = gpv s' k).
  { intros k. unfold gnx, gpv. simpl. rewrite lookup_alter. destruct (decide (h = k)) as [->|]; [|done]. by destruct (groups s' !! k). }
  assert (Hhm : ∀ k, ghead mid k = if decide (k = h) then Some b else ghead s' k).
  { intros k. unfold ghead. simpl. rewrite lookup_alter. destruct (decide (k = h)) as [->|Hk].
    - rewrite decide_True by done. destruct Hex as [y ->]. done.
    - by rewrite decide_False. }
  assert (Hbh : ghead s h = Some b).
  { destruct (gr_head _ _ _ G (mkRun h (c - 1) (b :: ms))) as [_ Hgh]; [|exact Hgh]. rewrite elem_of_app. right. right. left. }
  assert (Hin : ∀ r, r ∈ R1 ++ mkRun h (c - 1) (b :: ms) :: R2 → r_group r ≠ g) by (intros r Hr; apply (grouped_other _ _ _ _ _ r G Hr)).
  assert (Hheads' : ∀ r, r ∈ R1 ++ mkRun h (c - 1) (b :: ms) :: R2 → ghead mid (r_group r) = ghead s (r_group r)).
  { intros r Hr. rewrite Hhm. destruct (decide (r_group r = h)) as [Hk|Hk]; [by rewrite Hk, Hbh|]. apply Hheads; [done|by apply Hin]. }
  assert (Gm : grouped mid p ((R1 ++ keep g c ns) ++ mkRun h (c - 1) ([] ++ b :: ms) :: R2)).
  { rewrite <-app_assoc. destruct ns as [|y ns]; simpl in *.
    - destruct Hlinks as [Hgn Hgp]. eapply (grouped_drop_run s mid p a); [|exact G|rewrite Hvm, decide_True by done; reflexivity|done| | |done].
      + intros k Hk. by rewrite Hvm, decide_False.
      + intros k Hk. destruct (Hlm k) as [-> _]. by apply Hgn.
      + intros k Hk. destruct (Hlm k) as [_ ->]. by apply Hgp.
    - destruct Hlinks as [Hgg Hgl]. rewrite <-(app_nil_r (y :: ns)).
      eapply (grouped_drop_member s mid p a _ R1 g c (y :: ns) []); [exact G|done|done|rewrite Hvm, decide_True by done; reflexivity|done| |done|].
      + intros r Hr. destruct (Hlm (r_group r)) as [-> ->]. apply Hgl.
      + rewrite Hhm, decide_False, Hgg by done. destruct (gr_head _ _ _ G _ (in_mid _ _ _)) as [_ Hgh]. simpl in Hgh. by rewrite Hgh, app_nil_r. }
  eapply (grouped_add_member mid s' p a _ (R1 ++ keep g c ns) h (c - 1) [] (b :: ms) R2); [exact Gm|..].
  - simpl. rewrite !members_app, !members_cons, members_keep. rewrite app_nil_r in Ha. by rewrite members_mid, members_cons, app_assoc in Ha.
  - done.
  - intros r _. destruct (Hlm (r_group r)) as [-> ->]. done.
  - intros r Hr. rewrite Hhm, decide_False; [done|]. apply (grouped_other _ _ _ _ _ r Gm Hr).
  - done.
  Unshelve. all: intros k Hk; rewrite Hvm, decide_False by done; rewrite ?Hv by done; done.
Qed.

Lemma join_next_spec s p R1 g c ns a h b ms R2 :
  chain s p (members (R1 ++ mkRun g c (ns ++ [a]) :: mkRun h (c - 1) (b :: ms) :: R2)) →
  grouped s p (R1 ++ mkRun g c (ns ++ [a]) :: mkRun h (c - 1) (b :: ms) :: R2) →
  wp (join_next a g b ≫= λ _, decr a) (λ _ s', recounted p a (-1) s s' ∧ same_links s s' ∧
    ∃ rs, grouped s' p rs ∧ members rs = members (R1 ++ mkRun g c (ns ++ [a]) :: mkRun h (c - 1) (b :: ms) :: R2)) s.
Proof.
  intros C G. destruct (group_at _ _ _ _ _ ns _ _ _ C G) as (n & x & Hn & Hc & Hg & Hp & _ & _ & Hx & Hh & Hxn & Hxp).
  assert (Hinh : mkRun h (c - 1) (b :: ms) ∈ R1 ++ mkRun h (c - 1) (b :: ms) :: R2) by apply in_mid.
  destruct (run_group _ _ _ _ G (in_mid _ _ _)) as [Hgo Mo]. destruct (run_group _ _ _ _ G (in_out _ _ _ _ Hinh)) as [Hho Mh].
  simpl in Hgo, Mo, Hho, Mh. pose proof (grouped_other _ _ _ _ _ _ G Hinh) as Hhg. simpl in Hhg.
  destruct (grouped_group _ _ _ _ G (in_out _ _ _ _ Hinh)) as (y & Hy & Hyb). simpl in Hy, Hyb.
  pose proof (gr_member _ _ _ G _ b (in_out _ _ _ _ Hinh) ltac:(left)) as (nb & Hnb & _ & Hbg & _)%view_node. simpl in Hbg.
  pose proof (run_nodup _ _ _ _ _ _ _ C) as Hnd.
  assert (Hprev : ∀ k, g_prev x = Some k → is_Some (groups s !! k) ∧ mine s p k ∧ k ≠ g ∧ k ≠ h).
    { rewrite Hxp. intros k (r & Hr%last_in & ->)%fmap_Some. assert (r ∈ R1 ++ mkRun h (c - 1) (b :: ms) :: R2) as Hin by (rewrite elem_of_app; by left).
    destruct (run_group _ _ _ r G (in_out _ _ _ _ Hin)) as [Hy' My]. split_and!; [done|done| |].
    - apply (grouped_other _ _ _ _ _ r G Hin).
    - rewrite (snoc_cons R1) in G. apply (grouped_other _ _ _ _ _ r G). rewrite !elem_of_app. auto. }
  apply wp_bind. unfold join_next. tree_steps. rewrite Hbg. tree_steps. apply wp_check; [by rewrite Hyb, bool_decide_true|]. tree_steps.
  apply (wp_upd_group_from s p); [done|done|eauto|]. intros s1 St1 Hn1 Hg1 _. tree_steps. simpl in Hxn.
  eapply (wp_mono _ (λ _ s2, group_step p s s2 ∧ nodes s2 = nodes s1 ∧
    ∀ k, groups s2 !! k = if decide (ns = []) then
      (if decide (k = h) then set_g_prev (g_prev x) else id) <$> ((if decide (g_prev x = Some k) then set_g_next (g_next x) else id) <$> groups s1 !! k)
      else groups s1 !! k)).
  { rewrite Hh. destruct ns as [|z ns]; simpl.
    - rewrite bool_decide_true by done. apply wp_bind. eapply wp_alone; [exact G|done|].
      apply wp_bind. rewrite Hxn. simpl.
      eapply (wp_mono _ (λ _ s2, group_step p s s2 ∧ nodes s2 = nodes s1 ∧ groups s2 = alter_opt (g_prev x) (set_g_next (Some h)) (groups s1))).
      { destruct (g_prev x) as [k|]; simpl; [|by apply wp_ret].
        destruct (Hprev k eq_refl) as (? & ? & ? & ?). apply (wp_upd_group_from s p); [done|done|by rewrite Hg1, lookup_alter_ne|].
        by intros s2 St2 Hn2 Hg2 _. }
      intros _ s2 (St2 & Hn2 & Hg2). tree_steps. apply (wp_upd_group_from s p); [done|done| |].
      { rewrite Hg2. apply is_Some_alter_opt. rewrite Hg1, lookup_alter, decide_True, Hy by done. eauto. }
      intros s3 St3 Hn3 Hg3 _. split_and!; [done|congruence|]. intros k. rewrite Hg3, lookup_alter, Hg2, !lookup_alter_opt.
      destruct (decide (h = k)) as [->|Hk].
      + rewrite (decide_True (P:=k = k)) by done. case_decide; [done|]. by destruct (groups s1 !! k).
      + rewrite (decide_False (P:=k = h)) by done. case_decide; by destruct (groups s1 !! k).
    - rewrite bool_decide_false by (intros [= ->]; apply NoDup_cons in Hnd; set_solver). tree_steps. done. }
  intros _ s2 (St2 & Hn2 & Hg2). assert (Hn20 : nodes s2 = nodes s) by congruence.
  eapply wp_assign_group; [by rewrite Hn20|]. intros s3 As.
  assert (Hn3 : nodes s3 !! a = Some (set_group (Some h) n)).
  { rewrite (as_rest _ _ _ _ As). simpl. by rewrite lookup_alter, decide_True, Hn20, Hn. }
  assert (Hh2 : is_Some (groups s2 !! h)).
  { rewrite Hg2. case_decide; rewrite ?fmap_is_Some, Hg1, lookup_alter, decide_True, Hy by done; eauto. }
  assert (St3 : group_step p s s3).
  { etrans; [exact St2|]. eapply assigned_step; [exact As|by rewrite Hn20|done|]. intros k [= <-]. split; [done|].
    eapply frame_mine; [apply St2|done]. }
  eapply wp_decr; [exact Hn3|]. split_and!.
  { eapply calm_recounted; [by apply group_step_calm|]. by eapply add_count_recounted. }
  { intros k. rewrite (add_count_links a (-1) s3 k). apply St3. }
  assert (Hv : ∀ k, view (add_count a (-1) s3) k = if decide (k = a) then Some (c - 1, Some h, Some p) else view s k).
  { intros k. rewrite add_count_view, (assigned_view _ _ _ _ k As), Hn20, Hn. destruct (decide (k = a)) as [->|Hk].
    - simpl. by rewrite Hp, Hc.
    - unfold view. rewrite Hn20. by destruct (nodes s !! k). }
  assert (Hkeep : ∀ k, k ≠ g → groups s3 !! k = groups s2 !! k).
  { intros k Hk. apply (as_keep _ _ _ _ As _ n); [by rewrite Hn20|congruence]. }
  eapply join_next_done; [exact C|exact G|by rewrite Hv, decide_True|by intros k Hk; rewrite Hv, decide_False|..].
  - unfold ghead. simpl. rewrite Hkeep, Hg2 by done. destruct (decide (ns = [])).
    + rewrite Hg1, lookup_alter, !(decide_True (P:=h = h)), Hy by done. simpl. by destruct (decide (g_prev x = Some h)).
    + rewrite Hg1, lookup_alter, decide_True, Hy by done. done.
  - intros k Hkh Hkg. unfold ghead. simpl. rewrite Hkeep, Hg2 by done. destruct (decide (ns = [])).
    + rewrite (decide_False (P:=k = h)), Hg1, lookup_alter_ne by done. case_decide; by destruct (groups s !! k).
    + by rewrite Hg1, lookup_alter_ne.
  - destruct (decide (ns = [])) as [->|Hne].
    + assert (gnx s g = Some h ∧ gpv s g = g_prev x) as [-> ->] by (unfold gnx, gpv; rewrite Hx; done).
      split; intros k Hk; unfold gnx, gpv; simpl; rewrite Hkeep, Hg2, Hg1 by done.
      * rewrite lookup_alter. destruct (decide (g_prev x = Some k)) as [Hpk|].
        -- destruct (Hprev k Hpk) as ([z Hz] & _ & _ & Hkh). rewrite (decide_False (P:=k = h)), (decide_False (P:=h = k)), Hz by done. by rewrite Hxn.
        -- destruct (decide (h = k)) as [->|Hkh]; [rewrite (decide_True (P:=k = k)) by done|rewrite (decide_False (P:=k = h)) by done];
             by destruct (groups s !! k).
      * rewrite lookup_alter. destruct (decide (h = k)) as [->|Hkh].
        -- rewrite (decide_True (P:=k = k)), (decide_True (P:=Some k = Some k)) by done. destruct Hho as [z ->]. simpl. by destruct (decide (g_prev x = Some k)).
        -- rewrite (decide_False (P:=k = h)), (decide_False (P:=Some h = Some k)) by congruence.
           destruct (decide (g_prev x = Some k)); by destruct (groups s !! k).
    + destruct ns as [|z ns]; [done|].
      pose proof (grouped_at _ _ _ _ _ _ _ z G ltac:(left)) as (nz & Hnz & _ & Hzg & _)%view_node.
      assert (Hg3 : groups s3 !! g = groups s2 !! g).
      { apply (as_used _ _ _ _ As). exists z, nz. rewrite (as_rest _ _ _ _ As). simpl. rewrite Hn20, lookup_alter_ne; [done|].
        intros ->. apply NoDup_cons in Hnd. set_solver. }
      assert (Hall : ∀ k, groups s3 !! k = alter (set_g_head (Some a)) h (groups s) !! k).
      { intros k. destruct (decide (k = g)) as [->|Hk]; [rewrite Hg3|rewrite Hkeep by done]; by rewrite Hg2, Hg1. }
      split; [|intros k; split]; unfold ghead, gnx, gpv; simpl; rewrite Hall, lookup_alter.
      * by rewrite decide_False.
      * destruct (decide (h = k)) as [->|]; [|done]. by destruct (groups s !! k).
      * destruct (decide (h = k)) as [->|]; [|done]. by destruct (groups s !! k).
Qed.

(** ** The counts of the children stay in order

    Only [a] has another place in the list. *)
Definition moved a l l' : Prop :=
  ∃ l1 l2 l1' l2', l = l1 ++ a :: l2 ∧ l' = l1' ++ a :: l2' ∧ l1 ++ l2 = l1' ++ l2'.
Lemma moved_same a l : a ∈ l → moved a l l.
Proof. intros (l1 & l2 & ->)%list_elem_of_split. by exists l1, l2, l1, l2. Qed.
Lemma run_of rs a : a ∈ members rs → ∃ R1 g c ns1 ns2 R2, rs = R1 ++ mkRun g c (ns1 ++ a :: ns2) :: R2.
Proof.
  intros ([g c l] & (R1 & R2 & ->)%list_elem_of_split & Ha)%elem_of_members. simpl in Ha.
  apply list_elem_of_split in Ha as (ns1 & ns2 & ->). eauto 10.
Qed.
Lemma remove_recount_spec s p R1 g c ns1 a ns2 R2 d (m : Tree unit) :
  (∀ s n (Q : unit → SuffixTree → Prop), nodes s !! a = Some n → Q () (add_count a d s) → wp m Q s) →
  siblings s p (R1 ++ mkRun g c (ns1 ++ a :: ns2) :: R2) → addressed s →
  wp (remove_from_siblings a ≫= λ _, m) (λ _ s', recounted p a d s s' ∧ siblings s' p (R1 ++ keep g c (ns1 ++ ns2) ++ R2) ∧
    loose s' p a ∧ addressed s' ∧ ∃ n, nodes s' !! a = Some n ∧ count n = c + d) s.
Proof.
  intros Hm S A. pose proof S as [C G]. pose proof (grouped_at _ _ _ _ _ _ _ a G (in_mid _ _ _)) as (n & Hn & Hc & _ & Hp)%view_node.
  pose proof (run_without _ _ _ _ _ c ns1 _ ns2 _ C) as Ha. eapply wp_seq; [by eapply remove_from_siblings_spec|].
  intros _ s1 (S1 & Lo & Cm). pose proof Cm as (F & Hcnt & Ad). destruct (frame_node _ _ _ _ _ F Hn) as (n1 & Hn1 & Hcore).
  assert (Hc1 : count n1 = c). { specialize (Hcnt a). rewrite Hn, Hn1 in Hcnt. simplify_eq/=. done. }
  assert (Ha1 : a ∉ members (R1 ++ keep g c (ns1 ++ ns2) ++ R2)).
  { by rewrite members_mid in Ha; rewrite !members_app, members_keep. }
  apply core_parent in Hcore as Hp1. rewrite Hp in Hp1. eapply Hm; [done|].
  destruct (add_count_loose s1 p a d _ S1 Ha1 Lo) as [S2 Lo2]. pose proof (add_count_recounted p a d s1 n1 Hn1 Hp1) as Rc. split_and!; [|done|done| |].
  - by eapply calm_recounted.
  - by apply Rc, Ad.
  - exists (set_count (count n1 + d) n1). simpl. rewrite lookup_alter, decide_True, Hn1 by done. split; [done|]. simpl. lia.
Qed.

Section move.
Context (s s1 : SuffixTree) (p : nat) (R1 : list Run) (g : nat) (c : Z) (ns1 : list nat) (a : nat) (ns2 : list nat) (R2 : list Run) (d : Z).
Context (S : siblings s p (R1 ++ mkRun g c (ns1 ++ a :: ns2) :: R2)).
Context (Rc : recounted p a d s s1) (S1 : siblings s1 p (R1 ++ keep g c (ns1 ++ ns2) ++ R2)) (Lo : loose s1 p a) (A1 : addressed s1).
Context (n : Node) (Hn : nodes s1 !! a = Some n) (Hc : count n = c + d).
Let l := members (R1 ++ mkRun g c (ns1 ++ a :: ns2) :: R2).

Lemma reinserted l1 l2 : members R1 ++ (ns1 ++ ns2) ++ members R2 = l1 ++ l2 → moved a l (l1 ++ a :: l2).
Proof.
  intros H. exists (members R1 ++ ns1), (ns2 ++ members R2), l1, l2. subst l. rewrite members_mid. split_and!; [|done|].
  - by rewrite <-!app_assoc.
  - rewrite <-H. by rewrite <-!app_assoc.
Qed.
Lemma out_of_runs : a ∉ members (R1 ++ keep g c (ns1 ++ ns2) ++ R2) ∧ a ≠ p.
Proof.
  destruct S as [C _]. pose proof (run_without _ _ _ _ _ c ns1 _ ns2 _ C) as Ha. split.
  - by rewrite members_mid in Ha; rewrite !members_app, members_keep.
  - intros ->. apply (ch_out _ _ _ C). rewrite members_mid. rewrite !elem_of_app, elem_of_cons. auto.
Qed.
Lemma move_before Rf go co o ms Rb :
  R1 ++ keep g c (ns1 ++ ns2) ++ R2 = Rf ++ mkRun go co (o :: ms) :: Rb → co ≤ c + d → (∀ r, r ∈ Rf → c + d ≤ r_count r) →
  wp (insert_into_siblings_before a o) (λ _ s', recounted p a d s s' ∧ ∃ rs, siblings s' p rs ∧ moved a l (members rs)) s1.
Proof.
  intros Heq Hco HRf. destruct out_of_runs as [Ha Hap]. rewrite Heq in *.
  eapply wp_mono; [eapply (insert_before_spec s1 p Rf go co o ms Rb a n); [done..|by rewrite Hc|by rewrite Hc]|].
  intros _ s2 (Cm & rs & S2 & Hrs). split; [by eapply recounted_calm|]. exists rs. split; [done|]. rewrite Hrs. apply reinserted.
  pose proof (f_equal members Heq) as Hm. rewrite !members_app, members_keep, members_cons in Hm. done.
Qed.
Lemma move_last ns o :
  R2 = [] → ns1 ++ ns2 = ns ++ [o] → d < 0 →
  wp (insert_into_siblings_after a o) (λ _ s', recounted p a d s s' ∧ ∃ rs, siblings s' p rs ∧ moved a l (members rs)) s1.
Proof.
  intros HR2 Heq Hd. destruct out_of_runs as [Ha Hap].
  assert (Hk : R1 ++ keep g c (ns1 ++ ns2) ++ R2 = R1 ++ [mkRun g c (ns ++ [o])]).
  { rewrite HR2, Heq, app_nil_r. by destruct ns. }
  rewrite Hk in *.
  eapply wp_mono; [eapply (insert_after_spec s1 p R1 g c ns o a n); [done..|rewrite Hc; lia]|].
  intros _ s2 (Cm & rs & S2 & Hrs). split; [by eapply recounted_calm|]. exists rs. split; [done|]. rewrite Hrs, app_assoc. apply reinserted.
  by rewrite Heq, HR2, !app_nil_r.
Qed.
End move.
