(* ===== verification/SuffixCounts.v ===== *)
(** The counts of the suffix tree ([SuffixTree]) go up and down in place: with the lemmas of
    [SuffixGroups], [increment_count] and [decrement_count] keep the children of a node in the
    order of their counts, and an operation on the children of one node leaves those of the
    others as they are. *)

From stdpp Require Import base gmap list strings sorting.
From Stdlib Require Import ZArith Lia.
From S2P Require Import Prelude SuffixTree SuffixSiblings SuffixGroups.
Open Scope Z_scope.

Implicit Types (s : SuffixTree) (a b p g : nat) (l : list nat) (r : Run) (rs R : list Run).

(** ** The children of the other nodes *)

Lemma frame_siblings q p s s' rs : frame q s s' → p ≠ q → siblings s p rs → siblings s' p rs.
Proof.
  intros F Hpq [C G].
  assert (Hm : ∀ b, b ∈ members rs → ∃ n n', nodes s !! b = Some n ∧ nodes s' !! b = Some n' ∧
    inner n' = inner n ∧ core n' = core n ∧ parent n = Some p).
  { intros b Hb. destruct (ch_member _ _ _ C b Hb) as (n & Hn & Hp). destruct (frame_node _ _ _ _ _ F Hn) as (n' & Hn' & Hc).
    exists n, n'. split_and!; try done. pose proof (fr_inner _ _ _ F b n Hn) as Hi. rewrite Hn' in Hi.
    assert (parent n ≠ Some q) as Hq by congruence. specialize (Hi Hq). simpl in Hi. congruence. }
  assert (Hg : ∀ r, r ∈ rs → groups s' !! r_group r = groups s !! r_group r).
  { intros r Hr. destruct (gr_head _ _ _ G r Hr) as [Hne _]. destruct (r_nodes r) as [|b l] eqn:E; [done|].
    assert (b ∈ r_nodes r) as Hb by (rewrite E; left).
    pose proof (gr_member _ _ _ G r b Hr Hb) as (n & Hn & _ & Hng & Hp)%view_node.
    apply (fr_groups _ _ _ F b n); [done|congruence|done]. }
  split; [split|split].
  - destruct (ch_parent _ _ _ C) as (n & Hn & Hhd & Htl). pose proof (fr_outer _ _ _ F p Hpq) as Ho. rewrite Hn in Ho.
    destruct (nodes s' !! p) as [n'|]; [|done]. exists n'. split; [done|]. unfold outer in Ho. simplify_eq/=. split; congruence.
  - apply C.
  - apply C.
  - eapply segment_ext; [|apply C]. intros b Hb. destruct (Hm b Hb) as (n & n' & Hn & Hn' & Hi & _). unfold nx, pv. rewrite Hn, Hn'.
    unfold inner in Hi. simpl. split; congruence.
  - intros b Hb. destruct (Hm b Hb) as (n & n' & Hn & Hn' & _ & Hc & Hp). exists n'. split; [done|]. apply core_parent in Hc. congruence.
  - eapply segment_ext; [|apply G]. intros h (r & -> & Hr)%list_elem_of_fmap. unfold gnx, gpv. by rewrite Hg.
  - apply G.
  - apply G.
  - intros r Hr. unfold ghead. rewrite Hg by done. by apply G.
  - intros r b Hr Hb. destruct (Hm b) as (n & n' & Hn & Hn' & Hi & Hc & Hp). { apply elem_of_members. eauto. }
    rewrite <-(gr_member _ _ _ G r b Hr Hb). unfold view. rewrite Hn, Hn'. apply core_parent in Hc. unfold inner in Hi. simpl. congruence.
  - intros r b c u Hr (n' & Hn' & _ & Hgr & _)%view_node.
    destruct (frame_node_inv _ _ _ _ _ F Hn') as (n & Hn & Hc). apply core_parent in Hc.
    destruct (decide (parent n = Some q)) as [Hq|Hq].
    + exfalso. destruct (fr_new _ _ _ F b n' _ Hn' ltac:(congruence) Hgr) as [M|(b0 & n0 & Hb0 & Hp0 & Hg0)].
      * destruct (gr_head _ _ _ G r Hr) as [Hne _]. destruct (r_nodes r) as [|y l] eqn:E; [done|].
        assert (y ∈ r_nodes r) as Hy by (rewrite E; left).
        pose proof (gr_member _ _ _ G r y Hr Hy) as (ny & Hny & _ & Hng & Hp)%view_node.
        pose proof (M y ny Hny Hng). congruence.
      * pose proof (grouped_mine _ _ _ _ G Hr b0 n0 Hb0 Hg0). congruence.
    + pose proof (fr_inner _ _ _ F b n Hn Hq) as Hi. rewrite Hn' in Hi. unfold inner in Hi. simplify_eq/=.
      eapply (gr_own _ _ _ G r b (count n) (parent n)); [done|]. rewrite (view_lookup _ _ _ Hn). congruence.
Qed.

(** ** Counting *)

(** The node in front of [a] in its run, or the last one of the run before *)
Lemma prev_count s p R1 g c ns1 a ns2 R2 b :
  grouped s p (R1 ++ mkRun g c (ns1 ++ a :: ns2) :: R2) → last (members R1 ++ ns1) = Some b →
  ∃ nb, nodes s !! b = Some nb ∧
    ((∃ ns, ns1 = ns ++ [b] ∧ count nb = c ∧ group nb = Some g) ∨
     (ns1 = [] ∧ ∃ R g1 c1 ms, R1 = R ++ [mkRun g1 c1 (ms ++ [b])] ∧ count nb = c1 ∧ group nb = Some g1)).
Proof.
  intros G Hb. destruct ns1 as [|b' ns _] using rev_ind.
  - rewrite app_nil_r in Hb. destruct (last_run _ _ _ _ _ G Hb) as (R & g1 & c1 & ms & -> & (nb & Hnb & ? & ? & _)%view_node).
    exists nb. split; [done|]. right. split; [done|]. eauto 10.
  - rewrite app_assoc, last_snoc in Hb. injection Hb as ->.
    pose proof (grouped_at _ _ _ _ _ _ _ b G ltac:(rewrite !elem_of_app; left; right; left)) as (nb & Hnb & ? & ? & _)%view_node.
    exists nb. split; [done|]. left. eauto.
Qed.
Lemma next_count s p R1 g c ns1 a ns2 R2 b :
  grouped s p (R1 ++ mkRun g c (ns1 ++ a :: ns2) :: R2) → head (ns2 ++ members R2) = Some b →
  ∃ nb, nodes s !! b = Some nb ∧
    ((∃ ns, ns2 = b :: ns ∧ count nb = c ∧ group nb = Some g) ∨
     (ns2 = [] ∧ ∃ g1 c1 ms R, R2 = mkRun g1 c1 (b :: ms) :: R ∧ count nb = c1 ∧ group nb = Some g1)).
Proof.
  intros G Hb. destruct ns2 as [|b' ns]; simpl in Hb.
  - destruct R2 as [|[g1 c1 l] R]; [done|].
    assert (Hin : mkRun g1 c1 l ∈ R1 ++ mkRun g c (ns1 ++ [a]) :: mkRun g1 c1 l :: R) by (rewrite elem_of_app; right; right; left).
    destruct (gr_head _ _ _ G _ Hin) as [Hne _]. simpl in Hne. destruct l as [|y ms]; [done|]. simpl in Hb. injection Hb as ->.
    pose proof (gr_member _ _ _ G _ b Hin ltac:(left)) as (nb & Hnb & ? & ? & _)%view_node.
    exists nb. split; [done|]. right. split; [done|]. exists g1, c1, ms, R. done.
  - injection Hb as ->.
    pose proof (grouped_at _ _ _ _ _ _ _ b G ltac:(rewrite elem_of_app; right; right; left)) as (nb & Hnb & ? & ? & _)%view_node.
    exists nb. split; [done|]. left. eauto.
Qed.

(** The only node of its run stays where it is. *)
Lemma recount_alone s p R1 g c a R2 d :
  siblings s p (R1 ++ mkRun g c [a] :: R2) → (∀ r, r ∈ R1 → c + d < r_count r) → (∀ r, r ∈ R2 → r_count r < c + d) →
  recounted p a d s (add_count a d s) ∧
  ∃ rs, siblings (add_count a d s) p rs ∧ moved a (members (R1 ++ mkRun g c [a] :: R2)) (members rs).
Proof.
  intros [C G] H1 H2. pose proof (grouped_at _ _ _ _ _ _ _ a G ltac:(left)) as (n & Hn & Hc & Hg & Hp)%view_node. split.
  - by eapply add_count_recounted.
  - exists (R1 ++ mkRun g (c + d) [a] :: R2). split; [split|].
    + rewrite members_mid in *. eapply same_links_chain; [apply add_count_links|done].
    + eapply (grouped_recount s); [|exact G| | | |done]; [..|done|done].
      * intros b Hb. rewrite add_count_view. destruct (view s b); simpl; by rewrite ?decide_False.
      * rewrite add_count_view, (grouped_at _ _ _ _ _ _ _ a G ltac:(left)). simpl. by rewrite decide_True.
    + rewrite !members_mid. apply moved_same. rewrite !elem_of_app. right. left. left.
Qed.
(** A step that keeps the links and regroups *)
Lemma regrouped s s' p a d l rs :
  chain s p l → a ∈ l → recounted p a d s s' ∧ same_links s s' ∧ (∃ rs, grouped s' p rs ∧ members rs = l) →
  l = members rs → recounted p a d s s' ∧ ∃ rs', siblings s' p rs' ∧ moved a (members rs) (members rs').
Proof.
  intros C Ha (Rc & L & rs' & G & Hrs) Heq. split; [done|]. exists rs'. rewrite Hrs, <-Heq. split; [split; [|done]|by apply moved_same].
  rewrite Hrs. by eapply same_links_chain.
Qed.

Section increment.
Context (s : SuffixTree) (p : nat) (R1 : list Run) (g : nat) (c : Z) (ns1 : list nat) (a : nat) (ns2 : list nat) (R2 : list Run).
Abbreviation rs := (R1 ++ mkRun g c (ns1 ++ a :: ns2) :: R2).
Context (S : siblings s p rs) (A : addressed s).
Abbreviation result d := (λ (_ : unit) s', recounted p a d s s' ∧ ∃ rs', siblings s' p rs' ∧ moved a (members rs) (members rs')).

Lemma in_members : a ∈ members rs.
Proof. apply elem_of_members. exists (mkRun g c (ns1 ++ a :: ns2)). split; apply in_mid. Qed.
Lemma increment_stays :
  ns1 = [] → (∀ r, r ∈ R1 → c + 1 < r_count r) → wp (increment_count a) (result 1) s.
Proof.
  pose proof in_members as Ha. intros -> H1. pose proof S as [C G].
  destruct (group_at _ _ _ _ _ _ _ _ _ C G) as (n & x & Hn & Hc & Hg & Hp & Hnn & Hpn & Hx & Hh & _ & _).
  unfold increment_count. tree_steps. rewrite Hp. tree_steps. apply (wp_counts _ _ false); [|done|].
  { intros b Hb. rewrite Hpn in Hb. destruct (prev_count _ _ _ _ _ _ _ _ _ _ G Hb) as (nb & Hnb & [(ns & ? & _)|(_ & R & g1 & c1 & ms & -> & Hcb & _)]).
    - by destruct ns.
    - exists nb. split; [done|]. specialize (H1 (mkRun g1 c1 (ms ++ [b])) (in_mid _ _ _)). simpl in H1. apply negb_false_iff, Z.ltb_lt. lia. }
  simpl negb. cbv iota. rewrite Hg. tree_steps. apply wp_check; [by rewrite Hh, bool_decide_true|]. tree_steps. destruct ns2 as [|b ns].
  - apply (wp_counts _ _ false); [|done|].
    { intros b Hb. rewrite Hnn in Hb. destruct (next_run _ _ _ _ _ _ _ _ G Hb) as (nb & Hnb & Hlt).
      exists nb. split; [done|]. apply negb_false_iff, Z.ltb_lt. lia. }
    simpl negb. cbv iota. apply wp_bind. eapply wp_alone; [exact G|done|]. eapply wp_incr; [done|].
    apply (recount_alone s p R1 g c a R2 1); [done|done|]. intros r Hr. pose proof (counts_below _ _ _ _ _ _ _ G r Hr). lia.
  - pose proof (grouped_at _ _ _ _ _ _ _ b G ltac:(right; left)) as (nb & Hnb & Hcb & _)%view_node.
    rewrite Hnn. apply (wp_counts _ _ true); [|done|].
    { intros b' [= <-]. exists nb. split; [done|]. apply negb_true_iff, Z.ltb_ge. lia. }
    simpl. tree_steps. apply wp_check; [apply Z.eqb_eq; lia|].
    eapply wp_mono; [eapply (split_first_spec s p R1 g c a b ns R2); [done..|exact H1]|].
    intros [] s' H. by eapply regrouped.
Qed.
Lemma increment_moves b nb go o Rf co ms Rb :
  last (members R1 ++ ns1) = Some b → nodes s !! b = Some nb → c ≤ count nb ≤ c + 1 → group nb = Some go → ghead s go = Some o →
  R1 ++ keep g c (ns1 ++ ns2) ++ R2 = Rf ++ mkRun go co (o :: ms) :: Rb → co ≤ c + 1 → (∀ r, r ∈ Rf → c + 1 ≤ r_count r) →
  wp (increment_count a) (result 1) s.
Proof.
  intros Hb Hnb Hcb Hgb Hgo Heq Hco HRf. pose proof S as [C G].
  destruct (group_at _ _ _ _ _ _ _ _ _ C G) as (n & x & Hn & Hc & Hg & Hp & Hnn & Hpn & Hx & Hh & _ & _).
  unfold increment_count. tree_steps. rewrite Hp, Hpn, Hb. tree_steps. apply (wp_counts _ _ true); [|done|].
  { intros b' [= <-]. exists nb. split; [done|]. apply negb_true_iff, Z.ltb_ge. lia. }
  simpl. tree_steps. apply wp_check; [apply Z.leb_le; lia|]. rewrite Hgb. tree_steps.
  unfold ghead in Hgo. destruct (groups s !! go) as [y|] eqn:Hy; [|done]. simpl in Hgo. tree_steps. rewrite Hgo. apply wp_deref.
  eapply (wp_seq_assoc (remove_from_siblings a) (λ _, incr a) (λ _, insert_into_siblings_before a o)); [eapply (remove_recount_spec s p R1 g c ns1 a ns2 R2 1); [|done..]; by intros; eapply wp_incr|].
  intros _ s1 (Rc & S1 & Lo & A1 & n1 & Hn1 & Hc1). by eapply move_before.
Qed.
End increment.

(** [increment_count] on a child of [p]: its siblings are still in the order of their counts, by
    groups, and only its place among them has changed; no assert fails. *)
Theorem increment_count_spec s p rs a :
  siblings s p rs → addressed s → a ∈ members rs →
  wp (increment_count a) (λ _ s', recounted p a 1 s s' ∧
    ∃ rs', siblings s' p rs' ∧ moved a (members rs) (members rs')) s.
Proof.
  intros S A Ha. destruct (run_of _ _ Ha) as (R1 & g & c & ns1 & ns2 & R2 & ->). pose proof S as [C G].
  pose proof (counts_above _ _ _ _ _ _ _ G) as H1.
  assert (Hle : ∀ r, r ∈ R1 → c + 1 ≤ r_count r) by (intros r Hr; specialize (H1 r Hr); lia).
  destruct ns1 as [|y ns1].
  - destruct (last_run_case _ _ _ _ (c + 1) G Hle) as [(R & g1 & ms & b & ->)|H1']; [|by apply increment_stays].
    pose proof G as G'. rewrite <-app_assoc in G'. destruct (gr_head _ _ _ G' _ (in_mid _ _ _)) as [_ Hgh].
    pose proof (grouped_at _ _ _ _ _ _ _ b G' ltac:(rewrite elem_of_app; right; left)) as (nb & Hnb & Hcb & Hgb & _)%view_node.
    destruct (ms ++ [b]) as [|o ms'] eqn:E; [by destruct ms|].
    apply (increment_moves _ _ _ _ _ _ _ _ _ S A b nb g1 o R (c + 1) ms' (keep g c ns2 ++ R2)); try done; try lia.
    + by rewrite app_nil_r, members_app, members_one, <-E, app_assoc, last_snoc.
    + by rewrite <-app_assoc.
    + intros r Hr. apply Hle. set_solver.
  - destruct (last (members R1 ++ y :: ns1)) as [b|] eqn:Hb; [|by apply last_None, app_nil in Hb as [_ ?]].
    destruct (prev_count _ _ _ _ _ _ _ _ _ _ G Hb) as (nb & Hnb & [(ns & _ & Hcb & Hgb)|(? & _)]); [|done].
    destruct (gr_head _ _ _ G _ (in_mid _ _ _)) as [_ Hgh].
    apply (increment_moves _ _ _ _ _ _ _ _ _ S A b nb g y R1 c (ns1 ++ ns2) R2); try done; try lia.
Qed.

Section decrement.
Context (s : SuffixTree) (p : nat) (R1 : list Run) (g : nat) (c : Z) (ns1 : list nat) (a : nat) (ns2 : list nat) (R2 : list Run).
Abbreviation rs := (R1 ++ mkRun g c (ns1 ++ a :: ns2) :: R2).
Context (S : siblings s p rs) (A : addressed s) (Hpos : 0 < c).
Abbreviation result d := (λ (_ : unit) s', recounted p a d s s' ∧ ∃ rs', siblings s' p rs' ∧ moved a (members rs) (members rs')).

Lemma decrement_stays :
  ns2 = [] → (∀ r, r ∈ R2 → r_count r < c - 1) → wp (decrement_count a) (result (-1)) s.
Proof.
  pose proof (in_members R1 g c ns1 a ns2 R2) as Ha. intros -> H2. pose proof S as [C G].
  destruct (group_at _ _ _ _ _ _ _ _ _ C G) as (n & x & Hn & Hc & Hg & Hp & Hnn & Hpn & Hx & Hh & _ & _).
  unfold decrement_count. tree_steps. apply wp_check; [apply Z.ltb_lt; lia|]. rewrite Hp. tree_steps.
  apply (wp_counts _ _ false); [|done|].
  { intros b Hb. rewrite Hnn in Hb. destruct (next_count _ _ _ _ _ _ _ _ _ _ G Hb) as (nb & Hnb & [(ns & ? & _)|(_ & g1 & c1 & ms & R & -> & Hcb & _)]); [done|].
    exists nb. split; [done|]. specialize (H2 (mkRun g1 c1 (b :: ms)) ltac:(left)). simpl in H2. apply negb_false_iff, Z.ltb_lt. lia. }
  simpl negb. cbv iota. destruct (last ns1) as [b|] eqn:Hb.
  - apply last_Some in Hb as [ns Hns]. assert (Hin : b ∈ ns1) by (rewrite Hns; set_solver).
    pose proof (grouped_at _ _ _ _ _ _ _ b G ltac:(rewrite elem_of_app; by left)) as (nb & Hnb & Hcb & _)%view_node.
    assert (Hpb : prev_sibling n = Some b) by by rewrite Hpn, Hns, app_assoc, last_snoc.
    rewrite Hpb. tree_steps. apply (wp_counts _ _ true); [|done|].
    { intros b' [= <-]. exists nb. split; [done|]. apply negb_true_iff, Z.ltb_ge. lia. }
    rewrite Hg. tree_steps. simpl negb. cbv iota. tree_steps. apply wp_check; [apply Z.eqb_eq; lia|].
    eapply wp_mono; [by eapply (split_last_spec s p R1 g c ns1 b a R2)|].
    intros [] s' H. by eapply regrouped.
  - apply last_None in Hb as ->. tree_steps. apply (wp_counts _ _ false); [|done|].
    { intros b Hb. rewrite Hpn, app_nil_r in Hb. destruct (prev_run _ _ _ _ _ _ _ _ G Hb) as (nb & Hnb & Hlt).
      exists nb. split; [done|]. apply negb_false_iff, Z.ltb_lt. lia. }
    rewrite Hg. tree_steps. simpl negb. cbv iota. apply wp_bind. eapply wp_alone; [exact G|done|]. eapply wp_decr; [done|].
    apply (recount_alone s p R1 g c a R2 (-1)); [done| |]; [|intros r Hr; specialize (H2 r Hr); lia].
    intros r Hr. pose proof (counts_above _ _ _ _ _ _ _ G r Hr). lia.
Qed.
Lemma decrement_joins h b ms R :
  ns2 = [] → R2 = mkRun h (c - 1) (b :: ms) :: R → wp (decrement_count a) (result (-1)) s.
Proof.
  pose proof (in_members R1 g c ns1 a ns2 R2) as Ha. intros -> ->. pose proof S as [C G].
  destruct (group_at _ _ _ _ _ _ _ _ _ C G) as (n & x & Hn & Hc & Hg & Hp & Hnn & Hpn & Hx & Hh & _ & _).
  assert (Hin : mkRun h (c - 1) (b :: ms) ∈ R1 ++ mkRun g c (ns1 ++ [a]) :: mkRun h (c - 1) (b :: ms) :: R)
    by (rewrite elem_of_app; right; right; left).
  pose proof (gr_member _ _ _ G _ b Hin ltac:(left)) as (nb & Hnb & Hcb & _)%view_node. simpl in Hcb, Hnn.
  unfold decrement_count. tree_steps. apply wp_check; [apply Z.ltb_lt; lia|]. rewrite Hp. tree_steps. rewrite Hnn.
  apply (wp_counts _ _ true); [|done|].
  { intros b' [= <-]. exists nb. split; [done|]. apply negb_true_iff, Z.ltb_ge. lia. }
  simpl negb. cbv iota. tree_steps. rewrite Hg. tree_steps. rewrite (proj2 (Z.eqb_eq _ _)) by lia.
  eapply wp_mono; [by eapply (join_next_spec s p R1 g c ns1 a h b ms R)|].
  intros [] s' H. by eapply regrouped.
Qed.
Lemma decrement_moves b ns : ns2 = b :: ns → wp (decrement_count a) (result (-1)) s.
Proof.
  intros E. pose proof S as [C G].
  destruct (group_at _ _ _ _ _ _ _ _ _ C G) as (n & x & Hn & Hc & Hg & Hp & Hnn & Hpn & Hx & Hh & Hxn & _).
  assert (Hb2 : b ∈ ns2) by (rewrite E; left).
  pose proof (grouped_at _ _ _ _ _ _ _ b G ltac:(rewrite elem_of_app, elem_of_cons; auto)) as (nb & Hnb & Hcb & _)%view_node.
  assert (Hnb' : next_sibling n = Some b) by by rewrite Hnn, E.
  unfold decrement_count. tree_steps. apply wp_check; [apply Z.ltb_lt; lia|]. rewrite Hp. tree_steps. rewrite Hnb'.
  apply (wp_counts _ _ true); [|done|].
  { intros b' [= <-]. exists nb. split; [done|]. apply negb_true_iff, Z.ltb_ge. lia. }
  simpl negb. cbv iota. tree_steps. rewrite Hg. tree_steps. rewrite (proj2 (Z.eqb_neq _ _)) by lia.
  apply wp_bind, wp_check; [apply Z.eqb_eq; lia|]. apply wp_bind. eapply wp_grp; [done|].
  eapply wp_seq_assoc; [eapply (remove_recount_spec s p R1 g c ns1 a ns2 R2 (-1) (decr a)); [|done..]; by intros; eapply wp_decr|].
  intros _ s1 (Rc & S1 & Lo & A1 & n1 & Hn1 & Hc1). rewrite Hxn.
  assert (Hk : keep g c (ns1 ++ ns2) = [mkRun g c (ns1 ++ ns2)]) by (rewrite E; by destruct ns1).
  destruct R2 as [|[h c2 ms] R] eqn:ER; simpl.
  - pose proof S1 as [C1 _]. destruct (ch_parent _ _ _ C1) as (np & Hnp & _ & Htl).
    destruct (exists_last (l := ns1 ++ ns2)) as (ms & o & Ho); [rewrite E; by destruct ns1|].
    rewrite app_nil_r, Hk, members_app, members_one, Ho, app_assoc, last_snoc in Htl.
    tree_steps. rewrite Htl. tree_steps. by eapply move_last.
  - pose proof S1 as [_ G1]. rewrite Hk in G1. pose proof (counts_below _ _ _ _ _ _ _ G (mkRun h c2 ms) ltac:(left)) as Hlt. simpl in Hlt.
    assert (Hin : mkRun h c2 ms ∈ R1 ++ mkRun g c (ns1 ++ ns2) :: mkRun h c2 ms :: R) by (rewrite elem_of_app; right; right; left).
    destruct (grouped_group _ _ _ _ G1 Hin) as (y & Hy & Hyh). simpl in Hy, Hyh. destruct (gr_head _ _ _ G1 _ Hin) as [Hne _]. simpl in Hne.
    destruct ms as [|o ms]; [done|]. tree_steps. rewrite Hyh. tree_steps.
    eapply (move_before _ _ _ _ _ _ _ _ _ _ _ S Rc S1 Lo A1 n1 Hn1 Hc1 (R1 ++ [mkRun g c (ns1 ++ ns2)]) h c2 o ms R).
    + by rewrite Hk, <-app_assoc.
    + lia.
    + intros r [Hr| ->%list_elem_of_singleton]%elem_of_app; [|simpl; lia]. pose proof (counts_above _ _ _ _ _ _ _ G r Hr). lia.
Qed.
End decrement.

(** [decrement_count] on a child of [p], the same *)
Theorem decrement_count_spec s p rs a n :
  siblings s p rs → addressed s → a ∈ members rs → nodes s !! a = Some n → 0 < count n →
  wp (decrement_count a) (λ _ s', recounted p a (-1) s s' ∧
    ∃ rs', siblings s' p rs' ∧ moved a (members rs) (members rs')) s.
Proof.
  intros S A Ha Hn Hpos. destruct (run_of _ _ Ha) as (R1 & g & c & ns1 & ns2 & R2 & ->). pose proof S as [C G].
  pose proof (grouped_at _ _ _ _ _ _ _ a G (in_mid _ _ _)) as (n' & Hn' & Hc & _)%view_node. simplify_eq.
  pose proof (counts_below _ _ _ _ _ _ _ G) as H2.
  destruct ns2 as [|b ns]; [|by eapply decrement_moves].
  destruct R2 as [|[h c2 ms] R].
  { apply decrement_stays; try done. set_solver. }
  assert (Hin : mkRun h c2 ms ∈ R1 ++ mkRun g (count n) (ns1 ++ [a]) :: mkRun h c2 ms :: R) by (rewrite elem_of_app; right; right; left).
  destruct (gr_head _ _ _ G _ Hin) as [Hne _]. simpl in Hne. destruct ms as [|b ms]; [done|].
  pose proof (H2 (mkRun h c2 (b :: ms)) ltac:(left)) as Hlt. simpl in Hlt.
  destruct (decide (c2 = count n - 1)) as [->|Hne2]; [by eapply decrement_joins|].
  apply decrement_stays; try done. intros r [->|Hr]%elem_of_cons; simpl; [lia|].
  rewrite (snoc_cons R1) in G. pose proof (counts_below _ _ _ _ _ _ _ G r Hr). lia.
Qed.

(** ** One child in the place of another *)

Lemma swap_group_spec s p R1 g c ns1 o ns2 R2 a n :
  grouped s p (R1 ++ mkRun g c (ns1 ++ o :: ns2) :: R2) → NoDup (ns1 ++ o :: ns2) →
  a ∉ members (R1 ++ mkRun g c (ns1 ++ o :: ns2) :: R2) →
  nodes s !! a = Some n → parent n = Some p → count n = c →
  (∀ r, r ∈ R1 ++ mkRun g c (ns1 ++ o :: ns2) :: R2 → group n ≠ Some (r_group r)) →
  wp (swap_group o a) (λ _ s', group_step p s s' ∧ grouped s' p (R1 ++ mkRun g c (ns1 ++ a :: ns2) :: R2) ∧
    ∃ no, nodes s' !! o = Some no ∧ group no = None) s.
Proof.
  intros G Hnd Ha Hn Hp Hc Hgn. pose proof (grouped_at _ _ _ _ _ _ _ o G (in_mid _ _ _)) as (no & Ho & Hoc & Hog & Hop)%view_node.
  destruct (run_group _ _ _ _ G (in_mid _ _ _)) as [Hgo Mo]. simpl in Hgo, Mo.
  destruct (grouped_group _ _ _ _ G (in_mid _ _ _)) as (x & Hx & Hxh). simpl in Hx, Hxh.
  assert (Hao : a ≠ o). { intros ->. apply Ha, elem_of_members. eexists. split; apply in_mid. }
  unfold swap_group. tree_steps. rewrite Hog. tree_steps.
  eapply (wp_mono _ (λ _ s1, group_step p s s1 ∧ nodes s1 = nodes s ∧ (∀ h, h ≠ g → groups s1 !! h = groups s !! h) ∧
    gnx s1 g = gnx s g ∧ gpv s1 g = gpv s g ∧ ghead s1 g = head (ns1 ++ a :: o :: ns2) ∧ is_Some (groups s1 !! g))).
  { rewrite Hxh. destruct ns1 as [|y ns1]; simpl.
    - rewrite bool_decide_true by done. apply (wp_upd_group_from s p); [done|done|done|]. intros s1 St1 Hn1 Hg1 _.
      unfold gnx, gpv, ghead. split_and!; [done|done| |rewrite Hg1, lookup_alter, decide_True, Hx by done; eauto..].
      intros h Hh. by rewrite Hg1, lookup_alter_ne.
    - rewrite bool_decide_false by (intros [= ->]; apply NoDup_cons in Hnd; set_solver). tree_steps. split_and!; try done.
      unfold ghead. by rewrite Hx. }
  intros _ s1 (St1 & Hn1 & Hg1 & Hgn1 & Hgp1 & Hgh1 & Hex1). apply wp_bind. eapply wp_assign_group; [by rewrite Hn1|]. intros s2 As.
  assert (Hv2 : ∀ b, view s2 b = if decide (b = a) then Some (c, Some g, Some p) else view s b).
  { intros b. rewrite (assigned_view _ _ _ _ b As), Hn1, Hn. destruct (decide (b = a)) as [->|]; [simpl; by rewrite Hc, Hp|].
    unfold view. by rewrite Hn1. }
  assert (Hg2 : ∀ r, r ∈ R1 ++ mkRun g c (ns1 ++ o :: ns2) :: R2 → groups s2 !! r_group r = groups s1 !! r_group r).
  { intros r Hr. apply (as_keep _ _ _ _ As _ n); [by rewrite Hn1|by apply Hgn]. }
  assert (St2 : group_step p s s2).
  { etrans; [exact St1|]. eapply assigned_step; [exact As|by rewrite Hn1|done|]. intros h [= <-]. split; [done|].
    eapply frame_mine; [apply St1|done]. }
  pose proof (Hg2 _ (in_mid _ _ _)) as Hgg. simpl in Hgg. destruct (same_lookup _ _ _ Hgg) as (Hgn2 & Hgp2 & Hgh2).
  assert (G2 : grouped s2 p (R1 ++ mkRun g c (ns1 ++ a :: o :: ns2) :: R2)).
  { eapply (grouped_add_member s s2 p a); [|exact G|done|..].
    - intros b Hb. by rewrite Hv2, decide_False.
    - by rewrite Hv2, decide_True.
    - intros r Hr. destruct (same_lookup _ _ _ (Hg2 r Hr)) as (-> & -> & _).
      apply elem_of_mid in Hr as [->|Hr]; [done|]. destruct (same_lookup s s1 (r_group r)) as (-> & -> & _); [|done].
      apply Hg1, (grouped_other _ _ _ _ _ r G Hr).
    - intros r Hr. destruct (same_lookup _ _ _ (Hg2 r (in_out _ _ _ _ Hr))) as (_ & _ & ->).
      destruct (same_lookup s s1 (r_group r)) as (_ & _ & ->); [|done]. apply Hg1, (grouped_other _ _ _ _ _ r G Hr).
    - by rewrite Hgh2. }
  assert (Ho2 : nodes s2 !! o = Some no) by (rewrite (as_rest _ _ _ _ As); simpl; by rewrite lookup_alter_ne, Hn1).
  eapply wp_assign_group; [done|]. intros s3 As3. rewrite (snoc_cons ns1) in G2 |- *.
  assert (Hnd2 : NoDup ((ns1 ++ [a]) ++ o :: ns2)).
  { rewrite <-app_assoc. simpl. apply NoDup_middle. split; [|done]. intros Hin. apply Ha, elem_of_members. eexists. split; [apply in_mid|done]. }
  destruct (leave_run s2 s2 s3 p R1 g c (ns1 ++ [a]) o ns2 R2) as [G3 (no' & Ho3 & _ & _)]; try done.
  { by destruct ns1. }
  { rewrite Hgh2, Hgh1. by destruct ns1. }
  split_and!; [|done|].
  - etrans; [exact St2|]. by eapply assigned_step.
  - exists (set_group None no). split; [|done]. rewrite (as_rest _ _ _ _ As3). simpl. by rewrite lookup_alter, decide_True, Ho2.
Qed.
Lemma replace_spec s p R1 g c ns1 o ns2 R2 a n :
  siblings s p (R1 ++ mkRun g c (ns1 ++ o :: ns2) :: R2) → a ∉ members (R1 ++ mkRun g c (ns1 ++ o :: ns2) :: R2) → a ≠ p →
  nodes s !! a = Some n → parent n = Some p → count n = c →
  (∀ r, r ∈ R1 ++ mkRun g c (ns1 ++ o :: ns2) :: R2 → group n ≠ Some (r_group r)) →
  wp (replace_in_siblings o a) (λ _ s', calm p s s' ∧ siblings s' p (R1 ++ mkRun g c (ns1 ++ a :: ns2) :: R2) ∧
    ∃ no, nodes s' !! o = Some no ∧ group no = None ∧ next_sibling no = None ∧ prev_sibling no = None) s.
Proof.
  intros [C G] Ha Hap Hn Hp Hc Hgn. pose proof (grouped_at _ _ _ _ _ _ _ o G (in_mid _ _ _)) as (no & Ho & Hoc & Hog & Hop)%view_node.
  pose proof (run_nodup _ _ _ _ _ _ _ C) as Hnd.
  unfold replace_in_siblings. tree_steps. apply wp_check; [apply Z.eqb_eq; lia|]. tree_steps. apply wp_check; [by rewrite bool_decide_true by congruence|]. tree_steps.
  pose proof C as C'. pose proof Ha as Ha'. rewrite members_mid, <-app_assoc, app_assoc in C', Ha'. simpl in C', Ha'.
  eapply wp_mono; [exact (swap_sibling_spec s p a n Hn Hp Hap _ _ _ C' Ha')|]. intros _ s1 (C1 & Sg & F & Hnx & Hpv).
  pose proof (same_groups_calm _ _ _ Sg F) as Cm. pose proof Cm as (_ & Hcnt & _).
  pose proof (view_lookup _ _ _ Hn) as Hv. rewrite <-(same_groups_view _ _ _ Sg) in Hv.
  apply view_node in Hv as (n1 & Hn1 & Hc1 & Hg1 & Hp1).
  eapply wp_mono; [eapply (swap_group_spec s1 p R1 g c ns1 o ns2 R2 a n1); [by eapply same_groups_grouped|done|done|done|congruence|congruence|by rewrite Hg1]|].
  intros _ s2 (St & G2 & no2 & Ho2 & Hgo2). split_and!; [etrans; [exact Cm|by apply group_step_calm]|split; [|done]|].
  - rewrite members_mid, <-app_assoc, app_assoc. simpl. by eapply group_step_chain.
  - exists no2. destruct (same_links_nx _ _ o (proj1 (proj2 St))) as [Hnx2 Hpv2]. rewrite Hnx in Hnx2. rewrite Hpv in Hpv2.
    unfold nx, pv in Hnx2, Hpv2. rewrite Ho2 in Hnx2, Hpv2. done.
Qed.
(** The first child of a node *)
Lemma first_child_spec s p a n np :
  addressed s → nodes s !! a = Some n → parent n = Some p → a ≠ p → nodes s !! p = Some np →
  head_child np = Some a → tail_child np = Some a → next_sibling n = None → prev_sibling n = None → group n = None →
  wp (new_group a ≫= λ g, assign_group a (Some g)) (λ _ s', calm p s s' ∧ ∃ g, siblings s' p [mkRun g (count n) [a]]) s.
Proof.
  intros A Hn Hp Hap Hnp Hhd Htl Hnx Hpv Hg.
  apply wp_bind, (wp_new_group p); [done|by apply fresh_mine|]. intros s1 E1 St1.
  assert (nodes s1 = nodes s ∧ groups s1 = <[fresh s := mkGroup (Some a) None None]> (groups s)) as [Hn1 Hg1] by by subst s1.
  clear E1. eapply wp_assign_group; [by rewrite Hn1|]. intros s2 As.
  assert (Hg2 : groups s2 !! fresh s = Some (mkGroup (Some a) None None)).
  { rewrite (as_keep _ _ _ _ As _ n), Hg1, lookup_insert, decide_True by (by rewrite ?Hn1, ?Hg). done. }
  assert (Hv2 : ∀ b, view s2 b = if decide (b = a) then Some (count n, Some (fresh s), Some p) else view s b).
  { intros b. rewrite (assigned_view _ _ _ _ b As), Hn1, Hn. destruct (decide (b = a)) as [->|]; [simpl; by rewrite Hp|].
    unfold view. by rewrite Hn1. }
  assert (Hn2 : nodes s2 = alter (set_group (Some (fresh s))) a (nodes s)) by (rewrite (as_rest _ _ _ _ As), Hn1; done).
  split.
  - apply group_step_calm. etrans; [exact St1|]. eapply assigned_step; [exact As|by rewrite Hn1|done|]. intros h [= <-].
    split; [rewrite Hg1, lookup_insert, decide_True by done; eauto|]. eapply frame_mine; [apply St1|by apply fresh_mine].
  - exists (fresh s). split; [|split]; unfold members; simpl.
    + split; simpl.
      * exists np. by rewrite Hn2, lookup_alter_ne.
      * set_solver.
      * apply NoDup_singleton.
      * unfold linked, nx, pv. simpl. rewrite Hn2, lookup_alter, decide_True, Hn by done. simpl. auto.
      * intros b ->%list_elem_of_singleton. exists (set_group (Some (fresh s)) n). by rewrite Hn2, lookup_alter, decide_True, Hn.
    + unfold linked, gnx, gpv. simpl. by rewrite Hg2.
    + apply NoDup_singleton.
    + repeat constructor.
    + intros r ->%list_elem_of_singleton. split; [done|]. unfold ghead. simpl. by rewrite Hg2.
    + intros r b ->%list_elem_of_singleton ->%list_elem_of_singleton. simpl. by rewrite Hv2, decide_True.
    + intros r b c q ->%list_elem_of_singleton. simpl. rewrite Hv2. destruct (decide (b = a)) as [->|]; [left|].
      intros H. by apply (fresh_unused _ A) in H.
Qed.
