(* ===== verification/SuffixPaths.v ===== *)
(** What the suffix tree ([SuffixTree]) stores: a window of a sequence is a suffix of it, up
    to the depth of the tree; a node stands for a path, its count is the number of windows
    that begin with the path, and there is a node where windows end or part.

    Here is what a step of [append] does to such a tree, in terms of the data of the nodes;
    [SuffixAppend] shows that the program does it. *)

From stdpp Require Import base gmap list strings.
From Stdlib Require Import ZArith Lia.
From S2P Require Import Prelude SuffixTree.
Open Scope Z_scope.

(** ** Windows

    By sequence and start; [cnt W q] of them begin with [q]. *)
Abbreviation Windows := (gmap (Z * nat) (list Z)).
Implicit Types (W : Windows) (k : Z * nat) (p q w u v : list Z) (t : Z).
Definition through W q : gset (Z * nat) := dom (filter (λ x : (Z * nat) * list Z, q `prefix_of` x.2) W).
Definition cnt W q : Z := Z.of_nat (size (through W q)).

Lemma elem_of_through W q k : k ∈ through W q ↔ ∃ w, W !! k = Some w ∧ q `prefix_of` w.
Proof.
  unfold through. rewrite elem_of_dom. split.
  - intros [w [Hw Hq]%map_lookup_filter_Some]. eauto.
  - intros (w & Hw & Hq). exists w. by apply map_lookup_filter_Some.
Qed.
Lemma prefix_snoc_cases q p t : q `prefix_of` p ++ [t] ↔ q `prefix_of` p ∨ q = p ++ [t].
Proof.
  split; [|intros [H| ->]; [by apply prefix_app_r|done]].
  intros [v Hv]. destruct v as [|x v _] using rev_ind.
  - right. by rewrite app_nil_r in Hv.
  - left. rewrite app_assoc in Hv. apply app_inj_tail in Hv as [-> _]. by apply prefix_app_r.
Qed.
Lemma not_prefix_snoc p t : ¬ p ++ [t] `prefix_of` p.
Proof. intros H%prefix_length. rewrite length_app in H. simpl in H. lia. Qed.

Lemma cnt_nonneg W q : 0 ≤ cnt W q.
Proof. unfold cnt. lia. Qed.
Lemma windows_pos W q : 0 < cnt W q ↔ ∃ k w, W !! k = Some w ∧ q `prefix_of` w.
Proof.
  unfold cnt. split.
  - intros H. destruct (decide (through W q = ∅)) as [E|[k Hk]%set_choose_L].
    + rewrite E, size_empty in H. lia.
    + apply elem_of_through in Hk. eauto.
  - intros (k & w & Hw). assert (k ∈ through W q) as Hk by (apply elem_of_through; eauto).
    assert (size (through W q) ≠ 0%nat) as Hne by (apply size_non_empty_iff; set_solver). lia.
Qed.
(** Windows that begin with [q] and not with the longer [q'] *)
Lemma cnt_more W q q' (K : gset (Z * nat)) :
  q `prefix_of` q' → (∀ k, k ∈ K → ∃ w, W !! k = Some w ∧ q `prefix_of` w ∧ ¬ q' `prefix_of` w) →
  cnt W q' + Z.of_nat (size K) ≤ cnt W q.
Proof.
  intros Hq HK. unfold cnt.
  assert (through W q' ## K).
  { intros k (w & Hw & Hp)%elem_of_through Hk. destruct (HK k Hk) as (w' & Hw' & _ & Hn). simplify_eq. done. }
  rewrite <-Nat2Z.inj_add, <-size_union by done. apply inj_le, subseteq_size.
  intros k [(w & Hw & Hp)%elem_of_through|Hk]%elem_of_union; apply elem_of_through.
  - exists w. split; [done|by etrans].
  - destruct (HK k Hk) as (w & Hw & Hp & _). eauto.
Qed.
Lemma cnt_mono W q q' : q `prefix_of` q' → cnt W q' ≤ cnt W q.
Proof.
  intros H. pose proof (cnt_more W q q' ∅ H) as Hm. rewrite size_empty in Hm.
  assert (cnt W q' + Z.of_nat 0 ≤ cnt W q) by (apply Hm; set_solver). lia.
Qed.
Lemma cnt_one W q q' k w :
  q `prefix_of` q' → W !! k = Some w → q `prefix_of` w → ¬ q' `prefix_of` w → cnt W q' + 1 ≤ cnt W q.
Proof.
  intros Hq Hw Hp Hn. pose proof (cnt_more W q q' {[k]} Hq) as Hm. rewrite size_singleton in Hm. apply Hm.
  intros k' ->%elem_of_singleton. eauto.
Qed.
Lemma cnt_two W q q' k w k' w' :
  q `prefix_of` q' → k ≠ k' → W !! k = Some w → q `prefix_of` w → ¬ q' `prefix_of` w →
  W !! k' = Some w' → q `prefix_of` w' → ¬ q' `prefix_of` w' → cnt W q' + 2 ≤ cnt W q.
Proof.
  intros Hq Hk Hw Hp Hn Hw' Hp' Hn'. assert (size ({[k]} ∪ {[k']} : gset (Z * nat)) = 2%nat) as Hs.
  { rewrite size_union by set_solver. by rewrite !size_singleton. }
  pose proof (cnt_more W q q' ({[k]} ∪ {[k']}) Hq) as Hm. rewrite Hs in Hm. apply Hm. intros k0 [ ->%elem_of_singleton| ->%elem_of_singleton]%elem_of_union; eauto.
Qed.
(** A window grows by a token. *)
Lemma cnt_grow W k p t q : W !! k = Some p → cnt (<[k := p ++ [t]]> W) q = cnt W q + (if decide (q = p ++ [t]) then 1 else 0).
Proof.
  intros Hk. unfold cnt. destruct (decide (q = p ++ [t])) as [->|Hq].
  - assert (through (<[k := p ++ [t]]> W) (p ++ [t]) = {[k]} ∪ through W (p ++ [t])) as ->.
    { apply set_eq. intros k'. rewrite elem_of_union, elem_of_singleton, !elem_of_through.
      destruct (decide (k' = k)) as [->|Hne]; [rewrite lookup_insert_eq|rewrite lookup_insert_ne by done]; naive_solver. }
    rewrite size_union, size_singleton; [lia|]. intros k' ->%elem_of_singleton (w & Hw & Hp)%elem_of_through. simplify_eq.
    by apply not_prefix_snoc in Hp.
  - rewrite Z.add_0_r. do 2 f_equal. apply set_eq. intros k'. rewrite !elem_of_through.
    destruct (decide (k' = k)) as [->|Hne]; [rewrite lookup_insert_eq|by rewrite lookup_insert_ne].
    rewrite Hk. split; intros (w & [= <-] & Hp); eexists; (split; [done|]).
    + by apply prefix_snoc_cases in Hp as [?|?].
    + by apply prefix_app_r.
Qed.

(** ** The tree of the windows *)

(** A node without its place among its siblings *)
Record Data := mkData {
  d_count : Z;
  d_token : Z;
  d_length : Z;
  d_seq : Z;
  d_idx : Z;
  d_ends : gmap Z Z;
  d_parent : option nat;
  d_children : gmap Z (option nat);
}.
Definition data (n : Node) : Data :=
  mkData (count n) (token n) (length_ n) (ref_seq n) (ref_idx n) (endpoints n) (parent n) (children n).

(** The nodes [D] and their paths [P] are the compressed tree of the windows [W]. *)
Record compact (D : gmap nat Data) W (P : nat → list Z) : Prop := {
  cp_root : ∃ d, D !! root = Some d ∧ d_parent d = None ∧ d_length d = 0;
  cp_root_path : P root = [];
  cp_count : ∀ a d, D !! a = Some d → d_count d = cnt W (P a);
  (** an edge from the parent: the labels, which no window leaves inside *)
  cp_edge : ∀ a d, D !! a = Some d → a ≠ root → ∃ b db u,
    d_parent d = Some b ∧ D !! b = Some db ∧ P a = P b ++ d_token d :: u ∧ d_length d = Z.of_nat (S (length u)) ∧
    d_children db !! d_token d = Some (Some a) ∧
    ∀ v, v `prefix_of` u → cnt W (P b ++ d_token d :: v) = cnt W (P a);
  (** some window ends at a node, or two part there *)
  cp_live : ∀ a d, D !! a = Some d → a ≠ root → 0 < cnt W (P a) ∧ ∀ t, cnt W (P a ++ [t]) < cnt W (P a);
  cp_child : ∀ b d t oc, D !! b = Some d → d_children d !! t = Some oc →
    ∃ c dc, oc = Some c ∧ D !! c = Some dc ∧ d_parent dc = Some b ∧ d_token dc = t;
  cp_cover : ∀ b d t, D !! b = Some d → 0 < cnt W (P b ++ [t]) → is_Some (d_children d !! t);
  (** the tokens of a node are in a sequence where its path is the beginning of a window *)
  cp_ref : ∀ a d, D !! a = Some d → a ≠ root → ∃ st w, W !! (d_seq d, st) = Some w ∧ P a `prefix_of` w ∧
    d_idx d = Z.of_nat (st + length (P a)) - d_length d;
  cp_endpoint : ∀ a d i e, D !! a = Some d → d_ends d !! i = Some e →
    ∃ st, W !! (i, st) = Some (P a) ∧ e = Z.of_nat (st + length (P a));
  cp_end : ∀ i st w, W !! (i, st) = Some w → ∃ a d, D !! a = Some d ∧ P a = w ∧ is_Some (d_ends d !! i);
}.

(** Lists of different lengths *)
Ltac lens H := apply (f_equal length) in H; repeat (rewrite ?length_app in H; simpl in H); lia.
Lemma snoc_prefix (u v : list Z) : v `prefix_of` u → v ≠ u → ∃ t, v ++ [t] `prefix_of` u.
Proof.
  intros [[|t x] ->] Hne; [by rewrite app_nil_r in Hne|]. exists t. exists x. by rewrite <-app_assoc.
Qed.
Lemma cons_inj_prefix (q : list Z) t u v : q ++ t :: v `prefix_of` q ++ t :: u ↔ v `prefix_of` u.
Proof. split; [by intros ?%prefix_app_inv%prefix_cons_inv_2|intros; by apply prefix_app, prefix_cons]. Qed.

Section compact.
Context (D : gmap nat Data) (W : Windows) (P : nat → list Z) (K : compact D W P).
Implicit Types (a b c : nat) (d : Data).

Lemma cp_nonempty a d : D !! a = Some d → a ≠ root → P a ≠ [].
Proof. intros Ha Hr. destruct (cp_edge _ _ _ K a d Ha Hr) as (b & db & u & _ & _ & -> & _). by destruct (P b). Qed.
Lemma cp_parent_root d : D !! root = Some d → d_parent d = None.
Proof. intros Hd. destruct (cp_root _ _ _ K) as (d' & ? & ? & _). congruence. Qed.
(** No node is inside an edge. *)
Lemma cp_inside a d b u v x dx :
  D !! a = Some d → a ≠ root → d_parent d = Some b → P a = P b ++ d_token d :: u → D !! x = Some dx →
  v `prefix_of` u → P x = P b ++ d_token d :: v → v = u.
Proof.
  intros Ha Hr Hb HPa Hx Hv HPx. destruct (decide (v = u)) as [|Hne]; [done|].
  destruct (cp_edge _ _ _ K a d Ha Hr) as (b' & db & u' & Hb' & _ & HPa' & _ & _ & Hc). simplify_eq.
  rewrite HPa in HPa'. apply app_inv_head in HPa' as [= <-].
  destruct (snoc_prefix _ _ Hv Hne) as [t Ht].
  assert (x ≠ root) as Hxr. { intros ->. rewrite (cp_root_path _ _ _ K) in HPx. by destruct (P b). }
  destruct (cp_live _ _ _ K x dx Hx Hxr) as [_ Hl]. specialize (Hl t). rewrite HPx, <-app_assoc in Hl. simpl in Hl.
  rewrite Hc in Hl by done. rewrite Hc in Hl by done. lia.
Qed.
(** A path has one node. *)
Lemma cp_inj a d a' d' : D !! a = Some d → D !! a' = Some d' → P a = P a' → a = a'.
Proof.
  remember (length (P a)) as n eqn:Hn. revert a d a' d' Hn.
  induction (lt_wf n) as [n _ IH]. intros a d a' d' -> Ha Ha' Heq.
  destruct (decide (a = root)) as [->|Hr].
  { destruct (decide (a' = root)) as [|Hr']; [done|]. destruct (cp_nonempty _ _ Ha' Hr'). by rewrite <-Heq, (cp_root_path _ _ _ K). }
  destruct (decide (a' = root)) as [->|Hr'].
  { destruct (cp_nonempty _ _ Ha Hr). by rewrite Heq, (cp_root_path _ _ _ K). }
  destruct (cp_edge _ _ _ K a d Ha Hr) as (b & db & u & Hb & Hdb & HPa & _ & Hcb & _).
  destruct (cp_edge _ _ _ K a' d' Ha' Hr') as (b' & db' & u' & Hb' & Hdb' & HPa' & _ & Hcb' & _).
  assert (Hbb : P b = P b').
  { rewrite HPa, HPa' in Heq.
    assert (Hin : ∀ b d a db' b' u u' d' (w : list Z), D !! a = Some d → a ≠ root → d_parent d = Some b →
      P a = P b ++ d_token d :: u → D !! b' = Some db' → P b ++ d_token d :: u = P b' ++ d_token d' :: u' → P b' = P b ++ w → w = []).
    { clear -K. intros b d a db' b' u u' d' w Ha Hr Hb HPa Hdb' Heq Hw. destruct w as [|x w]; [done|]. exfalso.
      rewrite Hw, <-app_assoc in Heq. apply app_inv_head in Heq. simpl in Heq. injection Heq as <- ->.
      assert (w = w ++ d_token d' :: u') as Hf.
      { eapply (cp_inside a d b _ w b' db'); try done. by apply prefix_app_r. }
      apply (f_equal length) in Hf. rewrite length_app in Hf. simpl in Hf. lia. }
    destruct (prefix_weak_total (P b) (P b') (P b ++ d_token d :: u)) as [[w Hw]|[w Hw]].
    - by apply prefix_app_r.
    - rewrite Heq. by apply prefix_app_r.
    - rewrite Hw, (Hin b d a db' b' u u' d' w Ha Hr Hb HPa Hdb' Heq Hw). by rewrite app_nil_r.
    - rewrite Hw, (Hin b' d' a' db b u' u d w Ha' Hr' Hb' HPa' Hdb (eq_sym Heq) Hw). by rewrite app_nil_r. }
  assert (b = b') as <-.
  { eapply (IH (length (P b))); try done. rewrite HPa, length_app. simpl. lia. }
  rewrite HPa, HPa' in Heq. apply app_inv_head in Heq. injection Heq as Ht ->. simplify_eq. rewrite Ht in Hcb. congruence.
Qed.
(** The child on a token *)
Lemma cp_find b db t c :
  D !! b = Some db → d_children db !! t = Some (Some c) →
  ∃ dc u, D !! c = Some dc ∧ c ≠ root ∧ d_parent dc = Some b ∧ d_token dc = t ∧ P c = P b ++ t :: u ∧
    d_length dc = Z.of_nat (S (length u)) ∧ ∀ v, v `prefix_of` u → cnt W (P b ++ t :: v) = cnt W (P c).
Proof.
  intros Hb Hc. destruct (cp_child _ _ _ K b db t _ Hb Hc) as (c' & dc & [= <-] & Hdc & Hp & Ht).
  assert (c ≠ root) as Hr. { intros ->. rewrite (cp_parent_root _ Hdc) in Hp. done. }
  destruct (cp_edge _ _ _ K c dc Hdc Hr) as (b' & db' & u & Hb' & Hdb' & HP & Hlen & _ & Hv).
  simplify_eq. exists dc, u. done.
Qed.
Lemma cp_none b db t : D !! b = Some db → d_children db !! t = None → cnt W (P b ++ [t]) = 0.
Proof.
  intros Hb Hc. pose proof (cnt_nonneg W (P b ++ [t])). destruct (decide (0 < cnt W (P b ++ [t]))) as [Hp|]; [|lia].
  destruct (cp_cover _ _ _ K b db t Hb Hp). congruence.
Qed.
Lemma cp_child_count b db t c dc :
  D !! b = Some db → d_children db !! t = Some (Some c) → D !! c = Some dc → cnt W (P b ++ [t]) = d_count dc.
Proof.
  intros Hb Hc Hdc. destruct (cp_find _ _ _ _ Hb Hc) as (dc' & u & ? & _ & _ & _ & _ & _ & Hv). simplify_eq.
  rewrite (cp_count _ _ _ K c dc) by done. apply (Hv []). apply prefix_nil.
Qed.
End compact.

(** ** A step of [append]

    The window of [p] that starts at [st] in the sequence [i] grows by the token [t]; [a] is
    the node where it ends. *)
Section step.
Context (D : gmap nat Data) (W : Windows) (P : nat → list Z) (K : compact D W P).
Context (i : Z) (st : nat) (p : list Z) (t : Z) (a : nat) (da : Data).
Context (Hwin : W !! (i, st) = Some p) (Ha : D !! a = Some da) (HPa : P a = p).
Context (Huniq : ∀ st', W !! (i, st') = Some p → st' = st).
Let W' : Windows := <[(i, st) := p ++ [t]]> W.
Let len : Z := Z.of_nat (st + length p) + 1.

Lemma step_cnt q : cnt W' q = cnt W q + (if decide (q = p ++ [t]) then 1 else 0).
Proof. by apply cnt_grow. Qed.
Lemma step_cnt_ne q : q ≠ p ++ [t] → cnt W' q = cnt W q.
Proof. intros Hq. rewrite step_cnt, decide_False by done. lia. Qed.
Lemma step_cnt_eq : cnt W' (p ++ [t]) = cnt W (p ++ [t]) + 1.
Proof. by rewrite step_cnt, decide_True. Qed.
Lemma step_other j st' : (j, st') ≠ (i, st) → W' !! (j, st') = W !! (j, st').
Proof. intros Hne. unfold W'. by rewrite lookup_insert_ne. Qed.
Lemma step_here : W' !! (i, st) = Some (p ++ [t]).
Proof. apply lookup_insert_eq. Qed.
Lemma step_grows k w : W !! k = Some w → ∃ w', W' !! k = Some w' ∧ w `prefix_of` w'.
Proof.
  intros Hk. destruct (decide (k = (i, st))) as [->|Hne]; [|destruct k as [j st']; exists w; by rewrite step_other].
  exists (p ++ [t]). rewrite step_here. simplify_eq. split; [done|by apply prefix_app_r].
Qed.
Lemma at_a x dx : D !! x = Some dx → P x = p → x = a.
Proof. intros Hx HPx. eapply (cp_inj D W P K); [done..|congruence]. Qed.
Lemma step_snoc x dx y : D !! x = Some dx → x ≠ a → P x ++ [y] ≠ p ++ [t].
Proof. intros Hx Hne [Heq _]%app_inj_tail. by eapply Hne, at_a. Qed.
Lemma step_end_at_a : d_ends da !! i = Some (Z.of_nat (st + length p)).
Proof.
  destruct (cp_end _ _ _ K i st p Hwin) as (x & dx & Hx & HPx & [e He]).
  pose proof (at_a x dx Hx HPx) as ->. rewrite Ha in Hx. injection Hx as <-. destruct (cp_endpoint _ _ _ K a da i e Ha He) as (st' & Hst & ->).
  rewrite HPa in *. apply Huniq in Hst as ->. done.
Qed.
(** Fields that a node keeps *)
Lemma step_ref x dx d' :
  D !! x = Some dx → x ≠ root → d_seq d' = d_seq dx → d_idx d' - d_idx dx = d_length dx - d_length d' →
  ∃ st' w, W' !! (d_seq d', st') = Some w ∧ P x `prefix_of` w ∧ d_idx d' = Z.of_nat (st' + length (P x)) - d_length d'.
Proof.
  intros Hx Hr Hs Hi. destruct (cp_ref _ _ _ K x dx Hx Hr) as (st' & w & Hw & Hp & Hd).
  destruct (step_grows _ _ Hw) as (w' & Hw' & Hww). exists st', w'. rewrite Hs. split_and!; [done|by etrans|lia].
Qed.
Lemma step_endpoint x dx j e :
  D !! x = Some dx → x ≠ a → d_ends dx !! j = Some e → ∃ st', W' !! (j, st') = Some (P x) ∧ e = Z.of_nat (st' + length (P x)).
Proof.
  intros Hx Hne He. destruct (cp_endpoint _ _ _ K x dx j e Hx He) as (st' & Hst & ->). exists st'. split; [|done].
  rewrite step_other; [done|]. intros [= -> ->]. rewrite Hwin in Hst. injection Hst as Hst. by eapply Hne, at_a.
Qed.
(** at [a], the sequence ends there no more *)
Lemma step_endpoint_a j e : delete i (d_ends da) !! j = Some e → ∃ st', W' !! (j, st') = Some p ∧ e = Z.of_nat (st' + length p).
Proof.
  rewrite lookup_delete_Some. intros [Hne He]. destruct (cp_endpoint _ _ _ K a da j e Ha He) as (st' & Hst & ->).
  rewrite HPa in *. exists st'. split; [|done]. rewrite step_other; [done|congruence].
Qed.
(** An edge that does not begin at [a] with [t] *)
Lemma step_edge x dx b u v :
  D !! x = Some dx → x ≠ root → d_parent dx = Some b → P x = P b ++ d_token dx :: u → ¬ (b = a ∧ d_token dx = t) →
  v `prefix_of` u → P b ++ d_token dx :: v ≠ p ++ [t].
Proof.
  intros Hx Hr Hb HPx Hno Hv Heq. destruct (cp_edge _ _ _ K x dx Hx Hr) as (b' & db & u' & Hb' & Hdb & _). rewrite Hb in Hb'. injection Hb' as <-.
  destruct v as [|y v _] using rev_ind.
  - apply app_inj_tail in Heq as [Heq Ht]. apply Hno. split; [|done]. by eapply at_a.
  - rewrite app_comm_cons, app_assoc in Heq. apply app_inj_tail in Heq as [Heq ->].
    assert (v = u) as ->.
    { eapply (cp_inside D W P K x dx b u v a da); try done; [|congruence]. etrans; [|exact Hv]. by apply prefix_app_r. }
    by apply not_prefix_snoc in Hv.
Qed.
Lemma step_path x dx : D !! x = Some dx → x ≠ root → ¬ (d_parent dx = Some a ∧ d_token dx = t) → P x ≠ p ++ [t].
Proof.
  intros Hx Hr Hno. destruct (cp_edge _ _ _ K x dx Hx Hr) as (b & db & u & Hb & Hdb & HP & _). rewrite HP.
  eapply (step_edge x dx b u u); try done. intros [-> Ht]. by apply Hno.
Qed.
(** What one more window at [a], or below it on another token, would mean *)
Lemma one_more k w : k ≠ (i, st) → W !! k = Some w → p `prefix_of` w → ¬ p ++ [t] `prefix_of` w → cnt W (p ++ [t]) + 2 ≤ cnt W p.
Proof.
  intros Hk Hw Hp Hn. eapply (cnt_two W p (p ++ [t]) (i, st) p k w); try done; [by apply prefix_app_r|apply not_prefix_snoc].
Qed.
Lemma ends_here : cnt W (p ++ [t]) + 1 ≤ cnt W p.
Proof. apply (cnt_one W p (p ++ [t]) (i, st) p); [by apply prefix_app_r|done|done|apply not_prefix_snoc]. Qed.
Lemma other_child y c : cnt W p ≤ cnt W (p ++ [t]) + 1 → d_children da !! y = Some (Some c) → y = t.
Proof.
  intros Hle Hc. destruct (decide (y = t)) as [|Hne]; [done|]. exfalso.
  destruct (cp_find D W P K a da y c Ha Hc) as (dc & u & Hdc & Hr & _ & _ & HPc & _ & _).
  destruct (cp_live _ _ _ K c dc Hdc Hr) as [(k & w & Hw & Hp)%windows_pos _]. rewrite HPc, HPa in Hp.
  assert (p ++ [y] `prefix_of` w) as Hy.
  { etrans; [|exact Hp]. apply prefix_app. apply (prefix_app_r [y] [y] u). done. }
  enough (cnt W (p ++ [t]) + 2 ≤ cnt W p) by lia. apply (one_more k w); [|done|by etrans; [apply (prefix_app_r p p)|]|].
  - intros ->. simplify_eq. by apply not_prefix_snoc in Hy.
  - intros Ht. destruct Hy as [w1 ->], Ht as [w2 Heq]. rewrite <-!app_assoc in Heq. apply app_inv_head in Heq. simpl in Heq. congruence.
Qed.
Lemma other_end j e : cnt W p ≤ cnt W (p ++ [t]) + 1 → d_ends da !! j = Some e → j = i.
Proof.
  intros Hle He. destruct (decide (j = i)) as [|Hne]; [done|]. exfalso.
  destruct (cp_endpoint _ _ _ K a da j e Ha He) as (st' & Hst & _). rewrite HPa in Hst.
  enough (cnt W (p ++ [t]) + 2 ≤ cnt W p) by lia. apply (one_more (j, st') p); [congruence|done|done|apply not_prefix_snoc].
Qed.
Lemma other_window k : cnt W p ≤ cnt W (p ++ [t]) + 1 → W !! k = Some p → k = (i, st).
Proof.
  intros Hle Hk. destruct (decide (k = (i, st))) as [|Hne]; [done|]. exfalso.
  enough (cnt W (p ++ [t]) + 2 ≤ cnt W p) by lia. by apply (one_more k p); [..|apply not_prefix_snoc].
Qed.

Definition upd_path (P : nat → list Z) a q : nat → list Z := λ x, if decide (x = a) then q else P x.
(** Case 1a: a leaf of one window gets longer. *)
Definition grow_leaf : gmap nat Data :=
  <[a := mkData (d_count da) (d_token da) (d_length da + 1) (d_seq da) (d_idx da) (<[i := len]> (d_ends da)) (d_parent da) (d_children da)]> D.
Lemma grow_leaf_facts : d_count da = 1 → a ≠ root → d_children da !! t = None → d_children da = ∅ ∧ d_seq da = i.
Proof.
  intros Hc Hr Hn. rewrite (cp_count _ _ _ K a da Ha), HPa in Hc. split.
  - apply map_eq. intros y. rewrite lookup_empty. destruct (d_children da !! y) as [oc|] eqn:Hy; [|done].
    destruct (cp_child _ _ _ K a da y oc Ha Hy) as (c & dc & -> & _). pose proof (cnt_nonneg W (p ++ [t])).
    assert (y = t) as -> by (eapply other_child; [lia|done]). congruence.
  - destruct (cp_ref _ _ _ K a da Ha Hr) as (st' & w & Hw & Hp & _). rewrite HPa in Hp.
    destruct (decide ((d_seq da, st') = (i, st))) as [E|Hne]; [congruence|].
    assert (cnt W (p ++ [t]) = 0) as Hz by (rewrite <-HPa; by apply (cp_none D W P K a da t)).
    pose proof (one_more _ w Hne Hw Hp) as H2.
    assert (¬ p ++ [t] `prefix_of` w) as Hnp. { intros Hpt. enough (0 < cnt W (p ++ [t])) by lia. apply windows_pos. eauto. }
    specialize (H2 Hnp). lia.
Qed.
Lemma grow_leaf_compact :
  d_count da = 1 → a ≠ root → d_children da !! t = None → compact grow_leaf W' (upd_path P a (p ++ [t])).
Proof.
  intros Hc Hr Hn. destruct (grow_leaf_facts Hc Hr Hn) as [Hch Hseq].
  assert (Hz : cnt W (p ++ [t]) = 0) by (rewrite <-HPa; by apply (cp_none D W P K a da t)).
  assert (Hpath : ∀ x dx, D !! x = Some dx → P x ≠ p ++ [t]).
  { intros x dx Hx Heq. destruct (decide (x = root)) as [->|Hxr].
    - rewrite (cp_root_path _ _ _ K) in Heq. by destruct p.
    - destruct (cp_live _ _ _ K x dx Hx Hxr) as [Hp _]. rewrite Heq in Hp. lia. }
  assert (Hpar : ∀ x dx, D !! x = Some dx → x ≠ root → d_parent dx ≠ Some a).
  { intros x dx Hx Hxr Hp. destruct (cp_edge _ _ _ K x dx Hx Hxr) as (b & db & u & Hb & Hdb & _ & _ & Hcb & _).
    rewrite Hp in Hb. injection Hb as <-. rewrite Ha in Hdb. injection Hdb as <-. by rewrite Hch in Hcb. }
  assert (Hgl : ∀ x, grow_leaf !! x = if decide (a = x) then Some (mkData (d_count da) (d_token da) (d_length da + 1) (d_seq da) (d_idx da) (<[i := len]> (d_ends da)) (d_parent da) (d_children da)) else D !! x).
  { intros x. unfold grow_leaf. apply lookup_insert. }
  split.
  - destruct (cp_root _ _ _ K) as (d & Hd & ?). exists d. by rewrite Hgl, decide_False.
  - unfold upd_path. rewrite decide_False by done. apply (cp_root_path _ _ _ K).
  - intros x dx. rewrite Hgl. unfold upd_path. destruct (decide (a = x)) as [<-|Hx].
    + intros [= <-]. rewrite decide_True by done. simpl. rewrite step_cnt_eq. lia.
    + intros Hdx. rewrite decide_False by done. rewrite step_cnt_ne by by eapply Hpath. by apply (cp_count _ _ _ K).
  - intros x dx. rewrite Hgl. unfold upd_path. destruct (decide (a = x)) as [<-|Hx].
    + intros [= <-] _. simpl. destruct (cp_edge _ _ _ K a da Ha Hr) as (b & db & u & Hb & Hdb & HP & Hlen & Hcb & Hv).
      assert (a ≠ b) as Hab. { intros <-. by apply (Hpar a da). }
      exists b, db, (u ++ [t]). rewrite Hgl, decide_False by done. rewrite (decide_True (P:=a = a)), (decide_False (P:=b = a)) by done.
      split_and!; [done|done|by rewrite <-HPa, HP, <-app_assoc|rewrite length_app, Hlen; simpl; lia|done|].
      intros v [Hvu| ->]%prefix_snoc_cases.
      * rewrite step_cnt_ne; [rewrite Hv by done; rewrite HPa, step_cnt_eq, Hz, <-HPa, <-(cp_count _ _ _ K a da Ha); done|].
        intros Heq. apply prefix_length in Hvu. rewrite <-HPa, HP in Heq. lens Heq.
      * f_equal. by rewrite <-HPa, HP, <-app_assoc.
    + intros Hdx Hxr. destruct (cp_edge _ _ _ K x dx Hdx Hxr) as (b & db & u & Hb & Hdb & HP & Hlen & Hcb & Hv).
      assert (a ≠ b) as Hab. { intros <-. by apply (Hpar x dx). }
      exists b, db, u. rewrite Hgl, decide_False by done. rewrite !decide_False by done. split_and!; try done.
      assert (¬ (b = a ∧ d_token dx = t)) as Hno by (intros [-> _]; done).
      intros v Hvu. rewrite !step_cnt_ne; [by apply Hv|by eapply Hpath|by eapply step_edge].
  - intros x dx. rewrite Hgl. unfold upd_path. destruct (decide (a = x)) as [<-|Hx].
    + intros [= <-] _. rewrite decide_True by done. rewrite step_cnt_eq, Hz. split; [done|]. intros y.
      rewrite step_cnt_ne by (intros Heq; lens Heq).
      pose proof (cnt_mono W (p ++ [t]) ((p ++ [t]) ++ [y])) as Hm. rewrite Hz in Hm. enough (cnt W ((p ++ [t]) ++ [y]) ≤ 0) by lia.
      apply Hm. by apply prefix_app_r.
    + intros Hdx Hxr. rewrite decide_False by done. rewrite step_cnt_ne by by eapply Hpath.
      destruct (cp_live _ _ _ K x dx Hdx Hxr) as [Hp Hy]. split; [done|]. intros y. by rewrite step_cnt_ne by by eapply step_snoc.
  - intros b d y oc. rewrite Hgl. destruct (decide (a = b)) as [<-|Hb]; [intros [= <-]; simpl; by rewrite Hch|].
    intros Hd Hoc. destruct (cp_child _ _ _ K b d y oc Hd Hoc) as (c & dc & -> & Hdc & Hp & Ht). exists c.
    rewrite Hgl. destruct (decide (a = c)) as [<-|Hac]; [|by eauto]. rewrite Ha in Hdc. injection Hdc as <-. by eexists.
  - intros b d y. rewrite Hgl. unfold upd_path. destruct (decide (a = b)) as [<-|Hb].
    + intros [= <-]. rewrite decide_True by done. rewrite step_cnt_ne by (intros Heq; lens Heq).
      pose proof (cnt_mono W (p ++ [t]) ((p ++ [t]) ++ [y])) as Hm. rewrite Hz in Hm. intros Hpos.
      enough (cnt W ((p ++ [t]) ++ [y]) ≤ 0) by lia. apply Hm. by apply prefix_app_r.
    + intros Hd. rewrite decide_False by done. rewrite step_cnt_ne by by eapply step_snoc. by apply (cp_cover _ _ _ K).
  - intros x dx. rewrite Hgl. unfold upd_path. destruct (decide (a = x)) as [<-|Hx].
    + intros [= <-] _. rewrite decide_True by done. simpl. exists st, (p ++ [t]). rewrite Hseq, step_here. split_and!; [done|done|].
      destruct (cp_ref _ _ _ K a da Ha Hr) as (st' & w & Hw & Hp & ->). rewrite HPa in *.
      destruct (decide ((d_seq da, st') = (i, st))) as [E|Hne].
      * injection E as _ ->. rewrite length_app. simpl. lia.
      * exfalso. rewrite (cp_count _ _ _ K a da Ha), HPa in Hc.
        enough (cnt W (p ++ [t]) + 2 ≤ cnt W p) by (pose proof (cnt_nonneg W (p ++ [t])); lia).
        apply (one_more _ w Hne Hw Hp). intros Hpt. enough (0 < cnt W (p ++ [t])) by lia. apply windows_pos. eauto.
    + intros Hdx Hxr. rewrite decide_False by done. eapply step_ref; [done|done|done|lia].
  - intros x dx j e. rewrite Hgl. unfold upd_path. destruct (decide (a = x)) as [<-|Hx].
    + intros [= <-]. rewrite decide_True by done. simpl. rewrite lookup_insert. case_decide as Hij.
      * intros [= <-]. subst j. exists st. rewrite step_here, length_app. split; [done|]. unfold len. simpl. lia.
      * intros He. destruct Hij. symmetry. eapply other_end; [|done]. rewrite <-HPa, <-(cp_count _ _ _ K a da Ha). rewrite HPa. lia.
    + intros Hdx He. rewrite decide_False by done. by eapply step_endpoint.
  - intros j st' w Hw. destruct (decide ((j, st') = (i, st))) as [[= -> ->]|Hne].
    + rewrite step_here in Hw. injection Hw as <-. exists a. eexists. rewrite Hgl, decide_True by done. split; [done|].
      unfold upd_path. rewrite decide_True by done. split; [done|]. simpl. rewrite lookup_insert_eq. eauto.
    + rewrite step_other in Hw by done. destruct (cp_end _ _ _ K j st' w Hw) as (x & dx & Hx & HPx & He).
      destruct (decide (a = x)) as [<-|Hxa].
      { exfalso. apply Hne. eapply other_window; [|congruence]. rewrite <-HPa, <-(cp_count _ _ _ K a da Ha). rewrite HPa. lia. }
      exists x, dx. rewrite Hgl, decide_False by done. unfold upd_path. rewrite decide_False by done. done.
Qed.

(** Facts about a token that has no window below [a] *)
Lemma no_window_path : cnt W (p ++ [t]) = 0 → ∀ x dx, D !! x = Some dx → P x ≠ p ++ [t].
Proof.
  intros Hz x dx Hx Heq. destruct (decide (x = root)) as [->|Hxr].
  - rewrite (cp_root_path _ _ _ K) in Heq. by destruct p.
  - destruct (cp_live _ _ _ K x dx Hx Hxr) as [Hp _]. rewrite Heq in Hp. lia.
Qed.
Lemma no_window_below y : cnt W (p ++ [t]) = 0 → cnt W' ((p ++ [t]) ++ [y]) = 0.
Proof.
  intros Hz. rewrite step_cnt_ne by (intros Heq; lens Heq). pose proof (cnt_nonneg W ((p ++ [t]) ++ [y])).
  assert (cnt W ((p ++ [t]) ++ [y]) ≤ cnt W (p ++ [t])) by (apply cnt_mono; by apply prefix_app_r). lia.
Qed.
(** A node that keeps its data, its path and its parent, the first token not being [t] at [a] *)
Lemma step_edge_kept x dx b db u :
  D !! x = Some dx → x ≠ root → d_parent dx = Some b → D !! b = Some db → P x = P b ++ d_token dx :: u →
  (∀ v, v `prefix_of` u → cnt W (P b ++ d_token dx :: v) = cnt W (P x)) → ¬ (b = a ∧ d_token dx = t) →
  ∀ v, v `prefix_of` u → cnt W' (P b ++ d_token dx :: v) = cnt W' (P x).
Proof.
  intros Hx Hxr Hb Hdb HP Hv Hno v Hvu. rewrite !step_cnt_ne; [by apply Hv| |by eapply step_edge].
  rewrite HP. by eapply (step_edge x dx b u u).
Qed.
Lemma step_live_kept x dx :
  D !! x = Some dx → x ≠ root → x ≠ a → P x ≠ p ++ [t] → 0 < cnt W' (P x) ∧ ∀ y, cnt W' (P x ++ [y]) < cnt W' (P x).
Proof.
  intros Hx Hxr Hxa HPx. rewrite step_cnt_ne by done. destruct (cp_live _ _ _ K x dx Hx Hxr) as [Hp Hy].
  split; [done|]. intros y. by rewrite step_cnt_ne by by eapply step_snoc.
Qed.

(** Case 1b: a new child for the token. *)
Section add_leaf.
Context (c : nat) (Hc : D !! c = None) (Hnone : d_children da !! t = None) (Hmany : d_count da ≠ 1 ∨ a = root).
Definition add_leaf : gmap nat Data :=
  <[c := mkData 1 t 1 i (len - 1) {[i := len]} (Some a) ∅]>
    (<[a := mkData (d_count da) (d_token da) (d_length da) (d_seq da) (d_idx da) (delete i (d_ends da)) (d_parent da) (<[t := Some c]> (d_children da))]> D).
Lemma add_leaf_compact : compact add_leaf W' (upd_path P c (p ++ [t])).
Proof.
  assert (Hca : c ≠ a) by (intros ->; congruence).
  assert (Hcr : c ≠ root). { intros ->. destruct (cp_root _ _ _ K) as (d & ? & _). congruence. }
  assert (Hz : cnt W (p ++ [t]) = 0) by (rewrite <-HPa; by apply (cp_none D W P K a da t)).
  pose proof (no_window_path Hz) as Hpath.
  assert (Hgl : ∀ x, add_leaf !! x = if decide (x = c) then Some (mkData 1 t 1 i (len - 1) {[i := len]} (Some a) ∅) else
    if decide (x = a) then Some (mkData (d_count da) (d_token da) (d_length da) (d_seq da) (d_idx da) (delete i (d_ends da)) (d_parent da) (<[t := Some c]> (d_children da))) else D !! x).
  { intros x. unfold add_leaf. rewrite lookup_insert. destruct (decide (c = x)) as [->|]; [by rewrite decide_True|].
    rewrite decide_False by done. rewrite lookup_insert. destruct (decide (a = x)) as [->|]; [by rewrite decide_True|by rewrite decide_False]. }
  assert (Hold : ∀ x d, x ≠ c → add_leaf !! x = Some d → ∃ dx, D !! x = Some dx ∧ d_count d = d_count dx ∧ d_token d = d_token dx ∧
    d_length d = d_length dx ∧ d_seq d = d_seq dx ∧ d_idx d = d_idx dx ∧ d_parent d = d_parent dx ∧
    (d_ends d = if decide (x = a) then delete i (d_ends da) else d_ends dx) ∧
    d_children d = if decide (x = a) then <[t := Some c]> (d_children da) else d_children dx).
  { intros x d Hx. rewrite Hgl, decide_False by done. destruct (decide (x = a)) as [->|]; [intros [= <-]; exists da; done|eauto 20]. }
  assert (Hnew : ∀ x dx, D !! x = Some dx → ∃ d, add_leaf !! x = Some d ∧ d_token d = d_token dx ∧ d_parent d = d_parent dx ∧
    (d_ends d = if decide (x = a) then delete i (d_ends da) else d_ends dx) ∧
    ∀ y oc, d_children dx !! y = Some oc → d_children d !! y = Some oc).
  { intros x dx Hx. rewrite Hgl, decide_False by congruence. destruct (decide (x = a)) as [->|]; [|exists dx; split_and!; auto].
    rewrite Ha in Hx. injection Hx as <-. eexists. split_and!; [done..|]. simpl. intros y oc Hy. rewrite lookup_insert_ne by congruence. done. }
  assert (HP : ∀ x, x ≠ c → upd_path P c (p ++ [t]) x = P x) by (intros x Hx; unfold upd_path; by rewrite decide_False).
  assert (HPc : upd_path P c (p ++ [t]) c = p ++ [t]) by (unfold upd_path; by rewrite decide_True).
  split.
  - destruct (cp_root _ _ _ K) as (d & Hd & Hp & Hl). rewrite Hgl, decide_False by done.
    destruct (decide (root = a)) as [E|]; [|by eauto]. rewrite E, Ha in Hd. injection Hd as <-. by eexists.
  - rewrite HP by done. apply (cp_root_path _ _ _ K).
  - intros x d Hd. destruct (decide (x = c)) as [->|Hx].
    + rewrite Hgl, decide_True in Hd by done. injection Hd as <-. rewrite HPc, step_cnt_eq. simpl. lia.
    + destruct (Hold x d Hx Hd) as (dx & Hdx & -> & _). rewrite HP, step_cnt_ne by (done || by eapply Hpath). by apply (cp_count _ _ _ K).
  - intros x d Hd Hxr. destruct (decide (x = c)) as [->|Hx].
    + rewrite Hgl, decide_True in Hd by done. injection Hd as <-. simpl. exists a. eexists. exists [].
      rewrite Hgl, decide_False, decide_True, HPc, HP, HPa by done. split_and!; [done..| |]; simpl.
      * by rewrite lookup_insert_eq.
      * intros v ->%prefix_nil_inv. done.
    + destruct (Hold x d Hx Hd) as (dx & Hdx & _ & Ht & Hl & _ & _ & Hp & _).
      destruct (cp_edge _ _ _ K x dx Hdx Hxr) as (b & db & u & Hb & Hdb & HPx & Hlen & Hcb & Hv).
      destruct (Hnew b db Hdb) as (db' & Hdb' & _ & _ & _ & Hch). exists b, db', u.
      assert (b ≠ c) as Hbc by congruence. rewrite !HP, Ht, Hl, Hp by done. split_and!; auto.
      eapply step_edge_kept; try done. intros [-> Htt]. rewrite Htt in Hcb. congruence.
  - intros x d Hd Hxr. destruct (decide (x = c)) as [->|Hx].
    + rewrite HPc, step_cnt_eq, Hz. split; [done|]. intros y. by rewrite no_window_below.
    + destruct (Hold x d Hx Hd) as (dx & Hdx & _). rewrite HP by done. destruct (decide (x = a)) as [->|Hxa]; [|eapply step_live_kept; eauto].
      rewrite HPa. destruct (cp_live _ _ _ K a da Ha Hxr) as [Hpos Hy]. rewrite HPa in Hpos, Hy.
      rewrite step_cnt_ne by by (intros Heq; lens Heq). split; [done|]. intros y. rewrite step_cnt. case_decide as Heq; [|specialize (Hy y); lia].
      rewrite Heq, Hz. destruct Hmany as [Hm|]; [|done]. rewrite (cp_count _ _ _ K a da Ha), HPa in Hm. lia.
  - intros b d y oc Hd Hoc. destruct (decide (b = c)) as [->|Hb].
    + rewrite Hgl, decide_True in Hd by done. injection Hd as <-. done.
    + destruct (Hold b d Hb Hd) as (db & Hdb & _ & _ & _ & _ & _ & _ & _ & Hch).
      assert (Hget : d_children db !! y = Some oc → ∃ c0 dc, oc = Some c0 ∧ add_leaf !! c0 = Some dc ∧ d_parent dc = Some b ∧ d_token dc = y).
      { intros Hy. destruct (cp_child _ _ _ K b db y oc Hdb Hy) as (c0 & dc & -> & Hdc & Hp & Ht).
        destruct (Hnew c0 dc Hdc) as (dc' & Hdc' & Ht' & Hp' & _). exists c0, dc'. split_and!; congruence. }
      destruct (decide (b = a)) as [->|]; rewrite Hch in Hoc; [|by apply Hget]. rewrite lookup_insert in Hoc. case_decide as Hty.
      * injection Hoc as <-. exists c. eexists. rewrite Hgl, decide_True by done. done.
      * rewrite Ha in Hdb. injection Hdb as <-. by apply Hget.
  - intros b d y Hd Hpos. destruct (decide (b = c)) as [->|Hb].
    + rewrite HPc, no_window_below in Hpos by done. lia.
    + destruct (Hold b d Hb Hd) as (db & Hdb & _ & _ & _ & _ & _ & _ & _ & ->). rewrite HP in Hpos by done. destruct (decide (b = a)) as [->|Hba].
      * rewrite lookup_insert. case_decide as Hty; [done|]. rewrite HPa, step_cnt_ne in Hpos by (intros [_ [= ?]]%app_inj_tail; done).
        apply (cp_cover _ _ _ K a da y Ha). by rewrite HPa.
      * rewrite step_cnt_ne in Hpos by by eapply step_snoc. by apply (cp_cover _ _ _ K b db y Hdb).
  - intros x d Hd Hxr. destruct (decide (x = c)) as [->|Hx].
    + rewrite Hgl, decide_True in Hd by done. injection Hd as <-. rewrite HPc. simpl. exists st, (p ++ [t]). rewrite step_here.
      split_and!; [done|done|]. unfold len. rewrite length_app. simpl. lia.
    + destruct (Hold x d Hx Hd) as (dx & Hdx & _ & _ & Hl & Hs & Hi & _). rewrite HP by done. eapply step_ref; [done|done|done|lia].
  - intros x d j e Hd He. destruct (decide (x = c)) as [->|Hx].
    + rewrite Hgl, decide_True in Hd by done. injection Hd as <-. rewrite HPc. simpl in He. apply lookup_singleton_Some in He as [<- <-].
      exists st. rewrite step_here. split; [done|]. unfold len. rewrite length_app. simpl. lia.
    + destruct (Hold x d Hx Hd) as (dx & Hdx & _ & _ & _ & _ & _ & _ & Hends & _). rewrite HP by done. rewrite Hends in He.
      destruct (decide (x = a)) as [->|]; [rewrite HPa; by apply step_endpoint_a|by eapply step_endpoint].
  - intros j st' w Hw. destruct (decide ((j, st') = (i, st))) as [[= -> ->]|Hne].
    + rewrite step_here in Hw. injection Hw as <-. exists c. eexists. rewrite Hgl, decide_True by done. split; [done|].
      split; [done|]. simpl. rewrite lookup_singleton_eq. eauto.
    + rewrite step_other in Hw by done. destruct (cp_end _ _ _ K j st' w Hw) as (x & dx & Hx & HPx & He).
      destruct (Hnew x dx Hx) as (d & Hd & _ & _ & Hends & _). exists x, d. rewrite HP by congruence. split_and!; [done|done|].
      rewrite Hends. destruct (decide (x = a)) as [->|]; [|done]. rewrite Ha in Hx. injection Hx as <-.
      rewrite lookup_delete_ne; [done|]. intros <-. apply Hne. f_equal. apply Huniq. congruence.
Qed.
End add_leaf.

(** The child for the token *)
Section child.
Context (c : nat) (dc : Data) (Hchild : d_children da !! t = Some (Some c)) (Hdc : D !! c = Some dc).
Lemma child_facts : ∃ u, c ≠ root ∧ c ≠ a ∧ d_parent dc = Some a ∧ d_token dc = t ∧ P c = p ++ t :: u ∧
  d_length dc = Z.of_nat (S (length u)) ∧ (∀ v, v `prefix_of` u → cnt W (p ++ t :: v) = cnt W (P c)) ∧ d_count dc = cnt W (p ++ [t]).
Proof.
  destruct (cp_find D W P K a da t c Ha Hchild) as (dc' & u & Hdc' & Hr & Hp & Ht & HPc & Hlen & Hv). rewrite Hdc in Hdc'. injection Hdc' as <-.
  rewrite HPa in *. exists u. split_and!; try done.
  - intros ->. rewrite HPa in HPc. lens HPc.
  - rewrite (cp_count _ _ _ K c dc Hdc). symmetry. apply (Hv []). apply prefix_nil.
Qed.
Lemma only_child x dx : D !! x = Some dx → x ≠ root → d_parent dx = Some a → d_token dx = t → x = c.
Proof.
  intros Hx Hxr Hp Ht. destruct (cp_edge _ _ _ K x dx Hx Hxr) as (b & db & u & Hb & Hdb & _ & _ & Hcb & _). congruence.
Qed.
Lemma path_child x dx : D !! x = Some dx → x ≠ c → P x ≠ p ++ [t].
Proof.
  intros Hx Hne. destruct (decide (x = root)) as [->|Hxr]; [rewrite (cp_root_path _ _ _ K); by destruct p|].
  eapply step_path; [done..|]. intros [Hp Ht]. by eapply Hne, only_child.
Qed.

(** Case 3a: into a child of one token. *)
Definition enter : gmap nat Data :=
  <[c := mkData (d_count dc + 1) (d_token dc) (d_length dc) (d_seq dc) (d_idx dc) (<[i := len]> (d_ends dc)) (d_parent dc) (d_children dc)]>
    (<[a := mkData (d_count da) (d_token da) (d_length da) (d_seq da) (d_idx da) (delete i (d_ends da)) (d_parent da) (d_children da)]> D).
Lemma enter_compact :
  d_length dc = 1 → d_count da ≠ d_count dc + 1 ∨ a = root → compact enter W' P.
Proof.
  intros Hlen Hmany. destruct child_facts as (u & Hcr & Hca & Hpc & Htc & HPc & Hlenc & Hvc & Hcc).
  assert (u = []) as -> by (destruct u; [done|simpl in Hlenc; lia]).
  assert (Hgl : ∀ x, enter !! x = if decide (x = c) then Some (mkData (d_count dc + 1) (d_token dc) (d_length dc) (d_seq dc) (d_idx dc) (<[i := len]> (d_ends dc)) (d_parent dc) (d_children dc)) else
    if decide (x = a) then Some (mkData (d_count da) (d_token da) (d_length da) (d_seq da) (d_idx da) (delete i (d_ends da)) (d_parent da) (d_children da)) else D !! x).
  { intros x. unfold enter. rewrite lookup_insert. destruct (decide (c = x)) as [->|]; [by rewrite decide_True|].
    rewrite decide_False by done. rewrite lookup_insert. destruct (decide (a = x)) as [->|]; [by rewrite decide_True|by rewrite decide_False]. }
  assert (Hold : ∀ x d, enter !! x = Some d → ∃ dx, D !! x = Some dx ∧ (d_count d = if decide (x = c) then d_count dc + 1 else d_count dx) ∧ d_token d = d_token dx ∧
    d_length d = d_length dx ∧ d_seq d = d_seq dx ∧ d_idx d = d_idx dx ∧ d_parent d = d_parent dx ∧ d_children d = d_children dx ∧
    (d_ends d = if decide (x = c) then <[i := len]> (d_ends dx) else if decide (x = a) then delete i (d_ends da) else d_ends dx)).
  { intros x d. rewrite Hgl. destruct (decide (x = c)) as [->|]; [intros [= <-]; exists dc; split_and!; done|].
    destruct (decide (x = a)) as [->|]; [intros [= <-]; exists da; split_and!; done|intros Hd; exists d; split_and!; done]. }
  assert (Hnew : ∀ x dx, D !! x = Some dx → ∃ d, enter !! x = Some d ∧ d_token d = d_token dx ∧ d_parent d = d_parent dx ∧ d_length d = d_length dx ∧
    d_children d = d_children dx ∧ (d_ends d = if decide (x = c) then <[i := len]> (d_ends dx) else if decide (x = a) then delete i (d_ends da) else d_ends dx)).
  { intros x dx Hx. rewrite Hgl. destruct (decide (x = c)) as [->|].
    { rewrite Hdc in Hx. injection Hx as <-. eexists. split_and!; done. }
    destruct (decide (x = a)) as [->|]; [|exists dx; split_and!; done].
    rewrite Ha in Hx. injection Hx as <-. eexists. split_and!; done. }
  split.
  - destruct (cp_root _ _ _ K) as (d & Hd & Hp & Hl). destruct (Hnew _ _ Hd) as (d' & Hd' & _ & Hp' & Hl' & _).
    exists d'. split_and!; congruence.
  - apply (cp_root_path _ _ _ K).
  - intros x d Hd. destruct (Hold x d Hd) as (dx & Hdx & -> & _). destruct (decide (x = c)) as [->|Hx].
    + rewrite HPc, step_cnt_eq. lia.
    + rewrite step_cnt_ne by by eapply path_child. by apply (cp_count _ _ _ K).
  - intros x d Hd Hxr. destruct (Hold x d Hd) as (dx & Hdx & _ & Ht & Hl & _ & _ & Hp & _).
    destruct (cp_edge _ _ _ K x dx Hdx Hxr) as (b & db & v & Hb & Hdb & HPx & Hlenx & Hcb & Hv).
    destruct (Hnew b db Hdb) as (db' & Hdb' & _ & _ & _ & Hch & _). exists b, db', v. rewrite Ht, Hl, Hp, Hch.
    split_and!; try done. destruct (decide (x = c)) as [->|Hx].
    + rewrite Hdc in Hdx. injection Hdx as <-. rewrite Hpc in Hb. injection Hb as <-. rewrite HPc, HPa, Htc in HPx. apply app_inv_head in HPx.
      injection HPx as <-. intros w ->%prefix_nil_inv. by rewrite HPa, HPc, Htc.
    + eapply step_edge_kept; try done. intros [-> Htt]. eapply Hx, only_child; done.
  - intros x d Hd Hxr. destruct (Hold x d Hd) as (dx & Hdx & _). destruct (decide (x = c)) as [->|Hx].
    + rewrite HPc, step_cnt_eq. rewrite <-HPc. destruct (cp_live _ _ _ K c dc Hdc Hxr) as [Hpos Hy]. split; [lia|].
      intros y. rewrite step_cnt_ne by (rewrite HPc; intros Heq; lens Heq). specialize (Hy y). lia.
    + destruct (decide (x = a)) as [->|Hxa]; [|eapply step_live_kept; [done..|by eapply path_child]].
      rewrite HPa. destruct (cp_live _ _ _ K a da Ha Hxr) as [Hpos Hy]. rewrite HPa in Hpos, Hy.
      rewrite step_cnt_ne by by (intros Heq; lens Heq). split; [done|]. intros y. rewrite step_cnt. case_decide as Heq; [|specialize (Hy y); lia].
      rewrite Heq. pose proof ends_here. destruct Hmany as [Hm|]; [|done]. rewrite (cp_count _ _ _ K a da Ha), HPa, Hcc in Hm. lia.
  - intros b d y oc Hd Hoc. destruct (Hold b d Hd) as (db & Hdb & _ & _ & _ & _ & _ & _ & Hch & _). rewrite Hch in Hoc.
    destruct (cp_child _ _ _ K b db y oc Hdb Hoc) as (c0 & d0 & -> & Hd0 & Hp0 & Ht0).
    destruct (Hnew c0 d0 Hd0) as (d0' & Hd0' & Ht0' & Hp0' & _). exists c0, d0'. split_and!; congruence.
  - intros b d y Hd Hpos. destruct (Hold b d Hd) as (db & Hdb & _ & _ & _ & _ & _ & _ & -> & _).
    destruct (decide (b = a)) as [->|Hba]; [|rewrite step_cnt_ne in Hpos by (by eapply step_snoc); by apply (cp_cover _ _ _ K b db y Hdb)].
    rewrite Ha in Hdb. injection Hdb as <-. destruct (decide (y = t)) as [->|Hy]; [by rewrite Hchild|].
    rewrite HPa, step_cnt_ne in Hpos by (intros [_ [= ?]]%app_inj_tail; done). apply (cp_cover _ _ _ K a da y Ha). by rewrite HPa.
  - intros x d Hd Hxr. destruct (Hold x d Hd) as (dx & Hdx & _ & _ & Hl & Hs & Hi & _). eapply step_ref; [done|done|done|lia].
  - intros x d j e Hd He. destruct (Hold x d Hd) as (dx & Hdx & _ & _ & _ & _ & _ & _ & _ & Hends). rewrite Hends in He.
    destruct (decide (x = c)) as [->|Hx].
    + rewrite lookup_insert in He. case_decide as Hij; [|by eapply step_endpoint]. injection He as <-. subst j.
      exists st. rewrite step_here, HPc. split; [done|]. unfold len. rewrite length_app. simpl. lia.
    + destruct (decide (x = a)) as [->|]; [rewrite HPa; by apply step_endpoint_a|by eapply step_endpoint].
  - intros j st' w Hw. destruct (decide ((j, st') = (i, st))) as [[= -> ->]|Hne].
    + rewrite step_here in Hw. injection Hw as <-. destruct (Hnew c dc Hdc) as (d & Hd & _ & _ & _ & _ & Hends). exists c, d.
      split_and!; [done|done|]. rewrite Hends, decide_True, lookup_insert_eq by done. eauto.
    + rewrite step_other in Hw by done. destruct (cp_end _ _ _ K j st' w Hw) as (x & dx & Hx & HPx & He).
      destruct (Hnew x dx Hx) as (d & Hd & _ & _ & _ & _ & Hends). exists x, d. split_and!; [done|done|]. rewrite Hends.
      destruct (decide (x = c)) as [->|]; [rewrite lookup_insert; by case_decide|]. destruct (decide (x = a)) as [->|]; [|done].
      rewrite Ha in Hx. injection Hx as <-. rewrite lookup_delete_ne; [done|]. intros <-. apply Hne. f_equal. apply Huniq. congruence.
Qed.

(** Case 2a: the node gives way to its only child, of one token; [b] is its parent. *)
Section fuse.
Context (b : nat) (db : Data) (Har : a ≠ root) (Hpa : d_parent da = Some b) (Hdb : D !! b = Some db).
Context (Hlen : d_length dc = 1) (Hall : d_count da = d_count dc + 1).
Definition fuse : gmap nat Data :=
  <[b := mkData (d_count db) (d_token db) (d_length db) (d_seq db) (d_idx db) (d_ends db) (d_parent db) (<[d_token da := Some c]> (d_children db))]>
    (<[c := mkData (d_count dc + 1) (d_token da) (d_length da + 1) i (len - (d_length da + 1)) (<[i := len]> (d_ends dc)) (Some b) (d_children dc)]>
      (delete a D)).
Lemma fuse_facts : cnt W p ≤ cnt W (p ++ [t]) + 1 ∧ b ≠ a ∧ b ≠ c ∧ ∃ u, p = P b ++ d_token da :: u ∧ d_length da = Z.of_nat (S (length u)) ∧
  d_children db !! d_token da = Some (Some a) ∧ ∀ v, v `prefix_of` u → cnt W (P b ++ d_token da :: v) = cnt W p.
Proof.
  destruct child_facts as (u & Hcr & Hca & Hpc & Htc & HPc & Hlenc & Hvc & Hcc).
  destruct (cp_edge _ _ _ K a da Ha Har) as (b' & db' & v & Hb & Hdb' & HP & Hl & Hcb & Hv). rewrite Hpa in Hb. injection Hb as <-.
  rewrite Hdb in Hdb'. injection Hdb' as <-. rewrite HPa in HP. split_and!.
  - rewrite (cp_count _ _ _ K a da Ha), HPa in Hall. lia.
  - intros ->. rewrite HPa in HP. lens HP.
  - intros ->. rewrite HPc in HP. lens HP.
  - exists v. rewrite HPa in Hv. done.
Qed.
Lemma fuse_compact : compact fuse W' P.
Proof.
  destruct child_facts as (u & Hcr & Hca & Hpc & Htc & HPc & Hlenc & Hvc & Hcc).
  assert (u = []) as -> by (destruct u; [done|simpl in Hlenc; lia]).
  destruct fuse_facts as (Hle & Hba & Hbc & v & HPb & Hla & Hcb & Hv).
  assert (Hgl : ∀ x, fuse !! x = if decide (x = b) then Some (mkData (d_count db) (d_token db) (d_length db) (d_seq db) (d_idx db) (d_ends db) (d_parent db) (<[d_token da := Some c]> (d_children db))) else
    if decide (x = c) then Some (mkData (d_count dc + 1) (d_token da) (d_length da + 1) i (len - (d_length da + 1)) (<[i := len]> (d_ends dc)) (Some b) (d_children dc)) else
    if decide (x = a) then None else D !! x).
  { intros x. unfold fuse. rewrite lookup_insert. destruct (decide (b = x)) as [->|]; [by rewrite decide_True|].
    rewrite (decide_False (P:=x = b)) by done. rewrite lookup_insert. destruct (decide (c = x)) as [->|]; [by rewrite decide_True|].
    rewrite (decide_False (P:=x = c)) by done. rewrite lookup_delete. destruct (decide (a = x)) as [->|]; [by rewrite decide_True|by rewrite decide_False]. }
  assert (Hfc : fuse !! c = Some (mkData (d_count dc + 1) (d_token da) (d_length da + 1) i (len - (d_length da + 1)) (<[i := len]> (d_ends dc)) (Some b) (d_children dc))).
  { by rewrite Hgl, decide_False, decide_True by done. }
  assert (Hold : ∀ x d, x ≠ c → fuse !! x = Some d → ∃ dx, D !! x = Some dx ∧ x ≠ a ∧ d_count d = d_count dx ∧ d_token d = d_token dx ∧
    d_length d = d_length dx ∧ d_seq d = d_seq dx ∧ d_idx d = d_idx dx ∧ d_parent d = d_parent dx ∧ d_ends d = d_ends dx ∧
    d_children d = if decide (x = b) then <[d_token da := Some c]> (d_children dx) else d_children dx).
  { intros x d Hx. rewrite Hgl. destruct (decide (x = b)) as [->|]; [intros [= <-]; exists db; split_and!; done|].
    rewrite decide_False by done. destruct (decide (x = a)) as [->|]; [done|]. intros Hd. exists d. split_and!; done. }
  assert (Hnew : ∀ x dx, D !! x = Some dx → x ≠ a → x ≠ c → ∃ d, fuse !! x = Some d ∧ d_token d = d_token dx ∧ d_parent d = d_parent dx ∧ d_length d = d_length dx ∧
    d_ends d = d_ends dx ∧ (d_children d = if decide (x = b) then <[d_token da := Some c]> (d_children dx) else d_children dx)).
  { intros x dx Hx Hxa Hxc. rewrite Hgl. destruct (decide (x = b)) as [->|].
    { rewrite Hdb in Hx. injection Hx as <-. eexists. split_and!; done. }
    rewrite !decide_False by done. exists dx. split_and!; done. }
  split.
  - destruct (cp_root _ _ _ K) as (d & Hd & Hp & Hl). destruct (Hnew root d Hd) as (d' & Hd' & _ & Hp' & Hl' & _); [done..|].
    exists d'. split_and!; congruence.
  - apply (cp_root_path _ _ _ K).
  - intros x d Hd. destruct (decide (x = c)) as [->|Hx].
    + rewrite Hfc in Hd. injection Hd as <-. rewrite HPc, step_cnt_eq. simpl. lia.
    + destruct (Hold x d Hx Hd) as (dx & Hdx & Hxa & -> & _). rewrite step_cnt_ne by by eapply path_child. by apply (cp_count _ _ _ K).
  - intros x d Hd Hxr. destruct (decide (x = c)) as [->|Hx].
    + rewrite Hfc in Hd. injection Hd as <-. simpl. exists b. eexists. exists (v ++ [t]). rewrite Hgl, decide_True by done.
      split_and!; [done|done|by rewrite HPc, HPb, <-app_assoc|rewrite Hla, length_app; simpl; lia|simpl; by rewrite lookup_insert_eq|].
      intros w [Hw| ->]%prefix_snoc_cases; [|by rewrite HPc, HPb, <-app_assoc].
      rewrite HPc, step_cnt_eq, step_cnt_ne, Hv by (done || intros Heq; apply prefix_length in Hw; rewrite HPb in Heq; lens Heq).
      pose proof ends_here. lia.
    + destruct (Hold x d Hx Hd) as (dx & Hdx & Hxa & _ & Ht & Hl & _ & _ & Hp & _).
      destruct (cp_edge _ _ _ K x dx Hdx Hxr) as (b' & db' & w & Hb' & Hdb' & HPx & Hlenx & Hcb' & Hw).
      assert (Hb'a : b' ≠ a).
      { intros ->. rewrite Ha in Hdb'. injection Hdb' as <-. pose proof (other_child _ _ Hle Hcb') as Htx. rewrite Htx in Hcb'. congruence. }
      assert (Hgoal : ∃ d', fuse !! b' = Some d' ∧ d_children d' !! d_token dx = Some (Some x)).
      { destruct (decide (b' = c)) as [->|Hb'c].
        - rewrite Hdc in Hdb'. injection Hdb' as <-. eexists. rewrite Hfc. done.
        - destruct (Hnew b' db' Hdb' Hb'a Hb'c) as (d' & Hd' & _ & _ & _ & _ & Hch). exists d'. rewrite Hch. split; [done|].
          destruct (decide (b' = b)) as [->|]; [|done]. rewrite Hdb in Hdb'. injection Hdb' as <-. rewrite lookup_insert_ne; [done|]. intros E. rewrite <-E in Hcb'. congruence. }
      destruct Hgoal as (d' & Hd' & Hch'). exists b', d', w. rewrite Ht, Hl, Hp. split_and!; try done.
      eapply step_edge_kept; try done. intros [-> _]. done.
  - intros x d Hd Hxr. destruct (decide (x = c)) as [->|Hx].
    + rewrite HPc, step_cnt_eq. rewrite <-HPc. destruct (cp_live _ _ _ K c dc Hdc Hxr) as [Hpos Hy]. split; [lia|].
      intros y. rewrite step_cnt_ne by (rewrite HPc; intros Heq; lens Heq). specialize (Hy y). lia.
    + destruct (Hold x d Hx Hd) as (dx & Hdx & Hxa & _). eapply step_live_kept; [done..|by eapply path_child].
  - intros b' d y oc Hd Hoc.
    assert (Hget : ∀ d0, D !! b' = Some d0 → b' ≠ a → d_children d0 !! y = Some oc → ¬ (b' = b ∧ y = d_token da) →
      ∃ c0 d1, oc = Some c0 ∧ fuse !! c0 = Some d1 ∧ d_parent d1 = Some b' ∧ d_token d1 = y).
    { intros d0 Hd0 Hb'a Hy Hno. destruct (cp_child _ _ _ K b' d0 y oc Hd0 Hy) as (c0 & d1 & -> & Hd1 & Hp1 & Ht1).
      assert (c0 ≠ a) as Hc0a. { intros ->. rewrite Ha in Hd1. injection Hd1 as <-. apply Hno. split; congruence. }
      assert (c0 ≠ c) as Hc0c. { intros ->. rewrite Hdc in Hd1. injection Hd1 as <-. congruence. }
      destruct (Hnew c0 d1 Hd1 Hc0a Hc0c) as (d2 & Hd2 & Ht2 & Hp2 & _). exists c0, d2. split_and!; congruence. }
    destruct (decide (b' = c)) as [->|Hb'].
    + rewrite Hfc in Hd. injection Hd as <-. eapply Hget; [done|done|done|]. intros [-> _]. done.
    + destruct (Hold b' d Hb' Hd) as (d0 & Hd0 & Hb'a & _ & _ & _ & _ & _ & _ & _ & Hch). rewrite Hch in Hoc.
      destruct (decide (b' = b)) as [->|Hb'b]; [|eapply Hget; naive_solver]. rewrite lookup_insert in Hoc. case_decide as Hy.
      * injection Hoc as <-. exists c. eexists. rewrite Hfc. done.
      * eapply Hget; naive_solver.
  - intros b' d y Hd Hpos. destruct (decide (b' = c)) as [->|Hb'].
    + rewrite Hfc in Hd. injection Hd as <-. simpl. apply (cp_cover _ _ _ K c dc y Hdc). rewrite step_cnt_ne in Hpos; [done|].
      rewrite HPc. intros Heq. lens Heq.
    + destruct (Hold b' d Hb' Hd) as (d0 & Hd0 & Hb'a & _ & _ & _ & _ & _ & _ & _ & ->). rewrite step_cnt_ne in Hpos by by eapply step_snoc.
      pose proof (cp_cover _ _ _ K b' d0 y Hd0 Hpos). destruct (decide (b' = b)); [|done]. rewrite lookup_insert. by case_decide.
  - intros x d Hd Hxr. destruct (decide (x = c)) as [->|Hx].
    + rewrite Hfc in Hd. injection Hd as <-. simpl. exists st, (p ++ [t]). rewrite step_here, HPc. split_and!; [done|done|].
      unfold len. rewrite length_app. simpl. lia.
    + destruct (Hold x d Hx Hd) as (dx & Hdx & _ & _ & _ & Hl & Hs & Hi & _). eapply step_ref; [done|done|done|lia].
  - intros x d j e Hd He. destruct (decide (x = c)) as [->|Hx].
    + rewrite Hfc in Hd. injection Hd as <-. simpl in He. rewrite lookup_insert in He. case_decide as Hij; [|by eapply step_endpoint].
      injection He as <-. subst j. exists st. rewrite step_here, HPc. split; [done|]. unfold len. rewrite length_app. simpl. lia.
    + destruct (Hold x d Hx Hd) as (dx & Hdx & Hxa & _ & _ & _ & _ & _ & _ & Hends & _). rewrite Hends in He. by eapply step_endpoint.
  - intros j st' w Hw. destruct (decide ((j, st') = (i, st))) as [[= -> ->]|Hne].
    + rewrite step_here in Hw. injection Hw as <-. exists c. eexists. rewrite Hfc. split_and!; [done|done|]. simpl. rewrite lookup_insert_eq. eauto.
    + rewrite step_other in Hw by done. destruct (cp_end _ _ _ K j st' w Hw) as (x & dx & Hx & HPx & He).
      assert (x ≠ a) as Hxa. { intros ->. apply Hne. apply (other_window _ Hle). congruence. }
      destruct (decide (x = c)) as [->|Hxc].
      { rewrite Hdc in Hx. injection Hx as <-. exists c. eexists. rewrite Hfc. split_and!; [done|done|]. simpl. rewrite lookup_insert. by case_decide. }
      destruct (Hnew x dx Hx Hxa Hxc) as (d & Hd & _ & _ & _ & Hends & _). exists x, d. rewrite Hends. done.
Qed.
End fuse.

(** A longer child: its second token is [t2]. *)
Section longer.
Context (t2 : Z) (u2 : list Z) (HP2 : P c = p ++ t :: t2 :: u2).
Lemma longer_facts : c ≠ root ∧ c ≠ a ∧ d_parent dc = Some a ∧ d_token dc = t ∧ d_length dc = Z.of_nat (S (S (length u2))) ∧
  (∀ v, v `prefix_of` t2 :: u2 → cnt W (p ++ t :: v) = cnt W (P c)) ∧ d_count dc = cnt W (p ++ [t]) ∧
  (∀ x dx, D !! x = Some dx → P x ≠ p ++ [t]) ∧ (∀ y, 0 < cnt W' ((p ++ [t]) ++ [y]) → y = t2) ∧
  (∀ v, v `prefix_of` u2 → cnt W' ((p ++ [t]) ++ t2 :: v) = cnt W' (P c)).
Proof.
  destruct child_facts as (u & Hcr & Hca & Hpc & Htc & HPc & Hlenc & Hvc & Hcc).
  assert (u = t2 :: u2) as ->. { rewrite HPc in HP2. apply app_inv_head in HP2. by injection HP2. }
  split_and!; try done.
  - intros x dx Hx. destruct (decide (x = c)) as [->|Hxc]; [rewrite HPc; intros Heq; lens Heq|by eapply path_child].
  - intros y. rewrite step_cnt_ne by (intros Heq; lens Heq). intros (k & w & Hw & Hp)%windows_pos.
    destruct (decide (y = t2)) as [|Hy]; [done|]. exfalso.
    pose proof (cnt_one W (p ++ [t]) (p ++ [t; t2]) k w) as H1. rewrite (Hvc [t2]) in H1 by (by apply prefix_cons, prefix_nil).
    rewrite <-(Hvc []) in H1 by apply prefix_nil. rewrite <-app_assoc in Hp. simpl in Hp.
    enough (cnt W (p ++ [t]) + 1 ≤ cnt W (p ++ [t])) by lia. apply H1; [by exists [t2]; rewrite <-app_assoc|done| |].
    + etrans; [|exact Hp]. exists [y]. by rewrite <-app_assoc.
    + intros Hp2. destruct Hp as [w1 ->], Hp2 as [w2 Heq]. rewrite <-!app_assoc in Heq. apply app_inv_head in Heq. simpl in Heq. congruence.
  - intros v Hv. rewrite <-app_assoc. simpl. rewrite !step_cnt_ne; [apply (Hvc (t2 :: v)); by apply prefix_cons|rewrite HPc; intros Heq; lens Heq|intros Heq; lens Heq].
Qed.

(** Case 2b: the node takes the first token of its only child. *)
Definition shift : gmap nat Data :=
  <[c := mkData (d_count dc) t2 (d_length dc - 1) (d_seq dc) (d_idx dc + 1) (d_ends dc) (d_parent dc) (d_children dc)]>
    (<[a := mkData (d_count da) (d_token da) (d_length da + 1) i (len - (d_length da + 1)) (<[i := len]> (d_ends da)) (d_parent da) {[t2 := Some c]}]> D).
Lemma shift_compact : a ≠ root → d_count da = d_count dc + 1 → compact shift W' (upd_path P a (p ++ [t])).
Proof.
  intros Har Hall. destruct longer_facts as (Hcr & Hca & Hpc & Htc & Hlenc & Hvc & Hcc & Hpath & Honly & Hvc').
  assert (Hle : cnt W p = cnt W (p ++ [t]) + 1) by (rewrite (cp_count _ _ _ K a da Ha), HPa in Hall; lia).
  assert (Hle' : cnt W p ≤ cnt W (p ++ [t]) + 1) by lia.
  set (dc' := mkData (d_count dc) t2 (d_length dc - 1) (d_seq dc) (d_idx dc + 1) (d_ends dc) (d_parent dc) (d_children dc)).
  set (da' := mkData (d_count da) (d_token da) (d_length da + 1) i (len - (d_length da + 1)) (<[i := len]> (d_ends da)) (d_parent da) {[t2 := Some c]}).
  assert (Hgl : ∀ x, shift !! x = if decide (x = c) then Some dc' else if decide (x = a) then Some da' else D !! x).
  { intros x. unfold shift. rewrite lookup_insert. destruct (decide (c = x)) as [->|]; [by rewrite decide_True|].
    rewrite (decide_False (P:=x = c)) by done. rewrite lookup_insert. destruct (decide (a = x)) as [->|]; [by rewrite decide_True|by rewrite decide_False]. }
  assert (Hsc : shift !! c = Some dc') by by rewrite Hgl, decide_True.
  assert (Hsa : shift !! a = Some da') by by rewrite Hgl, decide_False, decide_True.
  assert (Hold : ∀ x, x ≠ c → x ≠ a → shift !! x = D !! x) by (intros x ??; by rewrite Hgl, !decide_False).
  assert (HP : ∀ x, x ≠ a → upd_path P a (p ++ [t]) x = P x) by (intros x Hx; unfold upd_path; by rewrite decide_False).
  assert (HPa' : upd_path P a (p ++ [t]) a = p ++ [t]) by (unfold upd_path; by rewrite decide_True).
  assert (Hpar : ∀ x dx, D !! x = Some dx → x ≠ root → x ≠ c → d_parent dx ≠ Some a).
  { intros x dx Hx Hxr Hxc Hp. destruct (cp_edge _ _ _ K x dx Hx Hxr) as (b & db & v & Hb & Hdb & _ & _ & Hcb & _).
    rewrite Hp in Hb. injection Hb as <-. rewrite Ha in Hdb. injection Hdb as <-.
    pose proof (other_child _ _ Hle' Hcb) as Htx. rewrite Htx in Hcb. congruence. }
  split.
  - destruct (cp_root _ _ _ K) as (d & Hd & ?). exists d. by rewrite Hold.
  - rewrite HP by done. apply (cp_root_path _ _ _ K).
  - intros x d. rewrite Hgl. destruct (decide (x = c)) as [->|Hxc].
    { intros [= <-]. rewrite HP, step_cnt_ne by (done || by eapply Hpath). simpl. by rewrite (cp_count _ _ _ K c dc Hdc). }
    destruct (decide (x = a)) as [->|Hxa]; [intros [= <-]; rewrite HPa', step_cnt_eq; simpl; by rewrite (cp_count _ _ _ K a da Ha), HPa|].
    intros Hd. rewrite HP, step_cnt_ne by (done || by eapply Hpath). by apply (cp_count _ _ _ K).
  - intros x d Hd Hxr. destruct (decide (x = c)) as [->|Hxc]; [|destruct (decide (x = a)) as [->|Hxa]].
    + rewrite Hsc in Hd. injection Hd as <-. exists a, da', u2. rewrite HPa', HP by done. simpl. split_and!; try done.
      * by rewrite HP2, <-app_assoc.
      * rewrite Hlenc. lia.
      * by rewrite lookup_singleton_eq.
    + rewrite Hsa in Hd. injection Hd as <-. destruct (cp_edge _ _ _ K a da Ha Har) as (b & db & v & Hb & Hdb & HPb & Hl & Hcb & Hv).
      rewrite HPa in HPb, Hv. assert (b ≠ a) as Hba by (intros ->; rewrite HPa in HPb; lens HPb).
      assert (b ≠ c) as Hbc by (intros ->; rewrite HP2 in HPb; lens HPb).
      exists b, db, (v ++ [t]). rewrite Hold, HPa', HP by done. simpl. split_and!; try done.
      * by rewrite HPb, <-app_assoc.
      * rewrite Hl, length_app. simpl. lia.
      * intros w [Hw| ->]%prefix_snoc_cases; [|by rewrite HPb, <-app_assoc].
        rewrite step_cnt_eq, step_cnt_ne, Hv by (done || intros Heq; apply prefix_length in Hw; rewrite HPb in Heq; lens Heq). lia.
    + rewrite Hold in Hd by done. destruct (cp_edge _ _ _ K x d Hd Hxr) as (b & db & v & Hb & Hdb & HPx & Hl & Hcb & Hv).
      pose proof (Hpar x d Hd Hxr Hxc) as Hna. assert (b ≠ a) as Hba by congruence.
      assert (∃ db', shift !! b = Some db' ∧ d_children db' = d_children db) as (db' & Hdb' & Hch).
      { destruct (decide (b = c)) as [->|]; [|rewrite Hold by done; eauto]. rewrite Hsc. eexists. split; [done|]. simpl. congruence. }
      exists b, db', v. rewrite Hch, !HP by done. split_and!; try done. eapply step_edge_kept; try done. by intros [-> _].
  - intros x d Hd Hxr. destruct (decide (x = a)) as [->|Hxa].
    + rewrite HPa', step_cnt_eq. split; [pose proof (cnt_nonneg W (p ++ [t])); lia|]. intros y. rewrite step_cnt_ne by (intros Heq; lens Heq).
      assert (cnt W ((p ++ [t]) ++ [y]) ≤ cnt W (p ++ [t])) by (apply cnt_mono; by apply prefix_app_r). lia.
    + rewrite HP by done. rewrite Hgl in Hd. destruct (decide (x = c)) as [->|Hxc].
      * eapply step_live_kept; try done. by eapply Hpath.
      * rewrite decide_False in Hd by done. eapply step_live_kept; try done. by eapply Hpath.
  - intros b d y oc Hd Hoc. destruct (decide (b = a)) as [->|Hba].
    + rewrite Hsa in Hd. injection Hd as <-. simpl in Hoc. apply lookup_singleton_Some in Hoc as [<- <-]. by exists c, dc'.
    + assert (∃ d0, D !! b = Some d0 ∧ d_children d0 !! y = Some oc) as (d0 & Hd0 & Hy).
      { rewrite Hgl in Hd. destruct (decide (b = c)) as [->|]; [injection Hd as <-; by exists dc|]. rewrite decide_False in Hd by done. eauto. }
      destruct (cp_child _ _ _ K b d0 y oc Hd0 Hy) as (c0 & d1 & -> & Hd1 & Hp1 & Ht1). exists c0.
      destruct (decide (c0 = a)) as [->|Hc0a]; [rewrite Ha in Hd1; injection Hd1 as <-; by exists da'|].
      assert (c0 ≠ c) as Hc0c by (intros ->; congruence). exists d1. rewrite Hold by done. done.
  - intros b d y Hd Hpos. destruct (decide (b = a)) as [->|Hba].
    + rewrite Hsa in Hd. injection Hd as <-. rewrite HPa' in Hpos. rewrite (Honly y Hpos). simpl. by rewrite lookup_singleton_eq.
    + rewrite HP in Hpos by done. rewrite Hgl in Hd. destruct (decide (b = c)) as [->|Hbc].
      * injection Hd as <-. rewrite step_cnt_ne in Hpos by by eapply step_snoc. by apply (cp_cover _ _ _ K c dc y Hdc).
      * rewrite decide_False in Hd by done. rewrite step_cnt_ne in Hpos by by eapply step_snoc. by apply (cp_cover _ _ _ K b d y Hd).
  - intros x d Hd Hxr. destruct (decide (x = a)) as [->|Hxa].
    + rewrite Hsa in Hd. injection Hd as <-. rewrite HPa'. exists st, (p ++ [t]). change (d_seq da') with i. rewrite step_here. split_and!; [done|done|].
      simpl. unfold len. rewrite length_app. simpl. lia.
    + rewrite HP by done. rewrite Hgl in Hd. destruct (decide (x = c)) as [->|Hxc].
      * injection Hd as <-. eapply step_ref; [done|done|done|simpl; lia].
      * rewrite decide_False in Hd by done. eapply step_ref; [done|done|done|lia].
  - intros x d j e Hd He. destruct (decide (x = a)) as [->|Hxa].
    + rewrite Hsa in Hd. injection Hd as <-. simpl in He. rewrite lookup_insert in He. case_decide as Hij.
      * injection He as <-. subst j. exists st. rewrite step_here, HPa'. split; [done|]. unfold len. rewrite length_app. simpl. lia.
      * destruct Hij. symmetry. by eapply other_end.
    + rewrite HP by done. rewrite Hgl in Hd. destruct (decide (x = c)) as [->|Hxc].
      * injection Hd as <-. by eapply step_endpoint.
      * rewrite decide_False in Hd by done. by eapply step_endpoint.
  - intros j st' w Hw. destruct (decide ((j, st') = (i, st))) as [[= -> ->]|Hne].
    + rewrite step_here in Hw. injection Hw as <-. exists a, da'. split_and!; [done|done|]. simpl. rewrite lookup_insert_eq. eauto.
    + rewrite step_other in Hw by done. destruct (cp_end _ _ _ K j st' w Hw) as (x & dx & Hx & HPx & He).
      assert (x ≠ a) as Hxa. { intros ->. apply Hne. apply (other_window _ Hle'). congruence. }
      destruct (decide (x = c)) as [->|Hxc].
      * exists c, dc'. rewrite HP by done. rewrite Hdc in Hx. by injection Hx as <-.
      * exists x, dx. rewrite Hold, HP by done. done.
Qed.

(** Case 3b: a new node [m] for the first token of the child. *)
Section split_child.
Context (m : nat) (Hm : D !! m = None) (Hmany : d_count da ≠ d_count dc + 1 ∨ a = root).
Definition split_child : gmap nat Data :=
  <[m := mkData (d_count dc + 1) t 1 i (len - 1) {[i := len]} (Some a) {[t2 := Some c]}]>
    (<[c := mkData (d_count dc) t2 (d_length dc - 1) (d_seq dc) (d_idx dc + 1) (d_ends dc) (Some m) (d_children dc)]>
      (<[a := mkData (d_count da) (d_token da) (d_length da) (d_seq da) (d_idx da) (delete i (d_ends da)) (d_parent da) (<[t := Some m]> (d_children da))]> D)).
Lemma split_child_compact : compact split_child W' (upd_path P m (p ++ [t])).
Proof.
  destruct longer_facts as (Hcr & Hca & Hpc & Htc & Hlenc & Hvc & Hcc & Hpath & Honly & Hvc').
  set (dm' := mkData (d_count dc + 1) t 1 i (len - 1) {[i := len]} (Some a) {[t2 := Some c]}).
  set (dc' := mkData (d_count dc) t2 (d_length dc - 1) (d_seq dc) (d_idx dc + 1) (d_ends dc) (Some m) (d_children dc)).
  set (da' := mkData (d_count da) (d_token da) (d_length da) (d_seq da) (d_idx da) (delete i (d_ends da)) (d_parent da) (<[t := Some m]> (d_children da))).
  assert (Hma : m ≠ a) by (intros ->; congruence). assert (Hmc : m ≠ c) by (intros ->; congruence).
  assert (Hmr : m ≠ root). { intros ->. destruct (cp_root _ _ _ K) as (d & ? & _). congruence. }
  assert (Hgl : ∀ x, split_child !! x = if decide (x = m) then Some dm' else if decide (x = c) then Some dc' else if decide (x = a) then Some da' else D !! x).
  { intros x. unfold split_child. rewrite lookup_insert. destruct (decide (m = x)) as [->|]; [by rewrite decide_True|].
    rewrite (decide_False (P:=x = m)) by done. rewrite lookup_insert. destruct (decide (c = x)) as [->|]; [by rewrite decide_True|].
    rewrite (decide_False (P:=x = c)) by done. rewrite lookup_insert. destruct (decide (a = x)) as [->|]; [by rewrite decide_True|by rewrite decide_False]. }
  assert (Hsm : split_child !! m = Some dm') by by rewrite Hgl, decide_True.
  assert (Hsc : split_child !! c = Some dc') by by rewrite Hgl, decide_False, decide_True.
  assert (Hsa : split_child !! a = Some da') by by rewrite Hgl, decide_False, decide_False, decide_True.
  assert (Hold : ∀ x, x ≠ m → x ≠ c → x ≠ a → split_child !! x = D !! x) by (intros x ???; by rewrite Hgl, !decide_False).
  assert (HP : ∀ x, x ≠ m → upd_path P m (p ++ [t]) x = P x) by (intros x Hx; unfold upd_path; by rewrite decide_False).
  assert (HPm : upd_path P m (p ++ [t]) m = p ++ [t]) by (unfold upd_path; by rewrite decide_True).
  assert (Hsame : ∀ x d, x ≠ m → split_child !! x = Some d → ∃ dx, D !! x = Some dx ∧ d_count d = d_count dx ∧
    d_seq d = d_seq dx ∧ d_idx d - d_idx dx = d_length dx - d_length d ∧ (x ≠ c → d_token d = d_token dx ∧ d_length d = d_length dx ∧ d_parent d = d_parent dx) ∧
    (d_ends d = if decide (x = a) then delete i (d_ends da) else d_ends dx) ∧ d_children d = if decide (x = a) then <[t := Some m]> (d_children da) else d_children dx).
  { intros x d Hx. rewrite Hgl, (decide_False (P:=x = m)) by done. destruct (decide (x = c)) as [->|].
    { intros [= <-]. exists dc. rewrite !decide_False by done. simpl. split_and!; try done. lia. }
    destruct (decide (x = a)) as [->|]; [intros [= <-]; exists da|intros Hd; exists d]; (split_and!; try done; simpl; lia). }
  assert (Hnm : ∀ x dx, D !! x = Some dx → x ≠ m) by (intros x dx Hx ->; congruence).
  split.
  - destruct (cp_root _ _ _ K) as (d & Hd & Hp & Hl). rewrite Hgl, !decide_False by done.
    destruct (decide (root = a)) as [E|]; [|by eauto]. rewrite E, Ha in Hd. injection Hd as <-. by exists da'.
  - rewrite HP by done. apply (cp_root_path _ _ _ K).
  - intros x d Hd. destruct (decide (x = m)) as [->|Hxm].
    + rewrite Hsm in Hd. injection Hd as <-. rewrite HPm, step_cnt_eq. simpl. lia.
    + destruct (Hsame x d Hxm Hd) as (dx & Hdx & -> & _). rewrite HP, step_cnt_ne by (done || by eapply Hpath). by apply (cp_count _ _ _ K).
  - intros x d Hd Hxr. destruct (decide (x = m)) as [->|Hxm]; [|destruct (decide (x = c)) as [->|Hxc]].
    + rewrite Hsm in Hd. injection Hd as <-. exists a, da', []. rewrite HPm, HP, HPa by done. simpl. split_and!; try done.
      * by rewrite lookup_insert_eq.
      * intros v ->%prefix_nil_inv. done.
    + rewrite Hsc in Hd. injection Hd as <-. exists m, dm', u2. rewrite HPm, HP by done. simpl. split_and!; try done.
      * by rewrite HP2, <-app_assoc.
      * rewrite Hlenc. lia.
      * by rewrite lookup_singleton_eq.
    + destruct (Hsame x d Hxm Hd) as (dx & Hdx & _ & _ & _ & Hsx & _). destruct (Hsx Hxc) as (Ht & Hl & Hp).
      destruct (cp_edge _ _ _ K x dx Hdx Hxr) as (b & db & v & Hb & Hdb & HPx & Hlx & Hcb & Hv).
      pose proof (Hnm b db Hdb) as Hbm. assert (¬ (b = a ∧ d_token dx = t)) as Hno. { intros [-> Htt]. by eapply Hxc, only_child. }
      assert (∃ db', split_child !! b = Some db' ∧ d_children db' !! d_token dx = Some (Some x)) as (db' & Hdb' & Hch).
      { rewrite Hgl, decide_False by done. destruct (decide (b = c)) as [->|]; [eexists; split; [done|]; simpl; congruence|].
        destruct (decide (b = a)) as [->|]; [|by eauto]. eexists. split; [done|]. simpl. rewrite Ha in Hdb. injection Hdb as <-.
        rewrite lookup_insert_ne; [done|]. intros E. by apply Hno. }
      exists b, db', v. rewrite Ht, Hl, Hp, !HP by done. split_and!; try done. by eapply step_edge_kept.
  - intros x d Hd Hxr. destruct (decide (x = m)) as [->|Hxm].
    + rewrite HPm, step_cnt_eq. split; [pose proof (cnt_nonneg W (p ++ [t])); lia|]. intros y. rewrite step_cnt_ne by (intros Heq; lens Heq).
      assert (cnt W ((p ++ [t]) ++ [y]) ≤ cnt W (p ++ [t])) by (apply cnt_mono; by apply prefix_app_r). lia.
    + destruct (Hsame x d Hxm Hd) as (dx & Hdx & _). rewrite HP by done. destruct (decide (x = a)) as [->|Hxa]; [|eapply step_live_kept; [done..|by eapply Hpath]].
      rewrite HPa. destruct (cp_live _ _ _ K a da Ha Hxr) as [Hpos Hy]. rewrite HPa in Hpos, Hy.
      rewrite step_cnt_ne by by (intros Heq; lens Heq). split; [done|]. intros y. rewrite step_cnt. case_decide as Heq; [|specialize (Hy y); lia].
      rewrite Heq. pose proof ends_here. destruct Hmany as [Hcm|]; [|done]. rewrite (cp_count _ _ _ K a da Ha), HPa, Hcc in Hcm. lia.
  - intros b d y oc Hd Hoc. destruct (decide (b = m)) as [->|Hbm].
    + rewrite Hsm in Hd. injection Hd as <-. simpl in Hoc. apply lookup_singleton_Some in Hoc as [<- <-]. by exists c, dc'.
    + destruct (Hsame b d Hbm Hd) as (db & Hdb & _ & _ & _ & _ & _ & Hch).
      assert (Hget : d_children db !! y = Some oc → ¬ (b = a ∧ y = t) → ∃ c0 d1, oc = Some c0 ∧ split_child !! c0 = Some d1 ∧ d_parent d1 = Some b ∧ d_token d1 = y).
      { intros Hy Hno. destruct (cp_child _ _ _ K b db y oc Hdb Hy) as (c0 & d1 & -> & Hd1 & Hp1 & Ht1).
        assert (c0 ≠ c) as Hc0c. { intros ->. rewrite Hdc in Hd1. injection Hd1 as <-. apply Hno. split; congruence. }
        exists c0. rewrite Hgl, (decide_False (P:=c0 = m)), (decide_False (P:=c0 = c)) by (done || by eapply Hnm).
        destruct (decide (c0 = a)) as [->|]; [|by eauto]. rewrite Ha in Hd1. injection Hd1 as <-. by exists da'. }
      rewrite Hch in Hoc. destruct (decide (b = a)) as [->|Hba]; [|apply Hget; [done|by intros [? _]]]. rewrite lookup_insert in Hoc. case_decide as Hy.
      * injection Hoc as <-. by exists m, dm'.
      * rewrite Ha in Hdb. injection Hdb as <-. apply Hget; [done|]. intros [_ E]. by apply Hy.
  - intros b d y Hd Hpos. destruct (decide (b = m)) as [->|Hbm].
    + rewrite Hsm in Hd. injection Hd as <-. rewrite HPm in Hpos. rewrite (Honly y Hpos). simpl. by rewrite lookup_singleton_eq.
    + destruct (Hsame b d Hbm Hd) as (db & Hdb & _ & _ & _ & _ & _ & ->). rewrite HP in Hpos by done. destruct (decide (b = a)) as [->|Hba].
      * rewrite lookup_insert. case_decide as Hty; [done|]. rewrite HPa, step_cnt_ne in Hpos by (intros [_ [= ?]]%app_inj_tail; done).
        apply (cp_cover _ _ _ K a da y Ha). by rewrite HPa.
      * rewrite step_cnt_ne in Hpos by by eapply step_snoc. by apply (cp_cover _ _ _ K b db y Hdb).
  - intros x d Hd Hxr. destruct (decide (x = m)) as [->|Hxm].
    + rewrite Hsm in Hd. injection Hd as <-. rewrite HPm. exists st, (p ++ [t]). change (d_seq dm') with i. rewrite step_here. split_and!; [done|done|].
      simpl. unfold len. rewrite length_app. simpl. lia.
    + destruct (Hsame x d Hxm Hd) as (dx & Hdx & _ & Hs & Hi & _). rewrite HP by done. by eapply step_ref.
  - intros x d j e Hd He. destruct (decide (x = m)) as [->|Hxm].
    + rewrite Hsm in Hd. injection Hd as <-. rewrite HPm. simpl in He. apply lookup_singleton_Some in He as [<- <-].
      exists st. rewrite step_here. split; [done|]. unfold len. rewrite length_app. simpl. lia.
    + destruct (Hsame x d Hxm Hd) as (dx & Hdx & _ & _ & _ & _ & Hends & _). rewrite HP by done. rewrite Hends in He.
      destruct (decide (x = a)) as [->|]; [rewrite HPa; by apply step_endpoint_a|by eapply step_endpoint].
  - intros j st' w Hw. destruct (decide ((j, st') = (i, st))) as [[= -> ->]|Hne].
    + rewrite step_here in Hw. injection Hw as <-. exists m, dm'. split_and!; [done|done|]. simpl. rewrite lookup_singleton_eq. eauto.
    + rewrite step_other in Hw by done. destruct (cp_end _ _ _ K j st' w Hw) as (x & dx & Hx & HPx & He).
      pose proof (Hnm x dx Hx) as Hxm. assert (∃ d, split_child !! x = Some d) as [d Hd].
      { rewrite Hgl, decide_False by done. destruct (decide (x = c)); [eauto|]. destruct (decide (x = a)); eauto. }
      destruct (Hsame x d Hxm Hd) as (dx' & Hdx' & _ & _ & _ & _ & Hends & _). rewrite Hx in Hdx'. injection Hdx' as <-.
      exists x, d. rewrite HP by done. split_and!; [done|done|]. rewrite Hends. destruct (decide (x = a)) as [->|]; [|done].
      rewrite Ha in Hx. injection Hx as <-. rewrite lookup_delete_ne; [done|]. intros <-. apply Hne. f_equal. apply Huniq. congruence.
Qed.
End split_child.
End longer.
End child.
End step.
