(* ===== verification/SuffixStores.v ===== *)
(** The stores of the suffix tree ([SuffixTree]) while [append] runs: the children of every
    node are those of its list ([SuffixGroups]), but for some nodes that are in none yet and
    some nodes whose lists are being made. *)

From stdpp Require Import base gmap list strings.
From Stdlib Require Import ZArith Lia.
From S2P Require Import Prelude Int32Map SuffixTree SuffixSiblings SuffixGroups SuffixCounts SuffixPaths.
Open Scope Z_scope.

Implicit Types (s : SuffixTree) (a b c p g : nat) (X Y l : list nat) (n : Node).

(** ** The siblings of all nodes

    The children of a node are in its list, those of [X] aside, which are in no list; the
    lists of the nodes of [Y] are being made. *)
Record arranged s X Y : Prop := {
  ar_addr : addressed s;
  ar_sib : ∀ b, is_Some (nodes s !! b) → b ∉ Y → ∃ rs, siblings s b rs ∧
    ∀ c, c ∈ members rs ↔ c ∉ X ∧ ∃ n, nodes s !! c = Some n ∧ parent n = Some b;
}.
Definition place n := (count n, parent n, next_sibling n, prev_sibling n, group n).
Definition shape n := (place n, outer n).
Definition rest s := (max_depth_ s, seqs_ s, active_nodes_ s).

(** A change that leaves the members of a list, and the groups, as they are *)
Lemma siblings_away s s' b rs :
  siblings s b rs →
  (∀ x, x ∈ members rs → place <$> nodes s' !! x = place <$> nodes s !! x) →
  (outer <$> nodes s' !! b = outer <$> nodes s !! b) →
  (∀ r, r ∈ rs → groups s' !! r_group r = groups s !! r_group r) →
  (∀ x n r, nodes s' !! x = Some n → x ∉ members rs → r ∈ rs → group n ≠ Some (r_group r)) →
  siblings s' b rs.
Proof.
  intros [C G] Hm Ho Hg Hx.
  assert (Hm' : ∀ x, x ∈ members rs → ∃ n n', nodes s !! x = Some n ∧ nodes s' !! x = Some n' ∧ place n' = place n ∧ parent n = Some b).
  { intros x Hx'. destruct (ch_member _ _ _ C x Hx') as (n & Hn & Hp). destruct (fmap_Some_eq place _ _ _ (Hm x Hx') Hn) as (n' & Hn' & Hs). eauto 10. }
  split; [split|split].
  - destruct (ch_parent _ _ _ C) as (n & Hn & Hh & Ht). destruct (fmap_Some_eq outer _ _ _ Ho Hn) as (n' & Hn' & Hs).
    exists n'. unfold outer in Hs. split_and!; congruence.
  - apply C.
  - apply C.
  - eapply segment_ext; [|apply C]. intros x Hx'. destruct (Hm' x Hx') as (n & n' & Hn & Hn' & Hs & _).
    unfold nx, pv. rewrite Hn, Hn'. unfold place in Hs. simpl. split; congruence.
  - intros x Hx'. destruct (Hm' x Hx') as (n & n' & Hn & Hn' & Hs & Hp). exists n'. unfold place in Hs. split; congruence.
  - eapply segment_ext; [|apply G]. intros h (r & -> & Hr)%list_elem_of_fmap. unfold gnx, gpv. by rewrite Hg.
  - apply G.
  - apply G.
  - intros r Hr. unfold ghead. rewrite Hg by done. by apply G.
  - intros r x Hr Hx'. rewrite <-(gr_member _ _ _ G r x Hr Hx'). destruct (Hm' x) as (n & n' & Hn & Hn' & Hs & _).
    { apply elem_of_members. eauto. }
    unfold view. rewrite Hn, Hn'. unfold place in Hs. simpl. congruence.
  - intros r x c q Hr (n' & Hn' & _ & Hgr & _)%view_node. destruct (decide (x ∈ members rs)) as [Hin|Hin].
    + destruct (Hm' x Hin) as (n & n'' & Hn & Hn'' & Hs & _). rewrite Hn' in Hn''. injection Hn'' as <-.
      eapply (gr_own _ _ _ G r x); [done|]. rewrite (view_lookup _ _ _ Hn). unfold place in Hs. repeat f_equal; congruence.
    + by destruct (Hx x n' r).
Qed.
Lemma siblings_group s b rs x n r : siblings s b rs → nodes s !! x = Some n → x ∉ members rs → r ∈ rs → group n ≠ Some (r_group r).
Proof.
  intros [_ G] Hn Hx Hr Hg. apply Hx, elem_of_members. exists r. split; [done|]. eapply (gr_own _ _ _ G); [done|].
  rewrite (view_lookup _ _ _ Hn). by rewrite Hg.
Qed.

(** Changes that siblings do not see *)
Definition neutral s s' : Prop :=
  (∀ b, shape <$> nodes s' !! b = shape <$> nodes s !! b) ∧ groups s' = groups s ∧ fresh s' = fresh s.
Lemma neutral_node s s' b n' : neutral s s' → nodes s' !! b = Some n' → ∃ n, nodes s !! b = Some n ∧ shape n = shape n'.
Proof. intros (H & _) Hb. destruct (fmap_Some_eq shape _ _ _ (eq_sym (H b)) Hb) as (n & ? & ?). eauto. Qed.
Lemma neutral_sym s s' : neutral s s' → neutral s' s.
Proof. intros (H1 & H2 & H3). split_and!; congruence. Qed.
Lemma neutral_addressed s s' : neutral s s' → addressed s → addressed s'.
Proof.
  intros N A. pose proof N as (_ & Hg & Hf). split; rewrite ?Hg, ?Hf.
  - intros a [n' Hn']. destruct (neutral_node _ _ _ _ N Hn') as (n & Hn & _). apply (ad_nodes _ A). eauto.
  - apply (ad_groups _ A).
  - intros b n' g Hn' Hgr. destruct (neutral_node _ _ _ _ N Hn') as (n & Hn & Hs). eapply (ad_group _ A); [done|]. unfold shape, place in Hs. congruence.
Qed.
Lemma neutral_siblings s s' b rs : neutral s s' → siblings s b rs → siblings s' b rs.
Proof.
  intros N S. pose proof N as (Hs & Hg & _).
  assert (Hp : ∀ x, place <$> nodes s' !! x = place <$> nodes s !! x ∧ outer <$> nodes s' !! x = outer <$> nodes s !! x).
  { intros x. specialize (Hs x). unfold shape in Hs. destruct (nodes s' !! x), (nodes s !! x); simpl in Hs |- *; split; congruence. }
  eapply siblings_away; [exact S|by intros; apply Hp|apply Hp|by intros; rewrite Hg|].
  - intros x n' r Hn' Hx Hr. destruct (neutral_node _ _ _ _ N Hn') as (n & Hn & Hsh). pose proof (siblings_group _ _ _ _ _ _ S Hn Hx Hr).
    unfold shape, place in Hsh. congruence.
Qed.
Lemma neutral_arranged s s' X Y : neutral s s' → arranged s X Y → arranged s' X Y.
Proof.
  intros N [A Sib]. split; [by eapply neutral_addressed|]. intros b [n' Hn'] Hb. destruct (neutral_node _ _ _ _ N Hn') as (n & Hn & _).
  destruct (Sib b) as (rs & S & Hc); [eauto|done|]. exists rs. split; [by eapply neutral_siblings|]. intros c. rewrite Hc. f_equiv.
  split; intros (nc & Hnc & Hp).
  - destruct (neutral_node _ _ _ _ (neutral_sym _ _ N) Hnc) as (nc' & Hnc' & Hs). exists nc'. unfold shape, place in Hs. split; congruence.
  - destruct (neutral_node _ _ _ _ N Hnc) as (nc' & Hnc' & Hs). exists nc'. unfold shape, place in Hs. split; congruence.
Qed.
(** A step on the children of [p] *)
Lemma frame_arranged p s s' X Y X' Y' rs :
  arranged s X Y → frame p s s' → addressed s' → siblings s' p rs →
  (∀ c, c ∈ members rs ↔ c ∉ X' ∧ ∃ n, nodes s !! c = Some n ∧ parent n = Some p) →
  (∀ c n, nodes s !! c = Some n → parent n ≠ Some p → (c ∈ X' ↔ c ∈ X)) → (∀ b, b ≠ p → b ∉ Y' → b ∉ Y) →
  arranged s' X' Y'.
Proof.
  intros [_ Sib] F A' S' Hc HX HY. split; [done|]. intros b [n' Hn'] Hb. destruct (frame_node_inv _ _ _ _ _ F Hn') as (n & Hn & _).
  assert (Hpar : ∀ q c, (∃ n0, nodes s' !! c = Some n0 ∧ parent n0 = Some q) ↔ (∃ n0, nodes s !! c = Some n0 ∧ parent n0 = Some q)).
  { intros q c. split; intros (n0 & Hn0 & Hp0).
    - destruct (frame_node_inv _ _ _ _ _ F Hn0) as (n1 & Hn1 & E%core_parent). exists n1. split; congruence.
    - destruct (frame_node _ _ _ _ _ F Hn0) as (n1 & Hn1 & E%core_parent). exists n1. split; congruence. }
  destruct (decide (b = p)) as [->|Hbp].
  - exists rs. split; [done|]. intros c. by rewrite Hc, Hpar.
  - destruct (Sib b) as (rs0 & S & Hc0); [eauto|auto|]. exists rs0. split; [by eapply frame_siblings|]. intros c. rewrite Hc0, Hpar.
    split; intros (Hc1 & nc & Hnc & Hp); (split; [|eauto]); rewrite (HX c nc) in * by (done || congruence); done.
Qed.


(** A node changes: its place in a list, unless it is in none, and the ends of its own list,
    unless that is being made, stay as they are. *)
Lemma arranged_change s s' a f X Y :
  arranged s X Y → (a ∈ X ∨ ∀ n, nodes s !! a = Some n → place (f n) = place n) →
  (a ∈ Y ∨ ∀ n, nodes s !! a = Some n → outer (f n) = outer n) → (∀ n, group (f n) = group n) →
  nodes s' = alter f a (nodes s) → groups s' = groups s → fresh s' = fresh s → arranged s' X Y.
Proof.
  intros [A Sib] HX HY Hgr Hns Hg Hf.
  assert (Hl : ∀ x, nodes s' !! x = if decide (a = x) then f <$> nodes s !! a else nodes s !! x) by (intros x; rewrite Hns; apply lookup_alter).
  split; [split; rewrite ?Hg, ?Hf|].
  - intros x. rewrite Hl. destruct (decide (a = x)) as [<-|]; rewrite ?fmap_is_Some; apply (ad_nodes _ A).
  - apply (ad_groups _ A).
  - intros x n' g Hx. rewrite Hl in Hx. destruct (decide (a = x)) as [<-|]; [|by apply (ad_group _ A x)].
    apply fmap_Some in Hx as (n & Hn & ->). rewrite Hgr. by eapply (ad_group _ A).
  - intros b Hb HbY. destruct (Sib b) as (rs & S & Hc); [|done|].
    { rewrite Hl in Hb. destruct (decide (a = b)) as [<-|]; [by rewrite fmap_is_Some in Hb|done]. }
    exists rs. split.
    + eapply siblings_away; [exact S| | |by intros; rewrite Hg|].
      * intros x Hx. rewrite Hl. destruct (decide (a = x)) as [<-|]; [|done]. destruct HX as [HX|HX]; [by apply Hc in Hx as [? _]|].
        destruct (nodes s !! a) as [n|] eqn:Hn; [|done]. simpl. f_equal. by apply HX.
      * rewrite Hl. destruct (decide (a = b)) as [<-|]; [|done]. destruct HY as [HY|HY]; [done|].
        destruct (nodes s !! a) as [n|] eqn:Hn; [|done]. simpl. f_equal. by apply HY.
      * intros x n' r Hx Hxm Hr. rewrite Hl in Hx. destruct (decide (a = x)) as [<-|]; [|by eapply siblings_group].
        apply fmap_Some in Hx as (n & Hn & ->). rewrite Hgr. by eapply siblings_group.
    + intros c. rewrite Hc, Hl. destruct (decide (a = c)) as [<-|]; [|done]. destruct HX as [HX|HX]; [by split; intros []|].
      f_equiv. split.
      * intros (n & Hn & Hp). exists (f n). rewrite Hn. split; [done|]. pose proof (HX n Hn) as E. unfold place in E. congruence.
      * intros (n' & (n & Hn & ->)%fmap_Some & Hp). exists n. split; [done|]. pose proof (HX n Hn) as E. unfold place in E. congruence.
Qed.
(** A child of [p] counts as in no list, while that of [p] is being made. *)
Lemma arranged_weaken s X Y c p n :
  arranged s X Y → nodes s !! c = Some n → parent n = Some p → arranged s (c :: X) (p :: Y).
Proof.
  intros [A Sib] Hn Hp. split; [done|]. intros b Hb [Hbp HbY]%not_elem_of_cons. destruct (Sib b Hb HbY) as (rs & S & Hc).
  exists rs. split; [done|]. intros x. rewrite Hc, not_elem_of_cons. split; [|naive_solver].
  intros (Hx & n' & Hn' & Hp'). split_and!; [|done|eauto]. intros ->. congruence.
Qed.
(** A new node is in no list yet. *)
Lemma arranged_new s s' n X Y :
  arranged s X Y → (∀ x n', nodes s !! x = Some n' → parent n' ≠ Some (fresh s)) →
  head_child n = None → tail_child n = None → group n = None → parent n ≠ Some (fresh s) →
  nodes s' = <[fresh s := n]> (nodes s) → groups s' = groups s → fresh s' = S (fresh s) → arranged s' (fresh s :: X) Y.
Proof.
  intros [A Sib] Hpar Hh Ht Hgn Hpn Hns Hg Hf.
  assert (Hnone : nodes s !! fresh s = None). { apply eq_None_not_Some. intros H. pose proof (ad_nodes _ A _ H). lia. }
  assert (Hl : ∀ x, nodes s' !! x = if decide (fresh s = x) then Some n else nodes s !! x) by (intros x; rewrite Hns; apply lookup_insert).
  split; [split; rewrite ?Hg, ?Hf|].
  - intros x. rewrite Hl. case_decide; [lia|]. intros Hx. pose proof (ad_nodes _ A x Hx). lia.
  - intros g Hx. pose proof (ad_groups _ A g Hx). lia.
  - intros x n' g Hx Hgr. rewrite Hl in Hx. case_decide; [|by eapply (ad_group _ A)]. congruence.
  - intros b Hb HbY. rewrite Hl in Hb. destruct (decide (fresh s = b)) as [<-|Hbf].
    + exists []. split; [split; split|].
      * exists n. rewrite Hl, decide_True by done. done.
      * apply not_elem_of_nil.
      * apply NoDup_nil_2.
      * done.
      * intros x Hx. by apply elem_of_nil in Hx.
      * done.
      * apply NoDup_nil_2.
      * constructor.
      * intros r Hr. by apply elem_of_nil in Hr.
      * intros r x Hr. by apply elem_of_nil in Hr.
      * intros r x c q Hr. by apply elem_of_nil in Hr.
      * intros c. split; [intros Hx; by apply elem_of_nil in Hx|]. intros (_ & n' & Hn' & Hp). rewrite Hl in Hn'. exfalso.
        case_decide; [congruence|]. by eapply Hpar.
    + destruct (Sib b Hb HbY) as (rs & S & Hc). exists rs.
      assert (Hfm : fresh s ∉ members rs). { rewrite Hc. intros (_ & n' & Hn' & _). congruence. }
      split.
      * eapply siblings_away; [exact S| | |by intros; rewrite Hg|].
        -- intros x Hx. rewrite Hl, decide_False; [done|]. by intros <-.
        -- by rewrite Hl, decide_False.
        -- intros x n' r Hx Hxm Hr. rewrite Hl in Hx. case_decide; [congruence|]. by eapply siblings_group.
      * intros c. rewrite Hc, not_elem_of_cons, Hl. case_decide as Hcf; [|naive_solver]. subst c. split; [|naive_solver].
        intros (_ & n' & Hn' & _). congruence.
Qed.
(** A node that is in no list goes. *)
Lemma arranged_delete s s' a n X Y X' Y' :
  arranged s X Y → nodes s !! a = Some n → a ∈ X → a ∈ Y →
  (∀ x, x ≠ a → x ∈ X' ↔ x ∈ X) → (∀ x, x ≠ a → x ∉ Y' → x ∉ Y) →
  nodes s' = delete a (nodes s) → groups s' = groups s → fresh s' = fresh s → arranged s' X' Y'.
Proof.
  intros [A Sib] Hn HaX HaY HX HY Hns Hg Hf.
  assert (Hl : ∀ x, nodes s' !! x = if decide (a = x) then None else nodes s !! x) by (intros x; rewrite Hns; apply lookup_delete).
  split; [split; rewrite ?Hg, ?Hf|].
  - intros x. rewrite Hl. case_decide; [by intros []|]. apply (ad_nodes _ A).
  - apply (ad_groups _ A).
  - intros x n' g Hx. rewrite Hl in Hx. case_decide; [done|]. by apply (ad_group _ A x).
  - intros b Hb HbY. rewrite Hl in Hb. destruct (decide (a = b)) as [<-|Hab]; [by destruct Hb|].
    destruct (Sib b Hb) as (rs & S & Hc); [by apply HY|]. exists rs.
    assert (Ham : a ∉ members rs) by (rewrite Hc; naive_solver). split.
    + eapply siblings_away; [exact S| | |by intros; rewrite Hg|].
      * intros x Hx. rewrite Hl, decide_False; [done|]. by intros ->.
      * by rewrite Hl, decide_False.
      * intros x n' r Hx Hxm Hr. rewrite Hl in Hx. case_decide; [done|]. by eapply siblings_group.
    + intros c. rewrite Hc, Hl. case_decide as Hac; [subst; naive_solver|]. by rewrite HX.
Qed.

(** ** The stores during [append] *)

Definition store s : gmap nat Data := data <$> nodes s.
Lemma store_lookup s a : store s !! a = data <$> nodes s !! a.
Proof. apply lookup_fmap. Qed.
Lemma store_node s a d : store s !! a = Some d → ∃ n, nodes s !! a = Some n ∧ data n = d.
Proof. rewrite store_lookup. intros (n & ? & ->)%fmap_Some. eauto. Qed.
Lemma store_calm p s s' : calm p s s' → store s' = store s.
Proof.
  intros (F & C & _). apply map_eq. intros x. rewrite !store_lookup. specialize (C x).
  destruct (nodes s !! x) as [n|] eqn:Hn.
  - destruct (frame_node _ _ _ _ _ F Hn) as (n' & Hn' & Hc). rewrite Hn' in C |- *. simpl in C |- *. unfold core in Hc. unfold data. congruence.
  - destruct (nodes s' !! x) as [n'|] eqn:Hn'; [|done]. destruct (frame_node_inv _ _ _ _ _ F Hn') as (n & ? & _). congruence.
Qed.
Definition with_count v d := mkData v (d_token d) (d_length d) (d_seq d) (d_idx d) (d_ends d) (d_parent d) (d_children d).
Definition with_token v d := mkData (d_count d) v (d_length d) (d_seq d) (d_idx d) (d_ends d) (d_parent d) (d_children d).
Definition with_length v d := mkData (d_count d) (d_token d) v (d_seq d) (d_idx d) (d_ends d) (d_parent d) (d_children d).
Definition with_ref v j d := mkData (d_count d) (d_token d) (d_length d) v j (d_ends d) (d_parent d) (d_children d).
Definition with_ends v d := mkData (d_count d) (d_token d) (d_length d) (d_seq d) (d_idx d) v (d_parent d) (d_children d).
Definition with_parent v d := mkData (d_count d) (d_token d) (d_length d) (d_seq d) (d_idx d) (d_ends d) v (d_children d).
Definition with_children v d := mkData (d_count d) (d_token d) (d_length d) (d_seq d) (d_idx d) (d_ends d) (d_parent d) v.

Lemma store_recounted p a d s s' : recounted p a d s s' → store s' = alter (λ x, with_count (d_count x + d) x) a (store s).
Proof.
  intros Rc. apply map_eq. intros x. rewrite lookup_alter, !store_lookup. destruct (nodes s !! x) as [n|] eqn:Hn.
  - destruct (recounted_count _ _ _ _ _ _ _ Rc Hn) as (n' & Hn' & Hc & Hcnt). rewrite Hn'. unfold core in Hc.
    destruct (decide (a = x)) as [->|Hax].
    + rewrite Hn. rewrite decide_True in Hcnt by done. simpl. unfold data, with_count. simpl. congruence.
    + rewrite decide_False in Hcnt by done. simpl. unfold data. congruence.
  - assert (nodes s' !! x = None) as ->.
    { destruct (nodes s' !! x) as [n'|] eqn:Hn'; [|done]. destruct (frame_node_inv _ _ _ _ _ (proj1 Rc) Hn') as (n & ? & _). congruence. }
    destruct (decide (a = x)) as [->|]; [|done]. by rewrite Hn.
Qed.
(** An update of a node, seen in the store and in the lists *)
Lemma wp_change a f (F : Data → Data) X Y (Q : unit → SuffixTree → Prop) s :
  arranged s X Y → is_Some (nodes s !! a) → (∀ n, data (f n) = F (data n)) → (∀ n, group (f n) = group n) →
  (a ∈ X ∨ ∀ n, nodes s !! a = Some n → place (f n) = place n) → (a ∈ Y ∨ ∀ n, nodes s !! a = Some n → outer (f n) = outer n) →
  (∀ s', arranged s' X Y → store s' = alter F a (store s) → nodes s' = alter f a (nodes s) → groups s' = groups s →
     fresh s' = fresh s → rest s' = rest s → Q () s') → wp (upd a f) Q s.
Proof.
  intros Ar Ha HF Hg HX HY HQ. apply wp_upd; [done|]. apply HQ; try done.
  - by eapply arranged_change.
  - apply map_eq. intros x. rewrite lookup_alter, !store_lookup. simpl. rewrite lookup_alter. destruct (decide (a = x)); [|done].
    destruct (nodes s !! a); [|done]. simpl. by rewrite HF.
Qed.

(** The keys [Int32Map] takes *)
Definition valid (k : Z) : Prop := k ≠ KEY_EMPTY ∧ k ≠ KEY_TOMBSTONE.
Lemma wp_key k (Q : unit → SuffixTree → Prop) s : valid k → Q () s → wp (key k) Q s.
Proof. intros [H1 H2] HQ. unfold key. rewrite (proj2 (Z.eqb_neq _ _) H1), (proj2 (Z.eqb_neq _ _) H2). by apply wp_ret. Qed.
Lemma wp_find_child n t (Q : option (option nat) → SuffixTree → Prop) s : valid t → Q (children n !! t) s → wp (find_child n t) Q s.
Proof. intros Ht HQ. unfold find_child. apply wp_bind, wp_key; [done|]. by apply wp_ret. Qed.
Lemma wp_seq_of i (l : list Z) (Q : list Z → SuffixTree → Prop) s : valid i → seqs_ s !! i = Some l → Q l s → wp (seq_of i) Q s.
Proof. intros Hi Hl HQ. unfold seq_of. apply wp_bind, wp_key; [done|]. tree_steps. rewrite Hl. by apply wp_ret. Qed.
Lemma wp_seq_token i (l : list Z) idx t (Q : Z → SuffixTree → Prop) s :
  valid i → seqs_ s !! i = Some l → 0 ≤ idx → l !! Z.to_nat idx = Some t → Q t s → wp (seq_token i idx) Q s.
Proof. intros Hi Hl H0 Ht HQ. unfold seq_token. apply wp_bind. eapply wp_seq_of; [done|done|]. by eapply wp_atZ. Qed.

Section changes.
Context (X Y : list nat) (s : SuffixTree) (Ar : arranged s X Y).
Abbreviation changed F a s' := (arranged s' X Y ∧ store s' = alter F a (store s) ∧ rest s' = rest s ∧ groups s' = groups s ∧
  fresh s' = fresh s ∧ ∀ x n', nodes s' !! x = Some n' → ∃ n, nodes s !! x = Some n ∧ shape n' = shape n).
Lemma wp_change' a f F : is_Some (nodes s !! a) → (∀ n, data (f n) = F (data n)) → (∀ n, shape (f n) = shape n) →
  wp (upd a f) (λ _ s', changed F a s') s.
Proof.
  intros Ha HF Hs. eapply (wp_change a f F); [exact Ar|done|done|..].
  - intros n. specialize (Hs n). unfold shape, place in Hs. congruence.
  - right. intros n _. specialize (Hs n). unfold shape in Hs. congruence.
  - right. intros n _. specialize (Hs n). unfold shape in Hs. congruence.
  - intros s' Ar' Hst Hn Hg Hf Hr. split_and!; try done. intros x n' Hx. rewrite Hn, lookup_alter in Hx.
    destruct (decide (a = x)) as [<-|]; [|eauto]. apply fmap_Some in Hx as (n & Hn' & ->). eauto.
Qed.
Lemma set_endpoint_spec a i e : valid i → is_Some (nodes s !! a) →
  wp (set_endpoint a i e) (λ _ s', changed (λ d, with_ends (<[i := e]> (d_ends d)) d) a s') s.
Proof. intros Hi Ha. unfold set_endpoint. apply wp_bind, wp_key; [done|]. by apply wp_change'. Qed.
Lemma incr_endpoint_spec a i : valid i → is_Some (nodes s !! a) →
  wp (incr_endpoint a i) (λ _ s', changed (λ d, with_ends (<[i := default 0 (d_ends d !! i) + 1]> (d_ends d)) d) a s') s.
Proof. intros Hi Ha. unfold incr_endpoint. apply wp_bind, wp_key; [done|]. by apply wp_change'. Qed.
Lemma erase_endpoint_spec a i : valid i → is_Some (nodes s !! a) →
  wp (erase_endpoint a i) (λ _ s', changed (λ d, with_ends (delete i (d_ends d)) d) a s') s.
Proof. intros Hi Ha. unfold erase_endpoint. apply wp_bind, wp_key; [done|]. by apply wp_change'. Qed.
Lemma emplace_child_spec a t c d : valid t → store s !! a = Some d → d_children d !! t = None →
  wp (emplace_child a t c) (λ _ s', changed (with_children (<[t := Some c]> (d_children d))) a s') s.
Proof.
  intros Ht (n & Hn & <-)%store_node Hc. unfold emplace_child. apply wp_bind, wp_key; [done|].
  eapply wp_mono; [eapply (wp_change' a _ (λ d, match d_children d !! t with Some _ => d | None => with_children (<[t := Some c]> (d_children d)) d end)); [eauto| |]|].
  - intros n0. simpl. by destruct (children n0 !! t).
  - intros n0. by destruct (children n0 !! t).
  - intros _ s' (? & Hst & ?). split_and!; [done| |tauto..]. rewrite Hst. apply map_eq. intros x. rewrite !lookup_alter.
    case_decide; [|done]. rewrite store_lookup, Hn. simpl. simpl in Hc. by rewrite Hc.
Qed.
Lemma release_child_spec a t d : valid t → store s !! a = Some d →
  wp (release_child a t) (λ o s', o = default None (d_children d !! t) ∧ changed (with_children (<[t := None]> (d_children d))) a s') s.
Proof.
  intros Ht (n & Hn & <-)%store_node. unfold release_child. apply wp_bind, wp_key; [done|]. tree_steps.
  eapply wp_mono; [by eapply (wp_change' a _ (with_children (<[t := None]> (children n))))|]. intros [] s' H. by apply wp_ret.
Qed.
(** [children[t].reset(p)] and [children.erase(t)] of a pointer that was released *)
Lemma reset_child_spec a t (o : option nat) d : valid t → store s !! a = Some d → default None (d_children d !! t) = None →
  wp (reset_child a t o) (λ _ s', changed (with_children (<[t := o]> (d_children d))) a s') s.
Proof.
  intros Ht (n & Hn & <-)%store_node Hc. unfold reset_child. apply wp_bind, wp_key; [done|]. tree_steps. simpl in Hc. rewrite Hc.
  eapply wp_mono; [by eapply (wp_change' a _ (with_children (<[t := o]> (children n))))|]. intros [] s' H. by apply wp_ret.
Qed.
Lemma erase_child_spec a t d : valid t → store s !! a = Some d → default None (d_children d !! t) = None →
  wp (erase_child a t) (λ _ s', changed (with_children (delete t (d_children d))) a s') s.
Proof.
  intros Ht (n & Hn & <-)%store_node Hc. unfold erase_child. apply wp_bind, wp_key; [done|]. tree_steps. simpl in Hc. rewrite Hc.
  eapply wp_mono; [by eapply (wp_change' a _ (with_children (delete t (children n))))|]. intros [] s' H. by apply wp_ret.
Qed.
End changes.
