(* ===== verification/SuffixOps.v ===== *)
(** The operations of the suffix tree ([SuffixTree]): [append], [extend], [remove],
    [match_context] and [speculate] of [core/util/suffix_tree.cpp].  The iteration order of
    [Int32Map], the arithmetic of floats and the top of a heap are parameters. *)

From stdpp Require Import base gmap list strings.
From Stdlib Require Import ZArith Lia.
From S2P Require Import Prelude Int32Map LogprobState SuffixTree.
Open Scope Z_scope.

(** ** Appending a token *)

(** What an iteration of the loop of [append] does to an active node, and the new one;
    [seq_len] is the length of the sequence with the token. *)
Definition append_new_child (seq_id token seq_len : Z) (a : nat) : Tree nat :=
  new_node (set_parent (Some a) (Node_new 1 token 1 seq_id (seq_len - 1))) ≫= λ c,
  set_endpoint c seq_id seq_len ≫= λ _,
  emplace_child a token c ≫= λ _,
  erase_endpoint a seq_id ≫= λ _,
  node a ≫= λ n,
  (if bool_decide (size (children n) = 1%nat) then
     check (bool_decide (head_child n = None ∧ tail_child n = None)) "!node->head_child && !node->tail_child" ≫= λ _,
     upd a (λ n, set_tail_child (Some c) (set_head_child (Some c) n)) ≫= λ _,
     new_group c ≫= λ g, assign_group c (Some g)
   else
     deref (tail_child n) ≫= λ t, insert_into_siblings_after c t) ≫= λ _,
  mret c.
(** The active node takes the place of its only child, which is one token long. *)
Definition append_fuse (seq_id token_ seq_len : Z) (a c : nat) : Tree nat :=
  node a ≫= λ n,
  upd c (λ x, set_token (token n) (set_count (count x + 1) x)) ≫= λ _,
  upd c (set_length (length_ n + 1)) ≫= λ _,
  upd c (λ x, set_ref seq_id (seq_len - length_ x) x) ≫= λ _,
  set_endpoint c seq_id seq_len ≫= λ _,
  upd c (set_parent (parent n)) ≫= λ _,
  replace_in_siblings a c ≫= λ _,
  deref (parent n) ≫= λ p, node p ≫= λ np,
  check (bool_decide (children np !! token n = Some (Some a))) "parent->children[node->token] == node" ≫= λ _,
  release_child a token_ ≫= λ tmp,
  node c ≫= λ x,
  reset_child p (token x) tmp ≫= λ _,
  mret c.
(** The active node grows by the first token of its only child, which shrinks. *)
Definition append_shift (seq_id token_ seq_len : Z) (a c : nat) : Tree nat :=
  upd a (λ n, set_length (length_ n + 1) n) ≫= λ _,
  incr_endpoint a seq_id ≫= λ _,
  upd a (λ n, set_ref seq_id (seq_len - length_ n) n) ≫= λ _,
  upd c (λ x, set_ref (ref_seq x) (ref_idx x + 1) (set_length (length_ x - 1) x)) ≫= λ _,
  node c ≫= λ x,
  seq_token (ref_seq x) (ref_idx x) ≫= λ t,
  upd c (set_token t) ≫= λ _,
  (if t =? token_ then mret ()
   else
     release_child a token_ ≫= λ tmp,
     deref tmp ≫= λ tmp,
     emplace_child a t tmp ≫= λ _,
     erase_child a token_) ≫= λ _,
  mret a.
(** The first token of a longer child becomes a node of its own. *)
Definition append_split (seq_id token_ seq_len : Z) (a c : nat) : Tree nat :=
  node c ≫= λ x,
  new_node (set_parent (Some a) (Node_new (count x) token_ 1 seq_id (seq_len - 1))) ≫= λ w,
  replace_in_siblings c w ≫= λ _,
  release_child a token_ ≫= λ _,
  reset_child a token_ (Some w) ≫= λ _,
  upd c (λ x, set_ref (ref_seq x) (ref_idx x + 1) (set_length (length_ x - 1) x)) ≫= λ _,
  node c ≫= λ x,
  seq_token (ref_seq x) (ref_idx x) ≫= λ t,
  upd c (set_token t) ≫= λ _,
  emplace_child w t c ≫= λ _,
  upd c (set_parent (Some w)) ≫= λ _,
  erase_endpoint a seq_id ≫= λ _,
  set_endpoint w seq_id seq_len ≫= λ _,
  upd w (λ n, set_tail_child (Some c) (set_head_child (Some c) n)) ≫= λ _,
  new_group c ≫= λ g, assign_group c (Some g) ≫= λ _,
  increment_count w ≫= λ _,
  mret w.
Definition append_step (seq_id token_ seq_len : Z) (a : nat) : Tree nat :=
  node a ≫= λ n,
  find_child n token_ ≫= λ it,
  check (bool_decide (endpoints n !! seq_id = Some (seq_len - 1))) "node->endpoints[seq_id] == seq.size() - 1" ≫= λ _,
  match default None it with
  | None =>
      if (count n =? 1) && negb (a =? root)%nat then
        check (bool_decide (children n = ∅)) "node->children.empty()" ≫= λ _,
        check (ref_seq n =? seq_id) "node->ref_seq == seq_id" ≫= λ _,
        upd a (λ n, set_length (length_ n + 1) n) ≫= λ _,
        incr_endpoint a seq_id ≫= λ _,
        mret a
      else append_new_child seq_id token_ seq_len a
  | Some c =>
      node c ≫= λ x,
      if (count n =? count x + 1) && negb (a =? root)%nat then
        check (bool_decide (size (children n) = 1%nat)) "node->children.size() == 1" ≫= λ _,
        check (bool_decide (size (endpoints n) = 1%nat)) "node->endpoints.size() == 1" ≫= λ _,
        if length_ x =? 1 then append_fuse seq_id token_ seq_len a c
        else append_shift seq_id token_ seq_len a c
      else if length_ x =? 1 then
        erase_endpoint a seq_id ≫= λ _,
        set_endpoint c seq_id seq_len ≫= λ _,
        increment_count c ≫= λ _,
        mret c
      else append_split seq_id token_ seq_len a c
  end.
(** [active_nodes_[seq_id]] *)
Definition active_of (seq_id : Z) : Tree (list nat) :=
  key seq_id ≫= λ _, gets active_nodes_ ≫= λ m, mret (default [] (m !! seq_id)).
Definition set_active (seq_id : Z) (l : list nat) : Tree unit :=
  modify (λ s, set_active_nodes (<[seq_id := l]> (active_nodes_ s)) s).
(** [append(seq_id, token)] *)
Definition append (seq_id token_ : Z) : Tree unit :=
  key seq_id ≫= λ _,
  get ≫= λ s,
  (match seqs_ s !! seq_id with
   | Some _ => mret ()
   | None =>
       check (bool_decide (active_nodes_ s !! seq_id = None)) "!active_nodes_.contains(seq_id)" ≫= λ _,
       put (set_active_nodes (<[seq_id := []]> (active_nodes_ s)) (set_seqs (<[seq_id := []]> (seqs_ s)) s))
   end) ≫= λ _,
  seq_of seq_id ≫= λ tokens,
  active_of seq_id ≫= λ active,
  set_active seq_id (active ++ [root]) ≫= λ _,
  set_endpoint root seq_id (i32 (Z.of_nat (length tokens))) ≫= λ _,
  incr root ≫= λ _,
  active_of seq_id ≫= λ active,
  gets max_depth_ ≫= λ d,
  set_active seq_id (if u64 d <? Z.of_nat (length active) then drop 1 active else active) ≫= λ _,
  modify (λ s, set_seqs (<[seq_id := tokens ++ [token_]]> (seqs_ s)) s) ≫= λ _,
  let seq_len := i32 (Z.of_nat (length tokens + 1)) in
  active_of seq_id ≫= λ active,
  for_each (seq 0 (length active)) (λ i,
    active_of seq_id ≫= λ active,
    at_ active i ≫= λ a,
    append_step seq_id token_ seq_len a ≫= λ b,
    set_active seq_id (<[i := b]> active)).
(** [extend(seq_id, tokens)] *)
Definition extend (seq_id : Z) (tokens : list Z) : Tree unit := for_each tokens (append seq_id).

(** ** Removing a sequence *)

(** [*map.begin()]: the iteration order of [Int32Map] *)
Class MapOrder := map_begin : ∀ {A}, gmap Z A → option (Z * A).
(** [float] arithmetic of [speculate]: [static_cast<float>(n)], products and quotients, the
    order, and [static_cast<int32_t>(match_len * factor + offset + 1e-6)]; and the top of a
    [std::priority_queue], as an index of its elements *)
Class SpecOps (F : Type) := {
  f_of_int : Z → F;
  f_mul : F → F → F;
  f_div : F → F → F;
  f_ltb : F → F → bool;
  f_leb : F → F → bool;
  spec_limit : Z → F → F → Z;
}.
Class HeapTop := heap_top : ∀ {A}, (A → A → bool) → list A → option nat.

Section remove.
Context `{MapOrder}.
Definition begin_of {A} (m : gmap Z A) : Tree (Z * A) :=
  match map_begin m with Some x => mret x | None => undef "begin of an empty map" end.

(** The loop over the nodes of the suffix of [seq] from [idx] on, at [a]: the last node and
    the nodes below the root on the way *)
Fixpoint remove_path (n : nat) (seq_id : Z) (seq : list Z) (idx : Z) (a : nat) (path : list nat)
    : Tree (nat * list nat) :=
  match n with
  | O => undef "out of fuel"
  | S n =>
      if i32 (Z.of_nat (length seq)) <=? idx then mret (a, path)
      else
        atZ seq idx ≫= λ token_,
        node a ≫= λ x,
        find_child x token_ ≫= λ it,
        match it with
        | None => mret (a, path)
        | Some p =>
            deref p ≫= λ c, node c ≫= λ y,
            if 1 <? count y then
              decrement_count c ≫= λ _,
              erase_endpoint c seq_id ≫= λ _,
              node c ≫= λ y,
              remove_path n seq_id seq (idx + length_ y) c (path ++ [c])
            else
              check (count y =? 1) "child->count == 1" ≫= λ _,
              remove_from_siblings c ≫= λ _,
              erase_child a token_ ≫= λ _,
              mret (a, path)
        end
  end.
(** A node whose suffixes all go on to its only child gives way to it. *)
Definition remove_merge (a : nat) (path : list nat) : Tree (nat * list nat) :=
  node a ≫= λ n,
  if negb (a =? root)%nat && bool_decide (size (children n) = 1%nat) then
    begin_of (children n) ≫= λ it,
    deref it.2 ≫= λ c, node c ≫= λ x,
    if count n =? count x then
      upd c (λ x, set_parent (parent n) (set_ref (ref_seq x) (ref_idx x - length_ n)
                    (set_length (length_ x + length_ n) (set_token (token n) x)))) ≫= λ _,
      replace_in_siblings a c ≫= λ _,
      release_child a it.1 ≫= λ _,
      node c ≫= λ x,
      deref (parent x) ≫= λ p,
      reset_child p (token x) (Some c) ≫= λ _,
      mret (c, take (length path - 1) path ++ [c])
    else mret (a, path)
  else mret (a, path).
(** Down to a leaf, and the distance to it *)
Fixpoint descend (n : nat) (a : nat) (distance : Z) : Tree (nat * Z) :=
  match n with
  | O => undef "out of fuel"
  | S n =>
      node a ≫= λ x,
      if bool_decide (children x = ∅) then mret (a, distance)
      else
        begin_of (children x) ≫= λ it,
        deref it.2 ≫= λ c, node c ≫= λ y, descend n c (distance + length_ y)
  end.
(** Back up the path *)
Fixpoint update_refs (seq_id ref_seq_ ref_idx_ : Z) (path : list nat) : Tree unit :=
  match path with
  | [] => mret ()
  | a :: path =>
      node a ≫= λ n,
      let ref_idx_ := ref_idx_ - length_ n in
      (if ref_seq n =? seq_id then upd a (set_ref ref_seq_ ref_idx_) else mret ()) ≫= λ _,
      update_refs seq_id ref_seq_ ref_idx_ path
  end.
Definition remove_suffix (seq_id : Z) (seq : list Z) (start : Z) : Tree unit :=
  decr root ≫= λ _,
  remove_path (S (length seq)) seq_id seq start root [] ≫= λ r : nat * list nat,
  remove_merge r.1 r.2 ≫= λ r : nat * list nat,
  gets (λ s, size (nodes s)) ≫= λ k,
  descend (S k) r.1 0 ≫= λ l : nat * Z,
  node l.1 ≫= λ leaf,
  if bool_decide (endpoints leaf = ∅) || bool_decide (is_Some (endpoints leaf !! seq_id)) then mret ()
  else
    begin_of (endpoints leaf) ≫= λ ref,
    update_refs seq_id ref.1 (ref.2 - l.2) (rev r.2).
(** [remove(seq_id)] *)
Definition remove (seq_id : Z) : Tree unit :=
  seq_of seq_id ≫= λ seq,
  for_each (seqZ 0 (i32 (Z.of_nat (length seq)))) (remove_suffix seq_id seq) ≫= λ _,
  modify (λ s, set_active_nodes (delete seq_id (active_nodes_ s)) (set_seqs (delete seq_id (seqs_ s)) s)).
End remove.

(** ** Speculation *)

(** [match_context(context)]: the node and the index in it, when the tree has the context *)
Fixpoint match_from (context : list Z) (a : nat) (idx : Z) : Tree (option (nat * Z)) :=
  match context with
  | [] => mret (Some (a, idx))
  | t :: context =>
      node a ≫= λ n,
      (if length_ n <=? idx then
         find_child n t ≫= λ it,
         match it with
         | None => mret None
         | Some p => deref p ≫= λ c, mret (Some (c, 0))
         end
       else mret (Some (a, idx))) ≫= λ p : option (nat * Z),
      match p with
      | None => mret None
      | Some (a, idx) =>
          node a ≫= λ n,
          check (idx <? length_ n) "idx < node->length" ≫= λ _,
          seq_token (ref_seq n) (ref_idx n + idx) ≫= λ x,
          if negb (x =? t) then mret None else match_from context a (idx + 1)
      end
  end.
Definition match_context (context : list Z) : Tree (option (nat * Z)) := match_from context root 0.

Section speculate.
Context {F : Type} `{FloatOps F} `{SpecOps F} `{HeapTop}.

Record Draft := mkDraft {
  token_ids : list Z;
  parents : list Z;
  probs : list F;
  score : F;
  match_len : Z;
}.
Definition Draft_default : Draft := mkDraft [] [] [] f_zero 0.
Definition set_match_len (v : Z) (d : Draft) : Draft := mkDraft (token_ids d) (parents d) (probs d) (score d) v.
Definition add_token (t parent : Z) (prob : F) (d : Draft) : Draft :=
  mkDraft (token_ids d ++ [t]) (parents d ++ [parent]) (probs d ++ [prob]) (f_add (score d) prob) (match_len d).

(** The loop of [speculate_path]; every round adds a token or goes down an edge. *)
Fixpoint path_loop (k : nat) (a : nat) (idx : Z) (max_spec_tokens : Z) (min_token_prob prob : F) (d : Draft)
    : Tree Draft :=
  match k with
  | O => undef "out of fuel"
  | S k =>
      if (Z.of_nat (length (token_ids d)) <? u64 max_spec_tokens) && f_leb min_token_prob prob then
        node a ≫= λ n,
        if idx <? length_ n then
          seq_token (ref_seq n) (ref_idx n + idx) ≫= λ t,
          path_loop k a (idx + 1) max_spec_tokens min_token_prob prob
            (add_token t (Z.of_nat (length (token_ids d)) - 1) prob d)
        else
          match head_child n with
          | None => mret d
          | Some c =>
              node c ≫= λ x,
              path_loop k c 0 max_spec_tokens min_token_prob
                (f_mul prob (f_div (f_of_int (count x)) (f_of_int (count n)))) d
          end
      else mret d
  end.
Definition speculate_path (a : nat) (idx : Z) (max_spec_tokens : Z) (min_token_prob : F) : Tree Draft :=
  node a ≫= λ n, seq_of (ref_seq n) ≫= λ _,
  path_loop (S (2 * Z.to_nat (u64 max_spec_tokens))) a idx max_spec_tokens min_token_prob f_one Draft_default.

(** The loop of [speculate_tree] over a heap of nodes *)
Record HeapItem := mkHeapItem { h_prob : F; h_node : nat; h_idx : Z; h_parent : Z }.
(** The children worth a try; [k] bounds their number. *)
Fixpoint push_children (k : nat) (min_token_prob : F) (it : HeapItem) (total : Z) (child : option nat) (heap : list HeapItem)
    : Tree (list HeapItem) :=
  match child, k with
  | None, _ => mret heap
  | _, O => undef "out of fuel"
  | Some c, S k =>
      node c ≫= λ x,
      let prob := f_div (f_mul (h_prob it) (f_of_int (count x))) (f_of_int total) in
      if f_ltb prob min_token_prob then mret heap
      else push_children k min_token_prob it total (next_sibling x) (heap ++ [mkHeapItem prob c 0 (h_parent it)])
  end.
Fixpoint tree_loop (k : nat) (max_spec_tokens : Z) (min_token_prob : F) (heap : list HeapItem) (d : Draft)
    : Tree Draft :=
  match k with
  | O => undef "out of fuel"
  | S k =>
      if (Z.of_nat (length (token_ids d)) <? u64 max_spec_tokens) && bool_decide (heap ≠ []) then
        match heap_top (λ x y, f_ltb (h_prob x) (h_prob y)) heap with
        | None => undef "top of an empty heap"
        | Some i =>
            at_ heap i ≫= λ it,
            let heap := delete i heap in
            node (h_node it) ≫= λ n,
            if h_idx it <? length_ n then
              seq_token (ref_seq n) (ref_idx n + h_idx it) ≫= λ t,
              let d := add_token t (h_parent it) (h_prob it) d in
              tree_loop k max_spec_tokens min_token_prob
                (heap ++ [mkHeapItem (h_prob it) (h_node it) (h_idx it + 1) (Z.of_nat (length (token_ids d)) - 1)]) d
            else
              gets (λ s, size (nodes s)) ≫= λ m,
              push_children (S m) min_token_prob it (count n) (head_child n) heap ≫= λ heap,
              tree_loop k max_spec_tokens min_token_prob heap d
        end
      else mret d
  end.
Definition speculate_tree (k : nat) (a : nat) (idx : Z) (max_spec_tokens : Z) (min_token_prob : F) : Tree Draft :=
  tree_loop k max_spec_tokens min_token_prob [mkHeapItem f_one a idx (-1)] Draft_default.

(** The loop of [speculate] over [match_len]; [k] bounds the rounds of [speculate_tree]. *)
Fixpoint speculate_loop (k : nat) (context : list Z) (lens : list Z) (max_spec_tokens : Z)
    (max_spec_factor max_spec_offset min_token_prob : F) (use_tree_spec : bool) (best : Draft) : Tree Draft :=
  match lens with
  | [] => mret best
  | len :: lens =>
      match_context (drop (length context - Z.to_nat len) context) ≫= λ m,
      match m with
      | None => mret best
      | Some (a, idx) =>
          let max_tokens := Z.max (Z.min max_spec_tokens (spec_limit len max_spec_factor max_spec_offset)) 0 in
          (if use_tree_spec then speculate_tree k a idx max_tokens min_token_prob
           else speculate_path a idx max_tokens min_token_prob) ≫= λ draft,
          speculate_loop k context lens max_spec_tokens max_spec_factor max_spec_offset min_token_prob use_tree_spec
            (if f_leb (score best) (score draft) then set_match_len len draft else best)
      end
  end.
(** [speculate(context, ...)] *)
Definition speculate (k : nat) (context : list Z) (max_spec_tokens : Z)
    (max_spec_factor max_spec_offset min_token_prob : F) (use_tree_spec : bool) : Tree Draft :=
  speculate_loop k context (seqZ 1 (i32 (Z.of_nat (length context)) - 1)) max_spec_tokens max_spec_factor
    max_spec_offset min_token_prob use_tree_spec Draft_default.
End speculate.
