(* ===== verification/SuffixStep.v ===== *)
(** The steps of the loop of [append] ([SuffixTree]), one lemma for each of the cases: the
    program makes of the nodes what [SuffixPaths] says, and their children are in order. *)

From stdpp Require Import base gmap list strings.
From Stdlib Require Import ZArith Lia.
From S2P Require Import Prelude Int32Map SuffixTree SuffixOps SuffixSiblings SuffixGroups SuffixCounts SuffixPaths SuffixStores.
Open Scope Z_scope.

Implicit Types (s : SuffixTree) (a b c : nat) (X Y : list nat) (n : Node) (D : gmap nat Data) (W : Windows) (P : nat → list Z).

(** ** Maps and stores *)

Lemma alter_at {A} (F : A → A) (m : gmap nat A) a d : m !! a = Some d → alter F a m = <[a := F d]> m.
Proof.
  intros Ha. apply map_eq. intros x. rewrite lookup_alter, lookup_insert. destruct (decide (a = x)) as [<-|]; [|done]. by rewrite Ha.
Qed.
Lemma alter_insert_eq {A} (F : A → A) (m : gmap nat A) a d : alter F a (<[a := d]> m) = <[a := F d]> m.
Proof. by rewrite (alter_at _ _ _ _ (lookup_insert_eq _ _ _)), insert_insert_eq. Qed.
Lemma map_size_one {A} (m : gmap Z A) t v : size m = 1%nat → m !! t = Some v → m = {[t := v]}.
Proof.
  intros Hs Ht. rewrite <-(insert_delete_id m t v Ht) in Hs |- *. rewrite map_size_insert_None in Hs by apply lookup_delete_eq.
  injection Hs as Hs. apply map_size_empty_inv in Hs as ->. done.
Qed.
Lemma store_data s a n : nodes s !! a = Some n → store s !! a = Some (data n).
Proof. intros Hn. by rewrite store_lookup, Hn. Qed.
Lemma is_node s D a d : store s = <[a := d]> D → is_Some (nodes s !! a).
Proof. intros E. assert (store s !! a = Some d) as (n & ? & _)%store_node by (rewrite E; apply lookup_insert_eq). eauto. Qed.
Lemma wp_again c f F d D X Y (Q : unit → SuffixTree → Prop) s :
  arranged s X Y → store s = <[c := d]> D → (∀ n, data (f n) = F (data n)) → (∀ n, group (f n) = group n) →
  (c ∈ X ∨ ∀ n, nodes s !! c = Some n → place (f n) = place n) → (c ∈ Y ∨ ∀ n, nodes s !! c = Some n → outer (f n) = outer n) →
  (∀ s', arranged s' X Y → store s' = <[c := F d]> D → rest s' = rest s → Q () s') → wp (upd c f) Q s.
Proof.
  intros Ar E HF Hg HX HY HQ. eapply (wp_change c f F _ _ _ s Ar); try done; [by eapply is_node|].
  intros s' Ar' St' _ _ _ R'. apply HQ; [done| |done]. by rewrite St', E, alter_insert_eq.
Qed.
Lemma frame_rest p s s' : frame p s s' → rest s' = rest s.
Proof. intros F. pose proof (fr_rest _ _ _ F) as (? & ? & ? & _). unfold rest. congruence. Qed.
(** The children of a node, by its map and by their parent *)
Lemma child_of s W P b db x n :
  compact (store s) W P → store s !! b = Some db → nodes s !! x = Some n → parent n = Some b →
  d_children db !! token n = Some (Some x).
Proof.
  intros K Hb Hx Hp. pose proof (store_data _ _ _ Hx) as Hd. destruct (cp_root _ _ _ K) as (dr & Hdr & Hpr & _).
  destruct (cp_edge _ _ _ K x _ Hd) as (b' & db' & u & Hb' & Hdb' & _ & _ & Hc & _).
  { intros ->. rewrite Hd in Hdr. injection Hdr as <-. simpl in Hpr. congruence. }
  simpl in *. congruence.
Qed.
Lemma child_node s W P b db t c :
  compact (store s) W P → store s !! b = Some db → d_children db !! t = Some (Some c) →
  ∃ n, nodes s !! c = Some n ∧ parent n = Some b ∧ token n = t.
Proof.
  intros K Hb Hc. destruct (cp_child _ _ _ K b db t _ Hb Hc) as (c' & dc & [= <-] & Hdc & Hp & Ht).
  apply store_node in Hdc as (n & Hn & <-). eauto.
Qed.
Lemma fresh_none s : addressed s → nodes s !! fresh s = None.
Proof. intros A. apply eq_None_not_Some. intros H. pose proof (ad_nodes _ A _ H). lia. Qed.
Lemma last_runs s p rs : members rs ≠ [] → grouped s p rs → ∃ R1 g k ns o, rs = R1 ++ [mkRun g k (ns ++ [o])].
Proof.
  intros Hne G. destruct rs as [|[g k l] R1 _] using rev_ind; [done|].
  destruct (gr_head _ _ _ G (mkRun g k l)) as [Hl _]; [set_solver|]. simpl in Hl.
  destruct l as [|o ns _] using rev_ind; [done|]. eauto 10.
Qed.
Lemma members_swap s p R1 g k ns1 o ns2 R2 a x :
  chain s p (members (R1 ++ mkRun g k (ns1 ++ o :: ns2) :: R2)) →
  x ∈ members (R1 ++ mkRun g k (ns1 ++ a :: ns2) :: R2) ↔ x = a ∨ x ≠ o ∧ x ∈ members (R1 ++ mkRun g k (ns1 ++ o :: ns2) :: R2).
Proof.
  intros C. pose proof (run_without _ _ _ _ _ k _ _ _ _ C) as Ho.
  assert (H : ∀ y, x ∈ members (R1 ++ mkRun g k (ns1 ++ y :: ns2) :: R2) ↔ x = y ∨ x ∈ members (R1 ++ mkRun g k (ns1 ++ ns2) :: R2)).
  { intros y. by rewrite !members_mid, <-!app_assoc, !app_assoc, <-(app_assoc (members R1 ++ ns1)), <-!app_comm_cons, elem_of_mid, <-!app_assoc. }
  rewrite !H. naive_solver.
Qed.
Lemma not_in_one {A} (x y : A) : x ≠ y → x ∉ [y].
Proof. by rewrite list_elem_of_singleton. Qed.
Definition bare s c : Prop := ∃ n, nodes s !! c = Some n ∧ next_sibling n = None ∧ prev_sibling n = None ∧ group n = None.
Lemma bare_kept s s' c :
  (∀ x n', nodes s' !! x = Some n' → ∃ n, nodes s !! x = Some n ∧ shape n' = shape n) → is_Some (nodes s' !! c) → bare s c → bare s' c.
Proof.
  intros Sh [n' Hn'] (n & Hn & Hb). destruct (Sh c n' Hn') as (n0 & Hn0 & E). exists n'. unfold shape, place in E.
  split_and!; [done|destruct Hb as (?&?&?); congruence..].
Qed.
Lemma parent_in s W P x n b : compact (store s) W P → nodes s !! x = Some n → parent n = Some b → is_Some (nodes s !! b).
Proof.
  intros K Hx Hpx. destruct (cp_root _ _ _ K) as (dr & Hdr & Hpr & _). pose proof (store_data _ _ _ Hx) as Hd.
  destruct (cp_edge _ _ _ K x _ Hd) as (b' & db & _ & Hb & Hdb & _).
  { intros ->. rewrite Hd in Hdr. injection Hdr as <-. simpl in Hpr. congruence. }
  simpl in Hb. rewrite Hpx in Hb. injection Hb as <-. apply store_node in Hdb as (nb & Hnb & _). eauto.
Qed.
(** [new Node(...)], a child that is in no list yet *)
Lemma new_node_spec s n p X Y W P :
  arranged s X Y → compact (store s) W P → parent n = Some p → is_Some (nodes s !! p) →
  head_child n = None → tail_child n = None → group n = None →
  wp (new_node n) (λ c s', c = fresh s ∧ arranged s' (c :: X) Y ∧ store s' = <[c := data n]> (store s) ∧ rest s' = rest s ∧
    nodes s' = <[c := n]> (nodes s)) s.
Proof.
  intros Ar K Hp Hpn Hh Ht Hg. unfold new_node. wp_steps. simpl. split_and!; try done.
  - eapply (arranged_new s _ n); try done; [|].
    + intros x n' Hx Hpx. pose proof (ad_nodes _ (ar_addr _ _ _ Ar) _ (parent_in _ _ _ _ _ _ K Hx Hpx)). lia.
    + rewrite Hp. intros [= E]. rewrite E in Hpn. pose proof (ad_nodes _ (ar_addr _ _ _ Ar) _ Hpn). lia.
  - apply map_eq. intros x. rewrite store_lookup. simpl. rewrite !lookup_insert. destruct (decide (fresh s = x)); [done|].
    by rewrite store_lookup.
Qed.

(** [increment_count] below the root, when all lists are in order *)
Lemma elem_of_moved c l l' x : moved c l l' → x ∈ l ↔ x ∈ l'.
Proof.
  intros (l1 & l2 & l1' & l2' & -> & -> & E). rewrite !elem_of_mid. by rewrite E.
Qed.
Lemma increment_arranged s c n p :
  arranged s [] [] → nodes s !! c = Some n → parent n = Some p → is_Some (nodes s !! p) →
  wp (increment_count c) (λ _ s', arranged s' [] [] ∧ store s' = alter (λ x, with_count (d_count x + 1) x) c (store s) ∧ rest s' = rest s) s.
Proof.
  intros Ar Hn Hp Hpn. destruct (ar_sib _ _ _ Ar p Hpn ltac:(apply not_elem_of_nil)) as (rs & S & Hrs).
  assert (Hc : c ∈ members rs) by (apply Hrs; split; [apply not_elem_of_nil|eauto]).
  eapply wp_mono; [by eapply (increment_count_spec s p rs c S (ar_addr _ _ _ Ar))|].
  intros [] s' (Rc & rs' & S' & Mv). split_and!.
  - eapply (frame_arranged p s s' _ _ [] [] rs' Ar (proj1 Rc)); [apply Rc, Ar|exact S'| |done|].
    + intros x. by rewrite <-(elem_of_moved _ _ _ _ Mv), Hrs.
    + intros b _ _. apply not_elem_of_nil.
  - by eapply store_recounted.
  - by eapply frame_rest, Rc.
Qed.
(** [delete] of a node in no list, whose children were released *)
Lemma delete_node_spec s a n :
  arranged s [a] [a] → nodes s !! a = Some n → group n = None → (∀ t o, children n !! t = Some o → o = None) →
  wp (delete_node a) (λ _ s', arranged s' [] [] ∧ store s' = delete a (store s) ∧ rest s' = rest s) s.
Proof.
  intros Ar Hn Hg Hch. unfold delete_node. wp_steps. destruct (size (nodes s)) as [|k] eqn:Hsz.
  { apply map_size_empty_inv in Hsz. by rewrite Hsz in Hn. }
  simpl. tree_steps. rewrite Hg. simpl. wp_steps.
  eapply wp_mono; [eapply (wp_for_each _ _ (λ l s', (∀ o, o ∈ l → o = None) ∧ s' = set_nodes (delete a (nodes s)) s))|].
  - split; [|done]. intros o ([t o'] & -> & Ho%elem_of_map_to_list)%list_elem_of_fmap. by eapply Hch.
  - intros o l s' [Ho ->]. rewrite (Ho o) by left. apply wp_ret. split; [|done]. intros o' Ho'. apply Ho. by right.
  - intros [] s' [_ ->]. split_and!; [|by unfold store; rewrite <-fmap_delete|done].
    by eapply (arranged_delete s _ a n [a] [a] [] []); try done; set_solver.
Qed.
(** A step that ends with the nodes [D] and all children in their lists *)
Definition arrives s D s' : Prop := arranged s' [] [] ∧ store s' = D ∧ rest s' = rest s.

Section step.
Context (s : SuffixTree) (W : Windows) (P : nat → list Z) (K : compact (store s) W P) (Ar : arranged s [] []).
Context (i : Z) (st : nat) (p : list Z) (t : Z) (a : nat) (na : Node).
Context (Hwin : W !! (i, st) = Some p) (Hna : nodes s !! a = Some na) (HPa : P a = p).
Context (Huniq : ∀ st', W !! (i, st') = Some p → st' = st) (Hi : valid i) (Ht : valid t).
Abbreviation da := (data na).
Abbreviation len := (Z.of_nat (st + length p) + 1).
Let Ha : store s !! a = Some da := store_data _ _ _ Hna.

Lemma end_at_a : endpoints na !! i = Some (len - 1).
Proof. rewrite (step_end_at_a _ _ _ K i st p a da Hwin Ha HPa Huniq : endpoints na !! i = _). f_equal. lia. Qed.

(** Case 1a *)
Lemma grow_leaf_wp :
  wp (upd a (λ n, set_length (length_ n + 1) n) ≫= λ _, incr_endpoint a i)
    (λ _ s', arrives s (grow_leaf (store s) i st p a da) s') s.
Proof.
  eapply wp_seq; [eapply (wp_change' [] [] s Ar a _ (λ d, with_length (d_length d + 1) d)); [eauto|done|done]|].
  intros [] s1 (Ar1 & St1 & R1 & _).
  assert (H1 : store s1 !! a = Some (with_length (d_length da + 1) da)) by by rewrite St1, lookup_alter_eq, Ha.
  pose proof H1 as (n1 & Hn1 & _)%store_node.
  eapply wp_mono; [eapply (incr_endpoint_spec [] [] s1 Ar1); [done|eauto]|]. intros [] s2 (Ar2 & St2 & R2 & _).
  split_and!; [done| |congruence]. rewrite St2, (alter_at _ _ _ _ H1), St1, (alter_at _ _ _ _ Ha), insert_insert_eq.
  unfold grow_leaf. f_equal. unfold with_ends, with_length. simpl. rewrite end_at_a. simpl. do 3 f_equal. lia.
Qed.

(** Case 1b *)
Lemma new_child_wp :
  children na !! t = None → count na ≠ 1 ∨ a = root →
  wp (append_new_child i t len a) (λ c s', nodes s !! c = None ∧ arrives s (add_leaf (store s) i st p t a da c) s') s.
Proof.
  intros Hnone Hmany. unfold append_new_child.
  eapply wp_seq; [eapply (new_node_spec s _ a [] [] W P); done || eauto|].
  intros c s1 (-> & Ar1 & St1 & R1 & N1). pose proof (fresh_none s (ar_addr _ _ _ Ar)) as Hcn.
  set (c := fresh s) in *. clearbody c. assert (Hca : c ≠ a) by congruence.
  eapply wp_seq; [eapply (set_endpoint_spec _ _ s1 Ar1); [done|rewrite N1, lookup_insert_eq; eauto]|].
  intros [] s2 (Ar2 & St2 & R2 & _ & _ & Sh2).
  assert (H2 : store s2 !! a = Some da) by by rewrite St2, lookup_alter_ne, St1, lookup_insert_ne.
  eapply wp_seq; [by eapply (emplace_child_spec _ _ s2 Ar2)|]. intros [] s3 (Ar3 & St3 & R3 & _ & _ & Sh3).
  assert (H3 : store s3 !! a = Some (with_children (<[t := Some c]> (children na)) da)) by by rewrite St3, lookup_alter_eq, H2.
  pose proof H3 as (n3 & Hn3 & Hd3)%store_node.
  eapply wp_seq; [eapply (erase_endpoint_spec _ _ s3 Ar3); [done|by eauto]|]. intros [] s4 (Ar4 & St4 & R4 & _ & _ & Sh4).
  assert (E4 : store s4 = add_leaf (store s) i st p t a da c).
  { rewrite St4, (alter_at _ _ _ _ H3), St3, (alter_at _ _ _ _ H2), insert_insert_eq, St2, St1.
    rewrite alter_insert_eq. unfold add_leaf. rewrite (insert_insert_ne _ c a) by done. f_equal. }
  pose proof (add_leaf_compact (store s) W P K i st p t a da Hwin Ha HPa Huniq c) as K4.
  rewrite store_lookup, Hcn in K4. specialize (K4 eq_refl Hnone Hmany). rewrite <-E4 in K4.
  assert (H4 : store s4 !! a = Some (with_ends (delete i (endpoints na)) (with_children (<[t := Some c]> (children na)) da))).
  { by rewrite St4, lookup_alter_eq, H3. }
  pose proof H4 as (n4 & Hn4 & Hd4)%store_node. tree_steps.
  assert (Hch4 : children n4 = <[t := Some c]> (children na)) by exact (f_equal d_children Hd4).
  assert (∃ nc, nodes s4 !! c = Some nc ∧ parent nc = Some a ∧ count nc = 1 ∧ shape nc = shape (set_parent (Some a) (Node_new 1 t 1 i (len - 1)))) as (nc & Hnc & Hpc & Hcc & Hsc).
  { destruct (child_node s4 _ _ _ _ t c K4 H4) as (nc & Hnc & Hpc & _); [simpl; by rewrite lookup_insert_eq|].
    destruct (Sh4 c nc Hnc) as (x3 & Hx3 & E3). destruct (Sh3 c x3 Hx3) as (x2 & Hx2 & E2). destruct (Sh2 c x2 Hx2) as (x1 & Hx1 & E1).
    rewrite N1, lookup_insert_eq in Hx1. injection Hx1 as <-. exists nc. unfold shape, place in *. simpl in *. split_and!; congruence. }
  case_bool_decide as Hsz.
  - rewrite Hch4 in Hsz. apply (map_size_one _ t (Some c)) in Hsz; [|apply lookup_insert_eq].
    assert (Hkids : ∀ x n, nodes s4 !! x = Some n → parent n = Some a → x = c).
    { intros x n Hx Hp. pose proof (child_of s4 _ _ a _ x n K4 H4 Hx Hp) as E. simpl in E. rewrite Hsz in E.
      by apply lookup_singleton_Some in E as [_ [= ->]]. }
    destruct (ar_sib _ _ _ Ar4 a ltac:(eauto) ltac:(set_solver)) as (rs & [C4 G4] & Hrs).
    assert (Hnil : members rs = []).
    { destruct (members rs) as [|x l] eqn:E; [done|]. destruct (proj1 (Hrs x)) as (Hx & n & Hn & Hp); [left|].
      destruct Hx. rewrite (Hkids x n Hn Hp). left. }
    rewrite Hnil in C4. destruct (ch_parent _ _ _ C4) as (n4' & Hn4' & Hh4 & Ht4). rewrite Hn4 in Hn4'. injection Hn4' as <-. simpl in Hh4, Ht4.
    wp_steps. apply wp_check; [by rewrite bool_decide_true|]. wp_steps.
    pose proof (arranged_weaken s4 _ _ c a nc Ar4 Hnc Hpc) as Ar4'.
    eapply (wp_change a _ (λ d, d) _ _ _ s4 Ar4'); [eauto|done|done|by right|left; left|]. intros s5 Ar5 St5 N5 G5 F5 R5.
    assert (Hnc5 : nodes s5 !! c = Some nc) by by rewrite N5, lookup_alter_ne.
    assert (Hn5 : nodes s5 !! a = Some (set_tail_child (Some c) (set_head_child (Some c) n4))) by by rewrite N5, lookup_alter_eq, Hn4.
    unfold shape, place in Hsc. simpl in Hsc.
    eapply wp_mono; [eapply (first_child_spec s5 a c nc _ (ar_addr _ _ _ Ar5) Hnc5 Hpc Hca Hn5); (done || congruence)|].
    intros [] s6 (Cm6 & g & S6). wp_steps. split; [done|]. split_and!.
    + eapply (frame_arranged a s5 s6 _ _ [] [] _ Ar5); [apply Cm6|apply Cm6, Ar5|exact S6| | |].
      * intros x. rewrite members_one, list_elem_of_singleton. split.
        -- intros ->. split; [set_solver|eauto].
        -- intros (_ & n & Hn & Hp). rewrite N5, lookup_alter in Hn. destruct (decide (a = x)) as [<-|]; [|by eapply Hkids].
           rewrite Hn4 in Hn. injection Hn as <-. by eapply (Hkids a n4).
      * intros x n Hn Hp. rewrite !elem_of_cons, elem_of_nil. split; [done|]. intros [->|[->|[]]]; congruence.
      * intros b Hb _. set_solver.
    + rewrite (store_calm _ _ _ Cm6), St5, <-E4. apply map_eq. intros x. rewrite lookup_alter. by destruct (decide (a = x)) as [<-|]; [destruct (store s4 !! a)|].
    + rewrite (frame_rest _ _ _ (proj1 Cm6)). congruence.
  - destruct (ar_sib _ _ _ Ar4 a ltac:(eauto) ltac:(set_solver)) as (rs & S4 & Hrs). pose proof S4 as [C4 G4].
    assert (∃ R1 g k ns o, rs = R1 ++ [mkRun g k (ns ++ [o])]) as (RR & g & k & ns & o & ->).
    { apply last_runs with (2 := G4). intros Hnil. apply Hsz. rewrite Hch4.
      enough (children na = ∅) as -> by (by rewrite insert_empty, map_size_singleton).
      apply map_eq. intros y. rewrite lookup_empty. destruct (children na !! y) as [oc|] eqn:Hy; [|done]. exfalso.
      destruct (cp_child _ _ _ K a da y oc Ha Hy) as (x & dx & -> & _).
      assert (y ≠ t) as Hyt by congruence.
      destruct (child_node s4 _ _ _ _ y x K4 H4) as (nx & Hnx & Hpx & Htx); [simpl; by rewrite lookup_insert_ne|].
      assert (x ∈ members rs) as Hx; [|rewrite Hnil in Hx; by apply elem_of_nil in Hx].
      apply Hrs. split; [|eauto]. intros ->%list_elem_of_singleton. rewrite Hnc in Hnx. injection Hnx as <-.
      pose proof (child_of s4 _ _ a _ c nc K4 H4 Hnc Hpc) as E. simpl in E. rewrite Htx, lookup_insert_ne in E by done.
      pose proof (cp_child _ _ _ K a da y _ Ha E) as (c' & dc & [= <-] & Hdc & _). rewrite store_lookup, Hcn in Hdc. done. }
    destruct (ch_parent _ _ _ C4) as (n4' & Hn4' & _ & Ht4). rewrite Hn4 in Hn4'. injection Hn4' as <-.
    rewrite members_app, members_one, app_assoc, last_snoc in Ht4. rewrite Ht4. tree_steps.
    assert (Hk : 1 ≤ k).
    { pose proof (grouped_at _ _ _ _ _ _ _ o G4 ltac:(set_solver)) as (no & Ho & Hoc & _ & Hop)%view_node.
      pose proof (store_data _ _ _ Ho) as Hdo. destruct (cp_live _ _ _ K4 o _ Hdo) as [Hpos _].
      - intros ->. destruct (cp_root _ _ _ K4) as (dr & Hdr & Hpr & _). rewrite Hdo in Hdr. injection Hdr as <-. simpl in Hpr. congruence.
      - pose proof (cp_count _ _ _ K4 o _ Hdo) as E. simpl in E. lia. }
    unfold shape, place in Hsc. simpl in Hsc.
    eapply wp_mono; [eapply (insert_after_spec s4 a RR g k ns o c nc S4); [|done| |apply Ar4|done|lia]|].
    + intros Hin. apply Hrs in Hin as [Hin _]. apply Hin. left.
    + exists nc. split_and!; [done|done|]. intros g'. assert (group nc = None) as -> by congruence. done.
    + intros [] s5 (Cm5 & rs' & S5 & Hrs'). wp_steps. split; [done|]. split_and!.
      * eapply (frame_arranged a s4 s5 _ _ [] [] _ Ar4); [apply Cm5|apply Cm5, Ar4|exact S5| | |].
        -- intros x. rewrite Hrs', app_assoc, elem_of_app, list_elem_of_singleton.
           pose proof (Hrs x) as Hx. rewrite members_app, members_one in Hx. rewrite Hx, list_elem_of_singleton. split.
           ++ intros [[_ ?]| ->]; (split; [apply not_elem_of_nil|eauto]).
           ++ intros [_ ?]. destruct (decide (x = c)); auto.
        -- intros x n Hn Hp. rewrite elem_of_nil, list_elem_of_singleton. split; [done|]. intros ->. congruence.
        -- intros b Hb _. apply not_elem_of_nil.
      * by rewrite (store_calm _ _ _ Cm5), E4.
      * rewrite (frame_rest _ _ _ (proj1 Cm5)). congruence.
Qed.

Section child.
Context (c : nat) (nc : Node) (Hchild : children na !! t = Some (Some c)) (Hnc : nodes s !! c = Some nc).
Abbreviation dc := (data nc).
Let Hc : store s !! c = Some dc := store_data _ _ _ Hnc.
Lemma child_parent : c ≠ root ∧ c ≠ a ∧ parent nc = Some a ∧ token nc = t.
Proof.
  by destruct (child_facts (store s) W P K st p t a da Ha HPa c dc Hchild Hc) as (u & Hcr & Hca & Hpc & Htc & _).
Qed.

(** Case 3a *)
Lemma enter_wp :
  wp (erase_endpoint a i ≫= λ _, set_endpoint c i len ≫= λ _, increment_count c)
    (λ _ s', arrives s (enter (store s) i st p a da c dc) s') s.
Proof.
  destruct child_parent as (Hcr & Hca & Hpc & Htc).
  eapply wp_seq; [eapply (erase_endpoint_spec _ _ s Ar); [done|by eauto]|]. intros [] s1 (Ar1 & St1 & R1 & _).
  assert (H1 : store s1 !! c = Some dc) by by rewrite St1, lookup_alter_ne. pose proof H1 as (n1 & Hn1 & _)%store_node.
  eapply wp_seq; [eapply (set_endpoint_spec _ _ s1 Ar1); [done|by eauto]|]. intros [] s2 (Ar2 & St2 & R2 & _).
  assert (H2 : store s2 !! c = Some (with_ends (<[i := len]> (endpoints nc)) dc)) by by rewrite St2, lookup_alter_eq, H1.
  pose proof H2 as (n2 & Hn2 & Hd2)%store_node.
  assert (is_Some (nodes s2 !! a)) as Ha2.
  { assert (is_Some (store s2 !! a)) as [d (n & ? & _)%store_node]; [|eauto]. rewrite St2, lookup_alter_ne, St1, lookup_alter_eq, Ha by done. eauto. }
  eapply wp_mono; [eapply (increment_arranged s2 c n2 a Ar2 Hn2); [|done]|].
  { rewrite <-Hpc. exact (f_equal d_parent Hd2). }
  intros [] s3 (Ar3 & St3 & R3). split_and!; [done| |congruence].
  rewrite St3, (alter_at _ _ _ _ H2), St2, (alter_at _ _ _ _ H1), insert_insert_eq, St1, (alter_at _ _ _ _ Ha). f_equal.
Qed.

(** The node has no other child when all its windows go on to this one, but one. *)
Lemma only_one : count na = count nc + 1 → children na = {[t := Some c]} ∧ endpoints na = {[i := len - 1]}.
Proof.
  intros Hall. destruct (child_facts (store s) W P K st p t a da Ha HPa c dc Hchild Hc) as (u & _ & _ & _ & _ & _ & _ & _ & Hcc).
  pose proof (cp_count _ _ _ K a da Ha) as Hca. rewrite HPa in Hca. simpl in Hcc, Hca.
  assert (Hle : cnt W p ≤ cnt W (p ++ [t]) + 1) by lia. split; apply map_eq; intros y; rewrite lookup_singleton.
  - destruct (decide (t = y)) as [<-|Hy]; [done|]. destruct (children na !! y) as [oc|] eqn:E; [|done]. exfalso.
    destruct (cp_child _ _ _ K a da y oc Ha E) as (x & dx & -> & _). apply Hy. symmetry.
    exact (other_child (store s) W P K i st p t a da Hwin Ha HPa Huniq y x Hle E).
  - destruct (decide (i = y)) as [<-|Hy]; [apply end_at_a|]. destruct (endpoints na !! y) as [e|] eqn:E; [|done]. exfalso.
    apply Hy. symmetry. exact (other_end (store s) W P K i st p t a da Hwin Ha HPa y e Hle E).
Qed.

(** Case 2a, for a parent [b] *)
Lemma fuse_wp b nb :
  (∀ k w x, W !! k = Some w → x ∈ w → valid x) →
  a ≠ root → parent na = Some b → nodes s !! b = Some nb → length_ nc = 1 → count na = count nc + 1 →
  wp (append_fuse i t len a c) (λ x s', x = c ∧ arrives s (fuse (store s) i st p a da c dc b (data nb)) s') s.
Proof.
  intros Hval Har Hpb Hnb Hlen Hall. pose proof (store_data _ _ _ Hnb) as Hb. destruct child_parent as (Hcr & Hca & Hpc & Htc).
  destruct (only_one Hall) as [Hch _].
  destruct (fuse_facts (store s) W P K st p t a da Ha HPa c dc Hchild Hc b (data nb) Har Hpb Hb Hlen Hall) as (_ & Hba & Hbc & u & HPb & _ & Hab & _).
  simpl in HPb, Hab.
  unfold append_fuse. apply wp_bind. eapply wp_node; [done|].
  pose proof (arranged_weaken s [] [] c a nc Ar Hnc Hpc) as Ar0.
  apply wp_bind. eapply (wp_change c _ (λ d, with_token (token na) (with_count (d_count d + 1) d)) _ _ _ s Ar0); [by eauto|done|done|left; left|by right|].
  intros s1 Ar1 St1 _ _ _ R1. assert (H1 := St1). rewrite (alter_at _ _ _ _ Hc) in H1. clear St1.
  apply wp_bind. eapply (wp_again c _ (with_length (length_ na + 1)) _ _ _ _ _ s1 Ar1 H1); [done|done|left; left|by right|]. intros s2 Ar2 H2 R2.
  apply wp_bind. eapply (wp_again c _ (λ d, with_ref i (len - d_length d) d) _ _ _ _ _ s2 Ar2 H2); [done|done|left; left|by right|]. intros s3 Ar3 H3 R3.
  eapply wp_seq; [eapply (set_endpoint_spec _ _ s3 Ar3); [done|by eapply is_node]|]. intros [] s4 (Ar4 & H4 & R4 & _).
  rewrite H3, alter_insert_eq in H4.
  apply wp_bind. eapply (wp_again c _ (with_parent (parent na)) _ _ _ _ _ s4 Ar4 H4); [done|done|left; left|by right|]. intros s5 Ar5 H5 R5.
  set (dc' := mkData (count nc + 1) (token na) (length_ na + 1) i (len - (length_ na + 1)) (<[i := len]> (endpoints nc)) (parent na) (children nc)).
  assert (E5 : store s5 = <[c := dc']> (store s)) by exact H5. clear H1 H2 H3 H4 H5.
  assert (Hsa : store s5 !! a = Some da) by by rewrite E5, lookup_insert_ne.
  assert (Hsb : store s5 !! b = Some (data nb)) by by rewrite E5, lookup_insert_ne.
  assert (Hsc : store s5 !! c = Some dc') by by rewrite E5, lookup_insert_eq.
  pose proof Hsa as (a5 & Ha5 & Hda5)%store_node. pose proof Hsb as (b5 & Hb5 & _)%store_node. pose proof Hsc as (c5 & Hc5 & Hdc5)%store_node.
  destruct (ar_sib _ _ _ Ar5 b) as (rs & S5 & Hrs); [by eauto|by apply not_in_one|].
  assert (Hin : a ∈ members rs).
  { apply Hrs. split; [by apply not_in_one|]. exists a5. split; [done|]. rewrite <-Hpb. exact (f_equal d_parent Hda5). }
  assert (Hnin : c ∉ members rs) by (rewrite Hrs; intros [H _]; apply H; left).
  pose proof (λ r, siblings_group _ _ _ c c5 r S5 Hc5 Hnin) as Hgr.
  destruct (run_of _ _ Hin) as (R1' & g & k & ns1 & ns2 & R2' & ->). pose proof S5 as [C5 G5].
  pose proof (grouped_at _ _ _ _ _ _ _ a G5 (in_mid _ _ _)) as (a5' & Ha5' & Hk & _)%view_node. rewrite Ha5 in Ha5'. injection Ha5' as <-.
  pose proof (f_equal d_count Hda5) as Hcnta. pose proof (f_equal d_count Hdc5) as Hcntc. pose proof (f_equal d_parent Hdc5) as Hparc. simpl in Hcnta, Hcntc, Hparc.
  eapply wp_seq; [eapply (replace_spec s5 b R1' g k ns1 a ns2 R2' c c5 S5 Hnin); [done|done|congruence|lia|exact Hgr]|].
  intros [] s6 (Cm6 & S6 & a6 & Ha6 & Hga6 & _).
  assert (E6 : store s6 = store s5) by by eapply store_calm.
  assert (Ar6 : arranged s6 [a] [a]).
  { eapply (frame_arranged b s5 s6 _ _ _ _ _ Ar5); [apply Cm6|apply Cm6, Ar5|exact S6| | |done].
    - intros x. rewrite (members_swap _ _ _ _ _ _ a _ _ c x C5), Hrs, !list_elem_of_singleton. split.
      + intros [->|(? & _ & ?)]; [|done]. split; [done|]. exists c5. split; congruence.
      + intros (Hxa & ?). destruct (decide (x = c)); auto.
    - intros x n Hx Hp. rewrite !list_elem_of_singleton. split; intros ->; exfalso; apply Hp; [|congruence].
      rewrite Ha5 in Hx. injection Hx as <-. rewrite <-Hpb. exact (f_equal d_parent Hda5). }
  rewrite Hpb. tree_steps.
  assert (Hs6b : store s6 !! b = Some (data nb)) by congruence. pose proof Hs6b as (b6 & Hb6 & Hdb6)%store_node. tree_steps.
  pose proof (f_equal d_children Hdb6) as Hchb. simpl in Hchb. apply wp_check; [by rewrite Hchb, Hab, bool_decide_true|].
  apply wp_bind. eapply wp_mono; [eapply (release_child_spec _ _ s6 Ar6 a t da); [done|congruence]|].
  intros o s7 (-> & Ar7 & St7 & R7 & _ & _ & Sh7). simpl. rewrite Hchild. simpl.
  assert (Hs7c : store s7 !! c = Some dc') by (by rewrite St7, lookup_alter_ne, E6). pose proof Hs7c as (c7 & Hc7 & Hdc7)%store_node.
  assert (Hs7b : store s7 !! b = Some (data nb)) by (by rewrite St7, lookup_alter_ne). pose proof Hs7b as (b7 & Hb7 & Hdb7)%store_node.
  pose proof (f_equal d_token Hdc7) as Htok. simpl in Htok. tree_steps. rewrite Htok. unfold reset_child.
  apply wp_bind, wp_key.
  { destruct (cp_live _ _ _ K a da Ha Har) as [(k0 & w & Hw & Hpw)%windows_pos _]. apply (Hval k0 w); [done|]. destruct Hpw as [v ->]. rewrite HPa, HPb. set_solver. }
  tree_steps. pose proof (f_equal d_children Hdb7) as Hchb7. simpl in Hchb7.
  eapply wp_mono; [eapply (wp_change' _ _ s7 Ar7 b _ (with_children (<[token na := Some c]> (children b7)))); [eauto|done|done]|].
  intros [] s8 (Ar8 & St8 & R8 & _ & _ & Sh8). rewrite Hchb7, Hab. simpl.
  assert (Hs8a : store s8 !! a = Some (with_children (<[t := None]> (children na)) da)).
  { rewrite St8, lookup_alter_ne, St7, lookup_alter_eq by done. rewrite E6, Hsa. done. }
  pose proof Hs8a as (a8 & Ha8 & Hda8)%store_node.
  destruct (Sh8 a a8 Ha8) as (a7 & Ha7 & Hsh8). destruct (Sh7 a a7 Ha7) as (a6' & Ha6' & Hsh7). rewrite Ha6 in Ha6'. injection Ha6' as <-.
  unfold shape, place in Hsh7, Hsh8.
  eapply wp_mono; [eapply (delete_node_spec s8 a a8 Ar8 Ha8); [congruence|]|].
  - intros y o. rewrite (f_equal d_children Hda8 : children a8 = _). simpl. rewrite Hch. rewrite insert_singleton_eq. by intros [_ <-]%lookup_singleton_Some.
  - intros [] s9 (Ar9 & St9 & R9). wp_steps. split; [done|]. split_and!; [done| |rewrite R9, R8, R7, (frame_rest _ _ _ (proj1 Cm6)); congruence].
    rewrite St9, St8, (alter_at _ _ _ _ Hs7b), St7, E6, (alter_at _ _ _ _ Hsa), E5.
    unfold fuse. rewrite delete_insert_ne by done. rewrite delete_insert_eq, delete_insert_ne by done.
    unfold with_children, dc'. rewrite Hchb7, Hpb. done.
Qed.

(** The child has another token. *)
Section longer.
Context (t2 : Z) (u2 : list Z) (HP2 : P c = p ++ t :: t2 :: u2).
Context (Hseqs : ∀ j st' w, W !! (j, st') = Some w → valid j ∧ ∃ l : list Z, seqs_ s !! j = Some l ∧ w `prefix_of` drop st' l).
Context (Hval : ∀ k w x, W !! k = Some w → x ∈ w → valid x).
Lemma second_valid : valid t2.
Proof.
  destruct child_parent as (Hcr & _). destruct (cp_live _ _ _ K c dc Hc Hcr) as [(k & w & Hw & [v ->])%windows_pos _].
  apply (Hval k _ t2 Hw). rewrite HP2. set_solver.
Qed.
Lemma second_token s' (Q : Z → SuffixTree → Prop) : rest s' = rest s → Q t2 s' → wp (seq_token (ref_seq nc) (ref_idx nc + 1)) Q s'.
Proof.
  intros R HQ. destruct child_parent as (Hcr & _).
  destruct (longer_facts (store s) W P K i st p t a da Hwin Ha HPa Huniq c dc Hchild Hc t2 u2 HP2) as (_ & _ & _ & _ & Hlen & _).
  destruct (cp_ref _ _ _ K c dc Hc Hcr) as (st' & w & Hw & [v Hv] & Hidx). simpl in Hlen, Hw, Hidx.
  destruct (Hseqs _ _ _ Hw) as (Hj & l & Hl & [v' Hv']).
  assert (Hlp : length (P c) = (length p + 2 + length u2)%nat) by (rewrite HP2, length_app; simpl; lia).
  assert (Z.to_nat (ref_idx nc + 1) = (st' + (length p + 1))%nat) as Hn by lia.
  unfold rest in R. eapply (wp_seq_token _ l); [done|by replace (seqs_ s') with (seqs_ s) by congruence|lia| |done].
  rewrite Hn, <-lookup_drop, Hv', Hv, HP2. rewrite <-!app_assoc, lookup_app_r by lia.
  by replace (length p + 1 - length p)%nat with 1%nat by lia.
Qed.

(** Case 2b *)
Lemma shift_wp :
  a ≠ root → count na = count nc + 1 →
  wp (append_shift i t len a c) (λ x s', x = a ∧ arrives s (shift (store s) i st p a da c dc t2) s') s.
Proof.
  intros Har Hall. destruct child_parent as (Hcr & Hca & Hpc & Htc). destruct (only_one Hall) as [Hch Hends]. pose proof second_valid as Ht2.
  unfold append_shift. apply wp_bind. pose proof (insert_id (store s) a da Ha) as H0. symmetry in H0.
  eapply (wp_again a _ (λ d, with_length (d_length d + 1) d) _ _ _ _ _ s Ar H0); [done|done|by right|by right|]. intros s1 Ar1 H1 R1.
  eapply wp_seq; [eapply (incr_endpoint_spec _ _ s1 Ar1); [done|by eapply is_node]|]. intros [] s2 (Ar2 & H2 & R2 & _).
  rewrite H1, alter_insert_eq in H2. apply wp_bind.
  eapply (wp_again a _ (λ d, with_ref i (len - d_length d) d) _ _ _ _ _ s2 Ar2 H2); [done|done|by right|by right|]. intros s3 Ar3 H3 R3.
  set (da' := mkData (count na) (token na) (length_ na + 1) i (len - (length_ na + 1)) (<[i := len]> (endpoints na)) (parent na) (children na)).
  assert (E3 : store s3 = <[a := da']> (store s)).
  { rewrite H3. f_equal. unfold da', with_ref, with_ends, with_length. simpl. rewrite end_at_a. simpl. repeat f_equal. lia. }
  clear H0 H1 H2 H3. assert (H3 : store s3 = <[c := dc]> (store s3)) by (symmetry; apply insert_id; by rewrite E3, lookup_insert_ne).
  apply wp_bind. eapply (wp_again c _ (λ d, with_ref (d_seq d) (d_idx d + 1) (with_length (d_length d - 1) d)) _ _ _ _ _ s3 Ar3 H3); [done|done|by right|by right|].
  intros s4 Ar4 H4 R4. assert (Hs4c := f_equal (lookup c) H4). rewrite lookup_insert_eq in Hs4c. apply store_node in Hs4c as (c4 & Hc4 & Hdc4).
  tree_steps. rewrite (f_equal d_seq Hdc4 : ref_seq c4 = ref_seq nc), (f_equal d_idx Hdc4 : ref_idx c4 = ref_idx nc + 1).
  apply second_token; [congruence|].
  apply wp_bind. eapply (wp_again c _ (with_token t2) _ _ _ _ _ s4 Ar4 H4); [done|done|by right|by right|]. intros s5 Ar5 H5 R5.
  set (dc' := mkData (count nc) t2 (length_ nc - 1) (ref_seq nc) (ref_idx nc + 1) (endpoints nc) (parent nc) (children nc)).
  assert (E5 : store s5 = <[c := dc']> (<[a := da']> (store s))) by (rewrite H5, E3; done). clear H3 H4 H5.
  assert (Hs5a : store s5 !! a = Some da') by by rewrite E5, lookup_insert_ne, lookup_insert_eq.
  destruct (Z.eqb_spec t2 t) as [->|Hne].
  - wp_steps. split; [done|]. split_and!; [done| |congruence]. rewrite E5. unfold shift. unfold da'. simpl. rewrite Hch. done.
  - apply wp_bind, wp_bind; eapply wp_mono; [eapply (release_child_spec _ _ s5 Ar5 a t da'); done|]. intros o s6 (-> & Ar6 & St6 & R6 & _).
    simpl. rewrite Hchild. simpl. tree_steps. rewrite (alter_at _ _ _ _ Hs5a) in St6.
    assert (Hs6a := f_equal (lookup a) St6). rewrite lookup_insert_eq in Hs6a.
    eapply wp_mono; [eapply (emplace_child_spec _ _ s6 Ar6 a t2 c _ Ht2 Hs6a)|].
    { simpl. rewrite Hch, insert_singleton_eq. by rewrite lookup_singleton_ne. }
    intros [] s7 (Ar7 & St7 & R7 & _). rewrite St6, alter_insert_eq in St7.
    assert (Hs7a := f_equal (lookup a) St7). rewrite lookup_insert_eq in Hs7a.
    eapply wp_mono; [eapply (erase_child_spec _ _ s7 Ar7 a t _ Ht Hs7a)|].
    { simpl. rewrite Hch, insert_singleton_eq, lookup_insert_ne, lookup_singleton_eq by done. done. }
    intros [] s8 (Ar8 & St8 & R8 & _). wp_steps. split; [done|]. split_and!; [done| |congruence].
    rewrite St7, alter_insert_eq in St8. rewrite St8, E5. unfold shift. rewrite (insert_insert_ne _ a c), !insert_insert_eq by done.
    f_equal. f_equal. unfold with_children, da'. simpl. f_equal. rewrite Hch, insert_singleton_eq.
    rewrite delete_insert_ne by done. by rewrite delete_singleton_eq, insert_empty.
Qed.

(** Case 3b *)
Lemma split_wp :
  count na ≠ count nc + 1 ∨ a = root →
  wp (append_split i t len a c) (λ m s', nodes s !! m = None ∧ arrives s (split_child (store s) i st p t a da c dc t2 m) s') s.
Proof.
  intros Hmany. destruct child_parent as (Hcr & Hca & Hpc & Htc). pose proof second_valid as Ht2.
  unfold append_split. apply wp_bind. eapply wp_node; [done|].
  eapply wp_seq; [eapply (new_node_spec s _ a [] [] W P); done || eauto|].
  intros m s1 (-> & Ar1 & St1 & R1 & N1). pose proof (fresh_none s (ar_addr _ _ _ Ar)) as Hmn.
  set (m := fresh s) in *. clearbody m. assert (Hma : m ≠ a) by congruence. assert (Hmc : m ≠ c) by congruence.
  set (nm := set_parent (Some a) (Node_new (count nc) t 1 i (len - 1))) in *.
  assert (Hm1 : nodes s1 !! m = Some nm) by by rewrite N1, lookup_insert_eq.
  assert (Hc1 : nodes s1 !! c = Some nc) by by rewrite N1, lookup_insert_ne.
  destruct (ar_sib _ _ _ Ar1 a) as (rs & S1 & Hrs); [rewrite N1, lookup_insert_ne by done; eauto|apply not_elem_of_nil|].
  assert (Hin : c ∈ members rs) by (apply Hrs; split; [by apply not_in_one|eauto]).
  assert (Hnin : m ∉ members rs) by (rewrite Hrs; intros [H _]; apply H; left).
  destruct (run_of _ _ Hin) as (R1' & g & k & ns1 & ns2 & R2' & ->). pose proof S1 as [C1 G1].
  pose proof (grouped_at _ _ _ _ _ _ _ c G1 (in_mid _ _ _)) as (c1 & Hc1' & Hk & _)%view_node. rewrite Hc1 in Hc1'. injection Hc1' as <-.
  eapply wp_seq; [eapply (replace_spec s1 a R1' g k ns1 c ns2 R2' m nm S1 Hnin Hma Hm1); done|].
  intros [] s2 (Cm2 & S2 & c2 & Hc2 & Hgc2 & Hxc2 & Hyc2).
  assert (E2 : store s2 = <[m := data nm]> (store s)) by by rewrite (store_calm _ _ _ Cm2).
  assert (R2 : rest s2 = rest s) by (rewrite (frame_rest _ _ _ (proj1 Cm2)); done).
  assert (Ar2 : arranged s2 [c] []).
  { eapply (frame_arranged a s1 s2 _ _ _ _ _ Ar1); [apply Cm2|apply Cm2, Ar1|exact S2| | |by intros; apply not_elem_of_nil].
    - intros x. rewrite (members_swap _ _ _ _ _ _ c _ _ m x C1), Hrs, !list_elem_of_singleton. split.
      + intros [->|(? & _ & ?)]; [|done]. split; [done|]. exists nm. done.
      + intros (Hxa & ?). destruct (decide (x = m)); auto.
    - intros x n Hx Hp. rewrite !list_elem_of_singleton. split; intros ->; exfalso; apply Hp; [congruence|].
      rewrite Hm1 in Hx. by injection Hx as <-. }
  assert (Hs2a : store s2 !! a = Some da) by by rewrite E2, lookup_insert_ne.
  eapply wp_seq; [eapply (release_child_spec _ _ s2 Ar2 a t da Ht Hs2a)|]. intros o s3 (_ & Ar3 & St3 & R3 & _ & _ & Sh3).
  rewrite (alter_at _ _ _ _ Hs2a) in St3. assert (Hs3a := f_equal (lookup a) St3). rewrite lookup_insert_eq in Hs3a.
  eapply wp_seq; [eapply (reset_child_spec _ _ s3 Ar3 a t (Some m) _ Ht Hs3a); simpl; by rewrite lookup_insert_eq|].
  intros [] s4 (Ar4 & St4 & R4 & _ & _ & Sh4). rewrite St3, alter_insert_eq in St4.
  set (da' := with_children (<[t := Some m]> (children na)) da).
  assert (E4 : store s4 = <[a := da']> (<[m := data nm]> (store s))).
  { rewrite St4, E2. f_equal. unfold da', with_children. simpl. by rewrite insert_insert_eq. }
  assert (H4 : store s4 = <[c := dc]> (store s4)) by (symmetry; apply insert_id; by rewrite E4, !lookup_insert_ne).
  eapply wp_seq; [eapply (wp_change' _ _ s4 Ar4 c _ (λ d, with_ref (d_seq d) (d_idx d + 1) (with_length (d_length d - 1) d))); [by eapply is_node|done|done]|].
  intros [] s5 (Ar5 & St5 & R5 & _ & _ & Sh5). rewrite H4, alter_insert_eq in St5.
  assert (Hs5c := f_equal (lookup c) St5). rewrite lookup_insert_eq in Hs5c. apply store_node in Hs5c as (c5 & Hc5 & Hdc5).
  tree_steps. rewrite (f_equal d_seq Hdc5 : ref_seq c5 = ref_seq nc), (f_equal d_idx Hdc5 : ref_idx c5 = ref_idx nc + 1).
  apply second_token; [congruence|]. eapply wp_seq; [eapply (wp_change' _ _ s5 Ar5 c _ (with_token t2)); [by eapply is_node|done|done]|].
  intros [] s6 (Ar6 & St6 & R6 & _ & _ & Sh6). rewrite St5, alter_insert_eq in St6.
  set (dc' := mkData (count nc) t2 (length_ nc - 1) (ref_seq nc) (ref_idx nc + 1) (endpoints nc) (Some a) (children nc)).
  assert (E6 : store s6 = <[c := dc']> (<[a := da']> (<[m := data nm]> (store s)))) by (rewrite St6, E4; unfold dc'; by rewrite <-Hpc).
  assert (B6 : bare s6 c).
  { assert (B3 : bare s3 c).
    { eapply (bare_kept s2); [exact Sh3| |by exists c2]. apply (is_node s3 (store s3) c dc). symmetry. apply insert_id.
      rewrite St3, lookup_insert_ne, E2, lookup_insert_ne by done. done. }
    eapply (bare_kept s5); [exact Sh6|by eapply is_node|]. eapply (bare_kept s4); [exact Sh5|eauto|]. eapply (bare_kept s3); [exact Sh4|by eapply is_node|done]. }
  clear St3 Hs3a St4 E4 H4 St5 Hdc5 St6.
  assert (Hs6m : store s6 !! m = Some (data nm)) by (rewrite E6, 2!lookup_insert_ne, lookup_insert_eq by done; done).
  eapply wp_seq; [eapply (emplace_child_spec _ _ s6 Ar6 m t2 c _ Ht2 Hs6m); done|]. intros [] s7 (Ar7 & St7 & R7 & _ & _ & Sh7).
  rewrite (alter_at _ _ _ _ Hs6m) in St7.
  assert (Hs7c : store s7 !! c = Some dc') by by rewrite St7, lookup_insert_ne, E6, lookup_insert_eq.
  apply wp_bind. eapply (wp_change c _ (with_parent (Some m)) _ _ _ s7 Ar7); [|done|done|left; left|by right|].
  { apply (is_node s7 (store s7) c dc'). symmetry. by apply insert_id. }
  intros s8 Ar8 St8 N8 _ _ R8. rewrite (alter_at _ _ _ _ Hs7c) in St8.
  assert (B8 : bare s8 c).
  { destruct (bare_kept s6 s7 c Sh7) as (x & Hx & ?); [|done|].
    { apply (is_node s7 (store s7) c dc'). symmetry. by apply insert_id. }
    exists (set_parent (Some m) x). by rewrite N8, lookup_alter_eq, Hx. }
  assert (Hs8 : ∀ x, store s8 !! x = if decide (x = c) then Some (with_parent (Some m) dc') else
    if decide (x = m) then Some (with_children (<[t2 := Some c]> ∅) (data nm)) else if decide (x = a) then Some da' else store s !! x).
  { intros x. rewrite St8, lookup_insert. destruct (decide (c = x)) as [->|]; [by rewrite decide_True|]. rewrite (decide_False (P:=x = c)) by done.
    rewrite St7, lookup_insert. destruct (decide (m = x)) as [->|]; [by rewrite decide_True|]. rewrite (decide_False (P:=x = m)) by done.
    rewrite E6, lookup_insert_ne, lookup_insert by done. destruct (decide (a = x)) as [->|]; [by rewrite decide_True|].
    rewrite (decide_False (P:=x = a)), lookup_insert_ne by done. done. }
  assert (Hs8a : store s8 !! a = Some da') by by rewrite Hs8, decide_False, decide_False, decide_True.
  assert (Hs8m : store s8 !! m = Some (with_children (<[t2 := Some c]> ∅) (data nm))) by by rewrite Hs8, decide_False, decide_True.
  eapply wp_seq; [eapply (erase_endpoint_spec _ _ s8 Ar8); [done|]|].
  { eapply (is_node s8 (store s8) a). symmetry. by apply insert_id. }
  intros [] s9 (Ar9 & St9 & R9 & _ & _ & Sh9). rewrite (alter_at _ _ _ _ Hs8a) in St9.
  assert (Hs9m : store s9 !! m = Some (with_children (<[t2 := Some c]> ∅) (data nm))) by by rewrite St9, lookup_insert_ne.
  eapply wp_seq; [eapply (set_endpoint_spec _ _ s9 Ar9); [done|]|].
  { eapply (is_node s9 (store s9) m). symmetry. by apply insert_id. }
  intros [] s10 (Ar10 & St10 & R10 & _ & _ & Sh10). rewrite (alter_at _ _ _ _ Hs9m) in St10.
  set (dm' := with_ends (<[i := len]> ∅) (with_children (<[t2 := Some c]> ∅) (data nm))) in St10.
  set (dd := with_ends (delete i (d_ends da')) da') in St9.
  assert (Hs10 : ∀ x, store s10 !! x = if decide (x = c) then Some (with_parent (Some m) dc') else
    if decide (x = m) then Some dm' else if decide (x = a) then Some dd else store s !! x).
  { intros x. rewrite St10, lookup_insert. destruct (decide (m = x)) as [<-|]; [by rewrite decide_False, decide_True|].
    rewrite (decide_False (P:=x = m)) by done. rewrite St9, lookup_insert. destruct (decide (a = x)) as [<-|]; [by rewrite decide_False, decide_True|].
    rewrite (decide_False (P:=x = a)), Hs8, (decide_False (P:=x = m)), (decide_False (P:=x = a)) by done. done. }
  assert (Hs10c : store s10 !! c = Some (with_parent (Some m) dc')) by by rewrite Hs10, decide_True.
  pose proof Hs10c as (c10 & Hc10 & Hdc10)%store_node. assert (Hpc10 : parent c10 = Some m) by exact (f_equal d_parent Hdc10).
  assert (B10 : bare s10 c).
  { eapply (bare_kept s9); [exact Sh10|by eauto|]. eapply (bare_kept s8); [exact Sh9| |done].
    eapply (is_node s9 (store s9) c). symmetry. apply insert_id. by rewrite St9, lookup_insert_ne, Hs8, decide_True. }
  clear St7 St8 St9 N8.
  assert (Hs10m : store s10 !! m = Some dm') by by rewrite Hs10, decide_False, decide_True. pose proof Hs10m as (m10 & Hm10 & Hdm10)%store_node.
  pose proof (arranged_weaken s10 _ _ c m c10 Ar10 Hc10 Hpc10) as Ar10'.
  apply wp_bind. eapply (wp_change m _ (λ d, d) _ _ _ s10 Ar10'); [by eauto|done|done|by right|left; left|]. intros s11 Ar11 St11 N11 _ _ R11.
  destruct B10 as (x10 & Hx10 & Hnx & Hpv & Hg10). rewrite Hc10 in Hx10. injection Hx10 as <-.
  assert (Hc11 : nodes s11 !! c = Some c10) by by rewrite N11, lookup_alter_ne.
  assert (Hm11 : nodes s11 !! m = Some (set_tail_child (Some c) (set_head_child (Some c) m10))) by by rewrite N11, lookup_alter_eq, Hm10.
  assert (E11 : store s11 = store s10).
  { rewrite St11. apply map_eq. intros x. rewrite lookup_alter. destruct (decide (m = x)) as [<-|]; [by rewrite Hs10m|done]. }
  eapply (wp_seq_assoc (new_group c) (λ g, assign_group c (Some g)) (λ _, increment_count m ≫= λ _, mret m)).
  { eapply (first_child_spec s11 m c c10 _ (ar_addr _ _ _ Ar11) Hc11 Hpc10 (not_eq_sym Hmc) Hm11); done. }
  intros [] s12 (Cm12 & g12 & S12). assert (E12 : store s12 = store s10) by by rewrite (store_calm _ _ _ Cm12).
  assert (Ar12 : arranged s12 [] []).
  { eapply (frame_arranged m s11 s12 _ _ [] [] _ Ar11); [apply Cm12|apply Cm12, Ar11|exact S12| | |].
    - intros x. rewrite members_one, list_elem_of_singleton. split; [intros ->; split; [apply not_elem_of_nil|eauto]|].
      intros (_ & n & Hx & Hp). pose proof (store_data _ _ _ Hx) as Hd. rewrite E11, Hs10 in Hd.
      destruct (decide (x = c)) as [|Hxc]; [done|]. exfalso.
      assert (Hno : ∀ d, Some d = Some (data n) → d_parent d = Some m) by (intros d [= ->]; exact Hp).
      destruct (decide (x = m)); [specialize (Hno dm' Hd); simpl in Hno; congruence|].
      destruct (decide (x = a)).
      + specialize (Hno dd Hd). simpl in Hno. destruct (parent_in _ _ _ _ _ _ K Hna Hno). congruence.
      + apply store_node in Hd as (nx & Hnx0 & Hd0). destruct (parent_in s W P x nx m K Hnx0); [|congruence].
        rewrite <-Hp. exact (f_equal d_parent Hd0).
    - intros x n Hx Hp. rewrite !elem_of_cons, elem_of_nil. split; [done|]. intros [->|[->|[]]]; congruence.
    - intros b Hb _. by apply not_in_one. }
  assert (Hs12m : store s12 !! m = Some dm') by by rewrite E12. pose proof Hs12m as (m12 & Hm12 & Hdm12)%store_node.
  eapply wp_seq; [eapply (increment_arranged s12 m m12 a Ar12 Hm12)|].
  - exact (f_equal d_parent Hdm12).
  - assert (Hs12a : store s12 !! a = Some dd) by by rewrite E12, Hs10, decide_False, decide_False, decide_True. apply store_node in Hs12a as (? & ? & _). eauto.
  - intros [] s13 (Ar13 & St13 & R13). wp_steps. split; [done|].
    split_and!; [done| |rewrite R13, (frame_rest _ _ _ (proj1 Cm12)); congruence].
    rewrite St13, (alter_at _ _ _ _ Hs12m). apply map_eq. intros x. unfold split_child. rewrite !lookup_insert, E12, Hs10.
    destruct (decide (m = x)) as [<-|Hmx]; [done|]. destruct (decide (x = c)) as [->|Hxc]; [by rewrite decide_True|].
    rewrite (decide_False (P:=c = x)) by done. rewrite (decide_False (P:=x = m)) by done.
    destruct (decide (x = a)) as [->|]; [by rewrite decide_True|by rewrite decide_False].
Qed.
End longer.
End child.
End step.
