(* ===== verification/SuffixAppend.v ===== *)
(** [append] and [extend] of the suffix tree ([SuffixTree]): they keep the tree that of the
    suffixes of all sequences, up to its depth, and no assert fails. *)

From stdpp Require Import base gmap list strings.
From Stdlib Require Import ZArith Lia.
From S2P Require Import Prelude Int32Map SuffixTree SuffixOps SuffixSiblings SuffixGroups SuffixCounts SuffixPaths SuffixStores SuffixStep.
Open Scope Z_scope.

Implicit Types (s : SuffixTree) (a b c : nat) (n : Node) (D : gmap nat Data) (W : Windows) (P : nat → list Z).

(** ** A step of the loop *)

Section step.
Context (s : SuffixTree) (W : Windows) (P : nat → list Z) (K : compact (store s) W P) (Ar : arranged s [] []).
Context (i : Z) (st : nat) (p : list Z) (t : Z) (a : nat).
Context (Hwin : W !! (i, st) = Some p) (Hin : is_Some (nodes s !! a)) (HPa : P a = p).
Context (Huniq : ∀ st', W !! (i, st') = Some p → st' = st) (Hi : valid i) (Ht : valid t).
Context (Hseqs : ∀ j st' w, W !! (j, st') = Some w → valid j ∧ ∃ l : list Z, seqs_ s !! j = Some l ∧ w `prefix_of` drop st' l).
Context (Hval : ∀ k w x, W !! k = Some w → x ∈ w → valid x).
Abbreviation len := (Z.of_nat (st + length p) + 1).
Abbreviation W' := (<[(i, st) := p ++ [t]]> W).

(** The new active node stands for the longer window; a node where another window ends stays,
    and keeps its path. *)
Definition stepped b s' : Prop :=
  arranged s' [] [] ∧ rest s' = rest s ∧ ∃ P', compact (store s') W' P' ∧ is_Some (nodes s' !! b) ∧ P' b = p ++ [t] ∧
    ∀ x, is_Some (nodes s !! x) → x ≠ a ∨ (∃ k, k ≠ (i, st) ∧ W !! k = Some p) → is_Some (nodes s' !! x) ∧ P' x = P x.

Lemma is_stored s' x : is_Some (store s' !! x) ↔ is_Some (nodes s' !! x).
Proof. unfold store. rewrite lookup_fmap. apply fmap_is_Some. Qed.
Lemma stepped_intro b s' D' P' :
  arrives s D' s' → compact D' W' P' → is_Some (D' !! b) → P' b = p ++ [t] →
  (∀ x, is_Some (store s !! x) → x ≠ a ∨ (∃ k, k ≠ (i, st) ∧ W !! k = Some p) → is_Some (D' !! x) ∧ P' x = P x) → stepped b s'.
Proof.
  intros (Ar' & <- & R) K' Hb HPb Hx. split_and!; [done|done|]. exists P'. split_and!; [done|by apply is_stored|done|].
  intros x Hs Hk. destruct (Hx x) as [H1 H2]; [by apply is_stored|done|]. split; [by apply is_stored|done].
Qed.
Lemma upd_path_eq Q b q : upd_path Q b q b = q.
Proof. unfold upd_path. by rewrite decide_True. Qed.
Lemma upd_path_ne Q b q x : x ≠ b → upd_path Q b q x = Q x.
Proof. intros H. unfold upd_path. by rewrite decide_False. Qed.
(** A node where all windows but this one go on has no other window that ends there. *)
Lemma no_other : cnt W p ≤ cnt W (p ++ [t]) + 1 → ∀ x, x ≠ a ∨ (∃ k, k ≠ (i, st) ∧ W !! k = Some p) → x ≠ a.
Proof.
  intros Hle x [Hx|(k & Hk & Hw)]; [done|]. exfalso. apply Hk. destruct Hin as [na Hna].
  exact (other_window W i st p t Hwin k Hle Hw).
Qed.
Ltac in_store := rewrite ?lookup_insert, ?lookup_delete; repeat case_decide; subst; eauto; done.

Section node.
Context (na : Node) (Hna : nodes s !! a = Some na).
Let Ha : store s !! a = Some (data na) := store_data _ _ _ Hna.
Lemma leaf_step :
  children na !! t = None →
  wp (if (count na =? 1) && negb (a =? root)%nat then
        check (bool_decide (children na = ∅)) "node->children.empty()" ≫= λ _,
        check (ref_seq na =? i) "node->ref_seq == seq_id" ≫= λ _,
        upd a (λ n, set_length (length_ n + 1) n) ≫= λ _,
        incr_endpoint a i ≫= λ _,
        mret a
      else append_new_child i t len a) stepped s.
Proof.
  intros Hch. destruct ((count na =? 1) && negb (a =? root)%nat) eqn:E.
  - apply andb_true_iff in E as [E1%Z.eqb_eq E2%negb_true_iff%Nat.eqb_neq].
    destruct (grow_leaf_facts (store s) W P K i st p t a _ Hwin Ha HPa Huniq E1 E2 Hch) as [Hemp Hseq]. simpl in Hemp, Hseq.
    apply wp_bind, wp_check; [by rewrite Hemp, bool_decide_true|]. apply wp_bind, wp_check; [by apply Z.eqb_eq|].
    eapply (wp_seq_assoc (upd a (λ n, set_length (length_ n + 1) n)) (λ _, incr_endpoint a i) (λ _, mret a)).
    { exact (grow_leaf_wp s W P K Ar i st p a na Hwin Hna HPa Huniq Hi). }
    intros [] s' Hs'. apply wp_ret.
    eapply (stepped_intro _ _ _ (upd_path P a (p ++ [t])) Hs'); [|unfold grow_leaf; rewrite lookup_insert_eq; eauto|apply upd_path_eq|].
    + exact (grow_leaf_compact (store s) W P K i st p t a _ Hwin Ha HPa Huniq E1 E2 Hch).
    + intros x Hx Hk. assert (x ≠ a) as Hxa.
      { apply no_other; [|done]. rewrite <-HPa, <-(cp_count _ _ _ K a _ Ha). simpl. pose proof (cnt_nonneg W (P a ++ [t])). lia. }
      rewrite upd_path_ne by done. split; [|done]. unfold grow_leaf. by rewrite lookup_insert_ne.
  - assert (count na ≠ 1 ∨ a = root) as Hmany.
    { apply andb_false_iff in E as [E%Z.eqb_neq|E%negb_false_iff%Nat.eqb_eq]; auto. }
    eapply wp_mono; [by eapply new_child_wp|]. intros c s' (Hc & Hs'). assert (store s !! c = None) as Hc' by by rewrite store_lookup, Hc.
    eapply (stepped_intro _ _ _ (upd_path P c (p ++ [t])) Hs'); [|unfold add_leaf; rewrite lookup_insert_eq; eauto|apply upd_path_eq|].
    + exact (add_leaf_compact (store s) W P K i st p t a _ Hwin Ha HPa Huniq c Hc' Hch Hmany).
    + intros x Hx Hk. assert (x ≠ c) as Hxc by (intros ->; rewrite Hc' in Hx; by destruct Hx).
      rewrite upd_path_ne by done. split; [|done]. unfold add_leaf. in_store.
Qed.
Section child.
Context (c : nat) (nc : Node) (Hchild : children na !! t = Some (Some c)) (Hnc : nodes s !! c = Some nc).
Let Hc : store s !! c = Some (data nc) := store_data _ _ _ Hnc.
Lemma merge_step :
  count na = count nc + 1 → a ≠ root →
  wp (if length_ nc =? 1 then append_fuse i t len a c else append_shift i t len a c) stepped s.
Proof.
  intros Hall Har.
  destruct (child_facts (store s) W P K st p t a _ Ha HPa c _ Hchild Hc) as (u & Hcr & Hca & Hpc & Htc & HPc & Hlen & _ & Hcc).
  assert (Hno : ∀ x, x ≠ a ∨ (∃ k, k ≠ (i, st) ∧ W !! k = Some p) → x ≠ a).
  { apply no_other. rewrite <-Hcc, <-HPa, <-(cp_count _ _ _ K a _ Ha). simpl. lia. }
  destruct (Z.eqb_spec (length_ nc) 1) as [H1|H1].
  - destruct (cp_edge _ _ _ K a _ Ha Har) as (b & db & v & Hb & Hdb & _). apply store_node in Hdb as (nb & Hnb & <-).
    eapply wp_mono; [by eapply (fuse_wp s W P K Ar i st p t a na Hwin Hna HPa Huniq Hi Ht c nc Hchild Hnc b nb)|].
    intros x0 s' (-> & Hs'). eapply (stepped_intro _ _ _ P Hs').
    + exact (fuse_compact (store s) W P K i st p t a _ Hwin Ha HPa Huniq c _ Hchild Hc b _ Har Hb (store_data _ _ _ Hnb) H1 Hall).
    + unfold fuse. in_store.
    + rewrite HPc. destruct u; [done|]. simpl in Hlen. lia.
    + intros x Hx Hk%Hno. split; [|done]. unfold fuse. in_store.
  - destruct u as [|t2 u2]; [simpl in Hlen; lia|].
    eapply wp_mono; [by eapply (shift_wp s W P K Ar i st p t a na Hwin Hna HPa Huniq Hi Ht c nc Hchild Hnc t2 u2 HPc Hseqs Hval)|].
    intros x0 s' (-> & Hs'). eapply (stepped_intro _ _ _ (upd_path P a (p ++ [t])) Hs').
    + exact (shift_compact (store s) W P K i st p t a _ Hwin Ha HPa Huniq c _ Hchild Hc t2 u2 HPc Har Hall).
    + unfold shift. in_store.
    + apply upd_path_eq.
    + intros x Hx Hk%Hno. rewrite upd_path_ne by done. split; [|done]. unfold shift. in_store.
Qed.
Lemma down_step :
  count na ≠ count nc + 1 ∨ a = root →
  wp (if length_ nc =? 1 then
        erase_endpoint a i ≫= λ _, set_endpoint c i len ≫= λ _, increment_count c ≫= λ _, mret c
      else append_split i t len a c) stepped s.
Proof.
  intros Hmany.
  destruct (child_facts (store s) W P K st p t a _ Ha HPa c _ Hchild Hc) as (u & Hcr & Hca & Hpc & Htc & HPc & Hlen & _ & Hcc).
  destruct (Z.eqb_spec (length_ nc) 1) as [H1|H1].
  - pose proof (enter_wp s W P K Ar i st p t a na Hna HPa Hi c nc Hchild Hnc) as Hwp.
    apply wp_bind_inv in Hwp. apply wp_bind. eapply wp_mono; [exact Hwp|]. intros [] s1 Hwp1.
    apply wp_bind_inv in Hwp1. apply wp_bind. eapply wp_mono; [exact Hwp1|]. intros [] s2 Hwp2.
    eapply wp_seq; [exact Hwp2|]. intros [] s' Hs'. apply wp_ret. eapply (stepped_intro _ _ _ P Hs').
    + exact (enter_compact (store s) W P K i st p t a _ Hwin Ha HPa Huniq c _ Hchild Hc H1 Hmany).
    + unfold enter. in_store.
    + rewrite HPc. destruct u; [done|]. simpl in Hlen. lia.
    + intros x Hx Hk. split; [|done]. unfold enter. in_store.
  - destruct u as [|t2 u2]; [simpl in Hlen; lia|].
    eapply wp_mono; [by eapply (split_wp s W P K Ar i st p t a na Hwin Hna HPa Huniq Hi Ht c nc Hchild Hnc t2 u2 HPc Hseqs Hval)|].
    intros m s' (Hm & Hs'). assert (store s !! m = None) as Hm' by by rewrite store_lookup, Hm.
    eapply (stepped_intro _ _ _ (upd_path P m (p ++ [t])) Hs').
    + exact (split_child_compact (store s) W P K i st p t a _ Hwin Ha HPa Huniq c _ Hchild Hc t2 u2 HPc m Hm' Hmany).
    + unfold split_child. in_store.
    + apply upd_path_eq.
    + intros x Hx Hk. assert (x ≠ m) as Hxm by (intros ->; rewrite Hm' in Hx; by destruct Hx).
      rewrite upd_path_ne by done. split; [|done]. unfold split_child. in_store.
Qed.
End child.
End node.
Lemma append_step_spec : wp (append_step i t len a) stepped s.
Proof.
  destruct Hin as [na Hna]. pose proof (store_data _ _ _ Hna) as Ha.
  pose proof (end_at_a s W P K i st p a na Hwin Hna HPa Huniq) as Hend.
  unfold append_step. tree_steps. apply wp_find_child; [done|]. tree_steps.
  apply wp_check; [by rewrite Hend, bool_decide_true|].
  destruct (children na !! t) as [oc|] eqn:Hch; simpl; [|by apply leaf_step].
  destruct (cp_child _ _ _ K a _ t oc Ha Hch) as (c & dc & -> & Hdc & _). apply store_node in Hdc as (nc & Hnc & _). tree_steps.
  destruct ((count na =? count nc + 1) && negb (a =? root)%nat) eqn:E.
  - apply andb_true_iff in E as [E1%Z.eqb_eq E2%negb_true_iff%Nat.eqb_neq].
    destruct (only_one s W P K i st p t a na Hwin Hna HPa Huniq c nc Hch Hnc E1) as [Ho1 Ho2].
    tree_steps. apply wp_check; [by rewrite Ho1, map_size_singleton, bool_decide_true|].
    apply wp_bind, wp_check; [by rewrite Ho2, map_size_singleton, bool_decide_true|]. by apply (merge_step na Hna).
  - apply (down_step na Hna); [done..|]. apply andb_false_iff in E as [E%Z.eqb_neq|E%negb_false_iff%Nat.eqb_eq]; auto.
Qed.
End step.

(** ** A new window *)

Lemma cnt_start W k q : W !! k = None → cnt (<[k := []]> W) q = cnt W q + (if decide (q = []) then 1 else 0).
Proof.
  intros Hk. unfold cnt. destruct (decide (q = [])) as [->|Hq].
  - assert (through (<[k := []]> W) [] = {[k]} ∪ through W []) as ->.
    { apply set_eq. intros k'. rewrite elem_of_union, elem_of_singleton, !elem_of_through.
      destruct (decide (k' = k)) as [->|Hne]; [rewrite lookup_insert_eq|rewrite lookup_insert_ne by done]; naive_solver. }
    rewrite size_union, size_singleton; [lia|]. intros k' ->%elem_of_singleton (w & Hw & _)%elem_of_through. congruence.
  - rewrite Z.add_0_r. do 2 f_equal. apply set_eq. intros k'. rewrite !elem_of_through.
    destruct (decide (k' = k)) as [->|Hne]; [rewrite lookup_insert_eq|by rewrite lookup_insert_ne].
    split; [intros (w & [= <-] & ?%prefix_nil_inv); done|intros (w & Hw & _); congruence].
Qed.
Definition start D i (st : nat) (dr : Data) : gmap nat Data :=
  <[root := mkData (d_count dr + 1) (d_token dr) (d_length dr) (d_seq dr) (d_idx dr) (<[i := Z.of_nat st]> (d_ends dr)) (d_parent dr) (d_children dr)]> D.
Lemma start_compact D W P i st dr :
  compact D W P → D !! root = Some dr → W !! (i, st) = None → compact (start D i st dr) (<[(i, st) := []]> W) P.
Proof.
  intros K Hr Hnone. pose proof (cp_root_path _ _ _ K) as HPr.
  assert (Hcnt : ∀ q, q ≠ [] → cnt (<[(i, st) := []]> W) q = cnt W q) by (intros q Hq; rewrite cnt_start, decide_False by done; lia).
  assert (Hsnoc : ∀ q (x : Z), q ++ [x] ≠ []) by by intros [].
  assert (Hgrow : ∀ k w, W !! k = Some w → <[(i, st) := []]> W !! k = Some w) by (intros k w Hk; rewrite lookup_insert_ne; congruence).
  assert (Hold : ∀ x d, start D i st dr !! x = Some d → ∃ dx, D !! x = Some dx ∧ d_token d = d_token dx ∧ d_length d = d_length dx ∧
    d_seq d = d_seq dx ∧ d_idx d = d_idx dx ∧ d_parent d = d_parent dx ∧ d_children d = d_children dx ∧
    (d_count d = if decide (x = root) then d_count dx + 1 else d_count dx) ∧ (d_ends d = if decide (x = root) then <[i := Z.of_nat st]> (d_ends dx) else d_ends dx)).
  { intros x d. unfold start. rewrite lookup_insert. destruct (decide (root = x)) as [<-|].
    - intros [= <-]. exists dr. rewrite !decide_True by done. done.
    - intros Hd. exists d. rewrite !decide_False by done. done. }
  assert (Hnew : ∀ x dx, D !! x = Some dx → ∃ d, start D i st dr !! x = Some d ∧ d_token d = d_token dx ∧ d_parent d = d_parent dx ∧
    d_length d = d_length dx ∧ d_children d = d_children dx ∧ ∀ j, is_Some (d_ends dx !! j) ∨ (x = root ∧ j = i) → is_Some (d_ends d !! j)).
  { intros x dx Hx. unfold start. rewrite lookup_insert. destruct (decide (root = x)) as [<-|].
    - eexists. split; [done|]. simpl. rewrite Hr in Hx. injection Hx as <-. split_and!; [done..|]. intros j Hj.
      rewrite lookup_insert. destruct (decide (i = j)); [done|naive_solver].
    - exists dx. split_and!; [done..|]. intros j [?|[? _]]; congruence. }
  assert (Hne : ∀ x d, D !! x = Some d → x ≠ root → P x ≠ []) by (intros x d; by apply (cp_nonempty D W P K)).
  split.
  - destruct (cp_root _ _ _ K) as (d & Hd & Hp & Hl). destruct (Hnew _ _ Hd) as (d' & Hd' & _ & Hp' & Hl' & _). exists d'. split_and!; congruence.
  - done.
  - intros x d Hd. destruct (Hold x d Hd) as (dx & Hdx & _ & _ & _ & _ & _ & _ & -> & _). rewrite (cp_count _ _ _ K x dx Hdx), cnt_start by done.
    destruct (decide (x = root)) as [->|Hx]; [by rewrite HPr, decide_True|]. rewrite decide_False by by eapply Hne. lia.
  - intros x d Hd Hx. destruct (Hold x d Hd) as (dx & Hdx & Ht & Hl & _ & _ & Hp & _).
    destruct (cp_edge _ _ _ K x dx Hdx Hx) as (b & db & u & Hb & Hdb & HPx & Hlx & Hcb & Hv). destruct (Hnew b db Hdb) as (db' & Hdb' & _ & _ & _ & Hch & _).
    exists b, db', u. rewrite Ht, Hl, Hp, Hch. split_and!; try done. intros v Hvu. rewrite !Hcnt; [by apply Hv|by eapply Hne|by destruct (P b)].
  - intros x d Hd Hx. destruct (Hold x d Hd) as (dx & Hdx & _). rewrite Hcnt by by eapply Hne.
    destruct (cp_live _ _ _ K x dx Hdx Hx) as [Hpos Hy]. split; [done|]. intros y. by rewrite Hcnt.
  - intros b d y oc Hd Hy. destruct (Hold b d Hd) as (db & Hdb & _ & _ & _ & _ & _ & Hch & _). rewrite Hch in Hy.
    destruct (cp_child _ _ _ K b db y oc Hdb Hy) as (c & dc & -> & Hdc & Hp & Ht). destruct (Hnew c dc Hdc) as (dc' & Hdc' & Ht' & Hp' & _).
    exists c, dc'. split_and!; congruence.
  - intros b d y Hd Hpos. destruct (Hold b d Hd) as (db & Hdb & _ & _ & _ & _ & _ & -> & _). rewrite Hcnt in Hpos by done. by apply (cp_cover _ _ _ K b db y Hdb).
  - intros x d Hd Hx. destruct (Hold x d Hd) as (dx & Hdx & _ & Hl & Hs & Hi & _). destruct (cp_ref _ _ _ K x dx Hdx Hx) as (st' & w & Hw & Hp & Hidx).
    exists st', w. rewrite Hs. split_and!; [by apply Hgrow|done|congruence].
  - intros x d j e Hd He. destruct (Hold x d Hd) as (dx & Hdx & _ & _ & _ & _ & _ & _ & _ & Hends). rewrite Hends in He.
    assert (Hkeep : d_ends dx !! j = Some e → ∃ st', <[(i, st) := []]> W !! (j, st') = Some (P x) ∧ e = Z.of_nat (st' + length (P x))).
    { intros He'. destruct (cp_endpoint _ _ _ K x dx j e Hdx He') as (st' & Hw & ->). exists st'. split; [by apply Hgrow|done]. }
    destruct (decide (x = root)) as [->|]; [|by apply Hkeep]. rewrite lookup_insert in He. destruct (decide (i = j)) as [<-|]; [|by apply Hkeep].
    injection He as <-. exists st. rewrite lookup_insert_eq, HPr. split; [done|]. simpl. lia.
  - intros j st' w Hw. rewrite lookup_insert in Hw. destruct (decide ((i, st) = (j, st'))) as [[= <- <-]|Hne'].
    + injection Hw as <-. destruct (Hnew root dr Hr) as (d & Hd & _ & _ & _ & _ & He). exists root, d. split_and!; [done|done|]. apply He. by right.
    + destruct (cp_end _ _ _ K j st' w Hw) as (x & dx & Hx & HPx & He'). destruct (Hnew x dx Hx) as (d & Hd & _ & _ & _ & _ & He). exists x, d. auto.
Qed.

(** ** The tree of the sequences *)

(** The windows of sequences: the suffixes, up to [d] tokens of each *)
Definition windows (d : nat) (seqs : gmap Z (list Z)) W : Prop :=
  ∀ i st, W !! (i, st) = l ← seqs !! i; if decide (st < length l)%nat then Some (take d (drop st l)) else None.
Definition depth s : nat := Z.to_nat (u64 (max_depth_ s)).
(** The tree of the suffixes; the active nodes of a sequence are those of its last suffixes, in
    order, that are not at their full depth. *)
Record holds s W P : Prop := {
  ho_windows : windows (depth s) (seqs_ s) W;
  ho_compact : compact (store s) W P;
  ho_arranged : arranged s [] [];
  ho_keys : ∀ i (l : list Z), seqs_ s !! i = Some l → valid i ∧ ∀ t, t ∈ l → valid t;
  ho_active : ∀ i (l : list Z), seqs_ s !! i = Some l → ∃ al, active_nodes_ s !! i = Some al ∧ length al = (length l `min` depth s)%nat ∧
    ∀ k a, al !! k = Some a → is_Some (nodes s !! a) ∧ P a = drop (length l - length al + k) l;
  ho_idle : ∀ i, seqs_ s !! i = None → active_nodes_ s !! i = None;
}.

(** ** The loop over the active nodes *)

Lemma arranged_stores s s' X Y : nodes s' = nodes s → groups s' = groups s → fresh s' = fresh s → arranged s X Y → arranged s' X Y.
Proof. intros Hn Hg Hf. apply neutral_arranged. split_and!; [intros b; by rewrite Hn|done|done]. Qed.


Section loop.
Context (s : SuffixTree) (W : Windows) (P : nat → list Z) (K : compact (store s) W P) (Ar : arranged s [] []).
Context (i t : Z) (tokens : list Z) (al : list nat) (d : nat) (Hi : valid i) (Ht : valid t) (Hmax : Z.of_nat (length tokens) + 1 < 2 ^ 31).
Context (Hseq : seqs_ s !! i = Some (tokens ++ [t])) (Hal : active_nodes_ s !! i = Some al).
Abbreviation n := (length tokens).
Context (Hlen : length al = ((n + 1) `min` d)%nat).
Abbreviation o := (n + 1 - length al)%nat.
Context (HW : ∀ st, W !! (i, st) = if decide (st < n + 1)%nat then Some (take d (drop st tokens)) else None).
Context (Hoth : ∀ j st w, j ≠ i → W !! (j, st) = Some w → valid j ∧ ∃ l : list Z, seqs_ s !! j = Some l ∧ w `prefix_of` drop st l).
Context (Hval : ∀ k w x, W !! k = Some w → x ∈ w → valid x).
Context (Hact : ∀ j a, al !! j = Some a → is_Some (nodes s !! a) ∧ P a = drop (o + j) tokens).

(** The windows after [k] rounds *)
Fixpoint grown (k : nat) : Windows :=
  match k with O => W | S k => <[(i, (o + k)%nat) := drop (o + k) tokens ++ [t]]> (grown k) end.
Lemma grown_lookup k j st : grown k !! (j, st) =
  if decide (j = i ∧ (o ≤ st < o + k)%nat) then Some (drop st tokens ++ [t]) else W !! (j, st).
Proof.
  clear Hlen Hmax HW Hact Hal. induction k as [|k IH]; simpl; [rewrite decide_False by lia; done|]. rewrite lookup_insert, IH.
  destruct (decide ((i, (o + k)%nat) = (j, st))) as [[= <- <-]|Hne].
  - rewrite decide_True by lia. done.
  - destruct (decide (j = i ∧ (o ≤ st < o + k)%nat)); [rewrite decide_True by lia; done|].
    rewrite decide_False; [done|]. intros [-> ?]. apply Hne. f_equal. lia.
Qed.
(** The windows of the active nodes; those of the earlier suffixes are at their full length. *)
Lemma grown_active k st : (k ≤ length al)%nat → (o + k ≤ st < n + 1)%nat → grown k !! (i, st) = Some (drop st tokens).
Proof.
  intros Hk Hst. rewrite grown_lookup, decide_False by lia. rewrite HW, decide_True by lia. f_equal. apply take_ge. rewrite length_drop. lia.
Qed.
Lemma grown_full k st w : (k ≤ length al)%nat → (st < o)%nat → grown k !! (i, st) = Some w → length w = d.
Proof.
  intros Hk Hst. rewrite grown_lookup, decide_False by lia. rewrite HW, decide_True by lia. intros [= <-].
  rewrite length_take, length_drop. lia.
Qed.
Lemma grown_unique k st' : (k < length al)%nat → grown k !! (i, st') = Some (drop (o + k) tokens) → st' = (o + k)%nat.
Proof.
  intros Hk Hw. destruct (decide (st' < o)%nat) as [Hst|Hst].
  - apply grown_full in Hw; [|lia|done]. rewrite length_drop in Hw. lia.
  - rewrite grown_lookup in Hw. destruct (decide (i = i ∧ (o ≤ st' < o + k)%nat)) as [Hb|Hb].
    + apply (f_equal (from_option length 0%nat)) in Hw. simpl in Hw. rewrite length_app, !length_drop in Hw. simpl in Hw. lia.
    + rewrite HW in Hw. case_decide; [|done]. apply (f_equal (from_option length 0%nat)) in Hw. simpl in Hw.
      rewrite length_take, !length_drop in Hw. lia.
Qed.
Lemma grown_seqs k j st' w : (k ≤ length al)%nat → grown k !! (j, st') = Some w → valid j ∧ ∃ l : list Z, seqs_ s !! j = Some l ∧ w `prefix_of` drop st' l.
Proof.
  intros Hk Hw. rewrite grown_lookup in Hw. destruct (decide (j = i)) as [->|Hj].
  - split; [done|]. exists (tokens ++ [t]). split; [done|]. case_decide as Hb.
    + injection Hw as <-. rewrite drop_app_le by lia. done.
    + rewrite HW in Hw. case_decide; [|done]. injection Hw as <-. rewrite drop_app_le by lia. apply prefix_app_r. apply prefix_take.
  - rewrite decide_False in Hw by naive_solver. by apply Hoth.
Qed.
Lemma grown_valid k x w y : grown k !! x = Some w → y ∈ w → valid y.
Proof.
  destruct x as [j st']. rewrite grown_lookup. case_decide as Hb; [|by apply Hval]. intros [= <-] [Hy|Hy]%elem_of_app.
  - destruct Hb as [_ Hb]. destruct (decide (st' < n)%nat); [|rewrite drop_ge in Hy by lia; by apply elem_of_nil in Hy].
    eapply (Hval (i, st')); [rewrite HW, decide_True by lia; done|]. rewrite take_ge; [done|]. rewrite length_drop. lia.
  - by apply list_elem_of_singleton in Hy as ->.
Qed.

(** After [k] rounds *)
Definition looped (k : nat) s' : Prop :=
  arranged s' [] [] ∧ max_depth_ s' = max_depth_ s ∧ seqs_ s' = seqs_ s ∧ ∃ P' al',
    active_nodes_ s' = <[i := al']> (active_nodes_ s) ∧ compact (store s') (grown k) P' ∧ length al' = length al ∧
    (∀ j a, al' !! j = Some a → is_Some (nodes s' !! a) ∧ P' a = drop (o + j) tokens ++ (if decide (j < k)%nat then [t] else [])) ∧
    ∀ x, is_Some (nodes s !! x) → (∃ j st, j ≠ i ∧ W !! (j, st) = Some (P x)) → is_Some (nodes s' !! x) ∧ P' x = P x.
Abbreviation round := (λ k, active_of i ≫= λ active, at_ active k ≫= λ a,
  append_step i t (i32 (Z.of_nat (length tokens + 1))) a ≫= λ b, set_active i (<[k := b]> active)).
Lemma round_spec k s' : (k < length al)%nat → looped k s' → wp (round k) (λ _, looped (S k)) s'.
Proof.
  intros Hk (Ar' & Hmd & Hsq & P' & al' & Hact' & K' & Hl' & Hal' & Hkeep).
  unfold active_of. apply wp_bind, wp_bind, wp_key; [done|]. tree_steps. rewrite Hact', lookup_insert_eq. simpl.
  destruct (lookup_lt_is_Some_2 al' k) as [a Ha]; [lia|]. eapply wp_at; [done|]. destruct (Hal' k a Ha) as [Hin HPa].
  rewrite decide_False, app_nil_r in HPa by lia.
  set (p := drop (o + k) tokens) in *. assert (Hlp : (o + k + length p = n)%nat) by (unfold p; rewrite length_drop; lia).
  replace (i32 (Z.of_nat (n + 1))) with (Z.of_nat (o + k + length p) + 1) by (rewrite i32_id; lia).
  eapply wp_seq; [eapply (append_step_spec s' (grown k) P' K' Ar' i (o + k) p t a)|]; try done.
  - apply grown_active; lia.
  - intros st' Hw. by apply grown_unique in Hw.
  - intros j st' w Hw. rewrite Hsq. eapply (grown_seqs k); [lia|done].
  - intros x w y. apply grown_valid.
  - intros b s1 (Ar1 & R1 & P1 & K1 & Hb & HPb & Hx). unfold rest in R1.
    assert (Hd1 : max_depth_ s1 = max_depth_ s') by congruence. assert (Hs1 : seqs_ s1 = seqs_ s') by congruence.
    assert (Ha1 : active_nodes_ s1 = active_nodes_ s') by congruence.
    unfold set_active. wp_steps.
    split_and!; [by eapply (arranged_stores s1)|simpl; congruence|simpl; congruence|]. exists P1, (<[k := b]> al'). simpl. split_and!.
    + by rewrite Ha1, Hact', insert_insert_eq.
    + exact K1.
    + by rewrite length_insert.
    + intros j x Hj. destruct (decide (j = k)) as [->|Hjk].
      * rewrite list_lookup_insert_eq in Hj by lia. injection Hj as <-. rewrite decide_True by lia. done.
      * rewrite list_lookup_insert_ne in Hj by done. destruct (Hal' j x Hj) as [Hxin HPx].
        assert (Hjl := lookup_lt_Some _ _ _ Hj).
        assert (x ≠ a) as Hxa.
        { intros ->. rewrite HPa in HPx. apply (f_equal length) in HPx. rewrite length_app in HPx. unfold p in HPx. rewrite !length_drop in HPx.
          case_decide; simpl in HPx; lia. }
        destruct (Hx x Hxin) as [H1 H2]; [by left|]. split; [done|]. rewrite H2, HPx. f_equal.
        destruct (decide (j < k)%nat); [rewrite decide_True by lia|rewrite decide_False by lia]; done.
    + intros x Hxin Hw. destruct (Hkeep x Hxin Hw) as [H1 H2]. destruct (Hx x H1) as [H3 H4]; [|split; [done|congruence]].
      destruct (decide (x = a)) as [->|]; [right|by left]. destruct Hw as (j & st & Hj & Hw). exists (j, st). split; [congruence|].
      rewrite grown_lookup, decide_False by naive_solver. rewrite <-HPa, H2. done.
Qed.
Lemma loop_spec :
  wp (for_each (seq 0 (length al)) round) (λ _, looped (length al)) s.
Proof.
  eapply wp_mono.
  - apply (wp_for_each _ round (λ l s', ∃ k, l = seq k (length al - k) ∧ (k ≤ length al)%nat ∧ looped k s')).
    + exists 0%nat. rewrite Nat.sub_0_r. split_and!; [done|lia|]. split_and!; [done..|]. exists P, al. split_and!; [|done|done| |done].
      * symmetry. by apply insert_id.
      * intros j a Ha. rewrite decide_False, app_nil_r by lia. by apply Hact.
    + intros k' l' s' (k & E & Hk & L). destruct (length al - k)%nat as [|r] eqn:Hr; [done|]. simpl in E. injection E as -> ->.
      eapply wp_mono; [by apply round_spec; [lia|]|]. intros [] s1 L1. exists (S k). split_and!; [f_equal; lia|lia|done].
  - intros _ s' (k & E & Hk & L). destruct (length al - k)%nat as [|r] eqn:Hr; [|done]. assert (k = length al) as <- by lia. exact L.
Qed.
End loop.

(** ** [append] *)

Lemma holds_valid s W P k w t : holds s W P → W !! k = Some w → t ∈ w → valid t.
Proof.
  intros H Hw Ht. destruct k as [j st]. rewrite (ho_windows _ _ _ H) in Hw. destruct (seqs_ s !! j) as [l|] eqn:Hl; [|done]. simpl in Hw.
  case_decide; [|done]. injection Hw as <-. apply (ho_keys _ _ _ H j l Hl). apply elem_of_take in Ht as (y & Hy & _).
  rewrite lookup_drop in Hy. by eapply list_elem_of_lookup_2.
Qed.
Lemma holds_prefix s W P j st w : holds s W P → W !! (j, st) = Some w → valid j ∧ ∃ l : list Z, seqs_ s !! j = Some l ∧ w `prefix_of` drop st l.
Proof.
  intros H Hw. rewrite (ho_windows _ _ _ H) in Hw. destruct (seqs_ s !! j) as [l|] eqn:Hl; [|done]. simpl in Hw.
  case_decide; [|done]. injection Hw as <-.
  split; [exact (proj1 (ho_keys _ _ _ H j l Hl))|]. exists l. split; [done|]. apply prefix_take.
Qed.
(** An active node is where its window ends. *)
Lemma holds_active s W P i (l : list Z) al k a :
  holds s W P → seqs_ s !! i = Some l → active_nodes_ s !! i = Some al → al !! k = Some a →
  is_Some (nodes s !! a) ∧ P a = drop (length l - length al + k) l ∧ W !! (i, (length l - length al + k)%nat) = Some (P a).
Proof.
  intros H Hl Hal Ha. destruct (ho_active _ _ _ H i l Hl) as (al' & Hal' & Hlen & Hact). rewrite Hal in Hal'. injection Hal' as <-.
  destruct (Hact k a Ha) as [Hin HP]. split_and!; [done|done|]. rewrite (ho_windows _ _ _ H), Hl. simpl.
  pose proof (lookup_lt_Some _ _ _ Ha). rewrite decide_True by lia. rewrite HP, take_ge; [done|]. rewrite length_drop. lia.
Qed.
(** The active nodes with the one of the new suffix, but the one at its full depth *)
Lemma next_active (P : nat → list Z) (tokens : list Z) (al : list nat) d (Q : nat → Prop) :
  length al = (length tokens `min` d)%nat → P root = [] → Q root →
  (∀ k a, al !! k = Some a → Q a ∧ P a = drop (length tokens - length al + k) tokens) →
  let al2 := if (d <? length (al ++ [root]))%nat then drop 1 (al ++ [root]) else al ++ [root] in
  length al2 = ((length tokens + 1) `min` d)%nat ∧
  ∀ k a, al2 !! k = Some a → Q a ∧ P a = drop (length tokens + 1 - length al2 + k) tokens.
Proof.
  intros Hlen HPr HQ Hact al2.
  assert (Hnew : ∀ k a, (al ++ [root]) !! k = Some a → Q a ∧ P a = drop (length tokens - length al + k) tokens).
  { intros k a [Hk|[Hge Hk]]%lookup_app_Some; [by apply Hact|]. apply list_lookup_singleton_Some in Hk as [Hk <-].
    split; [done|]. rewrite HPr, drop_ge; [done|lia]. }
  assert (Hl : length (al ++ [root]) = (length al + 1)%nat) by (rewrite length_app; done).
  subst al2. destruct (Nat.ltb_spec d (length (al ++ [root]))) as [Hd|Hd].
  - assert (Hl2 : length (drop 1 (al ++ [root])) = length al) by (rewrite length_drop; lia). split; [lia|]. intros k a Hk.
    rewrite lookup_drop in Hk. destruct (Hnew _ _ Hk) as [? ->]. split; [done|]. f_equal. lia.
  - split; [lia|]. intros k a Hk. destruct (Hnew _ _ Hk) as [? ->]. split; [done|]. f_equal. lia.
Qed.
Lemma wp_active_of i (l : list nat) (Q : list nat → SuffixTree → Prop) s : valid i → active_nodes_ s !! i = Some l → Q l s → wp (active_of i) Q s.
Proof. intros Hi Hl HQ. unfold active_of. apply wp_bind, wp_key; [done|]. tree_steps. by rewrite Hl. Qed.
Lemma wp_set_active i (l : list nat) (Q : unit → SuffixTree → Prop) s : Q () (set_active_nodes (<[i := l]> (active_nodes_ s)) s) → wp (set_active i l) Q s.
Proof. done. Qed.
(** The root is in no list. *)
Lemma arranged_root s X Y : (∀ n, nodes s !! root = Some n → parent n = None) → arranged s X Y → arranged s (root :: X) Y.
Proof.
  intros Hr [A Sib]. split; [done|]. intros b Hb HbY. destruct (Sib b Hb HbY) as (rs & S & Hrs). exists rs. split; [done|].
  intros c. rewrite Hrs, not_elem_of_cons. split; [|naive_solver]. intros (Hc & n & Hn & Hp). split_and!; [|done|eauto].
  intros ->. rewrite (Hr n Hn) in Hp. done.
Qed.
Lemma arranged_rootless s X Y : (∀ n, nodes s !! root = Some n → parent n = None) → arranged s (root :: X) Y → arranged s X Y.
Proof.
  intros Hr [A Sib]. split; [done|]. intros b Hb HbY. destruct (Sib b Hb HbY) as (rs & S & Hrs). exists rs. split; [done|].
  intros c. rewrite Hrs, not_elem_of_cons. split; [naive_solver|]. intros (Hc & n & Hn & Hp). split_and!; [|done|eauto].
  intros ->. rewrite (Hr n Hn) in Hp. done.
Qed.
Section append.
Context (s : SuffixTree) (W : Windows) (P : nat → list Z) (H : holds s W P) (i t : Z) (Hi : valid i) (Ht : valid t).
Let tokens : list Z := default [] (seqs_ s !! i).
Context (Hmax : Z.of_nat (length tokens) + 1 < 2 ^ 31).
Let al : list nat := default [] (active_nodes_ s !! i).
Let al2 : list nat := if (depth s <? length (al ++ [root]))%nat then drop 1 (al ++ [root]) else al ++ [root].

Lemma old_active : length al = (length tokens `min` depth s)%nat ∧
  ∀ k a, al !! k = Some a → is_Some (nodes s !! a) ∧ P a = drop (length tokens - length al + k) tokens.
Proof.
  unfold al, tokens. destruct (seqs_ s !! i) as [l|] eqn:Hl; simpl.
  - destruct (ho_active _ _ _ H i l Hl) as (al0 & -> & ?). done.
  - rewrite (ho_idle _ _ _ H i Hl). done.
Qed.
(** The state at the start of the loop *)
Lemma append_start (Q : unit → SuffixTree → Prop) :
  (∀ s2 dr, store s !! root = Some dr → arranged s2 [] [] → store s2 = start (store s) i (length tokens) dr → max_depth_ s2 = max_depth_ s →
    seqs_ s2 = <[i := tokens ++ [t]]> (seqs_ s) → active_nodes_ s2 = <[i := al2]> (active_nodes_ s) →
    wp (for_each (seq 0 (length al2)) (λ k, active_of i ≫= λ active, at_ active k ≫= λ a,
      append_step i t (i32 (Z.of_nat (length tokens + 1))) a ≫= λ b, set_active i (<[k := b]> active))) Q s2) →
  wp (append i t) Q s.
Proof.
  intros HQ. unfold append. apply wp_bind, wp_key; [done|]. tree_steps.
  eapply (wp_mono _ (λ _ s1, nodes s1 = nodes s ∧ groups s1 = groups s ∧ fresh s1 = fresh s ∧ max_depth_ s1 = max_depth_ s ∧
    seqs_ s1 = <[i := tokens]> (seqs_ s) ∧ active_nodes_ s1 = <[i := al]> (active_nodes_ s))).
  { unfold tokens, al. destruct (seqs_ s !! i) as [l|] eqn:Hl; simpl.
    - destruct (ho_active _ _ _ H i l Hl) as (al0 & Ha & _). rewrite Ha. simpl. wp_steps. split_and!; try done; by rewrite insert_id.
    - rewrite (ho_idle _ _ _ H i Hl). simpl. wp_steps. done. }
  intros [] s1 (Hn1 & Hg1 & Hf1 & Hd1 & Hs1 & Ha1).
  apply wp_bind. eapply wp_seq_of; [done|by rewrite Hs1, lookup_insert_eq|].
  apply wp_bind. eapply wp_active_of; [done|by rewrite Ha1, lookup_insert_eq|]. apply wp_bind, wp_set_active.
  set (s2 := set_active_nodes _ s1). destruct (cp_root _ _ _ (ho_compact _ _ _ H)) as (dr & Hdr & Hpr & _).
  assert (Ar2 : arranged s2 [] []) by (apply (arranged_stores s); [done..|apply H]).
  assert (St2 : store s2 = <[root := dr]> (store s)). { rewrite insert_id by done. unfold store. simpl. by rewrite Hn1. }
  eapply wp_seq; [eapply (set_endpoint_spec _ _ s2 Ar2); [done|by eapply is_node]|]. intros [] s3 (Ar3 & St3 & R3 & _).
  rewrite St2, alter_insert_eq in St3. unfold rest in R3. simpl in R3.
  assert (Hroot : ∀ s' d, store s' = <[root := d]> (store s) → d_parent d = d_parent dr → ∀ n, nodes s' !! root = Some n → parent n = None).
  { intros s' d E Hd n Hn. pose proof (store_data _ _ _ Hn) as Hs. rewrite E, lookup_insert_eq in Hs. injection Hs as ->. simpl in Hd. congruence. }
  apply wp_bind. unfold incr. eapply (wp_again root _ (λ d, with_count (d_count d + 1) d) _ _ [root] []); [|exact St3|done|done|left; left|by right|].
  { eapply arranged_root; [by eapply Hroot|done]. }
  intros s4 Ar4 St4 R4. unfold rest in R4. eapply arranged_rootless in Ar4; [|by eapply Hroot].
  assert (Ha4 : active_nodes_ s4 = <[i := al ++ [root]]> (active_nodes_ s)) by (injection R4 as _ _ ->; injection R3 as _ _ ->; rewrite Ha1; apply insert_insert_eq).
  assert (Hs4 : seqs_ s4 = <[i := tokens]> (seqs_ s)) by congruence. assert (Hd4 : max_depth_ s4 = max_depth_ s) by congruence.
  apply wp_bind. eapply wp_active_of; [done|by rewrite Ha4, lookup_insert_eq|]. apply wp_bind, wp_gets, wp_bind, wp_set_active, wp_bind, wp_modify.
  assert (Hal2 : (if u64 (max_depth_ s4) <? Z.of_nat (length (al ++ [root])) then drop 1 (al ++ [root]) else al ++ [root]) = al2).
  { rewrite Hd4. unfold al2, depth. assert (0 ≤ u64 (max_depth_ s)) by (apply Z.mod_pos_bound; lia).
    destruct (Z.ltb_spec (u64 (max_depth_ s)) (Z.of_nat (length (al ++ [root])))), (Nat.ltb_spec (Z.to_nat (u64 (max_depth_ s))) (length (al ++ [root]))); done || lia. }
  rewrite Hal2. apply wp_bind. eapply wp_active_of; [done|simpl; by rewrite lookup_insert_eq|]. apply (HQ _ dr); [done|by eapply (arranged_stores s4)| |done|..]; simpl.
  - unfold store. simpl. fold (store s4). rewrite St4, i32_id by lia. done.
  - by rewrite Hs4, insert_insert_eq.
  - by rewrite Ha4, insert_insert_eq.
Qed.

Lemma next_al : length al2 = ((length tokens + 1) `min` depth s)%nat ∧
  ∀ k a, al2 !! k = Some a → is_Some (nodes s !! a) ∧ P a = drop (length tokens + 1 - length al2 + k) tokens.
Proof.
  pose proof (ho_compact _ _ _ H) as K. destruct old_active as [Hlen Hact].
  apply (next_active P tokens al (depth s) (λ a, is_Some (nodes s !! a))); [done|apply K| |done].
  destruct (cp_root _ _ _ K) as (dr & Hdr & _). apply is_stored. eauto.
Qed.
(** The windows with the new one, and after the loop *)
Lemma start_windows st : <[(i, length tokens) := []]> W !! (i, st) =
  if decide (st < length tokens + 1)%nat then Some (take (depth s) (drop st tokens)) else None.
Proof.
  rewrite lookup_insert. destruct (decide ((i, length tokens) = (i, st))) as [[= <-]|Hne].
  - rewrite decide_True, drop_ge, take_nil by lia. done.
  - assert (st ≠ length tokens) as Hst by congruence. rewrite (ho_windows _ _ _ H). unfold tokens in *. destruct (seqs_ s !! i) as [l|]; simpl in *.
    + destruct (decide (st < length l)%nat); [rewrite decide_True by lia|rewrite decide_False by lia]; done.
    + rewrite decide_False by lia. done.
Qed.
Lemma end_windows : windows (depth s) (<[i := tokens ++ [t]]> (seqs_ s)) (grown (<[(i, length tokens) := []]> W) i t tokens al2 (length al2)).
Proof.
  destruct next_al as [Hlen _]. intros j st. rewrite grown_lookup. destruct (decide (j = i)) as [->|Hj].
  - rewrite (lookup_insert_eq (seqs_ s)). simpl. rewrite length_app. simpl. rewrite start_windows.
    destruct (decide (st < length tokens + 1)%nat) as [Hst|Hst]; [|rewrite decide_False by lia; done].
    case_decide as Hb; f_equal.
    + rewrite take_ge by (rewrite length_drop, length_app; simpl; lia). by rewrite drop_app_le by lia.
    + rewrite drop_app_le by lia. rewrite take_app_le by (rewrite length_drop; lia). done.
  - rewrite decide_False by naive_solver. rewrite (lookup_insert_ne (seqs_ s)), (lookup_insert_ne W) by congruence. apply H.
Qed.
Lemma append_wp :
  wp (append i t) (λ _ s', seqs_ s' = <[i := tokens ++ [t]]> (seqs_ s) ∧ max_depth_ s' = max_depth_ s ∧ ∃ W' P', holds s' W' P') s.
Proof.
  pose proof (ho_compact _ _ _ H) as K. destruct next_al as [Hlen Hact].
  apply append_start. intros s2 dr Hdr Ar2 St2 Hd2 Hs2 Ha2.
  assert (Hnone : W !! (i, length tokens) = None).
  { rewrite (ho_windows _ _ _ H). unfold tokens. destruct (seqs_ s !! i) as [l|]; [|done]. simpl. by rewrite decide_False by lia. }
  pose proof (start_compact _ _ _ i (length tokens) dr K Hdr Hnone) as K2. rewrite <-St2 in K2.
  assert (Hin2 : ∀ x, is_Some (nodes s !! x) → is_Some (nodes s2 !! x)).
  { intros x Hx. apply is_stored. apply is_stored in Hx. rewrite St2. unfold start. rewrite lookup_insert. by case_decide. }
  eapply wp_mono; [eapply (loop_spec s2 _ P K2 Ar2 i t tokens al2 (depth s) Hi Ht Hmax)|].
  - by rewrite Hs2, lookup_insert_eq.
  - by rewrite Ha2, lookup_insert_eq.
  - done.
  - apply start_windows.
  - intros j st w Hj. rewrite lookup_insert_ne, Hs2, lookup_insert_ne by congruence. by apply holds_prefix with P.
  - intros k w x Hw. rewrite lookup_insert in Hw. case_decide; [|by eapply holds_valid]. injection Hw as <-. intros Hx. by apply elem_of_nil in Hx.
  - intros k a Ha. destruct (Hact k a Ha) as [? ?]. auto.
  - intros [] s' (Ar' & Hd' & Hs' & P' & al' & Ha' & K' & Hl' & Hal' & Hkeep). rewrite Hs2 in Hs'. rewrite Hd2 in Hd'.
    assert (Hdep : depth s' = depth s) by (unfold depth; by rewrite Hd'). split_and!; [done|done|]. eexists _, P'. split; rewrite ?Hdep, ?Hs'; [apply end_windows|done|done|..].
    + intros j l [[<- <-]|[Hj Hl]]%lookup_insert_Some; [|by apply (ho_keys _ _ _ H)]. split; [done|]. intros x [Hx| ->%list_elem_of_singleton]%elem_of_app; [|done].
      unfold tokens in Hx. destruct (seqs_ s !! i) as [l|] eqn:Hl; simpl in Hx; [by apply (ho_keys _ _ _ H i l Hl)|by apply elem_of_nil in Hx].
    + intros j l [[<- <-]|[Hj Hl]]%lookup_insert_Some.
      * exists al'. rewrite Ha', lookup_insert_eq, length_app. simpl. split_and!; [done|lia|]. intros k a Hk. destruct (Hal' k a Hk) as [? ->].
        pose proof (lookup_lt_Some _ _ _ Hk). split; [done|]. rewrite decide_True, drop_app_le by lia. by rewrite Hl'.
      * destruct (ho_active _ _ _ H j l Hl) as (alj & Hja & Hlj & _). exists alj. rewrite Ha', lookup_insert_ne, Ha2, lookup_insert_ne by done.
        split_and!; [done|done|]. intros k a Hk. destruct (holds_active s W P j l alj k a H Hl Hja Hk) as (Hin & HPa & HWa).
        destruct (Hkeep a) as [H1 H2]; [auto| |split; [done|congruence]]. exists j, (length l - length alj + k)%nat.
        rewrite lookup_insert_ne by congruence. done.
    + intros j Hj. apply lookup_insert_None in Hj as [Hj Hne]. rewrite Ha', lookup_insert_ne, Ha2, lookup_insert_ne by done. by apply (ho_idle _ _ _ H).
Qed.
End append.

(** ** The theorems *)

(** The tree is the one of the suffixes of its sequences. *)
Definition represents s : Prop := ∃ W P, holds s W P.
Definition sequence s (i : Z) : list Z := default [] (seqs_ s !! i).

Lemma new_represents d : represents (SuffixTree_new d).
Proof.
  set (s := SuffixTree_new d).
  assert (Hl : ∀ a n, nodes s !! a = Some n → a = root ∧ n = Node_default).
  { intros a n. simpl. intros [<- <-]%lookup_singleton_Some. done. }
  assert (Hd : ∀ a x, store s !! a = Some x → a = root ∧ x = data Node_default).
  { intros a x (n & Hn & <-)%store_node. by destruct (Hl a n Hn) as [-> ->]. }
  assert (Hc : ∀ q, cnt ∅ q = 0).
  { intros q. pose proof (cnt_nonneg ∅ q). destruct (decide (0 < cnt ∅ q)) as [(k & w & Hw & _)%windows_pos|]; [done|lia]. }
  exists ∅, (λ _, []). split; try done.
  - split.
    + by exists (data Node_default).
    + done.
    + intros a x Hx. destruct (Hd a x Hx) as [_ ->]. by rewrite Hc.
    + intros a x Hx Hr. by destruct (Hd a x Hx).
    + intros a x Hx Hr. by destruct (Hd a x Hx).
    + intros b x t oc Hx. by destruct (Hd b x Hx) as [_ ->].
    + intros b x t _. rewrite Hc. lia.
    + intros a x Hx Hr. by destruct (Hd a x Hx).
    + intros a x i e Hx. by destruct (Hd a x Hx) as [_ ->].
    + done.
  - split.
    + split.
      * intros a [n Hn]. destruct (Hl a n Hn) as [-> _]. simpl. unfold root. lia.
      * intros g [x Hx]. done.
      * intros b n g Hn. by destruct (Hl b n Hn) as [_ ->].
    + intros b [n Hn] _. destruct (Hl b n Hn) as [-> ->]. exists []. split; [split; split|].
      * by exists Node_default.
      * apply not_elem_of_nil.
      * apply NoDup_nil_2.
      * done.
      * intros x Hx. by apply elem_of_nil in Hx.
      * done.
      * apply NoDup_nil_2.
      * constructor.
      * intros r Hr. by apply elem_of_nil in Hr.
      * intros r x Hr. by apply elem_of_nil in Hr.
      * intros r x c q Hr. by apply elem_of_nil in Hr.
      * intros c. split; [intros Hx; by apply elem_of_nil in Hx|]. intros (_ & m & Hm & Hp). destruct (Hl c m Hm) as [_ ->]. done.
Qed.
Lemma append_represents s i t :
  represents s → valid i → valid t → Z.of_nat (length (sequence s i)) + 1 < 2 ^ 31 →
  wp (append i t) (λ _ s', represents s' ∧ seqs_ s' = <[i := sequence s i ++ [t]]> (seqs_ s) ∧ max_depth_ s' = max_depth_ s) s.
Proof.
  intros (W & P & H) Hi Ht Hmax. eapply wp_mono; [by eapply append_wp|]. intros [] s' (? & ? & W' & P' & ?). split_and!; [by exists W', P'|done|done].
Qed.
Lemma extend_represents s i ts :
  represents s → valid i → (∀ t, t ∈ ts → valid t) → Z.of_nat (length (sequence s i) + length ts) < 2 ^ 31 →
  wp (extend i ts) (λ _ s', represents s' ∧ sequence s' i = sequence s i ++ ts ∧ (∀ j, j ≠ i → sequence s' j = sequence s j) ∧
    max_depth_ s' = max_depth_ s) s.
Proof.
  revert s. unfold extend. induction ts as [|t ts IH]; intros s Hr Hi Hts Hmax; simpl.
  { split_and!; try done. by rewrite app_nil_r. }
  simpl in Hmax. eapply wp_seq; [apply append_represents; [done|done|apply Hts; left|lia]|]. intros [] s1 (Hr1 & Hs1 & Hd1).
  assert (E : sequence s1 i = sequence s i ++ [t]) by (unfold sequence at 1; by rewrite Hs1, lookup_insert_eq).
  eapply wp_mono; [apply IH; [done|done|intros x Hx; apply Hts; by right|rewrite E, length_app; simpl; lia]|].
  intros [] s2 (Hr2 & Hi2 & Hj2 & Hd2). split_and!; [done|by rewrite Hi2, E, <-app_assoc| |congruence].
  intros j Hj. rewrite Hj2 by done. unfold sequence. by rewrite Hs1, lookup_insert_ne.
Qed.

(** C22: A tree that is the compressed tree of the suffixes of its sequences (the nodes are where suffixes end or part, with the right counts, labels, endpoints and active nodes, and the children of a node are linked in the order of their counts, by groups) is one after [append], with the token at the end of the sequence, whichever of the cases of the loop arise: no assert fails, and no pointer that is null or freed is used. *)
Theorem append_keeps s i t :
  represents s → valid i → valid t → Z.of_nat (length (sequence s i)) + 1 < 2 ^ 31 →
  wp (append i t) (λ _ s', represents s' ∧ seqs_ s' = <[i := sequence s i ++ [t]]> (seqs_ s) ∧ max_depth_ s' = max_depth_ s) s.
Proof. apply append_represents. Qed.

(** ** A tree of two sequences *)

Definition sample_run : Tree unit := extend 7 [1; 2; 1; 2; 3] ≫= λ _, extend 8 [2; 1; 2].
Definition sample : SuffixTree :=
  match sample_run (SuffixTree_new 3) with Done _ s => s | _ => SuffixTree_new 3 end.
Lemma small_valid (l : list Z) : forallb (λ t, 0 <? t) l = true → ∀ t, t ∈ l → valid t.
Proof.
  intros Hl t Ht. apply list_elem_of_In in Ht. apply forallb_forall with (2 := Ht) in Hl. apply Z.ltb_lt in Hl.
  unfold valid, KEY_EMPTY, KEY_TOMBSTONE. lia.
Qed.
Lemma sample_facts : represents sample ∧ sequence sample 7 = [1; 2; 1; 2; 3] ∧ sequence sample 8 = [2; 1; 2] ∧ max_depth_ sample = 3.
Proof.
  assert (Hw : wp sample_run (λ _ s, represents s ∧ sequence s 7 = [1; 2; 1; 2; 3] ∧
    sequence s 8 = [2; 1; 2] ∧ max_depth_ s = 3) (SuffixTree_new 3)).
  { eapply wp_seq; [apply extend_represents; [apply new_represents|apply (small_valid [7]); [done|left]|by apply small_valid|done]|].
    intros [] s (Hr & H7 & Hj & Hd). eapply wp_mono; [apply extend_represents; [done|apply (small_valid [8]); [done|left]|by apply small_valid|]|].
    - by rewrite Hj.
    - intros [] s' (Hr' & H8 & Hj' & Hd'). split_and!; [done| | |by rewrite Hd', Hd].
      + by rewrite Hj', H7.
      + by rewrite H8, Hj. }
  unfold wp in Hw. unfold sample. destruct (sample_run (SuffixTree_new 3)); done.
Qed.
Lemma append_keeps_witness :
  represents sample ∧ wp (append 8 3) (λ _ s', represents s' ∧ seqs_ s' = <[8 := sequence sample 8 ++ [3]]> (seqs_ sample) ∧
    max_depth_ s' = max_depth_ sample) sample.
Proof.
  pose proof sample_facts as (Hr & _ & H8 & _). split; [exact Hr|]. apply append_keeps; [exact Hr| | |by rewrite H8].
  - apply (small_valid [8]); [reflexivity|left].
  - apply (small_valid [3]); [reflexivity|left].
Defined.
