(* ===== verification/SuffixMatch.v ===== *)
(** What the suffix tree ([SuffixTree]) is for: [match_context] finds a context where it
    occurs in the sequences, with the number of its occurrences, and the drafts of
    [speculate_path] go on as some sequence does. *)

From stdpp Require Import base gmap list strings.
From Stdlib Require Import ZArith Lia.
From S2P Require Import Prelude Int32Map LogprobState SuffixTree SuffixOps SuffixSiblings SuffixGroups SuffixCounts SuffixPaths SuffixStores SuffixStep SuffixAppend.
Open Scope Z_scope.

Implicit Types (s : SuffixTree) (a b c : nat) (n : Node) (W : Windows) (P : nat → list Z) (q : list Z).

(** ** Occurrences *)

(** Where [q] begins in the sequences *)
Definition positions q (seqs : gmap Z (list Z)) : list (Z * nat) :=
  map_to_list seqs ≫= λ x, pair x.1 <$> filter (λ st, q `prefix_of` drop st x.2) (seq 0 (length x.2)).
Definition occurrences q (seqs : gmap Z (list Z)) : Z := Z.of_nat (length (positions q seqs)).
Lemma elem_of_positions q seqs i st :
  (i, st) ∈ positions q seqs ↔ ∃ l : list Z, seqs !! i = Some l ∧ (st < length l)%nat ∧ q `prefix_of` drop st l.
Proof.
  unfold positions. rewrite list_elem_of_bind. split.
  - intros ([j l] & (st' & [= -> ->] & [Hp Hst%elem_of_seq]%list_elem_of_filter)%list_elem_of_fmap & Hj%elem_of_map_to_list).
    exists l. split_and!; [done|simpl in Hst; lia|done].
  - intros (l & Hl & Hst & Hp). exists (i, l). split; [|by apply elem_of_map_to_list].
    apply list_elem_of_fmap. exists st. split; [done|]. apply list_elem_of_filter. split; [done|]. apply elem_of_seq. simpl. lia.
Qed.
Lemma positions_nodup q seqs : NoDup (positions q seqs).
Proof.
  unfold positions. pose proof (NoDup_fst_map_to_list seqs) as Hnd. induction (map_to_list seqs) as [|[i l] L IH]; simpl; [constructor|].
  simpl in Hnd. apply NoDup_cons in Hnd as [Hi Hnd]. apply NoDup_app. split_and!.
  - apply NoDup_fmap_2; [intros x y; congruence|]. apply NoDup_filter, NoDup_seq.
  - intros [j st] (st' & [= -> ->] & _)%list_elem_of_fmap Hx. apply list_elem_of_bind in Hx as ([j' l'] & (st'' & [= -> ->] & _)%list_elem_of_fmap & Hj).
    apply Hi. apply list_elem_of_fmap. by exists (j', l').
  - by apply IH.
Qed.
(** A window has what occurs at its start, up to the depth. *)
Lemma cnt_occurrences d seqs W q : windows d seqs W → (length q ≤ d)%nat → cnt W q = occurrences q seqs.
Proof.
  intros HW Hd. unfold cnt, occurrences. f_equal. rewrite <-(size_list_to_set (C := gset (Z * nat)) (positions q seqs)) by apply positions_nodup.
  f_equal. apply set_eq. intros [i st]. rewrite elem_of_through, elem_of_list_to_set, elem_of_positions, HW. split.
  - intros (w & Hw & Hp). destruct (seqs !! i) as [l|]; [|done]. simpl in Hw. case_decide; [|done]. injection Hw as <-. exists l. split_and!; [done..|].
    etrans; [exact Hp|]. apply prefix_take.
  - intros (l & Hl & Hst & [v Hv]). rewrite Hl. simpl. rewrite decide_True by done. eexists. split; [done|]. rewrite Hv, take_app_ge by done.
    by apply prefix_app_r.
Qed.
Lemma cnt_occurs d seqs W q : windows d seqs W → 0 < cnt W q → 0 < occurrences q seqs.
Proof.
  intros HW ((i & st) & w & Hw & Hp)%windows_pos. rewrite HW in Hw. destruct (seqs !! i) as [l|] eqn:Hl; [|done]. simpl in Hw. case_decide; [|done].
  injection Hw as <-. assert ((i, st) ∈ positions q seqs) as Hin.
  { apply elem_of_positions. exists l. split_and!; [done..|]. etrans; [exact Hp|]. apply prefix_take. }
  unfold occurrences. destruct (positions q seqs); [by apply elem_of_nil in Hin|simpl; lia].
Qed.

(** ** Matching *)

Section tree.
Context (s : SuffixTree) (W : Windows) (P : nat → list Z) (H : holds s W P).
Let K : compact (store s) W P := ho_compact _ _ _ H.

(** Tokens [q] are matched up to the index [idx] of the node [a]. *)
Definition at_index q a (idx : Z) : Prop :=
  ∃ n v, nodes s !! a = Some n ∧ P a = q ++ v ∧ 0 ≤ idx ∧ length_ n = idx + Z.of_nat (length v) ∧ (idx = 0 → a = root) ∧ cnt W q = cnt W (P a).
(** The next token at the index: inside the run of [a] *)
Definition inside q a (idx : Z) (x : Z) : Prop :=
  ∃ n v, nodes s !! a = Some n ∧ a ≠ root ∧ P a = q ++ x :: v ∧ 0 ≤ idx ∧ length_ n = idx + Z.of_nat (S (length v)) ∧ cnt W (q ++ [x]) = cnt W (P a).

Lemma at_root : at_index [] root 0.
Proof.
  destruct (cp_root _ _ _ K) as (d & Hd & _ & Hl). apply store_node in Hd as (n & Hn & <-). exists n, [].
  rewrite (cp_root_path _ _ _ K). split_and!; done.
Qed.
(** The labels of a node, from an index on *)
Lemma edge_cnt a n q v : nodes s !! a = Some n → a ≠ root → P a = q ++ v → Z.of_nat (length v) < length_ n → cnt W q = cnt W (P a).
Proof.
  intros Hn Hr HP Hlen. destruct (cp_edge _ _ _ K a _ (store_data _ _ _ Hn) Hr) as (b & db & u & _ & _ & HPa & Hl & _ & Hv). simpl in *.
  rewrite HPa, cons_middle, app_assoc in HP. apply app_eq_inv in HP as [(k & E & ->)|(k & -> & ->)].
  - rewrite length_app in Hlen. assert (k = []) as -> by (destruct k; [done|]; simpl in Hlen; lia).
    rewrite app_nil_r in E. rewrite <-E. apply (Hv []), prefix_nil.
  - rewrite <-app_assoc. apply (Hv k). by apply prefix_app_r.
Qed.
(** A node other than the root has windows. *)
Lemma node_cnt a n : nodes s !! a = Some n → a ≠ root → 0 < cnt W (P a).
Proof. intros Hn Hr. by apply (cp_live _ _ _ K a _ (store_data _ _ _ Hn) Hr). Qed.
Lemma inside_next q a idx x : inside q a idx x → at_index (q ++ [x]) a (idx + 1).
Proof. intros (n & v & Hn & Hr & HP & Hi & Hl & Hc). exists n, v. rewrite <-app_assoc. split_and!; try done; lia. Qed.
(** The token at the index *)
Lemma wp_label q a idx x n (Q : Z → SuffixTree → Prop) :
  inside q a idx x → nodes s !! a = Some n → Q x s → wp (seq_token (ref_seq n) (ref_idx n + idx)) Q s.
Proof.
  intros (n' & v & Hn & Hr & HP & Hi & Hl & _) Hn' HQ. rewrite Hn in Hn'. injection Hn' as <-.
  destruct (cp_ref _ _ _ K a _ (store_data _ _ _ Hn) Hr) as (st & w & Hw & [w1 ->] & Hidx). simpl in *.
  destruct (holds_prefix s W P _ _ _ H Hw) as (Hj & l & Hs & [w2 Hd]).
  assert (Hlp : length (P a) = (length q + S (length v))%nat) by (rewrite HP, length_app; done).
  assert (Z.to_nat (ref_idx n' + idx) = (st + length q)%nat) as Hz by lia.
  eapply (wp_seq_token _ l); [done|done|lia| |done].
  rewrite Hz, <-lookup_drop, Hd, HP, <-!app_assoc, lookup_app_r, Nat.sub_diag by lia. done.
Qed.
(** In the run of the node, or at its end *)
Lemma at_inside q a idx n : at_index q a idx → nodes s !! a = Some n → idx < length_ n → ∃ x, inside q a idx x ∧ cnt W (q ++ [x]) = cnt W q.
Proof.
  intros (n' & v & Hn & HP & Hi & Hl & Hr & Hc) Hn' Hlt. rewrite Hn in Hn'. injection Hn' as <-. destruct v as [|x v]; [simpl in Hl; lia|].
  assert (a ≠ root) as Har. { intros ->. rewrite (cp_root_path _ _ _ K) in HP. by destruct q. }
  assert (0 < idx) as H0 by (destruct (decide (idx = 0)); [by destruct Har; auto|lia]).
  assert (E : cnt W (q ++ [x]) = cnt W (P a)). { eapply (edge_cnt a n' _ v); [done|done|by rewrite <-app_assoc|simpl in Hl; lia]. }
  exists x. split; [|congruence]. exists n', v. done.
Qed.
Lemma at_end q a idx n : at_index q a idx → nodes s !! a = Some n → length_ n ≤ idx → P a = q ∧ cnt W q = count n.
Proof.
  intros (n' & v & Hn & HP & Hi & Hl & Hr & Hc) Hn' Hlt. rewrite Hn in Hn'. injection Hn' as <-.
  assert (v = []) as -> by (destruct v; [done|simpl in Hl; lia]). rewrite app_nil_r in HP. split; [done|].
  rewrite Hc. symmetry. exact (cp_count _ _ _ K a _ (store_data _ _ _ Hn)).
Qed.
Lemma child_inside q a n t c : nodes s !! a = Some n → P a = q → children n !! t = Some (Some c) → inside q c 0 t.
Proof.
  intros Hn HP Hc. destruct (cp_find _ _ _ K a _ t c (store_data _ _ _ Hn) Hc) as (dc & u & Hdc & Hr & Hp & Ht & HPc & Hl & Hv).
  apply store_node in Hdc as (nc & Hnc & <-). simpl in *. exists nc, u. rewrite HP in *. split_and!; try done.
  apply (Hv []), prefix_nil.
Qed.

(** The node and the index of a context: its tokens occur as often as the node counts. *)
Lemma match_from_spec context q a idx :
  (∀ t, t ∈ context → valid t) → at_index q a idx →
  wp (match_from context a idx) (λ r s', s' = s ∧ match r with
    | Some (b, j) => at_index (q ++ context) b j
    | None => context ≠ [] ∧ cnt W (q ++ context) = 0
    end) s.
Proof.
  revert q a idx. induction context as [|t context IH]; intros q a idx Hval Hat; simpl.
  { apply wp_ret. by rewrite app_nil_r. }
  assert (Hgone : cnt W (q ++ [t]) = 0 → s = s ∧ (t :: context ≠ [] ∧ cnt W (q ++ t :: context) = 0)).
  { intros Hz. split_and!; [done..|]. pose proof (cnt_nonneg W (q ++ t :: context)).
    assert (cnt W (q ++ t :: context) ≤ cnt W (q ++ [t])); [|lia]. apply cnt_mono. apply prefix_app. exists context. done. }
  assert (Hok : valid t) by (apply Hval; left).
  assert (Hgo : ∀ b j m, inside q b j t → nodes s !! b = Some m → wp (match_from context b (j + 1)) (λ r s', s' = s ∧ match r with
    | Some (b, j) => at_index (q ++ t :: context) b j
    | None => t :: context ≠ [] ∧ cnt W (q ++ t :: context) = 0
    end) s).
  { intros b j m Hin _. eapply wp_mono; [apply (IH (q ++ [t])); [intros x Hx; apply Hval; by right|by eapply inside_next]|].
    intros r s' [-> Hr]. split; [done|]. rewrite <-app_assoc in Hr. destruct r as [[??]|]; [done|]. split; [done|apply Hr]. }
  pose proof Hat as (n & v & Hn & _). tree_steps. destruct (Z.leb_spec (length_ n) idx) as [Hle|Hlt].
  - destruct (at_end q a idx n Hat Hn Hle) as [HPa Hcq]. apply wp_bind, wp_find_child; [done|].
    destruct (children n !! t) as [oc|] eqn:Hch.
    + destruct (cp_child _ _ _ K a _ t oc (store_data _ _ _ Hn) Hch) as (c & dc & -> & Hdc & _). apply store_node in Hdc as (nc & Hnc & _).
      pose proof (child_inside q a n t c Hn HPa Hch) as Hin. pose proof Hin as (nc' & u & Hnc' & _ & _ & _ & Hl & _). rewrite Hnc in Hnc'. injection Hnc' as <-.
      tree_steps. apply wp_check; [apply Z.ltb_lt; lia|]. apply wp_bind. eapply wp_label; [exact Hin|done|]. rewrite Z.eqb_refl. simpl. by apply (Hgo c 0 nc).
    + tree_steps. apply Hgone. rewrite <-HPa. exact (cp_none _ _ _ K a _ t (store_data _ _ _ Hn) Hch).
  - tree_steps. apply wp_check; [apply Z.ltb_lt; lia|]. destruct (at_inside q a idx n Hat Hn Hlt) as (x & Hin & Hcx). apply wp_bind. eapply wp_label; [exact Hin|done|].
    destruct (Z.eqb_spec x t) as [->|Hxt]; simpl; [by eapply Hgo|]. apply wp_ret, Hgone.
    destruct (decide (cnt W (q ++ [t]) = 0)) as [|Hne]; [done|]. exfalso. pose proof (cnt_nonneg W (q ++ [t])).
    destruct (proj1 (windows_pos W (q ++ [t]))) as (k & w & Hw & Hp); [lia|].
    enough (cnt W (q ++ [x]) + 1 ≤ cnt W q) by lia. eapply (cnt_one W q (q ++ [x]) k w); [by apply prefix_app_r|done|etrans; [by apply prefix_app_r|exact Hp]|].
    intros [w1 ->]. destruct Hp as [w2 E]. rewrite <-!app_assoc in E. apply app_inv_head in E. simpl in E. congruence.
Qed.

(** ** Drafts *)

(** [head_child] is the child with the most windows. *)
Lemma head_most a n c :
  nodes s !! a = Some n → head_child n = Some c →
  ∃ nc, nodes s !! c = Some nc ∧ children n !! token nc = Some (Some c) ∧
    ∀ t, cnt W (P a ++ [t]) ≤ cnt W (P a ++ [token nc]).
Proof.
  intros Hn Hh. destruct (ar_sib _ _ _ (ho_arranged _ _ _ H) a ltac:(eauto) ltac:(apply not_elem_of_nil)) as (rs & [C G] & Hrs).
  destruct (ch_parent _ _ _ C) as (n' & Hn' & Hh' & _). rewrite Hn in Hn'. injection Hn' as <-. rewrite Hh in Hh'.
  pose proof (store_data _ _ _ Hn) as Hd.
  assert (Hc : c ∈ members rs) by (destruct (members rs); [done|]; injection Hh' as ->; left).
  destruct (proj1 (Hrs c) Hc) as (_ & nc & Hnc & Hp). exists nc. pose proof (child_of s W P a _ c nc K Hd Hnc Hp) as Hch. split_and!; [done|done|].
  intros t. rewrite (cp_child_count _ _ _ K a _ _ c _ Hd Hch (store_data _ _ _ Hnc)).
  destruct (children n !! t) as [oc|] eqn:Ht.
  2:{ rewrite (cp_none _ _ _ K a _ t Hd Ht). pose proof (cp_count _ _ _ K c _ (store_data _ _ _ Hnc)) as ->. apply cnt_nonneg. }
  destruct (cp_child _ _ _ K a _ t oc Hd Ht) as (x & dx & -> & Hdx & Hpx & _). rewrite (cp_child_count _ _ _ K a _ _ x _ Hd Ht Hdx).
  apply store_node in Hdx as (nx & Hnx & <-). simpl in Hpx |- *.
  assert (Hx : x ∈ members rs) by (apply Hrs; split; [apply not_elem_of_nil|eauto]).
  destruct rs as [|[g k l] R]; [by apply elem_of_nil in Hc|]. destruct (gr_head _ _ _ G (mkRun g k l) ltac:(left)) as [Hl _]. simpl in Hl.
  destruct l as [|c' l]; [done|]. simpl in Hh'. injection Hh' as <-.
  pose proof (gr_member _ _ _ G _ c ltac:(left) ltac:(left)) as (nc' & Hnc' & Hkc & _)%view_node. rewrite Hnc in Hnc'. injection Hnc' as <-. simpl in Hkc.
  apply elem_of_members in Hx as (r & Hr & Hx). pose proof (gr_member _ _ _ G r x Hr Hx) as (nx' & Hnx' & Hkx & _)%view_node. rewrite Hnx in Hnx'. injection Hnx' as <-.
  apply elem_of_cons in Hr as [->|Hr]; [simpl in Hkx; lia|]. pose proof (counts_below s a [] g k (c :: l) R G r Hr). lia.
Qed.
End tree.

(** Tokens that go on from [q], each the most frequent one after those before *)
Inductive likely (seqs : gmap Z (list Z)) : list Z → list Z → Prop :=
  | likely_nil q : likely seqs q []
  | likely_cons q x ts :
      0 < occurrences (q ++ [x]) seqs → (∀ y, occurrences (q ++ [y]) seqs ≤ occurrences (q ++ [x]) seqs) →
      likely seqs (q ++ [x]) ts → likely seqs q (x :: ts).

Section draft.
Context {F : Type} `{FloatOps F} `{SpecOps F}.
Context (s : SuffixTree) (W : Windows) (P : nat → list Z) (Ho : holds s W P).
Let K : compact (store s) W P := ho_compact _ _ _ Ho.
Lemma likely_step q a idx x ts :
  inside s W P q a idx x → (∀ y, cnt W (q ++ [y]) ≤ cnt W (q ++ [x])) → likely (seqs_ s) (q ++ [x]) ts → likely (seqs_ s) q (x :: ts).
Proof.
  intros Hin Hy Hts. pose proof (ho_windows _ _ _ Ho) as HW. destruct Hin as (n & v & Hn & Hr & HP & _ & _ & Hc).
  pose proof (node_cnt s W P Ho a n Hn Hr) as Hpos.
  assert (Hlen : (length (q ++ [x]) ≤ depth s)%nat).
  { rewrite <-Hc in Hpos. apply windows_pos in Hpos as ((i & st) & w & Hw & Hp). rewrite (HW i st) in Hw. destruct (seqs_ s !! i); [|done]. simpl in Hw.
    case_decide; [|done]. injection Hw as <-. apply prefix_length in Hp. etrans; [exact Hp|]. rewrite length_take. lia. }
  assert (E : ∀ y, cnt W (q ++ [y]) = occurrences (q ++ [y]) (seqs_ s)).
  { intros y. apply (cnt_occurrences _ _ _ _ HW). rewrite length_app in *. done. }
  apply likely_cons; [rewrite <-E; lia|intros y; rewrite <-!E; apply Hy|done].
Qed.
(** The draft so far is a chain: token [k] comes after token [k - 1]. *)
Definition chained (d : Draft (F := F)) : Prop := parents d = seqZ (-1) (Z.of_nat (length (token_ids d))) ∧ length (probs d) = length (token_ids d).
Lemma path_loop_spec k q a idx max_spec_tokens min_token_prob prob d :
  0 ≤ max_spec_tokens < 2 ^ 31 → chained d → Z.of_nat (length (token_ids d)) ≤ max_spec_tokens →
  ((at_index s W P q a idx ∧ (2 * (Z.to_nat max_spec_tokens - length (token_ids d)) < k)%nat) ∨
   ∃ x, inside s W P q a idx x ∧ (∀ y, cnt W (q ++ [y]) ≤ cnt W (q ++ [x])) ∧
     (length (token_ids d) < Z.to_nat max_spec_tokens)%nat ∧ (2 * (Z.to_nat max_spec_tokens - length (token_ids d)) ≤ k)%nat) →
  wp (path_loop k a idx max_spec_tokens min_token_prob prob d) (λ d' s', s' = s ∧ chained d' ∧
    Z.of_nat (length (token_ids d')) ≤ max_spec_tokens ∧ ∃ ts, token_ids d' = token_ids d ++ ts ∧ likely (seqs_ s) q ts) s.
Proof.
  intros Hmax. revert q a idx prob d. induction k as [|k IH]; intros q a idx prob d Hd Hle Hst;
    [destruct Hst as [[_ ?]|(x & _ & _ & ? & ?)]; lia|].
  assert (Hdone : s = s ∧ chained d ∧ Z.of_nat (length (token_ids d)) ≤ max_spec_tokens ∧ ∃ ts, token_ids d = token_ids d ++ ts ∧ likely (seqs_ s) q ts).
  { split_and!; [done..|]. exists []. rewrite app_nil_r. split; [done|constructor]. }
  simpl. assert (u64 max_spec_tokens = max_spec_tokens) as -> by (unfold u64; rewrite Z.mod_small; lia).
  destruct ((_ <? _) && _) eqn:E; [|by apply wp_ret]. apply andb_true_iff in E as [Hlt%Z.ltb_lt _].
  assert (Hin : ∃ n, nodes s !! a = Some n) by (destruct Hst as [[(n & v & Hn & _) _]|(x & (n & v & Hn & _) & _)]; eauto).
  destruct Hin as [n Hn]. tree_steps.
  assert (Hstep : ∀ x, inside s W P q a idx x → (∀ y, cnt W (q ++ [y]) ≤ cnt W (q ++ [x])) → idx < length_ n →
    (2 * (Z.to_nat max_spec_tokens - length (token_ids d)) ≤ S k)%nat →
    wp (seq_token (ref_seq n) (ref_idx n + idx) ≫= λ t, path_loop k a (idx + 1) max_spec_tokens min_token_prob prob
          (add_token t (Z.of_nat (length (token_ids d)) - 1) prob d))
      (λ d' s', s' = s ∧ chained d' ∧ Z.of_nat (length (token_ids d')) ≤ max_spec_tokens ∧ ∃ ts, token_ids d' = token_ids d ++ ts ∧ likely (seqs_ s) q ts) s).
  { intros x Hx Hy Hil Hk. apply wp_bind. eapply (wp_label s W P Ho q a idx x n _ Hx Hn).
    eapply wp_mono; [apply (IH (q ++ [x]))|].
    - destruct Hd as [Hd1 Hd2]. split; simpl; rewrite !length_app; simpl; [|lia]. rewrite Hd1.
      rewrite Nat2Z.inj_add, seqZ_app by lia. f_equal. unfold seqZ. simpl. f_equal. lia.
    - simpl. rewrite length_app. simpl. lia.
    - left. split; [by apply (inside_next s W P)|]. simpl. rewrite length_app. simpl. lia.
    - intros d' s' (-> & Hc & Hl & ts & Hts & Hlk). split_and!; [done..|]. exists (x :: ts). simpl in Hts. rewrite Hts, <-app_assoc. split; [done|].
      by eapply likely_step. }
  destruct Hst as [[Hat Hk]|(x & Hx & Hy & Hl & Hk)].
  - destruct (Z.ltb_spec idx (length_ n)) as [Hil|Hil].
    + destruct (at_inside s W P Ho q a idx n Hat Hn Hil) as (x & Hx & Hcx). apply (Hstep x); [done| |done|lia].
      intros y. rewrite Hcx. apply cnt_mono. by apply prefix_app_r.
    + destruct (at_end s W P Ho q a idx n Hat Hn Hil) as [HPa _]. destruct (head_child n) as [c|] eqn:Hh; [|by apply wp_ret].
      destruct (head_most s W P Ho a n c Hn Hh) as (nc & Hnc & Hch & Hmost). rewrite HPa in Hmost. tree_steps.
      apply IH; [done|done|]. right. exists (token nc). split_and!; [by eapply (child_inside s W P Ho q a n)|done|lia|lia].
  - pose proof Hx as (n' & v & Hn' & _ & _ & _ & Hll & _). rewrite Hn in Hn'. injection Hn' as <-.
    destruct (Z.ltb_spec idx (length_ n)); [|lia]. by apply (Hstep x).
Qed.

Lemma match_spec context : (∀ t, t ∈ context → valid t) →
  wp (match_context context) (λ r s', s' = s ∧ match r with
    | Some (b, j) => at_index s W P context b j
    | None => context ≠ [] ∧ cnt W context = 0
    end) s.
Proof.
  intros Hval. apply (match_from_spec s W P Ho context [] root 0 Hval), (at_root s W P Ho).
Qed.
Lemma speculate_path_spec context a idx max_spec_tokens min_token_prob :
  context ≠ [] → at_index s W P context a idx → 0 ≤ max_spec_tokens < 2 ^ 31 →
  wp (speculate_path a idx max_spec_tokens min_token_prob) (λ d s', s' = s ∧ chained d ∧
    Z.of_nat (length (token_ids d)) ≤ max_spec_tokens ∧ likely (seqs_ s) context (token_ids d)) s.
Proof.
  intros Hne Hat Hmax. pose proof Hat as (n & v & Hn & HP & _). unfold speculate_path. tree_steps.
  assert (Hr : a ≠ root). { intros ->. rewrite (cp_root_path _ _ _ K) in HP. by destruct context. }
  destruct (cp_ref _ _ _ K a _ (store_data _ _ _ Hn) Hr) as (st & w & Hw & _). destruct (holds_prefix s W P _ _ _ Ho Hw) as (Hj & l & Hs & _).
  simpl in Hs, Hj. eapply wp_seq_of; [done|done|]. unfold u64; rewrite Z.mod_small by lia.
  eapply wp_mono; [apply (path_loop_spec _ context); [done|done|simpl; lia|left; split; [done|simpl; lia]]|].
  intros d s' (-> & Hc & Hl & ts & Hts & Hlk). simpl in Hts. by subst ts.
Qed.
End draft.

(** ** The theorems *)

(** C23: [match_context] leaves the tree as it is, and finds a node for a context, up to the depth of the tree, exactly when it occurs in some sequence; the count of the node is the number of its occurrences in all sequences. *)
Theorem match_context_counts s context :
  represents s → (∀ t, t ∈ context → valid t) → context ≠ [] → (length context ≤ depth s)%nat →
  wp (match_context context) (λ r s', s' = s ∧ match r with
    | Some (a, _) => ∃ n, nodes s !! a = Some n ∧ count n = occurrences context (seqs_ s) ∧ 0 < count n
    | None => occurrences context (seqs_ s) = 0
    end) s.
Proof.
  intros (W & P & H) Hval Hne Hlen. rewrite <-(cnt_occurrences _ _ _ _ (ho_windows _ _ _ H) Hlen).
  eapply wp_mono; [by apply (match_spec s W P H)|]. intros [[a idx]|] s' [-> Hr]; (split; [done|]); [|apply Hr].
  destruct Hr as (n & v & Hn & HP & _ & _ & _ & Hc). exists n. pose proof (cp_count _ _ _ (ho_compact _ _ _ H) a _ (store_data _ _ _ Hn)) as E. simpl in E.
  assert (Hr : a ≠ root). { intros ->. rewrite (cp_root_path _ _ _ (ho_compact _ _ _ H)) in HP. by destruct context. }
  pose proof (node_cnt s W P H a n Hn Hr). split_and!; [done|congruence|lia].
Qed.

Section speculate.
Context {F : Type} `{FloatOps F} `{SpecOps F} `{HeapTop}.
Lemma speculate_loop_spec s W P k context lens max_spec_tokens max_spec_factor max_spec_offset min_token_prob best :
  holds s W P → (∀ t, t ∈ context → valid t) → max_spec_tokens < 2 ^ 31 → (∀ len, len ∈ lens → 0 < len ≤ Z.of_nat (length context)) →
  chained best → likely (seqs_ s) (drop (length context - Z.to_nat (match_len best)) context) (token_ids best) →
  Z.of_nat (length (token_ids best)) ≤ Z.max max_spec_tokens 0 →
  wp (speculate_loop k context lens max_spec_tokens max_spec_factor max_spec_offset min_token_prob false best) (λ d s', s' = s ∧ chained d ∧
    likely (seqs_ s) (drop (length context - Z.to_nat (match_len d)) context) (token_ids d) ∧ Z.of_nat (length (token_ids d)) ≤ Z.max max_spec_tokens 0) s.
Proof.
  intros Ho Hval Hmax. revert best. induction lens as [|len lens IH]; intros best Hlens Hc Hl Hn; simpl; [done|].
  assert (Hlen : 0 < len ≤ Z.of_nat (length context)) by (apply Hlens; left).
  set (suffix := drop (length context - Z.to_nat len) context).
  eapply wp_seq; [apply (match_spec s W P Ho suffix); intros t Ht; apply Hval; by eapply subseteq_drop|].
  intros [[a idx]|] s' [-> Hat]; [|by apply wp_ret].
  eapply wp_seq; [apply (speculate_path_spec s W P Ho suffix); [|done|lia]|].
  { intros E. apply (f_equal length) in E. unfold suffix in E. rewrite length_drop in E. simpl in E. lia. }
  intros d s' (-> & Hc' & Hn' & Hl'). apply IH; [intros x Hx; apply Hlens; by right|..]; destruct (f_leb (score best) (score d)); try done.
  simpl. lia.
Qed.

(** C24: Without tree speculation, [speculate] leaves the tree as it is and its draft continues the last [match_len] tokens of the context as the sequences do: each token is the most frequent one after those before it (in particular it occurs there), every token has the one before it as its parent, and there are at most [max_spec_tokens] of them. *)
Theorem speculate_likely s k context max_spec_tokens (max_spec_factor max_spec_offset min_token_prob : F) :
  represents s → (∀ t, t ∈ context → valid t) → Z.of_nat (length context) < 2 ^ 31 → 0 ≤ max_spec_tokens < 2 ^ 31 →
  wp (speculate k context max_spec_tokens max_spec_factor max_spec_offset min_token_prob false) (λ d s', s' = s ∧
    likely (seqs_ s) (drop (length context - Z.to_nat (match_len d)) context) (token_ids d) ∧
    parents d = seqZ (-1) (Z.of_nat (length (token_ids d))) ∧ length (probs d) = length (token_ids d) ∧
    Z.of_nat (length (token_ids d)) ≤ max_spec_tokens) s.
Proof.
  intros (W & P & Ho) Hval Hlen Hmax. unfold speculate.
  eapply wp_mono; [apply (speculate_loop_spec s W P); try done; [lia| |constructor|simpl; lia]|].
  - intros len (Hl1 & Hl)%elem_of_seqZ. rewrite i32_id in Hl by lia. lia.
  - intros d s' (-> & [Hc1 Hc2] & Hl & Hn). split_and!; try done. lia.
Qed.
End speculate.

(** ** Matching and speculating on the sample tree *)

Lemma match_context_counts_witness :
  represents sample ∧ wp (match_context [1; 2]) (λ r s', s' = sample ∧ match r with
    | Some (a, _) => ∃ n, nodes sample !! a = Some n ∧ count n = occurrences [1; 2] (seqs_ sample) ∧ 0 < count n
    | None => occurrences [1; 2] (seqs_ sample) = 0
    end) sample.
Proof.
  pose proof sample_facts as (Hr & _ & _ & Hd). split; [exact Hr|]. apply match_context_counts; [exact Hr|by apply small_valid|done|].
  unfold depth. rewrite Hd. vm_compute. lia.
Defined.
(** Floats of eighths *)
Definition sample_spec : SpecOps Z := {|
  f_of_int (k : Z) := k * 8; f_mul x y := x * y / 8; f_div x y := x * 8 / y; f_ltb := Z.ltb; f_leb := Z.leb;
  spec_limit match_len factor offset := match_len * factor / 8 + offset / 8
|}.
Definition sample_heap : HeapTop := λ _ _ l, match l with [] => None | _ => Some 0%nat end.
Example sample_speculates :
  match @speculate Z sample_floats sample_spec sample_heap 9 [5; 2; 1] 3 16 0 1 false sample with
  | Done d _ => (token_ids d, parents d, match_len d) | _ => ([], [], 0)
  end = ([2], [-1], 2).
Proof. vm_compute. reflexivity. Qed.
Lemma speculate_likely_witness :
  represents sample ∧ wp (@speculate Z sample_floats sample_spec sample_heap 9 [5; 2; 1] 3 16 0 1 false) (λ d s', s' = sample ∧
    likely (seqs_ sample) (drop (3 - Z.to_nat (match_len d)) [5; 2; 1]) (token_ids d) ∧
    parents d = seqZ (-1) (Z.of_nat (length (token_ids d))) ∧ length (probs d) = length (token_ids d) ∧
    Z.of_nat (length (token_ids d)) ≤ 3) sample.
Proof.
  pose proof sample_facts as (Hr & _). split; [exact Hr|].
  apply (@speculate_likely Z sample_floats sample_spec sample_heap sample 9 [5; 2; 1] 3 16 0 1); [exact Hr|by apply small_valid|reflexivity|lia].
Defined.
