(* ===== verification/Request.v ===== *)
(** A request and its sequences: [core/framework/request/request.{h,cpp}],
    [sequences_group.{h,cpp}], the scheduling fields of [request_state.h] and the
    orders of [priority_comparator.cpp].

    A request owns the sequences that answer its prompt; it starts with one and is
    expanded to [best_of] of them.  The comparators order the requests that wait; the
    ones that compare densities compute on doubles, whose operations are the class
    [DoubleOps].  Outputs, statistics and the beam search step of the group are not
    modelled here. *)

From stdpp Require Import base gmap list strings.
From Stdlib Require Import ZArith Lia ZifyBool.
From S2P Require Import Prelude HashKey Blocks KVState Stopping IncrementalDecoder LogprobState Sequence.
Open Scope Z_scope.

(** [double] *)
Class DoubleOps (D : Type) := {
  d_of_int : Z → D;
  d_add : D → D → D;
  d_sub : D → D → D;
  d_div : D → D → D;
  d_abs : D → D;
  d_ltb : D → D → bool;
  d_epsilon : D;
}.

(** [RequestPriority] and [Urgency], in the order of their values *)
Inductive RequestPriority := PRIO_DEFAULT | PRIO_HIGH | PRIO_NORMAL | PRIO_LOW.
Definition priority_value (p : RequestPriority) : Z :=
  match p with PRIO_DEFAULT => 0 | PRIO_HIGH => 1 | PRIO_NORMAL => 2 | PRIO_LOW => 3 end.
Inductive Urgency := URGENCY_NORMAL | URGENCY_URGENT | URGENCY_STARVED.
Definition urgency_value (u : Urgency) : Z :=
  match u with URGENCY_NORMAL => 0 | URGENCY_URGENT => 1 | URGENCY_STARVED => 2 end.
Definition stage_value (s : SequenceStage) : Z :=
  match s with PREFILL => 0 | CHUNKED_PREFILL => 1 | DECODE => 2 end.

(** [SchedulerParam], the fields the comparators and the scheduler read *)
Record SchedulerParam := mkSchedulerParam {
  sp_offline : bool;
  sp_tpot_priority_weight : Z;
  sp_ttft_priority_weight : Z;
  sp_priority_weight : Z;
  sp_priority : RequestPriority;
}.

Section request.
Context {T : Type} `{FloatOps F}.

(** [Request] with its [RequestState] and [SequencesGroup].  [params_] and [best_of] are
    the [SequenceParams] of the group, [decoder_0] is the decoder [add] builds for a new
    sequence from the prompt, and [has_call] says that the state has a [Call] to ask for
    its connection. *)
Record Request := mkRequest {
  sequences_ : list (Sequence T F);
  params_ : SequenceParams F;
  best_of : nat;
  prompt_tokens_ : list Z;
  decoder_0 : IncrementalDecoder;
  scheduler_param : SchedulerParam;
  created_time_ : Z;
  elapsed_time_ms_ : Z;
  deadline_ms_ : Z;
  urgency_ : Urgency;
  starved_ : bool;
  request_cancelled_ : bool;
  preempted_ : bool;
  has_call : bool;
}.
Definition set_sequences (l : list (Sequence T F)) (r : Request) : Request :=
  mkRequest l (params_ r) (best_of r) (prompt_tokens_ r) (decoder_0 r) (scheduler_param r)
    (created_time_ r) (elapsed_time_ms_ r) (deadline_ms_ r) (urgency_ r) (starved_ r)
    (request_cancelled_ r) (preempted_ r) (has_call r).
Definition set_request_cancelled (b : bool) (r : Request) : Request :=
  mkRequest (sequences_ r) (params_ r) (best_of r) (prompt_tokens_ r) (decoder_0 r) (scheduler_param r)
    (created_time_ r) (elapsed_time_ms_ r) (deadline_ms_ r) (urgency_ r) (starved_ r)
    b (preempted_ r) (has_call r).
(** [set_preempted()] *)
Definition set_preempted (r : Request) : Request :=
  mkRequest (sequences_ r) (params_ r) (best_of r) (prompt_tokens_ r) (decoder_0 r) (scheduler_param r)
    (created_time_ r) (elapsed_time_ms_ r) (deadline_ms_ r) (urgency_ r) (starved_ r)
    (request_cancelled_ r) true (has_call r).

Definition offline (r : Request) : bool := sp_offline (scheduler_param r).
Definition preempted (r : Request) : bool := preempted_ r.
Definition cancelled (r : Request) : bool := request_cancelled_ r.
(** [check_beam_search()] of the request and of its group *)
Definition request_beam_search (r : Request) : bool := 1 <? beam_width (sampling_param (params_ r)).
(** [total_num_blocks()] *)
Definition total_num_blocks (r : Request) : Z :=
  foldl (λ num q, u64 (num + Z.of_nat (num_kv_blocks (kv_state_ q)))) 0 (sequences_ r).

(** [set_cancel()] *)
Definition set_cancel (r : Request) : Request :=
  set_sequences (seq_set_cancel <$> sequences_ r) (set_request_cancelled true r).
(** [update_connection_status()], where [is_disconnected] is the answer of the call *)
Definition update_connection_status (is_disconnected : bool) (r : Request) : Request :=
  if negb (has_call r) then r else if negb is_disconnected then r else set_cancel r.

(** [SequencesGroup::add()] *)
Definition add : prog Request unit :=
  get ≫= λ r,
  Sequence_new (Z.of_nat (length (sequences_ r))) (prompt_tokens_ r) (decoder_0 r) (params_ r) ≫= λ q,
  modify (set_sequences (sequences_ r ++ [q])).
(** [Request(...)]: a group with one sequence; the other fields are those of [r] *)
Definition Request_new (r : Request) : prog Request unit :=
  put (set_sequences [] r) ≫= λ _, add.

(** [sequences_[i]->...] *)
Definition on_sequence {A} (i : nat) (m : prog (Sequence T F) A) : prog Request A :=
  get ≫= λ r,
  at_ (sequences_ r) i ≫= λ q,
  zoom (λ _, q) (λ q' r, set_sequences (<[i := q']> (sequences_ r)) r) m.

(** [std::all_of] of the sequences' [finished()]: it stops at the first that is not *)
Fixpoint all_finished (n i : nat) : prog Request bool :=
  match n with
  | O => mret true
  | S n => on_sequence i finished ≫= λ b : bool, if b then all_finished n (S i) else mret false
  end.
(** [finished()] *)
Definition request_finished : prog Request bool :=
  get ≫= λ r,
  if (length (sequences_ r) <? best_of r)%nat then mret false
  else all_finished (length (sequences_ r)) 0.

(** The [while] of [expand_sequences]: it adds what is missing *)
Fixpoint add_sequences (n : nat) : prog Request unit :=
  match n with O => mret () | S n => add ≫= λ _, add_sequences n end.
(** [expand_sequences(share_prefix)] *)
Definition expand_sequences (share_prefix : bool) : prog Request bool :=
  get ≫= λ r,
  if request_beam_search r then mret false
  else
    let current_seq_count := length (sequences_ r) in
    if (current_seq_count =? best_of r)%nat then mret false
    else if (best_of r <? current_seq_count)%nat then fatal "Request has more than best_of sequences."
    else
      match sequences_ r with
      | [] => fatal "Request has no sequence."
      | seq :: _ =>
          if negb share_prefix ||
             (Z.of_nat (num_prompt_tokens_ seq) <=? kv_cache_tokens_num_ (kv_state_ seq))
          then add_sequences (best_of r - current_seq_count) ≫= λ _, mret true
          else mret false
      end.

(** [SequencesGroup::finish()] *)
Definition group_finish (r : Request) : Request :=
  set_sequences ((λ q, set_fin (mkSeqFinish true false
    (match finish_reason_ (fin q) with NONE => STOP | f => f end)) q) <$> sequences_ r) r.

(** ** Orders

    Each comparator tells whether [a] comes after [b]: the top of a [priority_queue] is
    an element no other one is preferred to. *)

(** [get_remaining_time()] *)
Definition get_remaining_time (r : Request) : Z := i32 (deadline_ms_ r - elapsed_time_ms_ r).
(** [sequences()[0]->stage()]; a request has a sequence *)
Definition first_stage (r : Request) : Z :=
  match sequences_ r with [] => 0 | q :: _ => stage_value (stage q) end.
Definition tpot_priority_weight (r : Request) : Z :=
  i32 (sp_tpot_priority_weight (scheduler_param r) * sp_priority_weight (scheduler_param r)).
Definition ttft_priority_weight (r : Request) : Z :=
  i32 (sp_ttft_priority_weight (scheduler_param r) * sp_priority_weight (scheduler_param r)).

Definition FCFSComparator (a b : Request) : bool := created_time_ b <? created_time_ a.
Definition StrictPriorityComparator (a b : Request) : bool :=
  let priority_a := priority_value (sp_priority (scheduler_param a)) in
  let priority_b := priority_value (sp_priority (scheduler_param b)) in
  if negb (priority_a =? priority_b) then priority_b <? priority_a
  else created_time_ b <? created_time_ a.
Definition DeadlineComparator (a b : Request) : bool := get_remaining_time b <? get_remaining_time a.
Definition DecodeDeadlineComparator (a b : Request) : bool :=
  if first_stage a =? first_stage b then DeadlineComparator a b else first_stage a <? first_stage b.
Definition UrgencyPriorityComparator (a b : Request) : bool :=
  if urgency_value (urgency_ a) =? urgency_value (urgency_ b) then
    match urgency_ a with
    | URGENCY_URGENT | URGENCY_STARVED => StrictPriorityComparator a b
    | URGENCY_NORMAL => DeadlineComparator a b
    end
  else urgency_value (urgency_ a) <? urgency_value (urgency_ b).

Section density.
Context `{DoubleOps D}.
(** [sequences()[0]->estimated_latency()], which a scheduler with latencies sets *)
Variable estimated_latency : Request → D.

(** The end of the comparisons by density: close densities fall back on the age *)
Definition by_density (density_a density_b : D) (a b : Request) : bool :=
  if d_ltb (d_abs (d_sub density_a density_b)) d_epsilon then created_time_ b <? created_time_ a
  else d_ltb density_a density_b.
Definition DensityComparator (a b : Request) : bool :=
  let weight r := if first_stage a =? 2 then tpot_priority_weight r else ttft_priority_weight r in
  by_density (d_div (d_of_int (weight a)) (estimated_latency a))
             (d_div (d_of_int (weight b)) (estimated_latency b)) a b.
Definition SJFComparator (a b : Request) : bool :=
  by_density (d_div (d_of_int 1) (estimated_latency a)) (d_div (d_of_int 1) (estimated_latency b)) a b.
Definition DecodeDensityComparator (a b : Request) : bool :=
  if first_stage a =? first_stage b then DensityComparator a b else first_stage a <? first_stage b.
Definition DensityWithAntiStarveComparator (a b : Request) : bool :=
  if starved_ a && starved_ b then DeadlineComparator a b
  else if negb (starved_ a) && negb (starved_ b) then DensityComparator a b
  else negb (starved_ a) && starved_ b.
Definition DecodeDensityWithAntiStarveComparator (a b : Request) : bool :=
  if (first_stage a =? 2) && (first_stage b =? 2) then DensityComparator a b
  else if negb (first_stage a =? 2) && negb (first_stage b =? 2) then DensityWithAntiStarveComparator a b
  else first_stage a <? first_stage b.
Definition UrgencyDensityComparator (a b : Request) : bool :=
  if urgency_value (urgency_ a) =? urgency_value (urgency_ b) then
    match urgency_ a with
    | URGENCY_URGENT => DecodeDensityWithAntiStarveComparator a b
    | URGENCY_NORMAL => DeadlineComparator a b
    | URGENCY_STARVED => DensityComparator a b
    end
  else urgency_value (urgency_ a) <? urgency_value (urgency_ b).
Definition DecodeUrgencyDensityComparator (a b : Request) : bool :=
  if negb (first_stage a =? 2) && negb (first_stage b =? 2) then UrgencyDensityComparator a b
  else first_stage a <? first_stage b.

(** [create_comparator(priority_strategy, is_reversed)]; an unknown strategy is fatal *)
Definition create_comparator (strategy : string) (is_reversed : bool)
    : option (Request → Request → bool) :=
  (λ cmp a b, xorb (cmp a b) is_reversed) <$>
  (if String.eqb strategy "fcfs" then Some FCFSComparator
   else if String.eqb strategy "priority" then Some StrictPriorityComparator
   else if String.eqb strategy "deadline" then Some DeadlineComparator
   else if String.eqb strategy "sjf" then Some SJFComparator
   else if String.eqb strategy "decode_density" then Some DecodeDensityComparator
   else if String.eqb strategy "density" then Some DensityComparator
   else if String.eqb strategy "urgency_density" then Some UrgencyDensityComparator
   else if String.eqb strategy "decode_urgency_density" then Some DecodeUrgencyDensityComparator
   else if String.eqb strategy "urgency_priority" then Some UrgencyPriorityComparator
   else if String.eqb strategy "decode_deadline" then Some DecodeDeadlineComparator
   else None).
End density.
End request.
Arguments Request T F : clear implicits.

(** ** Sequences *)

Lemma last_valid_state {St} l i (s : St) : post (last_valid l i) (λ _ s', s' = s) s.
Proof.
  induction i as [|i IH]; [done|]. simpl. apply post_bind, post_at. intros t _.
  destruct (0 <=? t); [by apply post_ret|done].
Qed.
Lemma match_stop_state {St} seqs t l (s : St) : post (match_stop_sequences seqs t l) (λ _ s', s' = s) s.
Proof.
  induction seqs as [|x seqs IH]; [by apply post_ret|]. simpl. destruct (last x); [|done].
  destruct (_ && _); [by apply post_ret|done].
Qed.
(** [check] reads only. *)
Lemma check_stop_state {St} c l n (s : St) : post (check_stop c l n) (λ _ s', s' = s) s.
Proof.
  unfold check_stop. apply post_bind, post_check. intros _. apply post_bind.
  eapply post_mono; [apply last_valid_state|]. intros r s' ->. cbv beta zeta.
  repeat lazymatch goal with
  | |- post (if _ then _ else _) _ _ =>
      case_match; [first [by apply post_ret|by apply post_bind, post_check; intros _; apply post_ret]|]
  end.
  apply post_bind. eapply post_mono; [apply match_stop_state|]. intros b s' ->. by apply post_ret.
Qed.

(** A sequence whose stopping rules can be checked: it has real tokens, its prompt among
    them, and no stop sequence is empty. *)
Record checkable {T F} (q : Sequence T F) : Prop := {
  ck_prompt : (0 < num_prompt_tokens_ q ≤ num_tokens_ (toks q))%nat;
  ck_buffer : (num_tokens_ (toks q) ≤ length (tokens_ (toks q)))%nat;
  ck_real : ∃ t, tokens_ (toks q) !! (num_prompt_tokens_ q - 1)%nat = Some t ∧ 0 ≤ t;
  ck_stops : Forall (λ l, l ≠ []) (stop_sequences_ (stopping_checker (sequence_params_ q)));
}.
Lemma last_valid_from {St} l n i (Q : Z * nat → St → Prop) s :
  (0 < n ≤ i)%nat → (i ≤ length l)%nat → (∃ t, l !! (n - 1)%nat = Some t ∧ 0 ≤ t) →
  (∀ r, (n ≤ r.2)%nat → Q r s) → wp (last_valid l i) Q s.
Proof.
  intros Hn Hi (t & Ht & Hpos) HQ. induction i as [|i IH]; [lia|]. simpl.
  destruct (lookup_lt_is_Some_2 l i) as [x Hx]; [lia|]. apply wp_bind. eapply wp_at; [exact Hx|].
  destruct (0 <=? x) eqn:E; [apply wp_ret, HQ; simpl; lia|]. apply Z.leb_gt in E.
  apply IH; [|lia]. assert (n ≠ S i); [|lia]. intros ->. replace (S i - 1)%nat with i in Ht by lia.
  rewrite Hx in Ht. injection Ht as ->. lia.
Qed.
Lemma match_stop_returns {St} seqs t l (Q : bool → St → Prop) s :
  Forall (λ x, x ≠ []) seqs → (∀ b, Q b s) → wp (match_stop_sequences seqs t l) Q s.
Proof.
  intros Hs HQ. induction Hs as [|x seqs Hx _ IH]; [by apply wp_ret|]. simpl.
  destruct (last x) eqn:E; [|by apply last_None in E]. destruct (_ && _); [by apply wp_ret|done].
Qed.
Lemma check_stop_returns {St T F} (q : Sequence T F) (s : St) :
  checkable q →
  wp (check_stop (stopping_checker (sequence_params_ q)) (tokens q) (Z.of_nat (num_prompt_tokens_ q)))
     (λ _ _, True) s.
Proof.
  intros [Hp Hb (t & Ht & Hpos) Hs]. unfold check_stop, tokens.
  assert (length (take (num_tokens_ (toks q)) (tokens_ (toks q))) = num_tokens_ (toks q)) as Hl
    by (rewrite length_take; lia).
  apply wp_bind, wp_check.
  { apply bool_decide_eq_true. intros E. rewrite E in Hl. simpl in Hl. lia. }
  apply wp_bind. apply (last_valid_from _ (num_prompt_tokens_ q)); [lia|lia| |].
  { exists t. split; [|done]. rewrite lookup_take_Some. split; [done|lia]. }
  intros r Hr. cbv zeta. repeat lazymatch goal with
  | |- wp (if _ then _ else _) _ _ =>
      case_match; [first [by apply wp_ret|apply wp_bind, wp_check; [apply Z.leb_le; lia|by apply wp_ret]]|]
  end.
  apply wp_bind, match_stop_returns; [done|]. intros b. by apply wp_ret.
Qed.

Section sequences.
Context {T : Type} `{FloatOps F}.
Implicit Types (r : Request T F) (q : Sequence T F).

(** [finished()] changes the cached status and nothing else. *)
Definition same_but_status q q' : Prop := ∃ f, q' = set_fin f q.
#[export] Instance same_but_status_preorder : PreOrder same_but_status.
Proof.
  split; [intros q; exists (fin q); by destruct q|].
  intros q1 q2 q3 [f ->] [g ->]. by exists g.
Qed.
Lemma finished_post q : post finished (λ _ q', same_but_status q q') q.
Proof.
  unfold finished. apply post_bind, post_get. do 3 (case_match; [by apply post_ret|]).
  unfold seq_modify. post_steps. eapply post_mono; [apply check_stop_state|]. intros f q' ->. cbv beta.
  case_decide; post_steps; unfold set_invalidated; eexists; by destruct q.
Qed.
(** The answer is the cached status from then on. *)
Definition settled q : Prop := finish_status_invalidated_ (fin q) = false.
Lemma finished_returns q : checkable q → wp finished (λ _ q', same_but_status q q') q.
Proof.
  intros Hc. eapply wp_mono; [apply (wp_post _ (λ _ _, True)); [|apply finished_post]|by intros ?? [_ ?]].
  unfold finished. apply wp_bind, wp_get. do 3 (case_match; [by apply wp_ret|]).
  unfold seq_modify. wp_steps. eapply wp_mono; [by apply check_stop_returns|].
  intros f q' _. case_decide; by wp_steps.
Qed.
Lemma same_but_status_checkable q q' : same_but_status q q' → checkable q → checkable q'.
Proof. intros [f ->] []. by constructor. Qed.

Lemma post_on_sequence {A} i (m : prog (Sequence T F) A) (Q : A → Request T F → Prop) r :
  (∀ q, sequences_ r !! i = Some q →
     post m (λ a q', Q a (set_sequences (<[i := q']> (sequences_ r)) r)) q) →
  post (on_sequence i m) Q r.
Proof.
  intros Hm. unfold on_sequence. apply post_bind, post_get, post_bind, post_at. intros q Hq.
  apply post_zoom. by apply Hm.
Qed.
Lemma wp_on_sequence {A} i (m : prog (Sequence T F) A) (Q : A → Request T F → Prop) r q :
  sequences_ r !! i = Some q →
  wp m (λ a q', Q a (set_sequences (<[i := q']> (sequences_ r)) r)) q →
  wp (on_sequence i m) Q r.
Proof.
  intros Hq Hm. unfold on_sequence. apply wp_bind, wp_get, wp_bind. eapply wp_at; [exact Hq|]. by apply wp_zoom.
Qed.
End sequences.

(** ** Orders *)

(** What [std::priority_queue] and [std::sort] ask of a comparison *)
Definition strict_weak {A} (lt : A → A → bool) : Prop :=
  (∀ x, lt x x = false) ∧ (∀ x y z, lt x y = true → lt y z = true → lt x z = true) ∧
  (∀ x y z, lt x y = false → lt y z = false → lt x z = false).

Section orders.
Context {T : Type} `{FloatOps F} `{DoubleOps D}.
Variable estimated_latency : Request T F → D.

Lemma by_key_strict_weak {A} (key : A → Z) : strict_weak (λ x y, key y <? key x).
Proof. split; [|split]; intros; lia. Qed.
(** A first key, and another order for those it does not separate *)
Lemma lexicographic_strict_weak {A} (key : A → Z) (lt : A → A → bool) :
  strict_weak lt → strict_weak (λ x y, if key x =? key y then lt x y else key y <? key x).
Proof.
  intros (Hi & Ht & Hn). split; [|split].
  - intros x. by rewrite Z.eqb_refl.
  - intros x y z. destruct (key x =? key y) eqn:E1, (key y =? key z) eqn:E2, (key x =? key z) eqn:E3; try lia. apply Ht.
  - intros x y z. destruct (key x =? key y) eqn:E1, (key y =? key z) eqn:E2, (key x =? key z) eqn:E3; try lia. apply Hn.
Qed.
Lemma strict_weak_ext {A} (lt lt' : A → A → bool) : (∀ x y, lt x y = lt' x y) → strict_weak lt → strict_weak lt'.
Proof.
  intros E (Hi & Ht & Hn). split; [|split]; intros *; rewrite <-!E; [apply Hi|apply Ht|apply Hn].
Qed.
Lemma priority_strict_weak : strict_weak (StrictPriorityComparator (T := T) (F := F)).
Proof.
  eapply strict_weak_ext; [|apply (lexicographic_strict_weak (λ a, priority_value (sp_priority (scheduler_param a))) FCFSComparator), by_key_strict_weak].
  intros a b. unfold StrictPriorityComparator. cbv zeta. by destruct (_ =? _).
Qed.
Lemma deadline_strict_weak : strict_weak (DeadlineComparator (T := T) (F := F)).
Proof. apply by_key_strict_weak. Qed.
Lemma urgency_strict_weak : strict_weak (UrgencyPriorityComparator (T := T) (F := F)).
Proof.
  pose proof priority_strict_weak as (Pi & Pt & Pn). pose proof deadline_strict_weak as (Di & Dt & Dn).
  unfold UrgencyPriorityComparator. split; [|split].
  - intros x. rewrite Z.eqb_refl. by destruct (urgency_ x).
  - intros x y z. destruct (urgency_ x), (urgency_ y), (urgency_ z); simpl; (done || apply Pt || apply Dt).
  - intros x y z. destruct (urgency_ x), (urgency_ y), (urgency_ z); simpl; (done || apply Pn || apply Dn).
Qed.
Lemma decode_deadline_strict_weak : strict_weak (DecodeDeadlineComparator (T := T) (F := F)).
Proof.
  eapply strict_weak_ext; [|apply (lexicographic_strict_weak (λ a, - first_stage a) DeadlineComparator), deadline_strict_weak].
  intros a b. unfold DecodeDeadlineComparator. cbv beta.
  destruct (first_stage a =? first_stage b) eqn:E1, (- first_stage a =? - first_stage b) eqn:E2; try lia; done.
Qed.

(** C39: the strategies that compare times and levels are strict weak orders, as
    [std::priority_queue] asks: first come first served, by priority, by deadline, by urgency
    and priority, and decode first by deadline.  Reversed for sorting they are not: every
    request comes before itself. *)
Theorem comparators_strict_weak strategy :
  strategy ∈ ["fcfs"; "priority"; "deadline"; "urgency_priority"; "decode_deadline"]%string →
  (∃ cmp, create_comparator estimated_latency strategy false = Some cmp ∧ strict_weak cmp) ∧
  (∃ cmp, create_comparator estimated_latency strategy true = Some cmp ∧ ∀ r, cmp r r = true).
Proof.
  assert (∀ lt : Request T F → Request T F → bool, strict_weak lt →
    strict_weak (λ a b, xorb (lt a b) false) ∧ ∀ r, xorb (lt r r) true = true) as Hx.
  { intros lt Hlt. split; [|intros r; by rewrite (proj1 Hlt)].
    eapply strict_weak_ext; [|exact Hlt]. intros. by destruct (lt x y). }
  rewrite !elem_of_cons, elem_of_nil. intros [->|[->|[->|[->|[->|[]]]]]]; unfold create_comparator; simpl;
    [destruct (Hx FCFSComparator (by_key_strict_weak _))|destruct (Hx _ priority_strict_weak)
    |destruct (Hx _ deadline_strict_weak)|destruct (Hx _ urgency_strict_weak)|destruct (Hx _ decode_deadline_strict_weak)];
    split; eexists; done.
Qed.
End orders.

(** Exact arithmetic in the place of [double], for the examples *)
Definition sample_doubles : DoubleOps Z :=
  {| d_of_int z := z; d_add := Z.add; d_sub := Z.sub; d_div := Z.div; d_abs := Z.abs; d_ltb := Z.ltb; d_epsilon := 0 |}.
Lemma comparators_strict_weak_witness :
  ∃ cmp, create_comparator (T := unit) (F := Z) (H0 := sample_doubles) (λ _, 0) "priority" false = Some cmp ∧ strict_weak cmp.
Proof. apply (comparators_strict_weak (H0 := sample_doubles) (λ _, 0) "priority"). rewrite !elem_of_cons. tauto. Defined.
