(* ===== verification/Scheduler.v ===== *)
(** The continuous scheduler: [core/scheduler/continuous_scheduler.{h,cpp}] with the queues of
    [decode_priority_queue.h], over the interface [KVCacheManager] of
    [framework/block/kv_cache_manager.h].

    One call of [prepare_batch] takes the new requests, reports the finished ones, and
    fills the next batch within its budgets: first with prefills from the waiting queues,
    and when there is none with the next decode step of the running requests, preempting
    the youngest of them when the cache is full.

    Requests are shared objects, so queues hold their addresses ([nat]) and the store
    [requests] holds the objects; a [Sequence*] is an address with an index.  The two
    queues of each kind are online and offline; a [bool] selects the offline one where the
    code passes a reference.  [double]s are the class [DoubleOps], the trained predictor of
    step times is the class [ProfileManager], [std::priority_queue] the class
    [PriorityQueue].  A request whose connection is lost and the requests written to the
    queue are inputs.  Metrics, logging and the building of the tensors of a batch are not
    modelled; a batch is the lists [running_requests_], [running_sequences_] and
    [running_sequences_budgets_]. *)

From stdpp Require Import base gmap list strings.
From Stdlib Require Import ZArith Lia.
From S2P Require Import Prelude HashKey Blocks KVState Stopping IncrementalDecoder LogprobState Sequence Request.
Open Scope Z_scope.

(** [class KVCacheManager], what the scheduler calls; an operation on a sequence changes
    the manager and the sequence.  [kvm_utilization_reached] is
    [kv_cache_utilization() >= FLAGS_prefill_scheduling_memory_usage_threshold], and
    [kvm_ref_count i] is [kv_state().kv_blocks()[i].ref_count()]. *)
Class KVCacheManager (K T F : Type) := {
  kvm_allocate : Z → prog (K * Sequence T F) bool;
  kvm_deallocate : prog (K * Sequence T F) unit;
  kvm_cache : prog (K * Sequence T F) unit;
  kvm_prefetch : prog (K * list (Sequence T F)) unit;
  kvm_update_prefetch_result : Z → prog (K * list (Sequence T F)) bool;
  kvm_block_size : K → Z;
  kvm_num_free_blocks : K → list Z;
  kvm_num_used_blocks : K → list Z;
  kvm_ref_count : nat → prog (K * Sequence T F) Z;
  kvm_utilization_reached : K → bool;
}.

(** The trained time predictors: [predict_time decode length prefix_length] *)
Class ProfileManager (D : Type) := {
  predict_time : bool → Z → Z → D;
  constant_overhead : D;
}.

(** [std::priority_queue]: the top of a queue of addresses under a comparison *)
Class PriorityQueue := pq_top : (nat → nat → bool) → list nat → option nat.
(** [pop()] of the element [x] on top *)
Fixpoint pq_remove (x : nat) (l : list nat) : list nat :=
  match l with
  | [] => []
  | y :: l => if decide (x = y) then l else y :: pq_remove x l
  end.

(** [insert(x)] of a [std::set] with the order [lt], read from its [begin()]: before the first
    element that [x] comes before, unless an element on the way is equivalent to [x] *)
Fixpoint set_insert (lt : nat → nat → bool) (x : nat) (l : list nat) : list nat :=
  match l with
  | [] => [x]
  | y :: l' => if lt x y then x :: l else if lt y x then y :: set_insert lt x l' else l
  end.

(** [ContinuousScheduler::Options] and flags, what the scheduler reads;
    [is_prefill_instance] is [instance_role() == InstanceRole::PREFILL] *)
Record SchedOptions := mkSchedOptions {
  max_tokens_per_batch : Z;
  max_seqs_per_batch : Z;
  num_speculative_tokens : Z;
  cp_size : Z;
  so_enable_disagg_pd : bool;
  is_prefill_instance : bool;
  so_enable_schedule_overlap : bool;
  priority_strategy : string;
  enable_online_preempt_offline : bool;
  enable_latency_aware_schedule : bool;
  max_global_ttft_ms : Z;
  max_global_tpot_ms : Z;
  prefetch_timeout : Z;
  enable_chunked_prefill : bool;
  so_enable_prefix_cache : bool;
  request_queue_size : nat;
}.

Section scheduler.
Context `{FloatOps F} `{DoubleOps D} `{ProfileManager D} `{PriorityQueue}.
Context `{KVCacheManager K T F}.
(** [Sequence::estimated_latency()] of the first sequence *)
Variable estimated_latency : Request T F → D.

Record Sched := mkSched {
  options_ : SchedOptions;
  kv_cache_manager_ : K;
  requests : gmap nat (Request T F);
  request_queue_ : list nat;
  waiting_priority_queue_ : list nat;
  waiting_priority_queue_offline_ : list nat;
  running_queue_ : list nat;
  running_queue_offline_ : list nat;
  running_requests_ : list (option nat);
  running_sequences_ : list (nat * nat);
  running_sequences_budgets_ : list Z;
  last_step_prefill_ : bool;
  min_speculative_tokens_required_ : Z;
  completed_ : list nat;
  failed_ : list nat;
}.

Definition set_kvm (k : K) (s : Sched) : Sched :=
  mkSched (options_ s) k (requests s) (request_queue_ s) (waiting_priority_queue_ s)
    (waiting_priority_queue_offline_ s) (running_queue_ s) (running_queue_offline_ s)
    (running_requests_ s) (running_sequences_ s) (running_sequences_budgets_ s)
    (last_step_prefill_ s) (min_speculative_tokens_required_ s) (completed_ s) (failed_ s).
Definition set_requests (m : gmap nat (Request T F)) (s : Sched) : Sched :=
  mkSched (options_ s) (kv_cache_manager_ s) m (request_queue_ s) (waiting_priority_queue_ s)
    (waiting_priority_queue_offline_ s) (running_queue_ s) (running_queue_offline_ s)
    (running_requests_ s) (running_sequences_ s) (running_sequences_budgets_ s)
    (last_step_prefill_ s) (min_speculative_tokens_required_ s) (completed_ s) (failed_ s).
Definition set_request_queue (l : list nat) (s : Sched) : Sched :=
  mkSched (options_ s) (kv_cache_manager_ s) (requests s) l (waiting_priority_queue_ s)
    (waiting_priority_queue_offline_ s) (running_queue_ s) (running_queue_offline_ s)
    (running_requests_ s) (running_sequences_ s) (running_sequences_budgets_ s)
    (last_step_prefill_ s) (min_speculative_tokens_required_ s) (completed_ s) (failed_ s).
(** the online or the offline waiting queue *)
Definition waiting_queue (off : bool) (s : Sched) : list nat :=
  if off then waiting_priority_queue_offline_ s else waiting_priority_queue_ s.
Definition set_waiting_queue (off : bool) (l : list nat) (s : Sched) : Sched :=
  mkSched (options_ s) (kv_cache_manager_ s) (requests s) (request_queue_ s)
    (if off then waiting_priority_queue_ s else l) (if off then l else waiting_priority_queue_offline_ s)
    (running_queue_ s) (running_queue_offline_ s)
    (running_requests_ s) (running_sequences_ s) (running_sequences_budgets_ s)
    (last_step_prefill_ s) (min_speculative_tokens_required_ s) (completed_ s) (failed_ s).
(** the online or the offline running queue, top first *)
Definition running_queue (off : bool) (s : Sched) : list nat :=
  if off then running_queue_offline_ s else running_queue_ s.
Definition set_running_queue (off : bool) (l : list nat) (s : Sched) : Sched :=
  mkSched (options_ s) (kv_cache_manager_ s) (requests s) (request_queue_ s) (waiting_priority_queue_ s)
    (waiting_priority_queue_offline_ s) (if off then running_queue_ s else l)
    (if off then l else running_queue_offline_ s)
    (running_requests_ s) (running_sequences_ s) (running_sequences_budgets_ s)
    (last_step_prefill_ s) (min_speculative_tokens_required_ s) (completed_ s) (failed_ s).
Definition set_running (rs : list (option nat)) (qs : list (nat * nat)) (bs : list Z) (s : Sched) : Sched :=
  mkSched (options_ s) (kv_cache_manager_ s) (requests s) (request_queue_ s) (waiting_priority_queue_ s)
    (waiting_priority_queue_offline_ s) (running_queue_ s) (running_queue_offline_ s)
    rs qs bs (last_step_prefill_ s) (min_speculative_tokens_required_ s) (completed_ s) (failed_ s).
Definition set_last_step_prefill (b : bool) (s : Sched) : Sched :=
  mkSched (options_ s) (kv_cache_manager_ s) (requests s) (request_queue_ s) (waiting_priority_queue_ s)
    (waiting_priority_queue_offline_ s) (running_queue_ s) (running_queue_offline_ s)
    (running_requests_ s) (running_sequences_ s) (running_sequences_budgets_ s)
    b (min_speculative_tokens_required_ s) (completed_ s) (failed_ s).
Definition set_reported (c f : list nat) (s : Sched) : Sched :=
  mkSched (options_ s) (kv_cache_manager_ s) (requests s) (request_queue_ s) (waiting_priority_queue_ s)
    (waiting_priority_queue_offline_ s) (running_queue_ s) (running_queue_offline_ s)
    (running_requests_ s) (running_sequences_ s) (running_sequences_budgets_ s)
    (last_step_prefill_ s) (min_speculative_tokens_required_ s) c f.

(** ** Access to the requests *)

(** [request->...] *)
Definition on_request {A} (id : nat) (m : prog (K * Request T F) A) : prog Sched A := λ s,
  match requests s !! id with
  | Some r =>
      zoom (λ _, (kv_cache_manager_ s, r))
        (λ kr s, set_kvm kr.1 (set_requests (<[id := kr.2]> (requests s)) s)) m s
  | None => Undef "dangling request"
  end.
Definition req_op {A} (m : prog (Request T F) A) : prog (K * Request T F) A := zoom snd (λ r kr, (kr.1, r)) m.
(** an operation of the manager on the sequences of a request *)
Definition seqs_op {A} (m : prog (K * list (Sequence T F)) A) : prog (K * Request T F) A :=
  zoom (λ kr, (kr.1, sequences_ kr.2)) (λ ks kr, (ks.1, set_sequences ks.2 kr.2)) m.
Definition get_request (id : nat) : prog Sched (Request T F) := on_request id (gets snd).
(** an operation of the manager on [request->sequences()[i]] *)
Definition seq_kv {A} (i : nat) (m : prog (K * Sequence T F) A) : prog (K * Request T F) A :=
  get ≫= λ kr,
  at_ (sequences_ kr.2) i ≫= λ q,
  zoom (λ _, (kr.1, q)) (λ kq kr, (kq.1, set_sequences (<[i := kq.2]> (sequences_ kr.2)) kr.2)) m.
Definition on_seq_kv {A} (id i : nat) (m : prog (K * Sequence T F) A) : prog Sched A := on_request id (seq_kv i m).
Definition get_sequence (id i : nat) : prog Sched (Sequence T F) := on_seq_kv id i (gets snd).

(** [deallocate(request)] of the manager: all its sequences *)
Definition kvm_deallocate_request : prog (K * Request T F) unit :=
  get ≫= λ kr, for_each (seq 0 (length (sequences_ kr.2))) (λ i, seq_kv i kvm_deallocate).
Definition deallocate_request (id : nat) : prog Sched unit := on_request id kvm_deallocate_request.
(** [request->finished() || request->cancelled()] *)
Definition finished_or_cancelled (id : nat) : prog Sched bool :=
  on_request id (req_op (request_finished ≫= λ f : bool, if f then mret true else gets cancelled)).
Definition seq_finished (id i : nat) : prog Sched bool := on_request id (req_op (on_sequence i finished)).

(** the comparison of a waiting queue *)
Definition compare (s : Sched) (a b : nat) : bool :=
  match create_comparator estimated_latency (priority_strategy (options_ s)) false, requests s !! a, requests s !! b with
  | Some cmp, Some ra, Some rb => cmp ra rb
  | _, _, _ => false
  end.
(** [top()], [pop()] and [push(request)] of a waiting queue; a pop follows the [top()] that
    read the request it removes, with no push in between *)
Definition waiting_top (off : bool) : prog Sched nat :=
  get ≫= λ s,
  match pq_top (compare s) (waiting_queue off s) with
  | Some id => mret id
  | None => undef "top of an empty queue"
  end.
Definition waiting_pop (off : bool) (top : nat) : prog Sched unit :=
  modify (λ s, set_waiting_queue off (pq_remove top (waiting_queue off s)) s).
Definition waiting_push (off : bool) (id : nat) : prog Sched unit :=
  modify (λ s, set_waiting_queue off (waiting_queue off s ++ [id]) s).

(** The running queues, top first: [top()], [back()], [pop_top()] and [pop_back()] of [FCFSQueue]
    and of [DynamicPriorityQueue] *)
Definition running_top (off : bool) : prog Sched nat :=
  get ≫= λ s, match running_queue off s with id :: _ => mret id | [] => undef "front of an empty deque" end.
Definition running_back (off : bool) : prog Sched nat :=
  get ≫= λ s, match last (running_queue off s) with Some id => mret id | None => undef "back of an empty deque" end.
Definition pop_top (off : bool) : prog Sched unit :=
  get ≫= λ s,
  match running_queue off s with _ :: l => put (set_running_queue off l s) | [] => undef "pop of an empty deque" end.
Definition pop_back (off : bool) : prog Sched unit :=
  get ≫= λ s,
  match running_queue off s with
  | [] => undef "pop of an empty deque"
  | l => put (set_running_queue off (take (length l - 1) l) s)
  end.
(** [create_running_queue(options)]: the comparator of [DynamicPriorityQueue], or [None] for
    [FCFSQueue] *)
Definition running_comparator (strategy : string) : option (Request T F → Request T F → bool) :=
  if String.eqb strategy "deadline" then Some DeadlineComparator
  else if String.eqb strategy "priority" then Some StrictPriorityComparator
  else None.
(** The order of the [std::set] of a [DynamicPriorityQueue] *)
Definition set_before (cmp : Request T F → Request T F → bool) (s : Sched) (a b : nat) : bool :=
  match requests s !! a, requests s !! b with
  | Some ra, Some rb => negb (cmp ra rb)
  | _, _ => true
  end.
(** [push(req, if_back)], and [push(req)] without the [bool].  The comparator is moved into the
    online queue, and again into the offline one, which has none: a push to an empty set
    compares nothing. *)
Definition running_push (off : bool) (id : nat) (if_back : option bool) : prog Sched unit :=
  get ≫= λ s,
  let l := running_queue off s in
  match running_comparator (priority_strategy (options_ s)), if_back with
  | None, Some true => put (set_running_queue off (l ++ [id]) s)
  | None, _ => put (set_running_queue off (id :: l) s)
  | Some _, Some _ => fatal "DynamicPriorityQueue not support"
  | Some cmp, None =>
      if off && bool_decide (l ≠ []) then undef "call of a null comparator"
      else put (set_running_queue off (set_insert (set_before cmp s) id l) s)
  end.

(** [predict_step_time(sequence, false)] *)
Definition predict_step_time (q : Sequence T F) : prog Sched D :=
  let length := i32 (Z.of_nat (num_tokens_ (toks q))) in
  let prefix_length := i32 (Z.max (kv_cache_tokens_num_ (kv_state_ q)) (kv_cache_tokens_num_ (host_kv_state_ q))) in
  check (prefix_length <? length) "Token length must be greater than prefix length" ≫= λ _,
  mret (predict_time (length - 1 =? prefix_length) length prefix_length).

Record Budgets := mkBudgets {
  latency_budget : D;
  estimate_latency : D;
  remaining_token_budget : Z;
  remaining_seq_budget : Z;
}.
(** What a request takes so far: [allocated_tokens], [allocated_seqs],
    [allocated_estimate_latency], and the sequences with their budgets *)
Record Candidates := mkCandidates {
  allocated_tokens : Z;
  allocated_seqs : Z;
  allocated_estimate_latency : D;
  candidate_sequences : list (nat * nat);
  candidate_token_budgets : list Z;
}.
Definition Candidates_none : Candidates := mkCandidates 0 0 (d_of_int 0) [] [].
Definition add_candidate (id i : nat) (num_tokens : Z) (latency : D) (c : Candidates) : Candidates :=
  mkCandidates (u64 (allocated_tokens c + num_tokens)) (u64 (allocated_seqs c + 1))
    (d_add (allocated_estimate_latency c) latency) (candidate_sequences c ++ [(id, i)])
    (candidate_token_budgets c ++ [num_tokens]).
(** [budget -= allocated] *)
Definition take_budget (c : Candidates) (b : Budgets) : Budgets :=
  mkBudgets (latency_budget b) (d_add (estimate_latency b) (allocated_estimate_latency c))
    (u64 (remaining_token_budget b - allocated_tokens c)) (u64 (remaining_seq_budget b - allocated_seqs c)).
(** [estimate + allocated + seq > budget] *)
Definition over_latency (b : Budgets) (c : Candidates) (latency : D) : bool :=
  d_ltb (latency_budget b) (d_add (d_add (estimate_latency b) (allocated_estimate_latency c)) latency).
(** The request and its candidates join the batch. *)
Definition join_batch (id : nat) (c : Candidates) : prog Sched unit :=
  modify (λ s, set_running (running_requests_ s ++ [Some id]) (running_sequences_ s ++ candidate_sequences c)
                 (running_sequences_budgets_ s ++ candidate_token_budgets c) s).

(** ** Prefill *)

(** [maybe_align_cp_prefill_tokens(sequence, num_tokens, cp_size)] and
    [util::align_up] *)
Definition align_up (value alignment : Z) : Z :=
  if alignment =? 0 then value else (value + alignment - 1) / alignment * alignment.
Definition maybe_align_cp_prefill_tokens (o : SchedOptions) (q : Sequence T F) (num_tokens : Z) : Z :=
  if (cp_size o <=? 1) || (num_tokens =? 0) then num_tokens
  else if enable_chunked_prefill o then num_tokens
  else if negb (is_prefill_stage q) then num_tokens
  else u64 (align_up num_tokens (u64 (cp_size o * 2))).

(** The blocks a preempted sequence would free: its own ones and those only the prefix
    cache shares with it *)
Definition evictable_blocks : prog (K * Sequence T F) Z :=
  get ≫= λ kq,
  let shared := shared_kv_blocks_num (kv_state_ kq.2) in
  let num := Z.of_nat (num_kv_blocks (kv_state_ kq.2)) in
  check (shared <=? num) "num_kv_blocks >= shared_kv_blocks_num" ≫= λ _,
  map_each (seq 0 (Z.to_nat shared)) kvm_ref_count ≫= λ counts,
  mret (Z.of_nat (length (filter (λ n, n ≤ 2) counts)) + (num - shared)).
Definition request_evictable_blocks (id : nat) : prog Sched Z :=
  get_request id ≫= λ r,
  map_each (seq 0 (length (sequences_ r))) (λ i, on_seq_kv id i evictable_blocks) ≫= λ ns,
  mret (foldr Z.add 0 ns).
(** [check_if_enough_to_evict(queue, ..., max_handle_num_tokens, num_request_to_evict)]:
    the answer and the number; the loop runs from the back of the queue *)
Fixpoint evict_count_loop (l : list nat) (num_blocks_needed num_blocks_can_evict : Z) (num : nat)
    : prog Sched (bool * nat) :=
  match l with
  | [] => mret (false, num)
  | id :: l =>
      request_evictable_blocks id ≫= λ n,
      let can := u64 (num_blocks_can_evict + n) in
      if num_blocks_needed <=? can then mret (true, S num)
      else evict_count_loop l num_blocks_needed can (S num)
  end.
Definition check_if_enough_to_evict (off : bool) (max_handle_num_tokens : Z) : prog Sched (bool * nat) :=
  get ≫= λ s,
  let block_size := u64 (kvm_block_size (kv_cache_manager_ s)) in
  if block_size =? 0 then undef "division by zero"
  else evict_count_loop (rev (running_queue off s)) (u64 (max_handle_num_tokens + block_size - 1) / block_size) 0 0.

(** The youngest request of a running queue loses its blocks and waits again. *)
Definition preempt_back (off : bool) : prog Sched unit :=
  running_back off ≫= λ id,
  deallocate_request id ≫= λ _,
  pop_back off ≫= λ _,
  on_request id (req_op (modify set_preempted)) ≫= λ _,
  get_request id ≫= λ r,
  waiting_push (offline r) id.
(** The same [n] times, from the offline queue into the offline queue *)
Fixpoint preempt_offline (n : nat) : prog Sched unit :=
  match n with
  | O => mret ()
  | S n =>
      running_back true ≫= λ id,
      deallocate_request id ≫= λ _,
      pop_back true ≫= λ _,
      on_request id (req_op (modify set_preempted)) ≫= λ _,
      waiting_push true id ≫= λ _,
      preempt_offline n
  end.

(** Allocation for a prefill, which may preempt offline decodes *)
Definition prefill_allocate (id i : nat) (target_num_tokens : Z) : prog Sched bool :=
  on_seq_kv id i (kvm_allocate target_num_tokens) ≫= λ ok : bool,
  if ok then mret true
  else
    get_request id ≫= λ r,
    get ≫= λ s,
    if enable_online_preempt_offline (options_ s) && negb (offline r) &&
       bool_decide (running_queue_offline_ s ≠ []) then
      check_if_enough_to_evict true target_num_tokens ≫= λ e : bool * nat,
      if e.1 then preempt_offline e.2 ≫= λ _, on_seq_kv id i (kvm_allocate target_num_tokens)
      else mret false
    else mret false.

(** Why the loop over the sequences of a request ends *)
Inductive schedule_stop := AllScheduled | NoBudget | NoBlocks.

Fixpoint prefill_loop (b : Budgets) (id : nat) (l : list nat) (c : Candidates)
    : prog Sched (schedule_stop * Candidates) :=
  match l with
  | [] => mret (AllScheduled, c)
  | i :: l =>
      seq_finished id i ≫= λ f : bool,
      if f then prefill_loop b id l c
      else
        get_sequence id i ≫= λ q,
        gets options_ ≫= λ o,
        let num_tokens := maybe_align_cp_prefill_tokens o q (num_need_compute_tokens q) in
        let target := u64 (Z.max (kv_cache_tokens_num_ (kv_state_ q)) (kv_cache_tokens_num_ (host_kv_state_ q)) + num_tokens) in
        if (remaining_token_budget b <? u64 (allocated_tokens c + num_tokens)) ||
           (remaining_seq_budget b <? u64 (allocated_seqs c + 1)) then mret (NoBudget, c)
        else
          prefill_allocate id i target ≫= λ ok : bool,
          if negb ok then on_seq_kv id i kvm_deallocate ≫= λ _, mret (NoBlocks, c)
          else
            (if enable_latency_aware_schedule o then
               get_sequence id i ≫= λ q, predict_step_time q ≫= λ d, mret (d, over_latency b c d)
             else mret (d_of_int 0, false)) ≫= λ lat : D * bool,
            if lat.2 then on_seq_kv id i kvm_deallocate ≫= λ _, mret (NoBudget, c)
            else prefill_loop b id l (add_candidate id i num_tokens lat.1 c)
  end.

(** The locals of [handle_prefill_requests]; [finished_requests] is its last argument *)
Record PrefillLoop := mkPrefillLoop {
  budgets : Budgets;
  budget_exhausted : bool;
  blocks_exhausted : bool;
  finished_requests : list nat;
}.
Definition set_finished_requests (l : list nat) (p : PrefillLoop) : PrefillLoop :=
  mkPrefillLoop (budgets p) (budget_exhausted p) (blocks_exhausted p) l.
Definition set_budgets (b : Budgets) (p : PrefillLoop) : PrefillLoop :=
  mkPrefillLoop b (budget_exhausted p) (blocks_exhausted p) (finished_requests p).
Definition exhausted (stop : schedule_stop) (p : PrefillLoop) : PrefillLoop :=
  match stop with
  | AllScheduled => p
  | NoBudget => mkPrefillLoop (budgets p) true (blocks_exhausted p) (finished_requests p)
  | NoBlocks => mkPrefillLoop (budgets p) (budget_exhausted p) true (finished_requests p)
  end.

(** One round of the [while], for the request on top; the [bool] tells to go on *)
Definition prefill_request (off : bool) (p : PrefillLoop) : prog Sched (bool * PrefillLoop) :=
  waiting_top off ≫= λ id,
  finished_or_cancelled id ≫= λ f : bool,
  if f then
    deallocate_request id ≫= λ _,
    waiting_pop off id ≫= λ _,
    mret (true, set_finished_requests (finished_requests p ++ [id]) p)
  else
    get_request id ≫= λ r,
    check (preempted r || (length (sequences_ r) =? 1)%nat) "Waiting request should have only one sequence." ≫= λ _,
    gets (λ s, prefetch_timeout (options_ s)) ≫= λ timeout,
    on_request id (seqs_op (kvm_update_prefetch_result timeout)) ≫= λ ok : bool,
    if negb ok then waiting_pop off id ≫= λ _, waiting_push off id ≫= λ _, mret (true, p)
    else
      prefill_loop (budgets p) id (seq 0 (length (sequences_ r))) Candidates_none
        ≫= λ res : schedule_stop * Candidates,
      match res.1 with
      | AllScheduled =>
          waiting_pop off id ≫= λ _,
          join_batch id res.2 ≫= λ _,
          mret (true, set_budgets (take_budget res.2 (budgets p)) p)
      | stop =>
          for_each (candidate_sequences res.2) (λ x, on_seq_kv x.1 x.2 kvm_deallocate) ≫= λ _,
          mret (false, exhausted stop p)
      end.
Fixpoint prefill_while (n : nat) (off : bool) (p : PrefillLoop) : prog Sched PrefillLoop :=
  match n with
  | O => undef "out of fuel"
  | S n =>
      get ≫= λ s,
      let b := budgets p in
      if bool_decide (waiting_queue off s = []) || negb (0 <? remaining_seq_budget b) ||
         negb (0 <? remaining_token_budget b) || negb (d_ltb (estimate_latency b) (latency_budget b))
      then mret p
      else if negb (so_enable_disagg_pd (options_ s)) && kvm_utilization_reached (kv_cache_manager_ s)
      then mret (exhausted NoBlocks p)
      else
        prefill_request off p ≫= λ r : bool * PrefillLoop,
        if r.1 then prefill_while n off r.2 else mret r.2
  end.
(** The end of the handler: when nothing runs and nothing can be scheduled, the request
    on top is too long. *)
Definition prefill_too_long (off : bool) (p : PrefillLoop) : prog Sched unit :=
  get ≫= λ s,
  if bool_decide (running_sequences_ s = []) && bool_decide (waiting_queue off s ≠ []) &&
     bool_decide (running_queue_ s = []) then
    waiting_top off ≫= λ id,
    waiting_pop off id ≫= λ _,
    deallocate_request id ≫= λ _,
    if blocks_exhausted p || budget_exhausted p
    then modify (λ s, set_reported (completed_ s) (failed_ s ++ [id]) s)
    else fatal "Unexpected error: blocks and budget are enough but can not schedule."
  else mret ().
(** [handle_prefill_requests(...)]: the budgets and [finished_requests] afterwards *)
Definition handle_prefill_requests (n : nat) (off : bool) (b : Budgets) (finished_requests_ : list nat)
    : prog Sched (Budgets * list nat) :=
  prefill_while n off (mkPrefillLoop b false false finished_requests_) ≫= λ p,
  prefill_too_long off p ≫= λ _,
  modify (λ s, if bool_decide (running_sequences_ s ≠ []) then set_last_step_prefill true s else s) ≫= λ _,
  mret (budgets p, finished_requests p).

(** ** Decode *)

(** [min_speculative_tokens_required_] in arithmetic on [size_t] *)
Definition min_spec (s : Sched) : Z := u64 (min_speculative_tokens_required_ s).
(** Step times are predicted except on a prefill instance. *)
Definition decode_latency_aware (o : SchedOptions) : bool :=
  enable_latency_aware_schedule o && negb (is_prefill_instance o).

(** [estimate_decode_extra_blocks(sequence, updated_num_tokens, block_size)] *)
Definition estimate_decode_extra_blocks (q : Sequence T F) (updated_num_tokens block_size : Z) : Z :=
  let num_blocks := Z.of_nat (num_kv_blocks (kv_state_ q)) in
  let num_blocks_needed := u64 (updated_num_tokens + block_size - 1) / block_size in
  if num_blocks <? num_blocks_needed then num_blocks_needed - num_blocks
  else if check_beam_search q && bool_decide (src_blocks_ (kv_state_ q) ≠ []) && need_swap_ (kv_state_ q) then 1
  else 0.
(** [get_sequence_free_blocks_for_rank(kv_cache_manager, dp_rank)] *)
Definition get_sequence_free_blocks_for_rank (k : K) (dp_rank : Z) : Z :=
  let free_blocks := kvm_num_free_blocks k in
  match free_blocks with
  | [] => 0
  | x :: l =>
      if (0 <=? dp_rank) && (dp_rank <? Z.of_nat (length free_blocks))
      then default 0 (free_blocks !! Z.to_nat dp_rank)
      else foldl Z.max x l
  end.

(** [allocate] for a decode step of a sequence, and the caching of its prompt after the
    first one *)
Definition decode_allocate (id i : nat) : prog Sched bool :=
  get_sequence id i ≫= λ q,
  get ≫= λ s,
  on_seq_kv id i (kvm_allocate (u64 (Z.of_nat (num_tokens_ (toks q)) + min_spec s))) ≫= λ ok : bool,
  if negb ok then mret false
  else
    on_request id (req_op (on_sequence i if_cache_block_for_prefill)) ≫= λ c : bool,
    (if c then on_seq_kv id i kvm_cache else mret ()) ≫= λ _,
    mret true.

(** The loop over the sequences of a request without beam search *)
Fixpoint decode_loop (b : Budgets) (id : nat) (l : list nat) (c : Candidates)
    : prog Sched (schedule_stop * Candidates) :=
  match l with
  | [] => mret (AllScheduled, c)
  | i :: l =>
      seq_finished id i ≫= λ f : bool,
      if f then decode_loop b id l c
      else
        get_sequence id i ≫= λ q,
        get ≫= λ s,
        (if decode_latency_aware (options_ s)
         then predict_step_time q ≫= λ d, mret (d, over_latency b c d)
         else mret (d_of_int 0, false)) ≫= λ lat : D * bool,
        if lat.2 then mret (NoBudget, c)
        else if (remaining_token_budget b <=? u64 (allocated_tokens c + min_spec s)) ||
                (remaining_seq_budget b <=? allocated_seqs c) then mret (NoBudget, c)
        else
          decode_allocate id i ≫= λ ok : bool,
          if negb ok then mret (NoBlocks, c)
          else decode_loop b id l (add_candidate id i (u64 (min_spec s + 1)) lat.1 c)
  end.

(** The sequences of a beam search that are not finished *)
Fixpoint active_sequences (id : nat) (l : list nat) : prog Sched (list nat) :=
  match l with
  | [] => mret []
  | i :: l =>
      seq_finished id i ≫= λ f : bool,
      active_sequences id l ≫= λ active,
      mret (if f then active else i :: active)
  end.
(** Whether their latencies exceed the budget *)
Fixpoint beam_over_latency (b : Budgets) (id : nat) (l : list nat) (allocated : D) : prog Sched bool :=
  match l with
  | [] => mret false
  | i :: l =>
      get_sequence id i ≫= λ q,
      predict_step_time q ≫= λ d,
      if d_ltb (latency_budget b) (d_add (d_add (estimate_latency b) allocated) d) then mret true
      else beam_over_latency b id l (d_add allocated d)
  end.
(** The latencies of the candidates, summed *)
Fixpoint beam_latency (id : nat) (l : list nat) (allocated : D) : prog Sched D :=
  match l with
  | [] => mret allocated
  | i :: l => get_sequence id i ≫= λ q, predict_step_time q ≫= λ d, beam_latency id l (d_add allocated d)
  end.
(** The allocations of a beam search: all of them, or [false] *)
Fixpoint beam_allocate (id : nat) (l : list nat) (c : Candidates) : prog Sched (bool * Candidates) :=
  match l with
  | [] => mret (true, c)
  | i :: l =>
      decode_allocate id i ≫= λ ok : bool,
      if negb ok then mret (false, c)
      else
        gets min_spec ≫= λ m,
        beam_allocate id l
          (mkCandidates (u64 (allocated_tokens c + u64 (m + 1))) (u64 (allocated_seqs c + 1))
             (allocated_estimate_latency c) (candidate_sequences c ++ [(id, i)])
             (candidate_token_budgets c ++ [u64 (m + 1)]))
  end.
Definition with_latency (d : D) (c : Candidates) : Candidates :=
  mkCandidates (allocated_tokens c) (allocated_seqs c) d (candidate_sequences c) (candidate_token_budgets c).

(** The branch of a beam search; [None] when the request left the queue *)
Definition decode_beam (off : bool) (b : Budgets) (id : nat) (num_sequences : nat)
    : prog Sched (option (schedule_stop * Candidates)) :=
  active_sequences id (seq 0 num_sequences) ≫= λ active,
  match active with
  | [] => pop_top off ≫= λ _, mret None
  | front :: _ =>
      get ≫= λ s,
      let step := u64 (min_spec s + 1) in
      let n := Z.of_nat (length active) in
      (if (remaining_token_budget b <? u64 (step * n)) || (remaining_seq_budget b <? n) then mret true
       else if decode_latency_aware (options_ s) then beam_over_latency b id active (d_of_int 0)
       else mret false) ≫= λ no_budget : bool,
      if no_budget then mret (Some (NoBudget, Candidates_none))
      else
        let block_size := u64 (kvm_block_size (kv_cache_manager_ s)) in
        (if block_size =? 0 then undef "division by zero" else mret ()) ≫= λ _,
        map_each active (get_sequence id) ≫= λ qs,
        let needed_blocks := foldl (λ n q, u64 (n + estimate_decode_extra_blocks q
                               (u64 (Z.of_nat (num_tokens_ (toks q)) + min_spec s)) block_size)) 0 qs in
        get_sequence id front ≫= λ q,
        if get_sequence_free_blocks_for_rank (kv_cache_manager_ s) (dp_rank_ q) <? needed_blocks
        then mret (Some (NoBlocks, Candidates_none))
        else
          beam_allocate id active Candidates_none ≫= λ r : bool * Candidates,
          if negb r.1 then
            deallocate_request id ≫= λ _,
            pop_top off ≫= λ _,
            on_request id (req_op (modify set_preempted)) ≫= λ _,
            get_request id ≫= λ rq,
            waiting_push (offline rq) id ≫= λ _,
            mret None
          else
            (if decode_latency_aware (options_ s) then beam_latency id active (d_of_int 0) else mret (d_of_int 0))
              ≫= λ d, mret (Some (AllScheduled, with_latency d r.2))
  end.

(** [util::sum] *)
Definition sum (l : list Z) : prog Sched Z :=
  match l with [] => fatal "vector is empty." | _ => mret (foldl (λ a x, u64 (a + x)) 0 l) end.

(** [handle_abnormal_request(...)]: [stop] tells which of budget and blocks is exhausted.
    The request on top of [running_queue] is too long when nothing else runs; otherwise
    what could be allocated of it is scheduled.  The pop of a request that is too long is
    from [running_queue_], whatever the queue at hand. *)
Definition handle_abnormal_request (off : bool) (stop : schedule_stop) (c : Candidates) (b : Budgets)
    : prog Sched Budgets :=
  running_top off ≫= λ id,
  get ≫= λ s,
  get_request id ≫= λ r,
  match candidate_sequences c with
  | [] =>
      if bool_decide (running_sequences_ s ≠ []) then mret b
      else
        (match stop with
         | NoBudget => mret true
         | _ =>
             check (bool_decide (length (running_queue off s) = 1%nat)) "Running queue size is not 1" ≫= λ _,
             sum (kvm_num_used_blocks (kv_cache_manager_ s)) ≫= λ used,
             mret (used =? total_num_blocks r)
         end) ≫= λ too_long : bool,
        if too_long then
          pop_top false ≫= λ _,
          deallocate_request id ≫= λ _,
          modify (λ s, set_reported (completed_ s) (failed_ s ++ [id]) s) ≫= λ _, mret b
        else mret b
  | _ =>
      if request_beam_search r then mret b
      else
        pop_top off ≫= λ _,
        join_batch id c ≫= λ _,
        mret (take_budget c b)
  end.

(** One round of the [while], for the request on top; the [bool] tells to go on *)
Definition decode_request (off : bool) (b : Budgets) : prog Sched (bool * Budgets) :=
  running_top off ≫= λ id,
  get_request id ≫= λ r,
  let num_sequences := length (sequences_ r) in
  (if request_beam_search r then decode_beam off b id num_sequences
   else decode_loop b id (seq 0 num_sequences) Candidates_none ≫= λ x, mret (Some x)) ≫= λ res,
  match res with
  | None => mret (true, b)
  | Some (stop, c) =>
      check (allocated_tokens c <=? remaining_token_budget b) "allocated_tokens <= remaining_token_budget" ≫= λ _,
      check (allocated_seqs c <=? remaining_seq_budget b) "allocated_seqs <= remaining_seq_budget" ≫= λ _,
      match stop with
      | AllScheduled =>
          pop_top off ≫= λ _,
          join_batch id c ≫= λ _,
          mret (true, take_budget c b)
      | NoBudget => handle_abnormal_request off NoBudget c b ≫= λ b, mret (false, b)
      | NoBlocks =>
          get ≫= λ s,
          if enable_online_preempt_offline (options_ s) && negb (offline r) &&
             bool_decide (running_queue_offline_ s ≠ []) then
            preempt_offline 1 ≫= λ _, mret (true, b)
          else if bool_decide (1 < length (running_queue off s))%nat then
            running_back off ≫= λ victim,
            (if decide (victim = id) then fatal "Unexpected error: preempting the candidate itself."
             else preempt_back off) ≫= λ _,
            mret (true, b)
          else handle_abnormal_request off NoBlocks c b ≫= λ b, mret (false, b)
      end
  end.
(** [handle_decode_requests(...)]: the budgets afterwards *)
Fixpoint handle_decode_requests (n : nat) (off : bool) (b : Budgets) : prog Sched Budgets :=
  match n with
  | O => undef "out of fuel"
  | S n =>
      get ≫= λ s,
      if bool_decide (running_queue off s = []) || negb (min_spec s <? remaining_token_budget b) ||
         negb (d_ltb (estimate_latency b) (latency_budget b)) || negb (0 <? remaining_seq_budget b)
      then mret b
      else
        decode_request off b ≫= λ r : bool * Budgets,
        if r.1 then handle_decode_requests n off r.2 else mret r.2
  end.

(** ** A step *)

(** [add_request(request)]: false when the queue is full *)
Definition add_request (id : nat) : prog Sched bool :=
  get_request id ≫= λ r,
  check (bool_decide (sequences_ r ≠ [])) "!request->sequences().empty()" ≫= λ _,
  on_request id (seqs_op kvm_prefetch) ≫= λ _,
  get ≫= λ s,
  if (length (request_queue_ s) <? request_queue_size (options_ s))%nat
  then put (set_request_queue (request_queue_ s ++ [id]) s) ≫= λ _, mret true
  else mret false.

(** [handle_running_requests(request)] *)
Definition handle_running_requests (id : nat) : prog Sched unit :=
  finished_or_cancelled id ≫= λ f : bool,
  (if f then fatal "Unknow error, finished/cancelled request have be handled before." else mret ()) ≫= λ _,
  on_request id (req_op (expand_sequences true)) ≫= λ expanded : bool,
  (if expanded then on_seq_kv id 0 kvm_cache else mret ()) ≫= λ _,
  get_request id ≫= λ r,
  for_each (seq 0 (length (sequences_ r))) (λ i,
    seq_finished id i ≫= λ f : bool, if f then on_seq_kv id i kvm_deallocate else mret ()).

(** The first loop of [prepare_batch]: a request read from the queue *)
Definition receive_request (id : nat) : prog Sched unit :=
  get ≫= λ s,
  (if so_enable_prefix_cache (options_ s) then mret false
   else on_request id (req_op (expand_sequences false))) ≫= λ _,
  get_sequence id 0 ≫= λ q,
  get_request id ≫= λ r,
  if kv_cache_tokens_num_ (kv_state_ q) =? 0 then waiting_push (offline r) id
  else modify (λ s, set_running (running_requests_ s ++ [Some id]) (running_sequences_ s)
                      (running_sequences_budgets_ s) s).
Definition receive_requests : prog Sched unit :=
  gets request_queue_ ≫= λ l,
  modify (set_request_queue []) ≫= λ _,
  for_each l receive_request.

(** The second loop, from the back: finished and cancelled requests leave; [disconnected]
    tells which calls have lost their connection. *)
Fixpoint reap (disconnected : nat → bool) (l : list (option nat)) (finished_requests_ : list nat)
    : prog Sched (list (option nat) * list nat) :=
  match l with
  | [] => mret ([], finished_requests_)
  | None :: l => reap disconnected l finished_requests_ ≫= λ x, mret (None :: x.1, x.2)
  | Some id :: l =>
      on_request id (req_op (modify (update_connection_status (disconnected id)))) ≫= λ _,
      finished_or_cancelled id ≫= λ f : bool,
      (if f then deallocate_request id else mret ()) ≫= λ _,
      reap disconnected l (if f then finished_requests_ ++ [id] else finished_requests_) ≫= λ x,
      mret ((if f then None else Some id) :: x.1, x.2)
  end.
(** The third loop: the running requests go back to their queue. *)
Definition requeue (if_back : option bool) (x : option nat) : prog Sched unit :=
  match x with
  | None => mret ()
  | Some id =>
      handle_running_requests id ≫= λ _,
      get_request id ≫= λ r,
      running_push (offline r) id if_back
  end.
Definition requeue_running : prog Sched unit :=
  get ≫= λ s,
  if String.eqb (priority_strategy (options_ s)) "fcfs" then
    for_each (if last_step_prefill_ s then running_requests_ s else rev (running_requests_ s))
      (requeue (Some (last_step_prefill_ s)))
  else for_each (running_requests_ s) (requeue None).

(** The budgets of a step *)
Definition initial_budgets (o : SchedOptions) : Budgets :=
  mkBudgets (d_of_int (max_global_ttft_ms o)) constant_overhead (u64 (max_tokens_per_batch o))
    (Z.max (max_seqs_per_batch o) 1).
Definition with_latency_budget (d : D) (b : Budgets) : Budgets :=
  mkBudgets d (estimate_latency b) (remaining_token_budget b) (remaining_seq_budget b).
(** The scheduling proper, after the running requests are back in their queues: the
    prefills, and when there are none the decodes.  The result is [finished_requests]. *)
Definition fill_batch (n : nat) (finished_requests_ : list nat) : prog Sched (list nat) :=
  gets options_ ≫= λ o,
  handle_prefill_requests n false (initial_budgets o) finished_requests_ ≫= λ r : Budgets * list nat,
  handle_prefill_requests n true r.1 r.2 ≫= λ r : Budgets * list nat,
  get ≫= λ s,
  (if bool_decide (running_sequences_ s = []) then
     handle_decode_requests n false (with_latency_budget (d_of_int (max_global_tpot_ms o)) r.1) ≫= λ b,
     handle_decode_requests n true b ≫= λ _, mret ()
   else mret ()) ≫= λ _,
  mret r.2.
(** The first half of [prepare_batch]: new requests in, finished ones out, the running ones
    back in their queues, the last batch cleared.  The result is [finished_requests]. *)
Definition collect_requests (disconnected : nat → bool) : prog Sched (list nat) :=
  receive_requests ≫= λ _,
  gets running_requests_ ≫= λ l,
  reap disconnected (rev l) [] ≫= λ x : list (option nat) * list nat,
  modify (λ s, set_running (rev x.1) (running_sequences_ s) (running_sequences_budgets_ s) s) ≫= λ _,
  requeue_running ≫= λ _,
  modify (λ s, set_last_step_prefill false (set_running [] [] [] s)) ≫= λ _,
  mret x.2.
(** [prepare_batch()] up to the building of the batch; [n] bounds the rounds of each
    [while]. *)
Definition prepare_batch (n : nat) (disconnected : nat → bool) : prog Sched unit :=
  collect_requests disconnected ≫= λ finished,
  fill_batch n finished ≫= λ finished,
  modify (λ s, set_reported (completed_ s ++ finished) (failed_ s) s).
End scheduler.
