(* ===== verification/SchedBatch.v ===== *)
(** What a step of the scheduler does to its batch: which operations leave the queues
    alone ([quiet]), which leave the batch alone ([same_batch]), and the budgets of the
    batch.  The facts here hold for any manager of the KV cache. *)

From stdpp Require Import base gmap list strings.
From Stdlib Require Import ZArith Lia.
From S2P Require Import Prelude HashKey Blocks KVState Stopping IncrementalDecoder LogprobState Sequence Request.
From S2P Require Import Scheduler.
Open Scope Z_scope.

Section frames.
Context `{FloatOps F} `{DoubleOps D} `{ProfileManager D} `{PriorityQueue}.
Context `{KVCacheManager K T F}.
Variable estimated_latency : Request T F → D.
Abbreviation Sched := (Scheduler.Sched (F := F) (K := K) (T := T)).
Implicit Types (s : Sched) (r : Request T F) (id i : nat) (off : bool).
Implicit Types (b : Budgets (D := D)) (c : Candidates (D := D)) (p : PrefillLoop (D := D)) (d : D).

(** What the scheduler never changes of a request *)
Definition req_static r : SchedulerParam * SequenceParams F * nat := (scheduler_param r, params_ r, best_of r).

(** Nothing changes but the manager and the states of the requests. *)
Record quiet s s' : Prop := {
  qt_options : options_ s' = options_ s;
  qt_static : req_static <$> requests s' = req_static <$> requests s;
  qt_queue : request_queue_ s' = request_queue_ s;
  qt_waiting off : waiting_queue off s' = waiting_queue off s;
  qt_running off : running_queue off s' = running_queue off s;
  qt_requests : running_requests_ s' = running_requests_ s;
  qt_sequences : running_sequences_ s' = running_sequences_ s;
  qt_budgets : running_sequences_budgets_ s' = running_sequences_budgets_ s;
  qt_last : last_step_prefill_ s' = last_step_prefill_ s;
  qt_min : min_speculative_tokens_required_ s' = min_speculative_tokens_required_ s;
  qt_completed : completed_ s' = completed_ s;
  qt_failed : failed_ s' = failed_ s;
}.
#[export] Instance quiet_preorder : PreOrder quiet.
Proof. split; [by constructor|]. intros s1 s2 s3 [] []. constructor; intros; etrans; eauto. Qed.

(** The batch does not change. *)
Record same_batch s s' : Prop := {
  sb_options : options_ s' = options_ s;
  sb_min : min_speculative_tokens_required_ s' = min_speculative_tokens_required_ s;
  sb_requests : running_requests_ s' = running_requests_ s;
  sb_sequences : running_sequences_ s' = running_sequences_ s;
  sb_budgets : running_sequences_budgets_ s' = running_sequences_budgets_ s;
}.
#[export] Instance same_batch_preorder : PreOrder same_batch.
Proof. split; [by constructor|]. intros s1 s2 s3 [] []. constructor; intros; etrans; eauto. Qed.
Lemma quiet_same_batch s s' : quiet s s' → same_batch s s'.
Proof. intros []. by constructor. Qed.

(** *** Operations on a request are quiet. *)

Lemma on_request_quiet {A} id (m : prog (K * Request T F) A) s :
  (∀ k r, post m (λ _ kr, req_static kr.2 = req_static r) (k, r)) →
  post (on_request id m) (λ _ s', quiet s s') s.
Proof.
  intros Hm. unfold on_request, post. destruct (requests s !! id) as [r|] eqn:Hr; [|done].
  specialize (Hm (kv_cache_manager_ s) r). unfold zoom, post in *.
  destruct (m _) as [a [k r']|e [k r']| |]; try done. simpl in Hm.
  constructor; intros; try done; [|by destruct off..]. simpl.
  rewrite fmap_insert, Hm. apply insert_id. by rewrite lookup_fmap, Hr.
Qed.
Lemma req_op_static {A} (m : prog (Request T F) A) k r :
  (∀ r, post m (λ _ r', req_static r' = req_static r) r) →
  post (req_op m) (λ _ (kr : K * Request T F), req_static kr.2 = req_static r) (k, r).
Proof. intros Hm. unfold req_op. apply post_zoom. eapply post_mono; [apply Hm|]. done. Qed.
Lemma seq_kv_static {A} i (m : prog (K * Sequence T F) A) k r :
  post (seq_kv i m) (λ _ kr, req_static kr.2 = req_static r) (k, r).
Proof.
  unfold seq_kv. apply post_bind, post_get, post_bind, post_at. intros q _. by apply post_zoom_any.
Qed.
Lemma on_seq_kv_quiet {A} id i (m : prog (K * Sequence T F) A) s :
  post (on_seq_kv id i m) (λ _ s', quiet s s') s.
Proof. apply on_request_quiet. intros k r. apply seq_kv_static. Qed.
Lemma seqs_op_quiet {A} id (m : prog (K * list (Sequence T F)) A) s :
  post (on_request id (seqs_op m)) (λ _ s', quiet s s') s.
Proof. apply on_request_quiet. intros k r. unfold seqs_op. by apply post_zoom_any. Qed.
Lemma get_request_quiet id s :
  post (get_request id) (λ r s', s' = s ∧ requests s !! id = Some r) s.
Proof.
  unfold get_request, on_request, post, zoom. destruct (requests s !! id) as [r|] eqn:Hr; [|done].
  simpl. rewrite insert_id by done. split; [by destruct s|done].
Qed.
Lemma get_sequence_state id i s :
  post (get_sequence id i)
    (λ q s', s' = s ∧ ∃ r, requests s !! id = Some r ∧ sequences_ r !! i = Some q) s.
Proof.
  unfold get_sequence, on_seq_kv, on_request, post, zoom, seq_kv. destruct (requests s !! id) as [r|] eqn:Hr; [|done].
  unfold mbind, prog_bind, get. simpl. unfold at_. destruct (sequences_ r !! i) as [q|] eqn:Hq; [|done].
  simpl. split; [|by exists r]. rewrite list_insert_id, insert_id by (by destruct r). by destruct s.
Qed.
Lemma get_sequence_quiet id i s :
  post (get_sequence id i)
    (λ q s', quiet s s' ∧ ∃ r, requests s !! id = Some r ∧ sequences_ r !! i = Some q) s.
Proof. eapply post_mono; [apply get_sequence_state|]. by intros q ? [-> ?]. Qed.
Lemma deallocate_request_quiet id s : post (deallocate_request id) (λ _ s', quiet s s') s.
Proof.
  apply on_request_quiet. intros k r. unfold kvm_deallocate_request. apply post_bind, post_get.
  apply (post_for_each _ _ (λ kr, req_static kr.2 = req_static r)); [done|].
  intros i [k' r'] _ Hr. simpl in Hr. rewrite <-Hr. apply seq_kv_static.
Qed.

Lemma on_sequence_static {A} i (m : prog (Sequence T F) A) r :
  post (on_sequence i m) (λ _ r', req_static r' = req_static r) r.
Proof.
  unfold on_sequence. apply post_bind, post_get, post_bind, post_at. intros q _. by apply post_zoom_any.
Qed.
Lemma all_finished_static n i r :
  post (all_finished n i) (λ _ r', req_static r' = req_static r) r.
Proof.
  revert i r. induction n as [|n IH]; intros i r; simpl; [done|].
  apply post_bind. eapply post_mono; [apply on_sequence_static|]. intros b r' <-.
  destruct b; [apply IH|done].
Qed.
Lemma request_finished_static r : post request_finished (λ _ r', req_static r' = req_static r) r.
Proof.
  unfold request_finished. apply post_bind, post_get. case_match; [done|]. apply all_finished_static.
Qed.
Lemma add_static r : post add (λ _ r', req_static r' = req_static r) r.
Proof.
  unfold add. apply post_bind, post_get, post_bind. unfold Sequence_new.
  destruct (last _); [|done]. post_steps. done.
Qed.
Lemma add_sequences_static n r : post (add_sequences n) (λ _ r', req_static r' = req_static r) r.
Proof.
  revert r. induction n as [|n IH]; intros r; simpl; [done|].
  apply post_bind. eapply post_mono; [apply add_static|]. intros _ r' <-. apply IH.
Qed.
Lemma expand_sequences_static share r : post (expand_sequences share) (λ _ r', req_static r' = req_static r) r.
Proof.
  unfold expand_sequences. apply post_bind, post_get. repeat (case_match; try done).
  apply post_bind. eapply post_mono; [apply add_sequences_static|]. intros _ r' <-. done.
Qed.

Lemma finished_or_cancelled_quiet id s : post (finished_or_cancelled id) (λ _ s', quiet s s') s.
Proof.
  apply on_request_quiet. intros k r. apply (req_op_static _ k r). intros r1. apply post_bind.
  eapply post_mono; [apply request_finished_static|]. intros f r2 <-. by destruct f.
Qed.
Lemma seq_finished_quiet id i s : post (seq_finished id i) (λ _ s', quiet s s') s.
Proof.
  apply on_request_quiet. intros k r. apply (req_op_static _ k r). intros r1. apply on_sequence_static.
Qed.
Lemma req_modify_quiet id f s :
  (∀ r, req_static (f r) = req_static r) →
  post (on_request id (req_op (modify f))) (λ _ s', quiet s s') s.
Proof.
  intros Hf. apply on_request_quiet. intros k r. apply (req_op_static _ k r). intros r1.
  apply post_modify. apply Hf.
Qed.
Lemma predict_step_time_quiet q s : post (predict_step_time q) (λ _ s', s' = s) s.
Proof. unfold predict_step_time. apply post_bind, post_check. intros _. by apply post_ret. Qed.

(** *** The loops over the sequences of a request *)

Ltac chain := first [apply (post_chain quiet)|apply (post_chain same_batch)].

Lemma request_evictable_blocks_quiet id s : post (request_evictable_blocks id) (λ _ s', quiet s s') s.
Proof.
  unfold request_evictable_blocks. chain; [eapply post_mono; [apply get_request_quiet|by intros ?? [-> _]]|].
  intros r s1 _. chain; [|by intros]. apply (post_chain_map_each quiet). intros i s2. apply on_seq_kv_quiet.
Qed.
Lemma evict_count_loop_quiet l need can num s :
  post (evict_count_loop l need can num) (λ _ s', quiet s s') s.
Proof.
  revert can num s. induction l as [|id l IH]; intros can num s; simpl; [done|].
  chain; [apply request_evictable_blocks_quiet|]. intros n s1 _. cbv zeta. case_match; [done|apply IH].
Qed.
Lemma check_if_enough_to_evict_quiet off n s : post (check_if_enough_to_evict off n) (λ _ s', quiet s s') s.
Proof.
  unfold check_if_enough_to_evict. chain; [done|]. intros x s1 _. cbv zeta. case_match; [done|].
  apply evict_count_loop_quiet.
Qed.
Lemma decode_allocate_quiet id i s : post (decode_allocate id i) (λ _ s', quiet s s') s.
Proof.
  unfold decode_allocate. chain; [eapply post_mono; [apply get_sequence_quiet|by intros ?? [? _]]|].
  intros q s1 _. chain; [done|]. intros x s2 _. chain; [apply on_seq_kv_quiet|].
  intros ok s3 _. destruct ok; [|done]. simpl. chain.
  { apply on_request_quiet. intros k r. apply (req_op_static _ k r). intros r1. apply on_sequence_static. }
  intros c s4 _. chain; [|done]. destruct c; [apply on_seq_kv_quiet|done].
Qed.
Lemma decode_loop_quiet b id l c s : post (decode_loop b id l c) (λ _ s', quiet s s') s.
Proof.
  revert c s. induction l as [|i l IH]; intros c s; simpl; [done|].
  chain; [apply seq_finished_quiet|]. intros f s1 _. destruct f; [apply IH|].
  chain; [eapply post_mono; [apply get_sequence_quiet|by intros ?? [? _]]|]. intros q s2 _.
  chain; [done|]. intros x s3 _. chain.
  { destruct (decode_latency_aware _); [|done]. chain; [|done].
    eapply post_mono; [apply predict_step_time_quiet|by intros ?? ->]. }
  intros lat s4 _. destruct (lat.2); [done|]. case_match; [done|].
  chain; [apply decode_allocate_quiet|]. intros ok s5 _. destruct ok; [apply IH|done].
Qed.
Lemma handle_running_requests_quiet id s : post (handle_running_requests id) (λ _ s', quiet s s') s.
Proof.
  unfold handle_running_requests. chain; [apply finished_or_cancelled_quiet|]. intros f s1 _.
  chain; [by destruct f|]. intros _ s2 _. chain.
  { apply on_request_quiet. intros k r. apply (req_op_static _ k r). apply expand_sequences_static. }
  intros e s3 _. chain; [destruct e; [apply on_seq_kv_quiet|done]|]. intros _ s4 _.
  chain; [eapply post_mono; [apply get_request_quiet|by intros ?? [-> _]]|]. intros r s5 _.
  apply (post_chain_for_each quiet). intros i s6. chain; [apply seq_finished_quiet|].
  intros b s7 _. destruct b; [apply on_seq_kv_quiet|done].
Qed.

(** *** Preemption leaves the batch alone. *)

Lemma running_back_state off s :
  post (running_back off) (λ id s', s' = s ∧ last (running_queue off s) = Some id) s.
Proof. unfold running_back. apply post_bind, post_get. by destruct (last _) eqn:E. Qed.
Lemma running_top_state off s :
  post (running_top off) (λ id s', s' = s ∧ ∃ l, running_queue off s = id :: l) s.
Proof. unfold running_top. apply post_bind, post_get. destruct (running_queue off s) eqn:E; [done|split; [done|by eexists]]. Qed.
Lemma waiting_top_state off s :
  post (waiting_top estimated_latency off)
    (λ id s', s' = s ∧ pq_top (compare estimated_latency s) (waiting_queue off s) = Some id) s.
Proof. unfold waiting_top. apply post_bind, post_get. by destruct (pq_top _ _) eqn:E. Qed.
(** A push keeps what is in the queue: no request is equivalent to another one in the order of
    a [DynamicPriorityQueue], which is the negation of a comparator. *)
Lemma set_insert_perm lt x l : (∀ y, lt x y = false → lt y x = true) → set_insert lt x l ≡ₚ x :: l.
Proof.
  intros Hlt. induction l as [|y l IH]; simpl; [done|]. destruct (lt x y) eqn:E; [done|].
  rewrite (Hlt y E), IH. apply Permutation_swap.
Qed.
Lemma set_before_total strategy cmp s x y :
  running_comparator strategy = Some cmp → set_before cmp s x y = false → set_before cmp s y x = true.
Proof.
  intros Hc. unfold set_before. destruct (requests s !! x) as [rx|], (requests s !! y) as [ry|]; try done.
  rewrite negb_false_iff, negb_true_iff. revert Hc. unfold running_comparator.
  destruct (String.eqb _ _); [|destruct (String.eqb _ _); [|done]]; intros [= <-].
  - unfold DeadlineComparator. rewrite Z.ltb_lt, Z.ltb_ge. lia.
  - unfold StrictPriorityComparator. rewrite (Z.eqb_sym (priority_value (sp_priority (scheduler_param ry)))).
    destruct (_ =? _) eqn:E; simpl; rewrite Z.ltb_lt, Z.ltb_ge; lia.
Qed.
(** The queues of [FCFSQueue]s *)
Definition fcfs_queues s : Prop := running_comparator (F := F) (T := T) (priority_strategy (options_ s)) = None.
Lemma running_push_state off id k s :
  post (running_push off id k)
    (λ _ s', ∃ l, s' = set_running_queue off l s ∧ l ≡ₚ id :: running_queue off s ∧
       (fcfs_queues s → l = if default false k then running_queue off s ++ [id] else id :: running_queue off s)) s.
Proof.
  unfold running_push, fcfs_queues. apply post_bind, post_get. destruct (running_comparator _) as [cmp|] eqn:E.
  - destruct k; [done|]. case_match; [done|]. apply post_put. eexists. split; [done|]. split; [|done].
    apply set_insert_perm. intros y. by eapply set_before_total.
  - destruct k as [[]|]; apply post_put; eexists; (split; [done|]); (split; [|done]); [by rewrite Permutation_app_comm|done..].
Qed.
Lemma pop_top_state off s :
  post (pop_top off) (λ _ s', ∃ id l, running_queue off s = id :: l ∧ s' = set_running_queue off l s) s.
Proof. unfold pop_top. apply post_bind, post_get. destruct (running_queue off s) eqn:E; [done|by do 2 eexists]. Qed.
Lemma pop_back_state off s :
  post (pop_back off) (λ _ s', ∃ id l, running_queue off s = l ++ [id] ∧ s' = set_running_queue off l s) s.
Proof.
  unfold pop_back. apply post_bind, post_get. destruct (running_queue off s) as [|y l0] eqn:E; [done|].
  destruct (@exists_last _ (y :: l0)) as (l' & x & Hl); [done|]. rewrite Hl. apply post_put.
  exists x, l'. split; [done|]. f_equal. rewrite length_app. simpl. by rewrite take_app_length'; [|lia].
Qed.

Lemma preempt_offline_same n s : post (preempt_offline n) (λ _ s', same_batch s s') s.
Proof.
  revert s. induction n as [|n IH]; intros s; simpl; [done|].
  chain; [eapply post_mono; [apply running_back_state|by intros ?? [-> _]]|]. intros id s1 _.
  chain; [eapply post_mono; [apply deallocate_request_quiet|intros; by apply quiet_same_batch]|]. intros u s2 _.
  chain; [eapply post_mono; [apply pop_back_state|by intros ?? (?&?&_&->)]|]. intros u1 s3 _.
  chain; [eapply post_mono; [by apply req_modify_quiet|intros; by apply quiet_same_batch]|]. intros u2 s4 _.
  chain; [by apply post_modify|]. intros u3 s5 _. apply IH.
Qed.
Lemma preempt_back_same off s : post (preempt_back off) (λ _ s', same_batch s s') s.
Proof.
  unfold preempt_back.
  chain; [eapply post_mono; [apply running_back_state|by intros ?? [-> _]]|]. intros id s1 _.
  chain; [eapply post_mono; [apply deallocate_request_quiet|intros; by apply quiet_same_batch]|]. intros u s2 _.
  chain; [eapply post_mono; [apply pop_back_state|by intros ?? (?&?&_&->)]|]. intros u1 s3 _.
  chain; [eapply post_mono; [by apply req_modify_quiet|intros; by apply quiet_same_batch]|]. intros u2 s4 _.
  chain; [eapply post_mono; [apply get_request_quiet|by intros ?? [-> _]]|]. intros r s5 _.
  by apply post_modify.
Qed.
Lemma prefill_allocate_same id i n s : post (prefill_allocate id i n) (λ _ s', same_batch s s') s.
Proof.
  unfold prefill_allocate.
  chain; [eapply post_mono; [apply on_seq_kv_quiet|intros; by apply quiet_same_batch]|]. intros ok s1 _.
  destruct ok; [done|]. chain; [eapply post_mono; [apply get_request_quiet|by intros ?? [-> _]]|]. intros r s2 _.
  chain; [done|]. intros x s3 _. case_match; [|done].
  chain; [eapply post_mono; [apply check_if_enough_to_evict_quiet|intros; by apply quiet_same_batch]|].
  intros e s4 _. destruct (e.1); [|done]. chain; [apply preempt_offline_same|]. intros u s5 _.
  eapply post_mono; [apply on_seq_kv_quiet|intros; by apply quiet_same_batch].
Qed.

(** *** The candidates of a request fit the budgets.

    A budget of [2 ^ 63] or more is what [num_need_compute_tokens] gives for a sequence
    that claims more cached tokens than it has; the sums below are exact without one. *)
Definition total (l : list Z) : Z := foldr Z.add 0 l.
Definition small (l : list Z) : Prop := Forall (λ n, n < 2 ^ 63) l.
Lemma total_app l1 l2 : total (l1 ++ l2) = total l1 + total l2.
Proof. induction l1 as [|x l1 IH]; simpl; lia. Qed.
Lemma total_nonneg l : Forall (λ n, 0 ≤ n) l → 0 ≤ total l.
Proof. induction 1; simpl; lia. Qed.

Record cand_ok (b : Budgets (D := D)) (c : Candidates (D := D)) : Prop := {
  co_length : length (candidate_sequences c) = length (candidate_token_budgets c);
  co_seqs : allocated_seqs c = Z.of_nat (length (candidate_sequences c));
  co_max_seqs : allocated_seqs c ≤ remaining_seq_budget b;
  co_nonneg : Forall (λ n, 0 ≤ n) (candidate_token_budgets c);
  co_tokens : 0 ≤ remaining_token_budget b < 2 ^ 32 → small (candidate_token_budgets c) →
    allocated_tokens c = total (candidate_token_budgets c) ∧
    total (candidate_token_budgets c) ≤ remaining_token_budget b;
}.
Lemma cand_none b : 0 ≤ remaining_seq_budget b → cand_ok b Candidates_none.
Proof. intros Hs. constructor; simpl; try done; lia. Qed.
Lemma cand_latency b c d : cand_ok b c → cand_ok b (with_latency d c).
Proof. intros []. by constructor. Qed.
(** One more sequence, within what is left *)
Lemma cand_add b c id i n d :
  cand_ok b c → 0 ≤ n → remaining_seq_budget b < 2 ^ 32 → allocated_seqs c < remaining_seq_budget b →
  (0 ≤ remaining_token_budget b < 2 ^ 32 → small (candidate_token_budgets c) →
   0 ≤ allocated_tokens c ≤ remaining_token_budget b → n < 2 ^ 63 →
   allocated_tokens c + n ≤ remaining_token_budget b) →
  cand_ok b (add_candidate id i n d c).
Proof.
  intros [Hl Hs Hm Hn Ht] Hpos Hr Hlt Hle. unfold add_candidate. constructor; simpl.
  - rewrite !length_app. simpl. lia.
  - rewrite length_app. simpl. rewrite u64_id; lia.
  - rewrite u64_id; lia.
  - apply Forall_app. by repeat constructor.
  - intros Hb [Hsm Hsn]%Forall_app. apply Forall_cons in Hsn as [Hsn _]. destruct (Ht Hb Hsm) as [E1 E2].
    pose proof (total_nonneg _ Hn). rewrite E1 in Hle. specialize (Hle Hb Hsm ltac:(lia) Hsn).
    rewrite E1, total_app. simpl. rewrite u64_id by lia. lia.
Qed.

Lemma num_need_range (q : Sequence T F) : 0 ≤ num_need_compute_tokens q < 2 ^ 64.
Proof. apply u64_range. Qed.
Lemma align_nonneg o (q : Sequence T F) n : 0 ≤ n → 0 ≤ maybe_align_cp_prefill_tokens o q n.
Proof. intros Hn. unfold maybe_align_cp_prefill_tokens. repeat case_match; try done. apply u64_range. Qed.

Lemma prefill_loop_budget b id l c s :
  cand_ok b c → remaining_seq_budget b < 2 ^ 32 →
  post (prefill_loop b id l c) (λ res s', same_batch s s' ∧ (res.1 = AllScheduled → cand_ok b res.2)) s.
Proof.
  revert c s. induction l as [|i l IH]; intros c s Hc Hb; simpl; [by apply post_ret|].
  apply post_bind. eapply post_mono; [apply seq_finished_quiet|]. intros f s1 G1%quiet_same_batch.
  destruct f; [eapply post_mono; [by apply IH|]; intros res s2 [? ?]; split; [by etrans|done]|].
  apply post_bind. eapply post_mono; [apply get_sequence_quiet|]. intros q s2 [G2%quiet_same_batch _].
  apply post_bind, post_gets. cbv zeta. set (n := maybe_align_cp_prefill_tokens _ _ _).
  assert (same_batch s s2) as G02 by (by etrans).
  destruct (_ || _) eqn:Eb; [by apply post_ret|]. apply orb_false_iff in Eb as [Et Es].
  apply Z.ltb_ge in Et, Es.
  apply post_bind. eapply post_mono; [apply prefill_allocate_same|]. intros ok s3 G3.
  assert (same_batch s s3) as G03 by (by etrans). destruct ok; simpl.
  2: { apply post_bind. eapply post_mono; [apply on_seq_kv_quiet|]. intros u s4 G4%quiet_same_batch.
       apply post_ret. split; [by etrans|done]. }
  apply post_bind. eapply (post_mono _ (λ _ s', same_batch s3 s')).
  { case_match; [|by apply post_ret]. chain; [eapply post_mono; [apply get_sequence_quiet|]|].
    - intros ? ? [? _]. by apply quiet_same_batch.
    - intros q' s4 _. chain; [|done]. eapply post_mono; [apply predict_step_time_quiet|by intros ?? ->]. }
  intros lat s4 G4. assert (same_batch s s4) as G04 by (by etrans). destruct (lat.2).
  { apply post_bind. eapply post_mono; [apply on_seq_kv_quiet|]. intros u s5 G5%quiet_same_batch.
    apply post_ret. split; [by etrans|done]. }
  eapply post_mono; [apply IH; [|done]|].
  - pose proof (co_seqs _ _ Hc). pose proof (co_max_seqs _ _ Hc).
    assert (0 ≤ n) by (apply align_nonneg, num_need_range).
    rewrite u64_id in Es by lia. apply cand_add; try done; [lia|]. intros Hr _ Ha Hn.
    rewrite u64_id in Et; lia.
  - intros res s5 [? ?]. split; [by etrans|done].
Qed.

Lemma decode_loop_budget b id l c s :
  cand_ok b c → remaining_seq_budget b < 2 ^ 32 → 0 ≤ min_speculative_tokens_required_ s < 2 ^ 31 →
  post (decode_loop b id l c) (λ res s', cand_ok b res.2) s.
Proof.
  revert c s. induction l as [|i l IH]; intros c s Hc Hb Hmin; simpl; [by apply post_ret|].
  apply post_bind. eapply post_mono; [apply seq_finished_quiet|]. intros f s1 G1.
  destruct f; [apply IH; [done|done|by rewrite (qt_min _ _ G1)]|].
  apply post_bind. eapply post_mono; [apply get_sequence_quiet|]. intros q s2 [G2 _].
  assert (quiet s s2) as G02 by (by etrans).
  apply post_bind, post_get. apply post_bind. eapply (post_mono _ (λ _ s', s' = s2)).
  { destruct (decode_latency_aware _); [|by apply post_ret]. apply post_bind.
    eapply post_mono; [apply predict_step_time_quiet|]. intros ?? ->. by apply post_ret. }
  intros lat s3 ->. destruct (lat.2); [by apply post_ret|].
  destruct (_ || _) eqn:Eb; [by apply post_ret|]. apply orb_false_iff in Eb as [Et Es].
  apply Z.leb_gt in Et, Es.
  apply post_bind. eapply post_mono; [apply decode_allocate_quiet|]. intros ok s4 G4.
  destruct ok; [|by apply post_ret]. simpl. unfold min_spec in *. rewrite (qt_min _ _ G02) in *.
  rewrite (u64_id (min_speculative_tokens_required_ s)) in * by lia.
  rewrite (u64_id (min_speculative_tokens_required_ s + 1)) by lia.
  apply IH; [|done|by rewrite (qt_min _ _ G4), (qt_min _ _ G02)].
  apply cand_add; try done; [lia|]. intros Hr _ Ha Hn. rewrite u64_id in Et; lia.
Qed.

(** *** The batch fits the budgets: [M] tokens and [N] sequences. *)

Record batch_ok (M N : Z) (b : Budgets (D := D)) s : Prop := {
  bo_length : length (running_sequences_ s) = length (running_sequences_budgets_ s);
  bo_seqs : Z.of_nat (length (running_sequences_ s)) + remaining_seq_budget b = N;
  bo_seq_pos : 0 ≤ remaining_seq_budget b;
  bo_nonneg : Forall (λ n, 0 ≤ n) (running_sequences_budgets_ s);
  bo_tokens : small (running_sequences_budgets_ s) →
    total (running_sequences_budgets_ s) + remaining_token_budget b = M ∧ 0 ≤ remaining_token_budget b;
  bo_min : 0 ≤ min_speculative_tokens_required_ s < 2 ^ 31;
}.
Lemma batch_same M N b s s' : same_batch s s' → batch_ok M N b s → batch_ok M N b s'.
Proof. intros [E1 E2 E3 E4 E5] []. constructor; rewrite ?E2, ?E4, ?E5; done. Qed.
Ltac same_batch_tac := cbv beta in *; eapply batch_same; eassumption.
Lemma batch_quiet M N b s s' : quiet s s' → batch_ok M N b s → batch_ok M N b s'.
Proof. intros ?%quiet_same_batch. by apply batch_same. Qed.
Lemma batch_join M N b c id s :
  0 ≤ M < 2 ^ 32 → N < 2 ^ 32 → batch_ok M N b s → cand_ok b c →
  post (join_batch id c) (λ _ s', batch_ok M N (take_budget c b) s') s.
Proof.
  intros HM HN [Hl Hs Hp Hn Ht Hmin] [Cl Cs Cm Cn Ct]. apply post_modify. constructor; simpl; try done.
  - rewrite !length_app. lia.
  - rewrite length_app, u64_id; lia.
  - apply u64_range.
  - by apply Forall_app.
  - intros [Hsm Hsn]%Forall_app. destruct (Ht Hsm) as [E1 E2]. pose proof (total_nonneg _ Hn).
    destruct (Ct ltac:(lia) Hsn) as [E3 E4]. pose proof (total_nonneg _ Cn).
    rewrite total_app, E3, u64_id by lia. lia.
Qed.

Context (M N : Z) (HM : 0 ≤ M < 2 ^ 32) (HN : N < 2 ^ 32).

Lemma prefill_request_budget off p s :
  batch_ok M N (budgets p) s →
  post (prefill_request estimated_latency off p) (λ res s', batch_ok M N (budgets res.2) s') s.
Proof.
  intros Hb. unfold prefill_request. apply post_bind.
  eapply post_mono; [apply waiting_top_state|]. intros id ? [-> _]. apply post_bind.
  eapply post_mono; [apply finished_or_cancelled_quiet|]. intros f s1 Hb1.
  eapply (batch_quiet _ _ _ _ _ Hb1) in Hb. clear Hb1. destruct f.
  { apply post_bind. eapply post_mono; [apply deallocate_request_quiet|]. intros u s2 Hb2.
    eapply (batch_quiet _ _ _ _ _ Hb2) in Hb. apply post_bind, post_modify, post_ret.
    eapply batch_same; [|exact Hb]. done. }
  apply post_bind. eapply post_mono; [apply get_request_quiet|]. intros r ? [-> _].
  apply post_bind, post_check. intros _. apply post_bind, post_gets, post_bind.
  eapply post_mono; [apply seqs_op_quiet|]. intros ok s2 Hb2.
  eapply (batch_quiet _ _ _ _ _ Hb2) in Hb. destruct ok; simpl.
  2: { apply post_bind, post_modify, post_bind, post_modify, post_ret. by eapply batch_same; [|exact Hb]. }
  apply post_bind. pose proof (bo_seqs _ _ _ _ Hb). pose proof (bo_seq_pos _ _ _ _ Hb).
  eapply post_mono; [apply prefill_loop_budget; [by apply cand_none|lia]|].
  intros [stop c] s3 [Hb3 Hc]. simpl in Hc. eapply (batch_same _ _ _ _ _ Hb3) in Hb. destruct stop; simpl.
  - apply post_bind, post_modify, post_bind. eapply post_mono.
    + eapply batch_join; [done|done| |by apply Hc]. by eapply batch_same; [|exact Hb].
    + intros u s4 Hb4. by apply post_ret.
  - apply post_bind. eapply post_mono; [apply (post_chain_for_each quiet)|].
    + intros a s'. apply on_seq_kv_quiet.
    + intros u s4 Hb4. apply post_ret. eapply batch_quiet; [exact Hb4|exact Hb].
  - apply post_bind. eapply post_mono; [apply (post_chain_for_each quiet)|].
    + intros a s'. apply on_seq_kv_quiet.
    + intros u s4 Hb4. apply post_ret. eapply batch_quiet; [exact Hb4|exact Hb].
Qed.
Lemma prefill_while_budget n off p s :
  batch_ok M N (budgets p) s →
  post (prefill_while estimated_latency n off p) (λ p' s', batch_ok M N (budgets p') s') s.
Proof.
  revert p s. induction n as [|n IH]; intros p s Hb; simpl; [done|].
  apply post_bind, post_get. cbv zeta. case_match; [by apply post_ret|]. case_match; [by apply post_ret|].
  apply post_bind. eapply post_mono; [by apply prefill_request_budget|]. intros [go p'] s' Hb'.
  simpl in *. destruct go; [by apply IH|by apply post_ret].
Qed.
Lemma prefill_too_long_same off p s :
  post (prefill_too_long estimated_latency off p) (λ _ s', same_batch s s') s.
Proof.
  unfold prefill_too_long. chain; [done|]. intros x s1 _. case_match; [|done].
  chain; [eapply post_mono; [apply waiting_top_state|by intros ?? [-> _]]|]. intros id s2 _.
  chain; [by apply post_modify|]. intros u s3 _.
  chain; [eapply post_mono; [apply deallocate_request_quiet|intros; by apply quiet_same_batch]|]. intros u1 s4 _.
  case_match; [by apply post_modify|done].
Qed.
Lemma handle_prefill_requests_budget n off b fin s :
  batch_ok M N b s →
  post (handle_prefill_requests estimated_latency n off b fin) (λ res s', batch_ok M N res.1 s') s.
Proof.
  intros Hb. unfold handle_prefill_requests. apply post_bind.
  eapply post_mono; [by apply prefill_while_budget|]. intros p s1 Hb1. apply post_bind.
  eapply post_mono; [apply prefill_too_long_same|]. intros u s2 G2. eapply (batch_same _ _ _ _ _ G2) in Hb1.
  apply post_bind, post_modify, post_ret. eapply batch_same; [|exact Hb1]. case_match; by constructor.
Qed.

(** The beam search: [m + 1] tokens for each of its sequences *)
Lemma beam_allocate_budget b id l c s m :
  m = min_spec s → 0 ≤ min_speculative_tokens_required_ s < 2 ^ 31 →
  cand_ok b c → remaining_seq_budget b < 2 ^ 32 →
  allocated_seqs c + Z.of_nat (length l) ≤ remaining_seq_budget b →
  (0 ≤ remaining_token_budget b < 2 ^ 32 → small (candidate_token_budgets c) →
   allocated_tokens c + (m + 1) * Z.of_nat (length l) ≤ remaining_token_budget b) →
  post (beam_allocate id l c) (λ res _, cand_ok b res.2) s.
Proof.
  intros Hm Hmin. assert (0 ≤ m < 2 ^ 31) as Hm1 by (unfold min_spec in Hm; rewrite u64_id in Hm; lia).
  revert c s Hm Hmin. induction l as [|i l IH]; intros c s Hm Hmin Hc Hr Hs Ht; simpl; [by apply post_ret|].
  apply post_bind. eapply post_mono; [apply decode_allocate_quiet|]. intros ok s1 G1.
  destruct ok; [|by apply post_ret]. simpl. apply post_bind, post_gets.
  assert (min_spec s1 = m) as -> by (unfold min_spec in *; by rewrite (qt_min _ _ G1)).
  rewrite (u64_id (m + 1)) by lia. simpl length in Hs, Ht.
  assert (cand_ok b (add_candidate id i (m + 1) (d_of_int 0) c)) as Hc'.
  { apply cand_add; try done; [lia|lia|]. intros Hb Hsm Ha Hn. specialize (Ht Hb Hsm). nia. }
  pose proof (cand_latency _ _ (allocated_estimate_latency c) Hc') as Hc2. apply IH; try done.
  - unfold min_spec in *. by rewrite (qt_min _ _ G1).
  - by rewrite (qt_min _ _ G1).
  - pose proof (co_seqs _ _ Hc). pose proof (co_max_seqs _ _ Hc). simpl. rewrite u64_id; lia.
  - intros Hb [Hsm _]%Forall_app. destruct (co_tokens _ _ Hc Hb Hsm) as [E1 E2]. specialize (Ht Hb Hsm).
    pose proof (total_nonneg _ (co_nonneg _ _ Hc)). simpl. rewrite u64_id; nia.
Qed.
Lemma active_sequences_quiet id l s : post (active_sequences id l) (λ _ s', quiet s s') s.
Proof.
  revert s. induction l as [|i l IH]; intros s; simpl; [done|].
  chain; [apply seq_finished_quiet|]. intros f s1 _. chain; [apply IH|done].
Qed.
Lemma beam_over_latency_quiet b id l d s : post (beam_over_latency b id l d) (λ _ s', quiet s s') s.
Proof.
  revert d s. induction l as [|i l IH]; intros d s; simpl; [done|].
  chain; [eapply post_mono; [apply get_sequence_quiet|by intros ?? [? _]]|]. intros q s1 _.
  chain; [eapply post_mono; [apply predict_step_time_quiet|by intros ?? ->]|]. intros d' s2 _.
  case_match; [done|apply IH].
Qed.
Lemma beam_latency_quiet id l d s : post (beam_latency id l d) (λ _ s', quiet s s') s.
Proof.
  revert d s. induction l as [|i l IH]; intros d s; simpl; [done|].
  chain; [eapply post_mono; [apply get_sequence_quiet|by intros ?? [? _]]|]. intros q s1 _.
  chain; [eapply post_mono; [apply predict_step_time_quiet|by intros ?? ->]|]. intros d' s2 _. apply IH.
Qed.
Lemma beam_allocate_quiet id l c s : post (beam_allocate id l c) (λ _ s', quiet s s') s.
Proof.
  revert c s. induction l as [|i l IH]; intros c s; simpl; [done|].
  chain; [apply decode_allocate_quiet|]. intros ok s1 _. destruct ok; [|done]. simpl. chain; [done|].
  intros m s2 _. apply IH.
Qed.

Lemma waiting_push_same off id s : post (waiting_push off id) (λ _ s', same_batch s s') s.
Proof. by apply post_modify. Qed.
Lemma decode_beam_budget off b id n s :
  batch_ok M N b s →
  post (decode_beam off b id n)
    (λ res s', same_batch s s' ∧ ∀ x, res = Some x → cand_ok b x.2) s.
Proof.
  intros Hb. pose proof (bo_min _ _ _ _ Hb) as Hmin. pose proof (bo_seqs _ _ _ _ Hb). pose proof (bo_seq_pos _ _ _ _ Hb).
  unfold decode_beam. apply post_bind. eapply post_mono; [apply active_sequences_quiet|].
  intros active s1 G1. destruct active as [|front active]; [apply post_bind; eapply post_mono; [apply pop_top_state|]|].
  { intros u s2 (? & ? & _ & ->). apply post_ret. split; [|done]. etrans; [by apply quiet_same_batch|]. by constructor. }
  set (act := front :: active) in *. apply post_bind, post_get. cbv zeta. apply post_bind.
  assert (min_spec s1 = min_spec s) as Em by (unfold min_spec; by rewrite (qt_min _ _ G1)).
  eapply (post_mono _ (λ nb s', quiet s s' ∧ (nb = false →
    u64 (u64 (min_spec s + 1) * Z.of_nat (length act)) ≤ remaining_token_budget b ∧
    Z.of_nat (length act) ≤ remaining_seq_budget b))).
  { rewrite Em. destruct (_ || _) eqn:E; [by apply post_ret|]. apply orb_false_iff in E as [E1%Z.ltb_ge E2%Z.ltb_ge].
    case_match; [|by apply post_ret]. eapply post_mono; [apply beam_over_latency_quiet|].
    intros nb s2 G2. split; [by etrans|done]. }
  intros nb s2 [G2 Hfit]. destruct nb; [apply post_ret; split; [by apply quiet_same_batch|intros x [= <-]; by apply cand_none]|].
  destruct (Hfit eq_refl) as [Ft Fs]. apply post_bind. case_match; [done|]. apply post_ret, post_bind.
  eapply post_mono; [apply (post_chain_map_each quiet); intros; eapply post_mono; [apply get_sequence_quiet|by intros ?? [? _]]|].
  intros qs s3 G3. apply post_bind. eapply post_mono; [apply get_sequence_quiet|]. intros q s4 [G4 _].
  assert (quiet s s4) as G04 by (etrans; [exact G2|]; etrans; [exact G3|exact G4]).
  case_match; [apply post_ret; split; [by apply quiet_same_batch|intros x [= <-]; by apply cand_none]|].
  apply post_bind. eapply post_mono; [apply (post_and (beam_allocate id act Candidates_none)
    (λ _ s', quiet s4 s') (λ res _, cand_ok b res.2)); [apply beam_allocate_quiet|]|].
  - eapply (beam_allocate_budget _ _ _ _ _ (min_spec s4)); try done.
    + by rewrite (qt_min _ _ G04).
    + by apply cand_none.
    + lia.
    + intros _ _. simpl. assert (min_spec s4 = min_spec s) as -> by (unfold min_spec; by rewrite (qt_min _ _ G04)).
      assert (0 ≤ min_spec s < 2 ^ 31) by (unfold min_spec; rewrite u64_id; lia).
      rewrite (u64_id (min_spec s + 1)) in Ft by lia. rewrite u64_id in Ft by nia. done.
  - intros [ok c] s5 [G5 Hc]. assert (quiet s s5) as G05 by (by etrans). simpl in Hc |- *. destruct ok; simpl.
    + apply post_bind. eapply (post_mono _ (λ _ s', quiet s s')).
      { case_match; [|by apply post_ret]. eapply post_mono; [apply (beam_latency_quiet id act)|]. intros ? ? G; etrans; [exact G05|exact G]. }
      intros d s6 G6. apply post_ret. split; [by apply quiet_same_batch|]. intros x [= <-]. by apply cand_latency.
    + apply (post_mono _ (λ res s', same_batch s5 s' ∧ res = None)).
      2: { intros res s' [? ->]. split; [etrans; [by apply quiet_same_batch|done]|done]. }
      apply post_bind. eapply post_mono; [apply deallocate_request_quiet|]. intros u s6 G6%quiet_same_batch.
      apply post_bind. eapply post_mono; [apply pop_top_state|]. intros u1 s7 (? & l' & _ & ->).
      apply post_bind. eapply post_mono; [by apply req_modify_quiet|]. intros u2 s8 G8%quiet_same_batch.
      apply post_bind. eapply post_mono; [apply get_request_quiet|]. intros r s9 [-> _].
      apply post_bind. eapply post_mono; [apply waiting_push_same|]. intros u3 s10 G10. apply post_ret.
      split; [|done]. etrans; [exact G6|]. etrans; [|exact G10]. etrans; [|exact G8]. by constructor.
Qed.

Lemma pop_top_same off s : post (pop_top off) (λ _ s', same_batch s s') s.
Proof. eapply post_mono; [apply pop_top_state|]. intros u s' (? & ? & _ & ->). by constructor. Qed.
Lemma handle_abnormal_request_budget off stop c b s :
  batch_ok M N b s → cand_ok b c →
  post (handle_abnormal_request off stop c b) (λ b' s', batch_ok M N b' s') s.
Proof.
  intros Hb Hc. unfold handle_abnormal_request. apply post_bind.
  eapply post_mono; [apply running_top_state|]. intros id ? [-> _]. apply post_bind, post_get, post_bind.
  eapply post_mono; [apply get_request_quiet|]. intros r ? [-> _]. destruct (candidate_sequences c).
  - case_match; [by apply post_ret|]. apply post_bind. eapply (post_mono _ (λ _ s', s' = s)).
    { assert (∀ l, post (sum l) (λ _ s', s' = s) s) as Hsum by (intros []; [done|by apply post_ret]).
      destruct stop; [|by apply post_ret|]; (apply post_bind, post_check; intros _; apply post_bind;
        eapply post_mono; [apply Hsum|]; intros u ? ->; by apply post_ret). }
    intros [] ? ->; [|by apply post_ret]. apply post_bind. eapply post_mono; [apply pop_top_same|].
    intros u s1 G1. apply post_bind. eapply post_mono; [apply deallocate_request_quiet|].
    intros u1 s2 G2%quiet_same_batch. apply post_bind, post_modify, post_ret.
    eapply batch_same; [|exact Hb]. etrans; [exact G1|]. etrans; [exact G2|]. by constructor.
  - case_match; [by apply post_ret|]. apply post_bind. eapply post_mono; [apply pop_top_same|].
    intros u s1 G1. apply post_bind. eapply post_mono; [eapply batch_join; [done|done| |exact Hc]|].
    { same_batch_tac. }
    intros u1 s2 Hb2. by apply post_ret.
Qed.
Lemma decode_request_budget off b s :
  batch_ok M N b s → post (decode_request off b) (λ res s', batch_ok M N res.2 s') s.
Proof.
  intros Hb. unfold decode_request. apply post_bind.
  eapply post_mono; [apply running_top_state|]. intros id ? [-> _]. apply post_bind.
  eapply post_mono; [apply get_request_quiet|]. intros r ? [-> _]. apply post_bind.
  pose proof (bo_seqs _ _ _ _ Hb). pose proof (bo_seq_pos _ _ _ _ Hb).
  eapply (post_mono _ (λ res s', same_batch s s' ∧ ∀ x, res = Some x → cand_ok b x.2)).
  { case_match; [by apply decode_beam_budget|]. apply post_bind.
    eapply post_mono; [apply (post_and _ (λ _ s', quiet s s') (λ res _, cand_ok b res.2));
      [apply decode_loop_quiet|apply decode_loop_budget; [by apply cand_none|lia|apply Hb]]|].
    intros x s1 [G1%quiet_same_batch Hx]. apply post_ret. split; [done|]. by intros y [= <-]. }
  intros [[stop c]|] s1 [G1 Hc].
  2: { apply post_ret. same_batch_tac. }
  specialize (Hc _ eq_refl). simpl in Hc. apply post_bind, post_check. intros _. apply post_bind, post_check. intros _.
  eapply (batch_same _ _ _ _ _ G1) in Hb. destruct stop.
  - apply post_bind. eapply post_mono; [apply pop_top_same|]. intros u s2 G2. apply post_bind.
    eapply post_mono; [eapply batch_join; [done|done| |exact Hc]; same_batch_tac|]. intros u1 s3 Hb3. by apply post_ret.
  - apply post_bind. eapply post_mono; [by apply handle_abnormal_request_budget|]. intros b' s2 Hb2. by apply post_ret.
  - apply post_bind, post_get. case_match.
    { apply post_bind. eapply post_mono; [apply preempt_offline_same|]. intros u s2 G2. apply post_ret. same_batch_tac. }
    case_match.
    { apply post_bind. eapply post_mono; [apply running_back_state|]. intros v ? [-> _]. apply post_bind.
      destruct (decide (v = id)); [exact I|]. eapply post_mono; [apply preempt_back_same|]. intros u s2 G2. apply post_ret. same_batch_tac. }
    apply post_bind. eapply post_mono; [by apply handle_abnormal_request_budget|]. intros b' s2 Hb2. by apply post_ret.
Qed.
Lemma handle_decode_requests_budget n off b s :
  batch_ok M N b s → post (handle_decode_requests n off b) (λ b' s', batch_ok M N b' s') s.
Proof.
  revert b s. induction n as [|n IH]; intros b s Hb; simpl; [done|].
  apply post_bind, post_get. case_match; [by apply post_ret|]. apply post_bind.
  eapply post_mono; [by apply decode_request_budget|]. intros [go b'] s' Hb'. simpl in *.
  destruct go; [by apply IH|by apply post_ret].
Qed.
Lemma fill_batch_budget n fin s :
  M = u64 (max_tokens_per_batch (options_ s)) → N = Z.max (max_seqs_per_batch (options_ s)) 1 →
  running_sequences_ s = [] → running_sequences_budgets_ s = [] →
  0 ≤ min_speculative_tokens_required_ s < 2 ^ 31 →
  post (fill_batch estimated_latency n fin) (λ _ s', ∃ b, batch_ok M N b s') s.
Proof.
  intros EM EN Hs Hb Hmin. unfold fill_batch. apply post_bind, post_gets, post_bind.
  assert (batch_ok M N (initial_budgets (options_ s)) s) as Hok.
  { constructor; rewrite ?Hs, ?Hb; simpl; try done; try lia. }
  eapply post_mono; [by apply handle_prefill_requests_budget|]. intros r1 s1 Hb1. apply post_bind.
  eapply post_mono; [by apply handle_prefill_requests_budget|]. intros r2 s2 Hb2. apply post_bind, post_get, post_bind.
  eapply (post_mono _ (λ _ s', ∃ b, batch_ok M N b s')).
  2: { intros u s3 Hb3. by apply post_ret. }
  case_match; [|apply post_ret; by exists r2.1]. apply post_bind.
  eapply post_mono; [apply handle_decode_requests_budget|].
  { destruct Hb2. by constructor. }
  intros b3 s3 Hb3. apply post_bind. eapply post_mono; [by apply handle_decode_requests_budget|].
  intros b4 s4 Hb4. apply post_ret. by exists b4.
Qed.
End frames.

(** *** Before the batch is filled *)

Section step.
Context `{FloatOps F} `{DoubleOps D} `{ProfileManager D} `{PriorityQueue}.
Context `{KVCacheManager K T F}.
Variable estimated_latency : Request T F → D.
Abbreviation Sched := (Scheduler.Sched (F := F) (K := K) (T := T)).
Implicit Types (s : Sched).

(** The options do not change. *)
Definition same_options s s' : Prop :=
  options_ s' = options_ s ∧ min_speculative_tokens_required_ s' = min_speculative_tokens_required_ s.
#[export] Instance same_options_preorder : PreOrder same_options.
Proof. split; [done|]. intros s1 s2 s3 [] []. split; by etrans. Qed.
Lemma quiet_same_options s s' : quiet s s' → same_options s s'.
Proof. by intros []. Qed.
Ltac chain := apply (post_chain same_options).
Ltac quietly lem := eapply post_mono; [apply lem|intros; by apply quiet_same_options].

Lemma receive_requests_options s : post receive_requests (λ _ s', same_options s s') s.
Proof.
  unfold receive_requests. chain; [by apply post_gets|]. intros l s1 _.
  chain; [by apply post_modify|]. intros u s2 _. apply (post_chain_for_each same_options).
  intros id s3. unfold receive_request. chain; [done|]. intros x s4 _. chain.
  { case_match; [done|]. eapply post_mono; [apply on_request_quiet|intros; by apply quiet_same_options].
    intros k r. apply (req_op_static _ k r). apply expand_sequences_static. }
  intros e s5 _. chain; [eapply post_mono; [apply get_sequence_quiet|intros ?? [? _]; by apply quiet_same_options]|].
  intros q s6 _. chain; [eapply post_mono; [apply get_request_quiet|by intros ?? [-> _]]|]. intros r s7 _.
  case_match; by apply post_modify.
Qed.
Lemma reap_quiet disconnected l fin s : post (reap disconnected l fin) (λ _ s', quiet s s') s.
Proof.
  revert fin s. induction l as [|[id|] l IH]; intros fin s; simpl; [done| |].
  - apply (post_chain quiet).
    { apply req_modify_quiet. intros r. unfold update_connection_status. by repeat case_match. }
    intros u s1 _. apply (post_chain quiet); [apply finished_or_cancelled_quiet|]. intros f s2 _.
    apply (post_chain quiet); [destruct f; [apply deallocate_request_quiet|done]|]. intros u2 s3 _.
    apply (post_chain quiet); [apply IH|done].
  - apply (post_chain quiet); [apply IH|done].
Qed.
Lemma requeue_all_options b l s : post (for_each l (requeue b)) (λ _ s', same_options s s') s.
Proof.
  apply (post_chain_for_each same_options). intros [id|] s1; [|done]. unfold requeue.
  chain; [quietly handle_running_requests_quiet|]. intros u s2 _.
  chain; [eapply post_mono; [apply get_request_quiet|by intros ?? [-> _]]|]. intros r s3 _.
  eapply post_mono; [apply running_push_state|]. by intros ? ? (l' & -> & _).
Qed.
Lemma requeue_running_options s : post requeue_running (λ _ s', same_options s s') s.
Proof. unfold requeue_running. chain; [done|]. intros x s1 _. case_match; apply requeue_all_options. Qed.

(** C11: a batch never exceeds its budgets: it has one token budget per sequence, at most
    [max_seqs_per_batch] sequences (at least one is allowed), and the token budgets add up to
    at most [max_tokens_per_batch] — whatever the manager of the KV cache answers, in every
    mix of prefill, decode, beam search and preemption.  The sum is claimed when no budget is
    [2 ^ 63] or more, which is what the subtraction gives for a sequence that claims more
    cached tokens than it has. *)
Theorem batch_within_budget n disconnected s :
  0 ≤ max_tokens_per_batch (options_ s) < 2 ^ 31 → max_seqs_per_batch (options_ s) < 2 ^ 31 →
  0 ≤ min_speculative_tokens_required_ s < 2 ^ 31 →
  post (prepare_batch estimated_latency n disconnected)
    (λ _ s',
       length (running_sequences_ s') = length (running_sequences_budgets_ s') ∧
       Z.of_nat (length (running_sequences_ s')) ≤ Z.max (max_seqs_per_batch (options_ s)) 1 ∧
       (small (running_sequences_budgets_ s') →
        total (running_sequences_budgets_ s') ≤ max_tokens_per_batch (options_ s))) s.
Proof.
  intros HM HN Hmin. unfold prepare_batch, collect_requests. apply post_bind, post_bind.
  eapply post_mono; [apply receive_requests_options|]. intros u1 s1 G1. apply post_bind, post_gets, post_bind.
  eapply post_mono; [apply reap_quiet|]. intros x s2 G2%quiet_same_options. apply post_bind, post_modify, post_bind.
  eapply post_mono; [apply requeue_running_options|]. intros u3 s3 G3. apply post_bind, post_modify, post_ret, post_bind.
  assert (same_options s s3) as [Eo Em] by (etrans; [exact G1|]; etrans; [exact G2|]; etrans; [|exact G3]; done).
  set (M := max_tokens_per_batch (options_ s)) in *. set (N := Z.max (max_seqs_per_batch (options_ s)) 1) in *.
  eapply post_mono; [eapply (fill_batch_budget estimated_latency M N); simpl; rewrite ?Eo, ?Em; try done; try lia|].
  { rewrite u64_id; [done|lia]. }
  intros fin s4 [b [Hl Hs Hp Hn Ht _]]. apply post_modify. simpl. split; [done|]. split; [lia|].
  intros Hsm. destruct (Ht Hsm). lia.
Qed.
End step.
