(* ===== verification/SchedOrder.v ===== *)
(** Where the requests go in a step of the scheduler: none is lost or duplicated, and the
    running requests keep their order.

    [evicting s s'] describes what a prefill may do to the queues, [decoding off s s'] what
    a round of the decode handler does; both hold for any manager of the KV cache. *)

From stdpp Require Import base gmap list strings.
From Stdlib Require Import ZArith Lia.
From S2P Require Import Prelude HashKey Blocks KVState Stopping IncrementalDecoder LogprobState Sequence Request.
From S2P Require Import Scheduler SchedBatch.
Open Scope Z_scope.

(** What the standard says of [std::priority_queue]: the top of a queue that is not empty is
    one of its elements, and under a strict weak order none is preferred to it. *)
Class PriorityQueueLaws `{PriorityQueue} : Prop := {
  pq_top_in cmp l x : pq_top cmp l = Some x → x ∈ l;
  pq_top_some cmp l : l ≠ [] → is_Some (pq_top cmp l);
  pq_top_max cmp l x : strict_weak cmp → pq_top cmp l = Some x → ∀ y, y ∈ l → cmp x y = false;
}.
Lemma cons_as_app {A} (x : A) l : x :: l = [x] ++ l.
Proof. done. Qed.
Lemma pq_remove_perm x l : x ∈ l → l ≡ₚ x :: pq_remove x l.
Proof.
  induction l as [|y l IH]; [by intros ?%elem_of_nil|]. intros [->|Hx]%elem_of_cons; simpl.
  - by rewrite decide_True.
  - case_decide as E; [by subst|]. rewrite (IH Hx) at 1. apply Permutation_swap.
Qed.
Lemma pq_remove_elem x y l : y ∈ pq_remove x l → y ∈ l.
Proof.
  induction l as [|z l IH]; simpl; [done|]. case_decide as E; [by right|].
  intros [->|Hy]%elem_of_cons; [by left|right; auto].
Qed.

Section order.
Context `{FloatOps F} `{DoubleOps D} `{ProfileManager D} `{PriorityQueueLaws}.
Context `{KVCacheManager K T F}.
Variable estimated_latency : Request T F → D.
Abbreviation Sched := (Scheduler.Sched (F := F) (K := K) (T := T)).
Implicit Types (s : Sched) (r : Request T F) (id i : nat) (off : bool).
Implicit Types (b : Budgets (D := D)) (c : Candidates (D := D)) (p : PrefillLoop (D := D)) (d : D).

(** ** Preemption of offline requests *)

(** The [victims] went from the back of the offline running queue, the last one first, to the
    offline waiting queue; nothing else moved. *)
Record evicting s s' : Prop := {
  ev_static : req_static <$> requests s' = req_static <$> requests s;
  ev_options : options_ s' = options_ s;
  ev_queue : request_queue_ s' = request_queue_ s;
  ev_waiting : waiting_priority_queue_ s' = waiting_priority_queue_ s;
  ev_running : running_queue_ s' = running_queue_ s;
  ev_victims : ∃ victims,
    running_queue_offline_ s = running_queue_offline_ s' ++ rev victims ∧
    waiting_priority_queue_offline_ s' = waiting_priority_queue_offline_ s ++ victims;
  ev_requests : running_requests_ s' = running_requests_ s;
  ev_sequences : running_sequences_ s' = running_sequences_ s;
  ev_last : last_step_prefill_ s' = last_step_prefill_ s;
  ev_completed : completed_ s' = completed_ s;
  ev_failed : failed_ s' = failed_ s;
}.
Lemma quiet_evicting s s' : quiet s s' → evicting s s'.
Proof.
  intros Q. constructor; try apply Q; [apply (qt_waiting _ _ Q false)|apply (qt_running _ _ Q false)|].
  exists []. rewrite !app_nil_r. split; [symmetry; apply (qt_running _ _ Q true)|apply (qt_waiting _ _ Q true)].
Qed.
#[export] Instance evicting_preorder : PreOrder evicting.
Proof.
  split; [intros s; by apply quiet_evicting|].
  intros s1 s2 s3 [?????(v1 & E1 & W1)?????] [?????(v2 & E2 & W2)?????].
  constructor; try (by etrans). exists (v1 ++ v2). split.
  - by rewrite E1, E2, rev_app_distr, <-app_assoc.
  - by rewrite W2, W1, <-app_assoc.
Qed.
Ltac evict := apply (post_chain evicting).
Tactic Notation "quietly" uconstr(lem) := eapply post_mono; [apply lem|intros; by apply quiet_evicting].

Lemma preempt_offline_evicting n s : post (preempt_offline n) (λ _ s', evicting s s') s.
Proof.
  revert s. induction n as [|n IH]; intros s; simpl; [by apply post_ret|].
  apply post_bind. eapply post_mono; [apply running_back_state|]. intros id ? [-> Hid].
  apply post_bind. eapply post_mono; [apply deallocate_request_quiet|]. intros u1 s1 G1. cbv beta in G1.
  apply post_bind. eapply post_mono; [apply pop_back_state|]. intros u2 s2 (id' & l & Hl & ->).
  apply post_bind. eapply post_mono; [by apply req_modify_quiet|]. intros u3 s3 G3. cbv beta in G3.
  apply post_bind, post_modify. eapply post_mono; [apply IH|]. intros u4 s4 G4. etrans; [|exact G4].
  pose proof (qt_running _ _ G1 true) as E1. simpl in E1. simpl in Hid, Hl. rewrite <-E1, Hl, last_snoc in Hid.
  injection Hid as ->.
  pose proof (λ off, qt_waiting _ _ G1 off) as W1. pose proof (λ off, qt_waiting _ _ G3 off) as W3.
  pose proof (λ off, qt_running _ _ G1 off) as R1. pose proof (λ off, qt_running _ _ G3 off) as R3.
  pose proof (W1 false). pose proof (W1 true). pose proof (W3 false). pose proof (W3 true).
  pose proof (R1 false). pose proof (R3 false). pose proof (R3 true).
  destruct G1, G3. constructor; simpl in *; try congruence.
  exists [id]. split; [|congruence]. simpl. congruence.
Qed.
Lemma prefill_allocate_evicting id i n s : post (prefill_allocate id i n) (λ _ s', evicting s s') s.
Proof.
  unfold prefill_allocate. evict; [quietly on_seq_kv_quiet|]. intros ok s1 _. destruct ok; [by apply post_ret|].
  evict; [eapply post_mono; [apply get_request_quiet|by intros ?? [-> _]]|]. intros r s2 _.
  evict; [by apply post_get|]. intros x s3 _. case_match; [|by apply post_ret].
  evict; [quietly check_if_enough_to_evict_quiet|]. intros e s4 _. destruct (e.1); [|by apply post_ret].
  evict; [apply preempt_offline_evicting|]. intros u s5 _. quietly on_seq_kv_quiet.
Qed.
Lemma prefill_loop_evicting b id l c s : post (prefill_loop b id l c) (λ _ s', evicting s s') s.
Proof.
  revert c s. induction l as [|i l IH]; intros c s; simpl; [by apply post_ret|].
  evict; [quietly seq_finished_quiet|]. intros f s1 _. destruct f; [apply IH|].
  evict; [eapply post_mono; [apply get_sequence_quiet|intros ?? [? _]; by apply quiet_evicting]|]. intros q s2 _.
  evict; [by apply post_gets|]. intros o s3 _. cbv zeta. case_match; [by apply post_ret|].
  evict; [apply prefill_allocate_evicting|]. intros ok s4 _. destruct ok; simpl.
  2: { evict; [quietly on_seq_kv_quiet|]. intros; by apply post_ret. }
  evict.
  { case_match; [|by apply post_ret]. evict; [eapply post_mono; [apply get_sequence_quiet|intros ?? [? _]; by apply quiet_evicting]|].
    intros q' s5 _. evict; [eapply post_mono; [apply predict_step_time_quiet|by intros ?? ->]|]. intros; by apply post_ret. }
  intros lat s5 _. destruct (lat.2); [|apply IH]. evict; [quietly on_seq_kv_quiet|]. intros; by apply post_ret.
Qed.

(** ** Conservation *)

(** The requests that run, and all requests the scheduler knows: in its queues, running, or
    reported as completed or failed *)
Definition in_batch s : list nat := omap (λ x, x) (running_requests_ s).
Definition located s : list nat :=
  request_queue_ s ++ waiting_priority_queue_ s ++ waiting_priority_queue_offline_ s ++
  running_queue_ s ++ running_queue_offline_ s ++ in_batch s ++ completed_ s ++ failed_ s.
Lemma in_batch_app (l1 l2 : list (option nat)) :
  omap (λ x : option nat, x) (l1 ++ l2) = omap (λ x, x) l1 ++ omap (λ x, x) l2.
Proof. apply omap_app. Qed.
Lemma in_batch_some (l : list nat) : omap (λ x : option nat, x) (Some <$> l) = l.
Proof. induction l as [|x l IH]; [done|]. simpl. f_equal. exact IH. Qed.

(** Where the requests of a prefill come from: those that wait, and offline ones that run and
    may be preempted *)
Definition candidates s : list nat :=
  waiting_priority_queue_ s ++ waiting_priority_queue_offline_ s ++ running_queue_offline_ s.
Lemma evicting_candidates s s' : evicting s s' → candidates s' ≡ₚ candidates s.
Proof.
  intros [_ _ _ Ew _ (v & Ev & Evw) _ _ _ _ _]. unfold candidates. rewrite Ew, Evw, Ev, <-(Permutation_rev v). perm.
Qed.
Lemma waiting_candidates off s id : id ∈ waiting_queue off s → id ∈ candidates s.
Proof. unfold candidates. rewrite !elem_of_app. destruct off; simpl; auto. Qed.
Lemma pop_candidates off id s :
  candidates (set_waiting_queue off (pq_remove id (waiting_queue off s)) s) ⊆ candidates s.
Proof.
  intros x. unfold candidates. rewrite !elem_of_app. destruct off; simpl; intros [Hx|[Hx|Hx]]; eauto using pq_remove_elem.
Qed.

Lemma evicting_located s s' : evicting s s' → located s' ≡ₚ located s.
Proof.
  intros [_ _ Eq Ew Er (v & Ev & Evw) Err _ _ Ec Ef]. unfold located, in_batch.
  rewrite Eq, Ew, Er, Evw, Err, Ec, Ef, Ev, <-(Permutation_rev v). perm.
Qed.

(** A prefill moves requests from its waiting queue to the batch or to [finished_requests]. *)
Record prefilling s (fin : list nat) s' (fin' : list nat) : Prop := {
  pf_static : req_static <$> requests s' = req_static <$> requests s;
  pf_options : options_ s' = options_ s;
  pf_running : running_queue_ s' = running_queue_ s;
  pf_offline : ∃ victims, running_queue_offline_ s = running_queue_offline_ s' ++ victims;
  pf_candidates : candidates s' ⊆ candidates s;
  pf_requests : ∃ new, running_requests_ s' = running_requests_ s ++ (Some <$> new) ∧ new ⊆ candidates s;
  pf_sequences : ∃ l, running_sequences_ s' = running_sequences_ s ++ l;
  pf_last : last_step_prefill_ s' = last_step_prefill_ s ∨
    (last_step_prefill_ s' = true ∧ running_sequences_ s' ≠ []);
  pf_located : located s' ++ fin' ≡ₚ located s ++ fin;
}.
Lemma evicting_prefilling s s' fin : evicting s s' → prefilling s fin s' fin.
Proof.
  intros E. constructor; try apply E;
    [destruct (ev_victims _ _ E) as (v & Ev & _); by exists (rev v)
    |intros x; by rewrite (evicting_candidates _ _ E)
    |exists []; split; [by rewrite app_nil_r, (ev_requests _ _ E)|by intros ? ?%elem_of_nil]| |left; apply E|].
  { exists []. by rewrite app_nil_r, (ev_sequences _ _ E). }
  by rewrite (evicting_located _ _ E).
Qed.
Lemma prefilling_trans s1 f1 s2 f2 s3 f3 :
  prefilling s1 f1 s2 f2 → prefilling s2 f2 s3 f3 → prefilling s1 f1 s3 f3.
Proof.
  intros [??? (v1 & V1) C1 (n1 & E1 & N1) (q1 & Q1) L1 ?] [??? (v2 & V2) C2 (n2 & E2 & N2) (q2 & Q2) L2 ?].
  constructor; try (by etrans).
  - exists (v2 ++ v1). by rewrite V1, V2, <-app_assoc.
  - exists (n1 ++ n2). split; [by rewrite E2, E1, fmap_app, <-app_assoc|].
    intros x [Hx|Hx]%elem_of_app; [by apply N1|by apply C1, N2].
  - exists (q1 ++ q2). by rewrite Q2, Q1, <-app_assoc.
  - destruct L2 as [->|?]; [|by right]. destruct L1 as [->|[-> Hn]]; [by left|]. right. split; [done|].
    rewrite Q2. intros [? _]%app_eq_nil. done.
Qed.
(** What is on top of a waiting queue can still be popped after evictions. *)
Lemma evicting_waiting off s s' id : evicting s s' → id ∈ waiting_queue off s → id ∈ waiting_queue off s'.
Proof.
  intros [_ _ _ Ew _ (v & _ & Evw) _ _ _ _ _]. destruct off; simpl; rewrite ?Ew, ?Evw; [|done].
  intros ?. apply elem_of_app. by left.
Qed.
(** A pop of [id], which then is finished, in the batch, or failed *)
Lemma pop_located off s id :
  id ∈ waiting_queue off s →
  id :: located (set_waiting_queue off (pq_remove id (waiting_queue off s)) s) ≡ₚ located s.
Proof.
  intros Hid%pq_remove_perm. unfold located, in_batch. destruct off; simpl in *;
    set (w := pq_remove _ _) in *; rewrite Hid; rewrite (cons_as_app id (_ ++ _)), (cons_as_app id w); generalize [id]; intros; perm.
Qed.

Lemma push_located off s id :
  located (set_waiting_queue off (waiting_queue off s ++ [id]) s) ≡ₚ id :: located s.
Proof.
  unfold located, in_batch. rewrite (cons_as_app id (_ ++ _)). generalize [id]. intros l. destruct off; simpl; perm.
Qed.
Lemma join_located s id qs bs :
  located (set_running (running_requests_ s ++ [Some id]) qs bs s) ≡ₚ id :: located s.
Proof.
  unfold located, in_batch. simpl. rewrite in_batch_app, (cons_as_app id (_ ++ _)). change (omap (λ x : option nat, x) [Some id]) with [id].
  generalize [id]. intros. perm.
Qed.
Lemma waiting_top_in off s :
  post (waiting_top estimated_latency off) (λ id s', s' = s ∧ id ∈ waiting_queue off s) s.
Proof. eapply post_mono; [apply waiting_top_state|]. intros id ? [-> ?%pq_top_in]. done. Qed.

(** The request on top is finished, or joins the batch. *)
Lemma pop_finished_prefilling off s s' id fin :
  evicting s s' → id ∈ waiting_queue off s →
  prefilling s fin (set_waiting_queue off (pq_remove id (waiting_queue off s')) s') (fin ++ [id]).
Proof.
  intros G Hid. eapply prefilling_trans; [by apply evicting_prefilling|].
  constructor; try done; [by exists []; rewrite app_nil_r|apply pop_candidates
    |exists []; split; [by rewrite app_nil_r|by intros ? ?%elem_of_nil]|by exists []; rewrite app_nil_r|by left|].
  rewrite <-(pop_located off s' id) by (by eapply evicting_waiting). rewrite (cons_as_app id (located _)).
  generalize [id]. intros. perm.
Qed.
Lemma pop_join_prefilling off s s' id l bs fin :
  evicting s s' → id ∈ waiting_queue off s →
  let s2 := set_waiting_queue off (pq_remove id (waiting_queue off s')) s' in
  prefilling s fin (set_running (running_requests_ s2 ++ [Some id]) (running_sequences_ s2 ++ l) bs s2) fin.
Proof.
  intros G Hid s2. eapply prefilling_trans; [by apply evicting_prefilling|].
  constructor; try done; [by exists []; destruct off; simpl; rewrite app_nil_r|apply pop_candidates
    |exists [id]; split; [done|intros x ->%list_elem_of_singleton]|by exists l|by left|].
  { apply (waiting_candidates off). by eapply evicting_waiting. }
  apply Permutation_app_tail. etrans; [apply (join_located s2)|]. apply pop_located. by eapply evicting_waiting.
Qed.

Lemma prefill_request_prefilling off p s :
  post (prefill_request estimated_latency off p)
    (λ res s', prefilling s (finished_requests p) s' (finished_requests res.2)) s.
Proof.
  unfold prefill_request. apply post_bind. eapply post_mono; [apply waiting_top_in|]. intros id ? [-> Hid].
  apply post_bind. eapply post_mono; [apply finished_or_cancelled_quiet|]. intros f s1 G1%quiet_evicting.
  destruct f.
  { apply post_bind. eapply post_mono; [apply deallocate_request_quiet|]. intros u s2 G2%quiet_evicting.
    assert (evicting s s2) as G by (etrans; [exact G1|exact G2]). apply post_bind, post_modify, post_ret. simpl.
    by apply pop_finished_prefilling. }
  apply post_bind. eapply post_mono; [apply get_request_quiet|]. intros r ? [-> _].
  apply post_bind, post_check. intros _. apply post_bind, post_gets, post_bind.
  eapply post_mono; [apply seqs_op_quiet|]. intros ok s2 G2%quiet_evicting.
  assert (evicting s s2) as G02 by (etrans; [exact G1|exact G2]). destruct ok; simpl.
  2: { apply post_bind, post_modify, post_bind, post_modify, post_ret.
       eapply prefilling_trans; [by apply evicting_prefilling|]. assert (id ∈ waiting_queue off s2) as Hid2 by (by eapply evicting_waiting).
       constructor; try (by destruct off); [by exists []; rewrite app_nil_r
         | |exists []; split; [by rewrite app_nil_r|by intros ? ?%elem_of_nil]|by exists []; rewrite app_nil_r|by left|].
       { intros x Hx. unfold candidates in *. pose proof (pq_remove_elem id x).
         destruct off; simpl in *; rewrite !elem_of_app in *; rewrite ?list_elem_of_singleton in *; naive_solver. }
       rewrite <-(pop_located off s2 id Hid2), push_located. done. }
  apply post_bind. eapply post_mono; [apply prefill_loop_evicting|]. intros [stop c] s3 G3. cbv beta in G3.
  assert (evicting s s3) as G03 by (etrans; [exact G02|exact G3]).
  assert (∀ l : list (nat * nat), post (for_each l (λ x, on_seq_kv x.1 x.2 kvm_deallocate)) (λ _ s', evicting s s') s3) as Hback.
  { intros l. eapply post_mono; [apply (post_chain_for_each quiet); intros; apply on_seq_kv_quiet|].
    intros u s4 G4%quiet_evicting. etrans; [exact G03|exact G4]. }
  destruct stop; simpl;
    [|apply post_bind; eapply post_mono; [apply Hback|]; intros u s4 G4; apply post_ret; by apply evicting_prefilling..].
  apply post_bind, post_modify, post_bind, post_modify, post_ret. simpl.
  by apply pop_join_prefilling.
Qed.
Lemma prefill_while_prefilling n off p s :
  post (prefill_while estimated_latency n off p)
    (λ p' s', prefilling s (finished_requests p) s' (finished_requests p')) s.
Proof.
  assert (∀ s fin, prefilling s fin s fin) as Hid by (intros; by apply evicting_prefilling).
  revert p s. induction n as [|n IH]; intros p s; simpl; [done|].
  apply post_bind, post_get. cbv zeta. case_match; [by apply post_ret|]. case_match; [by apply post_ret|].
  apply post_bind. eapply post_mono; [apply prefill_request_prefilling|]. intros [go p'] s' Hp.
  destruct go; simpl in *; [|by apply post_ret]. eapply post_mono; [apply IH|]. intros p2 s2 Hp2.
  eapply prefilling_trans; [exact Hp|exact Hp2].
Qed.
Lemma prefill_too_long_prefilling off p fin s :
  post (prefill_too_long estimated_latency off p) (λ _ s', prefilling s fin s' fin) s.
Proof.
  unfold prefill_too_long. apply post_bind, post_get. case_match; [|by apply post_ret, evicting_prefilling].
  apply post_bind. eapply post_mono; [apply waiting_top_in|]. intros id ? [-> Hid].
  apply post_bind, post_modify, post_bind. set (s1 := set_waiting_queue _ _ _).
  eapply post_mono; [apply deallocate_request_quiet|]. intros u s2 G2%quiet_evicting.
  case_match; [|done]. apply post_modify.
  assert (prefilling s1 fin s2 fin) as [? ? ? (v & Ev) Ec (n & En & Hn) (q & Eq) El Eloc] by (by apply evicting_prefilling).
  assert (candidates s1 ⊆ candidates s) as Hc by apply pop_candidates.
  constructor; try done; [by exists v; destruct off|by etrans|exists n; split; [done|by etrans]|by exists q|]. rewrite <-(pop_located off s id Hid). fold s1.
  apply Permutation_app_tail. apply Permutation_app_inv_r in Eloc. rewrite <-Eloc. unfold located, in_batch. simpl.
  rewrite (cons_as_app id (_ ++ _)). generalize [id]. intros. perm.
Qed.
Lemma handle_prefill_prefilling n off b fin s :
  post (handle_prefill_requests estimated_latency n off b fin)
    (λ res s', prefilling s fin s' res.2 ∧ (running_sequences_ s' ≠ [] → last_step_prefill_ s' = true)) s.
Proof.
  unfold handle_prefill_requests. apply post_bind. eapply post_mono; [apply prefill_while_prefilling|].
  intros p s1 G1. simpl in G1. apply post_bind. eapply post_mono; [apply prefill_too_long_prefilling|].
  intros u s2 G2. apply post_bind, post_modify, post_ret.
  assert (prefilling s fin s2 (finished_requests p)) as [] by (eapply prefilling_trans; [exact G1|exact G2]).
  destruct (bool_decide (running_sequences_ s2 ≠ [])) eqn:E.
  - apply bool_decide_eq_true in E. split; [|done]. constructor; try done. by right.
  - apply bool_decide_eq_false in E. split; [by constructor|done].
Qed.

(** ** Decode *)

(** A request that does a beam search, which never changes *)
Definition searches s id : Prop := ∃ r, requests s !! id = Some r ∧ request_beam_search r = true.
Lemma searches_static s s' id :
  req_static <$> requests s' = req_static <$> requests s → searches s' id → searches s id.
Proof.
  intros E (r' & Hr' & Hb). assert ((req_static <$> requests s') !! id = Some (req_static r')) as E' by (by rewrite lookup_fmap, Hr').
  rewrite E, lookup_fmap in E'. destruct (requests s !! id) as [r|] eqn:Hr; [|done]. injection E' as _ Ep _.
  exists r. split; [done|]. unfold request_beam_search in *. by rewrite Ep.
Qed.
(** An offline request that is too long is reported, but stays in its queue, and the first
    online request is dropped in its place. *)
Definition lost (dropped : list nat) s s' : Prop :=
  ∃ x id, id ∈ running_queue_offline_ s' ∧ id ∈ failed_ s' ∧ x :: dropped ++ located s' ≡ₚ id :: located s.
(** A round of the decode handler takes requests from the front of its queue, into the batch
    but for a beam search that waits again or is dropped, and preempts some from its back; a
    last one may be too long. *)
Record drops off (go : bool) (dropped : list nat) s s' : Prop := {
  rd_static : req_static <$> requests s' = req_static <$> requests s;
  rd_options : options_ s' = options_ s;
  rd_last : last_step_prefill_ s' = last_step_prefill_ s;
  rd_queue : ∃ taken scheduled dead preempted,
    running_queue off s = taken ++ dead ++ running_queue off s' ++ preempted ∧ scheduled `sublist_of` taken ∧
    running_requests_ s' = running_requests_ s ++ (Some <$> scheduled) ∧ (go = true → dead = []);
  rd_other : ∃ l1 l2, running_queue (negb off) s = l1 ++ running_queue (negb off) s' ++ l2;
  rd_beam : Forall (searches s) dropped;
  rd_located : dropped ++ located s' ≡ₚ located s ∨ (go = false ∧ off = true ∧ lost dropped s s');
}.
(** A round that drops nothing *)
Abbreviation round off go := (drops off go []).
Lemma round_refl off go s : round off go s s.
Proof.
  constructor; try done; [|by exists [], []; rewrite app_nil_r|by left].
  exists [], [], [], []. by rewrite !app_nil_r.
Qed.
Lemma drops_trans off go ds1 ds2 s1 s2 s3 :
  drops off true ds1 s1 s2 → drops off go ds2 s2 s3 → drops off go (ds1 ++ ds2) s1 s3.
Proof.
  intros [S1 ?? (ta1 & sc1 & de1 & pr1 & Q1 & T1 & R1 & D1) (a1 & b1 & O1) B1 L1]
    [??? (ta2 & sc2 & de2 & pr2 & Q2 & T2 & R2 & D2) (a2 & b2 & O2) B2 L2].
  destruct L1 as [L1|[? _]]; [|done]. constructor; try (by etrans).
  - exists (ta1 ++ ta2), (sc1 ++ sc2), de2, (pr2 ++ pr1). rewrite D1, Q2 in Q1 by done. rewrite R2, R1, fmap_app, Q1.
    simpl. rewrite <-!app_assoc. split; [done|]. split; [by apply sublist_app|done].
  - exists (a1 ++ a2), (b2 ++ b1). by rewrite O1, O2, <-!app_assoc.
  - apply Forall_app. split; [done|]. eapply Forall_impl; [exact B2|]. intros id. by apply searches_static.
  - destruct L2 as [L2|(? & ? & x & id & Hx & Hf & L2)]; [left; by rewrite <-app_assoc, L2|].
    right. split; [done|]. split; [done|]. exists x, id. split; [done|]. split; [done|].
    trans (ds1 ++ x :: ds2 ++ located s3); [by rewrite <-Permutation_middle, <-app_assoc|].
    by rewrite L2, <-L1, <-Permutation_middle.
Qed.
Lemma round_trans off go s1 s2 s3 : round off true s1 s2 → round off go s2 s3 → round off go s1 s3.
Proof. apply (drops_trans off go [] []). Qed.
Lemma evicting_round off go s s' : evicting s s' → round off go s s'.
Proof.
  intros E. destruct (ev_victims _ _ E) as (v & Ev & _). pose proof (ev_running _ _ E) as Er.
  constructor; try apply E; [| |done|left; by apply evicting_located].
  - rewrite (ev_requests _ _ E). destruct off; simpl.
    + exists [], [], [], (rev v). by rewrite app_nil_r.
    + exists [], [], [], []. by rewrite Er, !app_nil_r.
  - destruct off; simpl; [by exists [], []; rewrite Er, app_nil_r|by exists [], (rev v)].
Qed.
Lemma quiet_round off go s s' : quiet s s' → round off go s s'.
Proof. intros ?%quiet_evicting. by apply evicting_round. Qed.

(** The front of the queue joins the batch. *)
Lemma schedule_round off go id l qs bs s :
  running_queue off s = id :: l →
  round off go s (set_running (running_requests_ s ++ [Some id]) qs bs (set_running_queue off l s)).
Proof.
  intros Hq. constructor; try done.
  - exists [id], [id], [], []. rewrite Hq. destruct off; simpl; by rewrite app_nil_r.
  - exists [], []. destruct off; simpl; by rewrite app_nil_r.
  - left. unfold located, in_batch. simpl. rewrite in_batch_app. change (omap (λ x : option nat, x) [Some id]) with [id].
    revert Hq. rewrite (cons_as_app id l). generalize [id]. intros l1 Hq. destruct off; simpl in *; rewrite Hq; perm.
Qed.
(** The back of the queue is preempted. *)
Lemma quiet_push off id s s' :
  quiet s s' → quiet (set_waiting_queue off (waiting_queue off s ++ [id]) s)
                     (set_waiting_queue off (waiting_queue off s' ++ [id]) s').
Proof.
  intros Q. pose proof (qt_waiting _ _ Q) as W. pose proof (qt_running _ _ Q) as R.
  pose proof (W true) as Wt. pose proof (W false) as Wf. pose proof (R true). pose proof (R false).
  destruct Q. constructor; try done; intros k; destruct off, k; simpl in *; congruence.
Qed.
Lemma preempt_round off go k id l s :
  running_queue off s = l ++ [id] →
  let s' := set_running_queue off l s in
  round off go s (set_waiting_queue k (waiting_queue k s' ++ [id]) s').
Proof.
  intros Hq s'. constructor; try done.
  - exists [], [], [], [id]. rewrite Hq. destruct off, k; simpl; by rewrite app_nil_r.
  - exists [], []. destruct off, k; simpl; by rewrite app_nil_r.
  - left. rewrite push_located. unfold located, in_batch, s'. rewrite (cons_as_app id (_ ++ _)).
    revert Hq. generalize [id]. intros l1 Hq. destruct off; simpl in *; rewrite Hq; perm.
Qed.
Lemma preempt_back_round off go s : post (preempt_back off) (λ _ s', round off go s s') s.
Proof.
  unfold preempt_back. apply post_bind. eapply post_mono; [apply running_back_state|]. intros id ? [-> Hid].
  apply post_bind. eapply post_mono; [apply deallocate_request_quiet|]. intros u1 s1 G1. cbv beta in G1.
  apply post_bind. eapply post_mono; [apply pop_back_state|]. intros u2 s2 (id' & l & Hl & ->).
  rewrite <-(qt_running _ _ G1), Hl, last_snoc in Hid. injection Hid as ->.
  apply post_bind. eapply post_mono; [by apply req_modify_quiet|]. intros u3 s3 G3. cbv beta in G3.
  apply post_bind. eapply post_mono; [apply get_request_quiet|]. intros r ? [-> _]. apply post_modify.
  eapply round_trans; [by apply quiet_round|]. eapply round_trans; [by apply (preempt_round off true (offline r) id l)|].
  by apply quiet_round, quiet_push.
Qed.

(** The request on top is too long, and the top of the online queue is popped. *)
Lemma too_long_round off id l x l' s s2 :
  running_queue off s = id :: l → running_queue false s = x :: l' →
  quiet (set_running_queue false l' s) s2 →
  round off false s (set_reported (completed_ s2) (failed_ s2 ++ [id]) s2).
Proof.
  intros Hq Hx G2. pose proof (qt_running _ _ G2) as R2.
  assert (x :: located (set_reported (completed_ s2) (failed_ s2 ++ [id]) s2) ≡ₚ id :: located s) as Hloc.
  { pose proof (evicting_located _ _ (quiet_evicting _ _ G2)) as Hl. trans (x :: id :: located s2).
    - constructor. unfold located, in_batch. simpl. rewrite (cons_as_app id (_ ++ _)). generalize [id]. intros. perm.
    - rewrite Hl, Permutation_swap. constructor. unfold located, in_batch. simpl in *. rewrite Hx.
      rewrite (cons_as_app x (_ ++ _)), (cons_as_app x l'). generalize [x]. intros. perm. }
  pose proof (qt_requests _ _ G2) as Eb. pose proof (R2 true) as Rt. pose proof (R2 false) as Rf. simpl in Eb, Rt, Rf.
  constructor; try apply G2.
  - destruct off; simpl in *.
    + exists [], [], [], []. by rewrite Rt, Eb, !app_nil_r.
    + rewrite Hx in Hq. injection Hq as -> ->. exists [], [], [id], []. by rewrite Hx, Rf, Eb, !app_nil_r.
  - destruct off; simpl in *; [exists [x], []; by rewrite Rf, app_nil_r, Hx|exists [], []; by rewrite Rt, app_nil_r].
  - done.
  - destruct off; simpl in *.
    + right. split; [done|]. split; [done|]. exists x, id. split; [simpl; rewrite Rt, Hq; by left|].
      simpl.
      split; [apply elem_of_app; right; by left|done].
    + left. rewrite Hx in Hq. injection Hq as -> ->. by apply Permutation_cons_inv in Hloc.
Qed.
(** The candidates are those of the request on top, and they alone are scheduled. *)
Lemma handle_abnormal_request_round off stop c b s :
  post (handle_abnormal_request off stop c b) (λ _ s', round off false s s') s.
Proof.
  unfold handle_abnormal_request. apply post_bind. eapply post_mono; [apply running_top_state|].
  intros id ? [-> [l Hq]]. apply post_bind, post_get, post_bind.
  eapply post_mono; [apply get_request_quiet|]. intros r ? [-> _]. destruct (candidate_sequences c).
  - case_match; [by apply post_ret, round_refl|]. apply post_bind. eapply (post_mono _ (λ _ s', s' = s)).
    { assert (∀ l, post (sum l) (λ _ s', s' = s) s) as Hsum by (intros []; [done|by apply post_ret]).
      destruct stop; [|by apply post_ret|]; (apply post_bind, post_check; intros _; apply post_bind;
        eapply post_mono; [apply Hsum|]; intros u ? ->; by apply post_ret). }
    intros [] ? ->; [|by apply post_ret, round_refl]. apply post_bind. eapply post_mono; [apply pop_top_state|].
    intros u s1 (x & l' & Hl' & ->). apply post_bind. eapply post_mono; [apply deallocate_request_quiet|].
    intros u2 s2 G2. apply post_bind, post_modify, post_ret. by eapply too_long_round.
  - case_match; [by apply post_ret, round_refl|]. apply post_bind. eapply post_mono; [apply pop_top_state|].
    intros u s1 (x & l' & Hl' & ->). rewrite Hq in Hl'. injection Hl' as <- <-.
    apply post_bind, post_modify, post_ret. exact (schedule_round off false id l _ _ s Hq).
Qed.

(** *** Beam search *)

(** The top of the queue is dropped. *)
Lemma drop_top_drops off id l s :
  running_queue off s = id :: l → searches s id → drops off true [id] s (set_running_queue off l s).
Proof.
  intros Hq Hs. constructor; try done.
  - exists [id], [], [], []. rewrite Hq. split; [by destruct off; rewrite app_nil_r|].
    split; [apply sublist_nil_l|]. by destruct off; rewrite app_nil_r.
  - exists [], []. by destruct off; simpl; rewrite app_nil_r.
  - by constructor.
  - left. unfold located, in_batch. revert Hq. rewrite (cons_as_app id l). generalize [id]. intros l1 Hq.
    destruct off; simpl in *; rewrite Hq; perm.
Qed.
(** The top of the queue waits again. *)
Lemma wait_top_round off go k id l s :
  running_queue off s = id :: l →
  let s' := set_running_queue off l s in
  round off go s (set_waiting_queue k (waiting_queue k s' ++ [id]) s').
Proof.
  intros Hq s'. constructor; try done.
  - exists [id], [], [], []. rewrite Hq. split; [by destruct off, k; simpl; rewrite app_nil_r|].
    split; [apply sublist_nil_l|]. by destruct off, k; rewrite app_nil_r.
  - exists [], []. by destruct off, k; simpl; rewrite app_nil_r.
  - left. rewrite push_located. unfold located, in_batch, s'. rewrite (cons_as_app id (_ ++ _)).
    revert Hq. rewrite (cons_as_app id l). generalize [id]. intros l1 Hq. destruct off; simpl in *; rewrite Hq; perm.
Qed.
Lemma quiet_searches s s' id : quiet s s' → searches s id → searches s' id.
Proof. intros Q. apply searches_static. symmetry. apply Q. Qed.
Lemma decode_beam_drops off b id n l s :
  running_queue off s = id :: l → searches s id →
  post (decode_beam off b id n)
    (λ res s', match res with Some _ => quiet s s' | None => ∃ dropped, drops off true dropped s s' end) s.
Proof.
  intros Hq Hs. unfold decode_beam. apply post_bind. eapply post_mono; [apply active_sequences_quiet|].
  intros active s1 G1. cbv beta in G1. destruct active as [|front active].
  { apply post_bind. eapply post_mono; [apply pop_top_state|]. intros u s2 (id' & l' & Hl' & ->). apply post_ret.
    rewrite (qt_running _ _ G1), Hq in Hl'. injection Hl' as <- <-. exists [id].
    apply (drops_trans off true [] [id] s s1); [by apply quiet_round|].
    apply drop_top_drops; [by rewrite (qt_running _ _ G1)|by eapply quiet_searches]. }
  set (act := front :: active) in *. apply post_bind, post_get. cbv zeta. apply post_bind.
  eapply (post_mono _ (λ _ s', quiet s s')).
  { case_match; [by apply post_ret|]. case_match; [|by apply post_ret].
    eapply post_mono; [apply beam_over_latency_quiet|]. intros nb s2 G2. by etrans. }
  intros nb s2 G2. cbv beta in G2. destruct nb; [by apply post_ret|]. apply post_bind. case_match; [done|].
  apply post_ret, post_bind.
  eapply post_mono; [apply (post_chain_map_each quiet); intros; eapply post_mono; [apply get_sequence_quiet|by intros ?? [? _]]|].
  intros qs s3 G3. apply post_bind. eapply post_mono; [apply get_sequence_quiet|]. intros q s4 [G4 _].
  assert (quiet s s4) as G04 by (etrans; [exact G2|]; etrans; [exact G3|exact G4]).
  case_match; [by apply post_ret|]. apply post_bind. eapply post_mono; [apply beam_allocate_quiet|].
  intros [ok c] s5 G5. assert (quiet s s5) as G05 by (by etrans). destruct ok; simpl.
  - apply post_bind. eapply (post_mono _ (λ _ s', quiet s s')).
    { case_match; [|by apply post_ret]. eapply post_mono; [apply (beam_latency_quiet id act)|]. intros ? ? G; etrans; [exact G05|exact G]. }
    intros d s6 G6. by apply post_ret.
  - apply post_bind. eapply post_mono; [apply deallocate_request_quiet|]. intros u6 s6 G6. cbv beta in G6.
    assert (quiet s s6) as G06 by (by etrans).
    apply post_bind. eapply post_mono; [apply pop_top_state|]. intros u7 s7 (id' & l' & Hl' & ->).
    rewrite (qt_running _ _ G06), Hq in Hl'. injection Hl' as <- <-.
    apply post_bind. eapply post_mono; [by apply req_modify_quiet|]. intros u8 s8 G8. cbv beta in G8.
    apply post_bind. eapply post_mono; [apply get_request_quiet|]. intros r ? [-> _].
    apply post_bind, post_modify, post_ret. exists []. apply (round_trans off true s s6); [by apply quiet_round|].
    eapply round_trans; [apply (wait_top_round off true (offline r) id l); by rewrite (qt_running _ _ G06)|].
    by apply quiet_round, quiet_push.
Qed.
Lemma decode_request_drops off b s :
  post (decode_request off b) (λ res s', ∃ dropped, drops off res.1 dropped s s') s.
Proof.
  unfold decode_request. apply post_bind. eapply post_mono; [apply running_top_state|].
  intros id ? [-> [l Hq]]. apply post_bind. eapply post_mono; [apply get_request_quiet|]. intros r ? [-> Hr].
  apply post_bind. eapply (post_mono _ (λ res s', match res with Some _ => quiet s s' | None => ∃ dropped, drops off true dropped s s' end)).
  { destruct (request_beam_search r) eqn:Hb; [apply (decode_beam_drops off b id _ l); [done|by exists r]|].
    apply post_bind. eapply post_mono; [apply decode_loop_quiet|]. intros x s1 G1. by apply post_ret. }
  intros [[stop c]|] s1 G1; [|by apply post_ret]. apply post_bind, post_check. intros _. apply post_bind, post_check. intros _.
  assert (∀ go s', round off go s1 s' → ∃ dropped, drops off go dropped s s') as Hmono.
  { intros go s' Hgo. exists []. eapply round_trans; [by apply quiet_round|done]. }
  rewrite <-(qt_running _ _ G1) in Hq. destruct stop.
  - apply post_bind. eapply post_mono; [apply pop_top_state|]. intros u s2 (x & l' & Hl' & ->).
    rewrite Hq in Hl'. injection Hl' as <- <-. apply post_bind, post_modify, post_ret. apply Hmono.
    exact (schedule_round off true id l _ _ s1 Hq).
  - apply post_bind. eapply post_mono; [apply handle_abnormal_request_round|]. intros b' s2 G2. apply post_ret. by apply Hmono.
  - apply post_bind, post_get. case_match.
    { apply post_bind. eapply post_mono; [apply preempt_offline_evicting|]. intros u s2 G2. apply post_ret.
      apply Hmono. by apply evicting_round. }
    case_match.
    { apply post_bind. eapply post_mono; [apply running_back_state|]. intros v ? [-> _]. apply post_bind.
      destruct (decide (v = id)); [exact I|]. eapply post_mono; [apply (preempt_back_round off true)|].
      intros u s2 G2. apply post_ret. by apply Hmono. }
    apply post_bind. eapply post_mono; [apply handle_abnormal_request_round|]. intros b' s2 G2. apply post_ret. by apply Hmono.
Qed.
Lemma handle_decode_drops n off b s :
  post (handle_decode_requests n off b) (λ _ s', ∃ dropped, drops off false dropped s s') s.
Proof.
  revert b s. induction n as [|n IH]; intros b s; simpl; [done|].
  apply post_bind, post_get. case_match; [apply post_ret; exists []; apply round_refl|]. apply post_bind.
  eapply post_mono; [by apply decode_request_drops|]. intros [go b'] s' [ds Hr]. simpl in *.
  destruct go; [|apply post_ret; by exists ds]. eapply post_mono; [apply IH|].
  intros b2 s2 [ds2 Hr2]. exists (ds ++ ds2). by eapply drops_trans.
Qed.

(** ** Filling the batch *)

(** The same as [lost] with the requests found finished on the way *)
Definition lost_with (dropped : list nat) s fin s' fin' : Prop :=
  ∃ x id, id ∈ running_queue_offline_ s' ∧ id ∈ failed_ s' ∧
    x :: dropped ++ located s' ++ fin' ≡ₚ id :: located s ++ fin.
(** From an empty batch: with prefills the running queue is as before; without, the
    [scheduled] are from the front of what the running queue keeps, in its order. *)
Record filled s (fin : list nat) (dropped : list nat) s' (fin' : list nat) : Prop := {
  fl_static : req_static <$> requests s' = req_static <$> requests s;
  fl_options : options_ s' = options_ s;
  fl_order : if last_step_prefill_ s' then running_queue_ s' = running_queue_ s ∧ in_batch s' ⊆ candidates s
    else ∃ new scheduled others, in_batch s' = new ++ scheduled ++ others ∧ new ⊆ candidates s ∧
         scheduled ++ running_queue_ s' `sublist_of` running_queue_ s ∧
         others ⊆ running_queue_offline_ s;
  fl_beam : Forall (searches s) dropped;
  fl_located : dropped ++ located s' ++ fin' ≡ₚ located s ++ fin ∨ lost_with dropped s fin s' fin';
}.
Lemma sublist_infix {A} (l1 l2 l3 : list A) : l2 `sublist_of` l1 ++ l2 ++ l3.
Proof. apply sublist_inserts_l, sublist_inserts_r. done. Qed.
Lemma decoded_filled s fin s1 s2 s3 fin' ds1 ds2 :
  running_requests_ s = [] → last_step_prefill_ s1 = false → prefilling s fin s1 fin' →
  drops false false ds1 s1 s2 → drops true false ds2 s2 s3 → filled s fin (ds1 ++ ds2) s3 fin'.
Proof.
  intros Hr Hl [Ps Po Pq (v & Pv) _ (new & Pn & Pc) _ _ Pl]
    [Rs Ro Rl (ta & sc & de & pr & Rq & Rsub & Rr & _) (a & b & Ra) Rb Rloc]
    [Ts To Tl (ta' & sc' & de' & pr' & Tq & Tsub & Tr & _) (a' & b' & Ta) Tb Tloc]. simpl in *.
  destruct Rloc as [Rloc|(_ & ? & _)]; [|done].
  assert (req_static <$> requests s2 = req_static <$> requests s) as Es2 by (by etrans).
  constructor; try (by do 2 (etrans; [done|])).
  - rewrite Tl, Rl, Hl. exists new, sc, sc'. split; [|split; [done|split]].
    + unfold in_batch. rewrite Tr, Rr, Pn, Hr. simpl. rewrite !in_batch_app, !in_batch_some. by rewrite app_assoc.
    + rewrite <-Pq, Rq, Ta. apply sublist_app; [done|]. apply sublist_inserts_l, sublist_inserts_r, sublist_infix.
    + intros x Hx. rewrite Pv, Ra, Tq. rewrite !elem_of_app. assert (x ∈ ta') by (by eapply elem_of_sublist). auto.
  - apply Forall_app. split; eapply Forall_impl; try done; intros id; by apply searches_static.
  - destruct Tloc as [Tloc|(_ & _ & x & id & Hx & Hf & Tloc)]; [left|right].
    + by rewrite <-Pl, <-Rloc, <-Tloc, <-!app_assoc.
    + exists x, id. split; [done|]. split; [done|]. rewrite <-Pl, <-Rloc.
      trans (ds1 ++ (x :: ds2 ++ located s3) ++ fin'); [by rewrite <-app_comm_cons, <-Permutation_middle, <-!app_assoc|].
      by rewrite Tloc, <-app_comm_cons, <-Permutation_middle, <-app_assoc.
Qed.
Lemma fill_batch_filled n fin s :
  running_requests_ s = [] → running_sequences_ s = [] → last_step_prefill_ s = false →
  post (fill_batch estimated_latency n fin) (λ fin' s', ∃ dropped, filled s fin dropped s' fin') s.
Proof.
  intros Hr Hs Hl. unfold fill_batch. apply post_bind, post_gets, post_bind.
  eapply post_mono; [apply handle_prefill_prefilling|]. intros r1 s1 [G1 L1]. cbv beta in G1. apply post_bind.
  eapply post_mono; [apply handle_prefill_prefilling|]. intros r2 s2 [G2 L2]. cbv beta in G2.
  pose proof (prefilling_trans _ _ _ _ _ _ G1 G2) as G. apply post_bind, post_get, post_bind.
  destruct (bool_decide (running_sequences_ s2 = [])) eqn:E.
  - apply bool_decide_eq_true in E. apply post_bind.
    assert (last_step_prefill_ s2 = false) as Hl2 by (destruct (pf_last _ _ _ _ G) as [->|[_ ?]]; done).
    eapply post_mono; [by apply handle_decode_drops|]. intros b3 s3 [ds3 G3]. apply post_bind.
    eapply post_mono; [apply handle_decode_drops|]. intros b4 s4 [ds4 G4]. do 2 apply post_ret.
    exists (ds3 ++ ds4). by eapply (decoded_filled s fin s2 s3 s4).
  - apply bool_decide_eq_false in E. do 2 apply post_ret. specialize (L2 E). exists [].
    constructor; [apply G|apply G| |done|left; apply G]. rewrite L2. split; [apply (pf_running _ _ _ _ G)|].
    destruct (pf_requests _ _ _ _ G) as (new & En & Hnew). unfold in_batch. by rewrite En, Hr, app_nil_l, in_batch_some.
Qed.

(** ** Before the batch is filled *)

(** Whether a request is offline, which never changes *)
Definition offline_of s id : option bool := (λ x : SchedulerParam * SequenceParams F * nat, sp_offline x.1.1) <$> (req_static <$> requests s) !! id.
Definition those (o : bool) s (l : list nat) : list nat := filter (λ id, offline_of s id = Some o) l.
Lemma offline_of_lookup s id r : requests s !! id = Some r → offline_of s id = Some (offline r).
Proof. intros Hr. unfold offline_of. by rewrite lookup_fmap, Hr. Qed.
Lemma those_static o s s' l : req_static <$> requests s' = req_static <$> requests s → those o s' l = those o s l.
Proof. intros E. unfold those, offline_of. by rewrite E. Qed.

(** Back to the queues; to those of [FCFSQueue], in the order of the list at the back, reversed
    at the front *)
Record requeued (if_back : option bool) (l : list nat) s s' : Prop := {
  rq_static : req_static <$> requests s' = req_static <$> requests s;
  rq_options : options_ s' = options_ s;
  rq_last : last_step_prefill_ s' = last_step_prefill_ s;
  rq_requests : running_requests_ s' = running_requests_ s;
  rq_waiting o : waiting_queue o s' = waiting_queue o s;
  rq_running o : running_queue o s' ≡ₚ those o s l ++ running_queue o s;
  rq_order o : fcfs_queues s → running_queue o s' =
    if default false if_back then running_queue o s ++ those o s l else rev (those o s l) ++ running_queue o s;
  rq_located : located s' ≡ₚ located s ++ l;
}.
Lemma running_same o l s : running_queue o (set_running_queue o l s) = l.
Proof. by destruct o. Qed.
Lemma running_other o o' l s : o ≠ o' → running_queue o' (set_running_queue o l s) = running_queue o' s.
Proof. by destruct o, o'. Qed.
Lemma push_requeued if_back id s r l :
  requests s !! id = Some r → l ≡ₚ id :: running_queue (offline r) s →
  (fcfs_queues s → l = if default false if_back then running_queue (offline r) s ++ [id] else id :: running_queue (offline r) s) →
  requeued if_back [id] s (set_running_queue (offline r) l s).
Proof.
  intros Hr Hl Hf. pose proof (offline_of_lookup _ _ _ Hr) as Ho.
  assert (∀ o, those o s [id] = if decide (offline r = o) then [id] else []) as Et.
  { intros o. unfold those. rewrite filter_cons, filter_nil, Ho. repeat case_decide; congruence. }
  constructor; try done.
  - intros o. rewrite Et. destruct (decide (offline r = o)) as [<-|Hne]; [by rewrite running_same|by rewrite running_other].
  - intros o Hq. rewrite Et. destruct (decide (offline r = o)) as [<-|Hne].
    + rewrite running_same, (Hf Hq). by destruct (default false if_back).
    + rewrite running_other by done. destruct (default false if_back); simpl; by rewrite ?app_nil_r.
  - unfold located, in_batch. destruct (offline r); simpl in *; rewrite Hl, (cons_as_app id); generalize [id]; intros; perm.
Qed.
Lemma requeued_trans if_back l1 l2 s1 s2 s3 :
  requeued if_back l1 s1 s2 → requeued if_back l2 s2 s3 → requeued if_back (l1 ++ l2) s1 s3.
Proof.
  intros [S1 O1 ?? W1 P1 R1 L1] [S2 ??? W2 P2 R2 L2].
  assert (∀ o, those o s1 (l1 ++ l2) = those o s1 l1 ++ those o s1 l2) as Et by (intros o; apply filter_app).
  constructor; try (by etrans).
  - intros o. by rewrite W2, W1.
  - intros o. rewrite P2, P1, Et, (those_static o s1 s2) by done. perm.
  - intros o Hq. assert (fcfs_queues s2) as Hq2 by (unfold fcfs_queues; by rewrite O1).
    rewrite R2, R1, Et, (those_static o s1 s2) by done.
    destruct (default false if_back); rewrite ?rev_app_distr; by rewrite <-app_assoc.
  - by rewrite L2, L1, <-app_assoc.
Qed.
Lemma quiet_requeued if_back s s' : quiet s s' → requeued if_back [] s s'.
Proof.
  intros Q. constructor; try apply Q.
  - intros o. by rewrite (qt_running _ _ Q).
  - intros o _. rewrite (qt_running _ _ Q). destruct (default false if_back); simpl; by rewrite ?app_nil_r.
  - rewrite app_nil_r. by apply evicting_located, quiet_evicting.
Qed.
Lemma requeue_requeued if_back l s :
  post (for_each l (requeue if_back)) (λ _ s', requeued if_back (omap (λ x, x) l) s s') s.
Proof.
  revert s. induction l as [|x l IH]; intros s; [by apply post_ret, quiet_requeued|].
  cbn [for_each]. apply post_bind. eapply (post_mono _ (λ _ s', requeued if_back (omap (λ x, x) [x]) s s')).
  - destruct x as [id|]; [|by apply post_ret, quiet_requeued]. unfold requeue. apply post_bind.
    eapply post_mono; [apply handle_running_requests_quiet|]. intros u s1 G1. cbv beta in G1. apply post_bind.
    eapply post_mono; [apply get_request_quiet|]. intros r ? [-> Hr].
    eapply post_mono; [apply running_push_state|]. intros v ? (l' & -> & Hl' & Hf).
    change (omap (λ x : option nat, x) [Some id]) with ([] ++ [id]).
    eapply requeued_trans; [by apply quiet_requeued|by apply push_requeued].
  - intros u s1 G1. eapply post_mono; [apply IH|]. intros u2 s2 G2.
    rewrite (cons_as_app x l), in_batch_app.
    eapply requeued_trans; [exact G1|exact G2].
Qed.
Lemma rev_omap (l : list (option nat)) : omap (λ x, x) (rev l) = rev (omap (λ x, x) l).
Proof.
  induction l as [|x l IH]; [done|]. cbn [rev]. rewrite (cons_as_app x l), !in_batch_app, rev_app_distr, IH.
  by destruct x.
Qed.
Lemma those_none o s l : Forall (λ id, offline_of s id ≠ Some o) l → those o s l = [].
Proof. unfold those. induction 1; [done|]. by rewrite filter_cons, decide_False. Qed.
Lemma those_rev o s l : those o s (rev l) = rev (those o s l).
Proof. unfold those. rewrite !rev_alt. apply filter_reverse. Qed.

(** The requests read from the queue; those without cached tokens go to a waiting queue. *)
Definition heads s : gmap nat (option (Sequence T F)) := (λ r, sequences_ r !! 0%nat) <$> requests s.
Definition no_cached_tokens s id : Prop :=
  ∀ r q, requests s !! id = Some r → sequences_ r !! 0%nat = Some q → kv_cache_tokens_num_ (kv_state_ q) = 0.
Lemma no_cached_heads s s' id : heads s' = heads s → no_cached_tokens s id → no_cached_tokens s' id.
Proof.
  intros E Hn r' q Hr' Hq. assert (heads s' !! id = Some (Some q)) as E' by (unfold heads; by rewrite lookup_fmap, Hr', <-Hq).
  rewrite E in E'. unfold heads in E'. rewrite lookup_fmap in E'. destruct (requests s !! id) as [r|] eqn:Hr; [|done].
  injection E' as E'. by eapply Hn.
Qed.
Lemma add_head r : sequences_ r ≠ [] → post add (λ _ r', sequences_ r' ≠ [] ∧ sequences_ r' !! 0%nat = sequences_ r !! 0%nat) r.
Proof.
  intros Hne. unfold add. apply post_bind, post_get, post_bind. unfold Sequence_new.
  destruct (last _); [|done]. post_steps. simpl. split; [by intros [? _]%app_eq_nil|].
  rewrite lookup_app_l; [done|]. destruct (sequences_ r); [done|simpl; lia].
Qed.
Lemma add_sequences_head n r :
  sequences_ r ≠ [] → post (add_sequences n) (λ _ r', sequences_ r' !! 0%nat = sequences_ r !! 0%nat) r.
Proof.
  revert r. induction n as [|n IH]; intros r Hne; simpl; [done|]. apply post_bind.
  eapply post_mono; [by apply add_head|]. intros u r' [Hne' <-]. by apply IH.
Qed.
Lemma expand_sequences_head share r :
  post (expand_sequences share) (λ _ r', sequences_ r' !! 0%nat = sequences_ r !! 0%nat) r.
Proof.
  unfold expand_sequences. apply post_bind, post_get. do 3 (case_match; [done|]).
  destruct (sequences_ r) as [|q l] eqn:E; [done|]. case_match; [|by apply post_ret; rewrite E].
  apply post_bind. eapply post_mono; [apply add_sequences_head; by rewrite E|]. intros u r' Hr'. apply post_ret. by rewrite Hr', E.
Qed.

Record received (l : list nat) s s' : Prop := {
  rc_static : req_static <$> requests s' = req_static <$> requests s;
  rc_options : options_ s' = options_ s;
  rc_last : last_step_prefill_ s' = last_step_prefill_ s;
  rc_running o : running_queue o s' = running_queue o s;
  rc_waiting o x : x ∈ waiting_queue o s' → x ∈ waiting_queue o s ∨ x ∈ l;
  rc_heads : heads s' = heads s;
  rc_requests : ∃ direct, running_requests_ s' = running_requests_ s ++ (Some <$> direct) ∧
    (Forall (no_cached_tokens s) l → direct = []);
  rc_located : located s' ≡ₚ located s ++ l;
}.
Lemma received_trans l1 l2 s1 s2 s3 : received l1 s1 s2 → received l2 s2 s3 → received (l1 ++ l2) s1 s3.
Proof.
  intros [??? Q1 W1 He1 (d1 & R1 & D1) L1] [??? Q2 W2 He2 (d2 & R2 & D2) L2].
  constructor; try (by etrans); [intros o; by rewrite Q2, Q1| | |].
  - intros o x Hx. rewrite elem_of_app. destruct (W2 o x Hx) as [Hx'|?]; [destruct (W1 o x Hx')|]; auto.
  - exists (d1 ++ d2). split; [by rewrite R2, R1, fmap_app, <-app_assoc|]. intros [N1 N2]%Forall_app.
    rewrite D1, D2; [done| |done]. eapply Forall_impl; [exact N2|]. intros id. by apply no_cached_heads.
  - by rewrite L2, L1, <-app_assoc.
Qed.
Lemma quiet_received s s' : quiet s s' → heads s' = heads s → received [] s s'.
Proof.
  intros Q He. constructor; try apply Q; try done; [intros o x; rewrite (qt_waiting _ _ Q); auto|exists []; by rewrite app_nil_r, (qt_requests _ _ Q)|].
  rewrite app_nil_r. by apply evicting_located, quiet_evicting.
Qed.
Lemma expand_quiet_heads id s share :
  post (on_request id (req_op (expand_sequences share))) (λ _ s', quiet s s' ∧ heads s' = heads s) s.
Proof.
  apply post_and.
  - apply on_request_quiet. intros k r. apply (req_op_static _ k r). apply expand_sequences_static.
  - unfold on_request, post, req_op, zoom. destruct (requests s !! id) as [r|] eqn:Hr; [|done]. simpl.
    pose proof (expand_sequences_head share r) as Hp. unfold post in Hp.
    destruct (expand_sequences share r) as [a r'|e r'| |]; try done. unfold heads. simpl.
    rewrite fmap_insert, Hp. apply insert_id. by rewrite lookup_fmap, Hr.
Qed.
Lemma receive_request_received id s : post (receive_request id) (λ _ s', received [id] s s') s.
Proof.
  unfold receive_request. apply post_bind, post_get, post_bind.
  eapply (post_mono _ (λ _ s', quiet s s' ∧ heads s' = heads s)).
  { case_match; [by apply post_ret|apply expand_quiet_heads]. }
  intros e s1 [G1 E1]. apply post_bind. eapply post_mono; [apply get_sequence_state|].
  intros q ? [-> (r & Hr & Hq)]. apply post_bind. eapply post_mono; [apply get_request_quiet|]. intros r' ? [-> Hr'].
  change [id] with ([] ++ [id]). case_match eqn:E; apply post_modify; (eapply received_trans; [by apply quiet_received|]);
    constructor; try done; try (intros o; by destruct (offline r'), o).
  - intros o x. destruct (offline r'), o; simpl; rewrite ?elem_of_app; auto.
  - exists []. by rewrite app_nil_r.
  - rewrite push_located, (cons_as_app id). by rewrite Permutation_app_comm.
  - intros o x. auto.
  - exists [id]. split; [done|]. intros [Hn _]%Forall_cons. specialize (Hn r q Hr Hq). by rewrite Hn in E.
  - etrans; [apply (join_located s1)|]. rewrite (cons_as_app id (located s1)). by rewrite Permutation_app_comm.
Qed.
Lemma receive_requests_received s :
  post receive_requests (λ _ s', received (request_queue_ s) (set_request_queue [] s) s') s.
Proof.
  unfold receive_requests. apply post_bind, post_gets, post_bind, post_modify.
  generalize (request_queue_ s). intros l. generalize (set_request_queue [] s). clear s. induction l as [|id l IH]; intros s; simpl.
  { by apply post_ret, quiet_received. }
  apply post_bind. eapply post_mono; [apply receive_request_received|]. intros u s1 G1. cbv beta in G1.
  eapply post_mono; [apply IH|]. intros u2 s2 G2. rewrite (cons_as_app id l). by eapply received_trans.
Qed.

(** The finished requests leave the batch, in its order. *)
Lemma reap_reaped disconnected l fin s :
  post (reap disconnected l fin)
    (λ x s', quiet s s' ∧ omap (λ x, x) x.1 `sublist_of` omap (λ x, x) l ∧
       ∃ f, x.2 = fin ++ f ∧ omap (λ x, x) l ≡ₚ omap (λ x, x) x.1 ++ f) s.
Proof.
  revert fin s. induction l as [|x l IH]; intros fin s.
  { apply post_ret. split; [done|]. split; [done|]. exists []. by rewrite app_nil_r. }
  rewrite (cons_as_app x l), in_batch_app. destruct x as [id|]; cbn [app reap].
  - apply post_bind. eapply post_mono; [apply req_modify_quiet|].
    { intros r. unfold update_connection_status. by repeat case_match. }
    intros u s1 G1. cbv beta in G1. apply post_bind. eapply post_mono; [apply finished_or_cancelled_quiet|].
    intros f s2 G2. cbv beta in G2. apply post_bind. eapply (post_mono _ (λ _ s', quiet s2 s')).
    { destruct f; [apply deallocate_request_quiet|by apply post_ret]. }
    intros u3 s3 G3. apply post_bind. eapply post_mono; [apply IH|]. intros [l' fin'] s4 (G4 & Hsub & f' & Ef & Hp).
    apply post_ret. simpl fst in *. simpl snd in *. split; [by do 3 (etrans; [done|])|].
    rewrite (cons_as_app _ l'), in_batch_app. destruct f.
    + split; [by apply sublist_cons|]. exists (id :: f'). rewrite Ef, <-app_assoc. split; [done|].
      rewrite Hp. simpl. by rewrite Permutation_middle.
    + split; [by apply sublist_skip|]. exists f'. split; [done|]. rewrite Hp. done.
  - apply post_bind. eapply post_mono; [apply IH|]. intros [l' fin'] s4 (G4 & Hsub & f' & Ef & Hp).
    apply post_ret. simpl fst in *. simpl snd in *. split; [done|]. by split; [|exists f'].
Qed.

(** The order in which the online requests that run will be scheduled: after a prefill the
    new ones go to the back, after a decode step the scheduled ones to the front. *)
Definition fifo s : list nat :=
  if last_step_prefill_ s then running_queue_ s ++ those false s (in_batch s)
  else those false s (in_batch s) ++ running_queue_ s.

Record collected s (fin : list nat) s' : Prop := {
  cl_static : req_static <$> requests s' = req_static <$> requests s;
  cl_options : options_ s' = options_ s;
  cl_batch : running_requests_ s' = [] ∧ running_sequences_ s' = [] ∧ last_step_prefill_ s' = false;
  cl_order : priority_strategy (options_ s) = "fcfs"%string → Forall (no_cached_tokens s) (request_queue_ s) →
    running_queue_ s' `sublist_of` fifo s;
  cl_offline : ∃ l, running_queue_offline_ s' ≡ₚ those true s l ++ running_queue_offline_ s;
  cl_waiting o x : x ∈ waiting_queue o s' → x ∈ waiting_queue o s ∨ x ∈ request_queue_ s;
  cl_located : located s' ++ fin ≡ₚ located s;
}.
Lemma requeue_running_requeued s :
  post requeue_running (λ _ s', ∃ k l, requeued k l s s' ∧ l ≡ₚ in_batch s ∧
    (priority_strategy (options_ s) = "fcfs"%string →
       k = Some (last_step_prefill_ s) ∧ l = if last_step_prefill_ s then in_batch s else rev (in_batch s))) s.
Proof.
  unfold requeue_running. apply post_bind, post_get.
  destruct (String.eqb _ _) eqn:E; [apply String.eqb_eq in E|apply String.eqb_neq in E].
  - eapply post_mono; [apply requeue_requeued|]. intros u s' G. cbv beta in G. eexists _, _. split; [exact G|].
    destruct (last_step_prefill_ s); [done|]. rewrite rev_omap. split; [|done]. symmetry. apply Permutation_rev.
  - eapply post_mono; [apply requeue_requeued|]. intros u s' G. cbv beta in G. eexists _, _. split; [exact G|]. by split.
Qed.
Lemma rev_sublist (l1 l2 : list nat) : l1 `sublist_of` l2 → rev l1 `sublist_of` rev l2.
Proof.
  induction 1; simpl; [done|by apply sublist_app|by apply sublist_inserts_r].
Qed.
Lemma those_sublist o s l1 l2 : l1 `sublist_of` l2 → those o s l1 `sublist_of` those o s l2.
Proof.
  unfold those. induction 1 as [|x l1 l2 _ IH|x l1 l2 _ IH]; [done|..]; rewrite !filter_cons.
  - case_decide; [by apply sublist_skip|done].
  - case_decide; [by apply sublist_cons|done].
Qed.
Lemma collect_requests_collected disconnected s :
  post (collect_requests disconnected) (λ fin s', collected s fin s') s.
Proof.
  unfold collect_requests. apply post_bind. eapply post_mono; [apply receive_requests_received|].
  intros u1 s1 [Cs Co Cl Cr Cw Ch (direct & Cd & Cn) Cloc]. simpl in Cs, Co, Cl, Cd, Cn.
  apply post_bind, post_gets, post_bind. eapply post_mono; [apply reap_reaped|].
  intros [l' fin] s2 (Q2 & Hsub & f & Ef & Hp). simpl in Hsub, Ef, Hp. subst f. simpl.
  apply post_bind, post_modify, post_bind. set (s2' := set_running (rev l') _ _ s2).
  eapply post_mono; [apply requeue_running_requeued|]. intros u3 s3 (k & l & [Rs Ro Rl Rr Rw Rp Rq Rloc] & Hl & Hf).
  apply post_bind, post_modify, post_ret.
  assert (in_batch s2' = rev (omap (λ x, x) l')) as E2 by (unfold in_batch; apply rev_omap).
  assert (req_static <$> requests s2' = req_static <$> requests s) as Es2
    by (unfold s2'; simpl; by rewrite (qt_static _ _ Q2)).
  assert (options_ s2' = options_ s) as Eo by (unfold s2'; simpl; by rewrite (qt_options _ _ Q2)).
  assert (last_step_prefill_ s2' = last_step_prefill_ s) as El by (unfold s2'; simpl; by rewrite (qt_last _ _ Q2)).
  assert (∀ o, running_queue o s2' = running_queue o s) as Er.
  { intros o. trans (running_queue o s2); [done|]. rewrite (qt_running _ _ Q2), (Cr o). by destruct o. }
  assert (∀ o, waiting_queue o s2' = waiting_queue o s1) as Ew by (intros o; rewrite <-(qt_waiting _ _ Q2); by destruct o).
  assert (located s2' ++ fin ≡ₚ located s) as El2.
  { rewrite rev_omap, <-Permutation_rev in Hp. trans (located s2).
    - unfold located. rewrite E2, <-Permutation_rev. unfold in_batch at 1. rewrite (qt_requests _ _ Q2), Hp. simpl. perm.
    - rewrite (evicting_located _ _ (quiet_evicting _ _ Q2)), Cloc. unfold located, in_batch. simpl. perm. }
  pose proof (those_static false _ _ (in_batch s2') Es2) as Et. pose proof (those_static true _ _ l Es2) as Etl.
  clearbody s2'. pose proof (Er false) as Erf. pose proof (Er true) as Ert. simpl in Erf, Ert.
  constructor; simpl.
  - by rewrite Rs, Es2.
  - by rewrite Ro, Eo.
  - done.
  - intros Hfcfs Hnew. rewrite (Cn Hnew), app_nil_r in Cd. rewrite Eo in Hf. destruct (Hf Hfcfs) as [-> ->].
    assert (fcfs_queues s2') as Hq by (unfold fcfs_queues, running_comparator; by rewrite Eo, Hfcfs).
    pose proof (Rq false Hq) as Eq. simpl in Eq. rewrite Eq, El, Erf. unfold fifo.
    assert (those false s (in_batch s2') `sublist_of` those false s (in_batch s)) as Hs.
    { apply those_sublist. rewrite E2. unfold in_batch. rewrite <-Cd, <-(rev_involutive (running_requests_ s1)), rev_omap.
      by apply rev_sublist. }
    destruct (last_step_prefill_ s).
    + rewrite Et. by apply sublist_app.
    + rewrite those_rev, rev_involutive, Et. by apply sublist_app.
  - pose proof (Rp true) as Eq. simpl in Eq. exists l. by rewrite Eq, Etl, Ert.
  - intros o x Hx. assert (x ∈ waiting_queue o s3) as Hx3 by (by destruct o). rewrite Rw, Ew in Hx3.
    destruct (Cw o x Hx3); [left; by destruct o|by right].
  - assert (in_batch s3 = in_batch s2') as E3 by (unfold in_batch; by rewrite Rr). clear Rr.
    rewrite <-El2. apply Permutation_app_tail, (Permutation_app_inv_r l). rewrite <-Rloc, Hl, <-E3.
    unfold located. change (in_batch (set_last_step_prefill false (set_running [] [] [] s3))) with (@nil nat). simpl. perm.
Qed.

Lemma prepare_batch_located n disconnected s :
  post (prepare_batch estimated_latency n disconnected)
    (λ _ s', ∃ dropped, Forall (searches s) dropped ∧ (dropped ++ located s' ≡ₚ located s ∨ lost dropped s s')) s.
Proof.
  unfold prepare_batch. apply post_bind. eapply post_mono; [apply collect_requests_collected|].
  intros fin s1 [Cs Co (Cr & Cq & Cl) _ _ _ Cloc]. apply post_bind.
  eapply post_mono; [by apply fill_batch_filled|].
  intros fin' s2 [dropped [_ _ _ Hb Hloc]]. apply post_modify. exists dropped.
  split; [eapply Forall_impl; [exact Hb|]; intros id; by apply searches_static|].
  assert (located (set_reported (completed_ s2 ++ fin') (failed_ s2) s2) ≡ₚ located s2 ++ fin') as Er
    by (unfold located, in_batch; simpl; perm).
  destruct Hloc as [Hloc|(x & id & Hx & Hf & Hloc)]; [left; by rewrite Er, Hloc, Cloc|right].
  exists x, id. split; [done|]. split; [done|]. rewrite Er. by rewrite Hloc, Cloc.
Qed.

(** What of [l] is still in [l'], in the order of [l] *)
Definition still (l l' : list nat) : list nat := filter (λ x, x ∈ l') l.
Lemma sublist_still (l k new l' : list nat) :
  NoDup l → k `sublist_of` l → Forall (.∉ l) new → (∀ x, x ∈ l' ↔ x ∈ k ∨ x ∈ new) → still l l' = k.
Proof.
  intros Hnd Hk Hnew Hl'. rewrite Forall_forall in Hnew.
  assert (∀ x, x ∈ l → x ∈ l' ↔ x ∈ k) as Hx.
  { intros x Hxl. rewrite Hl'. split; [intros [?|Hn]; [done|]|auto]. by apply Hnew in Hn. }
  clear Hnew Hl'. unfold still. revert Hnd Hx. induction Hk as [|x k l Hk IH|x k l Hk IH]; intros Hnd Hx; [done|..];
    apply NoDup_cons in Hnd as [Hxl Hnd]; rewrite filter_cons.
  - rewrite decide_True by (apply Hx; by left). f_equal. apply IH; [done|]. intros y Hy.
    rewrite (Hx y) by (by right). rewrite elem_of_cons. split; [intros [->|?]; done|auto].
  - rewrite decide_False; [|rewrite (Hx x) by (by left); intros Hxk; apply Hxl; by eapply elem_of_sublist].
    apply IH; [done|]. intros y Hy. apply Hx. by right.
Qed.

(** The online requests that run are in the running queue or in the batch. *)
Lemma fifo_running s x : x ∈ fifo s → x ∈ running_queue_ s ∨ x ∈ in_batch s.
Proof.
  unfold fifo, those. destruct (last_step_prefill_ s); rewrite elem_of_app, list_elem_of_filter; tauto.
Qed.
Lemma fifo_nodup s : NoDup (located s) → NoDup (fifo s).
Proof.
  intros Hn. assert (NoDup (running_queue_ s ++ in_batch s)) as Hn'.
  { eapply (sublist_NoDup _ (located s)); [done|]. unfold located.
    do 3 apply sublist_inserts_l. apply sublist_app; [done|]. apply sublist_inserts_l, sublist_inserts_r. done. }
  apply NoDup_app in Hn' as (H1n & Hd & H2n). unfold fifo, those.
  destruct (last_step_prefill_ s); apply NoDup_app; (split; [|split]); try done; try by apply NoDup_filter.
  - intros x Hx [_ Hx2]%list_elem_of_filter. by apply (Hd x).
  - intros x [_ Hx]%list_elem_of_filter Hx2. by apply (Hd x).
Qed.
(** A request that waits, or runs offline, is not among those that run online. *)
Lemma waiting_not_fifo s x :
  NoDup (located s) → (∃ o, x ∈ waiting_queue o s) ∨ x ∈ request_queue_ s → x ∉ fifo s.
Proof.
  intros Hn Hx Hf%fifo_running. unfold located in Hn. rewrite !app_assoc in Hn.
  assert (x ∈ (request_queue_ s ++ waiting_priority_queue_ s) ++ waiting_priority_queue_offline_ s) as Hw.
  { rewrite !elem_of_app. destruct Hx as [[[] Hx]|Hx]; simpl in Hx; auto. }
  set (w := (request_queue_ s ++ _) ++ _) in *. rewrite <-!(app_assoc w) in Hn.
  apply NoDup_app in Hn as (_ & Hd & _). apply (Hd x Hw). rewrite !elem_of_app. tauto.
Qed.
(** The new requests of a step did not run before. *)
Lemma candidates_not_fifo s s1 l x :
  NoDup (located s) → Forall (λ id, offline_of s id = Some true) (running_queue_offline_ s) →
  (∀ o x, x ∈ waiting_queue o s1 → x ∈ waiting_queue o s ∨ x ∈ request_queue_ s) →
  running_queue_offline_ s1 ≡ₚ those true s l ++ running_queue_offline_ s →
  x ∈ candidates s1 → offline_of s x = Some false → x ∉ fifo s.
Proof.
  intros Hn Hoff Hw Ho Hx Hon. unfold candidates in Hx. rewrite !elem_of_app in Hx. destruct Hx as [Hx|[Hx|Hx]].
  - apply waiting_not_fifo; [done|]. destruct (Hw false x Hx); eauto.
  - apply waiting_not_fifo; [done|]. destruct (Hw true x Hx); eauto.
  - exfalso. rewrite Ho in Hx. apply elem_of_app in Hx as [[Hx _]%list_elem_of_filter|Hx]; [by rewrite Hx in Hon|].
    rewrite Forall_forall in Hoff. by rewrite (Hoff x Hx) in Hon.
Qed.
Lemma prepare_batch_order n disconnected s :
  priority_strategy (options_ s) = "fcfs"%string → NoDup (located s) →
  Forall (no_cached_tokens s) (request_queue_ s) →
  Forall (λ id, offline_of s id = Some true) (running_queue_offline_ s) →
  post (prepare_batch estimated_latency n disconnected)
    (λ _ s', ∃ new, Forall (.∉ fifo s) new ∧
       fifo s' = if last_step_prefill_ s' then still (fifo s) (fifo s') ++ new
                 else new ++ still (fifo s) (fifo s')) s.
Proof.
  intros Hfcfs Hnd Hnew Hoff. unfold prepare_batch. apply post_bind.
  eapply post_mono; [apply collect_requests_collected|].
  intros fin s1 [Cs Co (Cr & Cq & Cl) Cord (l & Coff) Cw _]. specialize (Cord Hfcfs Hnew). apply post_bind.
  eapply post_mono; [by apply fill_batch_filled|].
  intros fin' s2 [ds [Fs _ Ford _ _]]. apply post_modify.
  set (s3 := set_reported _ _ s2). assert (∀ o k, those o s3 k = those o s k) as Et.
  { intros o k. apply those_static. unfold s3. simpl. by rewrite Fs, Cs. }
  assert (fifo s3 = if last_step_prefill_ s2 then running_queue_ s2 ++ those false s (in_batch s2)
                    else those false s (in_batch s2) ++ running_queue_ s2) as Ef.
  { unfold fifo. change (in_batch s3) with (in_batch s2). by rewrite Et. }
  change (last_step_prefill_ s3) with (last_step_prefill_ s2). clearbody s3.
  assert (∀ new, new ⊆ candidates s1 → Forall (.∉ fifo s) (those false s new)) as Hno.
  { intros new Hc. apply Forall_forall. intros x [Hon Hx]%list_elem_of_filter.
    eapply candidates_not_fifo; try done. by apply Hc. }
  destruct (last_step_prefill_ s2).
  - destruct Ford as [Eq Hc]. rewrite Eq in Ef. exists (those false s (in_batch s2)). split; [by apply Hno|].
    rewrite Ef at 1. f_equal. symmetry. apply (sublist_still _ _ (those false s (in_batch s2))); try done.
    + by apply fifo_nodup.
    + by apply Hno.
    + intros x. rewrite Ef. apply elem_of_app.
  - destruct Ford as (new & sch & others & Eb & Hc & Hsub & Hoth).
    assert (those false s others = []) as Eo.
    { apply those_none, Forall_forall. intros x Hx%Hoth Hon. rewrite Coff in Hx. apply elem_of_app in Hx as [Hx|Hx].
      - apply list_elem_of_filter in Hx as [Hx _]. by rewrite Hx in Hon.
      - rewrite Forall_forall in Hoff. by rewrite (Hoff x Hx) in Hon. }
    assert (fifo s3 = those false s new ++ (those false s sch ++ running_queue_ s2)) as Ef'.
    { rewrite Ef, Eb. unfold those in *. by rewrite !filter_app, Eo, app_nil_r, <-app_assoc. }
    exists (those false s new). split; [by apply Hno|]. rewrite Ef' at 1. f_equal. symmetry.
    apply (sublist_still _ _ (those false s new)).
    + by apply fifo_nodup.
    + etrans; [|exact Cord]. etrans; [|exact Hsub]. apply sublist_app; [apply sublist_filter|done].
    + by apply Hno.
    + intros x. rewrite Ef', elem_of_app. tauto.
Qed.

(** ** Properties *)

(** ** Properties *)

(** C10: what happens to the requests in a step, whatever the manager of the KV cache answers,
    whichever requests are cancelled, and under every priority strategy.  With two
    exceptions no request is lost or duplicated: afterwards every request that was in one of
    the queues or in the batch is in exactly one place — a queue, the batch, or the lists of
    the completed and of the failed.  The first exception are the [dropped] requests: a beam
    search, and only that, may leave its running queue unreported, which is what [decode_beam]
    does when it finds all its sequences finished.  The second is an offline request whose
    decode step is too long: it is reported as failed while it stays in its queue, and the
    first online request is dropped unreported in its place ([lost]). *)
Theorem requests_conserved n disconnected s :
  post (prepare_batch estimated_latency n disconnected)
    (λ _ s', ∃ dropped, Forall (searches s) dropped ∧ (dropped ++ located s' ≡ₚ located s ∨ lost dropped s s')) s.
Proof. apply prepare_batch_located. Qed.

(** C12: first come, first served is kept from step to step, under the strategy [fcfs] with
    each request in one place, offline requests in the offline queue, and no cached tokens
    in the requests that arrive (those of a prefill instance have some).  Among the online
    requests that run, in the order in which the scheduler will give them their next step
    ([fifo]), exactly those that were already running before a step and still run after it
    ([still]) are together and in the same order: nobody overtakes.  The [new] ones, which did
    not run before, are behind all of them after a step of prefills, and in front of them
    after a step of decodes, which a request joins from the waiting queue only without a
    sequence to run. *)
Theorem running_order_kept n disconnected s :
  priority_strategy (options_ s) = "fcfs"%string → NoDup (located s) →
  Forall (no_cached_tokens s) (request_queue_ s) →
  Forall (λ id, offline_of s id = Some true) (running_queue_offline_ s) →
  post (prepare_batch estimated_latency n disconnected)
    (λ _ s', ∃ new, Forall (.∉ fifo s) new ∧
       fifo s' = if last_step_prefill_ s' then still (fifo s) (fifo s') ++ new
                 else new ++ still (fifo s) (fifo s')) s.
Proof. apply prepare_batch_order. Qed.

(** C34: a request that waits is failed when the cache is full of offline requests that run.
    Without disaggregated
    prefill, with no online request running, budgets left and the cache above its threshold, [handle_prefill_requests]
    reports the first waiting request as failed for lack of memory — whether it is online
    or offline, and whatever the offline requests hold that run: they are neither preempted
    nor waited for. *)
Theorem waiting_fails_behind_offline n off b fin s id :
  running_sequences_ s = [] → running_queue_ s = [] →
  pq_top (compare estimated_latency s) (waiting_queue off s) = Some id →
  0 < remaining_token_budget b → 0 < remaining_seq_budget b →
  d_ltb (estimate_latency b) (latency_budget b) = true →
  so_enable_disagg_pd (options_ s) = false → kvm_utilization_reached (kv_cache_manager_ s) = true →
  wp (deallocate_request id) (λ _ _, True)
     (set_waiting_queue off (pq_remove id (waiting_queue off s)) s) →
  wp (handle_prefill_requests estimated_latency (S n) off b fin)
    (λ res s', res = (b, fin) ∧ failed_ s' = failed_ s ++ [id] ∧ running_sequences_ s' = [] ∧
       waiting_queue off s ≡ₚ id :: waiting_queue off s' ∧
       running_queue_offline_ s' = running_queue_offline_ s) s.
Proof.
  intros Hs Hr Htop Ht Hq Hlat Hpd Hutil Hd. pose proof (pq_top_in _ _ _ Htop) as Hin.
  assert (waiting_queue off s ≠ []) as Hne by (intros E; rewrite E in Hin; by apply elem_of_nil in Hin).
  unfold handle_prefill_requests. apply wp_bind. cbn [prefill_while]. apply wp_bind, wp_get. simpl.
  rewrite (bool_decide_eq_false_2 _ Hne), (proj2 (Z.ltb_lt _ _) Hq), (proj2 (Z.ltb_lt _ _) Ht), Hlat, Hpd, Hutil. simpl.
  apply wp_ret, wp_bind. unfold prefill_too_long. apply wp_bind, wp_get.
  rewrite (bool_decide_eq_true_2 _ Hs), (bool_decide_eq_true_2 _ Hne), (bool_decide_eq_true_2 _ Hr). simpl.
  unfold waiting_top. apply wp_bind, wp_bind, wp_get. rewrite Htop. apply wp_ret. unfold waiting_pop.
  apply wp_bind, wp_modify, wp_bind. eapply wp_mono; [apply wp_post; [exact Hd|apply deallocate_request_quiet]|].
  intros u s1 [_ Q]. apply wp_modify, wp_bind, wp_modify. simpl.
  rewrite (bool_decide_eq_false_2 (running_sequences_ s1 ≠ [])) by (rewrite (qt_sequences _ _ Q); simpl; naive_solver).
  apply wp_ret. split; [done|]. simpl. rewrite (qt_failed _ _ Q), (qt_sequences _ _ Q). simpl. do 2 (split; [done|]).
  pose proof (qt_waiting _ _ Q off) as W. pose proof (qt_running _ _ Q true) as R. simpl in R.
  destruct off; simpl in *; rewrite W, R; split; try done; by apply pq_remove_perm.
Qed.
End order.
