(* ===== verification/SchedPool.v ===== *)
(** The block manager pool as the manager of the scheduler, and concrete runs.

    [BlockManagerPool : public KVCacheManager]: the operations of [Pool] behind the interface
    [KVCacheManager], with the readings of the clock that the prefix cache takes as a stream.
    The runs schedule three requests on a pool of eight blocks and instantiate the theorems
    of [SchedBatch] and [SchedOrder]. *)

From stdpp Require Import base gmap list strings sets.
From Stdlib Require Import ZArith Lia.
From S2P Require Import Prelude HashKey Blocks DList PrefixCache KvEvents BlockManager.
From S2P Require Import KVState EmbeddingManager Stopping IncrementalDecoder LogprobState Sequence Pool.
From S2P Require Import Samples Request Scheduler SchedBatch SchedOrder.
Open Scope Z_scope.

Section manager.
Context {T : Type} `{HashFns} `{FloatOps F} `{DoubleOps D}.
(** [absl::Now()] at its successive readings, and
    [FLAGS_prefill_scheduling_memory_usage_threshold] *)
Context (clock : nat → Z) (memory_usage_threshold : D).
Abbreviation KS := ((Pool * nat) * Sequence T F)%type.

Definition on_pool {A} (m : prog (Pool * Sequence T F) A) : prog KS A :=
  zoom (λ s, (s.1.1, s.2)) (λ pq s, ((pq.1, s.1.2), pq.2)) m.
Definition now : prog KS Z := λ s, Done (clock s.1.2) ((s.1.1, S s.1.2), s.2).

(** [kv_cache_utilization()] of a manager and of the pool *)
Definition kv_cache_utilization (bm : BM) : D :=
  if prefix_enabled bm
  then d_div (d_of_int (num_used_blocks_ (core bm))) (d_of_int (num_total_blocks (core bm)))
  else d_sub (d_of_int 1) (d_div (d_of_int (num_free_blocks_ (core bm))) (d_of_int (num_total_blocks (core bm)))).
Definition pool_kv_cache_utilization (p : Pool) : option D :=
  kv_cache_utilization <$> block_managers_ p !! Z.to_nat (get_manager_with_max_free_blocks p).

#[export] Instance BlockManagerPool_manager : KVCacheManager (Pool * nat) T F := {|
  kvm_allocate n := on_pool (pool_allocate n);
  kvm_deallocate := now ≫= λ t, on_pool (pool_deallocate t);
  kvm_cache := now ≫= λ t, on_pool (pool_cache t);
  kvm_prefetch := mret ();
  kvm_update_prefetch_result _ := mret true;
  kvm_block_size k := p_block_size (pool_options k.1);
  kvm_num_free_blocks k := pool_num_free_blocks k.1;
  kvm_num_used_blocks k := pool_num_used_blocks k.1;
  kvm_ref_count i := on_pool (seq_get ≫= λ q, at_ (blocks_ (kv_state_ q)) i ≫= λ b,
                                on_bm (dp_rank_ q) (on_blocks (ref_count b)));
  kvm_utilization_reached k :=
    match pool_kv_cache_utilization k.1 with
    | Some u => negb (d_ltb u memory_usage_threshold)
    | None => false
    end;
|}.
End manager.

(** The first element no other one is preferred to *)
Definition first_maximal (cmp : nat → nat → bool) (l : list nat) : option nat :=
  match filter (λ x, Forall (λ y, cmp x y = false) l) l with
  | x :: _ => Some x
  | [] => head l
  end.
#[export] Instance first_maximal_queue : PriorityQueue := first_maximal.
Lemma maximal_exists (cmp : nat → nat → bool) (l : list nat) :
  strict_weak cmp → l ≠ [] → ∃ x, x ∈ l ∧ Forall (λ y, cmp x y = false) l.
Proof.
  intros (Hi & Ht & Hn) Hne. induction l as [|x l IH]; [done|]. destruct (decide (l = [])) as [->|Hl].
  { exists x. split; [by left|]. by repeat constructor. }
  destruct (IH Hl) as (m & Hm & Hall). destruct (cmp m x) eqn:E.
  - exists x. split; [by left|]. constructor; [apply Hi|]. eapply Forall_impl; [exact Hall|]. intros y Hy.
    destruct (cmp x y) eqn:Ey; [|done]. pose proof (Ht _ _ _ E Ey). congruence.
  - exists m. split; [by right|]. by constructor.
Qed.
#[export] Instance first_maximal_laws : PriorityQueueLaws.
Proof.
  split; unfold pq_top, first_maximal_queue, first_maximal.
  - intros cmp l x. destruct (filter _ l) as [|y l'] eqn:E; [by apply head_Some_elem_of|]. intros [= <-].
    assert (y ∈ y :: l') as Hy by left. rewrite <- E in Hy. by apply list_elem_of_filter in Hy as [_ ?].
  - intros cmp [|x l] Hne; [done|]. case_match; by eexists.
  - intros cmp l x Hcmp Hx y Hy. assert (l ≠ []) as Hne by (intros ->; by apply elem_of_nil in Hy).
    destruct (maximal_exists _ _ Hcmp Hne) as (m & Hm & Hall).
    destruct (filter _ l) as [|z l'] eqn:E.
    + exfalso. assert (m ∈ @nil nat) as Hf by (rewrite <- E; by apply list_elem_of_filter).
      by apply elem_of_nil in Hf.
    + injection Hx as ->. assert (x ∈ x :: l') as Hf by left. rewrite <- E in Hf.
      apply list_elem_of_filter in Hf as [Hf _]. rewrite Forall_forall in Hf. by apply Hf.
Qed.

(** ** Runs *)

#[local] Existing Instance sample_hash.
#[local] Existing Instance sample_floats.
#[local] Existing Instance sample_doubles.
(** Step times: one unit for a decode, the tokens of a prefill *)
#[local] Instance sample_profile : ProfileManager Z :=
  {| predict_time decode length prefix := if decode then 1 else length - prefix; constant_overhead := 0 |}.
Abbreviation SampleSched := (Sched (T := unit) (F := Z) (K := Pool * nat)).

Definition sample_sched_options : SchedOptions :=
  mkSchedOptions 20 4 0 1 false false false "fcfs" true true 100 100 1000 false true 10.
Definition sched_pool (n : Z) : Pool :=
  match BlockManagerPool_new (mkPoolOptions n 0 4 true false true false) 1 4 () with
  | Done p _ => p
  | _ => mkPool (mkPoolOptions n 0 4 true false true false) [] [] []
  end.
Definition sched_params : SequenceParams Z :=
  mkSequenceParams 16 false false false false (mkSamplingParam 0 0 1 true 0 false 1)
    (mkStoppingChecker 10 0 99 false ∅ []).
(** A request with a prompt of six tokens, created at the time [t] *)
Definition sample_request (off : bool) (t : Z) : Request unit Z :=
  let r := mkRequest [] sched_params 1 [t; 12; 13; 14; 15; 16] (IncrementalDecoder_new [] 6 false true)
             (mkSchedulerParam off 1 1 1 PRIO_NORMAL) t 0 100 URGENCY_NORMAL false false false false in
  state_of (Request_new r) r.
(** The online requests 0 and 1 and the offline request 2 arrive at a scheduler with a
    pool of [n] blocks, one of them the padding block. *)
Definition sched_start (n : Z) : SampleSched :=
  mkSched sample_sched_options (sched_pool n, 0%nat)
    (list_to_map [(0%nat, sample_request false 1); (1%nat, sample_request false 2); (2%nat, sample_request true 3)])
    [0; 1; 2]%nat [] [] [] [] [] [] [] false 0 [] [].

Definition sample_clock (n : nat) : Z := Z.of_nat n.
#[local] Abbreviation sample_prepare :=
  (prepare_batch (H3 := BlockManagerPool_manager sample_clock 1) (λ _, 1) 9%nat (λ _, false)).
(** The model runs the batch: every sequence of it has the cache of its tokens and gets
    one more token. *)
Definition sample_engine : prog SampleSched unit :=
  get ≫= λ s,
  for_each (zip (running_sequences_ s) (running_sequences_budgets_ s)) (λ x : (nat * nat) * Z,
    on_request x.1.1 (req_op (on_sequence x.1.2 (
      zoom kv_state_ set_kv (incr_kv_cache_tokens_num x.2) ≫= λ _,
      append_token (mkToken 20 None [] []))))).
Definition sample_step (s : SampleSched) : SampleSched :=
  state_of (sample_prepare ≫= λ _, sample_engine) s.
Definition sample_run (n : nat) : SampleSched → SampleSched := Nat.iter n sample_step.
Definition returns {S A} (m : prog S A) (s : S) : bool := match m s with Done _ _ => true | _ => false end.
Lemma post_returns {S A} (m : prog S A) Q s : post m Q s → returns m s = true → wp m Q s.
Proof. unfold post, wp, returns. by destruct (m s). Qed.

(** After three steps the three requests hold two blocks each of seven; the fourth decode
    needs a third block for two of them, and the offline request is preempted. *)
Definition sched_full : SampleSched := sample_run 3 (sched_start 8).
Definition budgets_of (s : SampleSched) : list Z := running_sequences_budgets_ s.

Lemma batch_within_budget_witness :
  wp sample_prepare (λ _ s', Z.of_nat (length (running_sequences_ s')) ≤ 4 ∧
                             (small (budgets_of s') → total (budgets_of s') ≤ 20)) (sched_start 8).
Proof.
  apply post_returns; [|computed]. eapply post_mono; [apply batch_within_budget; vm_compute; intuition done|].
  intros [] s' (_ & Hn & Ht). by split.
Defined.
(** Without beam search nothing is dropped. *)
Lemma requests_conserved_witness :
  wp sample_prepare (λ _ s', located s' ≡ₚ [0; 1; 2]%nat ∨ lost [] sched_full s') sched_full.
Proof.
  apply post_returns; [|computed]. eapply post_mono; [apply requests_conserved|].
  intros [] s' (dropped & Hb & Hl). assert (dropped = []) as ->.
  { destruct dropped as [|id l]; [done|]. apply Forall_cons in Hb as [(r & Hr & Hs) _].
    assert (map_Forall (λ _ r, request_beam_search r = false) (requests sched_full)) as Hn
      by (apply (bool_decide_unpack _); computed).
    specialize (Hn id r Hr). cbv beta in Hn. congruence. }
  destruct Hl as [Hl|Hl]; [left|by right]. etrans; [exact Hl|]. apply (bool_decide_unpack _). computed.
Defined.
(** Both online requests that ran before the step still run, in the same order. *)
Lemma running_order_kept_witness :
  wp sample_prepare (λ _ s', ∃ new, Forall (.∉ [0; 1]%nat) new ∧
       fifo s' = if last_step_prefill_ s' then still [0; 1]%nat (fifo s') ++ new
                 else new ++ still [0; 1]%nat (fifo s')) sched_full.
Proof.
  apply post_returns; [|computed]. assert ([0; 1]%nat = fifo sched_full) as -> by (computed).
  apply running_order_kept.
  - computed.
  - apply (bool_decide_unpack _). computed.
  - assert (request_queue_ sched_full = []) as -> by (computed). constructor.
  - assert (running_queue_offline_ sched_full = []) as -> by (computed). constructor.
Defined.

(** Two offline requests run and hold the four blocks of the pool when an online request
    comes. *)
Definition behind_offline : SampleSched :=
  let arrive l s := set_request_queue l s in
  let s := mkSched sample_sched_options (sched_pool 5, 0%nat)
    (list_to_map [(0%nat, sample_request false 1); (1%nat, sample_request true 2); (2%nat, sample_request true 3)])
    [1; 2]%nat [] [] [] [] [] [] [] false 0 [] [] in
  state_of (collect_requests (H3 := BlockManagerPool_manager sample_clock 1) (λ _, false))
    (arrive [0%nat] (sample_step s)).
Lemma waiting_fails_behind_offline_witness :
  wp (handle_prefill_requests (H3 := BlockManagerPool_manager sample_clock 1) (λ _, 1) 1 false
        (initial_budgets sample_sched_options) [])
     (λ _ s', failed_ s' = [0%nat] ∧ running_queue_offline_ s' = [1; 2]%nat) behind_offline.
Proof.
  eapply wp_mono; [apply (waiting_fails_behind_offline (λ _, 1) 0 false (initial_budgets sample_sched_options)
                            [] behind_offline 0); computed|].
  intros r s' (_ & Hf & _ & _ & Hr). split; [rewrite Hf; computed|rewrite Hr; computed].
Defined.
