(* ===== verification/Chunked.v ===== *)
(** The scheduler with chunked prefill:
    [core/scheduler/chunked_prefill_scheduler.{h,cpp}], over the state and the operations of
    [Scheduler].

    Where the continuous scheduler alternates steps of prefills and of decodes, one step of
    this one mixes them: first the running requests, which decode or prefill their next
    chunk; then waiting requests, each with a first chunk of at most
    [max_tokens_per_chunk_for_prefill] tokens; and what is left of the budget goes to the
    sequences that are still in their prefill.  The blocks for a chunk are allocated by
    [allocate_blocks_for], which asks the prefix cache again at some of the chunks. *)

From stdpp Require Import base gmap list strings.
From Stdlib Require Import ZArith Lia.
From S2P Require Import Prelude HashKey Blocks KVState Stopping IncrementalDecoder LogprobState Sequence Request.
From S2P Require Import Scheduler.
Open Scope Z_scope.

(** The further options and flags; [profile_token_budget] is
    [profile_manager_->get_token_budget()]. *)
Record ChunkOptions := mkChunkOptions {
  max_tokens_per_chunk_for_prefill : Z;
  enable_profile_token_budget : bool;
  profile_token_budget : Z;
  chunked_match_frequency : Z;
}.
(** [KVCacheManager::allocate_shared(sequence)] *)
Class SharedAllocation (K T F : Type) := kvm_allocate_shared : prog (K * Sequence T F) unit.
(** the conversion of a [double] to [size_t] *)
Class DoubleTrunc (D : Type) := d_to_size : D → Z.

Section chunked.
Context `{FloatOps F} `{DoubleOps D} `{DoubleTrunc D} `{ProfileManager D} `{PriorityQueue}.
Context `{KVCacheManager K T F} `{SharedAllocation K T F}.
Variable estimated_latency : Request T F → D.
Variable chunk : ChunkOptions.
Abbreviation Sched := (Scheduler.Sched (F := F) (K := K) (T := T)).

(** [max_tokens_per_chunk_for_prefill] as a [size_t] *)
Definition chunk_size : Z := u64 (max_tokens_per_chunk_for_prefill chunk).
(** [predict_step_time(length, prefix_length, false)] *)
Definition predict_tokens (length prefix_length : Z) : prog Sched D :=
  let length := i32 length in
  let prefix_length := i32 prefix_length in
  check (prefix_length <? length) "Token length must be greater than prefix length" ≫= λ _,
  mret (predict_time (length - 1 =? prefix_length) length prefix_length).
(** [sequence->kv_cache_tokens_num()] *)
Definition seq_cached (q : Sequence T F) : Z :=
  Z.max (kv_cache_tokens_num_ (kv_state_ q)) (kv_cache_tokens_num_ (host_kv_state_ q)).

(** [allocate_shared_blocks_for(sequence)]: always for a sequence without blocks, and
    during its prefill at every [prefix_cache_interval]-th chunk *)
Definition allocate_shared_blocks_for (id i : nat) : prog Sched unit :=
  get_sequence id i ≫= λ q,
  if (num_kv_blocks (kv_state_ q) =? 0)%nat then on_seq_kv id i kvm_allocate_shared
  else if is_chunked_prefill_stage q then
    let max_tokens_per_chunk := u64 (Z.max (max_tokens_per_chunk_for_prefill chunk) 64) in
    let frequency := u64 (chunked_match_frequency chunk) in
    let total_chunked_size :=
      u64 (u64 (Z.of_nat (num_tokens_ (toks q)) + max_tokens_per_chunk) - 1) / max_tokens_per_chunk in
    if total_chunked_size <? frequency then on_seq_kv id i kvm_allocate_shared
    else if frequency =? 0 then undef "division by zero"
    else
      let prefix_cache_interval := u64 (u64 (total_chunked_size + frequency) - 1) / frequency in
      let cur_chunked_index := kv_cache_tokens_num_ (kv_state_ q) / max_tokens_per_chunk in
      if prefix_cache_interval =? 0 then undef "division by zero"
      else if cur_chunked_index mod prefix_cache_interval =? 0 then on_seq_kv id i kvm_allocate_shared
      else mret ()
  else mret ().

(** [allocate_blocks_for(sequence, token_budget, &current_step_handle_tokens)]: the answer
    and the tokens the step would handle *)
Definition allocate_blocks_for (id i : nat) (token_budget : Z) : prog Sched (bool * Z) :=
  gets min_spec ≫= λ m,
  check (m <? token_budget) "token_budget > min_speculative_tokens_required_" ≫= λ _,
  allocate_shared_blocks_for id i ≫= λ _,
  get_sequence id i ≫= λ q,
  gets options_ ≫= λ o,
  let kv_cache_tokens_num := seq_cached q in
  let handled := Z.min (u64 (kv_cache_tokens_num + token_budget)) (Z.of_nat (num_tokens_ (toks q))) in
  let max_handle_num_tokens :=
    if (0 <? num_speculative_tokens o) && negb (is_chunked_prefill_stage q) && (0 <? kv_cache_tokens_num)
    then u64 (handled + m) else handled in
  check (kv_cache_tokens_num <? max_handle_num_tokens) "max_handle_num_tokens > kv_cache_tokens_num" ≫= λ _,
  on_seq_kv id i (kvm_allocate max_handle_num_tokens) ≫= λ ok : bool,
  mret (ok, u64 (max_handle_num_tokens - kv_cache_tokens_num)).

(** The locals of [prepare_batch] that the handlers share: the budgets, the two flags and
    [finished_requests], and [prefill_stage_sequences] *)
Record ChunkLoop := mkChunkLoop {
  locals : PrefillLoop (D := D);
  prefill_stage_sequences : list (nat * nat);
}.
Definition set_locals (p : PrefillLoop) (x : ChunkLoop) : ChunkLoop := mkChunkLoop p (prefill_stage_sequences x).
Definition set_chunk_budgets (b : Budgets) (x : ChunkLoop) : ChunkLoop := set_locals (set_budgets b (locals x)) x.

(** ** Running requests *)

(** The loop over the sequences of a running request: it ends with the candidates and with
    [prefill_stage_sequences] *)
Fixpoint chunk_loop (b : Budgets) (id : nat) (l : list nat) (c : Candidates) (stage : list (nat * nat))
    : prog Sched (schedule_stop * Candidates * list (nat * nat)) :=
  match l with
  | [] => mret (AllScheduled, c, stage)
  | i :: l =>
      seq_finished id i ≫= λ f : bool,
      if f then chunk_loop b id l c stage
      else
        get_sequence id i ≫= λ q,
        get ≫= λ s,
        let assume_max_tokens := Z.min chunk_size (u64 (remaining_token_budget b - allocated_tokens c)) in
        let kv_cache_tokens_num := kv_cache_tokens_num_ (kv_state_ q) in
        let num_tokens_to_handle :=
          if is_chunked_prefill_stage q
          then Z.min assume_max_tokens (u64 (Z.of_nat (num_tokens_ (toks q)) - kv_cache_tokens_num))
          else u64 (1 + min_spec s) in
        if (remaining_seq_budget b <? u64 (allocated_seqs c + 1)) ||
           (remaining_token_budget b <? u64 (allocated_tokens c + num_tokens_to_handle))
        then mret (NoBudget, c, stage)
        else
          (if enable_latency_aware_schedule (options_ s) then
             predict_tokens (u64 (num_tokens_to_handle + kv_cache_tokens_num)) kv_cache_tokens_num ≫= λ d,
             mret (d, over_latency b c d)
           else mret (d_of_int 0, false)) ≫= λ lat : D * bool,
          if lat.2 then mret (NoBudget, c, stage)
          else
            allocate_blocks_for id i assume_max_tokens ≫= λ a : bool * Z,
            if negb a.1 then mret (NoBlocks, c, stage)
            else
              get_sequence id i ≫= λ q,
              let stage :=
                if (kv_cache_tokens_num_ (kv_state_ q) =? 0) || is_chunked_prefill_stage q
                then stage ++ [(id, i)] else stage in
              chunk_loop b id l (add_candidate id i a.2 lat.1 c) stage
  end.

(** The youngest request of the queue gives up its blocks; the pop is from [running_queue_],
    whatever the queue at hand. *)
Definition chunk_preempt_back (off : bool) : prog Sched unit :=
  running_back off ≫= λ id,
  deallocate_request id ≫= λ _,
  pop_back false ≫= λ _,
  on_request id (req_op (modify set_preempted)) ≫= λ _,
  get_request id ≫= λ r,
  waiting_push (offline r) id.

(** One round of the [while] of [handle_running_queue_requests] *)
Definition chunk_running_request (off : bool) (x : ChunkLoop) : prog Sched (bool * ChunkLoop) :=
  running_top off ≫= λ id,
  get_request id ≫= λ r,
  let b := budgets (locals x) in
  chunk_loop b id (seq 0 (length (sequences_ r))) Candidates_none (prefill_stage_sequences x)
    ≫= λ res : schedule_stop * Candidates * list (nat * nat),
  let c := res.1.2 in
  let x := mkChunkLoop (locals x) res.2 in
  check (allocated_tokens c <=? remaining_token_budget b) "allocated_tokens <= remaining_token_budget" ≫= λ _,
  check (allocated_seqs c <=? remaining_seq_budget b) "allocated_seqs <= remaining_seq_budget" ≫= λ _,
  match res.1.1 with
  | AllScheduled =>
      pop_top off ≫= λ _,
      join_batch id c ≫= λ _,
      mret (true, set_chunk_budgets (take_budget c b) x)
  | NoBudget =>
      handle_abnormal_request off NoBudget c b ≫= λ b,
      mret (false, set_locals (exhausted NoBudget (set_budgets b (locals x))) x)
  | NoBlocks =>
      get ≫= λ s,
      if enable_online_preempt_offline (options_ s) && negb (offline r) &&
         bool_decide (running_queue_offline_ s ≠ []) then
        preempt_offline 1 ≫= λ _, mret (true, x)
      else if bool_decide (1 < length (running_queue off s))%nat then
        running_back off ≫= λ victim,
        (if decide (victim = id) then fatal "Unexpected error: preempting the candidate itself."
         else chunk_preempt_back off) ≫= λ _,
        mret (true, x)
      else
        handle_abnormal_request off NoBlocks c b ≫= λ b,
        mret (false, set_locals (exhausted NoBlocks (set_budgets b (locals x))) x)
  end.
(** [handle_running_queue_requests(...)]; [n] bounds the rounds. *)
Fixpoint handle_running_queue_requests (n : nat) (off : bool) (x : ChunkLoop) : prog Sched ChunkLoop :=
  match n with
  | O => undef "out of fuel"
  | S n =>
      get ≫= λ s,
      let b := budgets (locals x) in
      if bool_decide (running_queue off s = []) || negb (min_spec s <? remaining_token_budget b) ||
         negb (d_ltb (estimate_latency b) (latency_budget b)) || negb (0 <? remaining_seq_budget b)
      then mret x
      else
        chunk_running_request off x ≫= λ r : bool * ChunkLoop,
        if r.1 then handle_running_queue_requests n off r.2 else mret r.2
  end.

(** ** Waiting requests *)

(** Allocation for a chunk, which may preempt offline requests *)
Definition chunk_prefill_allocate (id i : nat) (num_tokens : Z) : prog Sched (bool * Z) :=
  allocate_blocks_for id i num_tokens ≫= λ a : bool * Z,
  if a.1 then mret a
  else
    get_request id ≫= λ r,
    get ≫= λ s,
    if enable_online_preempt_offline (options_ s) && negb (offline r) &&
       bool_decide (running_queue_offline_ s ≠ []) then
      get_sequence id i ≫= λ q,
      let max_handle_num_tokens := u64 (a.2 + kv_cache_tokens_num_ (kv_state_ q)) in
      check_if_enough_to_evict true max_handle_num_tokens ≫= λ e : bool * nat,
      if e.1 then
        preempt_offline e.2 ≫= λ _,
        on_seq_kv id i (kvm_allocate max_handle_num_tokens) ≫= λ ok : bool, mret (ok, a.2)
      else mret (false, a.2)
    else mret (false, a.2).

(** The loop over the sequences of a waiting request; [lat] is the
    [allocated_estimate_latency], here a [size_t]. *)
Fixpoint chunk_prefill_loop (b : Budgets) (id : nat) (l : list nat) (c : Candidates) (lat : Z)
    : prog Sched (schedule_stop * Candidates) :=
  match l with
  | [] => mret (AllScheduled, with_latency (d_of_int lat) c)
  | i :: l =>
      seq_finished id i ≫= λ f : bool,
      if f then chunk_prefill_loop b id l c lat
      else
        get_sequence id i ≫= λ q,
        gets options_ ≫= λ o,
        let assume_max_tokens := Z.min chunk_size (u64 (remaining_token_budget b - allocated_tokens c)) in
        let num_tokens := Z.min assume_max_tokens (Z.of_nat (num_tokens_ (toks q))) in
        if (remaining_token_budget b <? u64 (allocated_tokens c + num_tokens)) ||
           (remaining_seq_budget b <? u64 (allocated_seqs c + 1)) then mret (NoBudget, c)
        else
          (if enable_latency_aware_schedule o then
             let kv_cache_tokens_num := kv_cache_tokens_num_ (kv_state_ q) in
             predict_tokens (u64 (num_tokens + kv_cache_tokens_num)) kv_cache_tokens_num ≫= λ d,
             let seq_estimate_latency := d_to_size d in
             mret (seq_estimate_latency,
                   d_ltb (latency_budget b)
                     (d_add (d_add (estimate_latency b) (d_of_int lat)) (d_of_int seq_estimate_latency)))
           else mret (0, false)) ≫= λ x : Z * bool,
          if x.2 then mret (NoBudget, c)
          else
            chunk_prefill_allocate id i num_tokens ≫= λ a : bool * Z,
            if negb a.1 then on_seq_kv id i kvm_deallocate ≫= λ _, mret (NoBlocks, c)
            else chunk_prefill_loop b id l (add_candidate id i a.2 (d_of_int 0) c) (u64 (lat + x.1))
  end.

(** One round of the [while] of [handle_prefill_requests] *)
Definition chunk_prefill_request (off : bool) (x : ChunkLoop) : prog Sched (bool * ChunkLoop) :=
  waiting_top estimated_latency off ≫= λ id,
  finished_or_cancelled id ≫= λ f : bool,
  if f then
    deallocate_request id ≫= λ _,
    waiting_pop off id ≫= λ _,
    mret (true, set_locals (set_finished_requests (finished_requests (locals x) ++ [id]) (locals x)) x)
  else
    get_request id ≫= λ r,
    check (preempted r || (length (sequences_ r) =? 1)%nat) "Waiting request should have only one sequence." ≫= λ _,
    chunk_prefill_loop (budgets (locals x)) id (seq 0 (length (sequences_ r))) Candidates_none 0
      ≫= λ res : schedule_stop * Candidates,
    match res.1 with
    | AllScheduled =>
        waiting_pop off id ≫= λ _,
        join_batch id res.2 ≫= λ _,
        mret (true, mkChunkLoop (set_budgets (take_budget res.2 (budgets (locals x))) (locals x))
                      (prefill_stage_sequences x ++ candidate_sequences res.2))
    | stop =>
        for_each (candidate_sequences res.2) (λ y, on_seq_kv y.1 y.2 kvm_deallocate) ≫= λ _,
        mret (false, set_locals (exhausted stop (locals x)) x)
    end.
Fixpoint chunk_prefill_while (n : nat) (off : bool) (x : ChunkLoop) : prog Sched ChunkLoop :=
  match n with
  | O => undef "out of fuel"
  | S n =>
      get ≫= λ s,
      let b := budgets (locals x) in
      if bool_decide (waiting_queue off s = []) || negb (0 <? remaining_token_budget b) ||
         negb (d_ltb (estimate_latency b) (latency_budget b)) || negb (0 <? remaining_seq_budget b)
      then mret x
      else
        chunk_prefill_request off x ≫= λ r : bool * ChunkLoop,
        if r.1 then chunk_prefill_while n off r.2 else mret r.2
  end.
(** [handle_prefill_requests(...)] of this scheduler; its end is that of the continuous one. *)
Definition chunk_prefill_requests (n : nat) (off : bool) (x : ChunkLoop) : prog Sched ChunkLoop :=
  chunk_prefill_while n off x ≫= λ x,
  prefill_too_long estimated_latency off (locals x) ≫= λ _,
  mret x.

(** ** The rest of the budget *)

Definition with_tokens (n : Z) (b : Budgets (D := D)) : Budgets (D := D) :=
  mkBudgets (latency_budget b) (estimate_latency b) n (remaining_seq_budget b).
Definition with_estimate (d : D) (b : Budgets) : Budgets :=
  mkBudgets (latency_budget b) d (remaining_token_budget b) (remaining_seq_budget b).
(** [handle_remaining_budget(...)]: the loop over the indices [l] of the batch, with the
    sequences of [prefill_stage_sequences] not met yet *)
Fixpoint handle_remaining_budget (l : list nat) (stage : list (nat * nat)) (p : PrefillLoop)
    : prog Sched (PrefillLoop (D := D)) :=
  match l, stage with
  | [], _ | _, [] => mret p
  | i :: l, x :: stage' =>
      get ≫= λ s,
      at_ (running_sequences_ s) i ≫= λ y,
      if decide (x ≠ y) then handle_remaining_budget l stage p
      else
        at_ (running_sequences_budgets_ s) i ≫= λ token_budget,
        let b := with_tokens (u64 (remaining_token_budget (budgets p) + token_budget)) (budgets p) in
        (if enable_latency_aware_schedule (options_ s) then
           get_sequence x.1 x.2 ≫= λ q,
           predict_step_time q ≫= λ origin,
           let estimate := d_sub (estimate_latency b) origin in
           predict_tokens (remaining_token_budget b) (kv_cache_tokens_num_ (kv_state_ q)) ≫= λ cur,
           if d_ltb (latency_budget b) (d_add estimate cur) then mret (estimate, true)
           else mret (d_add estimate cur, false)
         else mret (estimate_latency b, false)) ≫= λ lat : D * bool,
        let b := with_estimate lat.1 b in
        if lat.2 then mret (set_budgets b p)
        else
          allocate_blocks_for x.1 x.2 (remaining_token_budget b) ≫= λ a : bool * Z,
          if negb a.1 then mret (exhausted NoBlocks (set_budgets b p))
          else
            modify (λ s, set_running (running_requests_ s) (running_sequences_ s)
                           (<[i := a.2]> (running_sequences_budgets_ s)) s) ≫= λ _,
            check (a.2 <=? remaining_token_budget b) "remaining_token_budget >= current_step_handle_tokens" ≫= λ _,
            let rest := u64 (remaining_token_budget b - a.2) in
            let p := set_budgets (with_tokens rest b) p in
            if rest =? 0 then mret p else handle_remaining_budget l stage' p
  end.

(** ** A step *)

Definition chunk_budgets (o : SchedOptions) : Budgets (D := D) :=
  mkBudgets (d_of_int (max_global_tpot_ms o)) constant_overhead
    (u64 (if enable_profile_token_budget chunk then profile_token_budget chunk else max_tokens_per_batch o))
    (u64 (max_seqs_per_batch o)).
(** The two handlers of a kind of requests: waiting ones only when nothing is exhausted,
    and without a latency budget when the batch is empty *)
Definition chunk_waiting (n : nat) (off : bool) (x : ChunkLoop) : prog Sched ChunkLoop :=
  if budget_exhausted (locals x) || blocks_exhausted (locals x) then mret x
  else
    get ≫= λ s,
    chunk_prefill_requests n off
      (if bool_decide (running_sequences_ s = [])
       then set_chunk_budgets (with_latency_budget (d_of_int (2 ^ 31 - 1)) (budgets (locals x))) x else x).
Definition fill_chunks (n : nat) (finished : list nat) : prog Sched (list nat) :=
  gets options_ ≫= λ o,
  handle_running_queue_requests n false (mkChunkLoop (mkPrefillLoop (chunk_budgets o) false false finished) [])
    ≫= λ x,
  chunk_waiting n false x ≫= λ x,
  (if 0 <? remaining_token_budget (budgets (locals x)) then handle_running_queue_requests n true x else mret x)
    ≫= λ x,
  chunk_waiting n true x ≫= λ x,
  let b := budgets (locals x) in
  (if (0 <? remaining_token_budget b) && d_ltb (estimate_latency b) (latency_budget b) then
     get ≫= λ s,
     handle_remaining_budget (seq 0 (length (running_sequences_ s))) (prefill_stage_sequences x) (locals x)
   else mret (locals x)) ≫= λ p,
  mret (finished_requests p).
(** The beginning of [prepare_batch]: the running requests go back to the front of their
    queues, the last one first. *)
Definition collect_chunks (disconnected : nat → bool) : prog Sched (list nat) :=
  receive_requests ≫= λ _,
  gets running_requests_ ≫= λ l,
  reap disconnected (rev l) [] ≫= λ x : list (option nat) * list nat,
  modify (λ s, set_running (rev x.1) (running_sequences_ s) (running_sequences_budgets_ s) s) ≫= λ _,
  gets running_requests_ ≫= λ l,
  for_each (rev l) (requeue None) ≫= λ _,
  modify (set_running [] [] []) ≫= λ _,
  mret x.2.
(** [prepare_batch()] up to the building of the batch *)
Definition prepare_chunks (n : nat) (disconnected : nat → bool) : prog Sched unit :=
  collect_chunks disconnected ≫= λ finished,
  fill_chunks n finished ≫= λ finished,
  modify (λ s, set_reported (completed_ s ++ finished) (failed_ s) s).
End chunked.
