(* ===== verification/ChunkedOrder.v ===== *)
(** Where the requests are after a step with chunked prefill.

    For online requests a step loses none and duplicates none, as in [SchedOrder], whose
    relations ([quiet], [evicting], [prefilling], [round]) the handlers satisfy.  When a
    running offline request gives up its blocks, the code pops the wrong queue. *)

From stdpp Require Import base gmap list strings.
From Stdlib Require Import ZArith Lia.
From S2P Require Import Prelude HashKey Blocks KVState Stopping IncrementalDecoder LogprobState Sequence Request.
From S2P Require Import Scheduler SchedBatch SchedOrder Chunked.
Open Scope Z_scope.

Section order.
Context `{FloatOps F} `{DoubleOps D} `{DoubleTrunc D} `{ProfileManager D} `{PriorityQueueLaws}.
Context `{KVCacheManager K T F} `{!SharedAllocation K T F}.
Variable estimated_latency : Request T F → D.
Variable chunk : ChunkOptions.
Abbreviation Sched := (Scheduler.Sched (F := F) (K := K) (T := T)).
Implicit Types (s : Sched) (r : Request T F) (id i : nat) (off : bool).
Implicit Types (b : Budgets (D := D)) (c : Candidates (D := D)) (p : PrefillLoop (D := D)) (x : ChunkLoop (D := D)).

(** ** Allocation is quiet *)

Ltac chain := apply (post_chain quiet).
Tactic Notation "request" := eapply post_mono; [apply get_request_quiet|by intros ?? [-> _]].
Tactic Notation "sequence" := eapply post_mono; [apply get_sequence_quiet|by intros ?? [? _]].
Lemma predict_tokens_state n m s : post (predict_tokens (D := D) n m) (λ _ s', s' = s) s.
Proof. unfold predict_tokens. apply post_bind, post_check. intros _. by apply post_ret. Qed.
Lemma allocate_shared_blocks_for_quiet id i s : post (allocate_shared_blocks_for chunk id i) (λ _ s', quiet s s') s.
Proof.
  unfold allocate_shared_blocks_for. chain; [sequence|]. intros q s1 _.
  repeat (case_match; [first [apply on_seq_kv_quiet|by apply post_undef]|]); try by apply post_ret.
  case_match; [|by apply post_ret]. repeat (case_match; [first [apply on_seq_kv_quiet|by apply post_undef]|]). by apply post_ret.
Qed.
Lemma allocate_blocks_for_quiet id i n s : post (allocate_blocks_for chunk id i n) (λ _ s', quiet s s') s.
Proof.
  unfold allocate_blocks_for. chain; [by apply post_gets|]. intros m s1 _. chain; [by apply post_check|]. intros _ s2 _.
  chain; [apply allocate_shared_blocks_for_quiet|]. intros _ s3 _. chain; [sequence|]. intros q s4 _.
  chain; [by apply post_gets|]. intros o s5 _. cbv zeta. chain; [by apply post_check|]. intros _ s6 _.
  chain; [apply on_seq_kv_quiet|]. intros ok s7 _. by apply post_ret.
Qed.
Lemma chunk_loop_quiet b id l c stage s : post (chunk_loop chunk b id l c stage) (λ _ s', quiet s s') s.
Proof.
  revert c stage s. induction l as [|i l IH]; intros c stage s; simpl; [by apply post_ret|].
  chain; [apply seq_finished_quiet|]. intros f s1 _. destruct f; [apply IH|].
  chain; [sequence|]. intros q s2 _. chain; [by apply post_get|]. intros x s3 _. cbv zeta.
  destruct (_ || _); [by apply post_ret|]. chain.
  { destruct (enable_latency_aware_schedule _); [|by apply post_ret]. chain; [eapply post_mono; [apply predict_tokens_state|by intros ?? ->]|].
    intros d s4 _. by apply post_ret. }
  intros lat s4 _. destruct (lat.2); [by apply post_ret|]. chain; [apply allocate_blocks_for_quiet|].
  intros a s5 _. destruct (negb _); [by apply post_ret|]. chain; [sequence|]. intros q' s6 _. apply IH.
Qed.

(** ** Waiting requests *)

Ltac evict := apply (post_chain evicting).
Tactic Notation "quietly" uconstr(lem) := eapply post_mono; [apply lem|intros; by apply quiet_evicting].
Tactic Notation "sequence_e" := eapply post_mono; [apply get_sequence_quiet|intros ?? [? _]; by apply quiet_evicting].
Lemma chunk_prefill_allocate_evicting id i n s : post (chunk_prefill_allocate chunk id i n) (λ _ s', evicting s s') s.
Proof.
  unfold chunk_prefill_allocate. evict; [quietly allocate_blocks_for_quiet|]. intros a s1 _. destruct (a.1); [by apply post_ret|].
  evict; [request|]. intros r s2 _. evict; [by apply post_get|]. intros y s3 _. case_match; [|by apply post_ret].
  evict; [sequence_e|]. intros q s4 _. cbv zeta. evict; [quietly check_if_enough_to_evict_quiet|]. intros e s5 _.
  destruct (e.1); [|by apply post_ret]. evict; [apply preempt_offline_evicting|]. intros _ s6 _.
  evict; [quietly on_seq_kv_quiet|]. intros ok s7 _. by apply post_ret.
Qed.
Lemma chunk_prefill_loop_evicting b id l c lat s :
  post (chunk_prefill_loop chunk b id l c lat) (λ _ s', evicting s s') s.
Proof.
  revert c lat s. induction l as [|i l IH]; intros c lat s; simpl; [by apply post_ret|].
  evict; [quietly seq_finished_quiet|]. intros f s1 _. destruct f; [apply IH|].
  evict; [sequence_e|]. intros q s2 _. evict; [by apply post_gets|]. intros o s3 _. cbv zeta.
  destruct (_ || _); [by apply post_ret|]. evict.
  { destruct (enable_latency_aware_schedule _); [|by apply post_ret]. evict; [eapply post_mono; [apply predict_tokens_state|by intros ?? ->]|].
    intros d s4 _. by apply post_ret. }
  intros x s4 _. destruct (x.2); [by apply post_ret|]. evict; [apply chunk_prefill_allocate_evicting|].
  intros a s5 _. destruct (negb _); [|apply IH]. evict; [quietly on_seq_kv_quiet|]. intros _ s6 _. by apply post_ret.
Qed.
Lemma chunk_prefill_request_prefilling off x s :
  post (chunk_prefill_request estimated_latency chunk off x)
    (λ res s', prefilling s (finished_requests (locals x)) s' (finished_requests (locals res.2))) s.
Proof.
  unfold chunk_prefill_request. apply post_bind. eapply post_mono; [apply waiting_top_in|]. intros id ? [-> Hid].
  apply post_bind. eapply post_mono; [apply finished_or_cancelled_quiet|]. intros f s1 G1%quiet_evicting. destruct f.
  { apply post_bind. eapply post_mono; [apply deallocate_request_quiet|]. intros u s2 G2%quiet_evicting.
    apply post_bind, post_modify, post_ret. apply pop_finished_prefilling; [by etrans|done]. }
  apply post_bind. eapply post_mono; [apply get_request_quiet|]. intros r ? [-> _].
  apply post_bind, post_check. intros _. apply post_bind. eapply post_mono; [apply chunk_prefill_loop_evicting|].
  intros [stop c] s3 G3. cbv beta in G3. assert (evicting s s3) as G03 by (etrans; [exact G1|exact G3]). simpl.
  assert (∀ l : list (nat * nat), post (for_each l (λ y, on_seq_kv y.1 y.2 kvm_deallocate)) (λ _ s', evicting s s') s3) as Hback.
  { intros l. eapply post_mono; [apply (post_chain_for_each quiet); intros; apply on_seq_kv_quiet|].
    intros u s4 G4%quiet_evicting. etrans; [exact G03|exact G4]. }
  destruct stop; simpl;
    [|apply post_bind; eapply post_mono; [apply Hback|]; intros u s4 G4; apply post_ret; by apply evicting_prefilling..].
  apply post_bind, post_modify, post_bind, post_modify, post_ret. by apply pop_join_prefilling.
Qed.
Lemma chunk_prefill_while_prefilling n off x s :
  post (chunk_prefill_while estimated_latency chunk n off x)
    (λ x' s', prefilling s (finished_requests (locals x)) s' (finished_requests (locals x'))) s.
Proof.
  assert (∀ s fin, prefilling s fin s fin) as Hid by (intros; by apply evicting_prefilling).
  revert x s. induction n as [|n IH]; intros x s; simpl; [done|].
  apply post_bind, post_get. destruct (_ || _); [by apply post_ret|].
  apply post_bind. eapply post_mono; [apply chunk_prefill_request_prefilling|]. intros [go x'] s' Hp.
  destruct go; simpl in *; [|by apply post_ret]. eapply post_mono; [apply IH|]. intros x2 s2 Hp2.
  eapply prefilling_trans; [exact Hp|exact Hp2].
Qed.
Lemma chunk_waiting_prefilling n off x s :
  post (chunk_waiting estimated_latency chunk n off x)
    (λ x' s', prefilling s (finished_requests (locals x)) s' (finished_requests (locals x'))) s.
Proof.
  unfold chunk_waiting. destruct (_ || _); [by apply post_ret, evicting_prefilling|]. apply post_bind, post_get.
  set (y := if bool_decide _ then _ else _).
  assert (finished_requests (locals x) = finished_requests (locals y)) as -> by (unfold y; by case_match).
  unfold chunk_prefill_requests. apply post_bind. eapply post_mono; [apply chunk_prefill_while_prefilling|].
  intros x1 s1 G1. simpl in G1. apply post_bind. eapply post_mono; [apply prefill_too_long_prefilling|].
  intros u s2 G2. apply post_ret. eapply prefilling_trans; [exact G1|exact G2].
Qed.

(** ** Running requests *)

(** A round that drops nothing *)
Abbreviation round off go := (drops off go []).
(** Of the online queue, which is the one the code pops *)
Lemma chunk_preempt_back_online go s : post (chunk_preempt_back false) (λ _ s', round false go s s') s.
Proof. apply preempt_back_round. Qed.
Lemma chunk_running_request_round x s :
  post (chunk_running_request chunk false x) (λ res s', round false res.1 s s' ∧
    finished_requests (locals res.2) = finished_requests (locals x)) s.
Proof.
  unfold chunk_running_request. apply post_bind. eapply post_mono; [apply running_top_state|].
  intros id ? [-> [l Hq]]. apply post_bind. eapply post_mono; [apply get_request_quiet|]. intros r ? [-> _].
  cbv zeta. apply post_bind. eapply post_mono; [apply chunk_loop_quiet|]. intros [[stop c] stage] s1 G1. simpl in *.
  apply post_bind, post_check. intros _. apply post_bind, post_check. intros _.
  assert (∀ go s', round false go s1 s' → round false go s s') as Hmono.
  { intros go s' Hgo. eapply round_trans; [by apply quiet_round|done]. }
  pose proof (qt_running _ _ G1 false) as R1. simpl in R1. rewrite <-R1 in Hq.
  assert (∀ stop', post (handle_abnormal_request false stop' c (budgets (locals x)) ≫= λ b,
    mret (false, set_locals (exhausted stop' (set_budgets b (locals x))) (mkChunkLoop (locals x) stage)))
    (λ res s', round false res.1 s s' ∧ finished_requests (locals res.2) = finished_requests (locals x)) s1) as Habn.
  { intros stop'. apply post_bind. eapply post_mono; [apply handle_abnormal_request_round|]. intros b' s2 G2.
    apply post_ret. split; [by apply Hmono|by destruct stop']. }
  destruct stop.
  - apply post_bind. eapply post_mono; [apply pop_top_state|]. intros u s2 (y & l' & Hl' & ->). simpl in Hl'.
    rewrite Hq in Hl'. injection Hl' as <- <-. apply post_bind, post_modify, post_ret. split; [|done]. apply Hmono.
    exact (schedule_round false true id l _ _ s1 Hq).
  - apply (Habn NoBudget).
  - apply post_bind, post_get. destruct (_ && _).
    { apply post_bind. eapply post_mono; [apply (preempt_offline_evicting 1)|]. intros u s2 G2. apply post_ret.
      split; [|done]. apply Hmono. by apply evicting_round. }
    case_match.
    { apply post_bind. eapply post_mono; [apply running_back_state|]. intros v ? [-> _]. apply post_bind.
      destruct (decide (v = id)); [exact I|]. eapply post_mono; [apply (chunk_preempt_back_online true)|].
      intros u s2 G2. apply post_ret. split; [by apply Hmono|done]. }
    apply (Habn NoBlocks).
Qed.
Lemma handle_running_queue_round n x s :
  post (handle_running_queue_requests chunk n false x)
    (λ x' s', round false false s s' ∧ finished_requests (locals x') = finished_requests (locals x)) s.
Proof.
  revert x s. induction n as [|n IH]; intros x s; simpl; [done|].
  apply post_bind, post_get. destruct (_ || _); [by apply post_ret; split; [apply round_refl|]|]. apply post_bind.
  eapply post_mono; [by apply chunk_running_request_round|]. intros [go x'] s' [Hr Ef]. simpl in *.
  destruct go; [|by apply post_ret]. eapply post_mono; [apply IH|].
  intros x2 s2 [Hr2 Ef2]. split; [by eapply round_trans|by rewrite Ef2].
Qed.
Lemma handle_remaining_evicting l stage p s :
  post (handle_remaining_budget chunk l stage p)
    (λ p' s', evicting s s' ∧ finished_requests p' = finished_requests p) s.
Proof.
  revert stage p s. induction l as [|i l IH]; intros stage p s; [by apply post_ret|].
  destruct stage as [|x stage]; [by apply post_ret|]. cbn [handle_remaining_budget].
  apply post_bind, post_get, post_bind, post_at. intros y _. destruct (decide _); [apply IH|].
  apply post_bind, post_at. intros tb _. cbv zeta. apply post_bind.
  eapply (post_mono _ (λ _ s', evicting s s')).
  { destruct (enable_latency_aware_schedule _); [|by apply post_ret]. evict; [sequence_e|]. intros q s1 _.
    evict; [eapply post_mono; [apply predict_step_time_quiet|by intros ?? ->]|]. intros d s2 _.
    evict; [eapply post_mono; [apply predict_tokens_state|by intros ?? ->]|]. intros d' s3 _. case_match; by apply post_ret. }
  intros lat s1 G1. cbv beta in G1. destruct (lat.2); [by apply post_ret|]. apply post_bind.
  eapply post_mono; [apply allocate_blocks_for_quiet|]. intros a s2 G2%quiet_evicting.
  assert (evicting s s2) as G02 by (etrans; [exact G1|exact G2]). destruct (negb _); [by apply post_ret|].
  apply post_bind, post_modify, post_bind, post_check. intros _. set (s3 := set_running _ _ _ s2).
  assert (evicting s s3) as G03.
  { destruct G02 as [? ? ? ? ? (v & ? & ?) ? ? ? ? ?]. constructor; try done. by exists v. }
  case_match; [by apply post_ret|]. eapply post_mono; [apply IH|]. intros p' s4 [G4 E4]. split; [by etrans|done].
Qed.

(** ** A step *)

(** Nothing is lost as long as no offline request runs. *)
Record moved s (fin : list nat) s' (fin' : list nat) : Prop := {
  mv_static : req_static <$> requests s' = req_static <$> requests s;
  mv_offline : running_queue_offline_ s = [] → running_queue_offline_ s' = [];
  mv_located : running_queue_offline_ s = [] → located s' ++ fin' ≡ₚ located s ++ fin;
}.
Lemma moved_refl s fin : moved s fin s fin.
Proof. by constructor. Qed.
Lemma moved_trans s1 f1 s2 f2 s3 f3 : moved s1 f1 s2 f2 → moved s2 f2 s3 f3 → moved s1 f1 s3 f3.
Proof.
  intros [S1 O1 L1] [S2 O2 L2]. constructor; [by etrans|auto|].
  intros Ho. rewrite L2 by auto. by apply L1.
Qed.
Lemma prefilling_moved s fin s' fin' : prefilling s fin s' fin' → moved s fin s' fin'.
Proof.
  intros P. constructor; [apply P| |intros _; apply P]. destruct (pf_offline _ _ _ _ P) as (v & ->). by intros [? _]%app_eq_nil.
Qed.
Lemma evicting_moved s s' fin : evicting s s' → moved s fin s' fin.
Proof. intros. by apply prefilling_moved, evicting_prefilling. Qed.
Lemma round_moved s s' fin : round false false s s' → moved s fin s' fin.
Proof.
  intros R. constructor; [apply R| |].
  - destruct (rd_other _ _ _ _ _ R) as (l1 & l2 & E). simpl in E. rewrite E. intros [_ [? _]%app_eq_nil]%app_eq_nil. done.
  - intros _. destruct (rd_located _ _ _ _ _ R) as [E|(_ & ? & _)]; [|done]. simpl in E. by rewrite E.
Qed.
Lemma fill_chunks_moved n fin s :
  running_queue_offline_ s = [] →
  post (fill_chunks estimated_latency chunk n fin) (λ fin' s', moved s fin s' fin') s.
Proof.
  intros Ho. unfold fill_chunks. apply post_bind, post_gets, post_bind.
  eapply post_mono; [apply handle_running_queue_round|]. intros x1 s1 [G1%(round_moved _ _ fin) E1]. simpl in E1.
  apply post_bind. eapply post_mono; [apply chunk_waiting_prefilling|]. intros x2 s2 G2%prefilling_moved. rewrite E1 in G2.
  pose proof (moved_trans _ _ _ _ _ _ G1 G2) as G12. apply post_bind.
  eapply (post_mono _ (λ x3 s3, x3 = x2 ∧ s3 = s2)).
  { destruct (0 <? _); [|by apply post_ret]. destruct n as [|n]; [done|]. simpl. apply post_bind, post_get.
    rewrite (bool_decide_eq_true_2 _ (mv_offline _ _ _ _ G12 Ho)). by apply post_ret. }
  intros ? ? [-> ->]. apply post_bind. eapply post_mono; [apply chunk_waiting_prefilling|].
  intros x4 s4 G4%prefilling_moved. pose proof (moved_trans _ _ _ _ _ _ G12 G4) as G. cbv zeta. apply post_bind.
  eapply (post_mono _ (λ p s', evicting s4 s' ∧ finished_requests p = finished_requests (locals x4))).
  { case_match; [|by apply post_ret]. apply post_bind, post_get. apply handle_remaining_evicting. }
  intros p s5 [G5 E5]. apply post_ret. rewrite E5. eapply moved_trans; [exact G|by apply evicting_moved].
Qed.

(** All requests are online. *)
Definition all_online s : Prop := map_Forall (λ _ r, offline r = false) (requests s).
Lemma online_those s s' l :
  req_static <$> requests s' = req_static <$> requests s → all_online s → those true s' l = [].
Proof.
  intros E Ha. rewrite (those_static _ s s') by done. apply those_none, Forall_forall. intros id _.
  unfold offline_of. rewrite lookup_fmap. destruct (requests s !! id) as [r|] eqn:Hr; [|done].
  specialize (Ha id r Hr). simpl in Ha |- *. unfold offline in Ha. by rewrite Ha.
Qed.
Lemma collect_chunks_moved disconnected s :
  all_online s → running_queue_offline_ s = [] →
  post (collect_chunks disconnected)
    (λ fin s', running_queue_offline_ s' = [] ∧ req_static <$> requests s' = req_static <$> requests s ∧
       located s' ++ fin ≡ₚ located s) s.
Proof.
  intros Ha Ho. unfold collect_chunks. apply post_bind. eapply post_mono; [apply receive_requests_received|].
  intros u1 s1 [Cs _ _ Cr _ _ _ Cloc]. simpl in Cs. apply post_bind, post_gets, post_bind. eapply post_mono; [apply reap_reaped|].
  intros [l' fin] s2 (Q2 & _ & f & Ef & Hp). simpl in Ef, Hp. subst f. simpl.
  apply post_bind, post_modify, post_bind, post_gets, post_bind. set (s2' := set_running (rev l') _ _ s2).
  eapply post_mono; [apply requeue_requeued|]. intros u3 s3 [Rs _ _ Rr _ Rq _ Rloc]. simpl in Rloc.
  apply post_bind, post_modify, post_ret. rewrite rev_involutive in Rloc.
  assert (req_static <$> requests s2' = req_static <$> requests s) as Es2 by (unfold s2'; simpl; by rewrite (qt_static _ _ Q2)).
  assert (running_queue_offline_ s2' = []) as Eo.
  { pose proof (qt_running _ _ Q2 true) as R2. pose proof (Cr true) as R1. simpl in R1, R2. unfold s2'. simpl. by rewrite R2, R1. }
  split; [|split; [simpl; by rewrite Rs|]].
  - pose proof (Rq true) as E. rewrite (online_those s), app_nil_l in E by done. change (running_queue true s2') with (running_queue_offline_ s2') in E.
    rewrite Eo in E. by apply Permutation_nil_r in E.
  - assert (in_batch s2' = rev (omap (λ y : option nat, y) l')) as E2 by (unfold in_batch; apply rev_omap).
    assert (located s2' ++ fin ≡ₚ located s) as El2.
    { rewrite rev_omap, <-Permutation_rev in Hp. trans (located s2).
      - unfold located. rewrite E2, <-Permutation_rev. unfold in_batch at 1. rewrite (qt_requests _ _ Q2), Hp. simpl. perm.
      - rewrite (evicting_located _ _ (quiet_evicting _ _ Q2)), Cloc. unfold located, in_batch. simpl. perm. }
    assert (in_batch s3 = in_batch s2') as E3 by (unfold in_batch; by rewrite Rr).
    rewrite <-El2. apply Permutation_app_tail, (Permutation_app_inv_r (omap (λ y : option nat, y) l')).
    rewrite <-Rloc. rewrite E2 in E3. unfold located. rewrite E3, <-Permutation_rev.
    change (in_batch (set_running [] [] [] s3)) with (@nil nat). simpl. perm.
Qed.
Lemma prepare_chunks_located n disconnected s :
  all_online s → running_queue_offline_ s = [] →
  post (prepare_chunks estimated_latency chunk n disconnected) (λ _ s', located s' ≡ₚ located s) s.
Proof.
  intros Ha Ho. unfold prepare_chunks. apply post_bind. eapply post_mono; [by apply collect_chunks_moved|].
  intros fin s1 (Ho1 & Es1 & Hl1). apply post_bind. eapply post_mono; [by apply fill_chunks_moved|].
  intros fin' s2 [_ _ Hl2]. apply post_modify. rewrite <-Hl1, <-(Hl2 Ho1). unfold located, in_batch. simpl. perm.
Qed.

(** ** Properties *)

(** C14: a step with chunked prefill loses no online request and duplicates none: as long as
    every request is online, afterwards each of them is in exactly one place — a queue, the
    batch, or the lists of the completed and of the failed — whatever the manager of the KV
    cache answers, with any number of sequences per request, chunk size, budgets and
    speculative tokens. *)
Theorem chunks_conserved n disconnected s :
  all_online s → running_queue_offline_ s = [] →
  post (prepare_chunks estimated_latency chunk n disconnected) (λ _ s', located s' ≡ₚ located s) s.
Proof. apply prepare_chunks_located. Qed.

(** C40: when an offline request has to give up its blocks to another offline one, the wrong
    queue is popped: the victim waits again and is still in the running queue as well, while
    the last online request that runs is in no queue any more and is never answered.  With no
    online request running there is nothing to pop, and the preemption has no defined result. *)
Theorem offline_preemption_drops_online s :
  post (chunk_preempt_back true)
    (λ _ s', ∃ victim dropped, last (running_queue_offline_ s) = Some victim ∧ last (running_queue_ s) = Some dropped ∧
       victim ∈ running_queue_offline_ s' ∧
       victim ∈ waiting_priority_queue_ s' ++ waiting_priority_queue_offline_ s' ∧
       running_queue_ s = running_queue_ s' ++ [dropped] ∧
       dropped :: located s' ≡ₚ victim :: located s) s.
Proof.
  unfold chunk_preempt_back. apply post_bind. eapply post_mono; [apply running_back_state|]. intros id ? [-> Hid].
  apply post_bind. eapply post_mono; [apply deallocate_request_quiet|]. intros u1 s1 G1. cbv beta in G1.
  apply post_bind. eapply post_mono; [apply pop_back_state|]. intros u2 s2 (y & l & Hl & ->). simpl in Hid, Hl.
  apply post_bind. eapply post_mono; [by apply req_modify_quiet|]. intros u3 s3 G3. cbv beta in G3.
  apply post_bind. eapply post_mono; [apply get_request_quiet|]. intros r ? [-> _]. apply post_modify.
  pose proof (qt_running _ _ G1 false) as R1. pose proof (qt_running _ _ G1 true) as R1'.
  pose proof (qt_running _ _ G3 false) as R3. pose proof (qt_running _ _ G3 true) as R3'. simpl in R1, R1', R3, R3'.
  pose proof (evicting_located _ _ (quiet_evicting _ _ G1)) as L1. pose proof (evicting_located _ _ (quiet_evicting _ _ G3)) as L3.
  exists id, y. rewrite push_located, L3, <-L1. rewrite <-R1, Hl. split; [done|]. split; [apply last_snoc|].
  split; [destruct (offline r); simpl; rewrite R3', R1'; by apply last_Some_elem_of|].
  split; [destruct (offline r); simpl; rewrite !elem_of_app; set_solver|].
  split; [destruct (offline r); simpl; by rewrite R3|].
  rewrite Permutation_swap. constructor. unfold located, in_batch. simpl. rewrite Hl, (cons_as_app y).
  generalize [y]. intros. perm.
Qed.
End order.
