(* ===== verification/SchedSafe.v ===== *)
(** A step of the scheduler is safe: over a manager of the KV cache that keeps its
    contract ([KVCacheManagerLaws]), [prepare_batch] returns from every state [sched_ok] (online
    requests without beam search, under options for which the checks of the code hold), within
    a number of rounds given by the number of requests, with no failed check, no [LOG(FATAL)]
    and no undefined behaviour, and leaves such a state. *)

From stdpp Require Import base gmap list strings.
From Stdlib Require Import ZArith Lia.
From S2P Require Import Prelude HashKey Blocks KVState Stopping IncrementalDecoder LogprobState Sequence Request.
From S2P Require Import Scheduler SchedBatch SchedOrder.
Open Scope Z_scope.

(** ** The contract of the manager *)

Section contract.
Context {T F : Type}.
Implicit Types (q : Sequence T F).

(** The tokens of a sequence and what its stopping rules read *)
Record same_text q q' : Prop := {
  st_toks : toks q' = toks q;
  st_prompt : num_prompt_tokens_ q' = num_prompt_tokens_ q;
  st_params : sequence_params_ q' = sequence_params_ q;
}.
#[export] Instance same_text_preorder : PreOrder same_text.
Proof. split; [by constructor|]. intros q1 q2 q3 [] []. constructor; by etrans. Qed.
(** What the manager leaves alone: the tokens and the cached status *)
Record untouched q q' : Prop := {
  ut_text : same_text q q';
  ut_fin : fin q' = fin q;
}.
#[export] Instance untouched_preorder : PreOrder untouched.
Proof. split; [by constructor|]. intros q1 q2 q3 [] []. constructor; by etrans. Qed.
(** What a status check leaves alone: the tokens and what the sequence holds *)
Record same_kv q q' : Prop := {
  sk_text : same_text q q';
  sk_kv : kv_state_ q' = kv_state_ q;
  sk_host : host_kv_state_ q' = host_kv_state_ q;
  sk_embedding : embedding_block_ q' = embedding_block_ q;
  sk_rank : dp_rank_ q' = dp_rank_ q;
}.
(** A sequence as its constructor leaves it *)
Record unused q : Prop := {
  un_kv : kv_state_ q = KVCacheState_new;
  un_host : host_kv_state_ q = KVCacheState_new;
  un_embedding : embedding_block_ q = Block_default;
  un_rank : dp_rank_ q = -1;
  un_beam : check_beam_search q = false;
  un_tokens : (0 < num_tokens_ (toks q) ≤ length (tokens_ (toks q)))%nat;
  un_buffer : Z.of_nat (length (tokens_ (toks q))) ≤ 2 ^ 26;
}.
(** [max(kv_cache_tokens_num)] of the two states *)
Definition cached_num q : Z :=
  Z.max (kv_cache_tokens_num_ (kv_state_ q)) (kv_cache_tokens_num_ (host_kv_state_ q)).

(** What the scheduler relies on: an invariant of the manager and all the sequences it
    serves, which every operation on one of them keeps, without a change of its tokens. *)
Class KVCacheManagerLaws `{KVCacheManager K T F} := {
  kv_inv : K → list (Sequence T F) → Prop;
  kv_inv_proper :: Proper ((=) ==> (≡ₚ) ==> iff) kv_inv;
  kv_inv_tokens k q qs : kv_inv k (q :: qs) → 0 ≤ cached_num q < Z.of_nat (num_tokens_ (toks q));
  kv_inv_same k q q' qs : same_kv q q' → kv_inv k (q :: qs) → kv_inv k (q' :: qs);
  kv_inv_new k q qs : unused q → kv_inv k qs → kv_inv k (q :: qs);
  kv_allocate_law n k q qs :
    kv_inv k (q :: qs) → 0 < n < 2 ^ 28 →
    wp (kvm_allocate n) (λ _ s', kv_inv s'.1 (s'.2 :: qs) ∧ untouched q s'.2) (k, q);
  kv_deallocate_law k q qs :
    kv_inv k (q :: qs) → wp kvm_deallocate (λ _ s', kv_inv s'.1 (s'.2 :: qs) ∧ untouched q s'.2) (k, q);
  kv_cache_law k q qs :
    kv_inv k (q :: qs) → wp kvm_cache (λ _ s', kv_inv s'.1 (s'.2 :: qs) ∧ untouched q s'.2) (k, q);
  (** the default of the base class: a prefetch is never pending *)
  kv_prefetch_law t k qs : kvm_update_prefetch_result t (k, qs) = Done true (k, qs);
  kv_used_law k qs : kv_inv k qs → kvm_num_used_blocks k ≠ [];
}.
End contract.

(** ** Requests *)

Section requests.
Context {T : Type} `{FloatOps F}.
Implicit Types (r : Request T F) (q : Sequence T F).

(** The cached status of a finished sequence is valid: nothing is appended to it. *)
Definition status_ok q : Prop := finished_ (fin q) = true → finish_status_invalidated_ (fin q) = false.
(** A sequence of the request [r]: its stopping rules can be checked. *)
Record seq_fine r q : Prop := {
  sf_status : status_ok q;
  sf_checkable : checkable q;
  sf_params : sequence_params_ q = params_ r;
  sf_buffer : length (tokens_ (toks q)) = seq_capacity (params_ r);
}.
(** An online request without beam search; [prefix] tells whether the prefix cache is
    enabled.  Without it a request arrives expanded to [best_of] sequences, and
    [handle_prefill_requests] checks that there is one (continuous_scheduler.cpp:271). *)
Record request_ok (prefix : bool) r : Prop := {
  ro_online : offline r = false;
  ro_beam : request_beam_search r = false;
  ro_size : (1 ≤ length (sequences_ r) ≤ best_of r)%nat;
  ro_expand : prefix = false → best_of r = 1%nat;
  ro_prompt : (0 < length (prompt_tokens_ r) < seq_capacity (params_ r))%nat;
  ro_capacity : Z.of_nat (seq_capacity (params_ r)) ≤ 2 ^ 26;
  ro_real : ∃ t, last (prompt_tokens_ r) = Some t ∧ 0 ≤ t;
  ro_stops : Forall (λ l, l ≠ []) (stop_sequences_ (stopping_checker (params_ r)));
  ro_seqs : Forall (seq_fine r) (sequences_ r);
}.
(** What no operation of a step changes, but the addition of sequences the last *)
Record kept r r' : Prop := {
  kp_param : scheduler_param r' = scheduler_param r;
  kp_params : params_ r' = params_ r;
  kp_best : best_of r' = best_of r;
  kp_prompt : prompt_tokens_ r' = prompt_tokens_ r;
  kp_preempted : preempted r = true → preempted r' = true;
  kp_length : length (sequences_ r') = length (sequences_ r);
}.
#[export] Instance kept_preorder : PreOrder kept.
Proof. split; [by constructor|]. intros r1 r2 r3 [] []. constructor; try (by etrans); auto. Qed.

Lemma same_text_fine r q q' : same_text q q' → (status_ok q → status_ok q') → seq_fine r q → seq_fine r q'.
Proof.
  intros [E1 E2 E3] Hst [Hs [C1 C2 C3 C4] Hp Hb]. constructor; [by apply Hst|constructor|..]; by rewrite ?E1, ?E2, ?E3.
Qed.
Lemma untouched_fine r q q' : untouched q q' → seq_fine r q → seq_fine r q'.
Proof. intros [Ht E]. apply same_text_fine; [done|]. unfold status_ok. by rewrite E. Qed.
Lemma seq_fine_kept r r' q : params_ r' = params_ r → seq_fine r q → seq_fine r' q.
Proof. intros E [? ? ? ?]. by constructor; rewrite ?E. Qed.
Lemma request_ok_kept prefix r r' :
  kept r r' → request_ok prefix r → Forall (seq_fine r) (sequences_ r') → request_ok prefix r'.
Proof.
  intros [E1 E2 E3 E4 _ E6] [] Hs. unfold offline, request_beam_search in *.
  constructor; unfold offline, request_beam_search; rewrite ?E1, ?E2, ?E3, ?E4, ?E6; try done.
  eapply Forall_impl; [exact Hs|]. intros q. by apply seq_fine_kept.
Qed.
Lemma same_but_status_kv q q' : same_but_status q q' → same_kv q q'.
Proof. intros [f ->]. by repeat constructor. Qed.
Lemma kept_set r l : length l = length (sequences_ r) → kept r (set_sequences l r).
Proof. intros. by constructor. Qed.
End requests.

(** ** The status of a request settles *)

Section settling.
Context {T : Type} `{FloatOps F}.
Implicit Types (r : Request T F) (q : Sequence T F).

Lemma finished_settles q : status_ok q → post finished (λ b q', status_ok q' ∧ finished q' = Done b q') q.
Proof.
  intros Hs. assert (finish_status_invalidated_ (fin q) = true → finished_ (fin q) = false) as Hs'
    by (unfold status_ok in Hs; destruct (finished_ (fin q)), (finish_status_invalidated_ (fin q)); naive_solver).
  unfold finished at 1. apply post_bind, post_get.
  destruct (negb _) eqn:E1; [apply post_ret; unfold finished, mbind, prog_bind, get; by rewrite E1|].
  destruct (_ && _) eqn:E2; [apply post_ret; unfold finished, mbind, prog_bind, get; by rewrite E1, E2|].
  destruct (is_embeddings _) eqn:E3; [apply post_ret; unfold finished, mbind, prog_bind, get; by rewrite E1, E2, E3|].
  unfold seq_modify. post_steps. eapply post_mono; [apply check_stop_state|]. intros f q' ->. cbv beta.
  apply negb_false_iff in E1. case_decide; post_steps; split; try done.
  unfold finished, mbind, prog_bind, get, set_invalidated. simpl. by rewrite Hs'.
Qed.
Lemma on_sequence_done {A} i (m : prog (Sequence T F) A) r q a :
  sequences_ r !! i = Some q → m q = Done a q → on_sequence i m r = Done a r.
Proof.
  intros Hq Hm. unfold on_sequence, mbind, prog_bind, get, at_. rewrite Hq. unfold mret, prog_ret, zoom.
  rewrite Hm, list_insert_id by done. by destruct r.
Qed.
(** The sequences before [i] are not looked at; the answer [false] stays. *)
Lemma all_finished_settles n i r :
  Forall status_ok (sequences_ r) →
  post (all_finished n i)
    (λ b r', (∀ j, (j < i)%nat → sequences_ r' !! j = sequences_ r !! j) ∧
             (b = false → all_finished n i r' = Done false r')) r.
Proof.
  revert i r. induction n as [|n IH]; intros i r Hok; simpl; [by apply post_ret|]. apply post_bind, post_on_sequence.
  intros q Hq. eapply post_mono; [apply finished_settles; by eapply Forall_lookup_1|]. intros b q' [Hok' Hs].
  pose proof (lookup_lt_Some _ _ _ Hq) as Hlt. destruct b.
  - eapply post_mono; [apply IH; by apply Forall_insert|]. intros b r' [Hj Hd]. split.
    + intros j Hlt'. rewrite Hj by lia. simpl. apply list_lookup_insert_ne; lia.
    + intros ->. unfold mbind, prog_bind. rewrite (on_sequence_done i finished r' q' true); [by apply Hd| |done].
      rewrite Hj by lia. simpl. by apply list_lookup_insert_eq.
  - apply post_ret. split; [intros j Hj; simpl; apply list_lookup_insert_ne; lia|]. intros _.
    unfold mbind, prog_bind. erewrite (on_sequence_done i finished _ q' false); [done| |done].
    simpl. by apply list_lookup_insert_eq.
Qed.
Lemma all_finished_length n i r : post (all_finished n i) (λ _ r', length (sequences_ r') = length (sequences_ r) ∧ best_of r' = best_of r) r.
Proof.
  revert i r. induction n as [|n IH]; intros i r; simpl; [by apply post_ret|]. apply post_bind, post_on_sequence.
  intros q Hq. eapply post_mono; [apply finished_post|]. intros b q' _.
  destruct b; [|by apply post_ret; simpl; rewrite length_insert].
  eapply post_mono; [apply IH|]. intros b r' [-> ->]. simpl. by rewrite length_insert.
Qed.
Lemma request_finished_settles r :
  Forall status_ok (sequences_ r) →
  post request_finished (λ b r', b = false → request_finished r' = Done false r') r.
Proof.
  intros Hok. unfold request_finished at 1. apply post_bind, post_get. destruct (_ <? _)%nat eqn:E.
  { apply post_ret. intros _. unfold request_finished, mbind, prog_bind, get. by rewrite E. }
  eapply post_mono; [apply (post_and _ _ _ _ (all_finished_settles _ 0 r Hok) (all_finished_length _ 0 r))|].
  intros b r' [[_ Hd] [Hl Hb]] ->. unfold request_finished, mbind, prog_bind, get. rewrite Hl, Hb, E. by apply Hd.
Qed.
End settling.

(** ** Operations on one request *)

Section operations.
Context `{FloatOps F} `{KVCacheManager K T F} `{!KVCacheManagerLaws}.
Implicit Types (r : Request T F) (q : Sequence T F) (k : K).

(** An operation of the manager that may run on any sequence *)
Definition lawful {A} (m : prog (K * Sequence T F) A) : Prop :=
  ∀ k q qs, kv_inv k (q :: qs) → wp m (λ _ s', kv_inv s'.1 (s'.2 :: qs) ∧ untouched q s'.2) (k, q).

(** The manager and the request are well-formed, with the other sequences [others]. *)
Definition held (prefix : bool) (others : list (Sequence T F)) k r : Prop :=
  kv_inv k (sequences_ r ++ others) ∧ request_ok prefix r.
(** [m] returns and keeps that. *)
Definition keeps (prefix : bool) (others : list (Sequence T F)) {A} (m : prog (K * Request T F) A)
    (R : A → Request T F → Prop) k r : Prop :=
  wp m (λ a kr, held prefix others kr.1 kr.2 ∧ kept r kr.2 ∧ R a kr.2) (k, r).
Definition keeps_req (prefix : bool) (others : list (Sequence T F)) k {A} (m : prog (Request T F) A)
    (R : A → Request T F → Prop) r : Prop :=
  wp m (λ a r', held prefix others k r' ∧ kept r r' ∧ R a r') r.
Lemma req_op_keeps {A} prefix others (m : prog (Request T F) A) R k r :
  keeps_req prefix others k m R r → keeps prefix others (req_op m) R k r.
Proof. intros Hm. unfold keeps, req_op. apply wp_zoom. exact Hm. Qed.
Lemma keeps_bind {A B} prefix others (m : prog (K * Request T F) A) (f : A → prog (K * Request T F) B) R R' k r :
  keeps prefix others m R k r →
  (∀ a k' r', held prefix others k' r' → kept r r' → R a r' → keeps prefix others (f a) R' k' r') →
  keeps prefix others (m ≫= f) R' k r.
Proof.
  intros Hm Hf. unfold keeps. apply wp_bind. eapply wp_mono; [exact Hm|]. intros a [k' r'] (Hh & Hk & HR).
  eapply wp_mono; [by apply Hf|]. intros b kr (Hh' & Hk' & HR'). split; [done|]. split; [by etrans|done].
Qed.
Lemma keeps_req_bind {A B} prefix others k (m : prog (Request T F) A) (f : A → prog (Request T F) B) R R' r :
  keeps_req prefix others k m R r →
  (∀ a r', held prefix others k r' → kept r r' → R a r' → keeps_req prefix others k (f a) R' r') →
  keeps_req prefix others k (m ≫= f) R' r.
Proof.
  intros Hm Hf. unfold keeps_req. apply wp_bind. eapply wp_mono; [exact Hm|]. intros a r' (Hh & Hk & HR).
  eapply wp_mono; [by apply Hf|]. intros b r2 (Hh' & Hk' & HR'). split; [done|]. split; [by etrans|done].
Qed.

Lemma insert_inv k l others i q q' k' :
  l !! i = Some q →
  (kv_inv k (q :: delete i l ++ others) → kv_inv k' (q' :: delete i l ++ others)) →
  kv_inv k (l ++ others) → kv_inv k' (<[i := q']> l ++ others).
Proof.
  intros Hi Himp Hk. pose proof (lookup_lt_Some _ _ _ Hi) as Hlt.
  assert (<[i := q']> l ≡ₚ q' :: delete i l) as ->.
  { rewrite (delete_Permutation _ i q') by (by apply list_lookup_insert_eq).
    by rewrite !delete_take_drop, take_insert_ge, drop_insert_lt by lia. }
  apply Himp. change (kv_inv k ((q :: delete i l) ++ others)). by rewrite <-(delete_Permutation _ _ _ Hi).
Qed.
Lemma request_ok_insert prefix r i q q' :
  sequences_ r !! i = Some q → same_text q q' → (status_ok q → status_ok q') → request_ok prefix r →
  request_ok prefix (set_sequences (<[i := q']> (sequences_ r)) r) ∧
  kept r (set_sequences (<[i := q']> (sequences_ r)) r).
Proof.
  intros Hi Ht Hst Hr. assert (kept r (set_sequences (<[i := q']> (sequences_ r)) r)) as Hk
    by (apply kept_set, length_insert). split; [|done].
  eapply request_ok_kept; [exact Hk|exact Hr|]. apply Forall_insert; [apply Hr|].
  eapply same_text_fine; [exact Ht|exact Hst|]. eapply (Forall_lookup_1 _ _ i); [apply Hr|exact Hi].
Qed.
Lemma seq_kv_keeps {A} prefix others i (m : prog (K * Sequence T F) A) (R : A → Request T F → Prop) k r q :
  sequences_ r !! i = Some q → held prefix others k r →
  (∀ qs, kv_inv k (q :: qs) → wp m (λ a s', kv_inv s'.1 (s'.2 :: qs) ∧ untouched q s'.2 ∧
     R a (set_sequences (<[i := s'.2]> (sequences_ r)) r)) (k, q)) →
  keeps prefix others (seq_kv i m) R k r.
Proof.
  intros Hi [Hk Hr] Hm. unfold keeps, seq_kv. apply wp_bind, wp_get, wp_bind. eapply wp_at; [exact Hi|]. apply wp_zoom.
  assert (kv_inv k (q :: delete i (sequences_ r) ++ others)) as Hk' by (by rewrite (delete_Permutation _ _ _ Hi) in Hk).
  eapply wp_mono; [exact (Hm _ Hk')|]. intros a [k' q'] (Hinv & [Ht E] & HR). simpl in *.
  destruct (request_ok_insert prefix r i q q' Hi Ht) as [? ?]; [by unfold status_ok; rewrite E|done|].
  split; [|done]. split; [|done]. by eapply insert_inv.
Qed.
Lemma lawful_keeps {A} prefix others i (m : prog (K * Sequence T F) A) k r :
  lawful m → (i < length (sequences_ r))%nat → held prefix others k r →
  keeps prefix others (seq_kv i m) (λ _ _, True) k r.
Proof.
  intros Hm Hi Hh. destruct (lookup_lt_is_Some_2 _ _ Hi) as [q Hq].
  eapply seq_kv_keeps; [done..|]. intros qs Hqs. eapply wp_mono; [by apply Hm|]. naive_solver.
Qed.
(** An operation of the request that changes the status of one sequence *)
Lemma on_sequence_keeps {A} prefix others i (m : prog (Sequence T F) A) (R : A → Request T F → Prop) k r q :
  sequences_ r !! i = Some q → held prefix others k r →
  wp m (λ a q', same_kv q q' ∧ (status_ok q → status_ok q') ∧ R a (set_sequences (<[i := q']> (sequences_ r)) r)) q →
  keeps_req prefix others k (on_sequence i m) R r.
Proof.
  intros Hi [Hk Hr] Hm. unfold keeps_req. eapply wp_on_sequence; [exact Hi|].
  eapply wp_mono; [exact Hm|]. intros a q' (Hs & Hst & HR). cbv beta.
  destruct (request_ok_insert prefix r i q q' Hi (sk_text _ _ Hs) Hst Hr) as [? ?].
  split; [|done]. split; [|done]. simpl. eapply insert_inv; [exact Hi|by apply kv_inv_same|done].
Qed.

Lemma held_status prefix others k r : held prefix others k r → Forall status_ok (sequences_ r).
Proof. intros [_ Hr]. eapply Forall_impl; [apply Hr|]. by intros q []. Qed.
Lemma finished_keeps prefix others i k r :
  (i < length (sequences_ r))%nat → held prefix others k r →
  keeps_req prefix others k (on_sequence i finished) (λ _ _, True) r.
Proof.
  intros Hi Hh. destruct (lookup_lt_is_Some_2 _ _ Hi) as [q Hq].
  assert (seq_fine r q) as [Hs Hc _ _] by (eapply Forall_lookup_1; [apply Hh|done]).
  eapply on_sequence_keeps; [done..|]. eapply wp_mono.
  { apply wp_post; [by apply finished_returns|by apply finished_settles]. }
  intros b q' [Hst [Hs' _]]. split; [by apply same_but_status_kv|done].
Qed.
Lemma all_finished_keeps prefix others k n i r :
  (i + n ≤ length (sequences_ r))%nat → held prefix others k r →
  keeps_req prefix others k (all_finished n i) (λ _ _, True) r.
Proof.
  revert i r. induction n as [|n IH]; intros i r Hi Hh; simpl; [by apply wp_ret|].
  eapply keeps_req_bind; [apply finished_keeps; [lia|done]|]. intros b r' Hh' Hk _.
  destruct b; [|by apply wp_ret]. apply IH; [|done]. rewrite (kp_length _ _ Hk). lia.
Qed.
(** [finished()] returns, and its answer [false] stays. *)
Lemma request_finished_keeps prefix others k r :
  held prefix others k r →
  keeps_req prefix others k request_finished (λ f r', f = false → request_finished r' = Done false r') r.
Proof.
  intros Hh. unfold keeps_req.
  assert (keeps_req prefix others k request_finished (λ _ _, True) r) as Hw.
  { unfold keeps_req, request_finished. apply wp_bind, wp_get. case_match; [by apply wp_ret|].
    by apply all_finished_keeps. }
  eapply wp_mono; [apply (wp_post _ _ _ _ Hw (request_finished_settles r (held_status _ _ _ _ Hh)))|]. naive_solver.
Qed.
(** [deallocate(request)] *)
Lemma lawful_deallocate : lawful kvm_deallocate.
Proof. intros k q qs. apply kv_deallocate_law. Qed.
Lemma lawful_cache : lawful kvm_cache.
Proof. intros k q qs. apply kv_cache_law. Qed.
Lemma deallocate_keeps prefix others k r :
  held prefix others k r → keeps prefix others kvm_deallocate_request (λ _ _, True) k r.
Proof.
  intros Hh. unfold keeps, kvm_deallocate_request. apply wp_bind, wp_get. simpl.
  apply (wp_mono _ (λ _ kr, held prefix others kr.1 kr.2 ∧ kept r kr.2)); [|naive_solver].
  eapply wp_mono; [apply (wp_for_each _ _ (λ l kr, (held prefix others kr.1 kr.2 ∧ kept r kr.2) ∧
    Forall (λ i, i < length (sequences_ r))%nat l))|by intros [] kr [? _]].
  - split; [done|]. apply Forall_forall. intros i Hi%elem_of_seq. lia.
  - intros i l [k' r'] [[Hh' Hk] [Hi Hl]%Forall_cons]. simpl in *.
    eapply wp_mono; [apply (lawful_keeps prefix others i _ k' r' lawful_deallocate); [|done]|].
    { by rewrite (kp_length _ _ Hk). }
    intros u kr (Hh2 & Hk2 & _). split; [split; [done|by etrans]|done].
Qed.

Lemma if_cache_keeps prefix others i k r :
  (i < length (sequences_ r))%nat → held prefix others k r →
  keeps_req prefix others k (on_sequence i if_cache_block_for_prefill) (λ _ _, True) r.
Proof.
  intros Hi Hh. destruct (lookup_lt_is_Some_2 _ _ Hi) as [q Hq]. eapply on_sequence_keeps; [done..|].
  unfold if_cache_block_for_prefill. wp_steps. split; [by repeat constructor|done].
Qed.
Lemma map_inv k (f : Sequence T F → Sequence T F) l others :
  (∀ q, same_kv q (f q)) → kv_inv k (l ++ others) → kv_inv k ((f <$> l) ++ others).
Proof.
  intros Hf. revert others. induction l as [|q l IH]; intros others Hk; [done|]. simpl in *.
  apply (kv_inv_same k q); [done|]. rewrite Permutation_middle. apply IH. by rewrite <-Permutation_middle.
Qed.
Lemma preempted_keeps prefix others k r :
  held prefix others k r → keeps prefix others (req_op (modify set_preempted)) (λ _ r', preempted r' = true) k r.
Proof.
  intros [Hk Hr]. apply req_op_keeps. apply wp_modify. assert (kept r (set_preempted r)) by (by constructor).
  split; [|done]. split; [done|]. eapply request_ok_kept; [done|done|apply Hr].
Qed.
Lemma connection_keeps prefix others k r d :
  held prefix others k r → keeps prefix others (req_op (modify (update_connection_status d))) (λ _ _, True) k r.
Proof.
  intros [Hk Hr]. apply req_op_keeps, wp_modify.
  unfold update_connection_status. destruct (negb (has_call r)); [done|]. destruct (negb d); [done|].
  assert (kept r (set_cancel r)) by (constructor; try done; simpl; by rewrite length_fmap).
  split; [|done]. split; [apply map_inv; [by repeat constructor|done]|].
  eapply request_ok_kept; [done|done|]. apply Forall_fmap. eapply Forall_impl; [apply Hr|].
  intros q. by apply same_text_fine.
Qed.

(** Expansion adds new sequences up to [best_of]. *)
Record expanded r r' : Prop := {
  ex_param : scheduler_param r' = scheduler_param r;
  ex_params : params_ r' = params_ r;
  ex_best : best_of r' = best_of r;
  ex_prompt : prompt_tokens_ r' = prompt_tokens_ r;
  ex_preempted : preempted r' = preempted r;
  ex_length : (length (sequences_ r) ≤ length (sequences_ r'))%nat;
}.
#[export] Instance expanded_preorder : PreOrder expanded.
Proof. split; [by constructor|]. intros r1 r2 r3 [] []. constructor; by etrans. Qed.
Lemma Sequence_new_fine {St} prefix r i d (s : St) :
  request_ok prefix r →
  wp (Sequence_new (T := T) i (prompt_tokens_ r) d (params_ r)) (λ q s', s' = s ∧ unused q ∧ seq_fine r q) s.
Proof.
  intros Hr. destruct (ro_real _ _ Hr) as (t & Ht & Hpos). pose proof (ro_prompt _ _ Hr) as Hp.
  unfold Sequence_new. rewrite Ht. apply wp_bind, wp_check; [apply Nat.ltb_lt; lia|]. apply wp_ret.
  split; [done|]. split; [constructor; try done; [apply Hr|simpl; rewrite length_app; lia|simpl; rewrite length_app, length_replicate; pose proof (ro_capacity _ _ Hr); lia]|].
  assert (length (prompt_tokens_ r ++ replicate (seq_capacity (params_ r) - length (prompt_tokens_ r)) 0) = seq_capacity (params_ r)) as Hl
    by (rewrite length_app, length_replicate; lia).
  constructor; [done|constructor; simpl|done|exact Hl]; [lia|rewrite Hl; lia| |apply Hr].
  exists t. split; [|done]. rewrite last_lookup in Ht. rewrite lookup_app_l by lia.
  rewrite <-Ht. f_equal. lia.
Qed.
Lemma add_expands prefix others k r :
  held prefix others k r → (length (sequences_ r) < best_of r)%nat →
  wp add (λ _ r', held prefix others k r' ∧ expanded r r' ∧ length (sequences_ r') = S (length (sequences_ r))) r.
Proof.
  intros [Hk Hr] Hlt. unfold add. apply wp_bind, wp_get, wp_bind.
  eapply wp_mono; [by apply (Sequence_new_fine prefix)|]. intros q r' (-> & Hu & Hq). apply wp_modify. simpl.
  rewrite length_app. simpl. split; [|split; [constructor; try done; simpl; rewrite length_app; lia|lia]].
  split; [simpl; rewrite <-app_assoc; simpl; rewrite <-Permutation_middle; by apply kv_inv_new|].
  destruct Hr. constructor; try done; simpl.
  - rewrite length_app. simpl. lia.
  - apply Forall_app. split; [eapply Forall_impl; [done|]; intros q'; by apply seq_fine_kept|].
    apply Forall_singleton. by apply (seq_fine_kept r).
Qed.
Lemma add_sequences_expands prefix others k n r :
  held prefix others k r → (length (sequences_ r) + n ≤ best_of r)%nat →
  wp (add_sequences n) (λ _ r', held prefix others k r' ∧ expanded r r') r.
Proof.
  revert r. induction n as [|n IH]; intros r Hh Hn; simpl; [by apply wp_ret|]. apply wp_bind.
  eapply wp_mono; [apply (add_expands prefix others k); [done|lia]|]. intros u r' (Hh' & He & Hl).
  eapply wp_mono; [apply IH; [done|rewrite Hl, (ex_best _ _ He); lia]|]. intros u' r2 [? ?]. split; [done|by etrans].
Qed.
Lemma expand_expands prefix others k share r :
  held prefix others k r →
  wp (expand_sequences share) (λ b r', held prefix others k r' ∧ expanded r r' ∧ (prefix = false → r' = r)) r.
Proof.
  intros Hh. pose proof Hh as [Hk Hr]. pose proof (ro_size _ _ Hr) as Hs. unfold expand_sequences.
  apply wp_bind, wp_get. rewrite (ro_beam _ _ Hr). destruct (_ =? _)%nat eqn:E1; [by apply wp_ret|].
  apply Nat.eqb_neq in E1. destruct (_ <? _)%nat eqn:E2; [apply Nat.ltb_lt in E2; lia|].
  destruct (sequences_ r) as [|q l] eqn:El; [simpl in Hs; lia|]. destruct (_ || _); [|by apply wp_ret].
  apply wp_bind. rewrite <-El in *. eapply wp_mono; [apply (add_sequences_expands prefix others k); [done|lia]|].
  intros u r' [? ?]. apply wp_ret. split; [done|]. split; [done|]. intros Hp. pose proof (ro_expand _ _ Hr Hp). lia.
Qed.
End operations.

(** ** Operations of the scheduler *)

Section scheduler.
Context `{FloatOps F} `{DoubleOps D} `{ProfileManager D} `{PriorityQueueLaws}.
Context `{KVCacheManager K T F} `{!KVCacheManagerLaws}.
Abbreviation Sched := (Scheduler.Sched (F := F) (K := K) (T := T)).
Implicit Types (s : Sched) (r : Request T F) (id i : nat) (off : bool).
Implicit Types (b : Budgets (D := D)) (c : Candidates (D := D)) (p : PrefillLoop (D := D)).

(** All the sequences the manager serves *)
Definition all_seqs (m : gmap nat (Request T F)) : list (Sequence T F) := concat (sequences_ <$> (map_to_list m).*2).
Lemma all_seqs_insert id r m :
  m !! id = None → all_seqs (<[id := r]> m) ≡ₚ sequences_ r ++ all_seqs m.
Proof. intros Hm. unfold all_seqs. by rewrite map_to_list_insert. Qed.
Abbreviation prefix_of s := (so_enable_prefix_cache (options_ s)).
Record sane s : Prop := {
  sn_inv : kv_inv (kv_cache_manager_ s) (all_seqs (requests s));
  sn_requests : map_Forall (λ _, request_ok (prefix_of s)) (requests s);
}.
(** Nothing changes but the manager and what an operation may change of the requests. *)
Record calm s s' : Prop := {
  cm_quiet : quiet s s';
  cm_kept id r : requests s !! id = Some r → ∃ r', requests s' !! id = Some r' ∧ kept r r';
  cm_from id r' : requests s' !! id = Some r' → ∃ r, requests s !! id = Some r ∧ kept r r';
}.
#[export] Instance calm_preorder : PreOrder calm.
Proof.
  split; [constructor; [done|..]; intros id r ?; by exists r|]. intros s1 s2 s3 [Q1 K1 B1] [Q2 K2 B2].
  constructor; [by etrans|..]; intros id r Hr.
  - destruct (K1 id r Hr) as (r2 & Hr2 & Hk). destruct (K2 id r2 Hr2) as (r3 & ? & ?). exists r3. split; [done|by etrans].
  - destruct (B2 id r Hr) as (r2 & Hr2 & Hk). destruct (B1 id r2 Hr2) as (r1 & ? & ?). exists r1. split; [done|by etrans].
Qed.
Definition upd id (k : K) r s : Sched := set_kvm k (set_requests (<[id := r]> (requests s)) s).
Lemma sane_held s id r :
  sane s → requests s !! id = Some r →
  ∃ others, held (prefix_of s) others (kv_cache_manager_ s) r ∧
    ∀ k' r', held (prefix_of s) others k' r' → sane (upd id k' r' s).
Proof.
  intros [Hinv Hreq] Hr. exists (all_seqs (delete id (requests s))).
  assert (delete id (requests s) !! id = None) as Hd by apply lookup_delete_eq. split.
  - split; [|by apply (Hreq id)]. by rewrite <-(insert_delete_id _ _ _ Hr), all_seqs_insert in Hinv.
  - intros k' r' [Hk' Hr']. constructor; simpl; [|by apply map_Forall_insert_2].
    rewrite <-insert_delete_eq. by rewrite all_seqs_insert.
Qed.
Lemma upd_calm s id r k' r' : requests s !! id = Some r → kept r r' → calm s (upd id k' r' s).
Proof.
  intros Hr Hk. constructor.
  - constructor; try done; [|by intros []..]. simpl. rewrite fmap_insert. apply insert_id.
    rewrite lookup_fmap, Hr. simpl. unfold req_static. by rewrite (kp_param _ _ Hk), (kp_params _ _ Hk), (kp_best _ _ Hk).
  - intros j rj Hj. simpl. destruct (decide (j = id)) as [->|Hne].
    + rewrite lookup_insert_eq. simplify_eq. by eexists.
    + rewrite lookup_insert_ne by done. by exists rj.
  - intros j rj. simpl. destruct (decide (j = id)) as [->|Hne].
    + rewrite lookup_insert_eq. intros [= <-]. by eexists.
    + rewrite lookup_insert_ne by done. intros ?. by exists rj.
Qed.
(** An operation on one request *)
Lemma on_request_wp {A} id (m : prog (K * Request T F) A) Q s r :
  requests s !! id = Some r →
  wp m (λ a kr, Q a (upd id kr.1 kr.2 s)) (kv_cache_manager_ s, r) → wp (on_request id m) Q s.
Proof. intros Hr Hm. unfold on_request, wp. rewrite Hr. by apply wp_zoom. Qed.
Lemma on_request_calm {A} id (m : prog (K * Request T F) A) (R : A → Request T F → Prop) s r :
  sane s → requests s !! id = Some r →
  (∀ others, held (prefix_of s) others (kv_cache_manager_ s) r →
     keeps (prefix_of s) others m R (kv_cache_manager_ s) r) →
  wp (on_request id m) (λ a s', sane s' ∧ calm s s' ∧ (∃ k' r', s' = upd id k' r' s ∧ kept r r' ∧ R a r')) s.
Proof.
  intros Hs Hr Hm. destruct (sane_held _ _ _ Hs Hr) as (others & Hh & Hback).
  eapply on_request_wp; [done|]. eapply wp_mono; [by apply Hm|]. intros a [k' r'] (Hh' & Hk & HR). simpl in *.
  split; [by apply Hback|]. split; [by eapply upd_calm|]. eauto.
Qed.
(** The same without a statement about the request *)
Lemma on_request_sane {A} id (m : prog (K * Request T F) A) (R : A → Request T F → Prop) s :
  sane s → is_Some (requests s !! id) →
  (∀ r others, requests s !! id = Some r → held (prefix_of s) others (kv_cache_manager_ s) r →
     keeps (prefix_of s) others m R (kv_cache_manager_ s) r) →
  wp (on_request id m) (λ a s', sane s' ∧ calm s s') s.
Proof.
  intros Hs [r Hr] Hm. eapply wp_mono; [eapply (on_request_calm id m R); [done..|]; intros; by apply Hm|]. naive_solver.
Qed.
Lemma get_request_wp id s r Q : requests s !! id = Some r → Q r s → wp (get_request id) Q s.
Proof.
  intros Hr HQ. unfold get_request. eapply on_request_wp; [done|]. apply wp_gets. simpl. unfold upd. rewrite insert_id by done.
  by destruct s.
Qed.
Lemma get_sequence_wp id i s r q Q :
  requests s !! id = Some r → sequences_ r !! i = Some q → Q q s → wp (get_sequence id i) Q s.
Proof.
  intros Hr Hq HQ. unfold get_sequence, on_seq_kv. eapply on_request_wp; [done|]. unfold seq_kv.
  apply wp_bind, wp_get, wp_bind. eapply wp_at; [done|]. apply wp_zoom, wp_gets. simpl. unfold upd.
  rewrite list_insert_id, insert_id by (done || by destruct r). by destruct s.
Qed.
Lemma calm_known s s' id : calm s s' → is_Some (requests s !! id) → is_Some (requests s' !! id).
Proof. intros Hc [r Hr]. destruct (cm_kept _ _ Hc id r Hr) as (r' & ? & _). by eexists. Qed.

(** [deallocate], [finished] and the operations of the manager on known requests *)
Lemma deallocate_request_sane id s :
  sane s → is_Some (requests s !! id) → wp (deallocate_request id) (λ _ s', sane s' ∧ calm s s') s.
Proof. intros Hs Hid. eapply on_request_sane; [done..|]. intros r others _ Hh. by apply deallocate_keeps. Qed.
Lemma seq_finished_sane id i s r :
  sane s → requests s !! id = Some r → (i < length (sequences_ r))%nat →
  wp (seq_finished id i) (λ _ s', sane s' ∧ calm s s') s.
Proof.
  intros Hs Hr Hi. eapply on_request_sane; [done..|]. intros r' others ? Hh. simplify_eq.
  apply req_op_keeps. by apply finished_keeps.
Qed.
Lemma on_seq_kv_sane {A} id i (m : prog (K * Sequence T F) A) s r :
  lawful m → sane s → requests s !! id = Some r → (i < length (sequences_ r))%nat →
  wp (on_seq_kv id i m) (λ _ s', sane s' ∧ calm s s') s.
Proof.
  intros Hm Hs Hr Hi. eapply on_request_sane; [done..|]. intros r' others ? Hh. simplify_eq. by apply lawful_keeps.
Qed.
Lemma lawful_allocate n : 0 < n < 2 ^ 28 → lawful (kvm_allocate n).
Proof. intros Hn k q qs Hk. by apply kv_allocate_law. Qed.
(** [finished() || cancelled()]: the answer stays. *)
Definition ready s id : Prop := ∀ r, requests s !! id = Some r → request_finished r = Done false r ∧ cancelled r = false.
Lemma finished_or_cancelled_sane id s :
  sane s → is_Some (requests s !! id) →
  wp (finished_or_cancelled id)
    (λ f s', sane s' ∧ calm s s' ∧ (∀ j, j ≠ id → requests s' !! j = requests s !! j) ∧ (f = false → ready s' id)) s.
Proof.
  intros Hs [r Hr]. eapply wp_mono.
  { eapply (on_request_calm id _ (λ f r', f = false → request_finished r' = Done false r' ∧ cancelled r' = false)); [done..|].
    intros others Hh. apply req_op_keeps. eapply keeps_req_bind; [by apply request_finished_keeps|].
    intros f r' Hh' Hk Hd. destruct f; [by apply wp_ret|]. apply wp_gets. split; [done|]. split; [done|].
    intros Hc. split; [by apply Hd|done]. }
  intros f s' (Hs' & Hc & k' & r' & -> & _ & HR). split; [done|]. split; [done|]. split.
  - intros j Hj. simpl. by apply lookup_insert_ne.
  - intros Hf r2. simpl. rewrite lookup_insert_eq. intros [= <-]. by apply HR.
Qed.

(** ** The sequences of a request *)

(** [min_speculative_tokens_required_] and the options a safe configuration has.  When
    [cf_overhead] fails the loop of [handle_prefill_requests] does not run, and a request that
    waits for an idle scheduler ends the process (continuous_scheduler.cpp:428). *)
Record config_ok (o : SchedOptions) (min : Z) : Prop := {
  cf_latency : enable_latency_aware_schedule o = false;
  cf_cp : cp_size o ≤ 2 ^ 25;
  cf_spec : 0 ≤ min < 2 ^ 26;
  cf_tokens : 0 < max_tokens_per_batch o < 2 ^ 31;
  cf_seqs : max_seqs_per_batch o < 2 ^ 31;
  cf_overhead : d_ltb constant_overhead (d_of_int (D := D) (max_global_ttft_ms o)) = true;
}.
Abbreviation configured s := (config_ok (options_ s) (min_speculative_tokens_required_ s)).
(** [request->sequences()[i]] exists. *)
Definition live s id i : Prop := ∃ r, requests s !! id = Some r ∧ (i < length (sequences_ r))%nat.
Lemma calm_live s s' id i : calm s s' → live s id i → live s' id i.
Proof.
  intros Hc (r & Hr & Hi). destruct (cm_kept _ _ Hc id r Hr) as (r' & Hr' & Hk). exists r'.
  split; [done|]. by rewrite (kp_length _ _ Hk).
Qed.
Lemma calm_lives s s' id l : calm s s' → Forall (live s id) l → Forall (live s' id) l.
Proof. intros Hc Hl. eapply Forall_impl; [exact Hl|]. intros i. by apply calm_live. Qed.
Lemma calm_configured s s' : calm s s' → configured s → configured s'.
Proof. intros [Q _ _]. by rewrite (qt_options _ _ Q), (qt_min _ _ Q). Qed.
Lemma live_sequence s id i :
  sane s → live s id i →
  ∃ r q, requests s !! id = Some r ∧ sequences_ r !! i = Some q ∧ seq_fine r q ∧ offline r = false ∧
    0 ≤ cached_num q < Z.of_nat (num_tokens_ (toks q)) ∧ 0 < Z.of_nat (num_tokens_ (toks q)) ≤ 2 ^ 26.
Proof.
  intros Hs (r & Hr & Hi). destruct (lookup_lt_is_Some_2 _ _ Hi) as [q Hq]. exists r, q.
  destruct (sane_held _ _ _ Hs Hr) as (others & [Hinv Hok] & _).
  assert (seq_fine r q) as Hf by (eapply Forall_lookup_1; [apply Hok|done]).
  do 3 (split; [done|]). split; [apply Hok|]. rewrite (delete_Permutation _ _ _ Hq) in Hinv. simpl in Hinv.
  split; [by eapply kv_inv_tokens|]. destruct Hf as [_ [Hpr Hb _ _] _ Hl]. pose proof (ro_capacity _ _ Hok). lia.
Qed.
Lemma live_request s id i : live s id i → is_Some (requests s !! id).
Proof. intros (r & ? & _). by eexists. Qed.
Lemma on_seq_kv_live {A} id i (m : prog (K * Sequence T F) A) s :
  lawful m → sane s → live s id i → wp (on_seq_kv id i m) (λ _ s', sane s' ∧ calm s s') s.
Proof. intros Hm Hs (r & Hr & Hi). by eapply on_seq_kv_sane. Qed.
Lemma seq_finished_live id i s : sane s → live s id i → wp (seq_finished id i) (λ _ s', sane s' ∧ calm s s') s.
Proof. intros Hs (r & Hr & Hi). by eapply seq_finished_sane. Qed.

(** A request takes no more than the budgets. *)
Definition bounded b : Prop := 0 ≤ remaining_token_budget b < 2 ^ 32 ∧ 0 ≤ remaining_seq_budget b < 2 ^ 32.
Record within b s id c : Prop := {
  wt_tokens : 0 ≤ allocated_tokens c ≤ remaining_token_budget b;
  wt_seqs : 0 ≤ allocated_seqs c ≤ remaining_seq_budget b;
  wt_live : Forall (λ x, x.1 = id ∧ live s x.1 x.2) (candidate_sequences c);
  wt_none : candidate_sequences c = [] → c = Candidates_none;
}.
Lemma within_none b s id : bounded b → within b s id Candidates_none.
Proof. intros [? ?]. constructor; simpl; try done; lia. Qed.
Lemma within_calm b s s' id c : calm s s' → within b s id c → within b s' id c.
Proof.
  intros Hc [Ht Hs Hl Hn]. constructor; try done. eapply Forall_impl; [exact Hl|]. intros x [? ?]. split; [done|by eapply calm_live].
Qed.
Lemma within_add b s id i n d c :
  within b s id c → live s id i → 0 ≤ n → u64 (allocated_tokens c + n) ≤ remaining_token_budget b →
  u64 (allocated_seqs c + 1) ≤ remaining_seq_budget b → within b s id (add_candidate id i n d c).
Proof.
  intros [Ht Hs Hl Hn] Hi Hpos Ht' Hs'. pose proof (u64_range (allocated_tokens c + n)). pose proof (u64_range (allocated_seqs c + 1)).
  constructor; simpl; [lia|lia| |by intros []%app_eq_nil]. apply Forall_app. split; [done|]. by apply Forall_singleton.
Qed.
Lemma align_bound o (q : Sequence T F) n :
  cp_size o ≤ 2 ^ 25 → 0 ≤ n ≤ 2 ^ 26 → n ≤ maybe_align_cp_prefill_tokens o q n < 2 ^ 27 + 1.
Proof.
  intros Hc Hn. unfold maybe_align_cp_prefill_tokens. destruct (_ || _) eqn:E; [lia|].
  apply orb_false_iff in E as [E1 E2]. apply Z.leb_gt in E1.
  destruct (enable_chunked_prefill o); [lia|]. destruct (negb _); [lia|].
  assert (n ≤ align_up n (u64 (cp_size o * 2)) < 2 ^ 27 + 1) as Ha.
  { rewrite u64_id by lia. unfold align_up. set (a := cp_size o * 2) in *.
    destruct (a =? 0) eqn:E; [lia|].
    pose proof (Z.div_mod (n + a - 1) a ltac:(lia)). pose proof (Z.mod_pos_bound (n + a - 1) a ltac:(lia)).
    rewrite Z.mul_comm. lia. }
  rewrite u64_id; lia.
Qed.
Lemma prefill_allocate_live id i n s :
  sane s → live s id i → running_queue_offline_ s = [] → 0 < n < 2 ^ 28 →
  wp (prefill_allocate id i n) (λ _ s', sane s' ∧ calm s s') s.
Proof.
  intros Hs Hl Ho Hn. unfold prefill_allocate. apply wp_bind.
  eapply wp_mono; [apply (on_seq_kv_live id i _ s (lawful_allocate n Hn)); done|]. intros ok s1 [Hs1 Hc1].
  destruct ok; [by apply wp_ret|]. destruct (live_request _ _ _ (calm_live _ _ _ _ Hc1 Hl)) as [r Hr].
  apply wp_bind. eapply get_request_wp; [done|]. apply wp_bind, wp_get.
  pose proof (qt_running _ _ (cm_quiet _ _ Hc1) true) as E. simpl in E. rewrite E, Ho, andb_false_r. by apply wp_ret.
Qed.

Lemma prefill_loop_safe b id l c s :
  sane s → configured s → running_queue_offline_ s = [] → bounded b →
  Forall (live s id) l → within b s id c →
  wp (prefill_loop b id l c) (λ res s', sane s' ∧ calm s s' ∧ within b s' id res.2) s.
Proof.
  revert c s. induction l as [|i l IH]; intros c s Hs Hcf Ho Hb Hl Hw; simpl; [by apply wp_ret|].
  apply Forall_cons in Hl as [Hi Hl]. apply wp_bind. eapply wp_mono; [by apply seq_finished_live|]. intros f s1 [Hs1 Hc1].
  assert (∀ s', calm s s' → configured s' ∧ running_queue_offline_ s' = [] ∧ live s' id i ∧ Forall (live s' id) l ∧ within b s' id c) as Hall.
  { intros s' Hc. pose proof (qt_running _ _ (cm_quiet _ _ Hc) true) as E. simpl in E. rewrite E.
    split; [by eapply calm_configured|]. split; [done|]. split; [by eapply calm_live|]. split; [by eapply calm_lives|by eapply within_calm]. }
  destruct (Hall s1 Hc1) as (Hcf1 & Ho1 & Hi1 & Hl1 & Hw1).
  assert (∀ c s2, sane s2 → calm s s2 → within b s2 id c →
    wp (prefill_loop b id l c) (λ res s', sane s' ∧ calm s s' ∧ within b s' id res.2) s2) as Hgo.
  { intros c' s2 Hs2 Hc2 Hw2. destruct (Hall s2 Hc2) as (? & ? & _ & ? & _). eapply wp_mono; [by apply IH|].
    intros res s' (? & ? & ?). split; [done|]. split; [by etrans|done]. }
  destruct f; [by apply Hgo|].
  destruct (live_sequence s1 id i Hs1 Hi1) as (r & q & Hr & Hq & _ & _ & Hk & Hn).
  apply wp_bind. eapply get_sequence_wp; [done..|]. apply wp_bind, wp_gets. cbv zeta. fold (cached_num q).
  assert (num_need_compute_tokens q = Z.of_nat (num_tokens_ (toks q)) - cached_num q) as -> by (apply u64_id; unfold cached_num in *; lia).
  set (n := maybe_align_cp_prefill_tokens _ _ _).
  assert (Z.of_nat (num_tokens_ (toks q)) - cached_num q ≤ n < 2 ^ 27 + 1) as Hn1 by (apply align_bound; [apply Hcf1|lia]). rewrite (u64_id (cached_num q + n)) by lia.
  destruct (_ || _) eqn:Eb; [by apply wp_ret|]. apply orb_false_iff in Eb as [Et Eq]. apply Z.ltb_ge in Et, Eq.
  apply wp_bind. eapply wp_mono; [apply prefill_allocate_live; [done..|lia]|]. intros ok s2 [Hs2 Hc2].
  assert (calm s s2) as Hc02 by (by etrans). destruct (Hall s2 Hc02) as (Hcf2 & _ & Hi2 & _ & Hw2). destruct ok; simpl.
  - rewrite (cf_latency _ _ Hcf1). apply wp_bind, wp_ret. simpl. apply Hgo; [done|done|]. apply within_add; [done|done|lia|done|done].
  - apply wp_bind. eapply wp_mono; [apply (on_seq_kv_live id i _ s2 lawful_deallocate); done|]. intros u s3 [Hs3 Hc3].
    apply wp_ret. assert (calm s s3) as Hc03 by (by etrans). by destruct (Hall s3 Hc03) as (_ & _ & _ & _ & ?).
Qed.

Lemma decode_allocate_safe id i s :
  sane s → configured s → live s id i → wp (decode_allocate id i) (λ _ s', sane s' ∧ calm s s') s.
Proof.
  intros Hs Hcf Hi. destruct (live_sequence s id i Hs Hi) as (r & q & Hr & Hq & _ & _ & Hk & Hn). pose proof (cf_spec _ _ Hcf) as Hm.
  unfold decode_allocate. apply wp_bind. eapply get_sequence_wp; [done..|]. apply wp_bind, wp_get.
  unfold min_spec. rewrite (u64_id (min_speculative_tokens_required_ s)), u64_id by lia. apply wp_bind.
  eapply wp_mono; [apply (on_seq_kv_live id i); [apply lawful_allocate; lia|done..]|]. intros ok s1 [Hs1 Hc1].
  destruct ok; simpl; [|by apply wp_ret]. pose proof (calm_live _ _ _ _ Hc1 Hi) as Hi1. apply wp_bind.
  eapply wp_mono; [eapply (on_request_sane id _ (λ _ _, True)); [done|by eapply live_request|]|].
  { intros r' others Hr' Hh. apply req_op_keeps, if_cache_keeps; [|done]. destruct Hi1 as (r2 & ? & ?). by simplify_eq. }
  intros cb s2 [Hs2 Hc2]. assert (calm s s2) as Hc02 by (by etrans). apply wp_bind. destruct cb.
  - eapply wp_mono; [apply (on_seq_kv_live id i _ s2 lawful_cache); [done|by eapply calm_live]|].
    intros u s3 [? ?]. apply wp_ret. split; [done|by etrans].
  - by apply wp_ret, wp_ret.
Qed.
Lemma decode_loop_safe b id l c s :
  sane s → configured s → bounded b → Forall (live s id) l → within b s id c →
  wp (decode_loop b id l c) (λ res s', sane s' ∧ calm s s' ∧ within b s' id res.2) s.
Proof.
  revert c s. induction l as [|i l IH]; intros c s Hs Hcf Hb Hl Hw; simpl; [by apply wp_ret|].
  apply Forall_cons in Hl as [Hi Hl]. apply wp_bind. eapply wp_mono; [by apply seq_finished_live|]. intros f s1 [Hs1 Hc1].
  assert (∀ c s2, sane s2 → calm s s2 → within b s2 id c →
    wp (decode_loop b id l c) (λ res s', sane s' ∧ calm s s' ∧ within b s' id res.2) s2) as Hgo.
  { intros c' s2 Hs2 Hc2 Hw2. eapply wp_mono; [apply IH; [done|by eapply calm_configured|done|by eapply calm_lives|done]|].
    intros res s' (? & ? & ?). split; [done|]. split; [by etrans|done]. }
  pose proof (within_calm _ _ _ _ _ Hc1 Hw) as Hw1. destruct f; [by apply Hgo|].
  pose proof (calm_live _ _ _ _ Hc1 Hi) as Hi1. pose proof (calm_configured _ _ Hc1 Hcf) as Hcf1.
  destruct (live_sequence s1 id i Hs1 Hi1) as (r & q & Hr & Hq & _).
  apply wp_bind. eapply get_sequence_wp; [done..|]. apply wp_bind, wp_get, wp_bind.
  unfold decode_latency_aware. rewrite (cf_latency _ _ Hcf1). apply wp_ret. simpl.
  pose proof (cf_spec _ _ Hcf1) as Hm. unfold min_spec. rewrite (u64_id (min_speculative_tokens_required_ s1)) by lia.
  pose proof (wt_tokens _ _ _ _ Hw1). pose proof (wt_seqs _ _ _ _ Hw1). destruct Hb as [Hb1 Hb2].
  rewrite (u64_id (allocated_tokens c + _)) by lia. destruct (_ || _) eqn:Eb; [by apply wp_ret|].
  apply orb_false_iff in Eb as [Et Eq]. apply Z.leb_gt in Et, Eq.
  apply wp_bind. eapply wp_mono; [by apply decode_allocate_safe|]. intros ok s2 [Hs2 Hc2].
  assert (calm s s2) as Hc02 by (by etrans). pose proof (within_calm _ _ _ _ _ Hc2 Hw1) as Hw2.
  destruct ok; simpl; [|by apply wp_ret]. apply Hgo; [done|done|]. pose proof (calm_live _ _ _ _ Hc2 Hi1).
  rewrite (u64_id (_ + 1)) by lia. apply within_add; [done|done|lia|rewrite u64_id; lia|rewrite u64_id; lia].
Qed.

(** ** The queues *)

(** A request that waits has one sequence, or has been preempted. *)
Definition wait_ok r : Prop := preempted r = true ∨ length (sequences_ r) = 1%nat.
Definition waits s id : Prop := ∃ r, requests s !! id = Some r ∧ wait_ok r.
Record fine s : Prop := {
  fn_sane : sane s;
  fn_config : configured s;
  fn_waiting : Forall (waits s) (waiting_priority_queue_ s);
  fn_running : Forall (λ id, is_Some (requests s !! id)) (running_queue_ s);
  fn_nodup : NoDup (running_queue_ s);
  fn_no_waiting : waiting_priority_queue_offline_ s = [];
  fn_no_running : running_queue_offline_ s = [];
}.
(** The configuration stays, and the requests are what they were. *)
Record later s s' : Prop := {
  lt_options : options_ s' = options_ s;
  lt_min : min_speculative_tokens_required_ s' = min_speculative_tokens_required_ s;
  lt_queue : request_queue_ s' = request_queue_ s;
  lt_kept id r : requests s !! id = Some r → ∃ r', requests s' !! id = Some r' ∧ kept r r';
  lt_from id r' : requests s' !! id = Some r' → ∃ r, requests s !! id = Some r ∧ kept r r';
}.
#[export] Instance later_preorder : PreOrder later.
Proof.
  split; [constructor; try done; intros id r ?; by exists r|]. intros s1 s2 s3 [E1 M1 Q1 K1 B1] [E2 M2 Q2 K2 B2].
  constructor; [by etrans..| |]; intros id r Hr.
  - destruct (K1 id r Hr) as (r2 & Hr2 & Hk). destruct (K2 id r2 Hr2) as (r3 & ? & ?). exists r3. split; [done|by etrans].
  - destruct (B2 id r Hr) as (r2 & Hr2 & Hk). destruct (B1 id r2 Hr2) as (r1 & ? & ?). exists r1. split; [done|by etrans].
Qed.
Lemma calm_later s s' : calm s s' → later s s'.
Proof. intros [Q Hk Hb]. constructor; [apply Q..|done|done]. Qed.
Lemma later_same s s' :
  options_ s' = options_ s → min_speculative_tokens_required_ s' = min_speculative_tokens_required_ s →
  request_queue_ s' = request_queue_ s → requests s' = requests s → later s s'.
Proof. intros ? ? ? E. constructor; [done..| |]; rewrite E; intros id r ?; by exists r. Qed.
Lemma later_waits s s' id : later s s' → waits s id → waits s' id.
Proof.
  intros Hl (r & Hr & Hw). destruct (lt_kept _ _ Hl id r Hr) as (r' & Hr' & Hk). exists r'. split; [done|].
  destruct Hw as [Hw|Hw]; [left; by apply (kp_preempted _ _ Hk)|right; by rewrite (kp_length _ _ Hk)].
Qed.
Lemma later_known s s' id : later s s' → is_Some (requests s !! id) → is_Some (requests s' !! id).
Proof. intros Hl [r Hr]. destruct (lt_kept _ _ Hl id r Hr) as (r' & ? & _). by eexists. Qed.
Lemma waits_known s id : waits s id → is_Some (requests s !! id).
Proof. intros (r & ? & _). by eexists. Qed.
Lemma fine_calm s s' : fine s → sane s' → calm s s' → fine s'.
Proof.
  intros [Hs Hc Hw Hr Hn Hwo Hro] Hs' Hcalm. pose proof (calm_later _ _ Hcalm) as Hl. destruct Hcalm as [Q _ _].
  pose proof (qt_waiting _ _ Q false) as W0. pose proof (qt_waiting _ _ Q true) as W1.
  pose proof (qt_running _ _ Q false) as R0. pose proof (qt_running _ _ Q true) as R1. simpl in *.
  constructor; [done|by rewrite (qt_options _ _ Q), (qt_min _ _ Q)|rewrite W0|rewrite R0|by rewrite R0|by rewrite W1|by rewrite R1].
  - eapply Forall_impl; [exact Hw|]. intros id. by apply later_waits.
  - eapply Forall_impl; [exact Hr|]. intros id. by apply later_known.
Qed.
Lemma fine_pop s id : fine s → fine (set_waiting_queue false (pq_remove id (waiting_priority_queue_ s)) s).
Proof.
  intros [[Hi Hs] ? Hw ? ? ? ?]. constructor; try done. simpl. rewrite Forall_forall in Hw |- *.
  intros j Hj%pq_remove_elem. by apply Hw.
Qed.
Lemma fine_batch s rs qs bs : fine s → fine (set_running rs qs bs s).
Proof. by intros [[] ? ? ? ? ? ?]. Qed.
Variable estimated_latency : Request T F → D.
Lemma waiting_top_wp s Q :
  fine s → waiting_priority_queue_ s ≠ [] →
  (∀ id, id ∈ waiting_priority_queue_ s → waits s id → Q id s) → wp (waiting_top estimated_latency false) Q s.
Proof.
  intros Hf Hne HQ. unfold waiting_top. apply wp_bind, wp_get. simpl.
  destruct (pq_top_some (compare estimated_latency s) _ Hne) as [id Hid]. rewrite Hid. apply wp_ret.
  pose proof (pq_top_in _ _ _ Hid) as Hin. apply HQ; [done|]. pose proof (fn_waiting _ Hf) as Hw.
  rewrite Forall_forall in Hw. by apply Hw.
Qed.
Lemma pq_remove_length x l : x ∈ l → S (length (pq_remove x l)) = length l.
Proof. intros Hx. by rewrite (pq_remove_perm x l Hx) at 2. Qed.
Lemma request_live s id r :
  requests s !! id = Some r → Forall (live s id) (seq 0 (length (sequences_ r))).
Proof. intros Hr. apply Forall_forall. intros i Hi%elem_of_seq. exists r. split; [done|lia]. Qed.

(** Budgets that let the loops go on *)
Record open b : Prop := {
  op_bounded : bounded b;
  op_tokens : 0 < remaining_token_budget b;
  op_seqs : 0 < remaining_seq_budget b;
  op_latency : d_ltb (estimate_latency b) (latency_budget b) = true;
}.
(** [x + 0.0] compares as [x]. *)
Hypothesis add_zero : ∀ x y, d_ltb (d_add x (d_of_int (D := D) 0)) y = d_ltb x y.
Lemma take_bounded b s id c : bounded b → within b s id c → bounded (take_budget c b).
Proof. intros [? ?] [? ? _ _]. split; simpl; rewrite u64_id; lia. Qed.
Lemma take_open b : open b → open (take_budget Candidates_none b).
Proof.
  intros [[? ?] ? ? Hl]. constructor; simpl; [split; simpl; rewrite u64_id; lia|rewrite u64_id; lia..|by rewrite add_zero].
Qed.

(** ** Prefill *)

(** With an empty batch so far, the budgets are what they were. *)
Definition open_or_busy b s : Prop := running_sequences_ s = [] → open b.
Record prefilled s (go : bool) p' s' : Prop := {
  pr_fine : fine s';
  pr_later : later s s';
  pr_bounded : bounded (budgets p');
  pr_open : open_or_busy (budgets p') s';
  pr_rounds : go = true → S (length (waiting_priority_queue_ s')) = length (waiting_priority_queue_ s);
  pr_exhausted : go = false → (blocks_exhausted p' || budget_exhausted p') = true;
}.
Lemma for_each_deallocate s l :
  sane s → Forall (λ x : nat * nat, live s x.1 x.2) l →
  wp (for_each l (λ x, on_seq_kv x.1 x.2 kvm_deallocate)) (λ _ s', sane s' ∧ calm s s') s.
Proof.
  revert s. induction l as [|x l IH]; intros s Hs Hl; simpl; [by apply wp_ret|]. apply Forall_cons in Hl as [Hx Hl].
  apply wp_bind. eapply wp_mono; [apply (on_seq_kv_live x.1 x.2 _ s lawful_deallocate); done|]. intros u s1 [Hs1 Hc1].
  eapply wp_mono; [apply IH; [done|]|intros u' s2 [? ?]; split; [done|by etrans]].
  eapply Forall_impl; [exact Hl|]. intros y. by apply calm_live.
Qed.
Lemma prefill_request_safe p s :
  fine s → waiting_priority_queue_ s ≠ [] → bounded (budgets p) → open_or_busy (budgets p) s →
  wp (prefill_request estimated_latency false p) (λ res s', prefilled s res.1 res.2 s') s.
Proof.
  intros Hf Hne Hb Hop. unfold prefill_request. apply wp_bind, waiting_top_wp; [done..|]. intros id Hin (r & Hr & Hw).
  apply wp_bind. eapply wp_mono; [apply finished_or_cancelled_sane; [apply Hf|by eexists]|]. intros f s1 (Hs1 & Hc1 & _ & _).
  pose proof (fine_calm _ _ Hf Hs1 Hc1) as Hf1. pose proof (qt_waiting _ _ (cm_quiet _ _ Hc1) false) as W1. simpl in W1.
  pose proof (qt_sequences _ _ (cm_quiet _ _ Hc1)) as S1. destruct (cm_kept _ _ Hc1 id r Hr) as (r1 & Hr1 & Hk1). destruct f.
  - apply wp_bind. eapply wp_mono; [apply deallocate_request_sane; [done|by eexists]|]. intros u s2 [Hs2 Hc2].
    pose proof (fine_calm _ _ Hf1 Hs2 Hc2) as Hf2. pose proof (qt_waiting _ _ (cm_quiet _ _ Hc2) false) as W2. simpl in W2.
    apply wp_bind. unfold waiting_pop. apply wp_modify, wp_ret. simpl. constructor; try done; simpl.
    + by apply fine_pop.
    + etrans; [apply calm_later; by etrans|]. by apply later_same.
    + unfold open_or_busy. simpl. by rewrite (qt_sequences _ _ (cm_quiet _ _ Hc2)), S1.
    + intros _. rewrite W2, W1. by apply pq_remove_length.
  - apply wp_bind. eapply get_request_wp; [done|]. apply wp_bind, wp_check.
    { destruct Hw as [Hw|Hw]; [by rewrite (kp_preempted _ _ Hk1)|]. rewrite (kp_length _ _ Hk1), Hw. apply orb_true_r. }
    apply wp_bind, wp_gets, wp_bind. eapply (wp_mono _ (λ ok s', ok = true ∧ s' = s1)).
    { eapply on_request_wp; [done|]. unfold seqs_op. apply wp_zoom. simpl. unfold wp. rewrite kv_prefetch_law. simpl.
      unfold upd. rewrite insert_id by (by destruct r1). split; [done|by destruct s1]. }
    intros ok s2 [-> ->]. apply wp_bind. eapply wp_mono.
    { eapply prefill_loop_safe; [done|apply Hf1|apply Hf1|exact Hb|by apply request_live|by apply within_none]. }
    intros [stop c] s2 (Hs2 & Hc2 & Hwt). simpl in *. pose proof (fine_calm _ _ Hf1 Hs2 Hc2) as Hf2.
    pose proof (qt_waiting _ _ (cm_quiet _ _ Hc2) false) as W2. simpl in W2. assert (later s s2) as L2 by (by apply calm_later; etrans).
    assert (wp (for_each (candidate_sequences c) (λ x, on_seq_kv x.1 x.2 kvm_deallocate))
              (λ _ s', sane s' ∧ calm s2 s') s2) as Hdrop.
    { apply for_each_deallocate; [done|]. eapply Forall_impl; [apply Hwt|]. by intros x []. }
    assert (∀ s3 p', sane s3 → calm s2 s3 → budgets p' = budgets p → (blocks_exhausted p' || budget_exhausted p') = true →
      prefilled s false p' s3) as Hstop.
    { intros s3 p' Hs3 Hc3 Eb He. constructor; try done; [by eapply fine_calm|etrans; [exact L2|by apply calm_later]|by rewrite Eb|].
      rewrite Eb. unfold open_or_busy. by rewrite (qt_sequences _ _ (cm_quiet _ _ Hc3)), (qt_sequences _ _ (cm_quiet _ _ Hc2)), S1. }
    destruct stop.
    + apply wp_bind. unfold waiting_pop. apply wp_modify, wp_bind. unfold join_batch. apply wp_modify, wp_ret. simpl.
      constructor; try done; simpl; [by apply fine_batch, fine_pop|etrans; [exact L2|by apply later_same]|by eapply take_bounded| |].
      * intros [E1 E2]%app_eq_nil. simpl in E1. rewrite (wt_none _ _ _ _ Hwt E2). apply take_open, Hop.
        by rewrite <-S1, <-(qt_sequences _ _ (cm_quiet _ _ Hc2)).
      * intros _. rewrite W2, W1. by apply pq_remove_length.
    + apply wp_bind. eapply wp_mono; [exact Hdrop|]. intros u s3 [Hs3 Hc3]. apply wp_ret. simpl.
      apply Hstop; try done. by rewrite orb_true_r.
    + apply wp_bind. eapply wp_mono; [exact Hdrop|]. intros u s3 [Hs3 Hc3]. apply wp_ret. simpl. by apply Hstop.
Qed.

Lemma prefill_while_safe n p s :
  fine s → (length (waiting_priority_queue_ s) < n)%nat → bounded (budgets p) → open_or_busy (budgets p) s →
  wp (prefill_while estimated_latency n false p)
    (λ p' s', fine s' ∧ later s s' ∧ bounded (budgets p') ∧
       (running_sequences_ s' = [] → waiting_priority_queue_ s' ≠ [] → (blocks_exhausted p' || budget_exhausted p') = true)) s.
Proof.
  revert p s. induction n as [|n IH]; intros p s Hf Hn Hb Hop; [lia|]. simpl. apply wp_bind, wp_get. simpl.
  destruct (_ || _) eqn:E1.
  { apply wp_ret. split; [done|]. split; [done|]. split; [done|]. intros Hs Hw. destruct (Hop Hs) as [_ H6 H7 H8].
    apply Z.ltb_lt in H6, H7. rewrite H6, H7, H8, (bool_decide_eq_false_2 _ Hw) in E1. done. }
  assert (waiting_priority_queue_ s ≠ []) as Hne.
  { intros E. by rewrite (bool_decide_eq_true_2 _ E) in E1. }
  destruct (_ && _). { apply wp_ret. by split; [|split; [|split]]. }
  apply wp_bind. eapply wp_mono; [by apply prefill_request_safe|]. intros [go p'] s' [Hf' Hl' Hb' Hop' Hr' He']. simpl in *.
  destruct go.
  - eapply wp_mono; [apply IH; [done|specialize (Hr' eq_refl); lia|done|done]|].
    intros p2 s2 (? & ? & ? & ?). split; [done|]. split; [by etrans|done].
  - apply wp_ret. split; [done|]. split; [done|]. split; [done|]. intros _ _. by apply He'.
Qed.
Lemma prefill_too_long_safe p s :
  fine s →
  (running_sequences_ s = [] → waiting_priority_queue_ s ≠ [] → (blocks_exhausted p || budget_exhausted p) = true) →
  wp (prefill_too_long estimated_latency false p)
    (λ _ s', fine s' ∧ later s s') s.
Proof.
  intros Hf He. unfold prefill_too_long. apply wp_bind, wp_get. simpl. destruct (_ && _) eqn:E; [|by apply wp_ret].
  apply andb_true_iff in E as [[E1 E2]%andb_true_iff _]. apply bool_decide_eq_true in E1, E2. rewrite (He E1 E2).
  apply wp_bind, waiting_top_wp; [done..|]. intros id Hin Hw. apply wp_bind. unfold waiting_pop. apply wp_modify, wp_bind. simpl.
  set (s1 := set_waiting_queue false _ s). assert (fine s1) as Hf1 by (by apply fine_pop).
  eapply wp_mono; [apply deallocate_request_sane; [apply Hf1|by eapply waits_known]|]. intros u s2 [Hs2 Hc2].
  pose proof (fine_calm _ _ Hf1 Hs2 Hc2) as [[] ? ? ? ? ? ?]. apply wp_modify. split; [by constructor|].
  assert (later s s1) as L1 by (by apply later_same). etrans; [exact L1|].
  etrans; [by apply calm_later|]. by apply later_same.
Qed.
Lemma handle_prefill_safe n b fin s :
  fine s → (length (waiting_priority_queue_ s) < n)%nat → bounded b → open_or_busy b s →
  wp (handle_prefill_requests estimated_latency n false b fin)
    (λ res s', fine s' ∧ later s s' ∧ bounded res.1) s.
Proof.
  intros Hf Hn Hb Hop. unfold handle_prefill_requests. apply wp_bind. eapply wp_mono; [by apply prefill_while_safe|].
  intros p s1 (Hf1 & Hl1 & Hb1 & He1). apply wp_bind. eapply wp_mono; [by apply prefill_too_long_safe|].
  intros u s2 [Hf2 Hl2]. apply wp_bind, wp_modify, wp_ret. simpl. case_match.
  - destruct Hf2 as [[] ? ? ? ? ? ?]. split; [by constructor|]. split; [|done]. etrans; [exact Hl1|].
    etrans; [exact Hl2|]. by apply later_same.
  - split; [done|]. split; [by etrans|done].
Qed.
(** The offline queue is empty: nothing happens. *)
Lemma handle_prefill_offline n b fin s :
  fine s → (0 < n)%nat →
  wp (handle_prefill_requests estimated_latency n true b fin) (λ res s', fine s' ∧ later s s' ∧ res.1 = b) s.
Proof.
  intros Hf Hn. destruct n as [|n]; [lia|]. unfold handle_prefill_requests. apply wp_bind. cbn [prefill_while].
  apply wp_bind, wp_get. simpl. rewrite (bool_decide_eq_true_2 _ (fn_no_waiting _ Hf)). simpl. apply wp_ret, wp_bind.
  unfold prefill_too_long. apply wp_bind, wp_get. simpl.
  rewrite (bool_decide_eq_false_2 (waiting_priority_queue_offline_ s ≠ [])) by (rewrite (fn_no_waiting _ Hf); naive_solver).
  rewrite andb_false_r. simpl. apply wp_ret, wp_bind, wp_modify, wp_ret. simpl. case_match.
  - destruct Hf as [[] ? ? ? ? ? ?]. split; [by constructor|]. split; [by apply later_same|done].
  - done.
Qed.

(** ** Decode *)

Lemma fine_queue l s :
  fine s → Forall (λ id, is_Some (requests s !! id)) l → NoDup l → fine (set_running_queue false l s).
Proof. intros [[] ? ? ? ? ? ?] Hl Hn. by constructor; [constructor|..]. Qed.
Lemma fine_wait id s : fine s → waits s id → fine (set_waiting_queue false (waiting_priority_queue_ s ++ [id]) s).
Proof.
  intros [[] ? Hw ? ? ? ?] Hid. constructor; try done. apply Forall_app. split; [done|]. by apply Forall_singleton.
Qed.
Lemma preempt_back_safe l x s :
  fine s → running_queue_ s = l ++ [x] →
  wp (preempt_back false) (λ _ s', fine s' ∧ later s s' ∧ running_queue_ s' = l) s.
Proof.
  intros Hf Hq. pose proof (fn_running _ Hf) as Hr. pose proof (fn_nodup _ Hf) as Hn. rewrite Hq in Hr, Hn.
  apply Forall_app in Hr as [Hl [Hx _]%Forall_cons]. apply NoDup_app in Hn as (Hn & _ & _).
  unfold preempt_back, running_back. apply wp_bind, wp_bind, wp_get. simpl. rewrite Hq, last_snoc. apply wp_ret, wp_bind.
  eapply wp_mono; [apply deallocate_request_sane; [apply Hf|done]|]. intros u s1 [Hs1 Hc1].
  pose proof (fine_calm _ _ Hf Hs1 Hc1) as Hf1. pose proof (qt_running _ _ (cm_quiet _ _ Hc1) false) as R1. simpl in R1.
  apply wp_bind. unfold pop_back. apply wp_bind, wp_get. simpl. rewrite R1, Hq.
  destruct (l ++ [x]) as [|y l'] eqn:E; [by destruct l|]. apply wp_put.
  assert (length l' = length l) as El by (apply (f_equal length) in E; rewrite length_app in E; simpl in E; lia).
  rewrite <-E, take_app_length' by lia.
  set (s2 := set_running_queue false l s1). assert (fine s2) as Hf2.
  { apply fine_queue; [done| |done]. eapply Forall_impl; [exact Hl|]. intros j. by apply calm_known. }
  pose proof (calm_known _ _ _ Hc1 Hx) as [r Hr]. change (requests s1) with (requests s2) in Hr. apply wp_bind.
  eapply wp_mono; [eapply (on_request_calm x _ _ s2 r); [apply Hf2|done|intros; by apply preempted_keeps]|].
  intros u3 s3 (Hs3 & Hc3 & k' & r' & E3 & _ & Hp). pose proof (fine_calm _ _ Hf2 Hs3 Hc3) as Hf3.
  assert (requests s3 !! x = Some r') as Hr3 by (rewrite E3; apply lookup_insert_eq).
  apply wp_bind. eapply get_request_wp; [exact Hr3|]. rewrite (ro_online _ _ (sn_requests _ Hs3 _ _ Hr3)).
  unfold waiting_push. apply wp_modify. simpl. split; [apply fine_wait; [done|]|split].
  - exists r'. split; [done|by left].
  - etrans; [by apply calm_later|]. etrans; [by apply (later_same s1 s2)|]. etrans; [by apply calm_later|]. by apply later_same.
  - simpl. by rewrite E3.
Qed.

(** The rest of the round when a request was taken from the top *)
Record decoded s (go : bool) b' s' : Prop := {
  dc_fine : fine s';
  dc_later : later s s';
  dc_bounded : bounded b';
  dc_rounds : go = true → S (length (running_queue_ s')) = length (running_queue_ s);
}.
Lemma pop_top_wp x l s Q :
  running_queue_ s = x :: l → Q () (set_running_queue false l s) → wp (pop_top false) Q s.
Proof. intros Hq HQ. unfold pop_top. apply wp_bind, wp_get. simpl. rewrite Hq. by apply wp_put. Qed.
Lemma fine_pop_top x l s : fine s → running_queue_ s = x :: l → fine (set_running_queue false l s).
Proof.
  intros Hf Hq. pose proof (fn_running _ Hf) as Hr. pose proof (fn_nodup _ Hf) as Hn. rewrite Hq in Hr, Hn.
  apply Forall_cons in Hr as [_ Hr]. apply NoDup_cons in Hn as [_ Hn]. by apply fine_queue.
Qed.
Lemma schedule_decoded go x l b c s :
  fine s → running_queue_ s = x :: l → bounded b → within b s x c →
  wp (pop_top false ≫= λ _, join_batch x c ≫= λ _, mret (take_budget c b))
    (λ b' s', decoded s go b' s') s.
Proof.
  intros Hf Hq Hb Hw. apply wp_bind. eapply pop_top_wp; [done|]. apply wp_bind. unfold join_batch. apply wp_modify, wp_ret.
  constructor; [apply fine_batch; by eapply fine_pop_top|by apply later_same|by eapply take_bounded|by rewrite Hq].
Qed.
Lemma handle_abnormal_safe stop x l b c s :
  fine s → running_queue_ s = x :: l → (stop ≠ NoBudget → l = []) → bounded b → within b s x c →
  wp (handle_abnormal_request false stop c b) (λ b' s', decoded s false b' s') s.
Proof.
  intros Hf Hq Hl Hb Hw. pose proof (fn_running _ Hf) as Hr. rewrite Hq in Hr. apply Forall_cons in Hr as [[r Hr] _].
  unfold handle_abnormal_request. apply wp_bind. unfold running_top. apply wp_bind, wp_get. simpl. rewrite Hq. apply wp_ret.
  apply wp_bind, wp_get, wp_bind. eapply get_request_wp; [done|]. assert (decoded s false b s) as Hsame by by constructor.
  destruct (candidate_sequences c).
  - destruct (bool_decide _); [by apply wp_ret|]. apply wp_bind. eapply (wp_mono _ (λ _ s', s' = s)).
    { assert (stop ≠ NoBudget → wp (check (bool_decide (length (running_queue false s) = 1%nat)) "Running queue size is not 1" ≫= λ _,
        Scheduler.sum (kvm_num_used_blocks (kv_cache_manager_ s)) ≫= λ used, mret (used =? total_num_blocks r)) (λ _ s', s' = s) s) as Hu.
      { intros Hne. apply wp_bind, wp_check; [apply bool_decide_eq_true; simpl; by rewrite Hq, (Hl Hne)|]. apply wp_bind.
        unfold Scheduler.sum. pose proof (kv_used_law _ _ (sn_inv _ (fn_sane _ Hf))) as Hne'.
        destruct (kvm_num_used_blocks _); [done|]. by apply wp_ret, wp_ret. }
      destruct stop; [by apply Hu|by apply wp_ret|by apply Hu]. }
    intros too_long ? ->. destruct too_long; [|by apply wp_ret]. apply wp_bind. eapply pop_top_wp; [done|].
    pose proof (fine_pop_top _ _ _ Hf Hq) as Hf1. apply wp_bind.
    eapply wp_mono; [apply deallocate_request_sane; [apply Hf1|by eexists]|]. intros u s2 [Hs2 Hc2]. apply wp_bind, wp_modify, wp_ret.
    pose proof (fine_calm _ _ Hf1 Hs2 Hc2) as [[] ? ? ? ? ? ?]. constructor; [by constructor; [constructor|..]| |done|done].
    transitivity (set_running_queue false l s); [by apply later_same|].
    etrans; [exact (calm_later _ _ Hc2)|]. by apply later_same.
  - rewrite (ro_beam _ _ (sn_requests _ (fn_sane _ Hf) _ _ Hr)). by apply (schedule_decoded false x l).
Qed.

Lemma decode_request_safe x l b s :
  fine s → running_queue_ s = x :: l → bounded b →
  wp (decode_request false b) (λ res s', decoded s res.1 res.2 s') s.
Proof.
  intros Hf Hq Hb. pose proof (fn_running _ Hf) as Hr. rewrite Hq in Hr. apply Forall_cons in Hr as [[r Hr] _].
  unfold decode_request. apply wp_bind. unfold running_top. apply wp_bind, wp_get. simpl. rewrite Hq. apply wp_ret.
  apply wp_bind. eapply get_request_wp; [done|]. rewrite (ro_beam _ _ (sn_requests _ (fn_sane _ Hf) _ _ Hr)).
  apply wp_bind, wp_bind. eapply wp_mono.
  { apply decode_loop_safe; [apply Hf|apply Hf|exact Hb|by apply request_live|by apply within_none]. }
  intros [stop c] s1 (Hs1 & Hc1 & Hw). apply wp_ret. simpl in Hw. pose proof (fine_calm _ _ Hf Hs1 Hc1) as Hf1.
  pose proof (qt_running _ _ (cm_quiet _ _ Hc1) false) as R1. simpl in R1.
  assert (∀ go b' s', decoded s1 go b' s' → decoded s go b' s') as Hback.
  { intros go b' s' [? ? ? Hrounds]. constructor; try done; [etrans; [by apply calm_later|done]|by rewrite <-R1]. }
  apply wp_bind, wp_check; [apply Z.leb_le, Hw|]. apply wp_bind, wp_check; [apply Z.leb_le, Hw|].
  rewrite Hq in R1. destruct stop.
  - apply wp_bind. eapply pop_top_wp; [done|]. apply wp_bind. unfold join_batch. apply wp_modify, wp_ret, Hback.
    constructor; [apply fine_batch; by eapply fine_pop_top|by apply later_same|by eapply take_bounded|by rewrite R1].
  - apply wp_bind. eapply wp_mono; [by apply (handle_abnormal_safe NoBudget x l)|]. intros b' s2 Hd. by apply wp_ret, Hback.
  - apply wp_bind, wp_get. rewrite (fn_no_running _ Hf1), andb_false_r. simpl. rewrite R1. case_match eqn:El.
    + apply bool_decide_eq_true in El. simpl in El. destruct l as [|y l0] using rev_ind; [simpl in El; lia|].
      apply wp_bind. unfold running_back. apply wp_bind, wp_get. simpl. rewrite R1, app_comm_cons, last_snoc. apply wp_ret, wp_bind.
      destruct (decide (y = x)) as [->|_].
      { pose proof (fn_nodup _ Hf1) as Hn. rewrite R1 in Hn. apply NoDup_cons in Hn as [Hn _]. set_solver. }
      eapply wp_mono; [apply (preempt_back_safe (x :: l0) y s1); [done|by rewrite R1]|]. intros u s2 (Hf2 & Hl2 & R2).
      apply wp_ret, Hback. constructor; try done. intros _. rewrite R1, R2. simpl. rewrite length_app. simpl. lia.
    + apply bool_decide_eq_false in El. simpl in El. apply wp_bind.
      eapply wp_mono; [apply (handle_abnormal_safe NoBlocks x l); try done|]; [|intros b' s2 Hd; by apply wp_ret, Hback].
      intros _. destruct l; [done|simpl in El; lia].
Qed.
Lemma handle_decode_safe n b s :
  fine s → (length (running_queue_ s) < n)%nat → bounded b →
  wp (handle_decode_requests n false b) (λ _ s', fine s' ∧ later s s') s.
Proof.
  revert b s. induction n as [|n IH]; intros b s Hf Hn Hb; [lia|]. simpl. apply wp_bind, wp_get. simpl.
  destruct (running_queue_ s) as [|x l] eqn:Hq; [by apply wp_ret|]. case_match; [by apply wp_ret|].
  apply wp_bind. eapply wp_mono; [by eapply decode_request_safe|]. intros [go b'] s' [Hf' Hl' Hb' Hr']. simpl in *.
  destruct go; [|by apply wp_ret]. eapply wp_mono; [apply IH; [done|rewrite Hq in Hr'; specialize (Hr' eq_refl); simpl in *; lia|done]|].
  intros b2 s2 [? ?]. split; [done|by etrans].
Qed.
Lemma handle_decode_offline n b s :
  fine s → (0 < n)%nat → wp (handle_decode_requests n true b) (λ _ s', s' = s) s.
Proof.
  intros Hf Hn. destruct n as [|n]; [lia|]. simpl. apply wp_bind, wp_get. simpl.
  rewrite (bool_decide_eq_true_2 _ (fn_no_running _ Hf)). by apply wp_ret.
Qed.

(** ** A step *)

Lemma initial_open s : configured s → open (initial_budgets (options_ s)).
Proof.
  intros Hc. pose proof (cf_tokens _ _ Hc). pose proof (cf_seqs _ _ Hc).
  constructor; simpl; [split; simpl; rewrite ?u64_id; lia|rewrite u64_id; lia|lia|apply Hc].
Qed.
Lemma fill_batch_safe n fin s :
  fine s → (length (waiting_priority_queue_ s) < n)%nat → (length (running_queue_ s) < n)%nat →
  wp (fill_batch estimated_latency n fin) (λ _ s', fine s' ∧ later s s') s.
Proof.
  intros Hf Hn1 Hn2. unfold fill_batch. apply wp_bind, wp_gets, wp_bind.
  pose proof (initial_open _ (fn_config _ Hf)) as Hop. eapply wp_mono.
  { apply wp_post; [apply handle_prefill_safe; [done|done|apply Hop|by intros _]|].
    apply (handle_prefill_prefilling estimated_latency). }
  intros [b1 fin1] s1 ((Hf1 & Hl1 & Hb1) & [G1 _]). simpl in *. apply wp_bind. eapply wp_mono.
  { apply wp_post; [apply handle_prefill_offline; [done|lia]|apply (handle_prefill_prefilling estimated_latency)]. }
  intros [b2 fin2] s2 ((Hf2 & Hl2 & Eb) & [G2 _]). simpl in *. subst b2. apply wp_bind, wp_get, wp_bind.
  assert (running_queue_ s2 = running_queue_ s) as R2 by (by rewrite (pf_running _ _ _ _ G2), (pf_running _ _ _ _ G1)).
  assert (later s s2) as L2 by (by etrans). case_match.
  - apply wp_bind. eapply wp_mono; [apply handle_decode_safe; [done|by rewrite R2|done]|]. intros b3 s3 [Hf3 Hl3].
    apply wp_bind. eapply wp_mono; [apply handle_decode_offline; [done|lia]|]. intros b4 ? ->. do 2 apply wp_ret.
    split; [done|by etrans].
  - by do 2 apply wp_ret.
Qed.

(** Operations on a request leave the other ones alone. *)
Definition only id s s' : Prop := ∀ j, j ≠ id → requests s' !! j = requests s !! j.
#[export] Instance only_preorder id : PreOrder (only id).
Proof. split; [by intros s j|]. intros s1 s2 s3 H12 H23 j Hj. by rewrite H23, H12. Qed.
Lemma on_request_only {A} id (m : prog (K * Request T F) A) s : post (on_request id m) (λ _ s', only id s s') s.
Proof.
  unfold on_request, post. destruct (requests s !! id); [|done]. unfold zoom.
  destruct (m _); try done. intros j Hj. simpl. by rewrite lookup_insert_ne.
Qed.
Lemma handle_running_requests_only id s : post (handle_running_requests id) (λ _ s', only id s s') s.
Proof.
  unfold handle_running_requests.
  apply (post_chain (only id)); [apply on_request_only|]. intros f s1 _.
  apply (post_chain (only id)); [by destruct f|]. intros u s2 _.
  apply (post_chain (only id)); [apply on_request_only|]. intros e s3 _.
  apply (post_chain (only id)); [destruct e; [apply on_request_only|done]|]. intros u4 s4 _.
  apply (post_chain (only id)); [apply on_request_only|]. intros r s5 _.
  apply (post_chain_for_each (only id)). intros i s6. apply (post_chain (only id)); [apply on_request_only|].
  intros f7 s7 _. destruct f7; [apply on_request_only|done].
Qed.
Lemma ready_answer id s : is_Some (requests s !! id) → ready s id → finished_or_cancelled id s = Done false s.
Proof.
  intros [r Hr] Hd. destruct (Hd r Hr) as [Hf Hc]. unfold finished_or_cancelled, on_request. rewrite Hr.
  unfold req_op, zoom, mbind, prog_bind. simpl. rewrite Hf. unfold gets. rewrite Hc. simpl.
  rewrite insert_id by done. by destruct s.
Qed.
Lemma handle_running_requests_safe id s :
  sane s → is_Some (requests s !! id) → ready s id →
  wp (handle_running_requests id) (λ _ s', sane s' ∧ is_Some (requests s' !! id)) s.
Proof.
  intros Hs Hid Hd. unfold handle_running_requests. apply wp_bind. unfold wp at 1. rewrite (ready_answer _ _ Hid Hd).
  apply wp_bind, wp_ret, wp_bind. destruct Hid as [r Hr]. destruct (sane_held _ _ _ Hs Hr) as (others & Hh & Hback).
  eapply on_request_wp; [done|]. unfold req_op. apply wp_zoom. simpl.
  eapply wp_mono; [by apply (expand_expands (prefix_of s) others)|]. intros e r1 (Hh1 & He1 & _). simpl.
  set (s1 := upd id (kv_cache_manager_ s) r1 s). assert (sane s1) as Hs1 by (by apply Hback).
  assert (requests s1 !! id = Some r1) as Hr1 by apply lookup_insert_eq.
  assert (live s1 id 0) as Hl1. { exists r1. split; [done|]. pose proof (ro_size _ _ (proj2 Hh1)). lia. }
  apply wp_bind. eapply (wp_mono _ (λ _ s', sane s' ∧ calm s1 s')).
  { destruct e; [|by apply wp_ret]. by apply on_seq_kv_live; [apply lawful_cache|..]. }
  intros u s2 [Hs2 Hc2]. destruct (cm_kept _ _ Hc2 id r1 Hr1) as (r2 & Hr2 & _). apply wp_bind.
  eapply get_request_wp; [done|]. pose proof (request_live _ _ _ Hr2) as Hl2.
  eapply wp_mono; [apply (wp_for_each _ _ (λ l s', sane s' ∧ calm s2 s' ∧ Forall (live s' id) l)); [done|]|].
  - intros i l s3 (Hs3 & Hc3 & [Hi Hl]%Forall_cons). apply wp_bind. eapply wp_mono; [by apply seq_finished_live|].
    intros f s4 [Hs4 Hc4]. assert (calm s2 s4) as Hc24 by (by etrans). pose proof (calm_lives _ _ _ _ Hc4 Hl) as Hl4.
    destruct f; [|by apply wp_ret]. eapply wp_mono; [apply (on_seq_kv_live id i _ s4 lawful_deallocate); [done|exact (calm_live _ _ _ _ Hc4 Hi)]|].
    intros u5 s5 [Hs5 Hc5]. split; [done|]. split; [by etrans|by eapply calm_lives].
  - intros u6 s6 (Hs6 & Hc6 & _). split; [done|]. eapply calm_known; [exact Hc6|by eexists].
Qed.

Abbreviation ids l := (omap (λ x : option nat, x) l).
(** The requests of [l] go back to the running queue: they are known, still run, and are
    in no queue. *)
Record requeues (l : list nat) s : Prop := {
  rl_fine : fine s;
  rl_queue : request_queue_ s = [];
  rl_known : Forall (λ id, is_Some (requests s !! id)) l;
  rl_ready : Forall (ready s) l;
  rl_nodup : NoDup (l ++ running_queue_ s ++ waiting_priority_queue_ s);
}.
Lemma only_ready id s s' j : only id s s' → j ≠ id → ready s j → ready s' j.
Proof. intros Ho Hj Hd r Hr. apply (Hd r). by rewrite <-(Ho j Hj). Qed.
(** The queues have the overload of [push] that is called. *)
Definition pushable (k : option bool) s : Prop := k = None ∨ fcfs_queues s.
(** A push to the online queue returns; its comparator is there. *)
Lemma running_push_online k id s :
  pushable k s → wp (running_push false id k) (λ _ s', ∃ l, s' = set_running_queue false l s ∧ l ≡ₚ id :: running_queue_ s) s.
Proof.
  intros Hp. eapply wp_mono; [apply wp_post; [|apply running_push_state]|].
  - instantiate (1 := λ _ _, True). unfold running_push, pushable, fcfs_queues in *. apply wp_bind, wp_get.
    destruct (running_comparator _); [destruct Hp as [->|?]; [|done]; by apply wp_put|].
    destruct k as [[]|]; by apply wp_put.
  - intros u s' [_ (l & -> & Hl & _)]. by exists l.
Qed.
Lemma requeue_safe k id l s :
  pushable k s → requeues (id :: l) s → wp (requeue k (Some id)) (λ _ s', pushable k s' ∧ requeues l s') s.
Proof.
  intros Hp [Hf Hrq Hk Hd Hn]. apply Forall_cons in Hk as [Hid Hk]. apply Forall_cons in Hd as [Hrd Hd].
  apply NoDup_cons in Hn as [Hni Hn]. rewrite !not_elem_of_app in Hni. destruct Hni as (Hnl & Hnr & Hnw).
  unfold requeue. apply wp_bind. eapply wp_mono.
  { apply wp_post; [by apply handle_running_requests_safe; [apply Hf|..]|].
    apply (post_and _ _ _ _ (handle_running_requests_quiet id s) (handle_running_requests_only id s)). }
  intros u s1 ([Hs1 [r Hr]] & Q1 & Ho). simpl in Q1, Ho. apply wp_bind. eapply get_request_wp; [done|].
  rewrite (ro_online _ _ (sn_requests _ Hs1 _ _ Hr)).   assert (pushable k s1) as Hp1 by (unfold pushable, fcfs_queues in *; by rewrite (qt_options _ _ Q1)).
  eapply wp_mono; [by apply running_push_online|]. intros v ? (q & -> & Hq). split; [done|].
  pose proof (qt_waiting _ _ Q1 false) as W0. pose proof (qt_waiting _ _ Q1 true) as W1.
  pose proof (qt_running _ _ Q1 false) as R0. pose proof (qt_running _ _ Q1 true) as R1. simpl in W0, W1, R0, R1.
  assert (∀ j, j ≠ id → is_Some (requests s !! j) → is_Some (requests s1 !! j)) as Hkn by (intros j Hj; by rewrite (Ho j Hj)).
  assert (∀ l', id ∉ l' → Forall (λ j, is_Some (requests s !! j)) l' → Forall (λ j, is_Some (requests s1 !! j)) l') as Hkns.
  { intros l' Hl' HF. rewrite Forall_forall in HF |- *. intros j Hj. apply Hkn; [by intros ->|by apply HF]. }
  rewrite R0 in Hq. constructor.
  - destruct Hf as [? ? Hw Hru Hnq ? ?]. constructor; simpl.
    + by destruct Hs1.
    + by rewrite (qt_options _ _ Q1), (qt_min _ _ Q1).
    + rewrite W0. rewrite Forall_forall in Hw |- *. intros j Hj. destruct (Hw j Hj) as (r' & Hr' & ?). exists r'.
      split; [|done]. simpl. rewrite (Ho j); [done|by intros ->].
    + rewrite Hq. constructor; [by eexists|by apply Hkns].
    + rewrite Hq. by apply NoDup_cons.
    + by rewrite W1.
    + by rewrite R1.
  - simpl. by rewrite (qt_queue _ _ Q1).
  - simpl. by apply Hkns.
  - rewrite Forall_forall in Hd |- *. intros j Hj. eapply (only_ready id s); [exact Ho|by intros ->|by apply Hd].
  - simpl. rewrite Hq, W0. simpl. rewrite <-Permutation_middle. apply NoDup_cons. split; [|done].
    by rewrite !not_elem_of_app.
Qed.
Lemma requeue_all_safe k l s :
  pushable k s → requeues (ids l) s → wp (for_each l (requeue k)) (λ _ s', fine s' ∧ request_queue_ s' = []) s.
Proof.
  intros Hp Hr. eapply wp_mono; [apply (wp_for_each l (requeue k) (λ l s', pushable k s' ∧ requeues (ids l) s')); [done|]|].
  - intros [id|] l' s' [Hp' Hl]; [|by apply wp_ret]. by apply requeue_safe.
  - intros u s' [_ Hs']. split; apply Hs'.
Qed.
Lemma requeue_running_safe s : requeues (in_batch s) s → wp requeue_running (λ _ s', fine s' ∧ request_queue_ s' = []) s.
Proof.
  intros Hr. unfold requeue_running. apply wp_bind, wp_get. destruct (String.eqb _ _) eqn:E; [|by apply requeue_all_safe; [left|]].
  apply requeue_all_safe; [right; apply String.eqb_eq in E; unfold fcfs_queues, running_comparator; by rewrite E|].
  destruct (last_step_prefill_ s); [done|]. rewrite rev_omap.
  destruct Hr as [? ? Hk Hd Hn]. constructor; try done; by rewrite <-Permutation_rev.
Qed.

(** Finished requests leave; the answers for the others stay. *)
Lemma reap_safe disconnected l fin s :
  sane s → Forall (λ id, is_Some (requests s !! id)) (ids l) → NoDup (ids l) →
  wp (reap disconnected l fin)
    (λ x s', sane s' ∧ calm s s' ∧ (∀ j, j ∉ ids l → requests s' !! j = requests s !! j) ∧ Forall (ready s') (ids x.1)) s.
Proof.
  revert fin s. induction l as [|[id|] l IH]; intros fin s Hs Hk Hn; [by apply wp_ret| |].
  - cbn [reap]. change (ids (Some id :: l)) with (id :: ids l) in *. apply Forall_cons in Hk as [Hid Hk].
    apply NoDup_cons in Hn as [Hni Hn]. apply wp_bind. eapply wp_mono.
    { apply wp_post; [|apply (on_request_only id)]. eapply on_request_sane; [done|done|]. intros. by apply connection_keeps. }
    intros u s1 [[Hs1 Hc1] Ho1]. apply wp_bind.
    eapply wp_mono; [apply finished_or_cancelled_sane; [done|by eapply calm_known]|]. intros f s2 (Hs2 & Hc2 & Ho2 & Hd2).
    assert (calm s s2) as Hc02 by (by etrans). apply wp_bind.
    eapply (wp_mono _ (λ _ s', sane s' ∧ calm s2 s' ∧ only id s2 s' ∧ (f = false → ready s' id))).
    { destruct f; [|by apply wp_ret]. eapply wp_mono; [apply wp_post; [|apply (on_request_only id)]|].
      - apply deallocate_request_sane; [done|by eapply calm_known].
      - by intros u3 s3 [[? ?] ?]. }
    intros u3 s3 (Hs3 & Hc3 & Ho3 & Hd3). assert (calm s s3) as Hc03 by (by etrans).
    assert (only id s s3) as Ho by (etrans; [exact Ho1|]; etrans; [exact Ho2|done]). apply wp_bind.
    eapply wp_mono; [apply (IH _ s3); [done| |done]|].
    { eapply Forall_impl; [exact Hk|]. intros j. by apply calm_known. }
    intros [l' fin'] s4 (Hs4 & Hc4 & Ho4 & Hd4). apply wp_ret. simpl in Hd4. simpl fst.
    split; [done|]. split; [by etrans|]. split.
    + intros j [Hj1 Hj2]%not_elem_of_cons. by rewrite Ho4, (Ho j).
    + destruct f; [done|]. change (ids (Some id :: l')) with (id :: ids l'). constructor; [|done].
      intros r Hr. apply (Hd3 eq_refl). by rewrite <-Ho4.
  - cbn [reap]. change (ids (None :: l)) with (ids l) in *. apply wp_bind. eapply wp_mono; [by apply IH|].
    intros [l' fin'] s4 (Hs4 & Hc4 & Ho4 & Hd4). by apply wp_ret.
Qed.

(** A request from the queue starts to wait, or runs when it comes with cached tokens. *)
Lemma receive_request_safe id s :
  fine s → waits s id → wp (receive_request id) (λ _ s', fine s' ∧ later s s') s.
Proof.
  intros Hf (r & Hr & Hw). pose proof (fn_sane _ Hf) as Hs. destruct (sane_held _ _ _ Hs Hr) as (others & Hh & _).
  unfold receive_request. apply wp_bind, wp_get, wp_bind. eapply (wp_mono _ (λ _ s', s' = s)).
  { destruct (prefix_of s) eqn:E; [by apply wp_ret|]. eapply on_request_wp; [done|]. unfold req_op. apply wp_zoom.
    eapply wp_mono; [by apply (expand_expands false others)|]. intros e r' (_ & _ & E'). rewrite (E' eq_refl). simpl.
    unfold upd. rewrite insert_id by done. by destruct s. }
  intros e ? ->. destruct (lookup_lt_is_Some_2 (sequences_ r) 0) as [q Hq]; [pose proof (ro_size _ _ (proj2 Hh)); lia|].
  apply wp_bind. eapply get_sequence_wp; [done..|]. apply wp_bind. eapply get_request_wp; [done|].
  destruct (_ =? 0).
  - rewrite (ro_online _ _ (proj2 Hh)). unfold waiting_push. apply wp_modify. simpl. split; [|by apply later_same].
    apply fine_wait; [done|]. by exists r.
  - apply wp_modify. split; [by apply fine_batch|by apply later_same].
Qed.
Lemma receive_all_safe l s :
  fine s → Forall (waits s) l → wp (for_each l receive_request) (λ _ s', fine s' ∧ later s s') s.
Proof.
  revert s. induction l as [|id l IH]; intros s Hf Hl; simpl; [by apply wp_ret|]. apply Forall_cons in Hl as [Hid Hl].
  apply wp_bind. eapply wp_mono; [by apply receive_request_safe|]. intros u s1 [Hf1 Hl1].
  eapply wp_mono; [apply IH; [done|]|intros u2 s2 [? ?]; split; [done|by etrans]].
  eapply Forall_impl; [exact Hl|]. intros j. by apply later_waits.
Qed.

(** ** The invariant of the scheduler between steps *)

Record sched_ok s : Prop := {
  ok_sane : sane s;
  ok_config : configured s;
  ok_known : Forall (λ id, is_Some (requests s !! id)) (located s);
  ok_nodup : NoDup (located s);
  ok_waiting : Forall (waits s) (request_queue_ s ++ waiting_priority_queue_ s);
  ok_no_waiting : waiting_priority_queue_offline_ s = [];
  ok_no_running : running_queue_offline_ s = [];
}.
Lemma known_static s s' id :
  req_static <$> requests s' = req_static <$> requests s → is_Some (requests s !! id) → is_Some (requests s' !! id).
Proof. intros E Hid. rewrite <-(fmap_is_Some req_static), <-lookup_fmap, E, lookup_fmap. by apply fmap_is_Some. Qed.
(** The parts of [located] a step works on *)
Lemma located_parts s :
  located s ≡ₚ (in_batch s ++ running_queue_ s ++ waiting_priority_queue_ s) ++
    request_queue_ s ++ waiting_priority_queue_offline_ s ++ running_queue_offline_ s ++ completed_ s ++ failed_ s.
Proof. unfold located. perm. Qed.
Lemma sched_fine s : sched_ok s → fine s.
Proof.
  intros [Hs Hc Hk Hn Hw Hwo Hro]. rewrite located_parts in Hk, Hn. apply Forall_app in Hk as [Hk _].
  apply Forall_app in Hk as [_ Hk]. apply Forall_app in Hk as [Hk _]. apply Forall_app in Hw as [_ Hw].
  apply NoDup_app in Hn as (Hn & _ & _). apply NoDup_app in Hn as (_ & _ & Hn). apply NoDup_app in Hn as (Hn & _ & _).
  by constructor.
Qed.
Lemma fine_sched s s' :
  sched_ok s → fine s' → request_queue_ s' = [] → req_static <$> requests s' = req_static <$> requests s →
  located s' ≡ₚ located s → sched_ok s'.
Proof.
  intros Ho Hf Hq Hs Hl. constructor; try apply Hf.
  - rewrite Hl. eapply Forall_impl; [apply Ho|]. intros id. by apply known_static.
  - rewrite Hl. apply Ho.
  - rewrite Hq. apply Hf.
Qed.
Lemma fine_queue_empty s : fine s → fine (set_request_queue [] s).
Proof. intros [[] ? ? ? ? ? ?]. by constructor; [constructor|..]. Qed.
(** The beginning of a step: the requests of the batch that go on are ready for their
    queues. *)
Lemma collect_safe disconnected (f : list nat → prog Sched (list nat)) Q s :
  sched_ok s → (∀ fin s', requeues (in_batch s') s' → wp (f fin) Q s') →
  wp (receive_requests ≫= λ _, gets running_requests_ ≫= λ l,
      reap disconnected (rev l) [] ≫= λ x : list (option nat) * list nat,
      modify (λ s, set_running (rev x.1) (running_sequences_ s) (running_sequences_budgets_ s) s) ≫= λ _, f x.2) Q s.
Proof.
  intros Ho Hgo. pose proof (sched_fine _ Ho) as Hf. apply wp_bind. eapply wp_mono.
  { apply wp_post; [|apply receive_requests_received]. unfold receive_requests. apply wp_bind, wp_gets, wp_bind, wp_modify.
    apply receive_all_safe; [by apply fine_queue_empty|]. pose proof (ok_waiting _ Ho) as Hw. by apply Forall_app in Hw as [Hw _]. }
  intros u1 s1 [[Hf1 Hl1] [Es1 _ _ _ _ _ _ El1]]. simpl in Es1.
  assert (located s1 ≡ₚ located s) as El by (rewrite El1; unfold located; simpl; unfold in_batch; simpl; perm). clear El1.
  assert (Forall (λ id, is_Some (requests s1 !! id)) (in_batch s1) ∧
          NoDup (in_batch s1 ++ running_queue_ s1 ++ waiting_priority_queue_ s1)) as [Hk1 Hn1].
  { pose proof (ok_known _ Ho) as Hk. pose proof (ok_nodup _ Ho) as Hn. rewrite <-El, located_parts in Hk, Hn.
    apply Forall_app in Hk as [Hk _]. apply Forall_app in Hk as [Hk _]. apply NoDup_app in Hn as (Hn & _ & _). split; [|done].
    eapply Forall_impl; [exact Hk|]. intros id. by apply known_static. }
  apply wp_bind, wp_gets, wp_bind. eapply wp_mono.
  { apply wp_post; [|apply reap_reaped]. apply reap_safe; [apply Hf1|..]; rewrite rev_omap, <-Permutation_rev; [done|].
    by apply NoDup_app in Hn1 as (? & _ & _). }
  intros [l' fin] s2 ((Hs2 & Hc2 & _ & Hd2) & Q2 & Hsub & _). simpl in *. apply wp_bind, wp_modify.
  pose proof (fine_calm _ _ Hf1 Hs2 Hc2) as Hf2. rewrite rev_omap in Hsub. fold (in_batch s1) in Hsub.
  set (s3 := set_running (rev l') _ _ s2). assert (in_batch s3 = rev (ids l')) as Eb by (unfold in_batch; simpl; apply rev_omap).
  assert (Forall (λ id, is_Some (requests s2 !! id)) (ids l')) as Hk2.
  { rewrite Forall_forall in Hk1 |- *. intros id Hid. apply (calm_known s1); [done|]. apply Hk1.
    rewrite (Permutation_rev (in_batch s1)). by eapply elem_of_sublist. }
  apply Hgo. constructor; [by apply fine_batch| |rewrite Eb; by rewrite <-Permutation_rev|rewrite Eb; by rewrite <-Permutation_rev|].
  - simpl. by rewrite (qt_queue _ _ Q2), (lt_queue _ _ Hl1).
  - rewrite Eb, <-Permutation_rev. simpl. pose proof (qt_running _ _ Q2 false) as R2. pose proof (qt_waiting _ _ Q2 false) as W2.
    simpl in R2, W2. rewrite R2, W2. eapply sublist_NoDup; [|by apply sublist_app; [exact Hsub|reflexivity]].
    by rewrite <-Permutation_rev.
Qed.
Lemma collect_requests_safe disconnected s :
  sched_ok s → wp (collect_requests disconnected) (λ _ s', fine s' ∧ request_queue_ s' = []) s.
Proof.
  intros Ho. apply (collect_safe disconnected (λ fin, requeue_running ≫= λ _,
    modify (λ s, set_last_step_prefill false (set_running [] [] [] s)) ≫= λ _, mret fin)); [done|].
  intros fin s1 Hr. apply wp_bind.
  eapply wp_mono; [by apply requeue_running_safe|]. intros u s2 [[[] ? ? ? ? ? ?] Hq]. apply wp_bind, wp_modify, wp_ret. simpl.
  split; [|done]. by constructor; [constructor|..].
Qed.

Lemma no_beam s id : sane s → ¬ searches s id.
Proof. intros [_ Hr] (r & Hid & Hb). pose proof (ro_beam _ _ (Hr id r Hid)). congruence. Qed.
Lemma step_rounds n s : sched_ok s → (length (located s) < n)%nat → ∀ s1 fin, located s1 ++ fin ≡ₚ located s →
  (length (waiting_priority_queue_ s1) < n)%nat ∧ (length (running_queue_ s1) < n)%nat.
Proof.
  intros _ Hn s1 fin E. apply Permutation_length in E. unfold located in E. rewrite !length_app in E.
  unfold located in Hn. rewrite !length_app in Hn. lia.
Qed.

(** C9: a step never fails in the states [sched_ok].  The manager of the KV cache keeps its
    contract, in which no prefetch is pending.  Options ([config_ok]): no latency-aware
    scheduling; the predictor's constant overhead below [max_global_ttft_ms] (else line 428
    is a LOG(FATAL)); a positive token budget, and numbers far below [2 ^ 31].
    Requests ([request_ok]): online, without beam search, each in one place, with 1 to
    [best_of] sequences, [best_of = 1] without prefix cache (else line 271 fails a CHECK), a
    nonempty prompt, buffers of the capacity (at most [2 ^ 26]), no empty stop sequence, a
    finished sequence with a valid cached status; those that wait are preempted or have one
    sequence.  From there [prepare_batch] returns: no failed check, no LOG(FATAL), no
    undefined behaviour, and both loops end within as many rounds as there are requests.
    Afterwards the state is [sched_ok] again and every request is where it can be found:
    nothing is lost or duplicated. *)
Theorem step_safe n disconnected s :
  sched_ok s → (length (located s) < n)%nat →
  wp (prepare_batch estimated_latency n disconnected) (λ _ s', sched_ok s' ∧ located s' ≡ₚ located s) s.
Proof.
  intros Ho Hn. assert (wp (prepare_batch estimated_latency n disconnected) (λ _ s', fine s' ∧ request_queue_ s' = [] ∧
    req_static <$> requests s' = req_static <$> requests s) s) as Hw.
  { unfold prepare_batch. apply wp_bind.
    eapply wp_mono; [apply wp_post; [by apply collect_requests_safe|apply collect_requests_collected]|].
    intros fin s1 ([Hf1 Hq1] & [Es1 _ (Er1 & Eq1 & El1) _ _ _ Eloc]).
    destruct (step_rounds n s Ho Hn _ _ Eloc) as [Hw1 Hr1]. apply wp_bind.
    eapply wp_mono; [apply wp_post; [by apply fill_batch_safe|by apply fill_batch_filled]|].
    intros fin' s2 ([[[] ? ? ? ? ? ?] Hl2] & ds & [Es2 _ _ _ _]). apply wp_modify. split; [by constructor; [constructor|..]|].
    split; [by rewrite <-Hq1, <-(lt_queue _ _ Hl2)|]. simpl. by rewrite Es2, Es1. }
  eapply wp_mono; [apply (wp_post _ _ _ _ Hw (prepare_batch_located estimated_latency n disconnected s))|].
  intros u s' [(Hf & Hq & Es) (ds & Hds & Hloc)]. assert (located s' ≡ₚ located s) as El.
  { destruct ds as [|id ds]; [|apply Forall_cons in Hds as [Hds _]; by apply no_beam in Hds; [|apply Ho]].
    destruct Hloc as [Hloc|(x & id & Hid & _)]; [done|]. rewrite (fn_no_running _ Hf) in Hid. by apply elem_of_nil in Hid. }
  split; [by eapply fine_sched|done].
Qed.
End scheduler.
