(* ===== verification/ChunkedSafe.v ===== *)
(** A step with chunked prefill is safe: what [SchedSafe] shows of the continuous scheduler,
    of [Chunked], for online requests of one sequence without speculative tokens and without
    predicted latencies.  The batch is exactly accounted for: the chunks and what is left of
    the budget add up to the budget of the step. *)

From stdpp Require Import base gmap list strings.
From Stdlib Require Import ZArith Lia.
From S2P Require Import Prelude HashKey Blocks KVState Stopping IncrementalDecoder LogprobState Sequence Request.
From S2P Require Import Scheduler SchedBatch SchedOrder Chunked ChunkedOrder SchedSafe.
Open Scope Z_scope.

(** [allocate_shared] keeps the invariant of the manager, and the tokens. *)
Class SharedAllocationLaw (K T F : Type) `{KVCacheManager K T F} `{!KVCacheManagerLaws} `{!SharedAllocation K T F} :=
  lawful_shared : lawful kvm_allocate_shared.

Section chunked_safe.
Context `{FloatOps F} `{DoubleOps D} `{DoubleTrunc D} `{ProfileManager D} `{PriorityQueueLaws}.
Context `{KVCacheManager K T F} `{!KVCacheManagerLaws} `{!SharedAllocation K T F} `{!SharedAllocationLaw K T F}.
Variable estimated_latency : Request T F → D.
Variable chunk : ChunkOptions.
Abbreviation Sched := (Scheduler.Sched (F := F) (K := K) (T := T)).
Implicit Types (s : Sched) (r : Request T F) (id i : nat) (off : bool).
Implicit Types (b : Budgets (D := D)) (c : Candidates (D := D)) (p : PrefillLoop (D := D)) (x : ChunkLoop (D := D)).
Abbreviation configured s := (config_ok (D := D) (options_ s) (min_speculative_tokens_required_ s)).
(** The sizes of a safe configuration *)
Hypothesis chunk_tokens : 0 < max_tokens_per_chunk_for_prefill chunk < 2 ^ 31.
Hypothesis match_frequency : 0 < chunked_match_frequency chunk < 2 ^ 31.
(** [x + 0.0] compares as [x], and the overhead of a step is less than [INT_MAX]. *)
Hypothesis add_zero : ∀ d1 d2, d_ltb (d_add d1 (d_of_int (D := D) 0)) d2 = d_ltb d1 d2.
Hypothesis overhead : d_ltb constant_overhead (d_of_int (D := D) (2 ^ 31 - 1)) = true.

(** ** Allocation for a chunk *)

Lemma allocate_shared_safe id i s :
  sane s → live s id i → wp (allocate_shared_blocks_for chunk id i) (λ _ s', sane s' ∧ calm s s') s.
Proof.
  intros Hs Hi. destruct (live_sequence s id i Hs Hi) as (r & q & Hr & Hq & _ & _ & Hk & Hn).
  pose proof (on_seq_kv_live id i _ s lawful_shared Hs Hi) as Hgo.
  unfold allocate_shared_blocks_for. apply wp_bind. eapply get_sequence_wp; [done..|]. destruct (_ =? 0)%nat; [done|].
  destruct (is_chunked_prefill_stage q); [|by apply wp_ret]. cbv zeta.
  rewrite (u64_id (Z.max _ _)), (u64_id (chunked_match_frequency chunk)) by lia.
  set (m := Z.max _ _). rewrite (u64_id (_ + m)), u64_id by lia. set (t := _ / m).
  assert (0 ≤ t < 2 ^ 32) as Ht.
  { split; [apply Z.div_pos; lia|]. apply Z.div_lt_upper_bound; lia. }
  destruct (t <? _) eqn:E; [done|]. apply Z.ltb_ge in E. destruct (_ =? 0) eqn:E0; [apply Z.eqb_eq in E0; lia|].
  rewrite (u64_id (t + _)), u64_id by lia. destruct (_ / _ =? 0) eqn:E1.
  { apply Z.eqb_eq, Z.div_small_iff in E1; lia. }
  case_match; [exact Hgo|apply wp_ret]. done.
Qed.
(** A chunk has a token at least, and no more than it is given. *)
Lemma allocate_blocks_safe id i n s :
  sane s → live s id i → min_speculative_tokens_required_ s = 0 → 1 ≤ n < 2 ^ 32 →
  wp (allocate_blocks_for chunk id i n) (λ a s', sane s' ∧ calm s s' ∧ 1 ≤ a.2 ≤ n) s.
Proof.
  intros Hs Hi Hm Hn. unfold allocate_blocks_for. apply wp_bind, wp_gets. unfold min_spec. rewrite Hm, (u64_id 0) by lia.
  apply wp_bind, wp_check; [apply Z.ltb_lt; lia|]. apply wp_bind. eapply wp_mono; [by apply allocate_shared_safe|].
  intros u s1 [Hs1 Hc1]. pose proof (calm_live _ _ _ _ Hc1 Hi) as Hi1.
  destruct (live_sequence s1 id i Hs1 Hi1) as (r & q & Hr & Hq & _ & _ & Hk & Ht).
  apply wp_bind. eapply get_sequence_wp; [done..|]. apply wp_bind, wp_gets. cbv zeta. fold (cached_num q) (seq_cached q).
  change (seq_cached q) with (cached_num q). rewrite (u64_id (cached_num q + n)) by lia.
  set (h := Z.min _ _). rewrite (u64_id (h + 0)), Z.add_0_r by lia. set (k := if _ : bool then h else h).
  assert (k = h) as -> by (unfold k; by destruct (_ && _)). apply wp_bind, wp_check; [apply Z.ltb_lt; lia|].
  apply wp_bind. eapply wp_mono; [apply (on_seq_kv_live id i _ s1 (lawful_allocate h ltac:(lia))); done|].
  intros ok s2 [Hs2 Hc2]. apply wp_ret. simpl. split; [done|]. split; [by etrans|]. rewrite u64_id; lia.
Qed.

(** ** The state while a batch is filled *)

Section filling.
(** The tokens and the sequences of a step *)
Variables (M N : Z).
Hypothesis tokens_range : 0 < M < 2 ^ 31.
Hypothesis seqs_range : 0 < N < 2 ^ 31.

(** Requests have one sequence each, and there are no speculative tokens. *)
Record plain s : Prop := {
  pl_min : min_speculative_tokens_required_ s = 0;
  pl_best : map_Forall (λ _ r, best_of r = 1%nat) (requests s);
}.
Lemma plain_later s s' : later s s' → plain s → plain s'.
Proof.
  intros Hl [Hm Hb]. constructor; [by rewrite (lt_min _ _ Hl)|]. intros id r' Hr'.
  destruct (lt_from _ _ Hl id r' Hr') as (r & Hr & Hk). rewrite (kp_best _ _ Hk). by apply (Hb id).
Qed.
Lemma plain_single s id r : sane s → plain s → requests s !! id = Some r → length (sequences_ r) = 1%nat.
Proof.
  intros Hs Hp Hr. pose proof (ro_size _ _ (sn_requests _ Hs _ _ Hr)) as Hz. rewrite (pl_best _ Hp _ _ Hr) in Hz. lia.
Qed.
Lemma later_live s s' id i : later s s' → live s id i → live s' id i.
Proof.
  intros Hl (r & Hr & Hi). destruct (lt_kept _ _ Hl id r Hr) as (r' & Hr' & Hk). exists r'.
  split; [done|]. by rewrite (kp_length _ _ Hk).
Qed.

(** The batch and the budgets left add up to those of the step; with an empty batch the
    estimate is the overhead of a step. *)
Record accounted b s : Prop := {
  ac_length : length (running_sequences_budgets_ s) = length (running_sequences_ s);
  ac_each : Forall (λ n, 1 ≤ n) (running_sequences_budgets_ s);
  ac_tokens : total (running_sequences_budgets_ s) + remaining_token_budget b = M;
  ac_seqs : Z.of_nat (length (running_sequences_ s)) + remaining_seq_budget b = N;
  ac_left : 0 ≤ remaining_token_budget b;
  ac_left_seqs : 0 ≤ remaining_seq_budget b;
  ac_latency : running_sequences_ s = [] → ∀ d, d_ltb (estimate_latency b) d = d_ltb constant_overhead d;
}.
Lemma each_nonneg l : Forall (λ n, 1 ≤ n) l → 0 ≤ total l.
Proof. intros Hl. apply total_nonneg. eapply Forall_impl; [exact Hl|]. intros n Hn. cbv beta in Hn. lia. Qed.
Lemma accounted_bounded b s : accounted b s → bounded b ∧ remaining_token_budget b ≤ M ∧ remaining_seq_budget b ≤ N.
Proof. intros [? Hp ? ? ? ? _]. pose proof (each_nonneg _ Hp). unfold bounded. lia. Qed.
Lemma accounted_same b s s' : same_batch s s' → accounted b s → accounted b s'.
Proof. intros [_ _ _ Es Eb] []. by constructor; rewrite ?Es, ?Eb. Qed.

(** What the sequence of a request takes: nothing when it is finished *)
Definition chunk_of b s id c : Prop :=
  c = Candidates_none ∨
  ∃ i n, live s id i ∧ 1 ≤ n ≤ remaining_token_budget b ∧ 1 ≤ remaining_seq_budget b ∧
    allocated_tokens c = n ∧ allocated_seqs c = 1 ∧ candidate_sequences c = [(id, i)] ∧ candidate_token_budgets c = [n].
Lemma chunk_within b s id c : bounded b → chunk_of b s id c → within b s id c.
Proof.
  intros Hb [->|(i & n & Hi & Hn & Hs & Et & Es & Eq & Eb)]; [by apply within_none|].
  constructor; rewrite ?Et, ?Es, ?Eq; [lia|lia|by apply Forall_singleton|done].
Qed.
Lemma accounted_join b s s' id c :
  same_batch s s' → accounted b s → chunk_of b s' id c →
  accounted (take_budget c b)
    (set_running (running_requests_ s' ++ [Some id]) (running_sequences_ s' ++ candidate_sequences c)
       (running_sequences_budgets_ s' ++ candidate_token_budgets c) s').
Proof.
  intros Hsame Ha Hc. pose proof (accounted_same _ _ _ Hsame Ha) as Ha'. pose proof (accounted_bounded _ _ Ha') as (_ & Ht & Hq).
  destruct Ha' as [Hl Hp Hm Hn H0t H0s Hlat]. destruct Hc as [->|(i & n & _ & Hn1 & Hs1 & Et & Es & Eq & Eb)].
  - constructor; simpl; rewrite ?app_nil_r, ?Z.sub_0_r, ?u64_id by lia; try done.
    intros E d. by rewrite add_zero, Hlat.
  - constructor; simpl; rewrite ?Eq, ?Eb, ?Et, ?Es, ?length_app, ?total_app, ?u64_id by lia; simpl; try lia.
    + apply Forall_app. split; [done|]. apply Forall_singleton. lia.
    + intros E. by destruct (running_sequences_ s').
Qed.

(** ** Running requests *)

Record tracked x s : Prop := {
  tk_fine : fine s;
  tk_plain : plain s;
  tk_accounted : accounted (budgets (locals x)) s;
  tk_stage : Forall (λ y : nat * nat, live s y.1 y.2) (prefill_stage_sequences x);
}.
Lemma stage_later s s' l :
  later s s' → Forall (λ y : nat * nat, live s y.1 y.2) l → Forall (λ y : nat * nat, live s' y.1 y.2) l.
Proof. intros Hl Hf. eapply Forall_impl; [exact Hf|]. intros y. by apply later_live. Qed.
Lemma tracked_step x b s s' :
  tracked x s → fine s' → later s s' → accounted b s' → tracked (set_chunk_budgets b x) s'.
Proof. intros [? ? ? ?] ? ? ?. constructor; simpl; [done|by eapply plain_later|done|by eapply stage_later]. Qed.
(** [allocated_estimate_latency] plays no role. *)
Lemma chunk_loop_safe b id i stage s :
  sane s → configured s → plain s → live s id i → bounded b → 0 < remaining_token_budget b → 0 < remaining_seq_budget b →
  wp (chunk_loop chunk b id [i] Candidates_none stage)
    (λ res s', sane s' ∧ calm s s' ∧ chunk_of b s' id res.1.2 ∧
       (res.1.1 ≠ AllScheduled → res.1.2 = Candidates_none) ∧ (res.2 = stage ∨ res.2 = stage ++ [(id, i)])) s.
Proof.
  intros Hs Hcf Hp Hi [Hb1 Hb2] Ht Hq0. cbn [chunk_loop]. apply wp_bind. eapply wp_mono; [by apply seq_finished_live|].
  intros f s1 [Hs1 Hc1]. pose proof (calm_live _ _ _ _ Hc1 Hi) as Hi1. destruct f.
  { apply wp_ret. split; [done|]. split; [done|]. split; [by left|]. split; [done|by left]. }
  destruct (live_sequence s1 id i Hs1 Hi1) as (r & q & Hr & Hq & _). pose proof (plain_later _ _ (calm_later _ _ Hc1) Hp) as Hp1.
  apply wp_bind. eapply get_sequence_wp; [done..|]. apply wp_bind, wp_get. cbv zeta.
  assert (∀ stop, stop ≠ AllScheduled → wp (mret (stop, Candidates_none, stage)) (λ (res : schedule_stop * Candidates * list (nat * nat)) s',
    sane s' ∧ calm s s' ∧ chunk_of b s' id res.1.2 ∧
    (res.1.1 ≠ AllScheduled → res.1.2 = Candidates_none) ∧ (res.2 = stage ∨ res.2 = stage ++ [(id, i)])) s1) as Hnone.
  { intros stop Hst. apply wp_ret. split; [done|]. split; [done|]. split; [by left|]. split; [done|by left]. }
  destruct (_ || _); [by apply Hnone|]. rewrite (cf_latency _ _ (calm_configured _ _ Hc1 Hcf)).
  apply wp_bind, wp_ret. simpl. set (n := Z.min _ _).
  assert (1 ≤ n ≤ remaining_token_budget b) as Hn.
  { unfold n, chunk_size. rewrite Z.sub_0_r, !u64_id by lia. lia. }
  apply wp_bind. eapply wp_mono; [apply (allocate_blocks_safe id i n s1); [done|done|apply Hp1|lia]|].
  intros a s2 (Hs2 & Hc2 & Ha). assert (calm s s2) as Hc02 by (by etrans). destruct (a.1); simpl.
  2: { apply wp_ret. split; [done|]. split; [done|]. split; [by left|]. split; [done|by left]. }
  pose proof (calm_live _ _ _ _ Hc2 Hi1) as Hi2. destruct (live_sequence s2 id i Hs2 Hi2) as (r2 & q2 & Hr2 & Hq2 & _).
  apply wp_bind. eapply get_sequence_wp; [done..|]. apply wp_ret. simpl. split; [done|]. split; [done|]. split.
  - right. exists i, a.2. split; [done|]. split; [lia|]. split; [lia|]. simpl. by rewrite !u64_id by lia.
  - split; [done|]. destruct (_ || _); [by right|by left].
Qed.
Lemma handle_abnormal_none off stop b s :
  post (handle_abnormal_request off stop Candidates_none b) (λ b' s', b' = b ∧ same_batch s s') s.
Proof.
  unfold handle_abnormal_request. apply post_bind. eapply post_mono; [apply running_top_state|]. intros id ? [-> _].
  apply post_bind, post_get, post_bind. eapply post_mono; [apply get_request_quiet|]. intros r ? [-> _]. simpl.
  case_match; [by apply post_ret|]. apply post_bind. eapply (post_mono _ (λ _ s', s' = s)).
  { assert (∀ l, post (sum l) (λ _ s', s' = s) s) as Hsum by (intros []; [done|by apply post_ret]).
    destruct stop; [|by apply post_ret|]; (apply post_bind, post_check; intros _; apply post_bind;
      eapply post_mono; [apply Hsum|]; intros u ? ->; by apply post_ret). }
  intros [] ? ->; [|by apply post_ret]. apply post_bind. eapply post_mono; [apply pop_top_same|].
  intros u s1 G1. apply post_bind. eapply post_mono; [apply deallocate_request_quiet|].
  intros u1 s2 G2%quiet_same_batch. apply post_bind, post_modify, post_ret. split; [done|].
  etrans; [exact G1|]. etrans; [exact G2|]. by constructor.
Qed.

(** A round: the request leaves the queue, or the rounds end. *)
Record chunked_round s (go : bool) x s' : Prop := {
  ck_tracked : tracked x s';
  ck_later : later s s';
  ck_rounds : go = true → S (length (running_queue_ s')) = length (running_queue_ s);
}.
Lemma chunk_running_request_safe id l x s :
  tracked x s → running_queue_ s = id :: l →
  0 < remaining_token_budget (budgets (locals x)) → 0 < remaining_seq_budget (budgets (locals x)) →
  wp (chunk_running_request chunk false x) (λ res s', chunked_round s res.1 res.2 s') s.
Proof.
  intros [Hf Hp Ha Hst] Hq Ht Hn. pose proof (fn_running _ Hf) as Hr. rewrite Hq in Hr. apply Forall_cons in Hr as [[r Hr] _].
  pose proof (accounted_bounded _ _ Ha) as (Hb & _). pose proof (plain_single _ _ _ (fn_sane _ Hf) Hp Hr) as Hlen.
  unfold chunk_running_request. apply wp_bind. unfold running_top. apply wp_bind, wp_get. simpl. rewrite Hq. apply wp_ret.
  apply wp_bind. eapply get_request_wp; [done|]. cbv zeta. rewrite Hlen. cbn [seq].
  apply wp_bind. eapply wp_mono; [apply wp_post; [apply (chunk_loop_safe _ id 0); try done|apply chunk_loop_quiet]|].
  1,2: apply Hf. { exists r. split; [done|lia]. }
  intros [[stop c] stage] s1 ((Hs1 & Hc1 & Hc & Hnone & Hstage) & G1). simpl in *.
  pose proof (fine_calm _ _ Hf Hs1 Hc1) as Hf1. pose proof (qt_running _ _ (cm_quiet _ _ Hc1) false) as R1. simpl in R1.
  pose proof (calm_later _ _ Hc1) as L1. pose proof (chunk_within _ _ _ _ Hb Hc) as Hw.
  pose proof (accounted_same _ _ _ (quiet_same_batch _ _ G1) Ha) as Ha1.
  assert (Forall (λ y : nat * nat, live s1 y.1 y.2) stage) as Hst1.
  { pose proof (stage_later _ _ _ L1 Hst) as Hst'. destruct Hstage as [->| ->]; [done|]. apply Forall_app. split; [done|].
    apply Forall_singleton. apply (later_live s); [done|]. exists r. split; [done|simpl; lia]. }
  set (x1 := mkChunkLoop (locals x) stage).
  assert (tracked x1 s1) as Hk1 by (constructor; [done|by eapply plain_later|done|done]).
  apply wp_bind, wp_check; [apply Z.leb_le, Hw|]. apply wp_bind, wp_check; [apply Z.leb_le, Hw|].
  assert (∀ go x' s', chunked_round s1 go x' s' → chunked_round s go x' s') as Hback.
  { intros go x' s' [? ? Hrounds]. constructor; [done|by etrans|]. by rewrite <-R1. }
  rewrite Hq in R1.
  assert (∀ stop', c = Candidates_none → (stop' ≠ NoBudget → l = []) →
    wp (handle_abnormal_request false stop' c (budgets (locals x)) ≫= λ b,
        mret (false, set_locals (exhausted stop' (set_budgets b (locals x))) x1)) (λ res s', chunked_round s res.1 res.2 s') s1) as Habn.
  { intros stop' -> Hl. apply wp_bind.
    eapply wp_mono; [apply wp_post; [by apply (handle_abnormal_safe stop' id l)|apply handle_abnormal_none]|].
    intros b' s2 ([Hf2 Hl2 _ _] & -> & G2). apply wp_ret, Hback. constructor; [|done|done].
    pose proof (tracked_step x1 _ _ _ Hk1 Hf2 Hl2 (accounted_same _ _ _ G2 Ha1)) as [? ? ? ?]. by constructor; destruct stop'. }
  destruct stop.
  - apply wp_bind. eapply pop_top_wp; [done|]. apply wp_bind. unfold join_batch. apply wp_modify, wp_ret, Hback.
    constructor; [|by apply later_same|by rewrite R1]. apply (tracked_step x1 _ s1); [done| |by apply later_same|].
    + apply fine_batch. by eapply fine_pop_top.
    + apply (accounted_join _ s1 (set_running_queue false l s1)); [by constructor|done|].
      destruct Hc as [->|(i & n & [r' Hi] & Hc)]; [by left|]. right. exists i, n. split; [by exists r'|done].
  - apply Habn; [by apply Hnone|done].
  - apply wp_bind, wp_get. rewrite (fn_no_running _ Hf1), andb_false_r. simpl. rewrite R1. case_match eqn:El.
    + apply bool_decide_eq_true in El. simpl in El. destruct l as [|y l0] using rev_ind; [simpl in El; lia|].
      apply wp_bind. unfold running_back. apply wp_bind, wp_get. simpl. rewrite R1, app_comm_cons, last_snoc. apply wp_ret, wp_bind.
      destruct (decide (y = id)) as [->|_].
      { pose proof (fn_nodup _ Hf1) as Hnd. rewrite R1 in Hnd. apply NoDup_cons in Hnd as [Hnd _]. set_solver. }
      eapply wp_mono; [apply wp_post; [by apply (preempt_back_safe (id :: l0) y s1)|apply preempt_back_same]|].
      intros u s2 ((Hf2 & Hl2 & R2) & G2). apply wp_ret, Hback. constructor; [|done|].
      * pose proof (tracked_step x1 _ _ _ Hk1 Hf2 Hl2 (accounted_same _ _ _ G2 Ha1)) as [? ? ? ?]. by constructor.
      * intros _. rewrite R1, R2. simpl. rewrite length_app. simpl. lia.
    + apply bool_decide_eq_false in El. simpl in El. apply Habn; [by apply Hnone|]. intros _. destruct l; [done|simpl in El; lia].
Qed.
Lemma handle_running_queue_safe n x s :
  tracked x s → (length (running_queue_ s) < n)%nat →
  wp (handle_running_queue_requests chunk n false x) (λ x' s', tracked x' s' ∧ later s s') s.
Proof.
  revert x s. induction n as [|n IH]; intros x s Hk Hn; [lia|]. cbn [handle_running_queue_requests]. apply wp_bind, wp_get. simpl.
  destruct (running_queue_ s) as [|id l] eqn:Hq; [by apply wp_ret|]. destruct (_ || _) eqn:E1; [by apply wp_ret|].
  apply orb_false_iff in E1 as [[[_ E1]%orb_false_iff _]%orb_false_iff E2]. apply negb_false_iff, Z.ltb_lt in E1, E2.
  unfold min_spec in E1. rewrite (pl_min _ (tk_plain _ _ Hk)), u64_id in E1 by lia.
  apply wp_bind. eapply wp_mono; [by apply (chunk_running_request_safe id l)|]. intros [go x'] s' [Hk' Hl' Hr']. simpl in *.
  destruct go; [|by apply wp_ret]. eapply wp_mono; [apply IH; [done|rewrite Hq in Hr'; specialize (Hr' eq_refl); simpl in *; lia]|].
  intros x2 s2 [? ?]. split; [done|by etrans].
Qed.

(** ** Waiting requests *)

Lemma chunk_prefill_allocate_safe id i n s :
  fine s → plain s → live s id i → 1 ≤ n < 2 ^ 32 →
  wp (chunk_prefill_allocate chunk id i n) (λ a s', sane s' ∧ calm s s' ∧ 1 ≤ a.2 ≤ n) s.
Proof.
  intros Hf Hp Hi Hn. unfold chunk_prefill_allocate. apply wp_bind.
  eapply wp_mono; [apply (allocate_blocks_safe id i n s); [apply Hf|done|apply Hp|done]|].
  intros a s1 (Hs1 & Hc1 & Ha). destruct (a.1); [by apply wp_ret|].
  destruct (live_request _ _ _ (calm_live _ _ _ _ Hc1 Hi)) as [r Hr]. apply wp_bind. eapply get_request_wp; [done|].
  apply wp_bind, wp_get. rewrite (fn_no_running _ (fine_calm _ _ Hf Hs1 Hc1)), andb_false_r. by apply wp_ret.
Qed.
Lemma chunk_prefill_loop_safe b id i s :
  fine s → plain s → live s id i → bounded b → 0 < remaining_token_budget b →
  wp (chunk_prefill_loop chunk b id [i] Candidates_none 0)
    (λ res s', sane s' ∧ calm s s' ∧ chunk_of b s' id res.2 ∧
       (res.1 ≠ AllScheduled → candidate_sequences res.2 = [])) s.
Proof.
  intros Hf Hp Hi [Hb1 Hb2] Ht. cbn [chunk_prefill_loop]. apply wp_bind.
  eapply wp_mono; [by apply seq_finished_live; [apply Hf|]|]. intros f s1 [Hs1 Hc1]. destruct f.
  { apply wp_ret. split; [done|]. split; [done|]. split; [by left|done]. }
  pose proof (calm_live _ _ _ _ Hc1 Hi) as Hi1. pose proof (fine_calm _ _ Hf Hs1 Hc1) as Hf1.
  destruct (live_sequence s1 id i Hs1 Hi1) as (r & q & Hr & Hq & _ & _ & _ & Hlen).
  apply wp_bind. eapply get_sequence_wp; [done..|]. apply wp_bind, wp_gets. cbv zeta.
  assert (∀ stop s', sane s' → calm s s' → wp (mret (stop, Candidates_none)) (λ (res : schedule_stop * Candidates) s',
    sane s' ∧ calm s s' ∧ chunk_of b s' id res.2 ∧ (res.1 ≠ AllScheduled → candidate_sequences res.2 = [])) s') as Hnone.
  { intros stop s' ? ?. apply wp_ret. split; [done|]. split; [done|]. split; [by left|done]. }
  destruct (_ || _) eqn:E1; [by apply (Hnone NoBudget s1)|]. rewrite (cf_latency _ _ (fn_config _ Hf1)).
  apply orb_false_iff in E1 as [_ E1]. apply Z.ltb_ge in E1. simpl in E1. rewrite u64_id in E1 by lia.
  apply wp_bind, wp_ret. simpl. set (n := Z.min (Z.min _ _) _).
  assert (1 ≤ n ≤ remaining_token_budget b) as Hn.
  { unfold n, chunk_size. rewrite Z.sub_0_r, !u64_id by lia. lia. }
  apply wp_bind. eapply wp_mono.
  { apply (chunk_prefill_allocate_safe id i n s1); [done|by apply (plain_later s); [apply calm_later|]|done|lia]. }
  intros a s2 (Hs2 & Hc2 & Ha). assert (calm s s2) as Hc02 by (by etrans).
  pose proof (calm_live _ _ _ _ Hc2 Hi1) as Hi2. destruct (a.1); simpl.
  - apply wp_ret. simpl. split; [done|]. split; [done|]. split; [|done].
    right. exists i, a.2. split; [done|]. split; [lia|]. split; [lia|]. simpl. by rewrite !u64_id by lia.
  - apply wp_bind. eapply wp_mono; [by apply (on_seq_kv_live id i _ s2 lawful_deallocate)|].
    intros u s3 [Hs3 Hc3]. apply Hnone; [done|by etrans].
Qed.

(** A round: the request leaves the queue of those that wait, or a flag tells why not. *)
Record chunked_wait s x (go : bool) x' s' : Prop := {
  cw_tracked : tracked x' s';
  cw_later : later s s';
  cw_rounds : go = true → S (length (waiting_priority_queue_ s')) = length (waiting_priority_queue_ s);
  cw_exhausted : go = false → blocks_exhausted (locals x') || budget_exhausted (locals x') = true;
  cw_latency : latency_budget (budgets (locals x')) = latency_budget (budgets (locals x));
  cw_batch : running_sequences_ s' = [] → running_sequences_ s = [];
}.
Lemma chunk_prefill_request_safe x s :
  tracked x s → waiting_priority_queue_ s ≠ [] → 0 < remaining_token_budget (budgets (locals x)) →
  wp (chunk_prefill_request estimated_latency chunk false x) (λ res s', chunked_wait s x res.1 res.2 s') s.
Proof.
  intros [Hf Hp Ha Hst] Hne Ht. pose proof (accounted_bounded _ _ Ha) as (Hb & _).
  unfold chunk_prefill_request. apply wp_bind, waiting_top_wp; [done..|]. intros id Hin (r & Hr & Hw).
  apply wp_bind. eapply wp_mono; [apply finished_or_cancelled_sane; [apply Hf|by eexists]|]. intros f s1 (Hs1 & Hc1 & _ & _).
  pose proof (fine_calm _ _ Hf Hs1 Hc1) as Hf1. pose proof (qt_waiting _ _ (cm_quiet _ _ Hc1) false) as W1. simpl in W1.
  pose proof (quiet_same_batch _ _ (cm_quiet _ _ Hc1)) as B1. destruct (cm_kept _ _ Hc1 id r Hr) as (r1 & Hr1 & Hk1).
  pose proof (plain_later _ _ (calm_later _ _ Hc1) Hp) as Hp1. destruct f.
  - apply wp_bind. eapply wp_mono; [apply deallocate_request_sane; [done|by eexists]|]. intros u s2 [Hs2 Hc2].
    pose proof (fine_calm _ _ Hf1 Hs2 Hc2) as Hf2. pose proof (qt_waiting _ _ (cm_quiet _ _ Hc2) false) as W2. simpl in W2.
    pose proof (quiet_same_batch _ _ (cm_quiet _ _ Hc2)) as B2.
    apply wp_bind. unfold waiting_pop. apply wp_modify, wp_ret. simpl. set (s3 := set_waiting_queue false _ s2).
    assert (same_batch s s3) as B3 by (etrans; [exact B1|]; etrans; [exact B2|]; by constructor).
    assert (later s s3) as L3 by (etrans; [apply calm_later; by etrans|]; by apply later_same).
    constructor; try done; simpl.
    + pose proof (tracked_step x _ s s3 ltac:(by constructor) (fine_pop _ _ Hf2) L3 (accounted_same _ _ _ B3 Ha)) as [? ? ? ?].
      by constructor.
    + intros _. rewrite W2, W1. by apply pq_remove_length.
    + intros E. rewrite <-E. symmetry. apply (sb_sequences _ _ B3).
  - pose proof (plain_single _ _ _ Hs1 Hp1 Hr1) as Hlen.
    apply wp_bind. eapply get_request_wp; [done|]. apply wp_bind, wp_check; [by rewrite Hlen, orb_true_r|].
    rewrite Hlen. cbn [seq]. apply wp_bind. eapply wp_mono.
    { apply chunk_prefill_loop_safe; try done. exists r1. split; [done|lia]. }
    intros [stop c] s2 (Hs2 & Hc2 & Hc & Hnone). simpl in *. pose proof (quiet_same_batch _ _ (cm_quiet _ _ Hc2)) as B2. pose proof (fine_calm _ _ Hf1 Hs2 Hc2) as Hf2.
    pose proof (qt_waiting _ _ (cm_quiet _ _ Hc2) false) as W2. simpl in W2. assert (later s s2) as L2 by (by apply calm_later; etrans).
    assert (same_batch s s2) as B02 by (etrans; [exact B1|exact B2]).
    assert (tracked x s2) as Hk2.
    { pose proof (tracked_step x _ s s2 ltac:(by constructor) Hf2 L2 (accounted_same _ _ _ B02 Ha)) as [? ? ? ?]. by constructor. }
    assert (∀ stop', stop' ≠ AllScheduled → candidate_sequences c = [] →
      wp (for_each (candidate_sequences c) (λ y, on_seq_kv y.1 y.2 kvm_deallocate) ≫= λ _,
          mret (false, set_locals (exhausted stop' (locals x)) x)) (λ res s', chunked_wait s x res.1 res.2 s') s2) as Hstop.
    { intros stop' Hstop' ->. apply wp_bind, wp_ret, wp_ret. destruct Hk2 as [? ? ? ?].
      constructor; [constructor; try done; by destruct stop'|done|done| | |].
      - intros _. destruct stop'; [done|by rewrite orb_true_r|done].
      - by destruct stop'.
      - by rewrite (sb_sequences _ _ B02). }
    destruct stop; [|by apply (Hstop NoBudget); [|apply Hnone]|by apply (Hstop NoBlocks); [|apply Hnone]].
    apply wp_bind. unfold waiting_pop. apply wp_modify, wp_bind. unfold join_batch. apply wp_modify, wp_ret. simpl.
    set (s3 := set_waiting_queue false _ s2). set (s4 := set_running _ _ _ _).
    assert (later s s4) as L4 by (etrans; [exact L2|]; by apply later_same).
    assert (∀ j k, live s2 j k → live s3 j k) as Hlive by (by intros j k (r' & ? & ?); exists r').
    constructor; try done; simpl.
    + constructor; simpl.
      * by apply fine_batch, fine_pop.
      * eapply plain_later; [exact L4|done].
      * apply (accounted_join _ s s3); [etrans; [exact B02|by constructor]|done|].
        destruct Hc as [->|(i & n & Hi & Hc)]; [by left|]. right. exists i, n. split; [by apply Hlive|done].
      * apply Forall_app. split; [exact (tk_stage _ _ Hk2)|].
        destruct Hc as [->|(i & n & Hi & _ & _ & _ & _ & -> & _)]; [done|]. apply Forall_singleton. by apply Hlive.
    + intros _. rewrite W2, W1. by apply pq_remove_length.
    + intros [E _]%app_eq_nil. rewrite <-E. symmetry. apply (sb_sequences _ _ B02).
Qed.

Definition unhurried x s : Prop := running_sequences_ s = [] → latency_budget (budgets (locals x)) = d_of_int (2 ^ 31 - 1).
Lemma chunk_prefill_while_safe n x s :
  tracked x s → (length (waiting_priority_queue_ s) < n)%nat → unhurried x s →
  wp (chunk_prefill_while estimated_latency chunk n false x)
    (λ x' s', tracked x' s' ∧ later s s' ∧
       (running_sequences_ s' = [] → waiting_priority_queue_ s' ≠ [] →
        blocks_exhausted (locals x') || budget_exhausted (locals x') = true)) s.
Proof.
  revert x s. induction n as [|n IH]; intros x s Hk Hn Hu; [lia|]. cbn [chunk_prefill_while]. apply wp_bind, wp_get. simpl.
  destruct (_ || _) eqn:E1.
  { apply wp_ret. split; [done|]. split; [done|]. intros Hs Hw. destruct (tk_accounted _ _ Hk) as [El _ Em En _ _ Elat].
    assert (running_sequences_budgets_ s = []) as Eb by (by apply nil_length_inv; rewrite El, Hs).
    rewrite Eb in Em. rewrite Hs in En. simpl in Em, En. rewrite (bool_decide_eq_false_2 _ Hw) in E1.
    rewrite (Elat Hs), (Hu Hs), overhead in E1. simpl in E1. apply orb_true_iff in E1 as [E1|E1].
    - apply orb_true_iff in E1 as [E1|E1]; [|done]. apply negb_true_iff, Z.ltb_ge in E1. lia.
    - apply negb_true_iff, Z.ltb_ge in E1. lia. }
  apply orb_false_iff in E1 as [[[Hne E1]%orb_false_iff _]%orb_false_iff _]. apply bool_decide_eq_false in Hne.
  apply negb_false_iff, Z.ltb_lt in E1. apply wp_bind. eapply wp_mono; [by apply chunk_prefill_request_safe|].
  intros [go x'] s' [Hk' Hl' Hr' He' Elat' Hb']. simpl in *. destruct go.
  - eapply wp_mono; [apply IH; [done|specialize (Hr' eq_refl); lia|]|].
    { intros E. rewrite Elat'. by apply Hu, Hb'. }
    intros x2 s2 (? & ? & ?). split; [done|]. split; [by etrans|done].
  - apply wp_ret. split; [done|]. split; [done|]. intros _ _. by apply He'.
Qed.
Lemma chunk_waiting_safe n x s :
  tracked x s → (length (waiting_priority_queue_ s) < n)%nat →
  wp (chunk_waiting estimated_latency chunk n false x) (λ x' s', tracked x' s' ∧ later s s') s.
Proof.
  intros Hk Hn. unfold chunk_waiting. destruct (_ || _); [by apply wp_ret|]. apply wp_bind, wp_get.
  set (y := if bool_decide _ then _ else _). unfold chunk_prefill_requests. apply wp_bind.
  assert (tracked y s ∧ unhurried y s) as [Hy Hu].
  { unfold y, unhurried. destruct Hk as [? ? [] ?]. case_match eqn:E; [by split; [constructor; [..|constructor|]|]|].
    apply bool_decide_eq_false in E. split; [by constructor; [..|constructor|]|done]. }
  eapply wp_mono; [by apply chunk_prefill_while_safe|]. intros x1 s1 (Hk1 & Hl1 & He1). apply wp_bind.
  eapply wp_mono; [apply wp_post; [apply prefill_too_long_safe; [apply Hk1|done]|apply prefill_too_long_same]|].
  intros u s2 ([Hf2 Hl2] & B2). apply wp_ret. split; [|by etrans].
  pose proof (tracked_step x1 _ s1 s2 Hk1 Hf2 Hl2 (accounted_same _ _ _ B2 (tk_accounted _ _ Hk1))) as [? ? ? ?]. by constructor.
Qed.
(** The queues of offline requests are empty. *)
Lemma chunk_waiting_offline n x s :
  tracked x s → (0 < n)%nat →
  wp (chunk_waiting estimated_latency chunk n true x) (λ x' s', tracked x' s' ∧ s' = s) s.
Proof.
  intros Hk Hn. destruct n as [|n]; [lia|]. pose proof (fn_no_waiting _ (tk_fine _ _ Hk)) as Hw.
  unfold chunk_waiting. destruct (_ || _); [by apply wp_ret|]. apply wp_bind, wp_get. set (y := if bool_decide _ then _ else _).
  assert (tracked y s) as Hy.
  { unfold y. destruct Hk as [? ? [] ?]. case_match; by constructor; [..|constructor|]. }
  unfold chunk_prefill_requests. cbn [chunk_prefill_while]. apply wp_bind, wp_bind, wp_get. simpl.
  rewrite (bool_decide_eq_true_2 _ Hw). apply wp_ret, wp_bind. unfold prefill_too_long. apply wp_bind, wp_get. simpl.
  rewrite (bool_decide_eq_false_2 (_ ≠ [])) by (rewrite Hw; naive_solver). rewrite andb_false_r. by do 2 apply wp_ret.
Qed.

(** ** The rest of the budget *)

Lemma total_insert l i n m : l !! i = Some n → total (<[i := m]> l) = total l - n + m.
Proof.
  revert i. induction l as [|k l IH]; intros [|i] Hi; simplify_eq/=; [lia|]. rewrite IH by done. lia.
Qed.
(** The batch and some budgets *)
Definition filled s s' : Prop := fine s' ∧ later s s' ∧ ∃ b, accounted b s'.
Lemma handle_remaining_safe l stage p s :
  fine s → plain s → accounted (budgets p) s → Forall (λ y : nat * nat, live s y.1 y.2) stage →
  Forall (λ i, i < length (running_sequences_ s))%nat l →
  wp (handle_remaining_budget chunk l stage p) (λ _ s', filled s s') s.
Proof.
  revert stage p s. induction l as [|i l IH]; intros stage p s Hf Hp Ha Hst Hl.
  { apply wp_ret. split; [done|]. split; [done|by eexists]. }
  destruct stage as [|y stage]. { apply wp_ret. split; [done|]. split; [done|by eexists]. }
  apply Forall_cons in Hl as [Hi Hl]. pose proof Hst as [Hy Hst']%Forall_cons. destruct (lookup_lt_is_Some_2 _ _ Hi) as [z Hz].
  destruct (lookup_lt_is_Some_2 (running_sequences_budgets_ s) i) as [t Ht]; [by rewrite (ac_length _ _ Ha)|].
  cbn [handle_remaining_budget]. apply wp_bind, wp_get, wp_bind. eapply wp_at; [exact Hz|].
  destruct (decide (y ≠ z)); [by apply IH|]. apply wp_bind. eapply wp_at; [exact Ht|]. cbv zeta.
  rewrite (cf_latency _ _ (fn_config _ Hf)). apply wp_bind, wp_ret. simpl.
  pose proof (accounted_bounded _ _ Ha) as (_ & Hm & _). destruct Ha as [El Ep Em En Hle Hle' Hlat].
  assert (1 ≤ t) as Ht1 by (by eapply Forall_lookup_1 in Ht).
  assert (t ≤ total (running_sequences_budgets_ s)) as Ht2.
  { pose proof (total_insert _ _ _ 0 Ht) as E. pose proof (each_nonneg _ Ep).
    assert (0 ≤ total (<[i := 0]> (running_sequences_budgets_ s))); [|lia]. apply total_nonneg, Forall_insert; [|done].
    eapply Forall_impl; [exact Ep|]. intros k Hk. cbv beta in Hk. lia. }
  rewrite (u64_id (_ + t)) by lia. apply wp_bind. eapply wp_mono.
  { apply (allocate_blocks_safe y.1 y.2 (remaining_token_budget (budgets p) + t) s); [apply Hf|done|apply Hp|lia]. }
  intros a s1 (Hs1 & Hc1 & Ha1). pose proof (fine_calm _ _ Hf Hs1 Hc1) as Hf1. pose proof (calm_later _ _ Hc1) as L1.
  pose proof (quiet_same_batch _ _ (cm_quiet _ _ Hc1)) as B1. destruct B1 as [_ _ Er1 Es1 Eb1]. destruct (a.1); simpl.
  2: { apply wp_ret. split; [done|]. split; [done|]. exists (budgets p). by constructor; rewrite ?Es1, ?Eb1. }
  apply wp_bind, wp_modify. rewrite Eb1. apply wp_bind, wp_check; [apply Z.leb_le; lia|]. rewrite u64_id by lia.
  set (s2 := set_running _ _ _ s1). set (b2 := with_tokens _ _).
  assert (accounted b2 s2) as Ha2.
  { constructor; simpl.
    - by rewrite length_insert, Es1.
    - apply Forall_insert; [done|lia].
    - rewrite (total_insert _ _ _ _ Ht). lia.
    - by rewrite Es1.
    - lia.
    - done.
    - rewrite Es1. exact Hlat. }
  assert (fine s2) as Hf2 by (by apply fine_batch). assert (later s s2) as L2 by (etrans; [exact L1|]; by apply later_same).
  case_match. { apply wp_ret. split; [done|]. split; [done|]. by exists b2. }
  eapply wp_mono; [apply (IH stage _ s2 Hf2)|].
  - by eapply plain_later.
  - done.
  - by eapply stage_later.
  - simpl. by rewrite Es1.
  - intros _ s3 (? & ? & ?). split; [done|]. split; [by etrans|done].
Qed.

(** ** A step *)

Lemma fill_chunks_safe n fin s :
  fine s → plain s → running_sequences_ s = [] → running_sequences_budgets_ s = [] →
  remaining_token_budget (chunk_budgets (D := D) chunk (options_ s)) = M →
  remaining_seq_budget (chunk_budgets (D := D) chunk (options_ s)) = N →
  (length (located s) < n)%nat →
  wp (fill_chunks estimated_latency chunk n fin) (λ _ s', filled s s') s.
Proof.
  intros Hf Hp Es Eb EM EN Hn. unfold fill_chunks. apply wp_bind, wp_gets, wp_bind. set (x0 := mkChunkLoop _ _).
  assert (tracked x0 s) as Hk0.
  { constructor; [done|done| |done]. constructor; rewrite ?Es, ?Eb; try done; simpl in *; rewrite ?EM, ?EN; simpl; lia. }
  eapply wp_mono; [apply wp_post; [apply handle_running_queue_safe; [done|]|apply handle_running_queue_round]|].
  { unfold located in Hn. rewrite !length_app in Hn. lia. }
  intros x1 s1 ([Hk1 Hl1] & [R1 _]). pose proof (mv_located _ _ _ _ (round_moved _ _ [] R1) (fn_no_running _ Hf)) as El1.
  rewrite !app_nil_r in El1. apply Permutation_length in El1. apply wp_bind.
  eapply wp_mono; [apply chunk_waiting_safe; [done|]|].
  { rewrite <-El1 in Hn. unfold located in Hn. rewrite !length_app in Hn. lia. }
  intros x2 s2 [Hk2 Hl2]. apply wp_bind. eapply (wp_mono _ (λ x' s', x' = x2 ∧ s' = s2)).
  { destruct (0 <? _); [|by apply wp_ret]. destruct n as [|n]; [lia|]. cbn [handle_running_queue_requests].
    apply wp_bind, wp_get. simpl. rewrite (bool_decide_eq_true_2 _ (fn_no_running _ (tk_fine _ _ Hk2))). by apply wp_ret. }
  intros ? ? [-> ->]. apply wp_bind. eapply wp_mono; [apply chunk_waiting_offline; [done|lia]|].
  intros x4 ? [Hk4 ->]. assert (later s s2) as L2 by (by etrans). cbv zeta. apply wp_bind.
  eapply (wp_mono _ (λ _ s', filled s2 s')).
  - case_match; [|apply wp_ret; split; [apply Hk4|split; [done|eexists; apply Hk4]]]. apply wp_bind, wp_get.
    apply handle_remaining_safe; try apply Hk4. apply Forall_forall. intros i Hi%elem_of_seq. lia.
  - intros p s5 (Hf5 & Hl5 & Hb5). apply wp_ret. split; [done|]. split; [by etrans|done].
Qed.
End filling.

Lemma collect_chunks_options disconnected s : post (collect_chunks disconnected) (λ _ s', same_options s s') s.
Proof.
  unfold collect_chunks. apply (post_chain same_options); [apply receive_requests_options|]. intros u s1 _.
  apply (post_chain same_options); [by apply post_gets|]. intros l s2 _.
  apply (post_chain same_options); [eapply post_mono; [apply reap_quiet|intros; by apply quiet_same_options]|]. intros x s3 _.
  apply (post_chain same_options); [by apply post_modify|]. intros u4 s4 _.
  apply (post_chain same_options); [by apply post_gets|]. intros l5 s5 _.
  apply (post_chain same_options); [apply requeue_all_options|]. intros u6 s6 _.
  apply (post_chain same_options); [by apply post_modify|]. intros u7 s7 _. by apply post_ret.
Qed.
Lemma collect_chunks_safe disconnected s :
  sched_ok s →
  wp (collect_chunks disconnected)
    (λ _ s', fine s' ∧ request_queue_ s' = [] ∧ running_sequences_ s' = [] ∧ running_sequences_budgets_ s' = []) s.
Proof.
  intros Ho. apply (collect_safe disconnected (λ fin, gets running_requests_ ≫= λ l,
    for_each (rev l) (requeue None) ≫= λ _, modify (set_running [] [] []) ≫= λ _, mret fin)); [done|].
  intros fin s1 Hr. apply wp_bind, wp_gets, wp_bind. eapply wp_mono; [apply requeue_all_safe; [by left|]|].
  { destruct Hr as [? ? Hk Hd Hn]. rewrite rev_omap. constructor; try done; by rewrite <-Permutation_rev. }
  intros u s2 [Hf Hq]. apply wp_bind, wp_modify, wp_ret. split; [by apply fine_batch|done].
Qed.
Lemma sane_online s : sane s → all_online s.
Proof. intros Hs id r Hr. by apply (ro_online _ _ (sn_requests _ Hs _ _ Hr)). Qed.
Lemma plain_static s s' :
  same_options s s' → req_static <$> requests s' = req_static <$> requests s → plain s → plain s'.
Proof.
  intros [_ Em] E [Hm Hb]. constructor; [by rewrite Em|]. intros id r' Hr'.
  assert ((req_static <$> requests s) !! id = Some (req_static r')) as Hs by (by rewrite <-E, lookup_fmap, Hr').
  rewrite lookup_fmap in Hs. destruct (requests s !! id) as [r|] eqn:Hr; [|done].
  injection Hs as _ _ <-. by apply (Hb id).
Qed.

(** What a step leaves: a chunk for each sequence of the batch, within the budgets *)
Record chunks_within (o : SchedOptions) s : Prop := {
  cb_length : length (running_sequences_budgets_ s) = length (running_sequences_ s);
  cb_each : Forall (λ n, 1 ≤ n) (running_sequences_budgets_ s);
  cb_tokens : total (running_sequences_budgets_ s) ≤ remaining_token_budget (chunk_budgets (D := D) chunk o);
  cb_seqs : Z.of_nat (length (running_sequences_ s)) ≤ max_seqs_per_batch o;
}.
(** C13: a step with chunked prefill never fails.  Over a manager of the KV cache that keeps
    its contract, from every well-formed state (as in the step without chunks) of online
    requests with one sequence each,
    without speculative tokens and without predicted latencies, [prepare_batch] returns: no
    failed check, no [LOG(FATAL)], no undefined behaviour, and the loops end.  Afterwards the
    state is well-formed again, every request is where it can be found, and the batch has for
    each of its sequences a chunk of one token at least; the chunks add up to no more than
    the budget of the step, with what [handle_remaining_budget] adds to them, and there are
    no more sequences than [max_seqs_per_batch]. *)
Theorem chunk_step_safe n disconnected s :
  sched_ok s → plain s →
  0 < remaining_token_budget (chunk_budgets (D := D) chunk (options_ s)) < 2 ^ 31 →
  0 < max_seqs_per_batch (options_ s) → (length (located s) < n)%nat →
  wp (prepare_chunks estimated_latency chunk n disconnected)
    (λ _ s', sched_ok s' ∧ located s' ≡ₚ located s ∧ chunks_within (options_ s) s') s.
Proof.
  intros Ho Hp HM HN Hn. pose proof (cf_seqs _ _ (ok_config _ Ho)) as HN2. set (o := options_ s) in *.
  assert (wp (prepare_chunks estimated_latency chunk n disconnected) (λ _ s', fine s' ∧ request_queue_ s' = [] ∧
    req_static <$> requests s' = req_static <$> requests s ∧ chunks_within o s') s) as Hw.
  { unfold prepare_chunks. apply wp_bind. eapply wp_mono.
    { apply wp_post; [by apply collect_chunks_safe|]. apply post_and; [|apply collect_chunks_options].
      apply collect_chunks_moved; [apply sane_online, Ho|apply Ho]. }
    intros fin s1 ((Hf1 & Hq1 & Es1 & Eb1) & (Ho1 & Er1 & El1) & Hopt). apply wp_bind.
    assert (remaining_seq_budget (chunk_budgets (D := D) chunk o) = max_seqs_per_batch o) as EN by (simpl; rewrite u64_id; lia).
    apply Permutation_length in El1. rewrite length_app in El1.
    eapply wp_mono; [apply wp_post|].
    - apply (fill_chunks_safe (remaining_token_budget (chunk_budgets (D := D) chunk o)) (max_seqs_per_batch o));
        rewrite ?(proj1 Hopt); try done; [by eapply plain_static|lia].
    - by apply fill_chunks_moved.
    - intros fin' s2 (([[] ? ? ? ? ? ?] & Hl2 & b & Hb) & [Er2 _ _]). apply wp_modify. split; [by constructor; [constructor|..]|].
      split; [by rewrite <-Hq1, <-(lt_queue _ _ Hl2)|]. split; [simpl; by rewrite Er2, Er1|].
      destruct Hb as [? ? ? ? ? ? _]. assert (chunks_within o s2) as [] by (constructor; try done; lia). by constructor. }
  eapply wp_mono; [apply (wp_post _ _ _ _ Hw (prepare_chunks_located estimated_latency chunk n disconnected s (sane_online _ (ok_sane _ Ho)) (ok_no_running _ Ho)))|].
  intros u s' [(Hf & Hq & Es & Hb) Hloc]. split; [by eapply fine_sched|done].
Qed.
End chunked_safe.
