(* ===== verification/PoolServes.v ===== *)
(** The block manager pool keeps the contract of the scheduler: without a prefix cache,
    [BlockManagerPool_manager] satisfies [KVCacheManagerLaws], for any number of ranks and
    sequences.  With [SchedSafe], a step of the scheduler over the pool never fails. *)

From stdpp Require Import base gmap list strings sets.
From Stdlib Require Import ZArith Lia.
From S2P Require Import Prelude HashKey Blocks DList PrefixCache KvEvents BlockManager.
From S2P Require Import KVState EmbeddingManager Stopping IncrementalDecoder LogprobState Sequence Pool.
From S2P Require Import Samples Request Scheduler SchedBatch SchedOrder SchedPool SchedSafe.
Open Scope Z_scope.

(** ** The tokens of a sequence stay *)

Section text.
Context {T : Type} `{HashFns} `{FloatOps F}.
Abbreviation PS := (Pool * Sequence T F)%type.

(** No operation of the pool touches the tokens; the host state stays without tokens. *)
Definition carries (s s' : PS) : Prop :=
  untouched s.2 s'.2 ∧ (kv_cache_tokens_num_ (host_kv_state_ s.2) = 0 → kv_cache_tokens_num_ (host_kv_state_ s'.2) = 0).
#[export] Instance carries_preorder : PreOrder carries.
Proof. split; [by intros s; split|]. intros s1 s2 s3 [? ?] [? ?]. split; [by etrans|auto]. Qed.
Lemma on_bm_carries {A} r (m : prog BM A) (s : PS) : post (on_bm r m) (λ _ s', carries s s') s.
Proof. unfold on_bm, post. destruct (_ !! _); [|done]. destruct (_ <=? _); [|done]. unfold zoom. by destruct (m _). Qed.
Lemma on_emb_carries {A} r (m : prog (World EmbCore) A) (s : PS) : post (on_emb r m) (λ _ s', carries s s') s.
Proof. unfold on_emb, post. destruct (_ !! _); [|done]. destruct (_ <=? _); [|done]. unfold zoom. by destruct (m _). Qed.
Lemma seq_set_carries f (s : PS) :
  untouched s.2 (f s.2) → kv_cache_tokens_num_ (host_kv_state_ (f s.2)) = kv_cache_tokens_num_ (host_kv_state_ s.2) →
  post (seq_set f) (λ _ s', carries s s') s.
Proof. intros ? E. apply post_modify. split; [done|]. simpl. by rewrite E. Qed.
Lemma on_kv_carries {A} r (m : prog (KVCacheState T * World Core) A) (s : PS) : post (on_kv r m) (λ _ s', carries s s') s.
Proof.
  unfold on_kv. apply (post_chain carries); [by apply post_gets|]. intros q s1 _.
  apply (post_chain carries); [apply on_bm_carries|]. intros ak s2 _.
  apply (post_chain carries); [by apply seq_set_carries|]. intros u s3 _. by apply post_ret.
Qed.
Ltac carry := apply (post_chain carries).
Lemma get_dp_rank_carries (s : PS) : post get_dp_rank (λ _ s', carries s s') s.
Proof.
  unfold get_dp_rank. carry; [by apply post_get|]. intros x s1 _. case_match; [by apply post_ret|].
  carry; [by apply seq_set_carries|]. intros u s2 _. by apply post_ret.
Qed.
Lemma check_rank_carries r (s : PS) : post (check_rank r) (λ _ s', carries s s') s.
Proof.
  unfold check_rank. carry; [by apply post_get|]. intros x s1 _. carry; [by apply post_check|]. intros u s2 _. by apply post_check.
Qed.
Lemma deallocate_embedding_carries r (s : PS) : post (deallocate_embedding_id r) (λ _ s', carries s s') s.
Proof.
  unfold deallocate_embedding_id. carry; [apply check_rank_carries|]. intros u s1 _. carry; [by apply post_gets|]. intros q s2 _.
  carry; [by apply seq_set_carries|]. intros u2 s3 _. carry; [case_match; [apply on_emb_carries|by apply post_ret]|].
  intros u3 s4 _. apply on_emb_carries.
Qed.
Lemma allocate_embedding_carries r (s : PS) : post (allocate_embedding_id r) (λ _ s', carries s s') s.
Proof.
  unfold allocate_embedding_id. carry; [apply check_rank_carries|]. intros u s1 _. carry; [by apply post_gets|]. intros q s2 _.
  case_match; [by apply post_ret|]. carry; [apply on_emb_carries|]. intros bs s3 _. destruct bs as [|b rest]; [by apply post_ret|].
  carry; [apply on_emb_carries|]. intros x s4 _. carry; [by apply seq_set_carries|]. intros u5 s5 _.
  carry; [apply on_emb_carries|]. intros u6 s6 _. by apply post_ret.
Qed.
Lemma on_host_kv_reset_carries r (s : PS) : post (on_host_kv r KVState.reset) (λ _ s', carries s s') s.
Proof.
  unfold on_host_kv. carry; [by apply post_gets|]. intros q s1 _. apply post_bind.
  eapply (post_mono _ (λ ak s', carries s1 s' ∧ kv_cache_tokens_num_ ak.2 = 0)).
  { apply post_and; [apply on_bm_carries|]. unfold on_bm, post. destruct (_ !! _); [|done]. destruct (_ <=? _); [|done].
    unfold zoom, KVState.reset, mbind, prog_bind, kv_get, kv_modify, gets, get, modify. simpl.
    destruct (on_kv_world _ _) as [u [k w]| | |] eqn:E; [|done..]. simpl. revert E. unfold on_kv_world, zoom.
    destruct (destroy_all _ _); [|done..]. by intros [= _ <- _]. }
  intros ak s2 [Hc Hz]. apply post_bind, post_modify, post_ret. destruct Hc as [[[? ? ?] ?] _].
  split; [by constructor; [constructor|]|done].
Qed.
Lemma seq_reset_carries r (s : PS) : post (seq_reset r) (λ _ s', carries s s') s.
Proof.
  unfold seq_reset. carry; [apply on_kv_carries|]. intros u s1 _. carry; [apply on_host_kv_reset_carries|]. intros u2 s2 _.
  by apply seq_set_carries.
Qed.
Lemma pool_cache_carries now (s : PS) : post (pool_cache now) (λ _ s', carries s s') s.
Proof.
  unfold pool_cache. carry; [apply get_dp_rank_carries|]. intros r s1 _. carry; [by apply post_gets|]. intros q s2 _.
  carry; [unfold cached_tokens; carry; [by apply post_check|intros u s3 _; by apply post_ret]|]. intros ts s3 _.
  carry; [apply on_bm_carries|]. intros bs s4 _. by apply seq_set_carries.
Qed.
Lemma pool_deallocate_carries now (s : PS) : post (pool_deallocate now) (λ _ s', carries s s') s.
Proof.
  unfold pool_deallocate. carry; [apply get_dp_rank_carries|]. intros r s1 _. carry; [apply pool_cache_carries|]. intros u s2 _.
  carry; [by apply post_gets|]. intros q s3 _. carry; [apply on_bm_carries|]. intros u4 s4 _.
  carry; [apply deallocate_embedding_carries|]. intros u5 s5 _. apply seq_reset_carries.
Qed.
Lemma drop_local_carries r bs (s : PS) : post (drop_local r bs) (λ _ s', carries s s') s.
Proof. apply on_bm_carries. Qed.
Lemma process_beam_search_carries sw (s : PS) : post (pool_process_beam_search sw) (λ _ s', carries s s') s.
Proof.
  unfold pool_process_beam_search. carry; [by apply post_get|]. intros x s1 _. case_match; [by apply post_ret|].
  destruct (last _); [|by apply post_ret]. carry; [apply get_dp_rank_carries|]. intros r s2 _. case_match.
  - carry; [apply on_bm_carries|]. intros bs s3 _. destruct bs as [|y bs]; [by apply post_ret|].
    carry; [by apply post_at|]. intros u4 s4 _. carry; [by apply post_modify|]. intros u5 s5 _.
    carry; [apply on_kv_carries|]. intros u6 s6 _. carry; [apply drop_local_carries|]. intros u7 s7 _. by apply post_ret.
  - carry; [apply on_kv_carries|]. intros u3 s3 _. by apply post_ret.
Qed.
Lemma pool_extend_carries r e i n (s : PS) : post (pool_extend r e i n) (λ _ s', carries s s') s.
Proof.
  unfold pool_extend. carry; [by apply post_get|]. intros x s1 _.
  carry; [unfold blocks_needed; case_match; [done|by apply post_ret]|]. intros m s2 _.
  case_match; [apply process_beam_search_carries|]. carry; [apply process_beam_search_carries|]. intros u s3 _.
  carry; [apply on_bm_carries|]. intros bs s4 _. case_match.
  - carry; [|intros u5 s5 _; carry; [apply drop_local_carries|intros u6 s6 _; by apply post_ret]].
    destruct e; [|by apply post_ret]. carry; [by apply post_gets|]. intros q s5 _. carry; [apply on_bm_carries|]. intros u6 s6 _.
    carry; [destruct i; [apply deallocate_embedding_carries|by apply post_ret]|]. intros u7 s7 _. apply seq_reset_carries.
  - carry; [apply on_kv_carries|]. intros u5 s5 _. carry; [apply drop_local_carries|]. intros u6 s6 _. by apply post_ret.
Qed.
Lemma pool_allocate_shared_carries (s : PS) : post pool_allocate_shared (λ _ s', carries s s') s.
Proof.
  unfold pool_allocate_shared. carry; [by apply post_get|]. intros x s1 _. case_match; [|by apply post_ret].
  carry; [apply get_dp_rank_carries|]. intros r s2 _. carry; [by apply post_gets|]. intros q s3 _.
  carry; [unfold slice; carry; [by apply post_check|intros u s4 _; by apply post_ret]|]. intros ex s4 _.
  carry; [apply on_bm_carries|]. intros bs s5 _. unfold seq_add_shared. carry; [by apply post_gets|]. intros q6 s6 _.
  carry; [apply on_kv_carries|]. intros l s7 _. apply on_bm_carries.
Qed.
Lemma pool_allocate_carries n (s : PS) : post (pool_allocate n) (λ _ s', carries s s') s.
Proof.
  unfold pool_allocate. carry; [apply get_dp_rank_carries|]. intros r s1 _. carry; [by apply post_get|]. intros x s2 _.
  carry; [case_match; [apply allocate_embedding_carries|by apply post_ret]|]. intros ok s3 _. case_match; [by apply post_ret|].
  carry; [case_match; [apply pool_allocate_shared_carries|by apply post_ret]|]. intros u s4 _. apply pool_extend_carries.
Qed.
End text.

(** ** The invariant of the pool and its sequences *)

Section serves.
Context {T : Type} `{HashFns} `{FloatOps F} `{DoubleOps D}.
Abbreviation PS := (Pool * Sequence T F)%type.
Implicit Types (p : Pool) (q : Sequence T F) (qs : list (Sequence T F)) (bm : BM) (ew : World EmbCore).

(** The sequences of the rank [r], and what they hold *)
Definition on (r : Z) qs : list (Sequence T F) := filter (λ q, dp_rank_ q = r) qs.
Definition vecs qs : list (list Block) := (λ q, blocks_ (kv_state_ q)) <$> qs.
Definition embs qs : list Block := qs ≫= emb_of.

(** A sequence the pool serves: it has an embedding id exactly when it has blocks, the
    tokens it has in the cache are among its tokens, and nothing is on the host. *)
Record seq_served (ranks bsz : Z) q : Prop := {
  ss_rank : dp_rank_ q < ranks;
  ss_none : dp_rank_ q < 0 → blocks_ (kv_state_ q) = [];
  ss_kv : kv_ok bsz (kv_state_ q);
  ss_some : (0 < num_tokens_ (toks q))%nat;
  ss_tokens : kv_cache_tokens_num_ (kv_state_ q) < Z.of_nat (num_tokens_ (toks q)) ≤ Z.of_nat (length (tokens_ (toks q)));
  ss_buffer : Z.of_nat (length (tokens_ (toks q))) ≤ 2 ^ 26;
  ss_host : blocks_ (host_kv_state_ q) = [];
  ss_host_tokens : kv_cache_tokens_num_ (host_kv_state_ q) = 0;
  ss_src : src_blocks_ (kv_state_ q) = [];
  ss_clean : is_valid (embedding_block_ q) = false → ref_count_ (embedding_block_ q) = None;
  ss_emb : has_embedding_id q = false ↔ blocks_ (kv_state_ q) = [];
}.
(** The managers of a rank own what the sequences [qs] of the rank hold, each block once. *)
Record rank_serves (bsz : Z) bm ew qs : Prop := {
  rs_blocks : bm_ok bm (vecs qs);
  rs_emb : emb_ok ew (embs qs);
  rs_prefix : prefix_enabled bm = false;
  rs_size : block_size_opt (BlockManager.options_ (core bm)) = bsz;
  rs_total : Z.of_nat (length (free_blocks_ (core bm))) < 2 ^ 29;
  rs_once : NoDup (ids (concat (vecs qs)));
}.
Record pool_serves p qs : Prop := {
  ps_ranks : length (embedding_managers_ p) = length (block_managers_ p);
  ps_some : 0 < Z.of_nat (length (block_managers_ p)) < 2 ^ 31;
  ps_prefix : p_enable_prefix_cache (pool_options p) = false;
  ps_size : 0 < p_block_size (pool_options p) < 2 ^ 31;
  ps_rank r bm ew : at_rank r p bm ew → rank_serves (p_block_size (pool_options p)) bm ew (on r qs);
  ps_seqs : Forall (seq_served (Z.of_nat (length (block_managers_ p))) (p_block_size (pool_options p))) qs;
}.

#[export] Instance rank_serves_proper bsz bm ew : Proper ((≡ₚ) ==> iff) (rank_serves bsz bm ew).
Proof.
  assert (∀ l l', l ≡ₚ l' → rank_serves bsz bm ew l → rank_serves bsz bm ew l') as Hp; [|intros l l' E; split; by apply Hp].
  intros l l' E [Hb He ? ? ? Hn]. constructor; try done.
  - eapply bm_ok_perm; [|exact Hb]. unfold vecs. by rewrite E.
  - eapply emb_ok_perm; [|exact He]. unfold embs. by rewrite E.
  - unfold vecs, ids in *. by rewrite <-E.
Qed.
#[export] Instance pool_serves_proper p : Proper ((≡ₚ) ==> iff) (pool_serves p).
Proof.
  assert (∀ l l', l ≡ₚ l' → pool_serves p l → pool_serves p l') as Hp; [|intros l l' E; split; by apply Hp].
  intros l l' E [? ? ? ? Hr ?]. constructor; try done; [|by rewrite <-E].
  intros r bm ew Ha. unfold on. rewrite <-E. by apply Hr.
Qed.

Lemma on_cons r q qs : on r (q :: qs) = if decide (dp_rank_ q = r) then q :: on r qs else on r qs.
Proof. unfold on. by rewrite filter_cons. Qed.
Lemma on_cons_eq q qs : on (dp_rank_ q) (q :: qs) = q :: on (dp_rank_ q) qs.
Proof. rewrite on_cons. by rewrite decide_True. Qed.
(** Blocks held once are not more than the manager has. *)
Lemma held_length bm seqs :
  bm_ok bm seqs → NoDup (ids (concat seqs)) → (length (concat seqs) ≤ length (free_blocks_ (core bm)))%nat.
Proof.
  intros Hok Hn. assert (list_to_set (ids (concat seqs)) ⊆@{gset Z} list_to_set (seqZ 0 (Z.of_nat (length (free_blocks_ (core bm)))))) as Hsub.
  { intros i Hi. apply (held_range bm seqs i) in Hi; [|done]. rewrite elem_of_list_to_set, elem_of_seqZ. lia. }
  apply subseteq_size in Hsub. rewrite !size_list_to_set in Hsub by (done || apply NoDup_seqZ).
  unfold ids in Hsub. rewrite length_fmap, length_seqZ in Hsub. lia.
Qed.
Lemma no_cache bm seqs : bm_ok bm seqs → prefix_enabled bm = false → prefix_cache_ bm = None.
Proof.
  intros Hok E. pose proof (bm_enabled _ _ Hok) as Hb. rewrite E in Hb. symmetry in Hb. apply bool_decide_eq_false in Hb.
  by apply eq_None_not_Some.
Qed.
(** Every sequence with an embedding id has a block. *)
Lemma embs_length n bsz qs : Forall (seq_served n bsz) qs → (length (embs qs) ≤ length (concat (vecs qs)))%nat.
Proof.
  induction 1 as [|q qs Hq _ IH]; [done|].
  change (embs (q :: qs)) with (emb_of q ++ embs qs). change (vecs (q :: qs)) with (blocks_ (kv_state_ q) :: vecs qs).
  simpl. rewrite !length_app.
  assert (length (emb_of q) ≤ length (blocks_ (kv_state_ q)))%nat; [|lia]. pose proof (ss_emb _ _ _ Hq) as He.
  unfold emb_of. unfold has_embedding_id in He. destruct (is_valid _); [|simpl; lia].
  destruct (blocks_ (kv_state_ q)); [|simpl; lia]. by destruct He as [_ ?%(λ f, f eq_refl)].
Qed.
Lemma emb_of_none q : has_embedding_id q = false → emb_of q = [].
Proof. unfold emb_of, has_embedding_id. by intros ->. Qed.

(** A sequence on a rank: the lemmas of [Pool] apply. *)
Lemma serves_at p q qs :
  pool_serves p (q :: qs) → 0 ≤ dp_rank_ q →
  ∃ bm ew, holds (dp_rank_ q) p q bm ew (vecs (on (dp_rank_ q) qs)) (embs (on (dp_rank_ q) qs)) ∧
    rank_serves (p_block_size (pool_options p)) bm ew (q :: on (dp_rank_ q) qs).
Proof.
  intros [Hl Hs Hp Hz Hr Hq] Hd. apply Forall_cons in Hq as [[Hlt _ _ _ _ _ ? _ ? ? _] _].
  destruct (lookup_lt_is_Some_2 (block_managers_ p) (Z.to_nat (dp_rank_ q))) as [bm Hbm]; [lia|].
  destruct (lookup_lt_is_Some_2 (embedding_managers_ p) (Z.to_nat (dp_rank_ q))) as [ew Hew]; [lia|].
  assert (at_rank (dp_rank_ q) p bm ew) as Ha by done. pose proof (Hr _ _ _ Ha) as Hrs. rewrite on_cons_eq in Hrs.
  exists bm, ew. split; [|done]. destruct Hrs as [Hb He _ _ _ _]. by constructor.
Qed.
(** The pool serves the sequence after an operation on its rank. *)
Lemma serves_back p p' q q' qs bm ew bm' ew' :
  pool_serves p (q :: qs) → rank_serves (p_block_size (pool_options p)) bm ew (q :: on (dp_rank_ q) qs) →
  pool_frame (dp_rank_ q) p p' → same_config bm bm' →
  holds (dp_rank_ q) p' q' bm' ew' (vecs (on (dp_rank_ q) qs)) (embs (on (dp_rank_ q) qs)) →
  NoDup (ids (blocks_ (kv_state_ q') ++ concat (vecs (on (dp_rank_ q) qs)))) →
  seq_served (Z.of_nat (length (block_managers_ p))) (p_block_size (pool_options p)) q' →
  pool_serves p' (q' :: qs).
Proof.
  intros [Hl Hs Hp Hz Hr Hq] [_ _ He Hb Ht _] (Fo & _ & Fb & Fe & Fx) Hcfg [Ha Hdp Hbm Hem _ _ _] Hn Hq'.
  constructor; rewrite ?Fo, ?Fb, ?Fe; try done; [|by apply Forall_cons in Hq as [_ Hq]; constructor].
  intros r bm2 ew2 Ha2. rewrite on_cons, Hdp. case_decide as Hd.
  - subst r. destruct Ha as (_ & Hx & Hy), Ha2 as (_ & Hx2 & Hy2). rewrite Hx2 in Hx. rewrite Hy2 in Hy.
    injection Hx as ->. injection Hy as ->. constructor; try done.
    + by rewrite (same_config_enabled _ _ Hcfg).
    + by rewrite (proj1 Hcfg).
    + by rewrite (proj2 (proj2 Hcfg)).
  - destruct Ha2 as (Hr0 & Hx & Hy). destruct Ha as (Hd0 & _). destruct (Fx (Z.to_nat r)) as [Ex Ey]; [lia|].
    assert (at_rank r p bm2 ew2) as Ha by (by rewrite Ex in Hx; rewrite Ey in Hy). pose proof (Hr _ _ _ Ha) as Hrs.
    rewrite on_cons in Hrs. by rewrite decide_False in Hrs.
Qed.

(** ** The rank of a sequence *)

(** The sequence after [get_dp_rank] *)
Definition ranked p q : Sequence T F :=
  if 0 <=? dp_rank_ q then q else set_dp_rank (get_manager_with_max_free_blocks p) q.
Lemma max_free_range l i idx free : (idx < i)%nat → (max_free_loop l i idx free < i + length l)%nat.
Proof.
  revert i idx free. induction l as [|bm l IH]; intros i idx free Hi; simpl; [lia|].
  destruct (_ <? _); pose proof (IH (S i)) as IH'; [specialize (IH' i (num_free_blocks_ (core bm)))|specialize (IH' idx free)]; lia.
Qed.
Lemma ranked_range p q :
  0 < Z.of_nat (length (block_managers_ p)) < 2 ^ 31 → dp_rank_ q < Z.of_nat (length (block_managers_ p)) →
  0 ≤ dp_rank_ (ranked p q) < Z.of_nat (length (block_managers_ p)).
Proof.
  intros Hn Hq. unfold ranked. destruct (0 <=? _) eqn:E; [apply Z.leb_le in E; lia|]. simpl. unfold get_manager_with_max_free_blocks.
  destruct (block_managers_ p) as [|bm l]; [simpl in Hn; lia|]. simpl in *.
  pose proof (max_free_range l 1 0 (num_free_blocks_ (core bm))). rewrite i32_id; lia.
Qed.
Lemma ranked_untouched p q : untouched q (ranked p q).
Proof. unfold ranked. by destruct (0 <=? _). Qed.
Lemma ranked_serves p q qs : pool_serves p (q :: qs) → pool_serves p (ranked p q :: qs) ∧ 0 ≤ dp_rank_ (ranked p q).
Proof.
  intros Hs. pose proof Hs as [Hl Hn Hp Hz Hr Hq]. apply Forall_cons in Hq as [Hq Hqs].
  pose proof (ranked_range p q Hn (ss_rank _ _ _ Hq)) as Hrange. split; [|lia].
  unfold ranked in *. destruct (0 <=? dp_rank_ q) eqn:E; [done|]. apply Z.leb_gt in E.
  pose proof (ss_none _ _ _ Hq E) as Hnil. pose proof (emb_of_none _ (proj2 (ss_emb _ _ _ Hq) Hnil)) as Hemb.
  constructor; try done; [|constructor; [destruct Hq; constructor; try done; simpl in *; lia|done]].
  intros r bm ew Ha. pose proof (Hr _ _ _ Ha) as Hrs. rewrite on_cons in Hrs |- *.
  rewrite decide_False in Hrs by (destruct Ha; lia). case_decide; [|done]. destruct Hrs as [Hb He ? ? ? Hd].
  constructor; try done; unfold vecs, embs; simpl.
  - rewrite Hnil. by apply bm_ok_nil.
  - unfold emb_of in *. simpl. by rewrite Hemb.
  - by rewrite Hnil.
Qed.
Lemma ranked_wp {A} (m : prog PS A) (f : Z → prog PS A) Q p q :
  m = get_dp_rank ≫= f → 0 ≤ dp_rank_ (ranked p q) → wp m Q (p, ranked p q) → wp m Q (p, q).
Proof.
  intros -> Hr. unfold wp, mbind, prog_bind. assert (get_dp_rank (p, q) = Done (dp_rank_ (ranked p q)) (p, ranked p q)) as ->.
  { unfold get_dp_rank, ranked, mbind, prog_bind, get. simpl. by destruct (0 <=? dp_rank_ q). }
  assert (get_dp_rank (p, ranked p q) = Done (dp_rank_ (ranked p q)) (p, ranked p q)) as ->; [|done].
  unfold get_dp_rank, mbind, prog_bind, get. simpl. destruct (0 <=? dp_rank_ (ranked p q)) eqn:E; [done|]. apply Z.leb_gt in E. lia.
Qed.

(** ** The operations keep it *)

(** What an operation on the sequence of a rank leaves, with the other sequences [qs] *)
Definition left_with p q qs bm (s' : PS) : Prop :=
  ∃ bm' ew', holds (dp_rank_ q) s'.1 s'.2 bm' ew' (vecs (on (dp_rank_ q) qs)) (embs (on (dp_rank_ q) qs)) ∧
    pool_frame (dp_rank_ q) p s'.1 ∧ same_config bm bm' ∧
    NoDup (ids (blocks_ (kv_state_ s'.2) ++ concat (vecs (on (dp_rank_ q) qs)))) ∧
    kv_ok (p_block_size (pool_options p)) (kv_state_ s'.2) ∧
    kv_cache_tokens_num_ (kv_state_ s'.2) < Z.of_nat (num_tokens_ (toks q)) ∧
    (has_embedding_id s'.2 = false ↔ blocks_ (kv_state_ s'.2) = []).
Definition serves_after {A} qs q : A → PS → Prop := λ _ s', pool_serves s'.1 (s'.2 :: qs) ∧ untouched q s'.2.
Lemma served_op {A} (m : prog PS A) p q qs bm ew :
  pool_serves p (q :: qs) → rank_serves (p_block_size (pool_options p)) bm ew (q :: on (dp_rank_ q) qs) →
  wp m (λ _ s', left_with p q qs bm s') (p, q) → post m (λ _ s', carries (p, q) s') (p, q) →
  wp m (serves_after qs q) (p, q).
Proof.
  intros Hs Hrs Hm Hc. eapply wp_mono; [by apply (wp_post _ _ _ _ Hm Hc)|]. clear Hm Hc.
  intros a [p' q'] [(bm' & ew' & Hh & Hf & Hcfg & Hn & Hk & Ht & He) [Hu Hz]]. simpl in *. split; [|done].
  eapply serves_back; try done. pose proof (ps_seqs _ _ Hs) as Hq. apply Forall_cons in Hq as [[? _ _ Hq0 Hq1 Hq2 _ Hq3 _ _ _] _].
  destruct Hu as [[E1 E2 E3] _]. destruct Hh as [[? _] Hdp _ _ Hcl Hho Hsr]. simpl in *.
  constructor; rewrite ?E1, ?E3; try done; try (intros; lia).
Qed.

Lemma others_bounds p q qs bm ew :
  pool_serves p (q :: qs) → rank_serves (p_block_size (pool_options p)) bm ew (q :: on (dp_rank_ q) qs) →
  Z.of_nat (length (blocks_ (kv_state_ q) ++ concat (vecs (on (dp_rank_ q) qs)))) < 2 ^ 29 ∧
  Z.of_nat (length (embs (on (dp_rank_ q) qs))) < 2 ^ 29.
Proof.
  intros Hs [Hb _ _ _ Ht Hn]. pose proof (held_length _ _ Hb Hn) as Hl. pose proof (ps_seqs _ _ Hs) as Hq.
  apply Forall_cons in Hq as [_ Hq]. rewrite Forall_forall in Hq.
  assert (Forall (seq_served _ _) (on (dp_rank_ q) qs)) as Hon%embs_length
    by (apply Forall_forall; intros x [_ Hx]%list_elem_of_filter; by apply Hq). change (vecs (q :: on (dp_rank_ q) qs)) with (blocks_ (kv_state_ q) :: vecs (on (dp_rank_ q) qs)) in Hl.
  simpl in Hl. rewrite length_app in Hl |- *. lia.
Qed.
Lemma once_app (l l' : list Block) :
  NoDup (ids l) → NoDup (ids l') → (∀ i, i ∈ ids l → i ∉ ids l') → NoDup (ids (l ++ l')).
Proof. intros H1' H2' Hd. unfold ids in *. rewrite fmap_app. by apply NoDup_app. Qed.
Lemma once_others q qs bsz bm ew : rank_serves bsz bm ew (q :: qs) → NoDup (ids (concat (vecs qs))).
Proof.
  intros [_ _ _ _ _ Hn]. change (vecs (q :: qs)) with (blocks_ (kv_state_ q) :: vecs qs) in Hn. simpl in Hn.
  unfold ids in *. rewrite fmap_app in Hn. by apply NoDup_app in Hn as (_ & _ & ?).
Qed.

Lemma pool_cache_serves now p q qs :
  pool_serves p (q :: qs) → 0 ≤ dp_rank_ q → wp (pool_cache now) (serves_after qs q) (p, q).
Proof.
  intros Hs Hd. destruct (serves_at p q qs Hs Hd) as (bm & ew & Hh & Hrs).
  eapply (served_op _ p q qs bm ew); [done|done| |apply pool_cache_carries].
  pose proof (others_bounds _ _ _ _ _ Hs Hrs) as [Hl _]. pose proof (ps_seqs _ _ Hs) as Hq. apply Forall_cons in Hq as [Hq _].
  pose proof Hh as [Hr Hdp Hb He Hc Hho Hsr]. pose proof (no_cache _ _ Hb (rs_prefix _ _ _ _ Hrs)) as Hpc.
  unfold pool_cache. apply wp_bind, (wp_get_dp_rank (dp_rank_ q)); [done|done|]. unfold seq_get, cached_tokens. wp_steps. simpl.
  apply wp_check; [apply Z.leb_le; pose proof (ss_tokens _ _ _ Hq); lia|]. wp_steps. eapply wp_on_bm; [exact Hr|].
  eapply wp_mono.
  { apply (cache_spec bm (vecs (on (dp_rank_ q) qs))); [exact Hb| |by rewrite Hpc|].
    - apply room_small; [done|]. simpl. rewrite !length_app in *. lia.
    - unfold cache_keys. rewrite Hpc. split; [by intros ?????? (? & ? & ? & ? & _)|by intros ?? (? & ? & ? & ? & _)]. }
  cbv zeta. unfold cache_keys. rewrite Hpc. simpl. intros bs bm1 (-> & Hok1 & Hcfg & _) p1 Hr1 Hf1. unfold seq_set. apply wp_modify. simpl.
  exists bm1, ew. simpl. split; [by constructor|]. split; [done|]. split; [done|].
  split; [apply (rs_once _ _ _ _ Hrs)|]. split; [destruct (ss_kv _ _ _ Hq); by constructor|]. split; [apply (ss_tokens _ _ _ Hq)|apply (ss_emb _ _ _ Hq)].
Qed.
Lemma pool_deallocate_serves now p q qs :
  pool_serves p (q :: qs) → 0 ≤ dp_rank_ q → wp (pool_deallocate now) (serves_after qs q) (p, q).
Proof.
  intros Hs Hd. destruct (serves_at p q qs Hs Hd) as (bm & ew & Hh & Hrs).
  eapply (served_op _ p q qs bm ew); [done|done| |apply pool_deallocate_carries].
  pose proof (others_bounds _ _ _ _ _ Hs Hrs) as [Hl _]. pose proof (ps_seqs _ _ Hs) as Hq. apply Forall_cons in Hq as [Hq _].
  pose proof (no_cache _ _ (hl_blocks _ _ _ _ _ _ _ Hh) (rs_prefix _ _ _ _ Hrs)) as Hpc.
  eapply wp_mono.
  { apply (pool_deallocate_lemma (dp_rank_ q) p q bm ew (vecs (on (dp_rank_ q) qs)) (embs (on (dp_rank_ q) qs))); [done| | |by rewrite Hpc|].
    - pose proof (ss_tokens _ _ _ Hq). lia.
    - apply room_small; [apply Hh|]. simpl. rewrite !length_app in *. lia.
    - unfold cache_keys. rewrite Hpc. split; [by intros ?????? (? & ? & ? & ? & _)|by intros ?? (? & ? & ? & ? & _)]. }
  intros _ [p' q'] [(bm' & ew' & Hr & Hf & Hcfg & Hb & He & _ & Eb & Et & Eo & Ev & Ek & _ & Edp & Eho & Esr & Erc) _]. simpl in *.
  exists bm', ew'. simpl. split; [|split; [done|split; [done|]]].
  - constructor; try done; [rewrite Eb; by apply bm_ok_nil|]. unfold emb_of. by rewrite Ev.
  - rewrite Eb, Et. split; [by eapply once_others|]. split; [|split; [pose proof (ss_some _ _ _ Hq); lia|by unfold has_embedding_id; rewrite Ev]].
    destruct (ss_kv _ _ _ Hq). constructor; rewrite ?Eb, ?Et, ?Eo; simpl; try done; lia.
Qed.

(** A sequence that holds nothing gets all or nothing; one that holds blocks gets the
    missing ones or none. *)
Lemma allocate_new_serves n p q qs :
  pool_serves p (q :: qs) → 0 ≤ dp_rank_ q → 0 < n < 2 ^ 28 → blocks_ (kv_state_ q) = [] →
  wp (pool_allocate n) (serves_after qs q) (p, q).
Proof.
  intros Hs Hd Hn Hnil. destruct (serves_at p q qs Hs Hd) as (bm & ew & Hh & Hrs).
  eapply (served_op _ p q qs bm ew); [done|done| |apply pool_allocate_carries].
  pose proof (others_bounds _ _ _ _ _ Hs Hrs) as [Hl Hle]. pose proof (ps_seqs _ _ Hs) as Hq. apply Forall_cons in Hq as [Hq _].
  pose proof (once_others _ _ _ _ _ Hrs) as Hon. rewrite length_app in Hl.
  pose proof (no_cache _ _ (hl_blocks _ _ _ _ _ _ _ Hh) (rs_prefix _ _ _ _ Hrs)) as Hpc.
  assert (shared_result bm (tokens q) [] = []) as Hsh by (unfold shared_result; by rewrite Hpc).
  pose (M := Z.to_nat (2 ^ 28)). assert (Z.of_nat M = 2 ^ 28) as HM by (unfold M; lia). clearbody M.
  destruct Hrs as [Hb He Hp Hz Ht Hnd]. destruct Hq as [_ _ Hk Hpos Htk Hbuf _ _ _ _ Hemb].
  pose proof (ko_tokens _ _ Hk) as Hko. rewrite Hnil in Hko. simpl in Hko.
  assert (Z.of_nat (num_tokens_ (toks q)) ≤ 2 ^ 26) as Hnum by lia.
  eapply wp_mono.
  { apply (pool_allocate_new_ok (dp_rank_ q) p q bm ew _ _ (p_block_size (pool_options p)) n M Hh); rewrite ?Hsh; try done.
    - by apply Hemb.
    - by rewrite Hp, (ps_prefix _ _ Hs).
    - split; constructor.
    - simpl. lia.
    - lia.
    - simpl in Hl. lia.
    - lia.
    - lia. }
  intros ok [p' q'] [Hres _]. simpl in *. rewrite Hsh in Hres. destruct ok.
  - destruct Hres as (bm' & ew' & new & Hh' & Hf & Hcfg & Eb & Hfr & Hlen & Hk' & Et & Hemb'). simpl in *.
    exists bm', ew'. do 3 (split; [done|]). simpl. rewrite Eb, Et, Hemb'. split; [|split; [done|split; [simpl; lia|]]].
    + pose proof (bm_vecs _ _ (hl_blocks _ _ _ _ _ _ _ Hh')) as [[_ Hv] _]%Forall_cons. simpl in Hv. rewrite Eb in Hv.
      apply once_app; [done|done|]. intros i Hi. apply Hfr in Hi as [Hi _]. intros Hi'. apply Hi. unfold BlockManager.held. by rewrite elem_of_list_to_set.
    + split; [done|]. intros ->. simpl in Hlen. pose proof (ceil_div_spec n (p_block_size (pool_options p)) (proj1 (ps_size _ _ Hs))). pose proof (ps_size _ _ Hs). nia.
  - destruct Hres as (bm' & ew' & Hh' & Hf & Hcfg & Eb & Hemb' & Et & Eo). simpl in *.
    exists bm', ew'. do 3 (split; [done|]). simpl. rewrite Eb, Et. split; [done|]. split; [|split; [lia|done]].
    destruct Hk. constructor; rewrite ?Eb, ?Et, ?Eo; simpl; try done; lia.
Qed.
Lemma allocate_more_serves n p q qs :
  pool_serves p (q :: qs) → 0 ≤ dp_rank_ q → 0 < n < 2 ^ 28 → blocks_ (kv_state_ q) ≠ [] →
  wp (pool_allocate n) (serves_after qs q) (p, q).
Proof.
  intros Hs Hd Hn Hne. destruct (serves_at p q qs Hs Hd) as (bm & ew & Hh & Hrs).
  eapply (served_op _ p q qs bm ew); [done|done| |apply pool_allocate_carries].
  pose proof (others_bounds _ _ _ _ _ Hs Hrs) as [Hl _]. pose proof (ps_seqs _ _ Hs) as Hq. apply Forall_cons in Hq as [Hq _].
  pose proof (ps_size _ _ Hs) as Hsz. pose proof (ceil_div_spec n _ (proj1 Hsz)) as Hceil.
  assert (has_embedding_id q = true) as Hemb by (destruct (has_embedding_id q) eqn:E; [done|by apply (ss_emb _ _ _ Hq) in E]).
  assert (length (blocks_ (kv_state_ q)) ≠ 0%nat) as Hne' by (by destruct (blocks_ (kv_state_ q))).
  unfold pool_allocate. apply wp_bind, (wp_get_dp_rank (dp_rank_ q)); [done|done|]. apply wp_bind, wp_get. simpl.
  unfold num_kv_blocks. rewrite Hemb, (proj2 (Nat.eqb_neq _ _) Hne'). simpl. apply wp_bind, wp_ret. simpl. apply wp_bind, wp_ret.
  eapply wp_mono.
  { apply (extend_ok (dp_rank_ q) p q bm ew (vecs (on (dp_rank_ q) qs)) (embs (on (dp_rank_ q) qs)) (p_block_size (pool_options p)) n false);
      [done|apply Hq|done|apply Hrs|lia|]. apply room_small; [apply Hh|]. simpl. nia. }
  assert (∀ bm' ew' p', holds (dp_rank_ q) p' q bm' ew' (vecs (on (dp_rank_ q) qs)) (embs (on (dp_rank_ q) qs)) →
    pool_frame (dp_rank_ q) p p' → same_config bm bm' → left_with p q qs bm (p', q)) as Hsame.
  { intros bm' ew' p' Hh' Hf Hcfg. exists bm', ew'. do 3 (split; [done|]). split; [apply (rs_once _ _ _ _ Hrs)|].
    split; [apply Hq|]. split; [apply (ss_tokens _ _ _ Hq)|apply Hq]. }
  intros ok [p' q'] Hres. destruct (_ <=? 0); [destruct Hres as [_ [= -> ->]]; by apply (Hsame bm ew)|].
  destruct (_ <=? available bm).
  - destruct Hres as (_ & bm' & bs & Eq & Hh' & Hf & Hcfg & Hlen & Hk' & Hfr). simpl in *. subst q'. simpl in *.
    exists bm', ew. simpl. do 3 (split; [done|]). split; [|split; [done|split; [apply (ss_tokens _ _ _ Hq)|]]].
    + pose proof (bm_vecs _ _ (hl_blocks _ _ _ _ _ _ _ Hh')) as [[_ Hv] _]%Forall_cons. simpl in Hv.
      apply once_app; [done|by eapply once_others|]. intros i Hi Hi'. unfold ids in *.
      rewrite fmap_app, elem_of_app in Hi. destruct Hi as [Hi|Hi].
      * pose proof (rs_once _ _ _ _ Hrs) as Hnd. change (vecs (q :: on (dp_rank_ q) qs)) with (blocks_ (kv_state_ q) :: vecs (on (dp_rank_ q) qs)) in Hnd.
        simpl in Hnd. unfold ids in Hnd. rewrite fmap_app in Hnd. apply NoDup_app in Hnd as (_ & Hx & _). by apply (Hx i).
      * apply (proj1 (Hfr i Hi)). unfold BlockManager.held, ids. simpl. rewrite elem_of_list_to_set, fmap_app, elem_of_app. by right.
    + split; [|by intros [? _]%app_eq_nil]. change (has_embedding_id q = false → blocks_ (kv_state_ q) ++ bs = []). by rewrite Hemb.
  - destruct Hres as (_ & Eq & bm' & Hh' & Hf & Hcfg). simpl in *. subst q'. by apply (Hsame bm' ew).
Qed.
Lemma pool_allocate_serves n p q qs :
  pool_serves p (q :: qs) → 0 < n < 2 ^ 28 → wp (pool_allocate n) (serves_after qs q) (p, q).
Proof.
  intros Hs Hn. destruct (ranked_serves p q qs Hs) as [Hs' Hd]. eapply ranked_wp; [reflexivity|done|].
  eapply (wp_mono _ (serves_after qs (ranked p q))).
  - destruct (decide (blocks_ (kv_state_ (ranked p q)) = [])); [by apply allocate_new_serves|by apply allocate_more_serves].
  - intros ok s' [Hs1 Hu]. split; [done|]. etrans; [apply (ranked_untouched p q)|done].
Qed.
Lemma pool_release_serves t p q qs :
  pool_serves p (q :: qs) →
  wp (pool_deallocate t) (serves_after qs q) (p, q) ∧ wp (pool_cache t) (serves_after qs q) (p, q).
Proof.
  intros Hs. destruct (ranked_serves p q qs Hs) as [Hs' Hd].
  assert (∀ (u : unit) s', serves_after qs (ranked p q) u s' → serves_after qs q u s') as Hu
    by (intros u s' [? ?]; split; [done|etrans; [apply (ranked_untouched p q)|done]]).
  split; (eapply ranked_wp; [reflexivity|done|]); (eapply wp_mono; [|exact Hu]).
  - by apply pool_deallocate_serves.
  - by apply pool_cache_serves.
Qed.

(** ** The contract of the scheduler *)

Lemma same_served n bsz q q' : same_kv q q' → seq_served n bsz q → seq_served n bsz q'.
Proof.
  intros [[E1 E2 E3] E4 E5 E6 E7] []. unfold has_embedding_id in *.
  constructor; unfold has_embedding_id; by rewrite ?E1, ?E3, ?E4, ?E5, ?E6, ?E7.
Qed.
Lemma same_serves p q q' qs : same_kv q q' → pool_serves p (q :: qs) → pool_serves p (q' :: qs).
Proof.
  intros E [? ? ? ? Hr Hq]. apply Forall_cons in Hq as [Hq Hqs].
  constructor; try done; [|constructor; [by eapply same_served|done]]. intros r bm ew Ha. specialize (Hr r bm ew Ha).
  rewrite on_cons in Hr |- *. rewrite (sk_rank _ _ E). case_decide; [|done].
  assert (vecs (q' :: on r qs) = vecs (q :: on r qs) ∧ embs (q' :: on r qs) = embs (q :: on r qs)) as [Ev Ee].
  { split; [unfold vecs; simpl; by rewrite (sk_kv _ _ E)|]. unfold embs, emb_of. simpl. by rewrite (sk_embedding _ _ E). }
  destruct Hr. constructor; rewrite ?Ev, ?Ee; done.
Qed.
(** A new sequence holds nothing. *)
Lemma unused_serves p q qs : unused q → pool_serves p qs → pool_serves p (q :: qs).
Proof.
  intros [Ek Eh Ee Er Eb Et El] [? ? ? ? Hr Hq]. constructor; try done.
  - intros r bm ew Ha. rewrite on_cons, decide_False by (destruct Ha; lia). by apply Hr.
  - constructor; [|done]. unfold has_embedding_id.
    constructor; unfold has_embedding_id; rewrite ?Ek, ?Eh, ?Ee, ?Er; try done; try lia.
    constructor; simpl; try done; lia.
Qed.
End serves.

Section keeps.
Context {T : Type} `{HashFns} `{FloatOps F}.

(** C17: the pool keeps serving all its sequences.  For any number of ranks and sequences
    without prefix cache and without source
    blocks of a beam search left to process, the operations on one sequence — new, on a rank or not yet, with
    blocks or without — return without a failed check or undefined behaviour, leave the
    tokens and the status of the sequence alone, and keep the invariant of the whole pool:
    on every rank each block and each embedding id that is out is held by exactly one
    sequence, a sequence has an embedding id exactly when it has blocks, and what it has in
    the cache are tokens of its own that fit its blocks. *)
Theorem pool_keeps_serving (p : Pool) (q : Sequence T F) qs n t :
  pool_serves p (q :: qs) → 0 < n < 2 ^ 28 →
  wp (pool_allocate n) (serves_after qs q) (p, q) ∧
  wp (pool_deallocate t) (serves_after qs q) (p, q) ∧
  wp (pool_cache t) (serves_after qs q) (p, q).
Proof. intros Hs Hn. split; [by apply pool_allocate_serves|by apply pool_release_serves]. Qed.
End keeps.

Section laws.
Context {T : Type} `{HashFns} `{FloatOps F} `{DoubleOps D}.
Variables (clock : nat → Z) (threshold : D).
#[local] Existing Instance BlockManagerPool_manager.

Lemma wp_on_pool {A} (m : prog (Pool * Sequence T F) A) p c q qs :
  wp m (serves_after qs q) (p, q) →
  wp (on_pool m) (λ _ s', pool_serves s'.1.1 (s'.2 :: qs) ∧ untouched q s'.2) ((p, c), q).
Proof. intros Hm. unfold on_pool. apply wp_zoom. exact Hm. Qed.

#[export] Instance BlockManagerPool_laws :
  KVCacheManagerLaws (H := BlockManagerPool_manager (T := T) (F := F) clock threshold).
Proof.
  refine {| kv_inv k qs := pool_serves k.1 qs |}.
  - intros k ? <- l l' E. by rewrite E.
  - intros k q qs [_ _ _ _ _ Hq]. apply Forall_cons in Hq as [Hq _]. unfold cached_num. pose proof (ko_tokens _ _ (ss_kv _ _ _ Hq)).
    pose proof (ss_tokens _ _ _ Hq). rewrite (ss_host_tokens _ _ _ Hq). lia.
  - intros k q q' qs. apply same_serves.
  - intros k q qs. apply unused_serves.
  - intros n [p c] q qs Hs Hn. by apply wp_on_pool, pool_allocate_serves.
  - intros [p c] q qs Hs. simpl. unfold now. apply wp_bind. unfold wp. simpl. apply wp_on_pool.
    by apply (pool_release_serves _ _ _ _ Hs).
  - intros [p c] q qs Hs. simpl. unfold now. apply wp_bind. unfold wp. simpl. apply wp_on_pool.
    by apply (pool_release_serves _ _ _ _ Hs).
  - done.
  - intros [p c] qs Hs. simpl in *. unfold pool_num_used_blocks. intros E%fmap_nil_inv. pose proof (ps_some _ _ Hs) as Hn. rewrite E in Hn. simpl in Hn. lia.
Defined.
End laws.

(** ** A new pool, and a step over it *)

Section fresh.
Context {T : Type} `{HashFns} `{FloatOps F}.

(** A new pool without prefix cache serves no sequence yet. *)
Lemma BlockManagerPool_new_serves o dp_size max_seqs :
  p_enable_prefix_cache o = false → 0 < p_num_blocks o < 2 ^ 29 → 0 < p_block_size o < 2 ^ 31 →
  0 < dp_size < 2 ^ 31 → 0 ≤ max_seqs < 2 ^ 31 - 2 →
  wp (BlockManagerPool_new o dp_size max_seqs) (λ p _, pool_serves (T := T) (F := F) p []) ().
Proof.
  intros Hp Hn Hb Hd Hm. unfold BlockManagerPool_new. apply wp_bind, wp_check; [apply Z.ltb_lt; lia|].
  apply wp_bind. eapply wp_mono.
  { apply (wp_repeat_each _ _ (λ k l _, (length l + k = Z.to_nat dp_size)%nat ∧
      Forall (λ bm, bm_ok bm [] ∧ BlockManager.options_ (core bm) = manager_options o ∧
                    length (free_blocks_ (core bm)) = Z.to_nat (p_num_blocks o)) l)); [done|].
    intros k l u [Hl HF]. set (bm0 := mkBM _ _ _ _).
    assert (wp (BlockManagerImpl_new (manager_options o)) (λ _ s', bm_ok s' [] ∧ BlockManager.options_ (core s') = manager_options o ∧
        num_free_blocks_ (core s') = num_blocks_opt (manager_options o) - 1 ∧
        length (free_blocks_ (core s')) = Z.to_nat (num_blocks_opt (manager_options o)) ∧ (∀ i, ¬ cached s' i)) bm0) as Hw.
    { apply BlockManagerImpl_new_spec; simpl; [lia|lia|]. by rewrite Hp. }
    unfold wp in *. destruct (BlockManagerImpl_new _ bm0); [|done..]. destruct Hw as (? & ? & _ & Hlen & _).
    rewrite length_app. simpl. split; [lia|]. apply Forall_app. split; [done|]. by apply Forall_singleton. }
  intros bms u [Hl HF]. apply wp_ret. rewrite Nat.add_0_r in Hl. constructor; simpl; try done.
  - by rewrite length_replicate.
  - lia.
  - intros r bm ew (Hr & Hbm & Hew). simpl in *. pose proof (Forall_lookup_1 _ _ _ _ HF Hbm) as (Hok & Ho & Hlen).
    apply lookup_replicate in Hew as [-> _]. constructor; simpl; try done; try (by rewrite Ho).
    + rewrite u32_id by lia. apply emb_new_ok. lia.
    + unfold prefix_enabled. by rewrite Ho.
    + lia.
    + constructor.
Qed.
Lemma unused_all_serve (p : Pool) (qs l : list (Sequence T F)) : Forall unused l → pool_serves p qs → pool_serves p (l ++ qs).
Proof. intros Hl Hs. induction Hl as [|q l Hq _ IH]; [done|]. by apply unused_serves. Qed.
End fresh.

#[local] Existing Instance sample_hash.
#[local] Existing Instance sample_floats.
#[local] Existing Instance sample_doubles.
#[local] Existing Instance sample_profile.

(** Two ranks of eight blocks of four tokens each, without prefix cache; three online
    requests arrive, one of them disconnected. *)
Definition plain_pool_options : PoolOptions := mkPoolOptions 8 0 4 false false false false.
Definition plain_pool : Pool :=
  match BlockManagerPool_new plain_pool_options 2 4 () with
  | Done p _ => p
  | _ => mkPool plain_pool_options [] [] []
  end.
Definition plain_options : SchedOptions :=
  mkSchedOptions 20 4 0 1 false false false "fcfs" true false 100 100 1000 false false 10.
Definition plain_start : SampleSched :=
  mkSched plain_options (plain_pool, 0%nat)
    (list_to_map ((λ i, (i, sample_request false (Z.of_nat i))) <$> [0; 1; 2]%nat))
    [0; 1; 2]%nat [] [] [] [] [] [] [] false 0 [] [].
Definition gone (id : nat) : bool := bool_decide (id = 1%nat).

Lemma sample_seq_fine t : Forall unused (sequences_ (sample_request false t)) ∧ request_ok false (sample_request false t).
Proof.
  split; [repeat constructor; vm_compute; try done; intros; lia|].
  constructor; try done; try (vm_compute; lia); [by exists 16|].
  repeat constructor; try (vm_compute; lia). by exists 16.
Qed.
Lemma plain_pool_serves : pool_serves (T := unit) (F := Z) plain_pool [].
Proof.
  pose proof (BlockManagerPool_new_serves (T := unit) (F := Z) plain_pool_options 2 4) as Hw. unfold plain_pool.
  unfold wp in Hw. destruct (BlockManagerPool_new _ _ _ _); [|exfalso; apply Hw; simpl; done || lia..].
  apply Hw; simpl; done || lia.
Qed.
Lemma plain_start_ok : sched_ok (D := Z) (K := Pool * nat) (H4 := BlockManagerPool_manager sample_clock 1) plain_start.
Proof.
  constructor; try done.
  - constructor; [|repeat (apply map_Forall_insert_2; [apply sample_seq_fine|]); apply map_Forall_empty].
    simpl. rewrite <-(app_nil_r (all_seqs _)). apply unused_all_serve; [|apply plain_pool_serves].
    unfold all_seqs. apply Forall_concat, Forall_fmap, Forall_fmap. eapply Forall_impl;
      [apply (map_Forall_to_list (λ _ r, Forall unused (sequences_ r)))|by intros []].
    repeat (apply map_Forall_insert_2; [apply sample_seq_fine|]); apply map_Forall_empty.
  - apply (bool_decide_unpack _). computed.
  - apply (bool_decide_unpack _). computed.
  - repeat constructor; (eexists; split; [reflexivity|by right]).
Qed.
Lemma step_safe_witness :
  wp (prepare_batch (H3 := BlockManagerPool_manager sample_clock 1) (λ _, 1) 4%nat gone)
     (λ _ s', sched_ok (D := Z) (H4 := BlockManagerPool_manager sample_clock 1) s' ∧ located s' ≡ₚ [0; 1; 2]%nat) plain_start.
Proof.
  assert ([0; 1; 2]%nat = located plain_start) as -> by computed.
  apply step_safe; [intros x y; simpl; by rewrite Z.add_0_r|apply plain_start_ok|by apply (bool_decide_unpack _)].
Defined.

(** A new sequence on the new pool *)
Lemma pool_keeps_serving_witness :
  length (sequences_ (sample_request false 0)) = 1%nat ∧
  Forall (λ q, wp (pool_allocate 6) (λ _ s', pool_serves s'.1 [s'.2] ∧ untouched q s'.2) (plain_pool, q))
    (sequences_ (sample_request false 0)).
Proof.
  split; [computed|]. eapply Forall_impl; [apply (proj1 (sample_seq_fine 0))|]. intros q Hq.
  apply (pool_keeps_serving plain_pool q [] 6 0); [|lia]. apply unused_serves; [done|apply plain_pool_serves].
Defined.
