(* ===== verification/ChunkedServes.v ===== *)
(** Chunked prefill over the block manager pool: the pool without prefix cache keeps the
    contract of [allocate_shared], and concrete steps. *)

From stdpp Require Import base gmap list strings.
From Stdlib Require Import ZArith Lia.
From S2P Require Import Prelude HashKey Blocks PrefixCache BlockManager KVState Stopping IncrementalDecoder LogprobState Sequence Pool.
From S2P Require Import Samples Request Scheduler SchedBatch SchedOrder SchedPool.
From S2P Require Import Chunked ChunkedOrder SchedSafe ChunkedSafe PoolServes.
Open Scope Z_scope.

Section laws.
Context {T : Type} `{HashFns} `{FloatOps F} `{DoubleOps D}.
Variables (clock : nat → Z) (threshold : D).

(** [BlockManagerPool::allocate_shared] *)
#[export] Instance BlockManagerPool_shared : SharedAllocation (Pool * nat) T F := on_pool pool_allocate_shared.
(** It has nothing to share without a prefix cache. *)
#[export] Instance BlockManagerPool_shared_law :
  SharedAllocationLaw (Pool * nat) T F (H := BlockManagerPool_manager clock threshold).
Proof.
  intros [p c] q qs Hs. apply wp_on_pool. unfold pool_allocate_shared. apply wp_bind, wp_get. simpl in *.
  rewrite (ps_prefix _ _ Hs). by apply wp_ret.
Qed.
End laws.

#[local] Existing Instance sample_hash.
#[local] Existing Instance sample_floats.
#[local] Existing Instance sample_doubles.
#[local] Existing Instance sample_profile.
#[local] Instance sample_trunc : DoubleTrunc Z := λ d, d.

(** Chunks of four tokens, and fifteen tokens for a step *)
Definition sample_chunk : ChunkOptions := mkChunkOptions 4 true 15 2.
Abbreviation sample_chunks :=
  (prepare_chunks (H4 := BlockManagerPool_manager sample_clock 1) (λ _, 1) sample_chunk 4%nat gone).

(** The prompts have six tokens.  Each gets a chunk; of the three tokens that are left the
    first prompt gets the two it needs, and the second the last one. *)
Example chunks_of_a_step :
  let s := state_of sample_chunks plain_start in
  running_sequences_ s = [(0, 0); (1, 0); (2, 0)]%nat ∧ running_sequences_budgets_ s = [6; 5; 4].
Proof. split; computed. Qed.
Lemma chunk_step_safe_witness :
  wp sample_chunks
    (λ _ s', sched_ok (D := Z) (H4 := BlockManagerPool_manager sample_clock 1) s' ∧ located s' ≡ₚ [0; 1; 2]%nat ∧
       total (running_sequences_budgets_ s') ≤ 15) plain_start.
Proof.
  assert ([0; 1; 2]%nat = located plain_start) as -> by computed.
  eapply wp_mono; [apply (chunk_step_safe (λ _, 1) sample_chunk)|].
  - simpl. lia.
  - simpl. lia.
  - intros x y. simpl. by rewrite Z.add_0_r.
  - done.
  - apply plain_start_ok.
  - constructor; [done|]. apply (bool_decide_unpack _). computed.
  - by split.
  - done.
  - apply (bool_decide_unpack _). computed.
  - intros u s' (Ho & Hl & Hc). split; [done|]. split; [done|]. exact (cb_tokens _ _ _ Hc).
Defined.
Lemma chunks_conserved_witness : wp sample_chunks (λ _ s', located s' ≡ₚ [0; 1; 2]%nat) plain_start.
Proof.
  assert ([0; 1; 2]%nat = located plain_start) as -> by computed.
  apply post_returns; [|computed]. apply (chunks_conserved (λ _, 1) sample_chunk); [|done].
  apply (bool_decide_unpack _). computed.
Defined.

(** An online request and two offline ones run. *)
Definition offline_running : SampleSched :=
  mkSched plain_options (plain_pool, 0%nat)
    (list_to_map [(0%nat, sample_request false 1); (1%nat, sample_request true 2); (2%nat, sample_request true 3)])
    [] [] [] [0%nat] [1; 2]%nat [] [] [] false 0 [] [].
Lemma offline_preemption_drops_online_witness :
  wp (chunk_preempt_back (H4 := BlockManagerPool_manager sample_clock 1) true)
    (λ _ s', running_queue_ s' = [] ∧ (2%nat ∈ running_queue_offline_ s') ∧ 0%nat :: located s' ≡ₚ [2; 0; 1; 2]%nat) offline_running.
Proof.
  eapply wp_mono; [apply post_returns; [apply (offline_preemption_drops_online (D := Z) (λ _, 1))|computed]|].
  intros u s' (victim & dropped & [= <-] & [= <-] & Hv & _ & Hr & Hl). split; [by destruct (running_queue_ s') as [|? []]|].
  split; [done|]. exact Hl.
Defined.
